(* ===== verification/_CoqProject ===== *)
-Q . S2P
Prelude.v
Status.v
File.v
Encoding.v
DbFormat.v
Comparator.v
Filename.v
Hash.v
Bloom.v
FilterBlock.v
BlockBuilder.v
Iterator.v
Block.v
SkipList.v
Wal.v
WriteBatch.v
MemTable.v
Merger.v
TwoLevelIterator.v
DbIter.v
Cache.v
CacheClient.v
Compress.v
Format.v
TableBuilder.v
Table.v
VersionEdit.v
Version.v
VersionGet.v
VersionBuilder.v
Compaction.v
CompactionWork.v
CompactionInstall.v
WriteGroup.v
WriteQueue.v
DbRead.v
Background.v
TableCache.v
Disk.v
Manifest.v
ManifestSafe.v
BuildTable.v
Flush.v
DbRecover.v
DbOpen.v
Repair.v
