(* ===== verification/Prelude.v ===== *)
(** Ambar: a verification development of an embedded key-value store
    (a log-structured merge tree in C++, src/).

    * The program and its parts

    A write goes into a log and a memtable; a full memtable is flushed into a
    sorted table file; background compactions merge tables down seven levels; a
    manifest of edits, found through the file CURRENT, says which tables make up
    the database; a read asks the memtables, then the levels.  Every layer is
    modelled by the file named after it; each file has one Module of that name.

    Values and files:
    - Prelude: bytes, machine integers with their wrap-around, shared tactics
      and lemmas.  Status: src/include/ambar/status.hpp.  A C++ function that
      may hit undefined behaviour (an out-of-range access, a dangling pointer)
      returns [option], [None] being that behaviour; theorems that a function
      returns [Some] exclude it.
    - File: the three file classes of src/src/file.hpp.  A writable file is what
      is on the disk, in the kernel and in the process; every call may fail by a
      script the file carries, so theorems quantify over all failures.  Disk: a
      directory of such files with a journal of name operations, and what a
      power cut leaves of it.  A cut in the middle of an operation is a script
      in which everything after it fails.
    - Encoding: fixed and variable integers, CRC-32C (src/src/encoding.[ch]pp).
      DbFormat: internal keys (dbformat.[ch]pp).  Comparator (comparator.[ch]pp).
      Filename: names and parsing (filename.[ch]pp).  Hash (hash.hpp).

    The log: Wal (wal.[ch]pp), records in 32 KiB blocks, writer and reader with its
    test for damage.  WriteBatch (write_batch.[ch]pp).

    Memory: SkipList (skiplist.hpp), as a heap of nodes with the stores of an
    insert in order, so that a concurrent reader can be placed between any two;
    MemTable (memtable.[ch]pp).

    Tables: BlockBuilder, Block (block_builder.[ch]pp, block.[ch]pp), FilterBlock, Bloom
    (filter_block.[ch]pp, bloom.cpp, internal_filter_policy.[ch]pp), Compress
    (compress.[ch]pp), Format (format.[ch]pp), TableBuilder, Table (table_builder.[ch]pp, table.[ch]pp).

    Iterators: Iterator (the interface as a record of operations and a class of
    laws), Merger, TwoLevelIterator, DbIter (merger.[ch]pp, two_level_iterator.[ch]pp,
    db_iter.[ch]pp).

    Caches: Cache (cache.cpp: the hash table, the recency list and the shards)
    and CacheClient (every sequence of calls on it); TableCache
    (table_cache.[ch]pp).

    The version set (version_edit.[ch]pp, version_set.[ch]pp): VersionEdit, Version,
    VersionGet, VersionBuilder, Compaction (choosing inputs), Manifest and
    ManifestSafe (log_and_apply, recover, CURRENT).

    The database (db_impl.[ch]pp, builder.cpp): CompactionWork and CompactionInstall
    (do_compaction_work and its result), WriteGroup (write: group commit,
    rotation), WriteQueue (the queue of writers as a transition system), DbRead
    (get, snapshots, remove_obsolete_files), Background (the background thread
    and compact_range as a transition system),
    BuildTable and Flush (build_table, compact_memtable), DbRecover and DbOpen
    (DB::open and the replay of the logs), Repair (repair.cpp: reading the
    survivors and merging them).

    * How components meet

    Classes state what one component promises another: [ComparatorLaws],
    [FilterPolicyLaws], [Grouping] (keys a filter treats alike),
    [SortedIterator] (an iterator that shows a sorted list), [Serves] (a file
    that serves its contents), [TableReaderLaws] (what looking a key up in a
    table returns), [EnvLaws] and [Healthy] (what a compaction needs of its
    files).  Clients are proved against them and implementations discharge
    them: block iterators give table iterators, those give the merge and the
    database iterator; tables through the table cache give [DBImpl::get].

    * What the theorems show

    - Durability: acknowledged writes survive a process's death and synced ones
      a power cut (WriteGroup, Wal); installing an edit is atomic and durable
      under any failures (ManifestSafe); no file that is needed is deleted
      (DbRead); a flush, and opening a database whose process died, never lose a
      write (Flush, DbOpen); repair keeps exactly the newest versions (Repair).
    - Reads: the memtables and real tables, through filters and caches, answer
      with the newest visible version (TableCache); the database iterator shows
      exactly the newest visible versions in order (DbIter, Merger); compaction
      preserves what every live snapshot sees (CompactionWork,
      CompactionInstall, Compaction).
    - Concurrency, by invariants of transition systems: writers are answered in
      order and always (WriteQueue), readers of the skip list see a valid list
      during an insert (SkipList), background work is not lost (Background), no
      cache frees what is held (CacheClient, TableCache).
    - Formats: round trips of edits, batches, blocks, compressed blocks, tables
      and names; checksums detect bursts; decoders of arbitrary bytes stay
      inside them and terminate (Block, Compress, Format, VersionEdit, Wal).

    * Fuel and bounds

    Loops whose recursion is not structural carry fuel, and each theorem that a
    function returns shows that the fuel the definition passes is enough:
    readers of a log get the bytes left (every record consumes some), searches
    the length of what they search, iterators the number of entries, evictions
    the length of the recency list, the compaction loops the number of input
    entries.  Integers are in Z with [u8], [u32], [u64] written at every place
    the code narrows; theorems that need sizes below 2^32 or numbers below 2^64
    say so as hypotheses.

    * Not modelled

    The operating-system side of file.cpp (system calls, locks, Windows);
    the arena's memory; the reference counts of versions and file objects;
    statistics and printed summaries (get_property, debug_string); timing and
    the choice of sleeping or spinning, beyond what the transition systems
    allow; of the repair tool, the rounds of its merge, its
    log replay, its lost directory and repair_db itself; tools, fuzz targets and tests. *)
From Stdlib Require Export ZArith Lia Strings.Byte.
From stdpp Require Export base option list list_numbers strings sorting.
Open Scope Z_scope.

(** * Bytes

    A C++ [char]/[unsigned char] is a [byte]; a [std::string] or
    [std::string_view] is a [list byte].  [byte_to_Z] is the read through
    [static_cast<unsigned char>], [Z_to_byte] the store through
    [static_cast<char>] (truncation to eight bits). *)
Abbreviation bytes := (list byte).

Definition byte_to_Z (b : byte) : Z := Z.of_N (Byte.to_N b).
Definition Z_to_byte (z : Z) : byte :=
  default x00 (Byte.of_N (Z.to_N (z mod 256))).

#[global] Instance byte_eq_decision : EqDecision byte := Byte.byte_eq_dec.

(** * Machine integers: values are in [Z], each conversion to a width writes
    its wrap-around. *)
Definition u8 (z : Z) : Z := z mod 2 ^ 8.
Definition u32 (z : Z) : Z := z mod 2 ^ 32.
Definition u64 (z : Z) : Z := z mod 2 ^ 64.

(** [std::string::size] as an integer. *)
Definition size (l : bytes) : Z := Z.of_nat (length l).

(** The characters of a literal. *)
Definition string_bytes (s : string) : bytes := String.list_byte_of_string s.

(** [size_t] subtraction of sizes of objects in memory (below 2^64): it wraps
    exactly when the result would be negative. *)
Definition size_sub (a b : Z) : Z := if a <? b then a - b + 2 ^ 64 else a - b.

Declare Scope ambar_scope.
Delimit Scope ambar_scope with ambar.
Notation "x .^ y" := (Z.lxor x y) (at level 50, left associativity) : ambar_scope.
Notation "x .>> k" := (Z.shiftr x k) (at level 45, left associativity) : ambar_scope.
Notation "x .<< k" := (Z.shiftl x k) (at level 45, left associativity) : ambar_scope.
Notation "x .& y" := (Z.land x y) (at level 47, left associativity) : ambar_scope.
Notation "x .| y" := (Z.lor x y) (at level 51, left associativity) : ambar_scope.
Open Scope ambar_scope.

(** * Automation *)

(** [zmod] solves linear goals with constant divisors. *)
Ltac zmod := Z.div_mod_to_equations; lia.

(** Case analysis on membership of a concrete list. *)
Ltac elem_cases :=
  repeat match goal with
  | H : _ ∈ [] |- _ => by apply not_elem_of_nil in H
  | H : _ ∈ _ :: _ |- _ => apply elem_of_cons in H as [H|H]; simplify_eq
  end.

(** Destruct the scrutinee of an [if]/[match] in the goal or a hypothesis. *)
Ltac case_if :=
  match goal with
  | |- context [if ?b then _ else _] => destruct b eqn:?
  | H : context [if ?b then _ else _] |- _ => destruct b eqn:?
  end.

(** Boolean comparisons to propositions. *)
Ltac b2p :=
  repeat match goal with
  | H : andb _ _ = true |- _ => apply andb_true_iff in H; destruct H
  | H : orb _ _ = false |- _ => apply orb_false_iff in H; destruct H
  | H : negb _ = true |- _ => apply negb_true_iff in H
  | H : negb _ = false |- _ => apply negb_false_iff in H
  | H : (_ <? _)%Z = true |- _ => apply Z.ltb_lt in H
  | H : (_ <? _)%Z = false |- _ => apply Z.ltb_ge in H
  | H : (_ <=? _)%Z = true |- _ => apply Z.leb_le in H
  | H : (_ <=? _)%Z = false |- _ => apply Z.leb_gt in H
  | H : (_ =? _)%Z = true |- _ => apply Z.eqb_eq in H
  | H : (_ =? _)%Z = false |- _ => apply Z.eqb_neq in H
  | H : (_ <? _)%nat = true |- _ => apply Nat.ltb_lt in H
  | H : (_ <? _)%nat = false |- _ => apply Nat.ltb_ge in H
  | H : (_ <=? _)%nat = true |- _ => apply Nat.leb_le in H
  | H : (_ <=? _)%nat = false |- _ => apply Nat.leb_gt in H
  | H : (_ =? _)%nat = true |- _ => apply Nat.eqb_eq in H
  | H : (_ =? _)%nat = false |- _ => apply Nat.eqb_neq in H
  end.

(** * Bytes and integers *)
Lemma byte_to_Z_range b : 0 <= byte_to_Z b < 256.
Proof.
  unfold byte_to_Z. pose proof (Byte.to_N_bounded b). lia.
Qed.

Lemma byte_to_Z_of_Z z : byte_to_Z (Z_to_byte z) = z mod 256.
Proof.
  unfold byte_to_Z, Z_to_byte.
  assert (0 <= z mod 256 < 256) as Hr by (apply Z.mod_pos_bound; lia).
  destruct (Byte.of_N (Z.to_N (z mod 256))) as [b|] eqn:E; simpl.
  - apply Byte.to_of_N in E. rewrite E. lia.
  - apply Byte.of_N_None_iff in E. lia.
Qed.

Lemma Z_to_byte_to_Z b : Z_to_byte (byte_to_Z b) = b.
Proof.
  unfold Z_to_byte. pose proof (byte_to_Z_range b).
  rewrite Z.mod_small by lia. unfold byte_to_Z. rewrite N2Z.id.
  by rewrite Byte.of_to_N.
Qed.

#[global] Instance byte_to_Z_inj : Inj (=) (=) byte_to_Z.
Proof.
  intros a b E. rewrite <- (Z_to_byte_to_Z a), <- (Z_to_byte_to_Z b). by rewrite E.
Qed.

Lemma byte_to_Z_small z : 0 <= z < 256 -> byte_to_Z (Z_to_byte z) = z.
Proof. intros. rewrite byte_to_Z_of_Z. apply Z.mod_small. lia. Qed.

Lemma Z_to_byte_mod z : Z_to_byte (z mod 256) = Z_to_byte z.
Proof. unfold Z_to_byte. by rewrite Z.mod_mod by lia. Qed.

Lemma u8_range z : 0 <= u8 z < 2 ^ 8.
Proof. apply Z.mod_pos_bound. lia. Qed.
Lemma u32_range z : 0 <= u32 z < 2 ^ 32.
Proof. apply Z.mod_pos_bound. lia. Qed.
Lemma u64_range z : 0 <= u64 z < 2 ^ 64.
Proof. apply Z.mod_pos_bound. lia. Qed.
Lemma u32_small z : 0 <= z < 2 ^ 32 -> u32 z = z.
Proof. intros. by apply Z.mod_small. Qed.
Lemma u64_small z : 0 <= z < 2 ^ 64 -> u64 z = z.
Proof. intros. by apply Z.mod_small. Qed.

Lemma land_ones_mod z n : 0 <= n -> Z.land z (2 ^ n - 1) = z mod 2 ^ n.
Proof.
  intros. rewrite <- Z.land_ones by lia. f_equal. rewrite Z.ones_equiv. lia.
Qed.
Lemma land_255 z : Z.land z 255 = z mod 256.
Proof. exact (land_ones_mod z 8 ltac:(lia)). Qed.
Lemma land_127 z : Z.land z 127 = z mod 128.
Proof. exact (land_ones_mod z 7 ltac:(lia)). Qed.

(** Disjoint bits add: the shape of every assembled integer. *)
Lemma lor_disjoint_add a b n :
  0 <= n -> 0 <= a < 2 ^ n -> Z.lor a (Z.shiftl b n) = a + b * 2 ^ n.
Proof.
  intros Hn Ha. rewrite Z.shiftl_mul_pow2 by lia.
  assert (Z.land a (b * 2 ^ n) = 0) as Hd.
  { apply Z.bits_inj'. intros i Hi. rewrite Z.land_spec, Z.bits_0.
    destruct (Z.lt_ge_cases i n).
    - rewrite Z.mul_pow2_bits_low by lia. apply andb_false_r.
    - rewrite <- (Z.mod_small a (2 ^ n)) by lia.
      by rewrite Z.mod_pow2_bits_high by lia. }
  rewrite <- Z.lxor_lor by done. symmetry. by apply Z.add_nocarry_lxor.
Qed.

Lemma land_ones_small a n : 0 <= n -> 0 <= a < 2 ^ n -> Z.land a (Z.ones n) = a.
Proof. intros. rewrite Z.land_ones by lia. by apply Z.mod_small. Qed.

Lemma lor_range a b n :
  0 <= n -> 0 <= a < 2 ^ n -> 0 <= b < 2 ^ n -> 0 <= Z.lor a b < 2 ^ n.
Proof.
  intros Hn Ha Hb.
  rewrite <- (land_ones_small a n), <- (land_ones_small b n) by done.
  rewrite <- Z.land_lor_distr_l, Z.land_ones by done.
  apply Z.mod_pos_bound, Z.pow_pos_nonneg; lia.
Qed.

Lemma lxor_range a b n :
  0 <= n -> 0 <= a < 2 ^ n -> 0 <= b < 2 ^ n -> 0 <= Z.lxor a b < 2 ^ n.
Proof.
  intros Hn Ha Hb.
  rewrite <- (land_ones_small a n), <- (land_ones_small b n) by done.
  assert (Z.lxor (Z.land a (Z.ones n)) (Z.land b (Z.ones n)) =
          Z.land (Z.lxor a b) (Z.ones n)) as ->.
  { apply Z.bits_inj'. intros i _. rewrite !Z.lxor_spec, !Z.land_spec, Z.lxor_spec.
    by destruct (Z.testbit a i), (Z.testbit b i), (Z.testbit (Z.ones n) i). }
  rewrite Z.land_ones by done. apply Z.mod_pos_bound, Z.pow_pos_nonneg; lia.
Qed.

Create HintDb ambar.
Create Rewrite HintDb ambar.
#[export] Hint Resolve byte_to_Z_range u8_range u32_range u64_range : ambar.
#[export] Hint Rewrite byte_to_Z_of_Z Z_to_byte_to_Z land_255 land_127 : ambar.

(** * Lists *)
Lemma size_app (a b : bytes) : size (a ++ b) = size a + size b.
Proof. unfold size. rewrite length_app. lia. Qed.
Lemma size_nonneg (a : bytes) : 0 <= size a.
Proof. unfold size. lia. Qed.
#[export] Hint Resolve size_nonneg : ambar.

(** * [std::string_view]

    [compare] is the lexicographic order of unsigned bytes, a proper prefix
    first; the C++ result is an [int] of which only the sign is used, so the
    model returns a [comparison]. *)
Fixpoint sv_compare (a b : bytes) : comparison :=
  match a, b with
  | [], [] => Eq
  | [], _ :: _ => Lt
  | _ :: _, [] => Gt
  | x :: a', y :: b' =>
      match Z.compare (byte_to_Z x) (byte_to_Z y) with
      | Eq => sv_compare a' b'
      | c => c
      end
  end.

(** [substr(0, n)] clamps [n] to the size. *)
Definition sv_prefix (s : bytes) (n : Z) : bytes := take (Z.to_nat (Z.min n (size s))) s.

Lemma sv_compare_refl a : sv_compare a a = Eq.
Proof. induction a as [|x a IH]; simpl; [done|]. by rewrite Z.compare_refl. Qed.

Lemma sv_compare_eq a b : sv_compare a b = Eq -> a = b.
Proof.
  revert b. induction a as [|x a IH]; intros [|y b]; simpl; try done.
  destruct (Z.compare_spec (byte_to_Z x) (byte_to_Z y)) as [E| |]; try done.
  intros H. apply (inj byte_to_Z) in E. by rewrite E, (IH b H).
Qed.

Lemma sv_compare_antisym a b : sv_compare b a = CompOpp (sv_compare a b).
Proof.
  revert b. induction a as [|x a IH]; intros [|y b]; simpl; try done.
  rewrite (Z.compare_antisym (byte_to_Z x)).
  by destruct (Z.compare (byte_to_Z x) (byte_to_Z y)); simpl.
Qed.

Lemma sv_compare_lt_trans a b c :
  sv_compare a b = Lt -> sv_compare b c = Lt -> sv_compare a c = Lt.
Proof.
  revert b c. induction a as [|x a IH]; intros [|y b] [|z c]; simpl; try done.
  destruct (Z.compare_spec (byte_to_Z x) (byte_to_Z y)) as [E1| |]; try done;
  destruct (Z.compare_spec (byte_to_Z y) (byte_to_Z z)) as [E2| |]; try done; intros.
  - rewrite E1, E2, Z.compare_refl. eauto.
  - rewrite E1. by destruct (Z.compare_spec (byte_to_Z y) (byte_to_Z z)); try lia.
  - rewrite <- E2. by destruct (Z.compare_spec (byte_to_Z x) (byte_to_Z y)); try lia.
  - by destruct (Z.compare_spec (byte_to_Z x) (byte_to_Z z)); try lia.
Qed.

(** Appending below a common prefix, and the first differing byte. *)
Lemma sv_compare_app p a b : sv_compare (p ++ a) (p ++ b) = sv_compare a b.
Proof. induction p as [|x p IH]; simpl; [done|]. by rewrite Z.compare_refl. Qed.

Lemma sv_compare_head x y a b :
  byte_to_Z x < byte_to_Z y -> sv_compare (x :: a) (y :: b) = Lt.
Proof. intros. simpl. by destruct (Z.compare_spec (byte_to_Z x) (byte_to_Z y)); try lia. Qed.

Lemma sv_prefix_spec s n : 0 <= n <= size s -> sv_prefix s n = take (Z.to_nat n) s.
Proof. intros. unfold sv_prefix. by rewrite Z.min_l by lia. Qed.

(** A loop that appends to a string is a concatenation. *)
Lemma fold_append {A} (f : bytes -> A -> bytes) (g : A -> bytes) (l : list A) (dst : bytes) :
  (forall dst a, f dst a = dst ++ g a) -> fold_left f l dst = dst ++ (l ≫= g).
Proof.
  intros H. revert dst. induction l as [|a l IH]; intros dst; simpl.
  - by rewrite app_nil_r.
  - by rewrite IH, H, <- app_assoc.
Qed.

(** In a sorted list, an earlier element is related to a later one. *)
Lemma StronglySorted_lookup {A} (R : A -> A -> Prop) (l : list A) i j x y :
  StronglySorted R l -> (i < j)%nat -> l !! i = Some x -> l !! j = Some y -> R x y.
Proof.
  intros Hs. revert i j. induction Hs as [|z l Hs IH HF]; intros i j Hij Hi Hj; [done|].
  destruct j as [|j]; [lia|]. destruct i as [|i]; simpl in *.
  - injection Hi as ->. rewrite Forall_forall in HF. by eapply HF, list_elem_of_lookup_2.
  - apply (IH i j); [lia|done|done].
Qed.
Lemma StronglySorted_from_lookup {A} (R : A -> A -> Prop) (l : list A) :
  (forall i j x y, (i < j)%nat -> l !! i = Some x -> l !! j = Some y -> R x y) -> StronglySorted R l.
Proof.
  induction l as [|a l IH]; intros H; [constructor|]. constructor.
  - apply IH. intros i j x y Hij Hi Hj. by apply (H (S i) (S j)); [lia|..].
  - apply Forall_lookup. intros j y Hj. by apply (H 0%nat (S j)); [lia|..].
Qed.

Lemma default_last {A} (n x : A) (l : list A) : default n (last (x :: l)) = default x (last l).
Proof.
  revert n x. induction l as [|y l IH]; intros n x; [done|].
  change (last (x :: y :: l)) with (last (y :: l)). by rewrite !IH.
Qed.
