(* ===== verification/Status.v ===== *)
(** Returned errors (src/include/ambar/status.hpp, src/src/status.cpp) and
    the error monad of the calls that return one. *)
From S2P Require Import Prelude.

Module Status.

Inductive Code :=
  | kOk | kNotFound | kCorruption | kIoError | kInvalidArgument | kNotSupported.
#[global] Instance Code_eq_dec : EqDecision Code.
Proof. solve_decision. Defined.

Record Status := mkStatus { code : Code; message : string }.
#[global] Instance Status_eq_dec : EqDecision Status.
Proof. solve_decision. Defined.

Definition ok : Status := mkStatus kOk "".
Definition not_found (what : string) : Status := mkStatus kNotFound what.
Definition corruption (what : string) : Status := mkStatus kCorruption what.
Definition io_error (what : string) : Status := mkStatus kIoError what.
Definition invalid_argument (what : string) : Status := mkStatus kInvalidArgument what.
Definition not_supported (what : string) : Status := mkStatus kNotSupported what.

Definition is_ok (s : Status) : bool := bool_decide (code s = kOk).
Definition is_not_found (s : Status) : bool := bool_decide (code s = kNotFound).
Definition is_corruption (s : Status) : bool := bool_decide (code s = kCorruption).

Definition to_string (s : Status) : string :=
  let named (name : string) :=
    if bool_decide (message s = ""%string) then name
    else (name +:+ ": " +:+ message s)%string in
  match code s with
  | kOk => "ok"
  | kNotFound => named "not found"
  | kCorruption => named "corruption"
  | kIoError => named "io error"
  | kInvalidArgument => named "invalid argument"
  | kNotSupported => named "not supported"
  end.

End Status.
