(* ===== verification/File.v ===== *)
(** The file seam (src/src/file.hpp): append-only writable files with their
    three places a byte can be, and sequential files.

    The operating system behind these classes is outside the model; what the
    engine relies on is their documented behaviour, written here as state
    passing.  Every call may fail: a file carries the outcomes of its coming
    calls ([None] succeeds, [Some n] fails after [n] bytes took effect), so a
    theorem about a component that uses files quantifies over all failures. *)
From S2P Require Import Prelude Status.
Import Status.

Module File.

(** Where appended bytes are known to be.  The C library and the kernel may
    move bytes on earlier; [wf_disk] and [wf_kernel] are what has been
    waited for. *)
Record WritableFile := mkWritable {
  wf_open : bool;      (* file_ != nullptr *)
  wf_disk : bytes;     (* survives a power cut *)
  wf_kernel : bytes;   (* handed to the kernel after [wf_disk] *)
  wf_buffer : bytes;   (* still in this process *)
  wf_faults : list (option nat)
}.

(** All bytes appended so far. *)
Definition wf_contents (f : WritableFile) : bytes :=
  wf_disk f ++ wf_kernel f ++ wf_buffer f.

Definition wf_new (faults : list (option nat)) : WritableFile :=
  mkWritable true [] [] [] faults.

(** The outcome of the next call, and the file with that outcome used up. *)
Definition wf_next_fault (f : WritableFile) : option nat * WritableFile :=
  match wf_faults f with
  | [] => (None, f)
  | o :: rest => (o, mkWritable (wf_open f) (wf_disk f) (wf_kernel f) (wf_buffer f) rest)
  end.

Definition wf_append (f : WritableFile) (data : bytes) : Status * WritableFile :=
  if negb (wf_open f) then (io_error "append to closed file", f)
  else match wf_next_fault f with
  | (None, f) =>
      (ok, mkWritable true (wf_disk f) (wf_kernel f) (wf_buffer f ++ data) (wf_faults f))
  | (Some n, f) =>
      (io_error "short write",
       mkWritable true (wf_disk f) (wf_kernel f) (wf_buffer f ++ take n data) (wf_faults f))
  end.

Definition wf_flush (f : WritableFile) : Status * WritableFile :=
  if negb (wf_open f) then (ok, f)
  else match wf_next_fault f with
  | (None, f) =>
      (ok, mkWritable true (wf_disk f) (wf_kernel f ++ wf_buffer f) [] (wf_faults f))
  | (Some n, f) =>
      (io_error "cannot flush",
       mkWritable true (wf_disk f) (wf_kernel f ++ take n (wf_buffer f))
         (drop n (wf_buffer f)) (wf_faults f))
  end.

(** [sync] flushes first, then waits for the device. *)
Definition wf_sync (f : WritableFile) : Status * WritableFile :=
  if negb (wf_open f) then (ok, f)
  else match wf_flush f with
  | (s, f) =>
      if negb (is_ok s) then (s, f)
      else match wf_next_fault f with
           | (None, f) =>
               (ok, mkWritable true (wf_disk f ++ wf_kernel f) [] (wf_buffer f) (wf_faults f))
           | (Some _, f) => (io_error "cannot sync", f)
           end
  end.

(** [fclose] hands the buffer over; the stream is gone either way. *)
Definition wf_close (f : WritableFile) : Status * WritableFile :=
  if negb (wf_open f) then (ok, f)
  else match wf_next_fault f with
  | (None, f) =>
      (ok, mkWritable false (wf_disk f) (wf_kernel f ++ wf_buffer f) [] (wf_faults f))
  | (Some n, f) =>
      (io_error "cannot close",
       mkWritable false (wf_disk f) (wf_kernel f ++ take n (wf_buffer f))
         (drop n (wf_buffer f)) (wf_faults f))
  end.

(** A sequential file: what is left to read, and the coming outcomes. *)
Record SequentialFile := mkSequential {
  sf_rest : bytes;
  sf_faults : list bool   (* [true]: that read fails *)
}.

(** Up to [n] bytes; a short read is the end of the file. *)
Definition sf_read (f : SequentialFile) (n : nat) : Status * bytes * SequentialFile :=
  match sf_faults f with
  | true :: rest => (io_error "read", [], mkSequential (sf_rest f) rest)
  | false :: rest => (ok, take n (sf_rest f), mkSequential (drop n (sf_rest f)) rest)
  | [] => (ok, take n (sf_rest f), mkSequential (drop n (sf_rest f)) [])
  end.

(** ** Random access

    [raf_read offset n]: an error, or the bytes read and whether they lie in
    the caller's buffer rather than in memory the file owns.  A short read is
    an error: what a read returns has the length that was asked for. *)
Record RandomAccessFile := mkRandomAccess {
  raf_read : Z -> Z -> Status + (bytes * bool)
}.

Class RandomAccessLaws (file : RandomAccessFile) : Prop := {
  raf_length offset n data into :
    0 <= n -> raf_read file offset n = inr (data, into) -> size data = n
}.

(** A file that serves [contents]: every read inside it succeeds. *)
Class Serves (file : RandomAccessFile) (contents : bytes) : Prop := {
  serves_laws :: RandomAccessLaws file;
  serves_read offset n : 0 <= offset -> 0 <= n -> offset + n <= size contents ->
    exists into, raf_read file offset n =
      inr (take (Z.to_nat n) (drop (Z.to_nat offset) contents), into)
}.

(** What [pread] does when it is called: deliver [S n] bytes if it can - at
    least one before the end of the file, perhaps fewer than asked for - be
    interrupted by a signal, or fail. *)
Inductive Pread := Got (n : nat) | Interrupted | Failed.

(** The loop of [LocalRandomAccessFile::read]; [done] is the filled part of
    [scratch].  After the listed calls, [pread] delivers what is asked for. *)
Fixpoint local_read (contents : bytes) (calls : list Pread) (offset n : nat) (done : bytes) :
    Status + bytes :=
  let short := corruption "short read" in
  if (n <=? length done)%nat then inr done
  else
    let want := (n - length done)%nat in
    let rest := drop (offset + length done) contents in
    match calls with
    | [] => let done := done ++ take want rest in
            if (length done =? n)%nat then inr done else inl short
    | Failed :: _ => inl (io_error "read")
    | Interrupted :: calls' => local_read contents calls' offset n done
    | Got got :: calls' =>
        match take (S got `min` want) rest with
        | [] => inl short
        | data => local_read contents calls' offset n (done ++ data)
        end
    end.

Definition local_file (contents : bytes) (calls : list Pread) : RandomAccessFile :=
  mkRandomAccess (λ offset n,
    match local_read contents calls (Z.to_nat offset) (Z.to_nat n) [] with
    | inl status => inl status
    | inr data => inr (data, true)
    end).

Lemma local_read_length contents calls offset n done data :
  local_read contents calls offset n done = inr data -> (length done <= n)%nat -> length data = n.
Proof.
  revert done. induction calls as [|c calls IH]; intros done H Hd; cbn [local_read] in H;
    destruct (Nat.leb_spec n (length done)); try (injection H as <-; lia).
  - destruct (Nat.eqb_spec (length (done ++ take (n - length done) (drop (offset + length done) contents))) n);
      [by injection H as <-|done].
  - destruct c as [got| |]; [|by apply IH in H|done].
    destruct (take _ _) as [|b l] eqn:E; [done|]. apply IH in H; [done|].
    apply (f_equal length) in E. rewrite length_take in E. rewrite length_app. cbn [length] in *. lia.
Qed.

Lemma local_read_serves contents calls offset n done :
  Failed ∉ calls -> (offset + n <= length contents)%nat -> (length done <= n)%nat ->
  done = take (length done) (drop offset contents) ->
  local_read contents calls offset n done = inr (take n (drop offset contents)).
Proof.
  intros Hc Hn. revert done. induction calls as [|c calls IH]; intros done Hd Ed; cbn [local_read];
    destruct (Nat.leb_spec n (length done)) as [Hle|Hlt];
    try (rewrite Ed at 1; by replace (length done) with n by lia).
  - assert (done ++ take (n - length done) (drop (offset + length done) contents) = take n (drop offset contents)) as E.
    { rewrite <- drop_drop. rewrite Ed at 1. rewrite take_take_drop. f_equal. lia. }
    rewrite E, length_take, length_drop. rewrite (proj2 (Nat.eqb_eq _ _)) by lia. done.
  - apply not_elem_of_cons in Hc as [Hne Hc]. destruct c as [got| |]; [|by apply IH|done].
    assert (length (take (S got `min` (n - length done)) (drop (offset + length done) contents)) =
      S got `min` (n - length done))%nat as Hl by (rewrite length_take, length_drop; lia).
    destruct (take (S got `min` _) _) as [|b l] eqn:E; cbn [length] in Hl; [lia|]. apply IH; [done| |].
    + rewrite length_app. cbn [length]. lia.
    + rewrite length_app. cbn [length]. rewrite Hl, <- E, <- drop_drop. rewrite Ed at 1. by rewrite take_take_drop.
Qed.

#[global] Instance local_file_laws contents calls : RandomAccessLaws (local_file contents calls).
Proof.
  constructor. cbn. intros offset n data into Hn H.
  destruct (local_read _ _ _ _ _) as [|d] eqn:E; [done|]. injection H as <- <-.
  apply local_read_length in E; [|cbn; lia]. unfold size. lia.
Qed.
Lemma local_file_serves contents calls : Failed ∉ calls -> Serves (local_file contents calls) contents.
Proof.
  intros Hc. constructor; [apply _|]. intros offset n Ho Hn Hs. exists true. cbn.
  rewrite local_read_serves; try done; [unfold size in *; lia|cbn; lia].
Qed.

(** * Lemmas *)
Lemma wf_next_fault_contents f :
  wf_contents (snd (wf_next_fault f)) = wf_contents f.
Proof. unfold wf_next_fault. by destruct (wf_faults f). Qed.

(** An append adds some prefix of its data, and all of it when it succeeds. *)
Lemma wf_append_contents f data s f' :
  wf_append f data = (s, f') ->
  ∃ n, wf_contents f' = wf_contents f ++ take n data ∧
       (is_ok s = true -> take n data = data).
Proof.
  unfold wf_append. destruct (wf_open f); simpl.
  2:{ intros [= <- <-]. exists 0%nat. by rewrite app_nil_r. }
  pose proof (wf_next_fault_contents f) as Hc.
  destruct (wf_next_fault f) as [[n|] g]; simpl in Hc; intros [= <- <-];
    rewrite <- Hc; unfold wf_contents; simpl.
  - exists n. by rewrite !app_assoc.
  - exists (length data). rewrite firstn_all. by rewrite !app_assoc.
Qed.

Lemma wf_append_open f data : wf_open (snd (wf_append f data)) = wf_open f.
Proof.
  unfold wf_append, wf_next_fault. destruct (wf_open f) eqn:E; simpl; [|done].
  by destruct (wf_faults f) as [|[?|] ?].
Qed.

(** Without pending faults every call on an open file succeeds. *)
Definition wf_healthy (f : WritableFile) : Prop := wf_open f = true ∧ wf_faults f = [].

Lemma wf_append_ok f data :
  wf_healthy f ->
  ∃ f', wf_append f data = (ok, f') ∧ wf_healthy f' ∧
        wf_contents f' = wf_contents f ++ data.
Proof.
  intros [Ho Hf]. unfold wf_append, wf_next_fault. rewrite Ho, Hf. simpl.
  eexists. split_and!; [done|done|]. unfold wf_contents; simpl. by rewrite !app_assoc.
Qed.

(** Bytes only ever move towards the disk: a flush or a sync, failed or not,
    keeps the contents. *)
Lemma wf_flush_contents f : wf_contents (snd (wf_flush f)) = wf_contents f.
Proof.
  unfold wf_flush. destruct (wf_open f); simpl; [|done].
  pose proof (wf_next_fault_contents f) as Hc.
  destruct (wf_next_fault f) as [[n|] g]; simpl in *; rewrite <- Hc; unfold wf_contents; simpl.
  - by rewrite <- !app_assoc, take_drop.
  - by rewrite app_nil_r.
Qed.

Lemma wf_sync_contents f : wf_contents (snd (wf_sync f)) = wf_contents f.
Proof.
  unfold wf_sync. destruct (wf_open f); simpl; [|done].
  pose proof (wf_flush_contents f) as Hc.
  destruct (wf_flush f) as [s g]; simpl in Hc. case_if; [done|].
  pose proof (wf_next_fault_contents g) as Hn.
  destruct (wf_next_fault g) as [[n|] h]; simpl in *; [congruence|].
  rewrite <- Hc, <- Hn. unfold wf_contents; simpl. by rewrite <- !app_assoc.
Qed.

(** A sync that succeeds on an open file leaves nothing off the disk. *)
Lemma wf_sync_durable f f' :
  wf_open f = true -> wf_sync f = (ok, f') ->
  wf_disk f' = wf_contents f' ∧ wf_contents f' = wf_contents f.
Proof.
  intros Ho H. pose proof (wf_sync_contents f) as Hc. rewrite H in Hc. simpl in Hc.
  split; [|done]. revert H. unfold wf_sync, wf_flush. rewrite Ho. simpl.
  destruct (wf_next_fault f) as [[n|] g]; simpl; [done|].
  unfold wf_next_fault; simpl. destruct (wf_faults g) as [|[?|] ?]; simpl; try done;
    intros [= <-]; unfold wf_contents; simpl; by rewrite app_nil_r.
Qed.

End File.
