(* ===== verification/Encoding.v ===== *)
(** On-disk primitives (src/src/encoding.hpp, src/src/encoding.cpp): fixed
    width integers, varints, length-prefixed strings and CRC32C.

    A reader that takes a [std::string_view*] and advances it becomes a
    function from the view to an option of the value and the advanced view;
    [None] is the [false] return.  A raw pointer read is a function on the
    bytes from the pointer to the end of the object it points into; [None]
    there is a read past the end of that object. *)
From S2P Require Import Prelude.

Module Encoding.

(** ** Fixed width *)
Definition encode_fixed32 (value : Z) : bytes :=
  [ Z_to_byte (value .& 255);
    Z_to_byte ((value .>> 8) .& 255);
    Z_to_byte ((value .>> 16) .& 255);
    Z_to_byte ((value .>> 24) .& 255) ].

Definition encode_fixed64 (value : Z) : bytes :=
  (λ i : nat, Z_to_byte ((value .>> (8 * Z.of_nat i)) .& 255)) <$> seq 0 8.

(** [put_fixed32(&dst, v)] and friends append to a string. *)
Definition put_fixed32 (dst : bytes) (value : Z) : bytes :=
  dst ++ encode_fixed32 value.
Definition put_fixed64 (dst : bytes) (value : Z) : bytes :=
  dst ++ encode_fixed64 value.

Definition decode_fixed32 (p : bytes) : option Z :=
  match p with
  | p0 :: p1 :: p2 :: p3 :: _ =>
      Some (byte_to_Z p0 .| u32 (byte_to_Z p1 .<< 8)
            .| u32 (byte_to_Z p2 .<< 16) .| u32 (byte_to_Z p3 .<< 24))
  | _ => None
  end.

(** The loop of [decode_fixed64]: [n] bytes still to read, byte [i] next. *)
Fixpoint decode_fixed64_loop (p : bytes) (n : nat) (i value : Z) : option Z :=
  match n with
  | O => Some value
  | S n' =>
      match p with
      | [] => None
      | b :: p' =>
          decode_fixed64_loop p' n' (i + 1)
            (value .| u64 (byte_to_Z b .<< (8 * i)))
      end
  end.
Definition decode_fixed64 (p : bytes) : option Z := decode_fixed64_loop p 8 0 0.

(** ** Varints *)

(** The [while (value >= 0x80)] loop shared by [put_varint32],
    [put_varint64] and [encode_varint32].  [fuel] bounds the bytes: a 64-bit
    value needs ten, and every call below passes ten, so the bound is never
    what stops it ([varint_loop_fuel]). *)
Fixpoint varint_loop (fuel : nat) (value : Z) : bytes :=
  match fuel with
  | O => []
  | S fuel' =>
      if value <? 128 then [Z_to_byte value]
      else Z_to_byte ((value .& 127) .| 128) :: varint_loop fuel' (value .>> 7)
  end.

Definition encode_varint32 (value : Z) : bytes := varint_loop 10 value.
Definition put_varint32 (dst : bytes) (value : Z) : bytes :=
  dst ++ varint_loop 10 value.
Definition put_varint64 (dst : bytes) (value : Z) : bytes :=
  dst ++ varint_loop 10 value.

(** The loop of the template [get_varint]; [wrap] truncates to the width
    of [T] ([u32] or [u64]), [n] is [max_bytes - i]. *)
Fixpoint get_varint_loop (wrap : Z -> Z) (n : nat) (input : bytes)
    (result shift : Z) : option (Z * bytes) :=
  match n with
  | O => None
  | S n' =>
      match input with
      | [] => None
      | b :: input' =>
          let byte := byte_to_Z b in
          let result := result .| wrap ((byte .& 127) .<< shift) in
          if byte .& 128 =? 0 then Some (result, input')
          else get_varint_loop wrap n' input' result (shift + 7)
      end
  end.
Definition get_varint (wrap : Z -> Z) (max_bytes : nat) (input : bytes) :
    option (Z * bytes) := get_varint_loop wrap max_bytes input 0 0.
Definition get_varint32 (input : bytes) : option (Z * bytes) :=
  get_varint u32 5 input.
Definition get_varint64 (input : bytes) : option (Z * bytes) :=
  get_varint u64 10 input.

(** What [decode_varint32_exact] does with the bytes at [p]. *)
Inductive exact_result :=
  | Exact (value : Z) (rest : bytes)  (* the value and the pointer past it *)
  | ExactNull                         (* nullptr: longer than a uint32 *)
  | ExactOverrun.                     (* a read past the object *)

Fixpoint decode_varint32_exact_loop (n : nat) (p : bytes) (result shift : Z) :
    exact_result :=
  match n with
  | O => ExactNull
  | S n' =>
      match p with
      | [] => ExactOverrun
      | b :: p' =>
          let byte := byte_to_Z b in
          let result := result .| u32 ((byte .& 127) .<< shift) in
          if byte .& 128 =? 0 then Exact result p'
          else decode_varint32_exact_loop n' p' result (shift + 7)
      end
  end.
(** Shifts 0, 7, 14, 21, 28: five iterations. *)
Definition decode_varint32_exact (p : bytes) : exact_result :=
  decode_varint32_exact_loop 5 p 0 0.

(** ** Length-prefixed strings *)
Definition put_length_prefixed (dst value : bytes) : bytes :=
  put_varint32 dst (u32 (size value)) ++ value.

Definition get_length_prefixed (input : bytes) : option (bytes * bytes) :=
  match get_varint32 input with
  | None => None
  | Some (length, input) =>
      if size input <? length then None
      else Some (take (Z.to_nat length) input, drop (Z.to_nat length) input)
  end.

(** ** CRC32C *)
Definition kPolynomial : Z := 0x82F63B78.

Definition crc_bit (crc : Z) : Z :=
  if Z.testbit crc 0 then (crc .>> 1) .^ kPolynomial else crc .>> 1.

(** [crc_table]: entry [i] is eight [crc_bit] steps from [i]. *)
Definition crc_table_entry (i : Z) : Z := Nat.iter 8 crc_bit i.
Definition crc_table : list Z :=
  Eval vm_compute in (λ i : nat, crc_table_entry (Z.of_nat i)) <$> seq 0 256.

Definition crc_not (crc : Z) : Z := crc .^ (2 ^ 32 - 1).

Definition crc_byte (crc : Z) (c : byte) : Z :=
  nth (Z.to_nat ((crc .^ byte_to_Z c) .& 255)) crc_table 0 .^ (crc .>> 8).

Definition crc32c_extend (crc : Z) (data : bytes) : Z :=
  crc_not (fold_left crc_byte data (crc_not crc)).
Definition crc32c (data : bytes) : Z := crc32c_extend 0 data.

(** * Lemmas *)

(** ** Fixed width *)
Lemma length_encode_fixed32 v : length (encode_fixed32 v) = 4%nat.
Proof. done. Qed.
Lemma length_encode_fixed64 v : length (encode_fixed64 v) = 8%nat.
Proof. done. Qed.

Lemma byte_of_shift v k :
  byte_to_Z (Z_to_byte ((v .>> k) .& 255)) = Z.shiftr v k mod 256.
Proof. rewrite byte_to_Z_of_Z, land_255. by rewrite Z.mod_mod by lia. Qed.

(** One byte above [i] already assembled ones. *)
Lemma lor_byte value x i n :
  0 <= i -> 8 * i + 8 <= n -> 0 <= value < 2 ^ (8 * i) -> 0 <= x < 256 ->
  value .| (x .<< (8 * i)) mod 2 ^ n = value + x * 2 ^ (8 * i) /\
  0 <= value + x * 2 ^ (8 * i) < 2 ^ (8 * (i + 1)).
Proof.
  intros Hi Hn Hv Hx.
  assert (2 ^ (8 * (i + 1)) = 2 ^ (8 * i) * 256) as E
    by (replace (8 * (i + 1)) with (8 * i + 8) by lia; by rewrite Z.pow_add_r by lia).
  assert (2 ^ (8 * (i + 1)) <= 2 ^ n) by (apply Z.pow_le_mono_r; lia).
  assert (0 <= value + x * 2 ^ (8 * i) < 2 ^ (8 * (i + 1))) as R by nia.
  split; [|done].
  rewrite Z.mod_small.
  - apply lor_disjoint_add; lia.
  - rewrite Z.shiftl_mul_pow2 by lia. nia.
Qed.

(** The value a little-endian byte string denotes. *)
Fixpoint le_value (p : bytes) : Z :=
  match p with [] => 0 | b :: p' => byte_to_Z b + 256 * le_value p' end.

Lemma le_value_range p : 0 <= le_value p < 256 ^ Z.of_nat (length p).
Proof.
  induction p as [|b p IH]; simpl length; [simpl; lia|].
  rewrite Nat2Z.inj_succ, Z.pow_succ_r by lia.
  pose proof (byte_to_Z_range b). simpl le_value. lia.
Qed.

Lemma decode_fixed64_loop_spec n p i value :
  0 <= i -> i + Z.of_nat n <= 8 -> 0 <= value < 2 ^ (8 * i) ->
  decode_fixed64_loop p n i value =
    if decide (n <= length p)%nat
    then Some (value + le_value (take n p) * 2 ^ (8 * i)) else None.
Proof.
  revert p i value. induction n as [|n IH]; intros p i value Hi Hn Hv; simpl.
  - destruct p; simpl; f_equal; lia.
  - destruct p as [|b p]; simpl; [done|].
    pose proof (byte_to_Z_range b) as Hb.
    destruct (lor_byte value (byte_to_Z b) i 64) as [E R]; [lia..|].
    unfold u64. rewrite E, IH by lia.
    replace (8 * (i + 1)) with (8 * i + 8) by lia. rewrite Z.pow_add_r by lia.
    repeat case_decide; try lia; f_equal. lia.
Qed.

Lemma decode_fixed64_spec p :
  decode_fixed64 p =
    if decide (8 <= length p)%nat then Some (le_value (take 8 p)) else None.
Proof.
  unfold decode_fixed64. rewrite decode_fixed64_loop_spec by lia.
  case_decide; f_equal. lia.
Qed.

Lemma decode_fixed32_spec p :
  decode_fixed32 p =
    if decide (4 <= length p)%nat then Some (le_value (take 4 p)) else None.
Proof.
  destruct p as [|b0 [|b1 [|b2 [|b3 p]]]]; try done. simpl.
  pose proof (byte_to_Z_range b0); pose proof (byte_to_Z_range b1);
  pose proof (byte_to_Z_range b2); pose proof (byte_to_Z_range b3).
  destruct (lor_byte (byte_to_Z b0) (byte_to_Z b1) 1 32) as [E1 R1]; [lia..|].
  destruct (lor_byte _ (byte_to_Z b2) 2 32 ltac:(lia) ltac:(lia) R1) as [E2 R2]; [lia|].
  destruct (lor_byte _ (byte_to_Z b3) 3 32 ltac:(lia) ltac:(lia) R2) as [E3 R3]; [lia|].
  unfold u32. change 8 with (8 * 1). rewrite E1.
  change 16 with (8 * 2). rewrite E2. change 24 with (8 * 3). rewrite E3.
  f_equal. lia.
Qed.

Lemma le_value_encode_fixed32 v : le_value (encode_fixed32 v) = v mod 2 ^ 32.
Proof.
  unfold encode_fixed32, le_value. rewrite !byte_of_shift.
  rewrite byte_to_Z_of_Z, land_255, !Z.shiftr_div_pow2 by lia. zmod.
Qed.

Lemma le_value_encode_fixed64 v : le_value (encode_fixed64 v) = v mod 2 ^ 64.
Proof.
  unfold encode_fixed64; simpl. rewrite !byte_of_shift.
  rewrite !Z.shiftr_div_pow2 by lia. zmod.
Qed.

Lemma decode_encode_fixed32_app v rest :
  decode_fixed32 (encode_fixed32 v ++ rest) = Some (u32 v).
Proof.
  rewrite decode_fixed32_spec. case_decide as H.
  - by rewrite take_app_length', le_value_encode_fixed32.
  - rewrite length_app, length_encode_fixed32 in H. lia.
Qed.

Lemma decode_encode_fixed64_app v rest :
  decode_fixed64 (encode_fixed64 v ++ rest) = Some (u64 v).
Proof.
  rewrite decode_fixed64_spec. case_decide as H.
  - by rewrite take_app_length', le_value_encode_fixed64.
  - rewrite length_app, length_encode_fixed64 in H. lia.
Qed.

(** Decoding is injective: the encoder gives back the four or eight bytes. *)
Lemma encode_fixed32_le_value p :
  length p = 4%nat -> encode_fixed32 (le_value p) = p.
Proof.
  destruct p as [|b0 [|b1 [|b2 [|b3 [|]]]]]; try done. intros _.
  unfold encode_fixed32. simpl le_value.
  pose proof (byte_to_Z_range b0); pose proof (byte_to_Z_range b1);
  pose proof (byte_to_Z_range b2); pose proof (byte_to_Z_range b3).
  repeat f_equal; apply (inj byte_to_Z); rewrite byte_to_Z_of_Z, land_255;
    rewrite ?Z.shiftr_div_pow2 by lia; zmod.
Qed.

(** ** Varints *)
Lemma cont_bit b : (byte_to_Z b .& 128 =? 0) = (byte_to_Z b <? 128).
Proof. by destruct b. Qed.

Lemma byte_cont v :
  byte_to_Z (Z_to_byte ((v .& 127) .| 128)) = v mod 128 + 128.
Proof.
  rewrite land_127. change 128 with (1 .<< 7) at 2.
  rewrite lor_disjoint_add by (try lia; apply Z.mod_pos_bound; lia).
  rewrite byte_to_Z_of_Z. zmod.
Qed.

(** A [get_varint] step reads seven more bits above [shift]. *)
Lemma lor_septet result x shift wbits :
  0 <= shift -> 0 <= result < 2 ^ shift -> 0 <= x ->
  x * 2 ^ shift < 2 ^ wbits ->
  result .| (x .<< shift) mod 2 ^ wbits = result + x * 2 ^ shift.
Proof.
  intros Hs Hr Hx Hw. rewrite Z.mod_small.
  - by apply lor_disjoint_add.
  - rewrite Z.shiftl_mul_pow2 by lia. split; [|lia].
    assert (0 < 2 ^ shift) by (apply Z.pow_pos_nonneg; lia). nia.
Qed.

Lemma varint_loop_S fuel v : varint_loop (S fuel) v =
  if v <? 128 then [Z_to_byte v]
  else Z_to_byte ((v .& 127) .| 128) :: varint_loop fuel (v .>> 7).
Proof. done. Qed.
Lemma get_varint_loop_cons wrap n b input result shift :
  get_varint_loop wrap (S n) (b :: input) result shift =
    (let result := result .| wrap ((byte_to_Z b .& 127) .<< shift) in
     if byte_to_Z b .& 128 =? 0 then Some (result, input)
     else get_varint_loop wrap n input result (shift + 7)).
Proof. done. Qed.

Lemma get_varint_loop_roundtrip wbits n fuel v rest result shift :
  (1 <= n <= fuel)%nat -> 0 <= v < 2 ^ (7 * Z.of_nat n) -> 0 <= shift ->
  0 <= result < 2 ^ shift -> v * 2 ^ shift < 2 ^ wbits ->
  get_varint_loop (λ z, z mod 2 ^ wbits) n (varint_loop fuel v ++ rest) result shift =
    Some (result + v * 2 ^ shift, rest).
Proof.
  revert fuel v result shift.
  induction n as [|n IH]; intros fuel v result shift Hn Hv Hs Hr Hw; [lia|].
  destruct fuel as [|fuel]; [lia|]. rewrite varint_loop_S.
  assert (0 < 2 ^ shift) by (apply Z.pow_pos_nonneg; lia).
  destruct (Z.ltb_spec v 128) as [Hlt|Hge]; rewrite <- ?app_comm_cons; rewrite get_varint_loop_cons.
  - rewrite cont_bit, byte_to_Z_small, land_127, (Z.mod_small v 128) by lia.
    destruct (Z.ltb_spec v 128); [|lia].
    cbv zeta. by rewrite lor_septet by lia.
  - rewrite cont_bit, byte_cont, land_127.
    replace ((v mod 128 + 128) mod 128) with (v mod 128) by zmod.
    destruct (Z.ltb_spec (v mod 128 + 128) 128); [zmod|]. cbv zeta.
    assert (v = 128 * (v / 128) + v mod 128) as Ev by zmod.
    assert (0 <= v mod 128 < 128) by zmod.
    assert (0 <= v / 128) by zmod.
    rewrite lor_septet by nia.
    assert (7 * Z.of_nat (S n) = 7 + 7 * Z.of_nat n) as E7 by lia.
    rewrite E7, Z.pow_add_r in Hv by lia.
    destruct n as [|n]; [simpl in Hv; lia|].
    rewrite Z.shiftr_div_pow2 by lia. change (2 ^ 7) with 128 in *.
    rewrite IH; [| lia | zmod | lia | |];
      rewrite ?Z.pow_add_r by lia; change (2 ^ 7) with 128.
    + do 2 f_equal. nia.
    + nia.
    + nia.
Qed.

Lemma get_varint64_roundtrip v dst rest :
  0 <= v < 2 ^ 64 ->
  get_varint64 (drop (length dst) (put_varint64 dst v) ++ rest) = Some (v, rest).
Proof.
  intros. unfold put_varint64. rewrite drop_app_length.
  unfold get_varint64, get_varint, u64.
  rewrite (get_varint_loop_roundtrip 64) by lia. f_equal. f_equal. lia.
Qed.

Lemma get_varint32_loop v rest :
  0 <= v < 2 ^ 32 -> get_varint32 (varint_loop 10 v ++ rest) = Some (v, rest).
Proof.
  intros. unfold get_varint32, get_varint, u32.
  rewrite (get_varint_loop_roundtrip 32) by lia. f_equal. f_equal. lia.
Qed.
Lemma get_varint64_loop v rest :
  0 <= v < 2 ^ 64 -> get_varint64 (varint_loop 10 v ++ rest) = Some (v, rest).
Proof.
  intros. unfold get_varint64, get_varint, u64.
  rewrite (get_varint_loop_roundtrip 64) by lia. f_equal. f_equal. lia.
Qed.

(** The exact decoder agrees with the bounded one, and never reads further. *)
Lemma decode_varint32_exact_loop_bounded n p result shift :
  match get_varint_loop u32 n p result shift with
  | Some (v, rest) => decode_varint32_exact_loop n p result shift = Exact v rest
  | None => ∃ r, decode_varint32_exact_loop n p result shift = r ∧
                 (r = ExactNull ∨ r = ExactOverrun)
  end.
Proof.
  revert p result shift. induction n as [|n IH]; intros p result shift; simpl; [eauto|].
  destruct p as [|b p]; [eauto|]. case_if; [done|apply IH].
Qed.

Lemma get_varint_loop_consumes wrap n input result shift v rest :
  get_varint_loop wrap n input result shift = Some (v, rest) ->
  ∃ used, input = used ++ rest ∧ (1 <= length used <= n)%nat.
Proof.
  revert input result shift. induction n as [|n IH]; intros input result shift H; [done|].
  destruct input as [|b input]; [done|]. rewrite get_varint_loop_cons in H.
  cbv zeta in H. case_if.
  - simplify_eq. exists [b]. simpl. split; [done|lia].
  - apply IH in H as (used & -> & ?). exists (b :: used). simpl. split; [done|lia].
Qed.

Lemma get_varint32_range input v rest :
  get_varint32 input = Some (v, rest) -> 0 <= v < 2 ^ 32.
Proof.
  unfold get_varint32, get_varint.
  assert (∀ n input result shift, 0 <= result < 2 ^ 32 ->
    get_varint_loop u32 n input result shift = Some (v, rest) -> 0 <= v < 2 ^ 32)
    as Hgen; [|apply Hgen; lia].
  induction n as [|n IH]; intros i r s Hr H; [done|].
  destruct i as [|b i]; [done|]. rewrite get_varint_loop_cons in H. cbv zeta in H.
  assert (0 <= r .| u32 ((byte_to_Z b .& 127) .<< s) < 2 ^ 32) as R.
  { apply lor_range; [done|done|apply u32_range]. }
  case_if; [by simplify_eq|by apply IH in H].
Qed.

(** ** Length-prefixed strings *)
Lemma get_put_length_prefixed_app v rest :
  size v < 2 ^ 32 ->
  get_length_prefixed (put_length_prefixed [] v ++ rest) = Some (v, rest).
Proof.
  intros Hv. unfold get_length_prefixed, put_length_prefixed, put_varint32.
  pose proof (size_nonneg v). rewrite u32_small by lia.
  rewrite app_nil_l, <- app_assoc, get_varint32_loop by lia.
  rewrite size_app. pose proof (size_nonneg rest).
  destruct (Z.ltb_spec (size v + size rest) (size v)); [lia|].
  unfold size. rewrite Nat2Z.id. by rewrite take_app_length, drop_app_length.
Qed.

Lemma get_length_prefixed_consumes input v rest :
  get_length_prefixed input = Some (v, rest) ->
  ∃ used, input = used ++ v ++ rest ∧ (1 <= length used <= 5)%nat.
Proof.
  unfold get_length_prefixed.
  destruct (get_varint32 input) as [[len i]|] eqn:E; [|done].
  apply get_varint_loop_consumes in E as (used & -> & ?).
  case_if; [done|]. intros [= <- <-]. exists used. by rewrite take_drop.
Qed.

(** ** CRC32C

    The table is the eight-fold iteration of [crc_bit], and [crc_bit] is
    linear over exclusive or; the table-driven loop is therefore the bitwise
    division, whatever the table size. *)
Lemma crc_table_eq :
  crc_table = (λ i : nat, crc_table_entry (Z.of_nat i)) <$> seq 0 256.
Proof. vm_compute. reflexivity. Qed.

Lemma crc_table_nth i : 0 <= i < 256 -> nth (Z.to_nat i) crc_table 0 = crc_table_entry i.
Proof.
  intros Hi. rewrite crc_table_eq.
  rewrite nth_lookup, list_lookup_fmap, lookup_seq_lt by lia.
  cbn -[crc_table_entry]. f_equal. lia.
Qed.

Lemma crc_bit_lxor a b : crc_bit (a .^ b) = crc_bit a .^ crc_bit b.
Proof.
  unfold crc_bit. rewrite Z.lxor_spec, Z.shiftr_lxor.
  destruct (Z.testbit a 0), (Z.testbit b 0); simpl;
    apply Z.bits_inj'; intros i _; rewrite ?Z.lxor_spec;
    by destruct (Z.testbit (a .>> 1) i), (Z.testbit (b .>> 1) i), (Z.testbit kPolynomial i).
Qed.

Lemma crc_bits_lxor n a b :
  Nat.iter n crc_bit (a .^ b) = Nat.iter n crc_bit a .^ Nat.iter n crc_bit b.
Proof. induction n as [|n IH]; simpl; [done|]. by rewrite IH, crc_bit_lxor. Qed.

Lemma crc_bit_double a : crc_bit (2 * a) = a.
Proof.
  unfold crc_bit. rewrite Z.testbit_even_0.
  rewrite Z.shiftr_div_pow2 by lia. change (2 ^ 1) with 2. zmod.
Qed.

Lemma iter_S_inner {A} (f : A -> A) n x : Nat.iter (S n) f x = Nat.iter n f (f x).
Proof. induction n as [|n IH]; simpl in *; congruence. Qed.

Lemma crc_bits_shift n a : Nat.iter n crc_bit (a .<< Z.of_nat n) = a.
Proof.
  induction n as [|n IH]; [apply Z.shiftl_0_r|].
  rewrite iter_S_inner, Nat2Z.inj_succ, Z.shiftl_mul_pow2, Z.pow_succ_r by lia.
  replace (a * (2 * 2 ^ Z.of_nat n)) with (2 * (a * 2 ^ Z.of_nat n)) by lia.
  rewrite crc_bit_double. rewrite <- Z.shiftl_mul_pow2 by lia. done.
Qed.

Lemma split_low_byte z : z = (z .& 255) .^ ((z .>> 8) .<< 8).
Proof.
  apply Z.bits_inj'. intros i Hi.
  rewrite Z.lxor_spec, Z.shiftl_spec by lia.
  destruct (Z.lt_ge_cases i 8).
  - rewrite (Z.testbit_neg_r _ (i - 8)) by lia. rewrite xorb_false_r.
    change 255 with (Z.ones 8). by rewrite Z.land_ones, Z.mod_pow2_bits_low by lia.
  - rewrite Z.shiftr_spec by lia. replace (i - 8 + 8) with i by lia.
    change 255 with (Z.ones 8). by rewrite Z.land_ones, Z.mod_pow2_bits_high by lia.
Qed.

Lemma crc_byte_bitwise crc c :
  crc_byte crc c = Nat.iter 8 crc_bit (crc .^ byte_to_Z c).
Proof.
  unfold crc_byte. rewrite (split_low_byte (crc .^ byte_to_Z c)) at 2.
  rewrite crc_bits_lxor. change 8 with (Z.of_nat 8) at 2. rewrite crc_bits_shift.
  rewrite crc_table_nth by (rewrite land_255; zmod). f_equal.
  rewrite Z.shiftr_lxor. rewrite (Z.shiftr_div_pow2 (byte_to_Z c)) by lia.
  pose proof (byte_to_Z_range c). change (2 ^ 8) with 256.
  rewrite (Z.div_small (byte_to_Z c)) by lia. by rewrite Z.lxor_0_r.
Qed.

Lemma crc_fold_bitwise data crc :
  fold_left crc_byte data crc =
    Nat.iter (8 * length data) crc_bit (crc .^ le_value data).
Proof.
  revert crc. induction data as [|b data IH]; intros crc.
  - simpl. by rewrite Z.lxor_0_r.
  - simpl fold_left. rewrite IH, crc_byte_bitwise.
    replace (8 * length (b :: data))%nat with (8 * length data + 8)%nat by (simpl; lia).
    rewrite Nat.iter_add. f_equal. simpl le_value.
    pose proof (byte_to_Z_range b).
    replace (byte_to_Z b + 256 * le_value data)
      with (byte_to_Z b .^ (le_value data .<< Z.of_nat 8)).
    2:{ rewrite Z.lxor_lor; [rewrite lor_disjoint_add by (simpl; lia); simpl; lia|].
        apply Z.bits_inj'. intros i Hi. rewrite Z.land_spec, Z.bits_0.
        destruct (Z.lt_ge_cases i 8).
        - rewrite Z.shiftl_spec_low by lia. apply andb_false_r.
        - rewrite <- (Z.mod_small (byte_to_Z b) (2 ^ 8)) by lia.
          by rewrite Z.mod_pow2_bits_high by lia. }
    rewrite <- Z.lxor_assoc. by rewrite !crc_bits_lxor, crc_bits_shift.
Qed.

Lemma crc_bit_range crc : 0 <= crc < 2 ^ 32 -> 0 <= crc_bit crc < 2 ^ 32.
Proof.
  intros H. assert (0 <= crc .>> 1 < 2 ^ 32)
    by (rewrite Z.shiftr_div_pow2 by lia; change (2 ^ 1) with 2; zmod).
  unfold crc_bit. case_if; [|done].
  apply lxor_range; [lia|done|unfold kPolynomial; lia].
Qed.

(** The polynomial's top bit keeps the bit that was shifted out, so a step
    loses nothing. *)
Lemma crc_bit_inj a b :
  0 <= a < 2 ^ 32 -> 0 <= b < 2 ^ 32 -> crc_bit a = crc_bit b -> a = b.
Proof.
  intros Ha Hb H.
  assert (∀ x, 0 <= x < 2 ^ 32 -> Z.testbit (crc_bit x) 31 = Z.testbit x 0) as Htop.
  { intros x Hx. unfold crc_bit.
    assert (Z.testbit (x .>> 1) 31 = false) as Hz.
    { rewrite Z.shiftr_spec by lia. rewrite <- (Z.mod_small x (2 ^ 32)) by lia.
      by apply Z.mod_pow2_bits_high. }
    destruct (Z.testbit x 0); rewrite ?Z.lxor_spec, Hz; done. }
  pose proof (Htop a Ha) as Ta. pose proof (Htop b Hb) as Tb.
  rewrite H in Ta. rewrite Ta in Tb.
  assert (a .>> 1 = b .>> 1) as Hsh.
  { unfold crc_bit in H. rewrite Tb in H. destruct (Z.testbit b 0); [|done].
    apply (f_equal (λ z, z .^ kPolynomial)) in H.
    by rewrite !Z.lxor_assoc, !Z.lxor_nilpotent, !Z.lxor_0_r in H. }
  apply Z.bits_inj'. intros i Hi. destruct (Z.eq_dec i 0) as [->|Hne]; [done|].
  apply (f_equal (λ z, Z.testbit z (i - 1))) in Hsh.
  rewrite !Z.shiftr_spec in Hsh by lia. by replace (i - 1 + 1) with i in Hsh by lia.
Qed.

Lemma crc_bits_range n crc : 0 <= crc < 2 ^ 32 -> 0 <= Nat.iter n crc_bit crc < 2 ^ 32.
Proof. intros. induction n; simpl; [done|]. by apply crc_bit_range. Qed.

Lemma crc_bits_inj n a b :
  0 <= a < 2 ^ 32 -> 0 <= b < 2 ^ 32 ->
  Nat.iter n crc_bit a = Nat.iter n crc_bit b -> a = b.
Proof.
  intros Ha Hb. induction n as [|n IH]; simpl; [done|]. intros H.
  apply crc_bit_inj in H; auto using crc_bits_range.
Qed.

Lemma crc_not_range crc : 0 <= crc < 2 ^ 32 -> 0 <= crc_not crc < 2 ^ 32.
Proof. intros. apply lxor_range; lia. Qed.
Lemma crc_not_involutive crc : crc_not (crc_not crc) = crc.
Proof. unfold crc_not. by rewrite Z.lxor_assoc, Z.lxor_nilpotent, Z.lxor_0_r. Qed.

Lemma crc_fold_range data crc :
  0 <= crc < 2 ^ 32 -> 0 <= fold_left crc_byte data crc < 2 ^ 32.
Proof.
  revert crc. induction data as [|b data IH]; intros crc H; simpl; [done|].
  apply IH. rewrite crc_byte_bitwise. apply crc_bits_range, lxor_range; [lia|done|].
  pose proof (byte_to_Z_range b). lia.
Qed.

Lemma crc_fold_inj data a b :
  0 <= a < 2 ^ 32 -> 0 <= b < 2 ^ 32 ->
  fold_left crc_byte data a = fold_left crc_byte data b -> a = b.
Proof.
  revert a b. induction data as [|c data IH]; intros a b Ha Hb; simpl; [done|].
  pose proof (byte_to_Z_range c).
  assert (∀ x, 0 <= x < 2 ^ 32 -> 0 <= x .^ byte_to_Z c < 2 ^ 32) as R
    by (intros; apply lxor_range; lia).
  intros E. apply IH in E;
    [|rewrite crc_byte_bitwise; by apply crc_bits_range, R..].
  rewrite !crc_byte_bitwise in E. apply crc_bits_inj in E; [|by apply R..].
  apply (f_equal (λ z, z .^ byte_to_Z c)) in E.
  by rewrite !Z.lxor_assoc, !Z.lxor_nilpotent, !Z.lxor_0_r in E.
Qed.

Lemma crc32c_extend_range crc data :
  0 <= crc < 2 ^ 32 -> 0 <= crc32c_extend crc data < 2 ^ 32.
Proof. intros. by apply crc_not_range, crc_fold_range, crc_not_range. Qed.

Lemma crc32c_extend_app crc a b :
  crc32c_extend (crc32c_extend crc a) b = crc32c_extend crc (a ++ b).
Proof. unfold crc32c_extend. by rewrite crc_not_involutive, fold_left_app. Qed.

Lemma le_value_inj p q :
  length p = length q -> le_value p = le_value q -> p = q.
Proof.
  revert q. induction p as [|b p IH]; intros [|c q]; simpl; try done.
  intros Hl H. pose proof (byte_to_Z_range b). pose proof (byte_to_Z_range c).
  f_equal; [apply (inj byte_to_Z); lia|apply IH; lia].
Qed.

(** An array of fixed 32-bit words is addressed by index. *)
Lemma decode_words ws rest i w :
  ws !! i = Some w ->
  decode_fixed32 (drop (4 * i) ((ws ≫= encode_fixed32) ++ rest)) = Some (u32 w).
Proof.
  revert i. induction ws as [|v ws IH]; intros i Hi; [done|].
  change ((v :: ws) ≫= encode_fixed32) with (encode_fixed32 v ++ (ws ≫= encode_fixed32)).
  destruct i as [|i].
  - injection Hi as ->. rewrite <- app_assoc. apply decode_encode_fixed32_app.
  - replace (4 * S i)%nat with (length (encode_fixed32 v) + 4 * i)%nat
      by (rewrite length_encode_fixed32; lia).
    rewrite <- app_assoc, <- drop_drop, drop_app_length. by apply IH.
Qed.

(** Encoding truncates: only the value modulo 2^32 is written. *)
Lemma encode_fixed32_u32 v : encode_fixed32 (u32 v) = encode_fixed32 v.
Proof.
  apply le_value_inj; [done|]. rewrite !le_value_encode_fixed32. unfold u32.
  by rewrite Z.mod_mod by lia.
Qed.

(** Up to four consecutive bytes of [l] differ in [l']. *)
Definition burst (l l' : bytes) : Prop :=
  ∃ a w w' b, l = a ++ w ++ b ∧ l' = a ++ w' ++ b ∧
    length w = length w' ∧ (length w <= 4)%nat ∧ w ≠ w'.

Lemma crc32c_burst_ne crc l l' :
  0 <= crc < 2 ^ 32 -> burst l l' -> crc32c_extend crc l ≠ crc32c_extend crc l'.
Proof.
  intros Hc (a & w & w' & b & -> & -> & Hl & H4 & Hne) E.
  rewrite <- !crc32c_extend_app in E.
  pose proof (crc32c_extend_range crc a Hc) as Ha.
  set (c := crc32c_extend crc a) in *. unfold crc32c_extend in E.
  apply (f_equal crc_not) in E. rewrite !crc_not_involutive in E.
  pose proof (crc_not_range c Ha) as Hn.
  apply crc_fold_inj in E; [|by apply crc_fold_range..].
  rewrite !crc_fold_bitwise, Hl in E.
  assert (∀ v, length v = length w' -> 0 <= le_value v < 2 ^ 32) as Hr.
  { intros v Hv. pose proof (le_value_range v) as R. rewrite Hv in R.
    assert (256 ^ Z.of_nat (length w') <= 256 ^ 4) by (apply Z.pow_le_mono_r; lia).
    change (2 ^ 32) with (256 ^ 4). lia. }
  apply crc_bits_inj in E; [|apply lxor_range; auto with lia..].
  apply (f_equal (λ z, crc_not c .^ z)) in E.
  rewrite <- !Z.lxor_assoc, Z.lxor_nilpotent, !Z.lxor_0_l in E.
  apply Hne. by apply le_value_inj.
Qed.

Lemma burst_length l l' : burst l l' -> length l = length l'.
Proof. intros (a & w & w' & b & -> & -> & Hl & _). rewrite !length_app. lia. Qed.

Lemma varint_loop_length fuel n v :
  (1 <= n <= fuel)%nat -> 0 <= v < 2 ^ (7 * Z.of_nat n) ->
  (1 <= length (varint_loop fuel v) <= n)%nat.
Proof.
  revert n v. induction fuel as [|fuel IH]; intros n v Hn Hv; [lia|].
  rewrite varint_loop_S. destruct (Z.ltb_spec v 128); [simpl; lia|].
  destruct n as [|[|n]]; [lia|simpl in Hv; lia|].
  cbn [length]. specialize (IH (S n) (v .>> 7)). rewrite Z.shiftr_div_pow2 in * by lia.
  replace (7 * Z.of_nat (S (S n))) with (7 + 7 * Z.of_nat (S n)) in Hv by lia.
  rewrite Z.pow_add_r in Hv by lia. change (2 ^ 7) with 128 in *.
  assert (1 <= length (varint_loop fuel (v / 128)) <= S n)%nat; [|lia].
  apply IH; [lia|zmod].
Qed.

(** * Theorems *)

(** Integers round-trip and stay within their size: a 64-bit value reads
    back from its varint with the input advanced exactly past it, in at most
    ten bytes; a 32-bit value does so through both the bounded reader and the
    exact one, in at most five; and fixed-width words read back. *)
Theorem integers_roundtrip v rest (H : 0 <= v < 2 ^ 64) :
  get_varint64 (put_varint64 [] v ++ rest) = Some (v, rest) /\
  (length (put_varint64 [] v) <= 10)%nat /\
  decode_fixed64 (put_fixed64 [] v ++ rest) = Some v /\
  (v < 2 ^ 32 ->
   get_varint32 (put_varint32 [] v ++ rest) = Some (v, rest) /\
   decode_varint32_exact (encode_varint32 v ++ rest) = Exact v rest /\
   (length (encode_varint32 v) <= 5)%nat /\
   decode_fixed32 (put_fixed32 [] v ++ rest) = Some v).
Proof.
  unfold put_varint64, put_varint32, put_fixed64, put_fixed32. rewrite !app_nil_l.
  split_and!.
  - by apply get_varint64_loop.
  - apply (varint_loop_length 10 10); lia.
  - by rewrite decode_encode_fixed64_app, u64_small.
  - intros H32. assert (get_varint32 (varint_loop 10 v ++ rest) = Some (v, rest)) as E
      by (apply get_varint32_loop; lia).
    split_and!; [done| | |].
    + pose proof (decode_varint32_exact_loop_bounded 5 (varint_loop 10 v ++ rest) 0 0) as B.
      unfold get_varint32, get_varint in E. by rewrite E in B.
    + apply (varint_loop_length 10 5); lia.
    + rewrite decode_encode_fixed32_app, u32_small; [done|lia].
Qed.

Lemma integers_roundtrip_witness :
  get_varint64 (put_varint64 [] 300 ++ [x07]) = Some (300, [x07]) /\
  decode_varint32_exact (encode_varint32 300 ++ [x07]) = Exact 300 [x07].
Proof.
  destruct (integers_roundtrip 300 [x07]) as (H1 & _ & _ & H2); [lia|].
  split; [exact H1|]. apply H2. lia.
Defined.

(** C30. The table-driven checksum is the bitwise one: for every data and
    every starting value, [crc32c_extend] equals the reference that feeds the
    message's bits, least significant first, through one division step each;
    and extending twice is extending by the concatenation. *)
Theorem crc32c_is_bitwise_division crc a b :
  crc32c_extend crc a =
    crc_not (Nat.iter (8 * length a) crc_bit (crc_not crc .^ le_value a)) /\
  crc32c_extend (crc32c_extend crc a) b = crc32c_extend crc (a ++ b).
Proof.
  split; [|apply crc32c_extend_app]. unfold crc32c_extend. by rewrite crc_fold_bitwise.
Qed.

(** C29. A checksum catches every burst: changing any bytes within a span of
    at most four consecutive bytes changes the CRC32C. *)
Theorem crc32c_detects_bursts data data' :
  burst data data' -> crc32c data ≠ crc32c data'.
Proof. apply crc32c_burst_ne. lia. Qed.

Lemma crc32c_detects_bursts_witness :
  crc32c [x61; x62; x63] ≠ crc32c [x61; x00; x7f].
Proof.
  apply crc32c_detects_bursts. exists [x61], [x62; x63], [x00; x7f], [].
  split_and!; [done|done|done|simpl; lia|done].
Defined.

(** The published check value of CRC32C. *)
Example crc32c_check :
  crc32c (Z_to_byte <$> [49; 50; 51; 52; 53; 54; 55; 56; 57]) = 0xE3069283.
Proof. vm_compute. reflexivity. Qed.

End Encoding.
