(* ===== verification/DbFormat.v ===== *)
(** Internal keys (src/src/dbformat.hpp, src/src/dbformat.cpp): a user key
    followed by the eight-byte word [sequence << 8 | type], ordered by user
    key ascending and then by that word descending. *)
From S2P Require Import Prelude Encoding.
Import Encoding.

Module DbFormat.

Inductive ValueType := kDeletion | kValue.
#[global] Instance ValueType_eq_dec : EqDecision ValueType.
Proof. solve_decision. Defined.

Definition ValueType_to_Z (t : ValueType) : Z :=
  match t with kDeletion => 0 | kValue => 1 end.
(** [static_cast<ValueType>] of a byte that is one of the two values. *)
Definition ValueType_of_Z (z : Z) : option ValueType :=
  if z =? 0 then Some kDeletion else if z =? 1 then Some kValue else None.

Definition kValueTypeForSeek : ValueType := kValue.
Definition kMaxSequenceNumber : Z := (1 .<< 56) - 1.

Definition pack_sequence_and_type (seq : Z) (type : ValueType) : Z :=
  u64 (seq .<< 8) .| ValueType_to_Z type.

Record ParsedInternalKey := mkParsed {
  user_key : bytes;
  sequence : Z;
  type : ValueType
}.

Definition append_internal_key (dst : bytes) (key : ParsedInternalKey) : bytes :=
  put_fixed64 (dst ++ user_key key)
    (pack_sequence_and_type (sequence key) (type key)).
Definition make_internal_key (user_key : bytes) (sequence : Z) (type : ValueType) : bytes :=
  append_internal_key [] (mkParsed user_key sequence type).

(** [size() - 8] is a [size_t]: it wraps for a key shorter than eight bytes
    and [substr] then clamps it, so such a key is its own user key. *)
Definition extract_user_key (internal_key : bytes) : bytes :=
  sv_prefix internal_key (size_sub (size internal_key) 8).

(** The read [decode_fixed64(data() + size() - 8)]; [None] when the pointer
    lies before the key. *)
Definition trailer (internal_key : bytes) : option Z :=
  if size internal_key <? 8 then None
  else decode_fixed64 (drop (length internal_key - 8) internal_key).

Definition extract_sequence (internal_key : bytes) : option Z :=
  (λ t, t .>> 8) <$> trailer internal_key.
(** The raw type byte: the cast does not check it. *)
Definition extract_value_type (internal_key : bytes) : option Z :=
  (λ t, t .& 255) <$> trailer internal_key.

Definition parse_internal_key (internal_key : bytes) : option ParsedInternalKey :=
  if size internal_key <? 8 then None
  else
    trailer ← trailer internal_key;
    type ← ValueType_of_Z (trailer .& 255);
    Some (mkParsed (sv_prefix internal_key (size_sub (size internal_key) 8))
            (trailer .>> 8) type).

(** Undefined in C++ for a key shorter than eight bytes; the model reads a
    missing trailer as zero there, and every theorem that orders keys
    assumes eight bytes. *)
Definition compare_internal_keys (a b : bytes) : comparison :=
  match sv_compare (extract_user_key a) (extract_user_key b) with
  | Eq =>
      let trailer_a := default 0 (trailer a) in
      let trailer_b := default 0 (trailer b) in
      if trailer_b <? trailer_a then Lt
      else if trailer_a <? trailer_b then Gt else Eq
  | by_user => by_user
  end.

Definition make_lookup_key (user_key : bytes) (snapshot : Z) : bytes :=
  make_internal_key user_key snapshot kValueTypeForSeek.

(** [LookupKey]: the bytes from [start_] to [end_], and [kstart_ - start_]. *)
Record LookupKey := mkLookupKey { lk_bytes : bytes; lk_kstart : nat }.
Definition LookupKey_new (user_key : bytes) (snapshot : Z) : LookupKey :=
  let internal_size := size user_key + 8 in
  let dst := encode_varint32 (u32 internal_size) in
  mkLookupKey
    (dst ++ user_key ++ encode_fixed64 (pack_sequence_and_type snapshot kValueTypeForSeek))
    (length dst).
(** The bytes allocated for it: [space_] or [new char[needed]]. *)
Definition LookupKey_capacity (user_key : bytes) : Z :=
  let needed := 5 + (size user_key + 8) in
  if needed <=? 200 then 200 else needed.
Definition lk_memtable_key (k : LookupKey) : bytes := lk_bytes k.
Definition lk_internal_key (k : LookupKey) : bytes := drop (lk_kstart k) (lk_bytes k).
Definition lk_user_key (k : LookupKey) : bytes :=
  take (length (lk_bytes k) - lk_kstart k - 8) (drop (lk_kstart k) (lk_bytes k)).

(** * Lemmas *)

(** A key is well formed when it has room for its trailer. *)
Definition ikey_ok (k : bytes) : Prop := (8 <= length k)%nat.
(** Sequence numbers have 56 bits. *)
Definition seq_ok (s : Z) : Prop := 0 <= s <= kMaxSequenceNumber.

Lemma make_internal_key_eq u s t :
  make_internal_key u s t = u ++ encode_fixed64 (pack_sequence_and_type s t).
Proof. done. Qed.

Lemma length_make_internal_key u s t :
  length (make_internal_key u s t) = (length u + 8)%nat.
Proof. rewrite make_internal_key_eq, length_app. done. Qed.

Lemma make_internal_key_ok u s t : ikey_ok (make_internal_key u s t).
Proof. unfold ikey_ok. rewrite length_make_internal_key. lia. Qed.
#[export] Hint Resolve make_internal_key_ok : ambar.

Lemma pack_eq s t : seq_ok s -> pack_sequence_and_type s t = 256 * s + ValueType_to_Z t.
Proof.
  intros [H1 H2]. change kMaxSequenceNumber with (2 ^ 56 - 1) in H2.
  unfold pack_sequence_and_type, u64.
  rewrite Z.shiftl_mul_pow2, Z.mod_small by lia.
  rewrite Z.lor_comm, <- Z.shiftl_mul_pow2 by lia.
  rewrite lor_disjoint_add by (destruct t; simpl; lia). lia.
Qed.

Lemma pack_range s t : seq_ok s -> 0 <= pack_sequence_and_type s t < 2 ^ 64.
Proof.
  intros H. rewrite pack_eq by done. destruct H as [H1 H2].
  change kMaxSequenceNumber with (2 ^ 56 - 1) in H2. destruct t; simpl; lia.
Qed.

(** A well-formed key is its user key followed by its eight trailer bytes. *)
Lemma extract_user_key_ok k :
  ikey_ok k -> extract_user_key k = take (length k - 8) k.
Proof.
  unfold extract_user_key, sv_prefix, ikey_ok, size_sub, size. intros H.
  destruct (Z.ltb_spec (Z.of_nat (length k)) 8); [lia|].
  rewrite Z.min_l by lia. f_equal. lia.
Qed.

(** Short keys: the wrapped size clamps to the whole key. *)
Lemma extract_user_key_short k : size k < 8 -> extract_user_key k = k.
Proof.
  unfold extract_user_key, sv_prefix, size_sub. intros H.
  destruct (Z.ltb_spec (size k) 8); [|lia]. pose proof (size_nonneg k).
  rewrite Z.min_r by lia. unfold size. rewrite Nat2Z.id. by apply firstn_all.
Qed.

Lemma trailer_ok k : ikey_ok k -> trailer k = Some (le_value (drop (length k - 8) k)).
Proof.
  unfold trailer, ikey_ok, size. intros H.
  destruct (Z.ltb_spec (Z.of_nat (length k)) 8); [lia|].
  rewrite decode_fixed64_spec, length_drop.
  case_decide; [|lia]. rewrite take_ge; [done|]. rewrite length_drop. lia.
Qed.

Lemma extract_user_key_make u s t : extract_user_key (make_internal_key u s t) = u.
Proof.
  rewrite extract_user_key_ok by auto with ambar.
  rewrite length_make_internal_key, make_internal_key_eq.
  by rewrite take_app_length' by lia.
Qed.

Lemma trailer_make u s t :
  seq_ok s -> trailer (make_internal_key u s t) = Some (pack_sequence_and_type s t).
Proof.
  intros H. rewrite trailer_ok by auto with ambar.
  rewrite length_make_internal_key, make_internal_key_eq.
  rewrite drop_app_length' by lia. rewrite le_value_encode_fixed64.
  by rewrite Z.mod_small by (by apply pack_range).
Qed.

(** Two keys agree on user key and trailer exactly when they are equal. *)
Lemma ikey_split_inj a b :
  ikey_ok a -> ikey_ok b -> extract_user_key a = extract_user_key b ->
  trailer a = trailer b -> a = b.
Proof.
  intros Ha Hb. rewrite !extract_user_key_ok, !trailer_ok by done.
  intros Hu [= Ht]. unfold ikey_ok in *.
  rewrite <- (take_drop (length a - 8) a), <- (take_drop (length b - 8) b), Hu.
  f_equal. apply le_value_inj; [|done]. rewrite !length_drop. lia.
Qed.

Lemma compare_make ua sa ta ub sb tb :
  seq_ok sa -> seq_ok sb ->
  compare_internal_keys (make_internal_key ua sa ta) (make_internal_key ub sb tb) =
    match sv_compare ua ub with
    | Eq => match Z.compare sb sa with
            | Eq => Z.compare (ValueType_to_Z tb) (ValueType_to_Z ta)
            | c => c
            end
    | c => c
    end.
Proof.
  intros Ha Hb. unfold compare_internal_keys.
  rewrite !extract_user_key_make, !trailer_make by done. simpl.
  destruct (sv_compare ua ub); try done. rewrite !pack_eq by done.
  destruct (Z.compare_spec sb sa); destruct ta, tb; simpl; repeat case_if; b2p; lia || done.
Qed.

(** The order on well-formed keys. *)
Lemma compare_refl k : compare_internal_keys k k = Eq.
Proof. unfold compare_internal_keys. by rewrite sv_compare_refl, Z.ltb_irrefl. Qed.

Lemma compare_antisym a b : compare_internal_keys b a = CompOpp (compare_internal_keys a b).
Proof.
  unfold compare_internal_keys.
  rewrite (sv_compare_antisym (extract_user_key a)).
  destruct (sv_compare (extract_user_key a) (extract_user_key b)); try done. simpl.
  repeat case_if; b2p; done || lia.
Qed.

Lemma compare_eq a b :
  ikey_ok a -> ikey_ok b -> compare_internal_keys a b = Eq -> a = b.
Proof.
  intros Ha Hb. unfold compare_internal_keys.
  destruct (sv_compare (extract_user_key a) (extract_user_key b)) eqn:E; try done.
  apply sv_compare_eq in E. intros H. apply ikey_split_inj; [done..|].
  rewrite (trailer_ok a), (trailer_ok b) in * by done. simpl in H.
  repeat case_if; try done. b2p. f_equal. lia.
Qed.

Lemma compare_lt_trans a b c :
  compare_internal_keys a b = Lt -> compare_internal_keys b c = Lt ->
  compare_internal_keys a c = Lt.
Proof.
  unfold compare_internal_keys.
  destruct (sv_compare (extract_user_key a) (extract_user_key b)) eqn:E1; try done;
  destruct (sv_compare (extract_user_key b) (extract_user_key c)) eqn:E2; try done.
  - apply sv_compare_eq in E1. rewrite E1, E2. intros; repeat case_if; b2p; done || lia.
  - apply sv_compare_eq in E1. by rewrite E1, E2.
  - apply sv_compare_eq in E2. rewrite <- E2, E1. done.
  - by rewrite (sv_compare_lt_trans _ _ _ E1 E2).
Qed.

Lemma parse_make u s t :
  seq_ok s -> parse_internal_key (make_internal_key u s t) = Some (mkParsed u s t).
Proof.
  intros H. unfold parse_internal_key.
  pose proof (make_internal_key_ok u s t) as Hok.
  fold (extract_user_key (make_internal_key u s t)).
  unfold ikey_ok in Hok. unfold size at 1.
  destruct (Z.ltb_spec (Z.of_nat (length (make_internal_key u s t))) 8); [lia|].
  rewrite trailer_make by done. simpl.
  rewrite pack_eq, land_255, Z.shiftr_div_pow2, extract_user_key_make by (done || lia).
  replace ((256 * s + ValueType_to_Z t) mod 256) with (ValueType_to_Z t)
    by (destruct t; simpl; zmod).
  replace ((256 * s + ValueType_to_Z t) / 2 ^ 8) with s by (destruct t; simpl; zmod).
  by destruct t.
Qed.

(** Whatever parses was made by [make_internal_key] from what it parsed to. *)
Lemma make_parse k p :
  parse_internal_key k = Some p ->
  k = make_internal_key (user_key p) (sequence p) (type p) ∧ seq_ok (sequence p).
Proof.
  unfold parse_internal_key. destruct (Z.ltb_spec (size k) 8) as [|Hge]; [done|].
  assert (ikey_ok k) as Hok by (unfold ikey_ok, size in *; lia).
  fold (extract_user_key k). rewrite trailer_ok by done. simpl.
  set (w := le_value (drop (length k - 8) k)).
  assert (0 <= w < 2 ^ 64) as Hw.
  { pose proof (le_value_range (drop (length k - 8) k)) as R. subst w.
    rewrite length_drop in R. unfold ikey_ok in Hok.
    replace (length k - (length k - 8))%nat with 8%nat in R by lia. done. }
  destruct (ValueType_of_Z (w .& 255)) as [t|] eqn:Et; [|done]. simpl.
  intros [= <-]. simpl. rewrite land_255 in Et.
  assert (seq_ok (w .>> 8)) as Hs.
  { unfold seq_ok, kMaxSequenceNumber. rewrite Z.shiftr_div_pow2 by lia.
    change ((1 .<< 56) - 1) with (2 ^ 56 - 1). zmod. }
  split; [|done]. apply ikey_split_inj; auto with ambar.
  - by rewrite extract_user_key_make.
  - rewrite trailer_make, trailer_ok, pack_eq by done. f_equal. fold w.
    rewrite Z.shiftr_div_pow2 by lia. unfold ValueType_of_Z in Et.
    repeat case_if; b2p; simplify_eq; simpl; zmod.
Qed.

Lemma lookup_key_views u s :
  lk_internal_key (LookupKey_new u s) = make_lookup_key u s ∧
  lk_user_key (LookupKey_new u s) = u.
Proof.
  unfold lk_internal_key, lk_user_key, LookupKey_new; cbn [lk_kstart lk_bytes].
  rewrite drop_app_length. split; [done|].
  rewrite !length_app, length_encode_fixed64.
  by rewrite take_app_length' by lia.
Qed.

Lemma memtable_key_eq u s :
  lk_memtable_key (LookupKey_new u s) = put_length_prefixed [] (make_lookup_key u s).
Proof.
  unfold lk_memtable_key, LookupKey_new, put_length_prefixed, put_varint32; cbn [lk_bytes].
  rewrite app_nil_l. unfold make_lookup_key, size at 2.
  rewrite length_make_internal_key. rewrite make_internal_key_eq. unfold encode_varint32, size.
  by rewrite Nat2Z.inj_add.
Qed.

(** Where the entries of a user key lie around a lookup key. *)
Lemma compare_lookup u v snapshot s t :
  seq_ok snapshot -> seq_ok s ->
  compare_internal_keys (make_internal_key v s t) (make_lookup_key u snapshot) =
    match sv_compare v u with
    | Eq => if snapshot <? s then Lt
            else if (s =? snapshot) && bool_decide (t = kValue) then Eq else Gt
    | by_user => by_user
    end.
Proof.
  intros Hsn Hs. unfold make_lookup_key. rewrite compare_make by done.
  destruct (sv_compare v u); try done.
  destruct (Z.compare_spec snapshot s), (Z.ltb_spec snapshot s); try lia; try done.
  all: destruct (Z.eqb_spec s snapshot); try lia; destruct t; done.
Qed.

(** * Theorems *)

(** The internal key order: on keys built from user keys, sequence
    numbers and types, [compare_internal_keys] orders by user key, then by
    descending sequence, then by descending type; and on any keys of at least
    eight bytes it is a total order whose equality is equality of bytes. *)
Theorem internal_key_order ua sa ta ub sb tb a b c :
  seq_ok sa -> seq_ok sb -> ikey_ok a -> ikey_ok b ->
  compare_internal_keys (make_internal_key ua sa ta) (make_internal_key ub sb tb) =
    match sv_compare ua ub with
    | Eq => match Z.compare sb sa with
            | Eq => Z.compare (ValueType_to_Z tb) (ValueType_to_Z ta)
            | by_sequence => by_sequence
            end
    | by_user => by_user
    end /\
  compare_internal_keys b a = CompOpp (compare_internal_keys a b) /\
  (compare_internal_keys a b = Eq <-> a = b) /\
  (compare_internal_keys a b = Lt -> compare_internal_keys b c = Lt ->
   compare_internal_keys a c = Lt).
Proof.
  intros. split_and!; [by apply compare_make|apply compare_antisym| |apply compare_lt_trans].
  split; [by apply compare_eq|intros ->; apply compare_refl].
Qed.

Lemma internal_key_order_witness :
  compare_internal_keys (make_internal_key [x61] 7 kValue) (make_internal_key [x61] 3 kDeletion) = Lt.
Proof.
  destruct (internal_key_order [x61] 7 kValue [x61] 3 kDeletion
    (make_internal_key [] 0 kValue) (make_internal_key [] 0 kValue) []) as [E _];
    [vm_compute; split; discriminate..|unfold ikey_ok; simpl; lia|unfold ikey_ok; simpl; lia|].
  rewrite E. reflexivity.
Defined.

(** Internal keys round-trip: what [make_internal_key] builds parses back
    to its parts, and a byte string that parses is exactly the key built from
    what it parsed to, with a sequence number of 56 bits. *)
Theorem internal_key_roundtrip u s t k p :
  seq_ok s ->
  parse_internal_key (make_internal_key u s t) = Some (mkParsed u s t) /\
  (parse_internal_key k = Some p ->
   k = make_internal_key (user_key p) (sequence p) (type p) /\ seq_ok (sequence p)).
Proof. intros. split; [by apply parse_make|apply make_parse]. Qed.

Lemma internal_key_roundtrip_witness :
  parse_internal_key (make_internal_key [x6b; x31] 1017 kDeletion) =
    Some (mkParsed [x6b; x31] 1017 kDeletion).
Proof.
  apply (internal_key_roundtrip [x6b; x31] 1017 kDeletion [] (mkParsed [] 0 kValue)).
  vm_compute. split; discriminate.
Defined.

(** A lookup key separates what a snapshot sees: among the entries of
    its user key, those with a sequence number above the snapshot sort
    strictly before it, and every entry at or below the snapshot sorts at or
    after it; entries of smaller user keys sort before it and of larger ones
    after it.  The three views a [LookupKey] hands out are that key, and its
    bytes fit the space allocated for it. *)
Theorem lookup_key_separates u v snapshot s t :
  seq_ok snapshot -> seq_ok s -> size u < 2 ^ 32 - 8 ->
  let lookup := make_lookup_key u snapshot in
  let entry := make_internal_key v s t in
  compare_internal_keys entry lookup =
    match sv_compare v u with
    | Eq => if snapshot <? s then Lt
            else if (s =? snapshot) && bool_decide (t = kValue) then Eq else Gt
    | by_user => by_user
    end /\
  lk_internal_key (LookupKey_new u snapshot) = lookup /\
  lk_user_key (LookupKey_new u snapshot) = u /\
  get_length_prefixed (lk_memtable_key (LookupKey_new u snapshot)) = Some (lookup, []) /\
  size (lk_memtable_key (LookupKey_new u snapshot)) <= LookupKey_capacity u.
Proof.
  intros Hsn Hs Hu lookup entry.
  destruct (lookup_key_views u snapshot) as [Hi Huk].
  pose proof (memtable_key_eq u snapshot) as Em. fold lookup in Em.
  assert (size lookup = size u + 8) as Esz.
  { unfold lookup, make_lookup_key, size. rewrite length_make_internal_key. lia. }
  pose proof (size_nonneg u).
  split_and!; try done.
  - by apply compare_lookup.
  - rewrite Em. rewrite <- (app_nil_r (put_length_prefixed [] lookup)).
    apply get_put_length_prefixed_app. lia.
  - rewrite Em. unfold put_length_prefixed, put_varint32. rewrite app_nil_l, size_app, Esz.
    pose proof (varint_loop_length 10 5 (u32 (size u + 8))) as Hl.
    pose proof (u32_range (size u + 8)). unfold size at 1, LookupKey_capacity.
    destruct (Z.leb_spec (5 + (size u + 8)) 200); lia.
Qed.

Lemma lookup_key_separates_witness :
  compare_internal_keys (make_internal_key [x6b] 9 kValue) (make_lookup_key [x6b] 8) = Lt /\
  compare_internal_keys (make_internal_key [x6b] 8 kValue) (make_lookup_key [x6b] 8) = Eq.
Proof.
  split.
  - apply (lookup_key_separates [x6b] [x6b] 8 9 kValue); vm_compute; try split; done.
  - apply (lookup_key_separates [x6b] [x6b] 8 8 kValue); vm_compute; try split; done.
Defined.

End DbFormat.
