(* ===== verification/Comparator.v ===== *)
(** Key orderings (src/src/comparator.hpp, src/src/comparator.cpp): the
    [Comparator] record of functions, its two instances, and the laws the
    table code relies on, as a class its clients are proved against. *)
From S2P Require Import Prelude Encoding DbFormat.
Import Encoding DbFormat.

Module Comparator.

Record Comparator := mkComparator {
  name : string;
  min_key_length : nat;
  compare : bytes -> bytes -> comparison;
  find_shortest_separator : bytes -> bytes -> bytes;  (* start, limit *)
  find_short_successor : bytes -> bytes
}.

Definition bytewise_compare (a b : bytes) : comparison := sv_compare a b.

(** The loop [while (diff < min_length && start[diff] == limit[diff])]. *)
Fixpoint first_difference (a b : bytes) : nat :=
  match a, b with
  | x :: a', y :: b' => if decide (x = y) then S (first_difference a' b') else O
  | _, _ => O
  end.

Definition bytewise_shortest_separator (start limit : bytes) : bytes :=
  let min_length := Nat.min (length start) (length limit) in
  let diff := first_difference start limit in
  if (min_length <=? diff)%nat then start
  else
    let byte := byte_to_Z (nth diff start x00) in
    if (byte <? 255) && (byte + 1 <? byte_to_Z (nth diff limit x00))
    then take diff start ++ [Z_to_byte (byte + 1)]
    else start.

(** The loop of [bytewise_short_successor] over the bytes from [i] on. *)
Fixpoint bytewise_short_successor (key : bytes) : bytes :=
  match key with
  | [] => []
  | b :: key' =>
      if byte_to_Z b =? 255 then b :: bytewise_short_successor key'
      else [Z_to_byte (byte_to_Z b + 1)]
  end.

Definition kBytewise : Comparator :=
  mkComparator "ambar.BytewiseComparator" 0 bytewise_compare
    bytewise_shortest_separator bytewise_short_successor.

(** [bytewise_compare(a, b) >= 0]. *)
Definition not_below (c : comparison) : bool :=
  match c with Lt => false | _ => true end.

Definition internal_shortest_separator (start limit : bytes) : bytes :=
  let start_user := extract_user_key start in
  let limit_user := extract_user_key limit in
  let shortened := bytewise_shortest_separator start_user limit_user in
  if size start_user <=? size shortened then start
  else if not_below (bytewise_compare start_user shortened) then start
  else if not_below (bytewise_compare shortened limit_user) then start
  else make_internal_key shortened kMaxSequenceNumber kValueTypeForSeek.

Definition internal_short_successor (key : bytes) : bytes :=
  let user := extract_user_key key in
  let shortened := bytewise_short_successor user in
  if size user <=? size shortened then key
  else if not_below (bytewise_compare user shortened) then key
  else make_internal_key shortened kMaxSequenceNumber kValueTypeForSeek.

Definition kInternal : Comparator :=
  mkComparator "ambar.InternalKeyComparator" 8 compare_internal_keys
    internal_shortest_separator internal_short_successor.

Definition bytewise_comparator : Comparator := kBytewise.
Definition internal_key_comparator : Comparator := kInternal.

(** * What a comparator promises

    A key is readable when it has at least [min_key_length] bytes.  On
    readable keys [compare] is a strict total order, the separator of two
    ordered keys lies in [start, limit) and a successor is not below its key;
    both stay readable. *)
Definition readable (c : Comparator) (k : bytes) : Prop :=
  (min_key_length c <= length k)%nat.

Definition key_lt (c : Comparator) (a b : bytes) : Prop := compare c a b = Lt.
Definition key_le (c : Comparator) (a b : bytes) : Prop := compare c a b ≠ Gt.

Class ComparatorLaws (c : Comparator) : Prop := {
  cmp_refl a : compare c a a = Eq;
  cmp_antisym a b : compare c b a = CompOpp (compare c a b);
  cmp_eq a b : readable c a -> readable c b -> compare c a b = Eq -> a = b;
  cmp_trans a b d : key_lt c a b -> key_lt c b d -> key_lt c a d;
  cmp_separator s l :
    readable c s -> readable c l -> key_lt c s l ->
    let s' := find_shortest_separator c s l in
    readable c s' /\ key_le c s s' /\ key_lt c s' l;
  cmp_successor k :
    readable c k ->
    let k' := find_short_successor c k in readable c k' /\ key_le c k k'
}.

Section Laws.
Context {c : Comparator} `{!ComparatorLaws c}.

Lemma key_lt_irrefl a : ~ key_lt c a a.
Proof. unfold key_lt. by rewrite cmp_refl. Qed.

Lemma key_le_refl a : key_le c a a.
Proof. unfold key_le. by rewrite cmp_refl. Qed.

Lemma key_not_lt a b : ~ key_lt c a b <-> key_le c b a.
Proof.
  unfold key_lt, key_le. rewrite (cmp_antisym a b).
  by destruct (compare c a b).
Qed.

Lemma key_lt_le a b : key_lt c a b -> key_le c a b.
Proof. unfold key_lt, key_le. by intros ->. Qed.

Lemma key_le_lt_eq a b :
  readable c a -> readable c b -> key_le c a b -> key_lt c a b \/ a = b.
Proof.
  unfold key_lt, key_le. intros Ha Hb H.
  destruct (compare c a b) eqn:E; [right; by apply cmp_eq|by left|done].
Qed.

Lemma key_lt_trans a b d : key_lt c a b -> key_lt c b d -> key_lt c a d.
Proof. apply cmp_trans. Qed.

Lemma key_le_lt_trans a b d :
  readable c a -> readable c b -> key_le c a b -> key_lt c b d -> key_lt c a d.
Proof.
  intros Ha Hb Hab Hbd. destruct (key_le_lt_eq a b Ha Hb Hab) as [ | -> ]; [|done].
  by eapply key_lt_trans.
Qed.

Lemma key_lt_le_trans a b d :
  readable c b -> readable c d -> key_lt c a b -> key_le c b d -> key_lt c a d.
Proof.
  intros Hb Hd Hab Hbd. destruct (key_le_lt_eq b d Hb Hd Hbd) as [ | <- ]; [|done].
  by eapply key_lt_trans.
Qed.
End Laws.

(** * The two instances *)
Lemma first_difference_prefix a b :
  take (first_difference a b) a = take (first_difference a b) b.
Proof.
  revert b. induction a as [|x a IH]; intros [|y b]; simpl; try done.
  case_decide as E; simpl; [|done]. by rewrite E, IH.
Qed.

Lemma first_difference_bound a b :
  (first_difference a b <= Nat.min (length a) (length b))%nat.
Proof.
  revert b. induction a as [|x a IH]; intros [|y b]; simpl; try lia.
  case_decide; [|lia]. specialize (IH b). lia.
Qed.

(** Splitting at the first difference. *)
Lemma first_difference_split a b :
  (first_difference a b < Nat.min (length a) (length b))%nat ->
  let d := first_difference a b in
  ∃ x y a' b', a = take d a ++ x :: a' ∧ b = take d a ++ y :: b' ∧
    nth d a x00 = x ∧ nth d b x00 = y ∧ x ≠ y.
Proof.
  revert b. induction a as [|x a IH]; intros [|y b]; simpl; try lia.
  case_decide as E; simpl; intros H.
  - destruct (IH b) as (x' & y' & a' & b' & Ea & Eb & Hx & Hy & Hne); [lia|].
    exists x', y', a', b'. simpl in *. rewrite <- Ea, E. by rewrite <- Eb.
  - by exists x, y, a, b.
Qed.

Lemma bytewise_separator_between s l :
  sv_compare s l = Lt ->
  let s' := bytewise_shortest_separator s l in
  (s' = s \/ sv_compare s s' = Lt) /\ sv_compare s' l = Lt.
Proof.
  intros H. unfold bytewise_shortest_separator.
  destruct (Nat.leb_spec (Nat.min (length s) (length l)) (first_difference s l)) as [|Hd]; [auto|].
  destruct (first_difference_split s l Hd) as (x & y & s1 & l1 & Es & El & Hx & Hy & Hne).
  rewrite Hx, Hy. case_if; [|auto]. b2p.
  set (p := take (first_difference s l) s) in *.
  assert (byte_to_Z (Z_to_byte (byte_to_Z x + 1)) = byte_to_Z x + 1) as E1
    by (pose proof (byte_to_Z_range x); rewrite byte_to_Z_small; lia).
  split; [right; rewrite Es at 1|rewrite El at 1]; rewrite sv_compare_app;
    apply sv_compare_head; lia.
Qed.

Lemma bytewise_successor_above k :
  let k' := bytewise_short_successor k in k' = k \/ sv_compare k k' = Lt.
Proof.
  induction k as [|b k IH]; simpl; [auto|].
  case_if; b2p.
  - destruct IH as [->|IH]; [auto|]. right. by rewrite Z.compare_refl.
  - right. pose proof (byte_to_Z_range b).
    rewrite byte_to_Z_small by lia.
    by destruct (Z.compare_spec (byte_to_Z b) (byte_to_Z b + 1)); try lia.
Qed.

#[global] Instance bytewise_laws : ComparatorLaws kBytewise.
Proof.
  split; unfold key_lt, key_le, readable; simpl; unfold bytewise_compare.
  - apply sv_compare_refl.
  - intros. apply sv_compare_antisym.
  - intros a b _ _. apply sv_compare_eq.
  - apply sv_compare_lt_trans.
  - intros s l _ _ H. destruct (bytewise_separator_between s l H) as [[-> | E] E'].
    + split; [lia|]. by rewrite sv_compare_refl.
    + split; [lia|]. by rewrite E.
  - intros k _. destruct (bytewise_successor_above k) as [-> | E].
    + split; [lia|]. by rewrite sv_compare_refl.
    + split; [lia|]. by rewrite E.
Qed.

(** Keys with different user keys are ordered by them. *)
Lemma compare_user_lt a b :
  sv_compare (extract_user_key a) (extract_user_key b) = Lt ->
  compare_internal_keys a b = Lt.
Proof. unfold compare_internal_keys. by intros ->. Qed.

Lemma not_below_false c : not_below c = false -> c = Lt.
Proof. by destruct c. Qed.

#[global] Instance internal_laws : ComparatorLaws kInternal.
Proof.
  split; unfold key_lt, key_le, readable; simpl.
  - apply compare_refl.
  - intros. apply compare_antisym.
  - intros a b Ha Hb. by apply compare_eq.
  - apply compare_lt_trans.
  - intros s l Hs Hl H. unfold internal_shortest_separator.
    repeat case_if; rewrite ?compare_refl; try done.
    split_and!.
    + rewrite length_make_internal_key. lia.
    + rewrite compare_user_lt; [done|]. rewrite extract_user_key_make.
      by apply not_below_false.
    + apply compare_user_lt. rewrite extract_user_key_make. by apply not_below_false.
  - intros k Hk. unfold internal_short_successor.
    repeat case_if; rewrite ?compare_refl; try done.
    split; [rewrite length_make_internal_key; lia|].
    rewrite compare_user_lt; [done|]. rewrite extract_user_key_make.
    by apply not_below_false.
Qed.

(** * Theorems *)

(** Keys of one group are neighbours, and a separator put between two keys does
    not take a key of the later one's group to the earlier side: what makes a
    point lookup of any version of a user key look in the right block. *)
Class Grouping (c : Comparator) (g : bytes -> bytes) : Prop := {
  group_convex a b d : key_le c a b -> key_le c b d -> g a = g d -> g b = g a;
  group_separator s l k :
    key_lt c s l -> key_lt c s k -> key_le c k (find_shortest_separator c s l) -> g k <> g l
}.
Lemma sv_le_lt_trans a b d : sv_compare a b <> Gt -> sv_compare b d = Lt -> sv_compare a d = Lt.
Proof.
  intros Hab Hbd. destruct (sv_compare a b) eqn:E; [|by eapply sv_compare_lt_trans|done].
  apply sv_compare_eq in E as ->. done.
Qed.
Lemma compare_user_le a b :
  compare_internal_keys a b <> Gt -> sv_compare (extract_user_key a) (extract_user_key b) <> Gt.
Proof. unfold compare_internal_keys. by destruct (sv_compare _ _). Qed.
Lemma sv_le_convex a b : sv_compare a b <> Gt -> sv_compare b a <> Gt -> a = b.
Proof.
  intros H1 H2. rewrite sv_compare_antisym in H2. destruct (sv_compare a b) eqn:E; [by apply sv_compare_eq|done..].
Qed.
#[global] Instance bytewise_grouping : Grouping kBytewise id.
Proof.
  split; unfold key_lt, key_le; cbn [compare kBytewise find_shortest_separator]; unfold bytewise_compare.
  - intros a b d Hab Hbd E. cbn in *. subst d. symmetry. by apply sv_le_convex.
  - intros s l k Hsl _ Hk E. cbn in *. subst k.
    destruct (bytewise_separator_between s l Hsl) as [_ H].
    pose proof (sv_le_lt_trans _ _ _ Hk H) as Hl. by rewrite sv_compare_refl in Hl.
Qed.
#[global] Instance internal_grouping : Grouping kInternal extract_user_key.
Proof.
  split; unfold key_lt, key_le; cbn [compare kInternal find_shortest_separator].
  - intros a b d Hab%compare_user_le Hbd%compare_user_le E. rewrite <- E in Hbd. symmetry. by apply sv_le_convex.
  - intros s l k _ Hsk Hk E. unfold internal_shortest_separator in Hk.
    assert (compare_internal_keys k s <> Gt -> False) as Hs.
    { rewrite compare_antisym, Hsk. done. }
    repeat case_if; try done. apply compare_user_le in Hk. rewrite extract_user_key_make in Hk.
    pose proof (sv_le_lt_trans _ _ _ Hk ltac:(by apply not_below_false)) as Hl. rewrite E, sv_compare_refl in Hl. done.
Qed.

(** Shortened index keys keep the order: for both comparators, the
    separator of two ordered keys lies at or after the first and strictly
    before the second, a successor is not below its key, and both stay long
    enough for the comparator to read. *)
Theorem shortened_keys_separate c s l :
  c = bytewise_comparator \/ c = internal_key_comparator ->
  readable c s -> readable c l -> key_lt c s l ->
  let sep := find_shortest_separator c s l in
  let succ := find_short_successor c s in
  (readable c sep /\ key_le c s sep /\ key_lt c sep l) /\
  (readable c succ /\ key_le c s succ).
Proof.
  intros [-> | ->] Hs Hl H; (split; [by apply cmp_separator|by apply cmp_successor]).
Qed.

Lemma shortened_keys_separate_witness :
  find_shortest_separator internal_key_comparator
    (make_internal_key [x61; x62; x63; x64] 5 kValue) (make_internal_key [x61; x66] 9 kValue) =
    make_internal_key [x61; x63] kMaxSequenceNumber kValue /\
  key_lt internal_key_comparator
    (find_shortest_separator internal_key_comparator
      (make_internal_key [x61; x62; x63; x64] 5 kValue) (make_internal_key [x61; x66] 9 kValue))
    (make_internal_key [x61; x66] 9 kValue).
Proof.
  split; [vm_compute; reflexivity|].
  apply (shortened_keys_separate internal_key_comparator);
    [by right|unfold readable; simpl; lia|unfold readable; simpl; lia|vm_compute; reflexivity].
Defined.

End Comparator.
