(* ===== verification/Filename.v ===== *)
(** The names of the files of a database directory (src/src/filename.hpp,
    src/src/filename.cpp): writing them and telling them apart. *)
From S2P Require Import Prelude.

Module Filename.

Inductive FileType := kLog | kLock | kTable | kDescriptor | kCurrent | kTemp | kInfoLog.
#[global] Instance FileType_eq_dec : EqDecision FileType.
Proof. solve_decision. Defined.

(** ** Decimal numbers *)

Definition UINT64_MAX : Z := 2 ^ 64 - 1.
Definition is_digit (c : byte) : bool := (48 <=? byte_to_Z c) && (byte_to_Z c <=? 57).

Fixpoint parse_digits (text : bytes) (result : Z) : option Z :=
  match text with
  | [] => Some result
  | c :: text' =>
      if negb (is_digit c) then None
      else
        let digit := byte_to_Z c - 48 in
        if (UINT64_MAX - digit) / 10 <? result then None
        else parse_digits text' (u64 (result * 10 + digit))
  end.
Definition parse_number (text : bytes) : option Z :=
  if (size text =? 0) || (20 <? size text) then None else parse_digits text 0.

(** [%llu]: a 64-bit number has at most twenty digits; and [%06llu]. *)
Fixpoint decimal (fuel : nat) (n : Z) (acc : bytes) : bytes :=
  match fuel with
  | O => acc
  | S fuel' =>
      let acc := Z_to_byte (48 + n mod 10) :: acc in
      if n / 10 =? 0 then acc else decimal fuel' (n / 10) acc
  end.
Definition padded (n : Z) : bytes :=
  let digits := decimal 20 n [] in replicate (6 - length digits) x30 ++ digits.

(** ** Names *)
Definition numbered (dbname : bytes) (number : Z) (suffix : string) : bytes :=
  dbname ++ string_bytes "/" ++ padded number ++ string_bytes "." ++ string_bytes suffix.

Definition log_file_name (dbname : bytes) (number : Z) : bytes := numbered dbname number "log".
Definition table_file_name (dbname : bytes) (number : Z) : bytes := numbered dbname number "sst".
Definition descriptor_file_name (dbname : bytes) (number : Z) : bytes :=
  dbname ++ string_bytes "/MANIFEST-" ++ padded number.
Definition current_file_name (dbname : bytes) : bytes := dbname ++ string_bytes "/CURRENT".
Definition lock_file_name (dbname : bytes) : bytes := dbname ++ string_bytes "/LOCK".
Definition temp_file_name (dbname : bytes) (number : Z) : bytes := numbered dbname number "dbtmp".
Definition info_log_file_name (dbname : bytes) : bytes := dbname ++ string_bytes "/LOG".

(** ** Telling them apart *)

(** [filename.find('.')]. *)
Fixpoint find_char (c : byte) (text : bytes) : option nat :=
  match text with
  | [] => None
  | x :: text' => if bool_decide (x = c) then Some O else S <$> find_char c text'
  end.

Definition kManifestPrefix : bytes := string_bytes "MANIFEST-".

Definition parse_file_name (filename : bytes) : option (Z * FileType) :=
  if bool_decide (filename = string_bytes "CURRENT") then Some (0, kCurrent)
  else if bool_decide (filename = string_bytes "LOCK") then Some (0, kLock)
  else if bool_decide (filename = string_bytes "LOG") || bool_decide (filename = string_bytes "LOG.old")
  then Some (0, kInfoLog)
  else if bool_decide (take (length kManifestPrefix) filename = kManifestPrefix) then
    value ← parse_number (drop (length kManifestPrefix) filename);
    Some (value, kDescriptor)
  else
    match find_char x2e filename with
    | None | Some O => None
    | Some dot =>
        value ← parse_number (take dot filename);
        let suffix := drop (S dot) filename in
        if bool_decide (suffix = string_bytes "log") then Some (value, kLog)
        else if bool_decide (suffix = string_bytes "sst") then Some (value, kTable)
        else if bool_decide (suffix = string_bytes "dbtmp") then Some (value, kTemp)
        else None
    end.

(** * Lemmas *)

(** The number a string of digits denotes, after the digits [v] before it. *)
Definition denotes (v : Z) (text : bytes) : Z := fold_left (λ v c, v * 10 + (byte_to_Z c - 48)) text v.

Lemma denotes_ge v text : 0 <= v -> Forall is_digit text -> v <= denotes v text.
Proof.
  intros Hv H. revert v Hv. induction H as [|c text Hc _ IH]; intros v Hv; [done|]. cbn.
  unfold is_digit in Hc. apply Is_true_true in Hc. b2p. etransitivity; [|apply IH]; lia.
Qed.

Lemma parse_digits_spec text v :
  0 <= v < 2 ^ 64 ->
  parse_digits text v =
    if bool_decide (Forall is_digit text) && (denotes v text <? 2 ^ 64) then Some (denotes v text) else None.
Proof.
  revert v. induction text as [|c text IH]; intros v Hv; cbn [parse_digits].
  { rewrite bool_decide_true by constructor. cbn. by rewrite (proj2 (Z.ltb_lt _ _)) by lia. }
  destruct (is_digit c) eqn:Hc; cbn [negb].
  2: { rewrite bool_decide_false; [done|]. intros H. apply Forall_cons in H as [H _]. by rewrite Hc in H. }
  assert (48 <= byte_to_Z c <= 57) as Hr by (unfold is_digit in Hc; b2p; lia).
  assert (bool_decide (Forall is_digit (c :: text)) = bool_decide (Forall is_digit text)) as Eb.
  { apply bool_decide_ext. rewrite Forall_cons, Hc. naive_solver. }
  rewrite Eb. change (denotes v (c :: text)) with (denotes (v * 10 + (byte_to_Z c - 48)) text).
  unfold UINT64_MAX. destruct (Z.ltb_spec ((2 ^ 64 - 1 - (byte_to_Z c - 48)) / 10) v) as [Hlt|Hge].
  - assert (2 ^ 64 <= v * 10 + (byte_to_Z c - 48)) by zmod.
    destruct (bool_decide _) eqn:HF; [|done]. apply bool_decide_eq_true in HF. cbn [andb].
    rewrite (proj2 (Z.ltb_ge _ _)); [done|]. pose proof (denotes_ge (v * 10 + (byte_to_Z c - 48)) text ltac:(lia) HF). lia.
  - assert (v * 10 + (byte_to_Z c - 48) < 2 ^ 64) by zmod. rewrite u64_small by lia. by apply IH; lia.
Qed.

Lemma parse_number_spec text n :
  parse_number text = Some n <->
  (1 <= length text <= 20)%nat /\ Forall is_digit text /\ n = denotes 0 text /\ n < 2 ^ 64.
Proof.
  unfold parse_number, size. destruct ((Z.of_nat (length text) =? 0) || (20 <? Z.of_nat (length text))) eqn:E.
  { split; [done|]. intros (H & _). b2p. lia. }
  b2p. rewrite parse_digits_spec by lia. case_bool_decide as HF; cbn [andb]; [|naive_solver].
  case_if; b2p; [|naive_solver lia]. split; [|naive_solver]. intros [= <-]. split_and!; [lia|lia|done|done|done].
Qed.

Lemma digit_char d : 0 <= d < 10 -> byte_to_Z (Z_to_byte (48 + d)) = 48 + d.
Proof. intros. apply byte_to_Z_small. lia. Qed.

Lemma decimal_spec fuel n acc :
  0 <= n < 10 ^ Z.of_nat fuel -> Forall is_digit acc -> (0 < fuel)%nat ->
  Forall is_digit (decimal fuel n acc) /\ (length acc < length (decimal fuel n acc) <= length acc + fuel)%nat /\
  forall v, denotes v (decimal fuel n acc) =
    denotes (v * 10 ^ Z.of_nat (length (decimal fuel n acc) - length acc) + n) acc.
Proof.
  revert n acc. induction fuel as [|fuel IH]; intros n acc Hn Hacc Hf; [lia|]. cbn [decimal].
  pose proof (Z.mod_pos_bound n 10 ltac:(lia)) as Hm.
  assert (is_digit (Z_to_byte (48 + n mod 10))) as Hd.
  { apply Is_true_true. unfold is_digit. rewrite digit_char by done. apply andb_true_intro. split; apply Z.leb_le; lia. }
  destruct (Z.eqb_spec (n / 10) 0) as [E|E].
  - split_and!; [by constructor|cbn [length]; lia|cbn [length]; lia|]. intros v. cbn [length].
    replace (S (length acc) - length acc)%nat with 1%nat by lia. change (denotes v (?c :: acc)) with
      (denotes (v * 10 + (byte_to_Z c - 48)) acc). rewrite digit_char by done. f_equal. zmod.
  - rewrite Nat2Z.inj_succ, Z.pow_succ_r in Hn by lia. destruct fuel as [|fuel]; [exfalso; cbn in Hn; zmod|].
    destruct (IH (n / 10) (Z_to_byte (48 + n mod 10) :: acc)) as (HF & Hl & Hv); [zmod|by constructor|lia|].
    cbn [length] in Hl, Hv. split_and!; [done|lia|lia|]. intros v. rewrite Hv.
    change (denotes ?w (?c :: acc)) with (denotes (w * 10 + (byte_to_Z c - 48)) acc). rewrite digit_char by done. f_equal.
    set (m := length (decimal _ _ _)) in *. replace (m - length acc)%nat with (S (m - S (length acc))) by lia.
    rewrite Nat2Z.inj_succ, Z.pow_succ_r by lia. zmod.
Qed.

Lemma denotes_zeros n text : denotes 0 (replicate n x30 ++ text) = denotes 0 text.
Proof. induction n as [|n IH]; [done|]. exact IH. Qed.

Lemma padded_spec n :
  0 <= n < 2 ^ 64 ->
  Forall is_digit (padded n) /\ (6 <= length (padded n))%nat /\ parse_number (padded n) = Some n.
Proof.
  intros Hn. destruct (decimal_spec 20 n []) as (HF & Hl & Hv); [lia|done|lia|]. unfold padded.
  assert (Forall is_digit (replicate (6 - length (decimal 20 n [])) x30)) as Hz.
  { apply Forall_replicate. done. }
  cbn [length] in Hl. assert (Forall is_digit (replicate (6 - length (decimal 20 n [])) x30 ++ decimal 20 n [])) as HA by by apply Forall_app.
  split_and!; [done|rewrite length_app, length_replicate; lia|].
  apply parse_number_spec. rewrite length_app, length_replicate. split_and!; [lia|lia|done| |lia].
  rewrite denotes_zeros, Hv. done.
Qed.

Lemma drop_past {A} (l : list A) x r : drop (S (length l)) (l ++ x :: r) = r.
Proof. induction l as [|y l IH]; [done|]. exact IH. Qed.
Lemma find_char_digits digits rest : Forall is_digit digits -> find_char x2e (digits ++ x2e :: rest) = Some (length digits).
Proof.
  induction 1 as [|c digits Hc _ IH]; [done|]. cbn [app find_char length]. rewrite bool_decide_false.
  - by rewrite IH.
  - intros ->. by vm_compute in Hc.
Qed.
Lemma digits_head digits x rest :
  Forall is_digit digits -> digits <> [] -> is_digit x = false -> forall r, digits ++ rest <> x :: r.
Proof. intros HF Hne Hx r E. destruct HF as [|c digits Hc _]; [done|]. injection E as -> _. by rewrite Hx in Hc. Qed.

(** The names that are not numbered start with a letter. *)
Lemma parse_numbered digits suffix :
  Forall is_digit digits -> digits <> [] ->
  parse_file_name (digits ++ string_bytes "." ++ string_bytes suffix) =
    value ← parse_number digits;
    if bool_decide (string_bytes suffix = string_bytes "log") then Some (value, kLog)
    else if bool_decide (string_bytes suffix = string_bytes "sst") then Some (value, kTable)
    else if bool_decide (string_bytes suffix = string_bytes "dbtmp") then Some (value, kTemp)
    else None.
Proof.
  intros HF Hne. unfold parse_file_name.
  pose proof (λ x, digits_head digits x (string_bytes "." ++ string_bytes suffix) HF Hne) as Hh.
  do 4 rewrite bool_decide_false by (by apply Hh). rewrite bool_decide_false.
  2: { intros E. destruct digits as [|d digits]; [done|]. cbn in E. injection E as -> _. by apply Forall_cons in HF as [H _]. }
  cbn [orb]. change (string_bytes "." ++ string_bytes suffix) with (x2e :: string_bytes suffix).
  rewrite find_char_digits by done. destruct (length digits) eqn:El; [by destruct digits|]. rewrite <- El.
  by rewrite take_app_length, drop_past.
Qed.

(** The names parse back. *)
Definition base_name (dbname name : bytes) : bytes := drop (S (length dbname)) name.
Lemma names_parse dbname number :
  0 <= number < 2 ^ 64 ->
  let parse name := parse_file_name (base_name dbname name) in
  parse (log_file_name dbname number) = Some (number, kLog) /\
  parse (table_file_name dbname number) = Some (number, kTable) /\
  parse (temp_file_name dbname number) = Some (number, kTemp) /\
  parse (descriptor_file_name dbname number) = Some (number, kDescriptor) /\
  parse (current_file_name dbname) = Some (0, kCurrent) /\
  parse (lock_file_name dbname) = Some (0, kLock) /\
  parse (info_log_file_name dbname) = Some (0, kInfoLog).
Proof.
  intros Hn parse. destruct (padded_spec number Hn) as (HF & Hl & Hp).
  assert (forall rest, base_name dbname (dbname ++ x2f :: rest) = rest) as Hd.
  { intros rest. apply drop_past. }
  unfold parse, log_file_name, table_file_name, temp_file_name, numbered, descriptor_file_name,
    current_file_name, lock_file_name, info_log_file_name.
  change (string_bytes "/" ++ ?x) with (x2f :: x).
  change (string_bytes "/MANIFEST-" ++ ?x) with (x2f :: kManifestPrefix ++ x). rewrite !Hd.
  rewrite !parse_numbered by (done || (destruct (padded number); [cbn in Hl; lia|done])). rewrite Hp.
  split_and!; try done.
  - unfold parse_file_name. rewrite take_app_length, drop_app_length, Hp. done.
  - by rewrite (Hd (string_bytes "CURRENT") : base_name _ (_ ++ string_bytes "/CURRENT") = _).
  - by rewrite (Hd (string_bytes "LOCK") : base_name _ (_ ++ string_bytes "/LOCK") = _).
  - by rewrite (Hd (string_bytes "LOG") : base_name _ (_ ++ string_bytes "/LOG") = _).
Qed.

(** * Theorems *)

(** File names mean one thing: for every 64-bit number, the base names
    written for a log, a table, a temporary file and a manifest, and the three
    names without a number, parse back to their kind and number; and a number
    read out of any name at all is exactly what its digits denote - it fits 64
    bits, nothing wraps. *)
Theorem file_names_parse_exactly dbname number :
  0 <= number < 2 ^ 64 ->
  let parse name := parse_file_name (drop (S (length dbname)) name) in
  parse (log_file_name dbname number) = Some (number, kLog) /\
  parse (table_file_name dbname number) = Some (number, kTable) /\
  parse (temp_file_name dbname number) = Some (number, kTemp) /\
  parse (descriptor_file_name dbname number) = Some (number, kDescriptor) /\
  parse (current_file_name dbname) = Some (0, kCurrent) /\
  parse (lock_file_name dbname) = Some (0, kLock) /\
  parse (info_log_file_name dbname) = Some (0, kInfoLog) /\
  forall filename n type, parse_file_name filename = Some (n, type) ->
    type ∈ [kCurrent; kLock; kInfoLog] /\ n = 0 \/
    exists pre digits post, filename = pre ++ digits ++ post /\ Forall is_digit digits /\
      n = denotes 0 digits /\ 0 <= n < 2 ^ 64.
Proof.
  intros Hn parse. pose proof (names_parse dbname number Hn) as H. unfold parse. unfold base_name in H. split_and!; try apply H.
  clear. intros filename n type. unfold parse_file_name.
    case_bool_decide; [intros [= <- <-]; left; split; [left|done]|].
    case_bool_decide; [intros [= <- <-]; left; split; [right; left|done]|].
    destruct (_ || _); [intros [= <- <-]; left; split; [do 2 right; left|done]|]. intros Hp'. right. revert Hp'.
    assert (forall text value, parse_number text = Some value -> Forall is_digit text /\ value = denotes 0 text /\ 0 <= value < 2 ^ 64) as Hv.
    { intros text value (_ & Ht & -> & Hlt)%parse_number_spec. pose proof (denotes_ge 0 text ltac:(lia) Ht). split_and!; [done|done|lia|done]. }
    case_bool_decide as Em.
    - destruct (parse_number _) as [value|] eqn:E; [|done]. cbn [mbind option_bind]. intros [= <- <-]. apply Hv in E as (? & ? & ?).
      exists kManifestPrefix, (drop (length kManifestPrefix) filename), []. rewrite app_nil_r. split; [|done].
      rewrite <- (take_drop (length kManifestPrefix) filename) at 1. by rewrite Em.
    - destruct (find_char _ _) as [[|dot]|]; [done| |done]. destruct (parse_number _) as [value|] eqn:E; [|done].
      apply Hv in E as (? & ? & ?). cbn [mbind option_bind].
      repeat (case_bool_decide; [intros [= <- <-]; exists [], (take (S dot) filename), (drop (S dot) filename);
        by rewrite app_nil_l, take_drop|]). done.
Qed.

Lemma file_names_parse_exactly_witness :
  log_file_name (string_bytes "db") 7 = string_bytes "db/000007.log" /\
  parse_file_name (drop 3 (log_file_name (string_bytes "db") 7)) = Some (7, kLog).
Proof.
  split; [vm_compute; reflexivity|]. apply (file_names_parse_exactly (string_bytes "db") 7). lia.
Defined.

(** A name this code never writes parses as the log it writes under another. *)
Example unpadded_name_parses :
  parse_file_name (string_bytes "7.log") = Some (7, kLog) /\
  forall dbname, drop (S (length dbname)) (log_file_name dbname 7) = string_bytes "000007.log".
Proof.
  split; [vm_compute; reflexivity|]. intros dbname. unfold log_file_name, numbered.
  change (string_bytes "/" ++ ?x) with (x2f :: x). by rewrite drop_past.
Qed.

End Filename.
