(* ===== verification/Hash.v ===== *)
(** The key hash (src/src/hash.hpp): [hash64] for the block cache, its high
    half [bloom_hash] for filters. *)
From S2P Require Import Prelude Encoding.
Import Encoding.

Module Hash.

Definition fmix64 (h : Z) : Z :=
  let h := h .^ (h .>> 33) in
  let h := u64 (h * 0xff51afd7ed558ccd) in
  let h := h .^ (h .>> 33) in
  let h := u64 (h * 0xc4ceb9fe1a85ec53) in
  h .^ (h .>> 33).

Definition kPrime : Z := 0x9e3779b97f4a7c15.

(** One round of the [while (remaining >= 8)] loop. *)
Definition hash_word (h word : Z) : Z :=
  let h := h .^ word in
  let h := u64 (h * kPrime) in
  h .^ (h .>> 29).

(** The loop: the state and the bytes left.  [decode_fixed64] answers exactly
    while eight bytes remain; each round takes eight of [fuel] bytes. *)
Fixpoint hash_words (fuel : nat) (data : bytes) (h : Z) : Z * bytes :=
  match fuel with
  | O => (h, data)
  | S fuel' =>
      match decode_fixed64 data with
      | Some word => hash_words fuel' (drop 8 data) (hash_word h word)
      | None => (h, data)
      end
  end.

Fixpoint hash_tail (data : bytes) (i tail : Z) : Z :=
  match data with
  | [] => tail
  | b :: data' => hash_tail data' (i + 1) (tail .| u64 (byte_to_Z b .<< (8 * i)))
  end.

Definition hash_seed (n : Z) : Z := kPrime .^ u64 (u64 n * 0xff51afd7ed558ccd).

Definition hash64 (key : bytes) : Z :=
  let '(h, rest) := hash_words (length key) key (hash_seed (size key)) in
  let tail := hash_tail rest 0 0 in
  fmix64 (u64 ((h .^ tail) * kPrime)).

Definition bloom_hash (key : bytes) : Z := u32 (hash64 key .>> 32).

(** * Lemmas *)
Definition word_ok (h : Z) : Prop := 0 <= h < 2 ^ 64.

Lemma xorshift_range h k : 0 <= k -> word_ok h -> word_ok (h .^ (h .>> k)).
Proof.
  intros Hk Hh. apply lxor_range; [lia|done|].
  rewrite Z.shiftr_div_pow2 by lia. unfold word_ok in Hh. split.
  - apply Z.div_pos; [lia|]. apply Z.pow_pos_nonneg; lia.
  - apply Z.le_lt_trans with h; [|lia].
    apply Z.div_le_upper_bound; [apply Z.pow_pos_nonneg; lia|].
    pose proof (Z.pow_pos_nonneg 2 k). nia.
Qed.

(** [h ^ (h >> k)] loses nothing. *)
Lemma xorshift_inj k a b :
  0 < k -> 0 <= a -> 0 <= b -> a .^ (a .>> k) = b .^ (b .>> k) -> a = b.
Proof.
  intros Hk Ha Hb E. set (d := a .^ b).
  assert (0 <= d) as Hd by (apply Z.lxor_nonneg; lia).
  assert (d = d .>> k) as Hs.
  { unfold d. rewrite Z.shiftr_lxor.
    apply Z.lxor_eq.
    replace (a .^ b .^ (a .>> k .^ (b .>> k))) with
      ((a .^ (a .>> k)) .^ (b .^ (b .>> k))).
    - rewrite E. apply Z.lxor_nilpotent.
    - apply Z.bits_inj'. intros i _. rewrite !Z.lxor_spec.
      by destruct (Z.testbit a i), (Z.testbit b i), (Z.testbit (a .>> k) i),
        (Z.testbit (b .>> k) i). }
  rewrite Z.shiftr_div_pow2 in Hs by lia.
  assert (1 < 2 ^ k) by (apply Z.pow_gt_1; lia).
  assert (d = 0).
  { destruct (Z.eq_dec d 0); [done|].
    pose proof (Z.div_lt d (2 ^ k)). lia. }
  by apply Z.lxor_eq.
Qed.

(** Multiplying by a constant with an inverse modulo 2^64 loses nothing. *)
Lemma mul_inj c inv a b :
  u64 (c * inv) = 1 -> word_ok a -> word_ok b -> u64 (a * c) = u64 (b * c) -> a = b.
Proof.
  intros Hc Ha Hb E.
  assert (forall x, word_ok x -> u64 (u64 (x * c) * inv) = x) as Hi.
  { intros x Hx. unfold u64 in *. rewrite Z.mul_mod_idemp_l by lia.
    rewrite <- Z.mul_assoc, <- Z.mul_mod_idemp_r, Hc, Z.mul_1_r by lia.
    by apply Z.mod_small. }
  by rewrite <- (Hi a Ha), <- (Hi b Hb), E.
Qed.

Lemma lxor_inj_l a b c : a .^ c = b .^ c -> a = b.
Proof.
  intros E. apply Z.lxor_eq.
  replace (a .^ b) with ((a .^ c) .^ (b .^ c)).
  - rewrite E. apply Z.lxor_nilpotent.
  - apply Z.bits_inj'. intros i _. rewrite !Z.lxor_spec.
    by destruct (Z.testbit a i), (Z.testbit b i), (Z.testbit c i).
Qed.
Lemma lxor_inj_r a b c : c .^ a = c .^ b -> a = b.
Proof. rewrite !(Z.lxor_comm c). apply lxor_inj_l. Qed.

Lemma u64_ok z : word_ok (u64 z).
Proof. apply u64_range. Qed.
#[local] Hint Resolve u64_ok : core.

Lemma fmix64_ok h : word_ok h -> word_ok (fmix64 h).
Proof. intros. unfold fmix64. by apply xorshift_range. Qed.

Lemma fmix64_inj a b : word_ok a -> word_ok b -> fmix64 a = fmix64 b -> a = b.
Proof.
  intros Ha Hb E. unfold fmix64 in E.
  apply xorshift_inj in E; [|lia|apply u64_ok..].
  apply (mul_inj _ 0x9cb4b2f8129337db) in E;
    [|by vm_compute|apply xorshift_range; [lia|auto]..].
  apply xorshift_inj in E; [|lia|apply u64_ok..].
  apply (mul_inj _ 0x4f74430c22a54005) in E;
    [|by vm_compute|by apply xorshift_range; [lia|]..].
  apply xorshift_inj in E; [done|lia|apply Ha|apply Hb].
Qed.

Lemma mul_kPrime_inj a b :
  word_ok a -> word_ok b -> u64 (a * kPrime) = u64 (b * kPrime) -> a = b.
Proof. apply (mul_inj kPrime 0xf1de83e19937733d). by vm_compute. Qed.

Lemma hash_word_ok h w : word_ok (hash_word h w).
Proof. unfold hash_word. by apply xorshift_range. Qed.

Lemma hash_word_inj h1 w1 h2 w2 :
  word_ok h1 -> word_ok h2 -> word_ok w1 -> word_ok w2 ->
  hash_word h1 w1 = hash_word h2 w2 -> h1 .^ w1 = h2 .^ w2.
Proof.
  intros ???? E. unfold hash_word in E.
  apply xorshift_inj in E; [|lia|apply u64_ok..].
  by apply mul_kPrime_inj in E; [|apply lxor_range; (lia || done)..].
Qed.

Lemma le_value_word p : (length p <= 8)%nat -> word_ok (le_value p).
Proof.
  intros Hp. pose proof (le_value_range p) as H. unfold word_ok.
  change (2 ^ 64) with (256 ^ 8).
  assert (256 ^ Z.of_nat (length p) <= 256 ^ 8) by (apply Z.pow_le_mono_r; lia). lia.
Qed.

Lemma decode_fixed64_ok p w : decode_fixed64 p = Some w -> word_ok w.
Proof.
  rewrite decode_fixed64_spec. case_decide; [|done]. intros [= <-].
  apply le_value_word. rewrite length_take. lia.
Qed.

Lemma hash_tail_spec data i tail :
  0 <= i -> i + size data <= 8 -> 0 <= tail < 2 ^ (8 * i) ->
  hash_tail data i tail = tail + le_value data * 2 ^ (8 * i).
Proof.
  revert i tail. induction data as [|b data IH]; intros i tail Hi Hl Ht; simpl; [lia|].
  unfold size in *. simpl length in Hl.
  pose proof (byte_to_Z_range b).
  assert (0 < 2 ^ (8 * i)) by (apply Z.pow_pos_nonneg; lia).
  assert (2 ^ (8 * (i + 1)) = 256 * 2 ^ (8 * i)) as E8.
  { replace (8 * (i + 1)) with (8 + 8 * i) by lia. rewrite Z.pow_add_r by lia. done. }
  assert (2 ^ (8 * (i + 1)) <= 2 ^ 64) by (apply Z.pow_le_mono_r; lia).
  rewrite u64_small by (rewrite Z.shiftl_mul_pow2 by lia; nia).
  rewrite lor_disjoint_add by lia.
  rewrite IH by (try lia; nia). nia.
Qed.

Lemma hash_tail_whole data : (length data <= 8)%nat -> hash_tail data 0 0 = le_value data.
Proof. intros. rewrite hash_tail_spec; unfold size; change (2 ^ (8 * 0)) with 1; lia. Qed.

Lemma hash_words_step fuel a q h :
  length a = 8%nat ->
  hash_words (S fuel) (a ++ q) h = hash_words fuel q (hash_word h (le_value a)).
Proof.
  intros Ha. cbn [hash_words]. rewrite decode_fixed64_spec, length_app.
  case_decide; [|lia]. by rewrite take_app_length', drop_app_length' by done.
Qed.

Lemma hash_words_short fuel data h : (length data < 8)%nat -> hash_words fuel data h = (h, data).
Proof.
  intros. destruct fuel; [done|]. cbn [hash_words]. rewrite decode_fixed64_spec.
  case_decide; [lia|done].
Qed.

(** Different states stay different over the same bytes. *)
Lemma hash_words_keeps_apart fuel s h1 h2 :
  word_ok h1 -> word_ok h2 -> h1 <> h2 ->
  snd (hash_words fuel s h1) = snd (hash_words fuel s h2) /\
  word_ok (fst (hash_words fuel s h1)) /\ word_ok (fst (hash_words fuel s h2)) /\
  fst (hash_words fuel s h1) <> fst (hash_words fuel s h2).
Proof.
  revert s h1 h2. induction fuel as [|fuel IH]; intros s h1 h2 H1 H2 Hne; simpl; [done|].
  destruct (decode_fixed64 s) as [w|] eqn:Ew; [|done].
  apply IH; [apply hash_word_ok..|]. intros E.
  apply decode_fixed64_ok in Ew.
  apply hash_word_inj in E; [|done..]. by apply lxor_inj_l in E.
Qed.

Lemma hash_words_rest fuel s h :
  (length s < 8 * S fuel)%nat -> (length (snd (hash_words fuel s h)) < 8)%nat.
Proof.
  revert s h. induction fuel as [|fuel IH]; intros s h Hl; cbn [hash_words].
  - simpl in *. lia.
  - rewrite decode_fixed64_spec. case_decide; cbn [snd]; [|lia].
    apply IH. rewrite length_drop. lia.
Qed.

Definition final_state (r : Z * bytes) : Z := fst r .^ hash_tail (snd r) 0 0.

Lemma final_state_ok (r : Z * bytes) : word_ok (fst r) -> (length (snd r) < 8)%nat -> word_ok (final_state r).
Proof.
  intros Hr Hl. unfold final_state. rewrite hash_tail_whole by lia.
  apply lxor_range; [lia|done|]. apply le_value_word. lia.
Qed.

Lemma hash_words_ok fuel s h : word_ok h -> word_ok (fst (hash_words fuel s h)).
Proof.
  revert s h. induction fuel as [|fuel IH]; intros s h Hh; simpl; [done|].
  destruct (decode_fixed64 s); [|done]. apply IH, hash_word_ok.
Qed.

Lemma hash_words_word_differs fuel n p a b s h :
  length p = (8 * n)%nat -> length a = length b -> a <> b ->
  (length a = 8 \/ length a < 8 /\ s = [])%nat ->
  (n < fuel)%nat -> (length (p ++ a ++ s) < 8 * fuel + 8)%nat -> word_ok h ->
  final_state (hash_words fuel (p ++ a ++ s) h) <> final_state (hash_words fuel (p ++ b ++ s) h).
Proof.
  revert fuel p h. induction n as [|n IH]; intros fuel p h Hp Hab Hne Hcase Hfuel Hlen Hh.
  - destruct p; [|done]. rewrite !app_nil_l in *.
    assert (forall c, length c = length a -> word_ok (le_value c)) as Hw.
    { intros c Hc. apply le_value_word. lia. }
    destruct Hcase as [H8|[H8 ->]].
    + destruct fuel as [|fuel]; [lia|]. rewrite !hash_words_step by lia.
      edestruct (hash_words_keeps_apart fuel s (hash_word h (le_value a)) (hash_word h (le_value b)))
        as (Er & _ & _ & Hd); [apply hash_word_ok..| |].
      * intros E. apply hash_word_inj in E; [|auto..]. apply lxor_inj_r in E.
        by apply le_value_inj in E.
      * unfold final_state. rewrite Er. intros E. by apply lxor_inj_l in E.
    + rewrite !app_nil_r, !hash_words_short by lia. unfold final_state; cbn [fst snd].
      rewrite !hash_tail_whole by lia.
      intros E. apply lxor_inj_r in E. by apply le_value_inj in E.
  - destruct fuel as [|fuel]; [lia|].
    rewrite <- (take_drop 8 p), <- !app_assoc.
    rewrite !hash_words_step by (rewrite length_take; lia).
    apply IH; try done; try lia.
    + rewrite length_drop. lia.
    + rewrite length_app, length_drop in *. lia.
    + apply hash_word_ok.
Qed.

(** The hash separates keys that differ in one word: two keys of equal
    length that agree everywhere except inside one aligned 8-byte word, or
    inside the shorter tail after the last whole word, have different 64-bit
    hashes.  Every mixing step of the code is injective, so no later word can
    undo the difference. *)
Theorem hash64_separates_one_word n p a b s :
  length p = (8 * n)%nat -> length a = length b -> a <> b ->
  (length a = 8 \/ length a < 8 /\ s = [])%nat ->
  hash64 (p ++ a ++ s) <> hash64 (p ++ b ++ s).
Proof.
  intros Hp Hab Hne Hcase E.
  assert (length (p ++ a ++ s) = length (p ++ b ++ s)) as El by (rewrite !length_app; lia).
  assert (0 < length a)%nat as Hpos by (destruct a, b; simpl in *; (lia || done)).
  assert (forall k, hash64 k =
    fmix64 (u64 (final_state (hash_words (length k) k (hash_seed (size k))) * kPrime))) as Eh.
  { intros k. unfold hash64, final_state. by destruct (hash_words _ _ _). }
  rewrite !Eh in E. unfold size in E. rewrite <- El in E.
  set (L := length (p ++ a ++ s)) in *.
  assert (word_ok (hash_seed (Z.of_nat L))) as Hs.
  { unfold hash_seed. apply lxor_range; [lia| |apply u64_range].
    unfold kPrime. lia. }
  apply fmix64_inj in E; [|apply u64_ok..].
  apply mul_kPrime_inj in E.
  - revert E. apply (hash_words_word_differs L n); try done.
    + unfold L. rewrite !length_app. lia.
    + unfold L. lia.
  - apply final_state_ok; [by apply hash_words_ok|apply hash_words_rest; unfold L; lia].
  - apply final_state_ok; [by apply hash_words_ok|apply hash_words_rest; unfold L in *; lia].
Qed.

Lemma hash64_separates_one_word_witness :
  hash64 ([x6b; x65; x79; x5f; x30; x30; x30; x30] ++ [x31; x32] ++ []) <>
  hash64 ([x6b; x65; x79; x5f; x30; x30; x30; x30] ++ [x31; x33] ++ []).
Proof.
  apply (hash64_separates_one_word 1); [reflexivity|reflexivity|discriminate|].
  right. split; [simpl; lia|reflexivity].
Defined.

Lemma bloom_hash_range key : 0 <= bloom_hash key < 2 ^ 32.
Proof. apply u32_range. Qed.

End Hash.
