(* ===== verification/Bloom.v ===== *)
(** Filter policies (src/include/ambar/filter_policy.hpp, src/src/bloom.cpp,
    src/src/internal_filter_policy.cpp): the interface, the built-in bloom
    filter and the wrapper that filters user keys.

    [None] stands for undefined behaviour: an array access out of range or a
    division by zero. *)
From S2P Require Import Prelude DbFormat Hash.
Import DbFormat Hash.

Module Bloom.

(** [create_filter keys dst] returns [*dst] after the call. *)
Record FilterPolicy := mkPolicy {
  policy_name : string;
  create_filter : list bytes -> bytes -> option bytes;
  key_may_match : bytes -> bytes -> option bool
}.

(** What a policy promises its clients: for fewer than 2^32 keys it appends a
    non-empty filter that rules out none of them, and a query is defined
    whatever the filter's bytes. *)
Class FilterPolicyLaws (p : FilterPolicy) := {
  policy_filter keys :
    Z.of_nat (length keys) < 2 ^ 32 ->
    exists f, f <> [] /\ (forall dst, create_filter p keys dst = Some (dst ++ f)) /\
      forall key, key ∈ keys -> key_may_match p key f = Some true;
  policy_total key f : is_Some (key_may_match p key f)
}.

(** ** BloomFilterPolicy *)

Record BloomFilterPolicy := mkBloom { bits_per_key_ : Z; k_ : Z }.

(** [static_cast<int>(double(bits_per_key) * 0.69)]: the product is truncated
    toward zero, and no [int] that survives the clamp is close enough to a
    multiple for rounding to matter, so the exact quotient is the same. *)
Definition BloomFilterPolicy_new (bits_per_key : Z) : BloomFilterPolicy :=
  let k := Z.quot (bits_per_key * 69) 100 in
  let k := if k <? 1 then 1 else k in
  let k := if 30 <? k then 30 else k in
  mkBloom bits_per_key k.

Definition rotate_delta (h : Z) : Z := (h .>> 17) .| u32 (h .<< 15).

(** [array[bitpos / 8] |= 1 << (bitpos % 8)]. *)
Definition set_bit (array : bytes) (bitpos : Z) : option bytes :=
  let i := Z.to_nat (bitpos / 8) in
  match array !! i with
  | Some b => Some (<[i := Z_to_byte (byte_to_Z b .| (1 .<< (bitpos mod 8)))]> array)
  | None => None
  end.

(** [(array[bitpos / 8] & (1 << (bitpos % 8))) != 0]. *)
Definition test_bit (array : bytes) (bitpos : Z) : option bool :=
  match array !! Z.to_nat (bitpos / 8) with
  | Some b => Some (negb (byte_to_Z b .& (1 .<< (bitpos mod 8)) =? 0))
  | None => None
  end.

(** [h % bits], which is undefined for [bits = 0]. *)
Definition bit_position (h bits : Z) : option Z :=
  if bits =? 0 then None else Some (h mod bits).

Fixpoint set_probes (j : nat) (h delta bits : Z) (array : bytes) : option bytes :=
  match j with
  | O => Some array
  | S j' =>
      bitpos ← bit_position h bits;
      array ← set_bit array bitpos;
      set_probes j' (u32 (h + delta)) delta bits array
  end.

Definition add_to_array (k : nat) (bits : Z) (array : bytes) (key : bytes) : option bytes :=
  let h := bloom_hash key in
  set_probes k h (rotate_delta h) bits array.

Fixpoint add_all (k : nat) (bits : Z) (array : bytes) (keys : list bytes) : option bytes :=
  match keys with
  | [] => Some array
  | key :: keys' => array ← add_to_array k bits array key; add_all k bits array keys'
  end.

Definition bloom_create_filter (p : BloomFilterPolicy) (keys : list bytes) (dst : bytes) :
    option bytes :=
  let bits := u64 (Z.of_nat (length keys) * u64 (bits_per_key_ p)) in
  let bits := if bits <? 64 then 64 else bits in
  let nbytes := u64 (bits + 7) / 8 in
  let bits := u64 (nbytes * 8) in
  array ← add_all (Z.to_nat (k_ p)) bits (replicate (Z.to_nat nbytes) x00) keys;
  Some (dst ++ array ++ [Z_to_byte (k_ p)]).

Fixpoint test_probes (j : nat) (h delta bits : Z) (array : bytes) : option bool :=
  match j with
  | O => Some true
  | S j' =>
      bitpos ← bit_position h bits;
      set ← test_bit array bitpos;
      if set : bool then test_probes j' (u32 (h + delta)) delta bits array else Some false
  end.

Definition bloom_key_may_match (key filter : bytes) : option bool :=
  let len := size filter in
  if len <? 2 then Some true else
  let bits := (len - 1) * 8 in
  match filter !! Z.to_nat (len - 1) with
  | None => None
  | Some kb =>
      let k := byte_to_Z kb in
      if 30 <? k then Some true else
      let h := bloom_hash key in
      test_probes (Z.to_nat k) h (rotate_delta h) bits filter
  end.

Definition bloom_policy (p : BloomFilterPolicy) : FilterPolicy :=
  mkPolicy "ambar.BuiltinBloomFilter2" (bloom_create_filter p) bloom_key_may_match.

Definition new_bloom_filter_policy (bits_per_key : Z) : FilterPolicy :=
  bloom_policy (BloomFilterPolicy_new bits_per_key).

(** ** InternalFilterPolicy *)
Definition filter_key (key : bytes) : bytes :=
  if 8 <=? size key then extract_user_key key else key.

Definition new_internal_filter_policy (user_policy : FilterPolicy) : FilterPolicy :=
  mkPolicy (policy_name user_policy)
    (λ keys dst, create_filter user_policy (filter_key <$> keys) dst)
    (λ key filter, key_may_match user_policy (filter_key key) filter).

(** * Lemmas *)

Lemma land_bit x i : 0 <= i -> negb (x .& (1 .<< i) =? 0) = Z.testbit x i.
Proof.
  intros Hi. rewrite Z.shiftl_1_l.
  destruct (Z.testbit x i) eqn:E.
  - apply negb_true_iff, Z.eqb_neq. intros H.
    assert (Z.testbit (x .& 2 ^ i) i = true) as Ht
      by (rewrite Z.land_spec, E, Z.pow2_bits_true; done).
    by rewrite H, Z.bits_0 in Ht.
  - apply negb_false_iff, Z.eqb_eq, Z.bits_inj'. intros j Hj.
    rewrite Z.land_spec, Z.bits_0, Z.pow2_bits_eqb by done.
    destruct (Z.eqb_spec i j) as [->|]; [by rewrite E|apply andb_false_r].
Qed.

Definition bit (array : bytes) (pos : Z) : Prop := test_bit array pos = Some true.

Lemma test_bit_spec array pos :
  test_bit array pos = (λ b, Z.testbit (byte_to_Z b) (pos mod 8)) <$> array !! Z.to_nat (pos / 8).
Proof.
  unfold test_bit. destruct (array !! _) as [b|]; [|done]. simpl. f_equal.
  apply land_bit. zmod.
Qed.

Lemma byte_or_bit b j : 0 <= j < 8 ->
  byte_to_Z (Z_to_byte (byte_to_Z b .| (1 .<< j))) = byte_to_Z b .| 2 ^ j.
Proof.
  intros Hj. rewrite Z.shiftl_1_l. apply byte_to_Z_small.
  change 256 with (2 ^ 8). apply lor_range; [lia|apply byte_to_Z_range|].
  split; [apply Z.pow_nonneg; lia|apply Z.pow_lt_mono_r; lia].
Qed.

(** In range, a bit is set, the others stay and the length too. *)
Lemma set_bit_spec array pos :
  0 <= pos < 8 * size array ->
  exists array', set_bit array pos = Some array' /\ length array' = length array /\
    bit array' pos /\ forall q, bit array q -> bit array' q.
Proof.
  intros Hp. unfold size in Hp.
  assert (Z.to_nat (pos / 8) < length array)%nat as Hi by zmod.
  destruct (lookup_lt_is_Some_2 array _ Hi) as [b Hb].
  assert (0 <= pos mod 8 < 8) as Hm by zmod.
  unfold set_bit. rewrite Hb. eexists. split_and!; [done|by rewrite length_insert| |].
  - unfold bit. rewrite test_bit_spec, list_lookup_insert_eq by done. simpl.
    rewrite byte_or_bit, Z.lor_spec, Z.pow2_bits_true by lia. by rewrite orb_true_r.
  - intros q. unfold bit. rewrite !test_bit_spec.
    destruct (decide (Z.to_nat (pos / 8) = Z.to_nat (q / 8))) as [E|E].
    + rewrite <- E, Hb, list_lookup_insert_eq by done. simpl. intros [= Hq].
      by rewrite byte_or_bit, Z.lor_spec, Hq by lia.
    + by rewrite list_lookup_insert_ne by done.
Qed.

Lemma test_bit_app array l pos :
  0 <= pos < 8 * size array -> test_bit (array ++ l) pos = test_bit array pos.
Proof.
  intros Hp. unfold test_bit. rewrite lookup_app_l; [done|]. unfold size in Hp. zmod.
Qed.

(** The positions a key probes. *)
Fixpoint probes (j : nat) (h delta bits : Z) : list Z :=
  match j with
  | O => []
  | S j' => h mod bits :: probes j' (u32 (h + delta)) delta bits
  end.

Lemma probes_range j h delta bits : 0 < bits -> Forall (λ p, 0 <= p < bits) (probes j h delta bits).
Proof.
  intros Hb. revert h. induction j as [|j IH]; intros h; simpl; constructor; [|apply IH].
  by apply Z.mod_pos_bound.
Qed.

Lemma set_probes_spec j h delta array :
  0 < size array ->
  exists array', set_probes j h delta (8 * size array) array = Some array' /\
    length array' = length array /\ Forall (bit array') (probes j h delta (8 * size array)) /\
    forall q, bit array q -> bit array' q.
Proof.
  revert h array. induction j as [|j IH]; intros h array Hs; cbn [set_probes probes].
  { by exists array. }
  unfold bit_position. case_if; b2p; [lia|]. cbn [mbind option_bind].
  destruct (set_bit_spec array (h mod (8 * size array))) as (a1 & -> & Hl & Hb & Hm);
    [apply Z.mod_pos_bound; lia|].
  cbn [mbind option_bind].
  assert (size a1 = size array) as Es by (unfold size; by rewrite Hl). rewrite <- Es.
  destruct (IH (u32 (h + delta)) a1) as (a2 & -> & Hl2 & Hb2 & Hm2); [lia|].
  exists a2. split_and!; [done|congruence| |auto].
  rewrite Es in *. constructor; auto.
Qed.

Lemma test_probes_spec j h delta bits array :
  0 < bits ->  Forall (bit array) (probes j h delta bits) ->
  test_probes j h delta bits array = Some true.
Proof.
  intros Hb. revert h. induction j as [|j IH]; intros h HF; cbn [test_probes]; [done|].
  unfold bit_position. case_if; b2p; [lia|]. cbn [mbind option_bind].
  cbn [probes] in HF. apply Forall_cons in HF as [Hh HF]. rewrite Hh. cbn. by apply IH.
Qed.

Lemma test_probes_total j h delta bits array :
  0 < bits -> bits <= 8 * size array -> is_Some (test_probes j h delta bits array).
Proof.
  intros Hb Hs. revert h. induction j as [|j IH]; intros h; cbn [test_probes]; [done|].
  unfold bit_position. case_if; b2p; [lia|]. cbn [mbind option_bind].
  assert (0 <= h mod bits < bits) by (apply Z.mod_pos_bound; lia).
  rewrite test_bit_spec. unfold size in Hs.
  destruct (lookup_lt_is_Some_2 array (Z.to_nat (h mod bits / 8))) as [b ->]; [zmod|].
  cbn. case_if; [apply IH|done].
Qed.

Definition key_set (k : nat) (array key : bytes) : Prop :=
  Forall (bit array) (probes k (bloom_hash key) (rotate_delta (bloom_hash key)) (8 * size array)).

Lemma add_all_spec k array keys :
  0 < size array ->
  exists array', add_all k (8 * size array) array keys = Some array' /\
    length array' = length array /\ (forall q, bit array q -> bit array' q) /\
    forall key, key ∈ keys -> key_set k array' key.
Proof.
  revert array. induction keys as [|key keys IH]; intros array Hs; cbn [add_all].
  { exists array. split_and!; try done. intros ? []%not_elem_of_nil. }
  unfold add_to_array.
  destruct (set_probes_spec k (bloom_hash key) (rotate_delta (bloom_hash key)) array)
    as (a1 & -> & Hl1 & Hb1 & Hm1); [done|].
  cbn [mbind option_bind].
  assert (size a1 = size array) as Es by (unfold size; by rewrite Hl1). rewrite <- Es.
  destruct (IH a1) as (a2 & -> & Hl2 & Hm2 & Hk2); [lia|].
  assert (size a2 = size a1) as Es2 by (unfold size; by rewrite Hl2).
  exists a2. split_and!; [done|congruence|auto|].
  intros key' [->|Hin]%elem_of_cons; [|auto].
  unfold key_set. rewrite Es2, Es. eapply Forall_impl; [exact Hb1|auto].
Qed.

Lemma bloom_total key f : is_Some (bloom_key_may_match key f).
Proof.
  unfold bloom_key_may_match, size. case_if; [done|]. b2p.
  destruct (lookup_lt_is_Some_2 f (Z.to_nat (Z.of_nat (length f) - 1))) as [kb ->]; [lia|].
  case_if; [done|]. apply test_probes_total; unfold size; lia.
Qed.

Lemma bloom_filter bpk keys :
  0 <= bpk < 2 ^ 31 -> Z.of_nat (length keys) < 2 ^ 32 ->
  exists f, f <> [] /\
    (forall dst, bloom_create_filter (BloomFilterPolicy_new bpk) keys dst = Some (dst ++ f)) /\
    forall key, key ∈ keys -> bloom_key_may_match key f = Some true.
Proof.
  intros Hb Hk. unfold bloom_create_filter.
  set (p := BloomFilterPolicy_new bpk).
  assert (1 <= k_ p <= 30) as Hkp.
  { unfold p, BloomFilterPolicy_new. cbn [k_]. repeat case_if; b2p; lia. }
  cbn [bits_per_key_ p BloomFilterPolicy_new].
  rewrite (u64_small bpk), (u64_small (_ * bpk)) by nia.
  set (bits := if _ <? 64 then 64 else _).
  assert (64 <= bits < 2 ^ 63) as Hbits by (unfold bits; case_if; b2p; nia).
  rewrite (u64_small (bits + 7)) by lia.
  set (nb := (bits + 7) / 8).
  assert (8 <= nb < 2 ^ 60 + 1) as Hnb by (unfold nb; zmod).
  rewrite (u64_small (nb * 8)) by lia.
  set (a0 := replicate (Z.to_nat nb) x00).
  assert (size a0 = nb) as Ea by (unfold size, a0; rewrite length_replicate; lia).
  replace (nb * 8) with (8 * size a0) by lia.
  destruct (add_all_spec (Z.to_nat (k_ p)) a0 keys) as (a & -> & Hl & _ & Hkeys); [lia|].
  assert (size a = nb) as Es by (unfold size in *; rewrite Hl; done).
  exists (a ++ [Z_to_byte (k_ p)]). split_and!.
  - by destruct a.
  - done.
  - intros key Hin. unfold bloom_key_may_match.
    rewrite size_app. change (size [_]) with 1. case_if; b2p; [lia|].
    rewrite lookup_app_r by (unfold size in *; lia).
    replace (Z.to_nat (size a + 1 - 1) - length a)%nat with 0%nat by (unfold size; lia).
    cbn [lookup list_lookup].
    rewrite byte_to_Z_small by lia. case_if; b2p; [lia|].
    replace ((size a + 1 - 1) * 8) with (8 * size a) by lia.
    apply test_probes_spec; [lia|]. specialize (Hkeys key Hin). unfold key_set in Hkeys.
    pose proof (probes_range (Z.to_nat (k_ p)) (bloom_hash key) (rotate_delta (bloom_hash key))
      (8 * size a)) as Hr.
    rewrite Forall_forall in *. intros q Hq. specialize (Hkeys q Hq).
    unfold bit in *. rewrite test_bit_app; [done|]. apply Hr; [lia|done].
Qed.

(** Instances: what the two policies promise. *)
Lemma bloom_policy_laws bpk :
  0 <= bpk < 2 ^ 31 -> FilterPolicyLaws (new_bloom_filter_policy bpk).
Proof. intros H. constructor; [intros; by apply bloom_filter|apply bloom_total]. Qed.

#[global] Instance internal_policy_laws p :
  FilterPolicyLaws p -> FilterPolicyLaws (new_internal_filter_policy p).
Proof.
  intros L. constructor; cbn.
  - intros keys Hk. destruct (policy_filter (filter_key <$> keys)) as (f & Hne & Hf & Hin).
    { by rewrite length_fmap. }
    exists f. split_and!; [done|done|]. intros key Hkey. by apply Hin, list_elem_of_fmap_2.
  - intros. apply policy_total.
Qed.

#[global] Instance bloom10_laws : FilterPolicyLaws (new_bloom_filter_policy 10).
Proof. apply bloom_policy_laws. lia. Qed.

(** * Theorems *)

(** No false negatives: for every non-negative [bits_per_key] of type
    [int] and fewer than 2^32 keys, creating a filter is defined (every array
    access in range, no division by zero), appends to the string without
    touching what was there, and every key the filter was built from may
    match. *)
Theorem bloom_no_false_negatives bpk keys key dst :
  0 <= bpk < 2 ^ 31 -> Z.of_nat (length keys) < 2 ^ 32 -> key ∈ keys ->
  exists f, create_filter (new_bloom_filter_policy bpk) keys dst = Some (dst ++ f) /\
    key_may_match (new_bloom_filter_policy bpk) key f = Some true.
Proof.
  intros Hb Hk Hin. destruct (bloom_filter bpk keys Hb Hk) as (f & _ & Hf & Hm).
  exists f. split; [apply Hf|by apply Hm].
Qed.

Lemma bloom_no_false_negatives_witness :
  exists f, create_filter (new_bloom_filter_policy 10) [[x61]; [x62]] [x2a] = Some ([x2a] ++ f) /\
    key_may_match (new_bloom_filter_policy 10) [x62] f = Some true.
Proof.
  apply (bloom_no_false_negatives 10 [[x61]; [x62]] [x62] [x2a]);
    [lia|simpl; lia|right; left].
Defined.

(** A filter over internal keys answers for user keys at every sequence
    number: wrapped by [InternalFilterPolicy], a filter built from a table's
    internal keys never rules out a lookup key with the same user key,
    whatever its sequence and type. *)
Theorem internal_filter_finds_every_version bpk keys u seq t seq' t' dst :
  0 <= bpk < 2 ^ 31 -> Z.of_nat (length keys) < 2 ^ 32 ->
  make_internal_key u seq t ∈ keys ->
  exists f,
    create_filter (new_internal_filter_policy (new_bloom_filter_policy bpk)) keys dst
      = Some (dst ++ f) /\
    key_may_match (new_internal_filter_policy (new_bloom_filter_policy bpk))
      (make_internal_key u seq' t') f = Some true.
Proof.
  intros Hb Hk Hin.
  destruct (policy_filter (FilterPolicyLaws := internal_policy_laws _ (bloom_policy_laws bpk Hb))
    keys Hk) as (f & _ & Hf & Hm).
  exists f. split; [apply Hf|]. specialize (Hm _ Hin).
  unfold new_internal_filter_policy in *; cbn [key_may_match] in *.
  enough (forall s v, filter_key (make_internal_key u s v) = u) as E by (by rewrite E in *).
  intros s v. unfold filter_key. rewrite extract_user_key_make. case_if; [done|]. b2p.
  unfold size in *. rewrite length_make_internal_key in *. lia.
Qed.

Lemma internal_filter_finds_every_version_witness :
  exists f,
    create_filter (new_internal_filter_policy (new_bloom_filter_policy 10))
      [make_internal_key [x61] 7 kValue] [] = Some ([] ++ f) /\
    key_may_match (new_internal_filter_policy (new_bloom_filter_policy 10))
      (make_internal_key [x61] 100 kValueTypeForSeek) f = Some true.
Proof.
  apply (internal_filter_finds_every_version 10 [make_internal_key [x61] 7 kValue] [x61] 7 kValue
    100 kValueTypeForSeek []); [lia|simpl; lia|left].
Defined.

End Bloom.
