(* ===== verification/FilterBlock.v ===== *)
(** Filter blocks (src/src/filter_block.hpp, src/src/filter_block.cpp): one
    filter per 2 KiB region of a table file, addressed by block offset.

    [None] stands for undefined behaviour, here or in the policy. *)
From S2P Require Import Prelude Encoding DbFormat Bloom.
Import Encoding DbFormat Bloom.

Module FilterBlock.

Definition kFilterBaseLog : Z := 11.
Definition kFilterBase : Z := 1 .<< kFilterBaseLog.

(** ** FilterBlockBuilder *)

(** [tmp_keys_] is scratch space of [generate_filter], empty between calls. *)
Record FilterBlockBuilder := mkBuilder {
  fb_policy : FilterPolicy;
  keys_ : bytes;
  key_starts_ : list Z;
  result_ : bytes;
  filter_offsets_ : list Z
}.

Definition FilterBlockBuilder_new (policy : FilterPolicy) : FilterBlockBuilder :=
  mkBuilder policy [] [] [] [].

Definition add_key (b : FilterBlockBuilder) (key : bytes) : FilterBlockBuilder :=
  mkBuilder (fb_policy b) (keys_ b ++ key) (key_starts_ b ++ [size (keys_ b)])
    (result_ b) (filter_offsets_ b).

(** [std::string_view(keys_.data() + starts[i], starts[i+1] - starts[i])] for
    every [i] below the sentinel. *)
Fixpoint tmp_keys (keys : bytes) (starts : list Z) : list bytes :=
  match starts with
  | s :: (e :: _) as rest => take (Z.to_nat (e - s)) (drop (Z.to_nat s) keys) :: tmp_keys keys rest
  | _ => []
  end.

Definition generate_filter (b : FilterBlockBuilder) : option FilterBlockBuilder :=
  let num_keys := length (key_starts_ b) in
  let offsets := filter_offsets_ b ++ [u32 (size (result_ b))] in
  if (num_keys =? 0)%nat then
    Some (mkBuilder (fb_policy b) (keys_ b) (key_starts_ b) (result_ b) offsets)
  else
    let starts := key_starts_ b ++ [size (keys_ b)] in
    result ← create_filter (fb_policy b) (tmp_keys (keys_ b) starts) (result_ b);
    Some (mkBuilder (fb_policy b) [] [] result offsets).

(** [while (wanted > filter_offsets_.size()) generate_filter()]: every round
    adds an offset, so [wanted] rounds are enough. *)
Fixpoint start_block_loop (fuel : nat) (wanted : Z) (b : FilterBlockBuilder) :
    option FilterBlockBuilder :=
  match fuel with
  | O => Some b
  | S fuel' =>
      if Z.of_nat (length (filter_offsets_ b)) <? wanted
      then b ← generate_filter b; start_block_loop fuel' wanted b
      else Some b
  end.

Definition start_block (b : FilterBlockBuilder) (block_offset : Z) : option FilterBlockBuilder :=
  let wanted := block_offset .>> kFilterBaseLog in
  start_block_loop (Z.to_nat wanted) wanted b.

Definition finish (b : FilterBlockBuilder) : option bytes :=
  b ← (if (length (key_starts_ b) =? 0)%nat then Some b else generate_filter b);
  let array_offset := u32 (size (result_ b)) in
  let result := fold_left put_fixed32 (filter_offsets_ b) (result_ b) in
  Some (put_fixed32 result array_offset ++ [Z_to_byte kFilterBaseLog]).

(** ** FilterBlockReader *)

(** [data_] is the block, [None] for the null pointer; [offset_] is
    [offset_ - data_]. *)
Record FilterBlockReader := mkReader {
  fr_policy : FilterPolicy;
  data_ : option bytes;
  offset_ : Z;
  num_ : Z;
  base_lg_ : Z
}.

Definition kMinimum : Z := 5.

(** A null reader; [None] is an out-of-range read, which the size check rules
    out. *)
Definition FilterBlockReader_new (policy : FilterPolicy) (contents : bytes) :
    option FilterBlockReader :=
  if size contents <? kMinimum then Some (mkReader policy None 0 0 0) else
  base ← contents !! Z.to_nat (size contents - 1);
  let base_lg := byte_to_Z base in
  if 64 <=? base_lg then Some (mkReader policy None 0 0 base_lg) else
  last_word ← decode_fixed32 (drop (Z.to_nat (size contents - 5)) contents);
  if size contents - kMinimum <? last_word then Some (mkReader policy None 0 0 base_lg)
  else Some (mkReader policy (Some contents) last_word
               ((size contents - kMinimum - last_word) / 4) base_lg).

Definition reader_key_may_match (r : FilterBlockReader) (block_offset : Z) (key : bytes) :
    option bool :=
  match data_ r with
  | None => Some true
  | Some data =>
      let index := block_offset .>> base_lg_ r in
      if num_ r <=? index then Some true else
      start ← decode_fixed32 (drop (Z.to_nat (offset_ r + index * 4)) data);
      limit ← decode_fixed32 (drop (Z.to_nat (offset_ r + index * 4 + 4)) data);
      if (limit <? start) || (u32 (offset_ r) <? limit) then Some true
      else if start =? limit then Some true
      else key_may_match (fr_policy r) key
             (take (Z.to_nat (limit - start)) (drop (Z.to_nat start) data))
  end.

(** * Lemmas *)

(** Pending keys as the buffer holds them. *)
Fixpoint starts_of (acc : Z) (keys : list bytes) : list Z :=
  match keys with
  | [] => []
  | k :: keys' => acc :: starts_of (acc + size k) keys'
  end.

Lemma starts_of_app acc a b :
  starts_of acc (a ++ b) = starts_of acc a ++ starts_of (acc + size (concat a)) b.
Proof.
  revert acc. induction a as [|k a IH]; intros acc; simpl; [by rewrite Z.add_0_r|].
  rewrite IH, size_app. do 3 f_equal. lia.
Qed.
Lemma length_starts_of acc a : length (starts_of acc a) = length a.
Proof. revert acc. induction a; intros; simpl; auto. Qed.

Lemma tmp_keys_spec pre keys :
  tmp_keys (pre ++ concat keys) (starts_of (size pre) keys ++ [size (pre ++ concat keys)]) = keys.
Proof.
  revert pre. induction keys as [|k keys IH]; intros pre; [done|].
  cbn [starts_of concat]. cbn [app].
  assert (take (Z.to_nat (size pre + size k - size pre))
            (drop (Z.to_nat (size pre)) (pre ++ k ++ concat keys)) = k) as Ek.
  { unfold size. rewrite Nat2Z.id, drop_app_length.
    apply take_app_length'. lia. }
  specialize (IH (pre ++ k)). rewrite size_app, <- app_assoc in IH.
  destruct keys as [|k2 keys]; cbn [starts_of concat app tmp_keys] in *.
  - rewrite app_nil_r in *. rewrite size_app. by rewrite Ek.
  - rewrite Ek. f_equal. exact IH.
Qed.

(** The prefix sums of the filters: what the offset array holds, the end of
    the last filter included. *)
Fixpoint offsets_of (acc : Z) (fs : list bytes) : list Z :=
  match fs with
  | [] => [acc]
  | f :: fs' => acc :: offsets_of (acc + size f) fs'
  end.

Lemma offsets_of_snoc acc fs f :
  offsets_of acc (fs ++ [f]) = offsets_of acc fs ++ [acc + size (concat (fs ++ [f]))].
Proof.
  revert acc. induction fs as [|g fs IH]; intros acc; simpl.
  - by rewrite app_nil_r.
  - rewrite IH, size_app. do 3 f_equal. lia.
Qed.

Lemma offsets_of_lookup acc fs i :
  (i <= length fs)%nat -> offsets_of acc fs !! i = Some (acc + size (concat (take i fs))).
Proof.
  revert acc i. induction fs as [|f fs IH]; intros acc [|i] Hi; simpl in *; try lia.
  - f_equal. change (size []) with 0. lia.
  - f_equal. change (size []) with 0. lia.
  - rewrite IH by lia. rewrite size_app. f_equal. lia.
Qed.

(** The finished block of a list of filters. *)
Definition block_of (fs : list bytes) : bytes :=
  concat fs ++ (offsets_of 0 fs ≫= encode_fixed32) ++ [Z_to_byte kFilterBaseLog].

(** What a lookup of region [i] of the finished block answers. *)
Section reader.
Context (p : FilterPolicy).

Lemma length_words ws : length (ws ≫= encode_fixed32) = (4 * length ws)%nat.
Proof.
  induction ws as [|w ws IH]; [done|]. cbn [mbind list_bind length].
  change (foldr _ _ _) with (ws ≫= encode_fixed32) || idtac.
  rewrite length_app, length_encode_fixed32.
  change (list_bind _ _ encode_fixed32 ws) with (ws ≫= encode_fixed32). lia.
Qed.
Lemma length_offsets_of acc fs : length (offsets_of acc fs) = S (length fs).
Proof. revert acc. induction fs; intros; simpl; auto. Qed.

Lemma size_block_of fs :
  size (block_of fs) = size (concat fs) + 4 * (Z.of_nat (length fs) + 1) + 1.
Proof.
  unfold block_of. rewrite !size_app. unfold size. rewrite length_words, length_offsets_of.
  cbn [length]. lia.
Qed.

Lemma reader_of_block fs :
  size (concat fs) < 2 ^ 32 ->
  FilterBlockReader_new p (block_of fs) =
    Some (mkReader p (Some (block_of fs)) (size (concat fs)) (Z.of_nat (length fs)) kFilterBaseLog).
Proof.
  intros Hs. unfold FilterBlockReader_new. pose proof (size_nonneg (concat fs)).
  pose proof (size_block_of fs) as Eb. unfold kMinimum.
  case_if; b2p; [lia|].
  assert (block_of fs !! Z.to_nat (size (block_of fs) - 1) = Some (Z_to_byte kFilterBaseLog)) as ->.
  { rewrite Eb. unfold block_of. rewrite app_assoc, lookup_app_r.
    - rewrite length_app, length_words, length_offsets_of.
      by replace (_ - _)%nat with 0%nat by (unfold size; lia).
    - rewrite length_app, length_words, length_offsets_of. unfold size. lia. }
  cbn [mbind option_bind]. change (byte_to_Z (Z_to_byte kFilterBaseLog)) with 11. cbn [Z.leb Z.compare].
  change (64 <=? 11) with false. cbn iota.
  assert (decode_fixed32 (drop (Z.to_nat (size (block_of fs) - 5)) (block_of fs)) =
          Some (size (concat fs))) as ->.
  { rewrite Eb. unfold block_of.
    replace (Z.to_nat _) with (length (concat fs) + 4 * length fs)%nat by (unfold size; lia).
    rewrite <- drop_drop, drop_app_length.
    rewrite (decode_words _ _ _ (size (concat fs))).
    - by rewrite u32_small by lia.
    - rewrite offsets_of_lookup, take_ge by lia. done. }
  cbn [mbind option_bind]. case_if; b2p; [lia|]. do 2 f_equal.
  rewrite Eb. zmod.
Qed.

Lemma lookup_in_block fs i f block_offset key :
  size (concat fs) < 2 ^ 32 -> fs !! i = Some f -> 0 <= block_offset ->
  block_offset .>> kFilterBaseLog = Z.of_nat i ->
  (r ← FilterBlockReader_new p (block_of fs); reader_key_may_match r block_offset key) =
    if decide (f = []) then Some true else key_may_match p key f.
Proof.
  intros Hs Hi Hbo Hx. rewrite reader_of_block by done. cbn [mbind option_bind].
  unfold reader_key_may_match. cbn [data_ base_lg_ num_ offset_ fr_policy].
  rewrite Hx. pose proof (lookup_lt_Some _ _ _ Hi) as Hlt. case_if; b2p; [lia|].
  pose proof (size_nonneg (concat fs)).
  set (a := size (concat (take i fs))).
  assert (concat fs = concat (take i fs) ++ f ++ concat (drop (S i) fs)) as Ec.
  { rewrite <- (take_drop_middle fs i f Hi) at 1. by rewrite concat_app. }
  assert (size (concat fs) = a + size f + size (concat (drop (S i) fs))) as Esz.
  { rewrite Ec at 1. rewrite !size_app. unfold a. lia. }
  assert (0 <= a) by apply size_nonneg. pose proof (size_nonneg f).
  pose proof (size_nonneg (concat (drop (S i) fs))).
  assert (forall j, (j <= length fs)%nat ->
    decode_fixed32 (drop (Z.to_nat (size (concat fs) + Z.of_nat j * 4)) (block_of fs)) =
    Some (u32 (size (concat (take j fs))))) as Hd.
  { intros j Hj. unfold block_of.
    replace (Z.to_nat _) with (length (concat fs) + 4 * j)%nat by (unfold size; lia).
    rewrite <- drop_drop, drop_app_length. apply decode_words.
    by rewrite offsets_of_lookup by lia. }
  rewrite Hd by lia. cbn [mbind option_bind].
  replace (size (concat fs) + Z.of_nat i * 4 + 4) with (size (concat fs) + Z.of_nat (S i) * 4) by lia.
  rewrite Hd by lia. cbn [mbind option_bind].
  rewrite (take_S_r _ _ _ Hi), concat_app, size_app. cbn [concat]. rewrite app_nil_r. fold a.
  rewrite !u32_small by lia.
  destruct (Z.ltb_spec (a + size f) a); [lia|].
  destruct (Z.ltb_spec (size (concat fs)) (a + size f)); [lia|]. cbn [orb].
  destruct (Z.eqb_spec a (a + size f)); case_decide as Hf; try done.
  - destruct f; [done|]. unfold size in *. simpl in *. lia.
  - subst f. change (size []) with 0 in *. lia.
  - f_equal. unfold block_of. rewrite Ec, <- !app_assoc.
    unfold a, size. rewrite Nat2Z.id, drop_app_length. apply take_app_length'. lia.
Qed.
End reader.

(** The builder's state: the key lists of the finished regions, their
    filters, and the pending keys. *)
Section builder.
Context (p : FilterPolicy) `{FilterPolicyLaws p}.

Definition good (ks : list bytes) (f : bytes) : Prop :=
  f <> [] -> forall key, key ∈ ks -> key_may_match p key f = Some true.

Record repr (b : FilterBlockBuilder) (regions : list (list bytes)) (fs : list bytes)
    (pending : list bytes) : Prop := {
  repr_policy : fb_policy b = p;
  repr_keys : keys_ b = concat pending;
  repr_starts : key_starts_ b = starts_of 0 pending;
  repr_result : result_ b = concat fs;
  repr_offsets : filter_offsets_ b ++ [u32 (size (concat fs))] = u32 <$> offsets_of 0 fs;
  repr_good : Forall2 good regions fs
}.

Lemma repr_new : repr (FilterBlockBuilder_new p) [] [] [].
Proof. by constructor. Qed.

Lemma repr_length b regions fs pending :
  repr b regions fs pending -> length (filter_offsets_ b) = length regions.
Proof.
  intros R. pose proof (f_equal length (repr_offsets _ _ _ _ R)) as E.
  rewrite length_app, length_fmap, length_offsets_of in E. simpl in E.
  rewrite (Forall2_length _ _ _ (repr_good _ _ _ _ R)). lia.
Qed.

Lemma repr_add_key b regions fs pending key :
  repr b regions fs pending -> repr (add_key b key) regions fs (pending ++ [key]).
Proof.
  intros []. constructor; cbn; try done.
  - rewrite repr_keys0, concat_app. cbn. by rewrite app_nil_r.
  - by rewrite starts_of_app, repr_starts0, repr_keys0.
Qed.

Lemma repr_add_keys b regions fs pending keys :
  repr b regions fs pending -> repr (fold_left add_key keys b) regions fs (pending ++ keys).
Proof.
  revert b pending. induction keys as [|k keys IH]; intros b pending R; cbn [fold_left].
  - by rewrite app_nil_r.
  - rewrite cons_middle, app_assoc. by apply IH, repr_add_key.
Qed.

Lemma repr_generate b regions fs pending :
  repr b regions fs pending -> Z.of_nat (length pending) < 2 ^ 32 ->
  exists b' f, generate_filter b = Some b' /\ repr b' (regions ++ [pending]) (fs ++ [f]) [] /\
    (pending = [] -> f = []).
Proof.
  intros R Hk. pose proof R as []. unfold generate_filter.
  rewrite repr_starts0, length_starts_of, repr_keys0, repr_result0.
  assert (forall f, filter_offsets_ b ++ [u32 (size (concat fs))] ++ [u32 (size (concat (fs ++ [f])))] =
    u32 <$> offsets_of 0 (fs ++ [f])) as Ho.
  { intros f. rewrite app_assoc, repr_offsets0, offsets_of_snoc, fmap_app. done. }
  destruct pending as [|k pending].
  - eexists _, []. split_and!; [done| |done]. constructor; cbn; try done.
    + by rewrite concat_app, app_nil_r.
    + rewrite <- app_assoc. apply Ho.
    + apply Forall2_app; [done|]. apply Forall2_cons. split; [by intros ?|by apply Forall2_nil].
  - destruct (policy_filter (k :: pending) Hk) as (f & Hne & Hf & Hin).
    pose proof (tmp_keys_spec [] (k :: pending)) as Et.
    rewrite app_nil_l in Et. change (size []) with 0 in Et. rewrite Et.
    rewrite repr_policy0, Hf. cbn [Nat.eqb length mbind option_bind].
    eexists _, f. split_and!; [done| |done]. constructor; cbn; try done.
    + by rewrite concat_app; cbn; rewrite app_nil_r.
    + rewrite <- app_assoc. apply Ho.
    + apply Forall2_app; [done|]. apply Forall2_cons. split; [by intros _|by apply Forall2_nil].
Qed.

(** After a block starts at [off], exactly [off >> 11] regions are finished,
    and the pending keys have become the first of the new ones. *)
Lemma repr_start_loop fuel w b regions fs pending :
  repr b regions fs pending -> Z.of_nat (length pending) < 2 ^ 32 ->
  Z.of_nat (length regions) <= w -> w <= Z.of_nat fuel + Z.of_nat (length regions) ->
  exists b' fs', start_block_loop fuel w b = Some b' /\
    if decide (Z.of_nat (length regions) = w) then b' = b /\ fs' = fs
    else repr b' (regions ++ pending :: replicate (Z.to_nat w - length regions - 1) []) fs' [].
Proof.
  revert b regions fs pending. induction fuel as [|fuel IH];
    intros b regions fs pending R Hk Hw Hfuel; cbn [start_block_loop].
  { exists b, fs. split; [done|]. case_decide; [done|lia]. }
  rewrite (repr_length _ _ _ _ R). destruct (Z.ltb_spec (Z.of_nat (length regions)) w).
  2: { exists b, fs. split; [done|]. case_decide; [done|lia]. }
  destruct (repr_generate _ _ _ _ R Hk) as (b1 & f & -> & R1 & _). cbn [mbind option_bind].
  pose proof (length_app regions [pending]) as El. cbn [length] in El.
  destruct (IH b1 _ _ _ R1) as (b2 & fs2 & -> & H2); [simpl; lia|lia|lia|].
  exists b2. rewrite El in H2. case_decide as Hd1; case_decide as Hd2; try lia.
  - destruct H2 as [-> ->]. exists (fs ++ [f]). split; [done|].
    replace (Z.to_nat w - length regions - 1)%nat with 0%nat by lia. exact R1.
  - exists fs2. split; [done|]. rewrite <- app_assoc in H2. cbn [app] in H2.
    replace (Z.to_nat w - length regions - 1)%nat
      with (S (Z.to_nat w - (length regions + 1) - 1)) by lia. exact H2.
Qed.

Lemma repr_finish b regions fs pending :
  repr b regions fs pending -> Z.of_nat (length pending) < 2 ^ 32 ->
  exists fs', finish b = Some (block_of fs') /\
    Forall2 good (regions ++ (if decide (pending = []) then [] else [pending])) fs'.
Proof.
  intros R Hk. unfold finish.
  assert (forall b' regions' fs' pending', repr b' regions' fs' pending' ->
    put_fixed32 (fold_left put_fixed32 (filter_offsets_ b') (result_ b')) (u32 (size (result_ b')))
      ++ [Z_to_byte kFilterBaseLog] = block_of fs') as Hb.
  { intros b' ??? []. rewrite (fold_append put_fixed32 encode_fixed32) by done.
    unfold put_fixed32, block_of. rewrite <- !app_assoc, repr_result0. f_equal.
    transitivity (((filter_offsets_ b' ++ [u32 (size (concat fs'))]) ≫= encode_fixed32)
      ++ [Z_to_byte kFilterBaseLog]).
    { rewrite bind_app. cbn [mbind list_bind]. by rewrite app_nil_r, <- app_assoc. }
    rewrite repr_offsets0. f_equal. rewrite list_fmap_bind.
    apply list_bind_ext; [|done]. intros x. apply encode_fixed32_u32. }
  rewrite (repr_starts _ _ _ _ R), length_starts_of. destruct pending as [|k pending].
  - cbn [Nat.eqb length mbind option_bind]. exists fs. split; [by erewrite Hb|].
    rewrite decide_True, app_nil_r by done. apply R.
  - destruct (repr_generate _ _ _ _ R Hk) as (b1 & f & -> & R1 & _).
    cbn [Nat.eqb length mbind option_bind]. exists (fs ++ [f]). split; [by erewrite Hb|].
    rewrite decide_False by done. apply R1.
Qed.
End builder.

(** The calls a table builder makes: for each data block, [start_block] with
    its offset, then [add_key] for each of its keys; [finish] at the end. *)
Definition build_block (b : FilterBlockBuilder) (block : Z * list bytes) :
    option FilterBlockBuilder :=
  b ← start_block b (fst block); Some (fold_left add_key (snd block) b).
Fixpoint build_blocks (b : FilterBlockBuilder) (blocks : list (Z * list bytes)) :
    option FilterBlockBuilder :=
  match blocks with
  | [] => Some b
  | block :: blocks' => b ← build_block b block; build_blocks b blocks'
  end.
Definition build (p : FilterPolicy) (blocks : list (Z * list bytes)) : option bytes :=
  b ← build_blocks (FilterBlockBuilder_new p) blocks; finish b.

Definition region (off : Z) : nat := Z.to_nat (off .>> kFilterBaseLog).
Definition num_keys (blocks : list (Z * list bytes)) : nat :=
  sum_list ((λ block, length (snd block)) <$> blocks).

Section build.
Context (p : FilterPolicy) `{FilterPolicyLaws p}.

Definition located (regions : list (list bytes)) (off : Z) (key : bytes) : Prop :=
  exists ks, regions !! region off = Some ks /\ key ∈ ks.

Lemma located_app regions l off key : located regions off key -> located (regions ++ l) off key.
Proof. intros (ks & Hk & Hin). exists ks. split; [by apply lookup_app_l_Some|done]. Qed.

Lemma located_more regions pending keys off key :
  located (regions ++ [pending]) off key -> located (regions ++ [pending ++ keys]) off key.
Proof.
  intros (ks & Hk & Hin). apply lookup_snoc_Some in Hk as [[? Hk]|[Hl <-]].
  - exists ks. split; [by apply lookup_app_l_Some|done].
  - exists (pending ++ keys). split; [|apply elem_of_app; auto].
    rewrite Hl. apply list_lookup_middle. done.
Qed.

Lemma region_mono a b : 0 <= a -> a <= b -> (region a <= region b)%nat.
Proof.
  intros. unfold region, kFilterBaseLog. rewrite !Z.shiftr_div_pow2 by lia.
  apply Z2Nat.inj_le; [apply Z.div_pos; lia..|]. apply Z.div_le_mono; lia.
Qed.

Lemma build_block_spec b regions fs pending off keys :
  repr p b regions fs pending -> 0 <= off -> (length regions <= region off)%nat ->
  Z.of_nat (length pending) < 2 ^ 32 ->
  exists b' regions' fs' pending', build_block b (off, keys) = Some b' /\
    repr p b' regions' fs' pending' /\ length regions' = region off /\
    (length pending' <= length pending + length keys)%nat /\
    (forall key, key ∈ keys -> located (regions' ++ [pending']) off key) /\
    (forall o key, located (regions ++ [pending]) o key -> located (regions' ++ [pending']) o key).
Proof.
  intros R Ho Hl Hp. unfold build_block, start_block. cbn [fst snd].
  assert (Z.of_nat (region off) = off .>> kFilterBaseLog) as Er.
  { unfold region. apply Z2Nat.id. by apply Z.shiftr_nonneg. }
  destruct (repr_start_loop p (region off) (off .>> kFilterBaseLog) b regions fs pending R)
    as (b1 & fs1 & E1 & R1); [done|lia|lia|].
  unfold region in E1. rewrite E1. cbn [mbind option_bind].
  assert (forall rs pend, length rs = region off -> forall key, key ∈ keys ->
    located (rs ++ [pend ++ keys]) off key) as Hnew.
  { intros rs pend Hrs key Hin. exists (pend ++ keys). rewrite <- Hrs. split; [|apply elem_of_app; auto].
    by apply list_lookup_middle. }
  case_decide as Hd.
  - destruct R1 as [-> ->]. eexists _, regions, fs, (pending ++ keys).
    split_and!; [done|by apply repr_add_keys|lia|rewrite length_app; lia| |].
    + apply Hnew. lia.
    + intros. by apply located_more.
  - eexists _, _, fs1, ([] ++ keys).
    assert (length (regions ++ pending :: replicate
      (Z.to_nat (off .>> kFilterBaseLog) - length regions - 1) []) = region off) as Hlen.
    { rewrite length_app. cbn [length]. rewrite length_replicate. unfold region in *. lia. }
    split_and!; [done|by apply repr_add_keys|done|simpl; lia|by apply Hnew|].
    intros o key Hloc. rewrite <- app_assoc. cbn [app].
    rewrite cons_middle, app_assoc. by apply located_app.
Qed.

Lemma build_blocks_spec blocks last b regions fs pending :
  repr p b regions fs pending -> 0 <= last ->
  StronglySorted Z.le (last :: (fst <$> blocks)) -> (length regions <= region last)%nat ->
  Z.of_nat (length pending + num_keys blocks) < 2 ^ 32 ->
  exists b' regions' fs' pending', build_blocks b blocks = Some b' /\
    repr p b' regions' fs' pending' /\ Z.of_nat (length pending') < 2 ^ 32 /\
    (forall o key, located (regions ++ [pending]) o key -> located (regions' ++ [pending']) o key) /\
    forall off keys key, (off, keys) ∈ blocks -> key ∈ keys -> located (regions' ++ [pending']) off key.
Proof.
  revert last b regions fs pending. induction blocks as [|[off keys] blocks IH];
    intros last b regions fs pending R Hlast Hs Hl Hn; cbn [build_blocks].
  { eexists _, regions, fs, pending. split_and!; try done; [lia|].
    intros ??? []%not_elem_of_nil. }
  inversion Hs as [|?? Hs1 HF]; subst. cbn [fmap list_fmap fst] in HF.
  apply Forall_cons in HF as [Hle _]. 
  change (num_keys ((off, keys) :: blocks)) with (length keys + num_keys blocks)%nat in Hn.
  pose proof (region_mono _ _ Hlast Hle).
  destruct (build_block_spec b regions fs pending off keys)
    as (b1 & r1 & f1 & p1 & -> & R1 & Hr1 & Hp1 & Hnew & Hold); [done|lia|lia|lia|].
  cbn [mbind option_bind].
  destruct (IH off b1 r1 f1 p1) as (b2 & r2 & f2 & p2 & -> & R2 & Hp2 & Hold2 & Hnew2);
    [done|lia|done|lia|lia|].
  eexists _, r2, f2, p2. split_and!; try done; [by auto|].
  intros o ks key [[= -> ->]|Hin]%elem_of_cons Hk; [by apply Hold2, Hnew|by eapply Hnew2].
Qed.

Lemma build_spec blocks :
  StronglySorted Z.le (fst <$> blocks) -> Forall (λ block, 0 <= fst block) blocks ->
  Z.of_nat (num_keys blocks) < 2 ^ 32 ->
  exists regions fs, build p blocks = Some (block_of fs) /\ Forall2 (good p) regions fs /\
    forall off keys key, (off, keys) ∈ blocks -> key ∈ keys -> located regions off key.
Proof.
  intros Hs Hpos Hn. unfold build.
  destruct (build_blocks_spec blocks 0 (FilterBlockBuilder_new p) [] [] [])
    as (b & rs & fs & pend & -> & R & Hp & _ & Hloc); [apply repr_new|done| |simpl; lia|done|].
  { constructor; [done|]. by apply Forall_fmap. }
  cbn [mbind option_bind].
  destruct (repr_finish p b rs fs pend R Hp) as (fs' & -> & HF).
  eexists _, fs'. split_and!; [done|exact HF|]. intros off keys key Hin Hk.
  destruct (Hloc _ _ _ Hin Hk) as (ks & Hks & Hkey). case_decide as Hd; [|by exists ks].
  subst pend. apply lookup_snoc_Some in Hks as [[? Hks]|[_ <-]]; [|by apply not_elem_of_nil in Hkey].
  exists ks. by rewrite app_nil_r.
Qed.
End build.

(** * Theorems *)

(** A builder never gets stuck, whatever offsets it is given. *)
Section total.
Context (p : FilterPolicy) `{!FilterPolicyLaws p}.
Definition usable (n : nat) (b : FilterBlockBuilder) : Prop :=
  fb_policy b = p /\ (length (key_starts_ b) <= n)%nat.
Lemma length_tmp_keys keys starts : length (tmp_keys keys starts) = pred (length starts).
Proof. induction starts as [|s [|e starts] IH]; [done..|]. cbn in *. by rewrite IH. Qed.
Lemma generate_total n b :
  usable n b -> Z.of_nat n < 2 ^ 32 -> exists b', generate_filter b = Some b' /\ usable n b'.
Proof.
  intros [<- Hl] Hn. unfold generate_filter. destruct (length (key_starts_ b) =? 0)%nat.
  - eexists. split; [done|]. by split.
  - destruct (policy_filter (tmp_keys (keys_ b) (key_starts_ b ++ [size (keys_ b)]))) as (f & _ & E & _).
    { rewrite length_tmp_keys, length_app. cbn. lia. }
    rewrite E. eexists. split; [done|]. split; [done|]. cbn. lia.
Qed.
Lemma start_loop_total fuel w n b :
  usable n b -> Z.of_nat n < 2 ^ 32 -> exists b', start_block_loop fuel w b = Some b' /\ usable n b'.
Proof.
  intros U Hn. revert b U. induction fuel as [|fuel IH]; intros b U; cbn [start_block_loop]; [by eexists|].
  destruct (_ <? w); [|by eexists]. destruct (generate_total n b U Hn) as (b' & -> & U'). by apply IH.
Qed.
Lemma add_keys_usable n b keys : usable n b -> usable (n + length keys) (fold_left add_key keys b).
Proof.
  revert n b. induction keys as [|k keys IH]; intros n b [U1 U2]; cbn [fold_left length]; [by split; [|lia]|].
  rewrite <- Nat.add_succ_comm. apply IH. split; [done|]. cbn. rewrite length_app. cbn. lia.
Qed.
Lemma build_block_total n b block :
  usable n b -> Z.of_nat n < 2 ^ 32 ->
  exists b', build_block b block = Some b' /\ usable (n + length (snd block)) b'.
Proof.
  intros U Hn. unfold build_block, start_block.
  destruct (start_loop_total (Z.to_nat (fst block .>> kFilterBaseLog)) (fst block .>> kFilterBaseLog) n b U Hn) as (b' & -> & U').
  eexists. split; [done|]. by apply add_keys_usable.
Qed.
Lemma finish_total n b : usable n b -> Z.of_nat n < 2 ^ 32 -> is_Some (finish b).
Proof.
  intros U Hn. unfold finish. destruct (length (key_starts_ b) =? 0)%nat; [by eexists|].
  destruct (generate_total n b U Hn) as (b' & -> & _). by eexists.
Qed.
Lemma build_blocks_app b l1 l2 : build_blocks b (l1 ++ l2) = b ← build_blocks b l1; build_blocks b l2.
Proof.
  revert b. induction l1 as [|x l1 IH]; intros b; cbn; [done|].
  destruct (build_block b x); cbn; [apply IH|done].
Qed.
Lemma num_keys_app l1 l2 : num_keys (l1 ++ l2) = (num_keys l1 + num_keys l2)%nat.
Proof. unfold num_keys. induction l1 as [|x l1 IH]; cbn in *; lia. Qed.
Lemma build_blocks_total n b blocks :
  usable n b -> Z.of_nat (n + num_keys blocks) < 2 ^ 32 ->
  exists b', build_blocks b blocks = Some b' /\ usable (n + num_keys blocks) b'.
Proof.
  revert n b. induction blocks as [|x blocks IH]; intros n b U Hn.
  - exists b. split; [done|]. cbn. by rewrite Nat.add_0_r.
  - change (num_keys (x :: blocks)) with (length (snd x) + num_keys blocks)%nat in *.
    destruct (build_block_total n b x U ltac:(lia)) as (b' & E & U'). cbn. rewrite E. cbn.
    rewrite Nat.add_assoc. apply IH; [done|lia].
Qed.
End total.

(** The reader is defined on any bytes. *)
Lemma reader_safe p `{FilterPolicyLaws p} contents :
  exists r, FilterBlockReader_new p contents = Some r /\
    (data_ r <> None -> base_lg_ r < 64) /\
    forall off key, 0 <= off ->
      is_Some (reader_key_may_match r off key) /\
      (data_ r = None -> reader_key_may_match r off key = Some true).
Proof.
  assert (forall q base, exists r, Some (mkReader q None 0 0 base) = Some r /\
    (data_ r <> None -> base_lg_ r < 64) /\
    forall off key, 0 <= off -> is_Some (reader_key_may_match r off key) /\
      (data_ r = None -> reader_key_may_match r off key = Some true)) as Hnull.
  { intros q base. eexists. split; [done|]. by split. }
  assert (forall l, (4 <= length l)%nat -> is_Some (decode_fixed32 l)) as Hdec.
  { intros l Hl. rewrite decode_fixed32_spec. case_decide; [done|lia]. }
  unfold FilterBlockReader_new, kMinimum, size. case_if; b2p; [apply Hnull|].
  destruct (lookup_lt_is_Some_2 contents (Z.to_nat (Z.of_nat (length contents) - 1)))
    as [base ->]; [lia|]. cbn [mbind option_bind].
  case_if; b2p; [apply Hnull|].
  destruct (Hdec (drop (Z.to_nat (Z.of_nat (length contents) - 5)) contents)) as [w Hw];
    [rewrite length_drop; lia|].
  rewrite Hw. cbn [mbind option_bind]. case_if; b2p; [apply Hnull|].
  eexists. split; [done|]. cbn. split; [done|]. intros off key Hoff. split; [|done].
  unfold reader_key_may_match; cbn [data_ base_lg_ num_ offset_ fr_policy].
  case_if; b2p; [done|].
  assert (0 <= w) as Hw0.
  { rewrite decode_fixed32_spec in Hw. case_decide; [|done]. injection Hw as <-.
    apply le_value_range. }
  assert (0 <= off .>> byte_to_Z base) by (by apply Z.shiftr_nonneg).
  set (i := off .>> byte_to_Z base) in *.
  assert (w + i * 4 + 8 <= Z.of_nat (length contents) - 1) by zmod.
  destruct (Hdec (drop (Z.to_nat (w + i * 4)) contents)) as [start ->]; [rewrite length_drop; lia|].
  destruct (Hdec (drop (Z.to_nat (w + i * 4 + 4)) contents)) as [limit ->]; [rewrite length_drop; lia|].
  cbn [mbind option_bind]. repeat case_if; try done. apply policy_total.
Qed.

Lemma reader_total p `{FilterPolicyLaws p} contents :
  exists r, FilterBlockReader_new p contents = Some r /\ forall off key, 0 <= off -> is_Some (reader_key_may_match r off key).
Proof.
  destruct (reader_safe p contents) as (r & E & _ & H1). exists r. split; [done|]. intros. by apply H1.
Qed.

(** A finished filter keeps the keys of its blocks. *)
Lemma built_keeps p `{FilterPolicyLaws p} blocks :
  StronglySorted Z.le (fst <$> blocks) -> Forall (λ block, 0 <= fst block) blocks ->
  Z.of_nat (num_keys blocks) < 2 ^ 32 ->
  exists contents, build p blocks = Some contents /\
    (size contents < 2 ^ 32 -> forall off keys key, (off, keys) ∈ blocks -> key ∈ keys ->
      (r ← FilterBlockReader_new p contents; reader_key_may_match r off key) = Some true).
Proof.
  intros Hs Hpos Hn. destruct (build_spec p blocks Hs Hpos Hn) as (rs & fs & Eb & HF & Hloc).
  exists (block_of fs). split; [done|]. intros Hsz off keys key Hin Hk.
  destruct (Hloc _ _ _ Hin Hk) as (ks & Hks & Hkey).
  destruct (Forall2_lookup_l _ _ _ _ _ HF Hks) as (f & Hf & Hgood).
  rewrite Forall_forall in Hpos. specialize (Hpos _ Hin). cbn in Hpos.
  rewrite (lookup_in_block p fs (region off) f); [|rewrite size_block_of in Hsz; lia|done|done|].
  - case_decide; [done|]. by apply Hgood.
  - unfold region. symmetry. apply Z2Nat.id. by apply Z.shiftr_nonneg.
Qed.

(** A reader tells keys apart only by the policy. *)
Lemma reader_same_key p contents r off k k' :
  FilterBlockReader_new p contents = Some r -> (forall f, key_may_match p k f = key_may_match p k' f) ->
  reader_key_may_match r off k = reader_key_may_match r off k'.
Proof.
  intros E H. assert (fr_policy r = p) as Ep.
  { unfold FilterBlockReader_new in E. case_if; [by injection E as <-|].
    destruct (contents !! _); [|done]. cbn [mbind option_bind] in E. case_if; [by injection E as <-|].
    destruct (decode_fixed32 _); [|done]. cbn [mbind option_bind] in E. case_if; by injection E as <-. }
  unfold reader_key_may_match. destruct (data_ r) as [data|]; [|done]. case_if; [done|].
  destruct (decode_fixed32 _); [|done]. cbn [mbind option_bind].
  destruct (decode_fixed32 _); [|done]. cbn [mbind option_bind]. rewrite Ep. repeat case_if; auto.
Qed.

(** C33. A block's own starting offset never loses its keys: for data blocks
    at non-decreasing offsets, keys of any policy that keeps its promise, and
    a filter block below 4 GiB, asking the finished block about a key of a
    data block at that data block's offset answers "may match", whether the
    blocks are smaller or larger than a region. *)
Theorem filter_block_keeps_every_key p `{FilterPolicyLaws p} blocks :
  StronglySorted Z.le (fst <$> blocks) -> Forall (λ block, 0 <= fst block) blocks ->
  Z.of_nat (num_keys blocks) < 2 ^ 32 ->
  exists contents, build p blocks = Some contents /\
    (size contents < 2 ^ 32 -> forall off keys key, (off, keys) ∈ blocks -> key ∈ keys ->
      (r ← FilterBlockReader_new p contents; reader_key_may_match r off key) = Some true).
Proof. by apply (built_keeps p). Qed.

Lemma filter_block_keeps_every_key_witness :
  exists contents, build (new_bloom_filter_policy 10) [(0, [[x61]]); (5000, [[x62]; [x63]])] = Some contents /\
    (size contents < 2 ^ 32 -> forall off keys key,
      (off, keys) ∈ [(0, [[x61]]); (5000, [[x62]; [x63]])] -> key ∈ keys ->
      (r ← FilterBlockReader_new (new_bloom_filter_policy 10) contents;
       reader_key_may_match r off key) = Some true).
Proof.
  apply (filter_block_keeps_every_key (new_bloom_filter_policy 10)
    [(0, [[x61]]); (5000, [[x62]; [x63]])]).
  - repeat constructor; simpl; lia.
  - repeat constructor; simpl; lia.
  - vm_compute. reflexivity.
Defined.

(** Damaged filter blocks are harmless to read: whatever the bytes, the
    reader's constructor and its query never read outside the block, whatever
    the block offset and key, and a block too short, with a shift of 64 or
    more, or with an offset array outside it, answers "may match". *)
Theorem filter_block_reader_is_safe p `{FilterPolicyLaws p} contents :
  exists r, FilterBlockReader_new p contents = Some r /\
    (data_ r <> None -> base_lg_ r < 64) /\
    forall off key, 0 <= off ->
      is_Some (reader_key_may_match r off key) /\
      (data_ r = None -> reader_key_may_match r off key = Some true).
Proof. by apply (reader_safe p). Qed.

Lemma filter_block_reader_is_safe_witness :
  exists r, FilterBlockReader_new (new_bloom_filter_policy 10) [xff; x00; x00; x00; x00; x0b] = Some r /\
    (data_ r <> None -> base_lg_ r < 64) /\
    forall off key, 0 <= off ->
      is_Some (reader_key_may_match r off key) /\
      (data_ r = None -> reader_key_may_match r off key = Some true).
Proof.
  apply (filter_block_reader_is_safe (new_bloom_filter_policy 10) [xff; x00; x00; x00; x00; x0b]).
Defined.

End FilterBlock.
