(* ===== verification/BlockBuilder.v ===== *)
(** Building a block (src/src/block_builder.hpp, src/src/block_builder.cpp):
    prefix-compressed entries, then the restart array. *)
From S2P Require Import Prelude Encoding Comparator.
Import Encoding Comparator.

Module BlockBuilder.

(** [comparator_] is read only by a debug assertion and is left out; sizes
    and offsets are [size_t] values of objects in memory. *)
Record BlockBuilder := mkBuilder {
  restart_interval_ : Z;
  buffer_ : bytes;
  restarts_ : list Z;
  since_restart_ : Z;
  entries_ : Z;
  finished_ : bool;
  last_key_ : bytes
}.

Definition reset (b : BlockBuilder) : BlockBuilder :=
  mkBuilder (restart_interval_ b) [] [0] 0 0 false [].

Definition BlockBuilder_new (restart_interval : Z) : BlockBuilder :=
  reset (mkBuilder restart_interval [] [] 0 0 false []).

Definition empty (b : BlockBuilder) : bool := entries_ b =? 0.

Definition current_size_estimate (b : BlockBuilder) : Z :=
  size (buffer_ b) + Z.of_nat (length (restarts_ b)) * 4 + 4.

(** The entry's bytes, given how much of the key it shares. *)
Definition put_entry (buffer : bytes) (shared : nat) (key value : bytes) : bytes :=
  let non_shared := (length key - shared)%nat in
  let buffer := put_varint32 buffer (u32 (Z.of_nat shared)) in
  let buffer := put_varint32 buffer (u32 (Z.of_nat non_shared)) in
  let buffer := put_varint32 buffer (u32 (size value)) in
  buffer ++ drop shared key ++ value.

(** [first_difference] is the loop
    [while (shared < limit && last_key_[shared] == key[shared]) ++shared]. *)
Definition add (b : BlockBuilder) (key value : bytes) : BlockBuilder :=
  let '(shared, restarts, since_restart) :=
    if since_restart_ b <? restart_interval_ b
    then (first_difference (last_key_ b) key, restarts_ b, since_restart_ b)
    else (O, restarts_ b ++ [u32 (size (buffer_ b))], 0) in
  mkBuilder (restart_interval_ b) (put_entry (buffer_ b) shared key value) restarts
    (since_restart + 1) (entries_ b + 1) (finished_ b) key.

Definition finish (b : BlockBuilder) : BlockBuilder :=
  let buffer := fold_left put_fixed32 (restarts_ b) (buffer_ b) in
  let buffer := put_fixed32 buffer (u32 (Z.of_nat (length (restarts_ b)))) in
  mkBuilder (restart_interval_ b) buffer (restarts_ b) (since_restart_ b) (entries_ b)
    true (last_key_ b).

Definition last_key (b : BlockBuilder) : bytes := last_key_ b.

(** * The layout of a block

    What the builder's calls amount to: a list of entries, each with the
    length of the prefix it shares with the entry before it, and the indices
    of the entries at which a reader may enter. *)
Record Entry := mkEntry { e_shared : nat; e_key : bytes; e_value : bytes }.

Definition enc (e : Entry) : bytes := put_entry [] (e_shared e) (e_key e) (e_value e).
Definition encs (es : list Entry) : bytes := es ≫= enc.
(** The offset of entry [i]. *)
Definition off (es : list Entry) (i : nat) : Z := size (encs (take i es)).

Definition kv (e : Entry) : bytes * bytes := (e_key e, e_value e).

(** Entry [e] can be decoded after a key [prev]. *)
Definition chains (prev : bytes) (e : Entry) : Prop :=
  (e_shared e <= length prev)%nat /\ (e_shared e <= length (e_key e))%nat /\
  take (e_shared e) prev = take (e_shared e) (e_key e).

Fixpoint chain (prev : bytes) (es : list Entry) : Prop :=
  match es with
  | [] => True
  | e :: es' => chains prev e /\ chain (e_key e) es'
  end.

Record layout (es : list Entry) (ridx : list nat) : Prop := {
  layout_chain : chain [] es;
  layout_first : ridx !! 0%nat = Some 0%nat;
  layout_sorted : StronglySorted lt ridx;
  layout_range : forall r, r ∈ ridx -> r = 0%nat \/ (r < length es)%nat;
  layout_alone : forall r e, r ∈ ridx -> es !! r = Some e -> e_shared e = 0%nat
}.

Definition block_bytes (es : list Entry) (ridx : list nat) : bytes :=
  encs es ++ ((off es <$> ridx) ≫= encode_fixed32) ++ encode_fixed32 (Z.of_nat (length ridx)).

(** * Lemmas *)
Lemma put_entry_app buffer shared key value :
  put_entry buffer shared key value = buffer ++ put_entry [] shared key value.
Proof. unfold put_entry, put_varint32. by rewrite <- !app_assoc. Qed.

Lemma encs_app a b : encs (a ++ b) = encs a ++ encs b.
Proof. apply bind_app. Qed.

Lemma encs_one e : encs [e] = enc e.
Proof. apply app_nil_r. Qed.

Lemma off_app_l es l i : (i <= length es)%nat -> off (es ++ l) i = off es i.
Proof. intros. unfold off. by rewrite take_app_le. Qed.
Lemma off_all es : off es (length es) = size (encs es).
Proof. unfold off. by rewrite firstn_all. Qed.

Lemma off_0 es : off es 0 = 0.
Proof. done. Qed.
Lemma off_cons e es i : off (e :: es) (S i) = size (enc e) + off es i.
Proof. unfold off. apply size_app. Qed.

Lemma off_S es i e : es !! i = Some e -> off es (S i) = off es i + size (enc e).
Proof.
  intros Hi. unfold off. rewrite (take_S_r _ _ _ Hi), encs_app, size_app, encs_one. done.
Qed.

Lemma varint_loop_pos fuel v : 0 < size (varint_loop (S fuel) v).
Proof. unfold size. simpl. case_if; simpl; lia. Qed.

Lemma size_enc e : size (enc e) =
  size (varint_loop 10 (u32 (Z.of_nat (e_shared e)))) +
  size (varint_loop 10 (u32 (Z.of_nat (length (e_key e) - e_shared e)))) +
  size (varint_loop 10 (u32 (size (e_value e)))) +
  Z.of_nat (length (e_key e) - e_shared e) + size (e_value e).
Proof.
  unfold enc, put_entry, put_varint32. rewrite !size_app. change (size []) with 0.
  unfold size at 5. rewrite length_drop. lia.
Qed.

Lemma size_enc_pos e : 3 <= size (enc e).
Proof.
  rewrite size_enc. pose proof (size_nonneg (e_value e)).
  pose proof (varint_loop_pos 9 (u32 (Z.of_nat (e_shared e)))).
  pose proof (varint_loop_pos 9 (u32 (Z.of_nat (length (e_key e) - e_shared e)))).
  pose proof (varint_loop_pos 9 (u32 (size (e_value e)))). lia.
Qed.

Lemma off_lt es i j : (i < j)%nat -> (j <= length es)%nat -> off es i < off es j.
Proof.
  intros Hij Hj. induction j as [|j IH]; [lia|].
  destruct (lookup_lt_is_Some_2 es j) as [e He]; [lia|].
  rewrite (off_S _ _ _ He). pose proof (size_enc_pos e).
  destruct (decide (i = j)) as [->|]; [lia|]. specialize (IH ltac:(lia) ltac:(lia)). lia.
Qed.
Lemma off_le es i j : (i <= j)%nat -> (j <= length es)%nat -> off es i <= off es j.
Proof.
  intros. destruct (decide (i = j)) as [->|]; [lia|]. pose proof (off_lt es i j). lia.
Qed.
Lemma off_nonneg es i : 0 <= off es i.
Proof. apply size_nonneg. Qed.
Lemma off_total es i : (i <= length es)%nat -> off es i <= size (encs es).
Proof. intros. rewrite <- off_all. by apply off_le. Qed.

Lemma off_lt_iff es i j :
  (i <= length es)%nat -> (j <= length es)%nat -> (off es i < off es j <-> (i < j)%nat).
Proof.
  intros. split; [|by intros; apply off_lt]. intros Hlt.
  destruct (decide (i < j)%nat); [done|]. pose proof (off_le es j i). lia.
Qed.

Lemma encs_split es i e : es !! i = Some e ->
  encs es = encs (take i es) ++ enc e ++ encs (drop (S i) es).
Proof.
  intros Hi. rewrite <- (take_drop_middle es i e Hi) at 1. by rewrite encs_app.
Qed.

(** Keys are no longer than the entries up to them. *)
Lemma chain_key_bound prev es i e :
  chain prev es -> es !! i = Some e -> size (e_key e) <= size prev + off es (S i).
Proof.
  revert prev i. induction es as [|e0 es IH]; intros prev i Hch Hi; [done|].
  destruct Hch as [(Hs1 & Hs2 & _) Hc].
  assert (size (e_key e0) <= size prev + size (enc e0)) as H0.
  { rewrite size_enc. unfold size. lia. }
  destruct i as [|i].
  - injection Hi as ->. rewrite off_cons, off_0. lia.
  - specialize (IH _ i Hc Hi). rewrite off_cons. lia.
Qed.

Lemma default_last_cons {A} (f : A -> bytes) (e : A) (a : list A) (d d' : bytes) :
  default d (f <$> last (e :: a)) = default d' (f <$> last (e :: a)).
Proof. by destruct (last_is_Some (e :: a)) as [_ [x ->]]. Qed.

Lemma chain_app prev a b :
  chain prev (a ++ b) <-> chain prev a /\ chain (default prev (e_key <$> last a)) b.
Proof.
  revert prev. induction a as [|e a IH]; intros prev; simpl; [tauto|].
  rewrite IH. destruct a as [|e' a]; [simpl; tauto|].
  change (last (e :: e' :: a)) with (last (e' :: a)).
  rewrite (default_last_cons e_key e' a (e_key e) prev). tauto.
Qed.

(** What comes before entry [i] is enough to decode it. *)
Lemma chain_at es i e :
  chain [] es -> es !! i = Some e ->
  chains (default [] (e_key <$> (if i is S j then es !! j else None))) e.
Proof.
  intros Hc Hi. rewrite <- (take_drop_middle es i e Hi) in Hc.
  apply chain_app in Hc as [_ [Hc _]].
  assert (last (take i es) = if i is S j then es !! j else None) as <-; [|done].
  destruct i as [|i]; [done|]. pose proof (lookup_lt_Some _ _ _ Hi).
  destruct (lookup_lt_is_Some_2 es i) as [e' He']; [lia|].
  rewrite (take_S_r _ _ _ He'), last_snoc. done.
Qed.

Lemma first_difference_spec a b :
  (first_difference a b <= length a)%nat /\ (first_difference a b <= length b)%nat /\
  take (first_difference a b) a = take (first_difference a b) b.
Proof.
  revert b. induction a as [|x a IH]; intros [|y b]; simpl; try (split_and!; done || lia).
  case_decide; simpl; [|split_and!; done || lia]. subst.
  destruct (IH b) as (? & ? & E). split_and!; [lia|lia|by rewrite E].
Qed.

(** ** The builder builds a layout *)
Record builds (b : BlockBuilder) (es : list Entry) (ridx : list nat) : Prop := {
  builds_layout : layout es ridx;
  builds_buffer : buffer_ b = encs es;
  builds_restarts : restarts_ b = (λ r, u32 (off es r)) <$> ridx;
  builds_last : last_key_ b = default [] (e_key <$> last es);
  builds_since : since_restart_ b = Z.of_nat (length es - default 0%nat (last ridx));
  builds_interval : 1 <= restart_interval_ b;
  builds_entries : entries_ b = Z.of_nat (length es)
}.

Lemma builds_new r : 1 <= r -> builds (BlockBuilder_new r) [] [0%nat].
Proof.
  intros. constructor; try done. constructor; try done.
  - repeat constructor.
  - intros q ->%list_elem_of_singleton. by left.
Qed.

Lemma last_elem (l : list nat) x : last l = Some x -> x ∈ l.
Proof. intros H. apply last_Some in H as [l' ->]. apply elem_of_app. right. left. Qed.

Lemma layout_snoc_shared es ridx e :
  layout es ridx -> chains (default [] (e_key <$> last es)) e -> layout (es ++ [e]) ridx.
Proof.
  intros [] Hc. constructor; try done.
  - by apply chain_app.
  - intros r Hr. rewrite length_app. cbn. destruct (layout_range0 r Hr); [by left|right; lia].
  - intros r e' Hr Hl. apply lookup_snoc_Some in Hl as [[? Hl]|[-> <-]]; [by eauto|].
    destruct (layout_range0 _ Hr) as [Hr0|]; [|lia].
    destruct es as [|e0 es]; [|done]. destruct Hc as (Hs & _). simpl in Hs. lia.
Qed.

Lemma layout_snoc_restart es ridx e :
  layout es ridx -> e_shared e = 0%nat -> (default 0 (last ridx) < length es)%nat ->
  layout (es ++ [e]) (ridx ++ [length es]).
Proof.
  intros [] He Hlast.
  assert (Forall (λ r, r < length es)%nat ridx) as Hlt.
  { apply Forall_forall. intros r Hr. destruct (layout_range0 _ Hr); lia. }
  constructor.
  - apply chain_app. split; [done|]. split; [|done]. unfold chains. rewrite He.
    split_and!; try lia. by rewrite !take_0.
  - by apply lookup_app_l_Some.
  - apply StronglySorted_app. split_and!; [|done|repeat constructor].
    intros x y Hx ->%list_elem_of_singleton. rewrite Forall_forall in Hlt. auto.
  - intros r [Hr| ->%list_elem_of_singleton]%elem_of_app; rewrite length_app; cbn.
    + destruct (layout_range0 r Hr); [by left|right; lia].
    + right. lia.
  - intros r e' [Hr| ->%list_elem_of_singleton]%elem_of_app Hl.
    + rewrite Forall_forall in Hlt. rewrite lookup_app_l in Hl by auto. eauto.
    + rewrite list_lookup_middle in Hl by done. by injection Hl as <-.
Qed.

Lemma fmap_off_app es l (ridx : list nat) :
  (forall r, r ∈ ridx -> r = 0%nat \/ (r < length es)%nat) ->
  (λ r, u32 (off (es ++ l) r)) <$> ridx = (λ r, u32 (off es r)) <$> ridx.
Proof.
  intros H. apply list_fmap_ext. intros i r Hi%list_elem_of_lookup_2.
  rewrite off_app_l; [done|]. destruct (H _ Hi); lia.
Qed.

Lemma builds_add b es ridx key value :
  builds b es ridx ->
  exists e ridx', builds (add b key value) (es ++ [e]) ridx' /\ kv e = (key, value).
Proof.
  intros [L]. unfold add. rewrite builds_last0.
  assert (default 0%nat (last ridx) = 0%nat \/ (default 0 (last ridx) < length es)%nat) as Hl.
  { destruct (last ridx) as [x|] eqn:E; [|by left]. apply last_elem in E.
    apply (layout_range _ _ L _ E). }
  destruct (Z.ltb_spec (since_restart_ b) (restart_interval_ b)) as [Hlt|Hge].
  - exists (mkEntry (first_difference (default [] (e_key <$> last es)) key) key value), ridx.
    split; [|done]. constructor; cbn; try done.
    + apply layout_snoc_shared; [done|]. apply first_difference_spec.
    + by rewrite put_entry_app, encs_app, encs_one, builds_buffer0.
    + rewrite builds_restarts0, fmap_off_app; [done|apply L].
    + by rewrite last_snoc.
    + rewrite builds_since0, length_app. cbn. lia.
    + rewrite builds_entries0, length_app. cbn. lia.
  - exists (mkEntry 0 key value), (ridx ++ [length es]). split; [|done].
    constructor; cbn; try done.
    + apply layout_snoc_restart; [done|done|]. lia.
    + by rewrite put_entry_app, encs_app, encs_one, builds_buffer0.
    + rewrite fmap_app, fmap_off_app by apply L. cbn.
      rewrite off_app_l, off_all, builds_restarts0, builds_buffer0 by lia. done.
    + by rewrite last_snoc.
    + rewrite length_app, last_snoc. cbn. lia.
    + rewrite builds_entries0, length_app. cbn. lia.
Qed.

Definition add_all (b : BlockBuilder) (l : list (bytes * bytes)) : BlockBuilder :=
  fold_left (λ b '(key, value), add b key value) l b.

Lemma builds_add_all b es ridx l :
  builds b es ridx ->
  exists es' ridx', builds (add_all b l) es' ridx' /\ kv <$> es' = (kv <$> es) ++ l.
Proof.
  revert b es ridx. induction l as [|[k v] l IH]; intros b es ridx B.
  - exists es, ridx. by rewrite app_nil_r.
  - destruct (builds_add b es ridx k v B) as (e & ridx1 & B1 & Ee).
    destruct (IH _ _ _ B1) as (es' & ridx' & B' & E'). exists es', ridx'. split; [done|].
    rewrite E', fmap_app. cbn. by rewrite Ee, <- app_assoc.
Qed.

(** A finished block. *)
Lemma finish_bytes b es ridx :
  builds b es ridx -> buffer_ (finish b) = block_bytes es ridx.
Proof.
  intros []. unfold finish, block_bytes. cbn [buffer_].
  rewrite (fold_append put_fixed32 encode_fixed32) by done. unfold put_fixed32.
  rewrite <- app_assoc, builds_buffer0, builds_restarts0, length_fmap, encode_fixed32_u32.
  f_equal. f_equal. rewrite !list_fmap_bind. apply list_bind_ext; [|done].
  intros r. apply encode_fixed32_u32.
Qed.

Lemma build_layout r l :
  1 <= r -> exists es ridx, layout es ridx /\ kv <$> es = l /\
    buffer_ (finish (add_all (BlockBuilder_new r) l)) = block_bytes es ridx.
Proof.
  intros Hr. destruct (builds_add_all _ _ _ l (builds_new r Hr)) as (es & ridx & B & E).
  exists es, ridx. split_and!; [apply B|done|by apply finish_bytes].
Qed.

Lemma size_words (ws : list Z) : size (ws ≫= encode_fixed32) = 4 * Z.of_nat (length ws).
Proof.
  induction ws as [|w ws IH]; [done|].
  change ((w :: ws) ≫= encode_fixed32) with (encode_fixed32 w ++ (ws ≫= encode_fixed32)).
  rewrite size_app, IH. change (size (encode_fixed32 w)) with 4. cbn [length]. lia.
Qed.

Lemma size_block_bytes es ridx :
  size (block_bytes es ridx) = size (encs es) + 4 * Z.of_nat (length ridx) + 4.
Proof. unfold block_bytes. rewrite !size_app, size_words, length_fmap. change (size (encode_fixed32 _)) with 4. lia. Qed.

End BlockBuilder.
