(* ===== verification/Iterator.v ===== *)
(** The iterator interface (src/include/ambar/iterator.hpp,
    src/src/iterator.cpp): the operations as a record, what an iterator over
    a sorted list of entries promises as a class, and the empty iterator.

    A mutating operation returns the iterator after the call; [None] is
    undefined behaviour inside it. *)
From S2P Require Import Prelude Status Comparator.
Import Status Comparator.

Module Iterator.

Record Iterator (I : Type) := mkIterator {
  it_valid : I -> bool;
  it_seek_to_first : I -> option I;
  it_seek_to_last : I -> option I;
  it_seek : I -> bytes -> option I;
  it_next : I -> option I;
  it_prev : I -> option I;
  it_key : I -> bytes;
  it_value : I -> option bytes;
  it_status : I -> Status
}.
Arguments it_valid {I}.
Arguments it_seek_to_first {I}.
Arguments it_seek_to_last {I}.
Arguments it_seek {I}.
Arguments it_next {I}.
Arguments it_prev {I}.
Arguments it_key {I}.
Arguments it_value {I}.
Arguments it_status {I}.

(** [EmptyIterator]: the state is its status.  [next], [prev], [key] and
    [value] are assertion failures. *)
Definition EmptyIterator : Iterator Status :=
  mkIterator Status (λ _, false) Some Some (λ s _, Some s) (λ _, None) (λ _, None)
    (λ _, []) (λ _, None) (λ s, s).
Definition new_empty_iterator : Status := ok.
Definition new_error_iterator (s : Status) : Status := s.

(** * What an iterator promises

    [l] is what it iterates over; a position [length l] is "not valid".
    Targets of a seek are keys shorter than [limit]: 4 GiB for an iterator
    over a block or a memtable, whose lengths have 32 bits. *)
Fixpoint lower_bound (cmp : Comparator) (l : list (bytes * bytes)) (target : bytes) : nat :=
  match l with
  | [] => O
  | (k, _) :: l' => match compare cmp k target with
                    | Lt => S (lower_bound cmp l' target)
                    | _ => O
                    end
  end.

Definition sorted_by (cmp : Comparator) (l : list (bytes * bytes)) : Prop :=
  StronglySorted (key_lt cmp) (fst <$> l).

Class SortedIteratorUpTo (limit : Z) {I} (ops : Iterator I) (cmp : Comparator)
    (l : list (bytes * bytes)) (pos : I -> nat -> Prop) : Prop := {
  si_bound it i : pos it i -> (i <= length l)%nat;
  si_valid it i : pos it i -> it_valid ops it = (i <? length l)%nat;
  si_entry it i k v : pos it i -> l !! i = Some (k, v) ->
    it_key ops it = k /\ it_value ops it = Some v;
  si_status it i : pos it i -> it_status ops it = ok;
  si_next it i : pos it i -> (i < length l)%nat ->
    exists it', it_next ops it = Some it' /\ pos it' (S i);
  si_prev it i : pos it i -> (i < length l)%nat ->
    exists it', it_prev ops it = Some it' /\ pos it' (if i is S j then j else length l);
  si_first it i : pos it i -> exists it', it_seek_to_first ops it = Some it' /\ pos it' 0%nat;
  si_last it i : pos it i -> exists it', it_seek_to_last ops it = Some it' /\ pos it' (pred (length l));
  si_seek it i target : pos it i -> size target < limit ->
    exists it', it_seek ops it target = Some it' /\ pos it' (lower_bound cmp l target)
}.

Abbreviation SortedIterator := (SortedIteratorUpTo (2 ^ 32)).

#[global] Instance empty_iterator_sorted cmp :
  SortedIterator EmptyIterator cmp [] (λ s i, s = ok /\ i = 0%nat).
Proof.
  constructor; cbn; intros; destruct_and?; simplify_eq; try lia; by eauto.
Qed.

(** The reference cursor: a list and an index into it. *)
Definition list_iterator (cmp : Comparator) : Iterator (list (bytes * bytes) * nat) :=
  let l := fst in let i := snd in
  mkIterator _ (λ it, (i it <? length (l it))%nat)
    (λ it, Some (l it, 0%nat))
    (λ it, Some (l it, pred (length (l it))))
    (λ it target, Some (l it, lower_bound cmp (l it) target))
    (λ it, if (i it <? length (l it))%nat then Some (l it, S (i it)) else None)
    (λ it, if (i it <? length (l it))%nat
           then Some (l it, if i it is S j then j else length (l it)) else None)
    (λ it, default [] (fst <$> (l it !! i it)))
    (λ it, snd <$> (l it !! i it))
    (λ _, ok).

(** ** Whole scans: any sequence of calls

    [next] and [prev] may be called on a valid iterator only. *)
Inductive Move :=
  | SeekToFirst
  | SeekToLast
  | Seek (target : bytes)
  | Next
  | Prev.

Definition call {I} (ops : Iterator I) (it : I) (m : Move) : option I :=
  match m with
  | SeekToFirst => it_seek_to_first ops it
  | SeekToLast => it_seek_to_last ops it
  | Seek target => it_seek ops it target
  | Next => it_next ops it
  | Prev => it_prev ops it
  end.
Fixpoint calls {I} (ops : Iterator I) (it : I) (ms : list Move) : option I :=
  match ms with
  | [] => Some it
  | m :: ms' => it ← call ops it m; calls ops it ms'
  end.

(** The same calls on an index into the list; [None] when a call is outside
    its precondition. *)
Definition cursor_call (limit : Z) (cmp : Comparator) (l : list (bytes * bytes)) (i : nat) (m : Move) :
    option nat :=
  match m with
  | SeekToFirst => Some 0%nat
  | SeekToLast => Some (pred (length l))
  | Seek target => if size target <? limit then Some (lower_bound cmp l target) else None
  | Next => if (i <? length l)%nat then Some (S i) else None
  | Prev => if (i <? length l)%nat then Some (if i is S j then j else length l) else None
  end.
Fixpoint cursor_calls (limit : Z) (cmp : Comparator) (l : list (bytes * bytes)) (i : nat) (ms : list Move) :
    option nat :=
  match ms with
  | [] => Some i
  | m :: ms' => i ← cursor_call limit cmp l i m; cursor_calls limit cmp l i ms'
  end.

(** What a caller sees of an iterator at position [i]. *)
Definition shows {I} (ops : Iterator I) (it : I) (l : list (bytes * bytes)) (i : nat) : Prop :=
  it_status ops it = ok /\
  match l !! i with
  | Some (k, v) => it_valid ops it = true /\ it_key ops it = k /\ it_value ops it = Some v
  | None => it_valid ops it = false
  end.

Lemma si_shows limit {I} (ops : Iterator I) cmp l pos `{!SortedIteratorUpTo limit ops cmp l pos} it i :
  pos it i -> shows ops it l i.
Proof.
  intros Hp. split; [by eapply si_status|]. rewrite (si_valid it i Hp).
  destruct (l !! i) as [[k v]|] eqn:E.
  - split; [apply Nat.ltb_lt; by eapply lookup_lt_Some|]. by eapply si_entry.
  - apply Nat.ltb_ge. by apply lookup_ge_None.
Qed.

Lemma si_calls limit {I} (ops : Iterator I) cmp l pos `{!SortedIteratorUpTo limit ops cmp l pos} ms it i j :
  pos it i -> cursor_calls limit cmp l i ms = Some j ->
  exists it', calls ops it ms = Some it' /\ pos it' j.
Proof.
  revert it i. induction ms as [|m ms IH]; intros it i Hp Hj; cbn [calls cursor_calls] in *.
  { injection Hj as <-. eauto. }
  destruct (cursor_call limit cmp l i m) as [i'|] eqn:Em; [|done]. cbn [mbind option_bind] in Hj.
  assert (exists it', call ops it m = Some it' /\ pos it' i') as (it' & -> & Hp').
  { destruct m; cbn [call cursor_call] in *; repeat case_match; simplify_eq.
    all: rewrite ?Nat.ltb_lt, ?Z.ltb_lt in *.
    - by eapply si_first.
    - by eapply si_last.
    - by eapply si_seek.
    - by eapply si_next.
    - pose proof (si_prev it _ Hp) as H0. cbn in H0. by apply H0.
    - pose proof (si_prev it _ Hp) as H0. cbn in H0. by apply H0. }
  cbn [mbind option_bind]. by eapply IH.
Qed.

(** [lower_bound] counts the keys below the target: in a sorted list it is
    the only position with smaller keys before it and no smaller key at it. *)
Lemma lower_bound_le cmp l t : (lower_bound cmp l t <= length l)%nat.
Proof.
  induction l as [|[k v] l IH]; simpl; [lia|]. destruct (compare cmp k t); simpl; lia.
Qed.

#[global] Instance list_iterator_sorted limit cmp l :
  SortedIteratorUpTo limit (list_iterator cmp) cmp l (λ it i, it = (l, i) /\ (i <= length l)%nat).
Proof.
  constructor; unfold list_iterator; cbn -[Nat.ltb]; intros it i; intros; destruct_and?; simplify_eq;
    cbn -[Nat.ltb]; try done.
  - by simplify_option_eq.
  - rewrite (proj2 (Nat.ltb_lt _ _)) by done. eexists. split_and!; [done|done|lia].
  - rewrite (proj2 (Nat.ltb_lt _ _)) by done. eexists. split_and!; [done|done|]. destruct i; lia.
  - eexists. split_and!; [done|done|lia].
  - eexists. split_and!; [done|done|lia].
  - eexists. split_and!; [done|done|apply lower_bound_le].
Qed.

Lemma lower_bound_unique cmp l t i :
  (i <= length l)%nat ->
  (forall j k v, (j < i)%nat -> l !! j = Some (k, v) -> key_lt cmp k t) ->
  (forall k v, l !! i = Some (k, v) -> ~ key_lt cmp k t) ->
  i = lower_bound cmp l t.
Proof.
  revert i. induction l as [|[k v] l IH]; intros i Hi Hlt Hge; simpl in *; [lia|].
  destruct i as [|i].
  - specialize (Hge k v eq_refl). unfold key_lt in Hge. by destruct (compare cmp k t).
  - rewrite (Hlt 0%nat k v) by (lia || done). f_equal. apply IH.
    + lia.
    + intros j k' v' Hj Hl. apply (Hlt (S j) k' v'); [lia|done].
    + intros k' v' Hl. by apply (Hge k' v').
Qed.

Lemma lower_bound_below cmp l t j k v :
  (j < lower_bound cmp l t)%nat -> l !! j = Some (k, v) -> key_lt cmp k t.
Proof.
  revert j. induction l as [|[k0 v0] l IH]; intros j Hj Hl; simpl in *; [lia|].
  destruct (compare cmp k0 t) eqn:E; try lia.
  destruct j as [|j]; [by injection Hl as -> ->|]. apply (IH j); [lia|done].
Qed.

Lemma lower_bound_at cmp l t k v :
  l !! lower_bound cmp l t = Some (k, v) -> ~ key_lt cmp k t.
Proof.
  induction l as [|[k0 v0] l IH]; simpl; [done|].
  destruct (compare cmp k0 t) eqn:E; simpl; [|exact IH|];
    intros [= -> ->]; unfold key_lt; by rewrite E.
Qed.

Lemma sorted_lookup cmp l i j ki vi kj vj :
  sorted_by cmp l -> (i < j)%nat -> l !! i = Some (ki, vi) -> l !! j = Some (kj, vj) ->
  key_lt cmp ki kj.
Proof.
  intros Hs Hij Hi Hj. unfold sorted_by in Hs.
  eapply (StronglySorted_lookup _ _ i j); [done..| |].
  - by rewrite list_lookup_fmap, Hi.
  - by rewrite list_lookup_fmap, Hj.
Qed.

End Iterator.
