(* ===== verification/Block.v ===== *)
(** Reading a block (src/src/block.hpp, src/src/block.cpp, and the empty and
    error iterators of src/src/iterator.cpp).

    Pointers are addresses: the block's bytes start at [base] and a view is
    its address and length, the null view [(0, 0)] included, so that pointer
    differences are what a flat address space gives.  Every read names the
    bytes it touches; [None] is a read outside the block or a loop that ran
    out of its bound, and the theorems below show neither happens. *)
From S2P Require Import Prelude Status Encoding Comparator BlockBuilder Iterator.
Import Status Encoding Comparator BlockBuilder Iterator.

Module Block.

(** [owned_] only decides who frees the bytes.  [b_size] is [size_], set to 0
    when the header did not decode. *)
Record Block := mkBlock {
  b_data : bytes;
  b_base : Z;
  b_size : Z;
  b_restart_offset : Z;
  b_num_restarts : Z
}.

(** [data[from, to)], when it lies inside the block. *)
Definition sub_view (data : bytes) (from to : Z) : option bytes :=
  if (0 <=? from) && (from <=? to) && (to <=? size data)
  then Some (take (Z.to_nat (to - from)) (drop (Z.to_nat from) data)) else None.

Definition Block_new (base : Z) (data : bytes) : option Block :=
  let sz := size data in
  if sz <? 4 then Some (mkBlock data base 0 0 0) else
  let max_restarts := u32 ((sz - 4) / 4) in
  num_restarts ← decode_fixed32 (drop (Z.to_nat (sz - 4)) data);
  if max_restarts <? num_restarts then Some (mkBlock data base 0 0 num_restarts)
  else Some (mkBlock data base sz (u32 (size_sub sz (u32 (1 + num_restarts) * 4))) num_restarts).

(** One entry's header, from the bytes between [p] and [limit]: the three
    lengths and the bytes from the key delta to [limit]. *)
Definition decode_entry (view : bytes) : option (Z * Z * Z * bytes) :=
  if size view <? 3 then None else
  match view with
  | b0 :: b1 :: b2 :: rest =>
      let shared := byte_to_Z b0 in
      let non_shared := byte_to_Z b1 in
      let value_length := byte_to_Z b2 in
      '(shared, non_shared, value_length, p) ←
        (if (shared .| non_shared .| value_length) <? 128
         then Some (shared, non_shared, value_length, rest)
         else '(shared, input) ← get_varint32 view;
              '(non_shared, input) ← get_varint32 input;
              '(value_length, input) ← get_varint32 input;
              Some (shared, non_shared, value_length, input));
      if size p <? non_shared + value_length then None
      else Some (shared, non_shared, value_length, p)
  | _ => None
  end.

(** ** Block::Iter *)
Record Iter := mkIter {
  data_ : bytes;
  base_ : Z;                (* the address data_ points to *)
  restart_offset_ : Z;
  num_restarts_ : Z;
  current_ : Z;
  restart_index_ : Z;
  key_ : bytes;
  value_ : Z * Z;           (* address and length *)
  status_ : Status
}.

Section Iter.
Context (comparator_ : Comparator).

Definition Iter_new (data : bytes) (base restart_offset num_restarts : Z) : Iter :=
  mkIter data base restart_offset num_restarts restart_offset num_restarts [] (0, 0) ok.

Definition valid (it : Iter) : bool := current_ it <? restart_offset_ it.

Definition move (it : Iter) (current restart_index : Z) : Iter :=
  mkIter (data_ it) (base_ it) (restart_offset_ it) (num_restarts_ it) current restart_index
    (key_ it) (value_ it) (status_ it).

Definition next_entry_offset (it : Iter) : Z :=
  u32 (fst (value_ it) + snd (value_ it) - base_ it).

Definition get_restart_point (it : Iter) (index : Z) : option Z :=
  decode_fixed32 (drop (Z.to_nat (restart_offset_ it + index * 4)) (data_ it)).

Definition corrupted (it : Iter) (what : string) : Iter :=
  mkIter (data_ it) (base_ it) (restart_offset_ it) (num_restarts_ it)
    (restart_offset_ it) (num_restarts_ it) [] (0, 0)
    (corruption ("bad block entry: " +:+ what)%string).

Definition seek_to_restart_point (it : Iter) (index : Z) : option Iter :=
  let it := mkIter (data_ it) (base_ it) (restart_offset_ it) (num_restarts_ it)
              (current_ it) index [] (value_ it) (status_ it) in
  offset ← get_restart_point it index;
  if restart_offset_ it <? offset
  then Some (corrupted it "restart point lies outside the entry region")
  else Some (mkIter (data_ it) (base_ it) (restart_offset_ it) (num_restarts_ it)
               (current_ it) index [] (base_ it + offset, 0) (status_ it)).

(** [while (restart_index_ + 1 < num_restarts_ && ...) ++restart_index_]. *)
Fixpoint advance_restart (fuel : nat) (it : Iter) (restart_index : Z) : option Z :=
  match fuel with
  | O => None
  | S fuel' =>
      if u32 (restart_index + 1) <? num_restarts_ it then
        point ← get_restart_point it (u32 (restart_index + 1));
        if point <? next_entry_offset it then advance_restart fuel' it (u32 (restart_index + 1))
        else Some restart_index
      else Some restart_index
  end.

Definition parse_next_entry (it : Iter) : option (bool * Iter) :=
  let it := move it (next_entry_offset it) (restart_index_ it) in
  if restart_offset_ it <=? current_ it
  then Some (false, move it (restart_offset_ it) (num_restarts_ it))
  else
    view ← sub_view (data_ it) (current_ it) (restart_offset_ it);
    match decode_entry view with
    | None => Some (false, corrupted it "entry runs past the end of the block")
    | Some (shared, non_shared, value_length, p) =>
        if size (key_ it) <? shared
        then Some (false, corrupted it "shared prefix longer than the previous key")
        else
          let key := take (Z.to_nat shared) (key_ it) ++ take (Z.to_nat non_shared) p in
          if (length key <? min_key_length comparator_)%nat
          then Some (false, corrupted it "key is too short for this comparator")
          else
            let it := mkIter (data_ it) (base_ it) (restart_offset_ it) (num_restarts_ it)
                        (current_ it) (restart_index_ it) key
                        (base_ it + restart_offset_ it - size p + non_shared, value_length)
                        (status_ it) in
            restart_index ← advance_restart (S (Z.to_nat (num_restarts_ it))) it (restart_index_ it);
            Some (true, move it (current_ it) restart_index)
    end.

Definition next (it : Iter) : option Iter := snd <$> parse_next_entry it.

(** The first loop of [prev]: [None] in the inner option when it ran off the
    front. *)
Fixpoint prev_restart (fuel : nat) (it : Iter) (original restart_index : Z) : option (option Z) :=
  match fuel with
  | O => None
  | S fuel' =>
      point ← get_restart_point it restart_index;
      if original <=? point then
        if restart_index =? 0 then Some None
        else prev_restart fuel' it original (restart_index - 1)
      else Some (Some restart_index)
  end.

(** [do {} while (parse_next_entry() && next_entry_offset() < bound)]: the
    loops of [prev] and [seek_to_last]. *)
Fixpoint walk_below (fuel : nat) (it : Iter) (bound : Z) : option Iter :=
  match fuel with
  | O => None
  | S fuel' =>
      '(more, it) ← parse_next_entry it;
      if more && (next_entry_offset it <? bound) then walk_below fuel' it bound else Some it
  end.

(** Entries to walk: every one takes at least three bytes; one more round
    finds the end and one more may start outside the region. *)
Definition walk_fuel (it : Iter) : nat := S (S (Z.to_nat (restart_offset_ it))).

Definition prev (it : Iter) : option Iter :=
  let original := current_ it in
  found ← prev_restart (S (Z.to_nat (restart_index_ it))) it original (restart_index_ it);
  match found with
  | None => Some (move it (restart_offset_ it) (num_restarts_ it))
  | Some restart_index =>
      it ← seek_to_restart_point it restart_index;
      walk_below (walk_fuel it) it original
  end.

(** The binary search of [seek]: the restart point to start from, or what is
    wrong with the block. *)
Fixpoint seek_restart (fuel : nat) (it : Iter) (target : bytes) (left right : Z) :
    option (string + Z) :=
  match fuel with
  | O => None
  | S fuel' =>
      if left <? right then
        let mid := u32 (left + right + 1) / 2 in
        region_offset ← get_restart_point it mid;
        if restart_offset_ it <=? region_offset
        then Some (inl "restart point lies outside the entry region"%string)
        else
          view ← sub_view (data_ it) region_offset (restart_offset_ it);
          match decode_entry view with
          | None => Some (inl "restart point does not begin a key"%string)
          | Some (shared, non_shared, value_length, p) =>
              if negb (shared =? 0)
              then Some (inl "restart point does not begin a key"%string)
              else
                let mid_key := take (Z.to_nat non_shared) p in
                if non_shared <? Z.of_nat (min_key_length comparator_)
                then Some (inl "key is too short for this comparator"%string)
                else match compare comparator_ mid_key target with
                     | Lt => seek_restart fuel' it target mid right
                     | _ => seek_restart fuel' it target left (mid - 1)
                     end
          end
      else Some (inr left)
  end.

(** The linear half of [seek]. *)
Fixpoint seek_walk (fuel : nat) (it : Iter) (target : bytes) : option Iter :=
  match fuel with
  | O => None
  | S fuel' =>
      '(more, it) ← parse_next_entry it;
      if negb more then Some it
      else match compare comparator_ (key_ it) target with
           | Lt => seek_walk fuel' it target
           | _ => Some it
           end
  end.

Definition seek (it : Iter) (target : bytes) : option Iter :=
  let right := if num_restarts_ it =? 0 then 0 else num_restarts_ it - 1 in
  found ← seek_restart (S (Z.to_nat right)) it target 0 right;
  match found with
  | inl what => Some (corrupted it what)
  | inr index =>
      it ← seek_to_restart_point it index;
      seek_walk (walk_fuel it) it target
  end.

Definition seek_to_first (it : Iter) : option Iter :=
  it ← seek_to_restart_point it 0; snd <$> parse_next_entry it.

Definition seek_to_last (it : Iter) : option Iter :=
  if num_restarts_ it =? 0 then Some (move it (restart_offset_ it) (restart_index_ it)) else
  it ← seek_to_restart_point it (num_restarts_ it - 1);
  walk_below (walk_fuel it) it (restart_offset_ it).

Definition key (it : Iter) : bytes := key_ it.

(** The bytes of the view, which must lie inside the block. *)
Definition value (it : Iter) : option bytes :=
  if snd (value_ it) =? 0 then Some []
  else sub_view (data_ it) (fst (value_ it) - base_ it) (fst (value_ it) - base_ it + snd (value_ it)).

(** ** Block::new_iterator and Block::find *)

(** [EmptyIterator] never moves and is never valid. *)
Inductive BlockIterator :=
  | EmptyIterator (s : Status)
  | BlockIter (it : Iter).

Definition new_iterator (b : Block) : BlockIterator :=
  if b_size b <? 4 then EmptyIterator (corruption "block is too small")
  else if b_num_restarts b =? 0 then EmptyIterator ok
  else BlockIter (Iter_new (b_data b) (b_base b) (b_restart_offset b) (b_num_restarts b)).

Definition iter_valid (i : BlockIterator) : bool :=
  match i with EmptyIterator _ => false | BlockIter it => valid it end.
Definition iter_status (i : BlockIterator) : Status :=
  match i with EmptyIterator s => s | BlockIter it => status_ it end.

Definition restart_point (b : Block) (index : Z) : option Z :=
  decode_fixed32 (drop (Z.to_nat (b_restart_offset b + index * 4)) (b_data b)).

Definition bad_entry {A} (what : string) : Status + A :=
  inl (corruption ("bad block entry: " +:+ what)%string).

Fixpoint find_restart (fuel : nat) (b : Block) (target : bytes) (left right : Z) :
    option (Status + Z) :=
  match fuel with
  | O => None
  | S fuel' =>
      if left <? right then
        let mid := u32 (left + right + 1) / 2 in
        region_offset ← restart_point b mid;
        if b_restart_offset b <=? region_offset
        then Some (bad_entry "restart point lies outside the entry region")
        else
          view ← sub_view (b_data b) region_offset (b_restart_offset b);
          match decode_entry view with
          | None => Some (bad_entry "restart point does not begin a key")
          | Some (shared, non_shared, value_length, p) =>
              if negb (shared =? 0)
              then Some (bad_entry "restart point does not begin a key")
              else if non_shared <? Z.of_nat (min_key_length comparator_)
              then Some (bad_entry "restart key is too short for this comparator")
              else match compare comparator_ (take (Z.to_nat non_shared) p) target with
                   | Lt => find_restart fuel' b target mid right
                   | _ => find_restart fuel' b target left (mid - 1)
                   end
          end
      else Some (inr left)
  end.

(** [while (p < limit)]: [p] as an offset. *)
Fixpoint find_walk (fuel : nat) (b : Block) (target : bytes) (p : Z) (key : bytes) :
    option (Status + option (bytes * bytes)) :=
  match fuel with
  | O => None
  | S fuel' =>
      if p <? b_restart_offset b then
        view ← sub_view (b_data b) p (b_restart_offset b);
        match decode_entry view with
        | None => Some (bad_entry "entry runs past the end of the block")
        | Some (shared, non_shared, value_length, rest) =>
            if size key <? shared
            then Some (bad_entry "shared prefix longer than the previous key")
            else
              let key := take (Z.to_nat shared) key ++ take (Z.to_nat non_shared) rest in
              if (length key <? min_key_length comparator_)%nat
              then Some (bad_entry "key is too short for this comparator")
              else
                let p := b_restart_offset b - size rest + non_shared in
                match compare comparator_ key target with
                | Lt => find_walk fuel' b target (p + value_length) key
                | _ =>
                    value ← sub_view (b_data b) p (p + value_length);
                    Some (inr (Some (key, value)))
                end
        end
      else Some (inr None)
  end.

(** The status on failure, or whether and what was found. *)
Definition find (b : Block) (target : bytes) : option (Status + option (bytes * bytes)) :=
  if b_size b <? 4 then Some (inl (corruption "block is too small"))
  else if b_num_restarts b =? 0 then Some (inr None)
  else
    found ← find_restart (S (Z.to_nat (b_num_restarts b - 1))) b target 0 (b_num_restarts b - 1);
    match found with
    | inl s => Some (inl s)
    | inr index =>
        start ← restart_point b index;
        if b_restart_offset b <? start
        then Some (bad_entry "restart point lies outside the entry region")
        else find_walk (S (S (Z.to_nat (b_restart_offset b)))) b target start []
    end.
End Iter.

(** * Arbitrary bytes: bounds and termination *)

Lemma sub_view_Some data from to :
  0 <= from <= to -> to <= size data ->
  sub_view data from to = Some (take (Z.to_nat (to - from)) (drop (Z.to_nat from) data)).
Proof.
  intros [] ?. unfold sub_view. by rewrite !(proj2 (Z.leb_le _ _)) by done.
Qed.
Lemma sub_view_size data from to v : sub_view data from to = Some v -> size v = to - from.
Proof.
  unfold sub_view. case_if; [|done]. intros [= <-]. b2p. unfold size in *.
  rewrite length_take, length_drop. lia.
Qed.

Lemma decode_fixed32_Some l : (4 <= length l)%nat -> is_Some (decode_fixed32 l).
Proof. intros. rewrite decode_fixed32_spec. case_decide; [done|lia]. Qed.
Lemma decode_fixed32_range l v : decode_fixed32 l = Some v -> 0 <= v < 2 ^ 32.
Proof.
  rewrite decode_fixed32_spec. case_decide; [|done]. intros [= <-].
  pose proof (le_value_range (take 4 l)) as R.
  rewrite length_take, Nat.min_l in R by done. exact R.
Qed.

Lemma get_varint32_consumes input v rest :
  get_varint32 input = Some (v, rest) -> 0 <= v < 2 ^ 32 /\ size rest + 1 <= size input.
Proof.
  intros H. split; [by eapply get_varint32_range|].
  apply get_varint_loop_consumes in H as (used & -> & ?). rewrite size_app. unfold size. lia.
Qed.

(** A decoded header is at least three bytes, and what it claims is there. *)
Lemma decode_entry_bounds view sh ns vl p :
  decode_entry view = Some (sh, ns, vl, p) ->
  0 <= sh < 2 ^ 32 /\ 0 <= ns /\ 0 <= vl /\ size p + 3 <= size view /\ ns + vl <= size p.
Proof.
  unfold decode_entry. case_if; [done|].
  destruct view as [|b0 [|b1 [|b2 rest]]]; try done.
  pose proof (byte_to_Z_range b0). pose proof (byte_to_Z_range b1). pose proof (byte_to_Z_range b2).
  case_if.
  - cbn [mbind option_bind]. case_if; [done|]. intros [= <- <- <- <-]. b2p.
    unfold size in *. simpl length in *. lia.
  - destruct (get_varint32 _) as [[a i1]|] eqn:E1; [|done]. cbn [mbind option_bind].
    destruct (get_varint32 i1) as [[c i2]|] eqn:E2; [|done]. cbn [mbind option_bind].
    destruct (get_varint32 i2) as [[d i3]|] eqn:E3; [|done]. cbn [mbind option_bind].
    case_if; [done|]. intros [= <- <- <- <-]. b2p.
    apply get_varint32_consumes in E1, E2, E3. lia.
Qed.

Section Safety.
Context (cmp : Comparator).

Definition frame (it it' : Iter) : Prop :=
  data_ it' = data_ it /\ base_ it' = base_ it /\ restart_offset_ it' = restart_offset_ it /\
  num_restarts_ it' = num_restarts_ it.

(** What holds between the steps of an operation... *)
Record iter_safe (it : Iter) : Prop := {
  safe_size : size (data_ it) < 2 ^ 32;
  safe_region : restart_offset_ it + 4 * (num_restarts_ it + 1) = size (data_ it);
  safe_offset : 0 <= restart_offset_ it;
  safe_restarts : 1 <= num_restarts_ it;
  safe_index : 0 <= restart_index_ it <= num_restarts_ it;
  safe_value : value_ it = (0, 0) \/
    (0 <= snd (value_ it) /\ base_ it <= fst (value_ it) /\
     fst (value_ it) + snd (value_ it) <= base_ it + restart_offset_ it)
}.
(** ...and between operations. *)
Record iter_ok (it : Iter) : Prop := {
  ok_safe : iter_safe it;
  ok_current : 0 <= current_ it <= restart_offset_ it;
  ok_key : valid it = true -> readable cmp (key_ it);
  ok_value : valid it = true -> is_Some (value it)
}.

Lemma frame_trans a b c : frame a b -> frame b c -> frame a c.
Proof. unfold frame. intros (?&?&?&?) (?&?&?&?). by split_and!; etrans. Qed.

Lemma restart_point_safe it i :
  iter_safe it -> 0 <= i <= num_restarts_ it ->
  exists v, get_restart_point it i = Some v /\ 0 <= v < 2 ^ 32.
Proof.
  intros S Hi. destruct S. unfold get_restart_point, size in *.
  destruct (decode_fixed32_Some (drop (Z.to_nat (restart_offset_ it + i * 4)) (data_ it)))
    as [v Hv]; [rewrite length_drop; lia|].
  exists v. split; [done|]. by eapply decode_fixed32_range.
Qed.

Lemma corrupted_ok it what :
  iter_safe it -> iter_ok (corrupted it what) /\ frame it (corrupted it what) /\
    valid (corrupted it what) = false.
Proof.
  intros []. assert (valid (corrupted it what) = false) as Hv by (apply Z.ltb_irrefl).
  split_and!; [|done|done]. constructor; [|cbn; lia|by rewrite Hv..].
  constructor; cbn; try done; [lia|by left].
Qed.

Lemma advance_restart_safe fuel it ri :
  iter_safe it -> 0 <= ri <= num_restarts_ it -> num_restarts_ it - ri < Z.of_nat fuel ->
  exists ri', advance_restart fuel it ri = Some ri' /\ ri <= ri' <= num_restarts_ it.
Proof.
  intros S. revert ri. induction fuel as [|fuel IH]; intros ri Hri Hf; [lia|].
  cbn [advance_restart]. pose proof S as [].
  rewrite u32_small by lia. destruct (Z.ltb_spec (ri + 1) (num_restarts_ it)).
  - destruct (restart_point_safe it (ri + 1) S) as (v & -> & _); [lia|]. cbn [mbind option_bind].
    case_if; [|exists ri; lia || (split; [done|lia])].
    destruct (IH (ri + 1)) as (ri' & -> & ?); [lia|lia|]. exists ri'. split; [done|lia].
  - exists ri. split; [done|lia].
Qed.

Lemma next_entry_offset_range it : 0 <= next_entry_offset it < 2 ^ 32.
Proof. apply u32_range. Qed.

Lemma next_entry_offset_in it off len :
  value_ it = (base_ it + off, len) -> 0 <= off + len < 2 ^ 32 -> next_entry_offset it = off + len.
Proof.
  intros E ?. unfold next_entry_offset. rewrite E. cbn [fst snd].
  rewrite u32_small; lia.
Qed.

(** [parse_next_entry] stays inside the block, whatever is in it, and moves
    forward when it succeeds. *)
Lemma parse_next_entry_safe it :
  iter_safe it ->
  exists more it', parse_next_entry cmp it = Some (more, it') /\ iter_ok it' /\ frame it it' /\
    valid it' = more /\
    (more = true -> next_entry_offset it < restart_offset_ it /\
      current_ it' = next_entry_offset it /\
      next_entry_offset it + 3 <= next_entry_offset it' <= restart_offset_ it').
Proof.
  intros S. pose proof (next_entry_offset_range it) as Hn.
  assert (forall c, iter_safe (move it c (restart_index_ it))) as Sm.
  { intros c. destruct S. by constructor. }
  unfold parse_next_entry.
  set (it1 := move it (next_entry_offset it) (restart_index_ it)).
  specialize (Sm (next_entry_offset it)). fold it1 in Sm. pose proof S as [].
  change (restart_offset_ it1) with (restart_offset_ it) in *.
  change (current_ it1) with (next_entry_offset it) in *.
  assert (forall what, exists more it', Some (false, corrupted it1 what) = Some (more, it') /\
    iter_ok it' /\ frame it it' /\ valid it' = more /\
    (more = true -> next_entry_offset it < restart_offset_ it /\
      current_ it' = next_entry_offset it /\
      next_entry_offset it + 3 <= next_entry_offset it' <= restart_offset_ it')) as Hbad.
  { intros what. destruct (corrupted_ok it1 what Sm) as (? & ? & ?).
    eexists _, _. split; [done|]. by split_and!. }
  destruct (Z.leb_spec (restart_offset_ it) (next_entry_offset it)) as [Hend|Hin].
  { eexists _, _. split; [done|].
    assert (valid (move it1 (restart_offset_ it) (num_restarts_ it1)) = false) as Hv
      by (apply Z.ltb_irrefl).
    split_and!; try done. constructor; [|cbn; lia|by rewrite Hv..]. constructor; try done. cbn. lia. }
  change (data_ it1) with (data_ it). rewrite sub_view_Some by (cbn in *; lia).
  cbn [mbind option_bind].
  set (view := take _ _). assert (size view = restart_offset_ it - next_entry_offset it) as Ev.
  { eapply sub_view_size. apply sub_view_Some; cbn in *; lia. }
  destruct (decode_entry view) as [[[[sh ns] vl] p]|] eqn:Ed; [|apply Hbad].
  apply decode_entry_bounds in Ed. case_if; [apply Hbad|]. b2p. case_if; [apply Hbad|]. b2p.
  set (key := take (Z.to_nat sh) _ ++ _) in *.
  set (it2 := mkIter _ _ _ _ _ _ _ _ _).
  assert (iter_safe it2) as S2.
  { constructor; try done. right. cbn. pose proof (size_nonneg p). lia. }
  destruct (advance_restart_safe (Datatypes.S (Z.to_nat (num_restarts_ it2))) it2 (restart_index_ it2) S2)
    as (ri & -> & Hri); [apply S2|cbn in *; lia|].
  cbn [mbind option_bind]. eexists _, _. split; [done|].
  assert (next_entry_offset (move it2 (current_ it2) ri) =
    restart_offset_ it - size p + ns + vl) as En.
  { change (next_entry_offset it2 = restart_offset_ it - size p + ns + vl).
    erewrite next_entry_offset_in; [reflexivity| |].
    - cbn. f_equal. lia.
    - cbn in *. pose proof (size_nonneg p). lia. }
  assert (valid (move it2 (current_ it2) ri) = true) as Hv.
  { apply Z.ltb_lt. done. }
  split_and!; try done; [|intros _; rewrite En; cbn; lia].
  constructor; [|cbn; lia|by intros|].
  - destruct S2. constructor; try done. cbn in *. lia.
  - intros _. unfold value. case_if; [done|]. cbn in *.
    rewrite sub_view_Some; [done|lia|]. pose proof (size_nonneg p). lia.
Qed.

Lemma seek_to_restart_point_safe it i :
  iter_safe it -> 0 <= i <= num_restarts_ it ->
  exists it', seek_to_restart_point it i = Some it' /\ iter_safe it' /\ frame it it'.
Proof.
  intros S Hi. unfold seek_to_restart_point.
  set (it1 := mkIter _ _ _ _ _ _ _ _ _). assert (iter_safe it1) as S1 by (destruct S; by constructor).
  destruct (restart_point_safe it1 i S1) as (v & -> & Hv); [done|]. cbn [mbind option_bind].
  case_if; eexists; (split; [done|]).
  - destruct (corrupted_ok it1 "restart point lies outside the entry region" S1) as ([] & ? & _).
    by split.
  - split; [|done]. b2p. destruct S1. constructor; try done. right. cbn in *. lia.
Qed.

Lemma walk_below_safe fuel it bound :
  iter_safe it -> restart_offset_ it - next_entry_offset it < Z.of_nat fuel -> (1 <= fuel)%nat ->
  exists it', walk_below cmp fuel it bound = Some it' /\ iter_ok it' /\ frame it it'.
Proof.
  revert it. induction fuel as [|fuel IH]; intros it S Hf H1; [lia|].
  cbn [walk_below].
  destruct (parse_next_entry_safe it S) as (more & it1 & -> & O1 & F1 & _ & Hm).
  cbn [mbind option_bind]. destruct more; [|by exists it1]. cbn [andb].
  case_if; [|by exists it1]. destruct Hm as (? & ? & ?); [done|]. destruct F1 as (?&?&Fo&?).
  destruct (IH it1) as (it2 & -> & ? & ?); [apply O1|rewrite Fo in *; lia|rewrite Fo in *; lia|].
  exists it2. split_and!; try done. eapply frame_trans; [|done]. done.
Qed.

Lemma seek_walk_safe fuel it target :
  iter_safe it -> restart_offset_ it - next_entry_offset it < Z.of_nat fuel -> (1 <= fuel)%nat ->
  exists it', seek_walk cmp fuel it target = Some it' /\ iter_ok it' /\ frame it it'.
Proof.
  revert it. induction fuel as [|fuel IH]; intros it S Hf H1; [lia|].
  cbn [seek_walk].
  destruct (parse_next_entry_safe it S) as (more & it1 & -> & O1 & F1 & _ & Hm).
  cbn [mbind option_bind]. destruct more; [|by exists it1]. cbn [negb].
  destruct (compare cmp (key_ it1) target); try (by exists it1).
  destruct Hm as (? & ? & ?); [done|]. destruct F1 as (?&?&Fo&?).
  destruct (IH it1) as (it2 & -> & ? & ?); [apply O1|rewrite Fo in *; lia|rewrite Fo in *; lia|].
  exists it2. split_and!; try done. eapply frame_trans; [|done]. done.
Qed.

Lemma walk_fuel_enough it :
  iter_safe it -> restart_offset_ it - next_entry_offset it < Z.of_nat (walk_fuel it) /\ (1 <= walk_fuel it)%nat.
Proof.
  intros []. pose proof (next_entry_offset_range it). unfold walk_fuel. lia.
Qed.

Lemma prev_restart_safe fuel it original ri :
  iter_safe it -> 0 <= ri <= num_restarts_ it -> ri < Z.of_nat fuel ->
  exists r, prev_restart fuel it original ri = Some r /\
    (forall i, r = Some i -> 0 <= i <= num_restarts_ it).
Proof.
  intros S. revert ri. induction fuel as [|fuel IH]; intros ri Hri Hf; [lia|].
  cbn [prev_restart]. destruct (restart_point_safe it ri S) as (v & -> & _); [done|].
  cbn [mbind option_bind]. case_if.
  - case_if; b2p; [by exists None|]. apply IH; lia.
  - exists (Some ri). split; [done|]. by intros ? [= <-].
Qed.

Lemma mid_bounds left right :
  0 <= left < right -> right < 2 ^ 31 ->
  left < u32 (left + right + 1) / 2 <= right.
Proof. intros. rewrite u32_small by lia. zmod. Qed.

Lemma seek_restart_safe fuel it target left right :
  iter_safe it -> 0 <= left <= right -> right < num_restarts_ it ->
  right - left < Z.of_nat fuel ->
  exists r, seek_restart cmp fuel it target left right = Some r /\
    (forall i, r = inr i -> 0 <= i < num_restarts_ it).
Proof.
  intros S. revert left right. induction fuel as [|fuel IH]; intros left right Hl Hr Hf; [lia|].
  cbn [seek_restart]. pose proof S as [].
  destruct (Z.ltb_spec left right).
  2: { exists (inr left). split; [done|]. intros i [= <-]. lia. }
  pose proof (mid_bounds left right ltac:(lia) ltac:(lia)) as Hm.
  set (mid := u32 (left + right + 1) / 2) in *.
  destruct (restart_point_safe it mid S) as (v & -> & Hv); [lia|]. cbn [mbind option_bind].
  case_if; [by eexists|]. b2p. rewrite sub_view_Some by lia. cbn [mbind option_bind].
  destruct (decode_entry _) as [[[[sh ns] vl] p]|]; [|by eexists].
  case_if; [by eexists|]. case_if; [by eexists|].
  destruct (compare cmp _ target); apply IH; lia.
Qed.

Definition op_safe (op : Iter -> option Iter) : Prop :=
  forall it, iter_ok it -> exists it', op it = Some it' /\ iter_ok it' /\ frame it it'.

Lemma next_safe : op_safe (next cmp).
Proof.
  intros it [S]. unfold next. destruct (parse_next_entry_safe it S) as (m & it' & -> & ? & ? & _).
  by exists it'.
Qed.

Lemma seek_to_first_safe : op_safe (seek_to_first cmp).
Proof.
  intros it [S]. unfold seek_to_first.
  destruct (seek_to_restart_point_safe it 0 S) as (it1 & -> & S1 & F1); [destruct S; lia|].
  cbn [mbind option_bind].
  destruct (parse_next_entry_safe it1 S1) as (m & it' & -> & ? & ? & _).
  exists it'. split_and!; try done. by eapply frame_trans.
Qed.

Lemma seek_to_last_safe : op_safe (seek_to_last cmp).
Proof.
  intros it [S]. unfold seek_to_last. pose proof S as []. case_if; b2p; [lia|].
  destruct (seek_to_restart_point_safe it (num_restarts_ it - 1) S) as (it1 & -> & S1 & F1); [lia|].
  cbn [mbind option_bind]. destruct (walk_fuel_enough it1 S1).
  destruct (walk_below_safe (walk_fuel it1) it1 (restart_offset_ it1) S1) as (it' & E & ? & ?); [done..|].
  exists it'. split_and!; try done. by eapply frame_trans.
Qed.

Lemma prev_safe : op_safe (prev cmp).
Proof.
  intros it [S]. unfold prev. pose proof S as [].
  destruct (prev_restart_safe (Datatypes.S (Z.to_nat (restart_index_ it))) it (current_ it)
    (restart_index_ it) S) as (r & -> & Hr); [lia|lia|]. cbn [mbind option_bind].
  destruct r as [i|].
  - destruct (seek_to_restart_point_safe it i S (Hr i eq_refl)) as (it1 & -> & S1 & F1).
    cbn [mbind option_bind]. destruct (walk_fuel_enough it1 S1).
    destruct (walk_below_safe (walk_fuel it1) it1 (current_ it) S1) as (it' & E & ? & ?); [done..|].
    exists it'. split_and!; try done. by eapply frame_trans.
  - eexists. split; [done|]. split; [|done].
    assert (valid (move it (restart_offset_ it) (num_restarts_ it)) = false) as Hv
      by (apply Z.ltb_irrefl).
    constructor; [|cbn; lia|by rewrite Hv..]. constructor; try done. cbn. lia.
Qed.

Lemma seek_safe target : op_safe (λ it, seek cmp it target).
Proof.
  intros it [S]. unfold seek. pose proof S as []. destruct (Z.eqb_spec (num_restarts_ it) 0); [lia|].
  destruct (seek_restart_safe (Datatypes.S (Z.to_nat (num_restarts_ it - 1))) it target 0
    (num_restarts_ it - 1) S) as (r & -> & Hr); [lia|lia|lia|].
  cbn [mbind option_bind]. destruct r as [what|i].
  - destruct (corrupted_ok it what S) as (? & ? & _). by eexists.
  - specialize (Hr i eq_refl).
    destruct (seek_to_restart_point_safe it i S) as (it1 & -> & S1 & F1); [lia|].
    cbn [mbind option_bind]. destruct (walk_fuel_enough it1 S1).
    destruct (seek_walk_safe (walk_fuel it1) it1 target S1) as (it' & E & ? & ?); [done..|].
    exists it'. split_and!; try done. by eapply frame_trans.
Qed.

Lemma new_iterator_ok base data :
  size data < 2 ^ 32 ->
  exists b, Block_new base data = Some b /\
    match new_iterator b with
    | EmptyIterator _ => True
    | BlockIter it => iter_ok it
    end.
Proof.
  intros Hs. unfold Block_new, size in *. case_if; b2p; [by eexists|].
  set (sz := Z.of_nat (length data)) in *.
  destruct (decode_fixed32_Some (drop (Z.to_nat (sz - 4)) data)) as [n Hn];
    [rewrite length_drop; lia|].
  rewrite Hn. apply decode_fixed32_range in Hn. cbn [mbind option_bind].
  case_if; [by eexists|]. b2p. eexists. split; [done|].
  unfold new_iterator; cbn [b_size b_num_restarts].
  case_if; [done|]. case_if; [done|]. b2p.
  rewrite u32_small in * by zmod.
  assert (4 * (n + 1) <= sz) by zmod.
  unfold size_sub. rewrite !(u32_small (1 + n)) by lia.
  destruct (Z.ltb_spec sz ((1 + n) * 4)); [lia|].
  rewrite u32_small by lia. unfold Iter_new; cbn [b_restart_offset b_num_restarts b_data b_base].
  set (ro := sz - (1 + n) * 4).
  assert (valid (mkIter data base ro n ro n [] (0, 0) ok) = false) as Hv by (apply Z.ltb_irrefl).
  constructor; [|cbn; lia|by rewrite Hv..].
  constructor; cbn; unfold size; try lia. by left.
Qed.
End Safety.

(** * Blocks a builder wrote *)

(** The fast path of [decode_entry] decodes what the varint path would. *)
Lemma get_varint32_byte b rest :
  byte_to_Z b < 128 -> get_varint32 (b :: rest) = Some (byte_to_Z b, rest).
Proof.
  intros Hb. pose proof (byte_to_Z_range b).
  pose proof (get_varint32_loop (byte_to_Z b) rest ltac:(lia)) as E.
  rewrite varint_loop_S in E. rewrite (proj2 (Z.ltb_lt _ _)) in E by done.
  by rewrite Z_to_byte_to_Z in E.
Qed.

Lemma lor_small a b : 0 <= a -> 0 <= b -> a .| b < 128 -> a < 128 /\ b < 128.
Proof.
  intros Ha Hb Hlt.
  assert (forall x y, 0 <= x -> 0 <= y -> x <= x .| y) as Hle.
  { intros x y Hx Hy.
    replace (x .| y) with (x .| Z.ldiff y x).
    - rewrite <- Z.lxor_lor by (apply Z.bits_inj'; intros i _;
        rewrite Z.land_spec, Z.ldiff_spec, Z.bits_0; by destruct (Z.testbit x i), (Z.testbit y i)).
      rewrite <- Z.add_nocarry_lxor by (apply Z.bits_inj'; intros i _;
        rewrite Z.land_spec, Z.ldiff_spec, Z.bits_0; by destruct (Z.testbit x i), (Z.testbit y i)).
      assert (0 <= Z.ldiff y x) by (apply Z.ldiff_nonneg; lia). lia.
    - apply Z.bits_inj'. intros i _. rewrite !Z.lor_spec, Z.ldiff_spec.
      by destruct (Z.testbit x i), (Z.testbit y i). }
  pose proof (Hle a b Ha Hb). pose proof (Hle b a Hb Ha). rewrite (Z.lor_comm b a) in *. lia.
Qed.

Definition decode_slow (view : bytes) : option (Z * Z * Z * bytes) :=
  '(shared, input) ← get_varint32 view;
  '(non_shared, input) ← get_varint32 input;
  '(value_length, p) ← get_varint32 input;
  if size p <? non_shared + value_length then None
  else Some (shared, non_shared, value_length, p).

Lemma decode_entry_slow view : 3 <= size view -> decode_entry view = decode_slow view.
Proof.
  intros Hs. unfold decode_entry, decode_slow. rewrite (proj2 (Z.ltb_ge _ _)) by done.
  destruct view as [|b0 [|b1 [|b2 rest]]]; try (unfold size in Hs; simpl in Hs; lia).
  pose proof (byte_to_Z_range b0). pose proof (byte_to_Z_range b1). pose proof (byte_to_Z_range b2).
  case_if; b2p.
  - apply lor_small in Heqb as [H01 ?]; [|apply Z.lor_nonneg; lia|lia].
    apply lor_small in H01 as [? ?]; [|lia|lia].
    rewrite (get_varint32_byte b0) by done. cbn [mbind option_bind].
    rewrite (get_varint32_byte b1) by done. cbn [mbind option_bind].
    by rewrite (get_varint32_byte b2).
  - destruct (get_varint32 _) as [[a i1]|]; [|done]. cbn [mbind option_bind].
    destruct (get_varint32 i1) as [[c i2]|]; [|done]. cbn [mbind option_bind].
    by destruct (get_varint32 i2) as [[d i3]|].
Qed.

Lemma decode_entry_enc e more :
  (e_shared e <= length (e_key e))%nat -> size (e_key e) < 2 ^ 32 -> size (e_value e) < 2 ^ 32 ->
  decode_entry (enc e ++ more) =
    Some (Z.of_nat (e_shared e), Z.of_nat (length (e_key e) - e_shared e), size (e_value e),
          drop (e_shared e) (e_key e) ++ e_value e ++ more).
Proof.
  intros Hsh Hk Hv.
  rewrite decode_entry_slow by (rewrite size_app; pose proof (size_enc_pos e);
    pose proof (size_nonneg more); lia).
  unfold decode_slow, enc, put_entry, put_varint32. rewrite <- !app_assoc, app_nil_l.
  pose proof (size_nonneg (e_value e)). unfold size in Hk.
  rewrite !u32_small by lia.
  rewrite get_varint32_loop by lia. cbn [mbind option_bind].
  rewrite get_varint32_loop by lia. cbn [mbind option_bind].
  rewrite get_varint32_loop by lia. cbn [mbind option_bind].
  case_if; [|done]. b2p. rewrite !size_app in *. unfold size in *. rewrite length_drop in *. lia.
Qed.

Section Layout.
Context (cmp : Comparator) `{!ComparatorLaws cmp}.
Context (es : list Entry) (ridx : list nat) (base : Z).
Context (L : layout es ridx).
Context (Hsize : size (block_bytes es ridx) < 2 ^ 32).
Context (Hread : forall i e, es !! i = Some e -> readable cmp (e_key e)).

Definition entries : list (bytes * bytes) := kv <$> es.
Definition region_end : Z := size (encs es).

Lemma region_small : region_end + 4 * Z.of_nat (length ridx) + 4 < 2 ^ 32.
Proof. unfold region_end. pose proof (size_block_bytes es ridx). lia. Qed.

Lemma off_range i : (i <= length es)%nat -> 0 <= off es i <= region_end.
Proof. intros. split; [apply off_nonneg|by apply off_total]. Qed.

Lemma ridx_pos : (1 <= length ridx)%nat.
Proof. pose proof (lookup_lt_Some _ _ _ (layout_first _ _ L)). lia. Qed.

Lemma ridx_range j r : ridx !! j = Some r -> (r <= length es)%nat.
Proof.
  intros Hj%list_elem_of_lookup_2. destruct (layout_range _ _ L r Hj); lia.
Qed.

Lemma ridx_lt j j' r r' : ridx !! j = Some r -> ridx !! j' = Some r' -> (j < j')%nat -> (r < r')%nat.
Proof. intros. eapply (StronglySorted_lookup lt ridx j j'); try done. apply L. Qed.

Lemma entry_sizes i e :
  es !! i = Some e ->
  (e_shared e <= length (e_key e))%nat /\ size (e_key e) < 2 ^ 32 /\ size (e_value e) < 2 ^ 32.
Proof.
  intros Hi. pose proof (chain_at _ _ _ (layout_chain _ _ L) Hi) as (_ & Hs & _).
  pose proof (chain_key_bound _ _ _ _ (layout_chain _ _ L) Hi) as Hk. change (size []) with 0 in Hk.
  pose proof (lookup_lt_Some _ _ _ Hi). pose proof (off_range (S i) ltac:(lia)).
  pose proof (off_S _ _ _ Hi) as Ho. pose proof (off_range i ltac:(lia)). pose proof region_small.
  split_and!; [done|lia|].
  pose proof (size_enc e). pose proof (varint_loop_pos 9 (u32 (Z.of_nat (e_shared e)))).
  pose proof (varint_loop_pos 9 (u32 (Z.of_nat (length (e_key e) - e_shared e)))).
  pose proof (varint_loop_pos 9 (u32 (size (e_value e)))). lia.
Qed.

Lemma region_split i e :
  es !! i = Some e -> region_end = off es (S i) + size (encs (drop (S i) es)).
Proof.
  intros Hi. rewrite (off_S _ _ _ Hi). unfold region_end, off.
  rewrite (encs_split _ _ _ Hi), !size_app. lia.
Qed.

Lemma view_at i e :
  es !! i = Some e ->
  sub_view (block_bytes es ridx) (off es i) region_end = Some (enc e ++ encs (drop (S i) es)).
Proof.
  intros Hi. pose proof (lookup_lt_Some _ _ _ Hi). pose proof (off_range i ltac:(lia)).
  rewrite sub_view_Some; [|lia|rewrite size_block_bytes; fold region_end; lia]. f_equal.
  unfold block_bytes. rewrite (encs_split _ _ _ Hi), <- !app_assoc. unfold off, size.
  rewrite Nat2Z.id, drop_app_length, app_assoc. apply take_app_length'.
  unfold region_end, size. rewrite (encs_split _ _ _ Hi), !length_app. lia.
Qed.

Record on_block (it : Iter) : Prop := {
  ob_data : data_ it = block_bytes es ridx;
  ob_base : base_ it = base;
  ob_end : restart_offset_ it = region_end;
  ob_restarts : num_restarts_ it = Z.of_nat (length ridx);
  ob_status : status_ it = ok
}.

Lemma restart_at it j r :
  on_block it -> ridx !! j = Some r -> get_restart_point it (Z.of_nat j) = Some (off es r).
Proof.
  intros [] Hj. unfold get_restart_point. rewrite ob_data0, ob_end0.
  unfold block_bytes, region_end, size.
  replace (Z.to_nat (Z.of_nat (length (encs es)) + Z.of_nat j * 4))
    with (length (encs es) + 4 * j)%nat by lia.
  rewrite <- drop_drop, drop_app_length, (decode_words _ _ _ (off es r)).
  - pose proof (off_range r (ridx_range _ _ Hj)). pose proof region_small. by rewrite u32_small by lia.
  - by rewrite list_lookup_fmap, Hj.
Qed.

(** Restart region [j] holds entry [i]. *)
Definition in_region (j i : nat) : Prop :=
  (exists r, ridx !! j = Some r /\ (r <= i)%nat) /\
  forall r, ridx !! S j = Some r -> (i < r)%nat.

(** About to decode entry [i]. *)
Record before (it : Iter) (i : nat) : Prop := {
  bf_block : on_block it;
  bf_bound : (i <= length es)%nat;
  bf_offset : next_entry_offset it = off es i;
  bf_chain : forall e, es !! i = Some e -> chains (key_ it) e;
  bf_restart : exists j r, restart_index_ it = Z.of_nat j /\ ridx !! j = Some r /\ (r <= i)%nat
}.

(** Standing on entry [i]. *)
Record at_entry (it : Iter) (i : nat) : Prop := {
  at_before : before it (S i);
  at_current : current_ it = off es i;
  at_found : exists e, es !! i = Some e /\ key_ it = e_key e /\ value it = Some (e_value e);
  at_region : exists j, restart_index_ it = Z.of_nat j /\ in_region j i
}.

Record at_end (it : Iter) : Prop := {
  ae_block : on_block it;
  ae_current : current_ it = region_end
}.

Lemma advance_restart_at fuel it j r i :
  on_block it -> next_entry_offset it = off es (S i) -> (i < length es)%nat ->
  ridx !! j = Some r -> (r <= i)%nat -> (length ridx - j < fuel)%nat ->
  exists j', advance_restart fuel it (Z.of_nat j) = Some (Z.of_nat j') /\ in_region j' i.
Proof.
  intros OB Hn Hi. pose proof OB as []. pose proof region_small. pose proof (size_nonneg (encs es)).
  revert j r. induction fuel as [|fuel IH]; intros j r Hj Hr Hf; [lia|].
  pose proof (lookup_lt_Some _ _ _ Hj).
  cbn [advance_restart]. rewrite ob_restarts0, Hn.
  rewrite u32_small by (unfold region_end in *; lia).
  replace (Z.of_nat j + 1) with (Z.of_nat (S j)) by lia.
  destruct (Z.ltb_spec (Z.of_nat (S j)) (Z.of_nat (length ridx))).
  - destruct (lookup_lt_is_Some_2 ridx (S j)) as [r' Hr']; [lia|].
    rewrite (restart_at it (S j) r' OB Hr'). cbn [mbind option_bind].
    pose proof (ridx_range _ _ Hr').
    destruct (Z.ltb_spec (off es r') (off es (S i))) as [Hlt|Hge].
    + apply off_lt_iff in Hlt; [|lia|lia]. apply (IH (S j) r'); [done|lia|lia].
    + exists j. split; [done|]. split; [by exists r|]. intros r'' Hr''.
      assert (r'' = r') as -> by congruence.
      destruct (decide (i < r')%nat); [done|]. pose proof (off_lt es r' (S i)). lia.
  - exists j. split; [done|]. split; [by exists r|]. intros r'' Hr''%lookup_lt_Some. lia.
Qed.

Lemma parse_entry it i e :
  before it i -> es !! i = Some e ->
  exists it', parse_next_entry cmp it = Some (true, it') /\ at_entry it' i.
Proof.
  intros B Hi. pose proof (lookup_lt_Some _ _ _ Hi) as Hlt.
  destruct B as [OB Hb Hoff Hch (j & r & Hj & Hr & Hri)]. pose proof OB as [].
  destruct (entry_sizes _ _ Hi) as (Hs1 & Hs2 & Hs3). pose proof (Hch _ Hi) as (Hc1 & _ & Hc2).
  pose proof (off_lt es i (length es) Hlt ltac:(lia)) as Hin. rewrite off_all in Hin.
  fold region_end in Hin. pose proof region_small. pose proof (off_nonneg es i).
  pose proof (off_S _ _ _ Hi) as HS. pose proof (off_range (S i) ltac:(lia)).
  unfold parse_next_entry. rewrite Hoff.
  cbn [restart_offset_ current_ move data_ key_ num_restarts_ restart_index_ base_ status_].
  rewrite ob_end0, (proj2 (Z.leb_gt _ _)) by done.
  rewrite ob_data0, (view_at _ _ Hi). cbn [mbind option_bind].
  rewrite decode_entry_enc by done.
  destruct (Z.ltb_spec (size (key_ it)) (Z.of_nat (e_shared e))); [unfold size in *; lia|].
  set (k := take _ _ ++ _).
  assert (k = e_key e) as Ek.
  { unfold k. rewrite !Nat2Z.id, Hc2, take_app_length' by (rewrite length_drop; lia).
    apply take_drop. }
  rewrite Ek. pose proof (Hread _ _ Hi) as Hrd. unfold readable in Hrd.
  destruct (Nat.ltb_spec (length (e_key e)) (min_key_length cmp)); [lia|].
  set (v := (_, size (e_value e))).
  assert (v = (base + (off es (S i) - size (e_value e)), size (e_value e))) as Ev.
  { unfold v. f_equal. pose proof (region_split _ _ Hi) as Hreg.
    rewrite ob_base0, !size_app. unfold size at 1. rewrite length_drop. lia. }
  rewrite Ev.
  set (it1 := mkIter _ _ _ _ _ _ _ _ _).
  pose proof (size_nonneg (e_value e)).
  assert (next_entry_offset it1 = off es (S i)) as En.
  { erewrite next_entry_offset_in; [|cbn; rewrite ob_base0; reflexivity|]; lia. }
  assert (on_block it1) as OB1 by (constructor; done).
  rewrite Hj.
  destruct (advance_restart_at (S (Z.to_nat (num_restarts_ it))) it1 j r i OB1 En Hlt Hr Hri)
    as (j' & -> & Hreg); [rewrite ob_restarts0; lia|].
  cbn [mbind option_bind]. eexists. split; [done|]. constructor.
  - constructor; [by constructor|lia|exact En| |].
    + intros e' He'. pose proof (chain_at _ _ _ (layout_chain _ _ L) He') as Hc.
      cbv iota in Hc. rewrite Hi in Hc. exact Hc.
    + destruct Hreg as [(r' & Hr' & ?) _]. exists j', r'. split_and!; [done|done|lia].
  - done.
  - exists e. split_and!; [done|done|]. unfold value; cbn [value_ move it1 base_ data_ fst snd].
    pose proof (size_enc e) as Hse.
    pose proof (varint_loop_pos 9 (u32 (Z.of_nat (e_shared e)))).
    pose proof (varint_loop_pos 9 (u32 (Z.of_nat (length (e_key e) - e_shared e)))).
    pose proof (varint_loop_pos 9 (u32 (size (e_value e)))).
    case_if; b2p.
    { assert (length (e_value e) = 0%nat) as E0 by (unfold size in *; lia).
      by apply nil_length_inv in E0 as ->. }
    rewrite ob_base0.
    rewrite sub_view_Some; [|lia|rewrite size_block_bytes; fold region_end; lia]. f_equal.
    unfold block_bytes. rewrite (encs_split _ _ _ Hi).
    assert (enc e = take (length (enc e) - length (e_value e)) (enc e) ++ e_value e) as Ee.
    { unfold enc, put_entry. rewrite !app_assoc. set (pre := _ ++ drop _ _).
      rewrite length_app, take_app_length' by lia. done. }
    rewrite Ee, <- !app_assoc, app_assoc.
    rewrite drop_app_length'.
    + apply take_app_length'. unfold size. lia.
    + rewrite length_app, length_take. unfold size, off, size in *. lia.
  - by exists j'.
Qed.

Lemma parse_end it :
  before it (length es) ->
  exists it', parse_next_entry cmp it = Some (false, it') /\ at_end it'.
Proof.
  intros [OB _ Hoff _ _]. pose proof OB as []. unfold parse_next_entry. rewrite Hoff, off_all.
  cbn [restart_offset_ current_ move num_restarts_]. rewrite ob_end0. fold region_end.
  rewrite (proj2 (Z.leb_le _ _)) by done. eexists. split; [done|]. constructor; [|done].
  by constructor.
Qed.

Lemma seek_to_restart_at it j r :
  on_block it -> ridx !! j = Some r ->
  exists it', seek_to_restart_point it (Z.of_nat j) = Some it' /\ before it' r.
Proof.
  intros OB Hj. unfold seek_to_restart_point. pose proof OB as [].
  rewrite (restart_at _ j r); [|by constructor|done]. cbn [mbind option_bind restart_offset_].
  pose proof (ridx_range _ _ Hj) as Hr. pose proof (off_range r Hr). pose proof region_small.
  rewrite ob_end0, (proj2 (Z.ltb_ge _ _)) by lia.
  eexists. split; [done|]. constructor; [by constructor|done| | |].
  - erewrite next_entry_offset_in; [|reflexivity|]; lia.
  - intros e He. assert (e_shared e = 0%nat) as Hs.
    { eapply (layout_alone _ _ L); [|done]. by eapply list_elem_of_lookup_2. }
    unfold chains. rewrite Hs, !take_0. cbn. split_and!; [lia|lia|done].
  - by exists j, r.
Qed.

Definition positioned (it : Iter) (i : nat) : Prop :=
  if (i <? length es)%nat then at_entry it i else at_end it /\ i = length es.

Lemma positioned_block it i : positioned it i -> on_block it.
Proof.
  unfold positioned. case_if; [intros A; apply A|intros [A _]; apply A].
Qed.

Lemma parse_positioned it i :
  before it i -> exists more it', parse_next_entry cmp it = Some (more, it') /\
    more = (i <? length es)%nat /\ positioned it' i.
Proof.
  intros B. pose proof (bf_bound _ _ B). unfold positioned.
  destruct (Nat.ltb_spec i (length es)) as [Hlt|Hge].
  - destruct (lookup_lt_is_Some_2 es i Hlt) as [e He].
    destruct (parse_entry it i e B He) as (it' & -> & A). by eexists _, _.
  - assert (i = length es) as -> by lia.
    destruct (parse_end it B) as (it' & -> & A). by eexists _, _.
Qed.

Lemma next_positioned it i :
  positioned it i -> (i < length es)%nat ->
  exists it', next cmp it = Some it' /\ positioned it' (S i).
Proof.
  unfold positioned at 1. intros P Hi. rewrite (proj2 (Nat.ltb_lt _ _)) in P by done.
  unfold next. destruct (parse_positioned it (S i)) as (m & it' & -> & _ & P'); [apply P|].
  by exists it'.
Qed.

Lemma first_positioned it :
  on_block it -> exists it', seek_to_first cmp it = Some it' /\ positioned it' 0%nat.
Proof.
  intros OB. unfold seek_to_first.
  destruct (seek_to_restart_at it 0 0 OB (layout_first _ _ L)) as (it1 & E & B).
  change 0 with (Z.of_nat 0) at 1. rewrite E. cbn [mbind option_bind].
  destruct (parse_positioned it1 0 B) as (m & it' & -> & _ & P). by exists it'.
Qed.

(** Walking until the next entry would be [b]. *)
Lemma walk_below_at fuel it i b :
  before it i -> (i < b)%nat -> (b <= length es)%nat -> (b - i <= fuel)%nat ->
  exists it', walk_below cmp fuel it (off es b) = Some it' /\ positioned it' (pred b).
Proof.
  revert it i. induction fuel as [|fuel IH]; intros it i B Hib Hb Hf; [lia|].
  cbn [walk_below]. destruct (parse_positioned it i B) as (m & it1 & -> & -> & P).
  cbn [mbind option_bind]. rewrite (proj2 (Nat.ltb_lt _ _)) by lia. cbn [andb].
  unfold positioned in P. rewrite (proj2 (Nat.ltb_lt _ _)) in P by lia.
  pose proof (at_before _ _ P) as B1. rewrite (bf_offset _ _ B1).
  destruct (Z.ltb_spec (off es (S i)) (off es b)) as [Hlt|Hge].
  - apply off_lt_iff in Hlt; [|lia|lia]. apply (IH it1 (S i)); [done|lia|lia|lia].
  - assert (b = S i) as ->.
    { destruct (decide (S i < b)%nat); [|lia]. pose proof (off_lt es (S i) b). lia. }
    exists it1. split; [done|]. cbn [pred]. unfold positioned.
    by rewrite (proj2 (Nat.ltb_lt _ _)) by lia.
Qed.

Lemma length_le_region : Z.of_nat (length es) <= region_end.
Proof.
  unfold region_end. clear. induction es as [|e l IH]; [done|].
  change (e :: l) with ([e] ++ l). rewrite encs_app, size_app, encs_one.
  pose proof (size_enc_pos e). cbn [app length]. lia.
Qed.

Lemma walk_fuel_layout it : on_block it -> (S (length es) <= walk_fuel it)%nat.
Proof.
  intros []. unfold walk_fuel. rewrite ob_end0. pose proof length_le_region. lia.
Qed.

Lemma last_ridx : exists r, ridx !! pred (length ridx) = Some r /\ (es = [] \/ (r < length es)%nat).
Proof.
  pose proof ridx_pos. destruct (lookup_lt_is_Some_2 ridx (pred (length ridx))) as [r Hr]; [lia|].
  exists r. split; [done|]. destruct (layout_range _ _ L r) as [->|]; [|destruct es; auto|by right].
  - by eapply list_elem_of_lookup_2.
  - right. simpl. lia.
Qed.

Lemma last_positioned it :
  on_block it -> exists it', seek_to_last cmp it = Some it' /\ positioned it' (pred (length es)).
Proof.
  intros OB. pose proof OB as []. unfold seek_to_last. rewrite ob_restarts0.
  pose proof ridx_pos. destruct (Z.eqb_spec (Z.of_nat (length ridx)) 0); [lia|].
  destruct last_ridx as (r & Hr & Hcase).
  destruct (seek_to_restart_at it _ r OB Hr) as (it1 & E & B).
  replace (Z.of_nat (length ridx) - 1) with (Z.of_nat (pred (length ridx))) by lia.
  rewrite E. cbn [mbind option_bind]. pose proof (bf_block _ _ B) as OB1.
  rewrite (ob_end _ OB1). pose proof (walk_fuel_layout it1 OB1).
  destruct Hcase as [Hnil|Hlt].
  - pose proof (bf_bound _ _ B) as Hr0. rewrite Hnil in Hr0. cbn in Hr0. assert (r = 0%nat) by lia. subst r.
    unfold walk_fuel. cbn [walk_below].
    destruct (parse_positioned it1 0 B) as (m & it2 & -> & -> & P). cbn [mbind option_bind].
    rewrite Hnil in *. cbn in *. by exists it2.
  - unfold region_end. rewrite <- off_all. apply (walk_below_at _ it1 r); [done|done|lia|lia].
Qed.

Lemma prev_restart_at fuel it i j r :
  on_block it -> (i < length es)%nat -> ridx !! j = Some r -> (r <= i)%nat -> (j < fuel)%nat ->
  (forall r', ridx !! S j = Some r' -> (i < r')%nat) ->
  exists found, prev_restart fuel it (off es i) (Z.of_nat j) = Some found /\
    match found with
    | None => i = 0%nat
    | Some z => exists j' r', z = Z.of_nat j' /\ ridx !! j' = Some r' /\ (r' < i)%nat
    end.
Proof.
  intros OB Hi. revert j r. induction fuel as [|fuel IH]; intros j r Hj Hr Hf Hnext; [lia|].
  cbn [prev_restart]. rewrite (restart_at it j r OB Hj). cbn [mbind option_bind].
  pose proof (ridx_range _ _ Hj).
  destruct (Z.leb_spec (off es i) (off es r)) as [Hle|Hgt].
  - assert (r = i) as ->.
    { destruct (decide (r < i)%nat); [|lia]. pose proof (off_lt es r i). lia. }
    destruct j as [|j].
    + exists None. cbn. split; [done|]. pose proof (layout_first _ _ L). congruence.
    + destruct (Z.eqb_spec (Z.of_nat (S j)) 0); [lia|].
      destruct (lookup_lt_is_Some_2 ridx j) as [r' Hr']; [apply lookup_lt_Some in Hj; lia|].
      replace (Z.of_nat (S j) - 1) with (Z.of_nat j) by lia.
      pose proof (ridx_lt _ _ _ _ Hr' Hj ltac:(lia)).
      clear IH Hnext. destruct fuel as [|fuel]; [lia|]. cbn [prev_restart].
      rewrite (restart_at it j r' OB Hr'). cbn [mbind option_bind].
      pose proof (off_lt es r' i). destruct (Z.leb_spec (off es i) (off es r')); [lia|].
      exists (Some (Z.of_nat j)). split; [done|]. by exists j, r'.
  - apply off_lt_iff in Hgt; [|lia|lia]. exists (Some (Z.of_nat j)). split; [done|]. by exists j, r.
Qed.

Lemma prev_positioned it i :
  positioned it i -> (i < length es)%nat ->
  exists it', prev cmp it = Some it' /\ positioned it' (if i is S j then j else length es).
Proof.
  intros P Hi. pose proof (positioned_block _ _ P) as OB. unfold positioned in P.
  rewrite (proj2 (Nat.ltb_lt _ _)) in P by done.
  destruct (at_region _ _ P) as (j & Hj & (r & Hr & Hri) & Hnext).
  unfold prev. rewrite (at_current _ _ P), Hj.
  destruct (prev_restart_at (S (Z.to_nat (Z.of_nat j))) it i j r) as (found & -> & Hfound);
    [done|done|done|done|lia|done|].
  cbn [mbind option_bind]. destruct found as [z|].
  - destruct Hfound as (j' & r' & -> & Hr' & Hlt).
    destruct (seek_to_restart_at it j' r' OB Hr') as (it1 & -> & B). cbn [mbind option_bind].
    pose proof (walk_fuel_layout it1 (bf_block _ _ B)).
    destruct (walk_below_at (walk_fuel it1) it1 r' i B) as (it2 & -> & P2); [lia|lia|lia|].
    exists it2. split; [done|]. by destruct i; [lia|].
  - subst i. eexists. split; [done|]. unfold positioned. rewrite Nat.ltb_irrefl.
    split; [|done]. destruct OB. constructor; [by constructor|done].
Qed.

(** ** Seeking *)
Context (Hsorted : sorted_by cmp entries).

Lemma entry_lookup i e : es !! i = Some e -> entries !! i = Some (e_key e, e_value e).
Proof. intros Hi. unfold entries. by rewrite list_lookup_fmap, Hi. Qed.
Lemma entry_lookup_inv i k v : entries !! i = Some (k, v) -> exists e, es !! i = Some e /\ e_key e = k /\ e_value e = v.
Proof.
  unfold entries. rewrite list_lookup_fmap. intros (e & He & E)%fmap_Some. injection E as -> ->. eauto.
Qed.

Definition below (target : bytes) (i : nat) : Prop :=
  forall j e, (j < i)%nat -> es !! j = Some e -> key_lt cmp (e_key e) target.

Lemma below_restart target r e : es !! r = Some e -> key_lt cmp (e_key e) target -> below target r.
Proof.
  intros Hr Hlt j e' Hj He'. eapply key_lt_trans; [|done].
  eapply sorted_lookup; [done|done|by apply entry_lookup..].
Qed.

Lemma seek_restart_at fuel it target l r :
  on_block it -> (l <= r)%nat -> (r < length ridx)%nat -> (r - l < fuel)%nat ->
  (forall q, ridx !! l = Some q -> below target q) ->
  exists j q, seek_restart cmp fuel it target (Z.of_nat l) (Z.of_nat r) = Some (inr (Z.of_nat j)) /\
    ridx !! j = Some q /\ below target q.
Proof.
  intros OB. pose proof OB as []. pose proof region_small. pose proof (size_nonneg (encs es)).
  revert l r. induction fuel as [|fuel IH]; intros l r Hlr Hr Hf Hl; [lia|]. cbn [seek_restart].
  destruct (Z.ltb_spec (Z.of_nat l) (Z.of_nat r)).
  2: { assert (l = r) as <- by lia. destruct (lookup_lt_is_Some_2 ridx l) as [q Hq]; [lia|].
       exists l, q. auto. }
  pose proof (mid_bounds (Z.of_nat l) (Z.of_nat r) ltac:(lia)
    ltac:(unfold region_end in *; lia)) as Hm.
  set (mid := u32 (Z.of_nat l + Z.of_nat r + 1) / 2) in *.
  replace mid with (Z.of_nat (Z.to_nat mid)) by lia. set (m := Z.to_nat mid) in *.
  destruct (lookup_lt_is_Some_2 ridx m) as [q Hq]; [lia|].
  rewrite (restart_at it m q OB Hq). cbn [mbind option_bind].
  assert (q < length es)%nat as Hql.
  { destruct (layout_range _ _ L q) as [->|]; [by eapply list_elem_of_lookup_2| |done].
    pose proof (ridx_lt 0 m 0 0 (layout_first _ _ L) Hq). lia. }
  destruct (lookup_lt_is_Some_2 es q Hql) as [e He].
  pose proof (off_lt es q (length es) Hql ltac:(lia)) as Hin. rewrite off_all in Hin.
  fold region_end in Hin. rewrite ob_end0, (proj2 (Z.leb_gt _ _)) by done.
  rewrite ob_data0, (view_at _ _ He). cbn [mbind option_bind].
  destruct (entry_sizes _ _ He) as (? & ? & ?). rewrite decode_entry_enc by done.
  assert (e_shared e = 0%nat) as Hs.
  { eapply (layout_alone _ _ L); [|done]. by eapply list_elem_of_lookup_2. }
  rewrite Hs. cbn [Z.of_nat Z.eqb negb]. rewrite Nat.sub_0_r, Nat2Z.id.
  pose proof (Hread _ _ He) as Hrd. unfold readable in Hrd.
  destruct (Z.ltb_spec (Z.of_nat (length (e_key e))) (Z.of_nat (min_key_length cmp))); [lia|].
  rewrite drop_0, take_app_length.
  replace (Z.of_nat m - 1) with (Z.of_nat (pred m)) by lia.
  destruct (compare cmp (e_key e) target) eqn:Ec.
  - apply IH; [lia|lia|lia|done].
  - apply IH; [lia|lia|lia|]. intros q' Hq'. assert (q' = q) as -> by congruence.
    by eapply below_restart.
  - apply IH; [lia|lia|lia|done].
Qed.

Lemma seek_walk_at fuel it target i :
  before it i -> below target i -> (length es - i < fuel)%nat ->
  exists it', seek_walk cmp fuel it target = Some it' /\
    positioned it' (lower_bound cmp entries target).
Proof.
  revert it i. induction fuel as [|fuel IH]; intros it i B Hbel Hf; [lia|].
  cbn [seek_walk]. destruct (parse_positioned it i B) as (m & it1 & -> & -> & P).
  cbn [mbind option_bind].
  assert (length entries = length es) as Hlen by (unfold entries; by rewrite length_fmap).
  pose proof (bf_bound _ _ B).
  assert ((forall e, es !! i = Some e -> ~ key_lt cmp (e_key e) target) ->
    i = lower_bound cmp entries target) as Hpos.
  { intros Hge. apply lower_bound_unique; [lia| |].
    - intros j k v Hj (e & He & <- & <-)%entry_lookup_inv. by eapply Hbel.
    - intros k v (e & He & <- & <-)%entry_lookup_inv. by apply Hge. }
  destruct (Nat.ltb_spec i (length es)) as [Hlt|Hge]; cbn [negb].
  - assert (positioned it1 i) as P1 by done. unfold positioned in P.
    rewrite (proj2 (Nat.ltb_lt _ _)) in P by done.
    destruct (at_found _ _ P) as (e & He & Hk & _). rewrite Hk.
    destruct (compare cmp (e_key e) target) eqn:Ec.
    + rewrite <- Hpos by (intros e' He'; assert (e' = e) as -> by congruence;
        unfold key_lt; by rewrite Ec). by exists it1.
    + apply (IH it1 (S i)); [apply P| |lia]. intros j e' Hj He'.
      destruct (decide (j = i)) as [->|]; [by assert (e' = e) as -> by congruence|].
      apply (Hbel j); [lia|done].
    + rewrite <- Hpos by (intros e' He'; assert (e' = e) as -> by congruence;
        unfold key_lt; by rewrite Ec). by exists it1.
  - rewrite <- Hpos; [by exists it1|]. intros e He%lookup_lt_Some. lia.
Qed.

Lemma seek_positioned it target :
  on_block it ->
  exists it', seek cmp it target = Some it' /\ positioned it' (lower_bound cmp entries target).
Proof.
  intros OB. pose proof OB as []. pose proof ridx_pos. unfold seek. rewrite ob_restarts0.
  destruct (Z.eqb_spec (Z.of_nat (length ridx)) 0); [lia|].
  replace (Z.of_nat (length ridx) - 1) with (Z.of_nat (pred (length ridx))) by lia.
  destruct (seek_restart_at (S (Z.to_nat (Z.of_nat (pred (length ridx))))) it target 0
    (pred (length ridx)) OB) as (j & q & E & Hq & Hbel); [lia|lia|lia| |].
  { rewrite (layout_first _ _ L). intros q [= <-] j e Hj. lia. }
  change (Z.of_nat 0) with 0 in E. rewrite E. cbn [mbind option_bind].
  destruct (seek_to_restart_at it j q OB Hq) as (it1 & -> & B). cbn [mbind option_bind].
  apply (seek_walk_at _ it1 target q B Hbel).
  pose proof (walk_fuel_layout it1 (bf_block _ _ B)). lia.
Qed.
End Layout.

(** * [find] against [seek], on arbitrary bytes *)
Section Find.
Context (cmp : Comparator).

(** How an iterator after a seek must stand for a result of [find]; [st] is
    the iterator's status before. *)
Definition agrees (r : Status + option (bytes * bytes)) (it : Iter) (st : Status) : Prop :=
  match r with
  | inl s => is_corruption s = true /\ is_corruption (status_ it) = true
  | inr None => valid it = false /\ status_ it = st
  | inr (Some (k, v)) => valid it = true /\ key_ it = k /\ value it = Some v /\ status_ it = st
  end.

Lemma sub_view_empty data from v : sub_view data from from = Some v -> v = [].
Proof. intros H%sub_view_size. destruct v; [done|]. unfold size in H. simpl in H. lia. Qed.

Definition same_bytes (b : Block) (it : Iter) : Prop :=
  b_data b = data_ it /\ b_restart_offset b = restart_offset_ it /\ b_num_restarts b = num_restarts_ it.

(** Every state keeps a corruption it has reported. *)
Lemma seek_walk_keeps_corruption fuel it target it' :
  iter_safe it -> is_corruption (status_ it) = true ->
  seek_walk cmp fuel it target = Some it' -> is_corruption (status_ it') = true.
Proof.
  revert it. induction fuel as [|fuel IH]; intros it S Hc E; [done|]. cbn [seek_walk] in E.
  destruct (parse_next_entry_safe cmp it S) as (more & it1 & E1 & O1 & _).
  assert (is_corruption (status_ it1) = true) as Hc1.
  { revert E1. unfold parse_next_entry. case_if; [by intros [= _ <-]|].
    destruct (sub_view _ _ _); [|done]. cbn [mbind option_bind].
    destruct (decode_entry _) as [[[[sh ns] vl] p]|]; [|by intros [= _ <-]].
    case_if; [by intros [= _ <-]|]. case_if; [by intros [= _ <-]|].
    destruct (advance_restart _ _ _); [|done]. by intros [= _ <-]. }
  rewrite E1 in E. cbn [mbind option_bind] in E. case_if; [by injection E as <-|].
  destruct (compare cmp _ target); try (by injection E as <-). eapply (IH it1); [apply O1|done|done].
Qed.

Lemma find_walk_agrees fuel b it target :
  iter_safe it -> same_bytes b it ->
  restart_offset_ it - next_entry_offset it < Z.of_nat fuel -> (1 <= fuel)%nat ->
  exists r it', find_walk cmp fuel b target (next_entry_offset it) (key_ it) = Some r /\
    seek_walk cmp fuel it target = Some it' /\ agrees r it' (status_ it).
Proof.
  revert it. induction fuel as [|fuel IH]; intros it S (Ed & Eo & En) Hf H1; [lia|].
  cbn [find_walk seek_walk].
  destruct (parse_next_entry_safe cmp it S) as (more & it1 & E1 & O1 & F1 & Hv & Hm).
  rewrite E1. cbn [mbind option_bind]. rewrite Eo, Ed. pose proof E1 as E2.
  pose proof (next_entry_offset_range it). destruct S.
  unfold parse_next_entry in E2.
  cbn [restart_offset_ current_ move data_ key_ num_restarts_ restart_index_ base_ status_] in E2.
  destruct (Z.leb_spec (restart_offset_ it) (next_entry_offset it)) as [Hend|Hin].
  { injection E2 as <- <-. rewrite (proj2 (Z.ltb_ge _ _)) by done.
    eexists _, _. split_and!; [done|done|]. split; [by apply Z.ltb_irrefl|done]. }
  rewrite (proj2 (Z.ltb_lt _ _)) by done.
  rewrite sub_view_Some in E2 |- * by lia. cbn [mbind option_bind] in E2 |- *.
  set (view := take _ (drop _ _)) in *.
  assert (size view = restart_offset_ it - next_entry_offset it) as Ev.
  { eapply sub_view_size. apply sub_view_Some; lia. }
  destruct (decode_entry view) as [[[[sh ns] vl] p]|] eqn:Edec.
  2: { injection E2 as <- <-. by eexists _, _. }
  apply decode_entry_bounds in Edec.
  case_if. { injection E2 as <- <-. by eexists _, _. }
  case_if. { injection E2 as <- <-. by eexists _, _. }
  set (key := take (Z.to_nat sh) _ ++ _) in *.
  destruct (advance_restart _ _ _) as [ri|]; [|done]. cbn [mbind option_bind] in E2.
  injection E2 as <- E2. cbn [negb].
  assert (key_ it1 = key) as Ek by (by rewrite <- E2).
  assert (next_entry_offset it1 = restart_offset_ it - size p + ns + vl) as Eneo.
  { pose proof (size_nonneg p). rewrite <- E2. erewrite next_entry_offset_in;
      [|cbn; rewrite <- Z.add_sub_assoc, <- Z.add_assoc; reflexivity|]; lia. }
  rewrite Ek. destruct Hm as (_ & _ & Hmono); [done|]. destruct F1 as (Fd & Fb & Fo & Fn).
  assert (sub_view (data_ it) (restart_offset_ it - size p + ns)
    (restart_offset_ it - size p + ns + vl) <> None /\
    value it1 = sub_view (data_ it) (restart_offset_ it - size p + ns)
      (restart_offset_ it - size p + ns + vl)) as [Hsome Hval].
  { pose proof (size_nonneg p). rewrite sub_view_Some by lia. split; [done|].
    rewrite <- E2. unfold value; cbn [value_ base_ data_ move fst snd].
    case_if; b2p.
    - subst vl. by rewrite Z.add_0_r, Z.sub_diag.
    - rewrite sub_view_Some by lia. f_equal. f_equal; [f_equal; lia|f_equal; f_equal; lia]. }
  destruct (sub_view (data_ it) _ _) as [v|] eqn:Esub; [|done]. cbn [mbind option_bind].
  assert (status_ it1 = status_ it) as Est by (by rewrite <- E2).
  destruct (compare cmp key target).
  - eexists _, it1. by split_and!.
  - destruct (IH it1) as (r & it2 & Ef & Es & Ha); [apply O1|split_and!; congruence|lia|lia|].
    rewrite Eneo, Ek in Ef. rewrite Ef, Es. exists r, it2. by rewrite <- Est.
  - eexists _, it1. by split_and!.
Qed.

(** The binary searches differ in one message only. *)
Definition same_search (f : option (Status + Z)) (s : option (string + Z)) : Prop :=
  match s with
  | Some (inl what) => exists e, f = Some (inl e) /\ is_corruption e = true
  | Some (inr i) => f = Some (inr i)
  | None => f = None
  end.

Lemma find_restart_agrees fuel b it target l r :
  same_bytes b it ->
  same_search (find_restart cmp fuel b target l r) (seek_restart cmp fuel it target l r).
Proof.
  intros (Ed & Eo & En). revert l r. induction fuel as [|fuel IH]; intros l r; [done|].
  cbn [find_restart seek_restart]. case_if; [|done].
  unfold restart_point, get_restart_point. rewrite Ed, Eo.
  destruct (decode_fixed32 _) as [v|]; [|done]. cbn [mbind option_bind].
  case_if; [by eexists|]. destruct (sub_view _ _ _) as [view|]; [|done]. cbn [mbind option_bind].
  destruct (decode_entry view) as [[[[sh ns] vl] p]|]; [|by eexists].
  case_if; [by eexists|]. case_if; [by eexists|].
  destruct (compare cmp _ target); apply IH.
Qed.

Lemma find_agrees b it target :
  iter_safe it -> same_bytes b it -> 4 <= b_size b ->
  exists r it', find cmp b target = Some r /\ seek cmp it target = Some it' /\
    agrees r it' (status_ it).
Proof.
  intros S HB Hsz. pose proof HB as (Ed & Eo & En). unfold find, seek. pose proof S as [].
  rewrite (proj2 (Z.ltb_ge _ _)), En by done.
  destruct (Z.eqb_spec (num_restarts_ it) 0); [lia|].
  destruct (seek_restart_safe cmp (Datatypes.S (Z.to_nat (num_restarts_ it - 1))) it target 0
    (num_restarts_ it - 1) S) as (res & Eres & Hres); [lia|lia|lia|].
  pose proof (find_restart_agrees (Datatypes.S (Z.to_nat (num_restarts_ it - 1))) b it target 0
    (num_restarts_ it - 1) HB) as Hsame.
  rewrite Eres in Hsame |- *. cbn [mbind option_bind]. destruct res as [what|i]; cbn [same_search] in Hsame.
  { destruct Hsame as (e & -> & He). cbn [mbind option_bind]. by eexists _, _. }
  rewrite Hsame. cbn [mbind option_bind]. specialize (Hres i eq_refl).
  unfold seek_to_restart_point.
  destruct (restart_point_safe it i S) as (v & Hv & Hr); [lia|].
  set (it1 := mkIter _ _ _ _ _ _ _ _ _).
  change (get_restart_point it1 i) with (get_restart_point it i). rewrite Hv.
  unfold restart_point. rewrite Ed, Eo. unfold get_restart_point in Hv. rewrite Hv.
  cbn [mbind option_bind]. change (restart_offset_ it1) with (restart_offset_ it).
  assert (iter_safe it1) as S1 by (constructor; cbn; try done; lia).
  destruct (Z.ltb_spec (restart_offset_ it) v).
  - cbn [mbind option_bind].
    destruct (corrupted_ok cmp it1 "restart point lies outside the entry region" S1) as ([Sc] & _ & _).
    destruct (walk_fuel_enough _ Sc).
    destruct (seek_walk_safe cmp (walk_fuel (corrupted it1 "restart point lies outside the entry region")) _ target Sc) as (it' & E' & _); [done|done|].
    rewrite E'. eexists _, it'. split_and!; [done|done|]. split; [done|].
    by eapply seek_walk_keeps_corruption in E'.
  - cbn [mbind option_bind]. set (it2 := mkIter _ _ _ _ _ _ _ _ _).
    assert (iter_safe it2) as S2 by (constructor; cbn; try done; [lia|right; cbn; lia]).
    assert (next_entry_offset it2 = v) as Ev.
    { erewrite next_entry_offset_in; [|reflexivity|]; lia. }
    destruct (walk_fuel_enough it2 S2).
    destruct (find_walk_agrees (walk_fuel it2) b it2 target S2) as (r & it' & Ef & Es & Ha);
      [done|done|done|].
    rewrite Ev in Ef. unfold walk_fuel in *. cbn [restart_offset_ it2 it1 key_] in *.
    rewrite Ef, Es. by exists r, it'.
Qed.
End Find.

(** * The iterator interface *)
Definition lift_op (f : Iter -> option Iter) (onempty : option BlockIterator) (i : BlockIterator) :
    option BlockIterator :=
  match i with EmptyIterator s => onempty | BlockIter it => BlockIter <$> f it end.

Definition block_iterator (cmp : Comparator) : Iterator BlockIterator :=
  mkIterator BlockIterator iter_valid
    (λ i, lift_op (seek_to_first cmp) (Some i) i)
    (λ i, lift_op (seek_to_last cmp) (Some i) i)
    (λ i t, lift_op (λ it, seek cmp it t) (Some i) i)
    (lift_op (next cmp) None)
    (lift_op (prev cmp) None)
    (λ i, match i with EmptyIterator _ => [] | BlockIter it => key it end)
    (λ i, match i with EmptyIterator _ => None | BlockIter it => value it end)
    iter_status.

Definition block_pos es ridx base (i : BlockIterator) (n : nat) : Prop :=
  exists it, i = BlockIter it /\ positioned es ridx base it n.

Lemma positioned_valid es ridx base it n :
  positioned es ridx base it n -> valid it = (n <? length es)%nat /\ (n <= length es)%nat.
Proof.
  unfold positioned, valid. destruct (Nat.ltb_spec n (length es)) as [Hlt|Hge].
  - intros [[[] _ _ _ _] Hc _ _]. split; [|lia]. rewrite Hc, ob_end0. apply Z.ltb_lt.
    unfold region_end. rewrite <- off_all. by apply off_lt.
  - intros [[[] Hc] ->]. split; [|lia]. rewrite Hc, ob_end0. apply Z.ltb_irrefl.
Qed.

Lemma block_iterator_sorted cmp `{!ComparatorLaws cmp} es ridx base :
  layout es ridx -> size (block_bytes es ridx) < 2 ^ 32 ->
  (forall i e, es !! i = Some e -> readable cmp (e_key e)) -> sorted_by cmp (entries es) ->
  SortedIterator (block_iterator cmp) cmp (entries es) (block_pos es ridx base).
Proof.
  intros L Hs Hr Hsort.
  assert (length (entries es) = length es) as Hlen by (unfold entries; by rewrite length_fmap).
  constructor; unfold block_pos; rewrite ?Hlen.
  - intros _ i (it & -> & P). by destruct (positioned_valid _ _ _ _ _ P).
  - intros _ i (it & -> & P). by destruct (positioned_valid _ _ _ _ _ P).
  - intros _ i k v (it & -> & P) (e & He & <- & <-)%entry_lookup_inv.
    pose proof (lookup_lt_Some _ _ _ He). unfold positioned in P.
    rewrite (proj2 (Nat.ltb_lt _ _)) in P by done.
    destruct (at_found _ _ _ _ _ P) as (e' & He' & Hk & Hv).
    assert (e' = e) as -> by congruence. done.
  - intros _ i (it & -> & P%positioned_block). apply P.
  - intros _ i (it & -> & P) Hi. destruct (next_positioned cmp es ridx base L Hs Hr it i P Hi)
      as (it' & E & P'). cbn [it_next it_prev it_seek it_seek_to_first it_seek_to_last block_iterator lift_op].
    rewrite E. eauto.
  - intros _ i (it & -> & P) Hi. destruct (prev_positioned cmp es ridx base L Hs Hr it i P Hi)
      as (it' & E & P'). cbn [it_next it_prev it_seek it_seek_to_first it_seek_to_last block_iterator lift_op].
    rewrite E. eauto.
  - intros _ i (it & -> & P%positioned_block).
    destruct (first_positioned cmp es ridx base L Hs Hr it P) as (it' & E & P'). cbn [it_next it_prev it_seek it_seek_to_first it_seek_to_last block_iterator lift_op].
    rewrite E. eauto.
  - intros _ i (it & -> & P%positioned_block).
    destruct (last_positioned cmp es ridx base L Hs Hr it P) as (it' & E & P'). cbn [it_next it_prev it_seek it_seek_to_first it_seek_to_last block_iterator lift_op].
    rewrite E. eauto.
  - intros _ i target (it & -> & P%positioned_block) _.
    destruct (seek_positioned cmp es ridx base L Hs Hr Hsort it target P) as (it' & E & P').
    cbn [it_next it_prev it_seek it_seek_to_first it_seek_to_last block_iterator lift_op].
    rewrite E. eauto.
Qed.

(** Opening a block the builder wrote. *)
Lemma open_layout es ridx base :
  layout es ridx -> size (block_bytes es ridx) < 2 ^ 32 ->
  exists b it, Block_new base (block_bytes es ridx) = Some b /\ new_iterator b = BlockIter it /\
    same_bytes b it /\ 4 <= b_size b /\ positioned es ridx base it (length es) /\ iter_safe it.
Proof.
  intros L Hs. pose proof (size_block_bytes es ridx) as Hsz. pose proof (ridx_pos es ridx L).
  pose proof (size_nonneg (encs es)).
  unfold Block_new. rewrite (proj2 (Z.ltb_ge _ _)) by lia.
  assert (decode_fixed32 (drop (Z.to_nat (size (block_bytes es ridx) - 4)) (block_bytes es ridx)) =
    Some (Z.of_nat (length ridx))) as ->.
  { unfold block_bytes at 2. rewrite app_assoc, drop_app_length'.
    - rewrite <- (app_nil_r (encode_fixed32 _)), decode_encode_fixed32_app.
      by rewrite u32_small by lia.
    - rewrite Hsz. pose proof (size_words (off es <$> ridx)) as Hw. rewrite length_fmap in Hw.
      rewrite length_app. unfold size in *. lia. }
  cbn [mbind option_bind]. rewrite (u32_small ((_ - 4) / 4)) by (rewrite Hsz; zmod).
  rewrite (u32_small (1 + _)) by lia.
  rewrite (proj2 (Z.ltb_ge _ _)) by (rewrite Hsz; zmod).
  assert (u32 (size_sub (size (block_bytes es ridx)) ((1 + Z.of_nat (length ridx)) * 4)) =
    region_end es) as ->.
  { unfold size_sub. rewrite (proj2 (Z.ltb_ge _ _)) by lia. rewrite u32_small by lia.
    rewrite Hsz. unfold region_end. lia. }
  unfold new_iterator. eexists _, _. split; [reflexivity|].
  cbn [b_size b_num_restarts b_data b_base b_restart_offset].
  rewrite (proj2 (Z.ltb_ge _ _)), (proj2 (Z.eqb_neq _ _)) by lia.
  split_and!; [done|done|lia| |].
  - unfold positioned. rewrite Nat.ltb_irrefl. split; [|done]. by repeat constructor.
  - unfold region_end in *. constructor; cbn; try lia. by left.
Qed.

(** * Theorems *)

(** Opening what the builder wrote. *)
Lemma built_block cmp `{!ComparatorLaws cmp} interval base l :
  1 <= interval -> sorted_by cmp l -> Forall (λ e, readable cmp (fst e)) l ->
  let data := buffer_ (finish (add_all (BlockBuilder_new interval) l)) in
  size data < 2 ^ 32 ->
  exists b pos, Block_new base data = Some b /\
    SortedIterator (block_iterator cmp) cmp l pos /\ pos (new_iterator b) (length l) /\
    forall target, find cmp b target = Some (inr (l !! lower_bound cmp l target)).
Proof.
  intros Hi Hs Hr. destruct (build_layout interval l Hi) as (es & ridx & L & E & ->). cbv zeta.
  intros Hsize. destruct (open_layout es ridx base L Hsize) as (b & it & Eb & Ei & HB & Hsz & P & S).
  exists b, (block_pos es ridx base). split; [done|]. fold (entries es) in E. rewrite <- E in *.
  assert (forall i e, es !! i = Some e -> readable cmp (e_key e)) as Hread.
  { intros i e He. rewrite Forall_forall in Hr. apply (Hr (kv e)). unfold entries.
    apply list_elem_of_fmap_2. by eapply list_elem_of_lookup_2. }
  split; [by apply block_iterator_sorted|]. split.
  { exists it. split; [done|]. unfold entries. by rewrite length_fmap. }
  intros target. pose proof (positioned_block _ _ _ _ _ P) as OB.
  destruct (seek_positioned cmp es ridx base L Hsize Hread Hs it target OB) as (it1 & E1 & P1).
  destruct (find_agrees cmp b it target S HB Hsz) as (r & it2 & -> & E2 & Ha).
  assert (it2 = it1) as -> by congruence. f_equal.
  destruct (positioned_valid _ _ _ _ _ P1) as [Hv Hle]. pose proof (ob_status _ _ _ _ OB) as Hst.
  pose proof (ob_status _ _ _ _ (positioned_block _ _ _ _ _ P1)) as Hst1.
  destruct r as [s|[[k v]|]]; cbn in Ha.
  - destruct Ha as [_ Hc]. by rewrite Hst1 in Hc.
  - destruct Ha as (Hvalid & Hk & Hval & _). rewrite Hv in Hvalid. apply Nat.ltb_lt in Hvalid.
    unfold positioned in P1. rewrite (proj2 (Nat.ltb_lt _ _)) in P1 by done.
    destruct (at_found _ _ _ _ _ P1) as (e & He & Hke & Hve).
    rewrite (entry_lookup es _ _ He). congruence.
  - destruct Ha as (Hvalid & _). rewrite Hv in Hvalid. apply Nat.ltb_ge in Hvalid.
    rewrite lookup_ge_None_2; [done|]. unfold entries. by rewrite length_fmap.
Qed.

(** C25. A block refines a sorted list: for every restart interval of at least
    one, entries in strictly increasing readable keys, and a finished block
    below 4 GiB, opening what [BlockBuilder] wrote gives an iterator that
    behaves as a cursor over exactly those entries - [seek_to_first], [next],
    [seek_to_last], [prev], and [seek] to the first key at or after the
    target - with every read inside the block and an ok status throughout.
    [find] returns the entry with the first key at or after the target, and
    nothing - with an ok status - past the last one. *)
Theorem block_refines_sorted_list cmp `{!ComparatorLaws cmp} interval base l target :
  1 <= interval -> sorted_by cmp l -> Forall (λ e, readable cmp (fst e)) l ->
  let data := buffer_ (finish (add_all (BlockBuilder_new interval) l)) in
  size data < 2 ^ 32 ->
  exists b pos, Block_new base data = Some b /\
    SortedIterator (block_iterator cmp) cmp l pos /\ pos (new_iterator b) (length l) /\
    find cmp b target = Some (inr (l !! lower_bound cmp l target)).
Proof.
  intros Hi Hs Hr data Hd. destruct (built_block cmp interval base l Hi Hs Hr Hd) as (b & pos & E & S & P & F).
  by exists b, pos.
Qed.

Definition sample_entries : list (bytes * bytes) :=
  [([x61], [x31]); ([x61; x62], [x32]); ([x62], [])].

Lemma block_refines_sorted_list_witness :
  let data := buffer_ (finish (add_all (BlockBuilder_new 2) sample_entries)) in
  exists b pos, Block_new 4096 data = Some b /\
    SortedIterator (block_iterator kBytewise) kBytewise sample_entries pos /\
    pos (new_iterator b) (length sample_entries) /\
    find kBytewise b [x61; x61] =
      Some (inr (sample_entries !! lower_bound kBytewise sample_entries [x61; x61])).
Proof.
  apply (block_refines_sorted_list kBytewise 2 4096 sample_entries [x61; x61]).
  - lia.
  - repeat constructor.
  - repeat constructor.
  - vm_compute. reflexivity.
Defined.

(** [find] is [seek] without the iterator, on any bytes: whatever a block
    of less than 4 GiB holds, at whatever address, [find] and a [seek] of a
    fresh iterator end the same way - the same entry, or none with an ok
    status, or a corruption reported by both. *)
Theorem find_agrees_with_seek cmp base data target :
  size data < 2 ^ 32 ->
  exists b, Block_new base data = Some b /\
    match new_iterator b with
    | EmptyIterator s =>
        find cmp b target = Some (if is_ok s then inr None else inl s)
    | BlockIter it =>
        exists r it', find cmp b target = Some r /\ seek cmp it target = Some it' /\ agrees r it' ok
    end.
Proof.
  intros Hs. destruct (new_iterator_ok cmp base data Hs) as (b & Eb & Hok). exists b.
  split; [done|]. unfold new_iterator in *. unfold find.
  destruct (Z.ltb_spec (b_size b) 4); [done|].
  destruct (Z.eqb_spec (b_num_restarts b) 0); [done|].
  destruct Hok as [S _ _ _]. destruct (find_agrees cmp b _ target S) as (r & it' & E & ? & ?);
    [done|done|].
  unfold find in E. rewrite (proj2 (Z.ltb_ge _ _)), (proj2 (Z.eqb_neq _ _)) in E by done.
  by exists r, it'.
Qed.

Lemma find_agrees_with_seek_witness :
  exists b, Block_new 64 [x00; x01; x00; x61; x00; x00; x00; x00; x01; x00; x00; x00] = Some b /\
    match new_iterator b with
    | EmptyIterator s =>
        find kBytewise b [x61] = Some (if is_ok s then inr None else inl s)
    | BlockIter it =>
        exists r it', find kBytewise b [x61] = Some r /\ seek kBytewise it [x61] = Some it' /\ agrees r it' ok
    end.
Proof.
  apply (find_agrees_with_seek kBytewise 64
    [x00; x01; x00; x61; x00; x00; x00; x00; x01; x00; x00; x00] [x61]).
  vm_compute. reflexivity.
Defined.

(** Any sequence of calls on an iterator. *)
Inductive Call := CNext | CPrev | CFirst | CLast | CSeek (target : bytes).
Definition call (cmp : Comparator) (c : Call) (it : Iter) : option Iter :=
  match c with
  | CNext => next cmp it
  | CPrev => prev cmp it
  | CFirst => seek_to_first cmp it
  | CLast => seek_to_last cmp it
  | CSeek t => seek cmp it t
  end.
Fixpoint calls (cmp : Comparator) (cs : list Call) (it : Iter) : option Iter :=
  match cs with
  | [] => Some it
  | c :: cs' => it ← call cmp c it; calls cmp cs' it
  end.

(** C34. Reading a damaged block is safe and terminates: whatever the bytes of
    a block below 4 GiB and wherever it lies, any sequence of iterator calls
    completes with every read inside the block, and an entry it stands on has
    a key long enough for the comparator and a value inside the block. *)
Theorem block_iterator_is_safe cmp base data cs :
  size data < 2 ^ 32 ->
  exists b, Block_new base data = Some b /\
    match new_iterator b with
    | EmptyIterator _ => True
    | BlockIter it =>
        exists it', calls cmp cs it = Some it' /\
          (valid it' = true -> readable cmp (key it') /\ is_Some (value it'))
    end.
Proof.
  intros Hs. destruct (new_iterator_ok cmp base data Hs) as (b & Eb & Hok). exists b.
  split; [done|]. destruct (new_iterator b) as [|it]; [done|]. clear Eb.
  revert it Hok. induction cs as [|c cs IH]; intros it O; cbn [calls].
  { exists it. split; [done|]. intros Hv. destruct O. auto. }
  assert (op_safe cmp (call cmp c)) as Hc.
  { destruct c; [apply next_safe|apply prev_safe|apply seek_to_first_safe|apply seek_to_last_safe
    |apply (seek_safe cmp target)]. }
  destruct (Hc it O) as (it1 & -> & O1 & _). cbn [mbind option_bind]. by apply IH.
Qed.

Lemma block_iterator_is_safe_witness :
  exists b, Block_new 64 [xff; xff; x00; x61; x09; x00; x00; x00; x01; x00; x00; x00] = Some b /\
    match new_iterator b with
    | EmptyIterator _ => True
    | BlockIter it =>
        exists it', calls kBytewise [CFirst; CNext; CPrev; CSeek [x00]; CLast] it = Some it' /\
          (valid it' = true -> readable kBytewise (key it') /\ is_Some (value it'))
    end.
Proof.
  apply (block_iterator_is_safe kBytewise 64
    [xff; xff; x00; x61; x09; x00; x00; x00; x01; x00; x00; x00]
    [CFirst; CNext; CPrev; CSeek [x00]; CLast]).
  vm_compute. reflexivity.
Defined.

(** A restart offset outside the entries is reported, but the walk goes on
    from the null view: where the block's address ends in zeros, an iterator
    that has reported corruption then stands on an entry. *)
Theorem corrupt_restart_leaves_iterator_valid :
  exists base data,
    (b ← Block_new base data;
     match new_iterator b with
     | EmptyIterator _ => None
     | BlockIter it =>
         it ← seek_to_first kBytewise it; Some (is_corruption (status_ it), valid it)
     end) = Some (true, true).
Proof.
  exists (2 ^ 32), [x00; x01; x00; x61; xff; x00; x00; x00; x01; x00; x00; x00].
  vm_compute. reflexivity.
Qed.
End Block.
