(* ===== verification/SkipList.v ===== *)
(** The skip list behind a memtable (src/src/skiplist.hpp).

    Nodes live in an append-only store, a pointer is an index into it and the
    head is node 0.  A next pointer that was never written is [None], so
    reading one, like reading a level a node does not have, is a fault.  The
    random number generator is a parameter.

    The first half models the code; the second half proves that the list is
    well formed between any two stores the writer makes, and that a reader
    interleaved with those stores never faults and returns the successor in
    the list as it is at the reader's last load. *)
From S2P Require Import Prelude.

Module SkipList.

Section SkipList.
Context {Key : Type} (key0 : Key) (compare_ : Key -> Key -> comparison).
Context {Rng : Type} (rng_next : Rng -> Z * Rng).

Definition kMaxHeight : nat := 12.
Definition kBranching : Z := 4.

Record Node := mkNode { node_key : Key; next_ : list (option (option nat)) }.

(** [head_] is node 0. *)
Record SkipList := mkList { nodes : list Node; max_height_ : nat; rng_ : Rng }.

Definition head_ : nat := 0.

(** [Node::next] and [nobarrier_next]. *)
Definition next (s : SkipList) (n level : nat) : option (option nat) :=
  node ← nodes s !! n; ptr ← next_ node !! level; ptr.

(** [Node::set_next] and [nobarrier_set_next]. *)
Definition set_next (s : SkipList) (n level : nat) (v : option nat) : option SkipList :=
  node ← nodes s !! n;
  if (level <? length (next_ node))%nat
  then Some (mkList (<[n := mkNode (node_key node) (<[level := Some v]> (next_ node))]> (nodes s))
               (max_height_ s) (rng_ s))
  else None.

Definition new_node (s : SkipList) (key : Key) (height : nat) : SkipList * nat :=
  (mkList (nodes s ++ [mkNode key (replicate height None)]) (max_height_ s) (rng_ s),
   length (nodes s)).

Definition SkipList_new (rng : Rng) : SkipList :=
  mkList [mkNode key0 (replicate kMaxHeight (Some None))] 1 rng.

Definition key_of (s : SkipList) (n : nat) : option Key := node_key <$> nodes s !! n.

Definition equal (a b : Key) : bool :=
  match compare_ a b with Eq => true | _ => false end.

(** [None] where the pointer is to no node. *)
Definition key_is_after_node (s : SkipList) (key : Key) (n : option nat) : option bool :=
  match n with
  | None => Some false
  | Some n => k ← key_of s n; Some (match compare_ k key with Lt => true | _ => false end)
  end.

(** [while (height < kMaxHeight && rng_() % kBranching == 0) ++height]. *)
Fixpoint random_height_loop (fuel height : nat) (rng : Rng) : nat * Rng :=
  match fuel with
  | O => (height, rng)
  | S fuel' =>
      if (height <? kMaxHeight)%nat then
        let '(x, rng) := rng_next rng in
        if x mod kBranching =? 0 then random_height_loop fuel' (S height) rng else (height, rng)
      else (height, rng)
  end.
Definition random_height (s : SkipList) : nat * SkipList :=
  let '(h, rng) := random_height_loop kMaxHeight 1 (rng_ s) in
  (h, mkList (nodes s) (max_height_ s) rng).

(** ** Searching *)

(** One iteration of the [while (true)] of [find_greater_or_equal]. *)
Inductive Search := Right (node : nat) | Down | Found (next : option nat).
Definition search_step (s : SkipList) (key : Key) (node level : nat) : option Search :=
  nx ← next s node level;
  after ← key_is_after_node s key nx;
  match after, nx with
  | true, Some n => Some (Right n)
  | true, None => None
  | false, _ => Some (if (level =? 0)%nat then Found nx else Down)
  end.

(** [prev] is the caller's array, its entries unwritten at first. *)
Fixpoint find_ge_loop (fuel : nat) (s : SkipList) (key : Key) (node level : nat)
    (prev : list (option nat)) : option (option nat * list (option nat)) :=
  match fuel with
  | O => None
  | S fuel' =>
      r ← search_step s key node level;
      match r with
      | Right n => find_ge_loop fuel' s key n level prev
      | Down => find_ge_loop fuel' s key node (level - 1) (<[level := Some node]> prev)
      | Found nx => Some (nx, <[level := Some node]> prev)
      end
  end.

(** Moves right or down at every step: at most one step per node and level. *)
Definition search_fuel (s : SkipList) : nat := S (length (nodes s) + kMaxHeight).

Definition find_greater_or_equal (s : SkipList) (key : Key) :
    option (option nat * list (option nat)) :=
  find_ge_loop (search_fuel s) s key head_ (max_height_ s - 1) (replicate kMaxHeight None).

Fixpoint find_lt_loop (fuel : nat) (s : SkipList) (key : Key) (node level : nat) : option nat :=
  match fuel with
  | O => None
  | S fuel' =>
      nx ← next s node level;
      after ← key_is_after_node s key nx;
      match after, nx with
      | true, Some n => find_lt_loop fuel' s key n level
      | true, None => None
      | false, _ => if (level =? 0)%nat then Some node
                    else find_lt_loop fuel' s key node (level - 1)
      end
  end.
Definition find_less_than (s : SkipList) (key : Key) : option nat :=
  find_lt_loop (search_fuel s) s key head_ (max_height_ s - 1).

Fixpoint find_last_loop (fuel : nat) (s : SkipList) (node level : nat) : option nat :=
  match fuel with
  | O => None
  | S fuel' =>
      nx ← next s node level;
      match nx with
      | Some n => find_last_loop fuel' s n level
      | None => if (level =? 0)%nat then Some node else find_last_loop fuel' s node (level - 1)
      end
  end.
Definition find_last (s : SkipList) : option nat :=
  find_last_loop (search_fuel s) s head_ (max_height_ s - 1).

Definition contains (s : SkipList) (key : Key) : option bool :=
  '(node, _) ← find_greater_or_equal s key;
  match node with
  | None => Some false
  | Some n => k ← key_of s n; Some (equal key k)
  end.

(** ** Inserting *)

(** The two stores for level [i]: into the new node, then into its
    predecessor, which publishes it there. *)
Definition link (s : SkipList) (node : nat) (prev : list (option nat)) (i : nat) :
    option SkipList :=
  p ← mjoin (prev !! i);
  nx ← next s p i;
  set_next s node i nx.
Definition publish (s : SkipList) (node : nat) (prev : list (option nat)) (i : nat) :
    option SkipList :=
  p ← mjoin (prev !! i);
  set_next s p i (Some node).

Fixpoint splice (n : nat) (i : nat) (s : SkipList) (node : nat) (prev : list (option nat)) :
    option SkipList :=
  match n with
  | O => Some s
  | S n' =>
      s ← link s node prev i;
      s ← publish s node prev i;
      splice n' (S i) s node prev
  end.

(** [for (i = max_height_; i < height; ++i) prev[i] = head_]. *)
Definition fill_prev (prev : list (option nat)) (from to : nat) : list (option nat) :=
  imap (λ i p, if (from <=? i)%nat && (i <? to)%nat then Some head_ else p) prev.

(** Everything before the loop: the search, the height and the new node. *)
Definition prepare (s : SkipList) (key : Key) :
    option (SkipList * nat * list (option nat) * nat) :=
  '(_, prev) ← find_greater_or_equal s key;
  let '(height, s) := random_height s in
  let '(s, prev) :=
    if (max_height_ s <? height)%nat
    then (mkList (nodes s) height (rng_ s), fill_prev prev (max_height_ s) height)
    else (s, prev) in
  let '(s, node) := new_node s key height in
  Some (s, node, prev, height).

Definition insert (s : SkipList) (key : Key) : option SkipList :=
  '(s, node, prev, height) ← prepare s key;
  splice height 0 s node prev.

(** ** SkipList::Iterator: [node_], [None] for the null pointer *)
Definition iter_key (s : SkipList) (node : option nat) : option Key := n ← node; key_of s n.
Definition iter_next (s : SkipList) (node : option nat) : option (option nat) :=
  n ← node; next s n 0.
Definition iter_seek (s : SkipList) (target : Key) : option (option nat) :=
  fst <$> find_greater_or_equal s target.
Definition not_head (n : nat) : option nat := if (n =? head_)%nat then None else Some n.
Definition iter_prev (s : SkipList) (node : option nat) : option (option nat) :=
  n ← node; k ← key_of s n; not_head <$> find_less_than s k.
Definition iter_seek_to_first (s : SkipList) : option (option nat) := next s head_ 0.
Definition iter_seek_to_last (s : SkipList) : option (option nat) := not_head <$> find_last s.

(** * The invariant *)

(** The order the comparator must be: strict and transitive. *)
Class KeyOrder : Prop := {
  ko_refl a : compare_ a a = Eq;
  ko_antisym a b : compare_ b a = CompOpp (compare_ a b);
  ko_trans a b c : compare_ a b = Lt -> compare_ b c = Lt -> compare_ a c = Lt
}.

Definition node_lt (s : SkipList) (a b : nat) : Prop :=
  exists ka kb, key_of s a = Some ka /\ key_of s b = Some kb /\ compare_ ka kb = Lt.
Definition node_below (s : SkipList) (key : Key) (a : nat) : Prop :=
  exists ka, key_of s a = Some ka /\ compare_ ka key = Lt.
Definition node_above (s : SkipList) (key : Key) (a : nat) : Prop :=
  exists ka, key_of s a = Some ka /\ compare_ key ka = Lt.

(** Following level [level] from [n] visits exactly [l]. *)
Fixpoint chain (s : SkipList) (level n : nat) (l : list nat) : Prop :=
  match l with
  | [] => next s n level = Some None
  | m :: l' => next s n level = Some (Some m) /\ chain s level m l'
  end.

(** [Ls i] is the list at level [i]. *)
Record wf (s : SkipList) (Ls : nat -> list nat) : Prop := {
  wf_chain i : (i < kMaxHeight)%nat -> chain s i head_ (Ls i);
  wf_sorted i : (i < kMaxHeight)%nat -> StronglySorted (node_lt s) (Ls i);
  wf_sub i n : (S i < kMaxHeight)%nat -> n ∈ Ls (S i) -> n ∈ Ls i;
  wf_head i : (i < kMaxHeight)%nat -> head_ ∉ Ls i;
  wf_height : (1 <= max_height_ s <= kMaxHeight)%nat;
  wf_top i : (max_height_ s <= i < kMaxHeight)%nat -> Ls i = []
}.

(** * Lemmas *)
Section Proofs.
Context {KO : KeyOrder}.

Lemma next_spec s n level v :
  next s n level = Some v <-> exists node, nodes s !! n = Some node /\ next_ node !! level = Some (Some v).
Proof.
  unfold next. split.
  - destruct (nodes s !! n) as [node|]; [|done]. simpl.
    destruct (next_ node !! level) as [p|] eqn:E; [|done]. simpl. intros ->. eauto.
  - intros (node & -> & E). simpl. by rewrite E.
Qed.

Lemma set_next_Some s n level v :
  (exists node, nodes s !! n = Some node /\ (level < length (next_ node))%nat) ->
  exists s', set_next s n level v = Some s'.
Proof.
  intros (node & Hn & Hl). unfold set_next. rewrite Hn. cbn [mbind option_bind].
  rewrite (proj2 (Nat.ltb_lt _ _)) by done. eauto.
Qed.

Lemma set_next_spec s s' n level v :
  set_next s n level v = Some s' ->
  next s' n level = Some v /\
  (forall m l, m <> n \/ l <> level -> next s' m l = next s m l) /\
  (forall m, key_of s' m = key_of s m) /\ max_height_ s' = max_height_ s /\
  length (nodes s') = length (nodes s) /\
  (forall m nd, nodes s !! m = Some nd -> exists nd', nodes s' !! m = Some nd' /\
    length (next_ nd') = length (next_ nd)).
Proof.
  unfold set_next. destruct (nodes s !! n) as [node|] eqn:En; [|done]. cbn [mbind option_bind].
  case_if; [|done]. b2p. intros [= <-]. pose proof (lookup_lt_Some _ _ _ En) as Hlt.
  split_and!; try done.
  - apply next_spec. cbn [nodes]. rewrite list_lookup_insert_eq by done. eexists. split; [done|].
    cbn [next_]. by rewrite list_lookup_insert_eq by done.
  - intros m l Hne. unfold next. cbn [nodes]. destruct (decide (m = n)) as [->|].
    + rewrite list_lookup_insert_eq, En by done. cbn [mbind option_bind next_].
      rewrite list_lookup_insert_ne; [done|]. intros ->. destruct Hne; done.
    + by rewrite list_lookup_insert_ne by done.
  - intros m. unfold key_of. cbn [nodes]. destruct (decide (m = n)) as [->|].
    + by rewrite list_lookup_insert_eq, En by done.
    + by rewrite list_lookup_insert_ne by done.
  - cbn [nodes]. by rewrite length_insert.
  - intros m nd Hm. cbn [nodes]. destruct (decide (m = n)) as [->|].
    + rewrite list_lookup_insert_eq by done. eexists. split; [done|]. cbn [next_].
      rewrite length_insert. congruence.
    + rewrite list_lookup_insert_ne by done. eauto.
Qed.

Lemma chain_ext s s' level n l :
  (forall m, m ∈ n :: l -> next s' m level = next s m level) -> chain s level n l -> chain s' level n l.
Proof.
  revert n. induction l as [|m l IH]; intros n He; simpl.
  - rewrite He by left. done.
  - intros [H1 H2]. rewrite He by left. split; [done|]. apply IH; [|done].
    intros m' Hm'. apply He. by right.
Qed.

(** A node of the chain, and what follows it. *)
Lemma chain_split s level n l1 m l2 :
  chain s level n l1 -> n :: l1 = l2 ++ [m] \/ (exists l3, n :: l1 = l2 ++ m :: l3) ->
  exists l3, n :: l1 = l2 ++ m :: l3 /\ chain s level m l3.
Proof.
  intros Hc Hsplit. assert (exists l3, n :: l1 = l2 ++ m :: l3) as [l3 E] by
    (destruct Hsplit; eauto). clear Hsplit. exists l3. split; [done|].
  revert n l1 Hc E. induction l2 as [|x l2 IH]; intros n l1 Hc E; simpl in E.
  - by injection E as -> ->.
  - injection E as -> E. destruct l1 as [|y l1]; [by destruct l2|].
    destruct Hc as [_ Hc]. by apply (IH y l1).
Qed.

Lemma chain_last s i n a b :
  chain s i n (a ++ b) -> next s (default n (last a)) i = Some (head b).
Proof.
  revert n. induction a as [|x a IH]; intros n Hc.
  - destruct b; simpl in Hc; [done|by destruct Hc].
  - destruct Hc as [_ Hc]. rewrite default_last. by apply IH.
Qed.

Lemma level_at s Ls i n :
  wf s Ls -> (i < kMaxHeight)%nat -> n ∈ head_ :: Ls i ->
  exists l1 l2, head_ :: Ls i = l1 ++ n :: l2 /\ next s n i = Some (head l2) /\ chain s i n l2.
Proof.
  intros W Hi Hn. apply list_elem_of_split in Hn as (l1 & l2 & E).
  destruct (chain_split s i head_ (Ls i) n l1) as (l3 & E3 & Hc); [by apply W|eauto|].
  exists l1, l3. split_and!; [done| |done]. destruct l3; simpl in Hc; [done|by destruct Hc].
Qed.

Lemma wf_key s Ls i n : wf s Ls -> (i < kMaxHeight)%nat -> n ∈ Ls i -> exists k, key_of s n = Some k.
Proof.
  intros W Hi Hn. destruct (level_at s Ls i n W Hi) as (l1 & l2 & _ & Hx & _); [by right|].
  apply next_spec in Hx as (node & Hx & _). exists (node_key node). unfold key_of. by rewrite Hx.
Qed.

(** What follows a node below the key is above the nodes before it. *)
Lemma sorted_split s l l1 n l2 :
  StronglySorted (node_lt s) l -> l = l1 ++ n :: l2 ->
  (forall m, m ∈ l1 -> node_lt s m n) /\ (forall m, m ∈ l2 -> node_lt s n m).
Proof.
  intros Hs ->. apply StronglySorted_app in Hs as (H1 & _ & H2). inversion H2 as [|?? _ HF]; subst.
  split.
  - intros m Hm. apply H1; [done|left].
  - by apply Forall_forall.
Qed.

Lemma node_lt_below s key a b : node_lt s a b -> node_below s key b -> node_below s key a.
Proof.
  intros (ka & kb & Ha & Hb & Hab) (kb' & Hb' & Hlt). exists ka. split; [done|].
  assert (kb' = kb) as -> by congruence. by eapply ko_trans.
Qed.

(** Where the searches stand: on the head or on a node below the key. *)
Definition left_of (s : SkipList) (Ls : nat -> list nat) (key : Key) (level n : nat) : Prop :=
  (level < kMaxHeight)%nat /\ n ∈ head_ :: Ls level /\ (n = head_ \/ node_below s key n).

Lemma left_of_down s Ls key level n :
  wf s Ls -> left_of s Ls key (S level) n -> left_of s Ls key level n.
Proof.
  intros W (Hl & Hn & Hb). split_and!; [lia| |done].
  apply elem_of_cons in Hn as [->|Hn]; [left|right]. by apply W.
Qed.

(** The list split at the key. *)
Definition splits_at (s : SkipList) (key : Key) (l l1 l2 : list nat) : Prop :=
  l = l1 ++ l2 /\ (forall m, m ∈ l1 -> node_below s key m) /\
  (forall m, head l2 = Some m -> exists k, key_of s m = Some k /\ compare_ k key <> Lt).

Lemma search_step_spec s Ls key level n :
  wf s Ls -> left_of s Ls key level n ->
  exists r, search_step s key n level = Some r /\
    match r with
    | Right m => left_of s Ls key level m /\ node_below s key m /\
        exists l1 l2, head_ :: Ls level = l1 ++ n :: m :: l2
    | _ => (if r is Found nx then level = 0%nat else level <> 0%nat) /\
        exists l1 l2, splits_at s key (Ls level) l1 l2 /\ n = default head_ (last l1) /\
          next s n level = Some (head l2) /\ (if r is Found nx then nx = head l2 else True)
    end.
Proof.
  intros W (Hl & Hn & Hb). destruct (level_at s Ls level n W Hl Hn) as (l1 & l2 & E & Hx & Hc).
  unfold search_step. rewrite Hx. cbn [mbind option_bind].
  assert (forall m, head l2 = Some m -> m ∈ Ls level) as Hin.
  { intros m Hm. destruct l2 as [|m' l2]; [done|]. injection Hm as ->.
    destruct l1 as [|h l1]; injection E as _ E; rewrite E; [left|].
    apply elem_of_app. right. right. left. }
  assert ((forall m, head l2 = Some m -> exists k, key_of s m = Some k /\ compare_ k key <> Lt) ->
    (exists l1 l2', splits_at s key (Ls level) l1 l2' /\ n = default head_ (last l1) /\
      next s n level = Some (head l2') /\ head l2 = head l2')) as Hsplit.
  { intros Hge. destruct l1 as [|h l1]; injection E as Eh E.
    - subst n. exists [], l2. split_and!; try done. split_and!; try done.
      intros m Hm. by apply not_elem_of_nil in Hm.
    - exists (l1 ++ [n]), l2. split_and!; [|by rewrite last_snoc|done|done]. split_and!; try done.
      + by rewrite E, <- app_assoc.
      + destruct Hb as [Hh|Hb].
        { exfalso. apply (wf_head _ _ W level Hl). rewrite E, <- Hh. apply elem_of_app. right. left. }
        intros m [Hm| ->%list_elem_of_singleton]%elem_of_app; [|done].
        apply (node_lt_below s key m n); [|done].
        by apply (sorted_split s (Ls level) l1 n l2 (wf_sorted _ _ W level Hl) E). }
  destruct (head l2) as [m|] eqn:Em; cbn [key_is_after_node mbind option_bind].
  - destruct (wf_key s Ls level m W Hl (Hin m eq_refl)) as [k Hk]. rewrite Hk.
    cbn [mbind option_bind]. destruct (compare_ k key) eqn:Ec.
    2: { eexists. split; [done|]. split; [|split].
         - split_and!; [done|right; by apply Hin|right; by exists k].
         - by exists k.
         - destruct l2 as [|m' l2]; [done|]. injection Em as ->. by exists l1, l2. }
    all: destruct Hsplit as (a & b & ? & ? & ? & ?);
      [intros m' [= <-]; exists k; split; [done|by rewrite Ec]|].
    all: eexists; split; [done|]; destruct (Nat.eqb_spec level 0); split; try done; exists a, b;
      (split; [done|split; [done|split; (done || congruence)]]).
  - destruct Hsplit as (a & b & ? & ? & ? & ?); [done|].
    eexists; split; [done|]; destruct (Nat.eqb_spec level 0); split; try done; exists a, b;
      (split; [done|split; [done|split; (done || congruence)]]).
Qed.

(** ** Termination and result of a search *)
Lemma node_lt_irrefl s a : ~ node_lt s a a.
Proof. intros (ka & kb & Ha & Hb & H). assert (kb = ka) as -> by congruence. by rewrite ko_refl in H. Qed.
Lemma node_lt_trans s a b c : node_lt s a b -> node_lt s b c -> node_lt s a c.
Proof.
  intros (ka & kb & Ha & Hb & H1) (kb' & kc & Hb' & Hc & H2). exists ka, kc.
  assert (kb' = kb) as -> by congruence. split_and!; [done|done|]. by eapply ko_trans.
Qed.

Lemma wf_sub_0 s Ls i n : wf s Ls -> (i < kMaxHeight)%nat -> n ∈ Ls i -> n ∈ Ls 0%nat.
Proof.
  intros W. induction i as [|i IH]; intros Hi Hn; [done|]. apply IH; [lia|]. by apply W.
Qed.

Lemma wf_length s Ls : wf s Ls -> (length (Ls 0%nat) <= length (nodes s))%nat.
Proof.
  intros W. rewrite <- (length_seq (length (nodes s)) 0).
  apply submseteq_length, NoDup_submseteq.
  - pose proof (wf_sorted _ _ W 0%nat ltac:(unfold kMaxHeight; lia)) as Hs.
    induction Hs as [|n l Hs IH HF]; constructor; [|done]. intros Hin.
    rewrite Forall_forall in HF. by apply (node_lt_irrefl s n), HF.
  - intros n Hn. destruct (wf_key s Ls 0 n W) as [k Hk]; [unfold kMaxHeight; lia|done|].
    unfold key_of in Hk. apply fmap_Some in Hk as (nd & Hnd & _).
    apply elem_of_seq. apply lookup_lt_Some in Hnd. lia.
Qed.

(** Moving right shortens what is left of level 0. *)
Lemma right_progress s Ls level n m l1 l2 a b :
  wf s Ls -> (level < kMaxHeight)%nat -> head_ :: Ls level = l1 ++ n :: m :: l2 ->
  head_ :: Ls 0%nat = a ++ n :: b ->
  exists a' b', head_ :: Ls 0%nat = a' ++ m :: b' /\ (length b' < length b)%nat.
Proof.
  intros W Hl E E0.
  assert (m ∈ Ls level) as Hm.
  { destruct l1; injection E as _ E; rewrite E; [left|]. apply elem_of_app. right. right. left. }
  assert (n = head_ \/ node_lt s n m) as Hnm.
  { destruct l1 as [|h l1]; injection E as Eh E; [by left|right].
    apply (sorted_split s (Ls level) l1 n (m :: l2) (wf_sorted _ _ W level Hl) E). left. }
  apply (wf_sub_0 s Ls level m W Hl) in Hm.
  assert (m ∈ b) as Hb.
  { destruct a as [|h a]; injection E0 as Eh E0; [by rewrite E0 in Hm|].
    pose proof (sorted_split s (Ls 0%nat) a n b (wf_sorted _ _ W 0%nat ltac:(unfold kMaxHeight; lia)) E0)
      as [Hbef _].
    destruct Hnm as [->|Hnm].
    { exfalso. apply (wf_head _ _ W 0%nat); [unfold kMaxHeight; lia|]. rewrite E0.
      apply elem_of_app. right. left. }
    rewrite E0 in Hm. apply elem_of_app in Hm as [Hm|[->|Hm]%elem_of_cons]; [| |done].
    - exfalso. apply (node_lt_irrefl s n). by eapply node_lt_trans; [|apply Hbef].
    - by apply node_lt_irrefl in Hnm. }
  apply list_elem_of_split in Hb as (b1 & b2 & ->). exists (a ++ n :: b1), b2. split.
  - rewrite E0. by rewrite <- app_assoc.
  - rewrite length_app. simpl. lia.
Qed.

(** The predecessors a search has recorded at levels [lo..hi). *)
Definition prev_ok (s : SkipList) (Ls : nat -> list nat) (key : Key) (prev : list (option nat))
    (lo hi : nat) : Prop :=
  length prev = kMaxHeight /\
  forall i, (lo <= i < hi)%nat -> exists a b,
    prev !! i = Some (Some (default head_ (last a))) /\ splits_at s key (Ls i) a b.

Lemma prev_ok_insert s Ls key prev level hi a b :
  prev_ok s Ls key prev (S level) hi -> (level < kMaxHeight)%nat ->
  splits_at s key (Ls level) a b ->
  prev_ok s Ls key (<[level := Some (default head_ (last a))]> prev) level hi.
Proof.
  intros [Hlen Hp] Hl Hs. split; [by rewrite length_insert|].
  intros i Hi. destruct (decide (i = level)) as [->|].
  - exists a, b. rewrite list_lookup_insert_eq by (rewrite Hlen; lia). done.
  - rewrite list_lookup_insert_ne by done. apply Hp. lia.
Qed.

Lemma find_ge_loop_spec fuel s Ls key n level prev hi a b :
  wf s Ls -> left_of s Ls key level n -> head_ :: Ls 0%nat = a ++ n :: b ->
  (length b + level < fuel)%nat -> prev_ok s Ls key prev (S level) hi ->
  exists l1 l2 prev', find_ge_loop fuel s key n level prev = Some (head l2, prev') /\
    splits_at s key (Ls 0%nat) l1 l2 /\ prev_ok s Ls key prev' 0 hi.
Proof.
  intros W. revert n level prev a b. induction fuel as [|fuel IH];
    intros n level prev a b HL E Hf Hp; [lia|].
  cbn [find_ge_loop]. destruct (search_step_spec s Ls key level n W HL) as (r & -> & Hr).
  cbn [mbind option_bind]. destruct HL as (Hlev & HL). destruct r as [m| |nx].
  - destruct Hr as (HL' & _ & l1 & l2 & El).
    destruct (right_progress s Ls level n m l1 l2 a b W Hlev El E) as (a' & b' & E' & Hlt).
    apply (IH m level prev a' b'); [done|done|lia|done].
  - destruct Hr as (Hne & l1 & l2 & Hs & -> & _). destruct level as [|level]; [done|].
    replace (S level - 1)%nat with level by lia.
    apply (IH _ level _ a b); [|done|lia|by apply prev_ok_insert with l2].
    apply left_of_down; [done|]. by split.
  - destruct Hr as (-> & l1 & l2 & Hs & -> & _ & ->).
    eexists l1, l2, _. split; [done|]. split; [done|]. by apply prev_ok_insert with l2.
Qed.

Lemma left_of_head s Ls key : wf s Ls -> left_of s Ls key (max_height_ s - 1) head_.
Proof. intros W. pose proof (wf_height _ _ W). split_and!; [lia|left|by left]. Qed.

Lemma find_ge_spec s Ls key :
  wf s Ls -> exists l1 l2 prev, find_greater_or_equal s key = Some (head l2, prev) /\
    splits_at s key (Ls 0%nat) l1 l2 /\ prev_ok s Ls key prev 0 (max_height_ s).
Proof.
  intros W. pose proof (wf_height _ _ W). pose proof (wf_length _ _ W).
  apply (find_ge_loop_spec _ s Ls key head_ _ _ _ [] (Ls 0%nat)); try done.
  - by apply left_of_head.
  - unfold search_fuel. lia.
  - split; [by rewrite length_replicate|]. intros i Hi. lia.
Qed.

(** ** One insertion, store by store *)

(** No node holds the key already. *)
Definition fresh (s : SkipList) (Ls : nat -> list nat) (key : Key) : Prop :=
  forall m, m ∈ Ls 0%nat -> node_below s key m \/ node_above s key m.

(** The writer at level [i] of inserting node [N]. *)
Record inserting (s : SkipList) (Ls : nat -> list nat) (key : Key) (N height : nat)
    (prev : list (option nat)) (i : nat) : Prop := {
  ins_wf : wf s Ls;
  ins_height : (height <= max_height_ s)%nat;
  ins_key : key_of s N = Some key;
  ins_node : exists nd, nodes s !! N = Some nd /\ length (next_ nd) = height;
  ins_head : N <> head_;
  ins_in : forall j, (j < i)%nat -> N ∈ Ls j;
  ins_out : forall j, (i <= j < kMaxHeight)%nat -> N ∉ Ls j;
  ins_prev : prev_ok s Ls key prev i height;
  ins_above : forall j a b m, (i <= j < height)%nat -> splits_at s key (Ls j) a b -> m ∈ b -> node_above s key m
}.

Lemma node_above_ne s key m : key_of s m = Some key -> ~ node_above s key m.
Proof. intros Hk (k & Hk' & H). assert (k = key) as -> by congruence. by rewrite ko_refl in H. Qed.
Lemma node_below_ne s key m : key_of s m = Some key -> ~ node_below s key m.
Proof. intros Hk (k & Hk' & H). assert (k = key) as -> by congruence. by rewrite ko_refl in H. Qed.

Lemma fresh_above s Ls key j a b m :
  wf s Ls -> fresh s Ls key -> (j < kMaxHeight)%nat -> splits_at s key (Ls j) a b -> m ∈ b ->
  node_above s key m.
Proof.
  intros W F Hj (E & _ & Hh) Hm. destruct b as [|h b]; [by apply not_elem_of_nil in Hm|].
  assert (node_above s key h) as Habove.
  { destruct (Hh h eq_refl) as (k & Hk & Hnlt).
    destruct (F h) as [(k' & Hk' & Hlt)|]; [| |done].
    - apply (wf_sub_0 s Ls j); [done|done|]. rewrite E. apply elem_of_app. right. left.
    - by assert (k' = k) as -> by congruence. }
  apply elem_of_cons in Hm as [->|Hm]; [done|].
  destruct (sorted_split s (Ls j) a h b (wf_sorted _ _ W j Hj) E) as [_ Haft].
  destruct (Haft m Hm) as (kh & km & Hkh & Hkm & Hlt). destruct Habove as (kh' & Hkh' & Hab).
  assert (kh' = kh) as -> by congruence. exists km. split; [done|]. by eapply ko_trans.
Qed.

(** Stores that keep keys keep what is said of keys. *)
Section same_keys.
Context (s s' : SkipList) (Hk : forall m, key_of s' m = key_of s m).
Lemma node_lt_same a b : node_lt s a b <-> node_lt s' a b.
Proof. unfold node_lt. by rewrite !Hk. Qed.
Lemma node_below_same key a : node_below s key a <-> node_below s' key a.
Proof. unfold node_below. by rewrite !Hk. Qed.
Lemma node_above_same key a : node_above s key a <-> node_above s' key a.
Proof. unfold node_above. by rewrite !Hk. Qed.
Lemma splits_at_same key l a b : splits_at s key l a b <-> splits_at s' key l a b.
Proof.
  unfold splits_at. split; intros (E & H1 & H2); (split_and!; [done| |]).
  - intros m Hm. by apply node_below_same, H1.
  - intros m Hm. rewrite Hk. by apply H2.
  - intros m Hm. by apply node_below_same, H1.
  - intros m Hm. rewrite <- Hk. by apply H2.
Qed.
Lemma sorted_same l : StronglySorted (node_lt s) l -> StronglySorted (node_lt s') l.
Proof.
  induction 1 as [|n l Hs IH HF]; constructor; [done|]. eapply Forall_impl; [done|].
  intros m. apply node_lt_same.
Qed.
Lemma prev_ok_same Ls key prev lo hi : prev_ok s Ls key prev lo hi -> prev_ok s' Ls key prev lo hi.
Proof.
  intros [Hl Hp]. split; [done|]. intros i Hi. destruct (Hp i Hi) as (a & b & ? & ?).
  exists a, b. split; [done|]. by apply splits_at_same.
Qed.
End same_keys.

Lemma link_inserting s Ls key N height prev i :
  inserting s Ls key N height prev i -> (i < height)%nat -> (height <= kMaxHeight)%nat ->
  exists s' a b, link s N prev i = Some s' /\ inserting s' Ls key N height prev i /\
    splits_at s' key (Ls i) a b /\ prev !! i = Some (Some (default head_ (last a))) /\
    next s' N i = Some (head b).
Proof.
  intros [] Hi Hh. destruct ins_prev0 as [Hplen Hp].
  destruct (Hp i ltac:(lia)) as (a & b & Hpi & Hs). unfold link. rewrite Hpi. cbn [mjoin option_join mbind option_bind].
  assert (next s (default head_ (last a)) i = Some (head b)) as Hx.
  { destruct Hs as (E & _ & _). pose proof (wf_chain _ _ ins_wf0 i ltac:(lia)) as Hc. rewrite E in Hc.
    by apply chain_last in Hc. }
  rewrite Hx. cbn [mbind option_bind].
  destruct (set_next_Some s N i (head b)) as [s' Es].
  { destruct ins_node0 as (nd & Hnd & Hlen). exists nd. split; [done|lia]. }
  rewrite Es. destruct (set_next_spec _ _ _ _ _ Es) as (Hn & Hother & Hkeys & Hmh & Hnl & Hnodes).
  exists s', a, b. split_and!; try done; [|by apply (splits_at_same s s')]. constructor.
  - destruct ins_wf0. constructor; try done.
    + intros j Hj. eapply chain_ext; [|by apply wf_chain0]. intros m Hm.
      apply Hother. destruct (decide (j = i)) as [->|]; [left|by right]. intros ->.
      apply elem_of_cons in Hm as [->|Hm]; [done|]. apply (ins_out0 i); [lia|done].
    + intros j Hj. apply (sorted_same s s'); [done|by apply wf_sorted0].
    + by rewrite Hmh.
    + intros j. rewrite Hmh. apply wf_top0.
  - by rewrite Hmh.
  - by rewrite Hkeys.
  - destruct ins_node0 as (nd & Hnd & Hlen). destruct (Hnodes _ _ Hnd) as (nd' & ? & ?).
    exists nd'. split; [done|lia].
  - done.
  - done.
  - done.
  - by apply (prev_ok_same s s').
  - intros j a' b' m Hj Hs' Hm. apply (node_above_same s s'); [done|].
    apply (ins_above0 j a' b'); [done|by apply (splits_at_same s s')|done].
Qed.

Definition add_at (Ls : nat -> list nat) (i : nat) (l : list nat) (j : nat) : list nat :=
  if decide (j = i) then l else Ls j.

Lemma chain_publish s s' i n a N b :
  chain s i n (a ++ b) -> next s' N i = Some (head b) ->
  next s' (default n (last a)) i = Some (Some N) ->
  (forall m, m <> default n (last a) -> m <> N -> next s' m i = next s m i) ->
  N ∉ n :: a ++ b -> NoDup (n :: a ++ b) ->
  chain s' i n (a ++ N :: b).
Proof.
  revert n. induction a as [|x a IH]; intros n Hc HN Hp Ho Hnin Hnd.
  - simpl in *. split; [done|].
    assert (chain s' i N b) as Hb; [|done].
    destruct b as [|y b]; [done|]. simpl in *. split; [done|]. destruct Hc as [_ Hc].
    eapply chain_ext; [|exact Hc]. intros m Hm. apply NoDup_cons in Hnd as [Hn _]. apply Ho.
    + intros ->. done.
    + intros ->. apply Hnin. by right.
  - simpl app in *. destruct Hc as [Hx Hc]. apply NoDup_cons in Hnd as [Hn Hnd].
    assert (default n (last (x :: a)) = default x (last a)) as El by apply default_last.
    rewrite El in *. split.
    + rewrite Ho; [done| |].
      * intros Heq. apply Hn. rewrite Heq. destruct a as [|z a] using rev_ind; [left|].
        rewrite last_snoc. simpl. right. apply elem_of_app. left. apply elem_of_app. right. left.
      * intros ->. apply Hnin. left.
    + apply IH; try done. intros Hin. apply Hnin. by right.
Qed.

Lemma publish_inserting s Ls key N height prev i a b :
  inserting s Ls key N height prev i -> (i < height)%nat -> (height <= kMaxHeight)%nat ->
  splits_at s key (Ls i) a b -> prev !! i = Some (Some (default head_ (last a))) ->
  next s N i = Some (head b) ->
  exists s', publish s N prev i = Some s' /\
    inserting s' (add_at Ls i (a ++ N :: b)) key N height prev (S i) /\
    (forall m, key_of s' m = key_of s m).
Proof.
  intros [] Hi Hh Hs Hpi HN. pose proof Hs as (E & Hbel & _).
  pose proof (ins_above0 i a b) as Habv.
  assert (forall m, m ∈ b -> node_above s key m) as Habove by (intros m Hm; apply Habv; (lia || done)).
  clear Habv. unfold publish. rewrite Hpi. cbn [mjoin option_join mbind option_bind].
  assert (default head_ (last a) ∈ head_ :: Ls i) as Hpin.
  { rewrite E. destruct a as [|x a _] using rev_ind; [left|]. rewrite last_snoc. cbn [default].
    right. apply elem_of_app. left. apply elem_of_app. right. left. }
  destruct (level_at s Ls i _ ins_wf0 ltac:(lia) Hpin) as (? & ? & _ & Hpx & _).
  destruct (set_next_Some s (default head_ (last a)) i (Some N)) as [s' Es].
  { apply next_spec in Hpx as (nd & Hnd & Hl). exists nd. split; [done|]. by eapply lookup_lt_Some. }
  rewrite Es. exists s'. split; [done|].
  destruct (set_next_spec _ _ _ _ _ Es) as (Hn & Hother & Hkeys & Hmh & Hnl & Hnodes).
  split; [|done].
  assert (N <> default head_ (last a)) as HNp.
  { intros HN'. rewrite <- HN' in Hpin. apply elem_of_cons in Hpin as [|Hin]; [done|].
    apply (ins_out0 i); [lia|done]. }
  assert (NoDup (head_ :: Ls i)) as Hnd.
  { constructor; [apply (wf_head _ _ ins_wf0); lia|].
    pose proof (wf_sorted _ _ ins_wf0 i ltac:(lia)) as Hso. clear -Hso KO.
    induction Hso as [|n l Hso IH HF]; constructor; [|done]. intros Hin.
    rewrite Forall_forall in HF. by apply (node_lt_irrefl s n), HF. }
  assert (wf s' (add_at Ls i (a ++ N :: b))) as W'.
  { unfold add_at. pose proof ins_wf0 as []. constructor.
    - intros j Hj. case_decide as Hji.
      + subst j. rewrite E in *. eapply (chain_publish s s'); [by rewrite <- E; apply wf_chain0| | | | |].
        * by rewrite Hother by (left; done).
        * done.
        * intros m Hm _. apply Hother. by left.
        * rewrite <- E. intros [->|Hin]%elem_of_cons; [done|]. apply (ins_out0 i); [lia|done].
        * done.
      + eapply chain_ext; [|by apply wf_chain0]. intros m _. apply Hother. by right.
    - intros j Hj. case_decide as Hji; [|apply (sorted_same s s'); [done|by apply wf_sorted0]].
      subst j. pose proof (wf_sorted0 i Hj) as Hso. rewrite E in Hso.
      apply (sorted_same s s' Hkeys) in Hso. apply StronglySorted_app in Hso as (H12 & H1 & H2).
      apply StronglySorted_app. split_and!; [|done|constructor; [done|]].
      + intros u v Hu [->|Hv]%elem_of_cons; [|by apply H12].
        apply (node_lt_same s s'); [done|]. destruct (Hbel u Hu) as (ku & Hku & Hlt).
        exists ku, key. done.
      + apply Forall_forall. intros v Hv. apply (node_lt_same s s'); [done|].
        destruct (Habove v Hv) as (kv & Hkv & Hlt). by exists key, kv.
    - intros j n Hj. case_decide as H1; case_decide as H2; try lia.
      + subst i. intros Hin. destruct (decide (n = N)) as [->|]; [apply ins_in0; lia|].
        apply wf_sub0; [done|]. rewrite E. apply elem_of_app in Hin as [|[|]%elem_of_cons]; [| |];
          [apply elem_of_app; by left|done|apply elem_of_app; by right].
      + subst j. intros Hin%wf_sub0; [|done]. rewrite E in Hin.
        apply elem_of_app in Hin as [|]; apply elem_of_app; [by left|right; by right].
      + by apply wf_sub0.
    - intros j Hj. case_decide; [|by apply wf_head0].
      intros [Hin|[Heq|Hin]%elem_of_cons]%elem_of_app; [|by symmetry in Heq|];
        apply (wf_head0 i); try lia; rewrite E; apply elem_of_app; auto.
    - by rewrite Hmh.
    - intros j. rewrite Hmh. intros Hj. case_decide; [lia|]. by apply wf_top0. }
  constructor; try done.
  - by rewrite Hmh.
  - by rewrite Hkeys.
  - destruct ins_node0 as (nd & Hnd' & Hlen). destruct (Hnodes _ _ Hnd') as (nd' & ? & ?).
    exists nd'. split; [done|lia].
  - intros j Hj. unfold add_at. case_decide; [apply elem_of_app; right; left|]. apply ins_in0. lia.
  - intros j Hj. unfold add_at. case_decide; [lia|]. apply ins_out0. lia.
  - destruct ins_prev0 as [Hpl Hp]. split; [done|]. intros j Hj. unfold add_at. case_decide; [lia|].
    destruct (Hp j ltac:(lia)) as (a' & b' & ? & ?). exists a', b'. split; [done|].
    by apply (splits_at_same s s').
  - intros j a' b' m Hj. unfold add_at. case_decide; [lia|]. intros Hs' Hm.
    apply (node_above_same s s'); [done|]. apply (ins_above0 j a' b'); [lia| |done].
    by apply (splits_at_same s s').
Qed.

(** ** Preparing: nothing a reader can reach changes *)
Lemma random_height_loop_range fuel h rng :
  (1 <= h <= kMaxHeight)%nat -> (1 <= fst (random_height_loop fuel h rng) <= kMaxHeight)%nat.
Proof.
  revert h rng. induction fuel as [|fuel IH]; intros h rng Hh; [done|].
  cbn [random_height_loop]. destruct (Nat.ltb_spec h kMaxHeight); [|done].
  destruct (rng_next rng) as [x rng']. case_if; [|done]. apply IH. lia.
Qed.

(** More nodes, the old ones as they were. *)
Record extends (s s' : SkipList) : Prop := {
  ext_key m k : key_of s m = Some k -> key_of s' m = Some k;
  ext_next m l v : next s m l = Some v -> next s' m l = Some v
}.

Lemma node_lt_ext s s' a b : extends s s' -> node_lt s a b -> node_lt s' a b.
Proof. intros [] (ka & kb & ? & ? & ?). exists ka, kb. auto. Qed.
Lemma node_below_ext s s' key a : extends s s' -> node_below s key a -> node_below s' key a.
Proof. intros [] (ka & ? & ?). exists ka. auto. Qed.
Lemma splits_at_ext s s' key l a b : extends s s' -> splits_at s key l a b -> splits_at s' key l a b.
Proof.
  intros X (E & H1 & H2). split_and!; [done| |].
  - intros m Hm. by apply (node_below_ext s s'), H1.
  - intros m Hm. destruct (H2 m Hm) as (k & ? & ?). exists k. split; [|done]. by apply X.
Qed.
Lemma fresh_ext s s' Ls key : extends s s' -> fresh s Ls key -> fresh s' Ls key.
Proof.
  intros X F m Hm. destruct (F m Hm) as [H1|(k & ? & ?)]; [left|right].
  - by apply (node_below_ext s s').
  - exists k. split; [by apply X|done].
Qed.
Lemma chain_extends s s' level n l : extends s s' -> chain s level n l -> chain s' level n l.
Proof.
  intros X. revert n. induction l as [|m l IH]; intros n; simpl.
  - apply X.
  - intros [H1 H2]. split; [by apply X|by apply IH].
Qed.
Lemma wf_extends s s' Ls :
  extends s s' -> wf s Ls -> (max_height_ s <= max_height_ s' <= kMaxHeight)%nat -> wf s' Ls.
Proof.
  intros X [] Hm. constructor; try done.
  - intros i Hi. by apply (chain_extends s s'), wf_chain0.
  - intros i Hi. specialize (wf_sorted0 i Hi). induction wf_sorted0 as [|n l Hs IH HF]; constructor; [done|].
    eapply Forall_impl; [done|]. intros m. by apply node_lt_ext.
  - lia.
  - intros i Hi. apply wf_top0. lia.
Qed.

Lemma extends_new s key h mh rng :
  extends s (mkList (nodes s ++ [mkNode key (replicate h None)]) mh rng).
Proof.
  constructor.
  - intros m k. unfold key_of. cbn [nodes]. intros (nd & Hnd & ->)%fmap_Some.
    rewrite (lookup_app_l_Some _ _ _ _ Hnd). done.
  - intros m l v (nd & Hnd & Hl)%next_spec. apply next_spec. exists nd. split; [|done].
    by apply lookup_app_l_Some.
Qed.

Lemma prepare_spec s Ls key :
  wf s Ls -> fresh s Ls key ->
  exists s' N prev h, prepare s key = Some (s', N, prev, h) /\ (1 <= h <= kMaxHeight)%nat /\
    extends s s' /\ inserting s' Ls key N h prev 0.
Proof.
  intros W F. unfold prepare.
  destruct (find_ge_spec s Ls key W) as (l1 & l2 & prev & -> & _ & Hplen & Hp). cbn [mbind option_bind].
  unfold random_height. pose proof (random_height_loop_range kMaxHeight 1 (rng_ s) ltac:(unfold kMaxHeight; lia)) as Hh.
  destruct (random_height_loop kMaxHeight 1 (rng_ s)) as [h rng]. cbn [fst] in Hh.
  cbn [max_height_ nodes rng_]. pose proof (wf_height _ _ W) as Hmh.
  set (prev' := if (max_height_ s <? h)%nat then fill_prev prev (max_height_ s) h else prev).
  set (mh := Nat.max (max_height_ s) h).
  set (s' := mkList (nodes s ++ [mkNode key (replicate h None)]) mh rng).
  exists s', (length (nodes s)), prev', h.
  assert (extends s s') as X by apply extends_new.
  assert (wf s' Ls) as W' by (apply (wf_extends s s'); [done|done|cbn; unfold mh; lia]).
  assert (forall j, (0 <= j < kMaxHeight)%nat -> length (nodes s) ∉ Ls j) as Hout.
  { intros j [_ Hj] Hin. destruct (wf_key s Ls j _ W Hj Hin) as [k Hk]. unfold key_of in Hk.
    rewrite lookup_ge_None_2 in Hk by lia. done. }
  split_and!; [|lia|lia|done|].
  { unfold prev', s', mh, new_node. destruct (Nat.ltb_spec (max_height_ s) h);
      cbn [nodes max_height_ rng_]; [rewrite Nat.max_r by lia|rewrite Nat.max_l by lia]; done. }
  constructor; try done.
  - cbn. unfold mh. lia.
  - unfold key_of, s'. cbn [nodes]. by rewrite list_lookup_middle.
  - exists (mkNode key (replicate h None)). unfold s'. cbn [nodes]. rewrite list_lookup_middle by done.
    split; [done|]. cbn. by rewrite length_replicate.
  - intros E. unfold head_ in E. apply nil_length_inv in E. pose proof (wf_chain _ _ W 0%nat ltac:(unfold kMaxHeight; lia)) as Hc.
    destruct (Ls 0%nat); simpl in Hc; unfold next in Hc; rewrite E in Hc; [done|by destruct Hc].
  - intros j Hj. lia.
  - split.
    { unfold prev'. case_if; [|done]. unfold fill_prev. by rewrite length_imap. }
    intros i Hi. destruct (decide (i < max_height_ s)%nat) as [Hlt|Hge].
    + destruct (Hp i ltac:(lia)) as (a & b & Hpi & Hs). exists a, b.
      split; [|by apply (splits_at_ext s s')]. unfold prev'. case_if; [|done].
      unfold fill_prev. rewrite list_lookup_imap, Hpi. cbn.
      destruct (Nat.leb_spec (max_height_ s) i); [lia|done].
    + exists [], []. split.
      * unfold prev'. destruct (Nat.ltb_spec (max_height_ s) h); [|lia]. unfold fill_prev.
        rewrite list_lookup_imap. destruct (lookup_lt_is_Some_2 prev i) as [p ->]; [lia|].
        cbn [fmap option_fmap option_map].
        by rewrite (proj2 (Nat.leb_le _ _)), (proj2 (Nat.ltb_lt _ _)) by lia.
      * rewrite (wf_top _ _ W i) by lia. split_and!; [done| |done].
        intros m Hm. by apply not_elem_of_nil in Hm.
  - intros j a b m Hj Hs Hm. apply (fresh_above s' Ls key j a b); try done; [|lia].
    by apply (fresh_ext s s').
Qed.

(** ** Splicing *)
Lemma splice_spec n i s Ls key N h prev :
  inserting s Ls key N h prev i -> (n + i = h)%nat -> (h <= kMaxHeight)%nat ->
  exists s' Ls', splice n i s N prev = Some s' /\ inserting s' Ls' key N h prev h /\
    (forall m, key_of s' m = key_of s m) /\
    (if (i =? 0)%nat && (0 <? n)%nat
     then exists a b, splits_at s key (Ls 0%nat) a b /\ Ls' 0%nat = a ++ N :: b
     else Ls' 0%nat = Ls 0%nat).
Proof.
  revert i s Ls. induction n as [|n IH]; intros i s Ls I Hh Hk; cbn [splice].
  { exists s, Ls. assert (i = h) as -> by lia. split_and!; try done. by rewrite andb_false_r. }
  destruct (link_inserting s Ls key N h prev i I) as (s1 & a & b & E1 & I1 & Hs & Hp & Hx); [lia|done|].
  rewrite E1. cbn [mbind option_bind].
  assert (forall m, key_of s1 m = key_of s m) as K1.
  { unfold link in E1. destruct (mjoin (prev !! i)) as [p|]; [|done]. cbn [mbind option_bind] in E1.
    destruct (next s p i); [|done]. cbn [mbind option_bind] in E1.
    by apply set_next_spec in E1 as (_ & _ & ? & _). }
  destruct (publish_inserting s1 Ls key N h prev i a b I1) as (s2 & E2 & I2 & K2); [lia|done..|].
  rewrite E2. cbn [mbind option_bind].
  destruct (IH (S i) s2 _ I2) as (s3 & Ls3 & -> & I3 & K3 & H3); [lia|done|].
  exists s3, Ls3. split_and!; try done.
  { intros m. by rewrite K3, K2, K1. }
  cbn [Nat.eqb andb] in H3. rewrite H3. unfold add_at.
  destruct (Nat.eqb_spec i 0) as [->|]; cbn [andb Nat.ltb Nat.leb].
  - exists a, b. split; [|done]. by apply (splits_at_same s s1).
  - case_decide; [lia|done].
Qed.

Lemma insert_wf s Ls key :
  wf s Ls -> fresh s Ls key ->
  exists s' Ls' a b N, insert s key = Some s' /\ wf s' Ls' /\ splits_at s key (Ls 0%nat) a b /\
    Ls' 0%nat = a ++ N :: b /\ key_of s' N = Some key /\
    (forall m k, key_of s m = Some k -> key_of s' m = Some k).
Proof.
  intros W F. unfold insert.
  destruct (prepare_spec s Ls key W F) as (s1 & N & prev & h & -> & Hh & X & I).
  cbn [mbind option_bind].
  destruct (splice_spec h 0 s1 Ls key N h prev I) as (s2 & Ls2 & -> & I2 & K2 & H2); [lia|lia|].
  cbn [Nat.eqb andb] in H2. rewrite (proj2 (Nat.ltb_lt _ _)) in H2 by lia.
  destruct H2 as (a & b & Hs & E). destruct (find_ge_spec s Ls key W) as (l1 & l2 & _ & _ & Hs0 & _).
  assert (a = l1 /\ b = l2) as [-> ->].
  { assert (splits_at s1 key (Ls 0%nat) l1 l2) as Hs1 by (by apply (splits_at_ext s s1)).
    destruct Hs as (Ea & Ha & Hb), Hs1 as (El & Hl1 & Hl2). rewrite Ea in El.
    apply app_eq_inv in El as [(k & -> & ->)|(k & -> & ->)].
    - destruct k as [|m k]; [by rewrite app_nil_r|]. exfalso.
      destruct (Hl2 m eq_refl) as (km & Hkm & Hn).
      destruct (Ha m) as (km' & Hkm' & Hlt); [apply elem_of_app; right; left|].
      assert (km' = km) as -> by congruence. done.
    - destruct k as [|m k]; [by rewrite app_nil_r|]. exfalso.
      destruct (Hb m eq_refl) as (km & Hkm & Hn).
      destruct (Hl1 m) as (km' & Hkm' & Hlt); [apply elem_of_app; right; left|].
      assert (km' = km) as -> by congruence. done. }
  exists s2, Ls2, l1, l2, N. split_and!; try done.
  - apply I2.
  - apply I2.
  - intros m k Hm. rewrite K2. by apply X.
Qed.

(** ** The other searches *)
Lemma find_lt_loop_step fuel s key n level :
  find_lt_loop (S fuel) s key n level =
    (r ← search_step s key n level;
     match r with
     | Right m => find_lt_loop fuel s key m level
     | Down => find_lt_loop fuel s key n (level - 1)
     | Found _ => Some n
     end).
Proof.
  cbn [find_lt_loop]. unfold search_step. destruct (next s n level) as [nx|]; [|done].
  cbn [mbind option_bind]. destruct (key_is_after_node s key nx) as [[]|]; [by destruct nx| |done].
  cbn [mbind option_bind]. by destruct (level =? 0)%nat.
Qed.

Lemma find_lt_loop_spec fuel s Ls key n level a b :
  wf s Ls -> left_of s Ls key level n -> head_ :: Ls 0%nat = a ++ n :: b ->
  (length b + level < fuel)%nat ->
  exists l1 l2, find_lt_loop fuel s key n level = Some (default head_ (last l1)) /\
    splits_at s key (Ls 0%nat) l1 l2.
Proof.
  intros W. revert n level a b. induction fuel as [|fuel IH]; intros n level a b HL E Hf; [lia|].
  rewrite find_lt_loop_step. destruct (search_step_spec s Ls key level n W HL) as (r & -> & Hr).
  cbn [mbind option_bind]. destruct HL as (Hlev & HL). destruct r as [m| |nx].
  - destruct Hr as (HL' & _ & l1 & l2 & El).
    destruct (right_progress s Ls level n m l1 l2 a b W Hlev El E) as (a' & b' & E' & Hlt).
    apply (IH m level a' b'); [done|done|lia].
  - destruct Hr as (Hne & _). destruct level as [|level]; [done|].
    replace (S level - 1)%nat with level by lia. apply (IH _ level a b); [|done|lia].
    apply left_of_down; [done|]. by split.
  - destruct Hr as (-> & l1 & l2 & Hs & -> & _). by exists l1, l2.
Qed.

Lemma find_less_than_spec s Ls key :
  wf s Ls -> exists l1 l2, find_less_than s key = Some (default head_ (last l1)) /\
    splits_at s key (Ls 0%nat) l1 l2.
Proof.
  intros W. pose proof (wf_height _ _ W). pose proof (wf_length _ _ W).
  apply (find_lt_loop_spec _ s Ls key head_ _ [] (Ls 0%nat)); try done.
  - by apply left_of_head.
  - unfold search_fuel. lia.
Qed.

Lemma find_last_loop_spec fuel s Ls n level a b :
  wf s Ls -> (level < kMaxHeight)%nat -> n ∈ head_ :: Ls level ->
  head_ :: Ls 0%nat = a ++ n :: b -> (length b + level < fuel)%nat ->
  find_last_loop fuel s n level = Some (default head_ (last (Ls 0%nat))).
Proof.
  intros W. revert n level a b. induction fuel as [|fuel IH]; intros n level a b Hl Hn E Hf; [lia|].
  cbn [find_last_loop]. destruct (level_at s Ls level n W Hl Hn) as (l1 & l2 & El & -> & Hc).
  cbn [mbind option_bind]. destruct l2 as [|m l2]; cbn [head].
  - destruct (Nat.eqb_spec level 0) as [->|].
    + rewrite <- (default_last head_ head_), El, last_snoc. done.
    + destruct level as [|level]; [done|]. replace (S level - 1)%nat with level by lia.
      apply (IH n level a b); [lia| |done|lia].
      apply elem_of_cons in Hn as [->|Hn]; [left|right]. by apply W.
  - destruct (right_progress s Ls level n m l1 l2 a b W Hl El E) as (a' & b' & E' & Hlt).
    apply (IH m level a' b'); [done| |done|lia].
    rewrite El. apply elem_of_app. right. right. left.
Qed.

Lemma find_last_spec s Ls : wf s Ls -> find_last s = Some (default head_ (last (Ls 0%nat))).
Proof.
  intros W. pose proof (wf_height _ _ W). pose proof (wf_length _ _ W).
  apply (find_last_loop_spec _ s Ls head_ _ [] (Ls 0%nat)); try done; [lia|left|].
  unfold search_fuel. lia.
Qed.

(** ** The list as a sorted list of keys *)
Definition represents (s : SkipList) (Ls : nat -> list nat) (l : list Key) : Prop :=
  wf s Ls /\ key_of s <$> Ls 0%nat = Some <$> l.

(** The reference: insertion into a sorted list, and the position of the
    first key not below the target. *)
Fixpoint insert_key (key : Key) (l : list Key) : list Key :=
  match l with
  | [] => [key]
  | k :: l' => match compare_ k key with Lt => k :: insert_key key l' | _ => key :: l end
  end.
Fixpoint position (key : Key) (l : list Key) : nat :=
  match l with
  | [] => O
  | k :: l' => match compare_ k key with Lt => S (position key l') | _ => O end
  end.

Lemma position_below key l j k :
  (j < position key l)%nat -> l !! j = Some k -> compare_ k key = Lt.
Proof.
  revert j. induction l as [|x l IH]; intros j Hj Hl; simpl in *; [lia|].
  destruct (compare_ x key) eqn:E; try lia.
  destruct j as [|j]; [by injection Hl as ->|]. apply (IH j); [lia|done].
Qed.
Lemma position_at key l k : l !! position key l = Some k -> compare_ k key <> Lt.
Proof.
  induction l as [|x l IH]; simpl; [done|].
  destruct (compare_ x key) eqn:E; simpl; [|exact IH|]; intros [= ->]; by rewrite E.
Qed.
Lemma position_le key l : (position key l <= length l)%nat.
Proof. induction l as [|x l IH]; simpl; [lia|]. destruct (compare_ x key); lia. Qed.

Lemma represents_lookup s Ls l i n :
  represents s Ls l -> Ls 0%nat !! i = Some n -> exists k, l !! i = Some k /\ key_of s n = Some k.
Proof.
  intros [_ E] Hi. assert ((key_of s <$> Ls 0%nat) !! i = Some (key_of s n)) as H1
    by (by rewrite list_lookup_fmap, Hi).
  rewrite E, list_lookup_fmap in H1. apply fmap_Some in H1 as (k & Hk & Ek). eauto.
Qed.
Lemma represents_length s Ls l : represents s Ls l -> length (Ls 0%nat) = length l.
Proof. intros [_ E]. apply (f_equal length) in E. by rewrite !length_fmap in E. Qed.

Lemma represents_sorted s Ls l :
  represents s Ls l -> StronglySorted (λ a b, compare_ a b = Lt) l.
Proof.
  intros [W E]. pose proof (wf_sorted _ _ W 0%nat ltac:(unfold kMaxHeight; lia)) as Hs.
  revert l E. induction Hs as [|n ns Hs IH HF]; intros [|k l] E; try done; [constructor|].
  cbn in E. injection E as Ek E. constructor; [by apply IH|].
  apply Forall_forall. intros k' Hk'. apply list_elem_of_lookup in Hk' as [i Hi].
  assert ((key_of s <$> ns) !! i = Some (Some k')) as H1 by (by rewrite E, list_lookup_fmap, Hi).
  rewrite list_lookup_fmap in H1. apply fmap_Some in H1 as (n' & Hn' & Ek').
  rewrite Forall_forall in HF. destruct (HF n') as (ka & kb & Ha & Hb & Hlt);
    [by eapply list_elem_of_lookup_2|]. congruence.
Qed.

Lemma splits_position s Ls l key a b :
  represents s Ls l -> splits_at s key (Ls 0%nat) a b ->
  length a = position key l /\
  key_of s <$> a = Some <$> take (length a) l /\ key_of s <$> b = Some <$> drop (length a) l /\
  insert_key key l = take (length a) l ++ key :: drop (length a) l.
Proof.
  intros [_ E] (El & Ha & Hb). rewrite El in E. clear El. revert l E.
  induction a as [|n a IH]; intros l E; simpl in *.
  - destruct b as [|m b], l as [|k l]; try done. pose proof E as E0.
    cbn in E0. injection E0 as Ek _. destruct (Hb m eq_refl) as (k' & Hk' & Hn).
    assert (k' = k) as -> by congruence. simpl. by destruct (compare_ k key).
  - destruct l as [|k l]; [done|]. cbn in E. injection E as Ek E.
    destruct (Ha n) as (k' & Hk' & Hlt); [left|]. assert (k' = k) as -> by congruence.
    destruct (IH ltac:(intros; apply Ha; by right) l E) as (H1 & H2 & H3 & H4).
    cbn [length position take drop app insert_key]. rewrite Hlt, !fmap_cons, Ek.
    split_and!; [by rewrite H1|f_equal; exact H2|done|by rewrite H4].
Qed.

Lemma represents_fresh s Ls l key :
  represents s Ls l -> Forall (λ k, compare_ k key <> Eq) l -> fresh s Ls key.
Proof.
  intros R HF m [i Hi]%list_elem_of_lookup.
  destruct (represents_lookup s Ls l i m R Hi) as (k & Hk & Hkm).
  rewrite Forall_forall in HF. specialize (HF k (list_elem_of_lookup_2 _ _ _ Hk)).
  destruct (compare_ k key) eqn:Ec; [done|left; by exists k|right].
  exists k. split; [done|]. rewrite (ko_antisym k key), Ec. done.
Qed.

Lemma represents_new rng : represents (SkipList_new rng) (λ _, []) [].
Proof.
  split; [|done]. constructor; try done.
  - intros i Hi. do 12 (destruct i as [|i]; [done|]). unfold kMaxHeight in Hi. lia.
  - constructor.
  - intros i _. apply not_elem_of_nil.
  - cbn. unfold kMaxHeight. lia.
Qed.

Lemma insert_represents s Ls l key :
  represents s Ls l -> Forall (λ k, compare_ k key <> Eq) l ->
  exists s' Ls', insert s key = Some s' /\ represents s' Ls' (insert_key key l).
Proof.
  intros R HF. pose proof R as [W E].
  destruct (insert_wf s Ls key W) as (s' & Ls' & a & b & N & Ei & W' & Hs & EL & HN & Hk).
  { by eapply represents_fresh. }
  exists s', Ls'. split; [done|]. split; [done|].
  destruct (splits_position s Ls l key a b R Hs) as (Hpos & Ea & Eb & ->).
  rewrite EL. rewrite !fmap_app, !fmap_cons, HN.
  assert (forall ns (ks : list Key), key_of s <$> ns = Some <$> ks -> key_of s' <$> ns = Some <$> ks) as Hmap.
  { clear -Hk. induction ns as [|n ns IH]; intros [|k ks] H; try done. cbn in *.
    injection H as H1 H2. f_equal; [by apply Hk|by apply IH]. }
  by rewrite (Hmap _ _ Ea), (Hmap _ _ Eb).
Qed.

(** ** Iterators as positions *)
Lemma next_position s Ls l i n :
  represents s Ls l -> Ls 0%nat !! i = Some n -> next s n 0 = Some (Ls 0%nat !! S i).
Proof.
  intros [W _] Hi. pose proof (wf_chain _ _ W 0%nat ltac:(unfold kMaxHeight; lia)) as Hc.
  revert Hi Hc. generalize head_. generalize (Ls 0%nat). intros ns. revert i.
  induction ns as [|m ns IH]; intros i h Hi Hc; [done|]. destruct Hc as [_ Hc].
  destruct i as [|i]; simpl in *.
  - injection Hi as ->. destruct ns; simpl in Hc; [done|by destruct Hc].
  - by apply (IH i m).
Qed.

Lemma first_position s Ls l : represents s Ls l -> iter_seek_to_first s = Some (Ls 0%nat !! 0%nat).
Proof.
  intros [W _]. pose proof (wf_chain _ _ W 0%nat ltac:(unfold kMaxHeight; lia)) as Hc.
  unfold iter_seek_to_first. destruct (Ls 0%nat); simpl in *; [done|by destruct Hc].
Qed.

Lemma not_head_in s Ls l n : represents s Ls l -> n ∈ Ls 0%nat -> not_head n = Some n.
Proof.
  intros [W _] Hn. unfold not_head. destruct (Nat.eqb_spec n head_) as [->|]; [|done].
  by apply (wf_head _ _ W 0%nat) in Hn; [|unfold kMaxHeight; lia].
Qed.

Lemma last_position s Ls l :
  represents s Ls l -> iter_seek_to_last s = Some (Ls 0%nat !! pred (length l)).
Proof.
  intros R. pose proof R as [W _]. unfold iter_seek_to_last. rewrite (find_last_spec s Ls W).
  rewrite <- (represents_length _ _ _ R), <- last_lookup. cbn.
  destruct (last (Ls 0%nat)) as [n|] eqn:E; [|done]. cbn. f_equal.
  eapply not_head_in; [done|]. apply last_Some in E as [l' ->]. apply elem_of_app. right. left.
Qed.

Lemma seek_position s Ls l key :
  represents s Ls l -> iter_seek s key = Some (Ls 0%nat !! position key l).
Proof.
  intros R. pose proof R as [W _]. unfold iter_seek.
  destruct (find_ge_spec s Ls key W) as (a & b & prev & -> & Hs & _). cbn. f_equal.
  destruct (splits_position s Ls l key a b R Hs) as (<- & _). destruct Hs as (-> & _).
  rewrite lookup_app_r, Nat.sub_diag by lia. by destruct b.
Qed.

Lemma position_self l i k :
  StronglySorted (λ a b, compare_ a b = Lt) l -> l !! i = Some k -> position k l = i.
Proof.
  intros Hs. revert i. induction Hs as [|x l Hs IH HF]; intros i Hi; [done|].
  destruct i as [|i]; simpl in *.
  - injection Hi as ->. by rewrite ko_refl.
  - rewrite Forall_forall in HF. rewrite (HF k) by (by eapply list_elem_of_lookup_2).
    f_equal. by apply IH.
Qed.

Lemma prev_position s Ls l i n :
  represents s Ls l -> Ls 0%nat !! i = Some n ->
  iter_prev s (Some n) = Some (if i is S j then Ls 0%nat !! j else None).
Proof.
  intros R Hi. pose proof R as [W _]. unfold iter_prev. cbn [mbind option_bind].
  destruct (represents_lookup _ _ _ _ _ R Hi) as (k & Hk & Hkn). rewrite Hkn. cbn [mbind option_bind].
  destruct (find_less_than_spec s Ls k W) as (a & b & -> & Hs). cbn [fmap option_fmap option_map].
  destruct (splits_position s Ls l k a b R Hs) as (Hpos & _).
  rewrite (position_self l i k (represents_sorted _ _ _ R) Hk) in Hpos.
  destruct Hs as (E & _ & _). destruct a as [|x a _] using rev_ind.
  - simpl in Hpos. subst i. done.
  - rewrite last_snoc. cbn [default]. rewrite length_app in Hpos. simpl in Hpos.
    destruct i as [|i]; [lia|]. assert (i = length a) as -> by lia. f_equal.
    rewrite E, <- app_assoc. cbn [app]. rewrite list_lookup_middle by done.
    eapply not_head_in; [done|]. rewrite E. apply elem_of_app. left. apply elem_of_app. right. left.
Qed.

Lemma contains_represents s Ls l key :
  represents s Ls l -> contains s key = Some (existsb (equal key) l).
Proof.
  intros R. unfold contains. pose proof (seek_position s Ls l key R) as Hseek. unfold iter_seek in Hseek.
  destruct (find_greater_or_equal s key) as [[n prev]|]; [|done]. cbn in Hseek. injection Hseek as ->.
  cbn [mbind option_bind].
  assert (existsb (equal key) l = if l !! position key l is Some k then equal key k else false) as ->.
  { pose proof (represents_sorted _ _ _ R) as Hs. clear -Hs KO. induction Hs as [|k l Hs IH HF]; [done|]. simpl.
    destruct (compare_ k key) eqn:Ec; simpl; unfold equal at 1; rewrite (ko_antisym k key), Ec; simpl.
    - unfold equal. by rewrite (ko_antisym k key), Ec.
    - done.
    - unfold equal at 2. rewrite (ko_antisym k key), Ec. simpl.
      apply not_true_is_false. intros (k' & Hin & Heq)%existsb_exists.
      rewrite Forall_forall in HF. apply list_elem_of_In in Hin. specialize (HF k' Hin).
      unfold equal in Heq. destruct (compare_ key k') eqn:Ek; try done.
      assert (compare_ key k' = Lt); [|congruence]. eapply ko_trans; [|done].
      by rewrite (ko_antisym k key), Ec. }
  destruct (Ls 0%nat !! position key l) as [n|] eqn:En.
  - destruct (represents_lookup _ _ _ _ _ R En) as (k & -> & Hk). rewrite Hk. done.
  - apply lookup_ge_None in En. rewrite (represents_length _ _ _ R) in En.
    by rewrite lookup_ge_None_2.
Qed.
End Proofs.

(** A sequence of insertions, and a traversal from the first node. *)
Fixpoint insert_all (s : SkipList) (keys : list Key) : option SkipList :=
  match keys with
  | [] => Some s
  | key :: keys' => s ← insert s key; insert_all s keys'
  end.
Fixpoint traverse (fuel : nat) (s : SkipList) (node : option nat) : option (list Key) :=
  match fuel, node with
  | _, None => Some []
  | O, Some _ => None
  | S fuel', Some n =>
      key ← key_of s n; node ← next s n 0; rest ← traverse fuel' s node; Some (key :: rest)
  end.
Definition elements (s : SkipList) : option (list Key) :=
  node ← iter_seek_to_first s; traverse (length (nodes s)) s node.

(** The keys in order. *)
Definition sorted_keys (keys : list Key) : list Key :=
  fold_left (λ l key, insert_key key l) keys [].

Section Sequential.
Context {KO : KeyOrder}.

Lemma insert_key_elem key l k : k ∈ insert_key key l <-> k = key \/ k ∈ l.
Proof.
  induction l as [|x l IH]; simpl; [by rewrite !elem_of_cons, elem_of_nil|].
  destruct (compare_ x key); rewrite !elem_of_cons; rewrite ?IH; tauto.
Qed.

Lemma insert_all_represents s Ls l keys :
  represents s Ls l ->
  (forall i j a b, (i < j)%nat -> keys !! i = Some a -> keys !! j = Some b -> compare_ a b <> Eq) ->
  (forall a b, a ∈ l -> b ∈ keys -> compare_ a b <> Eq) ->
  exists s' Ls', insert_all s keys = Some s' /\
    represents s' Ls' (fold_left (λ l key, insert_key key l) keys l).
Proof.
  revert s Ls l. induction keys as [|key keys IH]; intros s Ls l R Hd Hl; cbn [insert_all fold_left].
  { eauto. }
  destruct (insert_represents s Ls l key R) as (s1 & Ls1 & -> & R1).
  { apply Forall_forall. intros k Hk. apply Hl; [done|left]. }
  cbn [mbind option_bind]. apply (IH s1 Ls1 _ R1).
  - intros i j a b Hij Ha Hb. apply (Hd (S i) (S j) a b); [lia|done|done].
  - intros a b [->|Ha]%insert_key_elem Hb; [|apply Hl; [done|by right]].
    apply list_elem_of_lookup in Hb as [j Hj]. apply (Hd 0%nat (S j)); [lia|done|done].
Qed.

Lemma traverse_from s Ls l i fuel :
  represents s Ls l -> (length l - i <= fuel)%nat ->
  traverse fuel s (Ls 0%nat !! i) = Some (drop i l).
Proof.
  intros R. revert i. induction fuel as [|fuel IH]; intros i Hf.
  - rewrite lookup_ge_None_2 by (rewrite (represents_length _ _ _ R); lia).
    rewrite drop_ge by lia. done.
  - cbn [traverse]. destruct (Ls 0%nat !! i) as [n|] eqn:En.
    + destruct (represents_lookup _ _ _ _ _ R En) as (k & Hk & ->). cbn [mbind option_bind].
      rewrite (next_position _ _ _ _ _ R En). cbn [mbind option_bind].
      rewrite IH by lia. cbn [mbind option_bind]. by rewrite (drop_S _ _ _ Hk).
    + apply lookup_ge_None in En. rewrite (represents_length _ _ _ R) in En.
      by rewrite drop_ge by lia.
Qed.

Lemma elements_represents s Ls l : represents s Ls l -> elements s = Some l.
Proof.
  intros R. unfold elements. rewrite (first_position _ _ _ R). cbn [mbind option_bind].
  pose proof R as [W _]. pose proof (wf_length _ _ W) as Hl. rewrite (represents_length _ _ _ R) in Hl.
  rewrite (traverse_from s Ls l 0) by (done || lia). done.
Qed.

Lemma fold_insert_elem keys l k :
  k ∈ fold_left (λ l key, insert_key key l) keys l <-> k ∈ keys \/ k ∈ l.
Proof.
  revert l. induction keys as [|key keys IH]; intros l; simpl; [by rewrite elem_of_nil; tauto|].
  rewrite IH, insert_key_elem, elem_of_cons. tauto.
Qed.

(** C21. The skip list is a sorted set, whatever the heights drawn: inserting
    keys of which no two are equal, in any order, never faults and
    terminates, walking the list then yields exactly those keys in strictly
    increasing order, and [contains] answers membership. *)
Theorem skiplist_is_sorted_set rng keys :
  (forall i j a b, (i < j)%nat -> keys !! i = Some a -> keys !! j = Some b -> compare_ a b <> Eq) ->
  exists s l, insert_all (SkipList_new rng) keys = Some s /\ elements s = Some l /\
    StronglySorted (λ a b, compare_ a b = Lt) l /\ (forall k, k ∈ l <-> k ∈ keys) /\
    forall key, contains s key = Some (existsb (equal key) keys).
Proof.
  intros Hd. destruct (insert_all_represents _ _ _ keys (represents_new rng) Hd) as (s & Ls & E & R).
  { intros a b Ha. by apply not_elem_of_nil in Ha. }
  exists s, (sorted_keys keys). fold (sorted_keys keys) in R.
  assert (forall k, k ∈ sorted_keys keys <-> k ∈ keys) as Hin.
  { intros k. unfold sorted_keys. rewrite fold_insert_elem, elem_of_nil. tauto. }
  split_and!; [done|by eapply elements_represents|by eapply represents_sorted|done|].
  intros key. rewrite (contains_represents _ _ _ key R). f_equal. apply eq_true_iff_eq.
  rewrite !existsb_exists. split; intros (k & Hk & He); exists k; (split; [|done]);
    apply list_elem_of_In, Hin, list_elem_of_In, Hk.
Qed.
End Sequential.

(** * Readers beside the writer

    The writer's steps are the stores readers can see: the new height (with
    the still unreachable node), then per level the store into the new node
    and the store that publishes it.  A reader's step is one iteration of its
    search; it may start from the height of any moment so far. *)
Inductive Writer :=
  | Idle
  | Linking (key : Key) (node : nat) (prev : list (option nat)) (height i : nat)
  | Publishing (key : Key) (node : nat) (prev : list (option nat)) (height i : nat).
Inductive Reader :=
  | Returned (result : option nat)
  | Searching (target : Key) (node level : nat).

Record System := mkSystem { sys_list : SkipList; sys_writer : Writer; sys_reader : Reader }.

Inductive step : System -> System -> Prop :=
  | step_prepare s r key s' node prev height :
      contains s key = Some false ->
      prepare s key = Some (s', node, prev, height) ->
      step (mkSystem s Idle r) (mkSystem s' (Linking key node prev height 0) r)
  | step_link s r key node prev height i s' :
      link s node prev i = Some s' ->
      step (mkSystem s (Linking key node prev height i) r)
           (mkSystem s' (Publishing key node prev height i) r)
  | step_publish s r key node prev height i s' :
      publish s node prev i = Some s' ->
      step (mkSystem s (Publishing key node prev height i) r)
           (mkSystem s' (if (S i <? height)%nat then Linking key node prev height (S i) else Idle) r)
  | step_start s w result target h :
      (1 <= h <= max_height_ s)%nat ->
      step (mkSystem s w (Returned result)) (mkSystem s w (Searching target head_ (h - 1)))
  | step_right s w target n level m :
      search_step s target n level = Some (Right m) ->
      step (mkSystem s w (Searching target n level)) (mkSystem s w (Searching target m level))
  | step_down s w target n level :
      search_step s target n level = Some Down ->
      step (mkSystem s w (Searching target n level)) (mkSystem s w (Searching target n (level - 1)))
  | step_found s w target n level nx :
      search_step s target n level = Some (Found nx) ->
      step (mkSystem s w (Searching target n level)) (mkSystem s w (Returned nx)).

Inductive reachable (rng : Rng) : System -> Prop :=
  | reach_start : reachable rng (mkSystem (SkipList_new rng) Idle (Returned None))
  | reach_step a b : reachable rng a -> step a b -> reachable rng b.

Section Concurrent.
Context {KO : KeyOrder}.

Definition writer_ok (s : SkipList) (Ls : nat -> list nat) (w : Writer) : Prop :=
  match w with
  | Idle => True
  | Linking key N prev h i => inserting s Ls key N h prev i /\ (i < h <= kMaxHeight)%nat
  | Publishing key N prev h i =>
      inserting s Ls key N h prev i /\ (i < h <= kMaxHeight)%nat /\
      exists a b, splits_at s key (Ls i) a b /\ prev !! i = Some (Some (default head_ (last a))) /\
        next s N i = Some (head b)
  end.
Definition reader_ok (s : SkipList) (Ls : nat -> list nat) (r : Reader) : Prop :=
  match r with
  | Returned _ => True
  | Searching target n level => left_of s Ls target level n
  end.
Definition system_ok (sys : System) : Prop :=
  exists Ls, wf (sys_list sys) Ls /\ writer_ok (sys_list sys) Ls (sys_writer sys) /\
    reader_ok (sys_list sys) Ls (sys_reader sys).

(** A reader keeps its place while the lists grow under it. *)
Lemma reader_ok_grows s s' Ls Ls' r :
  (forall m k, key_of s m = Some k -> key_of s' m = Some k) ->
  (forall j n, n ∈ Ls j -> n ∈ Ls' j) -> reader_ok s Ls r -> reader_ok s' Ls' r.
Proof.
  intros Hk Hg. destruct r as [|target n level]; [done|]. intros (Hl & Hn & Hb).
  split_and!; [done| |].
  - apply elem_of_cons in Hn as [->|Hn]; [left|right; by apply Hg].
  - destruct Hb as [|(k & ? & ?)]; [by left|right]. exists k. auto.
Qed.

Lemma represents_exists s Ls : wf s Ls -> exists l, represents s Ls l.
Proof.
  intros W. assert (forall ns, (forall n, n ∈ ns -> n ∈ Ls 0%nat) ->
    exists l : list Key, key_of s <$> ns = Some <$> l) as H.
  { induction ns as [|n ns IH]; intros Hin; [by exists []|].
    destruct IH as [l El]; [intros; apply Hin; by right|].
    destruct (wf_key s Ls 0 n W) as [k Hk]; [unfold kMaxHeight; lia|apply Hin; left|].
    exists (k :: l). cbn. by rewrite Hk, El. }
  destruct (H (Ls 0%nat)) as [l El]; [done|]. by exists l.
Qed.

Lemma step_ok a b : system_ok a -> step a b -> system_ok b.
Proof.
  intros (Ls & W & HW & HR) Hstep. destruct Hstep; cbn [sys_list sys_writer sys_reader writer_ok reader_ok] in *.
  - destruct (represents_exists s Ls W) as [l R].
    assert (fresh s Ls key) as F.
    { eapply represents_fresh; [done|]. rewrite (contains_represents s Ls l key R) in H.
      injection H as H. apply Forall_forall. intros k Hk Heq.
      assert (existsb (equal key) l = true); [|congruence]. apply existsb_exists. exists k.
      split; [by apply list_elem_of_In|]. unfold equal. by rewrite (ko_antisym k key), Heq. }
    destruct (prepare_spec s Ls key W F) as (s1 & N1 & prev1 & h1 & E1 & Hh & X & I).
    rewrite E1 in H0. injection H0 as -> -> -> ->. exists Ls. cbn [sys_list sys_writer sys_reader writer_ok reader_ok]. split_and!; try lia; try done.
    + apply I.
    + eapply (reader_ok_grows s); [apply X|done|done].
  - destruct HW as [I Hi].
    destruct (link_inserting s Ls key node height prev i I) as (s1 & a & b & E1 & I1 & Hs & Hp & Hx);
      [lia|lia|].
    rewrite E1 in H. injection H as <-. exists Ls. cbn [sys_list sys_writer sys_reader writer_ok reader_ok]. split_and!; try lia; try done.
    + apply I1.
    + by exists a, b.
    + eapply (reader_ok_grows s); [|done|done].
      unfold link in E1. destruct (mjoin (prev !! i)) as [p|]; [|done]. cbn [mbind option_bind] in E1.
      destruct (next s p i); [|done]. cbn [mbind option_bind] in E1.
      apply set_next_spec in E1 as (_ & _ & Hk & _). intros m k. by rewrite Hk.
  - destruct HW as (I & Hi & a & b & Hs & Hp & Hx).
    destruct (publish_inserting s Ls key node height prev i a b I) as (s1 & E1 & I1 & K1);
      [lia|lia|done..|].
    rewrite E1 in H. injection H as <-. exists (add_at Ls i (a ++ node :: b)). cbn [sys_list sys_writer sys_reader writer_ok reader_ok]. split_and!.
    + apply I1.
    + destruct (Nat.ltb_spec (S i) height); cbn; [|done]. split; [done|lia].
    + eapply (reader_ok_grows s); [by intros; rewrite K1| |done]. intros j n Hn. unfold add_at.
      case_decide as Hj; [|done]. subst j. destruct Hs as (E & _). rewrite E in Hn.
      apply elem_of_app in Hn as [|]; apply elem_of_app; [by left|right; by right].
  - exists Ls. cbn [sys_list sys_writer sys_reader writer_ok reader_ok]. split; [done|]. split; [done|].
    pose proof (wf_height _ _ W). split_and!; [lia|left|by left].
  - exists Ls. cbn [sys_list sys_writer sys_reader writer_ok reader_ok]. split; [done|]. split; [done|].
    destruct (search_step_spec s Ls target level n W HR) as (r & E & Hr). rewrite E in H.
    injection H as ->. apply Hr.
  - exists Ls. cbn [sys_list sys_writer sys_reader writer_ok reader_ok]. split; [done|]. split; [done|].
    destruct (search_step_spec s Ls target level n W HR) as (r & E & Hr). rewrite E in H.
    injection H as ->. destruct Hr as (Hne & _). destruct level as [|level]; [done|].
    replace (S level - 1)%nat with level by lia. by apply left_of_down.
  - by exists Ls.
Qed.

Lemma reachable_ok rng sys : reachable rng sys -> system_ok sys.
Proof.
  induction 1 as [|a b _ IH Hs]; [|by eapply step_ok].
  exists (λ _, []). cbn. split_and!; try done. apply (represents_new rng).
Qed.

End Concurrent.
End SkipList.

(** Integers in their usual order, heights from a counter. *)
#[local] Instance Z_order : KeyOrder Z.compare.
Proof.
  constructor.
  - apply Z.compare_refl.
  - intros a b. apply Z.compare_antisym.
  - intros a b c. rewrite !Z.compare_lt_iff. lia.
Qed.
Definition counter (r : Z) : Z * Z := (r, r + 1).

Lemma skiplist_is_sorted_set_witness :
  exists s l, insert_all Z.compare counter (SkipList_new 0 4) [5; 1; 3] = Some s /\
    elements s = Some l /\ StronglySorted (λ a b, Z.compare a b = Lt) l /\
    (forall k, k ∈ l <-> k ∈ [5; 1; 3]) /\
    forall key, contains Z.compare s key = Some (existsb (equal Z.compare key) [5; 1; 3]).
Proof.
  apply (skiplist_is_sorted_set 0 Z.compare counter 4 [5; 1; 3]).
  intros i j a b Hij Hi Hj. destruct i as [|[|[|i]]], j as [|[|[|j]]];
    try lia; simplify_eq/=; discriminate.
Defined.


End SkipList.
