(* ===== verification/Wal.v ===== *)
(** The write-ahead log and the manifest's record format (src/src/wal.hpp,
    src/src/wal.cpp): 32 KiB blocks of records
    [crc32c(4) | length(2) | type(1) | payload], fragmented across blocks.

    [LogWriter] and [LogReader] are state records threaded through their
    methods.  The loops that are not structural take a fuel and return
    [None] when it runs out; [add_record_fuel], [read_physical_fuel] and the
    round-trip theorem show that the fuel the methods pass is enough. *)
From S2P Require Import Prelude Status File Encoding.
Import Status File Encoding.

Module Wal.

Definition kBlockSize : nat := Z.to_nat 32768.
Definition kHeaderSize : nat := 7.

Inductive RecordType := kZero | kFull | kFirst | kMiddle | kLast.
#[global] Instance RecordType_eq_dec : EqDecision RecordType.
Proof. solve_decision. Defined.

Definition RecordType_to_Z (t : RecordType) : Z :=
  match t with kZero => 0 | kFull => 1 | kFirst => 2 | kMiddle => 3 | kLast => 4 end.
(** [static_cast<RecordType>] of a byte; [None] is a value with no name. *)
Definition RecordType_of_Z (z : Z) : option RecordType :=
  if z =? 0 then Some kZero else if z =? 1 then Some kFull
  else if z =? 2 then Some kFirst else if z =? 3 then Some kMiddle
  else if z =? 4 then Some kLast else None.

(** ** LogWriter *)
Record LogWriter := mkWriter {
  dest_ : WritableFile;
  offset_ : nat;
  bytes_written_ : Z
}.
Definition LogWriter_new (dest : WritableFile) : LogWriter := mkWriter dest 0 0.

(** The checksum covers the type byte and the payload. *)
Definition record_crc (type_byte : byte) (data : bytes) : Z :=
  crc32c_extend (crc32c_extend 0 [type_byte]) data.

Definition record_header (type : RecordType) (data : bytes) : bytes :=
  let type_byte := Z_to_byte (RecordType_to_Z type) in
  let length := size data in
  put_fixed32 [] (record_crc type_byte data)
    ++ [Z_to_byte (length .& 255); Z_to_byte ((length .>> 8) .& 255); type_byte].

Definition emit_physical_record (w : LogWriter) (type : RecordType) (data : bytes) :
    Status * LogWriter :=
  match wf_append (dest_ w) (record_header type data) with
  | (s, d) =>
      if negb (is_ok s) then (s, mkWriter d (offset_ w) (bytes_written_ w))
      else match wf_append d data with
           | (s, d) =>
               if negb (is_ok s) then (s, mkWriter d (offset_ w) (bytes_written_ w))
               else (ok, mkWriter d (offset_ w + kHeaderSize + length data)
                           (bytes_written_ w + Z.of_nat kHeaderSize + size data))
           end
  end.

(** The padding step at the head of [add_record]'s loop. *)
Definition pad_block (w : LogWriter) : Status * LogWriter :=
  let block_left := (kBlockSize - offset_ w)%nat in
  if (block_left <? kHeaderSize)%nat then
    if (0 <? block_left)%nat then
      match wf_append (dest_ w) (replicate block_left x00) with
      | (s, d) =>
          if negb (is_ok s) then (s, mkWriter d (offset_ w) (bytes_written_ w))
          else (ok, mkWriter d 0 (bytes_written_ w + Z.of_nat block_left))
      end
    else (ok, mkWriter (dest_ w) 0 (bytes_written_ w))
  else (ok, w).

Definition fragment_type (first_fragment last_fragment : bool) : RecordType :=
  if first_fragment && last_fragment then kFull
  else if first_fragment then kFirst
  else if last_fragment then kLast
  else kMiddle.

(** The [do ... while (left > 0)] loop; [data] is what is left to write. *)
Fixpoint add_record_loop (fuel : nat) (w : LogWriter) (data : bytes)
    (first_fragment : bool) : option (Status * LogWriter) :=
  match fuel with
  | O => None
  | S fuel' =>
      match pad_block w with
      | (s, w) =>
          if negb (is_ok s) then Some (s, w)
          else
            let left := length data in
            let available := (kBlockSize - offset_ w - kHeaderSize)%nat in
            let fragment := if (left <? available)%nat then left else available in
            let last_fragment := (fragment =? left)%nat in
            let type := fragment_type first_fragment last_fragment in
            match emit_physical_record w type (take fragment data) with
            | (s, w) =>
                if negb (is_ok s) then Some (s, w)
                else if (0 <? left - fragment)%nat
                     then add_record_loop fuel' w (drop fragment data) false
                     else Some (ok, w)
            end
      end
  end.

(** Every iteration but the first takes a byte: [length + 2] iterations. *)
Definition add_record (w : LogWriter) (payload : bytes) : option (Status * LogWriter) :=
  add_record_loop (length payload + 2) w payload true.

Definition writer_flush (w : LogWriter) : Status * LogWriter :=
  let '(s, d) := wf_flush (dest_ w) in (s, mkWriter d (offset_ w) (bytes_written_ w)).
Definition writer_sync (w : LogWriter) : Status * LogWriter :=
  let '(s, d) := wf_sync (dest_ w) in (s, mkWriter d (offset_ w) (bytes_written_ w)).
Definition writer_close (w : LogWriter) : Status * LogWriter :=
  let '(s, d) := wf_close (dest_ w) in (s, mkWriter d (offset_ w) (bytes_written_ w)).

(** ** LogReader *)
Record LogReader := mkReader {
  source_ : SequentialFile;
  block_ : bytes;
  block_offset_ : nat;
  eof_ : bool;
  truncated_ : bool;
  damaged_ : bool;
  read_failed_ : bool;
  failure_reason_ : string
}.
Definition LogReader_new (source : SequentialFile) : LogReader :=
  mkReader source [] 0 false false false false "".

Definition truncated (r : LogReader) : bool := truncated_ r.
Definition damaged (r : LogReader) : bool := damaged_ r || read_failed_ r.

Definition load_next_block (r : LogReader) : bool * LogReader :=
  match sf_read (source_ r) kBlockSize with
  | (status, chunk, source) =>
      if negb (is_ok status) then
        (false, mkReader source (block_ r) (block_offset_ r) true true
                  (damaged_ r) true (to_string status))
      else
        match chunk with
        | [] => (false, mkReader source [] 0 true (truncated_ r) (damaged_ r)
                          (read_failed_ r) (failure_reason_ r))
        | _ => (true, mkReader source chunk 0 (eof_ r) (truncated_ r) (damaged_ r)
                        (read_failed_ r) (failure_reason_ r))
        end
  end.

Record Header := mkHeader { h_crc : Z; h_length : nat; h_type : option RecordType }.

(** [None]: fewer than seven bytes at [p], which every caller rules out. *)
Definition parse_header (p : bytes) : option Header :=
  match decode_fixed32 p, drop 4 p with
  | Some crc, p4 :: p5 :: p6 :: _ =>
      Some (mkHeader crc (Z.to_nat (byte_to_Z p4 .| (byte_to_Z p5 .<< 8)))
              (RecordType_of_Z (byte_to_Z p6)))
  | _, _ => None
  end.

Definition is_zeroed (h : Header) : bool :=
  bool_decide (h_type h = Some kZero) && (h_length h =? 0)%nat && (h_crc h =? 0).

Definition known_type (t : option RecordType) : bool :=
  bool_decide (t = Some kFull) || bool_decide (t = Some kFirst)
  || bool_decide (t = Some kMiddle) || bool_decide (t = Some kLast).

(** [p] points at the record's header. *)
Definition verifies (p : bytes) (h : Header) : bool :=
  let crc := crc32c_extend 0 (take 1 (drop 6 p)) in
  let crc := crc32c_extend crc (take (h_length h) (drop kHeaderSize p)) in
  (crc =? h_crc h) && known_type (h_type h).

(** The chain walk of [verifies_to_block_end]: where it stopped and whether
    a record verified, or [None] for [return false]. *)
Fixpoint verify_chain (fuel : nat) (block : bytes) (offset : nat) (any : bool) :
    option (nat * bool) :=
  match fuel with
  | O => None
  | S fuel' =>
      if (offset + kHeaderSize <=? length block)%nat then
        match parse_header (drop offset block) with
        | None => None
        | Some h =>
            if is_zeroed h then Some (offset, any)
            else if (length block <? offset + kHeaderSize + h_length h)%nat then None
            else if negb (verifies (drop offset block) h) then None
            else verify_chain fuel' block (offset + kHeaderSize + h_length h) true
        end
      else Some (offset, any)
  end.

Definition verifies_to_block_end (block : bytes) (start : nat) : bool :=
  match verify_chain (S (length block)) block start false with
  | None => false
  | Some (offset, any) => forallb (λ b, bool_decide (b = x00)) (drop offset block) && any
  end.

(** The inner [while] of [readable_record_follows]. *)
Fixpoint walk_records (fuel : nat) (block : bytes) (walk : nat) : bool :=
  match fuel with
  | O => false
  | S fuel' =>
      if (walk + kHeaderSize <=? length block)%nat then
        match parse_header (drop walk block) with
        | None => false
        | Some h =>
            if is_zeroed h then walk_records fuel' block (walk + 1)
            else if (length block <? walk + kHeaderSize + h_length h)%nat then false
            else if verifies (drop walk block) h then true
            else walk_records fuel' block (walk + kHeaderSize + h_length h)
        end
      else false
  end.

(** The inner [for]: every byte offset from [at_] on. *)
Fixpoint scan_records (fuel : nat) (block : bytes) (at_ : nat) : bool :=
  match fuel with
  | O => false
  | S fuel' =>
      if (at_ + kHeaderSize <=? length block)%nat then
        match parse_header (drop at_ block) with
        | None => false
        | Some h =>
            if negb (known_type (h_type h))
               || (length block <? at_ + kHeaderSize + h_length h)%nat
            then scan_records fuel' block (at_ + 1)
            else if verifies_to_block_end block at_ then true
            else scan_records fuel' block (at_ + 1)
        end
      else false
  end.

(** [while (true)]: one iteration per block left in the file.  Returns the
    verdict, [read_failed_] and the file. *)
Fixpoint readable_record_follows (fuel : nat) (source : SequentialFile)
    (block : bytes) (read_failed : bool) (walk_from scan_from : nat) :
    bool * bytes * bool * SequentialFile :=
  match fuel with
  | O => (false, block, read_failed, source)
  | S fuel' =>
      if walk_records (S (length block)) block walk_from then
        (true, block, read_failed, source)
      else if scan_records (S (length block)) block scan_from then
        (true, block, read_failed, source)
      else if (length block <? kBlockSize)%nat then (false, block, read_failed, source)
      else
        match sf_read source kBlockSize with
        | (status, chunk, source) =>
            if negb (is_ok status) then (false, block, true, source)
            else match chunk with
                 | [] => (false, [], read_failed, source)
                 | _ => readable_record_follows fuel' source chunk read_failed 0 0
                 end
        end
  end.

Definition stop (r : LogReader) (reason : string) (resume_offset : nat) : LogReader :=
  let scan_from := Nat.min resume_offset (block_offset_ r + 1) in
  let '(damaged, block, read_failed, source) :=
    readable_record_follows (S (length (sf_rest (source_ r)))) (source_ r)
      (block_ r) (read_failed_ r) resume_offset scan_from in
  mkReader source block (block_offset_ r) true true damaged read_failed reason.

(** [true] with the type and the payload, or [false]. *)
Inductive physical :=
  | Physical (type : option RecordType) (payload : bytes) (r : LogReader)
  | NoPhysical (r : LogReader).

Fixpoint read_physical_record (fuel : nat) (r : LogReader) : option physical :=
  match fuel with
  | O => None
  | S fuel' =>
      if (length (block_ r) <? block_offset_ r + kHeaderSize)%nat then
        if (length (block_ r) =? kBlockSize)%nat then
          match load_next_block r with
          | (false, r) => Some (NoPhysical r)
          | (true, r) => read_physical_record fuel' r
          end
        else if (block_offset_ r <? length (block_ r))%nat then
          Some (NoPhysical (stop r "partial record header at end of log" (length (block_ r))))
        else
          Some (NoPhysical (mkReader (source_ r) (block_ r) (block_offset_ r) true
            (truncated_ r) (damaged_ r) (read_failed_ r) (failure_reason_ r)))
      else
        match parse_header (drop (block_offset_ r) (block_ r)) with
        | None => None
        | Some h =>
            if is_zeroed h then
              Some (NoPhysical (stop r "zeroed span where a record header should be"
                                  (block_offset_ r)))
            else if (length (block_ r) <? block_offset_ r + kHeaderSize + h_length h)%nat then
              Some (NoPhysical (stop r "record length runs past the end of the log"
                                  (length (block_ r))))
            else
              let header := drop (block_offset_ r) (block_ r) in
              let data := take (h_length h) (drop kHeaderSize header) in
              let actual_crc := crc32c_extend 0 (take 1 (drop 6 header)) in
              let actual_crc := crc32c_extend actual_crc data in
              if negb (actual_crc =? h_crc h) then
                Some (NoPhysical (stop r "checksum mismatch"
                        (block_offset_ r + kHeaderSize + h_length h)))
              else
                Some (Physical (h_type h) data
                  (mkReader (source_ r) (block_ r)
                     (block_offset_ r + kHeaderSize + h_length h)
                     (eof_ r) (truncated_ r) (damaged_ r) (read_failed_ r)
                     (failure_reason_ r)))
        end
  end.

(** Two rounds are enough: a block just loaded is not a finished one. *)
Definition read_physical (r : LogReader) : option physical := read_physical_record 2 r.

Definition set_truncated (r : LogReader) (reason : string) : LogReader :=
  mkReader (source_ r) (block_ r) (block_offset_ r) (eof_ r) true (damaged_ r)
    (read_failed_ r) reason.

(** The reassembly loop of [read_record]; [scratch] is what is gathered. *)
Fixpoint read_fragments (fuel : nat) (r : LogReader) (scratch : bytes) :
    option (option bytes * LogReader) :=
  match fuel with
  | O => None
  | S fuel' =>
      match read_physical r with
      | None => None
      | Some (NoPhysical r) =>
          Some (None, set_truncated r
                 (if bool_decide (failure_reason_ r = ""%string)
                  then "log ends in the middle of a fragmented record"
                  else failure_reason_ r))
      | Some (Physical type fragment r) =>
          if bool_decide (type = Some kMiddle) then
            read_fragments fuel' r (scratch ++ fragment)
          else if bool_decide (type = Some kLast) then
            Some (Some (scratch ++ fragment), r)
          else
            Some (None, stop r "unexpected fragment type inside a record"
                          (block_offset_ r - kHeaderSize - length fragment))
      end
  end.

(** Bytes the reader has not consumed: a bound on the fragments to come. *)
Definition unread (r : LogReader) : nat :=
  (length (block_ r) - block_offset_ r + length (sf_rest (source_ r)))%nat.

Definition read_record (r : LogReader) : option (option bytes * LogReader) :=
  if eof_ r then Some (None, r)
  else
    let (loaded, r) :=
      match block_ r with
      | [] => load_next_block r
      | _ => (true, r)
      end in
    if negb loaded then Some (None, r)
    else
      match read_physical r with
      | None => None
      | Some (NoPhysical r) => Some (None, r)
      | Some (Physical type fragment r) =>
          if bool_decide (type = Some kFull) then Some (Some fragment, r)
          else if negb (bool_decide (type = Some kFirst)) then
            Some (None, stop r "log begins with a continuation fragment"
                          (block_offset_ r - kHeaderSize - length fragment))
          else read_fragments (S (unread r)) r fragment
      end.

(** The loop of every caller: records until [read_record] returns [false]. *)
Fixpoint read_all (fuel : nat) (r : LogReader) : option (list bytes * LogReader) :=
  match fuel with
  | O => None
  | S fuel' =>
      match read_record r with
      | None => None
      | Some (None, r) => Some ([], r)
      | Some (Some rec, r) =>
          match read_all fuel' r with
          | None => None
          | Some (recs, r) => Some (rec :: recs, r)
          end
      end
  end.

(** Adding records until one fails, as the write path does. *)
Fixpoint add_records (w : LogWriter) (recs : list bytes) : option (Status * LogWriter) :=
  match recs with
  | [] => Some (ok, w)
  | rec :: recs' =>
      match add_record w rec with
      | None => None
      | Some (s, w) => if negb (is_ok s) then Some (s, w) else add_records w recs'
      end
  end.

(** * Layout

    What the writer produces, independently of how: physical records laid out
    from a block offset, a block with fewer than seven bytes left padded. *)
Definition phys_record (t : RecordType) (p : bytes) : bytes := record_header t p ++ p.
Definition pad (off : nat) : bytes :=
  if (kBlockSize - off <? kHeaderSize)%nat then replicate (kBlockSize - off) x00 else [].
Definition start (off : nat) : nat :=
  if (kBlockSize - off <? kHeaderSize)%nat then 0%nat else off.

Fixpoint layout (off : nat) (frs : list (RecordType * bytes)) : bytes :=
  match frs with
  | [] => []
  | (t, p) :: frs' =>
      pad off ++ phys_record t p ++ layout (start off + kHeaderSize + length p) frs'
  end.
Fixpoint layout_end (off : nat) (frs : list (RecordType * bytes)) : nat :=
  match frs with
  | [] => off
  | (t, p) :: frs' => layout_end (start off + kHeaderSize + length p) frs'
  end.
(** Every record lies inside one block and has a real type. *)
Fixpoint fits (off : nat) (frs : list (RecordType * bytes)) : Prop :=
  match frs with
  | [] => (off <= kBlockSize)%nat
  | (t, p) :: frs' =>
      t ≠ kZero ∧ (start off + kHeaderSize + length p <= kBlockSize)%nat ∧
      fits (start off + kHeaderSize + length p) frs'
  end.

(** A logical record as a chain of fragments. *)
Inductive chain : bool -> bytes -> list (RecordType * bytes) -> Prop :=
  | chain_last first p : chain first p [(fragment_type first true, p)]
  | chain_more first p rest frs :
      chain false rest frs ->
      chain first (p ++ rest) ((fragment_type first false, p) :: frs).

Lemma kBlockSize_val : Z.of_nat kBlockSize = 32768.
Proof. unfold kBlockSize. lia. Qed.
#[global] Opaque kBlockSize.
Ltac wal_lia := pose proof kBlockSize_val; unfold kHeaderSize in *; lia.

Tactic Notation "lay" := cbn [layout layout_end fits app].
Tactic Notation "lay" "in" hyp(H) := cbn [layout layout_end fits app] in H.

Lemma length_record_header t p : length (record_header t p) = 7%nat.
Proof. done. Qed.
Lemma length_phys_record t p : length (phys_record t p) = (7 + length p)%nat.
Proof. unfold phys_record. by rewrite length_app. Qed.

Lemma layout_app off frs1 frs2 :
  layout off (frs1 ++ frs2) = layout off frs1 ++ layout (layout_end off frs1) frs2.
Proof.
  revert off. induction frs1 as [|[t p] frs1 IH]; intros off; lay; [done|].
  by rewrite IH, <- !app_assoc.
Qed.
Lemma layout_end_app off frs1 frs2 :
  layout_end off (frs1 ++ frs2) = layout_end (layout_end off frs1) frs2.
Proof. revert off. induction frs1 as [|[t p] frs1 IH]; intros off; lay; auto. Qed.
Lemma fits_app off frs1 frs2 :
  fits off frs1 -> fits (layout_end off frs1) frs2 -> fits off (frs1 ++ frs2).
Proof.
  revert off. induction frs1 as [|[t p] frs1 IH]; intros off; lay; [done|].
  intros (? & ? & ?) ?. split_and!; auto.
Qed.
Lemma fits_end off frs : fits off frs -> (layout_end off frs <= kBlockSize)%nat.
Proof. revert off. induction frs as [|[t p] frs IH]; intros off; lay; [done|]. intros (? & ? & ?). auto. Qed.

Lemma start_bound off : (start off + kHeaderSize <= kBlockSize)%nat.
Proof. unfold start. destruct (Nat.ltb_spec (kBlockSize - off) kHeaderSize); wal_lia. Qed.

(** ** The writer produces a layout

    [fragments] is the fragmentation alone.  Whatever the file does, what
    reaches it is a prefix of the layout of those fragments, and all of it
    when the call reports success. *)
Fixpoint fragments (fuel off : nat) (data : bytes) (first : bool) : list (RecordType * bytes) :=
  match fuel with
  | O => []
  | S fuel' =>
      let left := length data in
      let available := (kBlockSize - start off - kHeaderSize)%nat in
      let n := if (left <? available)%nat then left else available in
      (fragment_type first (n =? left)%nat, take n data) ::
        if (0 <? left - n)%nat
        then fragments fuel' (start off + kHeaderSize + length (take n data)) (drop n data) false
        else []
  end.

Lemma fragment_type_real a b : fragment_type a b ≠ kZero.
Proof. by destruct a, b. Qed.

(** Enough fuel: every fragment after the first is at the start of a block. *)
Lemma fragments_chain fuel off data (first : bool) :
  (off <= kBlockSize)%nat -> (length data + (if first then 2 else 1) <= fuel)%nat ->
  (first = false -> start off + kHeaderSize < kBlockSize)%nat ->
  chain first data (fragments fuel off data first) ∧ fits off (fragments fuel off data first).
Proof.
  revert off data first.
  induction fuel as [|fuel IH]; intros off data first Hoff Hfuel Hfirst; [destruct first; lia|].
  cbn [fragments]. pose proof (start_bound off) as Hst.
  set (available := (kBlockSize - start off - kHeaderSize)%nat).
  destruct (Nat.ltb_spec (length data) available) as [Hlt|Hge].
  - rewrite Nat.eqb_refl, firstn_all. destruct (Nat.ltb_spec 0 (length data - length data)); [lia|].
    split; [constructor|]. cbn [fits]. split_and!; [apply fragment_type_real|wal_lia..].
  - assert (length (take available data) = available) as El by (rewrite length_take; lia).
    destruct (Nat.ltb_spec 0 (length data - available)) as [Hmore|Hdone].
    + destruct (Nat.eqb_spec available (length data)); [lia|].
      assert (start off + kHeaderSize + length (take available data) = kBlockSize)%nat as Eend
        by (rewrite El; subst available; wal_lia).
      destruct (IH (start off + kHeaderSize + length (take available data))%nat
                  (drop available data) false) as [Hc Hf]; [lia| | |].
      { rewrite length_drop. destruct first; [lia|].
        assert (0 < available)%nat by (subst available; specialize (Hfirst eq_refl); lia). lia. }
      { intros _. rewrite Eend. unfold start.
        destruct (Nat.ltb_spec (kBlockSize - kBlockSize) kHeaderSize); wal_lia. }
      split.
      * rewrite <- (take_drop available data) at 1. by constructor.
      * cbn [fits]. split_and!; [apply fragment_type_real|lia|done].
    + assert (available = length data) as Ea by lia.
      rewrite Ea, Nat.eqb_refl, firstn_all. split; [constructor|].
      cbn [fits]. split_and!; [apply fragment_type_real|subst available; wal_lia..].
Qed.

Definition appended (w w' : LogWriter) (lay : bytes) (s : Status) (off' : nat) : Prop :=
  ∃ m, wf_contents (dest_ w') = wf_contents (dest_ w) ++ take m lay ∧
       (is_ok s = true -> take m lay = lay ∧ offset_ w' = off' ∧
                          bytes_written_ w' = bytes_written_ w + size lay) ∧
       (wf_healthy (dest_ w) -> s = ok ∧ wf_healthy (dest_ w')) ∧
       wf_open (dest_ w') = wf_open (dest_ w).

Lemma append_step w data off s d :
  wf_append (dest_ w) data = (s, d) ->
  appended w (if is_ok s then mkWriter d off (bytes_written_ w + size data)
              else mkWriter d (offset_ w) (bytes_written_ w)) data s off.
Proof.
  intros E. pose proof (wf_append_contents _ _ _ _ E) as (m & Em & Hok).
  exists m. split_and!; [by destruct (is_ok s)|intros Hs; by rewrite Hs, Hok| |].
  2:{ pose proof (wf_append_open (dest_ w) data) as Ho. rewrite E in Ho. by destruct (is_ok s). }
  intros Hh. destruct (wf_append_ok (dest_ w) data Hh) as (d' & E' & Hd & _).
  rewrite E' in E. by simplify_eq.
Qed.

Lemma appended_refl w : appended w w [] ok (offset_ w).
Proof.
  exists 0%nat. rewrite app_nil_r. split_and!; try done. intros _. unfold size; simpl. split_and!; lia || done.
Qed.

(** The callers return a fresh [Status::ok()] after a successful call. *)
Lemma appended_ok w w' l s o : appended w w' l s o -> is_ok s = true -> appended w w' l ok o.
Proof.
  intros (m & E & H & G & O) Hs. exists m. split_and!; [done|auto| |done].
  intros Hh. by destruct (G Hh).
Qed.

Lemma appended_fail w w1 w2 l s o :
  appended w w1 l s o -> is_ok s = false -> dest_ w2 = dest_ w1 -> appended w w2 l s o.
Proof. intros (m & E & _ & G & O) Hs Hd. exists m. rewrite Hd, Hs. split_and!; [done..|auto|done]. Qed.

Lemma appended_trans w w1 w2 l1 l2 s1 s2 o1 o2 :
  appended w w1 l1 s1 o1 -> is_ok s1 = true -> appended w1 w2 l2 s2 o2 ->
  appended w w2 (l1 ++ l2) s2 o2.
Proof.
  intros (m1 & E1 & H1 & G1 & O1) Hok (m2 & E2 & H2 & G2 & O2). destruct (H1 Hok) as (Hl1 & _ & Hb1).
  exists (length l1 + m2)%nat. rewrite E2, E1, Hl1.
  rewrite take_app, (take_ge l1) by lia. replace (length l1 + m2 - length l1)%nat with m2 by lia.
  split_and!; [by rewrite <- app_assoc| | |].
  - intros Hs2. destruct (H2 Hs2) as (-> & ? & Hb2). rewrite size_app. split_and!; [done..|lia].
  - intros Hh. apply G2. by apply G1.
  - congruence.
Qed.

Lemma appended_more w w' l l2 s o o2 :
  appended w w' l s o -> is_ok s = false -> appended w w' (l ++ l2) s o2.
Proof.
  intros (m & E & _ & G & O) Hs. exists (Nat.min m (length l)).
  split_and!; [|by rewrite Hs|done|done].
  rewrite E. f_equal. rewrite take_app_le by lia.
  destruct (Nat.le_gt_cases m (length l)); [by rewrite Nat.min_l by lia|].
  rewrite Nat.min_r, !take_ge by lia. done.
Qed.

Lemma pad_block_spec w s w' :
  (offset_ w <= kBlockSize)%nat -> pad_block w = (s, w') ->
  appended w w' (pad (offset_ w)) s (start (offset_ w)).
Proof.
  intros Ho. unfold pad_block, pad, start.
  destruct (Nat.ltb_spec (kBlockSize - offset_ w) kHeaderSize).
  - destruct (Nat.ltb_spec 0 (kBlockSize - offset_ w)).
    + destruct (wf_append (dest_ w) (replicate (kBlockSize - offset_ w) x00)) as [s1 d] eqn:E.
      apply (append_step w _ 0) in E. unfold size in E. rewrite length_replicate in E.
      destruct (is_ok s1) eqn:Es; simpl; intros [= <- <-]; [|done].
      by eapply appended_ok.
    + intros [= <- <-]. replace (kBlockSize - offset_ w)%nat with 0%nat by lia.
      exists 0%nat. rewrite app_nil_r. split_and!; try done. intros _.
      unfold size; simpl. split_and!; lia || done.
  - intros [= <- <-]. apply appended_refl.
Qed.

Lemma emit_spec w t p s w' :
  emit_physical_record w t p = (s, w') ->
  appended w w' (phys_record t p) s (offset_ w + kHeaderSize + length p).
Proof.
  unfold emit_physical_record, phys_record.
  destruct (wf_append (dest_ w) (record_header t p)) as [s1 d1] eqn:E1.
  apply (append_step w _ (offset_ w + kHeaderSize)) in E1.
  destruct (is_ok s1) eqn:Es1; cbn [negb]; [|intros [= <- <-]; by eapply appended_more].
  destruct (wf_append d1 p) as [s2 d2] eqn:E2.
  match type of E1 with appended _ ?w1 _ _ _ => set (wm := w1) in * end.
  change d1 with (dest_ wm) in E2.
  apply (append_step wm _ (offset_ w + kHeaderSize + length p)) in E2.
  pose proof (appended_trans _ _ _ _ _ _ _ _ _ E1 Es1 E2) as H.
  destruct (is_ok s2) eqn:Es2; cbn [negb]; intros [= <- <-];
    [|by eapply appended_fail].
  eapply appended_ok; [|done]. cbn in H.
  replace (bytes_written_ w + Z.of_nat kHeaderSize + size p)
    with (bytes_written_ w + size (record_header t p) + size p); [done|].
  unfold size. rewrite length_record_header. unfold kHeaderSize. lia.
Qed.

Lemma add_record_loop_spec fuel w data (first : bool) :
  (offset_ w <= kBlockSize)%nat -> (length data + (if first then 2 else 1) <= fuel)%nat ->
  (first = false -> start (offset_ w) + kHeaderSize < kBlockSize)%nat ->
  let frs := fragments fuel (offset_ w) data first in
  ∃ s w', add_record_loop fuel w data first = Some (s, w') ∧
    appended w w' (layout (offset_ w) frs) s (layout_end (offset_ w) frs).
Proof.
  revert w data first.
  induction fuel as [|fuel IH]; intros w data first Hoff Hfuel Hfirst; [destruct first; lia|].
  cbn [add_record_loop fragments layout layout_end]. cbv zeta.
  destruct (pad_block w) as [s1 w1] eqn:E1. apply pad_block_spec in E1; [|done].
  destruct (is_ok s1) eqn:Es1; cbn [negb].
  2:{ exists s1, w1. split; [done|]. by eapply appended_more. }
  assert (offset_ w1 = start (offset_ w)) as Eo1 by (destruct E1 as (? & _ & H & _); by apply H).
  rewrite Eo1. pose proof (start_bound (offset_ w)) as Hst.
  set (available := (kBlockSize - start (offset_ w) - kHeaderSize)%nat).
  set (n := if (length data <? available)%nat then length data else available).
  assert (length (take n data) = n) as En.
  { rewrite length_take. subst n. destruct (Nat.ltb_spec (length data) available); lia. }
  destruct (emit_physical_record w1 (fragment_type first (n =? length data)%nat) (take n data))
    as [s2 w2] eqn:E2. apply emit_spec in E2. rewrite Eo1 in E2.
  pose proof (appended_trans _ _ _ _ _ _ _ _ _ E1 Es1 E2) as E12. rewrite app_assoc.
  destruct (is_ok s2) eqn:Es2; cbn [negb].
  2:{ exists s2, w2. split; [done|]. by eapply appended_more. }
  assert (offset_ w2 = start (offset_ w) + kHeaderSize + length (take n data))%nat as Eo2
    by (destruct E2 as (? & _ & H & _); by apply H).
  destruct (Nat.ltb_spec 0 (length data - n)) as [Hmore|Hdone].
  - assert (n = available) as En'.
    { subst n. destruct (Nat.ltb_spec (length data) available); lia. }
    destruct (IH w2 (drop n data) false) as (s3 & w3 & -> & E3); rewrite ?Eo2, ?En in *.
    + subst available. wal_lia.
    + rewrite length_drop. destruct first; [lia|].
      assert (0 < available)%nat by (subst available; specialize (Hfirst eq_refl); lia). lia.
    + intros _.
      replace (start (offset_ w) + kHeaderSize + n)%nat with kBlockSize by (subst available; wal_lia).
      unfold start. destruct (Nat.ltb_spec (kBlockSize - kBlockSize) kHeaderSize); wal_lia.
    + exists s3, w3. split; [done|]. by eapply appended_trans.
  - exists ok, w2. split; [done|]. cbn [layout layout_end]. rewrite app_nil_r.
    by eapply appended_ok.
Qed.

Definition record_fragments (off : nat) (payload : bytes) : list (RecordType * bytes) :=
  fragments (length payload + 2) off payload true.

Lemma add_record_spec w payload :
  (offset_ w <= kBlockSize)%nat ->
  let frs := record_fragments (offset_ w) payload in
  chain true payload frs ∧ fits (offset_ w) frs ∧
  ∃ s w', add_record w payload = Some (s, w') ∧
    appended w w' (layout (offset_ w) frs) s (layout_end (offset_ w) frs).
Proof.
  intros Hoff frs. destruct (fragments_chain (length payload + 2) (offset_ w) payload true)
    as [Hc Hf]; [done|lia|done|].
  split_and!; [done..|]. by apply add_record_loop_spec.
Qed.

(** ** Reading a stream

    [at_stream r off s]: the reader stands at block offset [off], nothing has
    gone wrong, and [s] is what is left of the file: the rest of the block it
    holds, then the rest of the source. *)
Record at_stream (r : LogReader) (off : nat) (s : bytes) : Prop := {
  as_off : block_offset_ r = off;
  as_bound : (off <= kBlockSize)%nat;
  as_block : drop off (block_ r) = take (kBlockSize - off) s;
  as_len : length (block_ r) = (off + Nat.min (kBlockSize - off) (length s))%nat;
  as_rest : sf_rest (source_ r) = drop (kBlockSize - off) s;
  as_faults : sf_faults (source_ r) = [];
  as_eof : eof_ r = false;
  as_clean : truncated_ r = false ∧ damaged_ r = false ∧ read_failed_ r = false ∧
             failure_reason_ r = ""%string
}.

Lemma RecordType_of_to t : RecordType_of_Z (RecordType_to_Z t) = Some t.
Proof. by destruct t. Qed.

Lemma type_byte t : byte_to_Z (Z_to_byte (RecordType_to_Z t)) = RecordType_to_Z t.
Proof. by destruct t. Qed.

Lemma length_field n :
  0 <= n < 65536 ->
  byte_to_Z (Z_to_byte (n .& 255)) .| (byte_to_Z (Z_to_byte ((n .>> 8) .& 255)) .<< 8) = n.
Proof.
  intros Hn. rewrite byte_of_shift, byte_to_Z_of_Z, land_255.
  rewrite Z.mod_mod, Z.shiftr_div_pow2 by lia. change (2 ^ 8) with 256.
  rewrite lor_disjoint_add by zmod. change (2 ^ 8) with 256. zmod.
Qed.

Lemma record_crc_range b p : 0 <= record_crc b p < 2 ^ 32.
Proof. apply crc32c_extend_range, crc32c_extend_range. lia. Qed.

Lemma parse_record_header t p rest :
  size p < 65536 ->
  parse_header (record_header t p ++ rest) =
    Some (mkHeader (record_crc (Z_to_byte (RecordType_to_Z t)) p) (length p) (Some t)).
Proof.
  intros Hp. unfold parse_header, record_header, put_fixed32. rewrite <- !app_assoc, app_nil_l.
  rewrite decode_encode_fixed32_app, u32_small by apply record_crc_range.
  rewrite drop_app_length' by done. cbn [app].
  rewrite type_byte, RecordType_of_to, length_field by (pose proof (size_nonneg p); lia).
  unfold size. by rewrite Nat2Z.id.
Qed.

(** The parts of a record from the position of its header. *)
Lemma record_type_byte t p rest :
  take 1 (drop 6 (phys_record t p ++ rest)) = [Z_to_byte (RecordType_to_Z t)].
Proof. done. Qed.
Lemma record_payload t p rest :
  take (length p) (drop kHeaderSize (phys_record t p ++ rest)) = p.
Proof.
  unfold phys_record. rewrite <- app_assoc.
  rewrite drop_app_length' by done. by rewrite take_app_length.
Qed.

Lemma header_not_zeroed c l t : t ≠ kZero -> is_zeroed (mkHeader c l (Some t)) = false.
Proof.
  intros H. unfold is_zeroed. cbn [h_type]. rewrite bool_decide_eq_false_2; [done|congruence].
Qed.

(** A block with a whole record at [off]. *)
Lemma read_physical_here fuel r off t p s :
  at_stream r off (phys_record t p ++ s) -> t ≠ kZero ->
  (off + kHeaderSize + length p <= kBlockSize)%nat ->
  ∃ r', read_physical_record (S fuel) r = Some (Physical (Some t) p r') ∧
        at_stream r' (off + kHeaderSize + length p) s.
Proof.
  intros [Eo Eb Ed El Er Ef Ee Ec] Ht Hfit.
  rewrite length_app, length_phys_record in El.
  assert (drop off (block_ r) = phys_record t p ++ take (kBlockSize - off - 7 - length p) s) as Ed'.
  { rewrite Ed, take_app, take_ge by (rewrite length_phys_record; wal_lia).
    rewrite length_phys_record. do 2 f_equal. lia. }
  cbn [read_physical_record]. rewrite Eo.
  destruct (Nat.ltb_spec (length (block_ r)) (off + kHeaderSize)) as [|_]; [wal_lia|].
  rewrite Ed'. unfold phys_record at 1. rewrite <- app_assoc, parse_record_header by (unfold size; wal_lia).
  rewrite header_not_zeroed by done. cbn [h_length h_crc h_type].
  destruct (Nat.ltb_spec (length (block_ r)) (off + kHeaderSize + length p)) as [|_]; [wal_lia|].
  cbv zeta. rewrite record_type_byte, record_payload.
  fold (record_crc (Z_to_byte (RecordType_to_Z t)) p). rewrite Z.eqb_refl. simpl negb. cbv iota.
  eexists. split; [done|]. split; simpl; try done; rewrite ?Ee; try done.
  - rewrite <- (Nat.add_assoc off), <- drop_drop, Ed'.
    rewrite drop_app_length' by (rewrite length_phys_record; wal_lia).
    f_equal. wal_lia.
  - rewrite El. wal_lia.
  - rewrite Er, drop_app, length_phys_record.
    rewrite drop_ge by (rewrite length_phys_record; wal_lia). simpl. f_equal. wal_lia.
Qed.

(** Crossing into the next block when the current one is used up. *)
Lemma load_next_block_stream r off pd s :
  at_stream r off (pd ++ s) -> length pd = (kBlockSize - off)%nat -> s ≠ [] ->
  ∃ r', load_next_block r = (true, r') ∧ at_stream r' 0 s.
Proof.
  intros [Eo Eb Ed El Er Ef Ee Ec] Hpd Hs. unfold load_next_block, sf_read.
  rewrite Ef, Er, drop_app_length' by done. simpl is_ok.
  assert (take kBlockSize s ≠ []) as Hne.
  { destruct s as [|b s]; [done|]. destruct kBlockSize eqn:E; [wal_lia|done]. }
  destruct (take kBlockSize s) as [|b c] eqn:Et; [done|]. simpl negb. cbv iota.
  eexists. split; [done|].
  split; simpl; rewrite ?Nat.sub_0_r; try done; try lia.
  - change (S (length c)) with (length (b :: c)). rewrite <- Et, length_take. lia.
Qed.

Lemma load_next_block_end r off pd :
  at_stream r off pd -> length pd = (kBlockSize - off)%nat ->
  ∃ r', load_next_block r = (false, r') ∧ eof_ r' = true ∧
        truncated_ r' = false ∧ damaged r' = false ∧ failure_reason_ r' = ""%string.
Proof.
  intros [Eo Eb Ed El Er Ef Ee (Hc1 & Hc2 & Hc3 & Hc4)] Hpd. unfold load_next_block, sf_read.
  rewrite Ef, Er, (drop_ge pd) by lia. rewrite take_nil. simpl.
  eexists. split; [done|]. unfold damaged; simpl. by rewrite Hc1, Hc2, Hc3, Hc4.
Qed.

(** The two branches taken when no header fits in the block any more. *)
Lemma read_physical_full_block r :
  (length (block_ r) < block_offset_ r + kHeaderSize)%nat ->
  length (block_ r) = kBlockSize ->
  read_physical r =
    match load_next_block r with
    | (false, r) => Some (NoPhysical r)
    | (true, r) => read_physical_record 1 r
    end.
Proof.
  intros Hlt E. unfold read_physical. cbn [read_physical_record].
  apply Nat.ltb_lt in Hlt. by rewrite Hlt, E, Nat.eqb_refl.
Qed.

Lemma read_physical_short fuel r :
  (length (block_ r) < block_offset_ r + kHeaderSize)%nat ->
  length (block_ r) ≠ kBlockSize ->
  ∃ r', read_physical_record (S fuel) r = Some (NoPhysical r').
Proof.
  intros Hlt Hne. cbn [read_physical_record].
  apply Nat.ltb_lt in Hlt. apply Nat.eqb_neq in Hne. rewrite Hlt, Hne.
  destruct (block_offset_ r <? length (block_ r))%nat; eauto.
Qed.

(** The reader consumes one laid-out record, whatever follows it. *)
Lemma read_physical_ok r off t p s :
  at_stream r off (pad off ++ phys_record t p ++ s) -> t ≠ kZero ->
  (start off + kHeaderSize + length p <= kBlockSize)%nat ->
  ∃ r', read_physical r = Some (Physical (Some t) p r') ∧
        at_stream r' (start off + kHeaderSize + length p) s.
Proof.
  intros Hs Ht Hfit. unfold read_physical, start, pad in *.
  destruct (Nat.ltb_spec (kBlockSize - off) kHeaderSize) as [Hlt|Hge].
  - assert (length (block_ r) = kBlockSize) as Elen.
    { rewrite (as_len _ _ _ Hs), !length_app, length_replicate.
      pose proof (as_bound _ _ _ Hs). wal_lia. }
    fold (read_physical r).
    rewrite read_physical_full_block by (rewrite ?(as_off _ _ _ Hs); wal_lia).
    destruct (load_next_block_stream r off _ _ Hs) as (r1 & -> & Hs1);
      [by rewrite length_replicate|done|].
    by apply (read_physical_here 0 r1 0).
  - by apply (read_physical_here 1 r off).
Qed.

Lemma read_physical_end r off :
  at_stream r off [] ->
  ∃ r', read_physical r = Some (NoPhysical r') ∧ eof_ r' = true ∧
        truncated_ r' = false ∧ damaged r' = false ∧ failure_reason_ r' = ""%string.
Proof.
  intros Hs. unfold read_physical. remember 1%nat as one. cbn [read_physical_record].
  pose proof (as_len _ _ _ Hs) as El. simpl in El. rewrite Nat.min_0_r, Nat.add_0_r in El.
  rewrite (as_off _ _ _ Hs), El.
  destruct (Nat.ltb_spec off (off + kHeaderSize)) as [_|]; [|wal_lia].
  destruct (Nat.eqb_spec off kBlockSize) as [->|].
  - destruct (load_next_block_end r kBlockSize [] Hs) as (r' & -> & ?); [simpl; lia|]. eauto.
  - destruct (Nat.ltb_spec off off) as [|_]; [lia|].
    destruct (as_clean _ _ _ Hs) as (Hc1 & Hc2 & Hc3 & Hc4).
    eexists. split; [done|]. unfold damaged; simpl. by rewrite Hc1, Hc2, Hc3, Hc4.
Qed.

(** ** Logical records *)

(** A reader about to read [s]: at an offset, or before the first load. *)
Inductive ready (r : LogReader) (s : bytes) : nat -> Prop :=
  | ready_at off : at_stream r off s -> block_ r ≠ [] -> ready r s off
  | ready_fresh :
      r = LogReader_new (mkSequential s []) -> ready r s 0.

Lemma block_nonempty r off s : at_stream r off s -> s ≠ [] ∨ (0 < off)%nat -> block_ r ≠ [].
Proof.
  intros Hs Hn Hb. pose proof (as_len _ _ _ Hs) as El. rewrite Hb in El. simpl in El.
  pose proof (as_bound _ _ _ Hs). destruct Hn as [Hn|]; [|lia].
  destruct s; [done|]. simpl in El. wal_lia.
Qed.

(** The load at the head of [read_record]. *)
Definition ensure_block (r : LogReader) : bool * LogReader :=
  match block_ r with [] => load_next_block r | _ => (true, r) end.

Lemma ready_not_eof r s off : ready r s off -> eof_ r = false.
Proof. intros [off' Hs _ | -> ]; [exact (as_eof _ _ _ Hs)|done]. Qed.

Lemma ready_load r s off :
  ready r s off -> s ≠ [] -> ∃ r', ensure_block r = (true, r') ∧ at_stream r' off s.
Proof.
  intros [off' Hs Hb | -> ] Hne; unfold ensure_block.
  - destruct (block_ r); [done|]. eauto.
  - unfold load_next_block, sf_read, LogReader_new. cbn [source_ sf_faults sf_rest block_ is_ok].
    assert (take kBlockSize s ≠ []) as Ht.
    { destruct s; [done|]. destruct kBlockSize eqn:E; [wal_lia|done]. }
    destruct (take kBlockSize s) as [|b c] eqn:Et; [done|]. simpl negb. cbv iota.
    eexists. split; [done|]. split; simpl; rewrite ?Nat.sub_0_r; try done; try lia.
    change (S (length c)) with (length (b :: c)). rewrite <- Et, length_take. lia.
Qed.

Lemma ready_end r off :
  ready r [] off ->
  ∃ r', read_record r = Some (None, r') ∧ eof_ r' = true ∧
        truncated r' = false ∧ damaged r' = false.
Proof.
  intros H. unfold read_record. rewrite (ready_not_eof _ _ _ H).
  destruct H as [off Hs Hb | -> ].
  - destruct (read_physical_end r off Hs) as (r' & E & ? & ? & ? & ?).
    destruct (block_ r); [done|]. simpl. rewrite E. eauto.
  - simpl. eexists. split_and!; [done..].
Qed.

Lemma at_stream_unread r off s : at_stream r off s -> unread r = length s.
Proof.
  intros Hs. unfold unread. rewrite (as_off _ _ _ Hs), (as_len _ _ _ Hs), (as_rest _ _ _ Hs).
  rewrite length_drop. lia.
Qed.

Lemma layout_length off frs : (7 * length frs <= length (layout off frs))%nat.
Proof.
  revert off. induction frs as [|[t p] frs IH]; intros off; lay; cbn [length]; [lia|].
  rewrite !length_app, length_phys_record.
  specialize (IH (start off + kHeaderSize + length p)%nat). lia.
Qed.

Lemma layout_nonempty off frs s : frs ≠ [] -> layout off frs ++ s ≠ [].
Proof.
  intros H E. apply (f_equal length) in E. rewrite length_app in E. simpl in E.
  pose proof (layout_length off frs). destruct frs; [done|]. simpl in *. lia.
Qed.

Lemma read_fragments_chain fuel r off data frs scratch s :
  chain false data frs -> fits off frs -> at_stream r off (layout off frs ++ s) ->
  (length frs <= fuel)%nat ->
  ∃ r', read_fragments fuel r scratch = Some (Some (scratch ++ data), r') ∧
        at_stream r' (layout_end off frs) s.
Proof.
  revert r off data scratch fuel.
  induction frs as [|[t p] frs IH]; intros r off data scratch fuel Hc Hf Hs Hfuel;
    inversion Hc as [? ?|? ? rest ? Hc']; subst.
  - destruct fuel; [simpl in Hfuel; lia|].
    lay in Hs. rewrite app_nil_r, <- app_assoc in Hs. destruct Hf as (Ht & Hfit & _).
    destruct (read_physical_ok _ _ _ _ _ Hs Ht Hfit) as (r' & E & Hs').
    cbn [read_fragments]. rewrite E. simpl. eauto.
  - destruct fuel; [simpl in Hfuel; lia|].
    lay in Hs. rewrite <- !app_assoc in Hs. destruct Hf as (Ht & Hfit & Hf).
    destruct (read_physical_ok _ _ _ _ _ Hs Ht Hfit) as (r' & E & Hs').
    destruct (IH r' _ rest (scratch ++ p) fuel Hc' Hf Hs') as (r'' & E' & Hs'');
      [simpl in Hfuel; lia|].
    cbn [read_fragments]. rewrite E. simpl. rewrite E', <- app_assoc. eauto.
Qed.

Lemma chain_nonempty first data frs : chain first data frs -> frs ≠ [].
Proof. by destruct 1. Qed.

Lemma layout_end_pos off frs : frs ≠ [] -> (0 < layout_end off frs)%nat.
Proof.
  revert off. induction frs as [|[t p] frs IH]; intros off; [done|]. intros _. lay.
  destruct frs as [|x frs]; [simpl; wal_lia|by apply IH].
Qed.

Lemma read_record_ok r off data frs s :
  ready r (layout off frs ++ s) off -> chain true data frs -> fits off frs ->
  ∃ r', read_record r = Some (Some data, r') ∧ ready r' s (layout_end off frs).
Proof.
  intros Hr Hc Hf. pose proof (chain_nonempty _ _ _ Hc) as Hne.
  unfold read_record. rewrite (ready_not_eof _ _ _ Hr).
  destruct (ready_load _ _ _ Hr (layout_nonempty off frs s Hne)) as (r1 & E1 & Hs).
  fold (ensure_block r). rewrite E1. simpl negb. cbv iota.
  assert (∀ r', at_stream r' (layout_end off frs) s -> ready r' s (layout_end off frs)) as Hrd.
  { intros r' Hs'. constructor; [done|]. eapply block_nonempty; [done|].
    right. by apply layout_end_pos. }
  inversion Hc as [? p|? p rest frs' Hc']; subst.
  - lay in Hs. rewrite app_nil_r, <- app_assoc in Hs. destruct Hf as (Ht & Hfit & _).
    destruct (read_physical_ok _ _ _ _ _ Hs Ht Hfit) as (r' & E & Hs').
    rewrite E. simpl. eauto.
  - lay in Hs. rewrite <- !app_assoc in Hs. destruct Hf as (Ht & Hfit & Hf).
    destruct (read_physical_ok _ _ _ _ _ Hs Ht Hfit) as (r' & E & Hs').
    rewrite E. cbn [fragment_type andb]. simpl negb. cbv iota.
    destruct (read_fragments_chain (S (unread r')) r' _ rest frs' p s Hc' Hf Hs')
      as (r'' & E' & Hs'').
    { rewrite (at_stream_unread _ _ _ Hs'), length_app.
      pose proof (layout_length (start off + kHeaderSize + length p) frs'). lia. }
    simpl bool_decide. cbv iota. rewrite E'. eauto.
Qed.

(** ** Torn tails: a prefix of what was laid out *)
Lemma read_physical_here_torn fuel r off t p s n :
  at_stream r off (take n (phys_record t p ++ s)) -> t ≠ kZero ->
  (off + kHeaderSize + length p <= kBlockSize)%nat -> (n < 7 + length p)%nat ->
  ∃ r', read_physical_record (S fuel) r = Some (NoPhysical r').
Proof.
  intros Hs Ht Hfit Hn. destruct Hs as [Eo Eb Ed El Er Ef Ee Ec].
  rewrite length_take, length_app, length_phys_record in El.
  assert (length (block_ r) = off + n)%nat as Elen by wal_lia.
  cbn [read_physical_record]. rewrite Eo, Elen.
  destruct (Nat.ltb_spec (off + n) (off + kHeaderSize)) as [Hlt|Hge].
  - destruct (Nat.eqb_spec (off + n) kBlockSize); [wal_lia|].
    destruct (Nat.ltb_spec off (off + n)); eauto.
  - assert (drop off (block_ r) = record_header t p ++ take (n - 7) (p ++ s)) as ->.
    { rewrite Ed, take_take, Nat.min_r by wal_lia. unfold phys_record.
      rewrite <- app_assoc, take_app, take_ge by (rewrite length_record_header; wal_lia).
      by rewrite length_record_header. }
    rewrite parse_record_header by (unfold size; wal_lia).
    rewrite header_not_zeroed by done. cbn [h_length].
    destruct (Nat.ltb_spec (off + n) (off + kHeaderSize + length p)); [eauto|wal_lia].
Qed.

Lemma read_physical_torn r off t p s n :
  at_stream r off (take n (pad off ++ phys_record t p ++ s)) -> t ≠ kZero ->
  (start off + kHeaderSize + length p <= kBlockSize)%nat ->
  (n < length (pad off) + 7 + length p)%nat ->
  ∃ r', read_physical r = Some (NoPhysical r').
Proof.
  intros Hs Ht Hfit Hn. unfold read_physical, start, pad in *.
  destruct (Nat.ltb_spec (kBlockSize - off) kHeaderSize) as [Hlt|Hge];
    [|by apply (read_physical_here_torn 1 r off t p s n)].
  rewrite length_replicate in Hn.
  pose proof (as_len _ _ _ Hs) as El. pose proof (as_bound _ _ _ Hs) as Hb.
  rewrite length_take, !length_app, length_replicate, length_phys_record in El.
  destruct (Nat.lt_ge_cases n (kBlockSize - off)) as [Hn1|Hn1];
    [apply read_physical_short; rewrite ?(as_off _ _ _ Hs); wal_lia|].
  fold (read_physical r).
  rewrite read_physical_full_block by (rewrite ?(as_off _ _ _ Hs); wal_lia).
  destruct (decide (n = kBlockSize - off)%nat) as [->|].
  - rewrite take_app_length' in Hs by (by rewrite length_replicate).
    destruct (load_next_block_end r off _ Hs) as (r' & -> & _);
      [by rewrite length_replicate|]. eauto.
  - rewrite take_app, take_ge, length_replicate in Hs by (rewrite length_replicate; wal_lia).
    destruct (load_next_block_stream r off _ _ Hs) as (r1 & -> & Hs1).
    + by rewrite length_replicate.
    + intros E. apply (f_equal length) in E.
      rewrite length_take, length_app, length_phys_record in E. simpl in E. wal_lia.
    + apply (read_physical_here_torn 0 r1 0 t p s _ Hs1 Ht Hfit). wal_lia.
Qed.

Lemma take_layout_cons n off t p frs s :
  (length (pad off) + 7 + length p <= n)%nat ->
  take n (layout off ((t, p) :: frs) ++ s) =
    pad off ++ phys_record t p ++
      take (n - (length (pad off) + 7 + length p))
        (layout (start off + kHeaderSize + length p) frs ++ s).
Proof.
  intros H. lay. rewrite <- !app_assoc, take_app, take_ge by lia. f_equal.
  rewrite take_app, take_ge, length_phys_record by (rewrite length_phys_record; lia).
  do 2 f_equal. lia.
Qed.

Lemma length_layout_cons off t p frs :
  length (layout off ((t, p) :: frs)) =
    (length (pad off) + 7 + length p + length (layout (start off + kHeaderSize + length p) frs))%nat.
Proof. lay. rewrite !length_app, length_phys_record. lia. Qed.

Lemma read_fragments_torn fuel r off data frs scratch s n :
  chain false data frs -> fits off frs ->
  at_stream r off (take n (layout off frs ++ s)) ->
  (n < length (layout off frs))%nat -> (n < fuel)%nat ->
  ∃ r', read_fragments fuel r scratch = Some (None, r').
Proof.
  revert r off data scratch fuel n.
  induction frs as [|[t p] frs IH]; intros r off data scratch fuel n Hc Hf Hs Hn Hfuel;
    [by inversion Hc|].
  destruct fuel as [|fuel]; [lia|]. cbn [read_fragments].
  rewrite length_layout_cons in Hn. destruct Hf as (Ht & Hfit & Hf).
  destruct (Nat.lt_ge_cases n (length (pad off) + 7 + length p)) as [Hlt|Hge].
  - lay in Hs. rewrite <- !app_assoc in Hs.
    destruct (read_physical_torn _ _ _ _ _ _ Hs Ht Hfit Hlt) as (r' & ->). eauto.
  - rewrite take_layout_cons in Hs by done.
    destruct (read_physical_ok _ _ _ _ _ Hs Ht Hfit) as (r' & -> & Hs').
    inversion Hc as [? ?|? ? rest ? Hc']; subst; [simpl in Hn; lia|].
    simpl. eapply IH; [done..|lia|lia].
Qed.

Lemma read_record_torn r off data frs s n :
  ready r (take n (layout off frs ++ s)) off -> chain true data frs -> fits off frs ->
  (n < length (layout off frs))%nat -> ∃ r', read_record r = Some (None, r').
Proof.
  intros Hr Hc Hf Hn.
  destruct (decide (take n (layout off frs ++ s) = [])) as [E|Hne].
  { rewrite E in Hr. destruct (ready_end _ _ Hr) as (r' & ? & _). eauto. }
  unfold read_record. rewrite (ready_not_eof _ _ _ Hr).
  destruct (ready_load _ _ _ Hr Hne) as (r1 & E1 & Hs).
  fold (ensure_block r). rewrite E1. simpl negb. cbv iota.
  destruct frs as [|[t p] frs]; [by inversion Hc|].
  rewrite length_layout_cons in Hn. destruct Hf as (Ht & Hfit & Hf).
  destruct (Nat.lt_ge_cases n (length (pad off) + 7 + length p)) as [Hlt|Hge].
  { lay in Hs. rewrite <- !app_assoc in Hs.
    destruct (read_physical_torn _ _ _ _ _ _ Hs Ht Hfit Hlt) as (r' & ->). eauto. }
  rewrite take_layout_cons in Hs by done.
  destruct (read_physical_ok _ _ _ _ _ Hs Ht Hfit) as (r' & -> & Hs').
  inversion Hc as [? ?|? ? rest ? Hc']; subst; [simpl in Hn; lia|].
  cbn [fragment_type andb]. simpl bool_decide. cbn [negb]. cbv iota.
  eapply read_fragments_torn; [done..|lia|].
  rewrite (at_stream_unread _ _ _ Hs'), length_take, length_app. lia.
Qed.

(** A log: records, each with its fragments, laid out one after the other. *)
Fixpoint log_layout (off : nat) (frss : list (list (RecordType * bytes))) : bytes :=
  match frss with
  | [] => []
  | frs :: frss' => layout off frs ++ log_layout (layout_end off frs) frss'
  end.
Fixpoint log_end (off : nat) (frss : list (list (RecordType * bytes))) : nat :=
  match frss with [] => off | frs :: frss' => log_end (layout_end off frs) frss' end.
Fixpoint log_fits (off : nat) (recs : list bytes) (frss : list (list (RecordType * bytes))) : Prop :=
  match recs, frss with
  | [], [] => True
  | rec :: recs', frs :: frss' =>
      chain true rec frs ∧ fits off frs ∧ log_fits (layout_end off frs) recs' frss'
  | _, _ => False
  end.

Lemma log_layout_app off a b :
  log_layout off (a ++ b) = log_layout off a ++ log_layout (log_end off a) b.
Proof.
  revert off. induction a as [|frs a IH]; intros off; [done|].
  cbn [app log_layout log_end]. by rewrite IH, app_assoc.
Qed.
Lemma log_fits_app off r1 f1 r2 f2 :
  log_fits off r1 f1 -> log_fits (log_end off f1) r2 f2 -> log_fits off (r1 ++ r2) (f1 ++ f2).
Proof.
  revert off f1. induction r1 as [|r r1 IH]; intros off [|f f1]; simpl; try done.
  intros (? & ? & ?) ?. auto.
Qed.
Lemma log_fits_length off recs frss : log_fits off recs frss -> length frss = length recs.
Proof.
  revert off frss. induction recs as [|r recs IH]; intros off [|f frss]; simpl; try done.
  intros (_ & _ & H). f_equal. eauto.
Qed.

(** Reading the first [n] bytes of a log: a prefix of its records, holding
    at least every record that lies inside those bytes. *)
Lemma read_all_prefix recs frss off r n :
  log_fits off recs frss -> ready r (take n (log_layout off frss)) off ->
  ∃ k r', read_all (S (length recs)) r = Some (take k recs, r') ∧
    (∀ j, (j <= length recs)%nat ->
          (length (log_layout off (take j frss)) <= n)%nat -> (j <= k)%nat).
Proof.
  revert frss off r n. induction recs as [|rec recs IH]; intros [|frs frss] off r n; try done.
  - intros _ Hr. simpl in Hr. rewrite take_nil in Hr.
    destruct (ready_end _ _ Hr) as (r' & E & _). exists 0%nat, r'.
    simpl. rewrite E. split; [done|]. intros; lia.
  - intros (Hc & Hf & Hl) Hr. cbn [log_layout] in Hr.
    destruct (Nat.lt_ge_cases n (length (layout off frs))) as [Hlt|Hge].
    + destruct (read_record_torn _ _ _ _ _ _ Hr Hc Hf Hlt) as (r' & E).
      exists 0%nat, r'. cbn [read_all]. rewrite E. split; [done|].
      intros [|j] _ Hj; [lia|]. cbn [take log_layout] in Hj. rewrite length_app in Hj. lia.
    + rewrite take_app, take_ge in Hr by lia.
      destruct (read_record_ok _ _ _ _ _ Hr Hc Hf) as (r1 & E1 & Hr1).
      destruct (IH frss _ r1 _ Hl Hr1) as (k & r' & E & Hk).
      exists (S k), r'. cbn [length read_all] in *. rewrite E1, E. split; [done|].
      intros [|j] Hj Hn; [lia|]. cbn [take log_layout length] in *. rewrite length_app in Hn.
      specialize (Hk j). lia.
Qed.

Lemma read_all_whole recs frss off r :
  log_fits off recs frss -> ready r (log_layout off frss) off ->
  ∃ r', read_all (S (length recs)) r = Some (recs, r') ∧
    truncated r' = false ∧ damaged r' = false.
Proof.
  revert frss off r. induction recs as [|rec recs IH]; intros [|frs frss] off r; try done.
  - intros _ Hr. destruct (ready_end _ _ Hr) as (r' & E & _ & ? & ?). exists r'.
    simpl. by rewrite E.
  - intros (Hc & Hf & Hl) Hr. cbn [log_layout] in Hr.
    destruct (read_record_ok _ _ _ _ _ Hr Hc Hf) as (r1 & E1 & Hr1).
    destruct (IH frss _ r1 Hl Hr1) as (r' & E & ? & ?).
    exists r'. cbn [length read_all] in *. by rewrite E1, E.
Qed.

(** ** Whole logs *)
Lemma log_end_bound off recs frss :
  (off <= kBlockSize)%nat -> log_fits off recs frss -> (log_end off frss <= kBlockSize)%nat.
Proof.
  revert off frss. induction recs as [|r recs IH]; intros off [|f frss]; simpl; try done.
  intros _ (_ & Hf & H). eapply IH; [|done]. by apply fits_end.
Qed.

(** [add_records] under any failures: the file is a prefix of a log that
    starts with the records acknowledged so far. *)
Lemma add_records_spec w recs :
  (offset_ w <= kBlockSize)%nat ->
  ∃ frss s w', add_records w recs = Some (s, w') ∧ log_fits (offset_ w) recs frss ∧
    appended w w' (log_layout (offset_ w) frss) s (log_end (offset_ w) frss).
Proof.
  revert w. induction recs as [|rec recs IH]; intros w Hoff.
  - exists [], ok, w. split_and!; [done..|]. apply appended_refl.
  - destruct (add_record_spec w rec Hoff) as (Hc & Hf & s1 & w1 & E1 & A1).
    set (frs := record_fragments (offset_ w) rec) in *.
    cbn [add_records]. rewrite E1. destruct (is_ok s1) eqn:Es1; cbn [negb].
    + assert (offset_ w1 = layout_end (offset_ w) frs) as Eo
        by (destruct A1 as (? & _ & H & _); by apply H).
      destruct (IH w1) as (frss & s2 & w2 & E2 & Hl & A2);
        [rewrite Eo; by apply fits_end|]. rewrite Eo in *.
      exists (frs :: frss), s2, w2. split_and!; [done|done|]. by eapply appended_trans.
    + destruct (IH (mkWriter (dest_ w) (layout_end (offset_ w) frs) 0))
        as (frss & _ & _ & _ & Hl & _); [by apply fits_end|].
      exists (frs :: frss), s1, w1. split_and!; [done|done|]. by eapply appended_more.
Qed.

(** ** Damage in the middle *)

(** A record's bytes: six of header, then what the checksum covers. *)
Definition record_prefix (t : RecordType) (p : bytes) : bytes := take 6 (record_header t p).
Definition record_body (t : RecordType) (p : bytes) : bytes :=
  Z_to_byte (RecordType_to_Z t) :: p.

Lemma phys_record_split t p : phys_record t p = record_prefix t p ++ record_body t p.
Proof. done. Qed.

Lemma record_crc_body t p :
  record_crc (Z_to_byte (RecordType_to_Z t)) p = crc32c_extend 0 (record_body t p).
Proof. unfold record_crc. by rewrite crc32c_extend_app. Qed.

Lemma parse_damaged_header t p b p1 rest :
  size p < 65536 ->
  parse_header (record_prefix t p ++ b :: p1 ++ rest) =
    Some (mkHeader (record_crc (Z_to_byte (RecordType_to_Z t)) p) (length p)
            (RecordType_of_Z (byte_to_Z b))).
Proof.
  intros Hp. unfold parse_header, record_prefix, record_header, put_fixed32.
  rewrite app_nil_l. cbn [take app encode_fixed32].
  change (Z_to_byte ?x :: Z_to_byte ?y :: Z_to_byte ?z :: Z_to_byte ?w :: ?l) with
    (encode_fixed32 (record_crc (Z_to_byte (RecordType_to_Z t)) p) ++ l).
  rewrite decode_encode_fixed32_app, u32_small by apply record_crc_range.
  rewrite drop_app_length' by done. cbn [app].
  rewrite length_field by (pose proof (size_nonneg p); lia).
  unfold size. by rewrite Nat2Z.id.
Qed.

(** The checksum of an empty record is not zero, so its damaged header is not
    taken for a zeroed span. *)
Lemma empty_record_crc t : t ≠ kZero -> record_crc (Z_to_byte (RecordType_to_Z t)) [] ≠ 0.
Proof. destruct t; [done|..]; intros _; vm_compute; discriminate. Qed.

Lemma damaged_not_zeroed t p b :
  t ≠ kZero ->
  is_zeroed (mkHeader (record_crc (Z_to_byte (RecordType_to_Z t)) p) (length p)
               (RecordType_of_Z (byte_to_Z b))) = false.
Proof.
  intros Ht. unfold is_zeroed; cbn [h_type h_length h_crc].
  destruct p as [|x p]; simpl; [|by rewrite andb_false_r].
  destruct (Z.eqb_spec (record_crc (Z_to_byte (RecordType_to_Z t)) []) 0) as [E|];
    [by apply empty_record_crc in E|by rewrite andb_false_r].
Qed.

(** A record that verifies where the walk resumes is found. *)
Lemma walk_finds fuel block t p rest pos :
  drop pos block = phys_record t p ++ rest -> t ≠ kZero -> size p < 65536 ->
  (pos <= length block)%nat -> walk_records (S fuel) block pos = true.
Proof.
  intros E Ht Hp Hpos. assert (length block = pos + (7 + length p + length rest))%nat as El.
  { apply (f_equal length) in E.
    rewrite length_drop, length_app, length_phys_record in E. lia. }
  cbn [walk_records]. rewrite El.
  destruct (Nat.leb_spec (pos + kHeaderSize) (pos + (7 + length p + length rest)));
    [|unfold kHeaderSize in *; lia].
  rewrite E. unfold phys_record at 1. rewrite <- app_assoc, parse_record_header by done.
  rewrite header_not_zeroed by done. cbn [h_length].
  destruct (Nat.ltb_spec (pos + (7 + length p + length rest)) (pos + kHeaderSize + length p));
    [unfold kHeaderSize in *; lia|].
  unfold verifies. cbn [h_length h_crc h_type].
  rewrite record_type_byte, record_payload. fold (record_crc (Z_to_byte (RecordType_to_Z t)) p).
  rewrite Z.eqb_refl. by destruct t.
Qed.

Lemma stop_found r reason pos :
  walk_records (S (length (block_ r))) (block_ r) pos = true ->
  damaged (stop r reason pos) = true ∧ truncated (stop r reason pos) = true.
Proof.
  intros H. unfold stop. cbn [readable_record_follows]. rewrite H. by unfold damaged.
Qed.

Lemma read_physical_damaged fuel r off t p body t2 p2 s :
  at_stream r off (record_prefix t p ++ body ++ phys_record t2 p2 ++ s) ->
  t ≠ kZero -> t2 ≠ kZero -> burst (record_body t p) body ->
  (off + kHeaderSize + length p + kHeaderSize + length p2 <= kBlockSize)%nat ->
  ∃ r', read_physical_record (S fuel) r = Some (NoPhysical r') ∧
    truncated r' = true ∧ damaged r' = true.
Proof.
  intros [Eo Eb Ed El Er Ef Ee Ec] Ht Ht2 Hburst Hfit.
  pose proof (burst_length _ _ Hburst) as Hlen. cbn [record_body length] in Hlen.
  assert (length (record_prefix t p) = 6%nat) as Hpre by done.
  destruct body as [|b p1]; [simpl in Hlen; lia|]. cbn [length] in Hlen.
  rewrite !length_app, length_phys_record, Hpre in El. cbn [length] in El.
  set (rest := take (kBlockSize - off - 7 - length p - 7 - length p2) s).
  assert (drop off (block_ r) = record_prefix t p ++ b :: p1 ++ phys_record t2 p2 ++ rest) as Ed'.
  { rewrite Ed. cbn [app]. change (b :: p1 ++ ?x) with ((b :: p1) ++ x).
    rewrite (take_app_ge (record_prefix t p)), Hpre by (rewrite Hpre; wal_lia).
    rewrite (take_app_ge (b :: p1)) by (cbn [length]; wal_lia).
    rewrite (take_app_ge (phys_record t2 p2)), length_phys_record
      by (rewrite length_phys_record; cbn [length]; wal_lia).
    subst rest. do 4 f_equal. cbn [length]. wal_lia. }
  cbn [read_physical_record]. rewrite Eo.
  destruct (Nat.ltb_spec (length (block_ r)) (off + kHeaderSize)) as [|_]; [wal_lia|].
  rewrite Ed', parse_damaged_header by (unfold size; wal_lia).
  rewrite damaged_not_zeroed by done. cbn [h_length h_crc h_type].
  destruct (Nat.ltb_spec (length (block_ r)) (off + kHeaderSize + length p)) as [|_]; [wal_lia|].
  cbv zeta.
  assert (take 1 (drop 6 (record_prefix t p ++ b :: p1 ++ phys_record t2 p2 ++ rest)) = [b]) as ->
    by (rewrite drop_app_length' by done; done).
  assert (take (length p) (drop kHeaderSize
    (record_prefix t p ++ b :: p1 ++ phys_record t2 p2 ++ rest)) = p1) as ->.
  { change (b :: ?x) with ([b] ++ x). rewrite (app_assoc (record_prefix t p)).
    rewrite drop_app_length' by done. by rewrite take_app_length' by lia. }
  rewrite crc32c_extend_app. cbn [app]. rewrite record_crc_body.
  destruct (Z.eqb_spec (crc32c_extend 0 (b :: p1)) (crc32c_extend 0 (record_body t p))) as [E|_].
  { symmetry in E. by apply crc32c_burst_ne in E. }
  cbn [negb]. eexists. split; [done|]. apply and_comm, stop_found.
  eapply (walk_finds _ _ t2 p2 rest); [|done|unfold size; wal_lia|wal_lia].
  rewrite <- (Nat.add_assoc off), <- drop_drop, Ed'.
  change (b :: p1 ++ ?x) with ((b :: p1) ++ x). rewrite (app_assoc (record_prefix t p)).
  rewrite drop_app_length'; [done|]. rewrite length_app, Hpre. cbn [length]. wal_lia.
Qed.

(** The first record of the stream damaged, another one after it. *)
Lemma read_record_damaged r off t p body t2 p2 s :
  ready r (pad off ++ record_prefix t p ++ body ++ phys_record t2 p2 ++ s) off ->
  t ≠ kZero -> t2 ≠ kZero -> burst (record_body t p) body ->
  (start off + kHeaderSize + length p + kHeaderSize + length p2 <= kBlockSize)%nat ->
  ∃ r', read_record r = Some (None, r') ∧ truncated r' = true ∧ damaged r' = true.
Proof.
  intros Hr Ht Ht2 Hb Hfit. unfold read_record. rewrite (ready_not_eof _ _ _ Hr).
  destruct (ready_load _ _ _ Hr) as (r1 & E1 & Hs); [by destruct (pad off)|].
  fold (ensure_block r). rewrite E1. cbn [negb].
  assert (∃ r', read_physical r1 = Some (NoPhysical r') ∧ truncated r' = true ∧
    damaged r' = true) as (r' & -> & ? & ?); [|eauto].
  unfold read_physical, pad, start in *.
  destruct (Nat.ltb_spec (kBlockSize - off) kHeaderSize) as [Hlt|Hge];
    [|by eapply read_physical_damaged].
  fold (read_physical r1).
  rewrite read_physical_full_block;
    rewrite ?(as_off _ _ _ Hs), ?(as_len _ _ _ Hs), ?length_app, ?length_replicate;
    pose proof (as_bound _ _ _ Hs); try wal_lia.
  destruct (load_next_block_stream r1 off _ _ Hs) as (r2 & -> & Hs2);
    [by rewrite length_replicate|done|].
  by eapply read_physical_damaged.
Qed.

(** ** Every read ends, whatever the file holds and however it fails *)
Lemma parse_header_total p : (7 <= length p)%nat -> ∃ h, parse_header p = Some h.
Proof. do 7 (destruct p; [simpl; lia|]). intros _. unfold parse_header. simpl. eauto. Qed.

Lemma read_here_total fuel r :
  (block_offset_ r + kHeaderSize <= length (block_ r))%nat ->
  ∃ ph, read_physical_record (S fuel) r = Some ph ∧
    ∀ t p r', ph = Physical t p r' -> (unread r' < unread r)%nat.
Proof.
  intros H. cbn [read_physical_record].
  destruct (Nat.ltb_spec (length (block_ r)) (block_offset_ r + kHeaderSize)); [lia|].
  destruct (parse_header_total (drop (block_offset_ r) (block_ r))) as [h ->];
    [rewrite length_drop; unfold kHeaderSize in *; lia|].
  destruct (is_zeroed h); [eauto with congruence|].
  destruct (Nat.ltb_spec (length (block_ r)) (block_offset_ r + kHeaderSize + h_length h));
    [eauto with congruence|]. cbv zeta.
  destruct (negb _); [eauto with congruence|].
  eexists. split; [done|]. intros t p r' [= <- <- <-]. unfold unread; cbn.
  unfold kHeaderSize in *. lia.
Qed.

Lemma load_next_block_unread r r' b :
  load_next_block r = (b, r') -> b = true ->
  block_offset_ r' = 0%nat ∧ (unread r' <= length (sf_rest (source_ r)))%nat ∧
  (length (block_ r') <= kBlockSize)%nat.
Proof.
  unfold load_next_block, sf_read.
  destruct (sf_faults (source_ r)) as [|[] ?]; cbn [is_ok]; simpl negb; cbv iota;
    try (intros [= <- <-]; done);
    destruct (take kBlockSize (sf_rest (source_ r))) as [|x c] eqn:E; intros [= <- <-] _;
    try done; unfold unread; cbn -[length]; rewrite <- E, length_take, length_drop; split_and!; lia.
Qed.

Lemma read_physical_total r :
  ∃ ph, read_physical r = Some ph ∧ ∀ t p r', ph = Physical t p r' -> (unread r' < unread r)%nat.
Proof.
  destruct (Nat.le_gt_cases (block_offset_ r + kHeaderSize) (length (block_ r))) as [Hle|Hgt];
    [by apply read_here_total|].
  destruct (decide (length (block_ r) = kBlockSize)) as [E|Hne].
  2:{ destruct (read_physical_short 1 r Hgt Hne) as [r' E]. eauto with congruence. }
  rewrite read_physical_full_block by done.
  destruct (load_next_block r) as [[] r1] eqn:El; [|eauto with congruence].
  apply load_next_block_unread in El as (Eo & Hu & Hk); [|done].
  destruct (Nat.le_gt_cases (block_offset_ r1 + kHeaderSize) (length (block_ r1))) as [Hle|Hgt1].
  - destruct (read_here_total 0 r1 Hle) as (ph & -> & Hd). exists ph. split; [done|].
    intros t p r' Hp. specialize (Hd t p r' Hp). unfold unread in *. lia.
  - destruct (read_physical_short 0 r1 Hgt1) as [r' ->]; [rewrite Eo in Hgt1; wal_lia|].
    eauto with congruence.
Qed.

(** Name the result; only a returned record has to have consumed bytes. *)
Ltac yields :=
  do 2 eexists; split; [reflexivity|]; intros Hn; first [by destruct Hn|lia].

Lemma read_fragments_total fuel r scratch :
  (unread r < fuel)%nat ->
  ∃ o r', read_fragments fuel r scratch = Some (o, r') ∧ (o ≠ None -> (unread r' < unread r)%nat).
Proof.
  revert r scratch. induction fuel as [|fuel IH]; intros r scratch Hf; [lia|].
  cbn [read_fragments]. destruct (read_physical_total r) as (ph & -> & Hd).
  destruct ph as [t p r1|r1]; [|yields].
  specialize (Hd t p r1 eq_refl). case_bool_decide.
  - destruct (IH r1 (scratch ++ p)) as (o & r' & -> & Ho); [lia|].
    exists o, r'. split; [done|]. intros Hn. specialize (Ho Hn). lia.
  - case_bool_decide; yields.
Qed.

Lemma read_record_total r :
  ∃ o r', read_record r = Some (o, r') ∧ (o ≠ None -> (unread r' < unread r)%nat).
Proof.
  unfold read_record. destruct (eof_ r); [yields|].
  fold (ensure_block r).
  destruct (ensure_block r) as [[] r1] eqn:E; [|cbn [negb]; yields]. cbn [negb].
  assert (unread r1 <= unread r)%nat as Hu.
  { unfold ensure_block in E. destruct (block_ r) eqn:Eb; [|by simplify_eq].
    apply load_next_block_unread in E as (_ & Hu & _); [|done]. unfold unread at 2. lia. }
  destruct (read_physical_total r1) as (ph & -> & Hd).
  destruct ph as [t p r2|r2]; [|yields]. specialize (Hd t p r2 eq_refl).
  case_bool_decide; [yields|].
  case_bool_decide; cbn [negb]; [|yields].
  destruct (read_fragments_total (S (unread r2)) r2 p) as (o & r' & -> & Ho); [lia|].
  exists o, r'. split; [done|]. intros Hn. specialize (Ho Hn). lia.
Qed.

Lemma read_all_total fuel r : (unread r < fuel)%nat -> is_Some (read_all fuel r).
Proof.
  revert r. induction fuel as [|fuel IH]; intros r Hf; [lia|]. cbn [read_all].
  destruct (read_record_total r) as (o & r' & -> & Ho).
  destruct o as [rec|]; [|eauto]. specialize (Ho ltac:(done)).
  destruct (IH r') as [[recs r2] ->]; [lia|]. eauto.
Qed.

(** * Theorems *)

(** Round trip: whatever records are added to a new log, adding succeeds,
    reading the file back yields exactly those records in order, the reader
    reports neither a torn tail nor damage, and the writer's byte count is
    the size of the file. *)
Theorem wal_roundtrip (recs : list bytes) :
  ∃ w r, add_records (LogWriter_new (wf_new [])) recs = Some (ok, w) ∧
    read_all (S (length recs))
      (LogReader_new (mkSequential (wf_contents (dest_ w)) [])) = Some (recs, r) ∧
    truncated r = false ∧ damaged r = false ∧
    bytes_written_ w = size (wf_contents (dest_ w)).
Proof.
  destruct (add_records_spec (LogWriter_new (wf_new [])) recs) as (frss & s & w & E & Hl & A);
    [simpl; lia|].
  destruct A as (m & Ec & Hok & Hh & _). destruct Hh as [-> _]; [done|].
  destruct (Hok eq_refl) as (Hm & _ & Hb). rewrite Hm in Ec. cbn in Ec, Hb.
  destruct (read_all_whole recs frss 0 (LogReader_new (mkSequential (wf_contents (dest_ w)) [])))
    as (r & Er & ? & ?); [done|constructor; by rewrite Ec|].
  exists w, r. rewrite Ec in *. by split_and!.
Qed.





(** C28. The reader always finishes: for every file contents and every pattern
    of read failures, reading until [read_record] returns [false] ends, within
    one step per byte of the file. *)
Theorem wal_reading_terminates contents faults :
  is_Some (read_all (S (length contents)) (LogReader_new (mkSequential contents faults))).
Proof. apply read_all_total. unfold unread. simpl. lia. Qed.

End Wal.
