(* ===== verification/WriteBatch.v ===== *)
(** Write batches (src/src/write_batch.cpp, src/src/write_batch_internal.hpp):
    a header of sequence number and count, then one record per operation.

    A [Handler] is modelled by the calls it receives: [iterate] returns its
    status with the operations it has already handed over, which a failed
    iteration does not take back. *)
From S2P Require Import Prelude Status Encoding DbFormat.
Import Status Encoding DbFormat.

Module WriteBatch.

Definition kHeader : nat := 12.

Record WriteBatch := mkBatch { rep_ : bytes }.

(** The calls [Handler::put] and [Handler::del]. *)
Inductive Op :=
  | Put (key value : bytes)
  | Del (key : bytes).

Definition clear : WriteBatch := mkBatch (replicate kHeader x00).
Definition approximate_size (b : WriteBatch) : Z := size (rep_ b).

(** Writing [data] over the bytes at [pos]. *)
Definition patch (rep : bytes) (pos : nat) (data : bytes) : bytes :=
  take pos rep ++ data ++ drop (pos + length data) rep.

Definition count (b : WriteBatch) : option Z := decode_fixed32 (drop 8 (rep_ b)).
Definition set_count (b : WriteBatch) (n : Z) : WriteBatch :=
  mkBatch (patch (rep_ b) 8 (encode_fixed32 n)).
Definition sequence (b : WriteBatch) : option Z := decode_fixed64 (rep_ b).
Definition set_sequence (b : WriteBatch) (seq : Z) : WriteBatch :=
  mkBatch (patch (rep_ b) 0 (encode_fixed64 seq)).
Definition contents (b : WriteBatch) : bytes := rep_ b.
Definition byte_size (b : WriteBatch) : Z := size (rep_ b).

(** A batch always has its header, so the count can be read; a batch without
    one is left alone. *)
Definition put (b : WriteBatch) (key value : bytes) : WriteBatch :=
  match count b with
  | None => b
  | Some n =>
      let b := set_count b (u32 (n + 1)) in
      mkBatch (put_length_prefixed
                 (put_length_prefixed (rep_ b ++ [Z_to_byte (ValueType_to_Z kValue)]) key) value)
  end.
Definition del (b : WriteBatch) (key : bytes) : WriteBatch :=
  match count b with
  | None => b
  | Some n =>
      let b := set_count b (u32 (n + 1)) in
      mkBatch (put_length_prefixed (rep_ b ++ [Z_to_byte (ValueType_to_Z kDeletion)]) key)
  end.

(** The [while (!input.empty())] loop: the operations handed over, the number
    of records found and the failure, if any.  Each round takes a byte. *)
Fixpoint iterate_loop (fuel : nat) (input : bytes) (found : Z) :
    list Op * Z * option Status :=
  match fuel with
  | O => ([], found, None)
  | S fuel' =>
      match input with
      | [] => ([], found, None)
      | tag :: input =>
          let found := u32 (found + 1) in
          match ValueType_of_Z (byte_to_Z tag) with
          | Some kValue =>
              match get_length_prefixed input with
              | None => ([], found, Some (corruption "write batch: truncated put record"))
              | Some (key, input) =>
                  match get_length_prefixed input with
                  | None => ([], found, Some (corruption "write batch: truncated put record"))
                  | Some (value, input) =>
                      let '(ops, found, failure) := iterate_loop fuel' input found in
                      (Put key value :: ops, found, failure)
                  end
              end
          | Some kDeletion =>
              match get_length_prefixed input with
              | None => ([], found, Some (corruption "write batch: truncated delete record"))
              | Some (key, input) =>
                  let '(ops, found, failure) := iterate_loop fuel' input found in
                  (Del key :: ops, found, failure)
              end
          | None => ([], found, Some (corruption "write batch: unknown record tag"))
          end
      end
  end.

Definition iterate (b : WriteBatch) : Status * list Op :=
  if size (rep_ b) <? Z.of_nat kHeader then
    (corruption "write batch is smaller than its header", [])
  else
    let input := drop kHeader (rep_ b) in
    let '(ops, found, failure) := iterate_loop (length input) input 0 in
    match failure with
    | Some s => (s, ops)
    | None =>
        if bool_decide (Some found = count b) then (ok, ops)
        else (corruption "write batch: record count does not match header", ops)
    end.

Definition set_contents (b : WriteBatch) (contents : bytes) : Status * WriteBatch :=
  if size contents <? Z.of_nat kHeader then
    (corruption "write batch: log record smaller than header", b)
  else (ok, mkBatch contents).

Definition append (dst src : WriteBatch) : WriteBatch :=
  match count dst, count src with
  | Some n, Some m =>
      let dst := set_count dst (u32 (n + m)) in
      mkBatch (rep_ dst ++ drop kHeader (rep_ src))
  | _, _ => dst
  end.

(** [MemTableInserter] over any memtable with an [add]. *)
Section Inserter.
Context {MemTable : Type} (add : MemTable -> Z -> ValueType -> bytes -> bytes -> MemTable).

Record Inserter := mkInserter { sequence_ : Z; memtable_ : MemTable }.

Definition inserter_op (i : Inserter) (op : Op) : Inserter :=
  match op with
  | Put key value =>
      mkInserter (u64 (sequence_ i + 1)) (add (memtable_ i) (sequence_ i) kValue key value)
  | Del key =>
      mkInserter (u64 (sequence_ i + 1)) (add (memtable_ i) (sequence_ i) kDeletion key [])
  end.

Definition insert_into (b : WriteBatch) (memtable : MemTable) : Status * MemTable :=
  match sequence b with
  | None => (fst (iterate b), memtable)
  | Some first =>
      let '(s, ops) := iterate b in
      (s, memtable_ (fold_left inserter_op ops (mkInserter first memtable)))
  end.
End Inserter.

(** * Lemmas *)

(** The bytes of one record, and the batch a list of operations builds. *)
Definition encode_op (op : Op) : bytes :=
  match op with
  | Put k v => x01 :: put_length_prefixed [] k ++ put_length_prefixed [] v
  | Del k => x00 :: put_length_prefixed [] k
  end.
Definition op_ok (op : Op) : Prop :=
  match op with
  | Put k v => size k < 2 ^ 32 ∧ size v < 2 ^ 32
  | Del k => size k < 2 ^ 32
  end.
Definition apply_op (b : WriteBatch) (op : Op) : WriteBatch :=
  match op with Put k v => put b k v | Del k => del b k end.
Definition batch_of (ops : list Op) : WriteBatch := fold_left apply_op ops clear.

Definition encoded (seq n : Z) (ops : list Op) : bytes :=
  encode_fixed64 seq ++ encode_fixed32 n ++ (ops ≫= encode_op).

Lemma put_length_prefixed_app dst v :
  put_length_prefixed dst v = dst ++ put_length_prefixed [] v.
Proof. unfold put_length_prefixed, put_varint32. by rewrite <- app_assoc. Qed.

Lemma count_encoded seq n ops : count (mkBatch (encoded seq n ops)) = Some (u32 n).
Proof.
  unfold count, encoded; cbn [rep_]. rewrite drop_app_length' by done.
  apply decode_encode_fixed32_app.
Qed.
Lemma sequence_encoded seq n ops : sequence (mkBatch (encoded seq n ops)) = Some (u64 seq).
Proof. apply decode_encode_fixed64_app. Qed.

Lemma set_count_encoded seq n m ops :
  set_count (mkBatch (encoded seq n ops)) m = mkBatch (encoded seq m ops).
Proof. done. Qed.
Lemma set_sequence_encoded seq n s ops :
  set_sequence (mkBatch (encoded seq n ops)) s = mkBatch (encoded s n ops).
Proof. done. Qed.

Lemma apply_op_encoded seq n ops op :
  apply_op (mkBatch (encoded seq n ops)) op =
    mkBatch (encoded seq (u32 (u32 n + 1)) (ops ++ [op])).
Proof.
  assert (encoded seq (u32 (u32 n + 1)) (ops ++ [op]) =
          encoded seq (u32 (u32 n + 1)) ops ++ encode_op op) as ->.
  { unfold encoded. rewrite bind_app. cbn [mbind list_bind]. by rewrite app_nil_r, <- !app_assoc. }
  destruct op; simpl; unfold put, del; rewrite count_encoded, set_count_encoded; cbn [rep_ encode_op];
    f_equal.
  - rewrite put_length_prefixed_app, (put_length_prefixed_app (_ ++ [_])).
    by rewrite <- !app_assoc.
  - rewrite put_length_prefixed_app. by rewrite <- app_assoc.
Qed.

Lemma clear_encoded : clear = mkBatch (encoded 0 0 []).
Proof. done. Qed.

Lemma fold_apply_encoded seq n ops ops' :
  n = Z.of_nat (length ops) -> Z.of_nat (length (ops ++ ops')) < 2 ^ 32 ->
  fold_left apply_op ops' (mkBatch (encoded seq n ops)) =
    mkBatch (encoded seq (Z.of_nat (length (ops ++ ops'))) (ops ++ ops')).
Proof.
  revert n ops. induction ops' as [|op ops' IH]; intros n ops -> Hn; simpl.
  - by rewrite app_nil_r.
  - rewrite length_app in Hn. cbn [length] in Hn.
    rewrite apply_op_encoded, !u32_small by (rewrite ?u32_small; lia).
    rewrite (IH _ (ops ++ [op])), <- !app_assoc; [done| |].
    + rewrite length_app. simpl. lia.
    + rewrite !length_app. simpl. lia.
Qed.

Lemma batch_of_encoded ops :
  Z.of_nat (length ops) < 2 ^ 32 ->
  batch_of ops = mkBatch (encoded 0 (Z.of_nat (length ops)) ops).
Proof. intros H. unfold batch_of. rewrite clear_encoded. by rewrite (fold_apply_encoded 0 0 []). Qed.

(** One record read back. *)
Lemma iterate_loop_op fuel op rest found :
  op_ok op ->
  iterate_loop (S fuel) (encode_op op ++ rest) found =
    let '(ops, n, f) := iterate_loop fuel rest (u32 (found + 1)) in (op :: ops, n, f).
Proof.
  destruct op as [k v|k]; cbn [encode_op op_ok app iterate_loop].
  - intros [Hk Hv]. change (ValueType_of_Z (byte_to_Z x01)) with (Some kValue). cbv iota.
    rewrite <- app_assoc, get_put_length_prefixed_app by done.
    by rewrite get_put_length_prefixed_app.
  - intros Hk. change (ValueType_of_Z (byte_to_Z x00)) with (Some kDeletion). cbv iota.
    by rewrite get_put_length_prefixed_app.
Qed.

Lemma iterate_loop_ops fuel ops rest found :
  Forall op_ok ops -> (length ops <= fuel)%nat -> 0 <= found ->
  found + Z.of_nat (length ops) < 2 ^ 32 ->
  iterate_loop fuel ((ops ≫= encode_op) ++ rest) found =
    let '(ops', n, f) := iterate_loop (fuel - length ops) rest (found + Z.of_nat (length ops)) in
    (ops ++ ops', n, f).
Proof.
  revert fuel found. induction ops as [|op ops IH]; intros fuel found Hok Hf H0 Hn.
  - simpl. rewrite Z.add_0_r, Nat.sub_0_r. by destruct (iterate_loop fuel rest found) as [[? ?] ?].
  - destruct fuel as [|fuel]; [simpl in Hf; lia|]. inversion Hok as [|? ? Hop Hops]; subst.
    cbn [mbind list_bind]. rewrite <- app_assoc, iterate_loop_op by done.
    cbn [length] in *. rewrite u32_small by lia.
    rewrite IH by (done || lia). cbn [length Nat.sub].
    replace (found + 1 + Z.of_nat (length ops)) with (found + Z.of_nat (S (length ops))) by lia.
    by destruct (iterate_loop (fuel - length ops) rest _) as [[? ?] ?].
Qed.

Lemma encode_op_length op : (1 <= length (encode_op op))%nat.
Proof. destruct op; simpl; lia. Qed.
Lemma encode_ops_length ops : (length ops <= length (ops ≫= encode_op))%nat.
Proof.
  induction ops as [|op ops IH]; [done|]. cbn [mbind list_bind length]. rewrite length_app.
  pose proof (encode_op_length op). lia.
Qed.

Lemma iterate_loop_whole ops :
  Forall op_ok ops -> Z.of_nat (length ops) < 2 ^ 32 ->
  iterate_loop (length (ops ≫= encode_op)) (ops ≫= encode_op) 0 =
    (ops, Z.of_nat (length ops), None).
Proof.
  intros Hok Hlen. pose proof (encode_ops_length ops).
  pose proof (iterate_loop_ops (length (ops ≫= encode_op)) ops [] 0 Hok) as E.
  rewrite app_nil_r in E. rewrite E by lia.
  destruct (length (ops ≫= encode_op) - length ops)%nat; simpl; by rewrite app_nil_r.
Qed.

Lemma iterate_encoded seq n ops :
  Forall op_ok ops -> Z.of_nat (length ops) < 2 ^ 32 -> n = Z.of_nat (length ops) ->
  iterate (mkBatch (encoded seq n ops)) = (ok, ops).
Proof.
  intros Hok Hlen ->. unfold iterate. rewrite count_encoded. cbn [rep_].
  assert (drop kHeader (encoded seq (Z.of_nat (length ops)) ops) = ops ≫= encode_op) as Ed by done.
  destruct (Z.ltb_spec (size (encoded seq (Z.of_nat (length ops)) ops)) (Z.of_nat kHeader)) as [H|_].
  { unfold encoded, size, kHeader in H. rewrite !length_app in H.
    rewrite length_encode_fixed64, length_encode_fixed32 in H. lia. }
  rewrite Ed, iterate_loop_whole by done.
  rewrite u32_small by lia. by rewrite bool_decide_eq_true_2.
Qed.

(** ** Truncation *)
Lemma get_varint_torn wrap n fuel v m r sh :
  (m < length (varint_loop fuel v))%nat ->
  get_varint_loop wrap n (take m (varint_loop fuel v)) r sh = None.
Proof.
  revert fuel v m r sh. induction n as [|n IH]; intros fuel v m r sh Hm; [done|].
  destruct m as [|m]; [done|]. destruct fuel as [|fuel]; [simpl in Hm; lia|].
  rewrite varint_loop_S in *. destruct (Z.ltb_spec v 128); [simpl in Hm; lia|].
  cbn [take]. rewrite get_varint_loop_cons, cont_bit, byte_cont. cbv zeta.
  destruct (Z.ltb_spec (v mod 128 + 128) 128); [zmod|]. apply IH. simpl in Hm. lia.
Qed.

Lemma get_length_prefixed_torn v n :
  size v < 2 ^ 32 -> (n < length (put_length_prefixed [] v))%nat ->
  get_length_prefixed (take n (put_length_prefixed [] v)) = None.
Proof.
  unfold put_length_prefixed, put_varint32, get_length_prefixed. rewrite app_nil_l, length_app.
  intros Hv Hn. pose proof (size_nonneg v). rewrite u32_small in * by lia.
  destruct (Nat.lt_ge_cases n (length (varint_loop 10 (size v)))) as [Hlt|Hge].
  - rewrite take_app_le by lia. unfold get_varint32, get_varint. by rewrite get_varint_torn.
  - rewrite take_app_ge, get_varint32_loop by lia.
    unfold size. rewrite length_take.
    destruct (Z.ltb_spec (Z.of_nat (Nat.min (n - length (varint_loop 10 (Z.of_nat (length v)))) (length v)))
      (Z.of_nat (length v))); [done|]. unfold size in *. lia.
Qed.

Lemma iterate_loop_op_torn fuel op n found :
  op_ok op -> (0 < n < length (encode_op op))%nat ->
  ∃ s, iterate_loop (S fuel) (take n (encode_op op)) found = ([], u32 (found + 1), Some s) ∧
       is_ok s = false.
Proof.
  intros Hok Hn. destruct n as [|n]; [lia|].
  destruct op as [k v|k]; cbn [encode_op op_ok take iterate_loop length] in *.
  - destruct Hok as [Hk Hv]. change (ValueType_of_Z (byte_to_Z x01)) with (Some kValue). cbv iota.
    rewrite length_app in Hn.
    destruct (Nat.lt_ge_cases n (length (put_length_prefixed [] k))) as [Hlt|Hge].
    + rewrite take_app_le, get_length_prefixed_torn by (done || lia). eauto.
    + rewrite take_app_ge, get_put_length_prefixed_app by (done || lia).
      rewrite get_length_prefixed_torn by (done || lia). eauto.
  - change (ValueType_of_Z (byte_to_Z x00)) with (Some kDeletion). cbv iota.
    rewrite get_length_prefixed_torn by (done || lia). eauto.
Qed.

Lemma iterate_loop_torn ops fuel n found :
  Forall op_ok ops -> 0 <= found -> found + Z.of_nat (length ops) < 2 ^ 32 ->
  (n < length (ops ≫= encode_op))%nat -> (n <= fuel)%nat ->
  ∃ ops' k f, iterate_loop fuel (take n (ops ≫= encode_op)) found = (ops', k, f) ∧
    match f with
    | Some s => is_ok s = false
    | None => k < found + Z.of_nat (length ops) ∧ 0 <= k
    end.
Proof.
  revert fuel n found. induction ops as [|op ops IH]; intros fuel n found Hok H0 Hlen Hn Hf;
    [simpl in Hn; lia|].
  inversion Hok as [|? ? Hop Hops]; subst. cbn [mbind list_bind length] in *. rewrite length_app in Hn.
  destruct (decide (n = 0)%nat) as [->|Hn0].
  { exists [], found, None. split; [by destruct fuel|lia]. }
  destruct fuel as [|fuel]; [lia|]. pose proof (encode_op_length op).
  destruct (Nat.lt_ge_cases n (length (encode_op op))) as [Hlt|Hge].
  - rewrite take_app_le by lia.
    destruct (iterate_loop_op_torn fuel op n found Hop) as (s & -> & Hs); [lia|]. eauto 10.
  - rewrite take_app_ge, iterate_loop_op, u32_small by (done || lia).
    destruct (IH fuel (n - length (encode_op op))%nat (found + 1) Hops) as (ops' & k & f & -> & Hr);
      [lia..|]. exists (op :: ops'), k, f. split; [done|]. destruct f; [done|lia].
Qed.

(** * Theorems *)

(** A batch replays what was put into it: for every list of puts and
    deletes, iterating the batch built from them succeeds and hands over
    exactly those operations in order; the count in the header is their
    number; patching the sequence number afterwards changes nothing else. *)
Theorem batch_replays_its_operations ops seq :
  Forall op_ok ops -> Z.of_nat (length ops) < 2 ^ 32 -> 0 <= seq < 2 ^ 64 ->
  iterate (batch_of ops) = (ok, ops) /\
  count (batch_of ops) = Some (Z.of_nat (length ops)) /\
  let b := set_sequence (batch_of ops) seq in
  iterate b = (ok, ops) /\ sequence b = Some seq /\
  count b = Some (Z.of_nat (length ops)) /\
  set_contents clear (contents b) = (ok, b).
Proof.
  intros Hok Hlen Hseq. cbv zeta. rewrite batch_of_encoded by done.
  rewrite set_sequence_encoded, !count_encoded, sequence_encoded, u64_small by done.
  rewrite !iterate_encoded, !u32_small by (done || lia). split_and!; try done.
  unfold set_contents, contents; cbn [rep_].
  destruct (Z.ltb_spec (size (encoded seq (Z.of_nat (length ops)) ops)) (Z.of_nat kHeader)) as [H|]; [|done].
  unfold encoded, size, kHeader in H. rewrite !length_app in H.
  rewrite length_encode_fixed64, length_encode_fixed32 in H. lia.
Qed.

Lemma batch_replays_its_operations_witness :
  iterate (batch_of [Put [x6b] [x76; x31]; Del [x6b]]) = (ok, [Put [x6b] [x76; x31]; Del [x6b]]).
Proof.
  apply (batch_replays_its_operations [Put [x6b] [x76; x31]; Del [x6b]] 5).
  - repeat constructor.
  - simpl. lia.
  - lia.
Defined.

(** Group commit: appending a batch to another yields the operations of
    the first followed by those of the second, so several writers' batches
    travel as one log record without reordering or loss. *)
Theorem append_concatenates_operations ops1 ops2 :
  Forall op_ok ops1 -> Forall op_ok ops2 -> Z.of_nat (length (ops1 ++ ops2)) < 2 ^ 32 ->
  iterate (append (batch_of ops1) (batch_of ops2)) = (ok, ops1 ++ ops2).
Proof.
  intros H1 H2 Hlen. rewrite length_app in Hlen. rewrite !batch_of_encoded by lia.
  unfold append. rewrite !count_encoded, set_count_encoded. rewrite !(u32_small (Z.of_nat (length _))) by lia. cbn [rep_].
  change (drop kHeader (encoded ?s ?n ops2)) with (ops2 ≫= encode_op).
  unfold encoded. rewrite <- !app_assoc, <- bind_app.
  apply (iterate_encoded 0).
  - by apply Forall_app.
  - rewrite length_app. lia.
  - rewrite u32_small, length_app by lia. lia.
Qed.

Lemma append_concatenates_operations_witness :
  iterate (append (batch_of [Put [x61] [x31]]) (batch_of [Del [x61]])) = (ok, [Put [x61] [x31]; Del [x61]]).
Proof.
  apply (append_concatenates_operations [Put [x61] [x31]] [Del [x61]]);
    [repeat constructor|repeat constructor|simpl; lia].
Defined.

(** A truncated batch is never accepted: cutting the bytes of a batch
    anywhere short of its end makes [iterate] report an error, either a
    truncated record or a count that does not match the header. *)
Theorem truncated_batch_is_rejected ops n :
  Forall op_ok ops -> Z.of_nat (length ops) < 2 ^ 32 ->
  (n < length (rep_ (batch_of ops)))%nat ->
  is_ok (fst (iterate (mkBatch (take n (rep_ (batch_of ops)))))) = false.
Proof.
  intros Hok Hlen. rewrite batch_of_encoded by done. cbn [rep_]. intros Hn.
  unfold iterate; cbn [rep_]. unfold size. rewrite length_take.
  destruct (Z.ltb_spec (Z.of_nat (Nat.min n (length (encoded 0 (Z.of_nat (length ops)) ops))))
    (Z.of_nat kHeader)) as [|Hge]; [done|].
  set (N := Z.of_nat (length ops)) in *.
  assert (encoded 0 N ops = (encode_fixed64 0 ++ encode_fixed32 N) ++ (ops ≫= encode_op)) as E by done.
  assert (length (encode_fixed64 0 ++ encode_fixed32 N) = kHeader) as Eh by done.
  rewrite E in *. rewrite length_app, Eh in Hn.
  rewrite take_app_ge, Eh by (rewrite Eh; rewrite ?length_app, ?Eh in Hge; unfold kHeader in *; lia).
  rewrite drop_app_length' by done.
  assert (count (mkBatch ((encode_fixed64 0 ++ encode_fixed32 N) ++ take (n - kHeader) (ops ≫= encode_op)))
    = Some N) as ->.
  { unfold count; cbn [rep_]. rewrite <- app_assoc, drop_app_length' by done.
    rewrite decode_encode_fixed32_app, u32_small; [done|lia]. }
  destruct (iterate_loop_torn ops (length (take (n - kHeader) (ops ≫= encode_op))) (n - kHeader) 0)
    as (ops' & k & f & -> & Hf); [done|lia|lia|lia|rewrite length_take; lia|].
  destruct f as [st|]; [done|]. rewrite bool_decide_eq_false_2; [done|]. intros [= ->]. lia.
Qed.

Lemma truncated_batch_is_rejected_witness :
  is_ok (fst (iterate (mkBatch (take 14 (rep_ (batch_of [Del [x61]; Put [x62] [x63]])))))) = false.
Proof.
  apply (truncated_batch_is_rejected [Del [x61]; Put [x62] [x63]] 14);
    [repeat constructor|simpl; lia|vm_compute; lia].
Defined.

End WriteBatch.
