(* ===== verification/MemTable.v ===== *)
(** Memtables (src/src/memtable.hpp, src/src/memtable.cpp): versions of keys
    as length-prefixed records in a skip list.

    A [const char*] to a record is the record's bytes; where they lie in the
    arena is not modelled, the bytes being immutable once added.  [None] is a
    fault: a read past a record or one of the skip list's. *)
From S2P Require Import Prelude Status Encoding DbFormat Comparator Iterator SkipList WriteBatch.
Import Status Encoding DbFormat Comparator Iterator.

Module MemTable.
Import SkipList.SkipList.

(** The field a record starts with and what follows it. *)
Definition read_length_prefixed (data : bytes) : option (bytes * bytes) :=
  match decode_varint32_exact data with
  | Exact length start =>
      if size start <? length then None
      else Some (take (Z.to_nat length) start, drop (Z.to_nat length) start)
  | _ => None
  end.

(** [KeyComparator]; a record that does not parse is an assertion failure in
    the code and reads as an empty key here. *)
Definition record_key (a : bytes) : bytes := default [] (fst <$> read_length_prefixed a).
Definition key_compare (a b : bytes) : comparison :=
  compare_internal_keys (record_key a) (record_key b).

(** The record [MemTable::add] builds. *)
Definition encode_record (sequence : Z) (type : ValueType) (key value : bytes) : bytes :=
  let encoded := put_varint32 [] (u32 (size key + 8)) in
  let encoded := append_internal_key encoded (mkParsed key sequence type) in
  let encoded := put_varint32 encoded (u32 (size value)) in
  encoded ++ value.

Section MemTable.
Context {Rng : Type} (rng_next : Rng -> Z * Rng).

(** [arena_] holds the records' bytes and is left out. *)
Record MemTable := mkMemTable { table_ : @SkipList bytes Rng; refs_ : Z }.

Definition MemTable_new (rng : Rng) : MemTable := mkMemTable (SkipList_new [] rng) 0.

Definition ref (m : MemTable) : MemTable := mkMemTable (table_ m) (refs_ m + 1).
(** [None] when the last reference went and the memtable is destroyed. *)
Definition unref (m : MemTable) : option MemTable :=
  if refs_ m =? 1 then None else Some (mkMemTable (table_ m) (refs_ m - 1)).

Definition add (m : MemTable) (sequence : Z) (type : ValueType) (key value : bytes) :
    option MemTable :=
  table ← insert key_compare rng_next (table_ m) (encode_record sequence type key value);
  Some (mkMemTable table (refs_ m)).

(** [false], or [true] with the status and, when there is one, the value. *)
Inductive GetResult :=
  | NotHere
  | Answer (status : Status) (value : option bytes).

Definition get (m : MemTable) (key : LookupKey) : option GetResult :=
  iter ← iter_seek key_compare (table_ m) (lk_memtable_key key);
  match iter with
  | None => Some NotHere
  | Some _ =>
      entry ← iter_key (table_ m) iter;
      '(internal_key, entry) ← read_length_prefixed entry;
      if negb (bool_decide (extract_user_key internal_key = lk_user_key key)) then Some NotHere
      else
        type ← extract_value_type internal_key;
        if type =? ValueType_to_Z kDeletion then Some (Answer (not_found "deleted") None)
        else
          '(stored, _) ← read_length_prefixed entry;
          Some (Answer ok (Some stored))
  end.

(** ** MemTable::Iterator and its adapter *)
Record MemTableIterator := mkMemIter {
  mi_table : MemTable;
  mi_node : option nat;
  seek_buffer_ : bytes
}.
Definition MemTableIterator_new (m : MemTable) : MemTableIterator := mkMemIter m None [].

Definition mi_move (it : MemTableIterator) (node : option (option nat)) : option MemTableIterator :=
  n ← node; Some (mkMemIter (mi_table it) n (seek_buffer_ it)).

Definition mi_seek (it : MemTableIterator) (internal_key : bytes) : option MemTableIterator :=
  let seek_buffer := put_varint32 [] (u32 (size internal_key)) ++ internal_key in
  node ← iter_seek key_compare (table_ (mi_table it)) seek_buffer;
  Some (mkMemIter (mi_table it) node seek_buffer).

Definition mi_key (it : MemTableIterator) : option bytes :=
  entry ← iter_key (table_ (mi_table it)) (mi_node it);
  fst <$> read_length_prefixed entry.
Definition mi_value (it : MemTableIterator) : option bytes :=
  entry ← iter_key (table_ (mi_table it)) (mi_node it);
  '(_, entry) ← read_length_prefixed entry;
  fst <$> read_length_prefixed entry.

(** [MemTableIteratorAdapter]. *)
Definition memtable_iterator : Iterator MemTableIterator :=
  mkIterator MemTableIterator
    (λ it, bool_decide (is_Some (mi_node it)))
    (λ it, mi_move it (iter_seek_to_first (table_ (mi_table it))))
    (λ it, mi_move it (iter_seek_to_last (table_ (mi_table it))))
    mi_seek
    (λ it, mi_move it (iter_next (table_ (mi_table it)) (mi_node it)))
    (λ it, mi_move it (iter_prev key_compare (table_ (mi_table it)) (mi_node it)))
    (λ it, default [] (mi_key it))
    mi_value
    (λ _, ok).
End MemTable.

(** * Lemmas *)
#[global] Instance key_compare_order : KeyOrder key_compare.
Proof.
  constructor; unfold key_compare.
  - intros a. apply compare_refl.
  - intros a b. apply compare_antisym.
  - intros a b c. apply compare_lt_trans.
Qed.

(** One version of a key. *)
Record Version := mkVersion { v_sequence : Z; v_type : ValueType; v_key : bytes; v_value : bytes }.
Definition version_ok (v : Version) : Prop :=
  seq_ok (v_sequence v) /\ size (v_key v) + 8 < 2 ^ 32 /\ size (v_value v) < 2 ^ 32.
Definition ikey (v : Version) : bytes := make_internal_key (v_key v) (v_sequence v) (v_type v).
Definition record_of (v : Version) : bytes :=
  encode_record (v_sequence v) (v_type v) (v_key v) (v_value v).

Lemma read_length_prefixed_put k rest :
  size k < 2 ^ 32 -> read_length_prefixed (put_length_prefixed [] k ++ rest) = Some (k, rest).
Proof.
  intros Hk. pose proof (size_nonneg k). unfold read_length_prefixed, decode_varint32_exact.
  unfold put_length_prefixed, put_varint32. rewrite u32_small, app_nil_l, <- app_assoc by lia.
  pose proof (decode_varint32_exact_loop_bounded 5 (varint_loop 10 (size k) ++ k ++ rest) 0 0) as B.
  pose proof (get_varint32_loop (size k) (k ++ rest) ltac:(lia)) as G.
  unfold get_varint32, get_varint in G. rewrite G in B. rewrite B.
  destruct (Z.ltb_spec (size (k ++ rest)) (size k)).
  - rewrite size_app in *. pose proof (size_nonneg rest). lia.
  - unfold size. by rewrite Nat2Z.id, take_app_length, drop_app_length.
Qed.

Lemma record_eq v :
  record_of v = put_length_prefixed [] (ikey v) ++ put_length_prefixed [] (v_value v).
Proof.
  unfold record_of, encode_record, put_length_prefixed, put_varint32, append_internal_key, put_fixed64.
  cbn [user_key sequence type]. unfold ikey at 2. rewrite make_internal_key_eq, !app_nil_l.
  unfold size at 3. unfold ikey. rewrite length_make_internal_key, Nat2Z.inj_add.
  by rewrite <- !app_assoc.
Qed.

Lemma size_ikey v : size (ikey v) = size (v_key v) + 8.
Proof. unfold ikey, size. rewrite length_make_internal_key. lia. Qed.

Lemma read_record v :
  version_ok v -> read_length_prefixed (record_of v) = Some (ikey v, put_length_prefixed [] (v_value v)).
Proof.
  intros (_ & Hk & _). rewrite record_eq. apply read_length_prefixed_put. by rewrite size_ikey.
Qed.
Lemma read_record_value v :
  version_ok v -> read_length_prefixed (put_length_prefixed [] (v_value v)) = Some (v_value v, []).
Proof.
  intros (_ & _ & Hv). rewrite <- (app_nil_r (put_length_prefixed _ _)).
  by apply read_length_prefixed_put.
Qed.

Lemma record_key_of v : version_ok v -> record_key (record_of v) = ikey v.
Proof. intros Hv. unfold record_key. by rewrite read_record. Qed.
Lemma record_key_lookup k : size k < 2 ^ 32 -> record_key (put_length_prefixed [] k) = k.
Proof.
  intros Hk. unfold record_key. rewrite <- (app_nil_r (put_length_prefixed _ _)).
  by rewrite read_length_prefixed_put.
Qed.

Section Lemmas.
Context {Rng : Type} (rng_next : Rng -> Z * Rng).

(** The memtable holds the versions [vs], in internal key order. *)
Definition holds (m : @MemTable Rng) (Ls : nat -> list nat) (vs : list Version) : Prop :=
  represents key_compare (table_ m) Ls (record_of <$> vs) /\ Forall version_ok vs.

Definition version_lt (a b : Version) : Prop := compare_internal_keys (ikey a) (ikey b) = Lt.

Fixpoint insert_version (v : Version) (vs : list Version) : list Version :=
  match vs with
  | [] => [v]
  | w :: vs' => match compare_internal_keys (ikey w) (ikey v) with
                | Lt => w :: insert_version v vs'
                | _ => v :: vs
                end
  end.

Lemma insert_version_records v vs :
  version_ok v -> Forall version_ok vs ->
  insert_key key_compare (record_of v) (record_of <$> vs) = record_of <$> insert_version v vs.
Proof.
  intros Hv. induction 1 as [|w vs Hw HF IH]; [done|].
  rewrite fmap_cons. cbn [insert_key insert_version]. unfold key_compare at 1.
  rewrite !record_key_of by done.
  destruct (compare_internal_keys (ikey w) (ikey v)); rewrite ?fmap_cons; [done| |done].
  by rewrite IH.
Qed.

Lemma insert_version_elem v vs w : w ∈ insert_version v vs <-> w = v \/ w ∈ vs.
Proof.
  induction vs as [|x vs IH]; simpl; [by rewrite !elem_of_cons, elem_of_nil|].
  destruct (compare_internal_keys _ _); rewrite !elem_of_cons; rewrite ?IH; tauto.
Qed.

Lemma holds_new rng : holds (MemTable_new rng) (λ _, []) [].
Proof. split; [apply represents_new|constructor]. Qed.

Lemma add_holds m Ls vs v :
  holds m Ls vs -> version_ok v -> (forall w, w ∈ vs -> ikey w <> ikey v) ->
  exists m' Ls', add rng_next m (v_sequence v) (v_type v) (v_key v) (v_value v) = Some m' /\
    holds m' Ls' (insert_version v vs).
Proof.
  intros [R HF] Hv Hd. unfold add. fold (record_of v).
  destruct (insert_represents key_compare rng_next (table_ m) Ls _ (record_of v) R)
    as (t & Ls' & -> & R').
  { apply Forall_fmap. apply Forall_forall. intros w Hw. unfold compose, key_compare.
    rewrite Forall_forall in HF. rewrite !record_key_of by auto.
    intros E%compare_eq; [by apply (Hd w)|apply make_internal_key_ok..]. }
  cbn [mbind option_bind]. eexists _, Ls'. split; [done|]. split.
  - cbn [table_]. by rewrite <- insert_version_records.
  - apply Forall_forall. intros w [->|Hw]%insert_version_elem; [done|].
    rewrite Forall_forall in HF. auto.
Qed.

Lemma holds_sorted m Ls vs : holds m Ls vs -> StronglySorted version_lt vs.
Proof.
  intros [R HF]. apply represents_sorted in R.
  induction HF as [|v vs Hv HF IH]; [constructor|]. rewrite fmap_cons in R.
  inversion R as [|?? R1 R2]; subst. constructor; [by apply IH|].
  apply Forall_forall. intros w Hw. rewrite Forall_fmap in R2.
  rewrite Forall_forall in R2, HF. specialize (R2 w Hw). unfold compose, key_compare in R2.
  by rewrite !record_key_of in R2 by auto.
Qed.

(** The newest version of [u] at or below a snapshot. *)
Definition newest (vs : list Version) (u : bytes) (snapshot : Z) (v : Version) : Prop :=
  v ∈ vs /\ v_key v = u /\ v_sequence v <= snapshot /\
  forall w, w ∈ vs -> v_key w = u -> v_sequence w <= snapshot -> v_sequence w <= v_sequence v.

Lemma compare_ikey a b :
  version_ok a -> version_ok b -> compare_internal_keys (ikey a) (ikey b) = Lt -> v_key a = v_key b ->
  v_sequence b <= v_sequence a.
Proof.
  intros (Ha & _) (Hb & _) Hlt E. unfold ikey in Hlt. rewrite compare_make, E, sv_compare_refl in Hlt by done.
  destruct (Z.compare_spec (v_sequence b) (v_sequence a)); [lia|lia|done].
Qed.

Lemma get_holds m Ls vs u snapshot :
  holds m Ls vs -> seq_ok snapshot -> size u + 8 < 2 ^ 32 ->
  (get m (LookupKey_new u snapshot) = Some NotHere /\
   forall w, w ∈ vs -> v_key w = u -> snapshot < v_sequence w) \/
  exists v, newest vs u snapshot v /\
    get m (LookupKey_new u snapshot) =
      Some (match v_type v with
            | kDeletion => Answer (not_found "deleted") None
            | kValue => Answer ok (Some (v_value v))
            end).
Proof.
  intros Hh Hs Hu. pose proof Hh as [R HF]. pose proof (holds_sorted _ _ _ Hh) as Hsort.
  unfold get. rewrite memtable_key_eq.
  assert (size (make_lookup_key u snapshot) = size u + 8) as Esz.
  { unfold make_lookup_key, size. rewrite length_make_internal_key. lia. }
  rewrite (seek_position key_compare _ Ls _ _ R). cbn [mbind option_bind].
  set (p := position _ _ _).
  assert (forall w, version_ok w -> key_compare (record_of w) (put_length_prefixed [] (make_lookup_key u snapshot)) =
    match sv_compare (v_key w) u with
    | Eq => if snapshot <? v_sequence w then Lt
            else if (v_sequence w =? snapshot) && bool_decide (v_type w = kValue) then Eq else Gt
    | by_user => by_user
    end) as Hcmp.
  { intros w (Hw & Hw'). unfold key_compare. rewrite record_key_of, record_key_lookup by (by split || lia).
    by apply compare_lookup. }
  (* entries before the position *)
  assert (forall j w, (j < p)%nat -> vs !! j = Some w -> v_key w = u -> snapshot < v_sequence w) as Hbefore.
  { intros j w Hj Hw E. assert (version_ok w) as Hok by (by eapply Forall_lookup_1).
    pose proof (position_below key_compare _ _ j (record_of w) Hj) as Hlt.
    rewrite list_lookup_fmap, Hw in Hlt. specialize (Hlt eq_refl). rewrite Hcmp, E, sv_compare_refl in Hlt by done.
    destruct (Z.ltb_spec snapshot (v_sequence w)); [done|].
    by destruct (_ && _). }
  destruct (vs !! p) as [v|] eqn:Ev.
  - assert (version_ok v) as Hok by (by eapply Forall_lookup_1).
    assert ((record_of <$> vs) !! p = Some (record_of v)) as Er by (by rewrite list_lookup_fmap, Ev).
    pose proof (position_at key_compare _ _ _ Er) as Hge. rewrite Hcmp in Hge by done.
    destruct (Ls 0%nat !! p) as [n|] eqn:En.
    2: { apply lookup_ge_None in En. rewrite (represents_length _ _ _ _ R) in En.
         apply lookup_lt_Some in Er. lia. }
    destruct (represents_lookup key_compare _ _ _ _ _ R En) as (r & Hr & Hk). rewrite Er in Hr.
    injection Hr as <-. cbn [iter_key mbind option_bind]. rewrite Hk. cbn [mbind option_bind].
    rewrite read_record by done. cbn [mbind option_bind].
    rewrite (proj2 (lookup_key_views u snapshot)). 
    assert (extract_user_key (ikey v) = v_key v) as Eu by apply extract_user_key_make. rewrite Eu.
    destruct (bool_decide_reflect (v_key v = u)) as [Hu'|Hu']; cbn [negb].
    + right. exists v. split.
      * rewrite Hu', sv_compare_refl in Hge.
        destruct (Z.ltb_spec snapshot (v_sequence v)); [done|].
        split_and!; [by eapply list_elem_of_lookup_2|done|lia|].
        intros w [j Hj]%list_elem_of_lookup Ew Hseq.
        assert (version_ok w) as Hokw by (by eapply Forall_lookup_1).
        destruct (decide (j < p)%nat) as [Hlt|Hnlt].
        { specialize (Hbefore j w Hlt Hj Ew). lia. }
        destruct (decide (j = p)) as [->|]; [assert (w = v) as -> by congruence; lia|].
        apply (compare_ikey v w); [done|done| |congruence].
        eapply (StronglySorted_lookup version_lt vs p j); [done|lia|done|done].
      * unfold extract_value_type. unfold ikey. destruct Hok as (Hseq & Hok).
        rewrite trailer_make by done. cbn [fmap option_fmap option_map mbind option_bind].
        rewrite pack_eq, land_255 by done.
        replace ((256 * v_sequence v + ValueType_to_Z (v_type v)) mod 256)
          with (ValueType_to_Z (v_type v)) by (destruct (v_type v); simpl; zmod).
        destruct (v_type v); cbn [ValueType_to_Z]; [done|].
        rewrite read_record_value by (by split). done.
    + left. split; [done|]. intros w [j Hj]%list_elem_of_lookup Ew.
      destruct (decide (j < p)%nat) as [Hlt|Hnlt]; [by apply (Hbefore j)|].
      exfalso. assert (version_ok w) as Hokw by (by eapply Forall_lookup_1).
      assert (sv_compare (v_key v) u = Gt) as Hgt.
      { destruct (sv_compare (v_key v) u) eqn:E; [by apply sv_compare_eq in E|done|done]. }
      destruct (decide (j = p)) as [->|].
      { assert (w = v) as -> by congruence. done. }
      assert (version_lt v w) as Hvw by (eapply (StronglySorted_lookup version_lt vs p j); [done|lia|done|done]).
      destruct Hok as (Hs1 & _), Hokw as (Hs2 & _). unfold version_lt, ikey in Hvw.
      rewrite compare_make, Ew, Hgt in Hvw by done. done.
  - left. assert (Ls 0%nat !! p = None) as ->.
    { apply lookup_ge_None. apply lookup_ge_None in Ev. rewrite (represents_length _ _ _ _ R), length_fmap. done. }
    split; [done|]. intros w [j Hj]%list_elem_of_lookup Ew. apply (Hbefore j); [|done|done].
    apply lookup_ge_None in Ev. apply lookup_lt_Some in Hj. lia.
Qed.

(** The iterator is a cursor over the versions. *)
Definition version_entry (v : Version) : bytes * bytes := (ikey v, v_value v).
Definition mi_pos (m : @MemTable Rng) (Ls : nat -> list nat) (vs : list Version)
    (it : @MemTableIterator Rng) (i : nat) : Prop :=
  mi_table it = m /\ mi_node it = Ls 0%nat !! i /\ (i <= length vs)%nat.

Lemma position_lower_bound vs target :
  Forall version_ok vs -> size target < 2 ^ 32 ->
  position key_compare (put_length_prefixed [] target) (record_of <$> vs) =
    lower_bound kInternal (version_entry <$> vs) target.
Proof.
  intros HF Ht. induction HF as [|v vs Hv HF IH]; [done|].
  rewrite !fmap_cons. cbn [position lower_bound version_entry]. unfold key_compare at 1.
  rewrite record_key_of, record_key_lookup by done. cbn [compare kInternal].
  by rewrite IH.
Qed.

Lemma memtable_iterator_sorted m Ls vs :
  holds m Ls vs ->
  SortedIterator (@memtable_iterator Rng) kInternal (version_entry <$> vs) (mi_pos m Ls vs).
Proof.
  intros [R HF]. pose proof (represents_length _ _ _ _ R) as Hlen. rewrite length_fmap in Hlen.
  assert (forall i v, vs !! i = Some v -> exists n, Ls 0%nat !! i = Some n /\
    key_of (table_ m) n = Some (record_of v)) as Hat.
  { intros i v Hi. destruct (lookup_lt_is_Some_2 (Ls 0%nat) i) as [n Hn];
      [rewrite Hlen; by eapply lookup_lt_Some|].
    destruct (represents_lookup _ _ _ _ _ _ R Hn) as (r & Hr & Hk).
    rewrite list_lookup_fmap, Hi in Hr. injection Hr as <-. eauto. }
  constructor; unfold mi_pos; rewrite ?length_fmap; cbn [memtable_iterator it_valid it_seek_to_first
    it_seek_to_last it_seek it_next it_prev it_key it_value it_status].
  - by intros it i (_ & _ & ?).
  - intros it i (_ & -> & Hi). destruct (Nat.ltb_spec i (length vs)).
    + destruct (lookup_lt_is_Some_2 (Ls 0%nat) i) as [n ->]; [lia|]. done.
    + by rewrite lookup_ge_None_2 by lia.
  - intros it i k v (Em & Hn & Hi) He. rewrite list_lookup_fmap in He.
    apply fmap_Some in He as (w & Hw & [= -> ->]). destruct (Hat i w Hw) as (n & Hn' & Hk).
    assert (version_ok w) as Hok by (by eapply Forall_lookup_1).
    unfold mi_key, mi_value. rewrite Em, Hn, Hn'. cbn [iter_key mbind option_bind]. rewrite Hk.
    cbn [mbind option_bind]. rewrite read_record by done. cbn [mbind option_bind].
    by rewrite read_record_value.
  - done.
  - intros it i (Em & Hn & Hi) Hlt. destruct (lookup_lt_is_Some_2 vs i Hlt) as [w Hw].
    destruct (Hat i w Hw) as (n & Hn' & _). unfold mi_move, iter_next. rewrite Em, Hn, Hn'.
    cbn [mbind option_bind]. rewrite (next_position key_compare _ _ _ _ _ R Hn'). cbn [mbind option_bind].
    eexists. split; [done|]. cbn. split_and!; [done|done|lia].
  - intros it i (Em & Hn & Hi) Hlt. destruct (lookup_lt_is_Some_2 vs i Hlt) as [w Hw].
    destruct (Hat i w Hw) as (n & Hn' & _). unfold mi_move. rewrite Em, Hn, Hn'.
    rewrite (prev_position key_compare _ _ _ _ _ R Hn'). cbn [mbind option_bind].
    eexists. split; [done|]. cbn. split_and!; [done| |destruct i; lia].
    destruct i; [|done]. symmetry. apply lookup_ge_None_2. lia.
  - intros it i (Em & Hn & Hi). unfold mi_move. rewrite Em, (first_position key_compare _ _ _ R).
    cbn [mbind option_bind]. eexists. split; [done|]. cbn. split_and!; [done|done|lia].
  - intros it i (Em & Hn & Hi). unfold mi_move. rewrite Em, (last_position key_compare _ _ _ R).
    rewrite length_fmap. cbn [mbind option_bind]. eexists. split; [done|]. cbn. split_and!; [done|done|lia].
  - intros it i target (Em & Hn & Hi) Ht. unfold mi_seek. rewrite Em.
    change (put_varint32 [] (u32 (size target)) ++ target) with (put_length_prefixed [] target).
    rewrite (seek_position key_compare _ _ _ _ R), position_lower_bound by done.
    cbn [mbind option_bind]. eexists. split; [done|]. cbn. split_and!; [done|done|].
    etrans; [apply lower_bound_le|]. by rewrite length_fmap.
Qed.

(** ** Histories *)
Fixpoint add_versions (m : @MemTable Rng) (vs : list Version) : option MemTable :=
  match vs with
  | [] => Some m
  | v :: vs' => m ← add rng_next m (v_sequence v) (v_type v) (v_key v) (v_value v); add_versions m vs'
  end.

Lemma add_versions_holds m Ls vs ws :
  holds m Ls vs -> Forall version_ok ws ->
  (forall i j a b, (i < j)%nat -> ws !! i = Some a -> ws !! j = Some b -> ikey a <> ikey b) ->
  (forall a b, a ∈ vs -> b ∈ ws -> ikey a <> ikey b) ->
  exists m' Ls' vs', add_versions m ws = Some m' /\ holds m' Ls' vs' /\
    forall v, v ∈ vs' <-> v ∈ ws \/ v ∈ vs.
Proof.
  revert m Ls vs. induction ws as [|w ws IH]; intros m Ls vs Hh HF Hd Hv; cbn [add_versions].
  { exists m, Ls, vs. split_and!; try done. intros v. rewrite elem_of_nil. tauto. }
  apply Forall_cons in HF as [Hw HF].
  destruct (add_holds m Ls vs w Hh Hw) as (m1 & Ls1 & -> & H1).
  { intros a Ha. apply Hv; [done|left]. }
  cbn [mbind option_bind]. destruct (IH m1 Ls1 _ H1 HF) as (m2 & Ls2 & vs2 & E2 & H2 & Hin).
  - intros i j a b Hij Ha Hb. apply (Hd (S i) (S j) a b); [lia|done|done].
  - intros a b [->|Ha]%insert_version_elem Hb; [|apply Hv; [done|by right]].
    apply list_elem_of_lookup in Hb as [j Hj]. apply (Hd 0%nat (S j)); [lia|done|done].
  - exists m2, Ls2, vs2. split_and!; try done. intros v.
    rewrite Hin, insert_version_elem, elem_of_cons. tauto.
Qed.

(** A memtable lookup returns the newest visible version: after adding
    versions of which no two share user key, sequence and type, in any order
    and with any skip list heights, looking a user key up at a snapshot finds
    nothing exactly when every version of it is newer than the snapshot;
    otherwise it answers from the version with the largest sequence number at
    or below the snapshot - its value, or not-found when it is a deletion, so
    that no older table can resurrect the key. *)
Theorem memtable_get_returns_newest_visible rng vs u snapshot :
  Forall version_ok vs ->
  (forall i j a b, (i < j)%nat -> vs !! i = Some a -> vs !! j = Some b -> ikey a <> ikey b) ->
  seq_ok snapshot -> size u + 8 < 2 ^ 32 ->
  exists m, add_versions (MemTable_new rng) vs = Some m /\
    ((get m (LookupKey_new u snapshot) = Some NotHere /\
      forall w, w ∈ vs -> v_key w = u -> snapshot < v_sequence w) \/
     exists v, newest vs u snapshot v /\
       get m (LookupKey_new u snapshot) =
         Some (match v_type v with
               | kDeletion => Answer (not_found "deleted") None
               | kValue => Answer ok (Some (v_value v))
               end)).
Proof.
  intros HF Hd Hs Hu.
  destruct (add_versions_holds (MemTable_new rng) _ [] vs (holds_new rng) HF Hd)
    as (m & Ls & vs' & E & Hh & Hin).
  { intros a b Ha. by apply not_elem_of_nil in Ha. }
  assert (forall v, v ∈ vs' <-> v ∈ vs) as Hin' by (intros v; rewrite Hin, elem_of_nil; tauto).
  exists m. split; [done|]. destruct (get_holds m Ls vs' u snapshot Hh Hs Hu) as [[Eg Hn]|(v & Hnew & Eg)].
  - left. split; [done|]. intros w Hw. apply Hn. by apply Hin'.
  - right. exists v. split; [|done]. destruct Hnew as (H1 & H2 & H3 & H4).
    split_and!; [by apply Hin'|done|done|]. intros w Hw. apply H4. by apply Hin'.
Qed.

(** ** Batches into a memtable *)
Import WriteBatch.WriteBatch.

Definition op_key (op : Op) : bytes := match op with Put k _ => k | Del k => k end.
Definition op_version (seq : Z) (op : Op) : Version :=
  match op with
  | Put k v => mkVersion seq kValue k v
  | Del k => mkVersion seq kDeletion k []
  end.
(** The key fits a record's 32-bit length with its trailer. *)
Definition op_fits (op : Op) : Prop := op_ok op /\ size (op_key op) + 8 < 2 ^ 32.
Definition last_op (u : bytes) (ops : list Op) : option Op := last (filter (λ op, op_key op = u) ops).

(** [MemTable::add] on a memtable that has not faulted. *)
Definition add_op (m : option (@MemTable Rng)) (sequence : Z) (type : ValueType) (key value : bytes) :
    option MemTable := m ← m; add rng_next m sequence type key value.

Lemma op_version_ok seq op : seq_ok seq -> op_fits op -> version_ok (op_version seq op).
Proof.
  intros Hs [Hok Hk]. destruct op; cbn in *; split_and!; cbn; try done; try apply Hs; try apply Hok.
Qed.
Lemma op_version_sequence seq op : v_sequence (op_version seq op) = seq.
Proof. by destruct op. Qed.
Lemma op_version_key seq op : v_key (op_version seq op) = op_key op.
Proof. by destruct op. Qed.

Lemma ikey_sequence a b : version_ok a -> version_ok b -> ikey a = ikey b -> v_sequence a = v_sequence b.
Proof.
  intros (Ha & _) (Hb & _) E. pose proof (parse_make (v_key a) _ (v_type a) Ha) as Pa.
  pose proof (parse_make (v_key b) _ (v_type b) Hb) as Pb.
  unfold ikey in E. rewrite E in Pa. congruence.
Qed.

Lemma insert_ops_hold ops m Ls vs seq :
  holds m Ls vs -> Forall op_fits ops -> 0 <= seq -> seq + Z.of_nat (length ops) <= kMaxSequenceNumber ->
  (forall v, v ∈ vs -> v_sequence v < seq) ->
  exists m' Ls' vs',
    memtable_ (fold_left (inserter_op add_op) ops (mkInserter seq (Some m))) = Some m' /\
    holds m' Ls' vs' /\
    forall v, v ∈ vs' <-> (exists i op, ops !! i = Some op /\ v = op_version (seq + Z.of_nat i) op) \/ v ∈ vs.
Proof.
  revert m Ls vs seq. induction ops as [|op ops IH]; intros m Ls vs seq Hh HF Hseq Hmax Hlt; cbn [fold_left].
  { exists m, Ls, vs. split_and!; try done. intros v. split; [by right|].
    by intros [(i & op & Hi & _)|]. }
  apply Forall_cons in HF as [Hop HF]. cbn [length] in Hmax.
  assert (seq_ok seq) as Hsq by (unfold seq_ok; lia).
  pose proof (op_version_ok seq op Hsq Hop) as Hv.
  destruct (add_holds m Ls vs (op_version seq op) Hh Hv) as (m1 & Ls1 & Ea & H1).
  { intros w Hw E. pose proof (Hlt w Hw). destruct Hh as [_ HFv]. rewrite Forall_forall in HFv.
    apply ikey_sequence in E; [|auto|done]. rewrite op_version_sequence in E. lia. }
  assert (inserter_op add_op (mkInserter seq (Some m)) op = mkInserter (seq + 1) (Some m1)) as ->.
  { assert (u64 (seq + 1) = seq + 1) as Eu by (apply u64_small; change kMaxSequenceNumber with (2 ^ 56 - 1) in *; lia).
    destruct op; cbn in *; unfold add_op; cbn; by rewrite Ea, Eu. }
  destruct (IH m1 Ls1 _ (seq + 1) H1 HF) as (m2 & Ls2 & vs2 & E2 & H2 & Hin); [lia|lia| |].
  { intros v [->|Hin]%insert_version_elem; [rewrite op_version_sequence; lia|].
    specialize (Hlt v Hin). lia. }
  exists m2, Ls2, vs2. split_and!; try done. intros v. rewrite Hin, insert_version_elem. split.
  - intros [(i & o & Hi & ->)|[->|]]; [left|left|by right].
    + exists (S i), o. split; [done|]. f_equal. lia.
    + exists 0%nat, op. split; [done|]. f_equal. lia.
  - intros [([|i] & o & Hi & ->)|]; [| |by right; right].
    + right. left. cbn in Hi. injection Hi as ->. f_equal. lia.
    + left. exists i, o. split; [done|]. f_equal. lia.
Qed.

Lemma last_op_at ops i op u :
  ops !! i = Some op -> op_key op = u ->
  (forall j o, (i < j)%nat -> ops !! j = Some o -> op_key o <> u) -> last_op u ops = Some op.
Proof.
  intros Hi Hk Hafter. unfold last_op. rewrite <- (take_drop_middle ops i op Hi), filter_app.
  rewrite filter_cons_True by done.
  assert (filter (λ op, op_key op = u) (drop (S i) ops) = []) as ->.
  { destruct (filter (λ op, op_key op = u) (drop (S i) ops)) as [|o l] eqn:E; [done|].
    assert (o ∈ filter (λ op, op_key op = u) (drop (S i) ops)) as Ho by (rewrite E; left).
    apply list_elem_of_filter in Ho as [Ho Hin]. apply list_elem_of_lookup in Hin as [j Hj].
    rewrite lookup_drop in Hj. exfalso. apply (Hafter (S i + j)%nat o); [lia|done|done]. }
  by rewrite last_snoc.
Qed.

(** Writing a batch and reading it back: replaying a batch into an empty
    memtable under the sequence number the log gave it succeeds, and a lookup
    at any snapshot at or after the batch returns the effect of the last
    operation on the key - the value put, or not-found for a deletion - and
    nothing for a key the batch does not mention. *)
Theorem batch_write_then_get rng ops seq snapshot u :
  Forall op_fits ops -> Z.of_nat (length ops) < 2 ^ 32 -> 0 <= seq ->
  seq + Z.of_nat (length ops) <= snapshot -> seq_ok snapshot -> size u + 8 < 2 ^ 32 ->
  exists m,
    insert_into add_op (set_sequence (batch_of ops) seq) (Some (MemTable_new rng)) = (ok, Some m) /\
    get m (LookupKey_new u snapshot) =
      Some (match last_op u ops with
            | None => NotHere
            | Some (Put _ v) => Answer ok (Some v)
            | Some (Del _) => Answer (not_found "deleted") None
            end).
Proof.
  intros HF Hlen Hseq Hsnap Hs Hu.
  assert (Forall op_ok ops) as Hok by (eapply Forall_impl; [exact HF|]; by intros ? []).
  assert (seq + Z.of_nat (length ops) <= kMaxSequenceNumber) as Hmax by (unfold seq_ok in Hs; lia).
  unfold insert_into. rewrite batch_of_encoded, set_sequence_encoded by done.
  rewrite sequence_encoded, u64_small by (change kMaxSequenceNumber with (2 ^ 56 - 1) in *; lia).
  rewrite iterate_encoded by (try done; rewrite u32_small; lia).
  destruct (insert_ops_hold ops (MemTable_new rng) _ [] seq (holds_new rng) HF Hseq Hmax)
    as (m & Ls & vs & E & Hh & Hin).
  { intros v Hv. by apply not_elem_of_nil in Hv. }
  rewrite E. exists m. split; [done|].
  assert (forall v, v ∈ vs <-> exists i op, ops !! i = Some op /\ v = op_version (seq + Z.of_nat i) op) as Hin'.
  { intros v. rewrite Hin, elem_of_nil. tauto. }
  destruct (get_holds m Ls vs u snapshot Hh Hs Hu) as [[-> Hn]|(v & (Hv & Hk & _ & Hmax') & ->)].
  - assert (last_op u ops = None) as ->; [|done]. unfold last_op. apply last_None.
    destruct (filter (λ op, op_key op = u) ops) as [|o l] eqn:Ef; [done|]. exfalso.
    assert (o ∈ filter (λ op, op_key op = u) ops) as Ho by (rewrite Ef; left).
    apply list_elem_of_filter in Ho as [Ho Hoin]. apply list_elem_of_lookup in Hoin as [j Hj].
    pose proof (lookup_lt_Some _ _ _ Hj).
    specialize (Hn (op_version (seq + Z.of_nat j) o)).
    rewrite op_version_sequence, op_version_key in Hn.
    assert (snapshot < seq + Z.of_nat j); [|lia]. apply Hn; [|done]. apply Hin'. by exists j, o.
  - apply Hin' in Hv as (i & op & Hi & ->). rewrite op_version_key in Hk.
    assert (last_op u ops = Some op) as ->.
    { eapply last_op_at; [done|done|]. intros j o Hij Hj Hko. pose proof (lookup_lt_Some _ _ _ Hj).
      specialize (Hmax' (op_version (seq + Z.of_nat j) o)).
      rewrite !op_version_sequence, op_version_key in Hmax'.
      assert (seq + Z.of_nat j <= seq + Z.of_nat i); [|lia]. apply Hmax'; [|done|lia].
      apply Hin'. by exists j, o. }
    by destruct op.
Qed.
End Lemmas.

Definition counter (r : Z) : Z * Z := (r, r + 1).

Lemma memtable_get_returns_newest_visible_witness :
  let vs := [mkVersion 5 kValue [x61] [x31]; mkVersion 7 kDeletion [x61] []] in
  exists m, add_versions counter (MemTable_new 3) vs = Some m /\
    ((get m (LookupKey_new [x61] 6) = Some NotHere /\
      forall w, w ∈ vs -> v_key w = [x61] -> 6 < v_sequence w) \/
     exists v, newest vs [x61] 6 v /\
       get m (LookupKey_new [x61] 6) =
         Some (match v_type v with
               | kDeletion => Answer (not_found "deleted") None
               | kValue => Answer ok (Some (v_value v))
               end)).
Proof.
  apply (memtable_get_returns_newest_visible counter 3
    [mkVersion 5 kValue [x61] [x31]; mkVersion 7 kDeletion [x61] []] [x61] 6).
  - repeat constructor; vm_compute; congruence.
  - intros i j a b Hij Hi Hj. destruct i as [|[|i]], j as [|[|j]]; try lia; simplify_eq/=.
    vm_compute. discriminate.
  - vm_compute. split; discriminate.
  - vm_compute. reflexivity.
Defined.

Lemma batch_write_then_get_witness :
  let ops := [WriteBatch.Put [x61] [x31]; WriteBatch.Put [x62] [x32]; WriteBatch.Del [x61]] in
  exists m,
    WriteBatch.insert_into (add_op counter) (WriteBatch.set_sequence (WriteBatch.batch_of ops) 10)
      (Some (MemTable_new 3)) = (ok, Some m) /\
    get m (LookupKey_new [x61] 13) =
      Some (match last_op [x61] ops with
            | None => NotHere
            | Some (WriteBatch.Put _ v) => Answer ok (Some v)
            | Some (WriteBatch.Del _) => Answer (not_found "deleted") None
            end).
Proof.
  apply (batch_write_then_get counter 3
    [WriteBatch.Put [x61] [x31]; WriteBatch.Put [x62] [x32]; WriteBatch.Del [x61]] 10 13 [x61]).
  - repeat constructor.
  - vm_compute. reflexivity.
  - lia.
  - simpl. lia.
  - vm_compute. split; discriminate.
  - vm_compute. reflexivity.
Defined.
End MemTable.
