(* ===== verification/Merger.v ===== *)
(** The merging iterator (src/src/merger.hpp, src/src/merger.cpp): several
    sorted children as one sorted sequence.

    The children share an iterator type; [current_] is the index of the child
    it points to.  [None] is undefined behaviour in a child or a dereference
    of a null [current_]. *)
From S2P Require Import Prelude Status Comparator Iterator.
Import Status Comparator Iterator.

Module Merger.

Inductive Direction := kForward | kReverse.

Section Merger.
Context {I : Type} (ops : Iterator I) (comparator_ : Comparator).

Record MergingIterator := mkMerging {
  children_ : list I;
  current_ : option nat;
  direction_ : Direction
}.

Definition MergingIterator_new (children : list I) : MergingIterator :=
  mkMerging children None kForward.

Definition valid (m : MergingIterator) : bool := bool_decide (is_Some (current_ m)).

Definition current_child (m : MergingIterator) : option I := c ← current_ m; children_ m !! c.
Definition key (m : MergingIterator) : option bytes := it_key ops <$> current_child m.
Definition value (m : MergingIterator) : option bytes := child ← current_child m; it_value ops child.

(** [for (auto& child : children_) ...], the call given the child's index. *)
Fixpoint for_each (f : nat -> I -> option I) (i : nat) (children : list I) : option (list I) :=
  match children with
  | [] => Some []
  | child :: rest =>
      child ← f i child;
      rest ← for_each f (S i) rest;
      Some (child :: rest)
  end.

(** The loop of [find_smallest]: the child so far and its key. *)
Fixpoint smallest_loop (children : list I) (i : nat) (smallest : option (nat * bytes)) :
    option (nat * bytes) :=
  match children with
  | [] => smallest
  | child :: rest =>
      let smallest :=
        if it_valid ops child then
          match smallest with
          | None => Some (i, it_key ops child)
          | Some (_, k) =>
              match compare comparator_ (it_key ops child) k with
              | Lt => Some (i, it_key ops child)
              | _ => smallest
              end
          end
        else smallest in
      smallest_loop rest (S i) smallest
  end.
Definition find_smallest (children : list I) : option nat := fst <$> smallest_loop children 0 None.

(** The loop of [find_largest], over the children from the last. *)
Fixpoint largest_loop (rchildren : list I) (largest : option (nat * bytes)) : option (nat * bytes) :=
  match rchildren with
  | [] => largest
  | child :: rest =>
      let largest :=
        if it_valid ops child then
          match largest with
          | None => Some (length rest, it_key ops child)
          | Some (_, k) =>
              match compare comparator_ (it_key ops child) k with
              | Gt => Some (length rest, it_key ops child)
              | _ => largest
              end
          end
        else largest in
      largest_loop rest largest
  end.
Definition find_largest (children : list I) : option nat := fst <$> largest_loop (reverse children) None.

Definition forward (children : list I) : MergingIterator :=
  mkMerging children (find_smallest children) kForward.
Definition backward (children : list I) : MergingIterator :=
  mkMerging children (find_largest children) kReverse.

Definition seek_to_first (m : MergingIterator) : option MergingIterator :=
  forward <$> for_each (λ _, it_seek_to_first ops) 0 (children_ m).
Definition seek_to_last (m : MergingIterator) : option MergingIterator :=
  backward <$> for_each (λ _, it_seek_to_last ops) 0 (children_ m).
Definition seek (m : MergingIterator) (target : bytes) : option MergingIterator :=
  forward <$> for_each (λ _ child, it_seek ops child target) 0 (children_ m).

(** [if (child.get() == current_) continue]. *)
Definition unless_current (c : nat) (f : I -> option I) (i : nat) (child : I) : option I :=
  if (i =? c)%nat then Some child else f child.
(** [current_->next()] and [current_->prev()]. *)
Definition only_current (c : nat) (f : I -> option I) (i : nat) (child : I) : option I :=
  if (i =? c)%nat then f child else Some child.

Definition next (m : MergingIterator) : option MergingIterator :=
  c ← current_ m;
  k ← key m;
  children ←
    match direction_ m with
    | kForward => Some (children_ m)
    | kReverse => for_each (unless_current c (λ child, it_seek ops child k)) 0 (children_ m)
    end;
  children ← for_each (only_current c (it_next ops)) 0 children;
  Some (forward children).

(** Positioning one child strictly before the current key. *)
Definition step_before (k : bytes) (child : I) : option I :=
  child ← it_seek ops child k;
  if it_valid ops child then it_prev ops child else it_seek_to_last ops child.

Definition prev (m : MergingIterator) : option MergingIterator :=
  c ← current_ m;
  k ← key m;
  children ←
    match direction_ m with
    | kReverse => Some (children_ m)
    | kForward => for_each (unless_current c (step_before k)) 0 (children_ m)
    end;
  children ← for_each (only_current c (it_prev ops)) 0 children;
  Some (backward children).

Fixpoint first_failure (children : list I) : Status :=
  match children with
  | [] => ok
  | child :: rest => if is_ok (it_status ops child) then first_failure rest else it_status ops child
  end.
Definition status (m : MergingIterator) : Status := first_failure (children_ m).

Definition merging_iterator : Iterator MergingIterator :=
  mkIterator MergingIterator valid seek_to_first seek_to_last seek next prev
    (λ m, default [] (key m)) value status.

(** [new_merging_iterator]: nothing, the only child, or a merge. *)
Inductive Merged :=
  | MergedEmpty
  | MergedOne (child : I)
  | MergedMany (m : MergingIterator).
Definition new_merging_iterator (children : list I) : Merged :=
  match children with
  | [] => MergedEmpty
  | [child] => MergedOne child
  | _ => MergedMany (MergingIterator_new children)
  end.

(** * The merge of sorted lists *)

(** The contract of merger.hpp: every entry of the merged list [M] is an
    entry of exactly one child, no two children hold an equal key. *)
Record merges (ls : list (list (bytes * bytes))) (M : list (bytes * bytes)) : Prop := {
  mg_sorted : sorted_by comparator_ M;
  mg_children c l : ls !! c = Some l -> sorted_by comparator_ l;
  mg_in c l e : ls !! c = Some l -> e ∈ l -> e ∈ M;
  mg_from e : e ∈ M -> exists c l, ls !! c = Some l /\ e ∈ l;
  mg_once c c' l l' k v v' :
    ls !! c = Some l -> ls !! c' = Some l' -> (k, v) ∈ l -> (k, v') ∈ l' -> c = c';
  mg_keys k v : (k, v) ∈ M -> size k < 2 ^ 32
}.

(** How many entries of [l] come before position [i] of [M]. *)
Definition cut (M : list (bytes * bytes)) (l : list (bytes * bytes)) (i : nat) : nat :=
  match M !! i with
  | Some (k, _) => lower_bound comparator_ l k
  | None => length l
  end.
(** The entry before it, or none. *)
Definition rcut (M l : list (bytes * bytes)) (i : nat) : nat :=
  match cut M l i with O => length l | S p => p end.

Section Proofs.
Context `{!ComparatorLaws comparator_}.
Context (ls : list (list (bytes * bytes))) (M : list (bytes * bytes)) (MG : merges ls M).

Lemma merged_key_index i j k v v' : M !! i = Some (k, v) -> M !! j = Some (k, v') -> i = j.
Proof.
  intros Hi Hj. destruct (Nat.lt_trichotomy i j) as [H|[H|H]]; [|done|];
    exfalso; apply (key_lt_irrefl k);
    by eapply (sorted_lookup comparator_ M); [apply MG|exact H|..].
Qed.

Lemma lower_bound_ext l t t' :
  (forall e, e ∈ l -> key_lt comparator_ (fst e) t <-> key_lt comparator_ (fst e) t') ->
  lower_bound comparator_ l t = lower_bound comparator_ l t'.
Proof.
  induction l as [|[k v] l IH]; intros He; [done|]. simpl.
  pose proof (He (k, v) ltac:(left)) as Hk. unfold key_lt in Hk. cbn [fst] in Hk.
  rewrite IH by (intros e Hin; apply He; by right).
  destruct (compare comparator_ k t), (compare comparator_ k t'); try done; exfalso;
    destruct Hk as [H1 H2]; (by discriminate H1) || (by discriminate H2).
Qed.

Lemma lower_bound_all l t :
  (forall e, e ∈ l -> key_lt comparator_ (fst e) t) -> lower_bound comparator_ l t = length l.
Proof.
  induction l as [|[k v] l IH]; intros He; [done|]. simpl.
  pose proof (He (k, v) ltac:(left)) as Hk. unfold key_lt in Hk. cbn [fst] in Hk. rewrite Hk.
  rewrite IH; [done|]. intros e Hin. apply He. by right.
Qed.

(** Entries of [M] against its position [i]. *)
Lemma below_iff i k v j e :
  M !! i = Some (k, v) -> M !! j = Some e -> key_lt comparator_ (fst e) k <-> (j < i)%nat.
Proof.
  intros Hi Hj. destruct e as [k' v']. cbn [fst]. split.
  - intros Hlt. destruct (Nat.lt_trichotomy j i) as [|[->|H]]; [done| |].
    + assert (k' = k) as -> by congruence. by apply key_lt_irrefl in Hlt.
    + exfalso. apply (key_lt_irrefl k). eapply key_lt_trans; [|exact Hlt].
      by eapply (sorted_lookup comparator_ M); [apply MG|exact H|..].
  - intros H. by eapply (sorted_lookup comparator_ M); [apply MG|exact H|..].
Qed.

(** Seeking every child cuts the merged list where a seek of it would. *)
Lemma cut_seek c l t :
  ls !! c = Some l -> lower_bound comparator_ l t = cut M l (lower_bound comparator_ M t).
Proof.
  intros Hl. unfold cut. destruct (M !! lower_bound comparator_ M t) as [[k v]|] eqn:E.
  - apply lower_bound_ext. intros e Hin. apply (mg_in _ _ MG c l e Hl) in Hin.
    apply list_elem_of_lookup in Hin as [j Hj]. rewrite (below_iff _ _ _ _ _ E Hj).
    destruct e as [k' v']. cbn [fst]. split.
    + intros Hlt. destruct (decide (j < lower_bound comparator_ M t)%nat) as [|Hge]; [done|].
      exfalso. pose proof (lower_bound_at _ _ _ _ _ E) as Hk.
      destruct (decide (j = lower_bound comparator_ M t)) as [->|].
      { assert (k' = k) as -> by congruence. done. }
      apply Hk. eapply key_lt_trans; [|exact Hlt].
      eapply (sorted_lookup comparator_ M); [apply MG| |exact E|exact Hj]. lia.
    + intros Hlt. by eapply lower_bound_below.
  - apply lower_bound_all. intros e Hin. apply (mg_in _ _ MG c l e Hl) in Hin.
    apply list_elem_of_lookup in Hin as [j Hj]. destruct e as [k v]. cbn [fst].
    eapply (lower_bound_below _ M _ j); [|done]. apply lookup_ge_None in E.
    apply lookup_lt_Some in Hj. lia.
Qed.

Lemma cut_0 c l : ls !! c = Some l -> cut M l 0 = 0%nat.
Proof.
  intros Hl. unfold cut. destruct (M !! 0%nat) as [[k v]|] eqn:E.
  - symmetry. apply lower_bound_unique; [lia|lia|]. intros k' v' Hk'.
    apply list_elem_of_lookup_2, (mg_in _ _ MG c l _ Hl) in Hk'.
    apply list_elem_of_lookup in Hk' as [j Hj].
    pose proof (below_iff _ _ _ _ _ E Hj) as H. cbn [fst] in H. rewrite H. lia.
  - destruct l as [|e l]; [done|]. exfalso.
    assert (e ∈ M) as Hin by (apply (mg_in _ _ MG c (e :: l)); [done|left]).
    apply lookup_ge_None in E. destruct M; [by apply not_elem_of_nil in Hin|]. simpl in E. lia.
Qed.

(** The entry at [i] is where its child is cut; the other children do not
    have it. *)
Lemma cut_at i k v :
  M !! i = Some (k, v) -> exists c l, ls !! c = Some l /\ l !! cut M l i = Some (k, v).
Proof.
  intros Hi. destruct (mg_from _ _ MG (k, v)) as (c & l & Hl & Hin);
    [by eapply list_elem_of_lookup_2|].
  exists c, l. split; [done|]. apply list_elem_of_lookup in Hin as [p Hp].
  assert (p = cut M l i) as <-; [|done]. unfold cut. rewrite Hi. apply lower_bound_unique.
  - apply lookup_lt_Some in Hp. lia.
  - intros j k' v' Hj Hk'. by eapply (sorted_lookup comparator_ l); [by eapply MG|exact Hj|..].
  - intros k' v' Hk'. assert (k' = k) as -> by congruence. apply key_lt_irrefl.
Qed.

Lemma cut_S i k v c l :
  M !! i = Some (k, v) -> ls !! c = Some l ->
  cut M l (S i) = if decide ((k, v) ∈ l) then S (cut M l i) else cut M l i.
Proof.
  intros Hi Hl.
  assert (forall j e, l !! j = Some e -> exists q, M !! q = Some e) as HM.
  { intros j e Hj. apply list_elem_of_lookup. eapply MG; [done|]. by eapply list_elem_of_lookup_2. }
  (* an entry of l is below position S i iff it is below position i or is the entry at i *)
  assert (forall n, (n <= length l)%nat ->
    (forall j e q, l !! j = Some e -> M !! q = Some e -> (j < n)%nat <-> (q <= i)%nat) ->
    cut M l (S i) = n) as Hchar.
  { intros n Hn H. unfold cut. destruct (M !! S i) as [[k' v']|] eqn:E.
    - symmetry. apply lower_bound_unique; [done| |].
      + intros j kj vj Hj Hlj. destruct (HM _ _ Hlj) as [q Hq].
        pose proof (below_iff _ _ _ _ _ E Hq) as B. cbn [fst] in B. apply B.
        apply (H j _ q Hlj Hq) in Hj. lia.
      + intros kj vj Hlj Hlt. destruct (HM _ _ Hlj) as [q Hq].
        pose proof (below_iff _ _ _ _ _ E Hq) as B. cbn [fst] in B. apply B in Hlt.
        assert (q <= i)%nat as Hle by lia. apply (H n _ q Hlj Hq) in Hle. lia.
    - destruct (decide (n < length l)%nat) as [Hlt|]; [|lia].
      destruct (lookup_lt_is_Some_2 l n Hlt) as [e He]. destruct (HM _ _ He) as [q Hq].
      apply lookup_ge_None in E. pose proof (lookup_lt_Some _ _ _ Hq).
      assert (q <= i)%nat as Hle by (apply lookup_lt_Some in Hi; lia).
      apply (H n _ q He Hq) in Hle. lia. }
  assert (forall j e q, l !! j = Some e -> M !! q = Some e -> (j < cut M l i)%nat <-> (q < i)%nat) as Hcut.
  { intros j [kj vj] q Hj Hq. unfold cut. rewrite Hi.
    pose proof (below_iff _ _ _ _ _ Hi Hq) as B. cbn [fst] in B. rewrite <- B. split.
    - intros H. by eapply lower_bound_below.
    - intros Hlt. destruct (decide (j < lower_bound comparator_ l k)%nat) as [|Hge]; [done|].
      exfalso. destruct (lookup_lt_is_Some_2 l (lower_bound comparator_ l k)) as [[kb vb] Hb];
        [apply lookup_lt_Some in Hj; lia|].
      pose proof (lower_bound_at _ _ _ _ _ Hb) as Hnb. apply Hnb.
      destruct (decide (j = lower_bound comparator_ l k)) as [->|]; [by assert (kb = kj) as -> by congruence|].
      eapply key_lt_trans; [|exact Hlt].
      eapply (sorted_lookup comparator_ l); [by eapply MG| |exact Hb|exact Hj]. lia. }
  case_decide as Hin.
  - apply list_elem_of_lookup in Hin as [p Hp].
    assert (p = cut M l i) as Ep.
    { unfold cut. rewrite Hi. apply lower_bound_unique.
      - apply lookup_lt_Some in Hp. lia.
      - intros j k' v' Hj Hk'. by eapply (sorted_lookup comparator_ l); [by eapply MG|exact Hj|..].
      - intros k' v' Hk'. assert (k' = k) as -> by congruence. apply key_lt_irrefl. }
    apply Hchar; [apply lookup_lt_Some in Hp; lia|].
    intros j e q Hj Hq. rewrite <- Ep in *. destruct (decide (j = p)) as [->|Hne].
    + assert (e = (k, v)) as -> by congruence.
      rewrite (merged_key_index _ _ _ _ _ Hi Hq). lia.
    + pose proof (Hcut j e q Hj Hq). split; [intros; lia|]. intros Hle.
      destruct (decide (q = i)) as [->|]; [|lia]. exfalso.
      assert (e = (k, v)) as -> by congruence. apply Hne.
      destruct (Nat.lt_trichotomy j p) as [H'|[|H']]; [|done|]; exfalso; apply (key_lt_irrefl k);
        by eapply (sorted_lookup comparator_ l); [by eapply MG|exact H'|..].
  - apply Hchar.
    { unfold cut. rewrite Hi. apply lower_bound_le. }
    intros j e q Hj Hq. rewrite (Hcut j e q Hj Hq).
    destruct (decide (q = i)) as [->|]; [|lia]. exfalso. apply Hin.
    assert (e = (k, v)) as <- by congruence. by eapply list_elem_of_lookup_2.
Qed.

Lemma cut_end l i : (length M <= i)%nat -> cut M l i = length l.
Proof. intros H. unfold cut. by rewrite lookup_ge_None_2. Qed.
Lemma cut_le l i : (cut M l i <= length l)%nat.
Proof. unfold cut. destruct (M !! i) as [[k v]|]; [apply lower_bound_le|done]. Qed.

(** ** The children *)
Context (pos : nat -> I -> nat -> Prop).
Context (Hchildren : forall c l, ls !! c = Some l -> SortedIterator ops comparator_ l (pos c)).

(** Child [c] stands at position [P c l] of its list [l]. *)
Definition placed (children : list I) (P : nat -> list (bytes * bytes) -> nat) : Prop :=
  length children = length ls /\
  forall c ch l, children !! c = Some ch -> ls !! c = Some l -> pos c ch (P c l).

Lemma for_each_loop f n children children0 P P' :
  children0 = drop n children -> placed children P -> (n <= length children)%nat ->
  (forall c ch l, children !! c = Some ch -> ls !! c = Some l -> pos c ch (P c l) ->
    exists ch', f c ch = Some ch' /\ pos c ch' (P' c l)) ->
  exists out, for_each f n children0 = Some out /\ length out = length children0 /\
    forall i ch l, out !! i = Some ch -> ls !! (n + i)%nat = Some l -> pos (n + i)%nat ch (P' (n + i)%nat l).
Proof.
  intros E0 [Hlen Hp] Hn Hf. revert n E0 Hn. induction children0 as [|ch rest IH]; intros n E0 Hn; cbn [for_each].
  { exists []. split_and!; try done. }
  assert (children !! n = Some ch) as Hch.
  { rewrite <- (Nat.add_0_r n), <- lookup_drop, <- E0. done. }
  pose proof (lookup_lt_Some _ _ _ Hch) as Hlt.
  destruct (lookup_lt_is_Some_2 ls n) as [l Hl]; [lia|].
  destruct (Hf n ch l Hch Hl (Hp _ _ _ Hch Hl)) as (ch' & -> & Hpos). cbn [mbind option_bind].
  destruct (IH (S n)) as (out & -> & Hol & Hout); [|lia|].
  { rewrite (drop_S _ _ _ Hch) in E0. by injection E0. }
  cbn [mbind option_bind]. eexists. split_and!; [done|simpl; lia|].
  intros [|i] c' l' Hi Hl'.
  - cbn in Hi. injection Hi as <-. rewrite Nat.add_0_r in *. by assert (l' = l) as -> by congruence.
  - cbn in Hi. replace (n + S i)%nat with (S n + i)%nat in * by lia. by apply Hout.
Qed.

Lemma for_each_placed f children P P' :
  placed children P ->
  (forall c ch l, children !! c = Some ch -> ls !! c = Some l -> pos c ch (P c l) ->
    exists ch', f c ch = Some ch' /\ pos c ch' (P' c l)) ->
  exists out, for_each f 0 children = Some out /\ placed out P'.
Proof.
  intros Hp Hf. destruct (for_each_loop f 0 children children P P') as (out & -> & Hl & Ho);
    [done|done|lia|done|].
  exists out. split; [done|]. split; [destruct Hp; lia|]. intros c ch l. apply (Ho c).
Qed.

Lemma placed_lookup children P c l :
  placed children P -> ls !! c = Some l -> exists ch, children !! c = Some ch /\ pos c ch (P c l).
Proof.
  intros [Hlen Hp] Hl. destruct (lookup_lt_is_Some_2 children c) as [ch Hch];
    [rewrite Hlen; by eapply lookup_lt_Some|].
  exists ch. split; [done|by apply Hp].
Qed.

(** A placed child is valid with the key at its position. *)
Lemma placed_entry children P c ch l :
  placed children P -> children !! c = Some ch -> ls !! c = Some l ->
  it_valid ops ch = (P c l <? length l)%nat /\ it_status ops ch = ok /\
  forall k v, l !! P c l = Some (k, v) -> it_key ops ch = k /\ it_value ops ch = Some v.
Proof.
  intros [_ Hp] Hch Hl. specialize (Hp _ _ _ Hch Hl). pose proof (Hchildren c l Hl) as SI.
  split_and!.
  - by apply (si_valid _ _ Hp).
  - by apply (si_status _ _ Hp).
  - intros k v Hk. by apply (si_entry _ _ _ _ Hp Hk).
Qed.

(** ** The smallest and the largest child *)
Definition candidate (children : list I) (c : nat) (k : bytes) : Prop :=
  exists ch, children !! c = Some ch /\ it_valid ops ch = true /\ it_key ops ch = k.

Lemma smallest_loop_spec done rest best :
  (match best with
   | None => forall c k, ~ candidate done c k
   | Some (c, k) => candidate done c k /\ forall c' k', candidate done c' k' -> ~ key_lt comparator_ k' k
   end) ->
  match smallest_loop rest (length done) best with
  | None => forall c k, ~ candidate (done ++ rest) c k
  | Some (c, k) => candidate (done ++ rest) c k /\
      forall c' k', candidate (done ++ rest) c' k' -> ~ key_lt comparator_ k' k
  end.
Proof.
  revert done best. induction rest as [|ch rest IH]; intros done best Hb; cbn [smallest_loop].
  { by rewrite app_nil_r. }
  rewrite (cons_middle ch done rest), app_assoc.
  replace (S (length done)) with (length (done ++ [ch])) by (rewrite length_app; simpl; lia).
  assert (forall c k, candidate (done ++ [ch]) c k <->
    candidate done c k \/ (c = length done /\ it_valid ops ch = true /\ it_key ops ch = k)) as Hc.
  { intros c k. unfold candidate. split.
    - intros (x & Hx & Hv & Hk). apply lookup_snoc_Some in Hx as [[? Hx]|[-> <-]]; [left|right]; eauto.
    - intros [(x & Hx & Hv & Hk)|(-> & Hv & Hk)].
      + exists x. split; [by apply lookup_app_l_Some|done].
      + exists ch. split; [by apply list_lookup_middle|done]. }
  apply IH. destruct (it_valid ops ch) eqn:Ev.
  - destruct best as [[c k]|].
    + destruct Hb as [Hb1 Hb2]. destruct (compare comparator_ (it_key ops ch) k) eqn:Ec.
      * split; [apply Hc; by left|]. intros c' k' [H|(-> & _ & <-)]%Hc; [by eapply Hb2|].
        unfold key_lt. by rewrite Ec.
      * split; [apply Hc; by right|]. intros c' k' [H|(-> & _ & <-)]%Hc; [|apply key_lt_irrefl].
        intros Hlt. apply (Hb2 _ _ H). by eapply key_lt_trans.
      * split; [apply Hc; by left|]. intros c' k' [H|(-> & _ & <-)]%Hc; [by eapply Hb2|].
        unfold key_lt. by rewrite Ec.
    + split; [apply Hc; by right|]. intros c' k' [H|(-> & _ & <-)]%Hc; [by apply Hb in H|apply key_lt_irrefl].
  - destruct best as [[c k]|].
    + destruct Hb as [Hb1 Hb2]. split; [apply Hc; by left|].
      intros c' k' [H|(-> & ? & _)]%Hc; [by eapply Hb2|done].
    + intros c k [H|(-> & ? & _)]%Hc; [by apply Hb in H|done].
Qed.

Lemma largest_loop_spec rest done best :
  (match best with
   | None => forall c k, (length rest <= c)%nat -> ~ candidate (reverse rest ++ done) c k
   | Some (c, k) => candidate (reverse rest ++ done) c k /\ (length rest <= c)%nat /\
       forall c' k', (length rest <= c')%nat -> candidate (reverse rest ++ done) c' k' -> ~ key_lt comparator_ k k'
   end) ->
  match largest_loop rest best with
  | None => forall c k, ~ candidate (reverse rest ++ done) c k
  | Some (c, k) => candidate (reverse rest ++ done) c k /\
      forall c' k', candidate (reverse rest ++ done) c' k' -> ~ key_lt comparator_ k k'
  end.
Proof.
  revert done best. induction rest as [|ch rest IH]; intros done best Hb; cbn [largest_loop].
  { simpl in *. destruct best as [[c k]|].
    - destruct Hb as (? & _ & Hb). split; [done|]. intros c' k'. apply Hb. lia.
    - intros c k. apply Hb. lia. }
  rewrite reverse_cons, <- app_assoc in *. cbn [app] in *.
  assert (forall c k, candidate (reverse rest ++ ch :: done) c k -> (length rest <= c)%nat ->
    (S (length rest) <= c)%nat \/ (c = length rest /\ it_valid ops ch = true /\ it_key ops ch = k)) as Hc.
  { intros c k (x & Hx & Hv & Hk) Hle. destruct (decide (c = length rest)) as [->|]; [right|left; lia].
    rewrite list_lookup_middle in Hx by (by rewrite length_reverse). injection Hx as ->. done. }
  assert (it_valid ops ch = true -> candidate (reverse rest ++ ch :: done) (length rest) (it_key ops ch)) as Hch.
  { intros Hv. exists ch. split; [|done]. apply list_lookup_middle. by rewrite length_reverse. }
  apply IH. cbn [length] in Hb. destruct (it_valid ops ch) eqn:Ev.
  - specialize (Hch eq_refl). destruct best as [[c k]|].
    + destruct Hb as (Hb1 & Hb0 & Hb2). destruct (compare comparator_ (it_key ops ch) k) eqn:Ec.
      * split; [done|]. split; [lia|]. intros c' k' Hle H.
        destruct (Hc _ _ H Hle) as [|(-> & _ & <-)]; [by eapply Hb2|]. unfold key_lt.
        by rewrite cmp_antisym, Ec.
      * split; [done|]. split; [lia|]. intros c' k' Hle H.
        destruct (Hc _ _ H Hle) as [|(-> & _ & <-)]; [by eapply Hb2|]. unfold key_lt.
        by rewrite cmp_antisym, Ec.
      * split; [done|]. split; [lia|]. intros c' k' Hle H.
        destruct (Hc _ _ H Hle) as [Hge|(-> & _ & <-)]; [|apply key_lt_irrefl]. intros Hlt.
        apply (Hb2 c' k' Hge H). eapply key_lt_trans; [|exact Hlt].
        unfold key_lt. by rewrite cmp_antisym, Ec.
    + split; [done|]. split; [lia|]. intros c' k' Hle H.
      destruct (Hc _ _ H Hle) as [Hge|(-> & _ & <-)]; [by apply (Hb c' k') in H|apply key_lt_irrefl].
  - destruct best as [[c k]|].
    + destruct Hb as (Hb1 & Hb0 & Hb2). split; [done|]. split; [lia|]. intros c' k' Hle H.
      destruct (Hc _ _ H Hle) as [|(-> & ? & _)]; [by eapply Hb2|done].
    + intros c k Hle H. destruct (Hc _ _ H Hle) as [|(-> & ? & _)]; [by apply (Hb c k) in H|done].
Qed.

(** Keys of [M] that neither precede the other are one entry. *)
Lemma same_entry i j k v k' v' :
  M !! i = Some (k, v) -> M !! j = Some (k', v') ->
  ~ key_lt comparator_ k k' -> ~ key_lt comparator_ k' k -> (k, v) = (k', v').
Proof.
  intros Hi Hj H1 H2. destruct (Nat.lt_trichotomy i j) as [H|[->|H]]; [| |].
  - destruct H1. by eapply (sorted_lookup comparator_ M); [apply MG|exact H|..].
  - congruence.
  - destruct H2. by eapply (sorted_lookup comparator_ M); [apply MG|exact H|..].
Qed.

(** All children cut at [i]: the smallest is the child that has entry [i]. *)
Lemma find_smallest_at children i :
  placed children (λ _ l, cut M l i) ->
  match M !! i with
  | Some e => exists c l, find_smallest children = Some c /\ ls !! c = Some l /\ l !! cut M l i = Some e
  | None => find_smallest children = None
  end.
Proof.
  intros Hp. unfold find_smallest.
  pose proof (smallest_loop_spec [] children None) as Hspec. cbn [length app] in Hspec.
  specialize (Hspec ltac:(intros c k (ch & Hch & _); done)).
  assert (forall c k, candidate children c k ->
    exists l v, ls !! c = Some l /\ l !! cut M l i = Some (k, v)) as Hcand.
  { intros c k (ch & Hch & Hv & Hk). destruct (lookup_lt_is_Some_2 ls c) as [l Hl].
    { destruct Hp as [<- _]. by eapply lookup_lt_Some. }
    destruct (placed_entry _ _ _ _ _ Hp Hch Hl) as (Ev & _ & Ek). rewrite Hv in Ev.
    symmetry in Ev. apply Nat.ltb_lt in Ev. destruct (lookup_lt_is_Some_2 _ _ Ev) as [[k' v'] He].
    exists l, v'. split; [done|]. destruct (Ek _ _ He) as [<- _]. by rewrite Hk in *. }
  destruct (M !! i) as [[k v]|] eqn:Ei.
  - destruct (cut_at i k v Ei) as (c & l & Hl & Hcl).
    destruct (placed_lookup _ _ _ _ Hp Hl) as (ch & Hch & _).
    destruct (placed_entry _ _ _ _ _ Hp Hch Hl) as (Ev & _ & Ek).
    assert (candidate children c k) as Hc.
    { exists ch. split; [done|]. split; [rewrite Ev; apply Nat.ltb_lt; by eapply lookup_lt_Some|].
      by apply (Ek _ _ Hcl). }
    destruct (smallest_loop children 0 None) as [[c' k']|]; [|by apply Hspec in Hc].
    destruct Hspec as [Hc' Hmin]. destruct (Hcand _ _ Hc') as (l' & v' & Hl' & Hcl').
    exists c', l'. split; [done|]. split; [done|]. rewrite Hcl'. f_equal. symmetry.
    assert ((k', v') ∈ M) as [j Hj]%list_elem_of_lookup by
      (eapply MG; [exact Hl'|by eapply list_elem_of_lookup_2]).
    apply (same_entry i j); [done|done|by apply (Hmin c k)|].
    unfold cut in Hcl'. rewrite Ei in Hcl'. by apply lower_bound_at in Hcl'.
  - destruct (smallest_loop children 0 None) as [[c k]|]; [|done].
    destruct Hspec as [Hc _]. destruct (Hcand _ _ Hc) as (l & v & _ & Hcl).
    apply lookup_lt_Some in Hcl. unfold cut in Hcl. rewrite Ei in Hcl. lia.
Qed.

(** All children before [i]: the largest is the child that has the entry
    before [i]. *)
Lemma find_largest_at children i :
  (i <= length M)%nat ->
  placed children (λ _ l, rcut M l i) ->
  match i with
  | S j => exists c l, find_largest children = Some c /\ ls !! c = Some l /\
             l !! rcut M l i = M !! j /\ cut M l j = rcut M l i
  | O => find_largest children = None
  end.
Proof.
  intros Hi Hp. unfold find_largest.
  pose proof (largest_loop_spec (reverse children) [] None) as Hspec.
  rewrite reverse_involutive, app_nil_r, length_reverse in Hspec.
  specialize (Hspec ltac:(intros c k Hle (ch & Hch%lookup_lt_Some & _); lia)).
  assert (forall c k, candidate children c k -> exists l v p,
    ls !! c = Some l /\ l !! rcut M l i = Some (k, v) /\ cut M l i = S p /\ rcut M l i = p) as Hcand.
  { intros c k (ch & Hch & Hv & Hk). destruct (lookup_lt_is_Some_2 ls c) as [l Hl].
    { destruct Hp as [<- _]. by eapply lookup_lt_Some. }
    destruct (placed_entry _ _ _ _ _ Hp Hch Hl) as (Ev & _ & Ek). rewrite Hv in Ev.
    symmetry in Ev. apply Nat.ltb_lt in Ev. destruct (lookup_lt_is_Some_2 _ _ Ev) as [[k' v'] He].
    destruct (Ek _ _ He) as [E _]. unfold rcut in *. destruct (cut M l i) as [|p] eqn:Ec; [lia|].
    exists l, v', p. rewrite Ec. split_and!; congruence. }
  destruct i as [|j].
  - destruct (largest_loop _ None) as [[c k]|]; [|done].
    destruct Hspec as [Hc _]. destruct (Hcand _ _ Hc) as (l & v & p & Hl & _ & Hcut & _).
    rewrite (cut_0 c l Hl) in Hcut. done.
  - destruct (lookup_lt_is_Some_2 M j) as [[k v] Ej]; [lia|].
    destruct (cut_at j k v Ej) as (c & l & Hl & Hcl).
    assert ((k, v) ∈ l) as Hin by (by eapply list_elem_of_lookup_2).
    pose proof (cut_S j k v c l Ej Hl) as HS. rewrite decide_True in HS by done.
    assert (rcut M l (S j) = cut M l j) as Hr by (unfold rcut; by rewrite HS).
    destruct (placed_lookup _ _ _ _ Hp Hl) as (ch & Hch & _).
    destruct (placed_entry _ _ _ _ _ Hp Hch Hl) as (Ev & _ & Ek). rewrite Hr in Ev, Ek.
    assert (candidate children c k) as Hc.
    { exists ch. split; [done|]. split; [rewrite Ev; apply Nat.ltb_lt; by eapply lookup_lt_Some|].
      by apply (Ek _ _ Hcl). }
    destruct (largest_loop _ None) as [[c' k']|]; [|by apply Hspec in Hc].
    destruct Hspec as [Hc' Hmax]. destruct (Hcand _ _ Hc') as (l' & v' & p & Hl' & Hcl' & Hcut' & Hp').
    exists c', l'. split; [done|]. split; [done|].
    assert ((k', v') ∈ M) as [q Hq]%list_elem_of_lookup by
      (eapply MG; [exact Hl'|by eapply list_elem_of_lookup_2]).
    assert ((k, v) = (k', v')) as E.
    { apply (same_entry j q); [done|done| |].
      2: by apply (Hmax c k).
      intros Hlt. assert (j < q)%nat as Hjq.
      { pose proof (below_iff q k' v' j (k, v) Hq Ej) as B. by apply B. }
      (* the entry of child c' lies at or after position S j *)
      unfold rcut in Hcl'. rewrite Hcut' in Hcl'.
      assert (cut M l' (S j) <= p)%nat; [|lia].
      destruct (decide (cut M l' (S j) <= p)%nat) as [|Hgt]; [done|]. exfalso.
      destruct (M !! S j) as [[k2 v2]|] eqn:E2.
      - unfold cut in Hcut'. rewrite E2 in Hcut'.
        assert (key_lt comparator_ k' k2) as H2 by (eapply (lower_bound_below _ l'); [|exact Hcl']; lia).
        pose proof (below_iff (S j) k2 v2 q (k', v') E2 Hq) as B. cbn [fst] in B.
        apply B in H2. lia.
      - apply lookup_ge_None in E2. apply lookup_lt_Some in Hq. lia. }
    injection E as <- <-. split; [by rewrite Hcl', Ej|].
    assert ((k, v) ∈ l') as Hin' by (by eapply list_elem_of_lookup_2).
    pose proof (cut_S j k v c' l' Ej Hl') as HS'. rewrite decide_True in HS' by done.
    rewrite Hcut' in HS'. injection HS' as <-. by rewrite Hp'.
Qed.

(** ** The merging iterator's positions *)
Definition mpos (m : MergingIterator) (i : nat) : Prop :=
  match M !! i with
  | Some e =>
      (exists c l, current_ m = Some c /\ ls !! c = Some l /\ l !! cut M l i = Some e) /\
      placed (children_ m)
        (λ _ l, match direction_ m with kForward => cut M l i | kReverse => rcut M l (S i) end)
  | None => i = length M /\ current_ m = None /\ exists P, placed (children_ m) P
  end.

Lemma forward_pos children i :
  (i <= length M)%nat -> placed children (λ _ l, cut M l i) -> mpos (forward children) i.
Proof.
  intros Hi Hp. unfold mpos, forward. cbn [current_ children_ direction_].
  pose proof (find_smallest_at children i Hp) as Hs. destruct (M !! i) as [e|] eqn:E.
  - split; [|done]. destruct Hs as (c & l & ? & ? & ?). eauto.
  - apply lookup_ge_None in E. split; [lia|]. eauto.
Qed.

Lemma backward_pos children i :
  (i <= length M)%nat -> placed children (λ _ l, rcut M l i) ->
  mpos (backward children) (if i is S j then j else length M).
Proof.
  intros Hi Hp. unfold mpos, backward. cbn [current_ children_ direction_].
  pose proof (find_largest_at children i Hi Hp) as Hs. destruct i as [|j].
  - rewrite lookup_ge_None_2 by done. eauto.
  - destruct (lookup_lt_is_Some_2 M j) as [e E]; [lia|]. rewrite E in *. split; [|done].
    destruct Hs as (c & l & Hc & Hl & He & Hcut). exists c, l. by rewrite Hcut.
Qed.

Lemma mpos_placed m i : mpos m i -> exists P, placed (children_ m) P.
Proof. unfold mpos. destruct (M !! i); [intros [_ ?]|intros (_ & _ & ?)]; eauto. Qed.

(** The child that has entry [i] alone moves between positions [i] and [S i]. *)
Lemma cut_step i e c l c' l' :
  M !! i = Some e -> ls !! c = Some l -> l !! cut M l i = Some e -> ls !! c' = Some l' ->
  cut M l' (S i) = if decide (c' = c) then S (cut M l' i) else cut M l' i.
Proof.
  destruct e as [k v]. intros Hi Hl He Hl'. rewrite (cut_S i k v c' l' Hi Hl').
  assert ((k, v) ∈ l) as Hin by (by eapply list_elem_of_lookup_2).
  destruct (decide (c' = c)) as [->|Hne]; [assert (l' = l) as -> by congruence|];
    case_decide as Hin'; try done.
  destruct Hne. by eapply (mg_once _ _ MG _ _ l' l k v v).
Qed.

(** What a child does when it is told to seek [k], the key at [i]. *)
Lemma seek_child c l ch p i k v :
  ls !! c = Some l -> M !! i = Some (k, v) -> pos c ch p ->
  exists ch', it_seek ops ch k = Some ch' /\ pos c ch' (cut M l i).
Proof.
  intros Hl Hi Hp. pose proof (Hchildren c l Hl) as SI. unfold cut. rewrite Hi.
  eapply (si_seek ch p k); [done|]. eapply (mg_keys _ _ MG k v). by eapply list_elem_of_lookup_2.
Qed.

Lemma step_before_child c l ch p i k v :
  ls !! c = Some l -> M !! i = Some (k, v) -> pos c ch p ->
  exists ch', step_before k ch = Some ch' /\ pos c ch' (rcut M l i).
Proof.
  intros Hl Hi Hp. pose proof (Hchildren c l Hl) as SI. unfold step_before.
  destruct (seek_child c l ch p i k v Hl Hi Hp) as (ch' & -> & Hp'). cbn [mbind option_bind].
  rewrite (si_valid ch' _ Hp'). destruct (Nat.ltb_spec (cut M l i) (length l)) as [Hlt|Hge].
  - by apply (si_prev ch').
  - pose proof (cut_le l i). destruct (si_last ch' _ Hp') as (ch2 & E2 & Hp2).
    exists ch2. split; [done|]. unfold rcut. replace (cut M l i) with (length l) by lia.
    by destruct (length l).
Qed.

Lemma mpos_key m i k v : mpos m i -> M !! i = Some (k, v) -> key m = Some k /\ value m = Some v.
Proof.
  unfold mpos. intros Hm Hi. rewrite Hi in Hm. destruct Hm as [(c & l & Hc & Hl & He) Hp].
  destruct (placed_lookup _ _ _ _ Hp Hl) as (ch & Hch & _).
  destruct (placed_entry _ _ _ _ _ Hp Hch Hl) as (_ & _ & Hkv).
  assert (rcut M l (S i) = cut M l i) as Hr.
  { unfold rcut. rewrite (cut_step i _ c l c l Hi Hl He Hl). by rewrite decide_True. }
  destruct (Hkv k v) as [Ek Ev]; [by destruct (direction_ m); rewrite ?Hr|].
  unfold key, value, current_child. rewrite Hc. cbn [mbind option_bind]. rewrite Hch. cbn.
  by rewrite Ek.
Qed.

Lemma next_pos m i :
  mpos m i -> (i < length M)%nat -> exists m', next m = Some m' /\ mpos m' (S i).
Proof.
  intros Hm Hi. destruct (lookup_lt_is_Some_2 M i Hi) as [[k v] E].
  destruct (mpos_key _ _ _ _ Hm E) as [Hk _]. unfold mpos in Hm. rewrite E in Hm.
  destruct Hm as [(c & l & Hc & Hl & He) Hp].
  unfold next. rewrite Hc, Hk. cbn [mbind option_bind].
  assert (exists ch1, match direction_ m with
    | kForward => Some (children_ m)
    | kReverse => for_each (unless_current c (λ child, it_seek ops child k)) 0 (children_ m)
    end = Some ch1 /\ placed ch1 (λ _ l, cut M l i)) as (ch1 & -> & Hp1).
  { destruct (direction_ m); [by eauto|]. eapply for_each_placed; [exact Hp|].
    intros c' ch l' Hch Hl' Hpos. unfold unless_current.
    destruct (Nat.eqb_spec c' c) as [->|Hne]; [|by eapply seek_child].
    exists ch. split; [done|]. revert Hpos. unfold rcut.
    rewrite (cut_step i _ c l c l' E Hl He Hl'). by rewrite decide_True. }
  cbn [mbind option_bind].
  destruct (for_each_placed (only_current c (it_next ops)) ch1 _ (λ _ l, cut M l (S i)) Hp1)
    as (ch2 & -> & Hp2); [|cbn [mbind option_bind]; eexists; split; [done|]; by apply forward_pos].
  intros c' ch l' Hch Hl' Hpos. unfold only_current. rewrite (cut_step i _ c l c' l' E Hl He Hl').
  destruct (Nat.eqb_spec c' c) as [->|Hne].
  - rewrite decide_True by done. assert (l' = l) as -> by congruence.
    apply (si_next (SortedIteratorUpTo := Hchildren c l Hl) ch _ Hpos). by eapply lookup_lt_Some.
  - rewrite decide_False by done. eauto.
Qed.

Lemma prev_pos m i :
  mpos m i -> (i < length M)%nat ->
  exists m', prev m = Some m' /\ mpos m' (if i is S j then j else length M).
Proof.
  intros Hm Hi. destruct (lookup_lt_is_Some_2 M i Hi) as [[k v] E].
  destruct (mpos_key _ _ _ _ Hm E) as [Hk _]. unfold mpos in Hm. rewrite E in Hm.
  destruct Hm as [(c & l & Hc & Hl & He) Hp].
  unfold prev. rewrite Hc, Hk. cbn [mbind option_bind].
  assert (exists ch1, match direction_ m with
    | kReverse => Some (children_ m)
    | kForward => for_each (unless_current c (step_before k)) 0 (children_ m)
    end = Some ch1 /\ placed ch1 (λ c' l, if decide (c' = c) then cut M l i else rcut M l i))
    as (ch1 & -> & Hp1).
  { destruct (direction_ m).
    - eapply for_each_placed; [exact Hp|]. intros c' ch l' Hch Hl' Hpos. unfold unless_current.
      destruct (Nat.eqb_spec c' c) as [->|Hne].
      + rewrite decide_True by done. eauto.
      + rewrite decide_False by done. by eapply step_before_child.
    - eexists. split; [done|]. destruct Hp as [Hlen Hp]. split; [done|]. intros c' ch l' Hch Hl'.
      pose proof (Hp _ _ _ Hch Hl') as Hpos. unfold rcut in Hpos |- *.
      rewrite (cut_step i _ c l c' l' E Hl He Hl') in Hpos. by destruct (decide (c' = c)). }
  cbn [mbind option_bind].
  destruct (for_each_placed (only_current c (it_prev ops)) ch1 _ (λ _ l, rcut M l i) Hp1)
    as (ch2 & -> & Hp2); [|cbn [mbind option_bind]; eexists; split; [done|]; apply backward_pos; [lia|done]].
  intros c' ch l' Hch Hl' Hpos. unfold only_current. destruct (Nat.eqb_spec c' c) as [->|Hne].
  - rewrite decide_True in Hpos by done. assert (l' = l) as -> by congruence.
    apply (si_prev (SortedIteratorUpTo := Hchildren c l Hl) ch _ Hpos). by eapply lookup_lt_Some.
  - rewrite decide_False in Hpos by done. eauto.
Qed.

Lemma status_placed children P : placed children P -> first_failure children = ok.
Proof.
  intros Hp. assert (forall c ch, children !! c = Some ch -> it_status ops ch = ok) as Hall.
  { intros c ch Hch. destruct (lookup_lt_is_Some_2 ls c) as [l Hl].
    { destruct Hp as [<- _]. by eapply lookup_lt_Some. }
    by destruct (placed_entry _ _ _ _ _ Hp Hch Hl) as (_ & ? & _). }
  clear Hp. induction children as [|ch rest IH]; cbn [first_failure]; [done|].
  rewrite (Hall 0%nat ch eq_refl). cbn. apply IH. intros c ch' H. by apply (Hall (S c)).
Qed.

#[global] Instance merging_iterator_sorted : SortedIterator merging_iterator comparator_ M mpos.
Proof.
  constructor; unfold merging_iterator;
    cbn [it_valid it_key it_value it_status it_next it_prev it_seek it_seek_to_first it_seek_to_last].
  - intros m i Hm. unfold mpos in Hm. destruct (M !! i) eqn:E.
    + apply lookup_lt_Some in E. lia.
    + destruct Hm. lia.
  - intros m i Hm. unfold mpos in Hm. unfold valid. destruct (M !! i) eqn:E.
    + destruct Hm as [(c & l & -> & _) _]. apply lookup_lt_Some in E.
      rewrite (proj2 (Nat.ltb_lt _ _)) by done. by apply bool_decide_eq_true.
    + destruct Hm as (-> & -> & _). rewrite Nat.ltb_irrefl. by apply bool_decide_eq_false.
  - intros m i k v Hm Hi. destruct (mpos_key _ _ _ _ Hm Hi) as [-> ->]. done.
  - intros m i (P & HP)%mpos_placed. by eapply status_placed.
  - apply next_pos.
  - apply prev_pos.
  - intros m i (P & HP)%mpos_placed. unfold seek_to_first.
    destruct (for_each_placed (λ _, it_seek_to_first ops) (children_ m) P (λ _ l, cut M l 0) HP)
      as (out & -> & Hout); [|cbn; eexists; split; [done|]; apply forward_pos; [lia|done]].
    intros c ch l Hch Hl Hpos. rewrite (cut_0 c l Hl).
    apply (si_first (SortedIteratorUpTo := Hchildren c l Hl) ch _ Hpos).
  - intros m i (P & HP)%mpos_placed. unfold seek_to_last.
    destruct (for_each_placed (λ _, it_seek_to_last ops) (children_ m) P (λ _ l, rcut M l (length M)) HP)
      as (out & -> & Hout).
    + intros c ch l Hch Hl Hpos. unfold rcut. rewrite cut_end by done.
      destruct (si_last (SortedIteratorUpTo := Hchildren c l Hl) ch _ Hpos) as (ch' & -> & Hp').
      eexists. split; [done|]. by destruct (length l).
    + cbn. eexists. split; [done|]. pose proof (backward_pos out (length M) ltac:(lia) Hout) as Hb.
      by destruct (length M).
  - intros m i target (P & HP)%mpos_placed Ht. unfold seek.
    destruct (for_each_placed (λ _ child, it_seek ops child target) (children_ m) P
      (λ _ l, cut M l (lower_bound comparator_ M target)) HP) as (out & -> & Hout);
      [|cbn; eexists; split; [done|]; apply forward_pos; [apply lower_bound_le|done]].
    intros c ch l Hch Hl Hpos. rewrite <- (cut_seek c l target Hl).
    apply (si_seek (SortedIteratorUpTo := Hchildren c l Hl) ch _ _ Hpos Ht).
Qed.
End Proofs.
End Merger.

(** * Theorem *)

(** C19. The merging iterator is an iterator over the merge: whatever its
    children are, as long as each is an iterator over a sorted list and no
    key is in two of them, every sequence of seeks, [next]s and [prev]s -
    changes of direction anywhere included - leaves it showing what a cursor
    over the merged list would show, neither skipping nor repeating an
    entry, with an ok status. *)
Theorem merging_iterator_is_the_merge {I} (ops : Iterator I) cmp `{!ComparatorLaws cmp}
    ls M pos children start ms j :
  merges cmp ls M ->
  (forall c l, ls !! c = Some l -> SortedIterator ops cmp l (pos c)) ->
  length children = length ls ->
  (forall c child, children !! c = Some child -> pos c child (start c)) ->
  cursor_calls (2 ^ 32) cmp M (length M) ms = Some j ->
  exists m, calls (merging_iterator ops cmp) (MergingIterator_new children) ms = Some m /\
    shows (merging_iterator ops cmp) m M j.
Proof.
  intros MG Hc Hlen Hstart Hj.
  pose proof (merging_iterator_sorted ops cmp ls M MG pos Hc) as SI.
  destruct (si_calls (2 ^ 32) _ cmp M _ ms (MergingIterator_new children) (length M) j) as (m & E & Hm).
  - unfold mpos. rewrite lookup_ge_None_2 by done. split_and!; [done|done|].
    exists (λ c _, start c). split; [done|]. intros c ch l Hch _. by apply Hstart.
  - done.
  - exists m. split; [done|]. by eapply si_shows.
Qed.

Definition sample_children : list (list (bytes * bytes)) :=
  [[([x61], [x31]); ([x64], [x34])]; []; [([x62], [x32]); ([x63], [x33])]].
Definition sample_merge : list (bytes * bytes) :=
  [([x61], [x31]); ([x62], [x32]); ([x63], [x33]); ([x64], [x34])].

Lemma sample_merges : merges kBytewise sample_children sample_merge.
Proof.
  constructor.
  - repeat constructor.
  - intros [|[|[|c]]] l; cbn; intros; simplify_eq; repeat constructor.
  - intros [|[|[|c]]] l e; cbn; intros; simplify_eq; elem_cases;
      repeat first [apply list_elem_of_here|apply list_elem_of_further].
  - unfold sample_merge. intros e H. elem_cases;
      [exists 0%nat|exists 2%nat|exists 2%nat|exists 0%nat]; eexists; (split; [done|]);
      repeat first [apply list_elem_of_here|apply list_elem_of_further].
  - intros [|[|[|c]]] [|[|[|c']]] l l' k v v'; cbn; intros; simplify_eq; elem_cases; done.
  - unfold sample_merge. intros k v H. elem_cases; done.
Qed.

(** Forwards to the third entry, back over two, then forwards again. *)
Lemma merging_iterator_is_the_merge_witness :
  exists m, calls (merging_iterator (list_iterator kBytewise) kBytewise)
      (MergingIterator_new ((λ l, (l, 0%nat)) <$> sample_children))
      [Seek [x62]; Next; Prev; Prev; Next; Next] = Some m /\
    shows (merging_iterator (list_iterator kBytewise) kBytewise) m sample_merge 2.
Proof.
  apply (merging_iterator_is_the_merge (list_iterator kBytewise) kBytewise sample_children sample_merge
    (λ c it i, it = (default [] (sample_children !! c), i) /\
       (i <= length (default [] (sample_children !! c)))%nat) _ (λ _, 0%nat)).
  - exact sample_merges.
  - intros c l Hl. rewrite Hl. apply list_iterator_sorted.
  - reflexivity.
  - intros c child H. rewrite list_lookup_fmap in H.
    destruct (sample_children !! c); [|discriminate H]. injection H as <-. split; [done|lia].
  - reflexivity.
Defined.
End Merger.
