(* ===== verification/TwoLevelIterator.v ===== *)
(** The two-level iterator (src/src/two_level_iterator.hpp,
    src/src/two_level_iterator.cpp): an index whose values name blocks, and
    the block under the index entry.

    [function_] turns an index value into an iterator, as the source's
    callback does.  The skip loops take a fuel, one round per index entry;
    [None] is undefined behaviour in either level or fuel run out, which the
    theorem excludes. *)
From S2P Require Import Prelude Status Comparator Iterator.
Import Status Comparator Iterator.

Module TwoLevelIterator.

Section TwoLevel.
Context {I D : Type} (index_ops : Iterator I) (data_ops : Iterator D).
Context (function_ : bytes -> D) (fuel : nat).

Record TwoLevelIterator := mkTwoLevel {
  status_ : Status;
  index_iter_ : I;
  data_iter_ : option D;
  data_block_handle_ : bytes
}.

Definition TwoLevelIterator_new (index_iter : I) : TwoLevelIterator :=
  mkTwoLevel ok index_iter None [].

(** [data_iter_ != nullptr && data_iter_->valid()]. *)
Definition valid (t : TwoLevelIterator) : bool :=
  match data_iter_ t with Some d => it_valid data_ops d | None => false end.
Definition key (t : TwoLevelIterator) : option bytes := it_key data_ops <$> data_iter_ t.
Definition value (t : TwoLevelIterator) : option bytes := d ← data_iter_ t; it_value data_ops d.

Definition status (t : TwoLevelIterator) : Status :=
  if negb (is_ok (it_status index_ops (index_iter_ t))) then it_status index_ops (index_iter_ t)
  else match data_iter_ t with
       | Some d => if negb (is_ok (it_status data_ops d)) then it_status data_ops d else status_ t
       | None => status_ t
       end.

Definition save_error (t : TwoLevelIterator) (status : Status) : TwoLevelIterator :=
  if is_ok (status_ t) && negb (is_ok status)
  then mkTwoLevel status (index_iter_ t) (data_iter_ t) (data_block_handle_ t) else t.

(** [if (data_iter_ != nullptr) save_error(data_iter_->status())]. *)
Definition save_data_error (t : TwoLevelIterator) : TwoLevelIterator :=
  match data_iter_ t with Some d => save_error t (it_status data_ops d) | None => t end.

Definition set_data_iterator (t : TwoLevelIterator) (iter : option D) : TwoLevelIterator :=
  let t := save_data_error t in
  mkTwoLevel (status_ t) (index_iter_ t) iter (data_block_handle_ t).

Definition init_data_block (t : TwoLevelIterator) : option TwoLevelIterator :=
  if negb (it_valid index_ops (index_iter_ t)) then Some (set_data_iterator t None)
  else
    handle ← it_value index_ops (index_iter_ t);
    if bool_decide (is_Some (data_iter_ t)) && bool_decide (handle = data_block_handle_ t) then Some t
    else
      let t := mkTwoLevel (status_ t) (index_iter_ t) (data_iter_ t) handle in
      Some (set_data_iterator t (Some (function_ handle))).

Definition on_index (t : TwoLevelIterator) (f : I -> option I) : option TwoLevelIterator :=
  index_iter ← f (index_iter_ t);
  Some (mkTwoLevel (status_ t) index_iter (data_iter_ t) (data_block_handle_ t)).
(** [if (data_iter_ != nullptr) data_iter_->...]. *)
Definition on_data (t : TwoLevelIterator) (f : D -> option D) : option TwoLevelIterator :=
  match data_iter_ t with
  | None => Some t
  | Some d => d ← f d; Some (mkTwoLevel (status_ t) (index_iter_ t) (Some d) (data_block_handle_ t))
  end.

(** The two skip loops differ in how the index moves and where a block is
    entered. *)
Fixpoint skip_empty_blocks (move_index : I -> option I) (enter : D -> option D) (fuel : nat)
    (t : TwoLevelIterator) : option TwoLevelIterator :=
  match fuel with
  | O => None
  | S fuel' =>
      if valid t then Some t
      else
        let t := save_data_error t in
        if negb (it_valid index_ops (index_iter_ t)) then Some (set_data_iterator t None)
        else
          t ← on_index t move_index;
          t ← init_data_block t;
          t ← on_data t enter;
          skip_empty_blocks move_index enter fuel' t
  end.
Definition skip_empty_blocks_forward : TwoLevelIterator -> option TwoLevelIterator :=
  skip_empty_blocks (it_next index_ops) (it_seek_to_first data_ops) fuel.
Definition skip_empty_blocks_backward : TwoLevelIterator -> option TwoLevelIterator :=
  skip_empty_blocks (it_prev index_ops) (it_seek_to_last data_ops) fuel.

Definition seek (t : TwoLevelIterator) (target : bytes) : option TwoLevelIterator :=
  t ← on_index t (λ index, it_seek index_ops index target);
  t ← init_data_block t;
  t ← on_data t (λ data, it_seek data_ops data target);
  skip_empty_blocks_forward t.
Definition seek_to_first (t : TwoLevelIterator) : option TwoLevelIterator :=
  t ← on_index t (it_seek_to_first index_ops);
  t ← init_data_block t;
  t ← on_data t (it_seek_to_first data_ops);
  skip_empty_blocks_forward t.
Definition seek_to_last (t : TwoLevelIterator) : option TwoLevelIterator :=
  t ← on_index t (it_seek_to_last index_ops);
  t ← init_data_block t;
  t ← on_data t (it_seek_to_last data_ops);
  skip_empty_blocks_backward t.

(** [next] and [prev] dereference [data_iter_]. *)
Definition next (t : TwoLevelIterator) : option TwoLevelIterator :=
  _ ← data_iter_ t;
  t ← on_data t (it_next data_ops);
  skip_empty_blocks_forward t.
Definition prev (t : TwoLevelIterator) : option TwoLevelIterator :=
  _ ← data_iter_ t;
  t ← on_data t (it_prev data_ops);
  skip_empty_blocks_backward t.

Definition two_level_iterator : Iterator TwoLevelIterator :=
  mkIterator TwoLevelIterator valid seek_to_first seek_to_last seek next prev
    (λ t, default [] (key t)) value status.
Definition new_two_level_iterator (index_iter : I) : TwoLevelIterator := TwoLevelIterator_new index_iter.

(** * An index over sorted blocks *)

(** [block_of] is what a handle refers to.  The index key of a block is at or
    above every key in it and below every key of the blocks after it. *)
Record indexes (cmp : Comparator) (block_of : bytes -> list (bytes * bytes))
    (idx : list (bytes * bytes)) : Prop := {
  ix_readable i sep h : idx !! i = Some (sep, h) -> readable cmp sep;
  ix_sorted : sorted_by cmp (concat (block_of ∘ snd <$> idx));
  ix_above i sep h k v : idx !! i = Some (sep, h) -> (k, v) ∈ block_of h ->
    readable cmp k /\ key_le cmp k sep;
  ix_below i j sep h sep' h' k v : (i < j)%nat -> idx !! i = Some (sep, h) ->
    idx !! j = Some (sep', h') -> (k, v) ∈ block_of h' -> key_lt cmp sep k
}.

Section Proofs.
Context (cmp : Comparator) `{!ComparatorLaws cmp}.
Context (block_of : bytes -> list (bytes * bytes)) (idx : list (bytes * bytes)).
Context (IX : indexes cmp block_of idx).
Context (ipos : I -> nat -> Prop) {HI : SortedIterator index_ops cmp idx ipos}.
Context (dpos : bytes -> D -> nat -> Prop).
Context (HD : forall i sep h, idx !! i = Some (sep, h) ->
  SortedIterator data_ops cmp (block_of h) (dpos h) /\ exists p, dpos h (function_ h) p).
Context (Hfuel : (length idx < fuel)%nat).

Abbreviation blocks := (block_of ∘ snd <$> idx).
Abbreviation L := (concat blocks).
(** Where block [j] starts. *)
Definition offset (j : nat) : nat := length (concat (take j blocks)).

Lemma block_split j sep h :
  idx !! j = Some (sep, h) ->
  L = concat (take j blocks) ++ block_of h ++ concat (drop (S j) blocks).
Proof.
  intros Hj. assert (blocks !! j = Some (block_of h)) as Hb by (by rewrite list_lookup_fmap, Hj).
  rewrite <- (take_drop_middle blocks j _ Hb) at 1. by rewrite concat_app.
Qed.

Lemma offset_S j sep h : idx !! j = Some (sep, h) -> offset (S j) = (offset j + length (block_of h))%nat.
Proof.
  intros Hj. unfold offset. assert (blocks !! j = Some (block_of h)) as Hb by (by rewrite list_lookup_fmap, Hj).
  rewrite (take_S_r _ _ _ Hb), concat_app, length_app. cbn [concat]. by rewrite app_nil_r.
Qed.
Lemma offset_end j : (length idx <= j)%nat -> offset j = length L.
Proof. intros H. unfold offset. rewrite take_ge; [done|]. by rewrite length_fmap. Qed.

Lemma block_lookup j sep h p :
  idx !! j = Some (sep, h) -> (p < length (block_of h))%nat -> L !! (offset j + p)%nat = block_of h !! p.
Proof using. clear Hfuel.
  intros Hj Hp. rewrite (block_split j sep h Hj). unfold offset.
  rewrite lookup_app_r by lia. rewrite Nat.add_sub_swap, Nat.sub_diag by lia. by apply lookup_app_l.
Qed.

Lemma block_bound j sep h : idx !! j = Some (sep, h) -> (offset j + length (block_of h) <= length L)%nat.
Proof. clear Hfuel. intros Hj. rewrite (block_split j sep h Hj), !length_app. unfold offset. lia. Qed.

(** A seek of the index and of the block it lands on is a seek of all. *)
Lemma lower_bound_app l1 l2 t :
  (forall k v, (k, v) ∈ l1 -> key_lt cmp k t) ->
  lower_bound cmp (l1 ++ l2) t = (length l1 + lower_bound cmp l2 t)%nat.
Proof.
  induction l1 as [|[k v] l1 IH]; intros H; [done|]. cbn [app lower_bound length].
  rewrite (H k v) by left. rewrite IH; [done|]. intros k' v' Hin. apply (H k' v'). by right.
Qed.
Lemma lower_bound_app_l l1 l2 t :
  (forall k v, (k, v) ∈ l2 -> ~ key_lt cmp k t) -> lower_bound cmp (l1 ++ l2) t = lower_bound cmp l1 t.
Proof.
  intros H. induction l1 as [|[k v] l1 IH]; cbn [app lower_bound].
  - destruct l2 as [|[k v] l2]; [done|]. cbn [lower_bound]. specialize (H k v ltac:(left)).
    unfold key_lt in H. by destruct (compare cmp k t).
  - by rewrite IH.
Qed.

Lemma in_blocks e (js : list (bytes * bytes)) :
  e ∈ concat (block_of ∘ snd <$> js) -> exists j sep h, js !! j = Some (sep, h) /\ e ∈ block_of h.
Proof.
  intros He. apply list_elem_of_In, in_concat in He as (l & Hl & He).
  apply list_elem_of_In, list_elem_of_fmap in Hl as ([sep h] & -> & Hin).
  apply list_elem_of_lookup in Hin as [j Hj]. exists j, sep, h. split; [done|]. by apply list_elem_of_In.
Qed.

Lemma index_seek target :
  match idx !! lower_bound cmp idx target with
  | Some (_, h) => lower_bound cmp L target =
      (offset (lower_bound cmp idx target) + lower_bound cmp (block_of h) target)%nat
  | None => lower_bound cmp L target = length L
  end.
Proof using IX ComparatorLaws0. clear Hfuel.
  set (j := lower_bound cmp idx target).
  assert (forall i k v, (i < j)%nat -> forall sep h, idx !! i = Some (sep, h) -> (k, v) ∈ block_of h ->
    key_lt cmp k target) as Hbefore.
  { intros i k v Hi sep h Hih Hin. destruct (ix_above _ _ _ IX i sep h k v Hih Hin) as [Hr Hle].
    eapply key_le_lt_trans; [exact Hr|by eapply IX|exact Hle|]. by eapply lower_bound_below. }
  assert (forall k v, (k, v) ∈ concat (take j blocks) -> key_lt cmp k target) as Htake.
  { intros k v Hin. rewrite <- fmap_take in Hin. apply in_blocks in Hin as (i & sep & h & Hi & Hin).
    apply lookup_take_Some in Hi as [Hi Hlt]. by eapply (Hbefore i k v Hlt sep h). }
  destruct (idx !! j) as [[sep h]|] eqn:Ej.
  - rewrite (block_split j sep h Ej), lower_bound_app by done. fold (offset j). f_equal.
    apply lower_bound_app_l. intros k v Hin Hlt. rewrite <- fmap_drop in Hin.
    apply in_blocks in Hin as (i & sep' & h' & Hi & Hin).
    rewrite lookup_drop in Hi.
    pose proof (ix_below _ _ _ IX j (S j + i) sep h sep' h' k v ltac:(lia) Ej Hi Hin) as Hsep.
    eapply (lower_bound_at cmp idx target sep h Ej). by eapply key_lt_trans.
  - apply lookup_ge_None in Ej. rewrite <- (app_nil_r L). rewrite lower_bound_app.
    + cbn. rewrite app_nil_r. lia.
    + intros k v Hin. apply (Htake k v). rewrite take_ge; [done|]. by rewrite length_fmap.
Qed.

(** ** Positions *)

(** The open block, if any, is one of the index's. *)
Definition open_ok (t : TwoLevelIterator) : Prop :=
  status_ t = ok /\
  forall d, data_iter_ t = Some d ->
    exists i sep p, idx !! i = Some (sep, data_block_handle_ t) /\ dpos (data_block_handle_ t) d p.

(** The index stands at [j] and the block under it, open, at [p]. *)
Definition at_block (t : TwoLevelIterator) (j p : nat) : Prop :=
  status_ t = ok /\ ipos (index_iter_ t) j /\
  match idx !! j with
  | Some (_, h) => data_block_handle_ t = h /\ exists d, data_iter_ t = Some d /\ dpos h d p
  | None => data_iter_ t = None
  end.

Definition tpos (t : TwoLevelIterator) (i : nat) : Prop :=
  exists j p, at_block t j p /\
    match idx !! j with
    | Some (_, h) => (p < length (block_of h))%nat /\ i = (offset j + p)%nat
    | None => i = length L
    end \/
  (status_ t = ok /\ ipos (index_iter_ t) j /\ data_iter_ t = None /\ i = length L).

Lemma at_block_open t j p : at_block t j p -> open_ok t.
Proof.
  intros (Hs & _ & Hd). split; [done|]. intros d E. destruct (idx !! j) as [[sep h]|] eqn:Ej; [|congruence].
  destruct Hd as (<- & d' & E' & Hp). assert (d' = d) as -> by congruence. eauto.
Qed.
Lemma tpos_open t i : tpos t i -> open_ok t /\ exists j, ipos (index_iter_ t) j.
Proof.
  intros (j & p & [[H Hi]|(Hs & Hi & Hd & _)]).
  - split; [by eapply at_block_open|]. destruct H as (_ & H & _). eauto.
  - split; [|by eauto]. split; [done|]. intros d E. congruence.
Qed.

Lemma data_status t : open_ok t -> forall d, data_iter_ t = Some d -> it_status data_ops d = ok.
Proof.
  intros [_ H] d E. destruct (H d E) as (i & sep & p & Hi & Hp). destruct (HD _ _ _ Hi) as [SI _].
  by eapply si_status.
Qed.
Lemma save_data_error_ok t : open_ok t -> save_data_error t = t.
Proof.
  intros H. unfold save_data_error. destruct (data_iter_ t) as [d|] eqn:E; [|done].
  rewrite (data_status t H d E). unfold save_error. cbn. by rewrite andb_false_r.
Qed.

(** Moving the index and entering the block it lands on. *)
Lemma reopen t move enter j P K :
  open_ok t ->
  (exists index, move (index_iter_ t) = Some index /\ ipos index j) ->
  (forall i sep h d p, idx !! i = Some (sep, h) -> dpos h d p ->
    exists d', enter d = Some d' /\ dpos h d' (P h)) ->
  exists t' p, ((t ← on_index t move; t ← init_data_block t; t ← on_data t enter; K t) =
      (K t' : option TwoLevelIterator)) /\ at_block t' j p /\
    forall sep h, idx !! j = Some (sep, h) -> p = P h.
Proof.
  intros Ho (index & Em & Hij) Henter. unfold on_index. rewrite Em. cbn [mbind option_bind].
  set (t1 := mkTwoLevel _ _ _ _).
  assert (open_ok t1) as Ho1 by exact Ho. pose proof Ho1 as [Hs Hopen].
  unfold init_data_block. change (index_iter_ t1) with index. rewrite (si_valid index j Hij).
  destruct (Nat.ltb_spec j (length idx)) as [Hlt|Hge]; cbn [negb].
  - destruct (lookup_lt_is_Some_2 idx j Hlt) as [[sep h] Ej].
    destruct (si_entry index j sep h Hij Ej) as [_ ->]. cbn [mbind option_bind].
    assert (exists t2 d p, (if bool_decide (is_Some (data_iter_ t1)) && bool_decide (h = data_block_handle_ t1)
        then Some t1
        else Some (set_data_iterator (mkTwoLevel (status_ t1) index (data_iter_ t1) h) (Some (function_ h))))
        = Some t2 /\ status_ t2 = ok /\ index_iter_ t2 = index /\ data_block_handle_ t2 = h /\
        data_iter_ t2 = Some d /\ dpos h d p) as (t2 & d & p & -> & Hs2 & Hi2 & Hh2 & Hd2 & Hp2).
    { destruct (data_iter_ t1) as [d|] eqn:Ed.
      - destruct (Hopen d eq_refl) as (i & sep' & p & Hi & Hp).
        destruct (bool_decide_reflect (h = data_block_handle_ t1)) as [->|]; cbn [andb].
        + exists t1, d, p. by rewrite bool_decide_true by (by eexists).
        + rewrite andb_false_r. destruct (HD _ _ _ Ej) as [_ [p' Hp']].
          eexists _, _, p'. split; [done|]. unfold set_data_iterator, save_data_error. cbn [data_iter_].
          rewrite (data_status t1 Ho1 d Ed). unfold save_error. cbn. rewrite andb_false_r. by rewrite <- Hs.
      - destruct (HD _ _ _ Ej) as [_ [p' Hp']]. eexists _, _, p'. cbn [andb]. by rewrite <- Hs. }
    cbn [mbind option_bind]. unfold on_data. rewrite Hd2.
    destruct (Henter j sep h d p Ej Hp2) as (d' & -> & Hp'). cbn [mbind option_bind].
    eexists _, (P h). split; [done|]. split; [|intros ? ? ?; congruence].
    split; [done|]. cbn [index_iter_ data_block_handle_ data_iter_]. rewrite Hi2, Ej. eauto.
  - cbn [mbind option_bind]. unfold set_data_iterator. rewrite save_data_error_ok by done.
    unfold on_data. cbn [data_iter_]. cbn [mbind option_bind]. apply lookup_ge_None in Hge.
    eexists _, 0%nat. split; [done|]. split; [|by rewrite Hge]. split; [done|]. cbn. by rewrite Hge.
Qed.

Lemma at_block_valid t j p :
  at_block t j p -> valid t = match idx !! j with Some (_, h) => (p <? length (block_of h))%nat | None => false end.
Proof.
  intros (_ & _ & H). unfold valid. destruct (idx !! j) as [[sep h]|] eqn:Ej; [|by rewrite H].
  destruct H as (_ & d & -> & Hp). destruct (HD _ _ _ Ej) as [SI _]. by apply si_valid.
Qed.

(** A loop that finds the index exhausted. *)
Lemma skip_exhausted move enter n t j p :
  at_block t j p -> idx !! j = None ->
  exists t', skip_empty_blocks move enter (S n) t = Some t' /\ tpos t' (length L).
Proof.
  intros Hb Ej. cbn [skip_empty_blocks]. rewrite (at_block_valid _ _ _ Hb), Ej.
  rewrite (save_data_error_ok t) by (by eapply at_block_open). destruct Hb as (Hs & Hi & Hd).
  rewrite Ej in Hd. rewrite (si_valid _ _ Hi), (proj2 (Nat.ltb_ge _ _)) by (by apply lookup_ge_None).
  cbn [negb]. eexists. split; [done|]. exists j, p. right. unfold set_data_iterator, save_data_error.
  by rewrite Hd.
Qed.

(** A loop that finds the block valid. *)
Lemma skip_valid move enter n t j p sep h :
  at_block t j p -> idx !! j = Some (sep, h) -> (p < length (block_of h))%nat ->
  exists t', skip_empty_blocks move enter (S n) t = Some t' /\ tpos t' (offset j + p)%nat.
Proof.
  intros Hb Ej Hp. cbn [skip_empty_blocks]. rewrite (at_block_valid _ _ _ Hb), Ej.
  rewrite (proj2 (Nat.ltb_lt _ _)) by done. exists t. split; [done|]. exists j, p. left.
  split; [done|]. by rewrite Ej.
Qed.

(** A loop that leaves an exhausted block. *)
Lemma skip_round move enter n t j j' p sep h P :
  at_block t j p -> idx !! j = Some (sep, h) -> (length (block_of h) <= p)%nat ->
  (forall index, ipos index j -> exists index', move index = Some index' /\ ipos index' j') ->
  (forall i sep h d p, idx !! i = Some (sep, h) -> dpos h d p ->
    exists d', enter d = Some d' /\ dpos h d' (P h)) ->
  exists t' p', skip_empty_blocks move enter (S n) t = skip_empty_blocks move enter n t' /\
    at_block t' j' p' /\ forall sep h, idx !! j' = Some (sep, h) -> p' = P h.
Proof.
  intros Hb Ej Hp Hm He. cbn [skip_empty_blocks]. rewrite (at_block_valid _ _ _ Hb), Ej.
  rewrite (proj2 (Nat.ltb_ge _ _)) by done. pose proof (at_block_open _ _ _ Hb) as Ho.
  rewrite (save_data_error_ok t) by done. destruct Hb as (Hs & Hi & Hd).
  rewrite (si_valid _ _ Hi), (proj2 (Nat.ltb_lt _ _)) by (by eapply lookup_lt_Some). cbn [negb].
  apply (reopen t move enter j' P (skip_empty_blocks move enter n)); auto.
Qed.

Lemma skip_forward_pos n t j p :
  at_block t j p -> (length idx < n + j)%nat -> (0 < n)%nat ->
  exists t', skip_empty_blocks (it_next index_ops) (it_seek_to_first data_ops) n t = Some t' /\
    tpos t' (match idx !! j with Some _ => offset j + p | None => length L end)%nat.
Proof.
  revert t j p. induction n as [|n IH]; intros t j p Hb Hn Hpos; [lia|].
  destruct (idx !! j) as [[sep h]|] eqn:Ej; [|by eapply skip_exhausted].
  pose proof (lookup_lt_Some _ _ _ Ej) as Hj.
  destruct (decide (p < length (block_of h))%nat) as [Hp|Hp]; [by eapply skip_valid|].
  destruct (skip_round (it_next index_ops) (it_seek_to_first data_ops) n t j (S j) p sep h (λ _, 0%nat))
    as (t' & p' & -> & Hb' & Hp'); [done|done|lia| | |].
  { intros index Hi. by apply si_next. }
  { intros i sep' h' d q Hi Hd. destruct (HD _ _ _ Hi) as [SI _]. by eapply si_first. }
  destruct (IH t' (S j) p' Hb') as (t2 & -> & H2); [lia|lia|]. exists t2. split; [done|].
  assert (p = length (block_of h)) as ->.
  { destruct Hb as (_ & _ & Hd). rewrite Ej in Hd. destruct Hd as (_ & d & _ & Hd).
    destruct (HD _ _ _ Ej) as [SI _]. pose proof (si_bound _ _ Hd). lia. }
  rewrite <- (offset_S j sep h Ej). destruct (idx !! S j) as [[sep' h']|] eqn:Ej'.
  - rewrite (Hp' _ _ eq_refl) in H2. by rewrite Nat.add_0_r in H2.
  - apply lookup_ge_None in Ej'. by rewrite offset_end.
Qed.

Lemma skip_backward_pos n t j p :
  at_block t j p -> (j < length idx -> S j < n)%nat -> (0 < n)%nat ->
  exists t', skip_empty_blocks (it_prev index_ops) (it_seek_to_last data_ops) n t = Some t' /\
    tpos t' (match idx !! j with
             | Some (_, h) => if (p <? length (block_of h))%nat then offset j + p
                              else if offset j is S q then q else length L
             | None => length L
             end)%nat.
Proof.
  revert t j p. induction n as [|n IH]; intros t j p Hb Hn Hpos; [lia|].
  destruct (idx !! j) as [[sep h]|] eqn:Ej; [|by eapply skip_exhausted].
  pose proof (lookup_lt_Some _ _ _ Ej) as Hj.
  destruct (Nat.ltb_spec p (length (block_of h))) as [Hp|Hp]; [by eapply skip_valid|].
  destruct (skip_round (it_prev index_ops) (it_seek_to_last data_ops) n t j
    (if j is S j' then j' else length idx) p sep h (λ h, pred (length (block_of h))))
    as (t' & p' & -> & Hb' & Hp'); [done|done|lia| | |].
  { intros index Hi. by apply si_prev. }
  { intros i sep' h' d q Hi Hd. destruct (HD _ _ _ Hi) as [SI _]. by eapply si_last. }
  destruct (IH t' _ p' Hb') as (t2 & -> & H2); [destruct j; lia|lia|]. exists t2. split; [done|].
  destruct j as [|j].
  - rewrite lookup_ge_None_2 in H2 by done. exact H2.
  - destruct (lookup_lt_is_Some_2 idx j) as [[sep' h'] Ej']; [lia|]. rewrite Ej' in H2.
    rewrite (Hp' _ _ Ej') in H2. rewrite (offset_S j sep' h' Ej').
    destruct (Nat.ltb_spec (pred (length (block_of h'))) (length (block_of h'))) as [Hl|Hl].
    + destruct (length (block_of h')) as [|q]; [lia|]. rewrite Nat.add_succ_r. exact H2.
    + replace (length (block_of h')) with 0%nat by lia. by rewrite Nat.add_0_r.
Qed.

(** What a valid position is. *)
Lemma tpos_entry t i :
  tpos t i -> (i < length L)%nat ->
  exists j p sep h d, idx !! j = Some (sep, h) /\ at_block t j p /\ data_iter_ t = Some d /\
    dpos h d p /\ (p < length (block_of h))%nat /\ i = (offset j + p)%nat.
Proof.
  intros (j & p & [[Hb H]|(_ & _ & _ & ->)]) Hi; [|lia].
  destruct (idx !! j) as [[sep h]|] eqn:Ej; [|lia]. destruct H as [Hp ->].
  pose proof Hb as (_ & _ & Hd). rewrite Ej in Hd. destruct Hd as (Hh & d & Ed & Hpos).
  by exists j, p, sep, h, d.
Qed.

Lemma tpos_end t i : tpos t i -> (i < length L)%nat \/ (i = length L /\ data_iter_ t = None).
Proof.
  intros (j & p & [[Hb H]|(_ & _ & Hd & ->)]); [|by right].
  destruct (idx !! j) as [[sep h]|] eqn:Ej.
  - left. destruct H as [Hp ->]. pose proof (block_bound j sep h Ej). lia.
  - right. destruct Hb as (_ & _ & Hd). by rewrite Ej in Hd.
Qed.

(** Moving within the open block. *)
Lemma on_data_at t j p q sep h f d K :
  idx !! j = Some (sep, h) -> at_block t j p -> data_iter_ t = Some d ->
  (exists d', f d = Some d' /\ dpos h d' q) ->
  exists t', ((t ← on_data t f; K t) = (K t' : option TwoLevelIterator)) /\ at_block t' j q.
Proof.
  intros Ej (Hs & Hi & Hd) Ed (d' & Ef & Hq). rewrite Ej in Hd. destruct Hd as (Hh & _).
  unfold on_data. rewrite Ed, Ef. cbn [mbind option_bind]. eexists. split; [done|].
  split; [done|]. split; [done|]. cbn [data_block_handle_ data_iter_]. rewrite Ej. eauto.
Qed.

Lemma next_tpos t i :
  tpos t i -> (i < length L)%nat -> exists t', next t = Some t' /\ tpos t' (S i).
Proof.
  intros Ht Hi. destruct (tpos_entry t i Ht Hi) as (j & p & sep & h & d & Ej & Hb & Ed & Hd & Hp & ->).
  destruct (HD _ _ _ Ej) as [SI _]. unfold next. rewrite Ed. cbn [mbind option_bind].
  destruct (on_data_at t j p (S p) sep h (it_next data_ops) d skip_empty_blocks_forward Ej Hb Ed)
    as (t1 & -> & Hb1); [by apply si_next|].
  destruct (skip_forward_pos fuel t1 j (S p) Hb1) as (t2 & E2 & H2); [lia..|].
  rewrite Ej in H2. exists t2. split; [done|]. by rewrite <- Nat.add_succ_r.
Qed.

Lemma prev_tpos t i :
  tpos t i -> (i < length L)%nat ->
  exists t', prev t = Some t' /\ tpos t' (if i is S j then j else length L).
Proof.
  intros Ht Hi. destruct (tpos_entry t i Ht Hi) as (j & p & sep & h & d & Ej & Hb & Ed & Hd & Hp & ->).
  destruct (HD _ _ _ Ej) as [SI _]. unfold prev. rewrite Ed. cbn [mbind option_bind].
  pose proof (lookup_lt_Some _ _ _ Ej) as Hj.
  destruct (on_data_at t j p (if p is S q then q else length (block_of h)) sep h (it_prev data_ops) d
    skip_empty_blocks_backward Ej Hb Ed) as (t1 & -> & Hb1); [by apply si_prev|].
  destruct (skip_backward_pos fuel t1 j _ Hb1) as (t2 & E2 & H2); [lia..|].
  rewrite Ej in H2. exists t2. split; [done|]. destruct p as [|q].
  - rewrite Nat.ltb_irrefl in H2. by rewrite Nat.add_0_r.
  - rewrite (proj2 (Nat.ltb_lt _ _)) in H2 by lia. by rewrite Nat.add_succ_r.
Qed.

#[global] Instance two_level_iterator_sorted : SortedIterator two_level_iterator cmp L tpos.
Proof.
  constructor; unfold two_level_iterator;
    cbn [it_valid it_key it_value it_status it_next it_prev it_seek it_seek_to_first it_seek_to_last].
  - intros t i [|[-> _]]%tpos_end; lia.
  - intros t i Ht. destruct (tpos_end t i Ht) as [Hi|[-> Hd]].
    + destruct (tpos_entry t i Ht Hi) as (j & p & sep & h & d & Ej & Hb & _ & _ & Hp & ->).
      rewrite (at_block_valid _ _ _ Hb), Ej, !(proj2 (Nat.ltb_lt _ _)); done.
    + unfold valid. by rewrite Hd, Nat.ltb_irrefl.
  - intros t i k v Ht He. pose proof (lookup_lt_Some _ _ _ He) as Hi.
    destruct (tpos_entry t i Ht Hi) as (j & p & sep & h & d & Ej & _ & Ed & Hd & Hp & ->).
    rewrite (block_lookup j sep h p Ej Hp) in He. destruct (HD _ _ _ Ej) as [SI _].
    destruct (si_entry d p k v Hd He) as [Ek Ev]. unfold key, value. rewrite Ed. cbn. by rewrite Ek.
  - intros t i Ht. destruct (tpos_open t i Ht) as [Ho [j Hj]]. unfold status.
    rewrite (si_status _ _ Hj). cbn. pose proof (data_status t Ho) as Hds. destruct Ho as [-> _].
    destruct (data_iter_ t) as [d|]; [|done]. by rewrite (Hds d eq_refl).
  - apply next_tpos.
  - apply prev_tpos.
  - intros t i Ht. destruct (tpos_open t i Ht) as [Ho [j Hj]]. unfold seek_to_first.
    destruct (reopen t (it_seek_to_first index_ops) (it_seek_to_first data_ops) 0 (λ _, 0%nat)
      skip_empty_blocks_forward Ho) as (t1 & p & -> & Hb & Hp); [by eapply si_first| |].
    { intros i' sep h d q Hi Hd. destruct (HD _ _ _ Hi) as [SI _]. by eapply si_first. }
    destruct (skip_forward_pos fuel t1 0 p Hb) as (t2 & E2 & H2); [lia..|].
    exists t2. split; [done|]. destruct (idx !! 0%nat) as [[sep h]|] eqn:E0.
    + by rewrite (Hp _ _ eq_refl) in H2.
    + apply lookup_ge_None in E0. by rewrite <- (offset_end 0) in H2.
  - intros t i Ht. destruct (tpos_open t i Ht) as [Ho [j Hj]]. unfold seek_to_last.
    destruct (reopen t (it_seek_to_last index_ops) (it_seek_to_last data_ops) (pred (length idx))
      (λ h, pred (length (block_of h))) skip_empty_blocks_backward Ho) as (t1 & p & -> & Hb & Hp);
      [by eapply si_last| |].
    { intros i' sep h d q Hi Hd. destruct (HD _ _ _ Hi) as [SI _]. by eapply si_last. }
    destruct (skip_backward_pos fuel t1 _ p Hb) as (t2 & E2 & H2); [lia..|].
    exists t2. split; [done|]. pose proof (offset_end (length idx) ltac:(done)) as HL.
    destruct (length idx) as [|n] eqn:En; cbn [pred] in *.
    + rewrite lookup_ge_None_2 in H2 by lia. rewrite <- HL in *. exact H2.
    + destruct (lookup_lt_is_Some_2 idx n) as [[sep h] Ej]; [lia|]. rewrite Ej in H2.
      rewrite (Hp _ _ Ej) in H2. rewrite (offset_S n sep h Ej) in HL. rewrite <- HL in *.
      destruct (Nat.ltb_spec (pred (length (block_of h))) (length (block_of h))) as [Hl|Hl].
      * replace (pred (offset n + length (block_of h))) with (offset n + pred (length (block_of h)))%nat by lia.
        exact H2.
      * replace (length (block_of h)) with 0%nat in * by lia. rewrite Nat.add_0_r in *.
        by destruct (offset n).
  - intros t i target Ht Hsize. destruct (tpos_open t i Ht) as [Ho [j Hj]]. unfold seek.
    destruct (reopen t (λ index, it_seek index_ops index target) (λ data, it_seek data_ops data target)
      (lower_bound cmp idx target) (λ h, lower_bound cmp (block_of h) target) skip_empty_blocks_forward Ho)
      as (t1 & p & -> & Hb & Hp); [by eapply si_seek| |].
    { intros i' sep h d q Hi Hd. destruct (HD _ _ _ Hi) as [SI _]. by eapply si_seek. }
    destruct (skip_forward_pos fuel t1 _ p Hb) as (t2 & E2 & H2); [lia..|].
    exists t2. split; [done|]. pose proof (index_seek target) as HS.
    destruct (idx !! lower_bound cmp idx target) as [[sep h]|] eqn:E.
    + rewrite HS. by rewrite (Hp _ _ eq_refl) in H2.
    + by rewrite HS.
Qed.
End Proofs.
End TwoLevel.

(** * Theorem *)

(** A two-level iterator is an iterator over the concatenated blocks:
    given an index whose keys separate the blocks it names, and an iterator
    over each block, every sequence of seeks, [next]s and [prev]s leaves it
    showing what a cursor over all the blocks' entries would show - empty
    blocks anywhere are passed over in both directions - with an ok status,
    and every skip loop finishes within one round more than there are index
    entries. *)
Theorem two_level_iterator_concatenates {I D} (index_ops : Iterator I) (data_ops : Iterator D) function_ fuel
    cmp `{!ComparatorLaws cmp} block_of idx ipos dpos index_iter i ms j :
  indexes cmp block_of idx ->
  SortedIterator index_ops cmp idx ipos ->
  (forall i sep h, idx !! i = Some (sep, h) ->
    SortedIterator data_ops cmp (block_of h) (dpos h) /\ exists p, dpos h (function_ h) p) ->
  (length idx < fuel)%nat ->
  ipos index_iter i ->
  let ops := two_level_iterator index_ops data_ops function_ fuel in
  let l := concat (block_of ∘ snd <$> idx) in
  cursor_calls (2 ^ 32) cmp l (length l) ms = Some j ->
  exists t, calls ops (new_two_level_iterator index_iter) ms = Some t /\ shows ops t l j.
Proof.
  intros IX HI HD Hf Hi ops l Hj.
  pose proof (two_level_iterator_sorted index_ops data_ops function_ fuel cmp block_of idx IX ipos dpos HD Hf) as SI.
  destruct (si_calls (2 ^ 32) ops cmp l _ ms (new_two_level_iterator index_iter) (length l) j)
    as (t & E & Ht); [|done|].
  - exists i, 0%nat. right. done.
  - exists t. split; [done|]. by eapply si_shows.
Qed.

(** Three blocks, the one in the middle empty. *)
Definition sample_block (h : bytes) : list (bytes * bytes) :=
  match h with
  | [x01] => [([x61], [x31]); ([x62], [x32])]
  | [x03] => [([x64], [x34])]
  | _ => []
  end.
Definition sample_index : list (bytes * bytes) :=
  [([x62], [x01]); ([x63], [x02]); ([x65], [x03])].

Lemma sample_indexes : indexes kBytewise sample_block sample_index.
Proof.
  constructor.
  - intros [|[|[|i]]] sep h; cbn; intros; simplify_eq; unfold readable; cbn; lia.
  - repeat constructor.
  - intros [|[|[|i]]] sep h k v; cbn; intros; simplify_eq; cbn in *; elem_cases; (split; [unfold readable; cbn; lia|done]).
  - intros [|[|[|i]]] [|[|[|j]]] sep h sep' h' k v; cbn; intros; simplify_eq; try lia; cbn in *; elem_cases; done.
Qed.

(** Over the empty block and back. *)
Lemma two_level_iterator_concatenates_witness :
  let ops := two_level_iterator (list_iterator kBytewise) (list_iterator kBytewise)
    (λ h, (sample_block h, 0%nat)) 4 in
  exists t, calls ops (new_two_level_iterator (sample_index, 0%nat)) [Seek [x62]; Next; Prev; Next] = Some t /\
    shows ops t (concat (sample_block ∘ snd <$> sample_index)) 2.
Proof.
  apply (two_level_iterator_concatenates (list_iterator kBytewise) (list_iterator kBytewise)
    (λ h, (sample_block h, 0%nat)) 4 kBytewise sample_block sample_index
    (λ it i, it = (sample_index, i) /\ (i <= length sample_index)%nat)
    (λ h it i, it = (sample_block h, i) /\ (i <= length (sample_block h))%nat)
    (sample_index, 0%nat) 0).
  - exact sample_indexes.
  - apply list_iterator_sorted.
  - intros i sep h _. split; [apply list_iterator_sorted|]. exists 0%nat. split; [done|lia].
  - cbn. lia.
  - split; [done|]. cbn. lia.
  - reflexivity.
Defined.

End TwoLevelIterator.
