(* ===== verification/DbIter.v ===== *)
(** The database iterator (src/src/db_iter.hpp, src/src/db_iter.cpp): from
    every version of every key to the newest visible value of each.

    The loops take a fuel, one round per internal entry; [None] is undefined
    behaviour in the internal iterator or fuel run out, which the theorem
    excludes. *)
From S2P Require Import Prelude Status Encoding DbFormat Comparator Iterator.
Import Status Encoding DbFormat Comparator Iterator.

Module DbIter.

Inductive Direction := kForward | kReverse.

Section DbIter.
Context {I : Type} (ops : Iterator I) (user_comparator_ : Comparator) (sequence_ : Z) (fuel : nat).

Record DBIter := mkDBIter {
  iter_ : I;
  status_ : Status;
  saved_key_ : bytes;
  saved_value_ : bytes;
  direction_ : Direction;
  valid_ : bool
}.

Definition DBIter_new (internal_iter : I) : DBIter := mkDBIter internal_iter ok [] [] kForward false.

Definition valid (d : DBIter) : bool := valid_ d.
Definition key (d : DBIter) : bytes :=
  match direction_ d with
  | kForward => extract_user_key (it_key ops (iter_ d))
  | kReverse => saved_key_ d
  end.
Definition value (d : DBIter) : option bytes :=
  match direction_ d with
  | kForward => it_value ops (iter_ d)
  | kReverse => Some (saved_value_ d)
  end.
Definition status (d : DBIter) : Status :=
  if is_ok (status_ d) then it_status ops (iter_ d) else status_ d.

Definition set_iter (d : DBIter) (iter : I) : DBIter :=
  mkDBIter iter (status_ d) (saved_key_ d) (saved_value_ d) (direction_ d) (valid_ d).
Definition save_key (d : DBIter) (key : bytes) : DBIter :=
  mkDBIter (iter_ d) (status_ d) key (saved_value_ d) (direction_ d) (valid_ d).
Definition set_saved_value (d : DBIter) (value : bytes) : DBIter :=
  mkDBIter (iter_ d) (status_ d) (saved_key_ d) value (direction_ d) (valid_ d).
(** The capacity it releases is not part of the model. *)
Definition clear_saved_value (d : DBIter) : DBIter := set_saved_value d [].
Definition set_direction (d : DBIter) (direction : Direction) : DBIter :=
  mkDBIter (iter_ d) (status_ d) (saved_key_ d) (saved_value_ d) direction (valid_ d).
Definition set_valid (d : DBIter) (valid : bool) : DBIter :=
  mkDBIter (iter_ d) (status_ d) (saved_key_ d) (saved_value_ d) (direction_ d) valid.

(** [parse_key]: the parsed key, or the iterator with its status set. *)
Definition parse_key (d : DBIter) : DBIter + ParsedInternalKey :=
  match parse_internal_key (it_key ops (iter_ d)) with
  | Some key => inr key
  | None => inl (mkDBIter (iter_ d) (corruption "malformed internal key in a table")
                   (saved_key_ d) (saved_value_ d) (direction_ d) (valid_ d))
  end.

(** [skip] always points to [saved_key_]. *)
Fixpoint find_next_user_entry (fuel : nat) (skipping : bool) (d : DBIter) : option DBIter :=
  match fuel with
  | O => None
  | S fuel' =>
      match parse_key d with
      | inl d => Some (set_valid d false)
      | inr key =>
          let go_on skipping d :=
            iter ← it_next ops (iter_ d);
            let d := set_iter d iter in
            if it_valid ops iter then find_next_user_entry fuel' skipping d
            else Some (set_valid (save_key d []) false) in
          if sequence key <=? sequence_ then
            match type key with
            | kDeletion => go_on true (save_key d (user_key key))
            | kValue =>
                if skipping && bool_decide (compare user_comparator_ (user_key key) (saved_key_ d) <> Gt)
                then go_on skipping d
                else Some (save_key (set_valid d true) [])
            end
          else go_on skipping d
      end
  end.

(** The loop of [find_prev_user_entry] and the type it ends with; [inl] is
    its early return. *)
Fixpoint find_prev_loop (fuel : nat) (type : ValueType) (d : DBIter) : option (DBIter + (DBIter * ValueType)) :=
  match fuel with
  | O => None
  | S fuel' =>
      match parse_key d with
      | inl d => Some (inl (clear_saved_value (save_key (set_valid d false) [])))
      | inr key =>
          let go_on type d :=
            iter ← it_prev ops (iter_ d);
            let d := set_iter d iter in
            if it_valid ops iter then find_prev_loop fuel' type d
            else Some (inr (d, type)) in
          if sequence key <=? sequence_ then
            if bool_decide (type <> kDeletion) &&
               bool_decide (compare user_comparator_ (user_key key) (saved_key_ d) = Lt)
            then Some (inr (d, type))
            else
              let type := DbFormat.type key in
              match type with
              | kDeletion => go_on type (clear_saved_value (save_key d []))
              | kValue =>
                  value ← it_value ops (iter_ d);
                  go_on type (set_saved_value (save_key d (user_key key)) value)
              end
          else go_on type d
      end
  end.

Definition find_prev_user_entry (d : DBIter) : option DBIter :=
  let type := kDeletion in
  r ← (if it_valid ops (iter_ d) then find_prev_loop fuel type d else Some (inr (d, type)));
  match r with
  | inl d => Some d
  | inr (d, kDeletion) =>
      Some (set_direction (clear_saved_value (save_key (set_valid d false) [])) kForward)
  | inr (d, kValue) => Some (set_valid d true)
  end.

Definition next (d : DBIter) : option DBIter :=
  d ← match direction_ d with
      | kReverse =>
          let d := set_direction d kForward in
          iter ← (if negb (it_valid ops (iter_ d)) then it_seek_to_first ops (iter_ d)
                  else it_next ops (iter_ d));
          Some (set_iter d iter)
      | kForward =>
          let d := save_key d (extract_user_key (it_key ops (iter_ d))) in
          iter ← it_next ops (iter_ d);
          Some (set_iter d iter)
      end;
  if negb (it_valid ops (iter_ d)) then Some (save_key (set_valid d false) [])
  else find_next_user_entry fuel true d.

(** The loop of [prev] that leaves the current user key; [inl] is its early
    return. *)
Fixpoint leave_key (fuel : nat) (d : DBIter) : option (DBIter + DBIter) :=
  match fuel with
  | O => None
  | S fuel' =>
      iter ← it_prev ops (iter_ d);
      let d := set_iter d iter in
      if negb (it_valid ops iter) then Some (inl (clear_saved_value (save_key (set_valid d false) [])))
      else if bool_decide (compare user_comparator_ (extract_user_key (it_key ops iter)) (saved_key_ d) = Lt)
      then Some (inr d)
      else leave_key fuel' d
  end.

Definition prev (d : DBIter) : option DBIter :=
  match direction_ d with
  | kForward =>
      r ← leave_key fuel (save_key d (extract_user_key (it_key ops (iter_ d))));
      match r with
      | inl d => Some d
      | inr d => find_prev_user_entry (set_direction d kReverse)
      end
  | kReverse => find_prev_user_entry d
  end.

Definition seek (d : DBIter) (target : bytes) : option DBIter :=
  let d := clear_saved_value (set_direction d kForward) in
  let d := save_key d (make_lookup_key target sequence_) in
  iter ← it_seek ops (iter_ d) (saved_key_ d);
  let d := set_iter d iter in
  if it_valid ops iter then find_next_user_entry fuel false d else Some (set_valid d false).

Definition seek_to_first (d : DBIter) : option DBIter :=
  let d := clear_saved_value (set_direction d kForward) in
  iter ← it_seek_to_first ops (iter_ d);
  let d := set_iter d iter in
  if it_valid ops iter then find_next_user_entry fuel false d else Some (set_valid d false).

Definition seek_to_last (d : DBIter) : option DBIter :=
  let d := clear_saved_value (set_direction d kReverse) in
  iter ← it_seek_to_last ops (iter_ d);
  find_prev_user_entry (set_iter d iter).

Definition db_iterator : Iterator DBIter :=
  mkIterator DBIter valid seek_to_first seek_to_last seek next prev key value status.
Definition new_db_iterator (internal_iter : I) : DBIter := DBIter_new internal_iter.
End DbIter.

(** * The view a snapshot has *)

(** Internal entries, in order. *)
Definition encode_entry (e : ParsedInternalKey * bytes) : bytes * bytes :=
  (make_internal_key (user_key (fst e)) (sequence (fst e)) (type (fst e)), snd e).

Section View.
Context (snapshot : Z) (P : list (ParsedInternalKey * bytes)).

(** Entry [i] is the first of its user key at or below the snapshot, and a
    value. *)
Definition seen (p : ParsedInternalKey) : bool := sequence p <=? snapshot.
Definition shown (i : nat) : bool :=
  match P !! i with
  | Some (p, _) =>
      seen p && bool_decide (type p = kValue) &&
      forallb (λ e, negb (seen (fst e) && bool_decide (user_key (fst e) = user_key p))) (take i P)
  | None => false
  end.
Definition user_entry (i : nat) : option (bytes * bytes) :=
  if shown i then (λ e, (user_key (fst e), snd e)) <$> P !! i else None.
(** What the first [n] entries show. *)
Definition view (n : nat) : list (bytes * bytes) := omap user_entry (seq 0 n).
Definition visible_entries : list (bytes * bytes) := view (length P).
Definition rank (n : nat) : nat := length (view n).

Lemma shown_spec i :
  shown i = true <->
  exists p v, P !! i = Some (p, v) /\ sequence p <= snapshot /\ type p = kValue /\
    forall j p' v', (j < i)%nat -> P !! j = Some (p', v') -> sequence p' <= snapshot ->
      user_key p' <> user_key p.
Proof.
  unfold shown, seen. split.
  - destruct (P !! i) as [[p v]|] eqn:E; [|done]. rewrite !andb_true_iff, Z.leb_le, bool_decide_eq_true.
    intros [[Hs Ht] Hf]. exists p, v. split_and!; try done. intros j p' v' Hj Ej Hs' Hu.
    rewrite forallb_forall in Hf. specialize (Hf (p', v')). cbn [fst] in Hf.
    rewrite (proj2 (Z.leb_le _ _) Hs'), (bool_decide_true _ Hu) in Hf.
    assert (false = true); [|done]. apply Hf. apply list_elem_of_In, list_elem_of_lookup.
    exists j. by rewrite lookup_take_lt.
  - intros (p & v & -> & Hs & Ht & Hf).
    rewrite !andb_true_iff, Z.leb_le, bool_decide_eq_true. split_and!; try done.
    apply forallb_forall. intros [p' v'] Hin. cbn [fst]. apply list_elem_of_In, list_elem_of_lookup in Hin as [j Hj].
    apply lookup_take_Some in Hj as [Hj Hlt]. apply negb_true_iff, andb_false_iff.
    destruct (Z.leb_spec (sequence p') snapshot); [right|by left].
    apply bool_decide_eq_false. by eapply Hf.
Qed.

Lemma view_S n : view (S n) = view n ++ (if user_entry n is Some e then [e] else []).
Proof. unfold view. rewrite seq_S, omap_app. cbn. by destruct (user_entry n). Qed.

Lemma view_prefix a b : (a <= b)%nat -> exists l, view b = view a ++ l.
Proof.
  induction 1 as [|b Hab [l IH]]; [exists []; by rewrite app_nil_r|].
  rewrite view_S, IH, <- app_assoc. eauto.
Qed.

Lemma view_shown i :
  shown i = true -> exists p v, P !! i = Some (p, v) /\ view (S i) = view i ++ [(user_key p, v)].
Proof.
  intros H. pose proof H as (p & v & E & _)%shown_spec. exists p, v. split; [done|].
  rewrite view_S. unfold user_entry. by rewrite H, E.
Qed.
Lemma view_hidden i : shown i = false -> view (S i) = view i.
Proof. intros H. rewrite view_S. unfold user_entry. by rewrite H, app_nil_r. Qed.

(** No entry shown between [a] and [b]. *)
Definition none_shown (a b : nat) : Prop := forall m, (a <= m < b)%nat -> shown m = false.

Lemma rank_none a b : none_shown a b -> (a <= b)%nat -> rank b = rank a.
Proof.
  intros Hn Hab. unfold rank. induction Hab as [|b Hab IH]; [done|].
  rewrite view_hidden by (apply Hn; lia). apply IH. intros m Hm. apply Hn. lia.
Qed.
Lemma rank_shown i : shown i = true -> rank (S i) = S (rank i).
Proof. intros (p & v & _ & E)%view_shown. unfold rank. rewrite E, length_app. cbn. lia. Qed.
Lemma rank_mono a b : (a <= b)%nat -> (rank a <= rank b)%nat.
Proof. intros (l & E)%view_prefix. unfold rank. rewrite E, length_app. lia. Qed.
Lemma rank_end n : (length P <= n)%nat -> rank n = length visible_entries.
Proof.
  intros H. rewrite (rank_none (length P) n); [done| |done].
  intros m Hm. unfold shown. by rewrite lookup_ge_None_2 by lia.
Qed.
Lemma shown_bound i : shown i = true -> (i < length P)%nat.
Proof. intros (p & v & E & _)%shown_spec. by eapply lookup_lt_Some. Qed.
Lemma rank_lt i : shown i = true -> (rank i < length visible_entries)%nat.
Proof.
  intros H. rewrite <- (rank_end (length P)) by done. pose proof (rank_shown i H).
  pose proof (rank_mono (S i) (length P) (shown_bound i H)). lia.
Qed.

Lemma visible_lookup i p v :
  shown i = true -> P !! i = Some (p, v) -> visible_entries !! rank i = Some (user_key p, v).
Proof.
  intros H E. destruct (view_shown i H) as (p' & v' & E' & Ev).
  assert (p' = p /\ v' = v) as [-> ->] by (split; congruence).
  destruct (view_prefix (S i) (length P)) as [l El]; [by apply shown_bound|].
  unfold visible_entries, rank. rewrite El, Ev, <- app_assoc. by apply list_lookup_middle.
Qed.

Lemma visible_inv r e :
  visible_entries !! r = Some e ->
  exists i p v, shown i = true /\ rank i = r /\ P !! i = Some (p, v) /\ e = (user_key p, v).
Proof.
  unfold visible_entries. generalize (length P) as n. induction n as [|n IH]; [done|].
  destruct (shown n) eqn:En; [|by rewrite view_hidden].
  destruct (view_shown n En) as (p & v & E & ->). intros [[_ H]|[-> <-]]%lookup_snoc_Some; [by apply IH|].
  exists n, p, v. done.
Qed.
End View.

(** * The iterator over the view *)
Section Proofs.
Context {I : Type} (ops : Iterator I) (snapshot : Z) (fuel : nat).
Context (P : list (ParsedInternalKey * bytes)) (ipos : I -> nat -> Prop).
Context (Hsnapshot : seq_ok snapshot).
Context (Hseq : forall i p v, P !! i = Some (p, v) -> seq_ok (sequence p)).
Context (Hsorted : sorted_by kInternal (encode_entry <$> P)).
Context (SI : SortedIterator ops kInternal (encode_entry <$> P) ipos).
Context (Hfuel : (length P <= fuel)%nat).

Abbreviation V := (visible_entries snapshot P).
Abbreviation shown := (shown snapshot P).
Abbreviation rank := (rank snapshot P).
Abbreviation none_shown := (none_shown snapshot P).
Abbreviation user_lt := (key_lt kBytewise).

Lemma encoded_lookup i p v :
  P !! i = Some (p, v) ->
  (encode_entry <$> P) !! i = Some (make_internal_key (user_key p) (sequence p) (type p), v).
Proof. intros E. by rewrite list_lookup_fmap, E. Qed.

Lemma user_le i j p v q w :
  (i <= j)%nat -> P !! i = Some (p, v) -> P !! j = Some (q, w) -> ~ user_lt (user_key q) (user_key p).
Proof.
  intros Hij Hi Hj. destruct (decide (i = j)) as [->|Hne].
  { assert (q = p) as -> by congruence. apply key_lt_irrefl. }
  pose proof (sorted_lookup kInternal _ i j _ _ _ _ Hsorted ltac:(lia) (encoded_lookup _ _ _ Hi) (encoded_lookup _ _ _ Hj)) as Hlt.
  unfold key_lt in Hlt |- *. cbn [compare kInternal kBytewise] in *. unfold bytewise_compare.
  rewrite compare_make in Hlt by eauto. rewrite sv_compare_antisym.
  by destruct (sv_compare (user_key p) (user_key q)).
Qed.

Lemma user_lt_of_ne a b : ~ user_lt a b -> a <> b -> user_lt b a.
Proof.
  intros H1 H2. apply key_not_lt, key_le_lt_eq in H1; [|unfold readable; cbn; lia..].
  destruct H1 as [|]; [done|congruence].
Qed.

Lemma iter_at it i p v :
  ipos it i -> P !! i = Some (p, v) ->
  it_valid ops it = true /\ parse_internal_key (it_key ops it) = Some p /\
  extract_user_key (it_key ops it) = user_key p /\ it_value ops it = Some v.
Proof.
  intros Hp Hi. destruct (si_entry it i _ _ Hp (encoded_lookup i p v Hi)) as [-> ->].
  rewrite (si_valid it i Hp), length_fmap, (proj2 (Nat.ltb_lt _ _)) by (by eapply lookup_lt_Some).
  rewrite parse_make by eauto. rewrite extract_user_key_make. by destruct p.
Qed.

Lemma iter_next it i :
  ipos it i -> (i < length P)%nat ->
  exists it', it_next ops it = Some it' /\ ipos it' (S i) /\ it_valid ops it' = (S i <? length P)%nat.
Proof.
  intros Hp Hi. destruct (si_next it i Hp) as (it' & E & Hp'); [by rewrite length_fmap|].
  exists it'. split_and!; try done. by rewrite (si_valid it' _ Hp'), length_fmap.
Qed.

(** The position before entry [n], where a reverse scan stands. *)
Definition before (n : nat) : nat := if n is S m then m else length P.
Lemma iter_prev it i :
  ipos it i -> (i < length P)%nat ->
  exists it', it_prev ops it = Some it' /\ ipos it' (before i) /\ it_valid ops it' = bool_decide (i <> 0%nat).
Proof.
  intros Hp Hi. destruct (si_prev it i Hp) as (it' & E & Hp'); [by rewrite length_fmap|].
  rewrite length_fmap in Hp'. exists it'. split_and!; [done|by destruct i|].
  rewrite (si_valid it' _ Hp'), length_fmap. destruct i.
  - by rewrite Nat.ltb_irrefl.
  - rewrite (proj2 (Nat.ltb_lt _ _)) by lia. done.
Qed.

(** Positions of the database iterator. *)
Definition forward_at (d : DBIter (I := I)) (i : nat) : Prop :=
  direction_ d = kForward /\ ipos (iter_ d) i.
(** The entries between the iterator and [i] are too new to be seen. *)
Definition reverse_at (d : DBIter (I := I)) (i : nat) : Prop :=
  direction_ d = kReverse /\
  (exists p v, P !! i = Some (p, v) /\ saved_key_ d = user_key p /\ saved_value_ d = v) /\
  exists n, (n <= i)%nat /\ ipos (iter_ d) (before n) /\
    forall m p v, (n <= m < i)%nat -> P !! m = Some (p, v) -> snapshot < sequence p.
Definition dpos (d : DBIter (I := I)) (r : nat) : Prop :=
  status_ d = ok /\ (exists q, ipos (iter_ d) q) /\
  if valid_ d then exists i, shown i = true /\ r = rank i /\ (forward_at d i \/ reverse_at d i)
  else r = length V.

(** ** Forwards *)

(** What [skipping] and the saved key must say at entry [q]: a seen entry
    from [q] on is beyond the saved key exactly when no entry before [q]
    decided its user key. *)
Definition skips (q : nat) (skipping : bool) (K : bytes) : Prop :=
  forall m p v, (q <= m)%nat -> P !! m = Some (p, v) -> sequence p <= snapshot ->
    (forall j p' v', (j < q)%nat -> P !! j = Some (p', v') -> sequence p' <= snapshot ->
       user_key p' <> user_key p) <-> (skipping = true -> user_lt K (user_key p)).

(** After a seen entry of key [K], skipping [K] is right. *)
Lemma skips_after q p v :
  P !! q = Some (p, v) -> sequence p <= snapshot -> skips (S q) true (user_key p).
Proof.
  intros Hq Hs m p' v' Hm Hp' Hs'. split.
  - intros Hno _. apply user_lt_of_ne; [by eapply user_le; [|done|done]; lia|].
    intros E. by apply (Hno q p v ltac:(lia) Hq Hs).
  - intros Hlt j pj vj Hj Ej _ E. rewrite <- E in Hlt.
    eapply (user_le j q); [|done|done|by apply Hlt]. lia.
Qed.

Lemma skips_step q skipping K p v :
  P !! q = Some (p, v) -> skips q skipping K ->
  (sequence p <= snapshot -> skipping = true /\ ~ user_lt K (user_key p)) -> skips (S q) skipping K.
Proof.
  intros Hq Hsk Hhid m p' v' Hm Hp' Hs'. rewrite <- (Hsk m p' v' ltac:(lia) Hp' Hs'). split.
  - intros Hno j pj vj Hj. apply (Hno j pj vj). lia.
  - intros Hno j pj vj Hj Ej Hsj. destruct (decide (j = q)) as [->|]; [|apply (Hno j pj vj); [lia|done|done]].
    assert (pj = p) as -> by congruence. intros E. destruct (Hhid Hsj) as [-> Hnlt].
    apply Hnlt. rewrite E. by apply (Hsk m p' v' ltac:(lia) Hp' Hs').
Qed.

Lemma find_next_pos n skipping d q :
  status_ d = ok -> direction_ d = kForward -> ipos (iter_ d) q -> (q < length P <= n + q)%nat ->
  skips q skipping (saved_key_ d) ->
  exists d' i, find_next_user_entry ops kBytewise snapshot n skipping d = Some d' /\
    (q <= i)%nat /\ none_shown q i /\ (i = length P \/ shown i = true) /\ dpos d' (rank i).
Proof.
  revert skipping d q. induction n as [|n IH]; intros skipping d q Hst Hdir Hq Hn Hsk; [lia|].
  destruct (lookup_lt_is_Some_2 P q) as [[p v] Ep]; [lia|].
  destruct (iter_at _ _ _ _ Hq Ep) as (_ & Hparse & _ & _).
  assert (forall sk d1, iter_ d1 = iter_ d -> status_ d1 = ok -> direction_ d1 = kForward ->
    skips (S q) sk (saved_key_ d1) -> shown q = false -> exists d' i,
    (iter ← it_next ops (iter_ d1);
     if it_valid ops iter then find_next_user_entry ops kBytewise snapshot n sk (set_iter d1 iter)
     else Some (set_valid (save_key (set_iter d1 iter) []) false)) = Some d' /\
    (q <= i)%nat /\ none_shown q i /\ (i = length P \/ shown i = true) /\ dpos d' (rank i)) as Hgo.
  { intros sk d1 -> Hs1 Hd1 Hsk1 Hno. destruct (iter_next _ _ Hq) as (it' & -> & Hit & Hv); [lia|].
    cbn [mbind option_bind]. rewrite Hv. destruct (Nat.ltb_spec (S q) (length P)) as [Hlt|Hge].
    - destruct (IH sk (set_iter d1 it') (S q)) as (d' & i & E & Hqi & Hns & Hi & Hd); try done; [lia|].
      exists d', i. split_and!; try done; [lia|]. intros m Hm.
      destruct (decide (m = q)) as [->|]; [done|]. apply Hns. lia.
    - eexists _, (length P). split; [done|]. split_and!; [lia| |by left|].
      + intros m Hm. by replace m with q by lia.
      + split; [done|]. split; [by eauto|]. cbn. by rewrite rank_end. }
  cbn [find_next_user_entry]. unfold parse_key. rewrite Hparse.
  destruct (Z.leb_spec (sequence p) snapshot) as [Hs|Hs].
  - destruct (type p) eqn:Et.
    + apply Hgo; try done; [by eapply skips_after|].
      apply not_true_iff_false. intros (p' & v' & E & _ & Ht & _)%shown_spec. congruence.
    + destruct (skipping && bool_decide _) eqn:Eh.
      * apply andb_true_iff in Eh as [-> Eh%bool_decide_eq_true].
        assert (~ user_lt (saved_key_ d) (user_key p)) as Hnlt by (by apply key_not_lt).
        apply Hgo; try done; [by eapply skips_step|]. apply not_true_iff_false.
        intros (p' & v' & E & _ & _ & Hfirst)%shown_spec. assert (p' = p) as -> by congruence.
        apply Hnlt. by apply (Hsk q p v).
      * eexists _, q. split; [done|]. assert (shown q = true) as Hsh.
        { apply shown_spec. exists p, v. split_and!; try done.
          apply (Hsk q p v); try done. intros ->. cbn [andb] in Eh. apply bool_decide_eq_false in Eh.
          apply dec_stable in Eh. unfold key_lt. by rewrite cmp_antisym, Eh. }
        split_and!; [lia|intros m Hm; lia|by right|].
        split; [done|]. split; [by eauto|]. cbn. exists q. split_and!; [done|done|]. left. done.
  - apply Hgo; try done.
    + eapply skips_step; [done|done|]. lia.
    + apply not_true_iff_false. intros (p' & v' & E & Hle & _)%shown_spec.
      assert (p' = p) as -> by congruence. lia.
Qed.

(** ** Backwards *)

(** The candidate of [find_prev_user_entry] after the entries from [n] to
    [n0]: the best value met, or none. *)
Definition candidate (type : ValueType) (d : DBIter (I := I)) (n n0 : nat) : Prop :=
  match type with
  | kDeletion => none_shown n n0
  | kValue => exists c p v, (n <= c < n0)%nat /\ P !! c = Some (p, v) /\ DbFormat.type p = kValue /\
      sequence p <= snapshot /\ saved_key_ d = user_key p /\ saved_value_ d = v /\
      none_shown (S c) n0 /\
      forall m p v, (n <= m < c)%nat -> P !! m = Some (p, v) -> snapshot < sequence p
  end.
(** Why the loop stops before entry [n]. *)
Definition stopped (type : ValueType) (d : DBIter (I := I)) (n : nat) : Prop :=
  n = 0%nat \/
  (type = kValue /\ exists m p v, n = S m /\ P !! m = Some (p, v) /\ user_lt (user_key p) (saved_key_ d)).

Lemma none_shown_cons m n0 : shown m = false -> none_shown (S m) n0 -> none_shown m n0.
Proof. intros H Hn j Hj. destruct (decide (j = m)) as [->|]; [done|]. apply Hn. lia. Qed.

Lemma unseen_not_shown m p v : P !! m = Some (p, v) -> snapshot < sequence p -> shown m = false.
Proof.
  intros E Hs. apply not_true_iff_false. intros (p' & v' & E' & Hle & _)%shown_spec.
  assert (p' = p) as -> by congruence. lia.
Qed.

(** An entry that a seen one of its key precedes is not shown. *)
Lemma preceded_not_shown c p v m q w :
  P !! c = Some (p, v) -> P !! m = Some (q, w) -> (m < c)%nat -> sequence q <= snapshot ->
  user_key q = user_key p -> shown c = false.
Proof.
  intros Ec Em Hlt Hs Hu. apply not_true_iff_false. intros (p' & v' & E' & _ & _ & Hf)%shown_spec.
  assert (p' = p) as -> by congruence. by apply (Hf m q w).
Qed.

(** Meeting entry [m] makes it the candidate, unless the candidate stands. *)
Lemma candidate_step type d m n0 p v :
  P !! m = Some (p, v) -> (m < n0)%nat -> sequence p <= snapshot -> candidate type d (S m) n0 ->
  (type = kValue -> ~ user_lt (user_key p) (saved_key_ d)) -> none_shown (S m) n0.
Proof.
  intros Em Hm Hs Hc Hnlt. destruct type; [done|].
  destruct Hc as (c & pc & vc & Hcr & Ec & _ & _ & Hk & _ & Hns & Hnew).
  intros j Hj. destruct (Nat.lt_trichotomy j c) as [Hjc|[->|Hjc]].
  - destruct (P !! j) as [[pj vj]|] eqn:Ej; [|unfold DbIter.shown; by rewrite Ej].
    eapply unseen_not_shown; [exact Ej|]. apply (Hnew j pj vj); [lia|done].
  - eapply (preceded_not_shown c pc vc m p v); [done|done|lia|done|]. rewrite Hk in Hnlt.
    destruct (decide (user_key p = user_key pc)) as [|Hne]; [done|]. exfalso.
    apply Hnlt; [done|]. apply user_lt_of_ne; [|done]. eapply (user_le m c); [lia|done|done].
  - apply Hns. lia.
Qed.

Lemma find_prev_loop_pos k type d m n0 :
  status_ d = ok -> direction_ d = kReverse -> ipos (iter_ d) m -> (m < k)%nat -> (m < length P)%nat ->
  (m < n0)%nat -> candidate type d (S m) n0 ->
  exists d' type' n, find_prev_loop ops kBytewise snapshot k type d = Some (inr (d', type')) /\
    status_ d' = ok /\ direction_ d' = kReverse /\ ipos (iter_ d') (before n) /\
    candidate type' d' n n0 /\ stopped type' d' n.
Proof.
  revert type d m. induction k as [|k IH]; intros type d m Hst Hdir Hm Hk HmP Hn0 Hc; [lia|].
  destruct (lookup_lt_is_Some_2 P m) as [[p v] Ep]; [lia|].
  destruct (iter_at _ _ _ _ Hm Ep) as (_ & Hparse & _ & Hval).
  assert (forall ty d1, iter_ d1 = iter_ d -> status_ d1 = ok -> direction_ d1 = kReverse ->
    candidate ty d1 m n0 -> exists d' type' n,
    (iter ← it_prev ops (iter_ d1);
     if it_valid ops iter then find_prev_loop ops kBytewise snapshot k ty (set_iter d1 iter)
     else Some (inr (set_iter d1 iter, ty))) = Some (inr (d', type')) /\
    status_ d' = ok /\ direction_ d' = kReverse /\ ipos (iter_ d') (before n) /\
    candidate type' d' n n0 /\ stopped type' d' n) as Hgo.
  { intros ty d1 -> Hs1 Hd1 Hc1. destruct (iter_prev _ _ Hm HmP) as (it' & -> & Hit & Hv).
    cbn [mbind option_bind]. rewrite Hv. destruct m as [|m']; cbn [before] in Hit.
    - rewrite bool_decide_false by lia. eexists _, ty, 0%nat. split; [done|].
      split_and!; try done. by left.
    - rewrite bool_decide_true by lia. apply (IH ty (set_iter d1 it') m'); try done; lia. }
  cbn [find_prev_loop]. unfold parse_key. rewrite Hparse.
  destruct (Z.leb_spec (sequence p) snapshot) as [Hs|Hs].
  - destruct (bool_decide_reflect (type <> kDeletion)) as [Hty|Hty];
      destruct (bool_decide_reflect (compare kBytewise (user_key p) (saved_key_ d) = Lt)) as [Hlt|Hnlt];
      cbn [andb].
    1: { eexists d, type, (S m). split; [done|]. split_and!; try done. right.
         destruct type; [done|]. eauto 8. }
    all: assert (none_shown (S m) n0) as Hns by
      (eapply candidate_step; [done|lia|done|done|by intros ->; first [exact Hnlt|destruct Hty]]).
    all: destruct (DbFormat.type p) eqn:Et; [|rewrite Hval; cbn [mbind option_bind]].
    all: apply Hgo; try done; cbn [candidate].
    all: try (apply none_shown_cons; [|done]; apply not_true_iff_false;
              intros (p' & v' & E' & _ & Ht & _)%shown_spec; congruence).
    all: exists m, p, v; split_and!; try done; try lia.
  - apply Hgo; try done. assert (shown m = false) as Hno by (by eapply unseen_not_shown).
    destruct type; [by apply none_shown_cons|].
    destruct Hc as (c & pc & vc & Hcr & Ec & Ht & Hsc & Hk' & Hv' & Hns & Hnew).
    exists c, pc, vc. split_and!; try done; [lia..|]. intros j pj vj Hj Ej.
    destruct (decide (j = m)) as [->|]; [by assert (pj = p) as -> by congruence|].
    apply (Hnew j pj vj); [lia|done].
Qed.

(** A candidate the loop stops at is shown. *)
Lemma candidate_shown d n n0 :
  candidate kValue d n n0 -> stopped kValue d n ->
  exists c p v, (n <= c < n0)%nat /\ shown c = true /\ P !! c = Some (p, v) /\
    saved_key_ d = user_key p /\ saved_value_ d = v /\ none_shown (S c) n0 /\
    forall m p v, (n <= m < c)%nat -> P !! m = Some (p, v) -> snapshot < sequence p.
Proof.
  intros (c & p & v & Hc & Ec & Ht & Hs & Hk & Hv & Hns & Hnew) Hstop. exists c, p, v.
  split_and!; try done; try lia. apply shown_spec. exists p, v. split_and!; try done.
  intros j q w Hj Ej Hsj E. destruct (decide (n <= j)%nat) as [Hnj|Hnj].
  - pose proof (Hnew j q w ltac:(lia) Ej). lia.
  - destruct Hstop as [->|(_ & m & pm & vm & -> & Em & Hlt)]; [lia|].
    eapply (user_le j m); [|exact Ej|exact Em|]; [lia|]. by rewrite E, <- Hk.
Qed.

Lemma find_prev_pos d n0 :
  status_ d = ok -> direction_ d = kReverse -> ipos (iter_ d) (before n0) -> (n0 <= length P)%nat ->
  exists d', find_prev_user_entry ops kBytewise snapshot fuel d = Some d' /\
    dpos d' (if rank n0 is S j then j else length V).
Proof.
  intros Hst Hdir Hpos Hn0. unfold find_prev_user_entry.
  assert (exists d1 type n,
    (if it_valid ops (iter_ d) then find_prev_loop ops kBytewise snapshot fuel kDeletion d
     else Some (inr (d, kDeletion))) = Some (inr (d1, type)) /\
    status_ d1 = ok /\ direction_ d1 = kReverse /\ ipos (iter_ d1) (before n) /\
    candidate type d1 n n0 /\ stopped type d1 n) as (d1 & ty & n & -> & Hs1 & Hd1 & Hp1 & Hc & Hstop).
  { rewrite (si_valid _ _ Hpos), length_fmap. destruct n0 as [|m]; cbn [before] in *.
    - rewrite Nat.ltb_irrefl. exists d, kDeletion, 0%nat. split_and!; try done; [|by left].
      intros m Hm. lia.
    - rewrite (proj2 (Nat.ltb_lt _ _)) by lia. apply (find_prev_loop_pos fuel kDeletion d m); try done; try lia.
      intros j Hj. lia. }
  cbn [mbind option_bind]. destruct ty.
  - eexists. split; [done|]. split; [done|]. split; [by eauto|]. cbn [valid_ set_valid].
    destruct Hstop as [->|[? _]]; [|done]. cbn. by rewrite (rank_none _ _ 0 n0 Hc) by lia.
  - destruct (candidate_shown _ _ _ Hc Hstop) as (c & p & v & Hcr & Hsh & Ec & Hk & Hv & Hns & Hnew).
    eexists. split; [done|]. split; [done|]. split; [by eauto|]. cbn.
    rewrite (rank_none _ _ (S c) n0 Hns), rank_shown by (done || lia).
    exists c. split_and!; [done|done|]. right. split; [done|]. cbn. split; [by eauto|].
    exists n. split_and!; try done; lia.
Qed.

(** Leaving the versions of the current key. *)
Lemma leave_key_pos k d m i pi vi :
  status_ d = ok -> ipos (iter_ d) m -> (m < k)%nat -> (m <= i)%nat -> P !! i = Some (pi, vi) ->
  saved_key_ d = user_key pi ->
  (forall j p v, (m <= j <= i)%nat -> P !! j = Some (p, v) -> user_key p = user_key pi) ->
  exists d' n, (n <= m)%nat /\ status_ d' = ok /\ ipos (iter_ d') (before n) /\
    (forall j p v, (n <= j <= i)%nat -> P !! j = Some (p, v) -> user_key p = user_key pi) /\
    leave_key ops kBytewise k d = Some (if n is S _ then inr d' else inl d') /\
    if n is 0%nat then valid_ d' = false else True.
Proof.
  revert d m. induction k as [|k IH]; intros d m Hst Hm Hk Hmi Ei HK Hsame; [lia|].
  pose proof (lookup_lt_Some _ _ _ Ei) as Hi.
  destruct (iter_prev _ _ Hm) as (it' & E & Hit & Hv); [lia|].
  cbn [leave_key]. rewrite E. cbn [mbind option_bind]. rewrite Hv.
  destruct m as [|m']; cbn [before] in Hit.
  { rewrite bool_decide_false by lia. eexists _, 0%nat. cbn [negb].
    split_and!; [lia|..|done|done|done]; done. }
  rewrite bool_decide_true by lia. cbn [negb].
  destruct (lookup_lt_is_Some_2 P m') as [[p v] Ep]; [lia|].
  destruct (iter_at _ _ _ _ Hit Ep) as (_ & _ & -> & _). cbn [saved_key_ set_iter]. rewrite HK.
  destruct (bool_decide_reflect (compare kBytewise (user_key p) (user_key pi) = Lt)) as [Hlt|Hnlt].
  - exists (set_iter d it'), (S m'). split_and!; done.
  - destruct (IH (set_iter d it') m') as (d' & n & Hn & H1 & H2 & H3 & H4 & H5); try done; [lia|lia| |].
    + intros j q w Hj Ej. destruct (decide (j = m')) as [->|]; [|apply (Hsame j q w); [lia|done]].
      assert (q = p) as -> by congruence.
      destruct (decide (user_key p = user_key pi)) as [|Hne]; [done|]. exfalso. apply Hnlt.
      apply user_lt_of_ne; [|done]. eapply (user_le m' i); [lia|done|done].
    + exists d', n. split_and!; try done. lia.
Qed.

(** ** The operations *)
Lemma rank_0 : rank 0 = 0%nat.
Proof. done. Qed.

Lemma after_current d i p v :
  status_ d = ok -> direction_ d = kForward -> ipos (iter_ d) (S i) -> shown i = true ->
  P !! i = Some (p, v) -> saved_key_ d = user_key p -> forall k, (length P <= k + S i)%nat ->
  exists d', (if negb (it_valid ops (iter_ d)) then Some (save_key (set_valid d false) [])
              else find_next_user_entry ops kBytewise snapshot k true d) = Some d' /\ dpos d' (S (rank i)).
Proof.
  intros Hst Hdir Hpos Hsh Ep HK k Hk. pose proof (shown_bound _ _ _ Hsh).
  rewrite (si_valid _ _ Hpos), length_fmap. rewrite <- (rank_shown _ _ i Hsh).
  destruct (Nat.ltb_spec (S i) (length P)) as [Hlt|Hge]; cbn [negb].
  - destruct (find_next_pos k true d (S i)) as (d' & i' & E & Hi' & Hns & _ & Hd); try done.
    + rewrite HK. apply shown_spec in Hsh as (p' & v' & E' & Hs & _).
      assert (p' = p) as -> by congruence. by eapply skips_after.
    + exists d'. split; [done|]. by rewrite (rank_none _ _ (S i) i' Hns Hi') in Hd.
  - eexists. split; [done|]. split; [done|]. split; [by eauto|]. cbn [valid_ set_valid save_key]. by apply rank_end.
Qed.

(** From before the current entry: the unseen ones, then the current one. *)
Lemma over_current k d n i p v :
  status_ d = ok -> direction_ d = kForward -> ipos (iter_ d) n -> (n <= i)%nat -> shown i = true ->
  P !! i = Some (p, v) -> saved_key_ d = user_key p -> (length P <= k + n)%nat ->
  (forall m q w, (n <= m < i)%nat -> P !! m = Some (q, w) -> snapshot < sequence q) ->
  exists d', find_next_user_entry ops kBytewise snapshot k true d = Some d' /\ dpos d' (S (rank i)).
Proof.
  intros Hst Hdir Hpos Hni Hsh Ep HK Hk Hnew. pose proof (shown_bound _ _ _ Hsh) as Hi.
  revert d n Hst Hdir Hpos Hni HK Hk Hnew. induction k as [|k IH]; intros d n Hst Hdir Hpos Hni HK Hk Hnew; [lia|].
  destruct (lookup_lt_is_Some_2 P n) as [[q w] Eq]; [lia|].
  destruct (iter_at _ _ _ _ Hpos Eq) as (_ & Hparse & _ & _). cbn [find_next_user_entry].
  unfold parse_key. rewrite Hparse. destruct (iter_next _ _ Hpos) as (it' & En & Hit & Hv); [lia|].
  destruct (decide (n = i)) as [->|Hne].
  - assert (q = p /\ w = v) as [-> ->] by (split; congruence).
    pose proof Hsh as (p' & v' & E' & Hs & Ht & _)%shown_spec. assert (p' = p) as -> by congruence.
    rewrite (proj2 (Z.leb_le _ _) Hs), Ht, HK. rewrite cmp_refl, bool_decide_true by done. cbn [andb].
    rewrite En. cbn [mbind option_bind].
    destruct (after_current (set_iter d it') i p v) with (k := k) as (d' & E & Hd); try done; [lia|].
    exists d'. split; [|done]. rewrite <- E. cbn [iter_ set_iter].
    by destruct (it_valid ops it').
  - pose proof (Hnew n q w ltac:(lia) Eq). rewrite (proj2 (Z.leb_gt _ _)) by lia.
    rewrite En. cbn [mbind option_bind]. rewrite Hv, (proj2 (Nat.ltb_lt _ _)) by lia.
    apply (IH (set_iter d it') (S n)); try done; [lia|lia|]. intros m q' w' Hm. apply (Hnew m q' w'). lia.
Qed.

Lemma dpos_valid d r : dpos d r -> (r < length V)%nat ->
  exists i, shown i = true /\ r = rank i /\ valid_ d = true /\ (forward_at d i \/ reverse_at d i).
Proof.
  intros (_ & _ & H) Hr. destruct (valid_ d); [|lia]. destruct H as (i & ? & ? & ?). eauto.
Qed.

Lemma next_dpos d r :
  dpos d r -> (r < length V)%nat -> exists d', next ops kBytewise snapshot fuel d = Some d' /\ dpos d' (S r).
Proof.
  intros Hd Hr. destruct (dpos_valid d r Hd Hr) as (i & Hsh & -> & _ & Hat). destruct Hd as (Hst & _ & _).
  pose proof (shown_bound _ _ _ Hsh) as Hi. destruct (lookup_lt_is_Some_2 P i Hi) as [[p v] Ep].
  unfold next. destruct Hat as [[Hdir Hpos]|(Hdir & (p' & v' & E' & HK & _) & n & Hn & Hpos & Hnew)];
    rewrite Hdir.
  - destruct (iter_at _ _ _ _ Hpos Ep) as (_ & _ & -> & _). cbn [iter_ save_key].
    destruct (iter_next _ _ Hpos Hi) as (it' & -> & Hit & _). cbn [mbind option_bind].
    eapply (after_current (set_iter (save_key d (user_key p)) it') i p v); try done. lia.
  - assert (p' = p /\ v' = v) as [-> ->] by (split; congruence). cbn [iter_ set_direction].
    assert (exists it', (if negb (it_valid ops (iter_ d)) then it_seek_to_first ops (iter_ d)
      else it_next ops (iter_ d)) = Some it' /\ ipos it' n) as (it' & -> & Hit).
    { rewrite (si_valid _ _ Hpos), length_fmap. destruct n as [|m]; cbn [before] in *.
      - rewrite Nat.ltb_irrefl. by eapply si_first.
      - rewrite (proj2 (Nat.ltb_lt _ _)) by lia.
        destruct (iter_next _ _ Hpos) as (it' & ? & ? & _); [lia|]. eauto. }
    cbn [mbind option_bind iter_ set_iter]. rewrite (si_valid _ _ Hit), length_fmap.
    rewrite (proj2 (Nat.ltb_lt _ _)) by lia. cbn [negb].
    eapply (over_current fuel (set_iter (set_direction d kForward) it') n i p v); try done. lia.
Qed.

Lemma prev_dpos d r :
  dpos d r -> (r < length V)%nat ->
  exists d', prev ops kBytewise snapshot fuel d = Some d' /\ dpos d' (if r is S j then j else length V).
Proof.
  intros Hd Hr. destruct (dpos_valid d r Hd Hr) as (i & Hsh & -> & _ & Hat). destruct Hd as (Hst & _ & _).
  pose proof (shown_bound _ _ _ Hsh) as Hi. destruct (lookup_lt_is_Some_2 P i Hi) as [[p v] Ep].
  unfold prev. destruct Hat as [[Hdir Hpos]|(Hdir & _ & n & Hn & Hpos & Hnew)]; rewrite Hdir.
  - destruct (iter_at _ _ _ _ Hpos Ep) as (_ & _ & -> & _).
    destruct (leave_key_pos fuel (save_key d (user_key p)) i i p v) as (d' & n & Hn & Hs' & Hp' & Hsame & -> & Hv);
      try done; [lia| |].
    { intros j q w Hj Ej. assert (j = i) as -> by lia. congruence. }
    assert (none_shown n i) as Hns.
    { intros j Hj. apply not_true_iff_false. intros (q & w & Ej & Hsq & _)%shown_spec.
      pose proof Hsh as (p' & v' & E' & _ & _ & Hf)%shown_spec. assert (p' = p) as -> by congruence.
      apply (Hf j q w); [lia|done|done|]. apply (Hsame j q w); [lia|done]. }
    rewrite (rank_none _ _ n i Hns Hn). cbn [mbind option_bind]. destruct n as [|n].
    + eexists. split; [done|]. split; [done|]. split; [by eauto|]. by rewrite Hv.
    + apply (find_prev_pos (set_direction d' kReverse)); try done. lia.
  - assert (none_shown n i) as Hns.
    { intros j Hj. destruct (lookup_lt_is_Some_2 P j) as [[q w] Ej]; [lia|].
      eapply unseen_not_shown; [done|]. by eapply Hnew. }
    rewrite (rank_none _ _ n i Hns Hn). apply find_prev_pos; try done. lia.
Qed.

(** A forward scan from the first entry at or after [q]. *)
Lemma scan_from d q :
  status_ d = ok -> direction_ d = kForward -> ipos (iter_ d) q -> (q <= length P)%nat ->
  skips q false (saved_key_ d) ->
  exists d' i, (if it_valid ops (iter_ d) then find_next_user_entry ops kBytewise snapshot fuel false d
                else Some (set_valid d false)) = Some d' /\
    (q <= i)%nat /\ none_shown q i /\ (i = length P \/ shown i = true) /\ dpos d' (rank i).
Proof.
  intros Hst Hdir Hpos Hq Hsk. rewrite (si_valid _ _ Hpos), length_fmap.
  destruct (Nat.ltb_spec q (length P)) as [Hlt|Hge].
  - apply find_next_pos; try done. lia.
  - eexists _, q. split; [done|]. split_and!; [lia|intros m Hm; lia|left; lia|].
    split; [done|]. split; [by eauto|]. cbn. by apply rank_end.
Qed.

(** Where a lookup key falls among the entries. *)
Lemma around_lookup target j p v :
  P !! j = Some (p, v) ->
  let q := lower_bound kInternal (encode_entry <$> P) (make_lookup_key target snapshot) in
  ((j < q)%nat -> sequence p <= snapshot -> user_lt (user_key p) target) /\
  ((q <= j)%nat -> ~ user_lt (user_key p) target).
Proof.
  intros Ej q. pose proof (compare_lookup target (user_key p) snapshot (sequence p) (type p) Hsnapshot (Hseq _ _ _ Ej)) as C.
  split.
  - intros Hj Hs. pose proof (lower_bound_below kInternal _ _ j _ _ Hj (encoded_lookup _ _ _ Ej)) as Hlt.
    unfold key_lt in *. cbn [compare kInternal kBytewise] in *. unfold bytewise_compare. rewrite C in Hlt.
    destruct (sv_compare (user_key p) target); try done.
    rewrite (proj2 (Z.ltb_ge _ _)) in Hlt by lia. by destruct (_ && _).
  - intros Hj Hlt. destruct (lookup_lt_is_Some_2 P q) as [[pq vq] Eq]; [apply lookup_lt_Some in Ej; lia|].
    apply (lower_bound_at kInternal _ _ _ _ (encoded_lookup _ _ _ Eq)).
    unfold key_lt in *. cbn [compare kInternal kBytewise] in *. unfold bytewise_compare in Hlt. fold q.
    rewrite (compare_lookup target (user_key pq) snapshot (sequence pq) (type pq) Hsnapshot (Hseq _ _ _ Eq)).
    assert (user_lt (user_key pq) target) as Hq; [|by rewrite (Hq : sv_compare _ _ = Lt)].
    eapply key_le_lt_trans; [unfold readable; cbn; lia..| |exact Hlt].
    apply key_not_lt. eapply (user_le q j); [lia|done|done].
Qed.

Lemma seek_dpos d r target :
  dpos d r -> size target < 2 ^ 32 - 8 ->
  exists d', seek ops kBytewise snapshot fuel d target = Some d' /\ dpos d' (lower_bound kBytewise V target).
Proof.
  intros (Hst & [q0 Hq0] & _) Hsize. unfold seek. cbn [iter_ set_iter save_key saved_key_ clear_saved_value set_saved_value set_direction].
  destruct (si_seek _ _ (make_lookup_key target snapshot) Hq0) as (it' & -> & Hit).
  { unfold make_lookup_key, size in *. rewrite length_make_internal_key. lia. }
  cbn [mbind option_bind]. set (q := lower_bound _ _ _) in Hit.
  pose proof (fun j p v E => around_lookup target j p v E) as Ha. cbv zeta in Ha. fold q in Ha.
  set (d1 := set_iter _ _). change it' with (iter_ d1).
  assert (q <= length P)%nat as Hq by (unfold q; etrans; [apply lower_bound_le|by rewrite length_fmap]).
  destruct (scan_from d1 q) as (d' & i & E & Hqi & Hns & Hi & Hd); try done.
  { intros m p v Hm Em Hs. split; [done|]. intros _ j pj vj Hj Ej Hsj Eu.
    destruct (Ha _ _ _ Em) as [_ H1]. destruct (Ha _ _ _ Ej) as [H2 _]. apply (H1 Hm).
    rewrite <- Eu. by apply H2. }
  exists d'. split; [done|]. replace (lower_bound kBytewise V target) with (rank i); [done|].
  apply lower_bound_unique.
  - destruct Hi as [->|Hi]; [by rewrite rank_end|]. pose proof (rank_lt _ _ i Hi). lia.
  - intros r' k v Hr' (i' & p & v' & Hsh & <- & Ep & [= -> ->])%visible_inv.
    destruct (decide (i' < q)%nat) as [Hlt|Hge].
    + apply (Ha _ _ _ Ep); [done|]. apply shown_spec in Hsh as (p' & ? & E' & ? & _).
      by assert (p' = p) as -> by congruence.
    + destruct (decide (i' < i)%nat) as [Hlt'|Hge'].
      * rewrite (Hns i') in Hsh by lia. done.
      * pose proof (rank_mono snapshot P i i' ltac:(lia)). lia.
  - intros k v Hk. destruct Hi as [->|Hi].
    + rewrite rank_end in Hk by done. apply lookup_lt_Some in Hk. lia.
    + destruct (lookup_lt_is_Some_2 P i) as [[p w] Ep]; [by apply shown_bound in Hi|].
      rewrite (visible_lookup _ _ i p w Hi Ep) in Hk. injection Hk as <- <-.
      by apply (Ha _ _ _ Ep).
Qed.

#[global] Instance db_iterator_sorted :
  SortedIteratorUpTo (2 ^ 32 - 8) (db_iterator ops kBytewise snapshot fuel) kBytewise V dpos.
Proof.
  constructor; unfold db_iterator;
    cbn [it_valid it_key it_value it_status it_next it_prev it_seek it_seek_to_first it_seek_to_last].
  - intros d r (_ & _ & H). destruct (valid_ d); [|lia]. destruct H as (i & Hsh & -> & _).
    pose proof (rank_lt _ _ i Hsh). lia.
  - intros d r (_ & _ & H). unfold valid. destruct (valid_ d).
    + destruct H as (i & Hsh & -> & _). rewrite (proj2 (Nat.ltb_lt _ _)); [done|]. by apply rank_lt.
    + subst r. by rewrite Nat.ltb_irrefl.
  - intros d r k v Hd Hk. pose proof (lookup_lt_Some _ _ _ Hk) as Hr.
    destruct (dpos_valid d r Hd Hr) as (i & Hsh & -> & _ & Hat).
    destruct (lookup_lt_is_Some_2 P i) as [[p w] Ep]; [by apply shown_bound in Hsh|].
    rewrite (visible_lookup _ _ i p w Hsh Ep) in Hk. injection Hk as <- <-. unfold key, value.
    destruct Hat as [[-> Hpos]|(-> & (p' & v' & E' & -> & ->) & _)].
    + by destruct (iter_at _ _ _ _ Hpos Ep) as (_ & _ & -> & ->).
    + by assert (p' = p /\ v' = w) as [-> ->] by (split; congruence).
  - intros d r (Hst & [q Hq] & _). unfold status. rewrite Hst. cbn. by eapply si_status.
  - apply next_dpos.
  - apply prev_dpos.
  - intros d r (Hst & [q0 Hq0] & _). unfold seek_to_first. cbn [iter_ set_direction clear_saved_value set_saved_value].
    destruct (si_first _ _ Hq0) as (it' & -> & Hit). cbn [mbind option_bind].
    set (d1 := set_iter _ _). change it' with (iter_ d1).
    destruct (scan_from d1 0) as (d' & i & -> & Hqi & Hns & _ & Hd); try done; [lia| |].
    { intros m p v Hm Em Hs. split; [done|]. intros _ j pj vj Hj. lia. }
    exists d'. split; [done|]. by rewrite (rank_none _ _ 0 i Hns Hqi) in Hd.
  - intros d r (Hst & [q0 Hq0] & _). unfold seek_to_last. cbn [iter_ set_direction clear_saved_value set_saved_value].
    destruct (si_last _ _ Hq0) as (it' & -> & Hit). rewrite length_fmap in Hit. cbn [mbind option_bind].
    destruct (find_prev_pos (set_iter (clear_saved_value (set_direction d kReverse)) it') (length P))
      as (d' & -> & Hd); try done.
    exists d'. split; [done|]. rewrite rank_end in Hd by done. exact Hd.
  - intros d r target. apply seek_dpos.
Qed.

(** ** What the view is *)
Lemma visible_sorted : sorted_by kBytewise V.
Proof.
  unfold sorted_by, visible_entries. assert (forall n, StronglySorted user_lt (fst <$> view snapshot P n)); [|done].
  intros n. induction n as [|n IH]; [constructor|].
  destruct (shown n) eqn:En; [|by rewrite view_hidden].
  destruct (view_shown _ _ n En) as (p & v & E & Ev). rewrite Ev, fmap_app. cbn.
  apply StronglySorted_app_2; [|done|repeat constructor]. intros k1 k2 H1 ->%list_elem_of_singleton.
  apply list_elem_of_fmap in H1 as ([k w] & -> & Hin). cbn.
  unfold view in Hin. apply list_elem_of_omap in Hin as (m & Hm & Hin).
  apply elem_of_seq in Hm. unfold user_entry in Hin. destruct (DbIter.shown snapshot P m) eqn:Em; [|done].
  apply fmap_Some in Hin as ([q w'] & Eq & [= -> ->]).
  apply user_lt_of_ne; [eapply (user_le m n); [lia|done|done]|].
  pose proof En as (p' & v' & E' & _ & _ & Hf)%shown_spec. assert (p' = p) as -> by congruence.
  pose proof Em as (q' & ? & Eq' & Hs & _)%shown_spec. assert (q' = q) as -> by congruence.
  intros Eu. by apply (Hf m q w' ltac:(lia) Eq Hs).
Qed.

Lemma visible_iff u v :
  (u, v) ∈ V <-> exists s, (mkParsed u s kValue, v) ∈ P /\ s <= snapshot /\
    forall s' t' v', (mkParsed u s' t', v') ∈ P -> s' <= snapshot -> s' <= s.
Proof.
  split.
  - intros [r Hr]%list_elem_of_lookup. apply visible_inv in Hr as (i & [u' s t] & w & Hsh & _ & Ep & [= -> ->]).
    apply shown_spec in Hsh as (p' & v' & E' & Hs & Ht & Hf). assert (p' = mkParsed u' s t) as -> by congruence.
    cbn in Ht, Hs, Hf. subst t. exists s. split; [by eapply list_elem_of_lookup_2|]. split; [done|].
    intros s' t' v'' [j Hj]%list_elem_of_lookup Hs'.
    destruct (decide (s' <= s)) as [|Hgt]; [done|]. exfalso.
    destruct (Nat.lt_trichotomy j i) as [Hlt|[->|Hlt]]; [by apply (Hf j _ _ Hlt Hj)|simplify_eq; lia|].
    pose proof (sorted_lookup kInternal _ i j _ _ _ _ Hsorted Hlt (encoded_lookup _ _ _ Ep) (encoded_lookup _ _ _ Hj)) as C.
    unfold key_lt in C. cbn [compare kInternal user_key sequence type] in C. rewrite compare_make in C by (apply (Hseq _ _ _ Ep) || apply (Hseq _ _ _ Hj)).
    rewrite sv_compare_refl in C. by rewrite (proj2 (Z.compare_gt_iff _ _)) in C by lia.
  - intros (s & [i Hi]%list_elem_of_lookup & Hs & Hmax).
    assert (shown i = true) as Hsh.
    { apply shown_spec. eexists _, _. split; [done|]. split_and!; [done|done|].
      intros j [u' s' t'] v' Hj Ej Hs' Eu. cbn in Hs', Eu. subst u'.
      pose proof (Hmax s' t' v' ltac:(by eapply list_elem_of_lookup_2) Hs') as Hle.
      pose proof (sorted_lookup kInternal _ j i _ _ _ _ Hsorted Hj (encoded_lookup _ _ _ Ej) (encoded_lookup _ _ _ Hi)) as C.
      unfold key_lt in C. cbn [compare kInternal user_key sequence type] in C. rewrite compare_make in C by (apply (Hseq _ _ _ Ej) || apply (Hseq _ _ _ Hi)).
      rewrite sv_compare_refl in C.
      destruct (Z.compare_spec s s'); [|lia|done]. by destruct t'. }
    apply list_elem_of_lookup. exists (rank i). by apply (visible_lookup _ _ i _ v Hsh Hi).
Qed.
End Proofs.

(** * Theorem *)

(** C9. A scan shows the database as of its snapshot: over any iterator of
    internal entries in order, the entries shown are in increasing user key,
    and are exactly the user keys whose newest version at or below the
    snapshot is a value, with that value - a deletion hides every older
    version, a newer write is not seen.  Every sequence of seeks, [next]s and
    [prev]s, changes of direction included, shows what a cursor over those
    entries would, with an ok status, and no loop runs for more rounds than
    there are internal entries. *)
Theorem db_iterator_shows_newest_visible {I} (ops : Iterator I) snapshot fuel P ipos internal_iter i :
  seq_ok snapshot ->
  (forall i p v, P !! i = Some (p, v) -> seq_ok (sequence p)) ->
  sorted_by kInternal (encode_entry <$> P) ->
  SortedIterator ops kInternal (encode_entry <$> P) ipos ->
  ipos internal_iter i ->
  (length P <= fuel)%nat ->
  let V := visible_entries snapshot P in
  sorted_by kBytewise V /\
  (forall u v, (u, v) ∈ V <-> exists s, (mkParsed u s kValue, v) ∈ P /\ s <= snapshot /\
     forall s' t' v', (mkParsed u s' t', v') ∈ P -> s' <= snapshot -> s' <= s) /\
  forall ms j, cursor_calls (2 ^ 32 - 8) kBytewise V (length V) ms = Some j ->
    exists d, calls (db_iterator ops kBytewise snapshot fuel) (new_db_iterator internal_iter) ms = Some d /\
      shows (db_iterator ops kBytewise snapshot fuel) d V j.
Proof.
  intros Hsn Hseq Hs SI Hi Hf V. split; [by eapply visible_sorted|]. split; [by eapply visible_iff|].
  intros ms j Hj. pose proof (db_iterator_sorted ops snapshot fuel P ipos Hsn Hseq Hs SI Hf) as DI.
  destruct (si_calls _ _ kBytewise V _ ms (new_db_iterator internal_iter) (length V) j) as (d & E & Hd);
    [|done|].
  - split; [done|]. split; [by eauto|]. done.
  - exists d. split; [done|]. by eapply si_shows.
Qed.

(** Two versions of [a], a deleted [b], and a [c] newer than the snapshot. *)
Definition sample_versions : list (ParsedInternalKey * bytes) :=
  [(mkParsed [x61] 5 kValue, [x35]); (mkParsed [x61] 2 kValue, [x32]);
   (mkParsed [x62] 4 kDeletion, []); (mkParsed [x62] 1 kValue, [x31]);
   (mkParsed [x63] 9 kValue, [x39]); (mkParsed [x64] 3 kValue, [x33])].

Lemma db_iterator_shows_newest_visible_witness :
  let ops := db_iterator (list_iterator kInternal) kBytewise 6 6 in
  visible_entries 6 sample_versions = [([x61], [x35]); ([x64], [x33])] /\
  exists d, calls ops (new_db_iterator (encode_entry <$> sample_versions, 0%nat))
      [Seek [x62]; Prev; Next; Prev] = Some d /\
    shows ops d (visible_entries 6 sample_versions) 0.
Proof.
  split; [reflexivity|].
  apply (db_iterator_shows_newest_visible (list_iterator kInternal) 6 6 sample_versions
    (λ it i, it = (encode_entry <$> sample_versions, i) /\
       (i <= length (encode_entry <$> sample_versions))%nat)
    (encode_entry <$> sample_versions, 0%nat) 0).
  - vm_compute. split; discriminate.
  - intros i p v H. repeat (destruct i as [|i]; [injection H as <- <-; vm_compute; split; discriminate|]).
    discriminate H.
  - repeat constructor.
  - apply list_iterator_sorted.
  - split; [done|lia].
  - cbn. lia.
  - reflexivity.
Defined.

End DbIter.
