(* ===== verification/Cache.v ===== *)
(** The block cache (src/include/ambar/cache.hpp, src/src/cache.cpp).

    The entries live in a memory of addresses, as they do in the program: the
    two recency lists are doubly linked through [next] and [prev] with a
    sentinel each, a bucket's chain goes through [hash_next], and [refs] counts
    the users of an entry plus one while it is in the table.  A read or a write
    through a null or freed address, and a failed assertion, is [None].  The
    address [operator new] returns is an argument of [insert], any address that
    is not in use; the call of a deleter is the value it is called with,
    appended to [deleted].  A shard's calls run under its mutex, so a shard's
    history is a sequence of whole calls. *)
From S2P Require Import Prelude Hash.
From stdpp Require Import functions gmap.
Import Hash.
Local Open Scope Z_scope.

Module Cache.

Definition null : nat := 0.
Definition lru_head : nat := 1.     (* &lru_.head_ *)
Definition in_use_head : nat := 2.  (* &in_use_.head_ *)

Section Cache.
Context {V : Type}.

Record LRUEntry := mkEntry {
  value : option V;
  key : bytes;
  hash : Z;
  charge : Z;
  refs : Z;
  in_cache : bool;
  next : nat;
  prev : nat;
  hash_next : nat
}.

(** The default member initialisers. *)
Definition LRUEntry_new : LRUEntry := mkEntry None [] 0 0 0 false null null null.

Definition set_next (q : nat) (e : LRUEntry) : LRUEntry :=
  mkEntry (value e) (key e) (hash e) (charge e) (refs e) (in_cache e) q (prev e) (hash_next e).
Definition set_prev (q : nat) (e : LRUEntry) : LRUEntry :=
  mkEntry (value e) (key e) (hash e) (charge e) (refs e) (in_cache e) (next e) q (hash_next e).
Definition set_hash_next (q : nat) (e : LRUEntry) : LRUEntry :=
  mkEntry (value e) (key e) (hash e) (charge e) (refs e) (in_cache e) (next e) (prev e) q.
Definition set_refs (n : Z) (e : LRUEntry) : LRUEntry :=
  mkEntry (value e) (key e) (hash e) (charge e) n (in_cache e) (next e) (prev e) (hash_next e).
Definition set_in_cache (b : bool) (e : LRUEntry) : LRUEntry :=
  mkEntry (value e) (key e) (hash e) (charge e) (refs e) b (next e) (prev e) (hash_next e).

Record LRUShard := mkShard {
  memory : gmap nat LRUEntry;
  deleted : list V;
  capacity_ : Z;
  usage_ : Z;
  buckets_ : gmap Z nat
}.

Definition set_memory (m : gmap nat LRUEntry) (s : LRUShard) : LRUShard :=
  mkShard m (deleted s) (capacity_ s) (usage_ s) (buckets_ s).
Definition set_usage (n : Z) (s : LRUShard) : LRUShard :=
  mkShard (memory s) (deleted s) (capacity_ s) n (buckets_ s).
Definition set_buckets (b : gmap Z nat) (s : LRUShard) : LRUShard :=
  mkShard (memory s) (deleted s) (capacity_ s) (usage_ s) b.

(** ** Statements: a shard before, a result and the shard after. *)
Definition M (A : Type) : Type := LRUShard -> option (A * LRUShard).
#[local] Instance M_ret : MRet M := λ A a s, Some (a, s).
#[local] Instance M_bind : MBind M := λ A B f m s,
  match m s with Some (a, s') => f a s' | None => None end.
Definition undefined {A} : M A := λ _, None.
Definition get {A} (f : LRUShard -> A) : M A := λ s, Some (f s, s).
Definition put (f : LRUShard -> LRUShard) : M unit := λ s, Some (tt, f s).
Definition assert (b : bool) : M unit := if b then mret tt else undefined.

Definition load (p : nat) : M LRUEntry := λ s,
  match memory s !! p with Some e => Some (e, s) | None => None end.
Definition update (p : nat) (f : LRUEntry -> LRUEntry) : M unit := λ s,
  match memory s !! p with
  | Some _ => Some (tt, set_memory (alter f p (memory s)) s)
  | None => None
  end.

(** ** HashTable *)
Fixpoint find_loop (fuel : nat) (entry : nat) (k : bytes) : M nat :=
  match fuel with
  | O => undefined
  | S fuel' =>
      if (entry =? null)%nat then mret null
      else
        e ← load entry;
        if decide (key e = k) then mret entry else find_loop fuel' (hash_next e) k
  end.
(** Enough for any chain: its entries are distinct and in memory. *)
Definition chain_fuel : M nat := get (λ s, S (stdpp.base.size (memory s))).
Definition table_find (k : bytes) (h : Z) : M nat :=
  it ← get (λ s, buckets_ s !! h);
  match it with
  | None => mret null
  | Some head => fuel ← chain_fuel; find_loop fuel head k
  end.

(** A [LRUEntry**]: a bucket's slot, or an entry's [hash_next]. *)
Inductive Link := Slot (h : Z) | HashNext (p : nat).
Definition read_link (l : Link) : M nat :=
  match l with
  | Slot h => slot ← get (λ s, buckets_ s !! h);
              match slot with Some p => mret p | None => undefined end
  | HashNext p => e ← load p; mret (hash_next e)
  end.
Definition write_link (l : Link) (q : nat) : M unit :=
  match l with
  | Slot h => put (λ s, set_buckets (<[h := q]> (buckets_ s)) s)
  | HashNext p => update p (set_hash_next q)
  end.

(** [buckets_[h]]: an absent slot is created null. *)
Definition touch_slot (h : Z) : M unit :=
  put (λ s, match buckets_ s !! h with
            | Some _ => s
            | None => set_buckets (<[h := null]> (buckets_ s)) s
            end).

(** The entry replaced, or [None] when the loop ends. *)
Fixpoint insert_loop (fuel : nat) (link : Link) (entry : nat) : M (option nat) :=
  match fuel with
  | O => undefined
  | S fuel' =>
      old ← read_link link;
      if (old =? null)%nat then mret None
      else
        o ← load old;
        e ← load entry;
        if decide (key o = key e) then
          update entry (set_hash_next (hash_next o)) ;;
          write_link link entry ;;
          update old (set_hash_next null) ;;
          mret (Some old)
        else insert_loop fuel' (HashNext old) entry
  end.
Definition table_insert (entry : nat) : M nat :=
  e ← load entry;
  touch_slot (hash e) ;;
  fuel ← chain_fuel;
  replaced ← insert_loop fuel (Slot (hash e)) entry;
  match replaced with
  | Some old => mret old
  | None =>
      first ← read_link (Slot (hash e));
      update entry (set_hash_next first) ;;
      write_link (Slot (hash e)) entry ;;
      mret null
  end.

Fixpoint remove_loop (fuel : nat) (link : Link) (entry : nat) : M unit :=
  match fuel with
  | O => undefined
  | S fuel' =>
      p ← read_link link;
      if (p =? null)%nat then mret tt
      else if (p =? entry)%nat then
        e ← load entry;
        write_link link (hash_next e) ;;
        update entry (set_hash_next null)
      else remove_loop fuel' (HashNext p) entry
  end.
Definition table_remove (entry : nat) : M unit :=
  e ← load entry;
  it ← get (λ s, buckets_ s !! hash e);
  assert (bool_decide (is_Some it)) ;;
  fuel ← chain_fuel;
  remove_loop fuel (Slot (hash e)) entry ;;
  first ← read_link (Slot (hash e));
  if (first =? null)%nat then put (λ s, set_buckets (delete (hash e) (buckets_ s)) s)
  else mret tt.

(** ** LRUList *)
Definition list_empty (head : nat) : M bool :=
  h ← load head; mret (next h =? head)%nat.
Definition oldest (head : nat) : M nat := h ← load head; mret (next h).

Definition list_remove (entry : nat) : M unit :=
  e ← load entry;
  update (prev e) (set_next (next e)) ;;
  e ← load entry;
  update (next e) (set_prev (prev e)).

Definition list_append (head entry : nat) : M unit :=
  update entry (set_next head) ;;
  h ← load head;
  update entry (set_prev (prev h)) ;;
  e ← load entry;
  update (prev e) (set_next entry) ;;
  e ← load entry;
  update (next e) (set_prev entry).

(** ** LRUShard *)
Definition LRUShard_new (capacity : Z) : LRUShard :=
  let head p := mkEntry None [] 0 0 0 false p p null in
  mkShard (<[lru_head := head lru_head]> (<[in_use_head := head in_use_head]> ∅)) [] capacity 0 ∅.

Definition unref (entry : nat) : M unit :=
  e ← load entry;
  assert (0 <? refs e) ;;
  update entry (set_refs (refs e - 1)) ;;
  e ← load entry;
  if refs e =? 0 then
    assert (negb (in_cache e)) ;;
    match value e with
    | Some v => put (λ s, mkShard (delete entry (memory s)) (deleted s ++ [v]) (capacity_ s) (usage_ s) (buckets_ s))
    | None => undefined
    end
  else mret tt.

Definition finish_erase (entry : nat) (in_table : bool) : M unit :=
  e ← load entry;
  assert (in_cache e) ;;
  list_remove entry ;;
  update entry (set_in_cache false) ;;
  e ← load entry;
  put (λ s, set_usage (u64 (usage_ s - charge e)) s) ;;
  (if in_table then table_remove entry else mret tt) ;;
  unref entry.

Fixpoint evict_loop (fuel : nat) : M unit :=
  match fuel with
  | O => undefined
  | S fuel' =>
      over ← get (λ s, capacity_ s <? usage_ s);
      empty ← list_empty lru_head;
      if over && negb empty then
        entry ← oldest lru_head;
        finish_erase entry true ;;
        evict_loop fuel'
      else mret tt
  end.
Definition evict_to_capacity : M unit := fuel ← chain_fuel; evict_loop fuel.

(** [addr] is the address [new LRUEntry()] returned. *)
Definition insert (addr : nat) (k : bytes) (h : Z) (v : V) (c : Z) : M nat :=
  slot ← get (λ s, memory s !! addr);
  match slot with
  | Some _ => undefined
  | None =>
      put (λ s, set_memory (<[addr := mkEntry (Some v) k h c 2 true null null null]> (memory s)) s) ;;
      put (λ s, set_usage (u64 (usage_ s + c)) s) ;;
      list_append in_use_head addr ;;
      old ← table_insert addr;
      (if (old =? null)%nat then mret tt else finish_erase old false) ;;
      evict_to_capacity ;;
      mret addr
  end.

Definition lookup (k : bytes) (h : Z) : M nat :=
  entry ← table_find k h;
  if (entry =? null)%nat then mret null
  else
    e ← load entry;
    update entry (set_refs (u32 (refs e + 1))) ;;
    list_remove entry ;;
    list_append in_use_head entry ;;
    mret entry.

Definition release (entry : nat) : M unit :=
  e ← load entry;
  (if (refs e =? 2) && in_cache e then
     list_remove entry ;;
     list_append lru_head entry
   else mret tt) ;;
  unref entry ;;
  evict_to_capacity.

Definition erase (k : bytes) (h : Z) : M unit :=
  entry ← table_find k h;
  if (entry =? null)%nat then mret tt else finish_erase entry true.

Definition usage (s : LRUShard) : Z := usage_ s.

(** [~LRUShard]: [for_each] over the buckets, in the order the map has them. *)
Definition destroy_entry (entry : nat) : M unit :=
  update entry (set_in_cache false) ;;
  e ← load entry;
  assert (refs e =? 1) ;;
  unref entry.
Fixpoint destroy_chain (fuel : nat) (entry : nat) : M unit :=
  match fuel with
  | O => undefined
  | S fuel' =>
      if (entry =? null)%nat then mret tt
      else
        e ← load entry;
        destroy_entry entry ;;
        destroy_chain fuel' (hash_next e)
  end.
Fixpoint destroy (order : list Z) : M unit :=
  match order with
  | [] => mret tt
  | h :: order' =>
      it ← get (λ s, buckets_ s !! h);
      match it with
      | None => undefined
      | Some head => fuel ← chain_fuel; destroy_chain fuel head ;; destroy order'
      end
  end.

(** ** ShardedLRUCache: the memory is split by shard; an address is in at most
    one of them. *)
Record ShardedLRUCache := mkCache {
  shards_ : list LRUShard;
  last_id_ : Z
}.
Definition kShardBits : Z := 4.
Definition kShards : Z := 1 .<< kShardBits.
Definition new_lru_cache (capacity : Z) : ShardedLRUCache :=
  let per_shard := u64 (capacity + kShards - 1) / kShards in
  mkCache (replicate (Z.to_nat kShards) (LRUShard_new per_shard)) 0.

Definition shard_for (h : Z) : nat := Z.to_nat (h .>> (64 - kShardBits)).
Definition on_shard {A} (c : ShardedLRUCache) (h : Z) (m : M A) : option (A * ShardedLRUCache) :=
  shard ← shards_ c !! shard_for h;
  '(a, shard) ← m shard;
  Some (a, mkCache (<[shard_for h := shard]> (shards_ c)) (last_id_ c)).

(** The entry a handle points to. *)
Fixpoint entry_at (shards : list LRUShard) (handle : nat) : option LRUEntry :=
  match shards with
  | [] => None
  | s :: shards' =>
      match memory s !! handle with Some e => Some e | None => entry_at shards' handle end
  end.

Definition cache_insert (c : ShardedLRUCache) (addr : nat) (k : bytes) (v : V) (ch : Z) :
    option (nat * ShardedLRUCache) :=
  match entry_at (shards_ c) addr with
  | Some _ => None
  | None => let h := hash64 k in on_shard c h (insert addr k h v ch)
  end.
Definition cache_lookup (c : ShardedLRUCache) (k : bytes) : option (nat * ShardedLRUCache) :=
  let h := hash64 k in on_shard c h (lookup k h).
Definition cache_release (c : ShardedLRUCache) (handle : nat) : option ShardedLRUCache :=
  e ← entry_at (shards_ c) handle;
  snd <$> on_shard c (hash e) (release handle).
Definition cache_value (c : ShardedLRUCache) (handle : nat) : option V :=
  e ← entry_at (shards_ c) handle; value e.
Definition cache_erase (c : ShardedLRUCache) (k : bytes) : option ShardedLRUCache :=
  let h := hash64 k in snd <$> on_shard c h (erase k h).
Definition new_id (c : ShardedLRUCache) : Z * ShardedLRUCache :=
  let id := u64 (last_id_ c + 1) in (id, mkCache (shards_ c) id).
(** The destructor, with the order in which each shard's map has its buckets. *)
Fixpoint destroy_shards (orders : list (list Z)) (shards : list LRUShard) : option (list LRUShard) :=
  match orders, shards with
  | order :: orders', s :: shards' =>
      '(_, s) ← destroy order s;
      shards ← destroy_shards orders' shards';
      Some (s :: shards)
  | [], [] => Some []
  | _, _ => None
  end.
Definition total_charge (c : ShardedLRUCache) : Z :=
  fold_left (λ total s, u64 (total + usage s)) (shards_ c) 0.


(** ** Running statements *)
Lemma load_bind {A} p e (f : LRUEntry -> M A) s :
  memory s !! p = Some e -> (load p ≫= f) s = f e s.
Proof. intros E. unfold mbind, M_bind, load. by rewrite E. Qed.
Lemma update_run p g s :
  is_Some (memory s !! p) -> update p g s = Some (tt, set_memory (alter g p (memory s)) s).
Proof. intros [e E]. unfold update. by rewrite E. Qed.
Lemma run_bind {A B} (m : M A) (f : A -> M B) s a s' :
  m s = Some (a, s') -> (m ≫= f) s = f a s'.
Proof. intros E. unfold mbind, M_bind. by rewrite E. Qed.
Lemma put_bind {A} g (f : unit -> M A) s : (put g ≫= f) s = f tt (g s).
Proof. done. Qed.
Lemma update_bind {A} p g (f : unit -> M A) s :
  is_Some (memory s !! p) -> (update p g ≫= f) s = f tt (set_memory (alter g p (memory s)) s).
Proof. intros E. by apply run_bind, update_run. Qed.

(** A write leaves the fields it does not write. *)
Lemma alter_field {B} (field : LRUEntry -> B) g p q (m : gmap nat LRUEntry) :
  (forall e, field (g e) = field e) -> field <$> alter g q m !! p = field <$> m !! p.
Proof.
  intros Hg. rewrite lookup_alter. case_decide as E; [subst q|done].
  destruct (m !! p); cbn; [by rewrite Hg|done].
Qed.

(** ** The doubly linked lists *)
Definition linked (m : gmap nat LRUEntry) (a b : nat) : Prop :=
  next <$> m !! a = Some b /\ prev <$> m !! b = Some a.
Fixpoint path (m : gmap nat LRUEntry) (c : list nat) : Prop :=
  match c with
  | a :: (b :: _) as c' => linked m a b /\ path m c'
  | _ => True
  end.
(** The list of sentinel [h] holds [xs], oldest first. *)
Definition dll (m : gmap nat LRUEntry) (h : nat) (xs : list nat) : Prop := path m (h :: xs ++ [h]).

(** What the recency lists do not touch. *)
Definition strip (e : LRUEntry) : LRUEntry := set_next null (set_prev null e).
Definition same_payload (m m' : gmap nat LRUEntry) : Prop :=
  forall p, strip <$> m' !! p = strip <$> m !! p.

Lemma path_cons m a b c : path m (a :: b :: c) <-> linked m a b /\ path m (b :: c).
Proof. done. Qed.
Lemma path_app m l1 a l2 : path m (l1 ++ a :: l2) <-> path m (l1 ++ [a]) /\ path m (a :: l2).
Proof.
  induction l1 as [|x [|y l1] IH]; cbn [app].
  - cbn [path]. tauto.
  - rewrite (path_cons m x a l2), (path_cons m x a []). cbn [path]. tauto.
  - cbn [app] in IH. rewrite !(path_cons m x y), IH. tauto.
Qed.

(** Writes to [next] of [na] and to [prev] of [pb] leave every other link. *)
Definition links_kept (m m' : gmap nat LRUEntry) (na pb : list nat) : Prop :=
  (forall p, p ∉ na -> next <$> m' !! p = next <$> m !! p) /\
  (forall p, p ∉ pb -> prev <$> m' !! p = prev <$> m !! p).
Lemma path_kept m m' na pb x c y :
  links_kept m m' na pb -> x :: c ## na -> c ++ [y] ## pb -> path m (x :: c ++ [y]) -> path m' (x :: c ++ [y]).
Proof.
  intros [Hn Hp]. revert x. induction c as [|z c IH]; cbn [app]; intros x Ha Hb [[Hxn Hxp] Hc].
  - repeat split; [rewrite Hn | rewrite Hp]; [done|set_solver +Ha|done|set_solver +Hb].
  - repeat split; [rewrite Hn | rewrite Hp | apply IH];
      [done|set_solver +Ha|done|set_solver +Hb|set_solver +Ha|set_solver +Hb|done].
Qed.

(** Making [a] and [b] neighbours. *)
Definition link (m : gmap nat LRUEntry) (a b : nat) : gmap nat LRUEntry :=
  alter (set_prev a) b (alter (set_next b) a m).
Lemma link_kept m a b : links_kept m (link m a b) [a] [b].
Proof.
  unfold link. split; intros p Hp.
  - rewrite alter_field by done. rewrite lookup_alter_ne by set_solver. done.
  - rewrite lookup_alter_ne by set_solver. by rewrite alter_field.
Qed.
Lemma link_linked m a b : is_Some (m !! a) -> is_Some (m !! b) -> linked (link m a b) a b.
Proof.
  intros [ea Ea] [eb Eb]. unfold link. split.
  - rewrite alter_field by done. by rewrite lookup_alter_eq, Ea.
  - rewrite lookup_alter_eq. rewrite lookup_alter. case_decide; subst; by rewrite ?Ea, ?Eb.
Qed.
Lemma link_payload m a b : same_payload m (link m a b).
Proof. intros p. unfold link. by rewrite !alter_field. Qed.
Lemma payload_Some m m' p : same_payload m m' -> is_Some (m !! p) -> is_Some (m' !! p).
Proof. intros S [e E]. specialize (S p). rewrite E in S. destruct (m' !! p); [by eexists|done]. Qed.

(** The two halves of a list around the place a link changes at. *)
Lemma path_prefix m m' A a na pb :
  links_kept m m' (a :: na) pb -> NoDup (A ++ [a]) -> A ## na -> drop 1 (A ++ [a]) ## pb ->
  path m (A ++ [a]) -> path m' (A ++ [a]).
Proof.
  intros K ND Hna Hpb. destruct A as [|x c]; [done|].
  apply path_kept with (1 := K); [|done].
  apply NoDup_app in ND as (_ & ND & _). set_solver.
Qed.
Lemma path_suffix m m' b B h na pb :
  links_kept m m' na (b :: pb) -> NoDup (b :: B) -> last (b :: B) = Some h -> B ## pb ->
  (forall x, x ∈ b :: B -> x <> h -> x ∉ na) -> path m (b :: B) -> path m' (b :: B).
Proof.
  intros K [Hb ND]%NoDup_cons L Hpb Hna. destruct B as [|y c _] using rev_ind; [done|].
  rewrite app_comm_cons, last_snoc in L. injection L as ->.
  apply path_kept with (1 := K); [|set_solver].
  apply NoDup_app in ND as (_ & ND & _). intros x Hx. apply Hna; set_solver.
Qed.

Lemma snoc_cons {A} (h : A) l : exists l' a, h :: l = l' ++ [a].
Proof.
  destruct l as [|a l' _] using rev_ind; [by exists [], h|]. by exists (h :: l'), a.
Qed.
Lemma cons_snoc {A} (h : A) l : exists b l', l ++ [h] = b :: l'.
Proof. destruct l; cbn; eauto. Qed.

Lemma linked_left m a b : linked m a b -> exists e, m !! a = Some e /\ next e = b.
Proof. intros [H _]. apply fmap_Some in H as (e & ? & ->). eauto. Qed.
Lemma linked_right m a b : linked m a b -> exists e, m !! b = Some e /\ prev e = a.
Proof. intros [_ H]. apply fmap_Some in H as (e & ? & ->). eauto. Qed.

(** A member of a list and its neighbours. *)
Lemma dll_split m h l1 x l2 :
  dll m h (l1 ++ x :: l2) -> exists A a b B e, h :: l1 = A ++ [a] /\ l2 ++ [h] = b :: B /\
    path m (A ++ [a]) /\ path m (b :: B) /\ m !! x = Some e /\ prev e = a /\ next e = b /\
    is_Some (m !! a) /\ is_Some (m !! b).
Proof.
  unfold dll. intros D. destruct (snoc_cons h l1) as (A & a & EA), (cons_snoc h l2) as (b & B & EB).
  assert (h :: (l1 ++ x :: l2) ++ [h] = A ++ a :: x :: b :: B) as E.
  { change (A ++ a :: x :: b :: B) with (A ++ [a] ++ x :: b :: B). rewrite <- EB, app_assoc, <- EA.
    cbn. by rewrite <- !app_assoc. }
  rewrite E in D. apply path_app in D as (PA & Lax & Lxb & PB).
  destruct (linked_left _ _ _ Lax) as (ea & Ea & _), (linked_right _ _ _ Lax) as (ex & Ex & Px).
  destruct (linked_left _ _ _ Lxb) as (ex' & Ex' & Nx), (linked_right _ _ _ Lxb) as (eb & Eb & _).
  assert (ex' = ex) as -> by congruence. by exists A, a, b, B, ex.
Qed.

Lemma list_remove_spec s h l1 x l2 :
  dll (memory s) h (l1 ++ x :: l2) -> NoDup (h :: l1 ++ x :: l2) ->
  exists m', list_remove x s = Some (tt, set_memory m' s) /\
    dll m' h (l1 ++ l2) /\ same_payload (memory s) m' /\
    forall h' c, h' :: c ## h :: l1 ++ x :: l2 -> dll (memory s) h' c -> dll m' h' c.
Proof.
  intros D ND. destruct (dll_split _ _ _ _ _ D) as (A & a & b & B & e & EA & EB & PA & PB & Ex & Px & Nx & Ia & Ib).
  assert (a ∈ h :: l1) as Ma by (rewrite EA; set_solver).
  assert (b ∈ l2 ++ [h]) as Mb by (rewrite EB; set_solver).
  apply NoDup_cons in ND as [N1 (N2 & N3 & [N4 N5]%NoDup_cons)%NoDup_app].
  pose proof (link_kept (memory s) a b) as K.
  exists (link (memory s) a b). split_and!.
  - unfold list_remove. rewrite (load_bind x e), Px, Nx by done. rewrite update_bind by done.
    rewrite (load_bind x e) by (cbn; rewrite lookup_alter_ne by set_solver; done).
    rewrite Px, Nx. rewrite update_run by (cbn; by rewrite lookup_alter_is_Some). done.
  - unfold dll. assert (h :: (l1 ++ l2) ++ [h] = A ++ a :: b :: B) as ->.
    { change (A ++ a :: b :: B) with (A ++ [a] ++ b :: B). rewrite <- EB, (app_assoc A), <- EA.
      cbn. by rewrite <- !app_assoc. }
    apply path_app. split; [|split].
    + eapply path_prefix; [exact K| | | |done]; rewrite <- ?EA; [|set_solver..].
      apply NoDup_cons. set_solver.
    + by apply link_linked.
    + apply (path_suffix _ _ b B h [a] []) with (1 := K); rewrite <- ?EB; [| |set_solver..|by rewrite EB].
      * apply NoDup_app. split_and!; [done|set_solver|apply NoDup_singleton].
      * apply last_snoc.
  - apply link_payload.
  - intros h' c Hc. apply path_kept with (1 := K); set_solver.
Qed.

Lemma list_append_spec s h xs x :
  dll (memory s) h xs -> NoDup (h :: xs) -> x ∉ h :: xs -> is_Some (memory s !! x) ->
  exists m', list_append h x s = Some (tt, set_memory m' s) /\
    dll m' h (xs ++ [x]) /\ same_payload (memory s) m' /\
    forall h' c, h' :: c ## x :: h :: xs -> dll (memory s) h' c -> dll m' h' c.
Proof.
  intros D ND Hx Ix. destruct (snoc_cons h xs) as (A & a & EA).
  unfold dll in D. rewrite app_comm_cons, EA, <- app_assoc in D. cbn in D.
  apply path_app in D as (PA & Lah & _).
  destruct (linked_left _ _ _ Lah) as (ea & Ea & _), (linked_right _ _ _ Lah) as (eh & Eh & Ph).
  assert (a ∈ h :: xs) as Ma by (rewrite EA; set_solver).
  set (m' := alter (set_prev x) h (alter (set_next x) a (alter (set_prev a) x (alter (set_next h) x (memory s))))).
  assert (links_kept (memory s) m' [a; x] [h; x]) as K.
  { subst m'. apply not_elem_of_cons in Hx as Hx'. destruct Hx' as [Hxh _]. split; intros p Hp.
    - rewrite alter_field by done. rewrite lookup_alter_ne by set_solver +Hp. rewrite alter_field by done.
      by rewrite lookup_alter_ne by set_solver +Hp.
    - rewrite lookup_alter_ne by set_solver +Hp. rewrite alter_field by done.
      rewrite lookup_alter_ne by set_solver +Hp. by rewrite alter_field. }
  destruct Ix as [ex Ex].
  exists m'. split_and!.
  - unfold list_append. rewrite update_bind by (by eexists). rewrite (load_bind h eh).
    2:{ cbn. rewrite lookup_alter_ne by set_solver. done. }
    rewrite Ph. rewrite update_bind by (cbn; rewrite lookup_alter_is_Some; by eexists).
    rewrite (load_bind x (set_prev a (set_next h ex))).
    2:{ cbn. by rewrite !lookup_alter_eq, Ex. }
    cbn [prev set_prev].
    rewrite update_bind by (cbn; rewrite !lookup_alter_is_Some; by eexists).
    rewrite (load_bind x (set_prev a (set_next h ex))).
    2:{ cbn. rewrite lookup_alter_ne by set_solver. by rewrite !lookup_alter_eq, Ex. }
    cbn [next set_prev set_next].
    by rewrite update_run by (cbn; rewrite !lookup_alter_is_Some; by eexists).
  - unfold dll. rewrite <- app_assoc. cbn [app]. rewrite app_comm_cons, EA, <- app_assoc. cbn [app].
    apply path_app. split; [|repeat split]; subst m'.
    + eapply path_prefix; [exact K| | | |done]; rewrite <- ?EA; [done|..].
      * assert (x ∉ A ++ [a]) as Hx' by (by rewrite <- EA). set_solver +Hx'.
      * apply NoDup_cons in ND as [ND _]. cbn [drop]. set_solver +ND Hx.
    + rewrite alter_field by done. by rewrite lookup_alter_eq, !lookup_alter_ne, Ea by set_solver.
    + rewrite lookup_alter_ne by set_solver. rewrite alter_field by done.
      by rewrite !lookup_alter_eq, Ex.
    + rewrite alter_field by done. rewrite lookup_alter_ne by set_solver.
      rewrite alter_field by done. by rewrite lookup_alter_eq, Ex.
    + rewrite lookup_alter_eq. destruct (decide (a = h)) as [->|].
      * by rewrite lookup_alter_eq, !lookup_alter_ne, Eh by set_solver.
      * by rewrite !lookup_alter_ne, Eh by set_solver.
  - intros p. subst m'. by rewrite !alter_field.
  - intros h' c Hc. apply path_kept with (1 := K); set_solver.
Qed.

(** ** The hash table *)
Fixpoint chain (m : gmap nat LRUEntry) (p : nat) (xs : list nat) : Prop :=
  match xs with
  | [] => p = null
  | x :: xs' => p = x /\ x <> null /\ exists e, m !! x = Some e /\ chain m (hash_next e) xs'
  end.
Lemma chain_kept m m' p xs :
  (forall x, x ∈ xs -> hash_next <$> m' !! x = hash_next <$> m !! x) -> chain m p xs -> chain m' p xs.
Proof.
  revert p. induction xs as [|x xs IH]; intros p K; [done|]. intros (-> & Hx & e & E & C).
  assert (exists e', m' !! x = Some e' /\ hash_next e' = hash_next e) as (e' & E' & N).
  { specialize (K x ltac:(set_solver)). rewrite E in K. apply fmap_Some in K as (e' & ? & ?). eauto. }
  repeat split; [done|]. exists e'. split; [done|]. rewrite N. apply IH; [set_solver|done].
Qed.
Lemma chain_memory m p xs x : chain m p xs -> x ∈ xs -> x <> null /\ is_Some (m !! x).
Proof.
  revert p. induction xs as [|y xs IH]; intros p; [set_solver|].
  intros (-> & Hy & e & E & C) [->|Hx]%elem_of_cons; [by eauto|]. by eapply IH.
Qed.
Lemma chain_head m p xs : chain m p xs -> p = default null (head xs).
Proof. destruct xs; [done|]. by intros (-> & _). Qed.

(** [k]'s bucket holds the chain [chains k]; the entries of a chain have its
    hash, so the chains are disjoint. *)
Record table (s : LRUShard) (chains : Z -> list nat) : Prop := {
  tb_chain h : chain (memory s) (default null (buckets_ s !! h)) (chains h);
  tb_bucket h : is_Some (buckets_ s !! h) <-> chains h <> [];
  tb_hash h x e : x ∈ chains h -> memory s !! x = Some e -> hash e = h;
  tb_nodup h : NoDup (chains h)
}.

Lemma distinct_bound (m : gmap nat LRUEntry) xs :
  NoDup xs -> (forall x, x ∈ xs -> is_Some (m !! x)) -> (length xs <= stdpp.base.size m)%nat.
Proof.
  intros ND H. rewrite <- (size_list_to_set (C := gset nat)) by done. rewrite <- size_dom.
  apply subseteq_size. intros x Hx%elem_of_list_to_set. by apply elem_of_dom, H.
Qed.
Lemma chain_fuel_enough m p xs : chain m p xs -> NoDup xs -> (length xs < S (stdpp.base.size m))%nat.
Proof. intros C ND. apply Nat.lt_succ_r, distinct_bound; [done|]. intros x Hx. by eapply chain_memory. Qed.

Lemma find_loop_spec fuel p k s xs :
  chain (memory s) p xs -> (length xs < fuel)%nat ->
  exists q, find_loop fuel p k s = Some (q, s) /\
    (q = null /\ (forall x, x ∈ xs -> key <$> memory s !! x <> Some k) \/
     q ∈ xs /\ key <$> memory s !! q = Some k).
Proof.
  revert p fuel. induction xs as [|x xs IH]; intros p [|fuel] C Hf; cbn [length] in Hf; [lia| |lia|].
  - rewrite C. exists null. split; [done|]. left. split; [done|]. set_solver.
  - destruct C as (-> & Hx & e & E & C). cbn [find_loop].
    destruct (Nat.eqb_spec x null) as [|_]; [done|]. rewrite (load_bind x e) by done.
    case_decide as K.
    + exists x. split; [done|]. right. rewrite E. split; [set_solver|]. by rewrite <- K.
    + destruct (IH (hash_next e) fuel C ltac:(lia)) as (q & -> & [[-> N]|[Q Kq]]); eexists; (split; [done|]).
      * left. split; [done|]. intros y [->|Hy]%elem_of_cons; [rewrite E; by intros [= ?]|by apply N].
      * right. set_solver.
Qed.

Lemma table_find_spec s chains k h :
  table s chains ->
  exists q, table_find k h s = Some (q, s) /\
    (q = null /\ (forall x, x ∈ chains h -> key <$> memory s !! x <> Some k) \/
     q ∈ chains h /\ key <$> memory s !! q = Some k).
Proof.
  intros T. pose proof (tb_chain _ _ T h) as C. unfold table_find, mbind, M_bind, get, chain_fuel.
  destruct (buckets_ s !! h) as [p|] eqn:B; cbn in C.
  - apply find_loop_spec; [done|]. eapply chain_fuel_enough; [done|]. by apply (tb_nodup _ _ T).
  - exists null. split; [done|]. left. split; [done|]. destruct (chains h) as [|x xs]; [set_solver|].
    destruct C as (? & ? & _). done.
Qed.

(** The link that points past [pre] in the chain of bucket [h]. *)
Definition link_after (h : Z) (pre : list nat) : Link :=
  match last pre with None => Slot h | Some p => HashNext p end.
(** What the table's writes leave. *)
Definition strip_hash (e : LRUEntry) : LRUEntry := set_hash_next null e.
Record table_frame (s s' : LRUShard) : Prop := {
  tf_memory p : strip_hash <$> memory s' !! p = strip_hash <$> memory s !! p;
  tf_deleted : deleted s' = deleted s;
  tf_capacity : capacity_ s' = capacity_ s;
  tf_usage : usage_ s' = usage_ s
}.
Lemma table_frame_refl s : table_frame s s.
Proof. done. Qed.
Lemma table_frame_trans a b c : table_frame a b -> table_frame b c -> table_frame a c.
Proof. intros [M1 ? ? ?] [M2 ? ? ?]. split; [|congruence..]. intros p. by rewrite M2, M1. Qed.
Lemma update_frame p q s : table_frame s (set_memory (alter (set_hash_next q) p (memory s)) s).
Proof. split; [|done..]. intros x. cbn [memory set_memory]. by rewrite alter_field. Qed.
Lemma frame_field {B} (field : LRUEntry -> B) s s' p :
  (forall e, field (strip_hash e) = field e) -> table_frame s s' ->
  field <$> memory s' !! p = field <$> memory s !! p.
Proof.
  intros F [E _ _ _]. specialize (E p).
  destruct (memory s' !! p) as [e'|], (memory s !! p) as [e|]; [|done..].
  apply (inj Some) in E. cbn. by rewrite <- (F e'), E, F.
Qed.

Lemma chain_suffix m hd pre p xs :
  chain m hd (pre ++ p :: xs) -> p <> null /\ exists e, m !! p = Some e /\ chain m (hash_next e) xs.
Proof.
  revert hd. induction pre as [|y pre IH]; cbn [app]; intros hd (_ & N & e & E & C); [by eauto|by eapply IH].
Qed.
Lemma chain_set m hd pre p xs q ys :
  chain m hd (pre ++ p :: xs) -> p ∉ pre -> p ∉ ys -> chain m q ys ->
  chain (alter (set_hash_next q) p m) hd (pre ++ p :: ys).
Proof.
  revert hd. induction pre as [|y pre IH]; cbn [app]; intros hd (-> & N & e & E & C) Hpre Hys Cq.
  - repeat split; [done|]. exists (set_hash_next q e). rewrite lookup_alter_eq, E. split; [done|].
    eapply chain_kept; [|exact Cq]. intros x Hx. by rewrite lookup_alter_ne by set_solver.
  - repeat split; [done|]. exists e. rewrite lookup_alter_ne by set_solver. split; [done|].
    apply IH; [done|set_solver|done..].
Qed.

Lemma read_link_spec s h hd pre xs :
  buckets_ s !! h = Some hd -> chain (memory s) hd (pre ++ xs) ->
  read_link (link_after h pre) s = Some (default null (head xs), s).
Proof.
  intros B C. unfold link_after. destruct pre as [|p pre _] using rev_ind.
  - cbn. unfold mbind, M_bind, get. rewrite B. by rewrite (chain_head _ _ _ C).
  - rewrite last_snoc. cbn. rewrite <- app_assoc in C. cbn in C.
    destruct (chain_suffix _ _ _ _ _ C) as (_ & e & E & Cx).
    rewrite (load_bind p e) by done. by rewrite (chain_head _ _ _ Cx).
Qed.
Lemma write_link_spec s h hd pre xs q ys :
  buckets_ s !! h = Some hd -> chain (memory s) hd (pre ++ xs) -> NoDup pre ->
  chain (memory s) q ys -> ys ## pre ->
  exists s' hd', write_link (link_after h pre) q s = Some (tt, s') /\ table_frame s s' /\
    buckets_ s' !! h = Some hd' /\ chain (memory s') hd' (pre ++ ys) /\
    (forall h', h' <> h -> buckets_ s' !! h' = buckets_ s !! h') /\
    (forall x, x ∉ pre -> memory s' !! x = memory s !! x).
Proof.
  intros B C ND Cq D. unfold link_after. destruct pre as [|p pre _] using rev_ind.
  - exists (set_buckets (<[h := q]> (buckets_ s)) s), q. split_and!; [done|done| |done| |done].
    + cbn. by rewrite lookup_insert_eq.
    + intros h' Hh. cbn. by rewrite lookup_insert_ne.
  - rewrite last_snoc. rewrite <- app_assoc in C. cbn in C.
    destruct (chain_suffix _ _ _ _ _ C) as (_ & e & E & _). apply NoDup_app in ND as (_ & ND & _).
    exists (set_memory (alter (set_hash_next q) p (memory s)) s), hd. split_and!.
    + cbn. by rewrite update_run by (by eexists).
    + apply update_frame.
    + done.
    + rewrite <- app_assoc. cbn. apply chain_set with (1 := C); [set_solver +ND|set_solver +D|done].
    + done.
    + intros x Hx. cbn. by rewrite lookup_alter_ne by set_solver +Hx.
Qed.

Lemma insert_loop_spec fuel s h hd pre xs x ex :
  buckets_ s !! h = Some hd -> chain (memory s) hd (pre ++ xs) -> NoDup (pre ++ xs) ->
  x ∉ pre ++ xs -> x <> null -> memory s !! x = Some ex -> (length xs < fuel)%nat ->
  exists r s', insert_loop fuel (link_after h pre) x s = Some (r, s') /\ table_frame s s' /\
    match r with
    | None => s' = s /\ forall y, y ∈ xs -> key <$> memory s !! y <> Some (key ex)
    | Some old => exists xs1 xs2 hd', xs = xs1 ++ old :: xs2 /\ key <$> memory s !! old = Some (key ex) /\
        buckets_ s' !! h = Some hd' /\ chain (memory s') hd' (pre ++ xs1 ++ x :: xs2) /\
        (forall h', h' <> h -> buckets_ s' !! h' = buckets_ s !! h') /\
        (forall y, y ∉ x :: pre ++ xs -> memory s' !! y = memory s !! y)
    end.
Proof.
  revert pre xs. induction fuel as [|fuel IH]; intros pre xs B C ND Hx Nx Ex Hf; [lia|]. cbn [insert_loop].
  rewrite (run_bind _ _ s (default null (head xs)) s) by (by eapply read_link_spec).
  destruct xs as [|old xs].
  { exists None, s. split_and!; [done|done|done|]. set_solver. }
  change (default null (head (old :: xs))) with old.
  destruct (chain_suffix _ _ _ _ _ C) as (No & o & Eo & Co).
  rewrite (proj2 (Nat.eqb_neq old null)) by done. rewrite (load_bind old o), (load_bind x ex) by done.
  case_decide as K.
  - rewrite update_bind by (by eexists). set (s1 := set_memory _ s).
    apply NoDup_app in ND as (ND1 & ND2 & [ND3 ND4]%NoDup_cons).
    assert (forall p zs, x ∉ zs -> chain (memory s) p zs -> chain (memory s1) p zs) as C1.
    { intros p zs Hz. apply chain_kept. intros y Hy. unfold s1; cbn.
      by rewrite lookup_alter_ne by (intros ->; contradiction). }
    destruct (write_link_spec s1 h hd pre (old :: xs) x (x :: xs)) as (s2 & hd' & W & F & B2 & C2 & O2 & M2);
      [done|by apply C1|done| |set_solver +ND2 Hx|].
    { repeat split; [done|]. exists (set_hash_next (hash_next o) ex).
      unfold s1; cbn. rewrite lookup_alter_eq, Ex. split; [done|]. apply C1; [set_solver +Hx|done]. }
    rewrite (run_bind _ _ s1 tt s2) by done.
    assert (is_Some (memory s2 !! old)) as Io.
    { rewrite M2 by set_solver +ND2. unfold s1; cbn. rewrite lookup_alter_is_Some. by eexists. }
    rewrite update_bind by done.
    exists (Some old), (set_memory (alter (set_hash_next null) old (memory s2)) s2). split_and!; [done| |].
    + eapply table_frame_trans; [apply update_frame|]. eapply table_frame_trans; [exact F|apply update_frame].
    + exists [], xs, hd'. rewrite Eo. split_and!; [done|by cbn; f_equal|done| | |].
      * eapply chain_kept; [|exact C2]. intros y Hy. cbn.
        rewrite lookup_alter_ne; [done|]. intros ->. set_solver +Hy ND2 ND3 Hx.
      * intros h' Hh. cbn. by rewrite O2.
      * intros y Hy. cbn. rewrite lookup_alter_ne by set_solver +Hy. rewrite M2 by set_solver +Hy.
        unfold s1; cbn. by rewrite lookup_alter_ne by set_solver +Hy.
  - cbn [length] in Hf. rewrite (cons_middle old pre xs) in *.
    assert (link_after h (pre ++ [old]) = HashNext old) as L by (unfold link_after; by rewrite last_snoc).
    rewrite app_assoc in C, ND, Hx.
    destruct (IH (pre ++ [old]) xs) as (r & s' & R & F & Hr); [done..|lia|]. rewrite L in R.
    exists r, s'. split_and!; [done|done|]. destruct r as [old'|].
    + destruct Hr as (xs1 & xs2 & hd' & -> & Kold & B' & C' & O' & M').
      exists (old :: xs1), xs2, hd'. split_and!; [done|done|done| |done|].
      * by rewrite <- app_assoc in C'.
      * intros y Hy. apply M'. rewrite <- app_assoc. done.
    + destruct Hr as [-> N]. split; [done|]. intros y [->|Hy]%elem_of_cons; [|by apply N].
      rewrite Eo. by intros [= ?].
Qed.

(** One bucket changes, and with it only entries of its hash. *)
Lemma table_update s s' chains h l :
  table s chains -> table_frame s s' ->
  chain (memory s') (default null (buckets_ s' !! h)) l -> (is_Some (buckets_ s' !! h) <-> l <> []) ->
  (forall h', h' <> h -> buckets_ s' !! h' = buckets_ s !! h') ->
  (forall y e, memory s !! y = Some e -> hash e <> h -> memory s' !! y = memory s !! y) ->
  (forall y, y ∈ l -> hash <$> memory s !! y = Some h) -> NoDup l ->
  table s' (<[h := l]> chains).
Proof.
  intros T F C B O Hm Hl ND.
  assert (forall y e, memory s' !! y = Some e -> hash <$> memory s !! y = Some (hash e)) as HH.
  { intros y e E. rewrite <- (frame_field hash s s' y), E by done. done. }
  split; intros h'; (destruct (decide (h' = h)) as [->|N]; [rewrite fn_lookup_insert|rewrite fn_lookup_insert_ne by done]).
  - done.
  - rewrite O by done. eapply chain_kept; [|apply (tb_chain _ _ T)]. intros y Hy.
    destruct (chain_memory _ _ _ _ (tb_chain _ _ T h') Hy) as (_ & e & E). f_equal. apply (Hm y e E).
    by rewrite (tb_hash _ _ T h' y e).
  - done.
  - rewrite O by done. apply (tb_bucket _ _ T).
  - intros y e Hy E. apply HH in E. rewrite Hl in E by done. by injection E.
  - intros y e Hy E. apply HH in E. apply fmap_Some in E as (e' & E' & ->). by apply (tb_hash _ _ T h' y).
  - done.
  - apply (tb_nodup _ _ T).
Qed.

Lemma touch_slot_spec s chains h :
  table s chains ->
  exists s' hd, touch_slot h s = Some (tt, s') /\ memory s' = memory s /\ table_frame s s' /\
    buckets_ s' !! h = Some hd /\ chain (memory s') hd (chains h) /\
    (forall h', h' <> h -> buckets_ s' !! h' = buckets_ s !! h').
Proof.
  intros T. pose proof (tb_chain _ _ T h) as C. unfold touch_slot, put.
  destruct (buckets_ s !! h) as [hd|] eqn:B.
  - by exists s, hd.
  - exists (set_buckets (<[h := null]> (buckets_ s)) s), null. split_and!; [done|done|done| |done|].
    + cbn. by rewrite lookup_insert_eq.
    + intros h' N. cbn. by rewrite lookup_insert_ne.
Qed.

Lemma chain_elem_hash s chains h y :
  table s chains -> y ∈ chains h -> hash <$> memory s !! y = Some h.
Proof.
  intros T Hy. destruct (chain_memory _ _ _ _ (tb_chain _ _ T h) Hy) as (_ & e & E).
  rewrite E. cbn. by rewrite (tb_hash _ _ T h y e).
Qed.

Lemma table_insert_spec s chains x ex :
  table s chains -> memory s !! x = Some ex -> x <> null -> x ∉ chains (hash ex) ->
  exists old s' l, table_insert x s = Some (old, s') /\ table_frame s s' /\
    table s' (<[hash ex := l]> chains) /\
    (old = null /\ l = x :: chains (hash ex) /\
       (forall y, y ∈ chains (hash ex) -> key <$> memory s !! y <> Some (key ex)) \/
     exists l1 l2, chains (hash ex) = l1 ++ old :: l2 /\ l = l1 ++ x :: l2 /\ old <> null /\
       key <$> memory s !! old = Some (key ex)).
Proof.
  intros T Ex Nx Hx. set (h := hash ex) in *. unfold table_insert. rewrite (load_bind x ex) by done.
  destruct (touch_slot_spec s chains h T) as (s1 & hd & R1 & M1 & F1 & B1 & C1 & O1).
  fold h. rewrite (run_bind _ _ s tt s1) by done.
  rewrite (run_bind chain_fuel _ s1 (S (stdpp.base.size (memory s1))) s1) by done.
  pose proof (tb_nodup _ _ T h) as ND.
  destruct (insert_loop_spec (S (stdpp.base.size (memory s1))) s1 h hd [] (chains h) x ex)
    as (r & s2 & R2 & F2 & Hr); [done..|by rewrite M1|by eapply chain_fuel_enough|].
  rewrite (run_bind _ _ s1 r s2) by done. destruct r as [old|].
  - destruct Hr as (l1 & l2 & hd' & El & K & B2 & C2 & O2 & M2). cbn [app] in C2, M2.
    exists old, s2, (l1 ++ x :: l2). rewrite M1 in *. split_and!; [done|by eapply table_frame_trans| |].
    + apply (table_update s); [done|by eapply table_frame_trans|by rewrite B2|rewrite B2; split; [by destruct l1|done]| | | |].
      * intros h' N. by rewrite O2, O1.
      * intros y e E N. apply M2. intros [->|Hy]%elem_of_cons; [unfold h in N; congruence|].
        apply N. by apply (tb_hash _ _ T h y).
      * intros y Hy. assert (y = x \/ y ∈ chains h) as [->|Hc] by (rewrite El; set_solver +Hy).
        -- by rewrite Ex.
        -- by apply (chain_elem_hash _ chains).
      * rewrite El in ND, Hx. apply NoDup_app in ND as (N1 & N2 & [N3 N4]%NoDup_cons).
        apply NoDup_app. split_and!; [done|set_solver +N2 Hx|]. apply NoDup_cons. set_solver +N4 Hx.
    + right. exists l1, l2. split_and!; [done|done| |done].
      eapply (chain_memory _ _ _ old C1). rewrite El. set_solver.
  - destruct Hr as [-> N].
    rewrite (run_bind _ _ s1 (default null (head (chains h))) s1) by (by apply (read_link_spec s1 h hd [])).
    rewrite update_bind by (rewrite M1; by eexists). set (s2 := set_memory _ s1).
    assert (chain (memory s2) x (x :: chains h)) as C2.
    { repeat split; [done|]. exists (set_hash_next (default null (head (chains h))) ex). unfold s2; cbn.
      rewrite M1, lookup_alter_eq, Ex. split; [done|]. apply (chain_kept (memory s1)).
      - intros y Hy. rewrite M1. by rewrite lookup_alter_ne by (intros ->; contradiction).
      - cbn [hash_next set_hash_next]. by rewrite <- (chain_head _ _ _ C1). }
    assert (chain (memory s2) hd (chains h)) as C2'.
    { destruct C2 as (_ & _ & e & E & C2). unfold s2 in E; cbn in E. rewrite M1, lookup_alter_eq, Ex in E.
      cbn in E. injection E as <-. cbn in C2. by rewrite (chain_head _ _ _ C1). }
    destruct (write_link_spec s2 h hd [] (chains h) x (x :: chains h)) as (s3 & hd' & W & F & B3 & C3 & O3 & M3);
      [done..|constructor|done|set_solver|].
    rewrite (run_bind _ _ s2 tt s3) by exact W. exists null, s3, (x :: chains h).
    assert (table_frame s s3) as F3.
    { eapply table_frame_trans; [exact F1|]. eapply table_frame_trans; [apply (update_frame x)|exact F]. }
    split_and!; [done|done| |left; rewrite M1 in N; done].
    apply (table_update s); [done|done|by rewrite B3|by rewrite B3| | | |].
    + intros h' Nh. rewrite O3 by done. by apply O1.
    + intros y e E Nh. rewrite M3 by set_solver. unfold s2; cbn. rewrite M1.
      rewrite lookup_alter_ne; [done|]. intros ->. unfold h in Nh. congruence.
    + intros y [->|Hy]%elem_of_cons; [by rewrite Ex|by apply (chain_elem_hash _ chains)].
    + by apply NoDup_cons.
Qed.

Lemma remove_loop_spec fuel s h hd pre xs1 x xs2 :
  buckets_ s !! h = Some hd -> chain (memory s) hd (pre ++ xs1 ++ x :: xs2) ->
  NoDup (pre ++ xs1 ++ x :: xs2) -> (length xs1 < fuel)%nat ->
  exists s' hd', remove_loop fuel (link_after h pre) x s = Some (tt, s') /\ table_frame s s' /\
    buckets_ s' !! h = Some hd' /\ chain (memory s') hd' (pre ++ xs1 ++ xs2) /\
    (forall h', h' <> h -> buckets_ s' !! h' = buckets_ s !! h') /\
    (forall y, y ∉ pre ++ xs1 ++ x :: xs2 -> memory s' !! y = memory s !! y).
Proof.
  revert pre xs1. induction fuel as [|fuel IH]; intros pre xs1 B C ND Hf; [lia|]. cbn [remove_loop].
  rewrite (run_bind _ _ s (default null (head (xs1 ++ x :: xs2))) s) by (by eapply read_link_spec).
  destruct xs1 as [|p xs1]; cbn [app].
  - change (default null (head (x :: xs2))) with x. cbn [app] in C, ND.
    destruct (chain_suffix _ _ _ _ _ C) as (Nx & e & E & Cx).
    rewrite (proj2 (Nat.eqb_neq x null)), Nat.eqb_refl by done. rewrite (load_bind x e) by done.
    apply NoDup_app in ND as (ND1 & ND2 & [ND3 ND4]%NoDup_cons).
    destruct (write_link_spec s h hd pre (x :: xs2) (hash_next e) xs2) as (s2 & hd' & W & F & B2 & C2 & O2 & M2);
      [done..|set_solver +ND2|].
    rewrite (run_bind _ _ s tt s2) by done.
    assert (is_Some (memory s2 !! x)) as Ix by (rewrite M2 by set_solver +ND2; by eexists).
    rewrite update_run by done. eexists _, hd'. split_and!; [done| |done| |done|].
    + eapply table_frame_trans; [exact F|apply update_frame].
    + eapply chain_kept; [|exact C2]. intros y Hy. cbn. rewrite lookup_alter_ne; [done|].
      intros ->. set_solver +Hy ND2 ND3.
    + intros y Hy. cbn. rewrite lookup_alter_ne by set_solver +Hy. apply M2. set_solver +Hy.
  - change (default null (head (p :: xs1 ++ x :: xs2))) with p. cbn [app length] in C, ND, Hf.
    destruct (chain_suffix _ _ _ _ _ C) as (Np & _).
    rewrite (proj2 (Nat.eqb_neq p null)) by done.
    assert (p <> x) as Npx.
    { apply NoDup_app in ND as (_ & _ & [ND _]%NoDup_cons). set_solver +ND. }
    rewrite (proj2 (Nat.eqb_neq p x)) by done.
    rewrite (cons_middle p pre) in C, ND. rewrite app_assoc in C, ND.
    destruct (IH (pre ++ [p]) xs1) as (s' & hd' & R & F & B' & C' & O' & M'); [done..|lia|].
    assert (link_after h (pre ++ [p]) = HashNext p) as L by (unfold link_after; by rewrite last_snoc).
    rewrite L in R. exists s', hd'. rewrite <- app_assoc in C', M'. split_and!; done.
Qed.

Lemma table_remove_spec s chains x ex l1 l2 :
  table s chains -> memory s !! x = Some ex -> chains (hash ex) = l1 ++ x :: l2 ->
  exists s', table_remove x s = Some (tt, s') /\ table_frame s s' /\
    table s' (<[hash ex := l1 ++ l2]> chains).
Proof.
  intros T Ex El. set (h := hash ex) in *. unfold table_remove. rewrite (load_bind x ex) by done. fold h.
  pose proof (tb_chain _ _ T h) as C. pose proof (tb_nodup _ _ T h) as ND.
  assert (is_Some (buckets_ s !! h)) as [hd B] by (apply (tb_bucket _ _ T); rewrite El; by destruct l1).
  rewrite B in C. cbn in C.
  rewrite (run_bind (get _) _ s (Some hd) s) by (unfold get; by rewrite B).
  rewrite bool_decide_true by (by eexists).
  rewrite (run_bind (assert true) _ s tt s) by done.
  rewrite (run_bind chain_fuel _ s (S (stdpp.base.size (memory s))) s) by done.
  pose proof (chain_fuel_enough _ _ _ C ND) as Hf. rewrite El in C, ND, Hf. rewrite length_app in Hf.
  destruct (remove_loop_spec (S (stdpp.base.size (memory s))) s h hd [] l1 x l2)
    as (s1 & hd' & R1 & F1 & B1 & C1 & O1 & M1); [done..|lia|].
  rewrite (run_bind _ _ s tt s1) by exact R1. cbn [app] in C1, M1.
  rewrite (run_bind _ _ s1 (default null (head (l1 ++ l2))) s1) by (by apply (read_link_spec s1 h hd' [])).
  assert (forall b s2, memory s2 = memory s1 -> table_frame s1 s2 -> buckets_ s2 !! h = b ->
    default null b = hd' -> (is_Some b <-> l1 ++ l2 <> []) ->
    (forall h', h' <> h -> buckets_ s2 !! h' = buckets_ s1 !! h') -> table s2 (<[h := l1 ++ l2]> chains)) as TU.
  { intros b s2 Em F2 Eb Ed Hb O2. apply (table_update s); [done|by eapply table_frame_trans|by rewrite Eb, Ed, Em|by rewrite Eb| | | |].
    - intros h' N. by rewrite O2, O1.
    - intros y e E N. rewrite Em. apply M1. rewrite <- El. intros Hy. apply N. by apply (tb_hash _ _ T h y).
    - intros y Hy. apply (chain_elem_hash _ chains); [done|]. rewrite El. set_solver +Hy.
    - apply NoDup_app in ND as (N1 & N2 & [N3 N4]%NoDup_cons). apply NoDup_app. split_and!; [done|set_solver +N2|done]. }
  destruct (l1 ++ l2) as [|y l] eqn:E12.
  - eexists. split_and!; [done| |].
    + eapply table_frame_trans; [exact F1|]. done.
    + apply (TU None); cbn; [done|done|by rewrite lookup_delete_eq|by rewrite C1| |].
      * split; [by intros []|done].
      * intros h' N. by rewrite lookup_delete_ne.
  - change (default null (head (y :: l))) with y. destruct C1 as (-> & Ny & _).
    rewrite (proj2 (Nat.eqb_neq y null)) by done.
    exists s1. split_and!; [done|done|]. by apply (TU (Some y)).
Qed.

(** ** The invariant of a shard *)

(** The fields that are not links. *)
Definition core (e : LRUEntry) : LRUEntry := strip_hash (strip e).
Lemma core_inv e e' :
  core e = core e' ->
  value e = value e' /\ key e = key e' /\ hash e = hash e' /\ charge e = charge e' /\
  refs e = refs e' /\ in_cache e = in_cache e'.
Proof. destruct e, e'. unfold core, strip_hash, strip. cbn. intros [=]. by subst. Qed.

Definition same_core (m m' : gmap nat LRUEntry) : Prop := forall p, core <$> m' !! p = core <$> m !! p.
#[local] Instance same_core_preorder : PreOrder same_core.
Proof. split; [done|]. intros a b c A B p. by rewrite B. Qed.
Lemma payload_core m m' : same_payload m m' -> same_core m m'.
Proof.
  intros S p. specialize (S p). unfold core. change (λ e, strip_hash (strip e)) with (strip_hash ∘ strip).
  destruct (m' !! p), (m !! p); try done. apply (inj Some) in S. cbn. by rewrite S.
Qed.
Lemma frame_core s s' : table_frame s s' -> same_core (memory s) (memory s').
Proof.
  intros [S _ _ _] p. specialize (S p). destruct (memory s' !! p), (memory s !! p); try done.
  apply (inj Some) in S. cbn. f_equal. unfold core.
  assert (forall e, strip_hash (strip e) = strip (strip_hash e)) as E by (by intros []).
  by rewrite !E, S.
Qed.
Lemma same_core_field {B} (field : LRUEntry -> B) m m' p :
  (forall e, field (core e) = field e) -> same_core m m' -> field <$> m' !! p = field <$> m !! p.
Proof.
  intros F S. specialize (S p). destruct (m' !! p) as [e'|], (m !! p) as [e|]; try done.
  apply (inj Some) in S. cbn. by rewrite <- (F e'), S, F.
Qed.
Lemma same_core_Some m m' p e' :
  same_core m m' -> m' !! p = Some e' -> exists e, m !! p = Some e /\ core e' = core e.
Proof.
  intros S E. specialize (S p). rewrite E in S. cbn in S. symmetry in S.
  apply fmap_Some in S as (e & ? & ?). eauto.
Qed.
Lemma same_core_is_Some m m' p : same_core m m' -> is_Some (m !! p) -> is_Some (m' !! p).
Proof. intros S [e E]. specialize (S p). rewrite E in S. destruct (m' !! p); [by eexists|done]. Qed.

(** [users x] handles to [x] are outstanding. *)
Record entry_ok (lru use : list nat) (users : nat -> nat) (x : nat) (e : LRUEntry) : Prop := {
  eo_null : x <> null;
  eo_value : is_Some (value e);
  eo_cached : in_cache e = true <-> x ∈ lru ++ use;
  eo_refs : refs e = Z.of_nat (users x) + (if in_cache e then 1 else 0);
  eo_idle : x ∈ lru <-> users x = 0%nat
}.
Record lists_ok (m : gmap nat LRUEntry) (lru use : list nat) (users : nat -> nat) : Prop := {
  lo_lru : dll m lru_head lru;
  lo_use : dll m in_use_head use;
  lo_nodup : NoDup (lru_head :: in_use_head :: lru ++ use);
  lo_entry x e : m !! x = Some e -> x <> lru_head -> x <> in_use_head -> entry_ok lru use users x e;
  lo_member x : x ∈ lru ++ use -> is_Some (m !! x);
  lo_users x : (0 < users x)%nat -> is_Some (m !! x) /\ x <> lru_head /\ x <> in_use_head
}.
Definition total (m : gmap nat LRUEntry) (l : list nat) : Z :=
  foldr Z.add 0 ((λ x, default 0 (charge <$> m !! x)) <$> l).
Record shard_ok (s : LRUShard) (lru use : list nat) (chains : Z -> list nat) (users : nat -> nat) : Prop := {
  so_lists : lists_ok (memory s) lru use users;
  so_table : table s chains;
  so_cached x : x ∈ lru ++ use <-> exists h, x ∈ chains h;
  so_keys h x y : x ∈ chains h -> y ∈ chains h ->
    key <$> memory s !! x = key <$> memory s !! y -> x = y;
  so_usage : usage_ s = u64 (total (memory s) (lru ++ use))
}.

Lemma heads_distinct m lru use users x :
  lists_ok m lru use users -> x ∈ lru ++ use -> x <> lru_head /\ x <> in_use_head.
Proof.
  intros L Hx. pose proof (lo_nodup _ _ _ _ L) as ND.
  apply NoDup_cons in ND as [N1 [N2 _]%NoDup_cons]. set_solver.
Qed.
Lemma head_present m h xs : dll m h xs -> is_Some (m !! h).
Proof.
  unfold dll. destruct xs as [|x xs]; cbn [app]; intros [L _];
    destruct (linked_left _ _ _ L) as (e & E & _); by eexists.
Qed.

(** [l] less [x]. *)
Definition without (x : nat) (l : list nat) : list nat := filter (λ y, y ≠ x) l.
Lemma elem_of_without x y l : y ∈ without x l <-> y ≠ x /\ y ∈ l.
Proof. unfold without. by rewrite list_elem_of_filter. Qed.
Lemma without_id x l : x ∉ l -> without x l = l.
Proof.
  unfold without. induction l as [|y l IH]; intros Hx; [done|]. rewrite filter_cons_True by set_solver +Hx.
  rewrite IH by set_solver +Hx. done.
Qed.
Lemma without_middle x l1 l2 : NoDup (l1 ++ x :: l2) -> without x (l1 ++ x :: l2) = l1 ++ l2.
Proof.
  intros (N1 & N2 & [N3 N4]%NoDup_cons)%NoDup_app. unfold without. rewrite filter_app, filter_cons_False by (intros []; done).
  f_equal; apply without_id; set_solver.
Qed.
Lemma NoDup_without x l : NoDup l -> NoDup (without x l).
Proof. apply NoDup_filter. Qed.

(** One entry changes, moves or goes; the others keep what they are. *)
Lemma lists_change m m' lru use users lru' use' users' x :
  lists_ok m lru use users ->
  dll m' lru_head lru' -> dll m' in_use_head use' -> NoDup (lru_head :: in_use_head :: lru' ++ use') ->
  (forall y, y <> x -> core <$> m' !! y = core <$> m !! y) ->
  (forall y, y <> x -> users' y = users y /\ (y ∈ lru' <-> y ∈ lru) /\ (y ∈ use' <-> y ∈ use)) ->
  x <> lru_head -> x <> in_use_head ->
  (forall e, m' !! x = Some e -> entry_ok lru' use' users' x e) ->
  (x ∈ lru' ++ use' \/ (0 < users' x)%nat -> is_Some (m' !! x)) ->
  lists_ok m' lru' use' users'.
Proof.
  intros L D1 D2 ND HC HU N1 N2 HE HS. split; [done..| | |].
  - intros y e E Ny1 Ny2. destruct (decide (y = x)) as [->|N]; [by apply HE|].
    destruct (HU y N) as (Eu & El & Es).
    specialize (HC y N). rewrite E in HC. cbn in HC. symmetry in HC. apply fmap_Some in HC as (e0 & E0 & HC).
    destruct (core_inv _ _ HC) as (Ev & _ & _ & _ & Er & Ei).
    destruct (lo_entry _ _ _ _ L y e0 E0 Ny1 Ny2) as [F1 F2 F3 F4 F5]. split.
    + done.
    + by rewrite Ev.
    + rewrite Ei, F3. rewrite !elem_of_app. by rewrite El, Es.
    + by rewrite Er, Ei, Eu.
    + by rewrite El, Eu.
  - intros y Hy. destruct (decide (y = x)) as [->|N]; [by apply HS; left|].
    destruct (HU y N) as (_ & El & Es).
    assert (is_Some (m !! y)) as [e E] by (apply (lo_member _ _ _ _ L); rewrite elem_of_app in *; tauto).
    specialize (HC y N). rewrite E in HC. destruct (m' !! y); [by eexists|done].
  - intros y Hy. destruct (decide (y = x)) as [->|N]; [split; [by apply HS; right|done]|].
    destruct (HU y N) as (Eu & _ & _). rewrite Eu in Hy.
    destruct (lo_users _ _ _ _ L y Hy) as ([e E] & ? & ?). split; [|done].
    specialize (HC y N). rewrite E in HC. destruct (m' !! y); [by eexists|done].
Qed.

(** The two lists, apart from what the entries say. *)
Record dlls (m : gmap nat LRUEntry) (lru use : list nat) : Prop := {
  dl_lru : dll m lru_head lru;
  dl_use : dll m in_use_head use;
  dl_nodup : NoDup (lru_head :: in_use_head :: lru ++ use)
}.
Lemma lists_dlls m lru use users : lists_ok m lru use users -> dlls m lru use.
Proof. intros L. split; apply L. Qed.
Lemma dlls_nodup m lru use :
  dlls m lru use -> NoDup (lru_head :: lru) /\ NoDup (in_use_head :: use) /\
    lru_head :: lru ## in_use_head :: use.
Proof.
  intros [_ _ ND]. apply NoDup_cons in ND as [N1 [N2 N3]%NoDup_cons].
  apply NoDup_app in N3 as (N3 & N4 & N5). split_and!; [apply NoDup_cons; set_solver..|]. set_solver.
Qed.
Lemma nodup_without x lru use :
  NoDup (lru_head :: in_use_head :: lru ++ use) ->
  NoDup (lru_head :: in_use_head :: without x lru ++ without x use).
Proof.
  intros ND. assert (without x lru ++ without x use = without x (lru ++ use)) as ->.
  { unfold without. by rewrite filter_app. }
  apply NoDup_cons in ND as [N1 [N2 N3]%NoDup_cons].
  apply NoDup_cons. split; [|apply NoDup_cons; split; [|by apply NoDup_without]].
  - rewrite elem_of_cons, elem_of_without in *. tauto.
  - rewrite elem_of_without. tauto.
Qed.

Lemma remove_lists s lru use x :
  dlls (memory s) lru use -> x ∈ lru ++ use ->
  exists m', list_remove x s = Some (tt, set_memory m' s) /\ same_payload (memory s) m' /\
    dlls m' (without x lru) (without x use).
Proof.
  intros L Hx. destruct (dlls_nodup _ _ _ L) as (ND1 & ND2 & D).
  pose proof (nodup_without x _ _ (dl_nodup _ _ _ L)) as NDw.
  apply elem_of_app in Hx as [Hx|Hx]; apply list_elem_of_split in Hx as Hs; destruct Hs as (l1 & l2 & El).
  - destruct (list_remove_spec s lru_head l1 x l2) as (m' & R & D1 & P & O);
      [rewrite <- El; apply (dl_lru _ _ _ L)|by rewrite <- El|]. exists m'. split_and!; [done|done|split; [| |done]].
    + rewrite El, without_middle; [done|]. rewrite <- El. by apply NoDup_cons in ND1 as [_ ?].
    + rewrite without_id by set_solver +D Hx. apply O; [|apply (dl_use _ _ _ L)]. rewrite <- El. set_solver +D.
  - destruct (list_remove_spec s in_use_head l1 x l2) as (m' & R & D1 & P & O);
      [rewrite <- El; apply (dl_use _ _ _ L)|by rewrite <- El|]. exists m'. split_and!; [done|done|split; [| |done]].
    + rewrite without_id by set_solver +D Hx. apply O; [|apply (dl_lru _ _ _ L)]. rewrite <- El. set_solver +D.
    + rewrite El, without_middle; [done|]. rewrite <- El. by apply NoDup_cons in ND2 as [_ ?].
Qed.

(** To the young end of the list in use, or of the idle list. *)
Lemma append_lists s lru use x (idle : bool) :
  dlls (memory s) lru use -> x ∉ lru ++ use -> x <> lru_head -> x <> in_use_head -> is_Some (memory s !! x) ->
  exists m', list_append (if idle then lru_head else in_use_head) x s = Some (tt, set_memory m' s) /\
    same_payload (memory s) m' /\
    dlls m' (if idle then lru ++ [x] else lru) (if idle then use else use ++ [x]).
Proof.
  intros L Hx N1 N2 Ix. destruct (dlls_nodup _ _ _ L) as (ND1 & ND2 & D).
  apply not_elem_of_app in Hx as [Hl Hu]. pose proof (dl_nodup _ _ _ L) as ND.
  apply NoDup_cons in ND as [N3 [N4 N5]%NoDup_cons]. apply NoDup_app in N5 as (N5 & N6 & N7).
  destruct idle.
  - destruct (list_append_spec s lru_head lru x) as (m' & R & D1 & P & O);
      [apply (dl_lru _ _ _ L)|done|set_solver +Hl N1|done|]. exists m'. split_and!; [done|done|split; [done| |]].
    + apply O; [|apply (dl_use _ _ _ L)]. set_solver +D Hu N2.
    + rewrite <- app_assoc. cbn [app]. apply NoDup_cons. split; [set_solver +N1 N3|].
      apply NoDup_cons. split; [set_solver +N2 N4|]. apply NoDup_app. split_and!; [done|set_solver +N6 Hl|].
      by apply NoDup_cons.
  - destruct (list_append_spec s in_use_head use x) as (m' & R & D1 & P & O);
      [apply (dl_use _ _ _ L)|done|set_solver +Hu N2|done|]. exists m'. split_and!; [done|done|split; [|done|]].
    + apply O; [|apply (dl_lru _ _ _ L)]. set_solver +D Hl N1.
    + apply NoDup_cons. split; [set_solver +N1 N3|].
      apply NoDup_cons. split; [set_solver +N2 N4|]. apply NoDup_app. split_and!; [done|set_solver +N6 Hl|].
      apply NoDup_app. split_and!; [done|set_solver +Hu|apply NoDup_singleton].
Qed.

Lemma total_app m a b : total m (a ++ b) = total m a + total m b.
Proof.
  unfold total. rewrite fmap_app. induction a as [|x a IH]; cbn in *; lia.
Qed.
Lemma total_perm m a b : a ≡ₚ b -> total m a = total m b.
Proof. unfold total. induction 1; cbn in *; lia. Qed.
Lemma total_ext m m' l : (forall x, x ∈ l -> charge <$> m' !! x = charge <$> m !! x) -> total m' l = total m l.
Proof.
  unfold total. induction l as [|x l IH]; intros H; [done|]. cbn. rewrite H by set_solver.
  f_equal. apply IH. set_solver.
Qed.
Lemma without_total m x e l :
  NoDup l -> x ∈ l -> m !! x = Some e -> total m l = charge e + total m (without x l).
Proof.
  intros ND (l1 & l2 & ->)%list_elem_of_split E. rewrite without_middle by done.
  rewrite !total_app. unfold total. cbn. rewrite E. cbn. lia.
Qed.

(** The values the cache still owns, in some order. *)
Definition live (m : gmap nat LRUEntry) : list V := (map_to_list (omap value m)).*2.
(** What a call that inserts nothing does to the entries and their values: an
    entry stays as it was inserted or goes, and every value that goes is passed
    to its deleter once. *)
Record keeps (s s' : LRUShard) : Prop := {
  kp_entry y e' : memory s' !! y = Some e' -> exists e, memory s !! y = Some e /\
    value e' = value e /\ key e' = key e /\ hash e' = hash e /\ charge e' = charge e;
  kp_capacity : capacity_ s' = capacity_ s;
  kp_values : deleted s' ++ live (memory s') ≡ₚ deleted s ++ live (memory s)
}.
#[local] Instance keeps_preorder : PreOrder keeps.
Proof.
  split.
  - intros s. split; [|done..]. intros y e E. by exists e.
  - intros a b c [E1 C1 V1] [E2 C2 V2]. split; [|congruence|by rewrite V2].
    intros y e Ey. destruct (E2 y e Ey) as (e' & E' & ? & ? & ? & ?).
    destruct (E1 y e' E') as (e'' & E'' & ? & ? & ? & ?). exists e''. split; [done|]. split_and!; congruence.
Qed.
Lemma live_same m m' : (forall p, value <$> m' !! p = value <$> m !! p) -> live m' = live m.
Proof.
  intros H. unfold live. f_equal. f_equal. apply map_eq. intros p. rewrite !lookup_omap. specialize (H p).
  destruct (m' !! p), (m !! p); try done. apply (inj Some) in H. done.
Qed.
Lemma live_insert m x e v : m !! x = None -> value e = Some v -> live (<[x := e]> m) ≡ₚ v :: live m.
Proof.
  intros N E. unfold live. rewrite (omap_insert_Some _ _ _ _ v) by done.
  rewrite map_to_list_insert by (rewrite lookup_omap; by rewrite N). done.
Qed.
Lemma live_delete m x e v : m !! x = Some e -> value e = Some v -> live m ≡ₚ v :: live (delete x m).
Proof.
  intros E Ev. rewrite <- (live_insert (delete x m) x e v) by (by rewrite ?lookup_delete_eq).
  rewrite insert_delete_eq. by rewrite insert_id.
Qed.

(** Writes to links, counts and flags only. *)
Lemma keeps_core s s' :
  (forall p, value <$> memory s' !! p = value <$> memory s !! p /\ key <$> memory s' !! p = key <$> memory s !! p /\
    hash <$> memory s' !! p = hash <$> memory s !! p /\ charge <$> memory s' !! p = charge <$> memory s !! p) ->
  deleted s' = deleted s -> capacity_ s' = capacity_ s -> keeps s s'.
Proof.
  intros H D C. split; [|done|].
  - intros y e' E'. destruct (H y) as (H1 & H2 & H3 & H4). rewrite E' in *.
    destruct (memory s !! y) as [e|]; [|done]. exists e. cbn in *. split; [done|]. split_and!; congruence.
  - rewrite D. rewrite (live_same (memory s) (memory s')); [done|]. intros p. by destruct (H p).
Qed.
Lemma keeps_same_core s s' :
  same_core (memory s) (memory s') -> deleted s' = deleted s -> capacity_ s' = capacity_ s -> keeps s s'.
Proof. intros H. apply keeps_core. intros p. split_and!; by apply same_core_field. Qed.

(** The table reads the links and the hash of an entry. *)
Lemma table_memory s s' chains :
  table s chains -> buckets_ s' = buckets_ s ->
  (forall y h, y ∈ chains h -> hash_next <$> memory s' !! y = hash_next <$> memory s !! y /\
                        hash <$> memory s' !! y = hash <$> memory s !! y) ->
  table s' chains.
Proof.
  intros T B H. split; intros h.
  - rewrite B. eapply chain_kept; [|apply (tb_chain _ _ T)]. intros y Hy. by apply (H y h).
  - rewrite B. apply (tb_bucket _ _ T).
  - intros y e Hy E. destruct (H y h Hy) as [_ Hh]. rewrite E, (chain_elem_hash s chains h) in Hh by done.
    by injection Hh.
  - apply (tb_nodup _ _ T).
Qed.

Lemma dll_core m m' h l :
  (forall p, next <$> m' !! p = next <$> m !! p /\ prev <$> m' !! p = prev <$> m !! p) -> dll m h l -> dll m' h l.
Proof.
  intros H. apply (path_kept m m' [] []); [|set_solver +..]. split; intros p _; apply H.
Qed.

Lemma unref_spec s lru use users chains x n :
  lists_ok (memory s) lru use users -> table s chains -> (forall h, x ∉ chains h) ->
  x ∉ lru ++ use -> users x = S n ->
  exists s', unref x s = Some (tt, s') /\ lists_ok (memory s') lru use (<[x := n]> users) /\
    table s' chains /\ keeps s s' /\ usage_ s' = usage_ s /\
    (forall y, y <> x -> memory s' !! y = memory s !! y).
Proof.
  intros L T Hc Hx Hn. destruct (lo_users _ _ _ _ L x ltac:(lia)) as ([e E] & N1 & N2).
  destruct (lo_entry _ _ _ _ L x e E N1 N2) as [Nx [v Ev] Ec Er Ei].
  assert (in_cache e = false) as Ic by (destruct (in_cache e); [by destruct Hx; apply Ec|done]).
  rewrite Ic, Hn in Er. unfold unref. rewrite (load_bind x e) by done.
  rewrite (proj2 (Z.ltb_lt _ _)) by lia. rewrite (run_bind (assert true) _ s tt s) by done.
  rewrite update_bind by (by eexists).
  rewrite (load_bind x (set_refs (refs e - 1) e)) by (cbn; by rewrite lookup_alter_eq, E).
  cbn [refs set_refs in_cache value].
  assert (forall y, y ∈ lru -> y <> x) as Hl by (intros y Hy ->; apply Hx; set_solver +Hy).
  assert (forall y, y ∈ use -> y <> x) as Hu by (intros y Hy ->; apply Hx; set_solver +Hy).
  assert (forall y h, y ∈ chains h -> y <> x) as Hch by (intros y h Hy ->; by apply (Hc h)).
  destruct (Z.eqb_spec (refs e - 1) 0) as [Z0|Z0].
  - rewrite Ic, Ev. eexists. split; [done|].
    assert (delete x (alter (set_refs (refs e - 1)) x (memory s)) = delete x (memory s)) as EM.
    { apply map_eq. intros y. rewrite !lookup_delete. case_decide; [done|]. by rewrite lookup_alter_ne. }
    cbn [memory set_memory deleted usage_ capacity_ buckets_]. rewrite EM.
    assert (forall h l, (x ∉ h :: l) -> dll (memory s) h l -> dll (delete x (memory s)) h l) as D.
    { intros h l Hn'. apply (path_kept _ _ [x] [x]); [|set_solver +Hn'..].
      split; intros p Hp; by rewrite lookup_delete_ne by set_solver +Hp. }
    split_and!.
    + apply lists_change with (x := x) (1 := L).
      * apply D; [|apply (lo_lru _ _ _ _ L)]. set_solver +N1 Hx.
      * apply D; [|apply (lo_use _ _ _ _ L)]. set_solver +N2 Hx.
      * apply (lo_nodup _ _ _ _ L).
      * intros y Hy. by rewrite lookup_delete_ne.
      * intros y Hy. by rewrite fn_lookup_insert_ne.
      * done.
      * done.
      * intros e'. by rewrite lookup_delete_eq.
      * rewrite fn_lookup_insert. intros [?|?]; [done|lia].
    + eapply table_memory; [done|done|]. intros y h Hy. cbn. by rewrite lookup_delete_ne by (apply not_eq_sym; eauto).
    + split; cbn; [|done|].
      * intros y e' [_ Ey]%lookup_delete_Some. by exists e'.
      * rewrite (live_delete (memory s) x e v) by done. rewrite <- app_assoc. done.
    + done.
    + intros y Hy. by rewrite lookup_delete_ne.
  - eexists. split; [done|]. cbn [memory set_memory usage_].
    split_and!.
    + apply lists_change with (x := x) (1 := L).
      * eapply dll_core; [|apply (lo_lru _ _ _ _ L)]. intros p. by rewrite !alter_field.
      * eapply dll_core; [|apply (lo_use _ _ _ _ L)]. intros p. by rewrite !alter_field.
      * apply (lo_nodup _ _ _ _ L).
      * intros y Hy. by rewrite lookup_alter_ne.
      * intros y Hy. by rewrite fn_lookup_insert_ne.
      * done.
      * done.
      * intros e'. rewrite lookup_alter_eq, E. intros [= <-]. split; cbn; rewrite ?fn_lookup_insert; [done|by eexists|by rewrite Ic|rewrite Ic; lia|].
        split; [|lia]. intros Hin. destruct Hx. set_solver +Hin.
      * intros _. rewrite lookup_alter_is_Some. by eexists.
    + eapply table_memory; [done|done|]. intros y h Hy. cbn. by rewrite lookup_alter_ne by (apply not_eq_sym; eauto).
    + apply keeps_core; [|done..]. intros p. cbn. by rewrite !alter_field.
    + done.
    + intros y Hy. by rewrite lookup_alter_ne.
Qed.

Lemma strip_field {B} (field : LRUEntry -> B) (m m' : gmap nat LRUEntry) p :
  (forall e, field (strip e) = field e) -> strip <$> m' !! p = strip <$> m !! p ->
  field <$> m' !! p = field <$> m !! p.
Proof.
  intros F S. destruct (m' !! p) as [e'|], (m !! p) as [e|]; try done.
  apply (inj Some) in S. cbn. by rewrite <- (F e'), S, F.
Qed.
(** Out of its list, with the table's reference left to the caller. *)
Lemma detach_spec s lru use users x e :
  lists_ok (memory s) lru use users -> x ∈ lru ++ use -> memory s !! x = Some e ->
  exists m1, (forall b, finish_erase x b s =
      ((if b then table_remove x else mret tt) ;; unref x : M unit)
        (set_usage (u64 (usage_ s - charge e)) (set_memory m1 s))) /\
    lists_ok m1 (without x lru) (without x use) (<[x := S (users x)]> users) /\
    (forall B (field : LRUEntry -> B) p, (forall e, field (strip e) = field e) ->
      (forall e, field (set_in_cache false e) = field e) -> field <$> m1 !! p = field <$> memory s !! p).
Proof.
  intros L Hx E. destruct (heads_distinct _ _ _ _ _ L Hx) as [N1 N2].
  destruct (lo_entry _ _ _ _ L x e E N1 N2) as [Nx [v Ev] Ec Er Ei].
  assert (in_cache e = true) as Ic by (by apply Ec).
  destruct (remove_lists s lru use x (lists_dlls _ _ _ _ L) Hx) as (m' & R & P & [D1 D2 _]).
  assert (exists e', m' !! x = Some e' /\ strip e' = strip e) as (e' & E' & Es).
  { pose proof (P x) as Px. rewrite E in Px. apply fmap_Some in Px as (e' & ? & ?). eauto. }
  assert (charge e' = charge e /\ value e' = value e /\ refs e' = refs e) as (Eg & Evv & Err).
  { destruct e, e'. cbn in Es. unfold strip in Es. cbn in Es. by injection Es. }
  exists (alter (set_in_cache false) x m'). split_and!.
  - intros b. unfold finish_erase. rewrite (load_bind x e) by done. rewrite Ic.
    rewrite (run_bind (assert true) _ s tt s) by done. rewrite (run_bind _ _ s _ _ R).
    rewrite update_bind by (cbn; by eexists).
    rewrite (load_bind x (set_in_cache false e')) by (cbn; by rewrite lookup_alter_eq, E').
    cbn [charge set_in_cache]. by rewrite Eg.
  - apply lists_change with (x := x) (1 := L).
    + eapply dll_core; [|exact D1]. intros p. by rewrite !alter_field.
    + eapply dll_core; [|exact D2]. intros p. by rewrite !alter_field.
    + apply nodup_without, (lo_nodup _ _ _ _ L).
    + intros y Hy. rewrite lookup_alter_ne by done. by apply payload_core.
    + intros y Hy. rewrite fn_lookup_insert_ne, !elem_of_without by done. tauto.
    + done.
    + done.
    + intros e''. rewrite lookup_alter_eq, E'. intros [= <-].
      assert (x ∉ without x lru ++ without x use) as Hn.
      { rewrite elem_of_app, !elem_of_without. tauto. }
      split; cbn; rewrite ?fn_lookup_insert; [done|by rewrite Evv; eexists| |rewrite Err, Er, Ic; lia|].
      * split; [done|]. by intros ?.
      * split; [|lia]. intros Hl. destruct Hn. set_solver +Hl.
    + intros _. rewrite lookup_alter_is_Some. by eexists.
  - intros B field p F1 F2. rewrite alter_field by done. by apply strip_field.
Qed.

Lemma fn_insert_twice (f : nat -> nat) x n y : (<[x := f x]> (<[x := n]> f)) y = f y.
Proof. destruct (decide (y = x)) as [->|N]; by rewrite ?fn_lookup_insert, ?fn_lookup_insert_ne by done. Qed.
Lemma lists_users m lru use users users' :
  lists_ok m lru use users -> (forall x, users' x = users x) -> lists_ok m lru use users'.
Proof.
  intros L E. split; try apply L.
  - intros x e Ex N1 N2. destruct (lo_entry _ _ _ _ L x e Ex N1 N2) as [F1 F2 F3 F4 F5].
    split; [done..|by rewrite E|by rewrite E].
  - intros x. rewrite E. apply (lo_users _ _ _ _ L).
Qed.

Lemma total_without m x e lru use :
  NoDup (lru_head :: in_use_head :: lru ++ use) -> x ∈ lru ++ use -> m !! x = Some e ->
  total m (lru ++ use) - charge e = total m (without x lru ++ without x use).
Proof.
  intros [_ [_ ND]%NoDup_cons]%NoDup_cons Hx E. rewrite (without_total m x e) by done.
  unfold without at 1. rewrite filter_app. fold (without x lru) (without x use). lia.
Qed.
Lemma u64_sub_l a b : u64 (u64 a - b) = u64 (a - b).
Proof. apply Zminus_mod_idemp_l. Qed.
Lemma u64_add_l a b : u64 (u64 a + b) = u64 (a + b).
Proof. apply Zplus_mod_idemp_l. Qed.

Lemma lists_frame s s' lru use users :
  table_frame s s' -> lists_ok (memory s) lru use users -> lists_ok (memory s') lru use users.
Proof.
  intros F L. pose proof (frame_core _ _ F) as C. split.
  - eapply dll_core; [|apply (lo_lru _ _ _ _ L)]. intros p. split; by apply (frame_field _ s s').
  - eapply dll_core; [|apply (lo_use _ _ _ _ L)]. intros p. split; by apply (frame_field _ s s').
  - apply (lo_nodup _ _ _ _ L).
  - intros x e' E' N1 N2. destruct (same_core_Some _ _ _ _ C E') as (e & E & Ce).
    destruct (lo_entry _ _ _ _ L x e E N1 N2) as [G1 G2 G3 G4 G5].
    destruct (core_inv _ _ Ce) as (Q1 & _ & _ & _ & Q2 & Q3).
    split; [done|by rewrite Q1|by rewrite Q3|by rewrite Q2, Q3|done].
  - intros x Hx. eapply same_core_is_Some; [exact C|]. by apply (lo_member _ _ _ _ L).
  - intros x Hx. destruct (lo_users _ _ _ _ L x Hx) as (? & ? & ?). split; [|done].
    by eapply same_core_is_Some.
Qed.

(** The table's reference is dropped, of an entry that is out of the table. *)
Lemma drop_spec s lru use chains users x :
  lists_ok (memory s) lru use (<[x := S (users x)]> users) -> table s chains ->
  x ∉ lru ++ use -> (forall y, y ∈ lru ++ use <-> exists h, y ∈ chains h) ->
  (forall h y z, y ∈ chains h -> z ∈ chains h -> key <$> memory s !! y = key <$> memory s !! z -> y = z) ->
  usage_ s = u64 (total (memory s) (lru ++ use)) ->
  exists s', unref x s = Some (tt, s') /\ shard_ok s' lru use chains users /\ keeps s s' /\
    (forall y, y <> x -> memory s' !! y = memory s !! y).
Proof.
  intros L T Hx Hc Hk Hu.
  assert (forall h, x ∉ chains h) as Hxc by (intros h Hh; apply Hx, Hc; by exists h).
  destruct (unref_spec s _ _ _ chains x (users x) L T Hxc Hx) as (s' & R & L' & T' & K & U & O).
  { by rewrite fn_lookup_insert. }
  exists s'. split_and!; [done| |done|done]. split; [|done|done| |].
  - eapply lists_users; [exact L'|]. intros y. by rewrite fn_insert_twice.
  - intros h y z Hy Hz. rewrite !O by (intros ->; by apply (Hxc h)). by apply Hk with h.
  - rewrite U, Hu. f_equal. symmetry. apply total_ext. intros y Hy. by rewrite O by (intros ->; contradiction).
Qed.

(** An entry in the cache and in the table leaves both. *)
Lemma finish_erase_spec s lru use chains users x :
  shard_ok s lru use chains users -> x ∈ lru ++ use ->
  exists s' chains', finish_erase x true s = Some (tt, s') /\
    shard_ok s' (without x lru) (without x use) chains' users /\
    (forall h, chains' h = without x (chains h)) /\ keeps s s'.
Proof.
  intros SO Hx. pose proof (so_lists _ _ _ _ _ SO) as L. pose proof (so_table _ _ _ _ _ SO) as T.
  destruct (lo_member _ _ _ _ L x Hx) as [e E].
  destruct (detach_spec s lru use users x e L Hx E) as (m1 & R1 & L1 & F).
  rewrite R1. set (s1 := set_usage _ (set_memory m1 s)).
  assert (table s1 chains) as T1.
  { eapply table_memory; [exact T|done|]. intros y h _. split; by apply F. }
  assert (exists e1, memory s1 !! x = Some e1 /\ hash e1 = hash e) as (e1 & E1 & Eh).
  { assert (hash <$> m1 !! x = Some (hash e)) as (e1 & ? & ?)%fmap_Some by (rewrite (F _ hash), E; done). eauto. }
  destruct (proj1 (so_cached _ _ _ _ _ SO x) Hx) as [h Hh].
  assert (h = hash e) as -> by (symmetry; by apply (tb_hash _ _ T h x)).
  apply list_elem_of_split in Hh as Hs. destruct Hs as (l1 & l2 & El).
  destruct (table_remove_spec s1 chains x e1 l1 l2) as (s2 & R2 & F2 & T2); [done|done|by rewrite Eh|].
  rewrite Eh in T2.
  assert (forall h', (<[hash e := l1 ++ l2]> chains) h' = without x (chains h')) as EC.
  { intros h'. destruct (decide (h' = hash e)) as [->|N].
    - rewrite fn_lookup_insert, El, without_middle; [done|]. rewrite <- El. apply (tb_nodup _ _ T).
    - rewrite fn_lookup_insert_ne by done. rewrite without_id; [done|]. intros Hy. apply N.
      symmetry. by apply (tb_hash _ _ T h' x). }
  rewrite (run_bind _ _ s1 tt s2) by exact R2.
  destruct (drop_spec s2 (without x lru) (without x use) (<[hash e := l1 ++ l2]> chains) users x)
    as (s3 & R3 & SO3 & K3 & O3).
  - by apply (lists_frame s1).
  - done.
  - rewrite elem_of_app, !elem_of_without. tauto.
  - intros y. rewrite elem_of_app, !elem_of_without. setoid_rewrite EC. setoid_rewrite elem_of_without.
    pose proof (so_cached _ _ _ _ _ SO y) as Hc. rewrite elem_of_app in Hc. split.
    + intros Hy. destruct (proj1 Hc) as [h' Hh']; [tauto|]. exists h'. tauto.
    + intros (h' & Ny & Hh'). assert (y ∈ lru \/ y ∈ use) by (apply Hc; by exists h'). tauto.
  - intros h' y z. rewrite !EC, !elem_of_without. intros [_ Hy] [_ Hz].
    rewrite !(frame_field key s1 s2) by done. unfold s1; cbn [memory set_usage set_memory]. rewrite !(F _ key) by done.
    by apply (so_keys _ _ _ _ _ SO h').
  - rewrite (tf_usage _ _ F2). unfold s1 at 1. cbn [usage_ set_usage]. rewrite (so_usage _ _ _ _ _ SO), u64_sub_l. f_equal.
    rewrite (total_without _ x e); [|apply (lo_nodup _ _ _ _ L)|done|done].
    symmetry. apply total_ext. intros y Hy. rewrite (frame_field charge s1 s2) by done. by apply (F _ charge).
  - exists s3, (<[hash e := l1 ++ l2]> chains). split_and!; [done|done|done|].
    transitivity s2; [|done]. apply keeps_core; [|by rewrite (tf_deleted _ _ F2)|by rewrite (tf_capacity _ _ F2)].
    intros p. rewrite !(frame_field _ s1 s2) by done. unfold s1; cbn [memory set_usage set_memory].
    split_and!; by apply F.
Qed.

(** An entry that has been replaced in the table leaves the cache. *)
Lemma finish_replaced_spec s lru use chains users x :
  lists_ok (memory s) lru use users -> table s chains -> x ∈ lru ++ use -> (forall h, x ∉ chains h) ->
  (forall y, y ∈ lru ++ use <-> y = x \/ exists h, y ∈ chains h) ->
  (forall h y z, y ∈ chains h -> z ∈ chains h -> key <$> memory s !! y = key <$> memory s !! z -> y = z) ->
  usage_ s = u64 (total (memory s) (lru ++ use)) ->
  exists s', finish_erase x false s = Some (tt, s') /\
    shard_ok s' (without x lru) (without x use) chains users /\ keeps s s'.
Proof.
  intros L T Hx Hxc Hc Hk Hu. destruct (lo_member _ _ _ _ L x Hx) as [e E].
  destruct (detach_spec s lru use users x e L Hx E) as (m1 & R1 & L1 & F).
  rewrite R1. set (s1 := set_usage _ (set_memory m1 s)).
  rewrite (run_bind _ _ s1 tt s1) by done.
  destruct (drop_spec s1 (without x lru) (without x use) chains users x) as (s2 & R2 & SO2 & K2 & O2).
  - done.
  - eapply table_memory; [exact T|done|]. intros y h _. split; by apply F.
  - rewrite elem_of_app, !elem_of_without. tauto.
  - intros y. specialize (Hc y). rewrite elem_of_app, !elem_of_without. rewrite elem_of_app in Hc.
    split; [tauto|]. intros Hy. assert (y <> x) by (intros ->; destruct Hy as [h Hy]; by apply (Hxc h)). tauto.
  - intros h y z Hy Hz. unfold s1; cbn [memory set_usage set_memory]. rewrite !(F _ key) by done. by apply Hk with h.
  - unfold s1; cbn [memory set_usage set_memory usage_]. rewrite Hu, u64_sub_l. f_equal.
    rewrite (total_without _ x e); [|apply (lo_nodup _ _ _ _ L)|done|done].
    symmetry. apply total_ext. intros y Hy. by apply (F _ charge).
  - exists s2. split_and!; [done|done|]. transitivity s1; [|done].
    apply keeps_core; [|done..]. intros p. split_and!; by apply F.
Qed.

Lemma dll_first m h xs : dll m h xs -> exists e, m !! h = Some e /\ next e = default h (head xs).
Proof. unfold dll. destruct xs as [|x xs]; intros [L _]; by apply linked_left in L. Qed.

(** Eviction takes idle entries from the old end of the list, only while the
    cache is over its capacity, and until it is not or none is left. *)
Lemma evict_loop_spec fuel s lru use chains users :
  shard_ok s lru use chains users -> (length lru < fuel)%nat ->
  exists s' n chains', evict_loop fuel s = Some (tt, s') /\
    shard_ok s' (drop n lru) use chains' users /\ (forall h x, x ∈ chains' h -> x ∈ chains h) /\ keeps s s' /\
    (usage_ s' <= capacity_ s' \/ drop n lru = []) /\
    (forall i, (i < n)%nat -> capacity_ s < u64 (total (memory s) (drop i lru ++ use))).
Proof.
  revert s lru chains. induction fuel as [|fuel IH]; intros s lru chains SO Hf; [lia|]. cbn [evict_loop].
  pose proof (so_lists _ _ _ _ _ SO) as L.
  destruct (dll_first _ _ _ (lo_lru _ _ _ _ L)) as (eh & Eh & Nh).
  rewrite (run_bind (get _) _ s (capacity_ s <? usage_ s) s) by done.
  rewrite (run_bind (list_empty lru_head) _ s (next eh =? lru_head)%nat s).
  2:{ unfold list_empty. by rewrite (load_bind lru_head eh). }
  destruct lru as [|x lru].
  { rewrite Nh. change (default lru_head (head [])) with lru_head. rewrite Nat.eqb_refl, andb_false_r.
    exists s, 0%nat, chains. split_and!; [done|done|done|done|by right|lia]. }
  change (default lru_head (head (x :: lru))) with x in Nh.
  pose proof (lo_nodup _ _ _ _ L) as ND.
  assert (x ∈ (x :: lru) ++ use) as Hx by set_solver +.
  destruct (heads_distinct _ _ _ _ _ L Hx) as [N1 N2].
  rewrite (proj2 (Nat.eqb_neq (next eh) lru_head)) by congruence. rewrite andb_true_r.
  destruct (Z.ltb_spec (capacity_ s) (usage_ s)) as [Over|Under].
  2:{ exists s, 0%nat, chains. split_and!; [done|done|done|done|by left|lia]. }
  rewrite (run_bind (oldest lru_head) _ s x s).
  2:{ unfold oldest. rewrite (load_bind lru_head eh) by done. by rewrite Nh. }
  destruct (finish_erase_spec s _ use chains users x SO Hx) as (s1 & chains1 & R1 & SO1 & EC1 & K1).
  rewrite (run_bind _ _ s tt s1) by done.
  apply NoDup_cons in ND as [_ [_ [ND1 _]%NoDup_cons]%NoDup_cons].
  change (x ∉ lru ++ use) in ND1. apply not_elem_of_app in ND1 as [Hl Hu].
  assert (without x (x :: lru) = lru) as El.
  { unfold without. rewrite filter_cons_False by (intros []; done). by apply without_id. }
  rewrite El, (without_id x use) in SO1 by done. cbn [length] in Hf.
  destruct (IH s1 lru chains1 SO1 ltac:(lia)) as (s' & n & chains' & R & SO' & EC & K & Hend & Hmin).
  exists s', (S n), chains'. split_and!; [done|done| |by transitivity s1|done|].
  - intros h y Hy. apply EC in Hy. rewrite EC1, elem_of_without in Hy. tauto.
  - intros [|i] Hi; [cbn [drop]; by rewrite <- (so_usage _ _ _ _ _ SO)|]. cbn [drop].
    rewrite <- (kp_capacity _ _ K1). rewrite <- (total_ext (memory s) (memory s1)); [apply Hmin; lia|].
    intros y Hy. assert (y ∈ lru ++ use) as Hy'.
    { apply elem_of_app in Hy as [Hy|Hy]; [|set_solver +Hy].
      apply elem_of_app. left. rewrite <- (take_drop i lru). set_solver +Hy. }
    destruct (lo_member _ _ _ _ (so_lists _ _ _ _ _ SO1) y Hy') as [e1 E1].
    destruct (kp_entry _ _ K1 y e1 E1) as (e & E & _ & _ & _ & Hch). rewrite E1, E. cbn. by rewrite Hch.
Qed.
Lemma evict_spec s lru use chains users :
  shard_ok s lru use chains users ->
  exists s' n chains', evict_to_capacity s = Some (tt, s') /\
    shard_ok s' (drop n lru) use chains' users /\ (forall h x, x ∈ chains' h -> x ∈ chains h) /\ keeps s s' /\
    (usage_ s' <= capacity_ s' \/ drop n lru = []) /\
    (forall i, (i < n)%nat -> capacity_ s < u64 (total (memory s) (drop i lru ++ use))).
Proof.
  intros SO. unfold evict_to_capacity. rewrite (run_bind chain_fuel _ s _ s) by done.
  apply evict_loop_spec; [done|]. pose proof (so_lists _ _ _ _ _ SO) as L.
  apply Nat.lt_succ_r, distinct_bound.
  - pose proof (lo_nodup _ _ _ _ L) as ND. apply NoDup_cons in ND as [_ [_ [? _]%NoDup_app]%NoDup_cons]. done.
  - intros x Hx. apply (lo_member _ _ _ _ L). set_solver +Hx.
Qed.

(** Entries change place or count only. *)
Lemma shard_move s s' lru use chains users lru' use' users' :
  shard_ok s lru use chains users -> lists_ok (memory s') lru' use' users' ->
  (forall y, y ∈ lru' ++ use' <-> y ∈ lru ++ use) ->
  (forall B (field : LRUEntry -> B) p, (forall e, field (strip e) = field e) ->
    (forall n e, field (set_refs n e) = field e) -> field <$> memory s' !! p = field <$> memory s !! p) ->
  buckets_ s' = buckets_ s -> usage_ s' = usage_ s -> deleted s' = deleted s -> capacity_ s' = capacity_ s ->
  shard_ok s' lru' use' chains users' /\ keeps s s'.
Proof.
  intros SO L Hy F EB EU ED EC. split.
  - split; [done| | | |].
    + eapply table_memory; [apply (so_table _ _ _ _ _ SO)|done|]. intros y h _. split; by apply F.
    + intros x. rewrite Hy. apply (so_cached _ _ _ _ _ SO).
    + intros h x y Hx Hz. rewrite !(F _ key) by done. by apply (so_keys _ _ _ _ _ SO h).
    + rewrite EU, (so_usage _ _ _ _ _ SO). f_equal.
      rewrite (total_ext (memory s) (memory s')) by (intros; by apply F). apply total_perm.
      pose proof (lo_nodup _ _ _ _ L) as N1. pose proof (lo_nodup _ _ _ _ (so_lists _ _ _ _ _ SO)) as N2.
      apply NoDup_cons in N1 as [_ [_ N1]%NoDup_cons]. apply NoDup_cons in N2 as [_ [_ N2]%NoDup_cons].
      apply NoDup_Permutation; [done..|]. intros y. by rewrite Hy.
  - apply keeps_core; [|done..]. intros p. split_and!; by apply F.
Qed.

Lemma lookup_spec s lru use chains users k h :
  shard_ok s lru use chains users -> (forall x, Z.of_nat (users x) + 2 < 2 ^ 32) ->
  exists q s', lookup k h s = Some (q, s') /\
    (q = null /\ s' = s /\ (forall x, x ∈ chains h -> key <$> memory s !! x <> Some k) \/
     q ∈ chains h /\ key <$> memory s !! q = Some k /\ keeps s s' /\
       shard_ok s' (without q lru) (without q use ++ [q]) chains (<[q := S (users q)]> users)).
Proof.
  intros SO Hb. pose proof (so_lists _ _ _ _ _ SO) as L. unfold lookup.
  destruct (table_find_spec s chains k h (so_table _ _ _ _ _ SO)) as (q & R & [[-> N]|[Hq K]]).
  { rewrite (run_bind _ _ s null s) by done. exists null, s. split; [done|]. by left. }
  rewrite (run_bind _ _ s q s) by done.
  assert (q ∈ lru ++ use) as Hl by (apply (so_cached _ _ _ _ _ SO); by exists h).
  destruct (lo_member _ _ _ _ L q Hl) as [e E]. destruct (heads_distinct _ _ _ _ _ L Hl) as [N1 N2].
  destruct (lo_entry _ _ _ _ L q e E N1 N2) as [Nq Ev Ec Er Ei].
  assert (in_cache e = true) as Ic by (by apply Ec). rewrite Ic in Er.
  rewrite (proj2 (Nat.eqb_neq q null)) by done. rewrite (load_bind q e) by done.
  rewrite update_bind by (by eexists). set (s1 := set_memory _ s).
  assert (dlls (memory s1) lru use) as D1.
  { split; [| |apply (lo_nodup _ _ _ _ L)]; (eapply dll_core; [|apply L]); intros p; unfold s1; cbn; by rewrite !alter_field. }
  destruct (remove_lists s1 lru use q D1 Hl) as (m2 & R2 & P2 & D2).
  rewrite (run_bind _ _ s1 _ _ R2). set (s2 := set_memory m2 s1).
  assert (q ∉ without q lru ++ without q use) as Hn by (rewrite elem_of_app, !elem_of_without; tauto).
  destruct (append_lists s2 (without q lru) (without q use) q false) as (m3 & R3 & P3 & D3); [done..| |].
  { eapply payload_Some; [exact P2|]. unfold s1; cbn. rewrite lookup_alter_is_Some. by eexists. }
  rewrite (run_bind _ _ s2 _ _ R3). set (s3 := set_memory m3 s2).
  assert (forall B (field : LRUEntry -> B) p, (forall e, field (strip e) = field e) ->
    field <$> m3 !! p = field <$> alter (set_refs (u32 (refs e + 1))) q (memory s) !! p) as F3.
  { intros B field p Hs. transitivity (field <$> m2 !! p); by apply strip_field. }
  exists q, s3. split; [done|]. right. split; [done|]. split; [done|]. apply and_comm.
  apply (shard_move s s3 lru use chains users); try done.
  - apply lists_change with (x := q) (1 := L); [apply D3..| | | | | |].
    + intros y Hy. unfold s3; cbn. rewrite (F3 _ core) by done. by rewrite lookup_alter_ne.
    + intros y Hy. rewrite fn_lookup_insert_ne, elem_of_app, !elem_of_without by done. set_solver +Hy.
    + done.
    + done.
    + intros e3 E3. pose proof (F3 _ strip q ltac:(done)) as Fq. unfold s3 in E3; cbn in E3.
      rewrite E3, lookup_alter_eq, E in Fq. apply (inj Some) in Fq.
      assert (value e3 = value e /\ in_cache e3 = in_cache e /\ refs e3 = u32 (refs e + 1)) as (Q1 & Q2 & Q3).
      { destruct e, e3. unfold strip in Fq; cbn in *. by simplify_eq. }
      specialize (Hb q). split; [done|by rewrite Q1| | |].
      * rewrite Q2, Ic. split; [|done]. intros _. set_solver +.
      * rewrite Q2, Ic, Q3, Er, fn_lookup_insert. rewrite u32_small by lia. lia.
      * rewrite fn_lookup_insert, elem_of_without. split; [by intros [? _]|lia].
    + intros _. unfold s3; cbn. eapply payload_Some; [exact P3|]. eapply payload_Some; [exact P2|].
      unfold s1; cbn. rewrite lookup_alter_is_Some. by eexists.
  - intros y. rewrite !elem_of_app, !elem_of_without, list_elem_of_singleton, <- elem_of_app.
    destruct (decide (y = q)) as [->|]; [tauto|]. rewrite elem_of_app. tauto.
  - intros B field p Hs Hr. unfold s3; cbn. rewrite F3 by done. by rewrite alter_field.
Qed.

Lemma unref_keep s x e :
  memory s !! x = Some e -> 1 < refs e ->
  unref x s = Some (tt, set_memory (alter (set_refs (refs e - 1)) x (memory s)) s).
Proof.
  intros E Hr. unfold unref. rewrite (load_bind x e) by done. rewrite (proj2 (Z.ltb_lt _ _)) by lia.
  rewrite (run_bind (assert true) _ s tt s) by done. rewrite update_bind by (by eexists).
  rewrite (load_bind x (set_refs (refs e - 1) e)) by (cbn; by rewrite lookup_alter_eq, E).
  cbn [refs set_refs]. by rewrite (proj2 (Z.eqb_neq _ _)) by lia.
Qed.

(** A user lets go: the last one of a cached entry leaves it at the young end of
    the idle list. *)
Lemma let_go_spec s lru use chains users x e :
  shard_ok s lru use chains users -> (0 < users x)%nat -> memory s !! x = Some e ->
  exists sa s' lru' use',
    (if (refs e =? 2) && in_cache e then list_remove x ;; list_append lru_head x else mret tt : M unit) s
      = Some (tt, sa) /\ unref x sa = Some (tt, s') /\
    shard_ok s' lru' use' chains (<[x := pred (users x)]> users) /\ keeps s s'.
Proof.
  intros SO Hu E. pose proof (so_lists _ _ _ _ _ SO) as L.
  destruct (lo_users _ _ _ _ L x Hu) as (_ & N1 & N2).
  destruct (lo_entry _ _ _ _ L x e E N1 N2) as [Nx Ev Ec Er Ei].
  destruct (in_cache e) eqn:Ic.
  2:{ rewrite andb_false_r. assert (x ∉ lru ++ use) as Hn by (by intros ?%Ec).
      assert (forall h, x ∉ chains h) as Hc by (intros h Hh; apply Hn, (so_cached _ _ _ _ _ SO); by exists h).
      destruct (unref_spec s lru use users chains x (pred (users x)) L (so_table _ _ _ _ _ SO) Hc Hn ltac:(lia))
        as (s' & R & L' & T' & K & U & O).
      exists s, s', lru, use. split_and!; [done|done| |done]. split; [done|done|apply SO| |].
      - intros h y z Hy Hz. rewrite !O by (intros ->; by apply (Hc h)). by apply (so_keys _ _ _ _ _ SO h).
      - rewrite U, (so_usage _ _ _ _ _ SO). f_equal. symmetry. apply total_ext.
        intros y Hy. by rewrite O by (intros ->; contradiction). }
  assert (x ∈ lru ++ use) as Hx by (by apply Ec).
  rewrite andb_true_r. destruct (Z.eqb_spec (refs e) 2) as [E2|E2].
  - assert (x ∉ lru) as Hl by (intros ?%Ei; lia).
    destruct (remove_lists s lru use x (lists_dlls _ _ _ _ L) Hx) as (m1 & R1 & P1 & D1).
    set (s1 := set_memory m1 s). rewrite (run_bind _ _ s _ s1 R1).
    assert (x ∉ without x lru ++ without x use) as Hn by (rewrite elem_of_app, !elem_of_without; tauto).
    destruct (append_lists s1 (without x lru) (without x use) x true) as (m2 & R2 & P2 & D2); [done..| |].
    { eapply payload_Some; [exact P1|]. by eexists. }
    set (s2 := set_memory m2 s1).
    assert (forall B (field : LRUEntry -> B) p, (forall e, field (strip e) = field e) ->
      field <$> m2 !! p = field <$> memory s !! p) as F2.
    { intros B field p Hs. transitivity (field <$> m1 !! p); by apply strip_field. }
    assert (exists e2, m2 !! x = Some e2 /\ strip e2 = strip e) as (e2 & Em & Es).
    { assert (strip <$> m2 !! x = Some (strip e)) as (e2 & ? & ?)%fmap_Some by (rewrite (F2 _ strip), E; done). eauto. }
    assert (value e2 = value e /\ in_cache e2 = in_cache e /\ refs e2 = refs e) as (Q1 & Q2 & Q3).
    { destruct e, e2. unfold strip in Es; cbn in *. by simplify_eq. }
    eexists s2, _, (without x lru ++ [x]), (without x use). split; [exact R2|].
    split; [apply (unref_keep s2 x e2); [done|lia]|].
    apply (shard_move s _ lru use chains users); try done; cbn [memory set_memory].
    + apply lists_change with (x := x) (1 := L).
      * eapply dll_core; [|apply D2]. intros p. by rewrite !alter_field.
      * eapply dll_core; [|apply D2]. intros p. by rewrite !alter_field.
      * apply D2.
      * intros y Hy. rewrite lookup_alter_ne by done. by apply (F2 _ core).
      * intros y Hy. rewrite fn_lookup_insert_ne, elem_of_app, !elem_of_without by done. set_solver +Hy.
      * done.
      * done.
      * intros e3. unfold s2; cbn. rewrite lookup_alter_eq, Em. intros [= <-].
        split; cbn; rewrite ?fn_lookup_insert; [done|by rewrite Q1| | |].
        -- rewrite Q2, Ic. split; [|done]. intros _. set_solver +.
        -- rewrite Q2, Ic, Q3, Er. lia.
        -- split; [lia|]. intros _. set_solver +.
      * intros _. rewrite lookup_alter_is_Some. unfold s2; cbn. by eexists.
    + intros y. rewrite !elem_of_app, !elem_of_without, list_elem_of_singleton, <- elem_of_app.
      destruct (decide (y = x)) as [->|]; [tauto|]. rewrite elem_of_app. tauto.
    + intros B field p Hs Hr. rewrite alter_field by done. by apply F2.
  - eexists s, _, lru, use. split; [done|]. split; [apply (unref_keep s x e); [done|lia]|].
    apply (shard_move s _ lru use chains users); try done; cbn [memory set_memory].
    + apply lists_change with (x := x) (1 := L).
      * eapply dll_core; [|apply L]. intros p. by rewrite !alter_field.
      * eapply dll_core; [|apply L]. intros p. by rewrite !alter_field.
      * apply L.
      * intros y Hy. by rewrite lookup_alter_ne.
      * intros y Hy. by rewrite fn_lookup_insert_ne.
      * done.
      * done.
      * intros e3. rewrite lookup_alter_eq, E. intros [= <-].
        split; cbn; rewrite ?fn_lookup_insert; [done|done|by rewrite Ic|rewrite Ic; lia|].
        rewrite Ei. lia.
      * intros _. rewrite lookup_alter_is_Some. by eexists.
    + intros B field p Hs Hr. by rewrite alter_field.
Qed.

Lemma release_spec s lru use chains users x :
  shard_ok s lru use chains users -> (0 < users x)%nat ->
  exists s' lru' use' chains', release x s = Some (tt, s') /\
    shard_ok s' lru' use' chains' (<[x := pred (users x)]> users) /\ keeps s s' /\
    (forall h y, y ∈ chains' h -> y ∈ chains h) /\ (usage_ s' <= capacity_ s' \/ lru' = []).
Proof.
  intros SO Hu. destruct (lo_users _ _ _ _ (so_lists _ _ _ _ _ SO) x Hu) as ([e E] & _).
  destruct (let_go_spec s lru use chains users x e SO Hu E) as (sa & s1 & lru1 & use1 & Ra & R1 & SO1 & K1).
  destruct (evict_spec s1 _ _ _ _ SO1) as (s' & n & chains' & R & SO' & EC & K & Hend & _).
  exists s', (drop n lru1), use1, chains'. split_and!; [|done|by transitivity s1|done|done].
  unfold release. rewrite (load_bind x e) by done. rewrite (run_bind _ _ s _ _ Ra). by rewrite (run_bind _ _ sa _ _ R1).
Qed.

Lemma erase_spec s lru use chains users k h :
  shard_ok s lru use chains users ->
  exists s' lru' use' chains', erase k h s = Some (tt, s') /\
    shard_ok s' lru' use' chains' users /\ keeps s s' /\
    (forall h' y, y ∈ chains' h' -> y ∈ chains h') /\
    (forall y, y ∈ chains' h -> key <$> memory s !! y <> Some k).
Proof.
  intros SO. unfold erase.
  destruct (table_find_spec s chains k h (so_table _ _ _ _ _ SO)) as (q & R & [[-> N]|[Hq K]]);
    rewrite (run_bind _ _ s _ _ R).
  - exists s, lru, use, chains. by split_and!.
  - assert (q <> null) as Nq by (eapply chain_memory; [apply (tb_chain _ _ (so_table _ _ _ _ _ SO))|done]).
    rewrite (proj2 (Nat.eqb_neq q null)) by done.
    assert (q ∈ lru ++ use) as Hl by (apply (so_cached _ _ _ _ _ SO); by exists h).
    destruct (finish_erase_spec s _ _ _ _ q SO Hl) as (s' & chains' & R' & SO' & EC & K').
    exists s', (without q lru), (without q use), chains'. split_and!; [done|done|done| |].
    + intros h' y. rewrite EC, elem_of_without. tauto.
    + intros y. rewrite EC, elem_of_without. intros [Ny Hy] Ky. apply Ny.
      apply (so_keys _ _ _ _ _ SO h); [done..|]. congruence.
Qed.

(** The new entry in memory and in the list in use, not yet in the table. *)
Lemma alloc_spec s lru use chains users addr k h v c :
  shard_ok s lru use chains users -> memory s !! addr = None -> addr <> null ->
  let e0 := mkEntry (Some v) k h c 2 true null null null in
  let s1 := set_usage (u64 (usage_ s + c)) (set_memory (<[addr := e0]> (memory s)) s) in
  exists m2, list_append in_use_head addr s1 = Some (tt, set_memory m2 s1) /\
    lists_ok m2 lru (use ++ [addr]) (<[addr := 1%nat]> users) /\
    (forall B (field : LRUEntry -> B) p, (forall e, field (strip e) = field e) ->
       field <$> m2 !! p = if decide (p = addr) then Some (field e0) else field <$> memory s !! p) /\
    table (set_memory m2 s1) chains /\ (forall h', addr ∉ chains h').
Proof.
  intros SO N Na e0 s1. pose proof (so_lists _ _ _ _ _ SO) as L.
  assert (addr <> lru_head) as N1 by (intros ->; destruct (head_present _ _ _ (lo_lru _ _ _ _ L)); congruence).
  assert (addr <> in_use_head) as N2 by (intros ->; destruct (head_present _ _ _ (lo_use _ _ _ _ L)); congruence).
  assert (addr ∉ lru ++ use) as Hn by (intros Hx; destruct (lo_member _ _ _ _ L addr Hx); congruence).
  assert (forall h', addr ∉ chains h') as Hc by (intros h' Hh; apply Hn, (so_cached _ _ _ _ _ SO); by exists h').
  assert (forall hd l, addr ∉ hd :: l -> dll (memory s) hd l -> dll (memory s1) hd l) as D.
  { intros hd l Hx. apply (path_kept _ _ [addr] [addr]); [|set_solver +Hx..].
    unfold s1; cbn. split; intros p Hp; by rewrite lookup_insert_ne by set_solver +Hp. }
  destruct (append_lists s1 lru use addr false) as (m2 & R & P & D2); [|done..| |].
  { split; [apply D; [|apply L]; set_solver +N1 Hn|apply D; [|apply L]; set_solver +N2 Hn|apply L]. }
  { unfold s1; cbn. rewrite lookup_insert_eq. by eexists. }
  assert (forall B (field : LRUEntry -> B) p, (forall e, field (strip e) = field e) ->
    field <$> m2 !! p = if decide (p = addr) then Some (field e0) else field <$> memory s !! p) as F.
  { intros B field p Hs. rewrite (strip_field field (memory s1) m2) by done. unfold s1; cbn.
    rewrite lookup_insert. case_decide as Q; [by rewrite decide_True|by rewrite decide_False]. }
  exists m2. split_and!; [done| |done| |done].
  - apply lists_change with (x := addr) (1 := L); [apply D2..| | |done|done| |].
    + intros y Hy. rewrite (F _ core) by done. by rewrite decide_False.
    + intros y Hy. rewrite fn_lookup_insert_ne by done. set_solver +Hy.
    + intros e E. pose proof (F _ strip addr ltac:(done)) as Fa. rewrite E, decide_True in Fa by done.
      apply (inj Some) in Fa.
      assert (value e = Some v /\ in_cache e = true /\ refs e = 2) as (Q1 & Q2 & Q3).
      { destruct e. unfold strip in Fa; cbn in *. by simplify_eq. }
      split; [done|by rewrite Q1| | |]; rewrite ?Q2, ?Q3, ?fn_lookup_insert; [|done|].
      * split; [|done]. intros _. set_solver +.
      * split; [|done]. intros Hl. destruct Hn. set_solver +Hl.
    + intros _. eapply payload_Some; [exact P|]. unfold s1; cbn. rewrite lookup_insert_eq. by eexists.
  - eapply table_memory; [apply (so_table _ _ _ _ _ SO)|done|]. intros y h' Hy.
    assert (y <> addr) as Ny by (intros ->; by apply (Hc h')). cbn.
    by rewrite (F _ hash_next), (F _ hash), !decide_False by done.
Qed.

(** What the entries are after [addr] was inserted. *)
Definition inserted (s s' : LRUShard) (addr : nat) (k : bytes) (h : Z) (v : V) (c : Z) : Prop :=
  (forall y e', memory s' !! y = Some e' ->
     if decide (y = addr) then value e' = Some v /\ key e' = k /\ hash e' = h /\ charge e' = c
     else exists e, memory s !! y = Some e /\ value e' = value e /\ key e' = key e /\ hash e' = hash e /\ charge e' = charge e) /\
  capacity_ s' = capacity_ s /\
  deleted s' ++ live (memory s') ≡ₚ v :: deleted s ++ live (memory s).
Lemma inserted_keeps s s1 s2 addr k h v c :
  inserted s s1 addr k h v c -> keeps s1 s2 -> inserted s s2 addr k h v c.
Proof.
  intros (A & B & C) [A' B' C']. split_and!; [|congruence|by rewrite C'].
  intros y e2 E2. destruct (A' y e2 E2) as (e1 & E1 & Q1 & Q2 & Q3 & Q4). specialize (A y e1 E1).
  rewrite Q1, Q2, Q3, Q4. done.
Qed.

(** The table takes the new entry, and [old], the entry of the same key or null,
    leaves the chain. *)
Lemma replace_chains s chains s3 lru use users addr k h l old :
  shard_ok s lru use chains users -> (forall h', addr ∉ chains h') ->
  (old = null /\ l = addr :: chains h /\ (forall y, y ∈ chains h -> key <$> memory s !! y <> Some k) \/
   exists l1 l2, chains h = l1 ++ old :: l2 /\ l = l1 ++ addr :: l2 /\ old <> null /\ key <$> memory s !! old = Some k) ->
  (forall y, y <> addr -> key <$> memory s3 !! y = key <$> memory s !! y) -> key <$> memory s3 !! addr = Some k ->
  (forall h' y, y ∈ (<[h := l]> chains) h' <-> y = addr /\ h' = h \/ y ∈ chains h' /\ y <> old) /\
  (forall y, y ∈ chains h -> y <> old -> key <$> memory s !! y <> Some k) /\
  (forall h' y z, y ∈ (<[h := l]> chains) h' -> z ∈ (<[h := l]> chains) h' ->
     key <$> memory s3 !! y = key <$> memory s3 !! z -> y = z).
Proof.
  intros SO Hc Hold K3 K3a. pose proof (so_table _ _ _ _ _ SO) as T.
  assert (forall y, y ∈ chains h -> y <> old -> key <$> memory s !! y <> Some k) as KN.
  { intros y Hy Ny. destruct Hold as [(-> & _ & Hk)|(l1 & l2 & El & _ & _ & Ko)]; [by apply Hk|].
    intros Ky. apply Ny, (so_keys _ _ _ _ _ SO h); [done|rewrite El; set_solver +|congruence]. }
  assert (forall h' y, y ∈ (<[h := l]> chains) h' <-> y = addr /\ h' = h \/ y ∈ chains h' /\ y <> old) as M.
  { assert (forall h', old ∈ chains h' -> old <> null) as Hnull.
    { intros h' Ho. by eapply chain_memory; [apply (tb_chain _ _ T)|]. }
    intros h' y. destruct (decide (h' = h)) as [->|Nh]; [rewrite fn_lookup_insert|rewrite fn_lookup_insert_ne by done].
    - destruct Hold as [(-> & -> & _)|(l1 & l2 & El & -> & _ & _)].
      + rewrite elem_of_cons. split; [|tauto]. intros [->|Hy]; [tauto|]. right. split; [done|]. intros ->. by eapply Hnull.
      + pose proof (tb_nodup _ _ T h) as ND. rewrite El in ND |- *. apply NoDup_app in ND as (_ & ND & [ND' _]%NoDup_cons).
        rewrite !elem_of_app, !elem_of_cons. specialize (ND y). rewrite elem_of_cons in ND.
        split; [|tauto]. intros [Hy|[->|Hy]]; [|tauto|]; right; (split; [tauto|]); intros ->; tauto.
    - split; [|tauto]. intros Hy. right. split; [done|]. intros ->.
      destruct Hold as [(-> & _ & _)|(l1 & l2 & El & _)]; [by eapply Hnull|].
      destruct (chain_memory _ _ _ _ (tb_chain _ _ T h') Hy) as (_ & e & E). apply Nh.
      rewrite <- (tb_hash _ _ T h' old e), <- (tb_hash _ _ T h old e); [done|rewrite El; set_solver +|done..]. }
  split_and!; [done|done|]. intros h' y z Hy Hz. apply M in Hy as [[-> ->]|[Hy Oy]]; apply M in Hz as [[-> Hh]|[Hz Oz]]; [done|..].
  - rewrite K3a, K3 by (intros ->; by eapply Hc). intros Q. symmetry in Q. by apply KN in Q.
  - subst h'. rewrite K3a, K3 by (intros ->; by eapply Hc). intros Q. by apply KN in Q.
  - rewrite !K3 by (intros ->; by eapply Hc). by apply (so_keys _ _ _ _ _ SO h').
Qed.

Lemma insert_spec s lru use chains users addr k h v c :
  shard_ok s lru use chains users -> memory s !! addr = None -> addr <> null ->
  exists s' lru' use' chains', insert addr k h v c s = Some (addr, s') /\
    shard_ok s' lru' use' chains' (<[addr := 1%nat]> users) /\ inserted s s' addr k h v c /\
    (forall h' y, y ∈ chains' h' -> y = addr /\ h' = h \/
      y <> addr /\ y ∈ chains h' /\ (h' = h -> key <$> memory s !! y <> Some k)) /\
    (usage_ s' <= capacity_ s' \/ lru' = []).
Proof.
  intros SO N Na. pose proof (so_lists _ _ _ _ _ SO) as L.
  destruct (alloc_spec s lru use chains users addr k h v c SO N Na) as (m2 & R2 & L2 & F2 & T2 & Hc).
  set (e0 := mkEntry (Some v) k h c 2 true null null null) in *.
  set (s1 := set_usage (u64 (usage_ s + c)) (set_memory (<[addr := e0]> (memory s)) s)) in *.
  set (s2 := set_memory m2 s1) in *.
  assert (exists e2, m2 !! addr = Some e2 /\ value e2 = Some v /\ hash e2 = h /\ key e2 = k /\ charge e2 = c)
    as (e2 & E2 & Ev & Eh & Ek & Ec).
  { pose proof (F2 _ strip addr ltac:(done)) as Fa. rewrite decide_True in Fa by done.
    apply fmap_Some in Fa as (e2 & E2 & Es). exists e2. split; [done|].
    destruct e2. unfold strip in Es; cbn in *. by simplify_eq. }
  assert (inserted s s2 addr k h v c) as I2.
  { split_and!; [|done|].
    - intros y e' E'. unfold s2 in E'; cbn in E'. case_decide as Q; [subst y; by simplify_eq|].
      pose proof (F2 _ strip y ltac:(done)) as Fy. rewrite E', decide_False in Fy by done.
      symmetry in Fy. apply fmap_Some in Fy as (e & E & Es). exists e. split; [done|].
      destruct e, e'. unfold strip in Es; cbn in *. by simplify_eq.
    - unfold s2; cbn. rewrite (live_same (<[addr := e0]> (memory s)) m2).
      + rewrite (live_insert _ addr e0 v) by done. by rewrite <- Permutation_middle.
      + intros p. rewrite (F2 _ value) by done. rewrite lookup_insert. case_decide as Q.
        * subst p. by rewrite decide_True.
        * by rewrite decide_False by done. }
  destruct (table_insert_spec s2 chains addr e2 T2 E2 Na (Hc _)) as (old & s3 & l & R3 & F3 & T3 & Hold).
  rewrite Eh, Ek in *. pose proof (lists_frame _ _ _ _ _ F3 L2) as L3.
  assert (keeps s2 s3) as Kp3 by (apply keeps_same_core; [by apply frame_core|apply F3..]).
  assert (forall B (field : LRUEntry -> B) p, (forall e, field (strip e) = field e) ->
    (forall e, field (strip_hash e) = field e) ->
    field <$> memory s3 !! p = if decide (p = addr) then Some (field e0) else field <$> memory s !! p) as F4.
  { intros B field p H1 H2. rewrite (frame_field field s2 s3) by done. by apply F2. }
  destruct (replace_chains s chains s3 lru use users addr k h l old) as (HM & KN & KU); [done|done| | | |].
  { assert (forall y, y ∈ chains h -> key <$> memory s2 !! y = key <$> memory s !! y) as Ks.
    { intros y Hy. unfold s2; cbn. rewrite (F2 _ key) by done. rewrite decide_False; [done|]. intros ->. by eapply Hc. }
    destruct Hold as [(-> & -> & Hk)|(l1 & l2 & El & -> & No & Ko)]; [left|right].
    - split_and!; [done|done|]. intros y Hy. rewrite <- Ks by done. by apply Hk.
    - exists l1, l2. split_and!; [done|done|done|]. rewrite <- Ks; [done|]. rewrite El. set_solver +. }
  { intros y Hy. rewrite (F4 _ key) by done. by rewrite decide_False. }
  { rewrite (F4 _ key) by done. by rewrite decide_True. }
  assert (usage_ s3 = u64 (total (memory s3) (lru ++ use ++ [addr]))) as U3.
  { rewrite (tf_usage _ _ F3). unfold s2, s1; cbn. rewrite (so_usage _ _ _ _ _ SO), u64_add_l. f_equal.
    rewrite app_assoc, (total_app (memory s3) (lru ++ use)). f_equal.
    - symmetry. apply total_ext. intros y Hy. rewrite (F4 _ charge) by done. rewrite decide_False; [done|].
      intros ->. destruct (lo_member _ _ _ _ L addr Hy). congruence.
    - unfold total; cbn. rewrite (F4 _ charge) by done. rewrite decide_True by done. cbn. lia. }
  assert (exists s4 lru4 use4, (if (old =? null)%nat then mret tt else finish_erase old false : M unit) s3 = Some (tt, s4) /\
    shard_ok s4 lru4 use4 (<[h := l]> chains) (<[addr := 1%nat]> users) /\ keeps s3 s4) as (s4 & lru4 & use4 & R4 & SO4 & K4).
  { destruct (Nat.eqb_spec old null) as [->|No].
    - exists s3, lru, (use ++ [addr]). split_and!; [done| |done]. split; [done|done| |done|done].
      intros y. setoid_rewrite HM. pose proof (so_cached _ _ _ _ _ SO y) as Hy. rewrite app_assoc, elem_of_app, list_elem_of_singleton.
      rewrite Hy. split.
      + intros [[h' Hh']| ->]; [exists h'|exists h; tauto]. right. split; [done|].
        by eapply chain_memory; [apply (tb_chain _ _ (so_table _ _ _ _ _ SO))|].
      + intros (h' & [[-> _]|[Hh' _]]); [tauto|]. left. by exists h'.
    - assert (exists l1 l2, chains h = l1 ++ old :: l2) as (l1 & l2 & El).
      { destruct Hold as [(-> & _)|(l1 & l2 & El & _)]; [done|eauto]. }
      assert (old ∈ chains h) as Ho by (rewrite El; set_solver +).
      assert (old <> addr) as Noa by (intros ->; by eapply Hc).
      destruct (finish_replaced_spec s3 lru (use ++ [addr]) (<[h := l]> chains) (<[addr := 1%nat]> users) old)
        as (s4 & R4 & SO4 & K4); [done|done| | | |done|done|by exists s4, (without old lru), (without old (use ++ [addr]))].
      + assert (old ∈ lru ++ use) by (apply (so_cached _ _ _ _ _ SO); by exists h). rewrite app_assoc. by apply elem_of_app; left.
      + intros h' Hh. apply HM in Hh as [[? _]|[_ ?]]; done.
      + intros y. setoid_rewrite HM. pose proof (so_cached _ _ _ _ _ SO y) as Hy. rewrite app_assoc, elem_of_app, list_elem_of_singleton.
        rewrite Hy. split.
        * intros [[h' Hh']| ->]; [|right; exists h; tauto]. destruct (decide (y = old)); [by left|]. right. exists h'. tauto.
        * intros [->|(h' & [[-> _]|[Hh' _]])]; [left; by exists h|tauto|]. left. by exists h'. }
  destruct (evict_spec s4 _ _ _ _ SO4) as (s' & n & chains' & R & SO' & EC & K & Hend & _).
  exists s', (drop n lru4), use4, chains'. split_and!; [|done| | |done].
  - unfold insert. rewrite (run_bind (get _) _ s None s) by (unfold get; by rewrite N).
    rewrite !put_bind. etransitivity; [exact (run_bind _ _ s1 _ s2 R2)|].
    rewrite (run_bind _ _ s2 _ _ R3), (run_bind _ _ s3 _ _ R4). by rewrite (run_bind _ _ s4 _ _ R).
  - eapply inserted_keeps; [exact I2|]. transitivity s3; [done|]. by transitivity s4.
  - intros h' y Hy. apply EC, HM in Hy as [?|[Hy Oy]]; [by left|]. right. split; [intros ->; by eapply Hc|].
    split; [done|]. intros ->. by apply KN.
Qed.

(** ** Destruction *)
Lemma destroy_entry_spec s x e v :
  memory s !! x = Some e -> refs e = 1 -> value e = Some v ->
  exists s', destroy_entry x s = Some (tt, s') /\ memory s' = delete x (memory s) /\
    buckets_ s' = buckets_ s /\ deleted s' = deleted s ++ [v].
Proof.
  intros E Er Ev. unfold destroy_entry. rewrite update_bind by (by eexists).
  set (s1 := set_memory _ s). assert (memory s1 !! x = Some (set_in_cache false e)) as E1.
  { unfold s1; cbn. by rewrite lookup_alter_eq, E. }
  rewrite (load_bind x _ _ s1 E1). cbn [refs set_in_cache]. rewrite Er. cbn [Z.eqb Pos.eqb].
  rewrite (run_bind (assert true) _ s1 tt s1) by done. unfold unref. rewrite (load_bind x _ _ s1 E1).
  cbn [refs set_in_cache]. rewrite Er. rewrite (run_bind (assert (0 <? 1)) _ s1 tt s1) by done.
  rewrite update_bind by (by eexists).
  rewrite (load_bind x (set_refs (1 - 1) (set_in_cache false e))) by (cbn [memory set_memory]; by rewrite lookup_alter_eq, E1).
  cbn [refs set_refs in_cache set_in_cache value]. rewrite Ev. eexists. split; [done|].
  split; [|done]. cbn [memory set_memory]. unfold s1; cbn. apply map_eq. intros y. rewrite !lookup_delete.
  case_decide; [done|]. by rewrite !lookup_alter_ne.
Qed.

Lemma destroy_chain_spec fuel s p xs :
  chain (memory s) p xs -> NoDup xs -> (length xs < fuel)%nat ->
  (forall x e, x ∈ xs -> memory s !! x = Some e -> refs e = 1 /\ is_Some (value e)) ->
  exists s', destroy_chain fuel p s = Some (tt, s') /\ buckets_ s' = buckets_ s /\
    (forall y, memory s' !! y = if decide (y ∈ xs) then None else memory s !! y) /\
    deleted s' ++ live (memory s') ≡ₚ deleted s ++ live (memory s).
Proof.
  revert fuel s p. induction xs as [|x xs IH]; intros [|fuel] s p C ND Hf H; cbn [length] in Hf; [lia| |lia|]; cbn [destroy_chain].
  - rewrite C. exists s. split_and!; done.
  - destruct C as (-> & Nx & e & E & C). apply NoDup_cons in ND as [Hx ND].
    rewrite (proj2 (Nat.eqb_neq x null)) by done. rewrite (load_bind x e) by done.
    destruct (H x e ltac:(set_solver +) E) as [Er [v Ev]].
    destruct (destroy_entry_spec s x e v E Er Ev) as (s1 & R1 & M1 & B1 & D1).
    rewrite (run_bind _ _ s tt s1) by done.
    destruct (IH fuel s1 (hash_next e)) as (s' & R & B & Hm & P); [|done|lia| |].
    + eapply chain_kept; [|exact C]. intros y Hy. rewrite M1, lookup_delete_ne; [done|]. intros ->. contradiction.
    + intros y e' Hy. rewrite M1, lookup_delete. case_decide; [done|]. apply H. set_solver +Hy.
    + exists s'. split_and!; [done|congruence| |].
      * intros y. rewrite Hm, M1, lookup_delete. destruct (decide (y ∈ xs)) as [Hy|Hy]; [by rewrite decide_True by set_solver +Hy|].
        case_decide as Q; [by rewrite decide_True by set_solver +Q|by rewrite decide_False by set_solver +Hy Q].
      * rewrite P, D1, M1. rewrite (live_delete (memory s) x e v) by done. by rewrite <- app_assoc.
Qed.

Lemma destroy_spec order s chains :
  table s chains -> NoDup order -> (forall h, h ∈ order -> is_Some (buckets_ s !! h)) ->
  (forall h x e, h ∈ order -> x ∈ chains h -> memory s !! x = Some e -> refs e = 1 /\ is_Some (value e)) ->
  exists s', destroy order s = Some (tt, s') /\
    (forall y, memory s' !! y = if decide (Exists (λ h, y ∈ chains h) order) then None else memory s !! y) /\
    deleted s' ++ live (memory s') ≡ₚ deleted s ++ live (memory s).
Proof.
  intros T. pose proof (tb_nodup _ _ T) as NDC. pose proof (tb_chain _ _ T) as TC.
  assert (forall h h' y, y ∈ chains h -> y ∈ chains h' -> h = h') as Apart.
  { intros h h' y H1 H2. destruct (chain_memory _ _ _ _ (TC h) H1) as (_ & e & E).
    by rewrite <- (tb_hash _ _ T h y e), <- (tb_hash _ _ T h' y e). }
  assert (forall h, h ∈ order -> chain (memory s) (default null (buckets_ s !! h)) (chains h)) as HC by (intros; apply TC).
  clear T TC. revert s HC. induction order as [|h order IH]; intros s HC ND HB HE; cbn [destroy].
  - exists s. split_and!; [done| |done]. intros y. rewrite decide_False; [done|]. by intros ?%Exists_nil.
  - apply NoDup_cons in ND as [Hh ND]. destruct (HB h ltac:(set_solver +)) as [hd B].
    pose proof (HC h ltac:(set_solver +)) as C. rewrite B in C. cbn in C.
    rewrite (run_bind (get _) _ s (Some hd) s) by (unfold get; by rewrite B).
    rewrite (run_bind chain_fuel _ s _ s) by done.
    destruct (destroy_chain_spec (S (stdpp.base.size (memory s))) s hd (chains h) C (NDC h)) as (s1 & R1 & B1 & M1 & P1);
      [by eapply chain_fuel_enough|intros x e Hx; apply (HE h); [set_solver +|done]|].
    rewrite (run_bind _ _ s tt s1) by done.
    assert (forall h' y, h' ∈ order -> y ∈ chains h' -> memory s1 !! y = memory s !! y) as M1'.
    { intros h' y Hh' Hy. rewrite M1, decide_False; [done|]. intros Hy'. by rewrite (Apart h h' y) in Hh by done. }
    destruct (IH s1) as (s' & R & Hm & P).
    + intros h' Hh'. rewrite B1. eapply chain_kept; [|apply HC; set_solver +Hh']. intros y Hy. by rewrite (M1' h').
    + done.
    + intros h' Hh'. rewrite B1. apply HB. set_solver +Hh'.
    + intros h' x e Hh' Hx. rewrite (M1' h') by done. apply (HE h'); [set_solver +Hh'|done].
    + exists s'. split_and!; [done| |by rewrite P]. intros y. rewrite Hm, M1.
      destruct (decide (y ∈ chains h)) as [Hy|Hy].
      * rewrite (decide_True _ _ (P := Exists _ (h :: order))) by (by left). by case_decide.
      * destruct (decide (Exists (λ h, y ∈ chains h) order)) as [He|He].
        -- by rewrite decide_True by (by right).
        -- rewrite decide_False; [done|]. by intros [?|?]%Exists_cons.
Qed.

End Cache.
Arguments LRUEntry V : clear implicits.
Arguments LRUShard V : clear implicits.
Arguments ShardedLRUCache V : clear implicits.
End Cache.
