(* ===== verification/CacheClient.v ===== *)
(** The callers of the block cache: what a history of calls may do, and what the
    cache promises in return (src/include/ambar/cache.hpp).

    [Client] records what the callers know: the handles they have not released,
    each with the value it was given for, the value last inserted and not
    erased for each key, and every value handed over.  [allowed] is the
    protocol: an insertion brings an address that is free, a handle is released
    once for each time it was obtained, and the outstanding handles fit the
    32-bit counter. *)
From S2P Require Import Prelude Hash Cache.
From stdpp Require Import functions gmap.
Import Hash Cache.
Local Open Scope Z_scope.

Module CacheClient.

#[global] Instance byte_countable : Countable byte.
Proof.
  refine (inj_countable Byte.to_N Byte.of_N _). intros b. apply Byte.of_to_N.
Defined.

Section Client.
Context {V : Type}.

Inductive Call :=
  | CInsert (addr : nat) (k : bytes) (v : V) (charge : Z)
  | CLookup (k : bytes)
  | CRelease (handle : nat)
  | CErase (k : bytes).

Record Client := mkClient {
  held : list (nat * V);
  latest : gmap bytes V;
  given : list V
}.

Definition allowed (c : ShardedLRUCache V) (cl : Client) (call : Call) : Prop :=
  match call with
  | CInsert addr _ _ _ => addr <> null /\ entry_at (shards_ c) addr = None
  | CLookup _ => Z.of_nat (length (held cl)) + 2 < 2 ^ 32
  | CRelease h => h ∈ (held cl).*1
  | CErase _ => True
  end.

(** The result and the cache after a call; null where the call returns nothing. *)
Definition cache_call (c : ShardedLRUCache V) (call : Call) : option (nat * ShardedLRUCache V) :=
  match call with
  | CInsert addr k v ch => cache_insert c addr k v ch
  | CLookup k => cache_lookup c k
  | CRelease h => c ← cache_release c h; Some (null, c)
  | CErase k => c ← cache_erase c k; Some (null, c)
  end.

Fixpoint release_one (h : nat) (l : list (nat * V)) : list (nat * V) :=
  match l with
  | [] => []
  | (x, v) :: l' => if decide (x = h) then l' else (x, v) :: release_one h l'
  end.

(** What the callers know after a call returned [r]. *)
Definition after (cl : Client) (call : Call) (r : nat) : Client :=
  match call with
  | CInsert addr k v _ => mkClient ((addr, v) :: held cl) (<[k := v]> (latest cl)) (v :: given cl)
  | CLookup k =>
      match latest cl !! k with
      | Some v => if decide (r = null) then cl else mkClient ((r, v) :: held cl) (latest cl) (given cl)
      | None => cl
      end
  | CRelease h => mkClient (release_one h (held cl)) (latest cl) (given cl)
  | CErase k => mkClient (held cl) (delete k (latest cl)) (given cl)
  end.

Inductive reachable (capacity : Z) : ShardedLRUCache V -> Client -> Prop :=
  | reachable_new : reachable capacity (new_lru_cache capacity) (mkClient [] ∅ [])
  | reachable_call c cl call r c' :
      reachable capacity c cl -> allowed c cl call -> cache_call c call = Some (r, c') ->
      reachable capacity c' (after cl call r).

(** ** The invariant of the whole cache *)
Definition count (x : nat) (l : list nat) : nat := length (filter (λ y, y = x) l).
Definition users_of (s : LRUShard V) (l : list nat) (x : nat) : nat :=
  if decide (is_Some (memory s !! x)) then count x l else 0%nat.
Definition head_addr (x : nat) : Prop := x = lru_head \/ x = in_use_head.

(** A shard, its callers and the table: an entry found under a key holds the
    key's latest value. *)
Record shard_inv (i : nat) (s : LRUShard V) (cl : Client) : Prop := {
  sh_ok : exists lru use chains, shard_ok s lru use chains (users_of s (held cl).*1) /\
    forall h x e, x ∈ chains h -> memory s !! x = Some e -> latest cl !! key e = value e;
  sh_heads x : x ∈ (held cl).*1 -> ~ head_addr x;
  sh_sentinel x e : head_addr x -> memory s !! x = Some e -> value e = None;
  sh_hash x e : memory s !! x = Some e -> ~ head_addr x -> hash e = hash64 (key e) /\ shard_for (hash e) = i
}.
Record cache_inv (c : ShardedLRUCache V) (cl : Client) : Prop := {
  ci_length : length (shards_ c) = 16%nat;
  ci_shard i s : shards_ c !! i = Some s -> shard_inv i s cl;
  ci_disjoint i j s t x : shards_ c !! i = Some s -> shards_ c !! j = Some t -> ~ head_addr x ->
    is_Some (memory s !! x) -> is_Some (memory t !! x) -> i = j;
  ci_held h v : (h, v) ∈ held cl -> ~ head_addr h /\ exists i s e,
    shards_ c !! i = Some s /\ memory s !! h = Some e /\ value e = Some v;
  ci_values : concat (deleted <$> shards_ c) ++ concat (live ∘ memory <$> shards_ c) ≡ₚ given cl
}.

Lemma count_cons x y l : count x (y :: l) = ((if decide (y = x) then 1 else 0) + count x l)%nat.
Proof. unfold count. rewrite filter_cons. by case_decide. Qed.
Lemma count_pos x l : (0 < count x l)%nat <-> x ∈ l.
Proof.
  induction l as [|y l IH]; [split; [cbn; lia|by intros ?%not_elem_of_nil]|]. rewrite count_cons, elem_of_cons.
  case_decide; [subst; split; [tauto|lia]|]. rewrite <- IH. split; [auto with lia|]. intros [->|?]; [done|lia].
Qed.
Lemma count_length x l : (count x l <= length l)%nat.
Proof. unfold count. apply length_filter. Qed.
Lemma count_release x h l :
  count x (release_one h l).*1 = (if decide (x = h) then pred (count x l.*1) else count x l.*1).
Proof.
  induction l as [|[y v] l IH]; cbn [release_one]; [by case_decide|].
  rewrite fmap_cons. cbn [fst]. rewrite count_cons. destruct (decide (y = h)) as [->|N].
  - destruct (decide (x = h)) as [->|]; [by rewrite decide_True|by rewrite decide_False].
  - rewrite fmap_cons. cbn [fst]. rewrite count_cons, IH.
    destruct (decide (x = h)) as [->|]; [by rewrite decide_False|done].
Qed.
Lemma release_sub h l e : e ∈ release_one h l -> e ∈ l.
Proof.
  induction l as [|[y v] l IH]; [done|]. cbn. case_decide; [set_solver|].
  rewrite !elem_of_cons. tauto.
Qed.

(** The entry a handle points to is the one in its shard. *)
Lemma entry_at_lookup shards x i s e :
  (forall i j s t, shards !! i = Some s -> shards !! j = Some t -> is_Some (memory s !! x) ->
     is_Some (memory t !! x) -> i = j) ->
  shards !! i = Some s -> memory s !! x = Some e -> entry_at (V := V) shards x = Some e.
Proof.
  revert i. induction shards as [|t shards IH]; intros i D Hi E; [done|]. cbn [entry_at].
  destruct (memory t !! x) as [e'|] eqn:Et.
  - assert (i = 0%nat) as ->.
    { apply (D i 0%nat s t); [done|done|by eexists|by eexists]. }
    cbn in Hi. congruence.
  - destruct i as [|i]; [cbn in Hi; congruence|]. apply (IH i); [|done|done].
    intros i' j' s' t' Hi' Hj' Ps Pt. assert (S i' = S j') by (by apply (D _ _ s' t')). lia.
Qed.
Lemma entry_at_None shards x i s : entry_at (V := V) shards x = None -> shards !! i = Some s -> memory s !! x = None.
Proof.
  revert i. induction shards as [|t shards IH]; intros i; [done|]. cbn [entry_at].
  destruct (memory t !! x) eqn:E; [done|]. destruct i; [by intros _ [= <-]|by apply IH].
Qed.

Lemma hash64_range k : 0 <= hash64 k < 2 ^ 64.
Proof. unfold hash64. destruct (hash_words _ _ _). apply fmix64_ok, u64_ok. Qed.
Lemma shard_for_lt k : (shard_for (hash64 k) < 16)%nat.
Proof.
  pose proof (hash64_range k) as H. unfold shard_for, kShardBits. rewrite Z.shiftr_div_pow2 by lia.
  change (2 ^ (64 - 4)) with (2 ^ 60).
  assert (hash64 k / 2 ^ 60 < 16) by (apply Z.div_lt_upper_bound; lia).
  assert (0 <= hash64 k / 2 ^ 60) by (apply Z.div_pos; lia). lia.
Qed.

Lemma lists_agree m lru use users users' :
  lists_ok (V := V) m lru use users -> (forall x, is_Some (m !! x) -> ~ head_addr x -> users' x = users x) ->
  (forall x, m !! x = None \/ head_addr x -> users' x = 0%nat) -> lists_ok m lru use users'.
Proof.
  intros L A B. eapply lists_users; [exact L|]. intros x.
  assert (~ (0 < users x)%nat \/ is_Some (m !! x) /\ ~ head_addr x) as [Z|[S N]].
  { destruct (decide (users x = 0%nat)) as [E|E]; [left; lia|right].
    destruct (lo_users _ _ _ _ L x ltac:(lia)) as (? & ? & ?). split; [done|]. intros [?|?]; done. }
  - destruct (m !! x) as [e|] eqn:E; [|rewrite (B x); [lia|by left]].
    destruct (decide (x = lru_head)); [rewrite (B x); [lia|right; by left]|].
    destruct (decide (x = in_use_head)); [rewrite (B x); [lia|right; by right]|].
    apply A; [by eexists|]. intros [?|?]; done.
  - by apply A.
Qed.
Lemma users_agree s lru use chains users hs :
  shard_ok s lru use chains users -> (forall x, x ∈ hs -> ~ head_addr x) ->
  (forall x, is_Some (memory s !! x) -> ~ head_addr x -> users x = count x hs) ->
  shard_ok s lru use chains (users_of s hs).
Proof.
  intros [L T C K U] Hh A. split; [|done..]. eapply lists_agree; [exact L| |].
  - intros x S N. unfold users_of. rewrite decide_True by done. by rewrite A.
  - intros x [E|H]; unfold users_of.
    + by rewrite decide_False by (rewrite E; by intros []).
    + case_decide; [|done]. destruct (count x hs) eqn:Q; [done|].
      destruct (Hh x); [|done]. apply count_pos. lia.
Qed.

(** Another shard's call. *)
Lemma shard_other j t cl cl' :
  shard_inv j t cl ->
  (forall x, is_Some (memory t !! x) -> ~ head_addr x -> count x (held cl').*1 = count x (held cl).*1) ->
  (forall x, x ∈ (held cl').*1 -> ~ head_addr x) ->
  (forall x e, memory t !! x = Some e -> ~ head_addr x -> latest cl' !! key e = latest cl !! key e) ->
  shard_inv j t cl'.
Proof.
  intros [(lru & use & chains & SO & HL) HH HS HA] A B C. split; [|done..].
  exists lru, use, chains. split.
  - eapply users_agree; [exact SO|done|]. intros x S N. unfold users_of. rewrite decide_True by done. by rewrite A.
  - intros h x e Hx E. rewrite (C x e E); [by eapply HL|].
    assert (x ∈ lru ++ use) as Hl by (apply (so_cached _ _ _ _ _ SO); by exists h).
    destruct (heads_distinct _ _ _ _ _ (so_lists _ _ _ _ _ SO) Hl). intros [?|?]; done.
Qed.

Lemma concat_insert {A} (ls : list (list A)) i l l' :
  ls !! i = Some l -> exists rest, concat ls ≡ₚ l ++ rest /\ concat (<[i := l']> ls) ≡ₚ l' ++ rest.
Proof.
  revert i. induction ls as [|a ls IH]; intros [|i] H; [done..| |]; cbn in H |- *.
  - injection H as ->. by exists (concat ls).
  - destruct (IH i H) as (rest & E1 & E2). exists (a ++ rest). rewrite E1, E2. split; by rewrite Permutation_app_swap_app.
Qed.

Section Step.
Context (c : ShardedLRUCache V) (cl cl' : Client) (i : nat) (s s' : LRUShard V) (n : Z).
Context (CI : cache_inv c cl) (Hi : shards_ c !! i = Some s).
Context lru' use' chains' users' (SO : shard_ok s' lru' use' chains' users').
Context (Hentry : forall x e', memory s' !! x = Some e' -> ~ head_addr x ->
  (exists e, memory s !! x = Some e /\ value e' = value e /\ key e' = key e /\ hash e' = hash e) \/
  (entry_at (shards_ c) x = None /\ hash e' = hash64 (key e') /\ shard_for (hash e') = i)).
Context (Hsentinel : forall x e', memory s' !! x = Some e' -> head_addr x ->
  exists e, memory s !! x = Some e /\ value e' = value e).
Context (Husers : forall x, ~ head_addr x -> is_Some (memory s !! x) \/ entry_at (shards_ c) x = None ->
  users' x = count x (held cl').*1).
Context (Hothers : forall x, ~ head_addr x -> memory s !! x = None -> is_Some (entry_at (shards_ c) x) ->
  count x (held cl').*1 = count x (held cl).*1).
Context (Hlatest : forall k, shard_for (hash64 k) <> i -> latest cl' !! k = latest cl !! k).
Context (Htable : forall h x e', x ∈ chains' h -> memory s' !! x = Some e' -> latest cl' !! key e' = value e').
Context (Hheld : forall h v, (h, v) ∈ held cl' -> (h, v) ∈ held cl \/
  ~ head_addr h /\ exists e', memory s' !! h = Some e' /\ value e' = Some v).
Context (extra : list V) (Hvalues : deleted s' ++ live (memory s') ≡ₚ extra ++ deleted s ++ live (memory s)).
Context (Hgiven : given cl' = extra ++ given cl).

Lemma disjoint_at x : ~ head_addr x -> forall i j s t, shards_ c !! i = Some s -> shards_ c !! j = Some t ->
  is_Some (memory s !! x) -> is_Some (memory t !! x) -> i = j.
Proof. intros N i' j' t u Hi' Hj'. by apply (ci_disjoint _ _ CI i' j' t u x). Qed.
Lemma held_heads x : x ∈ (held cl').*1 -> ~ head_addr x.
Proof.
  intros ((h & v) & -> & Hx)%list_elem_of_fmap. cbn.
  destruct (Hheld h v Hx) as [H|[? _]]; [|done]. by apply (ci_held _ _ CI h v).
Qed.
Lemma held_here h v e : (h, v) ∈ held cl' -> memory s !! h = Some e -> ~ head_addr h -> value e = Some v ->
  exists e', memory s' !! h = Some e' /\ value e' = Some v.
Proof.
  intros Hh E N Ev. assert (is_Some (memory s' !! h)) as [e' E'].
  { apply (lo_users _ _ _ _ (so_lists _ _ _ _ _ SO)). rewrite Husers by (try done; left; by eexists).
    apply count_pos, list_elem_of_fmap. by exists (h, v). }
  exists e'. split; [done|]. destruct (Hentry h e' E' N) as [(e0 & E0 & -> & _)|(N0 & _)]; [congruence|].
  rewrite (entry_at_None _ _ i s N0 Hi) in E. done.
Qed.

Lemma cache_step : cache_inv (mkCache (<[i := s']> (shards_ c)) n) cl'.
Proof.
  assert (i < length (shards_ c))%nat as Hlen by (by eapply lookup_lt_Some).
  split; cbn [shards_].
  - rewrite length_insert. apply CI.
  - intros j t. rewrite list_lookup_insert. case_decide as Q; [destruct Q as [<- _]; intros [= <-]|intros Hj].
    + split.
      * exists lru', use', chains'. split; [|done]. eapply users_agree; [exact SO|apply held_heads|].
        intros x [e' E'] N. apply Husers; [done|]. destruct (Hentry x e' E' N) as [(e & E & _)|(? & _)]; [left; by eexists|by right].
      * apply held_heads.
      * intros x e' Hx E'. destruct (Hsentinel x e' E' Hx) as (e & E & ->).
        by apply (sh_sentinel _ _ _ (ci_shard _ _ CI i s Hi) x).
      * intros x e' E' N. destruct (Hentry x e' E' N) as [(e & E & _ & Ek & Eh)|(_ & ? & ?)]; [|done].
        rewrite Eh, Ek. by apply (sh_hash _ _ _ (ci_shard _ _ CI i s Hi) x).
    + assert (j <> i) as Nj by (intros ->; by apply Q).
      assert (forall x, is_Some (memory t !! x) -> ~ head_addr x -> memory s !! x = None) as Hn.
      { intros x St N. destruct (memory s !! x) eqn:E; [|done]. destruct Nj. apply (ci_disjoint _ _ CI j i t s x); try done; by eexists. }
      eapply shard_other; [by apply (ci_shard _ _ CI)| |apply held_heads|].
      * intros x St N. apply Hothers; [done|by apply Hn|]. destruct St as [e E]. exists e.
        by apply (entry_at_lookup _ x j t e (disjoint_at x N)).
      * intros x e E N. apply Hlatest. destruct (sh_hash _ _ _ (ci_shard _ _ CI j t Hj) x e E N) as [<- ?]. congruence.
  - intros a b t u x. rewrite !list_lookup_insert. intros Ha Hb N St Su.
    assert (forall j w, j <> i -> shards_ c !! j = Some w -> is_Some (memory w !! x) -> is_Some (memory s' !! x) -> False) as Hx.
    { intros j w Nj Hj Sw [e' E']. destruct (Hentry x e' E' N) as [(e & E & _)|(N0 & _)].
      - apply Nj. apply (ci_disjoint _ _ CI j i w s x); try done; by eexists.
      - destruct Sw as [ew Ew]. by rewrite (entry_at_None _ _ j w N0 Hj) in Ew. }
    repeat case_decide; destruct_and?; simplify_eq; [done|exfalso..|by apply (ci_disjoint _ _ CI a b t u x)].
    + apply (Hx a t); [intros ->; tauto|done..].
    + apply (Hx b u); [intros ->; tauto|done..].
  - intros h v Hh. destruct (Hheld h v Hh) as [Ho|(N & e' & E' & Ev)].
    + destruct (ci_held _ _ CI h v Ho) as (N & j & t & e & Hj & E & Ev). split; [done|].
      destruct (decide (j = i)) as [->|Nj].
      * assert (t = s) as -> by congruence. destruct (held_here h v e Hh E N Ev) as (e' & E' & Ev').
        exists i, s', e'. by rewrite list_lookup_insert_eq.
      * exists j, t, e. by rewrite list_lookup_insert_ne by done.
    + split; [done|]. exists i, s', e'. by rewrite list_lookup_insert_eq.
  - rewrite Hgiven, <- (ci_values _ _ CI). rewrite !list_fmap_insert.
    destruct (concat_insert (deleted <$> shards_ c) i (deleted s) (deleted s')) as (r1 & -> & ->); [by rewrite list_lookup_fmap, Hi|].
    destruct (concat_insert (live ∘ memory <$> shards_ c) i (live (memory s)) (live (memory s'))) as (r2 & -> & ->);
      [by rewrite list_lookup_fmap, Hi|]. cbn [compose].
    rewrite (Permutation_app_comm (deleted s') r1), <- !app_assoc, (app_assoc (deleted s')), Hvalues. solve_Permutation.
Qed.
End Step.

Lemma new_shard_ok capacity users :
  (forall x, users x = 0%nat) -> shard_ok (LRUShard_new (V := V) capacity) [] [] (λ _, []) users.
Proof.
  intros U. split.
  - split; try done.
    + repeat (apply NoDup_cons; split; [set_solver +|]). apply NoDup_nil_2.
    + intros x e E N1 N2. unfold LRUShard_new in E; cbn [memory] in E. by rewrite !lookup_insert_ne in E by done.
    + set_solver +.
    + intros x. rewrite U. lia.
  - split; intros h; [done| |intros x e Hx; set_solver +Hx|constructor].
    cbn [LRUShard_new buckets_]. rewrite lookup_empty. split; [by intros []|done].
  - intros x. split; [set_solver +|]. intros [h Hx]. set_solver +Hx.
  - intros h x y Hx. set_solver +Hx.
  - done.
Qed.
Lemma new_cache_inv capacity : cache_inv (new_lru_cache capacity) (mkClient [] ∅ []).
Proof.
  assert (forall i s, shards_ (new_lru_cache (V := V) capacity) !! i = Some s ->
    exists cap, s = LRUShard_new cap) as Hs.
  { intros i s [-> _]%lookup_replicate. eauto. }
  assert (forall cap x, ~ head_addr x -> memory (LRUShard_new (V := V) cap) !! x = None) as Hm.
  { intros cap x N. unfold LRUShard_new; cbn [memory]. rewrite !lookup_insert_ne; [done|intros <-; apply N; by right|intros <-; apply N; by left]. }
  split.
  - done.
  - intros i s Hi. destruct (Hs i s Hi) as [cap ->]. split.
    + exists [], [], (λ _, []). split; [|set_solver +]. apply new_shard_ok. intros x. unfold users_of. by case_decide.
    + set_solver +.
    + intros x e Hx E. unfold LRUShard_new in E; cbn [memory] in E. rewrite !lookup_insert in E.
      repeat case_decide; simplify_eq; done.
    + intros x e E N. by rewrite Hm in E.
  - intros i j s t x Hi Hj N [e E]. destruct (Hs i s Hi) as [cap ->]. by rewrite Hm in E.
  - set_solver +.
  - cbn [shards_ new_lru_cache]. rewrite !fmap_replicate. cbn [compose].
    assert (live (memory (LRUShard_new (V := V) (u64 (capacity + kShards - 1) / kShards))) = []) as ->.
    { unfold live, LRUShard_new; cbn [memory]. rewrite !omap_insert_None by done.
      rewrite !delete_id by (by rewrite ?lookup_omap, ?lookup_delete_ne). by rewrite omap_empty, map_to_list_empty. }
    done.
Qed.

(** The call a shard ran left it within its capacity, or every entry it keeps is
    held by a caller. *)
Definition bounded (s : LRUShard V) (cl : Client) : Prop :=
  usage_ s <= capacity_ s \/
  forall x e, memory s !! x = Some e -> ~ head_addr x -> in_cache e = true -> x ∈ (held cl).*1.

(** What a call returned, and the shard it ran on. *)
Definition promised (c : ShardedLRUCache V) (cl : Client) (call : Call) (r : nat) (c' : ShardedLRUCache V) : Prop :=
  match call with
  | CInsert addr k _ _ => r = addr /\
      exists s, shards_ c' !! shard_for (hash64 k) = Some s /\ bounded s (after cl call r)
  | CLookup k => r = null \/ is_Some (latest cl !! k)
  | CRelease h => exists e s, entry_at (shards_ c) h = Some e /\
      shards_ c' !! shard_for (hash e) = Some s /\ bounded s (after cl call r)
  | CErase _ => True
  end.

Lemma bounded_shard s lru use chains users cl :
  shard_ok s lru use chains users -> (forall x, is_Some (memory s !! x) -> ~ head_addr x -> users x = count x (held cl).*1) ->
  usage_ s <= capacity_ s \/ lru = [] -> bounded s cl.
Proof.
  intros SO A [?| ->]; [by left|right]. intros x e E N Ic. apply count_pos. rewrite <- A by (done || by eexists).
  assert (x <> lru_head /\ x <> in_use_head) as [N1 N2] by (split; intros ->; apply N; [by left|by right]).
  destruct (lo_entry _ _ _ _ (so_lists _ _ _ _ _ SO) x e E N1 N2) as [_ _ _ _ Ei].
  assert (users x <> 0%nat) by (intros Q%Ei; set_solver +Q). lia.
Qed.

Lemma on_shard_run {A} (c : ShardedLRUCache V) cl h (m : M A) a s s' :
  cache_inv c cl -> shards_ c !! shard_for h = Some s -> m s = Some (a, s') ->
  on_shard c h m = Some (a, mkCache (<[shard_for h := s']> (shards_ c)) (last_id_ c)).
Proof. intros CI Hs R. unfold on_shard. rewrite Hs. cbn [mbind option_bind]. by rewrite R. Qed.
Lemma shard_exists (c : ShardedLRUCache V) cl k :
  cache_inv c cl -> exists s, shards_ c !! shard_for (hash64 k) = Some s.
Proof.
  intros CI. apply lookup_lt_is_Some_2. rewrite (ci_length _ _ CI). apply shard_for_lt.
Qed.

Section Calls.
Context (c : ShardedLRUCache V) (cl : Client) (CI : cache_inv c cl).

Lemma not_held x : entry_at (shards_ c) x = None -> count x (held cl).*1 = 0%nat.
Proof.
  intros N. destruct (count x (held cl).*1) eqn:Q; [done|exfalso].
  assert (x ∈ (held cl).*1) as ((h & v) & -> & Hh)%list_elem_of_fmap by (apply count_pos; lia). cbn [fst] in N.
  destruct (ci_held _ _ CI h v Hh) as (_ & i & s & e & Hi & E & _).
  by rewrite (entry_at_None _ _ i s N Hi) in E.
Qed.
Lemma users_here s x : is_Some (memory s !! x) -> users_of s (held cl).*1 x = count x (held cl).*1.
Proof. intros S. unfold users_of. by rewrite decide_True. Qed.
Lemma users_gone s x : memory s !! x = None -> users_of s (held cl).*1 x = 0%nat.
Proof. intros S. unfold users_of. rewrite decide_False; [done|]. rewrite S. by intros []. Qed.
(** The user counts of a shard whose handles did not change. *)
Lemma users_same i s x :
  shards_ c !! i = Some s -> is_Some (memory s !! x) \/ entry_at (shards_ c) x = None ->
  users_of s (held cl).*1 x = count x (held cl).*1.
Proof.
  intros Hi [S|N]; [by apply users_here|]. by rewrite users_gone, not_held by (done || by eapply entry_at_None).
Qed.
Lemma cached_head s lru use chains users h x :
  shard_ok s lru use chains users -> x ∈ chains h -> ~ head_addr x /\ is_Some (memory (V := V) s !! x).
Proof.
  intros SO Hx. assert (x ∈ lru ++ use) as Hl by (apply (so_cached _ _ _ _ _ SO); by exists h).
  destruct (heads_distinct _ _ _ _ _ (so_lists _ _ _ _ _ SO) Hl).
  split; [intros [?|?]; done|]. by apply (lo_member _ _ _ _ (so_lists _ _ _ _ _ SO)).
Qed.

Lemma insert_call addr k v ch :
  allowed c cl (CInsert addr k v ch) ->
  exists c', cache_call c (CInsert addr k v ch) = Some (addr, c') /\
    cache_inv c' (after cl (CInsert addr k v ch) addr) /\ promised c cl (CInsert addr k v ch) addr c'.
Proof.
  intros [Na Ne]. destruct (shard_exists c cl k CI) as [s Hs].
  destruct (sh_ok _ _ _ (ci_shard _ _ CI _ s Hs)) as (lru & use & chains & SO & HL).
  pose proof (entry_at_None _ _ _ s Ne Hs) as Nm.
  assert (~ head_addr addr) as Nh.
  { intros [-> | ->]; [destruct (head_present _ _ _ (lo_lru _ _ _ _ (so_lists _ _ _ _ _ SO)))|
      destruct (head_present _ _ _ (lo_use _ _ _ _ (so_lists _ _ _ _ _ SO)))]; congruence. }
  destruct (insert_spec s _ _ _ _ addr k (hash64 k) v ch SO Nm Na) as (s' & lru' & use' & chains' & R & SO' & (IE & IC & IV) & CH & BD).
  exists (mkCache (<[shard_for (hash64 k) := s']> (shards_ c)) (last_id_ c)).
  assert (forall x, ~ head_addr x -> is_Some (memory s !! x) \/ entry_at (shards_ c) x = None ->
    (<[addr := 1%nat]> (users_of s (held cl).*1)) x = count x (addr :: (held cl).*1)) as HU.
  { intros x _ Hx. rewrite count_cons. destruct (decide (x = addr)) as [->|N].
    - rewrite fn_lookup_insert, decide_True by done. by rewrite not_held.
    - rewrite fn_lookup_insert_ne, decide_False by done. by eapply users_same. }
  split_and!.
  - cbn [cache_call]. unfold cache_insert. rewrite Ne. by eapply on_shard_run.
  - eapply (cache_step c cl _ _ s s' _ CI Hs _ _ _ _ SO') with (extra := [v]); cbn [after held latest given].
    + intros x e' E' N. specialize (IE x e' E'). case_decide as Q.
      * subst x. destruct IE as (_ & Ek & Eh & _). right. rewrite Eh, Ek. done.
      * destruct IE as (e & E & ? & ? & ? & _). left. by exists e.
    + intros x e' E' Hx. specialize (IE x e' E'). rewrite decide_False in IE by (by intros ->).
      destruct IE as (e & E & ? & _). by exists e.
    + exact HU.
    + intros x N Hn [e E]. rewrite fmap_cons, count_cons. cbn [fst]. rewrite decide_False; [done|]. intros ->. congruence.
    + intros k' Hk. rewrite lookup_insert_ne; [done|]. by intros ->.
    + intros h x e' Hx E'. specialize (IE x e' E'). destruct (CH h x Hx) as [[-> ->]|(N & Hc & Hk)].
      * rewrite decide_True in IE by done. destruct IE as (-> & -> & _). by rewrite lookup_insert_eq.
      * rewrite decide_False in IE by done. destruct IE as (e & E & -> & -> & Eh & _).
        rewrite lookup_insert_ne; [by eapply HL|]. intros ->.
        destruct (cached_head _ _ _ _ _ h x SO Hc) as [Nx _].
        destruct (sh_hash _ _ _ (ci_shard _ _ CI _ s Hs) x e E Nx) as [Q _].
        rewrite <- (tb_hash _ _ (so_table _ _ _ _ _ SO) h x e Hc E) in Hk. apply Hk; [done|]. by rewrite E.
    + intros h w [[= -> ->]|Hh]%elem_of_cons; [right|by left]. split; [done|].
      assert (is_Some (memory s' !! addr)) as [e' E'].
      { apply (lo_users _ _ _ _ (so_lists _ _ _ _ _ SO')). rewrite fn_lookup_insert. lia. }
      exists e'. split; [done|]. specialize (IE addr e' E'). rewrite decide_True in IE by done. tauto.
    + exact IV.
    + done.
  - split; [done|]. exists s'. cbn [shards_]. rewrite list_lookup_insert_eq by (by eapply lookup_lt_Some). split; [done|].
    eapply bounded_shard; [exact SO'| |exact BD]. intros x [e' E'] N. cbn [after held]. rewrite fmap_cons. cbn [fst].
    apply HU; [done|]. specialize (IE x e' E'). case_decide; [subst; by right|]. destruct IE as (e & E & _). left. by eexists.
Qed.

Lemma lookup_call k :
  allowed c cl (CLookup k) ->
  exists r c', cache_call c (CLookup k) = Some (r, c') /\
    cache_inv c' (after cl (CLookup k) r) /\ promised c cl (CLookup k) r c'.
Proof.
  intros Ha. cbn [allowed] in Ha. destruct (shard_exists c cl k CI) as [s Hs].
  destruct (sh_ok _ _ _ (ci_shard _ _ CI _ s Hs)) as (lru & use & chains & SO & HL).
  destruct (lookup_spec s lru use chains _ k (hash64 k) SO) as (q & s' & R & Hq).
  { intros x. unfold users_of. pose proof (count_length x (held cl).*1) as Hc. rewrite length_fmap in Hc. case_decide; lia. }
  exists q, (mkCache (<[shard_for (hash64 k) := s']> (shards_ c)) (last_id_ c)).
  split; [cbn [cache_call]; unfold cache_lookup; by eapply on_shard_run|].
  destruct Hq as [(-> & -> & _)|(Hq & Kq & KP & SO')].
  { split; [|by left]. assert (after cl (CLookup k) null = cl) as -> by (cbn; by destruct (latest cl !! k)).
    rewrite list_insert_id by done. by destruct c. }
  destruct (cached_head _ _ _ _ _ _ _ SO Hq) as [Nh [e E]].
  rewrite E in Kq. injection Kq as Kq.
  assert (latest cl !! k = value e) as Hv by (rewrite <- Kq; by eapply HL).
  destruct (lo_entry _ _ _ _ (so_lists _ _ _ _ _ SO) q e E) as [Nq [v Ev] _ _ _];
    [intros ->; apply Nh; by left|intros ->; apply Nh; by right|].
  rewrite Ev in Hv. cbn [after promised]. rewrite Hv. rewrite decide_False by done.
  split; [|right; by eexists].
  eapply (cache_step c cl _ _ s s' _ CI Hs _ _ _ _ SO') with (extra := []); cbn [held latest given].
  - intros x e' E' N. left. destruct (kp_entry _ _ KP x e' E') as (e1 & E1 & ? & ? & ? & _). by exists e1.
  - intros x e' E' _. destruct (kp_entry _ _ KP x e' E') as (e1 & E1 & ? & _). by exists e1.
  - intros x N Hx. rewrite fmap_cons, count_cons. cbn [fst]. destruct (decide (x = q)) as [->|Nx].
    + rewrite fn_lookup_insert, decide_True by done. by rewrite users_here by (by eexists).
    + rewrite fn_lookup_insert_ne, decide_False by done. by eapply users_same.
  - intros x N Hn _. rewrite fmap_cons, count_cons. cbn [fst]. rewrite decide_False; [done|]. intros ->. congruence.
  - done.
  - intros h x e' Hx E'. destruct (kp_entry _ _ KP x e' E') as (e1 & E1 & -> & -> & _). by eapply HL.
  - intros h w [[= -> ->]|Hh]%elem_of_cons; [right|by left]. split; [done|].
    assert (is_Some (memory s' !! q)) as [e' E'].
    { apply (lo_users _ _ _ _ (so_lists _ _ _ _ _ SO')). rewrite fn_lookup_insert. lia. }
    exists e'. split; [done|]. destruct (kp_entry _ _ KP q e' E') as (e1 & E1 & -> & _). congruence.
  - apply KP.
  - done.
Qed.

Lemma release_call h :
  allowed c cl (CRelease h) ->
  exists c', cache_call c (CRelease h) = Some (null, c') /\
    cache_inv c' (after cl (CRelease h) null) /\ promised c cl (CRelease h) null c'.
Proof.
  cbn [allowed]. intros ((h' & v) & -> & Hh)%list_elem_of_fmap. cbn [fst]. rename h' into h.
  destruct (ci_held _ _ CI h v Hh) as (Nh & i & s & e & Hs & E & Ev).
  assert (entry_at (shards_ c) h = Some e) as Ee by (by eapply entry_at_lookup; [apply (disjoint_at c cl CI)|..]).
  destruct (sh_hash _ _ _ (ci_shard _ _ CI _ s Hs) h e E Nh) as [_ Ei]. subst i.
  destruct (sh_ok _ _ _ (ci_shard _ _ CI _ s Hs)) as (lru & use & chains & SO & HL).
  assert (0 < users_of s (held cl).*1 h)%nat as Hu.
  { rewrite users_here by (by eexists). apply count_pos, list_elem_of_fmap. by exists (h, v). }
  destruct (release_spec s _ _ _ _ h SO Hu) as (s' & lru' & use' & chains' & R & SO' & KP & CH & BD).
  assert (forall x, ~ head_addr x -> is_Some (memory s !! x) \/ entry_at (shards_ c) x = None ->
    (<[h := pred (users_of s (held cl).*1 h)]> (users_of s (held cl).*1)) x = count x (release_one h (held cl)).*1) as HU.
  { intros x _ Hx. rewrite count_release. destruct (decide (x = h)) as [->|N].
    - rewrite fn_lookup_insert. by rewrite users_here by (by eexists).
    - rewrite fn_lookup_insert_ne by done. by eapply users_same. }
  eexists. split_and!.
  - cbn [cache_call]. unfold cache_release. rewrite Ee. cbn [mbind option_bind]. erewrite on_shard_run; done.
  - cbn [after snd]. eapply (cache_step c cl _ _ s s' _ CI Hs _ _ _ _ SO') with (extra := []); cbn [held latest given].
    + intros x e' E' N. left. destruct (kp_entry _ _ KP x e' E') as (e1 & E1 & ? & ? & ? & _). by exists e1.
    + intros x e' E' _. destruct (kp_entry _ _ KP x e' E') as (e1 & E1 & ? & _). by exists e1.
    + exact HU.
    + intros x N Hn _. rewrite count_release, decide_False; [done|]. intros ->. congruence.
    + done.
    + intros h' x e' Hx E'. destruct (kp_entry _ _ KP x e' E') as (e1 & E1 & -> & -> & _). eapply HL; [by apply CH|done].
    + intros h' w Hw. left. by eapply release_sub.
    + apply KP.
    + done.
  - exists e, s'. split; [done|]. cbn [shards_ snd]. rewrite list_lookup_insert_eq by (by eapply lookup_lt_Some). split; [done|].
    eapply bounded_shard; [exact SO'| |exact BD]. intros x [e' E'] N. cbn [after held].
    apply HU; [done|]. destruct (kp_entry _ _ KP x e' E') as (e1 & E1 & _). left. by eexists.
Qed.

Lemma erase_call k :
  exists c', cache_call c (CErase k) = Some (null, c') /\
    cache_inv c' (after cl (CErase k) null) /\ promised c cl (CErase k) null c'.
Proof.
  destruct (shard_exists c cl k CI) as [s Hs].
  destruct (sh_ok _ _ _ (ci_shard _ _ CI _ s Hs)) as (lru & use & chains & SO & HL).
  destruct (erase_spec s _ _ _ _ k (hash64 k) SO) as (s' & lru' & use' & chains' & R & SO' & KP & CH & CK).
  eexists. split_and!.
  - cbn [cache_call]. unfold cache_erase. erewrite on_shard_run; done.
  - cbn [after snd]. eapply (cache_step c cl _ _ s s' _ CI Hs _ _ _ _ SO') with (extra := []); cbn [held latest given].
    + intros x e' E' N. left. destruct (kp_entry _ _ KP x e' E') as (e1 & E1 & ? & ? & ? & _). by exists e1.
    + intros x e' E' _. destruct (kp_entry _ _ KP x e' E') as (e1 & E1 & ? & _). by exists e1.
    + intros x N Hx. by eapply users_same.
    + done.
    + intros k' Hk. rewrite lookup_delete_ne; [done|]. by intros ->.
    + intros h x e' Hx E'. destruct (kp_entry _ _ KP x e' E') as (e1 & E1 & -> & -> & _).
      rewrite lookup_delete_ne; [eapply HL; [by apply CH|done]|]. intros ->.
      destruct (cached_head _ _ _ _ _ h x SO (CH _ _ Hx)) as [Nx _].
      destruct (sh_hash _ _ _ (ci_shard _ _ CI _ s Hs) x e1 E1 Nx) as [Q _].
      rewrite (tb_hash _ _ (so_table _ _ _ _ _ SO) h x e1 (CH _ _ Hx) E1) in Q. subst h.
      apply (CK x Hx). by rewrite E1.
    + intros h' w Hw. by left.
    + apply KP.
    + done.
  - done.
Qed.

Lemma call_inv call :
  allowed c cl call ->
  exists r c', cache_call c call = Some (r, c') /\ cache_inv c' (after cl call r) /\ promised c cl call r c'.
Proof.
  destruct call as [addr k v ch|k|h|k]; intros A.
  - destruct (insert_call addr k v ch A) as (c' & ?). by exists addr, c'.
  - by apply lookup_call.
  - destruct (release_call h A) as (c' & ?). by exists null, c'.
  - destruct (erase_call k) as (c' & ?). by exists null, c'.
Qed.
End Calls.

Lemma reachable_inv capacity c cl : reachable capacity c cl -> cache_inv c cl.
Proof.
  induction 1 as [|c cl call r c' _ IH A R]; [apply new_cache_inv|].
  destruct (call_inv c cl IH call A) as (r' & c'' & R' & I & _). rewrite R in R'. by simplify_eq.
Qed.

(** ** Destruction: with no handle outstanding every value left goes to its
    deleter. *)
Lemma destroy_shard_inv i s cl order :
  shard_inv i s cl -> held cl = [] -> order ≡ₚ (map_to_list (buckets_ s)).*1 ->
  exists s', destroy order s = Some (tt, s') /\ live (memory s') = [] /\
    deleted s' ≡ₚ deleted s ++ live (memory s).
Proof.
  intros [(lru & use & chains & SO & _) _ HS _] Hh Ho. rewrite Hh in SO.
  pose proof (so_lists _ _ _ _ _ SO) as L. pose proof (so_table _ _ _ _ _ SO) as T.
  assert (forall h, h ∈ order <-> is_Some (buckets_ s !! h)) as Hord.
  { intros h. rewrite Ho, list_elem_of_fmap. split.
    - intros ((h' & p) & -> & Hp%elem_of_map_to_list). by eexists.
    - intros [p Hp]. exists (h, p). split; [done|]. by apply elem_of_map_to_list. }
  assert (forall x e, memory s !! x = Some e -> ~ head_addr x ->
    refs e = 1 /\ is_Some (value e) /\ exists h, h ∈ order /\ x ∈ chains h) as HE.
  { intros x e E N. destruct (lo_entry _ _ _ _ L x e E) as [_ Hv Hc Hr Hi];
      [intros ->; apply N; by left|intros ->; apply N; by right|].
    assert (users_of s [] x = 0%nat) as U by (unfold users_of; by case_decide). cbn [fmap list_fmap] in *. rewrite U in *.
    assert (x ∈ lru ++ use) as Hx by (apply elem_of_app; left; by apply Hi).
    rewrite (proj2 Hc Hx) in Hr. split_and!; [lia|done|].
    destruct (proj1 (so_cached _ _ _ _ _ SO x) Hx) as [h Hxh]. exists h. split; [|done].
    apply Hord, (tb_bucket _ _ T). intros Q. rewrite Q in Hxh. set_solver +Hxh. }
  destruct (destroy_spec order s chains T) as (s' & R & Hm & P).
  - rewrite Ho. apply NoDup_fst_map_to_list.
  - intros h Hx. by apply Hord.
  - intros h x e _ Hx E. destruct (cached_head _ _ _ _ _ h x SO Hx) as [N _]. destruct (HE x e E N) as (? & ? & _). done.
  - exists s'. assert (live (memory s') = []) as EL.
    { unfold live. assert (omap value (memory s') = ∅) as ->; [|by rewrite map_to_list_empty].
      apply map_eq. intros y. rewrite lookup_omap, lookup_empty, Hm. case_decide as Q; [done|].
      destruct (memory s !! y) as [e|] eqn:E; [|done]. cbn.
      destruct (decide (y = lru_head)) as [->|N1]; [by apply (HS lru_head); [left|]|].
      destruct (decide (y = in_use_head)) as [->|N2]; [by apply (HS in_use_head); [right|]|].
      destruct (HE y e E) as (_ & _ & h & Hh1 & Hh2); [by intros [?|?]|].
      destruct Q. apply Exists_exists. by exists h. }
    rewrite EL, app_nil_r in P. done.
Qed.

Lemma destroy_shards_inv shards orders cl i :
  (forall j s, shards !! j = Some s -> shard_inv (i + j) s cl) -> held cl = [] ->
  Forall2 (λ order (s : LRUShard V), order ≡ₚ (map_to_list (buckets_ s)).*1) orders shards ->
  exists shards', destroy_shards orders shards = Some shards' /\
    concat (deleted <$> shards') ≡ₚ concat (deleted <$> shards) ++ concat (live ∘ memory <$> shards).
Proof.
  intros Hi Hh F. revert i Hi. induction F as [|order s orders shards Ho F IH]; intros i Hi; [by exists []|].
  destruct (destroy_shard_inv _ s cl order (Hi 0%nat s eq_refl) Hh Ho) as (s' & R & _ & D).
  destruct (IH (S i)) as (shards' & R' & D'); [intros j t Hj; rewrite Nat.add_succ_comm; by apply Hi|].
  exists (s' :: shards'). cbn [destroy_shards]. rewrite R. cbn [mbind option_bind]. rewrite R'. split; [done|].
  cbn [fmap list_fmap concat compose]. fold (@fmap list _ _ _ (@deleted V) shards'). rewrite D.
  change (list_fmap _ _ (live ∘ memory) shards) with (live ∘ memory <$> shards) in *.
  unfold fmap in D'. rewrite D'. solve_Permutation.
Qed.

End Client.
(** C18. Whatever calls the readers have made, every further call they may make
    returns: no null or freed entry is touched and no assertion fails.  A handle
    shows the value it was given for as long as it is held, whatever is
    inserted, erased or evicted meanwhile, and a lookup finds the value last
    inserted under the key and not erased since, or nothing. *)
Theorem block_cache_never_frees_a_held_value {V} capacity (c : ShardedLRUCache V) cl call :
  reachable capacity c cl -> allowed c cl call ->
  exists r c', cache_call c call = Some (r, c') /\
    (forall h v, (h, v) ∈ held (after cl call r) -> cache_value c' h = Some v) /\
    (forall k, call = CLookup k -> r = null \/ is_Some (latest cl !! k) /\ cache_value c' r = latest cl !! k).
Proof.
  intros R A. pose proof (reachable_inv _ _ _ R) as CI.
  destruct (call_inv c cl CI call A) as (r & c' & E & CI' & P).
  assert (forall h v, (h, v) ∈ held (after cl call r) -> cache_value c' h = Some v) as HV.
  { intros h v Hh. destruct (ci_held _ _ CI' h v Hh) as (N & i & s & e & Hi & Em & Ev). unfold cache_value.
    rewrite (entry_at_lookup _ h i s e (disjoint_at c' _ CI' h N) Hi Em). done. }
  exists r, c'. split_and!; [done|done|]. intros k ->. destruct P as [->|[v Hv]]; [by left|].
  destruct (decide (r = null)) as [->|N]; [by left|right]. split; [by eexists|].
  rewrite Hv. apply HV. cbn [after]. rewrite Hv, decide_False by done. set_solver +.
Qed.

Lemma block_cache_never_frees_a_held_value_witness :
  exists r c', cache_call (new_lru_cache 64) (CInsert 7 [x61] 42 100) = Some (r, c') /\
    forall h v, (h, v) ∈ held (after (mkClient [] ∅ []) (CInsert 7 [x61] 42 100) r) -> cache_value c' h = Some v.
Proof.
  destruct (block_cache_never_frees_a_held_value 64 (new_lru_cache 64) (mkClient [] ∅ []) (CInsert 7 [x61] 42 100))
    as (r & c' & E & H & _); [apply reachable_new|split; [done|reflexivity]|].
  exists r, c'. split; [exact E|exact H].
Defined.



End CacheClient.
