(* ===== verification/Compress.v ===== *)
(** Block compression (src/src/compress.hpp, src/src/compress.cpp): an LZ77
    coder and its bounded decoder.

    Counts and positions are [nat]: they are bounded by the sizes of objects
    in memory, so the [size_t] arithmetic on them does not wrap.  A pointer
    into the input is the bytes from it on; the output of the decoder is a
    buffer written in place, and a read or a write outside its object is
    [None], as is a copy between overlapping ranges. *)
From S2P Require Import Prelude Status Encoding.
Import Status Encoding.

Module Compress.

Definition kMinMatch : nat := 4.
Definition kMaxOffset : nat := Z.to_nat 65535.
Definition kMinHashBits : Z := 8.
Definition kMaxHashBits : Z := 14.
Definition kWildCopyStep : nat := 8.

Definition byte_nat (b : byte) : nat := Z.to_nat (byte_to_Z b).
Definition nat_byte (n : nat) : byte := Z_to_byte (Z.of_nat n).

(** * The encoder *)

(** [while (bits < kMaxHashBits && (1 << bits) < n) ++bits]; six rounds at
    most. *)
Fixpoint hash_bits_loop (fuel : nat) (bits : Z) (n : nat) : Z :=
  match fuel with
  | O => bits
  | S fuel' =>
      if (bits <? kMaxHashBits) && ((1 .<< bits) <? Z.of_nat n)
      then hash_bits_loop fuel' (bits + 1) n else bits
  end.
Definition hash_bits_for (n : nat) : Z := hash_bits_loop 6 kMinHashBits n.

Definition hash4 (p : bytes) (bits : Z) : option nat :=
  word ← decode_fixed32 p;
  Some (Z.to_nat (u32 (word * 2654435761) .>> (32 - bits))).

(** One byte of 255 per round, [S (length / 255)] rounds in all. *)
Fixpoint put_length_loop (fuel length : nat) : bytes :=
  match fuel with
  | O => []
  | S fuel' => if (255 <=? length)%nat then xff :: put_length_loop fuel' (length - 255) else [nat_byte length]
  end.
Definition put_length (length : nat) : bytes := put_length_loop (S (length / 255)) length.

Definition nibble_of (length : nat) : Z := if (15 <=? length)%nat then 15 else Z.of_nat length.

Definition emit_sequence (literals : bytes) (match_length offset : nat) : bytes :=
  let literal_count := length literals in
  let match_code := if (match_length =? 0)%nat then 0%nat else (match_length - kMinMatch)%nat in
  let token := u8 ((nibble_of literal_count .<< 4) .|
                   (if (match_length =? 0)%nat then 0 else nibble_of match_code)) in
  [Z_to_byte token] ++
  (if (15 <=? literal_count)%nat then put_length (literal_count - 15) else []) ++
  literals ++
  (if (match_length =? 0)%nat then []
   else [Z_to_byte (Z.of_nat offset .& 255); Z_to_byte ((Z.of_nat offset .>> 8) .& 255)] ++
        (if (15 <=? match_code)%nat then put_length (match_code - 15) else [])).

Definition max_compressed_size (n : nat) : nat := (5 + 1 + n / 255 + 1 + n)%nat.

(** [n] bytes at [i] of an object; [None] past its end. *)
Definition read_at (object : bytes) (i n : nat) : option bytes :=
  if (i + n <=? length object)%nat then Some (take n (drop i object)) else None.
(** [std::memcmp(base + a, base + b, n) == 0]. *)
Definition memcmp_equal (base : bytes) (a b n : nat) : option bool :=
  x ← read_at base a n;
  y ← read_at base b n;
  Some (bool_decide (x = y)).

(** Extending a match, eight bytes and then one at a time. *)
Fixpoint extend8 (fuel : nat) (base : bytes) (match_pos pos length : nat) : option nat :=
  match fuel with
  | O => None
  | S fuel' =>
      if (pos + length + 8 <=? Datatypes.length base)%nat then
        same ← memcmp_equal base (match_pos + length) (pos + length) 8;
        if (same : bool) then extend8 fuel' base match_pos pos (length + 8) else Some length
      else Some length
  end.
Fixpoint extend1 (fuel : nat) (base : bytes) (match_pos pos length : nat) : option nat :=
  match fuel with
  | O => None
  | S fuel' =>
      if (pos + length <? Datatypes.length base)%nat then
        same ← memcmp_equal base (match_pos + length) (pos + length) 1;
        if (same : bool) then extend1 fuel' base match_pos pos (length + 1) else Some length
      else Some length
  end.

Definition last_hashable (n : nat) : nat := if (kMinMatch <=? n)%nat then (n - kMinMatch + 1)%nat else 0%nat.

Definition table_store (table : list Z) (h : nat) (v : Z) : option (list Z) :=
  if (h <? length table)%nat then Some (<[h := u32 v]> table) else None.

(** The loop of [compress_block]: [out] is what has been written.  Every
    round advances [pos]. *)
Fixpoint compress_loop (fuel : nat) (base : bytes) (bits : Z) (table : list Z)
    (literal_start pos : nat) (out : bytes) : option (nat * bytes) :=
  match fuel with
  | O => None
  | S fuel' =>
      if negb (pos <? last_hashable (length base))%nat then Some (literal_start, out)
      else
        h ← hash4 (drop pos base) bits;
        candidate ← table !! h;
        table ← table_store table h (Z.of_nat pos + 1);
        if candidate =? 0 then compress_loop fuel' base bits table literal_start (pos + 1) out
        else
          let match_pos := Z.to_nat (candidate - 1) in
          let offset := (pos - match_pos)%nat in
          same ← (if (kMaxOffset <? offset)%nat then Some false
                  else memcmp_equal base match_pos pos kMinMatch);
          if negb same then compress_loop fuel' base bits table literal_start (pos + 1) out
          else
            length ← extend8 (S (length base)) base match_pos pos kMinMatch;
            length ← extend1 (S (Datatypes.length base)) base match_pos pos length;
            let out := out ++ emit_sequence (take (pos - literal_start) (drop literal_start base)) length offset in
            let pos := (pos + length)%nat in
            let literal_start := pos in
            table ← (if (1 <=? pos)%nat && (pos - 1 <? last_hashable (Datatypes.length base))%nat then
                       h ← hash4 (drop (pos - 1) base) bits;
                       table_store table h (Z.of_nat pos)
                     else Some table);
            compress_loop fuel' base bits table literal_start pos out
  end.

(** What [compress_block] writes after the length. *)
Definition compress_body (input : bytes) : option bytes :=
  if (length input =? 0)%nat then Some [x00]
  else
    let bits := hash_bits_for (length input) in
    let table := replicate (Z.to_nat (1 .<< bits)) 0 in
    '(literal_start, out) ← compress_loop (S (length input)) input bits table 0 0 [];
    Some (out ++ emit_sequence (drop literal_start input) 0 0).
Definition compress_block (input output : bytes) : option bytes :=
  body ← compress_body input;
  Some (put_varint32 output (u32 (size input)) ++ body).

(** * The decoder *)
Definition compressed_length (input : bytes) : Status + (nat * bytes) :=
  match get_varint32 input with
  | None => inl (corruption "compressed block has no length")
  | Some (declared, input) =>
      if 255 * size input <? declared
      then inl (corruption "compressed block declares more than its bytes could deliver")
      else inr (Z.to_nat declared, input)
  end.

Definition write_at (out : bytes) (i : nat) (data : bytes) : option bytes :=
  if (i + length data <=? length out)%nat
  then Some (take i out ++ data ++ drop (i + length data) out) else None.
(** [std::memcpy] into the output, from another object and within it. *)
Definition memcpy_from (object out : bytes) (to from n : nat) : option bytes :=
  data ← read_at object from n; write_at out to data.
Definition memcpy_within (out : bytes) (to from n : nat) : option bytes :=
  if (from + n <=? to)%nat || (to + n <=? from)%nat then memcpy_from out out to from n else None.

(** [wild_copy], the copy of one step given. *)
Fixpoint wild_copy (fuel : nat) (memcpy : bytes -> nat -> nat -> nat -> option bytes) (out : bytes)
    (to from stop : nat) : option bytes :=
  match fuel with
  | O => None
  | S fuel' =>
      out ← memcpy out to from kWildCopyStep;
      let to := (to + kWildCopyStep)%nat in
      let from := (from + kWildCopyStep)%nat in
      if (to <? stop)%nat then wild_copy fuel' memcpy out to from stop else Some out
  end.

(** [for (i = 0; i < match_length; ++i) to[i] = from[i]]. *)
Fixpoint byte_copy (n : nat) (out : bytes) (to from : nat) : option bytes :=
  match n with
  | O => Some out
  | S n' => out ← memcpy_from out out to from 1; byte_copy n' out (to + 1) (from + 1)
  end.

Fixpoint read_extra (p : bytes) (length room : nat) : option (nat * bytes) :=
  match p with
  | [] => None
  | byte :: p' =>
      let length := (length + byte_nat byte)%nat in
      if (room <? length)%nat then None
      else if bool_decide (byte = xff) then read_extra p' length room else Some (length, p')
  end.

Definition copy_literals (p out : bytes) (produced literal_count room : nat) : option bytes :=
  if (literal_count + kWildCopyStep <=? length p)%nat && (literal_count + kWildCopyStep <=? room)%nat
  then wild_copy (S literal_count) (memcpy_from p) out produced 0 (produced + literal_count)
  else memcpy_from p out produced 0 literal_count.

Definition copy_match (out : bytes) (produced offset match_length match_room : nat) : option bytes :=
  let from := (produced - offset)%nat in
  if (kWildCopyStep <=? offset)%nat && (match_length + kWildCopyStep <=? match_room)%nat
  then wild_copy (S match_length) memcpy_within out produced from (produced + match_length)
  else if (match_length <=? offset)%nat then memcpy_within out produced from match_length
  else byte_copy match_length out produced from.

(** A match, at [p] after the literals; [continue] is the next round of the
    loop. *)
Definition decode_match (continue : bytes -> bytes -> nat -> option (Status * bytes)) (token : Z)
    (p out : bytes) (total produced : nat) : option (Status * bytes) :=
  match p with
  | [] | [_] => Some (corruption "match offset overruns the compressed input", out)
  | p0 :: p1 :: p =>
      let offset := Z.to_nat (byte_to_Z p0 .| (byte_to_Z p1 .<< 8)) in
      if (offset =? 0)%nat || (produced <? offset)%nat then
        Some (corruption "match reaches before the start of the block", out)
      else
        let match_length := (Z.to_nat (token .& 15) + kMinMatch)%nat in
        let match_room := (total - produced)%nat in
        match (if token .& 15 =? 15 then read_extra p match_length match_room
               else Some (match_length, p)) with
        | None => Some (corruption "match length overruns the block", out)
        | Some (match_length, p) =>
            if (match_room <? match_length)%nat then
              Some (corruption "match overruns the declared size", out)
            else
              out ← copy_match out produced offset match_length match_room;
              continue p out (produced + match_length)%nat
        end
  end.

(** The loop of [decompress_into]: a round consumes a token at least. *)
Fixpoint decompress_loop (fuel : nat) (p out : bytes) (total produced : nat) : option (Status * bytes) :=
  match fuel with
  | O => None
  | S fuel' =>
      match p with
      | [] => Some (corruption "compressed block ends before its last token", out)
      | byte :: p =>
          let token := byte_to_Z byte in
          let literal_count := Z.to_nat (token .>> 4) in
          let room := (total - produced)%nat in
          match (if (literal_count =? 15)%nat then read_extra p literal_count room
                 else Some (literal_count, p)) with
          | None => Some (corruption "literal length overruns the block", out)
          | Some (literal_count, p) =>
              if (room <? literal_count)%nat then
                Some (corruption "literals overrun the declared size", out)
              else if (length p <? literal_count)%nat then
                Some (corruption "literals overrun the compressed input", out)
              else
                out ← copy_literals p out produced literal_count room;
                let produced := (produced + literal_count)%nat in
                let p := drop literal_count p in
                if (length p =? 0)%nat then
                  if (produced =? total)%nat then Some (ok, out)
                  else Some (corruption "compressed block delivers less than it declares", out)
                else
                  decode_match (λ p out produced, decompress_loop fuel' p out total produced)
                    token p out total produced
          end
      end
  end.
Definition decompress_into (body out : bytes) (total : nat) : option (Status * bytes) :=
  decompress_loop (S (length body)) body out total 0.

(** [output->resize(total)] fills with zeros. *)
Definition decompress_block (input : bytes) : option (Status * bytes) :=
  match compressed_length input with
  | inl status => Some (status, [])
  | inr (total, body) => decompress_into body (replicate total x00) total
  end.

(** * The format *)

(** [n] in a nibble and the bytes that extend it. *)
Definition length_code (nibble : Z) (ext : bytes) (n : nat) : Prop :=
  (nibble = Z.of_nat n /\ (n < 15)%nat /\ ext = []) \/
  (nibble = 15 /\ exists k r, ext = replicate k xff ++ [r] /\ r <> xff /\ n = (15 + 255 * k + byte_nat r)%nat).

(** The copy a match stands for: [n] times the byte [offset] back. *)
Fixpoint overlap (x : bytes) (offset n : nat) : bytes :=
  match n with
  | O => x
  | S n' => overlap (x ++ take 1 (drop (length x - offset) x)) offset n'
  end.

(** [stream x body y]: after producing [x], the sequences of [body] complete
    it to [y]. *)
Inductive stream : bytes -> bytes -> bytes -> Prop :=
  | stream_last x t ext lits :
      length_code (byte_to_Z t .>> 4) ext (length lits) ->
      stream x (t :: ext ++ lits) (x ++ lits)
  | stream_match x t ext lits p0 p1 offset mext m body y :
      length_code (byte_to_Z t .>> 4) ext (length lits) ->
      offset = Z.to_nat (byte_to_Z p0 .| (byte_to_Z p1 .<< 8)) ->
      (0 < offset <= length x + length lits)%nat ->
      length_code (byte_to_Z t .& 15) mext m ->
      stream (overlap (x ++ lits) offset (m + kMinMatch)) body y ->
      stream x (t :: ext ++ lits ++ p0 :: p1 :: mext ++ body) y.

(** ** Lengths *)
Lemma byte_nat_xff b : byte_nat b = 255%nat <-> b = xff.
Proof.
  split; [|by intros ->]. unfold byte_nat. intros H. apply (inj byte_to_Z).
  pose proof (byte_to_Z_range b). change (byte_to_Z xff) with 255. lia.
Qed.
Lemma byte_nat_range b : (byte_nat b < 256)%nat.
Proof. unfold byte_nat. pose proof (byte_to_Z_range b). lia. Qed.
Lemma nat_byte_nat n : (n < 256)%nat -> byte_nat (nat_byte n) = n.
Proof. intros H. unfold byte_nat, nat_byte. rewrite byte_to_Z_small by lia. lia. Qed.

Lemma read_extra_sound p len room n p' :
  read_extra p len room = Some (n, p') ->
  exists k r, p = replicate k xff ++ r :: p' /\ r <> xff /\ n = (len + 255 * k + byte_nat r)%nat /\ (n <= room)%nat.
Proof.
  revert len. induction p as [|b p IH]; intros len H; cbn [read_extra] in H; [done|].
  destruct (Nat.ltb_spec room (len + byte_nat b)) as [|Hle]; [done|].
  destruct (bool_decide_reflect (b = xff)) as [->|Hb].
  - destruct (IH _ H) as (k & r & -> & Hr & -> & Hn). change (byte_nat xff) with 255%nat in *.
    exists (S k), r. split_and!; try done; lia.
  - injection H as <- <-. exists 0%nat, b. split_and!; try done. lia.
Qed.

Lemma read_extra_complete k r p' len room :
  r <> xff -> (len + 255 * k + byte_nat r <= room)%nat ->
  read_extra (replicate k xff ++ r :: p') len room = Some ((len + 255 * k + byte_nat r)%nat, p').
Proof.
  intros Hr. revert len. induction k as [|k IH]; intros len Hle; cbn [replicate app read_extra].
  - rewrite (proj2 (Nat.ltb_ge _ _)) by lia. rewrite bool_decide_false by done. do 2 f_equal. lia.
  - change (byte_nat xff) with 255%nat. rewrite (proj2 (Nat.ltb_ge _ _)) by lia.
    rewrite bool_decide_true by done. rewrite IH by lia. do 2 f_equal. lia.
Qed.

(** A length as both loops read it: from a nibble, [base] added. *)
Definition read_length (nibble : Z) (p : bytes) (base room : nat) : option (nat * bytes) :=
  if nibble =? 15 then read_extra p (15 + base) room else Some ((Z.to_nat nibble + base)%nat, p).

Lemma read_length_sound nibble p base room n p' :
  0 <= nibble < 16 -> read_length nibble p base room = Some (n, p') ->
  exists ext m, p = ext ++ p' /\ length_code nibble ext m /\ n = (m + base)%nat.
Proof.
  intros Hn. unfold read_length. destruct (Z.eqb_spec nibble 15) as [->|Hne].
  - intros (k & r & -> & Hr & -> & _)%read_extra_sound.
    exists (replicate k xff ++ [r]), (15 + 255 * k + byte_nat r)%nat. split_and!; [by rewrite <- app_assoc| |lia].
    right. eauto 6.
  - intros [= <- <-]. exists [], (Z.to_nat nibble). split_and!; [done| |done]. left. split_and!; [lia|lia|done].
Qed.

Lemma read_length_complete nibble ext p' base room m :
  length_code nibble ext m -> (m + base <= room)%nat ->
  read_length nibble (ext ++ p') base room = Some ((m + base)%nat, p').
Proof.
  unfold read_length. intros [(-> & Hm & ->)|(-> & k & r & -> & Hr & ->)] Hle.
  - rewrite (proj2 (Z.eqb_neq _ _)) by lia. by rewrite Nat2Z.id.
  - cbn [Z.eqb Pos.eqb]. rewrite <- app_assoc. cbn [app]. rewrite read_extra_complete by (done || lia).
    do 2 f_equal. lia.
Qed.

Lemma length_code_prefix nibble ext n ext' n' p p' :
  length_code nibble ext n -> length_code nibble ext' n' -> ext ++ p = ext' ++ p' -> n = n' /\ p = p'.
Proof.
  intros H H' E.
  pose proof (read_length_complete nibble ext p 0 (n + n') n H ltac:(lia)) as R.
  pose proof (read_length_complete nibble ext' p' 0 (n + n') n' H' ltac:(lia)) as R'.
  rewrite E, R' in R. injection R. intros. split; [lia|done].
Qed.

(** ** Copies: what is below the place written, and what is written *)
Lemma write_at_spec out i data :
  (i + length data <= length out)%nat ->
  exists out', write_at out i data = Some out' /\ length out' = length out /\
    take (i + length data) out' = take i out ++ data.
Proof.
  intros H. unfold write_at. rewrite (proj2 (Nat.leb_le _ _)) by done. eexists. split; [done|].
  rewrite !length_app, length_take, length_drop. split; [lia|].
  rewrite app_assoc, take_app_length'; [done|]. rewrite length_app, length_take. lia.
Qed.

Lemma memcpy_from_spec object out to from n :
  (from + n <= length object)%nat -> (to + n <= length out)%nat ->
  exists out', memcpy_from object out to from n = Some out' /\ length out' = length out /\
    take (to + n) out' = take to out ++ take n (drop from object).
Proof.
  intros H1 H2. unfold memcpy_from, read_at. rewrite (proj2 (Nat.leb_le _ _)) by done. cbn [mbind option_bind].
  assert (length (take n (drop from object)) = n) as Hl by (rewrite length_take, length_drop; lia).
  destruct (write_at_spec out to (take n (drop from object))) as (out' & E & Hlen & Ht); [lia|].
  rewrite Hl in Ht. eauto.
Qed.

Lemma take_drop_add (l : bytes) i a b :
  take a (drop i l) ++ take b (drop (i + a) l) = take (a + b) (drop i l).
Proof. rewrite <- drop_drop, <- take_take_drop. done. Qed.

Lemma take_shorter (l l' : bytes) a b : (a <= b)%nat -> take b l = l' -> take a l = take a l'.
Proof. intros H <-. rewrite take_take. by rewrite Nat.min_l. Qed.

(** Literals, eight at a time: at least [n] of them arrive. *)
Lemma wild_copy_input p n fuel out to from stop :
  (stop <= to + n)%nat -> (n < fuel)%nat -> (from + n + 8 <= length p)%nat -> (to + n + 8 <= length out)%nat ->
  exists out' k, wild_copy fuel (memcpy_from p) out to from stop = Some out' /\ (stop <= to + k)%nat /\
    length out' = length out /\ take (to + k) out' = take to out ++ take k (drop from p).
Proof.
  revert n out to from. induction fuel as [|fuel IH]; intros n out to from Hs Hf Hp Ho; [lia|].
  cbn [wild_copy]. destruct (memcpy_from_spec p out to from kWildCopyStep) as (o1 & -> & Hl1 & Ht1);
    unfold kWildCopyStep in *; [lia|lia|]. cbn [mbind option_bind].
  destruct (Nat.ltb_spec (to + 8) stop) as [Hlt|Hge].
  - destruct (IH (n - 8)%nat o1 (to + 8)%nat (from + 8)%nat) as (o2 & k & -> & Hk & Hl2 & Ht2); [lia..|].
    exists o2, (8 + k)%nat. split_and!; [done|lia|lia|].
    rewrite Nat.add_assoc, Ht2, Ht1, <- app_assoc. f_equal. apply take_drop_add.
  - exists o1, 8%nat. split_and!; try done.
Qed.

Lemma copy_literals_spec p out produced n room :
  (n <= length p)%nat -> (produced + room <= length out)%nat -> (n <= room)%nat ->
  exists out', copy_literals p out produced n room = Some out' /\ length out' = length out /\
    take (produced + n) out' = take produced out ++ take n p.
Proof.
  intros Hp Ho Hr. unfold copy_literals. destruct (_ && _) eqn:E.
  - apply andb_true_iff in E as [E1%Nat.leb_le E2%Nat.leb_le]. unfold kWildCopyStep in *.
    destruct (wild_copy_input p n (S n) out produced 0 (produced + n)) as (o & k & -> & Hk & Hl & Ht); [lia..|].
    exists o. split_and!; try done. rewrite drop_0 in Ht. apply (take_shorter _ _ (produced + n)) in Ht; [|lia].
    rewrite Ht, take_app, take_take, length_take. f_equal; [f_equal; lia|]. rewrite take_take. f_equal. lia.
  - destruct (memcpy_from_spec p out produced 0 n) as (o & -> & Hl & Ht); [lia|lia|].
    rewrite drop_0 in Ht. eauto.
Qed.

(** Matches. *)
Lemma overlap_add x offset a b : overlap x offset (a + b) = overlap (overlap x offset a) offset b.
Proof. revert x. induction a as [|a IH]; intros x; [done|]. cbn [Nat.add overlap]. apply IH. Qed.

Lemma overlap_length x offset n :
  (0 < offset <= length x)%nat -> length (overlap x offset n) = (length x + n)%nat.
Proof.
  revert x. induction n as [|n IH]; intros x Ho; cbn [overlap]; [lia|].
  assert (length (x ++ take 1 (drop (length x - offset) x)) = S (length x)) as Hl.
  { rewrite length_app, length_take, length_drop. lia. }
  rewrite IH; lia.
Qed.

Lemma overlap_prefix x offset n : take (length x) (overlap x offset n) = x.
Proof.
  revert x. induction n as [|n IH]; intros x; cbn [overlap]; [by rewrite take_ge|].
  set (x' := x ++ _). specialize (IH x'). apply (take_shorter _ _ (length x)) in IH.
  - rewrite IH. unfold x'. by rewrite take_app_length.
  - unfold x'. rewrite length_app. lia.
Qed.

(** A match that does not reach what it produces is one copy. *)
Lemma overlap_short x offset n :
  (0 < offset <= length x)%nat -> (n <= offset)%nat ->
  overlap x offset n = x ++ take n (drop (length x - offset) x).
Proof.
  intros Ho Hn. induction n as [|n IH]; [by rewrite app_nil_r|].
  replace (S n) with (n + 1)%nat by lia. rewrite overlap_add, IH by lia. cbn [overlap].
  rewrite length_app, length_take, length_drop.
  replace (length x + n `min` (length x - (length x - offset)) - offset)%nat with (length x - offset + n)%nat by lia.
  rewrite drop_app_le by lia.
  rewrite take_app_le by (rewrite length_drop; lia).
  rewrite <- app_assoc. f_equal. apply take_drop_add.
Qed.

Lemma memcpy_within_spec out to offset n x :
  take to out = x -> (to <= length out)%nat -> (0 < offset <= to)%nat -> (n <= offset)%nat -> (to + n <= length out)%nat ->
  exists out', memcpy_within out to (to - offset) n = Some out' /\ length out' = length out /\
    take (to + n) out' = overlap x offset n.
Proof.
  intros Hx Hto Ho Hn Hl. unfold memcpy_within. rewrite (proj2 (Nat.leb_le (to - offset + n) to)) by lia.
  cbn [orb]. destruct (memcpy_from_spec out out to (to - offset) n) as (o & -> & Hlo & Ht); [lia|lia|].
  exists o. split_and!; try done. rewrite Ht.
  assert (length x = to) as Hxl by (subst x; rewrite length_take; lia).
  rewrite overlap_short by lia. rewrite Hx. f_equal. rewrite Hxl, <- Hx.
  rewrite <- (take_drop to out) at 1. rewrite drop_app_le by (rewrite length_take; lia).
  apply take_app_le. rewrite length_drop, length_take. lia.
Qed.

Lemma wild_copy_within offset x n fuel out to stop :
  take to out = x -> (to <= length out)%nat -> (8 <= offset <= to)%nat ->
  (stop <= to + n)%nat -> (n < fuel)%nat -> (to + n + 8 <= length out)%nat ->
  exists out' k, wild_copy fuel memcpy_within out to (to - offset) stop = Some out' /\ (stop <= to + k)%nat /\
    length out' = length out /\ take (to + k) out' = overlap x offset k.
Proof.
  revert n out to x. induction fuel as [|fuel IH]; intros n out to x Hx Hto Hoff Hs Hf Ho; [lia|].
  cbn [wild_copy]. destruct (memcpy_within_spec out to offset kWildCopyStep x) as (o1 & -> & Hl1 & Ht1);
    unfold kWildCopyStep in *; try done; [lia..|]. cbn [mbind option_bind].
  destruct (Nat.ltb_spec (to + 8) stop) as [Hlt|Hge].
  - replace (to - offset + 8)%nat with (to + 8 - offset)%nat by lia.
    destruct (IH (n - 8)%nat o1 (to + 8)%nat _ Ht1) as (o2 & k & -> & Hk & Hl2 & Ht2); [lia..|].
    exists o2, (8 + k)%nat. split_and!; [done|lia|lia|].
    by rewrite Nat.add_assoc, Ht2, <- overlap_add.
  - exists o1, 8%nat. split_and!; try done.
Qed.

Lemma byte_copy_spec n out to offset x :
  take to out = x -> (0 < offset <= to)%nat -> (to + n <= length out)%nat ->
  exists out', byte_copy n out to (to - offset) = Some out' /\ length out' = length out /\
    take (to + n) out' = overlap x offset n.
Proof.
  revert out to x. induction n as [|n IH]; intros out to x Hx Ho Hl; cbn [byte_copy overlap].
  { exists out. split_and!; try done. by rewrite Nat.add_0_r. }
  destruct (memcpy_within_spec out to offset 1 x) as (o1 & E1 & Hl1 & Ht1); try done; [lia..|].
  unfold memcpy_within in E1. rewrite (proj2 (Nat.leb_le (to - offset + 1) to)) in E1 by lia.
  cbn [orb] in E1. rewrite E1. cbn [mbind option_bind]. cbn [overlap] in Ht1.
  replace (to - offset + 1)%nat with (to + 1 - offset)%nat by lia.
  destruct (IH o1 (to + 1)%nat _ Ht1) as (o2 & -> & Hl2 & Ht2); [lia|lia|].
  exists o2. split_and!; [done|lia|]. by rewrite <- Ht2, <- Nat.add_assoc.
Qed.

Lemma copy_match_spec out produced offset n room x :
  take produced out = x -> (0 < offset <= produced)%nat -> (n <= room)%nat -> (produced + room <= length out)%nat ->
  exists out', copy_match out produced offset n room = Some out' /\ length out' = length out /\
    take (produced + n) out' = overlap x offset n.
Proof.
  intros Hx Ho Hn Hl. unfold copy_match. destruct (_ && _) eqn:E.
  - apply andb_true_iff in E as [E1%Nat.leb_le E2%Nat.leb_le]. unfold kWildCopyStep in *.
    destruct (wild_copy_within offset x n (S n) out produced (produced + n)) as (o & k & -> & Hk & Hlo & Ht);
      try done; [lia..|].
    exists o. split_and!; try done. apply (take_shorter _ _ (produced + n)) in Ht; [|lia]. rewrite Ht.
    assert (length x = produced) as Hxl by (subst x; rewrite length_take; lia).
    replace k with (n + (k - n))%nat by lia. rewrite overlap_add.
    replace (produced + n)%nat with (length (overlap x offset n)) by (rewrite overlap_length; lia).
    apply overlap_prefix.
  - destruct (Nat.leb_spec n offset).
    + apply memcpy_within_spec; try done; lia.
    + apply byte_copy_spec; try done; lia.
Qed.

(** ** The loop *)
Lemma nibbles b : 0 <= byte_to_Z b .>> 4 < 16 /\ 0 <= byte_to_Z b .& 15 < 16.
Proof.
  pose proof (byte_to_Z_range b). rewrite Z.shiftr_div_pow2 by lia.
  change 15 with (2 ^ 4 - 1). rewrite land_ones_mod by lia. split; zmod.
Qed.

Lemma literal_length_eq nibble p room :
  0 <= nibble < 16 ->
  (if (Z.to_nat nibble =? 15)%nat then read_extra p (Z.to_nat nibble) room else Some (Z.to_nat nibble, p)) =
    read_length nibble p 0 room.
Proof.
  intros Hn. unfold read_length.
  destruct (Z.eqb_spec nibble 15) as [->|Hne]; [done|].
  rewrite (proj2 (Nat.eqb_neq _ _)) by lia. by rewrite Nat.add_0_r.
Qed.
Lemma match_length_eq nibble p room :
  (if nibble =? 15 then read_extra p (Z.to_nat nibble + kMinMatch) room
   else Some ((Z.to_nat nibble + kMinMatch)%nat, p)) = read_length nibble p kMinMatch room.
Proof. unfold read_length. by destruct (Z.eqb_spec nibble 15) as [->|]. Qed.

Lemma length_code_len_ext nibble ext n : length_code nibble ext n -> 0 <= nibble < 16.
Proof. intros [(-> & ? & _)|(-> & _)]; lia. Qed.

(** Every stream starts with literals, which its output has room for. *)
Lemma stream_grows x p y : stream x p y -> (length x <= length y)%nat.
Proof.
  induction 1 as [|x t ext lits p0 p1 offset mext m body y _ _ Ho _ _ IH]; rewrite ?length_app in *; [lia|].
  rewrite overlap_length in IH; rewrite length_app in *; lia.
Qed.

Lemma stream_literals x p y :
  stream x p y -> exists t ext lits q, p = t :: ext ++ lits ++ q /\
    length_code (byte_to_Z t .>> 4) ext (length lits) /\ (length x + length lits <= length y)%nat.
Proof.
  intros H. destruct H as [x t ext lits Hc|x t ext lits p0 p1 offset mext m body y Hc _ Ho _ Hs].
  - exists t, ext, lits, []. rewrite app_nil_r, length_app. split_and!; done || lia.
  - exists t, ext, lits, (p0 :: p1 :: mext ++ body). split_and!; try done.
    apply stream_grows in Hs. rewrite overlap_length in Hs; rewrite length_app in *; lia.
Qed.

(** What follows the literals, once they are read. *)
Lemma stream_inv x t ext n p y :
  stream x (t :: ext ++ p) y -> length_code (byte_to_Z t .>> 4) ext n ->
  (n <= length p)%nat /\
  ((drop n p = [] /\ y = x ++ take n p) \/
   exists p0 p1 mext m body, drop n p = p0 :: p1 :: mext ++ body /\
     let offset := Z.to_nat (byte_to_Z p0 .| (byte_to_Z p1 .<< 8)) in
     (0 < offset <= length x + n)%nat /\ length_code (byte_to_Z t .& 15) mext m /\
     stream (overlap (x ++ take n p) offset (m + kMinMatch)) body y).
Proof.
  intros H Hn. inversion H as [x' t' ext' lits Hc Ex Ep Ey|x' t' ext' lits p0 p1 off mext m body y' Hc Hoff Ho Hm Hs Ex Ep Ey];
    subst; destruct (length_code_prefix _ _ _ _ _ _ _ Hc Hn ltac:(eassumption)) as [<- <-].
  - split; [done|]. left. by rewrite drop_ge, take_ge.
  - rewrite length_app. split; [lia|]. right. rewrite drop_app_length, take_app_length. cbv zeta. eauto 12.
Qed.

(** What a decoder of [p] after [x], into a buffer like [out], returns. *)
Definition decoded (x p out : bytes) (r : option (Status * bytes)) : Prop :=
  exists st out', r = Some (st, out') /\ length out' = length out /\
    (st = ok -> stream x p out') /\
    (forall y, stream x p y -> length y = length out -> st = ok /\ out' = y).

Lemma refused x p out st o :
  st <> ok -> length o = length out -> (forall y, stream x p y -> length y = length out -> False) ->
  decoded x p out (Some (st, o)).
Proof. intros Hst Hl Hno. exists st, o. split_and!; try done. intros y Hy Hlen. by destruct (Hno y). Qed.

Lemma decode_match_spec continue x t ext n p out produced :
  length_code (byte_to_Z t .>> 4) ext n -> take produced out = x ++ take n p ->
  produced = (length x + n)%nat -> (produced <= length out)%nat -> drop n p <> [] -> (n <= length p)%nat ->
  (forall body o pr, (length body < length p)%nat -> length o = length out -> (pr <= length o)%nat ->
     decoded (take pr o) body o (continue body o pr)) ->
  decoded x (t :: ext ++ p) out
    (decode_match continue (byte_to_Z t) (drop n p) out (length out) produced).
Proof.
  intros Hc Hx Hpr Hle Hne Hnp Hk. pose proof (length_drop p n) as Hd.
  destruct (drop n p) as [|p0 [|p1 p2]] eqn:Ed; [done|..]; cbn [decode_match].
  { apply refused; try done. intros y Hy _.
    destruct (stream_inv _ _ _ _ _ _ Hy Hc) as [_ [[E _]|(? & ? & ? & ? & ? & E & _)]]; congruence. }
  set (offset := Z.to_nat (byte_to_Z p0 .| (byte_to_Z p1 .<< 8))).
  assert (forall y, stream x (t :: ext ++ p) y -> (0 < offset <= produced)%nat /\
    exists mext m body, p2 = mext ++ body /\ length_code (byte_to_Z t .& 15) mext m /\
      stream (overlap (x ++ take n p) offset (m + kMinMatch)) body y) as Hinv.
  { intros y Hy. destruct (stream_inv _ _ _ _ _ _ Hy Hc) as [_ [[E _]|(q0 & q1 & mext & m & body & E & Ho & Hm & Hs)]];
      [congruence|]. rewrite Ed in E. injection E as <- <- ->. split; [by rewrite Hpr|]. eauto 6. }
  destruct ((offset =? 0)%nat || (produced <? offset)%nat) eqn:Eo.
  { apply refused; try done. intros y Hy _. destruct (Hinv y Hy) as [Ho _].
    apply orb_true_iff in Eo as [Eo%Nat.eqb_eq|Eo%Nat.ltb_lt]; lia. }
  apply orb_false_iff in Eo as [Eo1%Nat.eqb_neq Eo2%Nat.ltb_ge]. rewrite match_length_eq.
  assert (length (x ++ take n p) = produced) as Hxl by (rewrite length_app, length_take; lia).
  destruct (read_length (byte_to_Z t .& 15) p2 kMinMatch (length out - produced)) as [[m' p3]|] eqn:E1.
  2: { apply refused; try done. intros y Hy Hylen. destruct (Hinv y Hy) as (_ & mext & m & body & -> & Hm & Hs).
       apply stream_grows in Hs. rewrite overlap_length in Hs by lia.
       rewrite (read_length_complete _ mext body kMinMatch _ m Hm) in E1; [done|]. lia. }
  apply read_length_sound in E1 as (mext & m & -> & Hm & ->); [|apply nibbles].
  assert (forall y, stream x (t :: ext ++ p) y ->
    stream (overlap (x ++ take n p) offset (m + kMinMatch)) p3 y) as Hinv2.
  { intros y Hy. destruct (Hinv y Hy) as (_ & mext' & m' & body & E & Hm' & Hs).
    by destruct (length_code_prefix _ _ _ _ _ _ _ Hm Hm' E) as [-> ->]. }
  destruct (Nat.ltb_spec (length out - produced) (m + kMinMatch)) as [Hlt|Hge].
  { apply refused; try done. intros y Hy Hylen. apply Hinv2, stream_grows in Hy.
    rewrite overlap_length in Hy by lia. lia. }
  destruct (copy_match_spec out produced offset (m + kMinMatch) (length out - produced) _ Hx) as (o & -> & Hlo & Ht);
    [lia..|]. cbn [mbind option_bind]. cbn [length] in Hd. rewrite length_app in Hd.
  destruct (Hk p3 o (produced + (m + kMinMatch))%nat) as (st & o' & -> & Hlo' & Hok & Hall); [lia|lia|lia|].
  rewrite Ht in Hok, Hall. exists st, o'. split_and!; [done|lia| |].
  - intros Hst. rewrite <- (take_drop n p), Ed.
    apply (stream_match x t ext (take n p) p0 p1 offset mext m p3 o').
    + by rewrite length_take, Nat.min_l.
    + done.
    + rewrite length_take. lia.
    + done.
    + by apply Hok.
  - intros y Hy Hylen. apply Hall; [by apply Hinv2|lia].
Qed.

Lemma decompress_loop_spec fuel p out produced :
  (length p < fuel)%nat -> (produced <= length out)%nat ->
  decoded (take produced out) p out (decompress_loop fuel p out (length out) produced).
Proof.
  revert p out produced. induction fuel as [|fuel IH]; intros p out produced Hf Hpr; [lia|].
  cbn [decompress_loop]. destruct p as [|t p]; [apply refused; try done; intros y Hy; inversion Hy|].
  destruct (nibbles t) as [Hlit _]. rewrite literal_length_eq by done.
  set (x := take produced out). assert (length x = produced) as Hx by (unfold x; rewrite length_take; lia).
  destruct (read_length (byte_to_Z t .>> 4) p 0 (length out - produced)) as [[n p1]|] eqn:E1.
  2: { apply refused; try done. intros y Hy Hylen.
       destruct (stream_literals _ _ _ Hy) as (t' & ext & lits & q & [= <- ->] & Hc & Hm).
       rewrite (read_length_complete _ ext (lits ++ q) 0 _ (length lits)) in E1; [done|done|]. lia. }
  apply read_length_sound in E1 as (ext & m & -> & Hc & ->); [|done]. rewrite Nat.add_0_r.
  assert (forall y, stream x (t :: ext ++ p1) y -> length y = length out ->
    (m <= length p1)%nat /\ (m <= length out - produced)%nat) as Hroom.
  { intros y Hy Hyl. pose proof (stream_inv _ _ _ _ _ _ Hy Hc) as [Hm _].
    destruct (stream_literals _ _ _ Hy) as (t' & ext' & lits & q & [= <- E] & Hc' & Hl).
    destruct (length_code_prefix _ _ _ _ _ _ _ Hc Hc' E) as [-> _]. lia. }
  destruct (Nat.ltb_spec (length out - produced) m) as [|Hr].
  { apply refused; try done. intros y Hy Hyl. specialize (Hroom y Hy Hyl). lia. }
  destruct (Nat.ltb_spec (length p1) m) as [|Hp1].
  { apply refused; try done. intros y Hy Hyl. specialize (Hroom y Hy Hyl). lia. }
  destruct (copy_literals_spec p1 out produced m (length out - produced)) as (o1 & -> & Hl1 & Ht1); [lia..|].
  cbn [mbind option_bind]. fold x in Ht1. cbn [length] in Hf. rewrite length_app in Hf.
  rewrite length_drop. destruct (Nat.eqb_spec (length p1 - m) 0) as [Hend|Hmore].
  - rewrite (take_ge p1 m) in Ht1 by lia.
    assert (forall y, stream x (t :: ext ++ p1) y -> y = x ++ p1) as Hlast.
    { intros y Hy. destruct (stream_inv _ _ _ _ _ _ Hy Hc) as [_ [[_ ->]|(? & ? & ? & ? & ? & E & _)]].
      - by rewrite take_ge by lia.
      - rewrite drop_ge in E by lia. done. }
    destruct (Nat.eqb_spec (produced + m) (length out)) as [Hfull|Hshort].
    + rewrite take_ge in Ht1 by lia. exists ok, o1. split_and!; [done|done| |].
      * intros _. rewrite Ht1. apply stream_last. by replace (length p1) with m by lia.
      * intros y Hy _. split; [done|]. rewrite (Hlast y Hy). exact Ht1.
    + apply refused; try done. intros y Hy Hyl. rewrite (Hlast y Hy), length_app in Hyl. lia.
  - rewrite <- Hl1. destruct (decode_match_spec
      (λ p out' produced, decompress_loop fuel p out' (length o1) produced) x t ext m p1 o1 (produced + m))
      as (st & o' & -> & Hlo & H1 & H2); try done; [lia|lia| | |].
    + intros E. apply (f_equal length) in E. rewrite length_drop in E. cbn in E. lia.
    + intros body o pr Hb Ho Hpo. rewrite <- Ho. apply IH; lia.
    + exists st, o'. rewrite <- Hl1. split_and!; done.
Qed.

(** No sequence is worth more than 255 bytes of output per byte. *)
Lemma length_code_bound nibble ext n : length_code nibble ext n -> (n <= 15 + 255 * length ext)%nat.
Proof.
  intros [(_ & ? & _)|(_ & k & r & -> & _ & ->)]; [lia|]. rewrite length_app, length_replicate.
  pose proof (byte_nat_range r). cbn. lia.
Qed.
Lemma stream_bound x p y : stream x p y -> (length y <= length x + 255 * length p)%nat.
Proof.
  induction 1 as [x t ext lits Hc|x t ext lits p0 p1 offset mext m body y Hc _ Ho Hm _ IH].
  - cbn [length]. rewrite !length_app. lia.
  - rewrite overlap_length in IH by (rewrite length_app; lia). apply length_code_bound in Hm.
    cbn [length]. rewrite !length_app in *. cbn [length]. rewrite length_app. unfold kMinMatch in *. lia.
Qed.

(** ** The encoder writes the format *)
Lemma put_length_loop_eq fuel n :
  (n / 255 < fuel)%nat -> put_length_loop fuel n = replicate (n / 255) xff ++ [nat_byte (n mod 255)].
Proof.
  revert n. induction fuel as [|fuel IH]; intros n Hf; [lia|]. cbn [put_length_loop].
  destruct (Nat.leb_spec 255 n) as [Hle|Hlt].
  - assert (n = n - 255 + 1 * 255)%nat as En by lia.
    assert (n / 255 = S ((n - 255) / 255))%nat as Ed by (rewrite En at 1; rewrite Nat.div_add by lia; lia).
    assert (n mod 255 = (n - 255) mod 255)%nat as Em by (rewrite En at 1; by rewrite Nat.Div0.mod_add).
    rewrite IH by lia. by rewrite Ed, Em.
  - by rewrite Nat.div_small, Nat.mod_small by lia.
Qed.
Lemma put_length_eq n : put_length n = replicate (n / 255) xff ++ [nat_byte (n mod 255)].
Proof. unfold put_length. apply put_length_loop_eq. lia. Qed.

Definition extension (n : nat) : bytes := if (15 <=? n)%nat then put_length (n - 15) else [].
Lemma length_code_emitted n : length_code (nibble_of n) (extension n) n.
Proof.
  unfold nibble_of, extension. destruct (Nat.leb_spec 15 n) as [Hle|Hlt].
  - right. split; [done|]. rewrite put_length_eq. eexists _, _. split; [done|].
    pose proof (Nat.mod_upper_bound (n - 15) 255 ltac:(lia)). pose proof (Nat.div_mod_eq (n - 15) 255).
    split; [|rewrite nat_byte_nat; lia]. intros E. apply byte_nat_xff in E. rewrite nat_byte_nat in E; lia.
  - left. split_and!; [done|lia|done].
Qed.
Lemma extension_length n : (length (extension n) <= n / 255 + (if (15 <=? n)%nat then 1 else 0))%nat.
Proof.
  unfold extension. destruct (15 <=? n)%nat; [|cbn; lia]. rewrite put_length_eq, length_app, length_replicate.
  cbn [length]. pose proof (Nat.Div0.div_le_mono (n - 15) n 255 ltac:(lia)). lia.
Qed.

Lemma token_nibbles hi lo :
  0 <= hi < 16 -> 0 <= lo < 16 ->
  let t := Z_to_byte (u8 ((hi .<< 4) .| lo)) in byte_to_Z t .>> 4 = hi /\ byte_to_Z t .& 15 = lo.
Proof.
  intros Hh Hl. cbv zeta. rewrite Z.lor_comm, lor_disjoint_add by lia. unfold u8.
  rewrite byte_to_Z_of_Z, Z.mod_mod by lia. rewrite Z.mod_small by lia.
  rewrite Z.shiftr_div_pow2 by lia. change 15 with (2 ^ 4 - 1). rewrite land_ones_mod by lia. split; zmod.
Qed.

Lemma offset_bytes offset :
  (offset <= kMaxOffset)%nat ->
  Z.to_nat (byte_to_Z (Z_to_byte (Z.of_nat offset .& 255)) .|
            (byte_to_Z (Z_to_byte ((Z.of_nat offset .>> 8) .& 255)) .<< 8)) = offset.
Proof.
  unfold kMaxOffset. intros Ho. rewrite !land_255, !byte_to_Z_of_Z, !Z.mod_mod by lia.
  rewrite Z.shiftr_div_pow2 by lia. rewrite lor_disjoint_add by (zmod). zmod.
Qed.

Lemma nibble_range n : 0 <= nibble_of n < 16.
Proof. unfold nibble_of. destruct (Nat.leb_spec 15 n); lia. Qed.

Lemma emit_last x lits : stream x (emit_sequence lits 0 0) (x ++ lits).
Proof.
  unfold emit_sequence. cbn [Nat.eqb app]. rewrite app_nil_r. apply stream_last.
  destruct (token_nibbles (nibble_of (length lits)) 0 (nibble_range _) ltac:(lia)) as [-> _].
  apply length_code_emitted.
Qed.

Lemma emit_match x lits n offset body y :
  (kMinMatch <= n)%nat -> (offset <= kMaxOffset)%nat -> (0 < offset <= length x + length lits)%nat ->
  stream (overlap (x ++ lits) offset n) body y -> stream x (emit_sequence lits n offset ++ body) y.
Proof.
  intros Hn Ho Hr Hs. unfold emit_sequence, kMinMatch in *. rewrite (proj2 (Nat.eqb_neq n 0)) by lia.
  destruct (token_nibbles (nibble_of (length lits)) (nibble_of (n - 4)) (nibble_range _) (nibble_range _)) as [Eh El].
  set (t := Z_to_byte _) in *. cbn [app]. rewrite <- !app_assoc. cbn [app].
  apply (stream_match x t (extension (length lits)) lits _ _ offset (extension (n - 4)) (n - 4)); try done.
  - rewrite Eh. apply length_code_emitted.
  - by rewrite offset_bytes.
  - rewrite El. apply length_code_emitted.
  - unfold kMinMatch. by replace (n - 4 + 4)%nat with n by lia.
Qed.

Lemma div_add_le a b c : (a / 255 + b / 255 <= (a + b + c) / 255)%nat.
Proof.
  apply Nat.div_le_lower_bound; [lia|].
  pose proof (Nat.Div0.mul_div_le a 255). pose proof (Nat.Div0.mul_div_le b 255). lia.
Qed.

Lemma emit_match_length lits n offset :
  (kMinMatch <= n)%nat ->
  (length (emit_sequence lits n offset) <= length lits + n + (length lits + n) / 255)%nat.
Proof.
  intros Hn. unfold emit_sequence, kMinMatch in *. rewrite (proj2 (Nat.eqb_neq n 0)) by lia.
  fold (extension (length lits)). fold (extension (n - 4)).
  rewrite !length_app. cbn [length]. pose proof (extension_length (length lits)) as E1.
  pose proof (extension_length (n - 4)) as E2. pose proof (div_add_le (length lits) (n - 4) 4) as Hd.
  replace (length lits + (n - 4) + 4)%nat with (length lits + n)%nat in Hd by lia.
  destruct (15 <=? length lits)%nat, (Nat.leb_spec 15 (n - 4)); lia.
Qed.
Lemma emit_last_length lits :
  (length (emit_sequence lits 0 0) <= 2 + length lits + length lits / 255)%nat.
Proof.
  unfold emit_sequence. cbn [Nat.eqb]. fold (extension (length lits)). rewrite !length_app. cbn [length].
  pose proof (extension_length (length lits)) as E1. destruct (15 <=? length lits)%nat; lia.
Qed.

(** ** Matches *)
Definition agree (base : bytes) (a b n : nat) : Prop :=
  (b + n <= length base)%nat /\ forall i, (i < n)%nat -> base !! (a + i)%nat = base !! (b + i)%nat.

Lemma memcmp_equal_spec base a b n :
  (a <= b)%nat -> (b + n <= length base)%nat ->
  exists same, memcmp_equal base a b n = Some same /\ (same = true -> agree base a b n).
Proof.
  intros Hab Hn. unfold memcmp_equal, read_at. rewrite !(proj2 (Nat.leb_le _ _)) by lia.
  cbn [mbind option_bind]. eexists. split; [done|]. intros H%bool_decide_eq_true. split; [done|].
  intros i Hi. rewrite <- !lookup_drop, <- (lookup_take_lt _ n i), <- (lookup_take_lt (drop b base) n i) by done.
  by rewrite H.
Qed.
Lemma agree_add base a b n m : agree base a b n -> agree base (a + n) (b + n) m -> agree base a b (n + m).
Proof.
  intros [H1 A1] [H2 A2]. split; [lia|]. intros i Hi. destruct (decide (i < n)%nat); [by apply A1|].
  replace (a + i)%nat with (a + n + (i - n))%nat by lia. replace (b + i)%nat with (b + n + (i - n))%nat by lia.
  apply A2. lia.
Qed.

Lemma extend8_spec fuel base a b n :
  (a <= b)%nat -> agree base a b n -> (length base < fuel + n + b)%nat ->
  exists m, extend8 fuel base a b n = Some m /\ (n <= m)%nat /\ agree base a b m.
Proof.
  intros Hab. revert n. induction fuel as [|fuel IH]; intros n A Hf; [destruct A; lia|]. cbn [extend8].
  destruct (Nat.leb_spec (b + n + 8) (length base)) as [Hle|]; [|by eauto].
  destruct (memcmp_equal_spec base (a + n) (b + n) 8) as (same & -> & Hs); [lia|lia|]. cbn [mbind option_bind].
  destruct same; [|by eauto]. destruct (IH (n + 8)%nat) as (m & E & Hm & Am); [by apply agree_add; auto|lia|].
  exists m. split_and!; [done|lia|done].
Qed.
Lemma extend1_spec fuel base a b n :
  (a <= b)%nat -> agree base a b n -> (length base < fuel + n + b)%nat ->
  exists m, extend1 fuel base a b n = Some m /\ (n <= m)%nat /\ agree base a b m.
Proof.
  intros Hab. revert n. induction fuel as [|fuel IH]; intros n A Hf; [destruct A; lia|]. cbn [extend1].
  destruct (Nat.ltb_spec (b + n) (length base)) as [Hle|]; [|by eauto].
  destruct (memcmp_equal_spec base (a + n) (b + n) 1) as (same & -> & Hs); [lia|lia|]. cbn [mbind option_bind].
  destruct same; [|by eauto]. destruct (IH (n + 1)%nat) as (m & E & Hm & Am); [by apply agree_add; auto|lia|].
  exists m. split_and!; [done|lia|done].
Qed.

Lemma overlap_agree base a b n :
  (a < b)%nat -> agree base a b n -> overlap (take b base) (b - a) n = take (b + n) base.
Proof.
  intros Hab [Hn A]. induction n as [|n IH]; [by rewrite Nat.add_0_r|].
  replace (S n) with (n + 1)%nat by lia. rewrite overlap_add, IH by (lia || (intros i Hi; apply A; lia)).
  cbn [overlap]. rewrite length_take, Nat.min_l by lia.
  destruct (lookup_lt_is_Some_2 base (b + n)) as [c Hc]; [lia|].
  rewrite Nat.add_assoc, Nat.add_1_r, (take_S_r base _ c Hc). f_equal.
  replace (b + n - (b - a))%nat with (a + n)%nat by lia.
  assert (take (b + n) base !! (a + n)%nat = Some c) as Hl by (rewrite lookup_take_lt by lia; rewrite <- Hc; apply A; lia).
  by rewrite (drop_S _ _ _ Hl).
Qed.

(** ** The hash table *)
Lemma hash_bits_range n : 8 <= hash_bits_for n <= 14.
Proof.
  unfold hash_bits_for. assert (forall f b, 8 <= b <= 14 -> 8 <= hash_bits_loop f b n <= 14) as H;
    [|by apply H; unfold kMinHashBits; lia].
  induction f as [|f IH]; intros b Hb; cbn [hash_bits_loop]; [done|].
  destruct (Z.ltb_spec b kMaxHashBits) as [Hlt|]; cbn [andb]; [|done].
  unfold kMaxHashBits in Hlt. case_match; [apply IH; lia|done].
Qed.

Lemma hash4_spec p bits :
  (4 <= length p)%nat -> 8 <= bits <= 14 -> exists h, hash4 p bits = Some h /\ (h < Z.to_nat (1 .<< bits))%nat.
Proof.
  intros Hp Hb. unfold hash4. rewrite decode_fixed32_spec. rewrite decide_True by done. cbn [mbind option_bind].
  eexists. split; [done|]. set (w := u32 _). assert (0 <= w < 2 ^ 32) as Hw by apply u32_range.
  assert (0 < 2 ^ bits) by (apply Z.pow_pos_nonneg; lia).
  rewrite Z.shiftl_mul_pow2, Z.shiftr_div_pow2, Z.mul_1_l by lia.
  assert (w / 2 ^ (32 - bits) < 2 ^ bits); [|pose proof (Z.div_pos w (2 ^ (32 - bits)) ltac:(lia) ltac:(apply Z.pow_pos_nonneg; lia)); lia].
  apply Z.div_lt_upper_bound; [apply Z.pow_pos_nonneg; lia|]. rewrite <- Z.pow_add_r by lia.
  replace (32 - bits + bits) with 32 by lia. lia.
Qed.

Definition table_ok (table : list Z) (bits : Z) (pos : nat) : Prop :=
  length table = Z.to_nat (1 .<< bits) /\ Forall (λ e, 0 <= e <= Z.of_nat pos) table.

Lemma table_ok_mono table bits pos pos' : (pos <= pos')%nat -> table_ok table bits pos -> table_ok table bits pos'.
Proof. intros H [Hl HF]. split; [done|]. eapply Forall_impl; [exact HF|]. cbn. lia. Qed.

Lemma table_store_ok table bits pos h v :
  table_ok table bits pos -> (h < Z.to_nat (1 .<< bits))%nat -> 0 <= v < 2 ^ 32 -> v <= Z.of_nat pos ->
  exists table', table_store table h v = Some table' /\ table_ok table' bits pos.
Proof.
  intros [Hl HF] Hh Hv Hp. unfold table_store. rewrite Hl, (proj2 (Nat.ltb_lt _ _)) by done.
  eexists. split; [done|]. split; [by rewrite length_insert|]. apply Forall_insert; [done|]. rewrite u32_small; lia.
Qed.

Lemma compress_loop_spec fuel base bits table ls pos out :
  size base < 2 ^ 32 -> 8 <= bits <= 14 -> table_ok table bits pos ->
  (ls <= pos <= length base)%nat -> (length base < fuel + pos)%nat ->
  exists ls' e, compress_loop fuel base bits table ls pos out = Some (ls', out ++ e) /\
    (ls <= ls' <= length base)%nat /\ (length e <= (ls' - ls) + (ls' - ls) / 255)%nat /\
    forall rest y, stream (take ls' base) rest y -> stream (take ls base) (e ++ rest) y.
Proof.
  intros Hsize Hbits. unfold size in Hsize. revert table ls pos out.
  induction fuel as [|fuel IH]; intros table ls pos out Ht Hp Hf; [lia|]. cbn [compress_loop].
  destruct (Nat.ltb_spec pos (last_hashable (length base))) as [Hlt|]; cbn [negb].
  2: { exists ls, []. rewrite app_nil_r. split_and!; try done; cbn; lia. }
  assert (pos + 4 <= length base)%nat as H4.
  { unfold last_hashable, kMinMatch in Hlt. destruct (Nat.leb_spec 4 (length base)); lia. }
  destruct (hash4_spec (drop pos base) bits) as (h & -> & Hh); [rewrite length_drop; lia|done|].
  cbn [mbind option_bind]. destruct (lookup_lt_is_Some_2 table h) as [cand Hcand]; [by destruct Ht as [-> _]|].
  rewrite Hcand. cbn [mbind option_bind].
  destruct (table_store_ok table bits (pos + 1) h (Z.of_nat pos + 1)) as (t1 & -> & Ht1);
    [eapply table_ok_mono; [|done]; lia|done|lia|lia|]. cbn [mbind option_bind].
  assert (0 <= cand <= Z.of_nat pos) as Hc by (destruct Ht as [_ HF]; by eapply (Forall_lookup_1 _ _ _ _ HF Hcand)).
  assert (exists ls' e, compress_loop fuel base bits t1 ls (pos + 1) out = Some (ls', out ++ e) /\
    (ls <= ls' <= length base)%nat /\ (length e <= (ls' - ls) + (ls' - ls) / 255)%nat /\
    forall rest y, stream (take ls' base) rest y -> stream (take ls base) (e ++ rest) y) as Hskip by (apply IH; [done|lia|lia]).
  destruct (Z.eqb_spec cand 0) as [|Hnz]; [exact Hskip|].
  set (mp := Z.to_nat (cand - 1)). assert (mp < pos)%nat as Hmp by lia.
  destruct (Nat.ltb_spec kMaxOffset (pos - mp)) as [|Hoff]; [exact Hskip|].
  destruct (memcmp_equal_spec base mp pos kMinMatch) as (same & -> & Hsame); [lia|unfold kMinMatch; lia|].
  cbn [mbind option_bind]. destruct same; cbn [negb]; [|exact Hskip]. clear Hskip.
  destruct (extend8_spec (S (length base)) base mp pos kMinMatch) as (n8 & -> & Hn8 & A8); [lia|auto|lia|].
  cbn [mbind option_bind].
  destruct (extend1_spec (S (length base)) base mp pos n8) as (n & -> & Hn & A); [lia|done|lia|].
  cbn [mbind option_bind]. unfold kMinMatch in Hn8. pose proof A as [Hend _].
  set (lits := take (pos - ls) (drop ls base)).
  assert (length lits = pos - ls)%nat as Hlits by (unfold lits; rewrite length_take, length_drop; lia).
  assert (exists t2, (if (1 <=? pos + n)%nat && (pos + n - 1 <? last_hashable (length base))%nat then
      h ← hash4 (drop (pos + n - 1) base) bits; table_store t1 h (Z.of_nat (pos + n)) else Some t1) = Some t2 /\
    table_ok t2 bits (pos + n)) as (t2 & -> & Ht2).
  { assert (table_ok t1 bits (pos + n)) as Ht1' by (eapply table_ok_mono; [|done]; lia).
    destruct (_ && _) eqn:E; [|by eauto]. apply andb_true_iff in E as [_ E%Nat.ltb_lt].
    unfold last_hashable, kMinMatch in E. destruct (Nat.leb_spec 4 (length base)); [|lia].
    destruct (hash4_spec (drop (pos + n - 1) base) bits) as (h' & -> & Hh'); [rewrite length_drop; lia|done|].
    cbn [mbind option_bind]. apply table_store_ok; try done; lia. }
  cbn [mbind option_bind].
  destruct (IH t2 (pos + n)%nat (pos + n)%nat (out ++ emit_sequence lits n (pos - mp)))
    as (ls' & e & -> & Hls & Hlen & Hstr); [done|lia|lia|].
  exists ls', (emit_sequence lits n (pos - mp) ++ e). rewrite <- app_assoc. split_and!; [done|lia|lia| |].
  - rewrite length_app. pose proof (emit_match_length lits n (pos - mp) ltac:(unfold kMinMatch; lia)) as He.
    rewrite Hlits in He. pose proof (div_add_le (pos - ls + n) (ls' - (pos + n)) 0) as Hd.
    replace (pos - ls + n + (ls' - (pos + n)) + 0)%nat with (ls' - ls)%nat in Hd by lia. lia.
  - intros rest y Hy. rewrite <- app_assoc. apply emit_match; [unfold kMinMatch; lia|done| |].
    + rewrite length_take, Hlits. lia.
    + unfold lits. rewrite take_take_drop. replace (ls + (pos - ls))%nat with pos by lia.
      rewrite overlap_agree by (done || lia). by apply Hstr.
Qed.

Lemma compress_body_spec input :
  size input < 2 ^ 32 ->
  exists body, compress_body input = Some body /\ stream [] body input /\
    (5 + length body <= max_compressed_size (length input))%nat.
Proof.
  intros Hsize. unfold compress_body, max_compressed_size. destruct (Nat.eqb_spec (length input) 0) as [E|Hne].
  - apply nil_length_inv in E as ->. eexists. split; [done|]. split; [|cbn; lia].
    apply (stream_last [] x00 [] []). left. cbn. split_and!; (done || lia).
  - destruct (compress_loop_spec (S (length input)) input (hash_bits_for (length input))
      (replicate (Z.to_nat (1 .<< hash_bits_for (length input))) 0) 0 0 [])
      as (ls & e & -> & Hls & Hlen & Hstr); [done|apply hash_bits_range| |lia|lia|].
    { split; [by rewrite length_replicate|]. apply Forall_replicate. lia. }
    cbn [mbind option_bind app]. eexists. split; [done|]. split.
    + rewrite take_0 in Hstr. apply Hstr. pose proof (emit_last (take ls input) (drop ls input)) as H.
      by rewrite take_drop in H.
    + rewrite length_app. pose proof (emit_last_length (drop ls input)) as Hl. rewrite length_drop in Hl.
      pose proof (div_add_le ls (length input - ls) 0) as Hd.
      replace (ls + (length input - ls) + 0)%nat with (length input) in Hd by lia.
      rewrite Nat.sub_0_r in Hlen. lia.
Qed.

(** What the two steps of decoding make of what the encoder wrote. *)
Lemma compressed_decodes input output :
  size input < 2 ^ 32 ->
  exists written body, compress_block input output = Some (output ++ written) /\
    compressed_length written = inr (length input, body) /\
    decompress_into body (replicate (length input) x00) (length input) = Some (ok, input) /\
    (length written <= max_compressed_size (length input))%nat.
Proof.
  intros Hsize. pose proof (size_nonneg input).
  destruct (compress_body_spec input Hsize) as (body & E & Hs & Hlen). unfold compress_block. rewrite E.
  cbn [mbind option_bind]. unfold put_varint32. rewrite <- app_assoc. eexists _, body. split; [done|].
  rewrite u32_small by lia. split_and!.
  - unfold compressed_length. rewrite get_varint32_loop by lia.
    pose proof (stream_bound _ _ _ Hs) as Hb. cbn [length] in Hb.
    destruct (Z.ltb_spec (255 * size body) (size input)); [unfold size in *; lia|].
    unfold size at 1. by rewrite Nat2Z.id.
  - unfold decompress_into.
    destruct (decompress_loop_spec (S (length body)) body (replicate (length input) x00) 0)
      as (st & out' & E' & _ & _ & Hall); [lia|lia|]. rewrite length_replicate in *. rewrite E'.
    by destruct (Hall input Hs) as [-> ->].
  - rewrite length_app. pose proof (varint_loop_length 10 5 (size input)). lia.
Qed.

(** * Theorems *)

(** C35. Compression round-trips: for every input of less than 4 GiB,
    [compress_block] succeeds without reading or writing out of bounds - the
    matcher's reads, the hash table and the output sized by
    [max_compressed_size] included - and decompressing what it appended gives
    the input back. *)
Theorem compress_roundtrip input output :
  size input < 2 ^ 32 ->
  exists written, compress_block input output = Some (output ++ written) /\
    decompress_block written = Some (ok, input) /\
    (length written <= max_compressed_size (length input))%nat.
Proof.
  intros Hsize. destruct (compressed_decodes input output Hsize) as (written & body & E & El & Ed & Hlen).
  exists written. split; [done|]. split; [|done]. unfold decompress_block. by rewrite El.
Qed.

(** C36. The decoder accepts exactly the format, and is safe on anything else:
    for any bytes at all, [decompress_block] finishes, never reads outside
    the input nor writes outside the buffer of the declared length, never
    copies between overlapping ranges with a copy that forbids it, and
    returns ok exactly when the bytes are a length and a well-formed stream
    of that length, with the bytes the stream stands for; no such stream is
    worth more than 255 bytes per byte of input, so the check made before
    allocating refuses none. *)
Theorem decompress_accepts_exactly_the_format input :
  exists st out, decompress_block input = Some (st, out) /\
    (st = ok <-> exists body, get_varint32 input = Some (size out, body) /\ stream [] body out) /\
    (forall n body y, get_varint32 input = Some (n, body) -> stream [] body y -> n = size y ->
       n <= 255 * size body /\ st = ok /\ out = y).
Proof.
  unfold decompress_block, compressed_length. destruct (get_varint32 input) as [[n body]|] eqn:Ev.
  2: { eexists _, []. split; [done|]. split; [|done]. split; [done|]. intros (? & ? & _). done. }
  pose proof (get_varint32_range _ _ _ Ev) as Hn.
  destruct (Z.ltb_spec (255 * size body) n) as [Hlt|Hge].
  { assert (forall y, stream [] body y -> n <> size y) as Hno.
    { intros y Hy%stream_bound ->. cbn in Hy. unfold size in *. lia. }
    eexists _, []. split; [done|]. split.
    - split; [done|]. intros (b & [= -> ->] & Hs). by apply Hno in Hs.
    - intros n' b y [= <- <-] Hs Hy. by apply Hno in Hs. }
  destruct (decompress_loop_spec (S (length body)) body (replicate (Z.to_nat n) x00) 0)
    as (st & out & E & Hl & Hok & Hall); [lia|lia|]. rewrite length_replicate in *.
  exists st, out. split; [done|].
  assert (size out = n) as Hso by (unfold size; lia). split.
  - split.
    + intros Hst. exists body. rewrite Hso. split; [done|]. by apply Hok.
    + intros (b & [= _ <-] & Hs). by apply (Hall out).
  - intros n' b y [= <- <-] Hs Hy. split; [done|]. apply Hall; [done|]. rewrite Hy. unfold size. lia.
Qed.

Lemma compress_roundtrip_witness :
  exists written, compress_block (replicate 40 x61 ++ [x62; x63]) [] = Some written /\
    decompress_block written = Some (ok, replicate 40 x61 ++ [x62; x63]) /\ length written = 9%nat.
Proof.
  destruct (compress_roundtrip (replicate 40 x61 ++ [x62; x63]) []) as (w & E & Ed & _);
    [vm_compute; reflexivity|].
  exists w. split; [exact E|]. split; [exact Ed|]. vm_compute in E. injection E as <-. reflexivity.
Defined.

End Compress.
