(* ===== verification/Format.v ===== *)
(** The shape of a table file (src/src/format.hpp, src/src/format.cpp): block
    handles, the footer, and reading a block.

    [read_block] returns an option of a status or the contents; [None] is a
    read outside what the file returned. *)
From stdpp Require Import pretty.
From S2P Require Import Prelude Status File Encoding Compress.
Import Status File Encoding Compress.

Module Format.

(** Byte 0 and byte 1; anything else is [None]. *)
Inductive CompressionType := kNone | kLz.
Definition CompressionType_to_Z (t : CompressionType) : Z :=
  match t with kNone => 0 | kLz => 1 end.
Definition CompressionType_of_Z (z : Z) : option CompressionType :=
  if z =? 0 then Some kNone else if z =? 1 then Some kLz else None.

Definition kBlockTrailerSize : Z := 5.

Record BlockHandle := mkHandle { bh_offset : Z; bh_size : Z }.
Definition BlockHandle_new : BlockHandle := mkHandle 0 0.
Definition kMaxEncodedLength : nat := 20.

Definition handle_encode_to (h : BlockHandle) (dst : bytes) : bytes :=
  put_varint64 (put_varint64 dst (bh_offset h)) (bh_size h).
Definition handle_decode_from (input : bytes) : Status + (BlockHandle * bytes) :=
  match get_varint64 input with
  | Some (offset, input) =>
      match get_varint64 input with
      | Some (sz, input) => inr (mkHandle offset sz, input)
      | None => inl (corruption "bad block handle")
      end
  | None => inl (corruption "bad block handle")
  end.

Record Footer := mkFooter { metaindex_handle_ : BlockHandle; index_handle_ : BlockHandle }.
Definition kEncodedLength : nat := 48.
Definition kTableMagicNumber : Z := 0x9d4f2b6c1a73e850.

(** [dst->resize(n, '\0')]. *)
Definition resize (s : bytes) (n : nat) : bytes := take n s ++ replicate (n - length s) x00.

Definition footer_encode_to (f : Footer) (dst : bytes) : bytes :=
  let original := length dst in
  let dst := handle_encode_to (metaindex_handle_ f) dst in
  let dst := handle_encode_to (index_handle_ f) dst in
  let dst := resize dst (original + 2 * kMaxEncodedLength) in
  let dst := put_fixed32 dst (kTableMagicNumber .& 0xffffffff) in
  put_fixed32 dst (kTableMagicNumber .>> 32).

Definition footer_decode_from (input : bytes) : option (Status + Footer) :=
  if (length input <? kEncodedLength)%nat
  then Some (inl (corruption "file is too short to hold a table footer"))
  else
    high ← decode_fixed32 (drop (kEncodedLength - 4) input);
    low ← decode_fixed32 (drop (kEncodedLength - 8) input);
    let magic := u64 (high .<< 32) .| low in
    if negb (magic =? kTableMagicNumber)
    then Some (inl (corruption "not an Ambar table file (bad magic number)"))
    else
      let remaining := take (kEncodedLength - 8) input in
      Some (match handle_decode_from remaining with
            | inl status => inl status
            | inr (metaindex, remaining) =>
                match handle_decode_from remaining with
                | inl status => inl status
                | inr (index, _) => inr (mkFooter metaindex index)
                end
            end).

Record BlockContents := mkContents {
  bc_data : bytes;
  cachable : bool;
  heap_allocated : bool
}.

Definition to_string (n : Z) : string := pretty n.

(** Fresh memory holds anything; [decompress_into] returns ok only when it
    has written all of it. *)
Definition read_block (file : RandomAccessFile) (file_size : Z) (handle : BlockHandle) :
    option (Status + BlockContents) :=
  let n := bh_size handle in
  if (file_size <? n) || (size_sub file_size n <? bh_offset handle) ||
     (size_sub file_size (bh_offset handle) <? u64 (n + kBlockTrailerSize))
  then Some (inl (corruption ("block handle points outside the file: offset " +:+
         to_string (bh_offset handle) +:+ ", size " +:+ to_string n +:+
         ", in a file of " +:+ to_string file_size +:+ " bytes")))
  else
    match raf_read file (bh_offset handle) (n + kBlockTrailerSize) with
    | inl status => Some (inl status)
    | inr (data, read_into_buffer) =>
        stored ← decode_fixed32 (drop (Z.to_nat (n + 1)) data);
        let actual := crc32c (take (Z.to_nat (n + 1)) data) in
        if negb (stored =? actual)
        then Some (inl (corruption ("block checksum mismatch at offset " +:+ to_string (bh_offset handle))))
        else
          type ← data !! Z.to_nat n;
          match CompressionType_of_Z (byte_to_Z type) with
          | Some kNone =>
              Some (inr (mkContents (take (Z.to_nat n) data) read_into_buffer read_into_buffer))
          | Some kLz =>
              match compressed_length (take (Z.to_nat n) data) with
              | inl status =>
                  Some (inl (corruption ("compressed block at offset " +:+ to_string (bh_offset handle) +:+
                    " does not decode: " +:+ message status)))
              | inr (length, body) =>
                  '(status, owned) ← decompress_into body (replicate length x00) length;
                  if is_ok status then Some (inr (mkContents owned true true))
                  else Some (inl (corruption ("compressed block at offset " +:+ to_string (bh_offset handle) +:+
                         " does not decode: " +:+ message status)))
              end
          | None =>
              Some (inl (not_supported ("block at offset " +:+ to_string (bh_offset handle) +:+
                " uses a compression this build cannot read (type " +:+
                to_string (byte_to_Z type) +:+ ")")))
          end
    end.

(** * Lemmas *)
Definition handle_ok (h : BlockHandle) : Prop := 0 <= bh_offset h < 2 ^ 64 /\ 0 <= bh_size h < 2 ^ 64.

Lemma handle_decode_encode h rest :
  handle_ok h -> handle_decode_from (handle_encode_to h [] ++ rest) = inr (h, rest).
Proof.
  intros [H1 H2]. unfold handle_encode_to, handle_decode_from, put_varint64. rewrite app_nil_l, <- app_assoc.
  rewrite get_varint64_loop by done. rewrite get_varint64_loop by done. by destruct h.
Qed.
Lemma handle_encode_app h dst : handle_encode_to h dst = dst ++ handle_encode_to h [].
Proof. unfold handle_encode_to, put_varint64. by rewrite app_nil_l, <- app_assoc. Qed.
Lemma handle_encode_length h : handle_ok h -> (length (handle_encode_to h []) <= kMaxEncodedLength)%nat.
Proof.
  intros [H1 H2]. unfold handle_encode_to, put_varint64, kMaxEncodedLength. rewrite app_nil_l, length_app.
  pose proof (varint_loop_length 10 10 (bh_offset h)). pose proof (varint_loop_length 10 10 (bh_size h)). lia.
Qed.

Lemma footer_decode_encode f rest :
  handle_ok (metaindex_handle_ f) -> handle_ok (index_handle_ f) ->
  footer_decode_from (footer_encode_to f [] ++ rest) = Some (inr f) /\
  length (footer_encode_to f []) = kEncodedLength.
Proof.
  intros Hm Hi. unfold footer_encode_to. rewrite (handle_encode_app (index_handle_ f)).
  set (a := handle_encode_to (metaindex_handle_ f) []). set (b := handle_encode_to (index_handle_ f) []).
  pose proof (handle_encode_length (metaindex_handle_ f) Hm) as La. fold a in La.
  pose proof (handle_encode_length (index_handle_ f) Hi) as Lb. fold b in Lb. unfold kMaxEncodedLength in *.
  cbn [length Nat.add Nat.mul]. set (h := resize (a ++ b) 40).
  assert (h = a ++ b ++ replicate (40 - length (a ++ b)) x00) as Eh.
  { unfold h, resize. rewrite take_ge by (rewrite length_app; lia). by rewrite <- app_assoc. }
  assert (length h = 40)%nat as Lh.
  { rewrite Eh, !length_app, length_replicate. lia. }
  unfold put_fixed32. assert (length ((h ++ encode_fixed32 (kTableMagicNumber .& 0xffffffff)) ++
    encode_fixed32 (kTableMagicNumber .>> 32)) = 48)%nat as Ll.
  { rewrite !length_app, Lh, !length_encode_fixed32. done. }
  split; [|done]. unfold footer_decode_from, kEncodedLength. rewrite length_app, Ll.
  rewrite (proj2 (Nat.ltb_ge _ _)) by lia. rewrite <- !app_assoc.
  change (48 - 4)%nat with (40 + 4)%nat. change (48 - 8)%nat with 40%nat. rewrite <- drop_drop.
  rewrite !(drop_app_length' h) by done. rewrite (drop_app_length' (encode_fixed32 _)) by done.
  rewrite !decode_encode_fixed32_app. cbn [mbind option_bind].
  rewrite take_app_length' by done. rewrite Eh. unfold a, b.
  rewrite handle_decode_encode by done. rewrite handle_decode_encode by done.
  by destruct f.
Qed.

(** A block as [TableBuilder::write_raw_block] stores it. *)
Definition stored_block (contents : bytes) (type : CompressionType) : bytes :=
  let t := Z_to_byte (CompressionType_to_Z type) in
  contents ++ [t] ++ encode_fixed32 (crc32c (contents ++ [t])).

Lemma stored_block_size contents type : size (stored_block contents type) = size contents + kBlockTrailerSize.
Proof. unfold stored_block, kBlockTrailerSize, size. rewrite !length_app, length_encode_fixed32. cbn. lia. Qed.

(** What the handle is checked for: the read lies inside the file. *)
Lemma handle_bounds file_size h :
  handle_ok h -> 0 <= file_size < 2 ^ 63 ->
  (file_size <? bh_size h) || (size_sub file_size (bh_size h) <? bh_offset h) ||
    (size_sub file_size (bh_offset h) <? u64 (bh_size h + kBlockTrailerSize)) =
  negb (bh_offset h + bh_size h + kBlockTrailerSize <=? file_size).
Proof.
  intros [Ho Hs] Hf. unfold size_sub, kBlockTrailerSize.
  destruct (Z.ltb_spec file_size (bh_size h)); cbn [orb].
  { symmetry. apply negb_true_iff, Z.leb_gt. lia. }
  destruct (Z.ltb_spec (file_size - bh_size h) (bh_offset h)); cbn [orb].
  { symmetry. apply negb_true_iff, Z.leb_gt. lia. }
  rewrite u64_small by lia. destruct (Z.ltb_spec file_size (bh_offset h)); [lia|].
  destruct (Z.leb_spec (bh_offset h + bh_size h + 5) file_size); cbn [negb]; [apply Z.ltb_ge|apply Z.ltb_lt]; lia.
Qed.

(** The two steps after the read: the checksum, and the decoding. *)
Definition checked (data : bytes) (n : Z) : bool :=
  bool_decide (decode_fixed32 (drop (Z.to_nat (n + 1)) data) = Some (crc32c (take (Z.to_nat (n + 1)) data))).

Section Read.
Context (file : RandomAccessFile) `{!RandomAccessLaws file}.

(** Every branch of [read_block], without the error messages. *)
Lemma read_block_cases file_size h :
  handle_ok h -> 0 <= file_size < 2 ^ 63 ->
  exists r, read_block file file_size h = Some r /\
    if bh_offset h + bh_size h + kBlockTrailerSize <=? file_size then
      match raf_read file (bh_offset h) (bh_size h + kBlockTrailerSize) with
      | inl status => r = inl status
      | inr (data, into) =>
          let n := Z.to_nat (bh_size h) in
          if checked data (bh_size h) then
            exists type, data !! n = Some type /\
              match CompressionType_of_Z (byte_to_Z type) with
              | Some kNone => r = inr (mkContents (take n data) into into)
              | Some kLz =>
                  match compressed_length (take n data) with
                  | inl status => exists s, r = inl (corruption s)
                  | inr (len, body) => exists status owned,
                      decompress_into body (replicate len x00) len = Some (status, owned) /\
                      length owned = len /\
                      if is_ok status then r = inr (mkContents owned true true)
                      else exists s, r = inl (corruption s)
                  end
              | None => exists s, r = inl (not_supported s)
              end
          else exists s, r = inl (corruption s)
      end
    else exists s, r = inl (corruption s).
Proof.
  intros Hh Hf. unfold read_block. rewrite handle_bounds by done. destruct Hh as [Ho Hs].
  destruct (Z.leb_spec (bh_offset h + bh_size h + kBlockTrailerSize) file_size) as [Hle|Hgt]; cbn [negb].
  2: { eexists. split; [done|]. eauto. }
  destruct (raf_read file _ _) as [status|[data into]] eqn:Er; [by eexists|].
  apply raf_length in Er; [|unfold kBlockTrailerSize; lia]. unfold kBlockTrailerSize, size in Er.
  unfold checked. rewrite decode_fixed32_spec, length_drop. rewrite decide_True by lia. cbn [mbind option_bind].
  case_bool_decide as Hc.
  - injection Hc as Hc. rewrite Hc, Z.eqb_refl. cbn [negb].
    destruct (lookup_lt_is_Some_2 data (Z.to_nat (bh_size h))) as [type Et]; [lia|]. rewrite Et. cbn [mbind option_bind].
    destruct (CompressionType_of_Z (byte_to_Z type)) as [[|]|] eqn:Ec.
    + eexists. split; [done|]. exists type. by rewrite Ec.
    + destruct (compressed_length _) as [status|[len body]] eqn:El.
      * eexists. split; [done|]. exists type. rewrite Ec. eauto.
      * destruct (decompress_loop_spec (S (length body)) body (replicate len x00) 0)
          as (st & owned & Ed & Hl & _); [lia|lia|]. rewrite length_replicate in *.
        unfold decompress_into. rewrite Ed. cbn [mbind option_bind].
        destruct (is_ok st) eqn:Est; (eexists; split; [done|]; exists type; rewrite Ec; split; [done|];
          exists st, owned; rewrite Est; eauto).
    + eexists. split; [done|]. exists type. rewrite Ec. eauto.
  - rewrite (proj2 (Z.eqb_neq _ _)) by congruence. cbn [negb]. eexists. split; [done|]. eauto.
Qed.
End Read.

Lemma checked_stored contents type rest :
  checked (stored_block contents type ++ rest) (size contents) = true.
Proof.
  unfold checked. apply bool_decide_eq_true. unfold stored_block.
  set (t := Z_to_byte _). replace (Z.to_nat (size contents + 1)) with (length (contents ++ [t]))
    by (rewrite length_app; unfold size; cbn; lia).
  replace ((contents ++ [t] ++ encode_fixed32 (crc32c (contents ++ [t]))) ++ rest) with
    ((contents ++ [t]) ++ encode_fixed32 (crc32c (contents ++ [t])) ++ rest) by (by rewrite <- !app_assoc).
  rewrite drop_app_length, take_app_length, decode_encode_fixed32_app. f_equal.
  apply Z.mod_small. apply crc32c_extend_range. lia.
Qed.

(** A block that was stored whole reads back as it was written. *)
Lemma read_stored file contents pre rest raw type :
  Serves file (pre ++ stored_block contents type ++ rest) ->
  size (pre ++ stored_block contents type ++ rest) < 2 ^ 63 ->
  (match type with kNone => raw = contents | kLz => size raw < 2 ^ 32 /\ compress_block raw [] = Some contents end) ->
  exists bc, read_block file (size (pre ++ stored_block contents type ++ rest)) (mkHandle (size pre) (size contents)) =
    Some (inr bc) /\ bc_data bc = raw.
Proof.
  intros Hserve Hsize Hraw. set (F := pre ++ stored_block contents type ++ rest) in *.
  assert (size pre + size contents + kBlockTrailerSize <= size F) as Hin.
  { unfold F. rewrite !size_app, stored_block_size. pose proof (size_nonneg rest). lia. }
  pose proof (size_nonneg pre). pose proof (size_nonneg contents). unfold kBlockTrailerSize in Hin.
  destruct (read_block_cases file (size F) (mkHandle (size pre) (size contents))) as (r & Er & Hr);
    [split; cbn; lia|lia|]. cbn [bh_offset bh_size] in Hr. unfold kBlockTrailerSize in Hr.
  rewrite (proj2 (Z.leb_le _ _)) in Hr by lia.
  destruct (serves_read (size pre) (size contents + 5)) as (into & Erd); [lia..|].
  assert (drop (Z.to_nat (size pre)) F = stored_block contents type ++ rest) as Ed.
  { unfold F, size. by rewrite Nat2Z.id, drop_app_length. }
  assert (take (Z.to_nat (size contents + 5)) (stored_block contents type ++ rest) = stored_block contents type) as Et.
  { apply take_app_length'. pose proof (stored_block_size contents type). unfold kBlockTrailerSize, size in *. lia. }
  rewrite Ed, Et in Erd. rewrite Erd in Hr.
  pose proof (checked_stored contents type []) as Hck. rewrite app_nil_r in Hck. rewrite Hck in Hr.
  destruct Hr as (t & Ht & Hr). replace (Z.to_nat (size contents)) with (length contents) in * by (unfold size; lia).
  unfold stored_block in Ht. cbn [app] in Ht. rewrite list_lookup_middle in Ht by done. injection Ht as <-.
  assert (take (length contents) (stored_block contents type) = contents) as Ec by (apply take_app_length).
  rewrite Ec in Hr. destruct type; cbn [CompressionType_to_Z] in Hr.
  - cbn in Hr. eexists. rewrite Er, Hr, Hraw. done.
  - destruct Hraw as [Hrs Hraw]. destruct (compressed_decodes raw [] Hrs) as (w & body & E & El & Edc & _).
    rewrite app_nil_l in E. assert (w = contents) as -> by congruence.
    change (CompressionType_of_Z (byte_to_Z (Z_to_byte 1))) with (Some kLz) in Hr. rewrite El in Hr.
    destruct Hr as (st & owned & Edc' & _ & Hr). rewrite Edc in Edc'. injection Edc' as <- <-.
    cbn in Hr. eexists. rewrite Er, Hr. done.
Qed.

(** * Theorem *)



End Format.
