(* ===== verification/TableBuilder.v ===== *)
(** Writing a table file (src/src/table_builder.hpp,
    src/src/table_builder.cpp).

    [None] is undefined behaviour in a component it calls; the file's calls
    may fail, as File.v has it. *)
From S2P Require Import Prelude Status File Encoding Comparator Bloom FilterBlock BlockBuilder Iterator Compress Format.
Import Status File Encoding Comparator Bloom Iterator Format.

Module TableBuilder.

(** The options a table is written and read with. *)
Record Options := mkOptions {
  block_size : Z;
  block_restart_interval : Z;
  compression : CompressionType;
  filter_policy : option FilterPolicy
}.

(** [compressed_] is scratch space of [write_block]. *)
Record TableBuilder := mkTableBuilder {
  options_ : Options;
  comparator_ : Comparator;
  file_ : WritableFile;
  offset_ : Z;
  status_ : Status;
  data_block_ : BlockBuilder.BlockBuilder;
  index_block_ : BlockBuilder.BlockBuilder;
  filter_block_ : option FilterBlock.FilterBlockBuilder;
  last_key_ : bytes;
  num_entries_ : Z;
  closed_ : bool;
  pending_index_entry_ : bool;
  pending_handle_ : BlockHandle
}.

Definition set_file (t : TableBuilder) (status : Status) (file : WritableFile) : TableBuilder :=
  mkTableBuilder (options_ t) (comparator_ t) file (offset_ t) status (data_block_ t) (index_block_ t)
    (filter_block_ t) (last_key_ t) (num_entries_ t) (closed_ t) (pending_index_entry_ t) (pending_handle_ t).
Definition set_offset (t : TableBuilder) (offset : Z) : TableBuilder :=
  mkTableBuilder (options_ t) (comparator_ t) (file_ t) offset (status_ t) (data_block_ t) (index_block_ t)
    (filter_block_ t) (last_key_ t) (num_entries_ t) (closed_ t) (pending_index_entry_ t) (pending_handle_ t).
Definition set_data_block (t : TableBuilder) (b : BlockBuilder.BlockBuilder) : TableBuilder :=
  mkTableBuilder (options_ t) (comparator_ t) (file_ t) (offset_ t) (status_ t) b (index_block_ t)
    (filter_block_ t) (last_key_ t) (num_entries_ t) (closed_ t) (pending_index_entry_ t) (pending_handle_ t).
Definition set_index_block (t : TableBuilder) (b : BlockBuilder.BlockBuilder) : TableBuilder :=
  mkTableBuilder (options_ t) (comparator_ t) (file_ t) (offset_ t) (status_ t) (data_block_ t) b
    (filter_block_ t) (last_key_ t) (num_entries_ t) (closed_ t) (pending_index_entry_ t) (pending_handle_ t).
Definition set_filter_block (t : TableBuilder) (b : option FilterBlock.FilterBlockBuilder) : TableBuilder :=
  mkTableBuilder (options_ t) (comparator_ t) (file_ t) (offset_ t) (status_ t) (data_block_ t) (index_block_ t)
    b (last_key_ t) (num_entries_ t) (closed_ t) (pending_index_entry_ t) (pending_handle_ t).
Definition set_last_key (t : TableBuilder) (key : bytes) : TableBuilder :=
  mkTableBuilder (options_ t) (comparator_ t) (file_ t) (offset_ t) (status_ t) (data_block_ t) (index_block_ t)
    (filter_block_ t) key (num_entries_ t) (closed_ t) (pending_index_entry_ t) (pending_handle_ t).
Definition set_num_entries (t : TableBuilder) (n : Z) : TableBuilder :=
  mkTableBuilder (options_ t) (comparator_ t) (file_ t) (offset_ t) (status_ t) (data_block_ t) (index_block_ t)
    (filter_block_ t) (last_key_ t) n (closed_ t) (pending_index_entry_ t) (pending_handle_ t).
Definition set_closed (t : TableBuilder) (closed : bool) : TableBuilder :=
  mkTableBuilder (options_ t) (comparator_ t) (file_ t) (offset_ t) (status_ t) (data_block_ t) (index_block_ t)
    (filter_block_ t) (last_key_ t) (num_entries_ t) closed (pending_index_entry_ t) (pending_handle_ t).
Definition set_pending (t : TableBuilder) (pending : bool) (handle : BlockHandle) : TableBuilder :=
  mkTableBuilder (options_ t) (comparator_ t) (file_ t) (offset_ t) (status_ t) (data_block_ t) (index_block_ t)
    (filter_block_ t) (last_key_ t) (num_entries_ t) (closed_ t) pending handle.

Definition TableBuilder_new (options : Options) (file : WritableFile) (comparator : Comparator) :
    option TableBuilder :=
  filter_block ←
    match filter_policy options with
    | Some policy => Some <$> FilterBlock.start_block (FilterBlock.FilterBlockBuilder_new policy) 0
    | None => Some None
    end;
  Some (mkTableBuilder options comparator file 0 ok
          (BlockBuilder.BlockBuilder_new (block_restart_interval options))
          (BlockBuilder.BlockBuilder_new 1) filter_block [] 0 false false BlockHandle_new).

(** The trailer of a block: its type and the checksum of both. *)
Definition block_trailer (contents : bytes) (type : CompressionType) : bytes :=
  let type_byte := Z_to_byte (CompressionType_to_Z type) in
  let crc := crc32c contents in
  let crc := crc32c_extend crc [type_byte] in
  type_byte :: encode_fixed32 crc.

(** The builder after the call, and [*handle]. *)
Definition write_raw_block (t : TableBuilder) (contents : bytes) (type : CompressionType) :
    TableBuilder * BlockHandle :=
  let handle := mkHandle (offset_ t) (size contents) in
  let '(status, file) := wf_append (file_ t) contents in
  let t := set_file t status file in
  if negb (is_ok (status_ t)) then (t, handle)
  else
    let '(status, file) := wf_append (file_ t) (block_trailer contents type) in
    let t := set_file t status file in
    if is_ok (status_ t)
    then (set_offset t (u64 (offset_ t + (size contents + kBlockTrailerSize))), handle)
    else (t, handle).

(** How a finished block is stored. *)
Definition encode_block (options : Options) (raw : bytes) (compressible : bool) :
    option (bytes * CompressionType) :=
  match compressible, compression options with
  | true, kLz =>
      compressed ← Compress.compress_block raw [];
      if size compressed <? size raw - size raw / 8 then Some (compressed, kLz) else Some (raw, kNone)
  | _, _ => Some (raw, kNone)
  end.

(** The builder, [*handle], and [*block] after [reset]. *)
Definition write_block (t : TableBuilder) (block : BlockBuilder.BlockBuilder) (compressible : bool) :
    option (TableBuilder * BlockHandle * BlockBuilder.BlockBuilder) :=
  let raw := BlockBuilder.buffer_ (BlockBuilder.finish block) in
  '(contents, type) ← encode_block (options_ t) raw compressible;
  let '(t, handle) := write_raw_block t contents type in
  Some (t, handle, BlockBuilder.reset block).

Definition flush (t : TableBuilder) : option TableBuilder :=
  if negb (is_ok (status_ t)) then Some t
  else if BlockBuilder.empty (data_block_ t) then Some t
  else
    '(t, handle, data_block) ← write_block t (data_block_ t) true;
    let t := set_pending (set_data_block t data_block) (pending_index_entry_ t) handle in
    let t :=
      if is_ok (status_ t) then
        let t := set_pending t true (pending_handle_ t) in
        let '(status, file) := wf_flush (file_ t) in set_file t status file
      else t in
    match filter_block_ t with
    | Some filter_block =>
        filter_block ← FilterBlock.start_block filter_block (offset_ t);
        Some (set_filter_block t (Some filter_block))
    | None => Some t
    end.

(** Writing the index entry of the block before, keyed by [separator]. *)
Definition add_index_entry (t : TableBuilder) (separator : bytes) : TableBuilder :=
  let t := set_last_key t separator in
  let handle_encoding := handle_encode_to (pending_handle_ t) [] in
  let t := set_index_block t (BlockBuilder.add (index_block_ t) (last_key_ t) handle_encoding) in
  set_pending t false (pending_handle_ t).

Definition add (t : TableBuilder) (key value : bytes) : option TableBuilder :=
  if negb (is_ok (status_ t)) then Some t
  else
    let t :=
      if pending_index_entry_ t
      then add_index_entry t (find_shortest_separator (comparator_ t) (last_key_ t) key) else t in
    let t := set_filter_block t ((λ b, FilterBlock.add_key b key) <$> filter_block_ t) in
    let t := set_num_entries (set_last_key t key) (u64 (num_entries_ t + 1)) in
    let t := set_data_block t (BlockBuilder.add (data_block_ t) key value) in
    if block_size (options_ t) <=? BlockBuilder.current_size_estimate (data_block_ t)
    then flush t else Some t.

(** The metaindex: at most one entry, the filter's. *)
Definition metaindex_block (t : TableBuilder) (filter_handle : BlockHandle) : BlockBuilder.BlockBuilder :=
  let block := BlockBuilder.BlockBuilder_new (block_restart_interval (options_ t)) in
  match filter_policy (options_ t), filter_block_ t with
  | Some policy, Some _ =>
      BlockBuilder.add block (string_bytes ("filter." +:+ policy_name policy)) (handle_encode_to filter_handle [])
  | _, _ => block
  end.

(** The four parts of [finish] after [flush], each guarded by [status_]. *)
Definition finish_filter (t : TableBuilder) : option (TableBuilder * BlockHandle) :=
  match is_ok (status_ t), filter_block_ t with
  | true, Some filter_block =>
      contents ← FilterBlock.finish filter_block;
      Some (write_raw_block t contents kNone)
  | _, _ => Some (t, BlockHandle_new)
  end.
Definition finish_metaindex (t : TableBuilder) (filter_handle : BlockHandle) :
    option (TableBuilder * BlockHandle) :=
  if is_ok (status_ t) then
    '(t, handle, _) ← write_block t (metaindex_block t filter_handle) false;
    Some (t, handle)
  else Some (t, BlockHandle_new).
Definition finish_index (t : TableBuilder) : option (TableBuilder * BlockHandle) :=
  if is_ok (status_ t) then
    let t :=
      if pending_index_entry_ t
      then add_index_entry t (find_short_successor (comparator_ t) (last_key_ t)) else t in
    '(t, handle, index_block) ← write_block t (index_block_ t) false;
    Some (set_index_block t index_block, handle)
  else Some (t, BlockHandle_new).
Definition finish_footer (t : TableBuilder) (metaindex_handle index_handle : BlockHandle) : TableBuilder :=
  if is_ok (status_ t) then
    let encoding := footer_encode_to (mkFooter metaindex_handle index_handle) [] in
    let '(status, file) := wf_append (file_ t) encoding in
    let t := set_file t status file in
    if is_ok (status_ t) then set_offset t (u64 (offset_ t + size encoding)) else t
  else t.

Definition finish (t : TableBuilder) : option (Status * TableBuilder) :=
  t ← flush t;
  let t := set_closed t true in
  '(t, filter_handle) ← finish_filter t;
  '(t, metaindex_handle) ← finish_metaindex t filter_handle;
  '(t, index_handle) ← finish_index t;
  let t := finish_footer t metaindex_handle index_handle in
  Some (status_ t, t).

Definition abandon (t : TableBuilder) : TableBuilder := set_closed t true.
Definition status (t : TableBuilder) : Status := status_ t.
Definition num_entries (t : TableBuilder) : Z := num_entries_ t.
Definition file_size (t : TableBuilder) : Z := offset_ t.

Fixpoint add_entries (t : TableBuilder) (l : list (bytes * bytes)) : option TableBuilder :=
  match l with
  | [] => Some t
  | (key, value) :: l' => t ← add t key value; add_entries t l'
  end.

Definition build_table (opts : Options) (file : WritableFile) (cmp : Comparator) (l : list (bytes * bytes)) :
    option (Status * TableBuilder) :=
  t ← TableBuilder_new opts file cmp;
  t ← add_entries t l;
  finish t.

(** Reads of a builder that was just updated. *)
Ltac tb_simpl :=
  cbn [mbind option_bind set_pending set_data_block set_offset set_file set_index_block set_filter_block set_last_key
       set_num_entries set_closed options_ comparator_ file_ offset_ status_ data_block_ index_block_ filter_block_
       last_key_ num_entries_ closed_ pending_index_entry_ pending_handle_];
  change (is_ok ok) with true; cbn [negb].

(** * What is built *)

(** The weight of entries bounds the block they make. *)
Definition weight (l : list (bytes * bytes)) : Z :=
  8 + foldr Z.add 0 ((λ '(key, value), size key + size value + 20) <$> l).

Lemma weight_cons key value l : weight ((key, value) :: l) = weight l + (size key + size value + 20).
Proof. unfold weight. cbn [fmap list_fmap foldr]. unfold fmap. lia. Qed.
Lemma weight_nil : weight [] = 8.
Proof. done. Qed.
Lemma weight_snoc l key value : weight (l ++ [(key, value)]) = weight l + (size key + size value + 20).
Proof. induction l as [|[k v] l IH]; [cbn [app]; by rewrite weight_cons|]. rewrite <- app_comm_cons, !weight_cons. lia. Qed.
Lemma weight_app a b : weight (a ++ b) = weight a + weight b - 8.
Proof. induction a as [|[k v] a IH]; [rewrite weight_nil; cbn [app]; lia|]. rewrite <- app_comm_cons, !weight_cons. lia. Qed.
Lemma weight_ge l : 8 + 20 * Z.of_nat (length l) <= weight l.
Proof.
  induction l as [|[k v] l IH]; [done|]. rewrite weight_cons. pose proof (size_nonneg k). pose proof (size_nonneg v).
  cbn [length]. lia.
Qed.

Lemma varint32_size v : 0 <= v < 2 ^ 32 -> size (varint_loop 10 v) <= 5.
Proof.
  intros H. unfold size. destruct (varint_loop_length 10 5 v); [lia| |lia].
  change (2 ^ (7 * Z.of_nat 5)) with (2 ^ 35). lia.
Qed.
Lemma enc_size e : size (BlockBuilder.enc e) <= 15 + size (BlockBuilder.e_key e) + size (BlockBuilder.e_value e).
Proof.
  rewrite BlockBuilder.size_enc.
  pose proof (varint32_size _ (u32_range (Z.of_nat (BlockBuilder.e_shared e)))).
  pose proof (varint32_size _ (u32_range (Z.of_nat (length (BlockBuilder.e_key e) - BlockBuilder.e_shared e)))).
  pose proof (varint32_size _ (u32_range (size (BlockBuilder.e_value e)))).
  assert (Z.of_nat (length (BlockBuilder.e_key e) - BlockBuilder.e_shared e) <= size (BlockBuilder.e_key e)) by (unfold size; lia).
  lia.
Qed.
Lemma encs_weight es :
  size (BlockBuilder.encs es) + 5 * Z.of_nat (length es) + 8 <= weight (BlockBuilder.kv <$> es).
Proof.
  induction es as [|e es IH]; [done|]. change (BlockBuilder.encs (e :: es)) with (BlockBuilder.enc e ++ BlockBuilder.encs es).
  rewrite size_app, fmap_cons. pose proof (enc_size e). unfold BlockBuilder.kv at 1. rewrite weight_cons. cbn [length]. lia.
Qed.
Lemma restarts_bound es ridx : BlockBuilder.layout es ridx -> (length ridx <= Nat.max 1 (length es))%nat.
Proof.
  intros L. rewrite <- (length_seq (Nat.max 1 (length es)) 0).
  assert (NoDup ridx) as ND.
  { pose proof (BlockBuilder.layout_sorted _ _ L) as S. clear L. induction S as [|a l S IH F]; [constructor|].
    apply NoDup_cons. split; [|done]. intros Ha. rewrite Forall_forall in F. specialize (F a Ha). lia. }
  apply submseteq_length, NoDup_submseteq; [done|]. intros r Hr. apply elem_of_seq.
  pose proof (BlockBuilder.layout_range _ _ L r Hr). lia.
Qed.
Lemma raw_block_size interval l :
  1 <= interval ->
  size (BlockBuilder.buffer_ (BlockBuilder.finish (BlockBuilder.add_all (BlockBuilder.BlockBuilder_new interval) l))) <= weight l.
Proof.
  intros Hi. destruct (BlockBuilder.build_layout interval l Hi) as (es & ridx & L & <- & ->).
  rewrite BlockBuilder.size_block_bytes. pose proof (encs_weight es). pose proof (restarts_bound es ridx L). lia.
Qed.

Lemma trailer_stored contents type : contents ++ block_trailer contents type = stored_block contents type.
Proof. unfold block_trailer, stored_block, crc32c. by rewrite crc32c_extend_app. Qed.

(** A data block that has been written: its entries, and how they are stored. *)
Record DataBlock := mkData {
  db_entries : list (bytes * bytes);
  db_contents : bytes;
  db_type : CompressionType
}.
Definition chunk (b : DataBlock) : bytes := stored_block (db_contents b) (db_type b).
Definition chunks (done : list DataBlock) : bytes := done ≫= chunk.
Definition all_entries (done : list DataBlock) : list (bytes * bytes) := done ≫= db_entries.
Definition handle_at (done : list DataBlock) (i : nat) : BlockHandle :=
  mkHandle (u64 (size (chunks (take i done)))) (default 0 (size ∘ db_contents <$> done !! i)).
Definition index_of (seps : list bytes) (done : list DataBlock) : list (bytes * bytes) :=
  imap (λ i sep, (sep, handle_encode_to (handle_at done i) [])) seps.
Definition filter_blocks (done : list DataBlock) : list (Z * list bytes) :=
  imap (λ i b, (u64 (size (chunks (take i done))), (db_entries b).*1)) done.

Lemma chunks_app a b : chunks (a ++ b) = chunks a ++ chunks b.
Proof. apply bind_app. Qed.
Lemma all_entries_app a b : all_entries (a ++ b) = all_entries a ++ all_entries b.
Proof. apply bind_app. Qed.
Lemma chunks_one b : chunks [b] = chunk b.
Proof. apply app_nil_r. Qed.
Lemma chunks_snoc_size done b :
  size (chunks (done ++ [b])) = size (chunks done) + (size (db_contents b) + kBlockTrailerSize).
Proof. rewrite chunks_app, chunks_one, size_app. unfold chunk. by rewrite stored_block_size. Qed.
Lemma all_entries_one b : all_entries [b] = db_entries b.
Proof. apply app_nil_r. Qed.
Lemma handle_at_app done more i : (i < length done)%nat -> handle_at (done ++ more) i = handle_at done i.
Proof.
  intros H. unfold handle_at. rewrite take_app_le by lia. by rewrite lookup_app_l.
Qed.
Lemma index_of_app seps done more : (length seps <= length done)%nat -> index_of seps (done ++ more) = index_of seps done.
Proof.
  intros H. apply imap_ext. intros i sep Hi. apply lookup_lt_Some in Hi. by rewrite handle_at_app by lia.
Qed.
Lemma index_of_snoc seps done sep :
  index_of (seps ++ [sep]) done = index_of seps done ++ [(sep, handle_encode_to (handle_at done (length seps)) [])].
Proof. unfold index_of. rewrite imap_app. cbn. by rewrite Nat.add_0_r. Qed.
Lemma filter_blocks_snoc done b :
  filter_blocks (done ++ [b]) = filter_blocks done ++ [(u64 (size (chunks done)), (db_entries b).*1)].
Proof.
  unfold filter_blocks. rewrite imap_app. cbn. rewrite Nat.add_0_r, take_app_length. f_equal.
  apply imap_ext. intros i x Hi. apply lookup_lt_Some in Hi. by rewrite take_app_le by lia.
Qed.

Lemma add_all_snoc b l key value :
  BlockBuilder.add_all b (l ++ [(key, value)]) = BlockBuilder.add (BlockBuilder.add_all b l) key value.
Proof. unfold BlockBuilder.add_all. by rewrite fold_left_app. Qed.
Lemma add_interval b key value :
  BlockBuilder.restart_interval_ (BlockBuilder.add b key value) = BlockBuilder.restart_interval_ b.
Proof. unfold BlockBuilder.add. by destruct (_ <? _). Qed.
Lemma add_all_interval b l :
  BlockBuilder.restart_interval_ (BlockBuilder.add_all b l) = BlockBuilder.restart_interval_ b.
Proof.
  induction l as [|[k v] l IH] using rev_ind; [done|]. by rewrite add_all_snoc, add_interval.
Qed.
Lemma reset_add_all r l :
  BlockBuilder.reset (BlockBuilder.add_all (BlockBuilder.BlockBuilder_new r) l) = BlockBuilder.BlockBuilder_new r.
Proof. unfold BlockBuilder.reset at 1. by rewrite add_all_interval. Qed.
Lemma empty_add_all r l : 1 <= r ->
  BlockBuilder.empty (BlockBuilder.add_all (BlockBuilder.BlockBuilder_new r) l) = bool_decide (l = []).
Proof.
  intros Hr. destruct (BlockBuilder.builds_add_all _ _ _ l (BlockBuilder.builds_new r Hr)) as (es & ridx & B & E).
  unfold BlockBuilder.empty. rewrite (BlockBuilder.builds_entries _ _ _ B). rewrite app_nil_l in E.
  destruct l as [|e l]; [apply fmap_nil_inv in E as ->; done|]. destruct es; [done|].
  rewrite bool_decide_false by done. apply Z.eqb_neq. cbn [length]. lia.
Qed.

Section Building.
Context (cmp : Comparator) `{!ComparatorLaws cmp} (g : bytes -> bytes) `{!Grouping cmp g} (opts : Options).
Context (Hinterval : 1 <= block_restart_interval opts).
Context (Hpolicy : forall p, filter_policy opts = Some p -> FilterPolicyLaws p).

Definition raw_block (l : list (bytes * bytes)) : bytes :=
  BlockBuilder.buffer_ (BlockBuilder.finish
    (BlockBuilder.add_all (BlockBuilder.BlockBuilder_new (block_restart_interval opts)) l)).
Definition encoded (b : DataBlock) : Prop :=
  db_entries b <> [] /\ encode_block opts (raw_block (db_entries b)) true = Some (db_contents b, db_type b).

(** [k] comes after the separator [sep] of block [b], and no key between the two
    is of its group. *)
Definition behind (b : DataBlock) (sep k : bytes) : Prop :=
  key_lt cmp sep k /\
  forall k0, (forall x v, (x, v) ∈ db_entries b -> key_lt cmp x k0) -> key_le cmp k0 sep -> g k0 <> g k.
(** The separators written so far: each at or after its block, before what
    follows. *)
Definition separates (seps : list bytes) (done : list DataBlock) (cur : list (bytes * bytes)) : Prop :=
  forall i sep b, seps !! i = Some sep -> done !! i = Some b -> readable cmp sep /\
    (forall k v, (k, v) ∈ db_entries b -> key_le cmp k sep) /\
    (forall j b' k v, (i < j)%nat -> done !! j = Some b' -> (k, v) ∈ db_entries b' -> behind b sep k) /\
    (forall k v, (k, v) ∈ cur -> behind b sep k).

Record building (t : TableBuilder) (done : list DataBlock) (seps : list bytes) (cur : list (bytes * bytes)) : Prop := {
  bi_options : options_ t = opts;
  bi_comparator : comparator_ t = cmp;
  bi_status : status_ t = ok;
  bi_file : wf_healthy (file_ t);
  bi_contents : wf_contents (file_ t) = chunks done;
  bi_offset : offset_ t = u64 (size (chunks done));
  bi_done : Forall encoded done;
  bi_data : data_block_ t =
    BlockBuilder.add_all (BlockBuilder.BlockBuilder_new (block_restart_interval opts)) cur;
  bi_index : index_block_ t = BlockBuilder.add_all (BlockBuilder.BlockBuilder_new 1) (index_of seps done);
  bi_pending : if pending_index_entry_ t
    then S (length seps) = length done /\ cur = [] /\ pending_handle_ t = handle_at done (length seps)
    else length seps = length done /\ (cur = [] -> done = []);
  bi_last : last_key_ t = default [] (fst <$> last (all_entries done ++ cur));
  bi_filter : match filter_policy opts with
    | None => filter_block_ t = None
    | Some p => exists b, filter_block_ t = Some b /\
        FilterBlock.build_blocks (FilterBlock.FilterBlockBuilder_new p)
          (filter_blocks done ++ [(offset_ t, cur.*1)]) = Some b
    end;
  bi_separates : separates seps done cur
}.

Lemma write_raw_spec t contents type :
  wf_healthy (file_ t) ->
  exists file, write_raw_block t contents type =
      (set_offset (set_file t ok file) (u64 (offset_ t + (size contents + kBlockTrailerSize))),
       mkHandle (offset_ t) (size contents)) /\
    wf_healthy file /\ wf_contents file = wf_contents (file_ t) ++ stored_block contents type.
Proof using.
  intros H. unfold write_raw_block.
  destruct (wf_append_ok (file_ t) contents H) as (f1 & E1 & H1 & C1). rewrite E1. cbn [status_ set_file is_ok negb file_].
  destruct (wf_append_ok f1 (block_trailer contents type) H1) as (f2 & E2 & H2 & C2). rewrite E2.
  exists f2. split_and!; [done|done|]. by rewrite C2, C1, <- app_assoc, trailer_stored.
Qed.

Lemma encode_total raw compressible :
  size raw < 2 ^ 32 -> exists contents type, encode_block opts raw compressible = Some (contents, type).
Proof using.
  intros H. unfold encode_block.
  destruct compressible; [|eauto]. destruct (compression opts); [eauto|].
  destruct (Compress.compressed_decodes raw [] H) as (written & body & -> & _). cbn [mbind option_bind].
  destruct (_ <? _); eauto.
Qed.

Lemma filter_keys done off keys :
  FilterBlock.num_keys (filter_blocks done ++ [(off, keys)]) = (length (all_entries done) + length keys)%nat.
Proof using.
  rewrite FilterBlock.num_keys_app. f_equal; [|cbn; lia].
  induction done as [|b done IH] using rev_ind; [done|].
  rewrite filter_blocks_snoc, FilterBlock.num_keys_app, IH, all_entries_app, all_entries_one, length_app.
  f_equal. cbn. rewrite length_fmap. lia.
Qed.
Lemma filter_start p b done off keys off' :
  FilterPolicyLaws p -> Z.of_nat (length (all_entries done) + length keys) < 2 ^ 32 ->
  FilterBlock.build_blocks (FilterBlock.FilterBlockBuilder_new p) (filter_blocks done ++ [(off, keys)]) = Some b ->
  exists b', FilterBlock.start_block b off' = Some b' /\
    FilterBlock.build_blocks (FilterBlock.FilterBlockBuilder_new p) ((filter_blocks done ++ [(off, keys)]) ++ [(off', [])]) = Some b'.
Proof using.
  intros Hp Hn E. destruct (FilterBlock.build_blocks_total p 0 (FilterBlock.FilterBlockBuilder_new p)
    (filter_blocks done ++ [(off, keys)])) as (b0 & E0 & U); [by split|by rewrite filter_keys|].
  rewrite E in E0. injection E0 as <-. rewrite filter_keys in U.
  destruct (FilterBlock.build_block_total p _ b (off', []) U Hn) as (b' & Eb & _).
  assert (FilterBlock.start_block b off' = Some b') as Es.
  { unfold FilterBlock.build_block in Eb. cbn [fst snd] in Eb. destruct (FilterBlock.start_block b off'); [|done]. exact Eb. }
  exists b'. split; [done|]. rewrite FilterBlock.build_blocks_app, E. cbn [mbind option_bind FilterBlock.build_blocks].
  by rewrite Eb.
Qed.
Lemma filter_add p b done off keys key :
  FilterBlock.build_blocks (FilterBlock.FilterBlockBuilder_new p) (filter_blocks done ++ [(off, keys)]) = Some b ->
  FilterBlock.build_blocks (FilterBlock.FilterBlockBuilder_new p) (filter_blocks done ++ [(off, keys ++ [key])]) =
    Some (FilterBlock.add_key b key).
Proof using.
  rewrite !FilterBlock.build_blocks_app. destruct (FilterBlock.build_blocks _ (filter_blocks done)) as [b0|]; [|done].
  cbn [mbind option_bind FilterBlock.build_blocks]. unfold FilterBlock.build_block. cbn [fst snd].
  destruct (FilterBlock.start_block b0 off) as [b1|]; [|done]. cbn [mbind option_bind].
  intros [= <-]. by rewrite fold_left_app.
Qed.

Lemma separates_done seps done cur b :
  db_entries b = cur -> (length seps <= length done)%nat -> separates seps done cur -> separates seps (done ++ [b]) [].
Proof using.
  intros Eb Hl S i sep b0 Hi Hb0. rewrite lookup_app_l in Hb0 by (apply lookup_lt_Some in Hi; lia).
  destruct (S i sep b0 Hi Hb0) as (R & A & B & C). split_and!; [done|done| |by intros k v ?%not_elem_of_nil].
  intros j b' k v Hj Hb Hk. apply lookup_app_Some in Hb as [Hb|[Hge Hb]]; [by eapply B|].
  apply list_lookup_singleton_Some in Hb as [_ <-]. rewrite Eb in Hk. by eapply C.
Qed.

Lemma flush_spec t done seps cur :
  building t done seps cur -> weight (all_entries done ++ cur) < 2 ^ 32 -> cur <> [] ->
  exists t' b, flush t = Some t' /\ db_entries b = cur /\ building t' (done ++ [b]) seps [] /\
    pending_index_entry_ t' = true.
Proof using Hinterval Hpolicy.
  intros [B1 B2 B3 B4 B5 B6 B7 B8 B9 B10 B11 B12 B13] Hw Hc.
  assert (weight cur < 2 ^ 32) as Hwc.
  { rewrite weight_app in Hw. pose proof (weight_ge (all_entries done)). lia. }
  assert (Z.of_nat (length (all_entries done ++ cur)) < 2 ^ 32) as Hn.
  { pose proof (weight_ge (all_entries done ++ cur)). lia. }
  unfold flush. rewrite B3. cbn [is_ok negb]. rewrite B8, empty_add_all, bool_decide_false by done.
  unfold write_block. rewrite B1, <- B8.
  change (BlockBuilder.buffer_ (BlockBuilder.finish (data_block_ t))) with (BlockBuilder.buffer_ (BlockBuilder.finish (data_block_ t))).
  rewrite B8. fold (raw_block cur).
  pose proof (raw_block_size (block_restart_interval opts) cur Hinterval) as Hr. fold (raw_block cur) in Hr.
  destruct (encode_total (raw_block cur) true ltac:(lia)) as (contents & type & Ee). rewrite Ee. cbn [mbind option_bind].
  destruct (write_raw_spec t contents type B4) as (file & -> & H1 & C1).
  tb_simpl.
  rewrite reset_add_all.
  assert (exists file', wf_flush file = (ok, file') /\ wf_healthy file' /\ wf_contents file' = wf_contents file) as (file' & Ef & H2 & C2).
  { destruct H1 as [Ho Hf]. unfold wf_flush, wf_next_fault. rewrite Ho, Hf. cbn. eexists. split; [done|].
    split; [by split|]. unfold wf_contents; cbn. by rewrite app_nil_r. }
  tb_simpl. rewrite Ef. tb_simpl. set (b := mkData cur contents type).
  pose (off' := u64 (offset_ t + (size contents + kBlockTrailerSize))).
  assert (off' = u64 (size (chunks (done ++ [b])))) as Eoff.
  { unfold off'. rewrite B6, chunks_snoc_size. apply Zplus_mod_idemp_l. }
  assert (length seps = length done) as Hls.
  { destruct (pending_index_entry_ t); [by destruct B10 as (_ & ? & _)|by destruct B10]. }
  assert (handle_at (done ++ [b]) (length seps) = mkHandle (offset_ t) (size contents)) as Eh.
  { unfold handle_at. rewrite Hls, take_app_length, lookup_app_r, Nat.sub_diag by lia. cbn. by rewrite B6. }
  assert (forall fb, match filter_policy opts with
    | None => fb = None
    | Some p => exists b', fb = Some b' /\ FilterBlock.build_blocks (FilterBlock.FilterBlockBuilder_new p)
          (filter_blocks (done ++ [b]) ++ [(off', [])]) = Some b'
    end -> building (set_filter_block (mkTableBuilder (options_ t) (comparator_ t) file' off' ok
      (BlockBuilder.BlockBuilder_new (block_restart_interval opts)) (index_block_ t) (filter_block_ t) (last_key_ t)
      (num_entries_ t) (closed_ t) true (mkHandle (offset_ t) (size contents))) fb) (done ++ [b]) seps []) as Hb.
  { intros fb Hfb. split; try done; cbn.
    - by rewrite C2, C1, B5, chunks_app, chunks_one.
    - apply Forall_app. split; [done|]. by apply Forall_singleton.
    - by rewrite index_of_app by lia.
    - rewrite length_app, Eh. split_and!; [cbn [length]; lia|done|done].
    - rewrite B11, all_entries_app, all_entries_one, app_nil_r. done.
    - apply (separates_done _ _ cur); [done|lia|done]. }
  destruct (filter_policy opts) as [p|] eqn:Ep.
  - destruct B12 as (fb & -> & Eb). rewrite B6 in Eb.
    destruct (filter_start p fb done (u64 (size (chunks done))) cur.*1 off') as (fb' & Es & Eb'); [by apply Hpolicy| |done|].
    { rewrite length_fmap. by rewrite length_app in Hn. }
    tb_simpl. fold off'. rewrite Es. tb_simpl. eexists _, b. split_and!; [done|done| |done].
    apply (Hb (Some fb')). exists fb'. split; [done|]. rewrite filter_blocks_snoc. exact Eb'.
  - pose proof (Hb (filter_block_ t) B12) as Hb'. rewrite B12. eexists _, b. split_and!; [done|done|exact Hb'|done].
Qed.

Lemma sorted_before l1 l2 e e' :
  sorted_by cmp (l1 ++ l2) -> e ∈ l1 -> e' ∈ l2 -> key_lt cmp e.1 e'.1.
Proof using.
  unfold sorted_by. rewrite fmap_app. intros S H1 H2. apply StronglySorted_app_1_elem_of with (1 := S);
    apply list_elem_of_fmap; eauto.
Qed.
Lemma block_elem done j b e : done !! j = Some b -> e ∈ db_entries b -> e ∈ all_entries done.
Proof using. intros Hj He. apply list_elem_of_bind. exists b. split; [done|]. by eapply list_elem_of_lookup_2. Qed.

(** A key after everything so far is after every separator that has something
    behind it. *)
Lemma behind_later b sep k k' :
  readable cmp sep -> readable cmp k -> behind b sep k -> key_lt cmp k k' -> behind b sep k'.
Proof using ComparatorLaws0 Grouping0.
  intros Rs Rk [H1 H2] Hlt. split; [by eapply key_lt_trans|]. intros k0 Hk0 Hle E. apply (H2 k0 Hk0 Hle).
  symmetry. apply (group_convex (c := cmp) k0 k k'); [|by apply key_lt_le|done].
  intros Hgt. apply Hle. revert H1 Hgt. unfold key_lt. intros H1 Hgt.
  pose proof (cmp_antisym k0 k) as A. rewrite Hgt in A. cbn in A.
  pose proof (cmp_trans sep k k0 H1 A) as B. unfold key_lt in B. rewrite cmp_antisym, B. done.
Qed.
Lemma separates_key seps done cur key value :
  separates seps done cur -> Forall encoded done ->
  sorted_by cmp ((all_entries done ++ cur) ++ [(key, value)]) ->
  Forall (λ e, readable cmp e.1) ((all_entries done ++ cur) ++ [(key, value)]) ->
  (forall i, (i < length seps)%nat -> cur <> [] \/ (S i < length done)%nat) ->
  separates seps done (cur ++ [(key, value)]).
Proof using ComparatorLaws0 Grouping0.
  intros S F Hs Hr Hlater i sep b Hi Hb. destruct (S i sep b Hi Hb) as (R & A & B & C). split_and!; [done..|].
  intros k v [Hk|Hk%list_elem_of_singleton]%elem_of_app; [by eapply C|]. injection Hk as -> ->.
  assert (exists k' v', behind b sep k' /\ (k', v') ∈ all_entries done ++ cur) as (k' & v' & Hlt & Hin).
  { destruct (Hlater i) as [Hc|Hd]; [by eapply lookup_lt_Some| |].
    - destruct cur as [|[k' v'] cur']; [done|]. exists k', v'. split; [apply (C k' v'); apply elem_of_cons; by left|].
      apply elem_of_app. right. apply elem_of_cons. by left.
    - destruct (lookup_lt_is_Some_2 done (Datatypes.S i) Hd) as [b' Hb'].
      assert (encoded b') as [Hne _] by (rewrite Forall_lookup in F; by eapply F).
      destruct (db_entries b') as [|[k' v'] es] eqn:Eb; [done|]. exists k', v'.
      assert ((k', v') ∈ db_entries b') as Hin by (rewrite Eb; apply elem_of_cons; by left).
      split; [eapply (B _ b' k' v' ltac:(apply Nat.lt_succ_diag_r) Hb' Hin)|]. apply elem_of_app. left. by eapply block_elem. }
  apply (behind_later b sep k'); [done| |done|].
  - apply Forall_app in Hr as [Hr _]. rewrite Forall_forall in Hr. by apply (Hr (k', v')).
  - apply (sorted_before _ _ (k', v') (key, value) Hs Hin). by apply list_elem_of_singleton.
Qed.

Definition last_key_of (l : list (bytes * bytes)) : bytes := default [] (fst <$> last l).
(** One more separator, at or after the last key of the block it is for. *)
Lemma separates_snoc seps done b cur sep :
  separates seps (done ++ [b]) cur -> length seps = length done -> encoded b ->
  sorted_by cmp (all_entries (done ++ [b])) -> Forall (λ e, readable cmp e.1) (all_entries (done ++ [b])) ->
  readable cmp sep -> key_le cmp (last_key_of (all_entries (done ++ [b]))) sep ->
  (forall k v, (k, v) ∈ cur -> behind b sep k) -> separates (seps ++ [sep]) (done ++ [b]) cur.
Proof using ComparatorLaws0.
  intros S Hl [Hne _] Hs Hr Rs Ls Us.
  destruct (db_entries b) as [|[kl vl] es _] eqn:Eb using rev_ind; [done|]. clear Hne.
  rewrite all_entries_app, all_entries_one, Eb, app_assoc in Hs, Hr, Ls.
  unfold last_key_of in Ls. rewrite last_snoc in Ls. cbn in Ls.
  rewrite Forall_app, Forall_singleton in Hr. destruct Hr as [Hr Hrl]. cbn [fst] in Hrl.
  intros i sep' b' [Hi|[Hge Hi]]%lookup_app_Some Hb; [by apply S|].
  apply list_lookup_singleton_Some in Hi as [Ei <-]. assert (i = length done) as -> by lia.
  rewrite lookup_app_r, Nat.sub_diag in Hb by lia. injection Hb as <-. split_and!; [done| | |done].
  - intros k v Hk. rewrite Eb in Hk.
    apply elem_of_app in Hk as [Hk|Hk%list_elem_of_singleton]; [|by injection Hk as -> ->].
    apply key_lt_le. eapply key_lt_le_trans; [exact Hrl|exact Rs| |exact Ls].
    apply (sorted_before _ _ (k, v) (kl, vl) Hs); [apply elem_of_app; by right|by apply list_elem_of_singleton].
  - intros j b' k v Hj Hb. apply lookup_lt_Some in Hb. rewrite length_app in Hb. cbn in Hb. lia.
Qed.
(** The last key of the blocks is in the last block. *)
Lemma last_key_block done b : encoded b -> exists v, (last_key_of (all_entries (done ++ [b])), v) ∈ db_entries b.
Proof using.
  intros [Hne _]. destruct (db_entries b) as [|[kl vl] es _] eqn:Eb using rev_ind; [done|]. exists vl.
  rewrite all_entries_app, all_entries_one, Eb, app_assoc. unfold last_key_of. rewrite last_snoc. cbn.
  apply elem_of_app. right. by apply list_elem_of_singleton.
Qed.
Lemma last_key_elem l : l <> [] -> exists e, e ∈ l /\ last_key_of l = e.1.
Proof using.
  intros Hl. destruct l as [|e l _] using rev_ind; [done|]. exists e. split; [apply elem_of_app; right; by apply list_elem_of_singleton|].
  unfold last_key_of. by rewrite last_snoc.
Qed.
Lemma blocks_nonempty done b : encoded b -> all_entries (done ++ [b]) <> [].
Proof using. intros [Hne _]. rewrite all_entries_app, all_entries_one. by destruct (all_entries done). Qed.

(** The builder before the block is perhaps closed. *)
Definition added (t : TableBuilder) (key value : bytes) : TableBuilder :=
  let t := if pending_index_entry_ t
           then add_index_entry t (find_shortest_separator (comparator_ t) (last_key_ t) key) else t in
  let t := set_filter_block t ((λ b, FilterBlock.add_key b key) <$> filter_block_ t) in
  let t := set_num_entries (set_last_key t key) (u64 (num_entries_ t + 1)) in
  set_data_block t (BlockBuilder.add (data_block_ t) key value).

Lemma added_spec t done seps cur key value :
  building t done seps cur ->
  sorted_by cmp ((all_entries done ++ cur) ++ [(key, value)]) ->
  Forall (λ e, readable cmp e.1) ((all_entries done ++ cur) ++ [(key, value)]) ->
  exists seps', building (added t key value) done seps' (cur ++ [(key, value)]).
Proof using ComparatorLaws0 Grouping0 Hpolicy.
  intros [B1 B2 B3 B4 B5 B6 B7 B8 B9 B10 B11 B12 B13] Hs Hr.
  assert (match filter_policy opts with
    | None => (λ b, FilterBlock.add_key b key) <$> filter_block_ t = None
    | Some p => exists b, (λ b, FilterBlock.add_key b key) <$> filter_block_ t = Some b /\
        FilterBlock.build_blocks (FilterBlock.FilterBlockBuilder_new p)
          (filter_blocks done ++ [(offset_ t, (cur ++ [(key, value)]).*1)]) = Some b
    end) as Bf.
  { destruct (filter_policy opts) as [p|]; [|by rewrite B12]. destruct B12 as (b & -> & Eb).
    eexists. split; [done|]. rewrite fmap_app. by apply filter_add. }
  assert (last_key_ (added t key value) = default [] (fst <$> last (all_entries done ++ cur ++ [(key, value)]))) as Bl.
  { rewrite app_assoc, last_snoc. unfold added. by destruct (pending_index_entry_ t). }
  unfold added in *. destruct (pending_index_entry_ t) eqn:Ep.
  - destruct B10 as (Hl & -> & Hh). destruct done as [|b done' _] using rev_ind; [done|].
    rewrite length_app in Hl. cbn [length] in Hl. rewrite app_nil_r in *.
    apply Forall_app in B7 as B7'. destruct B7' as [_ Hb]. rewrite Forall_singleton in Hb.
    destruct (last_key_elem _ (blocks_nonempty done' b Hb)) as (el & Hel & El).
    destruct (cmp_separator el.1 key) as (Rs & Ls & Us).
    { apply Forall_app in Hr as [Hr _]. rewrite Forall_forall in Hr. by apply Hr. }
    { rewrite Forall_app, Forall_singleton in Hr. by destruct Hr. }
    { apply (sorted_before _ _ el (key, value) Hs Hel). by apply list_elem_of_singleton. }
    exists (seps ++ [find_shortest_separator cmp (last_key_of (all_entries (done' ++ [b]))) key]).
    split; try done; cbn [app].
    + transitivity (BlockBuilder.add (data_block_ t) key value); [done|by rewrite B8].
    + rewrite index_of_snoc, add_all_snoc. cbn. by rewrite B9, B2, B11, Hh.
    + cbn. rewrite !length_app. cbn. split; [lia|done].
    + apply separates_snoc; [|lia|done|..].
      * apply (separates_key _ _ []); [done|done|by rewrite app_nil_r..|].
        intros i Hi. right. rewrite length_app. cbn. lia.
      * unfold sorted_by in *. rewrite fmap_app in Hs. by apply StronglySorted_app_1_l in Hs.
      * by apply Forall_app in Hr as [? _].
      * by rewrite El.
      * by rewrite El.
      * intros k v Hk%list_elem_of_singleton. injection Hk as -> ->. rewrite El. split; [done|].
        intros k0 Hk0. destruct (last_key_block done' b Hb) as (vl & Hin). rewrite El in Hin.
        apply group_separator; [|by eapply Hk0].
        apply (sorted_before _ _ el (key, value) Hs Hel). by apply list_elem_of_singleton.
  - destruct B10 as (Hl & Hc). exists seps. split; try done.
    + rewrite add_all_snoc. cbn. by rewrite B8.
    + cbn. rewrite Ep. split; [done|]. by destruct cur.
    + apply separates_key; [done..|]. intros i Hi. left. intros ->. rewrite Hc in Hl by done. cbn in Hl. lia.
Qed.

Lemma add_spec t done seps cur key value :
  building t done seps cur ->
  sorted_by cmp ((all_entries done ++ cur) ++ [(key, value)]) ->
  Forall (λ e, readable cmp e.1) ((all_entries done ++ cur) ++ [(key, value)]) ->
  weight ((all_entries done ++ cur) ++ [(key, value)]) < 2 ^ 32 ->
  exists t' done' seps' cur', add t key value = Some t' /\ building t' done' seps' cur' /\
    all_entries done' ++ cur' = (all_entries done ++ cur) ++ [(key, value)].
Proof using ComparatorLaws0 Grouping0 Hinterval Hpolicy.
  intros B Hs Hr Hw. destruct (added_spec t done seps cur key value B Hs Hr) as (seps1 & B1).
  unfold add. rewrite (bi_status _ _ _ _ B). change (is_ok ok) with true. cbn [negb].
  fold (added t key value).
  change (set_data_block _ _) with (added t key value).
  destruct (_ <=? _).
  - destruct (flush_spec _ _ _ _ B1) as (t' & b & E & Eb & B2 & _); [by rewrite app_assoc|by destruct cur|].
    exists t', (done ++ [b]), seps1, []. split_and!; [exact E|done|].
    by rewrite all_entries_app, all_entries_one, Eb, app_nil_r, app_assoc.
  - exists (added t key value), done, seps1, (cur ++ [(key, value)]). split_and!; [done|done|]. by rewrite app_assoc.
Qed.

Lemma add_entries_spec l t done seps cur :
  building t done seps cur -> sorted_by cmp ((all_entries done ++ cur) ++ l) ->
  Forall (λ e, readable cmp e.1) ((all_entries done ++ cur) ++ l) ->
  weight ((all_entries done ++ cur) ++ l) < 2 ^ 32 ->
  exists t' done' seps' cur', add_entries t l = Some t' /\ building t' done' seps' cur' /\
    all_entries done' ++ cur' = (all_entries done ++ cur) ++ l.
Proof using ComparatorLaws0 Grouping0 Hinterval Hpolicy.
  revert t done seps cur. induction l as [|[key value] l IH]; intros t done seps cur B Hs Hr Hw.
  - exists t, done, seps, cur. split_and!; [done|done|]. by rewrite app_nil_r.
  - rewrite (cons_middle (key, value)), app_assoc in Hs, Hr, Hw.
    destruct (add_spec t done seps cur key value B) as (t1 & done1 & seps1 & cur1 & E & B1 & Ea).
    + unfold sorted_by in *. rewrite fmap_app in Hs. by apply StronglySorted_app_1_l in Hs.
    + by apply Forall_app in Hr as [? _].
    + rewrite weight_app in Hw. pose proof (weight_ge l). lia.
    + rewrite <- Ea in Hs, Hr, Hw. destruct (IH t1 done1 seps1 cur1 B1 Hs Hr Hw) as (t' & done' & seps' & cur' & E' & B' & Ea').
      exists t', done', seps', cur'. cbn [add_entries]. rewrite E. cbn [mbind option_bind]. split_and!; [done|done|].
      by rewrite Ea', Ea, <- app_assoc.
Qed.

Lemma new_spec file :
  wf_healthy file -> wf_contents file = [] ->
  exists t, TableBuilder_new opts file cmp = Some t /\ building t [] [] [].
Proof using Hpolicy.
  intros H C. unfold TableBuilder_new.
  assert (building (mkTableBuilder opts cmp file 0 ok (BlockBuilder.BlockBuilder_new (block_restart_interval opts))
    (BlockBuilder.BlockBuilder_new 1)
    match filter_policy opts with Some p => Some (FilterBlock.FilterBlockBuilder_new p) | None => None end
    [] 0 false false BlockHandle_new) [] [] []) as B.
  { split; try done; cbn.
    destruct (filter_policy opts) as [p|]; [|done]. by exists (FilterBlock.FilterBlockBuilder_new p). }
  destruct (filter_policy opts) as [p|] eqn:Ep; cbn; (eexists; split; [done|exact B]).
Qed.

(** ** The finished file *)
Definition filter_part (filter : option bytes) : bytes :=
  match filter with Some contents => stored_block contents kNone | None => [] end.
Definition filter_name (policy : FilterPolicy) : bytes := string_bytes ("filter." +:+ policy_name policy).
Definition metaindex_entries (done : list DataBlock) (filter : option bytes) : list (bytes * bytes) :=
  match filter_policy opts, filter with
  | Some policy, Some contents =>
      [(filter_name policy, handle_encode_to (mkHandle (u64 (size (chunks done))) (size contents)) [])]
  | _, _ => []
  end.
Definition index_raw (seps : list bytes) (done : list DataBlock) : bytes :=
  BlockBuilder.buffer_ (BlockBuilder.finish
    (BlockBuilder.add_all (BlockBuilder.BlockBuilder_new 1) (index_of seps done))).

(** The blocks before the metaindex, before the index, and before the footer. *)
Definition data_part (done : list DataBlock) (filter : option bytes) : bytes := chunks done ++ filter_part filter.
Definition meta_part (done : list DataBlock) (filter : option bytes) : bytes :=
  data_part done filter ++ stored_block (raw_block (metaindex_entries done filter)) kNone.
Definition index_part (seps : list bytes) (done : list DataBlock) (filter : option bytes) : bytes :=
  meta_part done filter ++ stored_block (index_raw seps done) kNone.
Definition table_footer (seps : list bytes) (done : list DataBlock) (filter : option bytes) : Footer :=
  mkFooter (mkHandle (u64 (size (data_part done filter))) (size (raw_block (metaindex_entries done filter))))
           (mkHandle (u64 (size (meta_part done filter))) (size (index_raw seps done))).
Definition table_bytes (seps : list bytes) (done : list DataBlock) (filter : option bytes) : bytes :=
  index_part seps done filter ++ footer_encode_to (table_footer seps done filter) [].

(** The filter covers every block at the offset it was written at. *)
Definition filter_of (done : list DataBlock) (filter : option bytes) : Prop :=
  match filter_policy opts with
  | None => filter = None
  | Some p => exists contents, filter = Some contents /\
      FilterBlock.build p (filter_blocks done ++ [(u64 (size (chunks done)), [])]) = Some contents
  end.

Record finished (contents : bytes) (l : list (bytes * bytes)) (seps : list bytes) (done : list DataBlock)
    (filter : option bytes) : Prop := {
  fi_bytes : contents = table_bytes seps done filter;
  fi_entries : all_entries done = l;
  fi_done : Forall encoded done;
  fi_seps : length seps = length done;
  fi_separates : separates seps done [];
  fi_filter : filter_of done filter
}.

(** [write_block] of a block that is not compressed. *)
Lemma write_plain t block :
  wf_healthy (file_ t) ->
  let raw := BlockBuilder.buffer_ (BlockBuilder.finish block) in
  exists file, write_block t block false =
      Some (set_offset (set_file t ok file) (u64 (offset_ t + (size raw + kBlockTrailerSize))),
            mkHandle (offset_ t) (size raw), BlockBuilder.reset block) /\
    wf_healthy file /\ wf_contents file = wf_contents (file_ t) ++ stored_block raw kNone.
Proof using.
  intros H raw. unfold write_block. cbn [encode_block mbind option_bind]. fold raw.
  destruct (write_raw_spec t raw kNone H) as (file & -> & Hf & C). by exists file.
Qed.
Lemma u64_size_app a contents type :
  u64 (u64 (size a) + (size contents + kBlockTrailerSize)) = u64 (size (a ++ stored_block contents type)).
Proof using. rewrite size_app, stored_block_size. apply Zplus_mod_idemp_l. Qed.

Lemma finish_filter_spec t done seps :
  building t done seps [] -> weight (all_entries done) < 2 ^ 32 ->
  exists file filter handle,
    finish_filter t = Some (set_offset (set_file t ok file) (u64 (size (data_part done filter))), handle) /\
    wf_healthy file /\ wf_contents file = data_part done filter /\ filter_of done filter /\
    metaindex_block t handle =
      BlockBuilder.add_all (BlockBuilder.BlockBuilder_new (block_restart_interval opts)) (metaindex_entries done filter).
Proof using Hpolicy.
  intros B Hw. unfold finish_filter, filter_of, metaindex_entries, metaindex_block.
  rewrite (bi_status _ _ _ _ B), (bi_options _ _ _ _ B).
  change (is_ok ok) with true. pose proof (bi_filter _ _ _ _ B) as F. unfold data_part.
  destruct (filter_policy opts) as [p|] eqn:Ep.
  - destruct F as (b & -> & Eb). rewrite (bi_offset _ _ _ _ B) in Eb. rewrite fmap_nil in Eb. pose proof (Hpolicy p eq_refl) as Hp.
    destruct (FilterBlock.build_blocks_total p 0 (FilterBlock.FilterBlockBuilder_new p)
      (filter_blocks done ++ [(u64 (size (chunks done)), [])])) as (b0 & E0 & U);
      [by split| |].
    { rewrite filter_keys. cbn [length]. pose proof (weight_ge (all_entries done)). lia. }
    rewrite Eb in E0. injection E0 as <-.
    destruct (FilterBlock.finish_total p _ b U) as [contents Ec].
    { rewrite filter_keys. cbn [length]. pose proof (weight_ge (all_entries done)). lia. }
    rewrite Ec. cbn [mbind option_bind].
    destruct (write_raw_spec t contents kNone (bi_file _ _ _ _ B)) as (file & -> & Hf & C).
    exists file, (Some contents). eexists. split_and!; [|done| | |].
    + by rewrite (bi_offset _ _ _ _ B), (u64_size_app _ _ kNone).
    + by rewrite C, (bi_contents _ _ _ _ B).
    + exists contents. split; [done|]. unfold FilterBlock.build. by rewrite Eb.
    + done.
  - rewrite F. exists (file_ t), None, BlockHandle_new. split_and!; [|apply B| |done|done].
    + cbn [filter_part]. rewrite app_nil_r. f_equal. f_equal. rewrite <- (bi_offset _ _ _ _ B).
      pose proof (bi_status _ _ _ _ B) as Est. destruct t; cbn in Est |- *. unfold set_offset, set_file; cbn. by rewrite Est.
    + cbn [filter_part]. rewrite app_nil_r. apply B.
Qed.

Lemma finish_index_spec t done seps file base closed :
  building t done seps [] -> sorted_by cmp (all_entries done) -> Forall (λ e, readable cmp e.1) (all_entries done) ->
  wf_healthy file -> wf_contents file = base ->
  exists t' seps', finish_index (set_offset (set_file (set_closed t closed) ok file) (u64 (size base))) =
      Some (t', mkHandle (u64 (size base)) (size (index_raw seps' done))) /\
    status_ t' = ok /\ wf_healthy (file_ t') /\
    wf_contents (file_ t') = base ++ stored_block (index_raw seps' done) kNone /\
    offset_ t' = u64 (size (base ++ stored_block (index_raw seps' done) kNone)) /\
    length seps' = length done /\ separates seps' done [].
Proof using ComparatorLaws0.
  intros B Hs Hr H C. set (t1 := set_offset _ _).
  assert (exists t2 seps', (if pending_index_entry_ t1 then add_index_entry t1 (find_short_successor (comparator_ t1) (last_key_ t1)) else t1) = t2 /\
    file_ t2 = file /\ offset_ t2 = u64 (size base) /\
    index_block_ t2 = BlockBuilder.add_all (BlockBuilder.BlockBuilder_new 1) (index_of seps' done) /\
    length seps' = length done /\ separates seps' done []) as (t2 & seps' & E2 & Ef & Eo & Ei & El & S).
  { pose proof (bi_pending _ _ _ _ B) as P. change (pending_index_entry_ t1) with (pending_index_entry_ t).
    destruct (pending_index_entry_ t).
    - destruct P as (Hl & _ & Hh). destruct done as [|b done' _] using rev_ind; [done|].
      rewrite length_app in Hl. cbn [length] in Hl.
      pose proof (bi_done _ _ _ _ B) as Hd. rewrite Forall_app, Forall_singleton in Hd. destruct Hd as [_ Hb].
      destruct (last_key_elem _ (blocks_nonempty done' b Hb)) as (el & Hel & Ell).
      destruct (cmp_successor el.1) as (Rs & Ls).
      { rewrite Forall_forall in Hr. by apply Hr. }
      assert (last_key_ t = el.1) as Elk.
      { rewrite (bi_last _ _ _ _ B), app_nil_r. exact Ell. }
      eexists _, (seps ++ [find_short_successor cmp el.1]). split_and!; [done|done|done| | |].
      + rewrite index_of_snoc, add_all_snoc. cbn. by rewrite (bi_index _ _ _ _ B), (bi_comparator _ _ _ _ B), Elk, Hh.
      + rewrite !length_app. cbn. lia.
      + apply separates_snoc; [apply B|lia|done..|by rewrite Ell|]. by intros k v ?%not_elem_of_nil.
    - destruct P as (Hl & _). exists t1, seps. split_and!; try done; apply B. }
  unfold finish_index. change (status_ t1) with ok. change (is_ok ok) with true. rewrite E2.
  destruct (write_plain t2 (index_block_ t2)) as (f3 & -> & H3 & C3); [by rewrite Ef|].
  cbn [mbind option_bind]. rewrite Ei, Eo in *. fold (index_raw seps' done) in *.
  eexists _, seps'. split_and!; [done|done|done| | |done|done].
  - cbn. by rewrite C3, Ef, C.
  - cbn. by rewrite (u64_size_app _ _ kNone).
Qed.

Lemma finish_spec t done seps cur :
  building t done seps cur -> sorted_by cmp (all_entries done ++ cur) ->
  Forall (λ e, readable cmp e.1) (all_entries done ++ cur) -> weight (all_entries done ++ cur) < 2 ^ 32 ->
  exists t' done' seps' filter, finish t = Some (ok, t') /\
    finished (wf_contents (file_ t')) (all_entries done ++ cur) seps' done' filter /\
    file_size t' = u64 (size (wf_contents (file_ t'))).
Proof using ComparatorLaws0 Grouping0 Hinterval Hpolicy.
  intros B Hs Hr Hw.
  assert (exists t1 done1, flush t = Some t1 /\ building t1 done1 seps [] /\ all_entries done1 = all_entries done ++ cur)
    as (t1 & done1 & E1 & B1 & Ea1).
  { destruct (decide (cur = [])) as [->|Hc].
    - exists t, done. split_and!; [|done|by rewrite app_nil_r]. unfold flush.
      rewrite (bi_status _ _ _ _ B), (bi_data _ _ _ _ B), empty_add_all by done. done.
    - destruct (flush_spec t done seps cur B Hw Hc) as (t1 & b & E & Eb & B1 & _).
      exists t1, (done ++ [b]). split_and!; [done|done|]. by rewrite all_entries_app, all_entries_one, Eb. }
  rewrite <- Ea1 in Hs, Hr, Hw |- *.
  unfold finish. rewrite E1. cbn [mbind option_bind].
  assert (building (set_closed t1 true) done1 seps []) as B2 by (destruct B1; by split).
  destruct (finish_filter_spec _ _ _ B2 Hw) as (f2 & filter & fh & E2 & H2 & C2 & Hfil & Em). rewrite E2. cbn [mbind option_bind].
  unfold finish_metaindex. cbn [status_ set_offset set_file]. change (is_ok ok) with true.
  change (metaindex_block (set_offset (set_file (set_closed t1 true) ok f2) (u64 (size (data_part done1 filter)))) fh)
    with (metaindex_block (set_closed t1 true) fh). rewrite Em.
  destruct (write_plain (set_offset (set_file (set_closed t1 true) ok f2) (u64 (size (data_part done1 filter))))
    (BlockBuilder.add_all (BlockBuilder.BlockBuilder_new (block_restart_interval opts)) (metaindex_entries done1 filter)) H2)
    as (f3 & -> & H3 & C3). cbn [mbind option_bind]. fold (raw_block (metaindex_entries done1 filter)) in *.
  cbn [file_ set_offset set_file offset_] in C3 |- *. rewrite C2 in C3. fold (meta_part done1 filter) in C3.
  rewrite (u64_size_app _ _ kNone). fold (meta_part done1 filter).
  destruct (finish_index_spec t1 done1 seps f3 (meta_part done1 filter) true B1 Hs Hr H3 C3)
    as (t4 & seps' & E4 & S4 & H4 & C4 & O4 & Hl & Hsep).
  change (set_offset (set_file (set_offset (set_file (set_closed t1 true) ok f2) (u64 (size (data_part done1 filter)))) ok f3)
    (u64 (size (meta_part done1 filter))))
    with (set_offset (set_file (set_closed t1 true) ok f3) (u64 (size (meta_part done1 filter)))).
  rewrite E4. cbn [mbind option_bind]. unfold finish_footer. rewrite S4. change (is_ok ok) with true.
  fold (table_footer seps' done1 filter). fold (index_part seps' done1 filter) in C4, O4.
  destruct (wf_append_ok (file_ t4) (footer_encode_to (table_footer seps' done1 filter) []) H4) as (f5 & -> & H5 & C5).
  tb_simpl. eexists _, done1, seps', filter. split; [done|]. cbn [file_ set_offset set_file file_size offset_].
  rewrite C4 in C5. split; [split; [done|done|apply B1|done|done|done]|].
  unfold file_size. cbn [offset_ set_offset]. rewrite C5, O4, size_app. apply Zplus_mod_idemp_l.
Qed.

(** A builder over an empty file, the entries in order, and [finish]. *)
Lemma build_table_spec file l :
  wf_healthy file -> wf_contents file = [] -> sorted_by cmp l -> Forall (λ e, readable cmp e.1) l ->
  weight l < 2 ^ 32 ->
  exists t done seps filter, build_table opts file cmp l = Some (ok, t) /\
    finished (wf_contents (file_ t)) l seps done filter /\ file_size t = u64 (size (wf_contents (file_ t))).
Proof using ComparatorLaws0 Grouping0 Hinterval Hpolicy.
  intros H C Hs Hr Hw. unfold build_table. destruct (new_spec file H C) as (t0 & -> & B0). cbn [mbind option_bind].
  destruct (add_entries_spec l t0 [] [] [] B0 Hs Hr Hw) as (t1 & done1 & seps1 & cur1 & -> & B1 & Ea). cbn [mbind option_bind].
  cbn in Ea. rewrite <- Ea in *.
  destruct (finish_spec t1 done1 seps1 cur1 B1 Hs Hr Hw) as (t' & done' & seps' & filter & E & F & S). eauto 10.
Qed.

End Building.

(** * Any run, whatever the file does *)

(** ** The builder's status and count *)
Lemma write_raw_count t contents type :
  num_entries_ (fst (write_raw_block t contents type)) = num_entries_ t.
Proof.
  unfold write_raw_block. destruct (wf_append _ _) as [s1 f1].
  destruct (negb _); [done|]. destruct (wf_append _ _) as [s2 f2]. by destruct (is_ok _).
Qed.
Lemma flush_count t t' : flush t = Some t' -> num_entries_ t' = num_entries_ t.
Proof.
  unfold flush. destruct (negb _); [by intros [= <-]|]. destruct (BlockBuilder.empty _); [by intros [= <-]|].
  unfold write_block. destruct (encode_block _ _ _) as [[contents type]|]; [|done]. cbn [mbind option_bind].
  pose proof (write_raw_count t contents type) as Hw. destruct (write_raw_block t contents type) as [t1 handle].
  cbn [fst] in Hw. cbn [mbind option_bind].
  set (t2 := if is_ok _ then _ else _).
  assert (num_entries_ t2 = num_entries_ t) as Hc.
  { subst t2. destruct (is_ok _); [|done]. by destruct (wf_flush _) as [s f]. }
  clearbody t2. destruct (filter_block_ t2) as [fb|]; [|by intros [= <-]].
  destruct (FilterBlock.start_block _ _); [|done]. cbn [mbind option_bind]. by intros [= <-].
Qed.
Lemma add_count t k v t' :
  add t k v = Some t' -> is_ok (status_ t') = true ->
  is_ok (status_ t) = true /\ num_entries_ t' = u64 (num_entries_ t + 1).
Proof.
  unfold add. destruct (is_ok (status_ t)) eqn:Es; cbn [negb]; [|intros [= <-] H; congruence].
  intros E _. split; [done|]. set (t1 := if pending_index_entry_ t then _ else t) in E.
  assert (num_entries_ t1 = num_entries_ t) as <- by (subst t1; by destruct (pending_index_entry_ t)).
  destruct (_ <=? _) in E; [by rewrite (flush_count _ _ E)|by injection E as <-].
Qed.
Lemma finish_status t s t' :
  finish t = Some (s, t') -> is_ok s = true -> is_ok (status_ t) = true.
Proof.
  destruct (is_ok (status_ t)) eqn:Es; [done|]. unfold finish, flush. rewrite Es. cbn [negb mbind option_bind].
  unfold finish_filter. cbn [status_ set_closed]. rewrite Es.
  cbn [mbind option_bind]. unfold finish_metaindex. cbn [status_ set_closed]. rewrite Es.
  cbn [mbind option_bind]. unfold finish_index. cbn [status_ set_closed]. rewrite Es.
  cbn [mbind option_bind]. unfold finish_footer. cbn [status_ set_closed]. rewrite Es.
  intros [= <- _] H. cbn in H. congruence.
Qed.

(** ** The builder only appends to its file and flushes it *)
Inductive file_runs : WritableFile -> WritableFile -> Prop :=
  | runs_refl f : file_runs f f
  | runs_append f data g : file_runs (snd (wf_append f data)) g -> file_runs f g
  | runs_flush f g : file_runs (snd (wf_flush f)) g -> file_runs f g.
Lemma runs_trans f g h : file_runs f g -> file_runs g h -> file_runs f h.
Proof. induction 1; [done|intros H'; eapply runs_append; eauto|intros H'; eapply runs_flush; eauto]. Qed.
Lemma runs_one f data s g : wf_append f data = (s, g) -> file_runs f g.
Proof. intros E. apply (runs_append f data). rewrite E. constructor. Qed.

Lemma runs_open f g : file_runs f g -> wf_open g = wf_open f.
Proof.
  induction 1 as [f|f data g _ IH|f g _ IH]; [done|by rewrite IH, wf_append_open|]. rewrite IH. clear IH.
  unfold wf_flush, wf_next_fault. destruct (wf_open f) eqn:E; cbn [negb]; [|done]. by destruct (wf_faults f) as [|[n|] rest].
Qed.
Lemma runs_healthy f g : file_runs f g -> wf_healthy f -> wf_healthy g.
Proof.
  induction 1 as [f|f data g _ IH|f g _ IH]; intros H; [done|apply IH..]; destruct H as [Ho Hf].
  - unfold wf_append, wf_next_fault. rewrite Ho, Hf. done.
  - unfold wf_flush, wf_next_fault. rewrite Ho, Hf. done.
Qed.

Abbreviation runs t t' := (file_runs (file_ t) (file_ t')).
Lemma write_raw_runs t contents type : runs t (fst (write_raw_block t contents type)).
Proof.
  unfold write_raw_block. destruct (wf_append (file_ t) contents) as [s1 f1] eqn:E1. apply runs_one in E1.
  destruct (negb _); [done|]. cbn [file_ set_file].
  destruct (wf_append f1 _) as [s2 f2] eqn:E2. apply runs_one in E2.
  destruct (is_ok _); cbn [fst file_ set_file set_offset]; by eapply runs_trans.
Qed.
Lemma write_block_runs t block c t' h b : write_block t block c = Some (t', h, b) -> runs t t'.
Proof.
  unfold write_block. destruct (encode_block _ _ _) as [[contents type]|]; [|done]. cbn [mbind option_bind].
  pose proof (write_raw_runs t contents type) as Hw. destruct (write_raw_block t contents type) as [t1 handle].
  by intros [= <- _ _].
Qed.
Lemma flush_runs t t' : flush t = Some t' -> runs t t'.
Proof.
  unfold flush. destruct (negb _); [intros [= <-]; constructor|]. destruct (BlockBuilder.empty _); [intros [= <-]; constructor|].
  destruct (write_block _ _ _) as [[[t1 handle] b]|] eqn:E; [|done]. apply write_block_runs in E. cbn [mbind option_bind].
  set (t2 := if is_ok _ then _ else _).
  assert (runs t t2) as Hc.
  { subst t2. destruct (is_ok _); [|done]. cbn. destruct (wf_flush (file_ t1)) as [s f] eqn:Ef. cbn.
    eapply runs_trans; [exact E|]. apply runs_flush. rewrite Ef. constructor. }
  clearbody t2. destruct (filter_block_ t2) as [fb|]; [|by intros [= <-]].
  destruct (FilterBlock.start_block _ _); [|done]. cbn [mbind option_bind]. by intros [= <-].
Qed.
Lemma add_runs t k v t' : add t k v = Some t' -> runs t t'.
Proof.
  unfold add. destruct (negb _); [intros [= <-]; constructor|]. set (t1 := if pending_index_entry_ t then _ else t).
  assert (file_ t1 = file_ t) as Ef by (subst t1; by destruct (pending_index_entry_ t)). rewrite <- Ef.
  destruct (_ <=? _); [intros E; exact (flush_runs _ _ E)|intros [= <-]; constructor].
Qed.
Lemma add_entries_runs t l t' : add_entries t l = Some t' -> runs t t'.
Proof.
  revert t. induction l as [|[k v] l IH]; intros t; cbn [add_entries]; [intros [= <-]; constructor|].
  destruct (add t k v) as [t1|] eqn:E; [|done]. cbn [mbind option_bind]. intros E'.
  eapply runs_trans; [by eapply add_runs|by apply IH].
Qed.
Lemma finish_filter_runs t t' h : finish_filter t = Some (t', h) -> runs t t'.
Proof.
  unfold finish_filter. destruct (is_ok _); [|intros [= <- _]; constructor].
  destruct (filter_block_ _); [|intros [= <- _]; constructor]. destruct (FilterBlock.finish _) as [contents|]; [|done].
  cbn [mbind option_bind]. intros E. injection E as E. pose proof (write_raw_runs t contents kNone) as H. by rewrite E in H.
Qed.
Lemma finish_metaindex_runs t fh t' h : finish_metaindex t fh = Some (t', h) -> runs t t'.
Proof.
  unfold finish_metaindex. destruct (is_ok _); [|intros [= <- _]; constructor].
  destruct (write_block _ _ _) as [[[t5 h5] b5]|] eqn:E; [|done]. apply write_block_runs in E. by intros [= <- _].
Qed.
Lemma finish_index_runs t t' h : finish_index t = Some (t', h) -> runs t t'.
Proof.
  unfold finish_index. destruct (is_ok _); [|intros [= <- _]; constructor].
  destruct (write_block _ _ _) as [[[t5 h5] b5]|] eqn:E; [|done]. apply write_block_runs in E.
  intros [= <- _]. cbn [file_ set_index_block]. by destruct (pending_index_entry_ t).
Qed.
Lemma finish_footer_runs t mh ih : runs t (finish_footer t mh ih).
Proof.
  unfold finish_footer. destruct (is_ok _); [|constructor].
  destruct (wf_append _ _) as [s f] eqn:E. apply runs_one in E. by destruct (is_ok _).
Qed.
Lemma finish_runs t s t' : finish t = Some (s, t') -> runs t t'.
Proof.
  unfold finish. destruct (flush t) as [t1|] eqn:E1; [|done]. apply flush_runs in E1. cbn [mbind option_bind].
  destruct (finish_filter _) as [[t2 h2]|] eqn:E2; [|done]. apply finish_filter_runs in E2. cbn [mbind option_bind].
  destruct (finish_metaindex _ _) as [[t3 h3]|] eqn:E3; [|done]. apply finish_metaindex_runs in E3. cbn [mbind option_bind].
  destruct (finish_index _) as [[t4 h4]|] eqn:E4; [|done]. apply finish_index_runs in E4. cbn [mbind option_bind].
  intros [= _ <-]. eapply runs_trans; [exact E1|]. eapply runs_trans; [exact E2|]. eapply runs_trans; [exact E3|].
  eapply runs_trans; [exact E4|apply finish_footer_runs].
Qed.

End TableBuilder.
