(* ===== verification/Table.v ===== *)
(** A finished table file, opened for reading (src/src/table.hpp,
    src/src/table.cpp).

    [None] is undefined behaviour in a component it calls.  [address] is where
    the contents of the block at a handle are put in memory, [sizeof_Block] the
    size of the class; both are the platform's.  The block cache is state that
    the calls pass on. *)
From S2P Require Import Prelude Status File Encoding DbFormat Comparator Bloom FilterBlock BlockBuilder Iterator Block Compress Format TwoLevelIterator Cache CacheClient TableBuilder.
Import Status File Encoding DbFormat Comparator Bloom Iterator Format TableBuilder.

Module Table.

Section Table.
Context (address : BlockHandle -> Z) (sizeof_Block : Z).

Abbreviation BlockCache := (Cache.ShardedLRUCache Block.Block).

(** [Table::Rep]; a filter is read into [rep_filter]. *)
Record Rep := mkRep {
  rep_options : Options;
  rep_comparator : Comparator;
  rep_file : RandomAccessFile;
  rep_file_size : Z;
  rep_cache_id : Z;
  rep_metaindex_handle : BlockHandle;
  rep_index_block : Block.Block;
  rep_filter : option FilterBlock.FilterBlockReader
}.

(** [new Block(contents)] for the block at [handle]. *)
Definition make_block (handle : BlockHandle) (contents : BlockContents) : option Block.Block :=
  Block.Block_new (address handle) (bc_data contents).

(** The optional filter: any failure to find it means reading without. *)
Definition open_filter (options : Options) (file : RandomAccessFile) (size : Z) (metaindex : BlockHandle) :
    option (option FilterBlock.FilterBlockReader) :=
  match filter_policy options with
  | None => Some None
  | Some policy =>
      meta ← read_block file size metaindex;
      match meta with
      | inl _ => Some None
      | inr meta_contents =>
          meta ← make_block metaindex meta_contents;
          let key := string_bytes ("filter." +:+ policy_name policy) in
          let ops := Block.block_iterator bytewise_comparator in
          iter ← it_seek ops (Block.new_iterator meta) key;
          if it_valid ops iter && bool_decide (it_key ops iter = key) then
            handle_value ← it_value ops iter;
            match handle_decode_from handle_value with
            | inl _ => Some None
            | inr (filter_handle, _) =>
                filter ← read_block file size filter_handle;
                match filter with
                | inl _ => Some None
                | inr filter_contents =>
                    reader ← FilterBlock.FilterBlockReader_new policy (bc_data filter_contents);
                    Some (Some reader)
                end
            end
          else Some None
      end
  end.

(** The id of the table in the cache, or 0 without one. *)
Definition take_id (cache : option BlockCache) : Z * option BlockCache :=
  match cache with
  | Some c => let '(id, c) := Cache.new_id c in (id, Some c)
  | None => (0, None)
  end.

Definition open (options : Options) (comparator : Comparator) (file : RandomAccessFile) (size : Z)
    (cache : option BlockCache) : option (Status + Rep * option BlockCache) :=
  if size <? Z.of_nat kEncodedLength
  then Some (inl (corruption "file is too short to be a table"))
  else
    match raf_read file (size - Z.of_nat kEncodedLength) (Z.of_nat kEncodedLength) with
    | inl status => Some (inl status)
    | inr (footer_input, _) =>
        footer ← footer_decode_from footer_input;
        match footer with
        | inl status => Some (inl status)
        | inr footer =>
            index ← read_block file size (index_handle_ footer);
            match index with
            | inl status => Some (inl status)
            | inr index_contents =>
                index_block ← make_block (index_handle_ footer) index_contents;
                let '(cache_id, cache) := take_id cache in
                filter ← open_filter options file size (metaindex_handle_ footer);
                Some (inr (mkRep options comparator file size cache_id (metaindex_handle_ footer)
                             index_block filter, cache))
            end
        end
    end.

(** [Table::BlockRef]: a block with the cache handle to release, or one of the
    reader's own. *)
Record BlockRef := mkRef {
  ref_block : Block.Block;
  ref_handle : option nat;
  ref_owned : bool
}.
Definition ref_release (ref : BlockRef) (cache : option BlockCache) : option (option BlockCache) :=
  match ref_handle ref, cache with
  | Some handle, Some c => Some <$> Cache.cache_release c handle
  | Some _, None => None
  | None, _ => Some cache
  end.

(** Reading the block at a handle from the file. *)
Definition load_block (rep : Rep) (handle : BlockHandle) : option (Status + Block.Block * bool) :=
  contents ← read_block (rep_file rep) (rep_file_size rep) handle;
  match contents with
  | inl status => Some (inl status)
  | inr contents => block ← make_block handle contents; Some (inr (block, cachable contents))
  end.

Definition cache_key (cache_id offset : Z) : bytes := encode_fixed64 cache_id ++ encode_fixed64 offset.

(** [addr] is where the cache would allocate an entry. *)
Definition block_for (rep : Rep) (fill_cache : bool) (index_value : bytes) (cache : option BlockCache) (addr : nat) :
    option ((Status + BlockRef) * option BlockCache) :=
  match handle_decode_from index_value with
  | inl status => Some (inl status, cache)
  | inr (handle, _) =>
      match cache with
      | Some c =>
          let key := cache_key (rep_cache_id rep) (bh_offset handle) in
          '(found, c) ← Cache.cache_lookup c key;
          if negb (found =? Cache.null)%nat then
            block ← Cache.cache_value c found;
            Some (inr (mkRef block (Some found) false), Some c)
          else
            loaded ← load_block rep handle;
            match loaded with
            | inl status => Some (inl status, Some c)
            | inr (block, cachable) =>
                if cachable && fill_cache then
                  let charge := if 0 <? Block.b_size block then Block.b_size block else sizeof_Block + size key in
                  '(handle, c) ← Cache.cache_insert c addr key block charge;
                  Some (inr (mkRef block (Some handle) false), Some c)
                else Some (inr (mkRef block None true), Some c)
            end
      | None =>
          loaded ← load_block rep handle;
          match loaded with
          | inl status => Some (inl status, None)
          | inr (block, _) => Some (inr (mkRef block None true), None)
          end
      end
  end.

(** The iterator over a data block: [OwningBlockIterator] and
    [CachedBlockIterator] forward every call to the block's own. *)
Definition block_reader (rep : Rep) (fill_cache : bool) (index_value : bytes) (cache : option BlockCache) (addr : nat) :
    option (Block.BlockIterator * option BlockCache) :=
  '(r, cache) ← block_for rep fill_cache index_value cache addr;
  match r with
  | inl status => Some (Block.EmptyIterator status, cache)
  | inr ref => Some (Block.new_iterator (ref_block ref), cache)
  end.

(** [internal_get]: the status, and what the callback was given. *)
Definition internal_get (rep : Rep) (fill_cache : bool) (key : bytes) (cache : option BlockCache) (addr : nat) :
    option (Status * option (bytes * bytes) * option BlockCache) :=
  found ← Block.find (rep_comparator rep) (rep_index_block rep) key;
  match found with
  | inl status => Some (status, None, cache)
  | inr None => Some (ok, None, cache)
  | inr (Some (_, index_value)) =>
      may_match ←
        match rep_filter rep, handle_decode_from index_value with
        | Some filter, inr (handle, _) => FilterBlock.reader_key_may_match filter (bh_offset handle) key
        | _, _ => Some true
        end;
      if negb may_match then Some (ok, None, cache)
      else
        '(r, cache) ← block_for rep fill_cache index_value cache addr;
        match r with
        | inl status => Some (status, None, cache)
        | inr ref =>
            found ← Block.find (rep_comparator rep) (ref_block ref) key;
            cache ← ref_release ref cache;
            Some (match found with
                  | inl status => (status, None)
                  | inr result => (ok, result)
                  end, cache)
        end
  end.

Definition approximate_offset_of (rep : Rep) (key : bytes) : option Z :=
  let ops := Block.block_iterator (rep_comparator rep) in
  index_iter ← it_seek ops (Block.new_iterator (rep_index_block rep)) key;
  if negb (it_valid ops index_iter) then Some (bh_offset (rep_metaindex_handle rep))
  else
    input ← it_value ops index_iter;
    match handle_decode_from input with
    | inl _ => Some (bh_offset (rep_metaindex_handle rep))
    | inr (handle, _) => Some (bh_offset handle)
    end.

(** [new_iterator]: the two-level iterator over the index, its blocks read
    without a cache. *)
Definition data_iterator (rep : Rep) (index_value : bytes) : Block.BlockIterator :=
  match block_reader rep true index_value None Cache.null with
  | Some (iter, _) => iter
  | None => Block.EmptyIterator ok
  end.
Definition table_iterator (rep : Rep) (fuel : nat) :=
  TwoLevelIterator.two_level_iterator (Block.block_iterator (rep_comparator rep))
    (Block.block_iterator (rep_comparator rep)) (data_iterator rep) fuel.
Definition new_iterator (rep : Rep) :=
  TwoLevelIterator.new_two_level_iterator (D := Block.BlockIterator) (Block.new_iterator (rep_index_block rep)).

End Table.

(** * Reading back what was built *)

(** The block whose bytes start [offset] into the blocks. *)
Fixpoint block_at (done : list DataBlock) (offset : Z) : option DataBlock :=
  match done with
  | [] => None
  | b :: done' => if offset =? 0 then Some b else block_at done' (offset - size (chunk b))
  end.
(** The entries an index value leads to. *)
Definition entries_at (done : list DataBlock) (index_value : bytes) : list (bytes * bytes) :=
  match handle_decode_from index_value with
  | inr (handle, _) => default [] (db_entries <$> block_at done (bh_offset handle))
  | inl _ => []
  end.

Lemma chunk_size b : size (chunk b) = size (db_contents b) + kBlockTrailerSize.
Proof. apply stored_block_size. Qed.
Lemma chunks_cons b done : chunks (b :: done) = chunk b ++ chunks done.
Proof. done. Qed.
Lemma block_at_offset done i : block_at done (size (chunks (take i done))) = done !! i.
Proof.
  revert i. induction done as [|b done IH]; intros [|i]; [done..|]. cbn [take block_at lookup].
  rewrite chunks_cons, size_app. pose proof (chunk_size b). pose proof (size_nonneg (db_contents b)).
  pose proof (size_nonneg (chunks (take i done))). unfold kBlockTrailerSize in *.
  rewrite (proj2 (Z.eqb_neq _ _)) by lia. transitivity (block_at done (size (chunks (take i done)))); [f_equal; lia|apply IH].
Qed.

Lemma concat_blocks done : concat (db_entries <$> done) = done ≫= db_entries.
Proof. induction done as [|b done IH]; [done|]. change (db_entries b ++ concat (db_entries <$> done) = db_entries b ++ (done ≫= db_entries)). by rewrite IH. Qed.

(** Iterators that agree on where they stand but not on how. *)
#[global] Instance some_position {I} (ops : Iterator I) cmp l :
  SortedIterator ops cmp l (λ it n, exists pos, SortedIterator ops cmp l pos /\ pos it n).
Proof.
  constructor; intros it i; intros; destruct_and?;
    match goal with H : exists _, _ |- _ => destruct H as (pos & SI & Hp) end.
  - by eapply si_bound.
  - by eapply si_valid.
  - by eapply si_entry.
  - by eapply si_status.
  - destruct (si_next it i Hp) as (it' & ? & ?); [done|]. eauto.
  - destruct (si_prev it i Hp) as (it' & ? & ?); [done|]. eauto.
  - destruct (si_first it i Hp) as (it' & ? & ?). eauto.
  - destruct (si_last it i Hp) as (it' & ? & ?). eauto.
  - destruct (si_seek it i target Hp) as (it' & ? & ?); [done|]. eauto.
Qed.

Section Reading.
Context (cmp : Comparator) `{!ComparatorLaws cmp} (g : bytes -> bytes) `{!Grouping cmp g} (opts : Options).
Context (Hinterval : 1 <= block_restart_interval opts).
Context (Hpolicy : forall p, filter_policy opts = Some p -> FilterPolicyLaws p).
Context (address : BlockHandle -> Z) (sizeof_Block : Z).
Context (file : RandomAccessFile) (contents : bytes) `{!Serves file contents}.
Context (l : list (bytes * bytes)) (seps : list bytes) (done : list DataBlock) (filter : option bytes).
Context (F : finished cmp g opts contents l seps done filter).
Context (Hsize : size contents < 2 ^ 32) (Hweight : weight l < 2 ^ 32).
Context (Hsorted : sorted_by cmp l) (Hread : Forall (λ e, readable cmp e.1) l).

Lemma prefix_small a b : contents = a ++ b -> u64 (size a) = size a.
Proof using Hsize.
  intros E. apply (f_equal size) in E. rewrite size_app in E. pose proof (size_nonneg a). pose proof (size_nonneg b).
  apply u64_small. lia.
Qed.
Lemma data_split i b :
  done !! i = Some b ->
  exists rest, contents = chunks (take i done) ++ stored_block (db_contents b) (db_type b) ++ rest.
Proof using F.
  intros Hi. eexists. rewrite (fi_bytes _ _ _ _ _ _ _ _ F). unfold table_bytes, index_part, meta_part, data_part.
  rewrite <- (take_drop_middle done i b Hi) at 1. rewrite chunks_app, chunks_cons, <- !app_assoc. done.
Qed.
Lemma block_weight i b : done !! i = Some b -> weight (db_entries b) <= weight l.
Proof using F.
  intros Hi. rewrite <- (fi_entries _ _ _ _ _ _ _ _ F), <- (take_drop_middle done i b Hi).
  rewrite all_entries_app, weight_app. change (all_entries (b :: ?x)) with (db_entries b ++ all_entries x).
  rewrite weight_app. pose proof (weight_ge (all_entries (take i done))). pose proof (weight_ge (all_entries (drop (S i) done))). lia.
Qed.
Lemma handle_at_eq i b :
  done !! i = Some b -> handle_at done i = mkHandle (size (chunks (take i done))) (size (db_contents b)).
Proof using F Hsize.
  intros Hi. unfold handle_at. rewrite Hi. destruct (data_split i b Hi) as (rest & E). by rewrite (prefix_small _ _ E).
Qed.
Lemma handle_small a n b : contents = a ++ b -> 0 <= n < 2 ^ 32 -> handle_ok (mkHandle (size a) n).
Proof using Hsize.
  intros E Hn. apply (f_equal size) in E. rewrite size_app in E. pose proof (size_nonneg a). pose proof (size_nonneg b).
  split; cbn; lia.
Qed.
Lemma handle_at_ok i b : done !! i = Some b -> handle_ok (handle_at done i).
Proof using F Hsize.
  intros Hi. rewrite (handle_at_eq i b Hi). destruct (data_split i b Hi) as (rest & E).
  eapply handle_small; [exact E|]. apply (f_equal size) in E. rewrite !size_app, stored_block_size in E.
  pose proof (size_nonneg (db_contents b)). pose proof (size_nonneg rest). pose proof (size_nonneg (chunks (take i done))).
  unfold kBlockTrailerSize in *. lia.
Qed.

(** Reading a data block gives what was put into it. *)
Lemma data_read i b :
  done !! i = Some b ->
  exists bc, read_block file (size contents) (handle_at done i) = Some (inr bc) /\
    bc_data bc = raw_block opts (db_entries b).
Proof using F Hsize Hweight Hinterval Serves0.
  intros Hi. rewrite (handle_at_eq i b Hi). destruct (data_split i b Hi) as (rest & E).
  assert (encoded opts b) as [_ Enc] by (pose proof (fi_done _ _ _ _ _ _ _ _ F) as Fd; rewrite Forall_lookup in Fd; by eapply Fd).
  rewrite E. apply read_stored.
  - by rewrite <- E.
  - rewrite <- E. lia.
  - unfold encode_block in Enc. destruct (compression opts); [by injection Enc as -> <-|].
    destruct (Compress.compress_block _ _) as [compressed|] eqn:Ec; [|done]. cbn [mbind option_bind] in Enc.
    destruct (_ <? _); injection Enc as <- <-; [|done]. split; [|done].
    pose proof (raw_block_size (block_restart_interval opts) (db_entries b) Hinterval). pose proof (block_weight i b Hi).
    unfold raw_block. lia.
Qed.

(** ** The index *)
Lemma index_lookup i sep h :
  index_of seps done !! i = Some (sep, h) <->
  seps !! i = Some sep /\ h = handle_encode_to (handle_at done i) [].
Proof using.
  unfold index_of. rewrite list_lookup_imap. destruct (seps !! i) as [s|]; cbn [fmap option_fmap option_map].
  - split; [intros [= <- <-]; split; reflexivity|]. intros [[= ->] ->]. reflexivity.
  - split; [discriminate|]. intros [[=] _].
Qed.
Lemma index_block i sep h :
  index_of seps done !! i = Some (sep, h) ->
  exists b, done !! i = Some b /\ handle_decode_from h = inr (handle_at done i, []) /\ entries_at done h = db_entries b.
Proof using F Hsize.
  intros [Hi ->]%index_lookup. apply lookup_lt_Some in Hi. rewrite (fi_seps _ _ _ _ _ _ _ _ F) in Hi.
  apply lookup_lt_is_Some_2 in Hi as [b Hb]. exists b. split; [done|].
  assert (handle_decode_from (handle_encode_to (handle_at done i) []) = inr (handle_at done i, [])) as Ed.
  { rewrite <- (app_nil_r (handle_encode_to _ _)). apply handle_decode_encode. by eapply handle_at_ok. }
  split; [done|]. unfold entries_at. rewrite Ed, (handle_at_eq i b Hb). cbn [bh_offset]. by rewrite block_at_offset, Hb.
Qed.
Lemma index_entries : concat (entries_at done ∘ snd <$> index_of seps done) = l.
Proof using F Hsize.
  rewrite <- (fi_entries _ _ _ _ _ _ _ _ F). unfold all_entries.
  assert (entries_at done ∘ snd <$> index_of seps done = db_entries <$> done) as ->; [|apply concat_blocks].
  apply list_eq. intros i. rewrite !list_lookup_fmap.
  destruct (index_of seps done !! i) as [[sep h]|] eqn:Ei.
  - destruct (index_block i sep h Ei) as (b & -> & _ & Eb). cbn. by rewrite Eb.
  - apply lookup_ge_None in Ei. unfold index_of in Ei. rewrite length_imap, (fi_seps _ _ _ _ _ _ _ _ F) in Ei.
    by rewrite (lookup_ge_None_2 done).
Qed.

Lemma block_encoded i b : done !! i = Some b -> encoded opts b.
Proof using F. pose proof (fi_done _ _ _ _ _ _ _ _ F) as Fd. rewrite Forall_lookup in Fd. apply Fd. Qed.
Lemma block_entry i b e : done !! i = Some b -> e ∈ db_entries b -> e ∈ l.
Proof using F. intros Hi He. rewrite <- (fi_entries _ _ _ _ _ _ _ _ F). by eapply block_elem. Qed.
Lemma entry_readable e : e ∈ l -> readable cmp e.1.
Proof using Hread. rewrite Forall_forall in Hread. apply Hread. Qed.

Lemma index_readable : Forall (λ e, readable cmp e.1) (index_of seps done).
Proof using F Hsize.
  apply Forall_lookup. intros i [sep h] Hi. destruct (index_block i sep h Hi) as (b & Hb & _).
  apply index_lookup in Hi as [Hi _]. by destruct (fi_separates _ _ _ _ _ _ _ _ F i sep b Hi Hb).
Qed.
Lemma index_sorted : sorted_by cmp (index_of seps done).
Proof using F Hsize Hread ComparatorLaws0.
  unfold sorted_by. apply StronglySorted_from_lookup. intros i j ki kj Hij Hi Hj.
  rewrite list_lookup_fmap in Hi, Hj.
  destruct (index_of seps done !! i) as [[si hi]|] eqn:Ei; [|done]. injection Hi as <-.
  destruct (index_of seps done !! j) as [[sj hj]|] eqn:Ej; [|done]. injection Hj as <-.
  destruct (index_block i si hi Ei) as (bi & Hbi & _), (index_block j sj hj Ej) as (bj & Hbj & _).
  apply index_lookup in Ei as [Ei _], Ej as [Ej _].
  destruct (fi_separates _ _ _ _ _ _ _ _ F i si bi Ei Hbi) as (_ & _ & Bi & _).
  destruct (fi_separates _ _ _ _ _ _ _ _ F j sj bj Ej Hbj) as (Rj & Aj & _).
  destruct (block_encoded j bj Hbj) as [Hne _]. destruct (db_entries bj) as [|[k v] es] eqn:Eb; [done|].
  assert ((k, v) ∈ db_entries bj) as Hin by (rewrite Eb; apply elem_of_cons; by left).
  rewrite <- Eb in *. destruct (Bi j bj k v Hij Hbj Hin) as [Hlt _].
  eapply key_lt_le_trans; [|exact Rj|exact Hlt|by eapply Aj].
  apply (entry_readable (k, v)). by eapply block_entry.
Qed.
Lemma table_indexes : TwoLevelIterator.indexes cmp (entries_at done) (index_of seps done).
Proof using F Hsize Hread Hsorted.
  split.
  - intros i sep h Hi. pose proof index_readable as R. rewrite Forall_lookup in R. by apply (R _ _ Hi).
  - by rewrite index_entries.
  - intros i sep h k v Hi Hk. destruct (index_block i sep h Hi) as (b & Hb & _ & E). rewrite E in Hk.
    apply index_lookup in Hi as [Hi _]. destruct (fi_separates _ _ _ _ _ _ _ _ F i sep b Hi Hb) as (_ & A & _).
    split; [|by eapply A]. apply (entry_readable (k, v)). by eapply block_entry.
  - intros i j sep h sep' h' k v Hij Hi Hj Hk. destruct (index_block i sep h Hi) as (b & Hb & _).
    destruct (index_block j sep' h' Hj) as (b' & Hb' & _ & E). rewrite E in Hk. apply index_lookup in Hi as [Hi _].
    destruct (fi_separates _ _ _ _ _ _ _ _ F i sep b Hi Hb) as (_ & _ & B & _). by apply (B j b' k v).
Qed.

(** ** Opening *)
Definition meta_raw : bytes := raw_block opts (metaindex_entries opts done filter).
Definition the_footer : Footer := table_footer opts seps done filter.

Lemma part_bound a b : contents = a ++ b -> size a <= size contents /\ size b <= size contents.
Proof using.
  intros E. apply (f_equal size) in E. rewrite size_app in E. pose proof (size_nonneg a). pose proof (size_nonneg b). lia.
Qed.
Lemma contents_index :
  contents = meta_part opts done filter ++ stored_block (index_raw seps done) kNone ++ footer_encode_to the_footer [].
Proof using F. rewrite (fi_bytes _ _ _ _ _ _ _ _ F). unfold table_bytes, index_part. by rewrite <- app_assoc. Qed.
Lemma contents_meta :
  contents = data_part done filter ++ stored_block meta_raw kNone ++
    stored_block (index_raw seps done) kNone ++ footer_encode_to the_footer [].
Proof using F. rewrite contents_index. unfold meta_part. by rewrite <- app_assoc. Qed.
Lemma contents_filter f :
  filter = Some f ->
  contents = chunks done ++ stored_block f kNone ++ stored_block meta_raw kNone ++
    stored_block (index_raw seps done) kNone ++ footer_encode_to the_footer [].
Proof using F. intros E. rewrite contents_meta. unfold data_part. rewrite E at 1. cbn [filter_part]. by rewrite <- app_assoc. Qed.

(** A block of the file that is not compressed, at its place. *)
Lemma plain_read a raw rest :
  contents = a ++ stored_block raw kNone ++ rest ->
  handle_ok (mkHandle (size a) (size raw)) /\ size raw < 2 ^ 32 /\ u64 (size a) = size a /\
  exists bc, read_block file (size contents) (mkHandle (size a) (size raw)) = Some (inr bc) /\ bc_data bc = raw.
Proof using Hsize Serves0.
  intros E. pose proof (prefix_small _ _ E). destruct (part_bound _ _ E) as [Ha Hb].
  rewrite size_app, stored_block_size in Hb. pose proof (size_nonneg rest). pose proof (size_nonneg raw).
  unfold kBlockTrailerSize in Hb.
  split_and!; [eapply handle_small; [exact E|lia]|lia|done|].
  rewrite E. apply read_stored; [by rewrite <- E|rewrite <- E; lia|done].
Qed.

Lemma one_entry_size interval key value :
  1 <= interval ->
  size key <= size (BlockBuilder.buffer_ (BlockBuilder.finish
    (BlockBuilder.add_all (BlockBuilder.BlockBuilder_new interval) [(key, value)]))).
Proof using.
  intros Hi. destruct (BlockBuilder.build_layout interval [(key, value)] Hi) as (es & ridx & L & E & ->).
  destruct es as [|e [|e' es]]; [done| |done]. injection E as Ek Ev.
  destruct (BlockBuilder.layout_chain _ _ L) as [(Hs & _) _]. cbn [length] in Hs.
  rewrite BlockBuilder.size_block_bytes, BlockBuilder.encs_one, BlockBuilder.size_enc.
  replace (BlockBuilder.e_shared e) with 0%nat by lia. rewrite Ek, Ev. pose proof (size_nonneg value).
  repeat match goal with |- context [size (varint_loop ?a ?b)] => pose proof (size_nonneg (varint_loop a b)); set (size (varint_loop a b)) in * end.
  unfold size at 1. lia.
Qed.

(** The footer is where [open] looks for it. *)
Lemma footer_read :
  Z.of_nat kEncodedLength <= size contents /\
  exists into, raf_read file (size contents - Z.of_nat kEncodedLength) (Z.of_nat kEncodedLength) =
      inr (footer_encode_to the_footer [], into) /\
    footer_decode_from (footer_encode_to the_footer []) = Some (inr the_footer).
Proof using F Hsize Serves0.
  destruct (plain_read _ _ _ contents_index) as (Hi & _ & Ui & _).
  destruct (plain_read _ _ _ contents_meta) as (Hm & _ & Um & _).
  destruct (footer_decode_encode the_footer []) as [D L].
  { unfold the_footer, table_footer. cbn [metaindex_handle_]. by rewrite Um. }
  { unfold the_footer, table_footer. cbn [index_handle_]. by rewrite Ui. }
  rewrite app_nil_r in D.
  assert (contents = index_part opts seps done filter ++ footer_encode_to the_footer []) as E by apply F.
  assert (size (footer_encode_to the_footer []) = Z.of_nat kEncodedLength) as Lf by (unfold size; by rewrite L).
  destruct (part_bound _ _ E) as [_ Hle]. rewrite Lf in Hle. split; [done|].
  destruct (serves_read (contents := contents) (size contents - Z.of_nat kEncodedLength) (Z.of_nat kEncodedLength)) as (into & Er);
    [lia|lia|lia|].
  exists into. split; [|done]. rewrite Er, E, size_app, Lf, Z.add_simpl_r. do 2 f_equal.
  unfold size. rewrite !Nat2Z.id, drop_app_length, <- L. apply firstn_all.
Qed.

(** What an opened filter answers: [true] for any key of the block at an offset
    of a data block. *)
Definition filter_ready (r : option FilterBlock.FilterBlockReader) : Prop :=
  match filter_policy opts with
  | None => r = None
  | Some p => exists f reader, filter = Some f /\ r = Some reader /\ FilterBlock.FilterBlockReader_new p f = Some reader
  end.
Lemma open_filter_spec :
  exists r, open_filter address opts file (size contents) (metaindex_handle_ the_footer) = Some r /\ filter_ready r.
Proof using F Hsize Hinterval Hpolicy Serves0.
  pose proof (fi_filter _ _ _ _ _ _ _ _ F) as Ff. unfold open_filter, filter_ready, filter_of in *.
  destruct (filter_policy opts) as [p|] eqn:Ep; [|eauto]. destruct Ff as (f & Ef & _).
  destruct (plain_read _ _ _ contents_meta) as (_ & Hm & Um & bc & Er & Eb).
  destruct (plain_read _ _ _ (contents_filter f Ef)) as (Hf & _ & Uf & bf & Erf & Ebf).
  unfold the_footer, table_footer. cbn [metaindex_handle_]. fold meta_raw. rewrite Um, Er. cbn [mbind option_bind].
  unfold make_block. rewrite Eb.
  assert (metaindex_entries opts done filter =
    [(filter_name p, handle_encode_to (mkHandle (size (chunks done)) (size f)) [])]) as Em.
  { unfold metaindex_entries. by rewrite Ep, Ef, Uf. }
  unfold meta_raw, raw_block in *. rewrite Em in *.
  destruct (Block.built_block bytewise_comparator (block_restart_interval opts)
    (address (mkHandle (size (data_part done filter)) (size (BlockBuilder.buffer_ (BlockBuilder.finish
      (BlockBuilder.add_all (BlockBuilder.BlockBuilder_new (block_restart_interval opts))
        [(filter_name p, handle_encode_to (mkHandle (size (chunks done)) (size f)) [])]))))))
    [(filter_name p, handle_encode_to (mkHandle (size (chunks done)) (size f)) [])])
    as (b & pos & -> & SI & Hp & _); [done|repeat constructor|repeat constructor; unfold readable; cbn; lia|done|].
  cbn [mbind option_bind]. fold (filter_name p).
  destruct (si_seek (Block.new_iterator b) _ (filter_name p) Hp) as (it & -> & Hit).
  { eapply Z.le_lt_trans; [|exact Hm]. by apply one_entry_size. }
  cbn [mbind option_bind]. cbn [lower_bound] in Hit. rewrite cmp_refl in Hit.
  rewrite (si_valid it 0 Hit). destruct (@si_entry _ _ _ _ _ _ SI it 0%nat _ _ Hit eq_refl) as [-> ->].
  rewrite bool_decide_true by done. cbn [length Nat.ltb Nat.leb andb mbind option_bind].
  rewrite <- (app_nil_r (handle_encode_to _ _)), handle_decode_encode by done. rewrite Erf. cbn [mbind option_bind].
  pose proof (Hpolicy p eq_refl). rewrite Ebf.
  destruct (FilterBlock.reader_total p f) as (r & Hr & _). rewrite Hr. cbn [mbind option_bind]. eauto 10.
Qed.

(** An open table over this file. *)
Record opened (rep : Rep) : Prop := {
  op_options : rep_options rep = opts;
  op_comparator : rep_comparator rep = cmp;
  op_file : rep_file rep = file;
  op_size : rep_file_size rep = size contents;
  op_metaindex : rep_metaindex_handle rep = metaindex_handle_ the_footer;
  op_index : exists pos, SortedIterator (Block.block_iterator cmp) cmp (index_of seps done) pos /\
    pos (Block.new_iterator (rep_index_block rep)) (length (index_of seps done));
  op_find target : Block.find cmp (rep_index_block rep) target =
    Some (inr (index_of seps done !! lower_bound cmp (index_of seps done) target));
  op_filter : filter_ready (rep_filter rep)
}.
Lemma open_spec cache :
  exists rep, open address opts cmp file (size contents) cache = Some (inr (rep, snd (take_id cache))) /\
    rep_cache_id rep = fst (take_id cache) /\ opened rep.
Proof using F Hsize Hread Hinterval Hpolicy Serves0 ComparatorLaws0.
  destruct footer_read as (Hle & into & Er & Ed). unfold open.
  rewrite (proj2 (Z.ltb_ge _ _)) by done. rewrite Er, Ed. cbn [mbind option_bind].
  destruct (plain_read _ _ _ contents_index) as (_ & Hi & Ui & bc & Eri & Eb).
  assert (index_handle_ the_footer = mkHandle (size (meta_part opts done filter)) (size (index_raw seps done))) as Eh.
  { unfold the_footer, table_footer. cbn [index_handle_]. by rewrite Ui. }
  rewrite Eh, Eri. cbn [mbind option_bind]. unfold make_block. rewrite Eb.
  destruct (Block.built_block cmp 1
    (address (mkHandle (size (meta_part opts done filter)) (size (index_raw seps done)))) (index_of seps done))
    as (b & pos & En & SI & Hp & Hfind); [lia|by apply index_sorted|by apply index_readable|done|].
  fold (index_raw seps done) in En. rewrite En.
  cbn [mbind option_bind]. destruct (take_id cache) as [id cache'] eqn:Et.
  destruct open_filter_spec as (r & -> & Hr). cbn [mbind option_bind].
  eexists. split; [done|]. split; [done|]. split; try done. by exists pos.
Qed.

(** Loading the block an index entry names. *)
Lemma load_spec rep i sep h :
  opened rep -> index_of seps done !! i = Some (sep, h) ->
  exists handle block cachable pos, handle_decode_from h = inr (handle, []) /\
    handle = handle_at done i /\
    load_block address rep handle = Some (inr (block, cachable)) /\
    SortedIterator (Block.block_iterator cmp) cmp (entries_at done h) pos /\
    pos (Block.new_iterator block) (length (entries_at done h)) /\
    forall target, Block.find cmp block target =
      Some (inr (entries_at done h !! lower_bound cmp (entries_at done h) target)).
Proof using F Hsize Hweight Hsorted Hread Hinterval Serves0 ComparatorLaws0.
  intros O Hi. destruct (index_block i sep h Hi) as (b & Hb & Ed & Ee).
  destruct (data_read i b Hb) as (bc & Er & Ebc). exists (handle_at done i).
  unfold load_block. rewrite (op_file _ O), (op_size _ O), Er. cbn [mbind option_bind]. unfold make_block. rewrite Ebc.
  destruct (Block.built_block cmp (block_restart_interval opts) (address (handle_at done i)) (db_entries b))
    as (block & pos & Eb & SI & Hp & Hfind); [done| | | |].
  - pose proof Hsorted as Hs. rewrite <- (fi_entries _ _ _ _ _ _ _ _ F), <- (take_drop_middle done i b Hb) in Hs.
    rewrite all_entries_app in Hs. change (all_entries (b :: ?x)) with (db_entries b ++ all_entries x) in Hs.
    unfold sorted_by in *. rewrite !fmap_app in Hs. by apply StronglySorted_app_1_r, StronglySorted_app_1_l in Hs.
  - apply Forall_forall. intros e He. apply entry_readable. by eapply block_entry.
  - pose proof (raw_block_size (block_restart_interval opts) (db_entries b) Hinterval). pose proof (block_weight i b Hb). lia.
  - unfold raw_block. rewrite Eb. cbn [mbind option_bind]. rewrite Ee. eauto 12.
Qed.

(** ** Scanning *)
Lemma scan_spec rep fuel :
  opened rep -> (length seps < fuel)%nat ->
  exists pos, SortedIterator (table_iterator address sizeof_Block rep fuel) cmp l pos /\ pos (new_iterator rep) (length l).
Proof using F Hsize Hweight Hsorted Hread Hinterval Serves0 ComparatorLaws0.
  intros O Hf. destruct (op_index _ O) as (ipos & SI & Hp).
  set (dpos := λ h it n, exists pos, SortedIterator (Block.block_iterator cmp) cmp (entries_at done h) pos /\ pos it n).
  pose proof (TwoLevelIterator.two_level_iterator_sorted (Block.block_iterator cmp) (Block.block_iterator cmp)
    (data_iterator address sizeof_Block rep) fuel cmp (entries_at done) (index_of seps done) table_indexes ipos dpos) as T.
  rewrite index_entries in T. unfold table_iterator. rewrite (op_comparator _ O).
  eexists. split.
  - apply T.
    + intros i sep h Hi. split; [apply some_position|]. exists (length (entries_at done h)).
      destruct (load_spec rep i sep h O Hi) as (handle & block & c & pos & Ed & _ & El & SI' & Hp' & _).
      exists pos. split; [done|]. unfold data_iterator, block_reader, block_for. rewrite Ed, El. exact Hp'.
    + unfold index_of. by rewrite length_imap.
  - exists (length (index_of seps done)), 0%nat. right. split_and!; [done|exact Hp|done|]. by rewrite index_entries.
Qed.

(** ** Point lookups *)
Lemma filter_offsets i off :
  (filter_blocks done ++ [(u64 (size (chunks done)), [])]).*1 !! i = Some off ->
  (i <= length done)%nat /\ off = size (chunks (take i done)).
Proof using F Hsize.
  assert (forall i, u64 (size (chunks (take i done))) = size (chunks (take i done))) as U.
  { intros j. eapply prefix_small. rewrite (fi_bytes _ _ _ _ _ _ _ _ F). unfold table_bytes, index_part, meta_part, data_part.
    rewrite <- (take_drop j done) at 1. by rewrite chunks_app, <- !app_assoc. }
  rewrite fmap_app, lookup_app_Some. unfold filter_blocks. rewrite length_fmap, length_imap.
  intros [Hi|[Hge Hi]].
  - rewrite list_lookup_fmap, list_lookup_imap in Hi. destruct (done !! i) eqn:E; [|done]. injection Hi as <-.
    apply lookup_lt_Some in E. split; [lia|apply U].
  - apply list_lookup_singleton_Some in Hi as [Ei <-]. cbn [fst]. assert (i = length done) as -> by lia.
    split; [done|]. pose proof (U (length done)) as Ul. by rewrite firstn_all in *.
Qed.
Lemma chunks_take_mono i j : (i <= j)%nat -> size (chunks (take i done)) <= size (chunks (take j done)).
Proof using.
  intros H. replace (take i done) with (take i (take j done)) by (rewrite take_take; f_equal; lia).
  rewrite <- (take_drop i (take j done)) at 2. rewrite chunks_app, size_app.
  pose proof (size_nonneg (chunks (drop i (take j done)))). lia.
Qed.
Lemma filter_keeps reader i b k v :
  filter_ready (Some reader) -> done !! i = Some b -> (k, v) ∈ db_entries b ->
  FilterBlock.reader_key_may_match reader (bh_offset (handle_at done i)) k = Some true.
Proof using F Hsize Hweight Hpolicy Serves0.
  unfold filter_ready. pose proof (fi_filter _ _ _ _ _ _ _ _ F) as Ff. unfold filter_of in Ff.
  destruct (filter_policy opts) as [p|] eqn:Ep; [|done]. destruct Ff as (f0 & E0 & Eb).
  intros (f & r & Ef & [= <-] & Er) Hi Hk. rewrite E0 in Ef. injection Ef as <-. pose proof (Hpolicy p eq_refl).
  destruct (plain_read _ _ _ (contents_filter f0 E0)) as (_ & Hf & _ & _).
  destruct (FilterBlock.built_keeps p (filter_blocks done ++ [(u64 (size (chunks done)), [])])) as (c & Ec & Hc).
  - apply StronglySorted_from_lookup. intros a c x y Hac [Ha ->]%filter_offsets [Hc ->]%filter_offsets.
    apply chunks_take_mono. lia.
  - apply Forall_lookup. intros a e Ha. assert ((filter_blocks done ++ [(u64 (size (chunks done)), [])]).*1 !! a = Some e.1) as Hx
      by (by rewrite list_lookup_fmap, Ha). apply filter_offsets in Hx as [_ ->]. apply size_nonneg.
  - rewrite filter_keys. rewrite (fi_entries _ _ _ _ _ _ _ _ F). pose proof (weight_ge l). cbn [length]. lia.
  - assert (c = f0) as -> by congruence. specialize (Hc Hf (bh_offset (handle_at done i)) (db_entries b).*1 k).
    rewrite Er in Hc. apply Hc.
    + apply elem_of_app. left. apply list_elem_of_lookup. exists i. unfold filter_blocks. by rewrite list_lookup_imap, Hi.
    + apply list_elem_of_fmap. by exists (k, v).
Qed.

Context (Hgroup : forall p k k' f, filter_policy opts = Some p -> readable cmp k -> readable cmp k' -> g k = g k' ->
  key_may_match p k f = key_may_match p k' f).

(** No key of another block is in the group of a key that belongs here. *)
Lemma group_here key i sep h k v :
  i = lower_bound cmp (index_of seps done) key -> index_of seps done !! i = Some (sep, h) ->
  l !! lower_bound cmp l key = Some (k, v) -> g k = g key ->
  entries_at done h !! lower_bound cmp (entries_at done h) key = Some (k, v).
Proof using F Hsize Hread Hsorted ComparatorLaws0.
  intros Ei Hi Hl Hg. pose proof (TwoLevelIterator.index_seek cmp _ _ table_indexes key) as HS.
  rewrite <- Ei, Hi in HS. rewrite index_entries in HS. rewrite HS in Hl.
  destruct (decide (lower_bound cmp (entries_at done h) key < length (entries_at done h))%nat) as [Hlt|Hge].
  - rewrite <- index_entries in Hl at 1. by rewrite (TwoLevelIterator.block_lookup (entries_at done) (index_of seps done) i sep h) in Hl.
  - exfalso. pose proof (lower_bound_le cmp (entries_at done h) key) as Hle.
    replace (lower_bound cmp (entries_at done h) key) with (length (entries_at done h)) in Hl by lia.
    destruct (index_block i sep h Hi) as (b & Hb & _ & Ee).
    apply index_lookup in Hi as Hsep. destruct Hsep as [Hsep _].
    assert (forall x v, (x, v) ∈ db_entries b -> key_lt cmp x key) as Hbelow.
    { intros x w Hx. rewrite <- Ee in Hx. apply list_elem_of_lookup in Hx as [n Hn].
      eapply (lower_bound_below cmp (entries_at done h) key n); [|done]. apply lookup_lt_Some in Hn. lia. }
    assert (key_le cmp key sep) as Hks.
    { apply key_not_lt. rewrite Ei in Hi. by eapply lower_bound_at. }
    destruct (fi_separates _ _ _ _ _ _ _ _ F i sep b Hsep Hb) as (_ & _ & B & _).
    assert (exists j b', (i < j)%nat /\ done !! j = Some b' /\ (k, v) ∈ db_entries b') as (j & b' & Hij & Hb' & Hk).
    { rewrite <- index_entries in Hl at 1. rewrite (TwoLevelIterator.block_split (entries_at done) (index_of seps done) i sep h Hi) in Hl.
      unfold TwoLevelIterator.offset in Hl. rewrite app_assoc, lookup_app_r in Hl by (rewrite length_app; lia).
      apply list_elem_of_lookup_2 in Hl. rewrite <- fmap_drop in Hl.
      apply (TwoLevelIterator.in_blocks (entries_at done)) in Hl as (n & sep' & h' & Hn & Hin). rewrite lookup_drop in Hn.
      destruct (index_block _ _ _ Hn) as (b' & Hb' & _ & Ee'). rewrite Ee' in Hin. exists (S i + n)%nat, b'. split_and!; [lia|done|done]. }
    destruct (B j b' k v Hij Hb' Hk) as [_ Hno]. by apply (Hno key Hbelow Hks).
Qed.

Lemma get_spec rep fill_cache key addr :
  opened rep -> readable cmp key ->
  exists r, internal_get address sizeof_Block rep fill_cache key None addr = Some (ok, r, None) /\
    (forall e, r = Some e -> l !! lower_bound cmp l key = Some e) /\
    (forall k v, l !! lower_bound cmp l key = Some (k, v) -> g k = g key -> r = Some (k, v)).
Proof using F Hsize Hweight Hsorted Hread Hinterval Hpolicy Hgroup Serves0 ComparatorLaws0.
  intros O Rk. unfold internal_get. rewrite (op_comparator _ O), (op_find _ O). cbn [mbind option_bind].
  pose proof (TwoLevelIterator.index_seek cmp _ _ table_indexes key) as HS. rewrite index_entries in HS.
  destruct (index_of seps done !! _) as [[sep h]|] eqn:Hi.
  2: { eexists. split; [done|]. split; [done|]. intros k v Hl. apply lookup_lt_Some in Hl. lia. }
  set (i := lower_bound cmp (index_of seps done) key) in *.
  destruct (load_spec rep i sep h O Hi) as (handle & block & c & pos & Ed & Eh & El & _ & _ & Hfind).
  rewrite Ed. destruct (index_block i sep h Hi) as (b & Hb & _ & Ee).
  assert (exists m, match rep_filter rep with
    | Some filter => FilterBlock.reader_key_may_match filter (bh_offset handle) key | None => Some true end = Some m /\
    forall k v, (k, v) ∈ db_entries b -> g k = g key -> m = true) as (m & -> & Hm).
  { pose proof (op_filter _ O) as Hr. destruct (rep_filter rep) as [reader|]; [|eauto].
    assert (forall k v, (k, v) ∈ db_entries b -> g k = g key ->
      FilterBlock.reader_key_may_match reader (bh_offset handle) key = Some true) as Hk.
    { intros k v Hk Eg. rewrite <- (filter_keeps reader i b k v Hr Hb Hk), Eh. unfold filter_ready in Hr.
      destruct (filter_policy opts) as [p|] eqn:Ep; [|done]. destruct Hr as (f & r & _ & [= <-] & Er).
      eapply FilterBlock.reader_same_key; [exact Er|]. intros f'. apply Hgroup; [done|done| |done].
      apply (entry_readable (k, v)). by eapply block_entry. }
    assert (is_Some (FilterBlock.reader_key_may_match reader (bh_offset handle) key)) as [m Em].
    { unfold filter_ready in Hr. destruct (filter_policy opts) as [p|] eqn:Ep; [|done].
      destruct Hr as (f & r & _ & [= <-] & Er). pose proof (Hpolicy p eq_refl).
      destruct (FilterBlock.reader_total p f) as (r' & Er' & Ht). rewrite Er in Er'. injection Er' as <-.
      apply Ht. pose proof (handle_at_ok i b Hb) as [? _]. rewrite Eh. lia. }
    exists m. split; [done|]. intros k v Hin Eg. specialize (Hk k v Hin Eg). congruence. }
  cbn [mbind option_bind]. destruct m; cbn [negb].
  - unfold block_for. rewrite Ed, El. cbn [mbind option_bind ref_block]. rewrite Hfind. cbn [mbind option_bind ref_release ref_handle].
    eexists. split; [done|]. split.
    + intros [k v] He. pose proof (lookup_lt_Some _ _ _ He) as Hlt. rewrite HS, <- index_entries at 1.
      by rewrite (TwoLevelIterator.block_lookup (entries_at done) _ i sep h).
    + intros k v Hl Eg. by apply (group_here key i sep h k v).
  - eexists. split; [done|]. split; [done|]. intros k v Hl Eg. exfalso.
    pose proof (group_here key i sep h k v eq_refl Hi Hl Eg) as Hin. rewrite Ee in Hin.
    apply list_elem_of_lookup_2 in Hin. by specialize (Hm k v Hin Eg).
Qed.

Lemma seps_bound : (length seps <= length l)%nat.
Proof using F.
  rewrite (fi_seps _ _ _ _ _ _ _ _ F), <- (fi_entries _ _ _ _ _ _ _ _ F). pose proof (fi_done _ _ _ _ _ _ _ _ F) as Fd.
  clear -Fd. induction Fd as [|b done [Hne _] _ IH]; [done|].
  change (all_entries (b :: done)) with (db_entries b ++ all_entries done). rewrite length_app. cbn [length].
  destruct (db_entries b); [done|]. cbn [length]. lia.
Qed.

End Reading.

(** The groups of internal keys are their user keys, for the filter as well. *)
Lemma internal_policy_group policy k k' f :
  readable internal_key_comparator k -> readable internal_key_comparator k' ->
  extract_user_key k = extract_user_key k' ->
  key_may_match (new_internal_filter_policy policy) k f = key_may_match (new_internal_filter_policy policy) k' f.
Proof.
  unfold readable. cbn [min_key_length internal_key_comparator kInternal]. intros Hk Hk' E. cbn [new_internal_filter_policy key_may_match].
  unfold filter_key, size. rewrite !(proj2 (Z.leb_le _ _)) by lia. by rewrite E.
Qed.

(** * Theorems *)

(** C11. A table reads back as it was built: entries in comparator order added
    to a builder over an empty file that does not fail give a file - data
    blocks, compressed or not, filter, metaindex, index, footer - with the
    builder reporting its size, and over any reader of those bytes [open]
    succeeds, with a cache or without, and every sequence of seeks, [next]s and
    [prev]s of the table's iterator shows what a cursor over the entries
    shows. *)
Theorem table_reads_back_what_was_built cmp `{!ComparatorLaws cmp} g `{!Grouping cmp g} opts file l :
  1 <= block_restart_interval opts ->
  (forall p, filter_policy opts = Some p -> FilterPolicyLaws p) ->
  wf_healthy file -> wf_contents file = [] ->
  sorted_by cmp l -> Forall (λ e, readable cmp e.1) l -> weight l < 2 ^ 32 ->
  exists t, build_table opts file cmp l = Some (ok, t) /\
    let contents := wf_contents (file_ t) in
    file_size t = u64 (size contents) /\
    forall address sizeof_Block raf cache, Serves raf contents -> size contents < 2 ^ 32 ->
    exists rep, open address opts cmp raf (size contents) cache = Some (inr (rep, snd (take_id cache))) /\
      forall fuel ms j, (length l < fuel)%nat ->
      let ops := table_iterator address sizeof_Block rep fuel in
      cursor_calls (2 ^ 32) cmp l (length l) ms = Some j ->
      exists it, calls ops (new_iterator rep) ms = Some it /\ shows ops it l j.
Proof.
  intros Hi Hp Hf Hc Hs Hr Hw.
  destruct (build_table_spec cmp g opts Hi Hp file l Hf Hc Hs Hr Hw) as (t & done & seps & filter & E & F & Hsz).
  exists t. split; [done|]. split; [done|]. intros address sz raf cache Sv Hlt.
  destruct (open_spec cmp g opts Hi Hp address raf (wf_contents (file_ t)) l seps done filter F Hlt Hr cache) as (rep & Eo & _ & O).
  exists rep. split; [done|]. intros fuel ms j Hfuel ops Hj.
  destruct (scan_spec cmp g opts Hi address sz raf (wf_contents (file_ t)) l seps done filter F Hlt Hw Hs Hr rep fuel O)
    as (pos & SI & Hpos); [pose proof (seps_bound _ _ _ _ _ _ _ _ F); lia|].
  destruct (si_calls (2 ^ 32) ops cmp l pos ms _ _ j Hpos Hj) as (it & Ec & Hit). exists it. split; [done|]. by eapply si_shows.
Qed.

(** A point lookup in a table finds the version it should: in a table of
    internal keys, written and opened with a filter policy over user keys or
    with none, [internal_get] for a user key at a sequence number returns ok;
    what it passes to the callback is the first entry of the table at or after
    that version, and it does pass that entry whenever it belongs to the same
    user key - also when the entry starts the block after the one the index
    names first, and whatever the filter holds. *)
Theorem table_get_finds_the_version opts user file l u seq type :
  1 <= block_restart_interval opts ->
  filter_policy opts = new_internal_filter_policy <$> user ->
  (forall p, user = Some p -> FilterPolicyLaws p) ->
  wf_healthy file -> wf_contents file = [] ->
  sorted_by internal_key_comparator l -> Forall (λ e, readable internal_key_comparator e.1) l -> weight l < 2 ^ 32 ->
  let key := make_internal_key u seq type in
  exists t, build_table opts file internal_key_comparator l = Some (ok, t) /\
    let contents := wf_contents (file_ t) in
    forall address sizeof_Block raf fill_cache addr, Serves raf contents -> size contents < 2 ^ 32 ->
    exists rep r, open address opts internal_key_comparator raf (size contents) None = Some (inr (rep, None)) /\
      internal_get address sizeof_Block rep fill_cache key None addr = Some (ok, r, None) /\
      let wanted := l !! lower_bound internal_key_comparator l key in
      (forall e, r = Some e -> wanted = Some e) /\
      (forall k v, wanted = Some (k, v) -> extract_user_key k = u -> r = Some (k, v)).
Proof.
  intros Hi Hpol Hp Hf Hc Hs Hr Hw key.
  assert (forall p, filter_policy opts = Some p -> FilterPolicyLaws p) as Hp'.
  { intros p. rewrite Hpol. destruct user as [up|]; [|done]. intros [= <-]. apply internal_policy_laws. by apply Hp. }
  destruct (build_table_spec internal_key_comparator extract_user_key opts Hi Hp' file l Hf Hc Hs Hr Hw)
    as (t & done & seps & filter & E & F & Hsz).
  exists t. split; [done|]. intros contents address sz raf fill addr Sv Hlt.
  destruct (open_spec internal_key_comparator extract_user_key opts Hi Hp' address raf contents l seps done filter F Hlt Hr None)
    as (rep & Eo & _ & O).
  destruct (get_spec internal_key_comparator extract_user_key opts Hi Hp' address sz raf contents l seps done filter F Hlt Hw Hs Hr)
    with (rep := rep) (fill_cache := fill) (key := key) (addr := addr) as (r & Eg & H1 & H2).
  - intros p k k' f. rewrite Hpol. destruct user as [up|]; [|done]. intros [= <-]. apply internal_policy_group.
  - done.
  - unfold readable. cbn [min_key_length internal_key_comparator kInternal]. unfold key. rewrite length_make_internal_key. lia.
  - exists rep, r. split; [done|]. split; [done|]. split; [done|]. intros k v Hk Hu. apply H2; [done|]. unfold key.
    by rewrite extract_user_key_make.
Qed.

(** Two versions of one user key and one of another, in a block each. *)
Definition sample_options : Options := mkOptions 1 16 kLz (Some (new_internal_filter_policy (new_bloom_filter_policy 10))).
Definition sample_entries : list (bytes * bytes) :=
  [(make_internal_key [x61] 9 kValue, [x32]);
   (make_internal_key [x61] 4 kValue, [x31]);
   (make_internal_key [x63] 5 kValue, [x33])].
Lemma sample_sorted :
  sorted_by internal_key_comparator sample_entries /\
  Forall (λ e, readable internal_key_comparator e.1) sample_entries /\ weight sample_entries < 2 ^ 32.
Proof. split_and!; [repeat constructor|repeat constructor; unfold readable; cbn; lia|vm_compute; reflexivity]. Qed.
Lemma sample_small t :
  build_table sample_options (wf_new []) internal_key_comparator sample_entries = Some (ok, t) ->
  size (wf_contents (file_ t)) < 2 ^ 32.
Proof.
  assert (((λ r, size (wf_contents (file_ r.2)) <? 2 ^ 32) <$>
    build_table sample_options (wf_new []) internal_key_comparator sample_entries) = Some true) as H by (vm_compute; reflexivity).
  intros E. rewrite E in H. cbn [fmap option_fmap option_map snd] in H. injection H as H. by apply Z.ltb_lt.
Qed.

Lemma table_reads_back_what_was_built_witness :
  exists t rep it, build_table sample_options (wf_new []) internal_key_comparator sample_entries = Some (ok, t) /\
    let raf := local_file (wf_contents (file_ t)) [] in
    open (λ _, 4096) sample_options internal_key_comparator raf (size (wf_contents (file_ t))) None = Some (inr (rep, None)) /\
    let ops := table_iterator (λ _, 4096) 48 rep 4 in
    calls ops (new_iterator rep) [SeekToLast; Prev] = Some it /\ shows ops it sample_entries 1.
Proof.
  destruct sample_sorted as (Hs & Hr & Hw).
  destruct (table_reads_back_what_was_built internal_key_comparator extract_user_key sample_options (wf_new []) sample_entries)
    as (t & E & _ & H); [cbn; lia|intros p [= <-]; apply _|by split|done|done|done|done|].
  destruct (H (λ _, 4096) 48 (local_file (wf_contents (file_ t)) []) None) as (rep & Eo & Hi);
    [apply local_file_serves; apply not_elem_of_nil|by apply sample_small|].
  destruct (Hi 4%nat [SeekToLast; Prev] 1%nat) as (it & Ec & Hsh); [cbn; lia|reflexivity|]. exists t, rep, it.
  split; [exact E|]. split; [exact Eo|]. split; [exact Ec|exact Hsh].
Defined.

Lemma table_get_finds_the_version_witness :
  exists t rep, build_table sample_options (wf_new []) internal_key_comparator sample_entries = Some (ok, t) /\
    let raf := local_file (wf_contents (file_ t)) [] in
    open (λ _, 4096) sample_options internal_key_comparator raf (size (wf_contents (file_ t))) None = Some (inr (rep, None)) /\
    internal_get (λ _, 4096) 48 rep true (make_internal_key [x61] 7 kValue) None Cache.null =
      Some (ok, Some (make_internal_key [x61] 4 kValue, [x31]), None).
Proof.
  destruct sample_sorted as (Hs & Hr & Hw).
  destruct (table_get_finds_the_version sample_options (Some (new_bloom_filter_policy 10)) (wf_new []) sample_entries
    [x61] 7 kValue) as (t & E & H);
    [cbn; lia|done|intros p [= <-]; apply _|by split|done|done|done|done|].
  destruct (H (λ _, 4096) 48 (local_file (wf_contents (file_ t)) []) true Cache.null) as (rep & r & Eo & Eg & _ & Hr2);
    [apply local_file_serves; apply not_elem_of_nil|by apply sample_small|].
  exists t, rep. split; [exact E|]. split; [exact Eo|].
  rewrite <- (Hr2 (make_internal_key [x61] 4 kValue) [x31]); [exact Eg|vm_compute; reflexivity|vm_compute; reflexivity].
Defined.

End Table.
