(* ===== verification/VersionEdit.v ===== *)
(** Manifest records (src/src/version_edit.hpp, src/src/version_edit.cpp): a
    change to the set of table files, its tagged encoding, and the validating
    decoder. *)
From S2P Require Import Prelude Status Encoding DbFormat.
Import Status Encoding DbFormat.

Module VersionEdit.

(** [int] fields are [Z]; [allowed_seeks] and [refs] are run-time state that
    is not written. *)
Record FileMetaData := mkFile {
  number : Z;
  file_size : Z;
  smallest : bytes;
  largest : bytes;
  allowed_seeks : Z;
  refs : Z
}.
#[global] Instance FileMetaData_eq_dec : EqDecision FileMetaData.
Proof. solve_decision. Defined.

Definition default_allowed_seeks : Z := 1 .<< 30.

Record VersionEdit := mkEdit {
  comparator_ : option bytes;         (* has_comparator_ and comparator_ *)
  log_number_ : option Z;
  prev_log_number_ : option Z;
  next_file_number_ : option Z;
  last_sequence_ : option Z;
  compact_pointers_ : list (Z * bytes);
  deleted_files_ : list (Z * Z);      (* a std::set: ascending, no duplicates *)
  new_files_ : list (Z * FileMetaData)
}.

Definition clear : VersionEdit := mkEdit None None None None None [] [] [].

Definition set_comparator_name (e : VersionEdit) (name : bytes) : VersionEdit :=
  mkEdit (Some name) (log_number_ e) (prev_log_number_ e) (next_file_number_ e)
    (last_sequence_ e) (compact_pointers_ e) (deleted_files_ e) (new_files_ e).
Definition set_log_number (e : VersionEdit) (n : Z) : VersionEdit :=
  mkEdit (comparator_ e) (Some n) (prev_log_number_ e) (next_file_number_ e)
    (last_sequence_ e) (compact_pointers_ e) (deleted_files_ e) (new_files_ e).
Definition set_prev_log_number (e : VersionEdit) (n : Z) : VersionEdit :=
  mkEdit (comparator_ e) (log_number_ e) (Some n) (next_file_number_ e)
    (last_sequence_ e) (compact_pointers_ e) (deleted_files_ e) (new_files_ e).
Definition set_next_file (e : VersionEdit) (n : Z) : VersionEdit :=
  mkEdit (comparator_ e) (log_number_ e) (prev_log_number_ e) (Some n)
    (last_sequence_ e) (compact_pointers_ e) (deleted_files_ e) (new_files_ e).
Definition set_last_sequence (e : VersionEdit) (n : Z) : VersionEdit :=
  mkEdit (comparator_ e) (log_number_ e) (prev_log_number_ e) (next_file_number_ e)
    (Some n) (compact_pointers_ e) (deleted_files_ e) (new_files_ e).
Definition set_compact_pointer (e : VersionEdit) (level : Z) (key : bytes) : VersionEdit :=
  mkEdit (comparator_ e) (log_number_ e) (prev_log_number_ e) (next_file_number_ e)
    (last_sequence_ e) (compact_pointers_ e ++ [(level, key)]) (deleted_files_ e) (new_files_ e).

(** [std::set<std::pair<int, uint64_t>>::insert]. *)
Definition pair_compare (a b : Z * Z) : comparison :=
  match Z.compare (fst a) (fst b) with Eq => Z.compare (snd a) (snd b) | c => c end.
Fixpoint set_insert (x : Z * Z) (l : list (Z * Z)) : list (Z * Z) :=
  match l with
  | [] => [x]
  | y :: l' =>
      match pair_compare x y with
      | Lt => x :: l
      | Eq => l
      | Gt => y :: set_insert x l'
      end
  end.
Definition remove_file (e : VersionEdit) (level file : Z) : VersionEdit :=
  mkEdit (comparator_ e) (log_number_ e) (prev_log_number_ e) (next_file_number_ e)
    (last_sequence_ e) (compact_pointers_ e)
    (set_insert (level, file) (deleted_files_ e)) (new_files_ e).
Definition add_file (e : VersionEdit) (level file file_size : Z) (smallest largest : bytes) :
    VersionEdit :=
  mkEdit (comparator_ e) (log_number_ e) (prev_log_number_ e) (next_file_number_ e)
    (last_sequence_ e) (compact_pointers_ e) (deleted_files_ e)
    (new_files_ e ++ [(level, mkFile file file_size smallest largest default_allowed_seeks 0)]).

Inductive Tag :=
  | kComparator | kLogNumber | kNextFileNumber | kLastSequence
  | kCompactPointer | kDeletedFile | kNewFile | kPrevLogNumber.
Definition Tag_to_Z (t : Tag) : Z :=
  match t with
  | kComparator => 1 | kLogNumber => 2 | kNextFileNumber => 3 | kLastSequence => 4
  | kCompactPointer => 5 | kDeletedFile => 6 | kNewFile => 7 | kPrevLogNumber => 9
  end.
Definition Tag_of_Z (z : Z) : option Tag :=
  if z =? 1 then Some kComparator else if z =? 2 then Some kLogNumber
  else if z =? 3 then Some kNextFileNumber else if z =? 4 then Some kLastSequence
  else if z =? 5 then Some kCompactPointer else if z =? 6 then Some kDeletedFile
  else if z =? 7 then Some kNewFile else if z =? 9 then Some kPrevLogNumber else None.

Definition get_level (input : bytes) : option (Z * bytes) :=
  match get_varint32 input with
  | None => None
  | Some (value, input) => if 7 <=? value then None else Some (value, input)
  end.

Definition put_tag (dst : bytes) (t : Tag) : bytes := put_varint32 dst (Tag_to_Z t).

(** [if (has_x_) { put tag; put_varint64 }]. *)
Definition encode_number (dst : bytes) (t : Tag) (n : option Z) : bytes :=
  match n with Some n => put_varint64 (put_tag dst t) n | None => dst end.

Definition encode_to (e : VersionEdit) : bytes :=
  let dst := match comparator_ e with
             | Some name => put_length_prefixed (put_tag [] kComparator) name
             | None => []
             end in
  let dst := encode_number dst kLogNumber (log_number_ e) in
  let dst := encode_number dst kPrevLogNumber (prev_log_number_ e) in
  let dst := encode_number dst kNextFileNumber (next_file_number_ e) in
  let dst := encode_number dst kLastSequence (last_sequence_ e) in
  let dst := fold_left (λ dst '(level, key),
    put_length_prefixed (put_varint32 (put_tag dst kCompactPointer) (u32 level)) key)
    (compact_pointers_ e) dst in
  let dst := fold_left (λ dst '(level, number),
    put_varint64 (put_varint32 (put_tag dst kDeletedFile) (u32 level)) number)
    (deleted_files_ e) dst in
  fold_left (λ dst '(level, meta),
    put_length_prefixed (put_length_prefixed
      (put_varint64 (put_varint64 (put_varint32 (put_tag dst kNewFile) (u32 level))
        (number meta)) (file_size meta)) (smallest meta)) (largest meta))
    (new_files_ e) dst.

(** One iteration of the decoder's [switch]: the field's failure message, or
    the edit with the field in it and the input past it. *)
Definition decode_field (tag : Z) (e : VersionEdit) (input : bytes) :
    string + (VersionEdit * bytes) :=
  match Tag_of_Z tag with
  | Some kComparator =>
      match get_length_prefixed input with
      | Some (field, input) => inr (set_comparator_name e field, input)
      | None => inl "comparator name"%string
      end
  | Some kLogNumber =>
      match get_varint64 input with
      | Some (n, input) => inr (set_log_number e n, input)
      | None => inl "log number"%string
      end
  | Some kPrevLogNumber =>
      match get_varint64 input with
      | Some (n, input) => inr (set_prev_log_number e n, input)
      | None => inl "previous log number"%string
      end
  | Some kNextFileNumber =>
      match get_varint64 input with
      | Some (n, input) => inr (set_next_file e n, input)
      | None => inl "next file number"%string
      end
  | Some kLastSequence =>
      match get_varint64 input with
      | Some (n, input) => inr (set_last_sequence e n, input)
      | None => inl "last sequence"%string
      end
  | Some kCompactPointer =>
      match ('(level, input) ← get_level input;
             '(field, input) ← get_length_prefixed input;
             Some (level, field, input)) with
      | Some (level, field, input) =>
          if size field <? 8
          then inl "compaction pointer: a key too short to be an internal key"%string
          else inr (set_compact_pointer e level field, input)
      | None => inl "compaction pointer"%string
      end
  | Some kDeletedFile =>
      match ('(level, input) ← get_level input;
             '(n, input) ← get_varint64 input;
             Some (level, n, input)) with
      | Some (level, n, input) => inr (remove_file e level n, input)
      | None => inl "deleted file"%string
      end
  | Some kNewFile =>
      match ('(level, input) ← get_level input;
             '(n, input) ← get_varint64 input;
             '(fs, input) ← get_varint64 input;
             '(sm, input) ← get_length_prefixed input;
             '(la, input) ← get_length_prefixed input;
             Some (level, n, fs, sm, la, input)) with
      | Some (level, n, fs, sm, la, input) =>
          if (size sm <? 8) || (size la <? 8)
          then inl "new file: a key too short to be an internal key"%string
          else inr (add_file e level n fs sm la, input)
      | None => inl "new file"%string
      end
  | None => inl "unknown tag"%string
  end.

(** [while (failure == nullptr && get_varint32(&input, &tag))]; every round
    takes at least the tag byte. *)
Fixpoint decode_loop (fuel : nat) (e : VersionEdit) (input : bytes) :
    VersionEdit * option string * bytes :=
  match fuel with
  | O => (e, None, input)
  | S fuel' =>
      match get_varint32 input with
      | None => (e, None, input)
      | Some (tag, rest) =>
          match decode_field tag e rest with
          | inl failure => (e, Some failure, rest)
          | inr (e, input) => decode_loop fuel' e input
          end
      end
  end.

Definition decode_from (src : bytes) : Status * VersionEdit :=
  let '(e, failure, input) := decode_loop (length src) clear src in
  let failure :=
    match failure, input with
    | None, _ :: _ => Some "trailing bytes after the last field"%string
    | f, _ => f
    end in
  match failure with
  | Some f => (corruption ("version edit: " +:+ f)%string, e)
  | None => (ok, e)
  end.

(** * Lemmas *)

(** An edit as the sequence of fields it encodes to. *)
Inductive Field :=
  | FComparator (name : bytes)
  | FLog (n : Z) | FPrevLog (n : Z) | FNextFile (n : Z) | FLastSeq (n : Z)
  | FPointer (level : Z) (key : bytes)
  | FDeleted (level n : Z)
  | FNew (level n fs : Z) (sm la : bytes).

Definition tagged (t : Tag) (body : bytes) : bytes := put_tag [] t ++ body.
Definition encode_field (f : Field) : bytes :=
  match f with
  | FComparator name => tagged kComparator (put_length_prefixed [] name)
  | FLog n => tagged kLogNumber (put_varint64 [] n)
  | FPrevLog n => tagged kPrevLogNumber (put_varint64 [] n)
  | FNextFile n => tagged kNextFileNumber (put_varint64 [] n)
  | FLastSeq n => tagged kLastSequence (put_varint64 [] n)
  | FPointer l k => tagged kCompactPointer (put_varint32 [] (u32 l) ++ put_length_prefixed [] k)
  | FDeleted l n => tagged kDeletedFile (put_varint32 [] (u32 l) ++ put_varint64 [] n)
  | FNew l n fs sm la =>
      tagged kNewFile (put_varint32 [] (u32 l) ++ put_varint64 [] n ++ put_varint64 [] fs ++
                       put_length_prefixed [] sm ++ put_length_prefixed [] la)
  end.

Definition apply_field (e : VersionEdit) (f : Field) : VersionEdit :=
  match f with
  | FComparator name => set_comparator_name e name
  | FLog n => set_log_number e n
  | FPrevLog n => set_prev_log_number e n
  | FNextFile n => set_next_file e n
  | FLastSeq n => set_last_sequence e n
  | FPointer l k => set_compact_pointer e l k
  | FDeleted l n => remove_file e l n
  | FNew l n fs sm la => add_file e l n fs sm la
  end.

Definition u64_ok (n : Z) : Prop := 0 <= n < 2 ^ 64.
Definition level_ok (l : Z) : Prop := 0 <= l < 7.
Definition key_ok (k : bytes) : Prop := 8 <= size k < 2 ^ 32.
Definition field_ok (f : Field) : Prop :=
  match f with
  | FComparator name => size name < 2 ^ 32
  | FLog n | FPrevLog n | FNextFile n | FLastSeq n => u64_ok n
  | FPointer l k => level_ok l ∧ key_ok k
  | FDeleted l n => level_ok l ∧ u64_ok n
  | FNew l n fs sm la => level_ok l ∧ u64_ok n ∧ u64_ok fs ∧ key_ok sm ∧ key_ok la
  end.

Definition option_field (F : Z -> Field) (o : option Z) : list Field :=
  match o with Some n => [F n] | None => [] end.
Definition fields_of (e : VersionEdit) : list Field :=
  match comparator_ e with Some name => [FComparator name] | None => [] end ++
  option_field FLog (log_number_ e) ++ option_field FPrevLog (prev_log_number_ e) ++
  option_field FNextFile (next_file_number_ e) ++ option_field FLastSeq (last_sequence_ e) ++
  ((λ '(l, k), FPointer l k) <$> compact_pointers_ e) ++
  ((λ '(l, n), FDeleted l n) <$> deleted_files_ e) ++
  ((λ '(l, m), FNew l (number m) (file_size m) (smallest m) (largest m)) <$> new_files_ e).

(** What a decoded edit is known to satisfy, and an edit has to satisfy to
    survive being written. *)
Definition file_ok (m : FileMetaData) : Prop :=
  u64_ok (number m) ∧ u64_ok (file_size m) ∧ key_ok (smallest m) ∧ key_ok (largest m) ∧
  allowed_seeks m = default_allowed_seeks ∧ refs m = 0.
Record edit_ok (e : VersionEdit) : Prop := {
  eo_cmp : ∀ n, comparator_ e = Some n -> size n < 2 ^ 32;
  eo_log : ∀ n, log_number_ e = Some n -> u64_ok n;
  eo_prev : ∀ n, prev_log_number_ e = Some n -> u64_ok n;
  eo_next : ∀ n, next_file_number_ e = Some n -> u64_ok n;
  eo_seq : ∀ n, last_sequence_ e = Some n -> u64_ok n;
  eo_ptr : Forall (λ p, level_ok (fst p) ∧ key_ok (snd p)) (compact_pointers_ e);
  eo_del : Forall (λ p, level_ok (fst p) ∧ u64_ok (snd p)) (deleted_files_ e) ∧
           StronglySorted (λ a b, pair_compare a b = Lt) (deleted_files_ e);
  eo_new : Forall (λ p, level_ok (fst p) ∧ file_ok (snd p)) (new_files_ e)
}.

Lemma put_varint32_nil dst v : put_varint32 dst v = dst ++ put_varint32 [] v.
Proof. done. Qed.
Lemma put_varint64_nil dst v : put_varint64 dst v = dst ++ put_varint64 [] v.
Proof. done. Qed.
Lemma put_length_prefixed_nil dst v : put_length_prefixed dst v = dst ++ put_length_prefixed [] v.
Proof. unfold put_length_prefixed. by rewrite put_varint32_nil, <- app_assoc. Qed.
Lemma put_tag_nil dst t : put_tag dst t = dst ++ put_tag [] t.
Proof. done. Qed.

Lemma encode_number_nil dst t n (F : Z -> Field) :
  (forall k, encode_field (F k) = tagged t (put_varint64 [] k)) ->
  encode_number dst t n = dst ++ (option_field F n ≫= encode_field).
Proof.
  intros H. destruct n as [n|]; simpl; [|by rewrite app_nil_r].
  rewrite app_nil_r, H. unfold tagged. by rewrite put_varint64_nil, put_tag_nil, <- app_assoc.
Qed.

Lemma encode_to_fields e : encode_to e = fields_of e ≫= encode_field.
Proof.
  unfold encode_to, fields_of.
  rewrite (fold_append _ (λ '(l, m), encode_field
    (FNew l (number m) (file_size m) (smallest m) (largest m)))).
  2:{ intros dst [l m]. cbn [encode_field]. unfold tagged.
      rewrite (put_length_prefixed_nil (put_length_prefixed _ _)), (put_length_prefixed_nil (put_varint64 _ _)).
      rewrite (put_varint64_nil (put_varint64 _ _)), (put_varint64_nil (put_varint32 _ _)).
      rewrite (put_varint32_nil (put_tag _ _)), put_tag_nil. by rewrite <- !app_assoc. }
  rewrite (fold_append _ (λ '(l, n), encode_field (FDeleted l n))).
  2:{ intros dst [l n]. cbn [encode_field]. unfold tagged.
      rewrite put_varint64_nil, (put_varint32_nil (put_tag _ _)), put_tag_nil. by rewrite <- !app_assoc. }
  rewrite (fold_append _ (λ '(l, k), encode_field (FPointer l k))).
  2:{ intros dst [l k]. cbn [encode_field]. unfold tagged.
      rewrite put_length_prefixed_nil, (put_varint32_nil (put_tag _ _)), put_tag_nil. by rewrite <- !app_assoc. }
  rewrite (encode_number_nil _ _ (last_sequence_ e) FLastSeq),
    (encode_number_nil _ _ (next_file_number_ e) FNextFile),
    (encode_number_nil _ _ (prev_log_number_ e) FPrevLog),
    (encode_number_nil _ _ (log_number_ e) FLog) by done.
  rewrite !bind_app, <- !app_assoc. f_equal; [destruct (comparator_ e) as [n|]; simpl|].
  - rewrite app_nil_r. unfold tagged. by rewrite put_length_prefixed_nil.
  - done.
  - do 4 f_equal. rewrite !list_fmap_bind.
    f_equal; [|f_equal]; apply list_bind_ext; try done; by intros [??].
Qed.

Lemma Tag_of_to t : Tag_of_Z (Tag_to_Z t) = Some t.
Proof. by destruct t. Qed.

Lemma get_tag t rest : get_varint32 (put_tag [] t ++ rest) = Some (Tag_to_Z t, rest).
Proof. unfold put_tag, put_varint32. rewrite app_nil_l. apply get_varint32_loop. destruct t; simpl; lia. Qed.

Lemma get_level_put l rest : level_ok l -> get_level (put_varint32 [] (u32 l) ++ rest) = Some (l, rest).
Proof.
  intros H. unfold level_ok, get_level, put_varint32 in *. rewrite app_nil_l, u32_small by lia.
  rewrite get_varint32_loop by lia. destruct (Z.leb_spec 7 l); [lia|done].
Qed.

Lemma get_u64_put n rest : u64_ok n -> get_varint64 (put_varint64 [] n ++ rest) = Some (n, rest).
Proof. intros. unfold put_varint64. rewrite app_nil_l. by apply get_varint64_loop. Qed.

Lemma get_key_put k rest :
  key_ok k -> get_length_prefixed (put_length_prefixed [] k ++ rest) = Some (k, rest) ∧
              (size k <? 8) = false.
Proof.
  intros [H1 H2]. split; [by apply get_put_length_prefixed_app|]. by apply Z.ltb_ge.
Qed.

(** One field read back. *)
Lemma decode_encode_field f e rest fuel :
  field_ok f ->
  decode_loop (S fuel) e (encode_field f ++ rest) = decode_loop fuel (apply_field e f) rest.
Proof.
  intros Hf. cbn [decode_loop].
  destruct f; cbn [encode_field field_ok apply_field] in *; unfold tagged; rewrite <- !app_assoc, get_tag;
    unfold decode_field; rewrite Tag_of_to; rewrite <- ?app_assoc.
  - by rewrite get_put_length_prefixed_app.
  - by rewrite get_u64_put.
  - by rewrite get_u64_put.
  - by rewrite get_u64_put.
  - by rewrite get_u64_put.
  - destruct Hf as [Hl Hk]. rewrite get_level_put by done.
    destruct (get_key_put key rest Hk) as [Ek Es]. cbn [mbind option_bind]. rewrite Ek. cbn [mbind option_bind]. by rewrite Es.
  - destruct Hf as [Hl Hn]. rewrite get_level_put by done. cbn [mbind option_bind]. by rewrite get_u64_put.
  - destruct Hf as (Hl & Hn & Hfs & Hsm & Hla). rewrite get_level_put by done. cbn [mbind option_bind].
    rewrite get_u64_put by done. cbn [mbind option_bind]. rewrite get_u64_put by done. cbn [mbind option_bind].
    destruct (get_key_put sm (put_length_prefixed [] la ++ rest) Hsm) as [-> Es]. cbn [mbind option_bind].
    destruct (get_key_put la rest Hla) as [-> El]. cbn [mbind option_bind]. by rewrite Es, El.
Qed.

Lemma decode_encode_fields fs e fuel :
  Forall field_ok fs -> (length fs <= fuel)%nat ->
  decode_loop fuel e (fs ≫= encode_field) =
    (fold_left apply_field fs e, None, []).
Proof.
  revert e fuel. induction fs as [|f fs IH]; intros e fuel Hok Hf; [by destruct fuel|].
  inversion Hok; subst. destruct fuel as [|fuel]; [simpl in Hf; lia|].
  cbn [mbind list_bind fold_left]. rewrite decode_encode_field by done.
  apply IH; [done|simpl in Hf; lia].
Qed.

Lemma encode_field_length f : (1 <= length (encode_field f))%nat.
Proof.
  destruct f; cbn [encode_field]; unfold tagged; rewrite length_app;
    match goal with |- context [put_tag [] ?t] => change (length (put_tag [] t)) with 1%nat end; lia.
Qed.
Lemma encode_fields_length fs : (length fs <= length (fs ≫= encode_field))%nat.
Proof.
  induction fs as [|f fs IH]; [done|]. cbn [mbind list_bind length]. rewrite length_app.
  pose proof (encode_field_length f). lia.
Qed.

(** ** The set of deleted files *)
Lemma pair_compare_eq a b : pair_compare a b = Eq -> a = b.
Proof.
  unfold pair_compare. destruct a as [a1 a2], b as [b1 b2]; simpl.
  destruct (Z.compare_spec a1 b1), (Z.compare_spec a2 b2); subst; congruence.
Qed.
Lemma pair_compare_gt a b : pair_compare a b = Gt -> pair_compare b a = Lt.
Proof.
  unfold pair_compare. rewrite (Z.compare_antisym (fst a)), (Z.compare_antisym (snd a)).
  by destruct (Z.compare (fst a) (fst b)), (Z.compare (snd a) (snd b)).
Qed.
Lemma pair_compare_trans a b c :
  pair_compare a b = Lt -> pair_compare b c = Lt -> pair_compare a c = Lt.
Proof.
  unfold pair_compare.
  destruct (Z.compare_spec (fst a) (fst b)), (Z.compare_spec (fst b) (fst c)),
    (Z.compare_spec (fst a) (fst c)); try lia; try done;
  destruct (Z.compare_spec (snd a) (snd b)), (Z.compare_spec (snd b) (snd c)),
    (Z.compare_spec (snd a) (snd c)); try lia; done.
Qed.

Lemma set_insert_Forall (P : Z * Z -> Prop) x l : P x -> Forall P l -> Forall P (set_insert x l).
Proof.
  intros Hx. induction 1 as [|y l Hy Hl IH]; simpl; [auto|].
  destruct (pair_compare x y); auto.
Qed.

Lemma set_insert_sorted x l :
  StronglySorted (λ a b, pair_compare a b = Lt) l ->
  StronglySorted (λ a b, pair_compare a b = Lt) (set_insert x l).
Proof.
  induction 1 as [|y l Hs IH Hy]; simpl; [repeat constructor|].
  destruct (pair_compare x y) eqn:E.
  - by constructor.
  - constructor; [by constructor|]. constructor; [done|].
    eapply Forall_impl; [done|]. intros z Hz. by eapply pair_compare_trans.
  - constructor; [done|]. apply set_insert_Forall; [by apply pair_compare_gt|done].
Qed.

Lemma pair_compare_lt_gt a b : pair_compare a b = Lt -> pair_compare b a = Gt.
Proof.
  unfold pair_compare. rewrite (Z.compare_antisym (fst a)), (Z.compare_antisym (snd a)).
  by destruct (Z.compare (fst a) (fst b)), (Z.compare (snd a) (snd b)).
Qed.

(** Inserting above everything appends. *)
Lemma set_insert_snoc x l :
  Forall (λ a, pair_compare a x = Lt) l -> set_insert x l = l ++ [x].
Proof.
  induction 1 as [|y l Hy Hl IH]; simpl; [done|].
  by rewrite (pair_compare_lt_gt _ _ Hy), IH.
Qed.

Lemma fold_deleted e d :
  StronglySorted (λ a b, pair_compare a b = Lt) (deleted_files_ e ++ d) ->
  fold_left apply_field ((λ '(l, n), FDeleted l n) <$> d) e =
    mkEdit (comparator_ e) (log_number_ e) (prev_log_number_ e) (next_file_number_ e)
      (last_sequence_ e) (compact_pointers_ e) (deleted_files_ e ++ d) (new_files_ e).
Proof.
  revert e. induction d as [|[l n] d IH]; intros e Hs; simpl.
  - rewrite app_nil_r. by destruct e.
  - unfold remove_file. rewrite set_insert_snoc.
    + rewrite IH; simpl; [by rewrite <- app_assoc|]. by rewrite <- app_assoc.
    + apply StronglySorted_app in Hs as (H & _ & _). apply Forall_forall. intros a Ha.
      apply H; [done|by left].
Qed.

Lemma fold_pointers e d :
  fold_left apply_field ((λ '(l, k), FPointer l k) <$> d) e =
    mkEdit (comparator_ e) (log_number_ e) (prev_log_number_ e) (next_file_number_ e)
      (last_sequence_ e) (compact_pointers_ e ++ d) (deleted_files_ e) (new_files_ e).
Proof.
  revert e. induction d as [|[l k] d IH]; intros e; simpl.
  - rewrite app_nil_r. by destruct e.
  - rewrite IH; simpl. by rewrite <- app_assoc.
Qed.

Lemma fold_new e d :
  Forall (λ p, file_ok (snd p)) d ->
  fold_left apply_field
    ((λ '(l, m), FNew l (number m) (file_size m) (smallest m) (largest m)) <$> d) e =
    mkEdit (comparator_ e) (log_number_ e) (prev_log_number_ e) (next_file_number_ e)
      (last_sequence_ e) (compact_pointers_ e) (deleted_files_ e) (new_files_ e ++ d).
Proof.
  intros Hd. revert e. induction Hd as [|[l m] d Hm Hd IH]; intros e; simpl.
  - rewrite app_nil_r. by destruct e.
  - rewrite IH; simpl. destruct Hm as (_ & _ & _ & _ & Ha & Hr). simpl in *.
    rewrite <- Ha, <- Hr, <- app_assoc. by destruct m.
Qed.

Lemma fold_fields_of e :
  edit_ok e -> fold_left apply_field (fields_of e) clear = e.
Proof.
  intros He. unfold fields_of. rewrite !fold_left_app.
  rewrite fold_new by (eapply Forall_impl; [apply (eo_new _ He)|by intros ? []]).
  destruct e as [c lg pl nf ls cp df nw]. destruct (eo_del _ He) as [_ Hsort]. simpl in *.
  assert (∀ e0, compact_pointers_ e0 = [] -> deleted_files_ e0 = [] -> new_files_ e0 = [] ->
    comparator_ e0 = c -> log_number_ e0 = lg -> prev_log_number_ e0 = pl ->
    next_file_number_ e0 = nf -> last_sequence_ e0 = ls ->
    fold_left apply_field ((λ '(l, n), FDeleted l n) <$> df)
      (fold_left apply_field ((λ '(l, k), FPointer l k) <$> cp) e0) =
    mkEdit c lg pl nf ls cp df []) as H.
  { intros [] ????????; simpl in *; subst. rewrite fold_pointers, fold_deleted; simpl; done. }
  rewrite H by (destruct c, lg, pl, nf, ls; done). done.
Qed.

Lemma fields_ok e : edit_ok e -> Forall field_ok (fields_of e).
Proof.
  intros [Hc Hl Hp Hn Hs Hptr [Hdel _] Hnew]. unfold fields_of.
  repeat apply Forall_app_2.
  - destruct (comparator_ e); repeat constructor. simpl. auto.
  - destruct (log_number_ e); repeat constructor; simpl; apply Hl; done.
  - destruct (prev_log_number_ e); repeat constructor; simpl; apply Hp; done.
  - destruct (next_file_number_ e); repeat constructor; simpl; apply Hn; done.
  - destruct (last_sequence_ e); repeat constructor; simpl; apply Hs; done.
  - apply Forall_fmap. eapply Forall_impl; [done|]. by intros [l k].
  - apply Forall_fmap. eapply Forall_impl; [done|]. by intros [l n].
  - apply Forall_fmap. eapply Forall_impl; [done|]. intros [l m] (H1 & H2 & H3 & H4 & H5 & _). done.
Qed.

(** ** What the decoder lets through *)
Lemma get_varint64_range input v rest : get_varint64 input = Some (v, rest) -> u64_ok v.
Proof.
  unfold get_varint64, get_varint, u64_ok.
  assert (∀ n input result shift, 0 <= result < 2 ^ 64 ->
    get_varint_loop u64 n input result shift = Some (v, rest) -> 0 <= v < 2 ^ 64)
    as Hgen; [|apply Hgen; lia].
  induction n as [|n IH]; intros i r s Hr H; [done|].
  destruct i as [|b i]; [done|]. rewrite get_varint_loop_cons in H. cbv zeta in H.
  assert (0 <= r .| u64 ((byte_to_Z b .& 127) .<< s) < 2 ^ 64) as R.
  { apply lor_range; [done|done|apply u64_range]. }
  case_if; [by simplify_eq|by apply IH in H].
Qed.

Lemma get_length_prefixed_size input v rest :
  get_length_prefixed input = Some (v, rest) -> size v < 2 ^ 32.
Proof.
  unfold get_length_prefixed. destruct (get_varint32 input) as [[n i]|] eqn:E; [|done].
  apply get_varint32_range in E. case_if; [done|]. intros [= <- <-]. b2p.
  unfold size in *. rewrite length_take. lia.
Qed.

Lemma get_level_ok input l rest : get_level input = Some (l, rest) -> level_ok l.
Proof.
  unfold get_level, level_ok. destruct (get_varint32 input) as [[v i]|] eqn:E; [|done].
  apply get_varint32_range in E. case_if; [done|]. b2p. intros [= <- <-]. lia.
Qed.

Lemma decode_field_ok tag e input e' rest :
  edit_ok e -> decode_field tag e input = inr (e', rest) -> edit_ok e'.
Proof.
  intros He. destruct (eo_del _ He) as [Hd1 Hd2]. destruct He as [H1 H2 H3 H4 H5 H6 _ H8].
  unfold decode_field. destruct (Tag_of_Z tag) as [[]|]; [..|done].
  - destruct (get_length_prefixed input) as [[f i]|] eqn:E; [|done]. intros [= <- <-].
    apply get_length_prefixed_size in E. split; simpl; try done. naive_solver.
  - destruct (get_varint64 input) as [[n i]|] eqn:E; [|done]. intros [= <- <-].
    apply get_varint64_range in E. split; simpl; try done. naive_solver.
  - destruct (get_varint64 input) as [[n i]|] eqn:E; [|done]. intros [= <- <-].
    apply get_varint64_range in E. split; simpl; try done. naive_solver.
  - destruct (get_varint64 input) as [[n i]|] eqn:E; [|done]. intros [= <- <-].
    apply get_varint64_range in E. split; simpl; try done. naive_solver.
  - destruct (get_level input) as [[l i]|] eqn:El; [|done]. simpl.
    destruct (get_length_prefixed i) as [[f i']|] eqn:E; [|done]. simpl.
    case_if; [done|]. intros [= <- <-]. b2p. apply get_level_ok in El.
    apply get_length_prefixed_size in E. split; simpl; try done.
    apply Forall_app_2; [done|]. repeat constructor; simpl; unfold level_ok in *; lia.
  - destruct (get_level input) as [[l i]|] eqn:El; [|done]. simpl.
    destruct (get_varint64 i) as [[n i']|] eqn:E; [|done]. simpl. intros [= <- <-].
    apply get_level_ok in El. apply get_varint64_range in E. split; simpl; try done.
    split; [by apply set_insert_Forall|by apply set_insert_sorted].
  - destruct (get_level input) as [[l i]|] eqn:El; [|done]. simpl.
    destruct (get_varint64 i) as [[n i1]|] eqn:E1; [|done]. simpl.
    destruct (get_varint64 i1) as [[fs i2]|] eqn:E2; [|done]. simpl.
    destruct (get_length_prefixed i2) as [[sm i3]|] eqn:E3; [|done]. simpl.
    destruct (get_length_prefixed i3) as [[la i4]|] eqn:E4; [|done]. simpl.
    case_if; [done|]. intros [= <- <-]. b2p.
    apply get_level_ok in El. apply get_varint64_range in E1, E2.
    apply get_length_prefixed_size in E3, E4. split; simpl; try done.
    apply Forall_app_2; [done|]. repeat constructor; simpl; unfold level_ok, u64_ok in *; lia.
  - destruct (get_varint64 input) as [[n i]|] eqn:E; [|done]. intros [= <- <-].
    apply get_varint64_range in E. split; simpl; try done. naive_solver.
Qed.

Lemma decode_loop_ok fuel e input e' f rest :
  edit_ok e -> decode_loop fuel e input = (e', f, rest) -> edit_ok e'.
Proof.
  revert e input. induction fuel as [|fuel IH]; intros e input He; cbn [decode_loop].
  - by intros [= <- <- <-].
  - destruct (get_varint32 input) as [[tag i]|]; [|by intros [= <- <- <-]].
    destruct (decode_field tag e i) as [s|[e1 i1]] eqn:E; [by intros [= <- <- <-]|].
    apply IH. by eapply decode_field_ok.
Qed.

Lemma clear_ok : edit_ok clear.
Proof. split; simpl; try done. split; constructor. Qed.

(** * Theorems *)

(** A written edit decodes to itself. *)
Lemma edit_decodes e : edit_ok e -> decode_from (encode_to e) = (ok, e).
Proof.
  intros He. unfold decode_from. rewrite encode_to_fields.
  rewrite decode_encode_fields by (auto using fields_ok, encode_fields_length).
  by rewrite fold_fields_of.
Qed.

(** C31. Manifest edits round-trip: an edit whose levels, numbers and keys are
    in range decodes from its encoding to itself. *)
Theorem edit_roundtrip e : edit_ok e -> decode_from (encode_to e) = (ok, e).
Proof. apply edit_decodes. Qed.

Definition sample_edit : VersionEdit :=
  add_file (remove_file (set_log_number clear 7) 2 12) 3 15 4096
    (make_internal_key [x61] 3 kValue) (make_internal_key [x7a] 9 kDeletion).

Lemma sample_edit_ok : edit_ok sample_edit.
Proof.
  split; simpl; try done; try (intros n [= <-]); unfold u64_ok; try lia.
  - split; repeat constructor; simpl; lia.
  - constructor; [|constructor]. unfold level_ok, file_ok, u64_ok, key_ok.
    vm_compute. split_and!; done.
Qed.
Lemma edit_roundtrip_witness : decode_from (encode_to sample_edit) = (ok, sample_edit).
Proof. apply edit_roundtrip. exact sample_edit_ok. Defined.

(** C32. What the decoder accepts is safe to use: for every byte string, the
    edit [decode_from] leaves behind, on success or failure, has only levels
    the version's arrays have, keys long enough to be internal keys, and
    numbers of 64 bits. *)
Theorem decoded_edit_is_valid src : edit_ok (snd (decode_from src)).
Proof.
  unfold decode_from. destruct (decode_loop (length src) clear src) as [[e f] rest] eqn:E.
  apply decode_loop_ok in E; [|apply clear_ok].
  by destruct f, rest.
Qed.

End VersionEdit.
