(* ===== verification/Version.v ===== *)
(** One set of table files by level, and what is read from it (the anonymous
    helpers, [LevelFileNumIterator] and [Version] of src/src/version_set.hpp
    and src/src/version_set.cpp).

    A [FileMetaData*] is an address with the fields that never change after the
    file object is made; the two that do, [allowed_seeks] and [refs], are state
    kept apart, by address.  A version's own reference count and its place in
    the list of versions are in VersionSet.v. *)
From Stdlib Require Import SpecFloat.
From stdpp Require Import gmap.
From S2P Require Import Prelude Status Encoding DbFormat Comparator Iterator VersionEdit TwoLevelIterator MemTable.
Import Status Encoding DbFormat Comparator Iterator VersionEdit.
Local Open Scope Z_scope.

Module Version.

Definition kNumLevels : nat := 7.
Definition kL0CompactionTrigger : Z := 4.
Definition kL0SlowdownWritesTrigger : Z := 8.
Definition kL0StopWritesTrigger : Z := 12.
Definition kMaxMemCompactLevel : nat := 2.

(** [double]: IEEE binary64. *)
Abbreviation double := spec_float.
Definition double_of_Z (z : Z) : double := binary_normalize 53 1024 z 0 false.
Definition dmul : double -> double -> double := SFmul 53 1024.
Definition ddiv : double -> double -> double := SFdiv 53 1024.
Definition dlt : double -> double -> bool := SFltb.
Definition dle : double -> double -> bool := SFleb.

Record FilePtr := mkPtr { f_address : nat; f_meta :> FileMetaData }.
#[global] Instance FilePtr_eq_dec : EqDecision FilePtr.
Proof. solve_decision. Defined.

Record Version := mkVersion {
  files_ : list (list FilePtr);            (* [kNumLevels] of them *)
  file_to_compact_ : option FilePtr;
  file_to_compact_level_ : Z;
  compaction_score_ : double;
  compaction_level_ : Z
}.
Definition Version_new : Version :=
  mkVersion (replicate kNumLevels []) None (-1) (double_of_Z (-1)) (-1).
Definition level_files (v : Version) (level : nat) : list FilePtr := default [] (files_ v !! level).

(** ** Helpers *)

(** [static_cast<int64_t>]. *)
Definition i64 (z : Z) : Z := let z := u64 z in if z <? 2 ^ 63 then z else z - 2 ^ 64.

(** [result *= 10] until [level] is one. *)
Fixpoint max_bytes_for_level (level : nat) : double :=
  match level with
  | O | 1%nat => dmul (double_of_Z 10) (double_of_Z 1048576)
  | S level' => dmul (max_bytes_for_level level') (double_of_Z 10)
  end.

(** The sum is an [int64_t]; it would overflow with 2^63 bytes of tables. *)
Definition total_file_size (files : list FilePtr) : Z :=
  fold_left (λ sum (file : FilePtr), sum + i64 (file_size file)) files 0.

(** [user_key] is null or a string. *)
Definition after_file (user_key : option bytes) (file : FilePtr) : bool :=
  match user_key with
  | None => false
  | Some k => bool_decide (compare bytewise_comparator k (extract_user_key (largest file)) = Gt)
  end.
Definition before_file (user_key : option bytes) (file : FilePtr) : bool :=
  match user_key with
  | None => false
  | Some k => bool_decide (compare bytewise_comparator k (extract_user_key (smallest file)) = Lt)
  end.

(** The loop halves [right - left]; [None] is a read past the end. *)
Fixpoint find_file_loop (fuel : nat) (comparator : Comparator) (files : list FilePtr) (key : bytes)
    (left right : nat) : option nat :=
  match fuel with
  | O => None
  | S fuel' =>
      if (left <? right)%nat then
        let mid := ((left + right) / 2)%nat in
        file ← files !! mid;
        if bool_decide (compare comparator (largest (f_meta file)) key = Lt)
        then find_file_loop fuel' comparator files key (S mid) right
        else find_file_loop fuel' comparator files key left mid
      else Some right
  end.
Definition find_file (comparator : Comparator) (files : list FilePtr) (key : bytes) : option nat :=
  find_file_loop (S (length files)) comparator files key 0 (length files).

Definition some_file_overlaps_range (comparator : Comparator) (disjoint_sorted_files : bool)
    (files : list FilePtr) (smallest_user_key largest_user_key : option bytes) : option bool :=
  if negb disjoint_sorted_files then
    Some (existsb (λ file, negb (after_file smallest_user_key file) && negb (before_file largest_user_key file)) files)
  else
    index ←
      match smallest_user_key with
      | Some k => find_file comparator files (make_internal_key k kMaxSequenceNumber kValueTypeForSeek)
      | None => Some 0%nat
      end;
    Some (match files !! index with
          | None => false
          | Some file => negb (before_file largest_user_key file)
          end).

(** ** LevelFileNumIterator *)
Record LevelFileNumIterator := mkLevelIter {
  li_comparator : Comparator;
  li_files : list FilePtr;
  li_index : nat
}.
Definition LevelFileNumIterator_new (comparator : Comparator) (files : list FilePtr) : LevelFileNumIterator :=
  mkLevelIter comparator files (length files).
Definition li_set (it : LevelFileNumIterator) (index : nat) : LevelFileNumIterator :=
  mkLevelIter (li_comparator it) (li_files it) index.
Definition file_value (file : FilePtr) : bytes :=
  encode_fixed64 (number file) ++ encode_fixed64 (file_size file).
Definition level_iterator : Iterator LevelFileNumIterator :=
  mkIterator LevelFileNumIterator
    (λ it, (li_index it <? length (li_files it))%nat)
    (λ it, Some (li_set it 0))
    (λ it, Some (li_set it (if bool_decide (li_files it = []) then 0%nat else length (li_files it) - 1)%nat))
    (λ it target, li_set it <$> find_file (li_comparator it) (li_files it) target)
    (λ it, Some (li_set it (S (li_index it))))
    (λ it, Some (li_set it (if li_index it is S i then i else length (li_files it))))
    (λ it, default [] ((λ file : FilePtr, largest file) <$> li_files it !! li_index it))
    (λ it, file_value <$> li_files it !! li_index it)
    (λ _, ok).

(** [get_file_iterator]: what the level iterator's value names; [new_iterator]
    and [error] are the table cache's and the error iterator. *)
Definition get_file_iterator {D} (new_iterator : Z -> Z -> D) (error : Status -> D) (file_value : bytes) : D :=
  if negb (size file_value =? 16)
  then error (corruption "file entry in a level index is the wrong size")
  else
    match decode_fixed64 file_value, decode_fixed64 (drop 8 file_value) with
    | Some number, Some size => new_iterator number size
    | _, _ => error ok  (* not reached: both are eight bytes *)
    end.

(** ** Version::get *)
Inductive State := NotFound | Found | Deleted | Corrupt.
Record Saver := mkSaver { saver_state : State; saver_user_key : bytes; saver_value : bytes }.

Definition save_value (saver : Saver) (key value : bytes) : Saver :=
  match parse_internal_key key with
  | None => mkSaver Corrupt (saver_user_key saver) (saver_value saver)
  | Some parsed =>
      if negb (bool_decide (user_key parsed = saver_user_key saver)) then saver
      else
        match type parsed with
        | kValue => mkSaver Found (saver_user_key saver) value
        | kDeletion => mkSaver Deleted (saver_user_key saver) (saver_value saver)
        end
  end.

(** [TableCache::get]: its status and what the callback was given, for the
    file with a number and size; [None] is undefined behaviour in it. *)
Record TableReader (TC : Type) := mkTableReader {
  tc_get : TC -> Z -> Z -> bytes -> option (Status * option (bytes * bytes) * TC)
}.
Arguments tc_get {TC}.

Section Get.
Context {TC : Type} (reader : TableReader TC).

Record LookupState := mkLookup {
  lo_value : bytes;
  seek_file : option FilePtr;
  seek_file_level : Z;
  last_file_read : option FilePtr;
  last_file_read_level : Z;
  table_cache : TC
}.

(** The file to charge before another one is searched. *)
Definition charge (lo : LookupState) (file : FilePtr) (level : Z) : LookupState :=
  let '(sf, sl) :=
    match last_file_read lo, seek_file lo with
    | Some f, None => (Some f, last_file_read_level lo)
    | _, _ => (seek_file lo, seek_file_level lo)
    end in
  mkLookup (lo_value lo) sf sl (Some file) level (table_cache lo).

(** [search]: [inl] is "keep looking", [inr] the settled status. *)
Definition search (lo : LookupState) (user_key lookup : bytes) (file : FilePtr) (level : Z) :
    option ((() + Status) * LookupState) :=
  let lo := charge lo file level in
  '(status, given, tc) ← tc_get reader (table_cache lo) (number file) (file_size file) lookup;
  let saver := mkSaver NotFound user_key (lo_value lo) in
  let saver := match given with Some (key, value) => save_value saver key value | None => saver end in
  let lo := mkLookup (saver_value saver) (seek_file lo) (seek_file_level lo)
              (last_file_read lo) (last_file_read_level lo) tc in
  Some (if negb (is_ok status) then inr status
        else match saver_state saver with
             | NotFound => inl ()
             | Found => inr ok
             | Deleted => inr (not_found "deleted")
             | Corrupt => inr (corruption "table entry has a malformed internal key")
             end, lo).

Definition covers (user_key : bytes) (file : FilePtr) : bool :=
  bool_decide (compare bytewise_comparator user_key (extract_user_key (smallest file)) <> Lt) &&
  bool_decide (compare bytewise_comparator user_key (extract_user_key (largest file)) <> Gt).

(** The newest file numbered below [newer_than] that covers the key. *)
Definition next_newest (user_key : bytes) (newer_than : Z) (files : list FilePtr) : option FilePtr :=
  fold_left (λ next file,
    if (number (f_meta file) <? newer_than) &&
       (match next with None => true | Some n => number (f_meta n) <? number (f_meta file) end) &&
       covers user_key file
    then Some file else next) files None.

(** Every round goes to a smaller number in the level. *)
Fixpoint search_level0 (fuel : nat) (lo : LookupState) (user_key lookup : bytes) (files : list FilePtr) (newer_than : Z) :
    option ((() + Status) * LookupState) :=
  match fuel with
  | O => None
  | S fuel' =>
      match next_newest user_key newer_than files with
      | None => Some (inl (), lo)
      | Some next =>
          '(r, lo) ← search lo user_key lookup next 0;
          match r with
          | inr status => Some (inr status, lo)
          | inl _ => search_level0 fuel' lo user_key lookup files (number next)
          end
      end
  end.

Fixpoint search_levels (lo : LookupState) (user_key lookup : bytes) (level : nat) (levels : list (list FilePtr)) :
    option ((() + Status) * LookupState) :=
  match levels with
  | [] => Some (inl (), lo)
  | files :: levels' =>
      let continue lo := search_levels lo user_key lookup (S level) levels' in
      if bool_decide (files = []) then continue lo
      else
        index ← find_file internal_key_comparator files lookup;
        match files !! index with
        | None => continue lo
        | Some file =>
            if bool_decide (compare bytewise_comparator user_key (extract_user_key (smallest (f_meta file))) = Lt)
            then continue lo
            else
              '(r, lo) ← search lo user_key lookup file (Z.of_nat level);
              match r with
              | inr status => Some (inr status, lo)
              | inl _ => continue lo
              end
        end
  end.

(** The status, and [*value], [*stats] and the table cache after the call. *)
Definition get (v : Version) (tc : TC) (key : LookupKey) (value : bytes) : option (Status * LookupState) :=
  let user_key := lk_user_key key in
  let lookup := lk_internal_key key in
  let lo := mkLookup value None (-1) None (-1) tc in
  let level0 := level_files v 0 in
  '(r, lo) ← search_level0 (S (length level0)) lo user_key lookup level0 (2 ^ 64 - 1);
  match r with
  | inr status => Some (status, lo)
  | inl _ =>
      '(r, lo) ← search_levels lo user_key lookup 1 (drop 1 (files_ v));
      Some (match r with inr status => status | inl _ => not_found "not present" end, lo)
  end.
End Get.

(** ** Version::update_stats

    [seeks] holds [allowed_seeks] by address; [None] is a read of a file that
    was freed, or signed overflow. *)
Definition update_stats (v : Version) (seeks : gmap nat Z) (seek_file : option FilePtr) (seek_file_level : Z) :
    option (bool * Version * gmap nat Z) :=
  match seek_file with
  | None => Some (false, v, seeks)
  | Some file =>
      allowed ← seeks !! f_address file;
      if allowed =? - 2 ^ 31 then None
      else
        let seeks := <[f_address file := allowed - 1]> seeks in
        if (allowed - 1 <=? 0) && bool_decide (file_to_compact_ v = None)
        then Some (true, mkVersion (files_ v) (Some file) seek_file_level (compaction_score_ v) (compaction_level_ v), seeks)
        else Some (false, v, seeks)
  end.

(** ** Version::get_overlapping_inputs

    [user_begin] and [user_end] are null or the bound so far; a bound that
    widens starts the scan again. *)
Definition below_range (user_begin : option bytes) (file : FilePtr) : bool :=
  match user_begin with
  | Some b => bool_decide (compare bytewise_comparator (extract_user_key (largest file)) b = Lt)
  | None => false
  end.
Definition above_range (user_end : option bytes) (file : FilePtr) : bool :=
  match user_end with
  | Some e => bool_decide (compare bytewise_comparator (extract_user_key (smallest file)) e = Gt)
  | None => false
  end.
Definition widens_begin (user_begin : option bytes) (file : FilePtr) : bool :=
  match user_begin with
  | Some b => bool_decide (compare bytewise_comparator (extract_user_key (smallest file)) b = Lt)
  | None => false
  end.
Definition widens_end (user_end : option bytes) (file : FilePtr) : bool :=
  match user_end with
  | Some e => bool_decide (compare bytewise_comparator (extract_user_key (largest file)) e = Gt)
  | None => false
  end.

Fixpoint overlapping_loop (fuel : nat) (level0 : bool) (files : list FilePtr) (rest : list FilePtr)
    (user_begin user_end : option bytes) (inputs : list FilePtr) : option (list FilePtr) :=
  match fuel with
  | O => None
  | S fuel' =>
      match rest with
      | [] => Some inputs
      | file :: rest' =>
          if below_range user_begin file || above_range user_end file
          then overlapping_loop fuel' level0 files rest' user_begin user_end inputs
          else if level0 && widens_begin user_begin file then
            overlapping_loop fuel' level0 files files (Some (extract_user_key (smallest file))) user_end []
          else if level0 && widens_end user_end file then
            overlapping_loop fuel' level0 files files user_begin (Some (extract_user_key (largest file))) []
          else overlapping_loop fuel' level0 files rest' user_begin user_end (inputs ++ [file])
      end
  end.
Definition overlapping_fuel (files : list FilePtr) : nat := ((2 * length files + 1) * S (length files) + 1)%nat.
Definition get_overlapping_inputs (v : Version) (level : nat) (begin_ end_ : option bytes) : option (list FilePtr) :=
  let files := level_files v level in
  overlapping_loop (overlapping_fuel files) (level =? 0)%nat files files
    (extract_user_key <$> begin_) (extract_user_key <$> end_) [].

Definition overlaps_in_level (v : Version) (level : nat) (smallest_user_key largest_user_key : option bytes) :
    option bool :=
  some_file_overlaps_range internal_key_comparator (0 <? level)%nat (level_files v level)
    smallest_user_key largest_user_key.

(** ** Version::pick_level_for_memtable_output: two rounds at most. *)
Fixpoint pick_level_loop (fuel : nat) (v : Version) (max_file_size : Z) (smallest_key largest_key : bytes) (level : nat) :
    option nat :=
  match fuel with
  | O => Some level
  | S fuel' =>
      if (level <? kMaxMemCompactLevel)%nat then
        overlap ← overlaps_in_level v (level + 1) (Some smallest_key) (Some largest_key);
        if overlap : bool then Some level
        else if (level + 2 <? kNumLevels)%nat then
          overlaps ← get_overlapping_inputs v (level + 2)
            (Some (make_internal_key smallest_key kMaxSequenceNumber kValueTypeForSeek))
            (Some (make_internal_key largest_key 0 kDeletion));
          if 10 * i64 max_file_size <? total_file_size overlaps then Some level
          else pick_level_loop fuel' v max_file_size smallest_key largest_key (S level)
        else pick_level_loop fuel' v max_file_size smallest_key largest_key (S level)
      else Some level
  end.
Definition pick_level_for_memtable_output (v : Version) (max_file_size : Z) (smallest_user_key largest_user_key : bytes) :
    option nat :=
  overlap ← overlaps_in_level v 0 (Some smallest_user_key) (Some largest_user_key);
  if overlap : bool then Some 0%nat
  else pick_level_loop (S kMaxMemCompactLevel) v max_file_size smallest_user_key largest_user_key 0.

Definition num_files (v : Version) (level : nat) : Z := Z.of_nat (length (level_files v level)).

(** * Finding a file *)

(** A level's files as the entries of an index. *)
Definition index_entries (files : list FilePtr) : list (bytes * bytes) :=
  (λ file : FilePtr, (largest file, file_value file)) <$> files.
Lemma index_entries_lookup files i (f : FilePtr) :
  files !! i = Some f -> index_entries files !! i = Some (largest f, file_value f).
Proof. intros H. unfold index_entries. by rewrite list_lookup_fmap, H. Qed.

Section Find.
Context (cmp : Comparator) `{!ComparatorLaws cmp}.

(** Whatever the order of the files, the search ends inside the list, between a
    file below the key and one that is not. *)
Lemma find_file_loop_spec fuel files key left right :
  (left <= right <= length files)%nat -> (right - left < fuel)%nat ->
  exists i, find_file_loop fuel cmp files key left right = Some i /\ (left <= i <= right)%nat /\
    (i = left \/ exists f, files !! (i - 1)%nat = Some f /\ key_lt cmp (largest (f_meta f)) key) /\
    (i = right \/ exists f, files !! i = Some f /\ ~ key_lt cmp (largest (f_meta f)) key).
Proof using.
  revert left right. induction fuel as [|fuel IH]; intros left right Hb Hf; [lia|]. cbn [find_file_loop].
  destruct (Nat.ltb_spec left right) as [Hlt|Hge]; [|exists right; split_and!; [done|lia|lia|left; lia|by left]].
  pose proof (Nat.Div0.div_lt_upper_bound (left + right) 2 right ltac:(lia)) as Hm1.
  pose proof (Nat.div_le_lower_bound (left + right) 2 left ltac:(lia) ltac:(lia)) as Hm2.
  set (mid := ((left + right) / 2)%nat) in *.
  destruct (lookup_lt_is_Some_2 files mid) as [f Ef]; [lia|]. rewrite Ef. cbn [mbind option_bind].
  case_bool_decide as Hc.
  - destruct (IH (S mid) right) as (i & -> & Hi & Hl & Hr); [lia|lia|]. exists i. split_and!; [done|lia|lia| |done].
    destruct Hl as [->|?]; [|by right]. right. exists f. cbn [Nat.sub]. by rewrite Nat.sub_0_r.
  - destruct (IH left mid) as (i & -> & Hi & Hl & Hr); [lia|lia|]. exists i. split_and!; [done|lia|lia|done|].
    destruct Hr as [->|?]; [|by right]. right. by exists f.
Qed.

Definition sorted_files (files : list FilePtr) : Prop :=
  StronglySorted (key_lt cmp) ((λ file : FilePtr, largest file) <$> files).

(** On files in order it is the first whose largest key is not below. *)
Lemma find_file_spec files key :
  sorted_files files -> find_file cmp files key = Some (lower_bound cmp (index_entries files) key).
Proof using ComparatorLaws0.
  intros Hs. destruct (find_file_loop_spec (S (length files)) files key 0 (length files)) as (i & E & Hi & Hl & Hr); [lia|lia|].
  unfold find_file. rewrite E. f_equal. apply lower_bound_unique.
  - unfold index_entries. rewrite length_fmap. lia.
  - intros j k v Hj Hk. unfold index_entries in Hk. rewrite list_lookup_fmap in Hk.
    destruct (files !! j) as [g|] eqn:Eg; [|done]. injection Hk as <- <-.
    destruct Hl as [->|(f & Ef & Hf)]; [lia|]. destruct (decide (j = (i - 1)%nat)) as [->|Hne]; [congruence|].
    eapply key_lt_trans; [|exact Hf]. eapply (StronglySorted_lookup _ _ j (i - 1)); [exact Hs|lia|..];
      rewrite list_lookup_fmap; [by rewrite Eg|by rewrite Ef].
  - intros k v Hk. unfold index_entries in Hk. rewrite list_lookup_fmap in Hk.
    destruct (files !! i) as [g|] eqn:Eg; [|done]. injection Hk as <- <-.
    destruct Hr as [->|(f & Ef & Hf)]; [|congruence]. rewrite lookup_ge_None_2 in Eg; done.
Qed.

#[global] Instance level_iterator_sorted limit files :
  sorted_files files ->
  SortedIteratorUpTo limit level_iterator cmp (index_entries files)
    (λ it i, it = mkLevelIter cmp files i /\ (i <= length files)%nat).
Proof using ComparatorLaws0.
  intros Hs. assert (length (index_entries files) = length files) as El by apply length_fmap.
  constructor; rewrite ?El; cbn -[Nat.ltb find_file]; intros it i; intros; destruct_and?; simplify_eq; cbn -[Nat.ltb find_file]; try done.
  - unfold index_entries in *. rewrite list_lookup_fmap in *. destruct (files !! i) as [f|]; [|done]. cbn in *. by simplify_eq.
  - eexists. split_and!; [done|done|lia].
  - eexists. split_and!; [done|done|]. destruct i; lia.
  - eexists. split_and!; [done|done|lia].
  - eexists. split_and!; [done|unfold li_set; cbn; f_equal; case_bool_decide as E|].
    + by rewrite E.
    + lia.
    + lia.
  - rewrite find_file_spec by done. eexists. split_and!; [done|done|]. rewrite <- El. apply lower_bound_le.
Qed.
End Find.

(** * Overlapping files *)

Definition ulo (file : FilePtr) : bytes := extract_user_key (smallest file).
Definition uhi (file : FilePtr) : bytes := extract_user_key (largest file).

(** A file of the range, the bounds null or user keys. *)
Definition in_range (b e : option bytes) (file : FilePtr) : bool :=
  negb (below_range b file) && negb (above_range e file).
(** A file inside the range. *)
Definition within (b e : option bytes) (file : FilePtr) : Prop :=
  widens_begin b file = false /\ widens_end e file = false.

Lemma length_filter_lt {A} (P Q : A -> bool) (l : list A) x :
  (forall y, P y -> Q y) -> x ∈ l -> Q x -> P x = false ->
  (length (List.filter P l) < length (List.filter Q l))%nat.
Proof.
  intros HPQ Hx HQ HP. assert (forall l, (length (List.filter P l) <= length (List.filter Q l))%nat) as Hle.
  { induction l0 as [|y l0 IH]; [done|]. cbn [List.filter]. pose proof (HPQ y).
    destruct (P y), (Q y); cbn [length]; try lia. by exfalso; apply H. }
  induction Hx as [x l|x y l Hx IH]; cbn [List.filter].
  - rewrite HP. destruct (Q x); [|done]. cbn [length]. specialize (Hle l). lia.
  - specialize (IH HQ HP). pose proof (HPQ y). destruct (P y), (Q y); cbn [length]; try lia. by exfalso; apply H.
Qed.
Lemma length_filter_le {A} (P : A -> bool) (l : list A) : (length (List.filter P l) <= length l)%nat.
Proof. induction l as [|x l IH]; [done|]. cbn [List.filter]. destruct (P x); cbn [length]; lia. Qed.

(** Files that could still widen a bound. *)
Definition wideners (files : list FilePtr) (b e : option bytes) : nat :=
  (length (List.filter (widens_begin b) files) + length (List.filter (widens_end e) files))%nat.
Lemma wideners_begin files b e file :
  file ∈ files -> widens_begin b file -> (wideners files (Some (ulo file)) e < wideners files b e)%nat.
Proof.
  intros Hin Hw. unfold wideners. apply Nat.add_lt_mono_r. destruct b as [b|]; [|done].
  apply (length_filter_lt _ _ _ file); [|done|done|].
  - intros f Hf. cbn in *. apply bool_decide_spec in Hf, Hw. apply bool_decide_spec. by eapply sv_compare_lt_trans.
  - cbn. apply bool_decide_eq_false. unfold ulo, bytewise_compare. by rewrite sv_compare_refl.
Qed.
Lemma sv_compare_gt a b : sv_compare a b = Gt <-> sv_compare b a = Lt.
Proof. rewrite (sv_compare_antisym b a). by destruct (sv_compare b a). Qed.
Lemma wideners_end files b e file :
  file ∈ files -> widens_end e file -> (wideners files b (Some (uhi file)) < wideners files b e)%nat.
Proof.
  intros Hin Hw. unfold wideners. apply Nat.add_lt_mono_l. destruct e as [e|]; [|done].
  apply (length_filter_lt _ _ _ file); [|done|done|].
  - intros f Hf. cbn in *. apply bool_decide_spec in Hf, Hw. apply bool_decide_spec. unfold bytewise_compare in *.
    rewrite sv_compare_gt in *. by eapply sv_compare_lt_trans.
  - cbn. apply bool_decide_eq_false. unfold uhi, bytewise_compare. by rewrite sv_compare_refl.
Qed.

(** A bound that is no tighter. *)
Definition wider_begin (b b' : option bytes) : Prop :=
  match b, b' with Some b, Some b' => sv_compare b' b <> Gt | None, None => True | _, _ => False end.
Definition wider_end (e e' : option bytes) : Prop :=
  match e, e' with Some e, Some e' => sv_compare e e' <> Gt | None, None => True | _, _ => False end.
Lemma wider_begin_refl b : wider_begin b b.
Proof. destruct b; [cbn; by rewrite sv_compare_refl|done]. Qed.
Lemma wider_end_refl e : wider_end e e.
Proof. destruct e; [cbn; by rewrite sv_compare_refl|done]. Qed.
Lemma sv_le_trans a b d : sv_compare a b <> Gt -> sv_compare b d <> Gt -> sv_compare a d <> Gt.
Proof.
  intros Hab Hbd. destruct (sv_compare b d) eqn:E; [apply sv_compare_eq in E as ->; done| |done].
  by rewrite (sv_le_lt_trans _ _ _ Hab E).
Qed.

Lemma overlapping_loop_spec fuel level0 files pre rest b e inputs :
  files = pre ++ rest -> inputs = List.filter (in_range b e) pre ->
  (level0 = true -> Forall (within b e) inputs) ->
  (wideners files b e * S (length files) + length rest < fuel)%nat ->
  exists b' e', overlapping_loop fuel level0 files rest b e inputs = Some (List.filter (in_range b' e') files) /\
    wider_begin b b' /\ wider_end e e' /\
    if level0 then Forall (within b' e') (List.filter (in_range b' e') files) else b' = b /\ e' = e.
Proof.
  revert pre rest b e inputs. induction fuel as [|fuel IH]; intros pre rest b e inputs Ef Ei Hw Hf; [lia|].
  cbn [overlapping_loop]. destruct rest as [|file rest].
  { rewrite app_nil_r in Ef. subst. exists b, e. split_and!; [done|apply wider_begin_refl|apply wider_end_refl|].
    destruct level0; [by apply Hw|done]. }
  cbn [length] in Hf. assert (file ∈ files) as Hin by (subst; apply elem_of_app; right; left).
  assert (files = (pre ++ [file]) ++ rest) as Ef' by (by rewrite <- app_assoc).
  destruct (below_range b file || above_range e file) eqn:Er.
  { apply (IH (pre ++ [file])); [done| |done|lia]. rewrite List.filter_app. cbn [List.filter]. unfold in_range at 2.
    rewrite <- negb_orb, Er. cbn. by rewrite app_nil_r. }
  destruct (level0 && widens_begin b file) eqn:Eb.
  { apply andb_true_iff in Eb as [-> Eb]. pose proof (wideners_begin files b e file Hin ltac:(by rewrite Eb)) as Hlt.
    destruct (IH [] files (Some (ulo file)) e []) as (b' & e' & E' & Hb & He & HF); [done|done|done|nia|].
    exists b', e'. split_and!; [exact E'| |done|done]. destruct b as [b|], b' as [b'|]; cbn in *; try done.
    apply bool_decide_eq_true in Eb. unfold bytewise_compare in Eb. eapply sv_le_trans; [exact Hb|]. unfold ulo. by rewrite Eb. }
  destruct (level0 && widens_end e file) eqn:Ee.
  { apply andb_true_iff in Ee as [-> Ee]. pose proof (wideners_end files b e file Hin ltac:(by rewrite Ee)) as Hlt.
    destruct (IH [] files b (Some (uhi file)) []) as (b' & e' & E' & Hb & He & HF); [done|done|done|nia|].
    exists b', e'. split_and!; [exact E'|done| |done]. destruct e as [e|], e' as [e'|]; cbn in *; try done.
    apply bool_decide_eq_true in Ee. unfold bytewise_compare in Ee. rewrite sv_compare_gt in Ee.
    eapply sv_le_trans; [|exact He]. unfold uhi. by rewrite Ee. }
  apply (IH (pre ++ [file])); [done| | |lia].
  - rewrite List.filter_app. cbn [List.filter]. unfold in_range at 2. rewrite <- negb_orb, Er. cbn. by rewrite Ei.
  - intros ->. apply Forall_app. split; [by apply Hw|]. repeat constructor; [exact Eb|exact Ee].
Qed.

Lemma overlapping_inputs_spec v level b e :
  exists b' e', get_overlapping_inputs v level b e = Some (List.filter (in_range b' e') (level_files v level)) /\
    wider_begin (extract_user_key <$> b) b' /\ wider_end (extract_user_key <$> e) e' /\
    if (level =? 0)%nat then Forall (within b' e') (List.filter (in_range b' e') (level_files v level))
    else b' = extract_user_key <$> b /\ e' = extract_user_key <$> e.
Proof.
  unfold get_overlapping_inputs. set (files := level_files v level).
  apply (overlapping_loop_spec _ _ files [] files); [done|done|constructor|].
  unfold overlapping_fuel, wideners.
  pose proof (length_filter_le (widens_begin (extract_user_key <$> b)) files).
  pose proof (length_filter_le (widens_end (extract_user_key <$> e)) files). nia.
Qed.

Lemma after_file_below b file : after_file b file = below_range b file.
Proof. destruct b; [|done]. cbn. apply bool_decide_ext. apply sv_compare_gt. Qed.
Lemma before_file_above e file : before_file e file = above_range e file.
Proof. destruct e; [|done]. cbn. apply bool_decide_ext. symmetry. apply sv_compare_gt. Qed.

(** ** A level of files that do not overlap *)
Definition file_keys_ok (file : FilePtr) : Prop :=
  is_Some (parse_internal_key (smallest file)) /\ is_Some (parse_internal_key (largest file)) /\
  key_le internal_key_comparator (smallest file) (largest file).
Definition disjoint_level (files : list FilePtr) : Prop :=
  StronglySorted (λ a b : FilePtr, key_lt internal_key_comparator (largest a) (smallest b)) files /\
  Forall file_keys_ok files.

Lemma parse_readable k : is_Some (parse_internal_key k) -> readable internal_key_comparator k.
Proof.
  intros [p [-> _]%make_parse]. unfold readable. cbn [min_key_length internal_key_comparator kInternal].
  rewrite length_make_internal_key. lia.
Qed.
Lemma disjoint_elem files i (file : FilePtr) : disjoint_level files -> files !! i = Some file -> file_keys_ok file.
Proof. intros [_ H] Hi. rewrite Forall_lookup in H. by eapply H. Qed.
Lemma disjoint_lt files i j (a b : FilePtr) :
  disjoint_level files -> (i < j)%nat -> files !! i = Some a -> files !! j = Some b ->
  key_lt internal_key_comparator (largest a) (smallest b).
Proof. intros [H _] Hij Hi Hj. by apply (StronglySorted_lookup _ _ i j a b H). Qed.
Lemma disjoint_sorted files : disjoint_level files -> sorted_files internal_key_comparator files.
Proof.
  intros D. apply StronglySorted_from_lookup. intros i j x y Hij Hi Hj. rewrite list_lookup_fmap in Hi, Hj.
  destruct (files !! i) as [a|] eqn:Ea; [|done]. destruct (files !! j) as [b|] eqn:Eb; [|done].
  injection Hi as <-. injection Hj as <-. destruct (disjoint_elem files j b D Eb) as (Rs & Rl & Hle).
  eapply (key_lt_le_trans _ (smallest b)); [by apply parse_readable|by apply parse_readable|by eapply disjoint_lt|done].
Qed.
Lemma internal_lt_user a b :
  key_lt internal_key_comparator a b -> sv_compare (extract_user_key a) (extract_user_key b) <> Gt.
Proof. intros H. apply compare_user_le. unfold key_lt in H. cbn in H. by rewrite H. Qed.
Lemma internal_le_user a b :
  key_le internal_key_comparator a b -> sv_compare (extract_user_key a) (extract_user_key b) <> Gt.
Proof. apply compare_user_le. Qed.

(** The probe for a user key comes before all of its versions. *)
Lemma below_probe k u :
  is_Some (parse_internal_key k) ->
  key_lt internal_key_comparator k (make_internal_key u kMaxSequenceNumber kValueTypeForSeek) <->
  sv_compare (extract_user_key k) u = Lt.
Proof.
  intros [p [-> Hs]%make_parse]. unfold key_lt. cbn [compare internal_key_comparator kInternal].
  rewrite compare_make, extract_user_key_make by (done || (unfold seq_ok; change kMaxSequenceNumber with (2 ^ 56 - 1); lia)).
  destruct (sv_compare (user_key p) u); try done. split; [|done]. unfold seq_ok in Hs.
  destruct (Z.compare_spec kMaxSequenceNumber (sequence p)); [by destruct (type p)|lia|done].
Qed.

Lemma overlaps_disjoint files b e :
  disjoint_level files ->
  some_file_overlaps_range internal_key_comparator true files b e = Some (existsb (in_range b e) files).
Proof.
  intros D. unfold some_file_overlaps_range. cbn [negb].
  assert (exists index, match b with
    | Some k => find_file internal_key_comparator files (make_internal_key k kMaxSequenceNumber kValueTypeForSeek)
    | None => Some 0%nat end = Some index /\
    (forall j f, (j < index)%nat -> files !! j = Some f -> below_range b f) /\
    (forall f, files !! index = Some f -> below_range b f = false)) as (index & -> & Hlo & Hat).
  { destruct b as [k|]; [|exists 0%nat; split_and!; [done|lia|done]].
    rewrite find_file_spec by (apply _ || by apply disjoint_sorted). eexists. split; [done|]. split.
    - intros j f Hj Hf. apply bool_decide_spec, below_probe; [by eapply disjoint_elem|].
      eapply (lower_bound_below _ (index_entries files) _ j); [done|]. unfold index_entries. by rewrite list_lookup_fmap, Hf.
    - intros f Hf. apply bool_decide_eq_false. intros Hlt. apply below_probe in Hlt; [|by eapply disjoint_elem].
      refine (lower_bound_at _ (index_entries files) _ _ (file_value f) _ Hlt). by apply index_entries_lookup. }
  cbn [mbind option_bind]. f_equal. destruct (files !! index) as [f|] eqn:Ef.
  - rewrite before_file_above. destruct (above_range e f) eqn:Ea; cbn [negb]; symmetry.
    + apply not_true_iff_false. intros (g & Hg & Hr)%existsb_exists. apply list_elem_of_In, list_elem_of_lookup in Hg as [j Hj].
      apply andb_true_iff in Hr as [H1 H2]. apply negb_true_iff in H1, H2.
      destruct (Nat.lt_trichotomy j index) as [Hlt|[->|Hgt]].
      * specialize (Hlo j g Hlt Hj). by rewrite H1 in Hlo.
      * congruence.
      * destruct e as [e|]; [|done]. cbn in Ea, H2. apply bool_decide_eq_true in Ea. apply bool_decide_eq_false in H2. apply H2.
        unfold bytewise_compare in *. rewrite sv_compare_gt in *.
        pose proof (internal_lt_user _ _ (disjoint_lt files index j f g D Hgt Ef Hj)) as Hfg.
        destruct (disjoint_elem files index f D Ef) as (_ & _ & Hle). apply internal_le_user in Hle.
        destruct (sv_compare e (extract_user_key (smallest g))) eqn:Ec; [|done|].
        -- apply sv_compare_eq in Ec. subst e. pose proof (sv_le_trans _ _ _ Hle Hfg) as Hx. rewrite sv_compare_antisym, Ea in Hx. done.
        -- apply sv_compare_gt in Ec. pose proof (sv_le_trans _ _ _ Hle Hfg) as Hx.
           pose proof (sv_compare_lt_trans _ _ _ Ec Ea) as Hy. apply sv_compare_gt in Hy. done.
    + apply existsb_exists. exists f. split; [apply list_elem_of_In; by eapply list_elem_of_lookup_2|].
      unfold in_range. by rewrite (Hat f eq_refl), Ea.
  - symmetry. apply not_true_iff_false. intros (g & Hg & Hr)%existsb_exists. apply list_elem_of_In, list_elem_of_lookup in Hg as [j Hj].
    apply andb_true_iff in Hr as [H1 _]. apply negb_true_iff in H1. apply lookup_ge_None in Ef.
    pose proof (lookup_lt_Some _ _ _ Hj). specialize (Hlo j g ltac:(lia) Hj). by rewrite H1 in Hlo.
Qed.
Lemma overlaps_level0 files b e :
  some_file_overlaps_range internal_key_comparator false files b e = Some (existsb (in_range b e) files).
Proof.
  unfold some_file_overlaps_range. cbn [negb]. f_equal. induction files as [|f files IH]; [done|]. cbn [existsb].
  by rewrite IH, after_file_below, before_file_above.
Qed.

(** Every level below 0 is disjoint. *)
Definition disjoint_levels (v : Version) : Prop :=
  forall level, (0 < level)%nat -> disjoint_level (level_files v level).

Lemma overlaps_in_level_spec v level b e :
  disjoint_levels v -> overlaps_in_level v level b e = Some (existsb (in_range b e) (level_files v level)).
Proof.
  intros D. unfold overlaps_in_level. destruct level as [|level]; [apply overlaps_level0|].
  apply overlaps_disjoint, D. lia.
Qed.

Lemma pick_level_loop_spec fuel v max_file_size lo hi level :
  disjoint_levels v -> (level <= kMaxMemCompactLevel)%nat -> (kMaxMemCompactLevel < level + fuel)%nat ->
  (forall i, (i <= level)%nat -> existsb (in_range (Some lo) (Some hi)) (level_files v i) = false) ->
  exists l, pick_level_loop fuel v max_file_size lo hi level = Some l /\ (l <= kMaxMemCompactLevel)%nat /\
    forall i, (i <= l)%nat -> existsb (in_range (Some lo) (Some hi)) (level_files v i) = false.
Proof.
  intros D. revert level. induction fuel as [|fuel IH]; intros level Hl Hf Hno; [lia|]. cbn [pick_level_loop].
  destruct (Nat.ltb_spec level kMaxMemCompactLevel) as [Hlt|]; [|by exists level].
  rewrite overlaps_in_level_spec by done. cbn [mbind option_bind].
  destruct (existsb _ (level_files v (level + 1))) eqn:Eo; [by exists level|].
  assert (exists l, pick_level_loop fuel v max_file_size lo hi (S level) = Some l /\ (l <= kMaxMemCompactLevel)%nat /\
    forall i, (i <= l)%nat -> existsb (in_range (Some lo) (Some hi)) (level_files v i) = false) as Hrec.
  { apply IH; [lia|lia|]. intros i Hi. destruct (decide (i = S level)) as [->|]; [by rewrite <- Nat.add_1_r|]. apply Hno. lia. }
  destruct (level + 2 <? kNumLevels)%nat; [|exact Hrec].
  destruct (overlapping_inputs_spec v (level + 2) (Some (make_internal_key lo kMaxSequenceNumber kValueTypeForSeek))
    (Some (make_internal_key hi 0 kDeletion))) as (b' & e' & -> & _). cbn [mbind option_bind].
  destruct (_ <? _); [by exists level|exact Hrec].
Qed.

(** * Theorems *)


(** A flushed memtable goes only where nothing overlaps it: in a version
    whose levels below 0 are disjoint, [pick_level_for_memtable_output] returns
    a level up to 2, and when it is not level 0 no file of that level or of any
    above it holds a user key between the smallest and the largest of the
    memtable. *)
Theorem flush_level_has_no_overlap v max_file_size lo hi :
  disjoint_levels v ->
  exists level, pick_level_for_memtable_output v max_file_size lo hi = Some level /\
    (level <= kMaxMemCompactLevel)%nat /\
    ((0 < level)%nat -> forall i f, (i <= level)%nat -> f ∈ level_files v i ->
      sv_compare (uhi f) lo = Lt \/ sv_compare hi (ulo f) = Lt).
Proof.
  intros D. unfold pick_level_for_memtable_output. rewrite overlaps_in_level_spec by done. cbn [mbind option_bind].
  destruct (existsb _ _) eqn:E0; [exists 0%nat; split_and!; [done|unfold kMaxMemCompactLevel; lia|lia]|].
  destruct (pick_level_loop_spec (S kMaxMemCompactLevel) v max_file_size lo hi 0) as (l & -> & Hl & Hno);
    [done|unfold kMaxMemCompactLevel; lia|lia| |].
  { intros i Hi. by replace i with 0%nat by lia. }
  exists l. split_and!; [done|done|]. intros _ i f Hi Hf. specialize (Hno i Hi).
  destruct (in_range (Some lo) (Some hi) f) eqn:Er.
  { exfalso. apply not_true_iff_false in Hno. apply Hno. apply existsb_exists. exists f. split; [by apply list_elem_of_In|done]. }
  unfold in_range in Er. rewrite <- negb_orb in Er. apply negb_false_iff, orb_true_iff in Er as [H|H]; cbn in H;
    apply bool_decide_eq_true in H; [by left|right]. by apply sv_compare_gt.
Qed.

Definition sample_file (address : nat) (n : Z) (lo hi : bytes) : FilePtr :=
  mkPtr address (mkFile n 4096 (make_internal_key lo 9 kValue) (make_internal_key hi 3 kValue) 100 1).
(** A level 0 whose files chain into each other, and a level 1. *)
Definition sample_version : Version :=
  mkVersion [[sample_file 1 7 [x61] [x63]; sample_file 2 8 [x62] [x65]; sample_file 3 9 [x71] [x72]];
             [sample_file 4 5 [x61] [x64]; sample_file 5 6 [x66] [x68]]; []; []; []; []; []]
    None (-1) (double_of_Z (-1)) (-1).
Lemma sample_disjoint : disjoint_levels sample_version.
Proof.
  intros [|[|[|[|[|[|[|level]]]]]]] H; [lia|..]; unfold level_files; cbn [sample_version files_ lookup list_lookup].
  { split; [repeat constructor|]. do 2 (apply Forall_cons; split; [split_and!; [vm_compute; eauto..|vm_compute; discriminate]|]).
    constructor. }
  all: split; constructor.
Qed.

Lemma flush_level_has_no_overlap_witness :
  pick_level_for_memtable_output sample_version 2097152 [x69] [x6a] = Some 2%nat /\
  exists level, pick_level_for_memtable_output sample_version 2097152 [x69] [x6a] = Some level /\
    (level <= kMaxMemCompactLevel)%nat /\
    ((0 < level)%nat -> forall i f, (i <= level)%nat -> f ∈ level_files sample_version i ->
      sv_compare (uhi f) [x69] = Lt \/ sv_compare [x6a] (ulo f) = Lt).
Proof.
  split; [vm_compute; reflexivity|]. apply flush_level_has_no_overlap. exact sample_disjoint.
Defined.

End Version.
