(* ===== verification/VersionGet.v ===== *)
(** Looking a key up in a version ([Version::get] of
    src/src/version_set.cpp) finds its newest visible entry: what the table
    cache promises, what a well-formed version is, and the theorem. *)
From stdpp Require Import gmap.
From S2P Require Import Prelude Status Encoding DbFormat Comparator Iterator VersionEdit MemTable Version.
Import Status Encoding DbFormat Comparator Iterator VersionEdit Version.
Local Open Scope Z_scope.

Module VersionGet.

(** An entry of a table: one version of a user key. *)
Abbreviation Entry := MemTable.Version.
Abbreviation e_key := MemTable.v_key.
Abbreviation e_sequence := MemTable.v_sequence.
Abbreviation e_type := MemTable.v_type.
Abbreviation e_value := MemTable.v_value.
Abbreviation ikey := MemTable.ikey.
Abbreviation icmp := internal_key_comparator.

Definition table_entries (es : list Entry) : list (bytes * bytes) := (λ e, (ikey e, e_value e)) <$> es.

(** What a reader of table files promises: [contents] is what the file with a
    number and size holds, and a lookup hands on the first entry at or after
    the key, at least when it is of the same user key. *)
Class TableReaderLaws {TC} (reader : TableReader TC) (contents : Z -> Z -> option (list Entry)) (inv : TC -> Prop) : Prop := {
  reader_get tc n sz es u snapshot :
    inv tc -> contents n sz = Some es -> seq_ok snapshot ->
    let wanted := table_entries es !! lower_bound icmp (table_entries es) (make_lookup_key u snapshot) in
    exists r tc', tc_get reader tc n sz (make_lookup_key u snapshot) = Some (ok, r, tc') /\ inv tc' /\
      (forall e, r = Some e -> wanted = Some e) /\
      (forall k v, wanted = Some (k, v) -> extract_user_key k = u -> r = Some (k, v))
}.

(** ** Well-formed versions *)
Section WellFormed.
Context (contents : Z -> Z -> option (list Entry)).

(** The file holds [es], in order, from its smallest to its largest key. *)
Record holds_entries (f : FilePtr) (es : list Entry) : Prop := {
  he_contents : contents (number f) (file_size f) = Some es;
  he_ok : Forall (λ e, seq_ok (e_sequence e)) es;
  he_sorted : sorted_by icmp (table_entries es);
  he_smallest : head (ikey <$> es) = Some (smallest f);
  he_largest : last (ikey <$> es) = Some (largest f)
}.
Definition entry_of (f : FilePtr) (e : Entry) : Prop := exists es, holds_entries f es /\ e ∈ es.

(** No entry of a file in [as_] is older than one of the same key in [bs]. *)
Definition newer_files (as_ bs : list FilePtr) : Prop :=
  forall f g a b, f ∈ as_ -> g ∈ bs -> entry_of f a -> entry_of g b -> e_key a = e_key b ->
    e_sequence b < e_sequence a.

Record wf_version (v : Version) : Prop := {
  wv_levels : length (files_ v) = kNumLevels;
  wv_entries level f : f ∈ level_files v level -> exists es, holds_entries f es;
  wv_numbers (f g : FilePtr) : f ∈ level_files v 0 -> g ∈ level_files v 0 -> number f = number g -> f = g;
  wv_small (f : FilePtr) : f ∈ level_files v 0 -> number f < 2 ^ 64 - 1;
  wv_level0 (f g : FilePtr) : f ∈ level_files v 0 -> g ∈ level_files v 0 -> number g < number f -> newer_files [f] [g];
  wv_disjoint level : (0 < level)%nat ->
    StronglySorted (λ a b : FilePtr, key_lt icmp (largest a) (smallest b)) (level_files v level);
  wv_newer i j : (i < j)%nat -> newer_files (level_files v i) (level_files v j)
}.

(** ** What a lookup should say *)
Section Answer.
Context (u : bytes) (snapshot : Z) (Hs : seq_ok snapshot).
Abbreviation lookup_key := (make_lookup_key u snapshot).

Definition visible (e : Entry) : Prop := e_key e = u /\ e_sequence e <= snapshot.
Definition newest_of (P : Entry -> Prop) (e : Entry) : Prop :=
  P e /\ visible e /\ forall e', P e' -> visible e' -> e_sequence e' <= e_sequence e.
Definition nothing_in (P : Entry -> Prop) : Prop := forall e, P e -> ~ visible e.

(** A settled lookup: the status, and [*value] before and after. *)
Definition answers (e : Entry) (value : bytes) (status : Status) (value' : bytes) : Prop :=
  match e_type e with
  | kValue => status = ok /\ value' = e_value e
  | kDeletion => status = not_found "deleted" /\ value' = value
  end.

(** Before the lookup key are smaller user keys, and versions of this one that
    are too new. *)
Lemma below_lookup e :
  seq_ok (e_sequence e) ->
  key_lt icmp (ikey e) lookup_key <-> sv_compare (e_key e) u = Lt \/ (e_key e = u /\ snapshot < e_sequence e).
Proof using Hs.
  intros He. unfold key_lt. cbn [compare internal_key_comparator kInternal]. unfold ikey. rewrite compare_lookup by done.
  destruct (sv_compare (e_key e) u) eqn:E.
  - apply sv_compare_eq in E. destruct (Z.ltb_spec snapshot (e_sequence e)) as [Hlt|Hge].
    + split; [by right|done].
    + split; [by case_if|]. intros [|[_ ?]]; [done|lia].
  - split; [by left|done].
  - split; [done|]. intros [|[E' _]]; [done|]. by rewrite E', sv_compare_refl in E.
Qed.
Lemma visible_not_below e : seq_ok (e_sequence e) -> visible e -> ~ key_lt icmp (ikey e) lookup_key.
Proof using Hs.
  intros He [E Hle] [H|[_ H]]%below_lookup; [|lia|done]. by rewrite E, sv_compare_refl in H.
Qed.

Lemma table_entries_lookup es i : table_entries es !! i = (λ e, (ikey e, e_value e)) <$> es !! i.
Proof using. apply list_lookup_fmap. Qed.
Lemma ikey_order a b :
  seq_ok (e_sequence a) -> seq_ok (e_sequence b) -> e_key a = e_key b -> key_lt icmp (ikey a) (ikey b) ->
  e_sequence b <= e_sequence a.
Proof using.
  intros Ha Hb E. unfold key_lt. cbn [compare internal_key_comparator kInternal]. unfold ikey.
  rewrite compare_make, E, sv_compare_refl by done. destruct (Z.compare_spec (e_sequence b) (e_sequence a)); lia || done.
Qed.

(** The first entry at or after the lookup key is the newest visible one, or
    there is none. *)
Lemma wanted_newest es :
  Forall (λ e, seq_ok (e_sequence e)) es -> sorted_by icmp (table_entries es) ->
  let i := lower_bound icmp (table_entries es) lookup_key in
  match es !! i with
  | Some e => if decide (e_key e = u) then newest_of (λ e, e ∈ es) e
              else nothing_in (λ e, e ∈ es) /\ sv_compare u (e_key e) = Lt
  | None => nothing_in (λ e, e ∈ es)
  end.
Proof using Hs.
  intros Hok Hsort i. rewrite Forall_forall in Hok.
  assert (forall j e, es !! j = Some e -> visible e -> (i <= j)%nat) as Hvis.
  { intros j e Hj Hv. apply Nat.nlt_ge. intros Hlt. apply (visible_not_below e); [apply Hok; by eapply list_elem_of_lookup_2|done|].
    eapply (lower_bound_below _ (table_entries es) _ j _ (e_value e)); [exact Hlt|]. by rewrite table_entries_lookup, Hj. }
  destruct (es !! i) as [e|] eqn:Ei.
  - assert (~ key_lt icmp (ikey e) lookup_key) as Hnot.
    { apply (lower_bound_at _ (table_entries es) _ _ (e_value e)). fold i. by rewrite table_entries_lookup, Ei. }
    assert (seq_ok (e_sequence e)) as Hoe by (apply Hok; by eapply list_elem_of_lookup_2).
    assert (forall j e', es !! j = Some e' -> (i < j)%nat -> key_lt icmp (ikey e) (ikey e')) as Hafter.
    { intros j e' Hj Hlt. eapply (sorted_lookup icmp (table_entries es) i j _ (e_value e) _ (e_value e')); [done|done|..];
        by rewrite table_entries_lookup, ?Ei, ?Hj. }
    case_decide as Eu.
    + split; [by eapply list_elem_of_lookup_2|]. split.
      { split; [done|]. apply Z.le_ngt. intros Hgt. apply Hnot, below_lookup; [done|]. right. done. }
      intros e' [j Hj]%list_elem_of_lookup Hv. pose proof (Hvis j e' Hj Hv).
      destruct (decide (j = i)) as [->|]; [by simplify_eq|]. apply ikey_order; [done|apply Hok; by eapply list_elem_of_lookup_2| |].
      * destruct Hv as [-> _]. done.
      * apply (Hafter j e'); [done|lia].
    + assert (sv_compare u (e_key e) = Lt) as Hgt.
      { destruct (sv_compare u (e_key e)) eqn:Ec; [by apply sv_compare_eq in Ec|done|].
        exfalso. apply Hnot, below_lookup; [done|]. left. by apply sv_compare_gt. }
      split; [|done]. intros e' [j Hj]%list_elem_of_lookup Hv. pose proof (Hvis j e' Hj Hv).
      destruct (decide (j = i)) as [->|]; [simplify_eq; by destruct Hv|].
      pose proof (internal_lt_user _ _ (Hafter j e' Hj ltac:(lia))) as Hle. unfold ikey in Hle. rewrite !extract_user_key_make in Hle.
      destruct Hv as [Hk _]. rewrite Hk in Hle. apply sv_compare_gt in Hgt. done.
  - intros e [j Hj]%list_elem_of_lookup Hv. pose proof (Hvis j e Hj Hv). apply lookup_ge_None in Ei. apply lookup_lt_Some in Hj. lia.
Qed.

(** ** Searching *)
Context {TC : Type} (reader : TableReader TC) (inv : TC -> Prop) `{!TableReaderLaws reader contents inv}.

Lemma search_spec lo f level es :
  inv (table_cache lo) -> holds_entries f es ->
  exists r lo', search reader lo u lookup_key f level = Some (r, lo') /\ inv (table_cache lo') /\
    match r with
    | inl _ => nothing_in (λ e, e ∈ es) /\ lo_value lo' = lo_value lo
    | inr status => exists e, newest_of (λ e, e ∈ es) e /\ answers e (lo_value lo) status (lo_value lo')
    end.
Proof using Hs TableReaderLaws0.
  intros Hi [Hc Hok Hsort _ _]. unfold search.
  assert (table_cache (charge lo f level) = table_cache lo /\ lo_value (charge lo f level) = lo_value lo) as [Et Ev].
  { unfold charge. destruct (last_file_read lo), (seek_file lo); done. }
  rewrite Et. destruct (reader_get (table_cache lo) (number f) (file_size f) es u snapshot Hi Hc Hs)
    as (r & tc & -> & Ht & Hsound & Hcomplete). cbn [mbind option_bind]. change (is_ok ok) with true. cbn [negb].
  pose proof (wanted_newest es Hok Hsort) as W. cbv zeta in W. rewrite table_entries_lookup in Hsound, Hcomplete.
  destruct (es !! _) as [e|] eqn:Ei; cbn [fmap option_fmap option_map] in Hsound, Hcomplete.
  - assert (seq_ok (e_sequence e)) as Hoe by (rewrite Forall_forall in Hok; apply Hok; by eapply list_elem_of_lookup_2).
    case_decide as Eu.
    + rewrite (Hcomplete (ikey e) (e_value e)); [|done|unfold ikey; by rewrite extract_user_key_make].
      unfold save_value, ikey. rewrite parse_make by done. cbn [user_key type saver_user_key].
      rewrite bool_decide_true by done. cbn [negb]. unfold answers.
      destruct (e_type e) eqn:Ety; (eexists _, _; split; [done|]; cbn; split; [done|]; exists e; rewrite Ety, ?Ev; done).
    + destruct W as [W _]. destruct r as [[k v]|].
      * specialize (Hsound (k, v) eq_refl). injection Hsound as <- <-. unfold save_value, ikey. rewrite parse_make by done.
        cbn [user_key saver_user_key]. rewrite bool_decide_false by done. cbn. eauto 10.
      * cbn. eauto 10.
  - destruct r as [e|]; [by specialize (Hsound e eq_refl)|]. cbn. eauto 10.
Qed.

(** *** Level 0 *)
Lemma next_newest_spec newer_than files :
  match next_newest u newer_than files with
  | Some n => n ∈ files /\ number n < newer_than /\ covers u n /\
      forall f : FilePtr, f ∈ files -> number f < newer_than -> covers u f -> number f <= number n
  | None => forall f : FilePtr, f ∈ files -> number f < newer_than -> ~ covers u f
  end.
Proof using.
  unfold next_newest. induction files as [|f files IH] using rev_ind; [by intros f ?%not_elem_of_nil|].
  rewrite fold_left_app. cbn [fold_left]. set (next := fold_left _ files None) in *.
  destruct (_ && covers u f) eqn:Ec.
  - apply andb_true_iff in Ec as [[Hlt Hn]%andb_true_iff Hcov]. apply Z.ltb_lt in Hlt.
    split_and!; [apply elem_of_app; right; by apply list_elem_of_singleton|done|by apply Is_true_true|].
    intros g [Hg|Hg%list_elem_of_singleton]%elem_of_app Hgl Hgc; [|by subst].
    destruct next as [n|]; [|by destruct (IH g Hg Hgl)]. apply Z.ltb_lt in Hn. destruct IH as (_ & _ & _ & IH). specialize (IH g Hg Hgl Hgc). lia.
  - destruct next as [n|].
    + destruct IH as (H1 & H2 & H3 & H4). split_and!; [apply elem_of_app; by left|done|done|].
      intros g [Hg|Hg%list_elem_of_singleton]%elem_of_app Hgl Hgc; [by apply H4|]. subst g.
      apply Is_true_true in Hgc. rewrite Hgc, andb_true_r, (proj2 (Z.ltb_lt _ _)) in Ec by done. cbn in Ec. apply Z.ltb_ge in Ec. lia.
    + intros g [Hg|Hg%list_elem_of_singleton]%elem_of_app Hgl Hgc; [by apply (IH g)|]. subst g.
      apply Is_true_true in Hgc. by rewrite Hgc, andb_true_r, (proj2 (Z.ltb_lt _ _)) in Ec by done.
Qed.

(** A file that does not cover the key has no version of it. *)
Lemma entry_bounds f es e :
  holds_entries f es -> e ∈ es -> key_le icmp (smallest f) (ikey e) /\ key_le icmp (ikey e) (largest f).
Proof using.
  intros [_ _ Hsort Hh Hl] [i Hi]%list_elem_of_lookup. rewrite head_lookup, list_lookup_fmap in Hh. rewrite last_lookup, list_lookup_fmap in Hl.
  rewrite length_fmap in Hl. destruct (es !! 0%nat) as [e0|] eqn:E0; [|done]. destruct (es !! pred (length es)) as [e1|] eqn:E1; [|done].
  injection Hh as <-. injection Hl as <-. pose proof (lookup_lt_Some _ _ _ Hi).
  assert (forall i j a b, es !! i = Some a -> es !! j = Some b -> (i <= j)%nat -> key_le icmp (ikey a) (ikey b)) as Hmono.
  { intros x y a b Hx Hy Hxy. destruct (decide (x = y)) as [->|]; [simplify_eq; apply key_le_refl|].
    apply key_lt_le. eapply (sorted_lookup icmp (table_entries es) x y _ (e_value a) _ (e_value b)); [done|lia|..];
      by rewrite table_entries_lookup, ?Hx, ?Hy. }
  split; [eapply (Hmono 0%nat i)|eapply (Hmono i (pred (length es)))]; try done; lia.
Qed.
Lemma covers_visible f es e : holds_entries f es -> e ∈ es -> visible e -> covers u f.
Proof using.
  intros He Hin [Hk _]. destruct (entry_bounds f es e He Hin) as [H1%internal_le_user H2%internal_le_user].
  unfold ikey in *. rewrite extract_user_key_make, Hk in *. unfold covers. apply andb_True. split; apply bool_decide_spec; cbn; unfold bytewise_compare.
  - intros E. rewrite sv_compare_antisym in H1. by rewrite E in H1.
  - done.
Qed.

Definition in_files (files : list FilePtr) (e : Entry) : Prop := exists f, f ∈ files /\ entry_of f e.

Lemma search_level0_spec fuel lo files newer_than :
  inv (table_cache lo) -> (forall f, f ∈ files -> exists es, holds_entries f es) ->
  (forall f g : FilePtr, f ∈ files -> g ∈ files -> number f = number g -> f = g) ->
  (forall f g : FilePtr, f ∈ files -> g ∈ files -> number g < number f -> newer_files [f] [g]) ->
  (forall f : FilePtr, f ∈ files -> newer_than <= number f -> nothing_in (entry_of f)) ->
  (length (List.filter (λ f : FilePtr, (number f <? newer_than)%Z) files) < fuel)%nat ->
  exists r lo', search_level0 reader fuel lo u lookup_key files newer_than = Some (r, lo') /\ inv (table_cache lo') /\
    match r with
    | inl _ => nothing_in (in_files files) /\ lo_value lo' = lo_value lo
    | inr status => exists e, newest_of (in_files files) e /\ answers e (lo_value lo) status (lo_value lo')
    end.
Proof using Hs TableReaderLaws0.
  intros Hi Hes Huniq Hnewer. revert lo newer_than Hi. induction fuel as [|fuel IH]; intros lo newer_than Hi Hdone Hf; [lia|].
  cbn [search_level0]. pose proof (next_newest_spec newer_than files) as Hn.
  destruct (next_newest u newer_than files) as [n|].
  - destruct Hn as (Hn & Hlt & Hcov & Hmax). destruct (Hes n Hn) as [es He].
    destruct (search_spec lo n 0 es Hi He) as (r & lo1 & -> & Hi1 & Hr). cbn [mbind option_bind].
    assert (forall e, entry_of n e <-> e ∈ es) as Hent.
    { intros e. split; [|by exists es]. intros (es' & [He' _ _ _ _] & Hin). destruct He as [He _ _ _ _]. congruence. }
    assert (forall f : FilePtr, f ∈ files -> number n < number f -> nothing_in (entry_of f)) as Habove.
    { intros f Hfi Hgt. destruct (Z.le_gt_cases newer_than (number f)) as [|Hlt']; [by apply Hdone|].
      intros e (es' & He' & Hin) Hv. pose proof (covers_visible f es' e He' Hin Hv) as Hc. specialize (Hmax f Hfi Hlt' Hc). lia. }
    destruct r as [[]|status].
    + destruct Hr as [Hno Hval].
      destruct (IH lo1 (number n)) as (r & lo2 & E2 & Hi2 & Hr2); [done| | |].
      * intros f Hfi Hge. destruct (decide (number f = number n)) as [E|]; [|apply Habove; [done|lia]].
        rewrite (Huniq f n Hfi Hn E). intros e Hent'%Hent. by apply Hno.
      * apply Nat.lt_le_trans with (length (List.filter (λ f : FilePtr, (number f <? newer_than)%Z) files)); [|lia].
        apply (length_filter_lt _ _ _ n); [|done|by apply Is_true_true, Z.ltb_lt|apply Z.ltb_ge; lia].
        intros f Hx%Is_true_true%Z.ltb_lt. apply Is_true_true, Z.ltb_lt. lia.
      * exists r, lo2. rewrite Hval in Hr2. done.
    + destruct Hr as (e & (Hin & Hv & Hbest) & Hans). eexists _, lo1. split; [done|]. split; [done|]. exists e. split; [|done].
      split; [exists n; by rewrite Hent|]. split; [done|]. intros e' (f & Hfi & Hfe) Hv'.
      destruct (Z.lt_trichotomy (number f) (number n)) as [Hl|[E|Hg]].
      * apply Z.lt_le_incl. eapply (Hnewer n f Hn Hfi Hl); [by apply list_elem_of_singleton|by apply list_elem_of_singleton|by apply Hent|done|].
        destruct Hv as [-> _], Hv' as [-> _]. done.
      * rewrite (Huniq f n Hfi Hn E), Hent in Hfe. by apply Hbest.
      * by destruct (Habove f Hfi Hg e' Hfe).
  - eexists _, lo. split; [done|]. split; [done|]. split; [|done]. intros e (f & Hfi & es & He & Hin) Hv.
    destruct (Z.le_gt_cases newer_than (number f)) as [Hge|Hlt]; [by apply (Hdone f Hfi Hge e); [exists es|]|].
    by apply (Hn f Hfi Hlt), (covers_visible f es e).
Qed.

(** *** The levels below *)
Lemma entry_ok f es e : holds_entries f es -> e ∈ es -> seq_ok (e_sequence e).
Proof using. intros [_ Hok _ _ _]. rewrite Forall_forall in Hok. apply Hok. Qed.
Lemma ikey_parses e : seq_ok (e_sequence e) -> is_Some (parse_internal_key (ikey e)).
Proof using. intros H. unfold ikey. rewrite parse_make by done. eauto. Qed.
Lemma ikey_readable e : readable icmp (ikey e).
Proof using. unfold readable, ikey. cbn [min_key_length internal_key_comparator kInternal]. rewrite length_make_internal_key. lia. Qed.
Lemma holds_ends f es :
  holds_entries f es -> exists a b, a ∈ es /\ b ∈ es /\ smallest f = ikey a /\ largest f = ikey b /\ last es = Some b.
Proof using.
  intros [_ _ _ Hh Hl]. rewrite fmap_last in Hl. destruct es as [|a es]; [done|]. injection Hh as <-.
  destruct (last (a :: es)) as [b|] eqn:E; [|done]. injection Hl as <-. exists a, b. split_and!; [left|by apply last_Some_elem_of|done..].
Qed.
Lemma holds_keys f es : holds_entries f es -> file_keys_ok f.
Proof using.
  intros H. destruct (holds_ends f es H) as (a & b & Ha & Hb & Ea & Eb & _). unfold file_keys_ok. rewrite Ea at 1. rewrite Eb at 1.
  split_and!; [apply ikey_parses; by eapply entry_ok..|]. rewrite Ea. by apply (entry_bounds f es a).
Qed.
Lemma largest_readable f es : holds_entries f es -> readable icmp (largest f).
Proof using. intros H%holds_keys. apply parse_readable. apply H. Qed.
Lemma smallest_readable f es : holds_entries f es -> readable icmp (smallest f).
Proof using. intros H%holds_keys. apply parse_readable. apply H. Qed.
Lemma entries_apart (f g : FilePtr) fs gs a b :
  holds_entries f fs -> holds_entries g gs -> key_lt icmp (largest f) (smallest g) -> a ∈ fs -> b ∈ gs ->
  key_lt icmp (ikey a) (ikey b).
Proof using.
  intros Hf Hg Hlt Ha Hb. apply (key_le_lt_trans _ (largest f)); [apply ikey_readable|by eapply largest_readable|by apply (entry_bounds f fs a)|].
  apply (key_lt_le_trans _ (smallest g)); [by eapply smallest_readable|apply ikey_readable|exact Hlt|]. by apply (entry_bounds g gs b).
Qed.

Lemma level_candidate files :
  (forall f, f ∈ files -> exists es, holds_entries f es) ->
  StronglySorted (λ a b : FilePtr, key_lt icmp (largest a) (smallest b)) files ->
  exists index, find_file icmp files lookup_key = Some index /\
    match files !! index with
    | None => nothing_in (in_files files)
    | Some f =>
        (sv_compare u (extract_user_key (smallest (f_meta f))) = Lt -> nothing_in (in_files files)) /\
        forall es, holds_entries f es -> (nothing_in (λ e, e ∈ es) -> nothing_in (in_files files)) /\
          forall e, newest_of (λ e, e ∈ es) e -> newest_of (in_files files) e
    end.
Proof using Hs.
  intros Hes Hsort.
  assert (disjoint_level files) as D.
  { split; [done|]. apply Forall_forall. intros f Hf. destruct (Hes f Hf) as [es He]. by eapply holds_keys. }
  rewrite find_file_spec by (apply _ || by apply disjoint_sorted). eexists. split; [done|].
  set (index := lower_bound icmp (index_entries files) lookup_key).
  assert (forall j f e, (j < index)%nat -> files !! j = Some f -> entry_of f e -> ~ visible e) as Hbefore.
  { intros j f e Hj Hf (es & He & Hin) Hv. apply (visible_not_below e); [by eapply entry_ok|done|].
    apply (key_le_lt_trans _ (largest f)); [apply ikey_readable|by eapply largest_readable|by apply (entry_bounds f es e)|].
    eapply (lower_bound_below _ (index_entries files) _ j _ (file_value f)); [exact Hj|]. by apply index_entries_lookup. }
  assert (forall e, in_files files e -> visible e -> exists j f es, (index <= j)%nat /\ files !! j = Some f /\ holds_entries f es /\ e ∈ es) as Hin.
  { intros e (f & [j Hj]%list_elem_of_lookup & es & He & Hin) Hv. exists j, f, es. split_and!; [|done..].
    apply Nat.nlt_ge. intros Hlt. apply (Hbefore j f e Hlt Hj); [by exists es|done]. }
  destruct (files !! index) as [f|] eqn:Ef.
  2: { intros e He Hv. destruct (Hin e He Hv) as (j & f & es & Hj & Hf & _). apply lookup_ge_None in Ef. apply lookup_lt_Some in Hf. lia. }
  assert (f ∈ files) as Hfi by (by eapply list_elem_of_lookup_2).
  split.
  - intros Hlt e He Hv. destruct (Hin e He Hv) as (j & g & es & Hj & Hg & Hes' & Hie).
    destruct (entry_bounds g es e Hes' Hie) as [H1%internal_le_user _]. unfold ikey in H1. rewrite extract_user_key_make in H1.
    destruct Hv as [Hk _]. rewrite Hk in H1. enough (sv_compare (extract_user_key (smallest f)) (extract_user_key (smallest g)) <> Gt) as H2.
    { pose proof (sv_le_trans _ _ _ H2 H1) as H3. apply sv_compare_gt in Hlt. done. }
    destruct (decide (j = index)) as [->|]; [simplify_eq; by rewrite sv_compare_refl|].
    destruct (Hes f Hfi) as [fs Hfs]. destruct (holds_keys f fs Hfs) as (_ & _ & H2%internal_le_user).
    eapply sv_le_trans; [exact H2|]. apply internal_lt_user. apply (disjoint_lt files index j); [done|lia|done|done].
  - intros es He. destruct (holds_ends f es He) as (a & b & Ha & Hb & _ & Eb & El).
    assert (forall e', in_files files e' -> visible e' -> e' ∈ es \/ forall e, e ∈ es -> key_lt icmp (ikey e) (ikey e')) as Hafter.
    { intros e' He' Hv. destruct (Hin e' He' Hv) as (j & g & gs & Hj & Hg & Hgs & Hie). destruct (decide (j = index)) as [->|].
      - left. simplify_eq. destruct He as [He _ _ _ _], Hgs as [Hgs _ _ _ _]. congruence.
      - right. intros e Hie'. apply (entries_apart f g es gs); [done|done| |done|done]. apply (disjoint_lt files index j); [done|lia|done|done]. }
    split.
    + intros Hno e' He' Hv. destruct (Hafter e' He' Hv) as [|Hgt]; [by apply (Hno e')|].
      pose proof (wanted_newest es (he_ok _ _ He) (he_sorted _ _ He)) as W. cbv zeta in W.
      destruct (es !! _) as [e|] eqn:Ei.
      * case_decide as Eu; [destruct W as (W1 & W2 & _); by apply (Hno e)|]. destruct W as [_ W].
        specialize (Hgt e ltac:(by eapply list_elem_of_lookup_2)). apply internal_lt_user in Hgt. unfold ikey in Hgt.
        rewrite !extract_user_key_make in Hgt. destruct Hv as [Hk _]. rewrite Hk in Hgt. by apply sv_compare_gt in W.
      * apply lookup_ge_None in Ei. rewrite last_lookup in El.
        assert (key_lt icmp (ikey b) lookup_key) as Hlt.
        { eapply (lower_bound_below _ (table_entries es) _ (pred (length es)) _ (e_value b)).
          - apply lookup_lt_Some in El. lia.
          - by rewrite table_entries_lookup, El. }
        rewrite <- Eb in Hlt. revert Hlt. apply (lower_bound_at _ (index_entries files) _ _ (file_value f)). by apply index_entries_lookup.
    + intros e (H1 & H2 & H3). split; [exists f; split; [done|by exists es]|]. split; [done|]. intros e' He' Hv.
      destruct (Hafter e' He' Hv) as [|Hgt]; [by apply H3|]. destruct (Hin e' He' Hv) as (j & g & gs & _ & _ & Hgs & Hie).
      apply ikey_order; [by apply (entry_ok f es)|by apply (entry_ok g gs)| |by apply Hgt]. destruct H2 as [-> _], Hv as [-> _]. done.
Qed.

Definition in_levels (levels : list (list FilePtr)) (e : Entry) : Prop := exists files, files ∈ levels /\ in_files files e.

Lemma newest_with (P Q R : Entry -> Prop) e :
  newest_of P e -> (forall e', R e' <-> P e' \/ Q e') -> (forall e', Q e' -> e_key e = e_key e' -> e_sequence e' < e_sequence e) ->
  newest_of R e.
Proof using.
  intros (H1 & H2 & H3) HR HQ. split; [apply HR; by left|]. split; [done|]. intros e' [H|H]%HR Hv; [by apply H3|].
  apply Z.lt_le_incl, HQ; [done|]. destruct H2 as [-> _], Hv as [-> _]. done.
Qed.

Lemma search_levels_spec lo level levels :
  inv (table_cache lo) -> (forall files f, files ∈ levels -> f ∈ files -> exists es, holds_entries f es) ->
  (forall files, files ∈ levels -> StronglySorted (λ a b : FilePtr, key_lt icmp (largest a) (smallest b)) files) ->
  StronglySorted newer_files levels ->
  exists r lo', search_levels reader lo u lookup_key level levels = Some (r, lo') /\ inv (table_cache lo') /\
    match r with
    | inl _ => nothing_in (in_levels levels) /\ lo_value lo' = lo_value lo
    | inr status => exists e, newest_of (in_levels levels) e /\ answers e (lo_value lo) status (lo_value lo')
    end.
Proof using Hs TableReaderLaws0.
  intros Hi Hes Hsort Hnew. revert lo level Hi. induction levels as [|files levels IH]; intros lo level Hi; cbn [search_levels].
  { eexists _, lo. split; [done|]. split; [done|]. split; [|done]. by intros e (f & ?%not_elem_of_nil & _). }
  inversion Hnew as [|?? Hnew1 Hnew2]; subst.
  assert (forall e, in_levels (files :: levels) e <-> in_files files e \/ in_levels levels e) as Hsplit.
  { intros e. unfold in_levels. setoid_rewrite elem_of_cons. naive_solver. }
  (* going on to the next level *)
  assert (forall lo', inv (table_cache lo') -> nothing_in (in_files files) -> lo_value lo' = lo_value lo ->
    exists r lo2, search_levels reader lo' u lookup_key (S level) levels = Some (r, lo2) /\ inv (table_cache lo2) /\
    match r with
    | inl _ => nothing_in (in_levels (files :: levels)) /\ lo_value lo2 = lo_value lo
    | inr status => exists e, newest_of (in_levels (files :: levels)) e /\ answers e (lo_value lo) status (lo_value lo2)
    end) as Hgo.
  { intros lo' Hi' Hno Hv. destruct (IH ltac:(set_solver +Hes) ltac:(set_solver +Hsort) Hnew1 lo' (S level) Hi') as (r & lo2 & -> & Hi2 & Hr).
    eexists r, lo2. split_and!; [done|done|]. rewrite Hv in Hr. destruct r as [[]|status].
    - destruct Hr as [Hr1 Hr2]. split; [|done]. intros e [H|H]%Hsplit; [by apply Hno|by apply Hr1].
    - destruct Hr as (e & (H1 & H2 & H3) & Hans). exists e. split; [|done]. split; [apply Hsplit; by right|]. split; [done|].
      intros e' [H|H]%Hsplit Hv'; [by destruct (Hno e' H)|by apply H3]. }
  case_bool_decide as Enil; [subst files; apply Hgo; [done| |done]; by intros e (f & ?%not_elem_of_nil & _)|].
  destruct (level_candidate files) as (index & -> & Hc); [set_solver +Hes|apply Hsort; left|]. cbn [mbind option_bind].
  destruct (files !! index) as [f|] eqn:Ef; [|by apply Hgo].
  destruct Hc as [Hgap Hc]. case_bool_decide as Hlt; [apply Hgo; [done|by apply Hgap|done]|].
  assert (f ∈ files) as Hf by (by eapply list_elem_of_lookup_2).
  destruct (Hes files f ltac:(left) Hf) as [es He]. destruct (Hc es He) as [Hc1 Hc2].
  destruct (search_spec lo f (Z.of_nat level) es Hi He) as (r & lo1 & -> & Hi1 & Hr). cbn [mbind option_bind].
  destruct r as [[]|status]; [destruct Hr as [Hr1 Hr2]; apply Hgo; auto|].
  destruct Hr as (e & Hnewest & Hans). eexists _, lo1. split_and!; [done|done|]. exists e. split; [|done].
  apply (newest_with (in_files files) (in_levels levels)); [by apply Hc2|done|].
  intros e' (files' & Hfs & g & Hg & Hge) Ek. rewrite Forall_forall in Hnew2. specialize (Hnew2 files' Hfs).
  apply (Hnew2 f g); [done|done| |done|done]. exists es. split; [done|]. by destruct Hnewest.
Qed.

(** *** The whole version *)
Definition in_version (v : Version) (e : Entry) : Prop := exists level f, f ∈ level_files v level /\ entry_of f e.

Lemma in_version_split v e :
  wf_version v -> in_version v e <-> in_files (level_files v 0) e \/ in_levels (drop 1 (files_ v)) e.
Proof using.
  intros W. split.
  - intros (level & f & Hf & He). destruct level as [|level]; [left; by exists f|right].
    unfold level_files in Hf. destruct (files_ v !! S level) as [files|] eqn:E; [|by apply not_elem_of_nil in Hf].
    exists files. split; [|by exists f]. apply list_elem_of_lookup. exists level. by rewrite lookup_drop.
  - intros [(f & Hf & He)|(files & [i Hi]%list_elem_of_lookup & f & Hf & He)]; [by exists 0%nat, f|].
    rewrite lookup_drop in Hi. exists (1 + i)%nat, f. split; [|done]. unfold level_files. by rewrite Hi.
Qed.

Lemma version_get_spec v tc value :
  wf_version v -> inv tc ->
  exists status lo, get reader v tc (LookupKey_new u snapshot) value = Some (status, lo) /\ inv (table_cache lo) /\
    ((nothing_in (in_version v) /\ status = not_found "not present" /\ lo_value lo = value) \/
     exists e, newest_of (in_version v) e /\ answers e value status (lo_value lo)).
Proof using Hs TableReaderLaws0.
  intros W Hi. unfold get. destruct (lookup_key_views u snapshot) as [-> ->].
  set (lo0 := mkLookup value None (-1) None (-1) tc).
  destruct (search_level0_spec (S (length (level_files v 0))) lo0 (level_files v 0) (2 ^ 64 - 1)) as (r & lo1 & -> & Hi1 & Hr).
  { done. }
  { intros f Hf. by eapply wv_entries. }
  { apply W. }
  { apply W. }
  { intros f Hf Hge. pose proof (wv_small v W f Hf). lia. }
  { pose proof (length_filter_le (λ f : FilePtr, (number f <? 2 ^ 64 - 1)%Z) (level_files v 0)). lia. }
  cbn [mbind option_bind]. destruct r as [[]|status].
  - destruct Hr as [Hno Hval].
    assert (forall i files, drop 1 (files_ v) !! i = Some files -> files = level_files v (S i)) as Hlev.
    { intros i files Hfi. rewrite lookup_drop in Hfi. unfold level_files. by rewrite (Hfi : files_ v !! S i = _). }
    destruct (search_levels_spec lo1 1 (drop 1 (files_ v)) Hi1) as (r & lo2 & -> & Hi2 & Hr).
    { intros files f [i ->%Hlev]%list_elem_of_lookup Hf. by eapply wv_entries. }
    { intros files [i ->%Hlev]%list_elem_of_lookup. apply wv_disjoint; [done|lia]. }
    { apply StronglySorted_from_lookup. intros i j x y Hij ->%Hlev ->%Hlev. apply (wv_newer v W). lia. }
    cbn [mbind option_bind]. rewrite Hval in Hr. destruct r as [[]|status].
    + eexists _, lo2. split; [done|]. split; [done|]. left. destruct Hr as [Hr1 Hr2]. split; [|done].
      intros e [H|H]%in_version_split; [by apply Hno|by apply Hr1|done].
    + eexists _, lo2. split; [done|]. split; [done|]. right. destruct Hr as (e & (H1 & H2 & H3) & Hans). exists e. split; [|done].
      split; [apply in_version_split; [done|by right]|]. split; [done|].
      intros e' [H|H]%in_version_split Hv; [by destruct (Hno e' H)|by apply H3|done].
  - eexists _, lo1. split; [done|]. split; [done|]. right. destruct Hr as (e & Hnew & Hans). exists e. split; [|done].
    apply (newest_with (in_files (level_files v 0)) (in_levels (drop 1 (files_ v)))); [done|intros e'; by apply in_version_split|].
    intros e' (files & [i Hfi]%list_elem_of_lookup & g & Hg & Hge) Ek. rewrite lookup_drop in Hfi.
    destruct Hnew as ((f & Hf & Hfe) & _ & _). apply (wv_newer v W 0 (1 + i) ltac:(lia) f g); [done| |done|done|done].
    unfold level_files. by rewrite Hfi.
Qed.
End Answer.
End WellFormed.

(** * Theorem *)

(** A lookup in a version returns the newest visible entry of all its
    tables: over a table cache that keeps its promise, in a version whose
    level-0 files grow newer with their number, whose levels below are disjoint
    and in order, and where no level holds an entry older than one of the same
    key further down, [Version::get] always returns; it says "not present"
    exactly when every entry of the user key is newer than the snapshot, and
    otherwise answers from the entry with the largest sequence number at or
    below it, wherever that is - its value, or "deleted", leaving the caller's
    string as it was. *)
Theorem version_get_returns_newest_visible {TC} (reader : TableReader TC) contents inv
    `{!TableReaderLaws reader contents inv} v tc u snapshot value :
  wf_version contents v -> inv tc -> seq_ok snapshot ->
  exists status lo, get reader v tc (LookupKey_new u snapshot) value = Some (status, lo) /\ inv (table_cache lo) /\
    ((nothing_in u snapshot (in_version contents v) /\ status = not_found "not present" /\ lo_value lo = value) \/
     exists e, newest_of u snapshot (in_version contents v) e /\ answers e value status (lo_value lo)).
Proof. intros W Hi Hs. by apply (version_get_spec contents u snapshot Hs reader inv). Qed.

(** Tables held in memory. *)
Definition memory_reader (contents : Z -> Z -> option (list Entry)) : TableReader () :=
  mkTableReader () (λ _ n sz key,
    match contents n sz with
    | Some es => Some (ok, table_entries es !! lower_bound icmp (table_entries es) key, ())
    | None => Some (io_error "no such file", None, ())
    end).
#[global] Instance memory_reader_laws contents : TableReaderLaws (memory_reader contents) contents (λ _, True).
Proof. constructor. intros tc n sz es u s _ E _ wanted. cbn. rewrite E. eexists _, (). split_and!; [done|done| |]; by intros; subst. Qed.

Definition entry (u : bytes) (s : Z) (v : bytes) : Entry := MemTable.mkVersion s kValue u v.
Definition sample_contents (n sz : Z) : option (list Entry) :=
  if n =? 8 then Some [entry [x61] 9 [x32]]
  else if n =? 5 then Some [entry [x61] 4 [x31]; entry [x63] 5 [x33]] else None.
Definition sample_get_version : Version :=
  mkVersion [[mkPtr 1 (mkFile 8 100 (make_internal_key [x61] 9 kValue) (make_internal_key [x61] 9 kValue) 100 1)];
             [mkPtr 2 (mkFile 5 200 (make_internal_key [x61] 4 kValue) (make_internal_key [x63] 5 kValue) 100 1)];
             []; []; []; []; []] None (-1) (double_of_Z (-1)) (-1).
Lemma sample_get_files level (f : FilePtr) :
  f ∈ level_files sample_get_version level ->
  (level = 0%nat /\ number f = 8) \/ (level = 1%nat /\ number f = 5).
Proof.
  destruct level as [|[|[|[|[|[|[|level]]]]]]]; unfold level_files; cbn [sample_get_version files_ lookup list_lookup from_option id];
    intros H; try (destruct level as [|level]); cbn [lookup list_lookup from_option] in H; elem_cases; auto.
Qed.
Lemma sample_get_wf : wf_version sample_contents sample_get_version.
Proof.
  assert (forall level f, f ∈ level_files sample_get_version level -> exists es, holds_entries sample_contents f es) as Hes.
  { intros [|[|[|[|[|[|[|level]]]]]]] f; unfold level_files; cbn [sample_get_version files_ lookup list_lookup from_option id];
      intros H; try (destruct level as [|level]); cbn [lookup list_lookup from_option] in H; elem_cases; (eexists; split; [reflexivity|by (repeat (apply Forall_cons; split; [vm_compute; by split|])); apply Forall_nil|repeat constructor|reflexivity|reflexivity]). }
  split.
  - reflexivity.
  - exact Hes.
  - intros f g Hf Hg _. unfold level_files in *. cbn in *. elem_cases. done.
  - intros f Hf. unfold level_files in *. cbn in *. elem_cases. cbn. lia.
  - intros f g [[_ E1]|[? _]]%sample_get_files [[_ E2]|[? _]]%sample_get_files; lia.
  - intros [|[|[|[|[|[|[|level]]]]]]] _; unfold level_files; cbn [sample_get_version files_ lookup list_lookup from_option id]; try (destruct level as [|level]); repeat constructor.
  - intros i j Hij f g a b Hf Hg (es & [Ea _ _ _ _] & Ha) (es' & [Eb _ _ _ _] & Hb) Ek.
    apply sample_get_files in Hf as [[-> Ef]|[-> Ef]], Hg as [[-> Eg]|[-> Eg]]; try lia.
    rewrite Ef in Ea. rewrite Eg in Eb. cbn in Ea, Eb. injection Ea as <-. injection Eb as <-. elem_cases; cbn in *; first [lia|done].
Qed.

Lemma version_get_returns_newest_visible_witness :
  exists status lo, get (memory_reader sample_contents) sample_get_version () (LookupKey_new [x61] 7) [] = Some (status, lo) /\
    ((nothing_in [x61] 7 (in_version sample_contents sample_get_version) /\ status = not_found "not present" /\ lo_value lo = []) \/
     exists e, newest_of [x61] 7 (in_version sample_contents sample_get_version) e /\ answers e [] status (lo_value lo)) /\
    status = ok /\ lo_value lo = [x31].
Proof.
  destruct (version_get_returns_newest_visible (memory_reader sample_contents) sample_contents (λ _, True)
    sample_get_version () [x61] 7 []) as (status & lo & E & _ & H); [exact sample_get_wf|done|unfold seq_ok; vm_compute; split; discriminate|].
  exists status, lo. split; [exact E|]. split; [exact H|].
  assert ((λ r, (r.1, lo_value r.2)) <$> get (memory_reader sample_contents) sample_get_version () (LookupKey_new [x61] 7) [] =
    Some (ok, [x31])) as Ev by (vm_compute; reflexivity).
  rewrite E in Ev. cbn [fmap option_fmap option_map fst snd] in Ev. injection Ev as E1 E2. split; [exact E1|exact E2].
Defined.

End VersionGet.
