(* ===== verification/VersionBuilder.v ===== *)
(** Applying edits to a version ([VersionSet::Builder] of
    src/src/version_set.cpp).

    [addr] counts the addresses handed out: every new file object gets the
    next.  [compact_pointers] is the version set's array. *)
From stdpp Require Import gmap.
From S2P Require Import Prelude Status Encoding DbFormat Comparator Iterator VersionEdit Version.
Import Status Encoding DbFormat Comparator Iterator VersionEdit Version.
Local Open Scope Z_scope.

Module VersionBuilder.

(** [BySmallestKey]. *)
Definition by_smallest_key (a b : FilePtr) : bool :=
  match compare internal_key_comparator (smallest a) (smallest b) with
  | Lt => true
  | Gt => false
  | Eq => number a <? number b
  end.

(** [std::set<FileMetaData*, BySmallestKey>]: in order; an element equivalent
    to one that is there is not inserted. *)
Fixpoint file_set_insert (file : FilePtr) (l : list FilePtr) : list FilePtr :=
  match l with
  | [] => [file]
  | f :: l' =>
      if by_smallest_key file f then file :: l
      else if by_smallest_key f file then f :: file_set_insert file l'
      else l
  end.

Record LevelState := mkLevelState { deleted_files : gset Z; added_files : list FilePtr }.
Record Builder := mkBuilder {
  base_ : Version;
  levels_ : list LevelState;
  compact_pointers : list bytes;
  next_address : nat
}.
Definition Builder_new (base : Version) (compact_pointers : list bytes) (addr : nat) : Builder :=
  mkBuilder base (replicate kNumLevels (mkLevelState ∅ [])) compact_pointers addr.

(** [levels_[level]] with a level that the edit's decoder has checked. *)
Definition update_level (b : Builder) (level : Z) (f : LevelState -> LevelState) : Builder :=
  mkBuilder (base_ b) (alter f (Z.to_nat level) (levels_ b)) (compact_pointers b) (next_address b).

Definition apply_pointer (b : Builder) (p : Z * bytes) : Builder :=
  mkBuilder (base_ b) (levels_ b) (<[Z.to_nat (fst p) := snd p]> (compact_pointers b)) (next_address b).
Definition apply_deleted (b : Builder) (d : Z * Z) : Builder :=
  update_level b (fst d) (λ l, mkLevelState (deleted_files l ∪ {[snd d]}) (added_files l)).

(** [static_cast<int>(file_size / 16384)], at least 100. *)
Definition i32 (z : Z) : Z := let z := u32 z in if z <? 2 ^ 31 then z else z - 2 ^ 32.
Definition seeks_allowed (size : Z) : Z :=
  let allowed := i32 (size / 16384) in if allowed <? 100 then 100 else allowed.

Definition apply_new (b : Builder) (n : Z * FileMetaData) : Builder :=
  let meta := snd n in
  let file := mkPtr (next_address b)
    (mkFile (number meta) (file_size meta) (smallest meta) (largest meta) (seeks_allowed (file_size meta)) 1) in
  let b := mkBuilder (base_ b) (levels_ b) (compact_pointers b) (S (next_address b)) in
  update_level b (fst n) (λ l,
    mkLevelState (deleted_files l ∖ {[number meta]}) (file_set_insert file (added_files l))).

Definition apply (b : Builder) (edit : VersionEdit) : Builder :=
  let b := fold_left apply_pointer (compact_pointers_ edit) b in
  let b := fold_left apply_deleted (deleted_files_ edit) b in
  fold_left apply_new (new_files_ edit) b.

(** [maybe_add_file], on a whole range. *)
Definition kept (l : LevelState) (files : list FilePtr) : list FilePtr :=
  filter (λ file : FilePtr, number file ∉ deleted_files l) files.

(** [std::upper_bound]: the elements of a sorted range that do not come after
    [file] end at it. *)
Fixpoint upper_bound (file : FilePtr) (l : list FilePtr) : nat :=
  match l with
  | [] => O
  | f :: l' => if by_smallest_key file f then O else S (upper_bound file l')
  end.
Fixpoint save_level (l : LevelState) (base added : list FilePtr) : list FilePtr :=
  match added with
  | [] => kept l base
  | file :: added' =>
      let pos := upper_bound file base in
      kept l (take pos base) ++ kept l [file] ++ save_level l (drop pos base) added'
  end.

(** [save_to] into a fresh version. *)
Definition save_to (b : Builder) : Version :=
  mkVersion (zip_with (λ l base, save_level l base (added_files l)) (levels_ b) (files_ (base_ b)))
    None (-1) (double_of_Z (-1)) (-1).

(** * Lemmas *)

(** ** The order *)
Definition file_lt (a b : FilePtr) : Prop := by_smallest_key a b = true.
Definition file_readable (f : FilePtr) : Prop := readable internal_key_comparator (smallest f).
Definition ordered (l : list FilePtr) : Prop := StronglySorted file_lt l.

Lemma file_lt_irrefl a : ~ file_lt a a.
Proof. unfold file_lt, by_smallest_key. rewrite cmp_refl, Z.ltb_irrefl. done. Qed.
Lemma file_lt_trans a b c : file_readable a -> file_readable b -> file_readable c -> file_lt a b -> file_lt b c -> file_lt a c.
Proof.
  unfold file_lt, by_smallest_key, file_readable. intros Ra Rb Rc.
  destruct (compare _ (smallest a) (smallest b)) eqn:E1; [| |done];
    destruct (compare _ (smallest b) (smallest c)) eqn:E2; try done.
  - apply cmp_eq in E1; [|done..]. apply cmp_eq in E2; [|done..]. rewrite E1, E2, cmp_refl. rewrite !Z.ltb_lt. lia.
  - apply cmp_eq in E1; [|done..]. by rewrite E1, E2.
  - apply cmp_eq in E2; [|done..]. by rewrite <- E2, E1.
  - intros _ _. by rewrite (cmp_trans _ _ _ E1 E2).
Qed.
Lemma file_lt_total a b :
  file_readable a -> file_readable b -> by_smallest_key a b = false -> by_smallest_key b a = false ->
  smallest a = smallest b /\ number a = number b.
Proof.
  unfold by_smallest_key, file_readable. intros Ra Rb. rewrite (cmp_antisym (smallest a) (smallest b)).
  destruct (compare _ (smallest a) (smallest b)) eqn:E; cbn; [|done..]. apply cmp_eq in E; [|done..].
  rewrite !Z.ltb_ge. intros. split; [done|lia].
Qed.

Lemma file_set_insert_elem file l f :
  f ∈ file_set_insert file l -> f = file \/ f ∈ l.
Proof.
  induction l as [|x l IH]; cbn [file_set_insert]; [intros ->%list_elem_of_singleton; by left|].
  destruct (by_smallest_key file x); [rewrite elem_of_cons; tauto|].
  destruct (by_smallest_key x file); [|by right]. rewrite !elem_of_cons. tauto.
Qed.
Lemma file_set_insert_in file l f : f ∈ l -> f ∈ file_set_insert file l.
Proof.
  induction l as [|x l IH]; intros H; [by apply not_elem_of_nil in H|]. cbn [file_set_insert].
  destruct (by_smallest_key file x); [by right|]. destruct (by_smallest_key x file); [|done].
  apply elem_of_cons in H as [->|H]; [left|right; by apply IH].
Qed.
(** A file with a number of its own is inserted. *)
Lemma file_set_insert_new file l :
  file_readable file -> Forall file_readable l -> (forall f : FilePtr, f ∈ l -> number f <> number file) -> file ∈ file_set_insert file l.
Proof.
  intros Hf. induction 1 as [|x l Hx HF IH]; intros Hn; cbn [file_set_insert]; [left|].
  destruct (by_smallest_key file x) eqn:E1; [left|]. destruct (by_smallest_key x file) eqn:E2; [right; apply IH; set_solver|].
  destruct (file_lt_total file x Hf Hx E1 E2) as [_ En]. destruct (Hn x ltac:(left)). done.
Qed.
Lemma file_set_insert_ordered file l :
  file_readable file -> Forall file_readable l -> ordered l -> ordered (file_set_insert file l).
Proof.
  intros Hf HF Hs. induction Hs as [|x l Hs IH Hx]; cbn [file_set_insert]; [repeat constructor|].
  apply Forall_cons in HF as [Hok HF].
  destruct (by_smallest_key file x) eqn:E1.
  - constructor; [by constructor|]. constructor; [done|]. rewrite Forall_forall in *. intros y Hy.
    apply (file_lt_trans file x y); [done|done|by apply HF|done|by apply Hx].
  - destruct (by_smallest_key x file) eqn:E2; [|by constructor]. constructor; [by apply IH|].
    rewrite Forall_forall in *. intros y [->|Hy]%file_set_insert_elem; [done|by apply Hx].
Qed.

(** ** Merging *)
Lemma upper_bound_split file l :
  ordered l -> Forall file_readable l -> file_readable file ->
  (forall f, f ∈ take (upper_bound file l) l -> by_smallest_key file f = false) /\
  (forall f, f ∈ drop (upper_bound file l) l -> file_lt file f).
Proof.
  intros Hs HF Hf. induction Hs as [|x l Hs IH Hx]; [split; intros f ?%not_elem_of_nil; done|]. cbn [upper_bound].
  apply Forall_cons in HF as [Hok HF]. destruct (by_smallest_key file x) eqn:E.
  - split; [intros f ?%not_elem_of_nil; done|]. intros f [->|Hin]%elem_of_cons; [done|]. rewrite Forall_forall in Hx, HF.
    apply (file_lt_trans file x f); [done|done|by apply HF|done|by apply Hx].
  - destruct (IH HF) as [H1 H2]. cbn [take drop]. split; [|done]. intros f [->|Hin]%elem_of_cons; [done|by apply H1].
Qed.

Lemma kept_elem l files (f : FilePtr) : f ∈ kept l files <-> f ∈ files /\ number f ∉ deleted_files l.
Proof. unfold kept. rewrite list_elem_of_filter. tauto. Qed.

Lemma save_level_elem l base added (f : FilePtr) :
  f ∈ save_level l base added <-> (f ∈ base \/ f ∈ added) /\ number f ∉ deleted_files l.
Proof.
  revert base. induction added as [|a added IH]; intros base; cbn [save_level].
  - rewrite kept_elem. set_solver.
  - rewrite !elem_of_app, IH, !kept_elem, list_elem_of_singleton, elem_of_cons.
    assert (f ∈ base <-> f ∈ take (upper_bound a base) base \/ f ∈ drop (upper_bound a base) base) as ->.
    { by rewrite <- elem_of_app, take_drop. }
    tauto.
Qed.

Lemma kept_ordered l files : ordered files -> ordered (kept l files).
Proof.
  intros H. unfold kept. induction H as [|x files Hs IH Hx]; [constructor|]. rewrite filter_cons. case_decide; [|done].
  constructor; [done|]. rewrite Forall_forall in *. intros y [_ Hy]%list_elem_of_filter. by apply Hx.
Qed.
Lemma ordered_app a b :
  ordered a -> ordered b -> (forall x y, x ∈ a -> y ∈ b -> file_lt x y) -> ordered (a ++ b).
Proof. intros Ha Hb H. apply StronglySorted_app. split_and!; [|done|done]. intros x y Hx Hy. by apply H. Qed.

Lemma save_level_ordered l base added :
  ordered base -> ordered added -> Forall file_readable base -> Forall file_readable added ->
  (forall f g : FilePtr, f ∈ base -> g ∈ added -> number f <> number g) -> ordered (save_level l base added).
Proof.
  intros Hb Ha. revert base Hb. induction Ha as [|a added Ha IH Hall]; intros base Hb Fb Fa Hn; cbn [save_level].
  { by apply kept_ordered. }
  apply Forall_cons in Fa as [Hoa Fa]. destruct (upper_bound_split a base Hb Fb Hoa) as [H1 H2].
  set (pos := upper_bound a base) in *.
  assert (ordered (take pos base) /\ ordered (drop pos base)) as [Ht Hd].
  { unfold ordered in *. rewrite <- (take_drop pos base) in Hb. apply StronglySorted_app in Hb. tauto. }
  assert (forall x y, x ∈ take pos base -> y ∈ drop pos base -> file_lt x y) as Htd.
  { rewrite <- (take_drop pos base) in Hb. apply StronglySorted_app in Hb. tauto. }
  assert (Forall file_readable (take pos base) /\ Forall file_readable (drop pos base)) as [Ft Fd].
  { rewrite <- (take_drop pos base) in Fb. by apply Forall_app in Fb. }
  assert (forall x, x ∈ take pos base -> x ∈ base) as Hsub1 by (intros x Hx; rewrite <- (take_drop pos base); apply elem_of_app; by left).
  assert (forall x, x ∈ drop pos base -> x ∈ base) as Hsub2 by (intros x Hx; rewrite <- (take_drop pos base); apply elem_of_app; by right).
  assert (forall x, x ∈ take pos base -> file_lt x a) as Hxa.
  { intros x Hx. unfold file_lt. destruct (by_smallest_key x a) eqn:E; [done|]. rewrite Forall_forall in Fb.
    destruct (file_lt_total a x Hoa (Fb x (Hsub1 x Hx)) (H1 x Hx) E) as [_ En]. destruct (Hn x a (Hsub1 x Hx) ltac:(left)). done. }
  assert (ordered (save_level l (drop pos base) added)) as Hrec by (apply IH; set_solver).
  assert (forall y, y ∈ save_level l (drop pos base) added -> file_lt a y) as Hay.
  { intros y [[Hy|Hy] _]%save_level_elem; [by apply H2|]. rewrite Forall_forall in Hall. by apply Hall. }
  apply ordered_app; [by apply kept_ordered| |].
  - apply ordered_app; [apply kept_ordered; repeat constructor|done|]. intros x y [->%list_elem_of_singleton _]%kept_elem Hy. by apply Hay.
  - intros x y [Hx _]%kept_elem [[->%list_elem_of_singleton _]%kept_elem|Hy]%elem_of_app; [by apply Hxa|].
    apply save_level_elem in Hy as [[Hy|Hy] _]; [by apply Htd|]. rewrite Forall_forall in Ft, Fa, Hall.
    apply (file_lt_trans x a y); [by apply Ft|done|by apply Fa|by apply Hxa|by apply Hall].
Qed.

(** * What a sequence of edits means

    The files by level and number; an edit removes, then adds. *)
Abbreviation Meta := (Z * bytes * bytes)%type.
Definition core (f : FileMetaData) : Meta := (file_size f, smallest f, largest f).
Abbreviation Files := (gmap (Z * Z) Meta).
Definition spec_add (M : Files) (n : Z * FileMetaData) : Files := <[(fst n, number (snd n)) := core (snd n)]> M.
Definition spec_edit (M : Files) (e : VersionEdit) : Files :=
  fold_left spec_add (new_files_ e) (fold_left (λ M d, delete d M) (deleted_files_ e) M).
Definition added_pairs (edits : list VersionEdit) : list (Z * Z) :=
  edits ≫= λ e, (λ n : Z * FileMetaData, (fst n, number (snd n))) <$> new_files_ e.

(** A version has exactly the files of [M]. *)
Definition has_files (v : Version) (M : Files) : Prop :=
  length (files_ v) = kNumLevels /\
  (forall level n meta, M !! (level, n) = Some meta -> level_ok level) /\
  forall level n meta, M !! (Z.of_nat level, n) = Some meta <->
    exists f : FilePtr, f ∈ level_files v level /\ number f = n /\ core f = meta.
(** Its levels are in order, and no level has a number twice. *)
Definition in_order (v : Version) : Prop :=
  forall level, ordered (level_files v level) /\ Forall file_readable (level_files v level) /\
    forall f g : FilePtr, f ∈ level_files v level -> g ∈ level_files v level -> number f = number g -> f = g.

Section Applying.
Context (base : Version) (M0 : Files).
Context (Hbase : has_files base M0) (Horder : in_order base).

(** The builder after some edits: [done] is what was added. *)
Record applied (b : Builder) (M : Files) (done : list (Z * Z)) : Prop := {
  ap_base : base_ b = base;
  ap_length : length (levels_ b) = kNumLevels;
  ap_levels level n meta : M !! (level, n) = Some meta -> level_ok level;
  ap_added level l : levels_ b !! level = Some l -> ordered (added_files l) /\ Forall file_readable (added_files l) /\
    (forall f g : FilePtr, f ∈ added_files l -> g ∈ added_files l -> number f = number g -> f = g) /\
    (forall f : FilePtr, f ∈ added_files l -> (Z.of_nat level, number f) ∈ done);
  ap_map level l n meta : levels_ b !! level = Some l ->
    M !! (Z.of_nat level, n) = Some meta <->
    (exists f : FilePtr, (f ∈ level_files base level \/ f ∈ added_files l) /\ number f = n /\ core f = meta) /\ n ∉ deleted_files l
}.

Lemma applied_new cps addr : applied (Builder_new base cps addr) M0 [].
Proof using Hbase.
  clear Horder. destruct Hbase as (Hl & Hlev & Hm). split; [done|done|done| |].
  - intros level l [-> _]%lookup_replicate. cbn [added_files]. split; [apply SSorted_nil|]. split; [by apply Forall_nil|].
    split; [intros f g ?%not_elem_of_nil; done|intros f ?%not_elem_of_nil; done].
  - intros level l n meta [-> _]%lookup_replicate. rewrite Hm. cbn [added_files deleted_files]. setoid_rewrite elem_of_nil. set_solver.
Qed.

Lemma applied_pointer b M done p : applied b M done -> applied (apply_pointer b p) M done.
Proof using. intros [H1 H2 H3 H4 H5]. by split. Qed.

Lemma applied_deleted b M done d : level_ok (fst d) -> applied b M done -> applied (apply_deleted b d) (delete d M) done.
Proof using.
  clear Hbase Horder. intros Hd [H1 H2 H3 H4 H5]. destruct d as [dl dn]. cbn [fst snd] in *. unfold apply_deleted, update_level. cbn [fst snd].
  split; cbn [base_ levels_]; [done|by rewrite length_alter| | |].
  - intros level n meta [_ H]%lookup_delete_Some. by eapply H3.
  - intros level l Hl. destruct (decide (level = Z.to_nat dl)) as [->|Hne].
    + rewrite list_lookup_alter_eq in Hl. destruct (levels_ b !! Z.to_nat dl) as [l0|] eqn:E; [|done]. injection Hl as <-. by apply (H4 _ l0).
    + rewrite list_lookup_alter_ne in Hl by done. by apply H4.
  - intros level l n meta Hl. destruct (decide (level = Z.to_nat dl)) as [->|Hne].
    + rewrite list_lookup_alter_eq in Hl. destruct (levels_ b !! Z.to_nat dl) as [l0|] eqn:E; [|done]. injection Hl as <-.
      cbn [added_files deleted_files]. rewrite lookup_delete_Some, (H5 _ l0 n meta E). unfold level_ok in Hd. rewrite Z2Nat.id by lia.
      rewrite not_elem_of_union, not_elem_of_singleton. intuition congruence.
    + rewrite list_lookup_alter_ne in Hl by done. rewrite lookup_delete_ne; [by apply H5|]. intros [= ? _]. apply Hne. lia.
Qed.

Lemma applied_new_file b M done n :
  level_ok (fst n) -> (8 <= length (smallest (snd n)))%nat -> applied b M done ->
  (fst n, number (snd n)) ∉ done -> (forall f : FilePtr, f ∈ level_files base (Z.to_nat (fst n)) -> number f <> number (snd n)) ->
  applied (apply_new b n) (spec_add M n) (done ++ [(fst n, number (snd n))]).
Proof using.
  clear Hbase Horder. intros Hd Hr [H1 H2 H3 H4 H5] Hfresh Hbase'. destruct n as [dl m]. cbn [fst snd] in *.
  unfold apply_new, update_level, spec_add. cbn [fst snd base_ levels_ compact_pointers next_address].
  set (file := mkPtr _ _). assert (Z.of_nat (Z.to_nat dl) = dl) as Edl by (unfold level_ok in Hd; lia).
  assert (file_readable file) as Hrf by exact Hr.
  assert (forall l0, levels_ b !! Z.to_nat dl = Some l0 -> forall f : FilePtr, f ∈ added_files l0 -> number f <> number file) as Hfr.
  { intros l0 E f Hf En. destruct (H4 _ l0 E) as (_ & _ & _ & Hdone). apply Hfresh. rewrite <- Edl. change (number m) with (number file).
    rewrite <- En. by apply Hdone. }
  split; cbn [base_ levels_]; [done|by rewrite length_alter| | |].
  - intros level n meta. rewrite lookup_insert_Some. intros [[[= <- <-] _]|[_ H]]; [done|by eapply H3].
  - intros level l Hl. destruct (decide (level = Z.to_nat dl)) as [->|Hne].
    + rewrite list_lookup_alter_eq in Hl. destruct (levels_ b !! Z.to_nat dl) as [l0|] eqn:E; [|done]. injection Hl as <-.
      destruct (H4 _ l0 E) as (Ho & HF & Hu & Hdone). specialize (Hfr l0 eq_refl). cbn [added_files]. split_and!.
      * by apply file_set_insert_ordered.
      * apply Forall_forall. intros f [->|Hf]%file_set_insert_elem; [done|]. rewrite Forall_forall in HF. by apply HF.
      * intros f g [->|Hf]%file_set_insert_elem [->|Hg]%file_set_insert_elem En; [done| | |by apply Hu].
        -- by destruct (Hfr g Hg).
        -- by destruct (Hfr f Hf).
      * intros f [->|Hf]%file_set_insert_elem; apply elem_of_app; [right|left; by apply Hdone].
        apply list_elem_of_singleton. by rewrite Edl.
    + rewrite list_lookup_alter_ne in Hl by done. destruct (H4 _ l Hl) as (Ho & HF & Hu & Hdone). split_and!; [done..|].
      intros f Hf. apply elem_of_app. left. by apply Hdone.
  - intros level l n meta Hl. destruct (decide (level = Z.to_nat dl)) as [->|Hne].
    + rewrite list_lookup_alter_eq in Hl. destruct (levels_ b !! Z.to_nat dl) as [l0|] eqn:E; [|done]. injection Hl as <-.
      destruct (H4 _ l0 E) as (Ho & HF & Hu & Hdone). specialize (Hfr l0 eq_refl). cbn [added_files deleted_files]. rewrite Edl.
      assert (file ∈ file_set_insert file (added_files l0)) as Hin by (by apply file_set_insert_new).
      pose proof (H5 _ l0 n meta E) as H5'. rewrite Edl in H5'. rewrite lookup_insert_Some, H5'. split.
      * intros [[[= <-] <-]|[Hn ((f & Hf & Hfn & Hfc) & Hdel)]].
        -- split; [|set_solver]. exists file. split_and!; [by right|done|done].
        -- split; [|set_solver]. exists f. split_and!; [|done|done]. destruct Hf as [Hf|Hf]; [by left|right]. by apply file_set_insert_in.
      * intros ((f & Hf & Hfn & Hfc) & Hdel). destruct (decide (number m = n)) as [Ee|Hne].
        -- left. split; [congruence|]. destruct Hf as [Hf|[->|Hf]%file_set_insert_elem].
           ++ destruct (Hbase' f Hf). congruence.
           ++ exact Hfc.
           ++ destruct (Hfr f Hf). cbn. congruence.
        -- right. split; [congruence|]. split; [|set_solver]. exists f. split_and!; [|done|done].
           destruct Hf as [Hf|[->|Hf]%file_set_insert_elem]; [by left|by destruct Hne|by right].
    + rewrite list_lookup_alter_ne in Hl by done. rewrite lookup_insert_ne; [by apply H5|]. intros [= ? _]. apply Hne. lia.
Qed.

Lemma applied_edit b M done e :
  edit_ok e -> applied b M done -> NoDup (done ++ added_pairs [e]) ->
  (forall level (f : FilePtr), f ∈ level_files base level -> (Z.of_nat level, number f) ∉ added_pairs [e]) ->
  applied (apply b e) (spec_edit M e) (done ++ added_pairs [e]).
Proof using.
  intros He Hb Hnd Hfresh. unfold apply, spec_edit, added_pairs in *. cbn [mbind list_bind] in *. rewrite app_nil_r in *.
  assert (applied (fold_left apply_pointer (compact_pointers_ e) b) M done) as Hb1.
  { clear -Hb. revert b Hb. induction (compact_pointers_ e) as [|p ps IH]; intros b Hb; [done|]. apply IH. by apply applied_pointer. }
  destruct (eo_del _ He) as [Hdel _].
  assert (applied (fold_left apply_deleted (deleted_files_ e) (fold_left apply_pointer (compact_pointers_ e) b))
    (fold_left (λ M d, delete d M) (deleted_files_ e) M) done) as Hb2.
  { clear -Hb1 Hdel. revert Hb1. generalize (fold_left apply_pointer (compact_pointers_ e) b) as b1. revert M.
    induction Hdel as [|d ds [Hd _] _ IH]; intros M b1 Hb1; [done|]. apply IH. by apply applied_deleted. }
  pose proof (eo_new _ He) as Hnew. revert Hb2 Hnd Hfresh. clear -Hnew.
  generalize (fold_left apply_deleted (deleted_files_ e) (fold_left apply_pointer (compact_pointers_ e) b)) as b2.
  generalize (fold_left (λ M d, delete d M) (deleted_files_ e) M) as M2. revert done.
  induction Hnew as [|n ns [Hl Hf] _ IH]; intros done M2 b2 Hb Hnd Hfresh; [by rewrite fmap_nil, app_nil_r|].
  rewrite fmap_cons in *. cbn [fold_left]. rewrite (cons_middle (fst n, _)), app_assoc in *. apply IH; [|done|].
  - apply applied_new_file; [done| |done| |].
    + destruct Hf as (_ & _ & [Hk _] & _). unfold size in Hk. lia.
    + apply NoDup_app in Hnd as (Hnd & _ & _). apply NoDup_app in Hnd as (_ & Hx & _). intros Hin. apply (Hx _ Hin). by apply list_elem_of_singleton.
    + intros f Hfi En. apply (Hfresh _ f Hfi). rewrite En. unfold level_ok in Hl. rewrite Z2Nat.id by lia. left.
  - intros level f Hfi Hin. apply (Hfresh level f Hfi). by right.
Qed.

Lemma applied_edits edits b M done :
  Forall edit_ok edits -> applied b M done -> NoDup (done ++ added_pairs edits) ->
  (forall level (f : FilePtr), f ∈ level_files base level -> (Z.of_nat level, number f) ∉ added_pairs edits) ->
  applied (fold_left apply edits b) (fold_left spec_edit edits M) (done ++ added_pairs edits).
Proof using.
  intros HF. revert b M done. induction HF as [|e edits He _ IH]; intros b M done Hb Hnd Hfresh; [by rewrite app_nil_r|].
  change (added_pairs (e :: edits)) with (((λ n : Z * FileMetaData, (fst n, number (snd n))) <$> new_files_ e) ++ added_pairs edits) in *.
  assert (added_pairs [e] = (λ n : Z * FileMetaData, (fst n, number (snd n))) <$> new_files_ e) as Ee.
  { unfold added_pairs. cbn [mbind list_bind]. apply app_nil_r. }
  rewrite <- Ee, app_assoc in *. cbn [fold_left]. apply IH; [|done|].
  - apply applied_edit; [done|done| |].
    + by apply NoDup_app in Hnd as (? & _ & _).
    + intros level f Hf Hin. apply (Hfresh level f Hf). apply elem_of_app. by left.
  - intros level f Hf Hin. apply (Hfresh level f Hf). apply elem_of_app. by right.
Qed.

Lemma save_to_spec b M done :
  applied b M done -> (forall level (f : FilePtr), f ∈ level_files base level -> (Z.of_nat level, number f) ∉ done) ->
  has_files (save_to b) M /\ in_order (save_to b).
Proof using Hbase Horder.
  intros [H1 H2 H3 H4 H5] Hdis. destruct Hbase as (Hlb & _ & _).
  assert (forall level, match levels_ b !! level with
    | Some l => level_files (save_to b) level = save_level l (level_files base level) (added_files l)
    | None => level_files (save_to b) level = [] end) as Hlev.
  { intros level. unfold save_to, level_files. cbn [files_]. rewrite H1, lookup_zip_with.
    destruct (levels_ b !! level) as [l|] eqn:E; [|done]. cbn [mbind option_bind].
    destruct (lookup_lt_is_Some_2 (files_ base) level) as [fs ->]; [|done]. apply lookup_lt_Some in E. lia. }
  split; [split_and!|].
  - unfold save_to. cbn [files_]. rewrite H1, length_zip_with. lia.
  - done.
  - intros level n meta. specialize (Hlev level). destruct (levels_ b !! level) as [l|] eqn:E; rewrite Hlev.
    + rewrite (H5 level l n meta E). setoid_rewrite save_level_elem. naive_solver.
    + split; [|by intros (f & ?%not_elem_of_nil & _)]. intros HM. apply H3 in HM. apply lookup_ge_None in E.
      unfold level_ok in HM. rewrite H2 in E. unfold kNumLevels in E. lia.
  - intros level. specialize (Hlev level). destruct (Horder level) as (Ho & HF & Hu).
    destruct (levels_ b !! level) as [l|] eqn:E; rewrite Hlev; [|split; [apply SSorted_nil|split; [by apply Forall_nil|intros f g ?%not_elem_of_nil; done]]].
    destruct (H4 level l E) as (Ha & HFa & Hua & Hda).
    assert (forall f g : FilePtr, f ∈ level_files base level -> g ∈ added_files l -> number f <> number g) as Hx.
    { intros f g Hf Hg En. apply (Hdis level f Hf). rewrite En. by apply Hda. }
    split_and!.
    + by apply save_level_ordered.
    + apply Forall_forall. rewrite Forall_forall in HF, HFa. intros f [[Hf|Hf] _]%save_level_elem; auto.
    + intros f g [[Hf|Hf] _]%save_level_elem [[Hg|Hg] _]%save_level_elem En; [by apply Hu|by destruct (Hx f g)|by destruct (Hx g f)|by apply Hua].
Qed.
End Applying.

(** Files in order that do not overlap are a disjoint level. *)
Lemma ordered_disjoint files :
  ordered files -> Forall file_keys_ok files ->
  (forall f g : FilePtr, f ∈ files -> g ∈ files -> f <> g ->
    key_lt internal_key_comparator (largest f) (smallest g) \/ key_lt internal_key_comparator (largest g) (smallest f)) ->
  disjoint_level files.
Proof.
  intros Ho HF Hdis. split; [|done]. apply StronglySorted_from_lookup. intros i j x y Hij Hi Hj.
  pose proof (StronglySorted_lookup _ _ i j x y Ho Hij Hi Hj) as Hlt.
  assert (x <> y) as Hne by (intros ->; by apply file_lt_irrefl in Hlt).
  destruct (Hdis x y) as [|Hc]; [by eapply list_elem_of_lookup_2..|done|done|]. exfalso.
  rewrite Forall_lookup in HF. destruct (HF j y Hj) as (Hs & Hl & Hle%key_not_lt).
  assert (key_lt internal_key_comparator (smallest y) (smallest x)) as Hyx.
  { destruct (compare internal_key_comparator (smallest y) (largest y)) eqn:E.
    - apply cmp_eq in E; [|by apply parse_readable..]. by rewrite E.
    - by eapply key_lt_trans.
    - exfalso. apply Hle. unfold key_lt. by rewrite cmp_antisym, E. }
  unfold file_lt, by_smallest_key in Hlt. unfold key_lt in Hyx. rewrite cmp_antisym in Hyx.
  by destruct (compare internal_key_comparator (smallest x) (smallest y)).
Qed.

(** * Theorem *)

(** C23. Applying edits gives exactly the files they describe: a builder over a
    version with the files [M], given any sequence of decoded edits none of
    which adds a file number its level has had, saves a version whose levels
    hold exactly what removing and adding the edits' files in turn leaves of
    [M], each level in order of smallest key without a number twice - and where
    no two of a level's files overlap, the level is disjoint and sorted, as the
    lookups of the levels below 0 need it. *)
Theorem edits_apply_exactly base M cps addr edits :
  has_files base M -> in_order base -> Forall edit_ok edits -> NoDup (added_pairs edits) ->
  (forall level (f : FilePtr), f ∈ level_files base level -> (Z.of_nat level, number f) ∉ added_pairs edits) ->
  let v := save_to (fold_left apply edits (Builder_new base cps addr)) in
  has_files v (fold_left spec_edit edits M) /\ in_order v /\
  forall level, Forall file_keys_ok (level_files v level) ->
    (forall f g : FilePtr, f ∈ level_files v level -> g ∈ level_files v level -> f <> g ->
      key_lt internal_key_comparator (largest f) (smallest g) \/ key_lt internal_key_comparator (largest g) (smallest f)) ->
    disjoint_level (level_files v level).
Proof.
  intros Hb Ho HF Hnd Hfresh v.
  pose proof (applied_edits base edits _ _ [] HF (applied_new base M Hb cps addr) Hnd Hfresh) as Hap. cbn [app] in Hap.
  destruct (save_to_spec base M Hb Ho _ _ _ Hap Hfresh) as [H1 H2]. split; [exact H1|]. split; [exact H2|].
  intros level Hk Hdis. apply ordered_disjoint; [|done|done]. by destruct (H2 level).
Qed.

(** Two files in, one of them out again. *)
Definition sample_edits : list VersionEdit :=
  [add_file (add_file clear 1 7 100 (make_internal_key [x66] 3 kValue) (make_internal_key [x7a] 9 kValue))
     1 8 200 (make_internal_key [x61] 3 kValue) (make_internal_key [x64] 9 kValue);
   add_file (remove_file clear 1 7) 2 7 100 (make_internal_key [x66] 3 kValue) (make_internal_key [x7a] 9 kValue)].
Lemma new_has_files : has_files Version_new ∅.
Proof.
  split; [done|]. split; [done|]. intros level n meta. rewrite lookup_empty. split; [done|]. intros (f & Hf & _).
  unfold level_files in Hf. destruct (files_ Version_new !! level) as [fs|] eqn:E; [|by apply not_elem_of_nil in Hf].
  apply lookup_replicate in E as [-> _]. by apply not_elem_of_nil in Hf.
Qed.
Lemma new_no_file level f : f ∈ level_files Version_new level -> False.
Proof.
  unfold level_files. destruct (files_ Version_new !! level) as [fs|] eqn:E; [|by intros ?%not_elem_of_nil].
  apply lookup_replicate in E as [-> _]. by intros ?%not_elem_of_nil.
Qed.
Lemma new_in_order : in_order Version_new.
Proof.
  intros level. assert (level_files Version_new level = []) as ->; [|split; [apply SSorted_nil|split; [by apply Forall_nil|intros f g ?%not_elem_of_nil; done]]].
  pose proof (new_no_file level) as H. destruct (level_files Version_new level) as [|f l]; [done|]. destruct (H f). left.
Qed.

Lemma edits_apply_exactly_witness :
  let v := save_to (fold_left apply sample_edits (Builder_new Version_new (replicate 7 []) 1)) in
  has_files v (fold_left spec_edit sample_edits ∅) /\
  ((λ f : FilePtr, number f) <$> level_files v 1) = [8] /\ ((λ f : FilePtr, number f) <$> level_files v 2) = [7].
Proof.
  intros v. destruct (edits_apply_exactly Version_new ∅ (replicate 7 []) 1 sample_edits) as [H _].
  - exact new_has_files.
  - exact new_in_order.
  - assert (forall src, edit_ok (snd (decode_from src))) as Hd.
    { intros src. unfold decode_from. destruct (decode_loop (length src) clear src) as [[e f] rest] eqn:E.
      apply decode_loop_ok in E; [|apply clear_ok]. by destruct f, rest. }
    assert (sample_edits = (λ e, snd (decode_from (encode_to e))) <$> sample_edits) as -> by (vm_compute; reflexivity).
    apply Forall_fmap, Forall_forall. intros e _. apply Hd.
  - apply (bool_decide_unpack _). vm_compute. exact I.
  - intros level f Hf. by destruct (new_no_file level f Hf).
  - split; [exact H|]. split; vm_compute; reflexivity.
Defined.

End VersionBuilder.
