(* ===== verification/Compaction.v ===== *)
(** Choosing what to compact (the compaction parts of [VersionSet] and the
    class [Compaction] of src/src/version_set.hpp and
    src/src/version_set.cpp).

    The functions take what they read of the version set: the current version,
    the compaction pointers and [options_.max_file_size].  [None] is undefined
    behaviour - an index outside its array - or a loop that does not end.  The
    references a compaction holds on its version are in VersionSet.v. *)
From Stdlib Require Import SpecFloat.
From stdpp Require Import gmap.
From S2P Require Import Prelude Status Encoding DbFormat Comparator Iterator VersionEdit Version.
Import Status Encoding DbFormat Comparator Iterator VersionEdit Version.
Local Open Scope Z_scope.

Module Compaction.

Abbreviation icmp := internal_key_comparator.

(** ** VersionSet::finalize *)
Definition level_score (v : Version) (level : nat) : double :=
  if (level =? 0)%nat
  then ddiv (double_of_Z (Z.of_nat (length (level_files v 0)))) (double_of_Z kL0CompactionTrigger)
  else ddiv (double_of_Z (total_file_size (level_files v level))) (max_bytes_for_level level).
Definition finalize (v : Version) : Version :=
  let '(best_level, best_score) :=
    fold_left (λ '(best_level, best_score) level,
      let score := level_score v level in
      if dlt best_score score then (Z.of_nat level, score) else (best_level, best_score))
      (seq 0 (kNumLevels - 1)) (-1, double_of_Z (-1)) in
  mkVersion (files_ v) (file_to_compact_ v) (file_to_compact_level_ v) best_score best_level.

Definition by_size (v : Version) : bool := dle (double_of_Z 1) (compaction_score_ v).
Definition needs_compaction (v : Version) : bool := by_size v || bool_decide (file_to_compact_ v <> None).

(** ** The range of some files *)
Definition extend_range (range : option (bytes * bytes)) (file : FilePtr) : option (bytes * bytes) :=
  match range with
  | None => Some (smallest file, largest file)
  | Some (sm, la) =>
      Some (if bool_decide (compare icmp (smallest file) sm = Lt) then smallest file else sm,
            if bool_decide (compare icmp (largest file) la = Gt) then largest file else la)
  end.
(** [inputs] is not empty; [default] is what [clear] leaves when it is. *)
Definition get_range (inputs : list FilePtr) : bytes * bytes :=
  default ([], []) (fold_left extend_range inputs None).
Definition get_range2 (a b : list FilePtr) : bytes * bytes := get_range (a ++ b).

(** ** add_boundary_inputs *)
Definition largest_of (files : list FilePtr) : option bytes :=
  fold_left (λ found (file : FilePtr),
    match found with
    | None => Some (largest file)
    | Some la => Some (if bool_decide (compare icmp (largest file) la = Gt) then largest file else la)
    end) files None.
(** The first file of the level that continues the user key [la] ends in. *)
Definition boundary_file (level_files : list FilePtr) (la : bytes) : option FilePtr :=
  snd <$> list_find (λ file : FilePtr, compare icmp (smallest file) la = Gt /\
                       extract_user_key (smallest file) = extract_user_key la) level_files.
Fixpoint boundary_loop (fuel : nat) (level_files : list FilePtr) (la : bytes) (compaction_files : list FilePtr) :
    option (list FilePtr) :=
  match fuel with
  | O => None
  | S fuel' =>
      match boundary_file level_files la with
      | None => Some compaction_files
      | Some file => boundary_loop fuel' level_files (largest file) (compaction_files ++ [file])
      end
  end.
Definition add_boundary_inputs (level_files compaction_files : list FilePtr) : option (list FilePtr) :=
  match largest_of compaction_files with
  | None => Some compaction_files
  | Some la => boundary_loop (S (length level_files)) level_files la compaction_files
  end.

(** ** Compaction *)
Record Compaction := mkCompaction {
  level_ : nat;
  max_output_file_size_ : Z;
  input_version_ : Version;
  edit_ : VersionEdit;
  inputs_0 : list FilePtr;
  inputs_1 : list FilePtr;
  grandparents_ : list FilePtr;
  grandparent_index_ : nat;
  seen_key_ : bool;
  overlapped_bytes_ : Z;
  level_pointers_ : list nat
}.
Definition Compaction_new (max_file_size : Z) (level : nat) (v : Version) (inputs : list FilePtr) : Compaction :=
  mkCompaction level max_file_size v clear inputs [] [] 0 false 0 (replicate kNumLevels 0%nat).
Definition set_inputs (c : Compaction) (inputs0 inputs1 : list FilePtr) : Compaction :=
  mkCompaction (level_ c) (max_output_file_size_ c) (input_version_ c) (edit_ c) inputs0 inputs1 (grandparents_ c)
    (grandparent_index_ c) (seen_key_ c) (overlapped_bytes_ c) (level_pointers_ c).
Definition set_grandparents (c : Compaction) (files : list FilePtr) : Compaction :=
  mkCompaction (level_ c) (max_output_file_size_ c) (input_version_ c) (edit_ c) (inputs_0 c) (inputs_1 c) files
    (grandparent_index_ c) (seen_key_ c) (overlapped_bytes_ c) (level_pointers_ c).
Definition set_edit (c : Compaction) (edit : VersionEdit) : Compaction :=
  mkCompaction (level_ c) (max_output_file_size_ c) (input_version_ c) edit (inputs_0 c) (inputs_1 c) (grandparents_ c)
    (grandparent_index_ c) (seen_key_ c) (overlapped_bytes_ c) (level_pointers_ c).

(** The upper inputs that come for free: the inputs to use and the end of the
    upper range. *)
Definition expand_inputs (v : Version) (max_file_size : Z) (level : nat) (inputs0 inputs1 : list FilePtr)
    (la : bytes) : option (list FilePtr * list FilePtr * bytes) :=
  let '(all_start, all_limit) := get_range2 inputs0 inputs1 in
  if bool_decide (inputs1 = []) then Some (inputs0, inputs1, la)
  else
    expanded0 ← get_overlapping_inputs v level (Some all_start) (Some all_limit);
    expanded0 ← add_boundary_inputs (level_files v level) expanded0;
    if (length inputs0 <? length expanded0)%nat &&
       (total_file_size inputs1 + total_file_size expanded0 <? 50 * i64 max_file_size)
    then
      let '(new_start, new_limit) := get_range expanded0 in
      expanded1 ← get_overlapping_inputs v (level + 1) (Some new_start) (Some new_limit);
      expanded1 ← add_boundary_inputs (level_files v (level + 1)) expanded1;
      if (length expanded1 =? length inputs1)%nat
      then Some (expanded0, expanded1, new_limit)
      else Some (inputs0, inputs1, la)
    else Some (inputs0, inputs1, la).

(** The compaction, and the compaction pointers. *)
Definition setup_other_inputs (v : Version) (cps : list bytes) (max_file_size : Z) (c : Compaction) :
    option (Compaction * list bytes) :=
  let level := level_ c in
  if (kNumLevels <=? level + 1)%nat then None else
  inputs0 ← add_boundary_inputs (level_files v level) (inputs_0 c);
  let '(sm, la) := get_range inputs0 in
  inputs1 ← get_overlapping_inputs v (level + 1) (Some sm) (Some la);
  inputs1 ← add_boundary_inputs (level_files v (level + 1)) inputs1;
  '(inputs0, inputs1, la) ← expand_inputs v max_file_size level inputs0 inputs1 la;
  let '(all_start, all_limit) := get_range2 inputs0 inputs1 in
  let c := set_inputs c inputs0 inputs1 in
  c ← (if (level + 2 <? kNumLevels)%nat then
         grandparents ← get_overlapping_inputs v (level + 2) (Some all_start) (Some all_limit);
         Some (set_grandparents c grandparents)
       else Some c);
  Some (set_edit c (set_compact_pointer (edit_ c) (Z.of_nat level) la), <[level := la]> cps).

(** Where the sweep of a level goes on. *)
Definition next_to_compact (files : list FilePtr) (pointer : bytes) : option FilePtr :=
  match list_find (λ file : FilePtr, pointer = [] \/ compare icmp (largest file) pointer = Gt) files with
  | Some (_, file) => Some file
  | None => files !! 0%nat
  end.
Definition pick_compaction (v : Version) (cps : list bytes) (max_file_size : Z) :
    option (option Compaction * list bytes) :=
  chosen ←
    (if by_size v then
       let level := Z.to_nat (compaction_level_ v) in
       if (compaction_level_ v <? 0) || (kNumLevels <=? level + 1)%nat then None
       else
         pointer ← cps !! level;
         file ← next_to_compact (level_files v level) pointer;
         Some (Some (level, file))
     else match file_to_compact_ v with
          | Some file =>
              if (file_to_compact_level_ v <? 0) then None
              else Some (Some (Z.to_nat (file_to_compact_level_ v), file))
          | None => Some None
          end);
  match chosen with
  | None => Some (None, cps)
  | Some (level, file) =>
      inputs ←
        (if (level =? 0)%nat then
           let '(sm, la) := get_range [file] in
           get_overlapping_inputs v 0 (Some sm) (Some la)
         else Some [file]);
      '(c, cps) ← setup_other_inputs v cps max_file_size (Compaction_new max_file_size level v inputs);
      Some (Some c, cps)
  end.

(** One compaction's worth of a longer range. *)
Fixpoint cut_inputs (limit : Z) (total : Z) (inputs : list FilePtr) : list FilePtr :=
  match inputs with
  | [] => []
  | file :: inputs' =>
      let total := u64 (total + file_size file) in
      if limit <=? total then [file] else file :: cut_inputs limit total inputs'
  end.
Definition compact_range (v : Version) (cps : list bytes) (max_file_size : Z) (level : nat)
    (begin_ end_ : option bytes) : option (option Compaction * list bytes) :=
  inputs ← get_overlapping_inputs v level begin_ end_;
  if bool_decide (inputs = []) then Some (None, cps)
  else
    let inputs := if (0 <? level)%nat then cut_inputs max_file_size 0 inputs else inputs in
    '(c, cps) ← setup_other_inputs v cps max_file_size (Compaction_new max_file_size level v inputs);
    Some (Some c, cps).

Definition is_trivial_move (c : Compaction) : bool :=
  (length (inputs_0 c) =? 1)%nat && (length (inputs_1 c) =? 0)%nat &&
  (total_file_size (grandparents_ c) <=? 10 * i64 (max_output_file_size_ c)).

Definition add_input_deletions (c : Compaction) (edit : VersionEdit) : VersionEdit :=
  let remove level := fold_left (λ edit (file : FilePtr), remove_file edit (Z.of_nat level) (number file)) in
  remove (level_ c + 1)%nat (inputs_1 c) (remove (level_ c) (inputs_0 c) edit).

(** *** is_base_level_for_key

    The scan of one level from its pointer: whether the key is in a file, and
    where the pointer stops. *)
Fixpoint base_scan (user_key : bytes) (files : list FilePtr) (pointer : nat) : bool * nat :=
  match files with
  | [] => (false, pointer)
  | file :: files' =>
      if bool_decide (compare bytewise_comparator user_key (extract_user_key (largest file)) <> Gt)
      then (bool_decide (compare bytewise_comparator user_key (extract_user_key (smallest file)) <> Lt), pointer)
      else base_scan user_key files' (S pointer)
  end.
Fixpoint base_levels (v : Version) (user_key : bytes) (levels : list nat) (pointers : list nat) : option (bool * list nat) :=
  match levels with
  | [] => Some (true, pointers)
  | level :: levels' =>
      pointer ← pointers !! level;
      let '(found, pointer) := base_scan user_key (drop pointer (level_files v level)) pointer in
      let pointers := <[level := pointer]> pointers in
      if found : bool then Some (false, pointers) else base_levels v user_key levels' pointers
  end.
Definition is_base_level_for_key (c : Compaction) (user_key : bytes) : option (bool * Compaction) :=
  '(base, pointers) ← base_levels (input_version_ c) user_key
    (seq (level_ c + 2) (kNumLevels - (level_ c + 2))) (level_pointers_ c);
  Some (base, mkCompaction (level_ c) (max_output_file_size_ c) (input_version_ c) (edit_ c) (inputs_0 c) (inputs_1 c)
    (grandparents_ c) (grandparent_index_ c) (seen_key_ c) (overlapped_bytes_ c) pointers).

(** *** should_stop_before *)
Fixpoint stop_scan (internal_key : bytes) (seen : bool) (files : list FilePtr) (index : nat) (bytes_ : Z) : nat * Z :=
  match files with
  | [] => (index, bytes_)
  | file :: files' =>
      if bool_decide (compare icmp internal_key (largest file) = Gt)
      then stop_scan internal_key seen files' (S index) (if seen then bytes_ + i64 (file_size file) else bytes_)
      else (index, bytes_)
  end.
Definition should_stop_before (c : Compaction) (internal_key : bytes) : bool * Compaction :=
  let '(index, bytes_) := stop_scan internal_key (seen_key_ c) (drop (grandparent_index_ c) (grandparents_ c))
    (grandparent_index_ c) (overlapped_bytes_ c) in
  let stop := 10 * i64 (max_output_file_size_ c) <? bytes_ in
  (stop, mkCompaction (level_ c) (max_output_file_size_ c) (input_version_ c) (edit_ c) (inputs_0 c) (inputs_1 c)
    (grandparents_ c) index true (if stop then 0 else bytes_) (level_pointers_ c)).

(** * What a compaction takes from a level *)

(** Nothing the inputs reach past is left out. *)
Definition convex (files inputs : list FilePtr) : Prop :=
  forall f g m : FilePtr, f ∈ inputs -> m ∈ inputs -> g ∈ files ->
    key_lt icmp (largest f) (smallest g) -> key_lt icmp (largest g) (smallest m) -> g ∈ inputs.
(** The inputs end between two user keys. *)
Definition clean_cut (files inputs : list FilePtr) : Prop :=
  forall f g : FilePtr, f ∈ inputs -> g ∈ files -> g ∉ inputs ->
    key_lt icmp (largest g) (smallest f) \/ sv_compare (uhi f) (ulo g) = Lt.

Definition is_largest (inputs : list FilePtr) (la : bytes) : Prop :=
  (exists m : FilePtr, m ∈ inputs /\ largest m = la) /\ forall f : FilePtr, f ∈ inputs -> key_le icmp (largest f) la.
Definition is_smallest (inputs : list FilePtr) (sm : bytes) : Prop :=
  (exists m : FilePtr, m ∈ inputs /\ smallest m = sm) /\ forall f : FilePtr, f ∈ inputs -> key_le icmp sm (smallest f).

(** The order on internal keys, on any bytes. *)
Lemma icmp_lt_le_trans a b d : key_lt icmp a b -> key_le icmp b d -> key_lt icmp a d.
Proof.
  unfold key_lt, key_le. cbn [compare internal_key_comparator kInternal]. unfold compare_internal_keys.
  destruct (sv_compare (extract_user_key a) (extract_user_key b)) eqn:E1; [| |done];
    destruct (sv_compare (extract_user_key b) (extract_user_key d)) eqn:E2; try done.
  - apply sv_compare_eq in E1, E2. rewrite E1, E2, sv_compare_refl. cbv zeta.
    repeat match goal with |- context [?a <? ?b] => destruct (Z.ltb_spec a b) end; lia || done.
  - apply sv_compare_eq in E1. by rewrite E1, E2.
  - apply sv_compare_eq in E2. by rewrite <- E2, E1.
  - by rewrite (sv_compare_lt_trans _ _ _ E1 E2).
Qed.
Lemma icmp_le_lt_trans a b d : key_le icmp a b -> key_lt icmp b d -> key_lt icmp a d.
Proof.
  intros Hab Hbd. destruct (decide (compare icmp a d = Lt)) as [|Hn]; [done|].
  apply (key_not_lt (c := icmp) a d) in Hn. pose proof (icmp_lt_le_trans b d a Hbd Hn) as H. by apply (key_not_lt (c := icmp)) in Hab.
Qed.
Lemma icmp_le_trans a b d : key_le icmp a b -> key_le icmp b d -> key_le icmp a d.
Proof.
  intros Hab Hbd. apply key_not_lt. intros H. pose proof (icmp_lt_le_trans _ _ _ H Hab) as H'. by apply (key_not_lt (c := icmp)) in Hbd.
Qed.
Lemma icmp_lt_antisym a b : key_lt icmp a b -> ~ key_lt icmp b a.
Proof. intros H1 H2. by apply (key_lt_irrefl (c := icmp) a), (key_lt_trans _ b). Qed.

Lemma is_largest_one (f : FilePtr) : is_largest [f] (largest f).
Proof.
  split; [exists f; split; [by left|done]|]. intros g ->%list_elem_of_singleton. apply key_le_refl.
Qed.
Lemma is_smallest_one (f : FilePtr) : is_smallest [f] (smallest f).
Proof.
  split; [exists f; split; [by left|done]|]. intros g ->%list_elem_of_singleton. apply key_le_refl.
Qed.
Lemma is_largest_snoc inputs la (f : FilePtr) :
  is_largest inputs la ->
  is_largest (inputs ++ [f]) (if bool_decide (compare icmp (largest f) la = Gt) then largest f else la).
Proof.
  intros ((m & Hm & <-) & Hmax). case_bool_decide as Ec.
  - split; [exists f; split; [set_solver|done]|]. intros g [Hg|Hg%list_elem_of_singleton]%elem_of_app.
    + apply (icmp_le_trans _ (largest m)); [by apply Hmax|]. unfold key_le. by rewrite (cmp_antisym (c := icmp)), Ec.
    + subst. apply key_le_refl.
  - split; [exists m; split; [set_solver|done]|]. intros g [Hg|Hg%list_elem_of_singleton]%elem_of_app.
    + by apply Hmax.
    + by subst.
Qed.
Lemma is_smallest_snoc inputs sm (f : FilePtr) :
  is_smallest inputs sm ->
  is_smallest (inputs ++ [f]) (if bool_decide (compare icmp (smallest f) sm = Lt) then smallest f else sm).
Proof.
  intros ((m & Hm & <-) & Hmin). case_bool_decide as Ec.
  - split; [exists f; split; [set_solver|done]|]. intros g [Hg|Hg%list_elem_of_singleton]%elem_of_app.
    + apply (icmp_le_trans _ (smallest m)); [unfold key_le; by rewrite Ec|by apply Hmin].
    + subst. apply key_le_refl.
  - split; [exists m; split; [set_solver|done]|]. intros g [Hg|Hg%list_elem_of_singleton]%elem_of_app.
    + by apply Hmin.
    + subst. by apply (key_not_lt (c := icmp)).
Qed.

Lemma largest_of_spec inputs :
  match largest_of inputs with Some la => is_largest inputs la | None => inputs = [] end.
Proof.
  induction inputs as [|f inputs IH] using rev_ind; [done|]. unfold largest_of in *. rewrite fold_left_app. cbn.
  destruct (fold_left _ inputs None) as [la|]; [by apply is_largest_snoc|]. subst. apply is_largest_one.
Qed.
Lemma get_range_spec inputs sm la :
  get_range inputs = (sm, la) -> inputs <> [] -> is_smallest inputs sm /\ is_largest inputs la.
Proof.
  unfold get_range. intros E Hne.
  enough (match fold_left extend_range inputs None with
          | Some (sm, la) => is_smallest inputs sm /\ is_largest inputs la
          | None => inputs = []
          end) as H.
  { revert E H. destruct (fold_left extend_range inputs None) as [[sm' la']|]; intros E H; [|done]. cbn in E. by injection E as -> ->. }
  clear E Hne. induction inputs as [|f inputs IH] using rev_ind; [done|]. rewrite fold_left_app. cbn.
  destruct (fold_left _ inputs None) as [[sm' la']|]; cbn [extend_range].
  - destruct IH as [Hs Hl]. split; [by apply is_smallest_snoc|by apply is_largest_snoc].
  - subst. split; [apply is_smallest_one|apply is_largest_one].
Qed.

(** ** The boundary files of a level of disjoint files *)
Lemma boundary_file_spec files la :
  match boundary_file files la with
  | Some x => exists i, files !! i = Some x /\ key_lt icmp la (smallest x) /\ ulo x = extract_user_key la /\
      forall j (g : FilePtr), (j < i)%nat -> files !! j = Some g -> key_lt icmp la (smallest g) -> ulo g <> extract_user_key la
  | None => forall g : FilePtr, g ∈ files -> key_lt icmp la (smallest g) -> ulo g <> extract_user_key la
  end.
Proof.
  assert (forall k, compare icmp k la = Gt <-> key_lt icmp la k) as Hgt.
  { intros k. unfold key_lt. rewrite (cmp_antisym (c := icmp) k la). by destruct (compare icmp k la). }
  unfold boundary_file. destruct (list_find _ files) as [[i x]|] eqn:E; cbn [fmap option_fmap option_map snd].
  - apply list_find_Some in E as (Hi & [Hx Hu] & Hfirst). exists i. split_and!; [done|by apply Hgt|done|].
    intros j g Hj Hg Hlt Hug. apply (Hfirst j g Hg Hj). split; [by apply Hgt|done].
  - apply list_find_None in E. rewrite Forall_forall in E. intros g Hg Hlt Hug. apply (E g Hg). split; [by apply Hgt|done].
Qed.

Lemma disjoint_order files (f g : FilePtr) :
  disjoint_level files -> f ∈ files -> g ∈ files -> f <> g ->
  key_lt icmp (largest f) (smallest g) \/ key_lt icmp (largest g) (smallest f).
Proof.
  intros D [i Hi]%list_elem_of_lookup [j Hj]%list_elem_of_lookup Hne.
  destruct (Nat.lt_trichotomy i j) as [H|[->|H]]; [left; by eapply disjoint_lt|congruence|right; by eapply disjoint_lt].
Qed.
Lemma keys_ok_le files (f : FilePtr) : Forall file_keys_ok files -> f ∈ files -> key_le icmp (smallest f) (largest f).
Proof. intros D H. rewrite Forall_forall in D. by destruct (D f H) as (_ & _ & ?). Qed.

(** A candidate that was not taken comes after the one that was. *)
Lemma boundary_first files la i (x g : FilePtr) :
  disjoint_level files -> files !! i = Some x -> ulo x = extract_user_key la ->
  (forall j (g : FilePtr), (j < i)%nat -> files !! j = Some g -> key_lt icmp la (smallest g) -> ulo g <> extract_user_key la) ->
  g ∈ files -> key_lt icmp la (smallest g) -> ~ key_lt icmp (largest g) (smallest x).
Proof.
  intros D Hi Hu Hfirst Hg Hlt Hgx. pose proof Hg as [j Hj]%list_elem_of_lookup.
  pose proof (keys_ok_le files g (proj2 D) Hg) as Hgg. pose proof (icmp_le_lt_trans _ _ _ Hgg Hgx) as Hsx.
  destruct (Nat.lt_trichotomy i j) as [H|[->|H]].
  - pose proof (disjoint_lt files i j x g D H Hi Hj) as Hxg. apply (icmp_lt_antisym _ _ Hsx).
    eapply icmp_le_lt_trans; [|exact Hxg]. eapply (keys_ok_le files x (proj2 D)). by eapply list_elem_of_lookup_2.
  - rewrite Hi in Hj. injection Hj as ->. by apply (key_lt_irrefl (c := icmp) (smallest g)).
  - apply (Hfirst j g H Hj Hlt). apply sv_le_convex.
    + change (sv_compare (ulo g) (extract_user_key la) <> Gt). rewrite <- Hu. by apply internal_lt_user.
    + by apply internal_lt_user.
Qed.

(** What the loop of boundary files keeps. *)
Definition boundary_inv (files inputs : list FilePtr) (la : bytes) : Prop :=
  inputs ⊆ files /\ convex files inputs /\ is_largest inputs la.
(** The files the loop may still take. *)
Definition beyond (files : list FilePtr) (la : bytes) : nat :=
  length (List.filter (λ f : FilePtr, bool_decide (compare icmp la (smallest f) = Lt)) files).

Lemma boundary_step files inputs la i (x : FilePtr) :
  disjoint_level files -> boundary_inv files inputs la -> files !! i = Some x ->
  key_lt icmp la (smallest x) -> ulo x = extract_user_key la ->
  (forall j (g : FilePtr), (j < i)%nat -> files !! j = Some g -> key_lt icmp la (smallest g) -> ulo g <> extract_user_key la) ->
  boundary_inv files (inputs ++ [x]) (largest x) /\ (beyond files (largest x) < beyond files la)%nat.
Proof.
  intros D (Hsub & Hc & Hla) Hi Hlt Hu Hfirst.
  assert (x ∈ files) as Hx by (by eapply list_elem_of_lookup_2). pose proof (keys_ok_le files x (proj2 D) Hx) as Hxx.
  pose proof (icmp_lt_le_trans _ _ _ Hlt Hxx) as Hlx. split; [split_and!|].
  - set_solver +Hsub Hx.
  - intros f g m Hf Hm Hg Hfg Hgm. destruct (decide (g ∈ inputs ++ [x])) as [|Hn]; [done|exfalso].
    assert (g <> x /\ g ∉ inputs) as [Hgx Hgi] by set_solver +Hn.
    assert (key_lt icmp (largest g) (smallest x)) as Hg_x.
    { apply elem_of_app in Hm as [Hm| ->%list_elem_of_singleton]; [|done].
      destruct (disjoint_order files g x D Hg Hx Hgx) as [|Hxg]; [done|]. exfalso.
      destruct Hla as [_ Hmax]. apply (icmp_lt_antisym _ _ Hxg). eapply icmp_lt_le_trans.
      - eapply icmp_le_lt_trans; [by apply (keys_ok_le files g (proj2 D))|exact Hgm].
      - apply (icmp_le_trans _ (largest m)); [apply (keys_ok_le files m (proj2 D)); set_solver +Hsub Hm|].
        apply (icmp_le_trans _ la); [by apply Hmax|by apply key_lt_le]. }
    destruct (decide (compare icmp la (smallest g) = Lt)) as [Hlg|Hlg].
    { by apply (boundary_first files la i x g D Hi Hu Hfirst Hg Hlg). }
    apply (key_not_lt (c := icmp)) in Hlg. destruct Hla as ((m' & Hm' & <-) & Hmax).
    assert (f ∈ inputs) as Hfi.
    { apply elem_of_app in Hf as [Hf| ->%list_elem_of_singleton]; [done|]. exfalso.
      apply (icmp_lt_antisym _ _ Hfg). eapply icmp_le_lt_trans; [exact Hlg|exact Hlx]. }
    apply Hgi, (Hc f g m'); [done|done|done|done|].
    destruct (disjoint_order files g m' D Hg (Hsub _ Hm')) as [|Hmg]; [by intros ->|done|].
    by apply (key_not_lt (c := icmp)) in Hlg.
  - split; [exists x; split; [set_solver|done]|]. intros f [Hf| ->%list_elem_of_singleton]%elem_of_app; [|apply key_le_refl].
    apply (icmp_le_trans _ la); [by apply Hla|by apply key_lt_le].
  - apply (length_filter_lt _ _ _ x); [|done|by apply bool_decide_pack|].
    + intros y Hy%bool_decide_unpack. apply bool_decide_pack. by apply (key_lt_trans (c := icmp) _ (largest x)).
    + apply bool_decide_eq_false. by apply (key_not_lt (c := icmp)).
Qed.

Lemma boundary_loop_spec fuel files inputs la :
  disjoint_level files -> boundary_inv files inputs la -> (beyond files la < fuel)%nat ->
  exists inputs' la', boundary_loop fuel files la inputs = Some (inputs ++ inputs') /\
    boundary_inv files (inputs ++ inputs') la' /\ clean_cut files (inputs ++ inputs').
Proof.
  intros D. revert inputs la. induction fuel as [|fuel IH]; intros inputs la Hinv Hf; [lia|]. cbn [boundary_loop].
  pose proof (boundary_file_spec files la) as Hb. destruct (boundary_file files la) as [x|].
  - destruct Hb as (i & Hi & Hlt & Hu & Hfirst). destruct (boundary_step files inputs la i x) as [Hinv' Hdec]; [done..|].
    destruct (IH _ _ Hinv') as (inputs' & la' & E & H1 & H2); [lia|]. exists (x :: inputs'), la'.
    rewrite <- app_assoc in E, H1, H2. done.
  - exists [], la. rewrite app_nil_r. split_and!; [done|done|]. intros f g Hf' Hg Hng.
    destruct Hinv as (Hsub & Hc & (m & Hm & <-) & Hmax).
    destruct (disjoint_order files f g D (Hsub _ Hf') Hg) as [Hfg|Hgf]; [by intros ->|right|by left].
    destruct (disjoint_order files g m D Hg (Hsub _ Hm)) as [Hgm|Hmg]; [by intros ->|exact (False_ind _ (Hng (Hc f g m Hf' Hm Hg Hfg Hgm)))|].
    pose proof (Hb g Hg Hmg) as Hne. pose proof (internal_lt_user _ _ Hmg) as Hle. fold (uhi m) (ulo g) in Hle.
    pose proof (internal_le_user _ _ (Hmax f Hf')) as Hfm. fold (uhi f) (uhi m) in Hfm.
    eapply sv_le_lt_trans; [exact Hfm|]. destruct (sv_compare (uhi m) (ulo g)) eqn:E; [|done|done].
    apply sv_compare_eq in E. by rewrite <- E in Hne.
Qed.

Lemma sv_lt_le_trans a b d : sv_compare a b = Lt -> sv_compare b d <> Gt -> sv_compare a d = Lt.
Proof.
  intros Hab Hbd. destruct (sv_compare b d) eqn:E; [|by eapply sv_compare_lt_trans|done].
  apply sv_compare_eq in E. by subst.
Qed.
Lemma add_boundary_spec files inputs :
  disjoint_level files -> inputs ⊆ files -> convex files inputs ->
  exists inputs', add_boundary_inputs files inputs = Some (inputs ++ inputs') /\
    inputs ++ inputs' ⊆ files /\ convex files (inputs ++ inputs') /\ clean_cut files (inputs ++ inputs') /\
    (inputs = [] -> inputs' = []).
Proof.
  intros D Hsub Hc. unfold add_boundary_inputs. pose proof (largest_of_spec inputs) as Hl.
  destruct (largest_of inputs) as [la|].
  - destruct (boundary_loop_spec (S (length files)) files inputs la) as (inputs' & la' & E & (H1 & H2 & _) & H3); [done|done| |].
    { unfold beyond. pose proof (length_filter_le (λ f : FilePtr, bool_decide (compare icmp la (smallest f) = Lt)) files). lia. }
    exists inputs'. split_and!; [done..|]. intros ->. destruct Hl as ((m & Hm & _) & _). by apply elem_of_nil in Hm.
  - subst. exists []. split_and!; try done. intros f g Hf. by apply elem_of_nil in Hf.
Qed.

Lemma elem_of_filter (P : FilePtr -> bool) (files : list FilePtr) (f : FilePtr) :
  f ∈ List.filter P files <-> f ∈ files /\ P f = true.
Proof. by rewrite !list_elem_of_In, filter_In. Qed.
Lemma in_range_true b e (f : FilePtr) :
  in_range b e f = true <->
  (forall k, b = Some k -> sv_compare (uhi f) k <> Lt) /\ (forall k, e = Some k -> sv_compare k (ulo f) <> Lt).
Proof.
  unfold in_range, below_range, above_range. rewrite andb_true_iff, !negb_true_iff. f_equiv.
  - destruct b as [k|]; [|done]. rewrite bool_decide_eq_false. split; [by intros H ? [= <-]|by intros H; apply H].
  - destruct e as [k|]; [|done]. rewrite bool_decide_eq_false. unfold bytewise_compare. rewrite sv_compare_gt.
    split; [by intros H ? [= <-]|by intros H; apply H].
Qed.
Lemma not_in_range b e (f : FilePtr) :
  in_range b e f = false ->
  (exists k, b = Some k /\ sv_compare (uhi f) k = Lt) \/ (exists k, e = Some k /\ sv_compare k (ulo f) = Lt).
Proof.
  unfold in_range, below_range, above_range. rewrite andb_false_iff, !negb_false_iff. intros [H|H]; [left|right].
  - destruct b as [k|]; [|done]. apply bool_decide_eq_true in H. by exists k.
  - destruct e as [k|]; [|done]. apply bool_decide_eq_true in H. unfold bytewise_compare in H. rewrite sv_compare_gt in H. by exists k.
Qed.

Lemma file_users files (f : FilePtr) : Forall file_keys_ok files -> f ∈ files -> sv_compare (ulo f) (uhi f) <> Gt.
Proof. intros K Hf. apply internal_le_user. by apply (keys_ok_le files). Qed.

Lemma filter_convex files b e : disjoint_level files -> convex files (List.filter (in_range b e) files).
Proof.
  intros D f g m [Hf Rf]%elem_of_filter [Hm Rm]%elem_of_filter Hg Hfg Hgm. apply elem_of_filter. split; [done|].
  apply in_range_true in Rf as [Rf _], Rm as [_ Rm]. apply in_range_true. pose proof (file_users files g (proj2 D) Hg) as Hu.
  split; intros k Ek Hlt.
  - apply (Rf k Ek). eapply sv_le_lt_trans; [|exact Hlt]. eapply sv_le_trans; [by apply (internal_lt_user _ _ Hfg)|exact Hu].
  - apply (Rm k Ek). eapply sv_lt_le_trans; [exact Hlt|]. eapply sv_le_trans; [exact Hu|by apply (internal_lt_user _ _ Hgm)].
Qed.
Lemma single_convex files (file : FilePtr) : disjoint_level files -> file ∈ files -> convex files [file].
Proof.
  intros D Hin f g m ->%list_elem_of_singleton ->%list_elem_of_singleton Hg Hfg Hgm. exfalso.
  apply (icmp_lt_antisym _ _ Hfg). eapply icmp_le_lt_trans; [by apply (keys_ok_le files g (proj2 D))|].
  eapply icmp_lt_le_trans; [exact Hgm|]. by apply (keys_ok_le files file (proj2 D)).
Qed.

(** A prefix of convex inputs in the order of the level is convex. *)
Lemma filter_sorted {A} (R : A -> A -> Prop) (P : A -> bool) l : StronglySorted R l -> StronglySorted R (List.filter P l).
Proof.
  induction 1 as [|x l _ IH HF]; [constructor|]. cbn [List.filter]. destruct (P x); [|done]. constructor; [done|].
  rewrite Forall_forall in *. intros y [Hy _]%list_elem_of_In%filter_In. by apply HF, list_elem_of_In.
Qed.
Lemma filter_disjoint files P : disjoint_level files -> disjoint_level (List.filter P files).
Proof.
  intros [H1 H2]. split; [by apply filter_sorted|]. rewrite Forall_forall in *. intros f [Hf _]%elem_of_filter. by apply H2.
Qed.
Lemma prefix_convex files xs ys :
  disjoint_level (xs ++ ys) -> convex files (xs ++ ys) -> convex files xs.
Proof.
  intros D Hc f g m Hf Hm Hg Hfg Hgm.
  assert (g ∈ xs ++ ys) as Hgx by (apply (Hc f g m); [set_solver +Hf|set_solver +Hm|done..]).
  apply elem_of_app in Hgx as [|Hgy]; [done|exfalso].
  pose proof (keys_ok_le _ g (proj2 D) ltac:(set_solver +Hgy)) as Hgg.
  pose proof (keys_ok_le _ m (proj2 D) ltac:(set_solver +Hm)) as Hmm.
  destruct D as [D _]. apply list_elem_of_lookup in Hm as [i Hi], Hgy as [j Hj].
  assert (key_lt icmp (largest m) (smallest g)) as Hmg.
  { eapply (StronglySorted_lookup _ _ i (length xs + j) m g D).
    - apply lookup_lt_Some in Hi. lia.
    - by apply lookup_app_l_Some.
    - rewrite lookup_app_r by lia. by replace (length xs + j - length xs)%nat with j by lia. }
  apply (icmp_lt_antisym _ _ Hmg). eapply icmp_le_lt_trans; [exact Hgg|]. by eapply icmp_lt_le_trans.
Qed.
Lemma cut_inputs_prefix limit total inputs : exists rest, inputs = cut_inputs limit total inputs ++ rest.
Proof.
  revert total. induction inputs as [|f inputs IH]; intros total; [by exists []|]. cbn [cut_inputs].
  destruct (limit <=? u64 (total + file_size f)); [by exists inputs|].
  destruct (IH (u64 (total + file_size f))) as [rest E]. exists rest. cbn. by rewrite <- E.
Qed.
Lemma cut_inputs_nonempty limit total inputs : inputs <> [] -> cut_inputs limit total inputs <> [].
Proof. destruct inputs; [done|]. cbn [cut_inputs]. by case_match. Qed.

(** ** The files of the input level *)
Definition version_ok (v : Version) : Prop := disjoint_levels v /\ Forall file_keys_ok (level_files v 0).

Definition upper_inputs (v : Version) (level : nat) (inputs : list FilePtr) : Prop :=
  inputs ⊆ level_files v level /\ clean_cut (level_files v level) inputs /\
  (level = 0%nat -> forall f g : FilePtr, f ∈ inputs -> g ∈ level_files v level -> g ∉ inputs ->
     sv_compare (uhi g) (ulo f) = Lt \/ sv_compare (uhi f) (ulo g) = Lt).

Lemma user_lt_internal a b :
  sv_compare (extract_user_key a) (extract_user_key b) = Lt -> key_lt icmp a b.
Proof. unfold key_lt. cbn [compare internal_key_comparator kInternal]. unfold compare_internal_keys. by intros ->. Qed.

Lemma level0_upper v b e xs :
  version_ok v -> get_overlapping_inputs v 0 b e = Some xs ->
  add_boundary_inputs (level_files v 0) xs = Some xs /\ upper_inputs v 0 xs.
Proof.
  intros [_ K] E. destruct (overlapping_inputs_spec v 0 b e) as (b' & e' & E' & _ & _ & W).
  rewrite E in E'. injection E' as ->. cbn [Nat.eqb] in W. rewrite Forall_forall in W.
  set (files := level_files v 0) in *. set (xs := List.filter (in_range b' e') files) in *.
  assert (forall f : FilePtr, f ∈ xs -> (forall k, b' = Some k -> sv_compare k (ulo f) <> Gt) /\
    (forall k, e' = Some k -> sv_compare (uhi f) k <> Gt)) as Hw.
  { intros f Hf. destruct (W f Hf) as [Wb We]. split; intros k ->; cbn in Wb, We.
    - apply bool_decide_eq_false in Wb. unfold bytewise_compare in Wb. by rewrite sv_compare_gt.
    - by apply bool_decide_eq_false in We. }
  assert (forall f g : FilePtr, f ∈ xs -> g ∈ files -> g ∉ xs ->
     sv_compare (uhi g) (ulo f) = Lt \/ sv_compare (uhi f) (ulo g) = Lt) as Hd.
  { intros f g Hf Hg Hng. destruct (Hw f Hf) as [Hb He].
    destruct (in_range b' e' g) eqn:Er; [exfalso; apply Hng; by apply elem_of_filter|].
    apply not_in_range in Er as [(k & -> & Hk)|(k & -> & Hk)].
    - left. by eapply sv_lt_le_trans; [exact Hk|apply Hb].
    - right. by eapply sv_le_lt_trans; [apply He|exact Hk]. }
  assert (xs ⊆ files) as Hsub by (intros f [Hf _]%elem_of_filter; done).
  split.
  - unfold add_boundary_inputs. pose proof (largest_of_spec xs) as Hl. destruct (largest_of xs) as [la|]; [|done].
    cbn [boundary_loop]. pose proof (boundary_file_spec files la) as Hb. destruct (boundary_file files la) as [g|]; [exfalso|done].
    destruct Hb as (i & Hi & Hlt & Hu & _). destruct Hl as ((m & Hm & <-) & Hmax).
    assert (g ∈ files) as Hg by (by eapply list_elem_of_lookup_2).
    pose proof (file_users files g K Hg) as Hgu. pose proof (file_users files m K (Hsub _ Hm)) as Hmu.
    fold (uhi m) in Hu. destruct (decide (g ∈ xs)) as [Hgx|Hgx].
    + apply (key_not_lt (c := icmp) (largest m) (largest g)); [by apply Hmax|].
      eapply icmp_lt_le_trans; [exact Hlt|by apply (keys_ok_le files)].
    + rewrite Hu in Hgu. destruct (Hd m g Hm Hg Hgx) as [H|H].
      * pose proof (sv_le_lt_trans _ _ _ Hgu H) as H'. apply Hmu. by rewrite sv_compare_gt.
      * by rewrite Hu, sv_compare_refl in H.
  - split_and!; [done| |by intros _]. intros f g Hf Hg Hng. destruct (Hd f g Hf Hg Hng) as [H|H]; [left|by right].
    by apply user_lt_internal.
Qed.

Lemma convex_upper v level xs :
  version_ok v -> (0 < level)%nat -> xs ⊆ level_files v level -> convex (level_files v level) xs -> xs <> [] ->
  exists ys, add_boundary_inputs (level_files v level) xs = Some ys /\ upper_inputs v level ys /\ ys <> [].
Proof.
  intros [D _] Hl Hsub Hc Hne. destruct (add_boundary_spec (level_files v level) xs) as (ys & E & H1 & _ & H3 & _); [by apply D|done..|].
  exists (xs ++ ys). split; [done|]. split; [split; [done|]; split; [done|lia]|by destruct xs].
Qed.
Lemma overlapping_upper v level b e xs :
  version_ok v -> get_overlapping_inputs v level b e = Some xs ->
  exists ys, add_boundary_inputs (level_files v level) xs = Some ys /\ upper_inputs v level ys /\ (xs <> [] -> ys <> []).
Proof.
  intros V E. destruct level as [|level].
  { destruct (level0_upper v b e xs V E) as [Ea Hu]. by exists xs. }
  destruct (overlapping_inputs_spec v (S level) b e) as (b' & e' & E' & _). rewrite E in E'. injection E' as ->.
  destruct V as [D K]. destruct (add_boundary_spec (level_files v (S level))
    (List.filter (in_range b' e') (level_files v (S level)))) as (ys & Ea & H1 & _ & H3 & H4).
  - apply D. lia.
  - intros f [Hf _]%elem_of_filter. done.
  - apply filter_convex, D. lia.
  - eexists. split; [exact Ea|]. split; [by split; [|split]|]. by destruct (List.filter _ _).
Qed.

(** ** The files of the next level *)
Definition lower_inputs (v : Version) (level : nat) (inputs0 inputs1 : list FilePtr) : Prop :=
  inputs1 ⊆ level_files v (level + 1) /\
  forall h : FilePtr, h ∈ level_files v (level + 1) -> h ∉ inputs1 ->
    ((forall f : FilePtr, f ∈ inputs0 -> sv_compare (uhi h) (ulo f) = Lt) /\
     (forall f : FilePtr, f ∈ inputs1 -> key_lt icmp (largest h) (smallest f))) \/
    (forall f : FilePtr, f ∈ inputs0 ++ inputs1 -> sv_compare (uhi f) (ulo h) = Lt).

Lemma same_side files xs (h m : FilePtr) :
  disjoint_level files -> xs ⊆ files -> convex files xs -> clean_cut files xs ->
  h ∈ files -> h ∉ xs -> m ∈ xs ->
  (sv_compare (uhi h) (uhi m) = Lt -> forall f : FilePtr, f ∈ xs -> key_lt icmp (largest h) (smallest f)) /\
  (sv_compare (ulo m) (ulo h) = Lt -> forall f : FilePtr, f ∈ xs -> sv_compare (uhi f) (ulo h) = Lt).
Proof.
  intros D Hsub Hc Hcut Hh Hn Hm. pose proof (file_users files h (proj2 D) Hh) as Hu.
  assert (sv_compare (uhi h) (ulo h) <> Lt) as Hself by (by rewrite <- sv_compare_gt). split; intros Hlt f Hf.
  - destruct (Hcut f h Hf Hh Hn) as [|Hfh]; [done|exfalso]. destruct (Hcut m h Hm Hh Hn) as [Hhm|Hmh].
    + apply Hn, (Hc f h m); [done..|by apply user_lt_internal|done].
    + apply Hself. by eapply sv_compare_lt_trans.
  - destruct (Hcut f h Hf Hh Hn) as [Hhf|]; [exfalso|done]. destruct (Hcut m h Hm Hh Hn) as [Hhm|Hmh].
    + apply Hself. eapply sv_le_lt_trans; [exact (internal_lt_user _ _ Hhm)|done].
    + apply Hn, (Hc m h f); [done..|by apply user_lt_internal|done].
Qed.

Lemma range_lower v level inputs0 sm la :
  version_ok v -> inputs0 <> [] -> get_range inputs0 = (sm, la) ->
  exists xs ys, get_overlapping_inputs v (level + 1) (Some sm) (Some la) = Some xs /\
    add_boundary_inputs (level_files v (level + 1)) xs = Some ys /\ lower_inputs v level inputs0 ys.
Proof.
  intros [D _] Hne Er. destruct (get_range_spec _ _ _ Er Hne) as [[_ Hmin] [_ Hmax]].
  set (files := level_files v (level + 1)). assert (disjoint_level files) as Df by (apply D; lia).
  destruct (overlapping_inputs_spec v (level + 1) (Some sm) (Some la)) as (b & e & E & _ & _ & Hbe).
  rewrite (proj2 (Nat.eqb_neq _ _)) in Hbe by lia. destruct Hbe as [-> ->]. cbn [fmap option_fmap option_map] in E.
  set (P := in_range (Some (extract_user_key sm)) (Some (extract_user_key la))) in E.
  destruct (add_boundary_spec files (List.filter P files)) as (zs & Ea & H1 & H2 & H3 & H4); [done|intros f [Hf _]%elem_of_filter; done|by apply filter_convex|].
  exists (List.filter P files), (List.filter P files ++ zs). split; [exact E|]. split; [exact Ea|]. split; [exact H1|].
  intros h Hh Hn. assert (P h = false) as HP.
  { destruct (P h) eqn:EP; [|done]. exfalso. apply Hn, elem_of_app. left. by apply elem_of_filter. }
  destruct (decide (List.filter P files = [])) as [En|Hm].
  - rewrite (H4 En), En. destruct (not_in_range _ _ _ HP) as [(k & [= <-] & Hk)|(k & [= <-] & Hk)].
    + left. split; intros f Hf; [|by apply elem_of_nil in Hf].
      eapply sv_lt_le_trans; [exact Hk|]. by apply internal_le_user, Hmin.
    + right. intros f Hf. rewrite app_nil_r in Hf. eapply sv_le_lt_trans; [|exact Hk]. by apply internal_le_user, Hmax.
  - destruct (List.filter P files) as [|m ms] eqn:Ef; [done|].
    assert (m ∈ List.filter P files) as [_ [Rb Re]%in_range_true]%elem_of_filter by (rewrite Ef; left).
    specialize (Rb _ eq_refl). specialize (Re _ eq_refl).
    destruct (same_side files ((m :: ms) ++ zs) h m Df H1 H2 H3 Hh Hn) as [HA HB]; [left|].
    destruct (not_in_range _ _ _ HP) as [(k & [= <-] & Hk)|(k & [= <-] & Hk)].
    + left. split; [intros f Hf; eapply sv_lt_le_trans; [exact Hk|]; by apply internal_le_user, Hmin|].
      apply HA. eapply sv_lt_le_trans; [exact Hk|]. by rewrite sv_compare_gt.
    + right. intros f [Hf|Hf]%elem_of_app.
      * eapply sv_le_lt_trans; [|exact Hk]. by apply internal_le_user, Hmax.
      * apply HB; [|done]. eapply sv_le_lt_trans; [|exact Hk]. by rewrite sv_compare_gt.
Qed.

(** ** A whole compaction *)
Record safe_inputs (v : Version) (level : nat) (inputs0 inputs1 : list FilePtr) : Prop := {
  safe_some : inputs0 <> [];
  safe_upper : upper_inputs v level inputs0;
  safe_lower : lower_inputs v level inputs0 inputs1
}.
Record safe_compaction (v : Version) (c : Compaction) : Prop := {
  safe_level : (level_ c + 1 < kNumLevels)%nat;
  safe_version : input_version_ c = v;
  safe_chosen : safe_inputs v (level_ c) (inputs_0 c) (inputs_1 c);
  safe_start : grandparent_index_ c = 0%nat /\ seen_key_ c = false /\ overlapped_bytes_ c = 0 /\
    level_pointers_ c = replicate kNumLevels 0%nat;
  safe_edit : edit_ c = set_compact_pointer clear (Z.of_nat (level_ c)) (snd (get_range (inputs_0 c)))
}.

Lemma expand_inputs_spec v max_file_size level inputs0 inputs1 sm la :
  version_ok v -> safe_inputs v level inputs0 inputs1 -> get_range inputs0 = (sm, la) ->
  exists inputs0' inputs1', expand_inputs v max_file_size level inputs0 inputs1 la =
      Some (inputs0', inputs1', snd (get_range inputs0')) /\ safe_inputs v level inputs0' inputs1'.
Proof.
  intros V Hs Er. unfold expand_inputs. destruct (get_range2 inputs0 inputs1) as [all_start all_limit].
  assert (la = snd (get_range inputs0)) as -> by (by rewrite Er).
  case_bool_decide; [by exists inputs0, inputs1|].
  destruct (overlapping_inputs_spec v level (Some all_start) (Some all_limit)) as (b & e & E & _). rewrite E. cbn [mbind option_bind].
  destruct (overlapping_upper v level _ _ _ V E) as (expanded0 & Ea & Hu & _). rewrite Ea. cbn [mbind option_bind].
  destruct ((length inputs0 <? length expanded0)%nat && _) eqn:Ec; [|by exists inputs0, inputs1].
  apply andb_true_iff in Ec as [Hlen%Nat.ltb_lt _].
  destruct (get_range expanded0) as [new_start new_limit] eqn:Er'.
  destruct (range_lower v level expanded0 new_start new_limit V) as (xs & ys & Ex & Ey & Hl); [by destruct expanded0; [cbn in Hlen; lia|]|done|].
  rewrite Ex. cbn [mbind option_bind]. rewrite Ey. cbn [mbind option_bind].
  destruct (length ys =? length inputs1)%nat; [|by exists inputs0, inputs1].
  exists expanded0, ys. split; [by rewrite Er'|]. split; [by destruct expanded0; [cbn in Hlen; lia|]|done|done].
Qed.

Lemma setup_other_inputs_spec v cps max_file_size level inputs xs :
  version_ok v -> (level + 1 < kNumLevels)%nat ->
  add_boundary_inputs (level_files v level) inputs = Some xs -> upper_inputs v level xs -> xs <> [] ->
  exists c cps', setup_other_inputs v cps max_file_size (Compaction_new max_file_size level v inputs) = Some (c, cps') /\
    cps' = <[level := snd (get_range (inputs_0 c))]> cps /\ level_ c = level /\ safe_compaction v c.
Proof.
  intros V Hlevel Ea Hu Hne. unfold setup_other_inputs. cbn [level_ inputs_0 Compaction_new].
  rewrite (proj2 (Nat.leb_gt _ _)) by lia. rewrite Ea. cbn [mbind option_bind].
  destruct (get_range xs) as [sm la] eqn:Er.
  destruct (range_lower v level xs sm la V Hne Er) as (os & ys & Eo & Ey & Hl). rewrite Eo. cbn [mbind option_bind].
  rewrite Ey. cbn [mbind option_bind].
  destruct (expand_inputs_spec v max_file_size level xs ys sm la V) as (xs' & ys' & Ee & Hs); [by split|done|].
  rewrite Ee. cbn [mbind option_bind]. destruct (get_range2 xs' ys') as [all_start all_limit].
  destruct (overlapping_inputs_spec v (level + 2) (Some all_start) (Some all_limit)) as (b & e & Eg & _).
  destruct (level + 2 <? kNumLevels)%nat; rewrite ?Eg; cbn [mbind option_bind];
    (eexists _, _; split; [reflexivity|]; split; [done|]; split; [done|]; by split).
Qed.

(** *** The level a version's score names *)
Definition scored (v : Version) : Prop :=
  compaction_score_ v = compaction_score_ (finalize v) /\ compaction_level_ v = compaction_level_ (finalize v).

Lemma empty_level_score v level :
  (level < kNumLevels - 1)%nat -> level_files v level = [] -> dle (double_of_Z 1) (level_score v level) = false.
Proof.
  intros Hl E. unfold level_score. destruct (Nat.eqb_spec level 0) as [->|Hne]; rewrite E; [by vm_compute|].
  do 6 (destruct level as [|level]; [by vm_compute|]). cbn in Hl. lia.
Qed.
Lemma finalize_level v :
  by_size (finalize v) = true ->
  exists level, compaction_level_ (finalize v) = Z.of_nat level /\ (level + 1 < kNumLevels)%nat /\ level_files v level <> [].
Proof.
  unfold by_size, finalize. set (step := λ '(best_level, best_score) level, _).
  assert (forall levels best, Forall (λ level, level < kNumLevels - 1)%nat levels ->
    (best = (-1, double_of_Z (-1)) \/ exists level, best = (Z.of_nat level, level_score v level) /\ (level < kNumLevels - 1)%nat) ->
    (fold_left step levels best = (-1, double_of_Z (-1)) \/
     exists level, fold_left step levels best = (Z.of_nat level, level_score v level) /\ (level < kNumLevels - 1)%nat)) as Hfold.
  { induction levels as [|level levels IH]; intros best HF Hb; [done|]. cbn [fold_left]. apply Forall_cons in HF as [Hl HF].
    apply IH; [done|]. destruct best as [best_level best_score]. subst step. cbv beta iota. destruct (dlt _ _); [right; by exists level|done]. }
  destruct (Hfold (seq 0 (kNumLevels - 1)) (-1, double_of_Z (-1))) as [->|(level & -> & Hl)].
  - apply Forall_forall. intros level H%elem_of_seq. lia.
  - by left.
  - by vm_compute.
  - cbn [compaction_score_ compaction_level_]. intros Hs. exists level. split_and!; [done|lia|].
    intros E. by rewrite (empty_level_score v level Hl E) in Hs.
Qed.

Lemma next_to_compact_elem files pointer : files <> [] -> exists f : FilePtr, next_to_compact files pointer = Some f /\ f ∈ files.
Proof.
  intros Hne. unfold next_to_compact. destruct (list_find _ files) as [[i f]|] eqn:E.
  - apply list_find_Some in E as (Hi & _). exists f. split; [done|]. by eapply list_elem_of_lookup_2.
  - destruct files as [|f files]; [done|]. exists f. split; [done|left].
Qed.

(** One file of a level, with what a level-0 file takes along. *)
Lemma file_in_own_range v (file : FilePtr) :
  version_ok v -> file ∈ level_files v 0 ->
  exists xs, get_overlapping_inputs v 0 (Some (smallest file)) (Some (largest file)) = Some xs /\ xs <> [].
Proof.
  intros [_ K] Hf. pose proof (file_users _ file K Hf) as Hu.
  destruct (overlapping_inputs_spec v 0 (Some (smallest file)) (Some (largest file))) as (b & e & E & Hb & He & _).
  eexists. split; [exact E|]. apply (elem_of_not_nil file), elem_of_filter. split; [done|]. apply in_range_true.
  cbn in Hb, He. split; intros k -> Hlt.
  - apply Hu. rewrite sv_compare_gt. by eapply sv_lt_le_trans.
  - apply Hu. rewrite sv_compare_gt. by eapply sv_le_lt_trans.
Qed.

Definition seek_candidate (v : Version) : Prop :=
  forall f : FilePtr, file_to_compact_ v = Some f ->
  exists level, file_to_compact_level_ v = Z.of_nat level /\ (level + 1 < kNumLevels)%nat /\ f ∈ level_files v level.

Lemma chosen_file_spec v cps max_file_size level (file : FilePtr) :
  version_ok v -> (level + 1 < kNumLevels)%nat -> file ∈ level_files v level ->
  exists c cps',
    (inputs ← (if (level =? 0)%nat then let '(sm, la) := get_range [file] in get_overlapping_inputs v 0 (Some sm) (Some la)
               else Some [file]);
     '(c, cps) ← setup_other_inputs v cps max_file_size (Compaction_new max_file_size level v inputs);
     Some (Some c, cps)) = Some (Some c, cps') /\
    cps' = <[level := snd (get_range (inputs_0 c))]> cps /\ level_ c = level /\ safe_compaction v c.
Proof.
  intros V Hl Hf.
  assert (exists inputs xs, (if (level =? 0)%nat then let '(sm, la) := get_range [file] in get_overlapping_inputs v 0 (Some sm) (Some la)
      else Some [file]) = Some inputs /\ add_boundary_inputs (level_files v level) inputs = Some xs /\
      upper_inputs v level xs /\ xs <> []) as (inputs & xs & -> & Ea & Hu & Hne).
  { destruct (Nat.eqb_spec level 0) as [->|Hpos].
    - change (get_range [file]) with (smallest file, largest file). cbv beta iota.
      destruct (file_in_own_range v file V Hf) as (xs & E & Hne). destruct (overlapping_upper v 0 _ _ _ V E) as (ys & Ea & Hu & Hy).
      exists xs, ys. split_and!; [done|done|done|by apply Hy].
    - destruct (convex_upper v level [file] V) as (ys & Ea & Hu & Hy); [lia| | |done|by exists [file], ys].
      + intros f ->%list_elem_of_singleton. done.
      + apply single_convex; [|done]. destruct V as [D _]. apply D. lia. }
  destruct (setup_other_inputs_spec v cps max_file_size level inputs xs V Hl Ea Hu Hne) as (c & cps' & E & H).
  exists c, cps'. cbn [mbind option_bind]. rewrite E. cbn [mbind option_bind]. done.
Qed.

Lemma pick_compaction_spec v cps max_file_size :
  version_ok v -> scored v -> seek_candidate v -> length cps = kNumLevels ->
  exists chosen cps', pick_compaction v cps max_file_size = Some (chosen, cps') /\
    match chosen with
    | Some c => cps' = <[level_ c := snd (get_range (inputs_0 c))]> cps /\ safe_compaction v c
    | None => needs_compaction v = false /\ cps' = cps
    end.
Proof.
  intros V [Hs Hl] Hseek Hlen. unfold pick_compaction, needs_compaction.
  destruct (by_size v) eqn:Eb.
  - assert (by_size (finalize v) = true) as Eb' by (unfold by_size in *; by rewrite <- Hs).
    destruct (finalize_level v Eb') as (level & El & Hlv & Hne). rewrite Hl, El.
    rewrite (proj2 (Z.ltb_ge _ _)), Nat2Z.id, (proj2 (Nat.leb_gt _ _)) by lia. cbn [orb].
    destruct (lookup_lt_is_Some_2 cps level) as [pointer Ep]; [unfold kNumLevels in *; lia|]. rewrite Ep. cbn [mbind option_bind].
    destruct (next_to_compact_elem (level_files v level) pointer Hne) as (file & -> & Hf). cbn [mbind option_bind].
    destruct (chosen_file_spec v cps max_file_size level file V Hlv Hf) as (c & cps' & E & -> & <- & H). eexists (Some c), _.
    split; [exact E|done].
  - destruct (file_to_compact_ v) as [file|] eqn:Ef; cbn [mbind option_bind]; [|by eexists None, _].
    destruct (Hseek file Ef) as (level & El & Hlv & Hf). rewrite El, (proj2 (Z.ltb_ge _ _)), Nat2Z.id by lia. cbn [mbind option_bind].
    destruct (chosen_file_spec v cps max_file_size level file V Hlv Hf) as (c & cps' & E & -> & <- & H). eexists (Some c), _.
    split; [exact E|done].
Qed.

Lemma compact_range_spec v cps max_file_size level b e :
  version_ok v -> (level + 1 < kNumLevels)%nat ->
  exists chosen cps', compact_range v cps max_file_size level b e = Some (chosen, cps') /\
    match chosen with
    | Some c => cps' = <[level := snd (get_range (inputs_0 c))]> cps /\ level_ c = level /\ safe_compaction v c
    | None => get_overlapping_inputs v level b e = Some [] /\ cps' = cps
    end.
Proof.
  intros V Hl. unfold compact_range. destruct (overlapping_inputs_spec v level b e) as (b' & e' & E & _).
  set (xs := List.filter (in_range b' e') (level_files v level)) in E. rewrite E. cbn [mbind option_bind].
  case_bool_decide as Ex; [exists None, cps; by rewrite Ex|].
  assert (exists ys, add_boundary_inputs (level_files v level) (if (0 <? level)%nat then cut_inputs max_file_size 0 xs else xs) = Some ys /\
    upper_inputs v level ys /\ ys <> []) as (ys & Ea & Hu & Hne).
  { destruct (Nat.ltb_spec 0 level) as [Hpos|Hz].
    - assert (disjoint_level (level_files v level)) as D by (by apply V). destruct (cut_inputs_prefix max_file_size 0 xs) as [rest Er].
      apply (convex_upper v level _ V Hpos); [| |by apply cut_inputs_nonempty].
      + intros f Hf. assert (f ∈ xs) as [Hin _]%elem_of_filter by (rewrite Er; set_solver +Hf). done.
      + apply (prefix_convex _ _ rest); rewrite <- Er; [by apply filter_disjoint|by apply filter_convex].
    - destruct (overlapping_upper v level b e xs V E) as (ys & Ea & Hu & Hy). exists ys. split_and!; [done|done|by apply Hy]. }
  destruct (setup_other_inputs_spec v cps max_file_size level _ ys V Hl Ea Hu Hne) as (c & cps' & Es & H).
  cbn zeta. rewrite Es. cbn [mbind option_bind]. by exists (Some c), cps'.
Qed.

(** ** Levels below the output

    The pointers only move forward, over files that end before the key asked
    for. *)
Definition passed (user_key : bytes) (files : list FilePtr) (pointer : nat) : Prop :=
  (pointer <= length files)%nat /\ Forall (λ f : FilePtr, sv_compare (uhi f) user_key = Lt) (take pointer files).
Definition pointers_ok (v : Version) (user_key : bytes) (pointers : list nat) : Prop :=
  length pointers = kNumLevels /\ forall level pointer, pointers !! level = Some pointer -> passed user_key (level_files v level) pointer.

Lemma covers_true k (f : FilePtr) : covers k f = true <-> sv_compare (ulo f) k <> Gt /\ sv_compare k (uhi f) <> Gt.
Proof.
  unfold covers. rewrite andb_true_iff, !bool_decide_eq_true. cbn. unfold bytewise_compare, ulo, uhi.
  rewrite !(sv_compare_antisym k). destruct (sv_compare _ _), (sv_compare _ _); naive_solver.
Qed.
Lemma base_scan_spec user_key files done_ rest :
  disjoint_level files -> files = done_ ++ rest -> Forall (λ f : FilePtr, sv_compare (uhi f) user_key = Lt) done_ ->
  exists pointer, base_scan user_key rest (length done_) = (existsb (covers user_key) files, pointer) /\
    passed user_key files pointer.
Proof.
  intros D. revert done_. induction rest as [|file rest IH]; intros done_ E HF; cbn [base_scan].
  - rewrite app_nil_r in E. subst done_. exists (length files). split; [|split; [done|by rewrite firstn_all]].
    f_equal. symmetry. apply not_true_iff_false. intros (f & Hf & [_ Hc]%covers_true)%existsb_exists.
    rewrite Forall_forall in HF. apply Hc. rewrite sv_compare_gt. by apply HF, list_elem_of_In.
  - case_bool_decide as Hc; cbn in Hc; unfold bytewise_compare in Hc; fold (uhi file) in Hc.
    + exists (length done_). split; [f_equal|]; [|split; [rewrite E, length_app; lia|by rewrite E, take_app_length]].
      apply eq_iff_eq_true. rewrite bool_decide_eq_true. cbn. unfold bytewise_compare. fold (ulo file). split.
      * intros Hge. apply existsb_exists. exists file. split; [rewrite E; apply in_app_iff; right; by left|].
        apply covers_true. split; [|done]. by rewrite sv_compare_gt.
      * intros (f & Hf%list_elem_of_In & [Hlo Hhi]%covers_true)%existsb_exists Hlt. rewrite E in Hf.
        apply elem_of_app in Hf as [Hf|[->|Hf]%elem_of_cons].
        -- rewrite Forall_forall in HF. apply Hhi. rewrite sv_compare_gt. by apply HF.
        -- apply Hlo. by rewrite sv_compare_gt.
        -- apply list_elem_of_lookup in Hf as [j Hj].
           assert (key_lt icmp (largest file) (smallest f)) as Hff.
           { apply (disjoint_lt files (length done_) (S (length done_ + j)) file f D); [lia| |].
             - by rewrite E, list_lookup_middle.
             - rewrite E, lookup_app_r by lia. by replace (S (length done_ + j) - length done_)%nat with (S j) by lia. }
           apply Hlo. rewrite sv_compare_gt. eapply sv_lt_le_trans; [exact Hlt|].
           eapply sv_le_trans; [|exact (internal_lt_user _ _ Hff)]. apply (file_users files); [apply D|rewrite E; set_solver].
    + rename Hc into Hgt.
      replace (S (length done_)) with (length (done_ ++ [file])) by (rewrite length_app; cbn; lia).
      apply IH; [by rewrite <- app_assoc|]. apply Forall_app. split; [done|]. repeat constructor. by rewrite <- sv_compare_gt.
Qed.

Lemma base_levels_spec v user_key levels pointers :
  disjoint_levels v -> Forall (λ level, 0 < level < kNumLevels)%nat levels -> pointers_ok v user_key pointers ->
  exists pointers', base_levels v user_key levels pointers =
      Some (negb (existsb (λ level, existsb (covers user_key) (level_files v level)) levels), pointers') /\
    pointers_ok v user_key pointers'.
Proof.
  intros D. revert pointers. induction levels as [|level levels IH]; intros pointers HF Hp; [by exists pointers|].
  apply Forall_cons in HF as [Hl HF]. cbn [base_levels existsb]. pose proof Hp as [Hlen Hpass].
  destruct (lookup_lt_is_Some_2 pointers level) as [pointer Ep]; [lia|]. rewrite Ep. cbn [mbind option_bind].
  destruct (Hpass level pointer Ep) as [Hle Htake].
  destruct (base_scan_spec user_key (level_files v level) (take pointer (level_files v level)) (drop pointer (level_files v level)))
    as (pointer' & E & Hpass'); [apply D; lia|by rewrite take_drop|done|].
  rewrite length_take_le in E by done. rewrite E. clear E.
  assert (pointers_ok v user_key (<[level := pointer']> pointers)) as Hp'.
  { split; [by rewrite length_insert|]. intros l p. rewrite list_lookup_insert_Some.
    intros [(<- & <- & _)|(_ & H)]; [done|by apply Hpass]. }
  destruct (existsb (covers user_key) (level_files v level)); [by eexists|]. cbn [orb]. by apply IH.
Qed.

(** The questions a compaction asks, in order. *)
Fixpoint base_answers (c : Compaction) (keys : list bytes) : option (list bool) :=
  match keys with
  | [] => Some []
  | user_key :: keys' =>
      '(base, c) ← is_base_level_for_key c user_key;
      rest ← base_answers c keys';
      Some (base :: rest)
  end.
Definition deeper (level : nat) : list nat := seq (level + 2) (kNumLevels - (level + 2)).

Lemma pointers_ok_later v a b pointers : sv_compare a b <> Gt -> pointers_ok v a pointers -> pointers_ok v b pointers.
Proof.
  intros Hab [Hlen Hp]. split; [done|]. intros level pointer E. destruct (Hp level pointer E) as [Hle HF]. split; [done|].
  eapply Forall_impl; [exact HF|]. intros f Hf. exact (sv_lt_le_trans _ a _ Hf Hab).
Qed.
Lemma base_answers_spec c keys :
  disjoint_levels (input_version_ c) -> Sorted (λ a b, sv_compare a b <> Gt) keys ->
  (forall k, head keys = Some k -> pointers_ok (input_version_ c) k (level_pointers_ c)) ->
  base_answers c keys = Some ((λ k, negb (existsb (λ level, existsb (covers k) (level_files (input_version_ c) level)) (deeper (level_ c)))) <$> keys).
Proof.
  revert c. induction keys as [|k keys IH]; intros c D Hs Hp; [done|]. cbn [base_answers]. unfold is_base_level_for_key.
  destruct (base_levels_spec (input_version_ c) k (deeper (level_ c)) (level_pointers_ c) D) as (pointers' & E & Hp').
  { apply Forall_forall. intros level H%elem_of_seq. unfold kNumLevels in *. lia. }
  { by apply Hp. }
  unfold deeper in *. rewrite E. cbn [mbind option_bind].
  apply Sorted_inv in Hs as [Hs Hh]. rewrite IH.
  - done.
  - done.
  - done.
  - intros k' Hk'. destruct keys as [|k'' keys]; [done|]. injection Hk' as <-. inversion Hh; subst. by eapply pointers_ok_later.
Qed.

(** * Theorems *)

(** C22.  A compaction takes whole user keys.  On a version whose levels below 0
    are disjoint and sorted and whose score is [finalize]'s, both ways of
    choosing a compaction end, and a chosen compaction has at least one input
    in its level; a file of the level that stays behind either ends before the
    input begins (it holds newer versions) or begins at a later user key, and
    at level 0 shares no user key with it; a file of the next level that stays
    behind lies wholly on one side of all inputs, so nothing the compaction
    writes there can overlap it.  [pick_compaction] chooses nothing only if
    [needs_compaction] is false, [compact_range] only if no file of the level
    is in the range; and the compaction pointer moves to the end of the
    inputs. *)
Theorem compaction_inputs_are_safe v cps max_file_size :
  version_ok v -> scored v -> seek_candidate v -> length cps = kNumLevels ->
  (exists chosen cps', pick_compaction v cps max_file_size = Some (chosen, cps') /\
    match chosen with
    | Some c => cps' = <[level_ c := snd (get_range (inputs_0 c))]> cps /\ safe_compaction v c
    | None => needs_compaction v = false /\ cps' = cps
    end) /\
  forall level b e, (level + 1 < kNumLevels)%nat ->
  exists chosen cps', compact_range v cps max_file_size level b e = Some (chosen, cps') /\
    match chosen with
    | Some c => cps' = <[level := snd (get_range (inputs_0 c))]> cps /\ level_ c = level /\ safe_compaction v c
    | None => get_overlapping_inputs v level b e = Some [] /\ cps' = cps
    end.
Proof.
  intros V Hs Hk Hlen. split; [by apply pick_compaction_spec|]. intros level b e Hl. by apply compact_range_spec.
Qed.

(** C40.  A tombstone is dropped only when nothing below needs it.  Asked for
    ascending user keys, as a compaction's output is, [is_base_level_for_key]
    answers true for exactly the keys that no file of a level below the output
    covers, although its pointers look at each file once. *)
Theorem base_level_answers_are_exact c keys :
  disjoint_levels (input_version_ c) -> level_pointers_ c = replicate kNumLevels 0%nat ->
  Sorted (λ a b, sv_compare a b <> Gt) keys ->
  base_answers c keys =
    Some ((λ k, negb (existsb (λ level, existsb (covers k) (level_files (input_version_ c) level)) (deeper (level_ c)))) <$> keys).
Proof.
  intros D Ep Hs. apply base_answers_spec; [done..|]. intros k _. rewrite Ep. split; [done|].
  intros level pointer [-> _]%lookup_replicate. split; [lia|]. rewrite take_0. by apply Forall_nil.
Qed.

(** ** Examples *)
Definition key_at (user_key : bytes) (sequence : Z) : bytes := make_internal_key user_key sequence kValue.
Definition sized_file (address : nat) (n : Z) (lo hi : bytes) : FilePtr := mkPtr address (mkFile n 8388608 lo hi 100 1).
(** Level 1 is over its size, and the versions of one of its keys straddle two
    files. *)
Definition straddled_levels : Version :=
  mkVersion
    [[];
     [sized_file 1 7 (key_at [x61] 9) (key_at [x63] 5); sized_file 2 8 (key_at [x63] 4) (key_at [x65] 3);
      sized_file 3 9 (key_at [x67] 8) (key_at [x68] 7)];
     [sized_file 4 5 (key_at [x62] 2) (key_at [x64] 2); sized_file 5 6 (key_at [x78] 2) (key_at [x79] 1)];
     [sized_file 6 4 (key_at [x65] 1) (key_at [x66] 1)]; []; []; []] None (-1) (double_of_Z (-1)) (-1).
Definition straddled : Version := finalize straddled_levels.

Example straddled_chosen :
  (λ '(c, cps), (level_ c, number <$> (f_meta <$> inputs_0 c), number <$> (f_meta <$> inputs_1 c), number <$> (f_meta <$> grandparents_ c))) <$>
    match pick_compaction straddled (replicate kNumLevels []) 2097152 with Some (Some c, cps) => Some (c, cps) | _ => None end =
  Some (1%nat, [7; 8], [5], [4]).
Proof. vm_compute. reflexivity. Qed.

Lemma finalize_ok v : version_ok v -> version_ok (finalize v).
Proof.
  assert (forall level, level_files (finalize v) level = level_files v level) as E.
  { intros level. unfold level_files, finalize. by destruct (fold_left _ _ _). }
  intros [D K]. split; [intros level Hl; rewrite E; by apply D|by rewrite E].
Qed.
Lemma straddled_ok : version_ok straddled.
Proof.
  apply finalize_ok. split; [|by apply Forall_nil].
  intros [|[|[|[|[|[|[|level]]]]]]] H; [lia|..]; unfold level_files; cbn [straddled_levels files_ lookup list_lookup].
  all: try (split; [apply SSorted_nil|by apply Forall_nil]).
  all: split; [repeat constructor|].
  all: repeat (apply Forall_cons; split; [split_and!; [vm_compute; eauto..|vm_compute; discriminate]|]); constructor.
Qed.

Lemma compaction_inputs_are_safe_witness :
  exists chosen cps', pick_compaction straddled (replicate kNumLevels []) 2097152 = Some (chosen, cps') /\
    match chosen with
    | Some c => cps' = <[level_ c := snd (get_range (inputs_0 c))]> (replicate kNumLevels []) /\ safe_compaction straddled c
    | None => needs_compaction straddled = false /\ cps' = replicate kNumLevels []
    end.
Proof.
  refine (proj1 (compaction_inputs_are_safe straddled (replicate kNumLevels []) 2097152 _ _ _ _)).
  - exact straddled_ok.
  - split; vm_compute; reflexivity.
  - intros f E. vm_compute in E. discriminate E.
  - reflexivity.
Defined.

Lemma base_level_answers_are_exact_witness :
  let c := Compaction_new 2097152 1 straddled [] in
  base_answers c [[x61]; [x65]; [x66]; [x67]] = Some [true; false; false; true] /\
  base_answers c [[x61]; [x65]; [x66]; [x67]] =
    Some ((λ k, negb (existsb (λ level, existsb (covers k) (level_files (input_version_ c) level)) (deeper (level_ c)))) <$> [[x61]; [x65]; [x66]; [x67]]).
Proof.
  split; [vm_compute; reflexivity|]. apply base_level_answers_are_exact.
  - exact (proj1 straddled_ok).
  - reflexivity.
  - repeat constructor; vm_compute; discriminate.
Defined.

(** A file whose recorded bounds are the wrong way round - the versions of its
    user key newest last - continues its own key, and is added without end. *)
Definition reversed_file : FilePtr := sized_file 1 7 (key_at [x61] 5) (key_at [x61] 9).
Lemma reversed_file_never_settles fuel inputs : boundary_loop fuel [reversed_file] (largest reversed_file) inputs = None.
Proof.
  revert inputs. induction fuel as [|fuel IH]; intros inputs; [done|]. cbn [boundary_loop].
  assert (boundary_file [reversed_file] (largest reversed_file) = Some reversed_file) as -> by (vm_compute; reflexivity).
  apply IH.
Qed.

End Compaction.
