(* ===== verification/CompactionWork.v ===== *)
(** The work of a compaction ([DBImpl::do_compaction_work] and the functions
    around it in src/src/db_impl.cpp): reading the inputs in order, dropping
    what nobody can read any more, and cutting the rest into tables.

    What the compaction needs of the database around it - flushing a memtable
    that fills up meanwhile, file numbers, files and the table cache - is the
    record [Env] of operations on a state [W]; a table's file,
    [table_file_name(dbname_, number)], is given by its number.  [None] is undefined behaviour
    in a component. *)
From stdpp Require Import gmap.
From S2P Require Import Prelude Status File Encoding DbFormat Comparator Bloom Iterator Format TableBuilder VersionEdit.
From S2P Require Import MemTable Version VersionGet Compaction.
Import Status File Encoding DbFormat Comparator Iterator VersionEdit Version Compaction.
Local Open Scope Z_scope.

Module CompactionWork.

Abbreviation TableBuilder := TableBuilder.TableBuilder.
Abbreviation Options := TableBuilder.Options.

Record Env (W : Type) := mkEnv {
  env_shutting_down : W -> bool * W;
  env_has_imm : W -> bool * W;
  env_compact_memtable : W -> option (Status * W);
  env_record_error : W -> Status -> W;
  env_new_output : W -> Z * W;                          (* the number, now pending *)
  env_open : W -> Z -> (Status + WritableFile) * W;
  env_closed : W -> Z -> WritableFile -> W;             (* the file as its object leaves it *)
  env_sync_directory : W -> Status * W;
  env_check : W -> Z -> Z -> Status * W                 (* an iterator of the table cache, its status *)
}.
Arguments env_shutting_down {W}.
Arguments env_has_imm {W}.
Arguments env_compact_memtable {W}.
Arguments env_record_error {W}.
Arguments env_new_output {W}.
Arguments env_open {W}.
Arguments env_closed {W}.
Arguments env_sync_directory {W}.
Arguments env_check {W}.

(** * State *)
Record Output := mkOutput { o_number : Z; o_file_size : Z; o_smallest : bytes; o_largest : bytes }.
(** [outfile] is the file of [builder]. *)
Record CompactionState := mkState {
  compaction : Compaction;
  smallest_snapshot : Z;
  outputs : list Output;
  builder : option TableBuilder;
  total_bytes : Z
}.
Definition CompactionState_new (c : Compaction) (snapshot : Z) : CompactionState := mkState c snapshot [] None 0.
Definition set_compaction (cs : CompactionState) (c : Compaction) : CompactionState :=
  mkState c (smallest_snapshot cs) (outputs cs) (builder cs) (total_bytes cs).
Definition set_builder (cs : CompactionState) (b : option TableBuilder) : CompactionState :=
  mkState (compaction cs) (smallest_snapshot cs) (outputs cs) b (total_bytes cs).
Definition add_output (cs : CompactionState) (o : Output) : CompactionState :=
  mkState (compaction cs) (smallest_snapshot cs) (outputs cs ++ [o]) (builder cs) (total_bytes cs).
(** [current_output()] is the last output. *)
Definition set_current_output (cs : CompactionState) (f : Output -> Output) : CompactionState :=
  mkState (compaction cs) (smallest_snapshot cs) (alter f (pred (length (outputs cs))) (outputs cs)) (builder cs)
    (total_bytes cs).
Definition current_number (cs : CompactionState) : option Z := o_number <$> last (outputs cs).
Definition add_total (cs : CompactionState) (n : Z) : CompactionState :=
  mkState (compaction cs) (smallest_snapshot cs) (outputs cs) (builder cs) (u64 (total_bytes cs + n)).

(** What the loop remembers of the key before. *)
Record KeyState := mkKeyState { current_user_key : option bytes; last_sequence_for_key : Z }.
Definition KeyState_new : KeyState := mkKeyState None kMaxSequenceNumber.

Section Work.
Context {W : Type} (env : Env W) (options : Options).

(** * The output files *)
Definition open_compaction_output_file (cs : CompactionState) (w : W) : option (Status * CompactionState * W) :=
  let '(number, w) := env_new_output env w in
  let cs := add_output cs (mkOutput number 0 [] []) in
  let '(opened, w) := env_open env w number in
  match opened with
  | inl status => Some (status, cs, w)
  | inr file =>
      b ← TableBuilder.TableBuilder_new options file internal_key_comparator;
      Some (ok, set_builder cs (Some b), w)
  end.

Definition finish_compaction_output_file (cs : CompactionState) (input_status : Status) (w : W) :
    option (Status * CompactionState * W) :=
  b ← builder cs;
  number ← current_number cs;
  let entries := TableBuilder.num_entries b in
  '(status, b) ← (if is_ok input_status then TableBuilder.finish b else Some (input_status, TableBuilder.abandon b));
  let bytes := TableBuilder.file_size b in
  let cs := set_current_output cs (λ o, mkOutput (o_number o) bytes (o_smallest o) (o_largest o)) in
  let cs := set_builder (add_total cs bytes) None in
  let file := TableBuilder.file_ b in
  let '(status, file) := if is_ok status then wf_sync file else (status, file) in
  let '(status, file) := if is_ok status then wf_close file else (status, file) in
  let w := env_closed env w number file in
  let '(status, w) := if is_ok status then env_sync_directory env w else (status, w) in
  let '(status, w) := if is_ok status && (0 <? entries) then env_check env w number bytes else (status, w) in
  Some (status, cs, w).

(** * One key *)

(** A memtable that waits is flushed first. *)
Definition flush_waiting (w : W) : option (Status * W) :=
  let '(imm, w) := env_has_imm env w in
  if imm : bool then
    '(flush, w) ← env_compact_memtable env w;
    if is_ok flush then Some (ok, w) else Some (flush, env_record_error env w flush)
  else Some (ok, w).

Definition cut_before (cs : CompactionState) (internal_key : bytes) (input_status : Status) (w : W) :
    option (Status * CompactionState * W) :=
  match builder cs with
  | None => Some (ok, cs, w)
  | Some _ =>
      let '(stop, c) := should_stop_before (compaction cs) internal_key in
      let cs := set_compaction cs c in
      if stop : bool then finish_compaction_output_file cs input_status w else Some (ok, cs, w)
  end.

Definition drop_key (cs : CompactionState) (ks : KeyState) (internal_key : bytes) :
    option (bool * KeyState * CompactionState) :=
  match parse_internal_key internal_key with
  | None => Some (false, KeyState_new, cs)
  | Some key =>
      let ks := if bool_decide (current_user_key ks = Some (user_key key)) then ks
                else mkKeyState (Some (user_key key)) kMaxSequenceNumber in
      '(drop, cs) ←
        (if last_sequence_for_key ks <=? smallest_snapshot cs then Some (true, cs)
         else if bool_decide (type key = kDeletion) && (sequence key <=? smallest_snapshot cs) then
           '(base, c) ← is_base_level_for_key (compaction cs) (user_key key);
           Some (base, set_compaction cs c)
         else Some (false, cs));
      Some (drop, mkKeyState (current_user_key ks) (sequence key), cs)
  end.

Definition add_key (cs : CompactionState) (internal_key value : bytes) (input_status : Status) (w : W) :
    option (Status * CompactionState * W) :=
  '(status, cs, w) ← (match builder cs with
                      | None => open_compaction_output_file cs w
                      | Some _ => Some (ok, cs, w)
                      end);
  if negb (is_ok status) then Some (status, cs, w)
  else
    b ← builder cs;
    let cs := if TableBuilder.num_entries b =? 0
              then set_current_output cs (λ o, mkOutput (o_number o) (o_file_size o) internal_key (o_largest o)) else cs in
    let cs := set_current_output cs (λ o, mkOutput (o_number o) (o_file_size o) (o_smallest o) internal_key) in
    b ← TableBuilder.add b internal_key value;
    let cs := set_builder cs (Some b) in
    if max_output_file_size_ (compaction cs) <=? TableBuilder.file_size b
    then finish_compaction_output_file cs input_status w
    else Some (ok, cs, w).

(** * The loop

    [fuel] bounds the number of keys; the result is the status, the input
    where the loop left it, and the state. *)
Section Loop.
Context {I : Type} (input : Iterator I).

Fixpoint compaction_loop (fuel : nat) (it : I) (cs : CompactionState) (ks : KeyState) (w : W) :
    option (Status * I * CompactionState * W) :=
  match fuel with
  | O => None
  | S fuel' =>
      if negb (it_valid input it) then Some (ok, it, cs, w)
      else
        let '(shutting, w) := env_shutting_down env w in
        if shutting : bool then Some (ok, it, cs, w)
        else
          '(status, w) ← flush_waiting w;
          if negb (is_ok status) then Some (status, it, cs, w)
          else
            let internal_key := it_key input it in
            '(status, cs, w) ← cut_before cs internal_key (it_status input it) w;
            if negb (is_ok status) then Some (status, it, cs, w)
            else
              '(drop, ks, cs) ← drop_key cs ks internal_key;
              '(status, cs, w) ←
                (if drop : bool then Some (ok, cs, w)
                 else
                   value ← it_value input it;
                   add_key cs internal_key value (it_status input it) w);
              if negb (is_ok status) then Some (status, it, cs, w)
              else
                it ← it_next input it;
                compaction_loop fuel' it cs ks w
  end.

Definition do_compaction_work (fuel : nat) (it : I) (cs : CompactionState) (w : W) :
    option (Status * CompactionState * W) :=
  it ← it_seek_to_first input it;
  '(status, it, cs, w) ← compaction_loop fuel it cs KeyState_new w;
  let '(shutting, w) := if is_ok status then env_shutting_down env w else (false, w) in
  let status := if shutting : bool then io_error "database is shutting down during compaction" else status in
  '(status, cs, w) ← (match is_ok status, builder cs with
                      | true, Some _ => finish_compaction_output_file cs (it_status input it) w
                      | _, _ => Some (status, cs, w)
                      end);
  (* an output still open is abandoned *)
  let '(cs, w) :=
    match builder cs with
    | Some b =>
        let b := TableBuilder.abandon b in
        (set_builder (add_total cs (TableBuilder.file_size b)) None,
         env_closed env w (default 0 (current_number cs)) (TableBuilder.file_ b))
    | None => (cs, w)
    end in
  Some (if is_ok status then it_status input it else status, cs, w).
End Loop.
End Work.

(** ** install_compaction_results: the edit that goes to the manifest *)
Definition compaction_edit (cs : CompactionState) : VersionEdit :=
  let c := compaction cs in
  fold_left (λ edit o, add_file edit (Z.of_nat (level_ c) + 1) (o_number o) (o_file_size o) (o_smallest o) (o_largest o))
    (outputs cs) (add_input_deletions c (edit_ c)).

(** * What survives

    [base k]: no level below the output holds the user key [k].  An entry is
    dropped when the entry before it is a newer version of the same key that
    every snapshot sees, or when it is such a tombstone itself and
    nothing below needs it. *)
Import VersionGet.

#[global] Instance entry_eq_dec : EqDecision Entry.
Proof. solve_decision. Defined.

Definition shadowed (snapshot : Z) (prev : option Entry) (e : Entry) : bool :=
  match prev with
  | Some p => bool_decide (e_key p = e_key e) && (e_sequence p <=? snapshot)
  | None => false
  end.
Definition dead_tombstone (snapshot : Z) (base : bytes -> bool) (e : Entry) : bool :=
  bool_decide (e_type e = kDeletion) && (e_sequence e <=? snapshot) && base (e_key e).
Fixpoint survivors (snapshot : Z) (base : bytes -> bool) (prev : option Entry) (es : list Entry) : list Entry :=
  match es with
  | [] => []
  | e :: es' =>
      if shadowed snapshot prev e || dead_tombstone snapshot base e
      then survivors snapshot base (Some e) es'
      else e :: survivors snapshot base (Some e) es'
  end.

(** What a reader at a snapshot gets for a user key from a set of entries: the
    value of the newest visible one, or nothing. *)
Definition reads (P : Entry -> Prop) (u : bytes) (snapshot : Z) (r : option bytes) : Prop :=
  (nothing_in u snapshot P /\ r = None) \/
  (exists e, newest_of u snapshot P e /\ r = match e_type e with kValue => Some (e_value e) | kDeletion => None end).

(** Entries in the order of a table: user keys ascending, the versions of one
    key from new to old. *)
Definition table_order (a b : Entry) : Prop :=
  sv_compare (e_key a) (e_key b) = Lt \/ (e_key a = e_key b /\ e_sequence b < e_sequence a).

Lemma survivors_sub snapshot base prev es e : e ∈ survivors snapshot base prev es -> e ∈ es.
Proof.
  revert prev. induction es as [|x es IH]; intros prev He; cbn [survivors] in He; [done|].
  destruct (_ || _); [right; by eapply IH|]. apply elem_of_cons in He as [->|He]; [left|right; by eapply IH].
Qed.

(** What is dropped: a version behind one that all snapshots see, or a
    tombstone above nothing. *)
Lemma survivors_dropped snapshot base prev es e :
  StronglySorted table_order es -> (forall p x, prev = Some p -> x ∈ es -> table_order p x) ->
  e ∈ es -> e ∉ survivors snapshot base prev es ->
  dead_tombstone snapshot base e = true \/
  exists p, (p ∈ es \/ prev = Some p) /\ e_key p = e_key e /\ e_sequence e < e_sequence p <= snapshot.
Proof.
  revert prev. induction es as [|x es IH]; intros prev Hs Hp He Hn; [by apply elem_of_nil in He|].
  apply StronglySorted_inv in Hs as [Hs Hx]. rewrite Forall_forall in Hx. cbn [survivors] in Hn.
  destruct (decide (e = x)) as [->|Hne].
  - destruct (shadowed snapshot prev x) eqn:Esh; cbn [orb] in Hn.
    + right. destruct prev as [p|]; [|done]. cbn in Esh. apply andb_true_iff in Esh as [Ek%bool_decide_eq_true Hle%Z.leb_le].
      exists p. split; [by right|]. split; [done|]. destruct (Hp p x eq_refl ltac:(left)) as [H|[_ H]]; [|lia].
      by rewrite Ek, sv_compare_refl in H.
    + destruct (dead_tombstone snapshot base x); [by left|]. set_solver +Hn.
  - apply elem_of_cons in He as [|He]; [done|].
    destruct (IH (Some x)) as [|(p & Hpin & H)]; [done|by intros ? y [= <-] Hy; apply Hx|done| |by left|].
    { destruct (_ || _); set_solver +Hn. }
    right. exists p. split; [|done]. destruct Hpin as [Hpin|[= ->]]; [left; by right|left; left].
Qed.

(** Once a version that all snapshots see is passed, the older ones go. *)
Lemma survivors_behind snapshot base prev es p e :
  StronglySorted table_order es -> (forall q x, prev = Some q -> x ∈ es -> table_order q x) ->
  (p ∈ es \/ prev = Some p) -> e_sequence p <= snapshot -> e_key p = e_key e -> e_sequence e < e_sequence p ->
  e ∉ survivors snapshot base prev es.
Proof.
  revert prev p. induction es as [|x es IH]; intros prev p Hs Hp Hin Hle Ek Hlt; [apply not_elem_of_nil|].
  apply StronglySorted_inv in Hs as [Hs Hx]. rewrite Forall_forall in Hx.
  assert (e ∉ survivors snapshot base (Some x) es) as Hrest.
  { destruct (decide (p = x)) as [->|Hne].
    { apply (IH (Some x) x); [done|by intros ? y [= <-] Hy; apply Hx|by right|done..]. }
    destruct Hin as [[|Hin]%elem_of_cons|Ep]; [done| |].
    { apply (IH (Some x) p); [done|by intros ? y [= <-] Hy; apply Hx|by left|done..]. }
    destruct (decide (e_key x = e_key e)) as [Ex|Ex].
    - (* the version before is of this key: it is as good as [p] *)
      intros He. destruct (Hp p x Ep ltac:(left)) as [H|[_ H]]; [by rewrite Ex, <- Ek, sv_compare_refl in H|].
      pose proof (survivors_sub _ _ _ _ _ He) as He'. destruct (Hx e He') as [H'|[_ H']]; [by rewrite Ex, sv_compare_refl in H'|].
      revert He. apply (IH (Some x) x); [done|by intros ? y [= <-] Hy; apply Hx|by right|lia|done|lia].
    - (* the key is over *)
      intros He%survivors_sub. destruct (Hp p x Ep ltac:(left)) as [H|[H _]]; [|by rewrite <- H in Ex].
      destruct (Hx e He) as [H'|[H' _]]; [|by rewrite H' in Ex].
      rewrite Ek in H. pose proof (sv_compare_lt_trans _ _ _ H H') as H''. by rewrite sv_compare_refl in H''. }
  cbn [survivors]. destruct (shadowed snapshot prev x || dead_tombstone snapshot base x) eqn:Ed; [done|].
  apply not_elem_of_cons. split; [|done]. intros ->. apply orb_false_iff in Ed as [Ed _].
  destruct Hin as [[->|Hin]%elem_of_cons|Ep]; [lia| |].
  - destruct (Hx p Hin) as [H|[_ H]]; [by rewrite Ek, sv_compare_refl in H|lia].
  - rewrite Ep in Ed. cbn in Ed. rewrite bool_decide_eq_true_2 in Ed by done. apply Z.leb_gt in Ed. lia.
Qed.

Lemma newest_exists es u s e :
  StronglySorted table_order es -> e ∈ es -> visible u s e -> exists m, newest_of u s (λ e, e ∈ es) m.
Proof.
  intros Hs. revert e. induction es as [|x es IH]; intros e He Hv; [by apply elem_of_nil in He|].
  apply StronglySorted_inv in Hs as [Hs Hx]. rewrite Forall_forall in Hx.
  destruct (decide (e_key x = u /\ e_sequence x <= s)) as [Hvx|Hnx].
  - exists x. split; [left|]. split; [done|]. intros y [->|Hy]%elem_of_cons Hvy; [done|].
    destruct (Hx y Hy) as [H|[_ H]]; [|lia]. destruct Hvx as [Ex _], Hvy as [Ey _]. by rewrite Ex, Ey, sv_compare_refl in H.
  - apply elem_of_cons in He as [->|He]; [done|]. destruct (IH Hs e He Hv) as (m & Hm & Hvm & Hmax). exists m.
    split; [by right|]. split; [done|]. intros y [->|Hy]%elem_of_cons Hvy; [done|by apply Hmax].
Qed.
Lemma table_order_distinct es a b :
  StronglySorted table_order es -> a ∈ es -> b ∈ es -> e_key a = e_key b -> a <> b -> e_sequence a <> e_sequence b.
Proof.
  intros Hs [i Hi]%list_elem_of_lookup [j Hj]%list_elem_of_lookup Ek Hne.
  destruct (Nat.lt_trichotomy i j) as [H|[->|H]].
  - destruct (StronglySorted_lookup _ _ i j a b Hs H Hi Hj) as [E|[_ E]]; [by rewrite Ek, sv_compare_refl in E|lia].
  - congruence.
  - destruct (StronglySorted_lookup _ _ j i b a Hs H Hj Hi) as [E|[_ E]]; [by rewrite Ek, sv_compare_refl in E|lia].
Qed.

Section Reads.
Context (snapshot : Z) (base : bytes -> bool) (es : list Entry) (rest : Entry -> Prop) (u : bytes) (s : Z).
Context (Hs : StronglySorted table_order es) (Hsnap : snapshot <= s).
(** Everything else of a user key the inputs hold is newer, or is below the
    output and known there. *)
Context (Hrest : forall d e, d ∈ es -> rest e -> e_key e = e_key d ->
  e_sequence d < e_sequence e \/ base (e_key d) = false).
Abbreviation kept := (survivors snapshot base None es).
Abbreviation before := (λ e, e ∈ es \/ rest e).
Abbreviation after := (λ e, e ∈ kept \/ rest e).

(** A newest version that was dropped is a tombstone with nothing behind it. *)
Lemma newest_dropped m :
  newest_of u s (λ e, e ∈ es) m -> m ∉ kept -> e_type m = kDeletion /\ base (e_key m) = true /\ e_sequence m <= snapshot.
Proof using Hs Hsnap.
  intros (Hm & [Ek Hle] & Hmax) Hn.
  destruct (survivors_dropped snapshot base None es m Hs) as [Hd|(p & [Hp|] & Ep & Hseq)]; [done|done|done| | |done].
  - unfold dead_tombstone in Hd. rewrite !andb_true_iff, bool_decide_eq_true, Z.leb_le in Hd. naive_solver.
  - exfalso. pose proof (Hmax p Hp ltac:(split; [congruence|lia])). lia.
Qed.
Lemma kept_behind m e :
  newest_of u s (λ e, e ∈ es) m -> m ∉ kept -> visible u s e -> e ∉ kept.
Proof using Hs Hsnap.
  intros Hm Hn [Ee Hle] He. destruct (newest_dropped m Hm Hn) as (_ & _ & Hms). destruct Hm as (Hm & [Ek _] & Hmax).
  pose proof (survivors_sub _ _ _ _ _ He) as He'. pose proof (Hmax e He' (conj Ee Hle)) as Hmax'.
  assert (e_sequence e <> e_sequence m) as Hne by (apply (table_order_distinct es); [done|done|done|congruence|by intros ->]).
  revert He. apply (survivors_behind snapshot base None es m e Hs); [done|by left|done|congruence|lia].
Qed.

Lemma survivors_read r : reads before u s r <-> reads after u s r.
Proof using Hs Hsnap Hrest.
  split.
  - intros [[Hno ->]|(e & (He & Hv & Hmax) & ->)].
    { left. split; [|done]. intros e [He|He]; [apply Hno; left; by eapply survivors_sub|apply Hno; by right]. }
    destruct (decide (e ∈ kept)) as [Hk|Hk].
    { right. exists e. split; [|done]. split; [by left|]. split; [done|]. intros e' [He'|He']; apply Hmax; [left; by eapply survivors_sub|by right]. }
    destruct He as [He|He].
    2:{ right. exists e. split; [|done]. split; [by right|]. split; [done|]. intros e' [He'|He']; apply Hmax; [left; by eapply survivors_sub|by right]. }
    assert (newest_of u s (λ e, e ∈ es) e) as Hm by (split; [done|]; split; [done|]; intros e' He'; apply Hmax; by left).
    destruct (newest_dropped e Hm Hk) as (Et & Hb & _). left. rewrite Et. split; [|done]. intros e' [He'|He'] Hv'.
    + by apply (kept_behind e e').
    + destruct Hv as [Ee _], (Hrest e e' He He' ltac:(destruct Hv'; congruence)) as [H|H]; [|by rewrite H in Hb].
      pose proof (Hmax e' (or_intror He') Hv'). lia.
  - intros [[Hno ->]|(e & (He & Hv & Hmax) & ->)].
    + destruct (decide (Exists (λ e, e_key e = u /\ e_sequence e <= s) es)) as [(e & He & Hv)%Exists_exists|Hnone].
      * destruct (newest_exists es u s e Hs He Hv) as [m Hm].
        assert (m ∉ kept) as Hk by (intros Hk; apply (Hno m); [by left|by apply Hm]).
        destruct (newest_dropped m Hm Hk) as (Et & _ & _). right. exists m. rewrite Et. split; [|done].
        destruct Hm as (Hm & Hvm & Hmm). split; [by left|]. split; [done|]. intros e' [He'|He'] Hv'; [by apply Hmm|].
        destruct (Hno e'); [by right|done].
      * left. split; [|done]. intros e [He|He] Hv; [|apply (Hno e); [by right|done]].
        apply Hnone, Exists_exists. by exists e.
    + right. exists e. split; [|done]. split; [destruct He as [He|He]; [left; by eapply survivors_sub|by right]|].
      split; [done|]. intros e' [He'|He'] Hv'; [|by apply Hmax; [right|]].
      destruct (newest_exists es u s e' Hs He' Hv') as [m Hm]. pose proof (proj2 (proj2 Hm) e' He' Hv') as Hle.
      destruct (decide (m ∈ kept)) as [Hk|Hk]; [pose proof (Hmax m (or_introl Hk) (proj1 (proj2 Hm))); lia|].
      destruct He as [He|He]; [exfalso; by apply (kept_behind m e Hm Hk Hv)|].
      destruct (newest_dropped m Hm Hk) as (_ & Hb & _). destruct Hm as (Hm & [Em _] & _).
      destruct (Hrest m e Hm He ltac:(destruct Hv; congruence)) as [H|H]; [lia|by rewrite H in Hb].
Qed.
End Reads.

(** * The loop drops what the rule says *)

(** The parts of a compaction that its scans do not move. *)
Definition same_compaction (c c' : Compaction) : Prop :=
  level_ c' = level_ c /\ max_output_file_size_ c' = max_output_file_size_ c /\ input_version_ c' = input_version_ c /\
  edit_ c' = edit_ c /\ inputs_0 c' = inputs_0 c /\ inputs_1 c' = inputs_1 c.
Lemma same_compaction_trans a b c : same_compaction a b -> same_compaction b c -> same_compaction a c.
Proof. unfold same_compaction. naive_solver congruence. Qed.

Definition base_of (c : Compaction) (k : bytes) : bool :=
  negb (existsb (λ level, existsb (covers k) (level_files (input_version_ c) level)) (deeper (level_ c))).

Definition remembers (ks : KeyState) (prev : option Entry) : Prop :=
  ks = match prev with Some p => mkKeyState (Some (e_key p)) (e_sequence p) | None => KeyState_new end.

Lemma drop_key_spec cs ks prev e :
  disjoint_levels (input_version_ (compaction cs)) ->
  pointers_ok (input_version_ (compaction cs)) (e_key e) (level_pointers_ (compaction cs)) ->
  remembers ks prev -> seq_ok (e_sequence e) -> smallest_snapshot cs < kMaxSequenceNumber ->
  exists c', drop_key cs ks (ikey e) =
      Some (shadowed (smallest_snapshot cs) prev e || dead_tombstone (smallest_snapshot cs) (base_of (compaction cs)) e,
            mkKeyState (Some (e_key e)) (e_sequence e), set_compaction cs c') /\
    same_compaction (compaction cs) c' /\
    pointers_ok (input_version_ c') (e_key e) (level_pointers_ c').
Proof.
  intros D Hp Hr He Hsnap. unfold drop_key, ikey. rewrite parse_make by done. cbn [user_key sequence type].
  set (ks' := if bool_decide (current_user_key ks = Some (e_key e)) then ks else mkKeyState (Some (e_key e)) kMaxSequenceNumber).
  assert (current_user_key ks' = Some (e_key e)) as Eu by (subst ks'; by case_bool_decide).
  assert ((last_sequence_for_key ks' <=? smallest_snapshot cs) = shadowed (smallest_snapshot cs) prev e) as El.
  { subst ks'. rewrite Hr. destruct prev as [p|]; cbn [current_user_key last_sequence_for_key KeyState_new shadowed].
    - destruct (bool_decide_reflect (Some (e_key p) = Some (e_key e))) as [[= E]|Hne]; [by rewrite bool_decide_eq_true_2|].
      rewrite bool_decide_eq_false_2 by congruence. cbn [andb last_sequence_for_key]. by apply Z.leb_gt.
    - apply Z.leb_gt. done. }
  rewrite El, Eu. destruct (shadowed (smallest_snapshot cs) prev e) eqn:Es; cbn [orb mbind option_bind].
  { exists (compaction cs). by destruct cs. }
  unfold dead_tombstone. destruct (bool_decide (e_type e = kDeletion) && (e_sequence e <=? smallest_snapshot cs)); cbn [andb mbind option_bind].
  2:{ exists (compaction cs). by destruct cs. }
  unfold is_base_level_for_key.
  destruct (base_levels_spec (input_version_ (compaction cs)) (e_key e) (deeper (level_ (compaction cs)))
    (level_pointers_ (compaction cs)) D) as (pointers' & E & Hp'); [|done|].
  { apply Forall_forall. intros level H%elem_of_seq. unfold kNumLevels in *. lia. }
  unfold deeper in E. rewrite E. cbn [mbind option_bind]. by eexists.
Qed.

Lemma should_stop_same c k : same_compaction c (snd (should_stop_before c k)) /\ level_pointers_ (snd (should_stop_before c k)) = level_pointers_ c.
Proof. unfold should_stop_before. by destruct (stop_scan _ _ _ _ _). Qed.

(** * The outputs *)
Section Outputs.
Context {W : Type} (env : Env W) (options : Options).
(** [disk w n]: what a power cut leaves of table [n]; [next w]: the file
    number that comes next. *)
Context (disk : W -> Z -> option bytes) (next : W -> Z).

(** Files that have a number already are left as they are. *)
Definition keeps (w w' : W) : Prop := next w <= next w' /\ forall n, n < next w -> disk w' n = disk w n.

Definition all_synced (f : WritableFile) : Prop := wf_kernel f = [] /\ wf_buffer f = [].
Class EnvLaws : Prop := {
  law_shutting w : keeps w (snd (env_shutting_down env w));
  law_shutting_stays w w' : env_shutting_down env w = (true, w') -> fst (env_shutting_down env w') = true;
  law_has_imm w : keeps w (snd (env_has_imm env w));
  law_memtable w s w' : env_compact_memtable env w = Some (s, w') -> keeps w w';
  law_error w s : keeps w (env_record_error env w s);
  law_new w n w' : env_new_output env w = (n, w') -> n = next w /\ next w' = n + 1 /\ keeps w w';
  law_open w n : keeps w (snd (env_open env w n));
  law_open_empty w n file w' : env_open env w n = (inr file, w') -> wf_open file = true /\ wf_contents file = [];
  law_open_failed w n s w' : env_open env w n = (inl s, w') -> is_ok s = false;
  law_closed w n f : 0 <= n < next w ->
    let w' := env_closed env w n f in
    next w' = next w /\ (all_synced f -> disk w' n = Some (wf_disk f)) /\ forall k, k <> n -> disk w' k = disk w k;
  law_sync w : keeps w (snd (env_sync_directory env w));
  law_check w n size : keeps w (snd (env_check env w n size))
}.
Context {Laws : EnvLaws}.
Abbreviation open_file t := (wf_open (TableBuilder.file_ t)).

Lemma keeps_refl w : keeps w w.
Proof using. split; [lia|done]. Qed.
Lemma keeps_trans a b c : keeps a b -> keeps b c -> keeps a c.
Proof using. intros [H1 D1] [H2 D2]. split; [lia|]. intros n Hn. rewrite D2 by lia. by apply D1. Qed.

(** The table of an output is on the disk: built from [chunk], all of it. *)
Definition opened (file : WritableFile) : Prop := exists w n w', env_open env w n = (inr file, w').
Record written (w : W) (o : Output) (chunk : list (bytes * bytes)) : Prop := {
  wr_some : chunk <> [];
  wr_number : 0 <= o_number o < next w;
  wr_smallest : fst <$> head chunk = Some (o_smallest o);
  wr_largest : fst <$> last chunk = Some (o_largest o);
  wr_table : exists file s t, opened file /\
    TableBuilder.build_table options file internal_key_comparator chunk = Some (s, t) /\ is_ok s = true /\
    o_file_size o = TableBuilder.file_size t /\ disk w (o_number o) = Some (wf_contents (TableBuilder.file_ t))
}.
(** The builder holds what was added since it was opened. *)
Record filling (w : W) (o : Output) (b : TableBuilder) (cur : list (bytes * bytes)) : Prop := {
  fi_number : 0 <= o_number o < next w;
  fi_built : exists file t0, opened file /\ TableBuilder.TableBuilder_new options file internal_key_comparator = Some t0 /\
    TableBuilder.add_entries t0 cur = Some b;
  fi_entries : is_ok (TableBuilder.status_ b) = true -> TableBuilder.num_entries b = u64 (Z.of_nat (length cur));
  fi_smallest : is_ok (TableBuilder.status_ b) = true -> cur <> [] -> fst <$> head cur = Some (o_smallest o);
  fi_largest : is_ok (TableBuilder.status_ b) = true -> cur <> [] -> fst <$> last cur = Some (o_largest o)
}.

Record progress (w : W) (cs : CompactionState) (chunks : list (list (bytes * bytes))) (cur : list (bytes * bytes)) : Prop := {
  pr_numbers : StronglySorted Z.lt (o_number <$> outputs cs);
  pr_outputs : match builder cs with
    | None => cur = [] /\ Forall2 (written w) (outputs cs) chunks
    | Some b => exists outs o, outputs cs = outs ++ [o] /\ Forall2 (written w) outs chunks /\ filling w o b cur
    end
}.

Lemma written_keeps w w' o chunk : keeps w w' -> written w o chunk -> written w' o chunk.
Proof using.
  intros [Hn Hd] [H1 H2 H3 H4 (file & s & t & H5 & H6 & H7 & H8 & H9)]. split; [done|lia|done|done|].
  exists file, s, t. rewrite Hd by lia. done.
Qed.
Lemma filling_keeps w w' o b cur : next w <= next w' -> filling w o b cur -> filling w' o b cur.
Proof using. intros Hn [H1 H2 H3 H4 H5]. split; [lia|done..]. Qed.
Lemma progress_keeps w w' cs chunks cur : keeps w w' -> progress w cs chunks cur -> progress w' cs chunks cur.
Proof using.
  intros Hk [Hs Ho]. split; [done|]. destruct (builder cs) as [b|].
  - destruct Ho as (outs & o & E & HF & Hf). exists outs, o. split_and!; [done| |by eapply filling_keeps; [apply Hk|]].
    eapply Forall2_impl; [exact HF|]. intros. by eapply written_keeps.
  - destruct Ho as [-> HF]. split; [done|]. eapply Forall2_impl; [exact HF|]. intros. by eapply written_keeps.
Qed.
Lemma progress_same w cs cs' chunks cur :
  outputs cs' = outputs cs -> builder cs' = builder cs -> progress w cs chunks cur -> progress w cs' chunks cur.
Proof using. intros E1 E2 [Hs Ho]. split; [by rewrite E1|by rewrite E1, E2]. Qed.

Lemma wf_sync_ok f s f' : wf_open f = true -> wf_sync f = (s, f') -> is_ok s = true -> wf_disk f' = wf_contents f /\ all_synced f'.
Proof using.
  intros Ho H Hs. assert (s = ok /\ all_synced f') as [-> Ha].
  { revert H Hs. unfold wf_sync, wf_flush. rewrite Ho. cbn [negb]. destruct (wf_next_fault f) as [[n|] g]; cbn.
    - by intros [= <- _].
    - unfold wf_next_fault. cbn. destruct (wf_faults g) as [|[n|] rest]; by intros [= <- <-]. }
  destruct (wf_sync_durable f f' Ho H) as [E1 E2]. by rewrite E1, E2.
Qed.
Lemma healthy_sync_close f : wf_healthy f -> exists f1 f2, wf_sync f = (ok, f1) /\ wf_close f1 = (ok, f2).
Proof using.
  intros [Ho Hf]. unfold wf_sync, wf_flush, wf_next_fault. rewrite Ho, Hf. cbn. rewrite ?Hf. cbn.
  eexists _, _. split; [done|]. unfold wf_close, wf_next_fault. cbn. by rewrite ?Hf.
Qed.
Lemma wf_close_disk f : all_synced f -> wf_disk (snd (wf_close f)) = wf_disk f /\ all_synced (snd (wf_close f)).
Proof using.
  intros [Ek Eb]. unfold wf_close, wf_next_fault, all_synced. destruct (wf_open f); [|done].
  destruct (wf_faults f) as [|[n|] rest]; cbn; rewrite ?Ek, ?Eb, ?take_nil, ?drop_nil; done.
Qed.
Lemma add_entries_snoc t l k v : TableBuilder.add_entries t (l ++ [(k, v)]) = t' ← TableBuilder.add_entries t l; TableBuilder.add t' k v.
Proof using.
  revert t. induction l as [|[k' v'] l IH]; intros t; cbn [app TableBuilder.add_entries mbind option_bind].
  - destruct (TableBuilder.add t k v); reflexivity.
  - destruct (TableBuilder.add t k' v') as [t1|]; [|done]. cbn [mbind option_bind]. apply IH.
Qed.

Lemma set_current_last cs f outs o :
  outputs cs = outs ++ [o] -> outputs (set_current_output cs f) = outs ++ [f o].
Proof using.
  intros E. unfold set_current_output. cbn [outputs]. rewrite E, length_app. cbn [length].
  replace (pred (length outs + 1)) with (length outs + 0)%nat by lia. by rewrite alter_app_r.
Qed.
Lemma current_number_last cs outs o : outputs cs = outs ++ [o] -> current_number cs = Some (o_number o).
Proof using. intros E. unfold current_number. by rewrite E, last_snoc. Qed.
Lemma numbers_below outs (o : Output) :
  StronglySorted Z.lt (o_number <$> (outs ++ [o])) -> forall o', o' ∈ outs -> o_number o' < o_number o.
Proof using.
  intros Hs o' [i Hi]%list_elem_of_lookup.
  apply (StronglySorted_lookup Z.lt (o_number <$> (outs ++ [o])) i (length outs)).
  - done.
  - by apply lookup_lt_Some in Hi.
  - rewrite list_lookup_fmap, lookup_app_l by (by apply lookup_lt_Some in Hi). by rewrite Hi.
  - by rewrite list_lookup_fmap, list_lookup_middle.
Qed.

Lemma new_file file t : TableBuilder.TableBuilder_new options file internal_key_comparator = Some t ->
  TableBuilder.file_ t = file /\ TableBuilder.status_ t = ok /\ TableBuilder.num_entries_ t = 0.
Proof using.
  unfold TableBuilder.TableBuilder_new. destruct (match TableBuilder.filter_policy options with Some _ => _ | None => _ end); [|done].
  cbn [mbind option_bind]. by intros [= <-].
Qed.

(** A status that is not ok is passed on by the steps after it. *)
Ltac failed Ei E := repeat (rewrite ?Ei in E; cbn [andb] in E; cbv beta iota in E); injection E as <- _ _; congruence.

(** An output that is finished without an error holds all that was added. *)
Lemma finish_output_safe w cs chunks cur b input_status s cs' w' :
  progress w cs chunks cur -> builder cs = Some b -> cur <> [] ->
  finish_compaction_output_file env cs input_status w = Some (s, cs', w') -> is_ok s = true ->
  progress w' cs' (chunks ++ [cur]) [] /\ builder cs' = None /\ compaction cs' = compaction cs /\
  smallest_snapshot cs' = smallest_snapshot cs /\ next w <= next w'.
Proof using Laws.
  intros [Hn Ho] Eb Hne E Hs. rewrite Eb in Ho. destruct Ho as (outs & o & Eo & HF & [Fn (file & t0 & Fo & Ft & Fa) Fe Fs Fl]).
  unfold finish_compaction_output_file in E. rewrite Eb, (current_number_last cs outs o Eo) in E. cbn [mbind option_bind] in E.
  destruct (is_ok input_status) eqn:Ei.
  2:{ exfalso. cbn [mbind option_bind] in E. failed Ei E. }
  destruct (TableBuilder.finish b) as [[s1 b1]|] eqn:Ef; [|done]. cbn [mbind option_bind] in E.
  assert (open_file b1 = true) as Hopen.
  { rewrite (TableBuilder.runs_open _ _ (TableBuilder.finish_runs _ _ _ Ef)),
      (TableBuilder.runs_open _ _ (TableBuilder.add_entries_runs _ _ _ Fa)). rewrite (proj1 (new_file _ _ Ft)).
    destruct Fo as (wo & n & wo' & Fo). by apply (law_open_empty _ _ _ _ Fo). }
  set (cs1 := set_builder _ None) in E.
  destruct (is_ok s1) eqn:Es1; [|exfalso; failed Es1 E].
  destruct (wf_sync (TableBuilder.file_ b1)) as [s2 f2] eqn:Esync. cbn iota beta in E.
  destruct (is_ok s2) eqn:Es2; [|exfalso; failed Es2 E].
  destruct (wf_sync_ok _ _ _ Hopen Esync Es2) as [Hdisk Hsy]. destruct (wf_close_disk f2 Hsy) as [Hclose Hsy3].
  destruct (wf_close f2) as [s3 f3] eqn:Ec. cbn [snd] in Hclose, Hsy3. cbn iota beta in E.
  destruct (law_closed w (o_number o) f3 Fn) as (N4 & D4 & D4').
  set (w4 := env_closed env w (o_number o) f3) in E, N4, D4, D4'.
  assert (written w4 (mkOutput (o_number o) (TableBuilder.file_size b1) (o_smallest o) (o_largest o)) cur) as Hw.
  { pose proof (TableBuilder.finish_status _ _ _ Ef Es1) as Hok. split; cbn [o_number o_smallest o_largest o_file_size]; [done|lia|by apply Fs|by apply Fl|].
    exists file, s1, b1. split; [done|]. split; [|split; [done|]; split; [done|]; by rewrite (D4 Hsy3), Hclose, Hdisk].
    unfold TableBuilder.build_table. rewrite Ft. cbn [mbind option_bind]. rewrite Fa. cbn [mbind option_bind]. done. }
  assert (outputs cs1 = outs ++ [mkOutput (o_number o) (TableBuilder.file_size b1) (o_smallest o) (o_largest o)]) as Eo1.
  { subst cs1. exact (set_current_last cs _ outs o Eo). }
  assert (progress w4 cs1 (chunks ++ [cur]) []) as Hp.
  { split; [by rewrite Eo1; rewrite Eo in Hn; rewrite fmap_app in *|]. change (builder cs1) with (@None TableBuilder). split; [done|].
    rewrite Eo1. apply Forall2_app; [|by constructor]. rewrite Eo in Hn.
    pose proof (numbers_below outs o Hn) as Hlt. clear -HF D4' N4 Hlt. induction HF as [|x c xs cs Hx HF IH]; [constructor|]. constructor.
    - destruct Hx as [H1 H2 H3 H4 (fl & s & t & H5 & H6 & H7 & H8 & H9)]. split; [done|lia|done|done|]. exists fl, s, t.
      rewrite D4' by (specialize (Hlt x ltac:(left)); lia). done.
    - apply IH. intros o' Ho'. apply Hlt. by right. }
  assert (cs' = cs1 /\ keeps w4 w') as [-> Hk].
  { revert E. destruct (is_ok s3) eqn:Es3; [|rewrite Es3; cbn [andb]; intros [= _ <- <-]; split; [done|apply keeps_refl]].
    pose proof (law_sync w4) as K5. destruct (env_sync_directory env w4) as [s5 w5]. cbn [snd] in K5.
    destruct (is_ok s5 && _); [|by intros [= _ <- <-]]. pose proof (law_check w5 (o_number o) (TableBuilder.file_size b1)) as K6.
    destruct (env_check _ _ _ _) as [s6 w6]. cbn [snd] in K6. intros [= _ <- <-]. split; [done|by eapply keeps_trans]. }
  split; [by eapply progress_keeps|]. split_and!; [done|done|done|destruct Hk; lia].
Qed.

Lemma open_output_safe w cs chunks s cs' w' :
  0 <= next w -> progress w cs chunks [] -> builder cs = None ->
  open_compaction_output_file env options cs w = Some (s, cs', w') -> is_ok s = true ->
  progress w' cs' chunks [] /\ builder cs' <> None /\ compaction cs' = compaction cs /\
  smallest_snapshot cs' = smallest_snapshot cs /\ next w <= next w'.
Proof using Laws.
  intros H0 [Hn Ho] Eb E Hs. rewrite Eb in Ho. destruct Ho as [_ HF]. unfold open_compaction_output_file in E.
  destruct (env_new_output env w) as [n w1] eqn:En. destruct (law_new w n w1 En) as (-> & N1 & K1).
  pose proof (law_open w1 (next w)) as K2.
  destruct (env_open env w1 (next w)) as [opened w2] eqn:Eo. cbn [snd] in K2.
  destruct opened as [status|file]; [injection E as -> _ _; by rewrite (law_open_failed _ _ _ _ Eo) in Hs|].
  destruct (TableBuilder.TableBuilder_new options file internal_key_comparator) as [b|] eqn:Et; [|done]. cbn [mbind option_bind] in E.
  injection E as <- <- <-. destruct (new_file _ _ Et) as (Ef & Es & Ec).
  assert (keeps w w2) as K by (by eapply keeps_trans). split; [|split_and!; [done|done|done|apply K]].
  assert (Forall (λ o, o_number o < next w) (outputs cs)) as Hlt.
  { clear -HF. induction HF as [|o ch os chs Ho HF IH]; constructor; [destruct Ho; lia|done]. }
  split.
  - cbn [outputs set_builder add_output]. rewrite fmap_app. apply StronglySorted_app. split_and!; [|done|repeat constructor].
    intros x y (o & -> & Ho)%list_elem_of_fmap ->%list_elem_of_singleton. rewrite Forall_forall in Hlt. by apply Hlt.
  - cbn [builder set_builder outputs add_output]. exists (outputs cs), (mkOutput (next w) 0 [] []). split_and!; [done| |].
    + eapply Forall2_impl; [exact HF|]. intros. by eapply written_keeps.
    + split; cbn [o_number o_smallest o_largest]; [destruct K2; lia| |unfold TableBuilder.num_entries; by rewrite Ec|done|done]. exists file, b. split; [by eexists _, _, _|done].
Qed.

(** The state with a key added to its builder. *)
Definition key_added (cs : CompactionState) (b b' : TableBuilder) (key : bytes) : CompactionState :=
  let cs := if TableBuilder.num_entries b =? 0
            then set_current_output cs (λ o, mkOutput (o_number o) (o_file_size o) key (o_largest o)) else cs in
  set_builder (set_current_output cs (λ o, mkOutput (o_number o) (o_file_size o) (o_smallest o) key)) (Some b').
Lemma add_key_progress w cs chunks cur b b' key value :
  progress w cs chunks cur -> builder cs = Some b -> TableBuilder.add b key value = Some b' -> Z.of_nat (length cur) + 1 < 2 ^ 64 ->
  progress w (key_added cs b b' key) chunks (cur ++ [(key, value)]).
Proof using.
  intros [Hn Ho] Eb Ea Hlen. rewrite Eb in Ho. destruct Ho as (outs & o & Eo & HF & [Fn (file & t0 & Fo & Ft & Fa) Fe Fs Fl]).
  set (o' := mkOutput (o_number o) (o_file_size o) (if TableBuilder.num_entries b =? 0 then key else o_smallest o) key).
  assert (outputs (key_added cs b b' key) = outs ++ [o']) as Eo3.
  { unfold key_added. cbn [outputs set_builder]. destruct (TableBuilder.num_entries b =? 0) eqn:E0.
    - rewrite (set_current_last _ _ outs _ (set_current_last cs _ outs o Eo)). subst o'. by rewrite ?E0.
    - rewrite (set_current_last cs _ outs o Eo). subst o'. by rewrite ?E0. }
  split; [rewrite Eo3; rewrite Eo in Hn; by rewrite fmap_app in *|]. rewrite Eo3. cbn [key_added builder set_builder].
  exists outs, o'. split_and!; [done|done|]. split; [done| |..].
  - exists file, t0. split_and!; [done|done|]. rewrite add_entries_snoc, Fa. done.
  - intros Hok. destruct (TableBuilder.add_count _ _ _ _ Ea Hok) as [Hok' Ecount]. unfold TableBuilder.num_entries in *.
    rewrite Ecount, (Fe Hok'), length_app. cbn [length]. rewrite Nat2Z.inj_add. unfold u64. by rewrite Zplus_mod_idemp_l.
  - intros Hok _. destruct (TableBuilder.add_count _ _ _ _ Ea Hok) as [Hok' _]. cbn [o_smallest o'].
    rewrite (Fe Hok'). unfold u64. rewrite Z.mod_small by lia. destruct cur as [|c cur]; [done|]. cbn [length app head].
    rewrite (proj2 (Z.eqb_neq _ _)) by lia. by apply Fs.
  - intros _ _. by rewrite last_snoc.
Qed.

Lemma add_key_safe w cs chunks cur key value input_status s cs' w' :
  0 <= next w -> progress w cs chunks cur -> (builder cs <> None -> cur <> []) -> Z.of_nat (length cur) + 1 < 2 ^ 64 ->
  add_key env options cs key value input_status w = Some (s, cs', w') -> is_ok s = true ->
  exists chunks' cur', progress w' cs' chunks' cur' /\ (builder cs' <> None -> cur' <> []) /\
    concat chunks' ++ cur' = concat chunks ++ cur ++ [(key, value)] /\ (cur' = cur ++ [(key, value)] \/ cur' = []) /\
    compaction cs' = compaction cs /\ smallest_snapshot cs' = smallest_snapshot cs /\ next w <= next w'.
Proof using Laws.
  intros H0 Hp Hbusy Hlen E Hs. unfold add_key in E.
  assert (exists s1 cs1 w1, match builder cs with None => open_compaction_output_file env options cs w
      | Some _ => Some (ok, cs, w) end = Some (s1, cs1, w1) /\ (is_ok s1 = true ->
      progress w1 cs1 chunks cur /\ builder cs1 <> None /\ compaction cs1 = compaction cs /\
      smallest_snapshot cs1 = smallest_snapshot cs /\ next w <= next w1))
    as (s1 & cs1 & w1 & E1 & H1).
  { destruct (builder cs) as [b|] eqn:Eb; [exists ok, cs, w; split; [done|]; intros _; rewrite Eb; by split_and!|].
    assert (cur = []) as -> by (destruct Hp as [_ Ho]; rewrite Eb in Ho; by destruct Ho).
    destruct (open_compaction_output_file env options cs w) as [[[s1 cs1] w1]|] eqn:E1; [|done].
    exists s1, cs1, w1. split; [done|]. intros Hs1. by eapply open_output_safe. }
  rewrite E1 in E. cbn [mbind option_bind] in E.
  destruct (is_ok s1) eqn:Es1; cbn [negb] in E; [|injection E as <- _ _; congruence].
  destruct (H1 eq_refl) as ([Hn Ho] & Hb1 & Ec1 & Ess1 & Hn1). clear H1 E1.
  destruct (builder cs1) as [b|] eqn:Eb1; [|done]. cbn [mbind option_bind] in E.
  destruct (TableBuilder.add b key value) as [b'|] eqn:Ea; [|done]. cbn [mbind option_bind] in E.
  assert (progress w1 cs1 chunks cur) as P1 by (split; [done|by rewrite Eb1]).
  pose proof (add_key_progress w1 cs1 chunks cur b b' key value P1 Eb1 Ea Hlen) as Hp4.
  change (set_builder _ _) with (key_added cs1 b b' key) in E.
  assert (compaction (key_added cs1 b b' key) = compaction cs /\ smallest_snapshot (key_added cs1 b b' key) = smallest_snapshot cs /\
    builder (key_added cs1 b b' key) = Some b') as (Ec3 & Ess3 & Eb4).
  { unfold key_added. by destruct (TableBuilder.num_entries b =? 0). }
  set (cs4 := key_added cs1 b b' key) in *.
  destruct (_ <=? _) in E.
  - destruct (finish_output_safe w1 cs4 chunks (cur ++ [(key, value)]) b' input_status s cs' w' Hp4) as (Hp' & Hb' & Hc' & Hss' & Hn');
      [done|by destruct cur|done|done|].
    exists (chunks ++ [cur ++ [(key, value)]]), []. split_and!; [done|by rewrite Hb'| |by right|by rewrite Hc'|by rewrite Hss'|lia].
    rewrite concat_app. cbn. by rewrite !app_nil_r, app_assoc.
  - injection E as _ <- <-. exists chunks, (cur ++ [(key, value)]). split_and!; [done|by destruct cur|done|by left|done|done|done].
Qed.

Lemma cut_before_safe w cs chunks cur key input_status s cs' w' :
  progress w cs chunks cur -> (builder cs <> None -> cur <> []) ->
  cut_before env cs key input_status w = Some (s, cs', w') -> is_ok s = true ->
  exists chunks' cur', progress w' cs' chunks' cur' /\ (builder cs' <> None -> cur' <> []) /\
    concat chunks' ++ cur' = concat chunks ++ cur /\ (cur' = cur \/ cur' = []) /\
    same_compaction (compaction cs) (compaction cs') /\ level_pointers_ (compaction cs') = level_pointers_ (compaction cs) /\
    smallest_snapshot cs' = smallest_snapshot cs /\ next w <= next w'.
Proof using Laws.
  intros Hp Hbusy E Hs. unfold cut_before in E. destruct (builder cs) as [b|] eqn:Eb.
  2:{ injection E as <- <- <-. exists chunks, cur. rewrite Eb. split_and!; [done|done|done|by left|done..]. }
  pose proof (should_stop_same (compaction cs) key) as [Hsame Hptr].
  destruct (should_stop_before (compaction cs) key) as [stop c]. cbn [snd] in Hsame, Hptr.
  assert (progress w (set_compaction cs c) chunks cur) as Hp1 by (by eapply progress_same; [..|exact Hp]).
  destruct stop.
  - destruct (finish_output_safe w (set_compaction cs c) chunks cur b input_status s cs' w' Hp1) as (Hp' & Hb' & Hc' & Hss' & Hn');
      [done|by apply Hbusy|done|done|].
    exists (chunks ++ [cur]), []. split_and!; [done|by rewrite Hb'| |by right|by rewrite Hc'|by rewrite Hc'|by rewrite Hss'|done].
    rewrite concat_app. cbn. by rewrite !app_nil_r.
  - injection E as <- <- <-. exists chunks, cur. cbn [builder set_compaction compaction smallest_snapshot]. rewrite Eb. split_and!; [done|done|done|by left|done..].
Qed.

(** ** When nothing fails *)
Class Healthy : Prop := {
  hl_shutting w : fst (env_shutting_down env w) = false;
  hl_memtable w : exists w', env_compact_memtable env w = Some (ok, w');
  hl_open w n : exists file, fst (env_open env w n) = inr file;
  hl_opened file : opened file -> wf_healthy file;
  hl_sync w : fst (env_sync_directory env w) = ok;
  hl_check w n size : fst (env_check env w n size) = ok
}.
Definition options_ok : Prop :=
  1 <= TableBuilder.block_restart_interval options /\
  forall p, TableBuilder.filter_policy options = Some p -> Bloom.FilterPolicyLaws p.
(** Entries that make a table. *)
Definition table_fits (l : list (bytes * bytes)) : Prop :=
  sorted_by internal_key_comparator l /\ Forall (λ e, readable internal_key_comparator e.1) l /\ TableBuilder.weight l < 2 ^ 32.

Lemma table_fits_app a b : table_fits (a ++ b) -> table_fits a /\ table_fits b.
Proof using.
  intros (Hs & Hr & Hw). unfold sorted_by in Hs. rewrite fmap_app in Hs. apply StronglySorted_app in Hs as (_ & Ha & Hb).
  apply Forall_app in Hr as [Ra Rb]. rewrite TableBuilder.weight_app in Hw. pose proof (TableBuilder.weight_ge a). pose proof (TableBuilder.weight_ge b).
  split; (split; [done|]; split; [done|lia]).
Qed.

Section Live.
Context {Live : Healthy} (Hopt : options_ok).

Lemma finish_output_live w cs chunks cur b :
  progress w cs chunks cur -> builder cs = Some b -> table_fits cur ->
  exists cs' w', finish_compaction_output_file env cs ok w = Some (ok, cs', w').
Proof using Laws Live Hopt.
  intros [_ Ho] Eb (Ts & Tr & Tw). rewrite Eb in Ho. destruct Ho as (outs & o & Eo & _ & [_ (file & t0 & Fo & Ft & Fa) _ _ _]).
  destruct Hopt as [Hi Hp]. pose proof Fo as (wo & n & wo' & Fo'). destruct (law_open_empty _ _ _ _ Fo') as [_ Fc].
  destruct (TableBuilder.build_table_spec internal_key_comparator extract_user_key options Hi Hp file cur (hl_opened file Fo) Fc Ts Tr Tw)
    as (t & _ & _ & _ & Et & _). unfold TableBuilder.build_table in Et. rewrite Ft in Et. cbn [mbind option_bind] in Et. rewrite Fa in Et.
  cbn [mbind option_bind] in Et.
  assert (wf_healthy (TableBuilder.file_ t)) as Hh.
  { apply (TableBuilder.runs_healthy _ _ (TableBuilder.finish_runs _ _ _ Et)), (TableBuilder.runs_healthy _ _ (TableBuilder.add_entries_runs _ _ _ Fa)).
    rewrite (proj1 (new_file _ _ Ft)). by apply hl_opened. }
  unfold finish_compaction_output_file. rewrite Eb, (current_number_last cs outs o Eo). cbn [mbind option_bind].
  change (is_ok ok) with true. cbv iota. rewrite Et. cbn [mbind option_bind]. change (is_ok ok) with true. cbv iota.
  destruct (healthy_sync_close _ Hh) as (f1 & f2 & -> & E2). change (is_ok ok) with true. cbv iota. rewrite E2.
  change (is_ok ok) with true. cbv iota. set (w4 := env_closed env w (o_number o) f2).
  pose proof (hl_sync w4) as E5. destruct (env_sync_directory env w4) as [s5 w5]. cbn [fst] in E5. subst s5. change (is_ok ok) with true. cbn [andb].
  destruct (0 <? _); [|by eexists _, _].
  pose proof (hl_check w5 (o_number o) (TableBuilder.file_size t)) as E6. destruct (env_check _ _ _ _) as [s6 w6]. cbn [fst] in E6. subst s6.
  by eexists _, _.
Qed.

Lemma add_key_live w cs chunks cur key value :
  0 <= next w -> progress w cs chunks cur -> (builder cs <> None -> cur <> []) -> table_fits (cur ++ [(key, value)]) ->
  Z.of_nat (length cur) + 1 < 2 ^ 64 ->
  exists cs' w', add_key env options cs key value ok w = Some (ok, cs', w').
Proof using Laws Live Hopt.
  intros H0 Hp Hbusy Hfit Hlen. pose proof Hopt as [Hi Hpol].
  assert (exists cs1 w1 b, match builder cs with None => open_compaction_output_file env options cs w
      | Some _ => Some (ok, cs, w) end = Some (ok, cs1, w1) /\ builder cs1 = Some b /\ progress w1 cs1 chunks cur)
    as (cs1 & w1 & b & E1 & Eb1 & P1).
  { destruct (builder cs) as [b|] eqn:Eb; [by exists cs, w, b|].
    assert (cur = []) as -> by (destruct Hp as [_ Ho]; rewrite Eb in Ho; by destruct Ho).
    destruct (open_compaction_output_file env options cs w) as [[[s1 cs1] w1]|] eqn:E1.
    - assert (s1 = ok) as ->.
      { unfold open_compaction_output_file in E1. destruct (env_new_output env w) as [n w2].
        destruct (hl_open w2 n) as [file Ef].
        destruct (env_open env w2 n) as [opened w3]. cbn [fst] in Ef. subst opened.
        destruct (TableBuilder.TableBuilder_new _ _ _); [|done]. by injection E1 as <- _ _. }
      destruct (open_output_safe w cs chunks ok cs1 w1 H0 Hp Eb E1 eq_refl) as (P1 & Hb & _).
      destruct (builder cs1) as [b|] eqn:Eb1; [|done]. by exists cs1, w1, b.
    - exfalso. unfold open_compaction_output_file in E1. destruct (env_new_output env w) as [n w2].
      destruct (hl_open w2 n) as [file Ef].
      destruct (env_open env w2 n) as [opn w3] eqn:Eop. cbn [fst] in Ef. subst opn.
      destruct (TableBuilder.new_spec internal_key_comparator extract_user_key options Hpol file) as (t & Et & _).
      { apply hl_opened. by eexists _, _, _. }
      { by apply (law_open_empty _ _ _ _ Eop). }
      by rewrite Et in E1. }
  unfold add_key. rewrite E1. cbn [mbind option_bind]. change (is_ok ok) with true. cbn [negb]. rewrite Eb1. cbn [mbind option_bind].
  assert (exists b', TableBuilder.add b key value = Some b') as [b' Ea].
  { destruct P1 as [_ Ho]. rewrite Eb1 in Ho. destruct Ho as (outs & o & Eo & _ & [_ (file & t0 & Fo & Ft & Fa) _ _ _]).
    pose proof Fo as (wo & n & wo' & Fo'). destruct (law_open_empty _ _ _ _ Fo') as [_ Fc]. destruct Hfit as (Ts & Tr & Tw).
    destruct (TableBuilder.build_table_spec internal_key_comparator extract_user_key options Hi Hpol file (cur ++ [(key, value)])
      (hl_opened file Fo) Fc Ts Tr Tw) as (t & _ & _ & _ & Et & _).
    unfold TableBuilder.build_table in Et. rewrite Ft in Et. cbn [mbind option_bind] in Et. rewrite add_entries_snoc, Fa in Et.
    cbn [mbind option_bind] in Et. destruct (TableBuilder.add b key value) as [b'|]; [by exists b'|done]. }
  rewrite Ea. cbn [mbind option_bind].
  set (cs2 := if TableBuilder.num_entries b =? 0 then _ else cs1). set (cs3 := set_current_output cs2 _).
  set (cs4 := set_builder cs3 (Some b')). destruct (_ <=? _); [|by eexists _, _].
  (* the same step without the cut keeps the invariant *)
  pose proof (add_key_progress w1 cs1 chunks cur b b' key value P1 Eb1 Ea Hlen) as P4.
  eapply (finish_output_live w1 cs4 chunks (cur ++ [(key, value)]) b'); [exact P4|done|done].
Qed.
End Live.

(** ** The whole loop *)
Section Run.
Context {I : Type} (input : Iterator I) (es : list Entry) (pos : I -> nat -> Prop).
Context `{!SortedIteratorUpTo limit input internal_key_comparator (table_entries es) pos}.
Context (c0 : Compaction) (snapshot : Z).
Context (Hd : disjoint_levels (input_version_ c0)) (Hok : Forall (λ e, seq_ok (e_sequence e)) es).
Context (Hsort : StronglySorted table_order es) (Hsnap : snapshot < kMaxSequenceNumber).
Context (Hlen : Z.of_nat (length es) + 1 < 2 ^ 64).

(** Before entry [i]: what came before has gone to the outputs. *)
Record ready (w : W) (cs : CompactionState) (ks : KeyState) (i : nat) (chunks : list (list (bytes * bytes)))
    (cur : list (bytes * bytes)) : Prop := {
  rd_next : 0 <= next w;
  rd_progress : progress w cs chunks cur;
  rd_busy : builder cs <> None -> cur <> [];
  rd_length : (length cur <= i)%nat;
  rd_compaction : same_compaction c0 (compaction cs);
  rd_snapshot : smallest_snapshot cs = snapshot;
  rd_remembers : remembers ks (if i is S j then es !! j else None);
  rd_pointers : forall e, es !! i = Some e -> pointers_ok (input_version_ c0) (e_key e) (level_pointers_ (compaction cs))
}.
Abbreviation kept_from i := (table_entries (survivors snapshot (base_of c0) (if (i : nat) is S j then es !! j else None) (drop i es))).

Lemma flush_waiting_keeps w s w' : flush_waiting env w = Some (s, w') -> keeps w w'.
Proof using Laws.
  unfold flush_waiting. pose proof (law_has_imm w) as K1. destruct (env_has_imm env w) as [imm w1]. cbn [snd] in K1.
  destruct imm; [|by intros [= _ <-]]. destruct (env_compact_memtable env w1) as [[flush w2]|] eqn:E; [|done]. cbn [mbind option_bind].
  pose proof (law_memtable _ _ _ E) as K2. destruct (is_ok flush); intros [= _ <-]; [by eapply keeps_trans|].
  eapply keeps_trans; [exact K1|]. eapply keeps_trans; [exact K2|]. apply law_error.
Qed.

Lemma base_of_same c c' k : same_compaction c c' -> base_of c' k = base_of c k.
Proof using. intros (E1 & _ & E2 & _). unfold base_of. by rewrite E1, E2. Qed.
Lemma dead_tombstone_same c c' e : same_compaction c c' ->
  dead_tombstone snapshot (base_of c') e = dead_tombstone snapshot (base_of c) e.
Proof using. intros H. unfold dead_tombstone. by rewrite (base_of_same c c'). Qed.

Lemma table_order_keys a b : table_order a b -> sv_compare (e_key a) (e_key b) <> Gt.
Proof using. intros [H|[H _]]; [by rewrite H|by rewrite H, sv_compare_refl]. Qed.

(** One entry, kept or dropped. *)
Lemma key_step w cs ks i chunks cur e :
  ready w cs ks i chunks cur -> es !! i = Some e ->
  exists c', drop_key cs ks (ikey e) =
      Some (shadowed snapshot (if i is S j then es !! j else None) e || dead_tombstone snapshot (base_of c0) e,
            mkKeyState (Some (e_key e)) (e_sequence e), set_compaction cs c') /\
    same_compaction c0 c' /\
    (forall e', es !! S i = Some e' -> pointers_ok (input_version_ c0) (e_key e') (level_pointers_ c')).
Proof using Hd Hok Hsort Hsnap.
  intros [R1 R2 R3 R4 R5 R6 R7 R8] He. pose proof R5 as (_ & _ & Ev & _).
  assert (seq_ok (e_sequence e)) as Hse by (rewrite Forall_forall in Hok; apply Hok; by eapply list_elem_of_lookup_2).
  destruct (drop_key_spec cs ks (if i is S j then es !! j else None) e) as (c' & E & Hsame & Hp); [by rewrite Ev|rewrite Ev; by apply R8|done|done|by rewrite R6|].
  rewrite R6, (dead_tombstone_same c0) in E by done. exists c'. split; [done|].
  split; [by eapply same_compaction_trans|]. intros e' He'.
  assert (input_version_ c' = input_version_ c0) as Ev' by (destruct Hsame as (_ & _ & H & _); by rewrite H).
  rewrite <- Ev'. eapply pointers_ok_later; [|exact Hp]. apply table_order_keys.
  apply (StronglySorted_lookup _ _ i (S i) e e' Hsort); [lia|done|done].
Qed.

Lemma kept_step i e :
  es !! i = Some e ->
  kept_from i = if shadowed snapshot (if i is S j then es !! j else None) e || dead_tombstone snapshot (base_of c0) e
                then kept_from (S i) else (ikey e, e_value e) :: kept_from (S i).
Proof using. intros He. rewrite (drop_S es e i He). cbn [survivors]. rewrite He. by destruct (_ || _). Qed.

Lemma loop_safe fuel it i cs ks w chunks cur status it' cs' w' :
  ready w cs ks i chunks cur -> pos it i ->
  compaction_loop env options input fuel it cs ks w = Some (status, it', cs', w') -> is_ok status = true ->
  fst (env_shutting_down env w') = true \/
  exists chunks' cur', pos it' (length es) /\ progress w' cs' chunks' cur' /\ (builder cs' <> None -> cur' <> []) /\
    concat chunks' ++ cur' = concat chunks ++ cur ++ kept_from i /\
    same_compaction c0 (compaction cs') /\ smallest_snapshot cs' = snapshot.
Proof using All.
  revert it i cs ks w chunks cur. induction fuel as [|fuel IH]; intros it i cs ks w chunks cur R Hpos E Hs; [done|].
  cbn [compaction_loop] in E. rewrite (si_valid it i Hpos) in E. unfold table_entries in E. rewrite length_fmap in E.
  pose proof (si_bound it i Hpos) as Hb. unfold table_entries in Hb. rewrite length_fmap in Hb.
  destruct (Nat.ltb_spec i (length es)) as [Hi|Hi]; cbn [negb] in E.
  2:{ injection E as <- <- <- <-. right. assert (i = length es) as -> by lia. exists chunks, cur. destruct R.
      rewrite drop_all. cbn [survivors]. rewrite app_nil_r. by split_and!. }
  destruct (lookup_lt_is_Some_2 es i Hi) as [e He].
  destruct (si_entry it i (ikey e) (e_value e) Hpos) as [Ek Ev]; [by rewrite table_entries_lookup, He|].
  pose proof (law_shutting w) as K1. destruct (env_shutting_down env w) as [shutting w1] eqn:Esh. cbn [snd] in K1.
  destruct shutting; [injection E as <- <- <- <-; left; by eapply law_shutting_stays|].
  destruct (flush_waiting env w1) as [[s2 w2]|] eqn:Ef; [|done]. cbn [mbind option_bind] in E.
  destruct (is_ok s2) eqn:Es2; cbn [negb] in E; [|injection E as <- _ _ _; congruence].
  assert (keeps w w2) as K2 by (eapply keeps_trans; [exact K1|by eapply flush_waiting_keeps]).
  rewrite Ek in E. destruct (cut_before env cs (ikey e) (it_status input it) w2) as [[[s3 cs3] w3]|] eqn:Ec; [|done].
  cbn [mbind option_bind] in E. destruct (is_ok s3) eqn:Es3; cbn [negb] in E; [|injection E as <- _ _ _; congruence].
  pose proof R as [R1 R2 R3 R4 R5 R6 R7 R8].
  destruct (cut_before_safe w2 cs chunks cur (ikey e) (it_status input it) s3 cs3 w3) as (chunks3 & cur3 & P3 & B3 & C3 & L3 & S3 & T3 & Q3 & N3);
    [by eapply progress_keeps|done|done|done|].
  assert (ready w3 cs3 ks i chunks3 cur3) as Rd3.
  { split; [destruct K2; lia|done|done|destruct L3 as [->| ->]; [done|cbn; lia]|by eapply same_compaction_trans|by rewrite Q3|done|by rewrite T3]. }
  destruct (key_step w3 cs3 ks i chunks3 cur3 e Rd3 He) as (c4 & Ed & S4 & T4). rewrite Ed in E. cbn [mbind option_bind] in E.
  rewrite (kept_step i e He). set (prev := if i is S j then es !! j else None) in *.
  destruct (si_next it i Hpos) as (it5 & En & Hpos5); [unfold table_entries; by rewrite length_fmap|].
  destruct (shadowed snapshot prev e || dead_tombstone snapshot (base_of c0) e).
  - cbn [mbind option_bind] in E. change (is_ok ok) with true in E. cbn [negb] in E. rewrite En in E. cbn [mbind option_bind] in E.
    rewrite app_assoc, <- C3.
    destruct (IH it5 (S i) (set_compaction cs3 c4) (mkKeyState (Some (e_key e)) (e_sequence e)) w3 chunks3 cur3) as [H|H]; [|done|done|done|by left|].
    + destruct Rd3. split; [done|by eapply progress_same; [..|eassumption]|done|lia|done|done|by rewrite He|done].
    + right. rewrite <- app_assoc. exact H.
  - rewrite Ev in E. cbn [mbind option_bind] in E.
    destruct (add_key env options (set_compaction cs3 c4) (ikey e) (e_value e) (it_status input it) w3) as [[[s5 cs5] w5]|] eqn:Ea; [|done].
    cbn [mbind option_bind] in E. destruct (is_ok s5) eqn:Es5; cbn [negb] in E; [|injection E as <- _ _ _; congruence].
    rewrite En in E. cbn [mbind option_bind] in E.
    destruct (add_key_safe w3 (set_compaction cs3 c4) chunks3 cur3 (ikey e) (e_value e) (it_status input it) s5 cs5 w5)
      as (chunks5 & cur5 & P5 & B5 & C5 & L5 & S5 & Q5 & N5); [apply Rd3| |done|destruct Rd3; lia|done|done|].
    { eapply progress_same; [..|exact P3]; done. }
    destruct (IH it5 (S i) cs5 (mkKeyState (Some (e_key e)) (e_sequence e)) w5 chunks5 cur5) as [H|H]; [|done|done|done|by left|].
    + destruct Rd3. split; [lia|done|done|destruct L5 as [->| ->]; [rewrite length_app; cbn; lia|cbn; lia]|by rewrite S5|by rewrite Q5|by rewrite He|by rewrite S5].
    + right. destruct H as (chunks' & cur' & H1 & H2 & H3 & H4 & H5). exists chunks', cur'. split_and!; [done|done|done| |apply H5|apply H5].
      rewrite H4, (app_assoc (concat chunks5)), C5, (cons_middle (ikey e, e_value e)), !app_assoc. rewrite <- C3, <- !app_assoc. done.
Qed.

Section LiveRun.
Context {Live : Healthy} (Hopt : options_ok).

Lemma flush_waiting_live w : exists w', flush_waiting env w = Some (ok, w').
Proof using Live.
  unfold flush_waiting. destruct (env_has_imm env w) as [[] w1]; [|by eexists]. destruct (hl_memtable w1) as [w2 ->].
  cbn [mbind option_bind]. by eexists.
Qed.
Lemma cut_before_live w cs chunks cur key :
  progress w cs chunks cur -> table_fits cur -> exists cs' w', cut_before env cs key ok w = Some (ok, cs', w').
Proof using Laws Live Hopt.
  intros Hp Hf. unfold cut_before. destruct (builder cs) as [b|] eqn:Eb; [|by eexists _, _].
  destruct (should_stop_before (compaction cs) key) as [[] c]; [|by eexists _, _].
  apply (finish_output_live Hopt w (set_compaction cs c) chunks cur b); [by eapply progress_same; [..|exact Hp]|done|done].
Qed.

Lemma loop_live fuel it i cs ks w chunks cur :
  ready w cs ks i chunks cur -> pos it i -> (length es - i < fuel)%nat -> table_fits (cur ++ kept_from i) ->
  exists it' cs' w' chunks' cur', compaction_loop env options input fuel it cs ks w = Some (ok, it', cs', w') /\
    progress w' cs' chunks' cur' /\ table_fits cur' /\ pos it' (length es).
Proof using All.
  revert it i cs ks w chunks cur. induction fuel as [|fuel IH]; intros it i cs ks w chunks cur R Hpos Hf Hfit; [lia|].
  cbn [compaction_loop]. rewrite (si_valid it i Hpos). unfold table_entries at 1. rewrite length_fmap.
  pose proof (si_bound it i Hpos) as Hb. unfold table_entries in Hb. rewrite length_fmap in Hb.
  destruct (Nat.ltb_spec i (length es)) as [Hi|Hi]; cbn [negb].
  2:{ assert (i = length es) as -> by lia. exists it, cs, w, chunks, cur. split; [done|]. split; [apply R|]. split; [|done].
      by apply table_fits_app in Hfit as [? _]. }
  destruct (lookup_lt_is_Some_2 es i Hi) as [e He].
  destruct (si_entry it i (ikey e) (e_value e) Hpos) as [Ek Ev]; [by rewrite table_entries_lookup, He|].
  pose proof (law_shutting w) as K1. pose proof (hl_shutting w) as Hsh. destruct (env_shutting_down env w) as [shutting w1]. cbn [fst snd] in K1, Hsh.
  subst shutting. destruct (flush_waiting_live w1) as [w2 Ef]. rewrite Ef. cbn [mbind option_bind]. change (is_ok ok) with true. cbn [negb].
  assert (keeps w w2) as K2 by (eapply keeps_trans; [exact K1|by eapply flush_waiting_keeps]).
  rewrite Ek, (si_status it i Hpos). pose proof R as [R1 R2 R3 R4 R5 R6 R7 R8].
  pose proof (progress_keeps _ _ _ _ _ K2 R2) as P2.
  destruct (cut_before_live w2 cs chunks cur (ikey e) P2) as (cs3 & w3 & Ec); [by apply table_fits_app in Hfit as [? _]|]. rewrite Ec.
  cbn [mbind option_bind]. change (is_ok ok) with true. cbn [negb].
  destruct (cut_before_safe w2 cs chunks cur (ikey e) ok ok cs3 w3 P2 R3 Ec eq_refl) as (chunks3 & cur3 & P3 & B3 & C3 & L3 & S3 & T3 & Q3 & N3).
  assert (ready w3 cs3 ks i chunks3 cur3) as Rd3.
  { split; [destruct K2; lia|done|done|destruct L3 as [->| ->]; [done|cbn; lia]|by eapply same_compaction_trans|by rewrite Q3|done|by rewrite T3]. }
  assert (table_fits (cur3 ++ kept_from i)) as Hfit3.
  { destruct L3 as [->| ->]; [done|]. by apply table_fits_app in Hfit as [_ ?]. }
  destruct (key_step w3 cs3 ks i chunks3 cur3 e Rd3 He) as (c4 & Ed & S4 & T4). rewrite Ed. cbn [mbind option_bind].
  rewrite (kept_step i e He) in Hfit3. set (prev := if i is S j then es !! j else None) in *.
  destruct (si_next it i Hpos) as (it5 & En & Hpos5); [unfold table_entries; by rewrite length_fmap|].
  destruct (shadowed snapshot prev e || dead_tombstone snapshot (base_of c0) e).
  - cbn [mbind option_bind]. change (is_ok ok) with true. cbn [negb]. rewrite En. cbn [mbind option_bind].
    apply (IH it5 (S i) (set_compaction cs3 c4) (mkKeyState (Some (e_key e)) (e_sequence e)) w3 chunks3 cur3); [|done|lia|done].
    destruct Rd3. split; [done|by eapply progress_same; [..|eassumption]|done|lia|done|done|by rewrite He|done].
  - rewrite Ev. cbn [mbind option_bind].
    rewrite (cons_middle (ikey e, e_value e)), app_assoc in Hfit3. pose proof (table_fits_app _ _ Hfit3) as [Hfit4 Hfit5].
    assert (progress w3 (set_compaction cs3 c4) chunks3 cur3) as P4 by (eapply progress_same; [..|exact P3]; done).
    destruct (add_key_live Hopt w3 (set_compaction cs3 c4) chunks3 cur3 (ikey e) (e_value e)) as (cs5 & w5 & Ea); [apply Rd3|done|done|done|destruct Rd3; lia|].
    rewrite Ea. cbn [mbind option_bind]. change (is_ok ok) with true. cbn [negb]. rewrite En. cbn [mbind option_bind].
    destruct (add_key_safe w3 (set_compaction cs3 c4) chunks3 cur3 (ikey e) (e_value e) ok ok cs5 w5)
      as (chunks5 & cur5 & P5 & B5 & C5 & L5 & S5 & Q5 & N5); [apply Rd3|done|done|destruct Rd3; lia|done|done|].
    apply (IH it5 (S i) cs5 (mkKeyState (Some (e_key e)) (e_sequence e)) w5 chunks5 cur5); [|done|lia|].
    + destruct Rd3. split; [lia|done|done|destruct L5 as [->| ->]; [rewrite length_app; cbn; lia|cbn; lia]|by rewrite S5|by rewrite Q5|by rewrite He|by rewrite S5].
    + by destruct L5 as [->| ->].
Qed.
End LiveRun.

Lemma ready_start w : 0 <= next w -> same_compaction c0 c0 -> level_pointers_ c0 = replicate kNumLevels 0%nat ->
  ready w (CompactionState_new c0 snapshot) KeyState_new 0 [] [].
Proof using.
  intros H0 Hs Hp. split; [done| |done|done|done|done|done|].
  - split; [constructor|]. by split.
  - intros e _. cbn [compaction CompactionState_new]. rewrite Hp. split; [done|]. intros level pointer [-> _]%lookup_replicate. split; [lia|]. rewrite take_0. by apply Forall_nil.
Qed.

Lemma work_safe fuel it i w s cs' w' :
  0 <= next w -> level_pointers_ c0 = replicate kNumLevels 0%nat -> pos it i ->
  do_compaction_work env options input fuel it (CompactionState_new c0 snapshot) w = Some (s, cs', w') -> is_ok s = true ->
  exists chunks, Forall2 (written w') (outputs cs') chunks /\ StronglySorted Z.lt (o_number <$> outputs cs') /\
    concat chunks = table_entries (survivors snapshot (base_of c0) None es) /\ same_compaction c0 (compaction cs').
Proof using All.
  intros H0 Hp Hpos E Hs. unfold do_compaction_work in E. destruct (si_first it i Hpos) as (it0 & E0 & Hpos0). rewrite E0 in E.
  cbn [mbind option_bind] in E.
  destruct (compaction_loop env options input fuel it0 _ KeyState_new w) as [[[[s1 it1] cs1] w1]|] eqn:El; [|done].
  cbn [mbind option_bind] in E. destruct (is_ok s1) eqn:Es1.
  2:{ exfalso. cbv beta iota in E. rewrite Es1 in E. cbn [mbind option_bind] in E.
      destruct (builder cs1); cbv beta iota in E; rewrite Es1 in E; injection E as <- _ _; congruence. }
  destruct (loop_safe fuel it0 0 (CompactionState_new c0 snapshot) KeyState_new w [] [] s1 it1 cs1 w1) as [Hsh|H]; [by apply ready_start|done|done|done| |].
  { exfalso. pose proof (law_shutting_stays w1) as Hst. destruct (env_shutting_down env w1) as [sh w2]. cbn [fst] in Hsh. subst sh.
    change (is_ok (io_error _)) with false in E. cbn [mbind option_bind] in E.
    destruct (builder cs1); cbv beta iota in E; change (is_ok (io_error _)) with false in E; injection E as <- _ _; done. }
  destruct H as (chunks & cur & Hpos1 & P1 & B1 & C1 & S1 & Q1). cbn [concat app] in C1.
  change (drop 0 es) with es in C1. cbv iota in C1.
  pose proof (law_shutting w1) as K2. destruct (env_shutting_down env w1) as [sh w2] eqn:Esh. cbn [snd] in K2. cbv beta iota in E.
  destruct sh.
  { exfalso. change (is_ok (io_error _)) with false in E. cbn [mbind option_bind] in E.
    destruct (builder cs1); cbv beta iota in E; change (is_ok (io_error _)) with false in E; injection E as <- _ _; done. }
  cbv iota in E. rewrite Es1 in E. pose proof (progress_keeps _ _ _ _ _ K2 P1) as P2.
  destruct (builder cs1) as [b|] eqn:Eb.
  - destruct (finish_compaction_output_file env cs1 (it_status input it1) w2) as [[[s3 cs3] w3]|] eqn:Ef; [|done].
    cbn [mbind option_bind] in E. destruct (is_ok s3) eqn:Es3.
    + destruct (finish_output_safe w2 cs1 chunks cur b (it_status input it1) s3 cs3 w3 P2 Eb) as (P3 & B3 & C3 & _ & _); [by apply B1|done|done|].
      rewrite B3 in E. cbv beta iota in E. injection E as _ <- <-. destruct P3 as [N3 O3]. rewrite B3 in O3. destruct O3 as [_ HF].
      exists (chunks ++ [cur]). split_and!; [done|done| |by rewrite C3]. rewrite concat_app. cbn. by rewrite app_nil_r.
    + exfalso. destruct (builder cs3); cbv beta iota in E; injection E as <- _ _; congruence.
  - cbn [mbind option_bind] in E. rewrite Eb in E. cbv beta iota in E. injection E as _ <- <-. destruct P2 as [N2 O2]. rewrite Eb in O2.
    destruct O2 as [-> HF]. rewrite app_nil_r in C1. by exists chunks.
Qed.

Lemma work_live {Live : Healthy} fuel it i w :
  options_ok -> 0 <= next w -> level_pointers_ c0 = replicate kNumLevels 0%nat -> pos it i -> (length es < fuel)%nat ->
  table_fits (table_entries (survivors snapshot (base_of c0) None es)) ->
  exists cs' w', do_compaction_work env options input fuel it (CompactionState_new c0 snapshot) w = Some (ok, cs', w').
Proof using All.
  intros Hopt H0 Hp Hpos Hf Hfit. unfold do_compaction_work. destruct (si_first it i Hpos) as (it0 & -> & Hpos0). cbn [mbind option_bind].
  destruct (loop_live Hopt fuel it0 0 (CompactionState_new c0 snapshot) KeyState_new w [] []) as (it1 & cs1 & w1 & chunks & cur & -> & P1 & F1 & Hpos1);
    [by apply ready_start|done|lia|done|].
  cbn [mbind option_bind]. change (is_ok ok) with true. cbv iota.
  pose proof (law_shutting w1) as K2. pose proof (hl_shutting w1) as Hsh. destruct (env_shutting_down env w1) as [sh w2]. cbn [fst snd] in Hsh, K2. subst sh.
  cbv beta iota. change (is_ok ok) with true. rewrite (si_status it1 _ Hpos1).
  destruct (builder cs1) as [b|] eqn:Eb.
  - destruct (finish_output_live Hopt w2 cs1 chunks cur b (progress_keeps _ _ _ _ _ K2 P1) Eb F1) as (cs3 & w3 & ->). cbn [mbind option_bind].
    change (is_ok ok) with true. destruct (builder cs3); by eexists _, _.
  - cbn [mbind option_bind]. rewrite Eb. change (is_ok ok) with true. by eexists _, _.
Qed.
End Run.
End Outputs.


(** * Theorems *)


(** ** Examples

    A disk in memory that never fails. *)
Definition memory_env : Env (Z * gmap Z bytes) :=
  mkEnv _ (λ w, (false, w)) (λ w, (false, w)) (λ w, Some (ok, w)) (λ w _, w) (λ w, (w.1, (w.1 + 1, w.2)))
    (λ w _, (inr (wf_new []), w)) (λ w n f, (w.1, <[n := wf_disk f]> w.2)) (λ w, (ok, w)) (λ w _ _, (ok, w)).
#[global] Instance memory_env_laws : EnvLaws memory_env (λ w n, w.2 !! n) fst.
Proof.
  split; cbn; try (intros; split; [lia|done]); try done.
  - intros w s w' [= _ <-]. split; [lia|done].
  - intros w n w' [= <- <-]. cbn. split; [done|]. split; [done|]. split; cbn; [lia|done].
  - intros w n file w' [= <- _]. done.
  - intros [m d] n f Hn. cbn. split; [done|]. split; [intros _; apply lookup_insert_eq|]. intros k Hk. by rewrite lookup_insert_ne.
Qed.
#[global] Instance memory_env_healthy : Healthy memory_env.
Proof.
  split; cbn; [done|by eexists|by eexists| |done|done].
  intros file (w & n & w' & [= <- _]). done.
Qed.

Definition version_of (u : bytes) (n : Z) (t : ValueType) : Entry := MemTable.mkVersion n t u (if bool_decide (t = kValue) then u else []).
(** "a" twice, "e" deleted where a deeper level has it, "g" deleted for good. *)
Definition compacted : list Entry :=
  [version_of [x61] 9 kValue; version_of [x61] 8 kValue; version_of [x65] 7 kDeletion; version_of [x67] 6 kDeletion;
   version_of [x67] 5 kValue; version_of [x68] 30 kValue; version_of [x68] 4 kValue].
Definition small_options : TableBuilder.Options := TableBuilder.mkOptions 4096 16 Format.kNone None.

Lemma compacted_order : StronglySorted table_order compacted.
Proof.
  repeat first [apply SSorted_nil | apply SSorted_cons | apply Forall_nil; exact I | apply Forall_cons; split].
  all: first [left; vm_compute; reflexivity | right; split; [reflexivity|vm_compute; reflexivity]].
Qed.
Example compacted_survivors :
  survivors 20 (base_of (Compaction_new 1048576 1 straddled [])) None compacted =
  [version_of [x61] 9 kValue; version_of [x65] 7 kDeletion; version_of [x68] 30 kValue; version_of [x68] 4 kValue].
Proof. vm_compute. reflexivity. Qed.

Lemma compacted_fits : table_fits (table_entries (survivors 20 (base_of (Compaction_new 1048576 1 straddled [])) None compacted)).
Proof.
  rewrite compacted_survivors. split; [|split].
  - unfold sorted_by. cbn [table_entries fmap list_fmap fst].
    repeat first [apply SSorted_nil | apply SSorted_cons | apply Forall_nil; exact I | apply Forall_cons; split].
    all: vm_compute; reflexivity.
  - apply Forall_fmap, Forall_forall. intros e _. apply ikey_readable.
  - vm_compute. reflexivity.
Qed.


End CompactionWork.
