(* ===== verification/CompactionInstall.v ===== *)
(** Installing a compaction ([DBImpl::install_compaction_results] of
    src/src/db_impl.cpp): the version with the inputs removed and the outputs
    added is well formed, and reads the same at every snapshot the compaction
    knew of. *)
From stdpp Require Import gmap.
From S2P Require Import Prelude Status File Encoding DbFormat Comparator Iterator TableBuilder VersionEdit.
From S2P Require Import MemTable Version VersionGet VersionBuilder Compaction CompactionWork.
Import Status Encoding DbFormat Comparator Iterator VersionEdit Version VersionGet VersionBuilder Compaction CompactionWork.
Local Open Scope Z_scope.

Module CompactionInstall.

(** * The edit *)
Lemma elem_of_set_insert x y l : y ∈ set_insert x l <-> y = x \/ y ∈ l.
Proof.
  induction l as [|z l IH]; cbn [set_insert]; [by rewrite list_elem_of_singleton; set_solver|].
  destruct (pair_compare x z) eqn:E.
  - apply pair_compare_eq in E. subst. set_solver.
  - set_solver.
  - rewrite !elem_of_cons, IH. naive_solver.
Qed.

Lemma removed_files level files edit :
  let edit' := fold_left (λ edit (file : FilePtr), remove_file edit level (number file)) files edit in
  new_files_ edit' = new_files_ edit /\
  forall d, d ∈ deleted_files_ edit' <-> d ∈ deleted_files_ edit \/ exists f : FilePtr, f ∈ files /\ d = (level, number f).
Proof.
  revert edit. induction files as [|f files IH]; intros edit; cbn [fold_left].
  - split; [done|]. intros d. split; [by left|]. intros [|(f & Hf & _)]; [done|by apply elem_of_nil in Hf].
  - destruct (IH (remove_file edit level (number f))) as [H1 H2]. split; [exact H1|]. intros d. rewrite H2.
    cbn [deleted_files_ remove_file]. rewrite elem_of_set_insert. split.
    + intros [[->|]|(g & Hg & ->)]; [right; exists f; split; [left|done]|by left|right; exists g; split; [by right|done]].
    + intros [|(g & [->|Hg]%elem_of_cons & ->)]; [left; by right|by left; left|right; by exists g].
Qed.
Lemma added_outputs level os edit :
  let edit' := fold_left (λ edit o, add_file edit level (o_number o) (o_file_size o) (o_smallest o) (o_largest o)) os edit in
  deleted_files_ edit' = deleted_files_ edit /\
  new_files_ edit' = new_files_ edit ++
    ((λ o, (level, mkFile (o_number o) (o_file_size o) (o_smallest o) (o_largest o) default_allowed_seeks 0)) <$> os).
Proof.
  revert edit. induction os as [|o os IH]; intros edit; cbn [fold_left fmap list_fmap]; [by rewrite app_nil_r|].
  destruct (IH (add_file edit level (o_number o) (o_file_size o) (o_smallest o) (o_largest o))) as [H1 H2].
  split; [exact H1|]. rewrite H2. cbn [new_files_ add_file]. by rewrite <- app_assoc.
Qed.

Section Edit.
Context (v : Version) (cs : CompactionState).
Abbreviation c := (compaction cs).
Context (Hedit : new_files_ (edit_ c) = [] /\ deleted_files_ (edit_ c) = []).

Lemma edit_deleted d :
  d ∈ deleted_files_ (compaction_edit cs) <->
  (exists f : FilePtr, f ∈ inputs_0 c /\ d = (Z.of_nat (level_ c), number f)) \/
  (exists f : FilePtr, f ∈ inputs_1 c /\ d = (Z.of_nat (level_ c + 1), number f)).
Proof using Hedit.
  destruct Hedit as [_ Ed]. unfold compaction_edit. destruct (added_outputs (Z.of_nat (level_ c) + 1) (outputs cs) (add_input_deletions c (edit_ c))) as [-> _].
  unfold add_input_deletions. destruct (removed_files (Z.of_nat (level_ c)) (inputs_0 c) (edit_ c)) as [_ H0].
  destruct (removed_files (Z.of_nat (level_ c + 1)) (inputs_1 c)
    (fold_left (λ edit (file : FilePtr), remove_file edit (Z.of_nat (level_ c)) (number file)) (inputs_0 c) (edit_ c))) as [_ H1].
  rewrite H1, H0, Ed. rewrite elem_of_nil. naive_solver.
Qed.
Lemma edit_new :
  new_files_ (compaction_edit cs) =
  (λ o, (Z.of_nat (level_ c + 1), mkFile (o_number o) (o_file_size o) (o_smallest o) (o_largest o) default_allowed_seeks 0)) <$> outputs cs.
Proof using Hedit.
  destruct Hedit as [En _]. unfold compaction_edit. destruct (added_outputs (Z.of_nat (level_ c) + 1) (outputs cs) (add_input_deletions c (edit_ c))) as [_ ->].
  unfold add_input_deletions. destruct (removed_files (Z.of_nat (level_ c)) (inputs_0 c) (edit_ c)) as [H0 _].
  destruct (removed_files (Z.of_nat (level_ c + 1)) (inputs_1 c)
    (fold_left (λ edit (file : FilePtr), remove_file edit (Z.of_nat (level_ c)) (number file)) (inputs_0 c) (edit_ c))) as [H1 _].
  rewrite H1, H0, En. cbn [app]. by rewrite Nat2Z.inj_add.
Qed.
End Edit.

(** ** Lookups in the files an edit leaves *)
Lemma delete_all_lookup (ds : list (Z * Z)) (M : Files) k m :
  fold_left (λ M d, delete d M) ds M !! k = Some m <-> M !! k = Some m /\ k ∉ ds.
Proof.
  revert M. induction ds as [|d ds IH]; intros M; cbn [fold_left]; [set_solver|]. rewrite IH, lookup_delete_Some. set_solver.
Qed.
Lemma add_all_lookup (ns : list (Z * FileMetaData)) (M : Files) k m :
  NoDup ((λ n : Z * FileMetaData, (fst n, number (snd n))) <$> ns) ->
  (forall n, n ∈ ns -> M !! (fst n, number (snd n)) = None) ->
  fold_left spec_add ns M !! k = Some m <->
  M !! k = Some m \/ exists n, n ∈ ns /\ k = (fst n, number (snd n)) /\ m = core (snd n).
Proof.
  revert M. induction ns as [|n ns IH]; intros M Hnd Hfr; cbn [fold_left].
  { split; [by left|]. intros [|(n & Hn & _)]; [done|by apply elem_of_nil in Hn]. }
  cbn [fmap list_fmap] in Hnd. apply NoDup_cons in Hnd as [Hn Hnd]. rewrite IH; [|done|].
  - unfold spec_add. rewrite lookup_insert_Some. split.
    + intros [[[<- <-]|[Hne H]]|(x & Hx & -> & ->)]; [right; exists n; split; [left|done]|by left|right; exists x; split; [by right|done]].
    + intros [H|(x & [->|Hx]%elem_of_cons & -> & ->)]; [|by left; left|by right; exists x].
      left. right. split; [|done]. intros E. specialize (Hfr n ltac:(left)). rewrite E in Hfr. congruence.
  - intros x Hx. unfold spec_add. rewrite lookup_insert_ne; [apply Hfr; by right|]. intros E. apply Hn. rewrite E.
    apply list_elem_of_fmap. by exists x.
Qed.

(** ** Sorted lists cut into pieces *)
Lemma sorted_concat {A} (R : A -> A -> Prop) (ls : list (list A)) :
  StronglySorted R (concat ls) ->
  (forall l, l ∈ ls -> StronglySorted R l) /\
  forall i j a b x y, (i < j)%nat -> ls !! i = Some a -> ls !! j = Some b -> x ∈ a -> y ∈ b -> R x y.
Proof.
  induction ls as [|l ls IH]; intros Hs; cbn [concat] in Hs.
  { split; [intros l Hl; by apply elem_of_nil in Hl|intros i j a b x y _ Hi; done]. }
  apply StronglySorted_app in Hs as (Hx & Hl & Hls). destruct (IH Hls) as [H1 H2]. split.
  - intros k [->|Hk]%elem_of_cons; [done|by apply H1].
  - intros i j a b x y Hij Hi Hj Ha Hb. destruct j as [|j]; [lia|]. destruct i as [|i]; [|by apply (H2 i j a b); [lia|..]].
    injection Hi as ->. apply Hx; [done|]. apply list_elem_of_In, in_concat. exists b. split; apply list_elem_of_In; [by eapply list_elem_of_lookup_2|done].
Qed.
Lemma elem_of_concat {A} (x : A) ls : x ∈ concat ls <-> exists l, l ∈ ls /\ x ∈ l.
Proof. rewrite list_elem_of_In, in_concat. split; intros (l & H1 & H2); exists l; rewrite !list_elem_of_In in *; done. Qed.
Lemma survivors_sorted snapshot base prev l : StronglySorted table_order l -> StronglySorted table_order (survivors snapshot base prev l).
Proof.
  intros Hs. revert prev. induction Hs as [|e l Hs IH HF]; intros prev; cbn [survivors]; [constructor|].
  destruct (_ || _); [apply IH|]. constructor; [apply IH|]. rewrite Forall_forall in *. intros x Hx. apply HF. by eapply survivors_sub.
Qed.
Lemma table_order_key_lt a b : seq_ok (e_sequence a) -> seq_ok (e_sequence b) -> table_order a b -> key_lt icmp (ikey a) (ikey b).
Proof.
  intros Ha Hb H. unfold key_lt. cbn [compare internal_key_comparator kInternal]. unfold ikey. rewrite compare_make by done.
  destruct H as [->|[-> H]]; [done|]. rewrite sv_compare_refl. destruct (Z.compare_spec (e_sequence b) (e_sequence a)); lia || done.
Qed.

(** * The version before and after *)

(** A file is what its number, size and bounds say. *)
Definition twin (f g : FilePtr) : Prop := number f = number g /\ core f = core g.
Lemma twin_fields f g : twin f g -> number f = number g /\ file_size f = file_size g /\ smallest f = smallest g /\ largest f = largest g.
Proof. intros [H1 H2]. unfold core in H2. by injection H2 as -> -> ->. Qed.

(** An output holds its part of the entries. *)
Record output_holds (contents : Z -> Z -> option (list Entry)) (o : Output) (es : list Entry) : Prop := {
  oh_contents : contents (o_number o) (o_file_size o) = Some es;
  oh_smallest : head (ikey <$> es) = Some (o_smallest o);
  oh_largest : last (ikey <$> es) = Some (o_largest o)
}.
(** No two entries are versions of one key with one sequence number. *)
Definition distinct_versions (P : Entry -> Prop) : Prop :=
  forall a b, P a -> P b -> e_key a = e_key b -> e_sequence a = e_sequence b -> a = b.

Record compacted_from (contents contents' : Z -> Z -> option (list Entry)) (v v' : Version) (cs : CompactionState)
    (es : list Entry) (ess : list (list Entry)) (M : Files) : Prop := {
  cf_wf : wf_version contents v;
  cf_files : has_files v M;
  cf_order : in_order v;
  cf_safe : safe_inputs v (level_ (compaction cs)) (inputs_0 (compaction cs)) (inputs_1 (compaction cs));
  cf_level : (level_ (compaction cs) + 1 < kNumLevels)%nat;
  cf_version : input_version_ (compaction cs) = v;
  cf_edit : new_files_ (edit_ (compaction cs)) = [] /\ deleted_files_ (edit_ (compaction cs)) = [];
  cf_distinct : distinct_versions (in_version contents v);
  (* the inputs' entries, in order, and what was written of them *)
  cf_sorted : StronglySorted table_order es;
  cf_inputs e : e ∈ es <-> in_files contents (inputs_0 (compaction cs) ++ inputs_1 (compaction cs)) e;
  cf_kept : concat ess = survivors (smallest_snapshot cs) (base_of (compaction cs)) None es;
  cf_outputs : Forall2 (output_holds contents') (outputs cs) ess;
  cf_numbers : NoDup (o_number <$> outputs cs);
  cf_fresh level (f : FilePtr) o : f ∈ level_files v level -> o ∈ outputs cs -> number f <> o_number o;
  cf_old level (f : FilePtr) : f ∈ level_files v level -> contents' (number f) (file_size f) = contents (number f) (file_size f);
  (* the new version has the files the edit leaves *)
  cf_files' : has_files v' (spec_edit M (compaction_edit cs));
  cf_order' : in_order v'
}.

Arguments cf_wf {_ _ _ _ _ _ _ _}.
Arguments cf_files {_ _ _ _ _ _ _ _}.
Arguments cf_order {_ _ _ _ _ _ _ _}.
Arguments cf_safe {_ _ _ _ _ _ _ _}.
Arguments cf_level {_ _ _ _ _ _ _ _}.
Arguments cf_version {_ _ _ _ _ _ _ _}.
Arguments cf_edit {_ _ _ _ _ _ _ _}.
Arguments cf_distinct {_ _ _ _ _ _ _ _}.
Arguments cf_inputs {_ _ _ _ _ _ _ _}.
Arguments cf_kept {_ _ _ _ _ _ _ _}.
Arguments cf_outputs {_ _ _ _ _ _ _ _}.
Arguments cf_numbers {_ _ _ _ _ _ _ _}.
Arguments cf_fresh {_ _ _ _ _ _ _ _}.
Arguments cf_old {_ _ _ _ _ _ _ _}.
Arguments cf_files' {_ _ _ _ _ _ _ _}.
Arguments cf_order' {_ _ _ _ _ _ _ _}.

Section Install.
Context {contents contents' : Z -> Z -> option (list Entry)} {v v' : Version} {cs : CompactionState}
  {es : list Entry} {ess : list (list Entry)} {M : Files}.
Context (C : compacted_from contents contents' v v' cs es ess M).
Abbreviation L := (level_ (compaction cs)).
Abbreviation in0 := (inputs_0 (compaction cs)).
Abbreviation in1 := (inputs_1 (compaction cs)).
Abbreviation kept := (survivors (smallest_snapshot cs) (base_of (compaction cs)) None es).

(** A file of the version that is not an input. *)
Definition stays (level : nat) (f : FilePtr) : Prop :=
  f ∈ level_files v level /\ (level = L -> f ∉ in0) /\ (level = (L + 1)%nat -> f ∉ in1).
Definition rest (e : Entry) : Prop := exists level f, stays level f /\ entry_of contents f e.

Lemma stays_deleted level (f : FilePtr) :
  f ∈ level_files v level -> stays level f <-> (Z.of_nat level, number f) ∉ deleted_files_ (compaction_edit cs).
Proof using C.
  intros Hf. destruct (cf_safe C) as [_ (Hs0 & _) (Hs1 & _)].
  destruct (cf_order C level) as (_ & _ & Hu). rewrite (edit_deleted cs (cf_edit C)). split.
  - intros (_ & H0 & H1) [(g & Hg & E)|(g & Hg & E)]; injection E as El En; apply Nat2Z.inj in El; subst level.
    + apply H0; [done|]. by rewrite (Hu f g Hf (Hs0 g Hg) En).
    + apply H1; [done|]. by rewrite (Hu f g Hf (Hs1 g Hg) En).
  - intros Hn. split; [done|]. split; intros -> Hin; apply Hn; [left|right]; by exists f.
Qed.

(** The files of the new version. *)
Lemma new_version_lookup level n m :
  spec_edit M (compaction_edit cs) !! (Z.of_nat level, n) = Some m <->
  (exists f, stays level f /\ number f = n /\ core f = m) \/
  (level = (L + 1)%nat /\ exists o, o ∈ outputs cs /\ n = o_number o /\ m = (o_file_size o, o_smallest o, o_largest o)).
Proof using C.
  pose proof (cf_files C) as (_ & _ & HM). unfold spec_edit. rewrite (edit_new cs (cf_edit C)).
  assert (forall k, fold_left (λ M d, delete d M) (deleted_files_ (compaction_edit cs)) M !! k = None <->
    ~ exists m, M !! k = Some m /\ k ∉ deleted_files_ (compaction_edit cs)) as Hnone.
  { intros k. rewrite eq_None_not_Some. f_equiv. split; [intros [x Hx]; exists x; by apply delete_all_lookup|intros [x Hx]; exists x; by apply delete_all_lookup]. }
  rewrite add_all_lookup.
  - rewrite delete_all_lookup. split.
    + intros [[Hm Hd]|(x & (o & -> & Ho)%list_elem_of_fmap & E & ->)].
      * left. apply HM in Hm as (f & Hf & <- & <-). exists f. split; [|done]. by apply stays_deleted.
      * right. cbn in E. injection E as El ->. apply Nat2Z.inj in El. subst level. split; [done|]. by exists o.
    + intros [(f & Hst & <- & <-)|(-> & o & Ho & -> & ->)].
      * left. pose proof Hst as [Hf _]. split; [apply HM; by exists f|by apply stays_deleted].
      * right. eexists. split; [apply list_elem_of_fmap; by exists o|]. done.
  - rewrite <- list_fmap_compose. apply (NoDup_fmap_1 (λ p : Z * Z, p.2)). rewrite <- list_fmap_compose. exact (cf_numbers C).
  - intros x (o & -> & Ho)%list_elem_of_fmap. apply Hnone. intros (m' & Hm & _). cbn in Hm. apply HM in Hm as (f & Hf & En & _).
    by apply (cf_fresh C (L + 1) f o).
Qed.
Lemma new_version_elem level (f : FilePtr) :
  f ∈ level_files v' level ->
  (exists f0, stays level f0 /\ twin f f0) \/
  (level = (L + 1)%nat /\ exists o es, o ∈ outputs cs /\ output_holds contents' o es /\ es ∈ ess /\
     number f = o_number o /\ core f = (o_file_size o, o_smallest o, o_largest o)).
Proof using C.
  intros Hf. pose proof (cf_files' C) as (_ & _ & HM').
  assert (spec_edit M (compaction_edit cs) !! (Z.of_nat level, number f) = Some (core f)) as Hl by (apply HM'; by exists f).
  apply new_version_lookup in Hl as [(f0 & Hst & En & Ec)|(-> & o & Ho & En & Ec)].
  - left. exists f0. split; [done|]. split; congruence.
  - right. split; [done|]. pose proof (cf_outputs C) as HF. apply list_elem_of_lookup in Ho as [i Hi].
    destruct (Forall2_lookup_l _ _ _ i o HF Hi) as (ch & Hch & Hoh). exists o, ch. split_and!; try done; by eapply list_elem_of_lookup_2.
Qed.

Lemma twin_holds level (f f0 : FilePtr) l :
  stays level f0 -> twin f f0 -> holds_entries contents' f l <-> holds_entries contents f0 l.
Proof using C.
  intros [Hf _] Ht. destruct (twin_fields f f0 Ht) as (E1 & E2 & E3 & E4). pose proof (cf_old C level f0 Hf) as Eo.
  split; intros [H1 H2 H3 H4 H5]; split; try done; rewrite ?E1, ?E2, ?E3, ?E4, ?Eo in *; congruence.
Qed.

(** ** The entries of the inputs *)
Lemma input_entry e : e ∈ es -> (exists f : FilePtr, f ∈ in0 /\ entry_of contents f e) \/ (exists f : FilePtr, f ∈ in1 /\ entry_of contents f e).
Proof using C. intros (f & Hf & He)%(cf_inputs C). apply elem_of_app in Hf as [Hf|Hf]; [left|right]; by exists f. Qed.
Lemma input_level e : e ∈ es -> exists level (f : FilePtr), (level = L \/ level = (L + 1)%nat) /\ f ∈ level_files v level /\ entry_of contents f e.
Proof using C.
  destruct (cf_safe C) as [_ (Hs0 & _) (Hs1 & _)].
  intros [(f & Hf & He)|(f & Hf & He)]%input_entry; [exists L|exists (L + 1)%nat]; exists f; split_and!; auto.
Qed.
Lemma input_ok e : e ∈ es -> seq_ok (e_sequence e).
Proof using C. intros (_ & f & _ & _ & l & Hl & He)%input_level. by eapply entry_ok. Qed.

(** *** What stays is newer, or deeper and known *)
Lemma entry_users (f : FilePtr) e : entry_of contents f e -> sv_compare (ulo f) (e_key e) <> Gt /\ sv_compare (e_key e) (uhi f) <> Gt.
Proof using.
  intros (l & Hl & He). destruct (entry_bounds contents f l e Hl He) as [H1%internal_le_user H2%internal_le_user].
  unfold ikey in *. rewrite extract_user_key_make in H1, H2. done.
Qed.
Lemma users_apart (f g : FilePtr) a b :
  entry_of contents f a -> entry_of contents g b -> sv_compare (uhi f) (ulo g) = Lt -> e_key a <> e_key b.
Proof using.
  intros [_ Ha]%entry_users [Hb _]%entry_users Hlt E. rewrite E in Ha.
  pose proof (sv_le_lt_trans _ _ _ Ha Hlt) as H. apply Hb. by rewrite sv_compare_gt.
Qed.
Lemma before_newer (f g : FilePtr) a b :
  entry_of contents f a -> entry_of contents g b -> in_version contents v a -> in_version contents v b ->
  key_lt icmp (largest f) (smallest g) -> e_key a = e_key b -> e_sequence b < e_sequence a.
Proof using C.
  intros (la & Hla & Ha) (lb & Hlb & Hb) Va Vb Hlt Ek. pose proof (entries_apart contents f g la lb a b Hla Hlb Hlt Ha Hb) as Hab.
  pose proof (ikey_order a b (entry_ok _ f la a Hla Ha) (entry_ok _ g lb b Hlb Hb) Ek Hab) as Hle.
  destruct (decide (e_sequence a = e_sequence b)) as [E|]; [|lia]. rewrite (cf_distinct C a b Va Vb Ek E) in Hab.
  by apply key_lt_irrefl in Hab.
Qed.

Lemma stays_newer level (g : FilePtr) d e :
  stays level g -> entry_of contents g e -> d ∈ es -> e_key e = e_key d -> (level <= L + 1)%nat -> e_sequence d < e_sequence e.
Proof using C.
  intros (Hg & H0 & H1) Hge Hd Ek Hl. pose proof (cf_wf C) as Wf.
  assert (in_version contents v e) as Ve by (by exists level, g).
  destruct (input_level d Hd) as (ld & fd & Hld & Hfd & Hfde). assert (in_version contents v d) as Vd by (by exists ld, fd).
  destruct (cf_safe C) as [_ (Hs0 & Hcut & _) (Hs1 & Hlow)].
  destruct (decide (level < L)%nat) as [Hlt|Hge'].
  { apply (wv_newer contents v Wf level ld ltac:(lia) g fd e d); done. }
  assert (level = L \/ level = (L + 1)%nat) as [->| ->] by lia.
  - destruct (input_entry d Hd) as [(f & Hf & Hfe)|(f & Hf & Hfe)].
    + destruct (Hcut f g Hf Hg (H0 eq_refl)) as [Hlt|Hlt].
      * by apply (before_newer g f e d).
      * exfalso. apply (users_apart f g d e Hfe Hge Hlt). done.
    + apply (wv_newer contents v Wf L (L + 1)%nat ltac:(lia) g f e d); [done|by apply Hs1|done|done|done].
  - destruct (Hlow g Hg (H1 eq_refl)) as [[Hb0 Hb1]|Ha]; destruct (input_entry d Hd) as [(f & Hf & Hfe)|(f & Hf & Hfe)].
    + exfalso. by apply (users_apart g f e d Hge Hfe (Hb0 f Hf)).
    + by apply (before_newer g f e d Hge Hfe Ve Vd (Hb1 f Hf)).
    + exfalso. apply (users_apart f g d e Hfe Hge); [apply Ha; set_solver +Hf|done].
    + exfalso. apply (users_apart f g d e Hfe Hge); [apply Ha; set_solver +Hf|done].
Qed.
Lemma stays_deeper level (g : FilePtr) d e :
  stays level g -> entry_of contents g e -> d ∈ es -> e_key e = e_key d -> (L + 1 < level)%nat ->
  base_of (compaction cs) (e_key d) = false /\ e_sequence e < e_sequence d.
Proof using C.
  intros (Hg & _ & _) Hge Hd Ek Hl. pose proof (cf_wf C) as Wf. split.
  - unfold base_of. apply negb_false_iff, existsb_exists. exists level. split.
    + apply in_seq. pose proof (cf_level C). split; [lia|].
      assert (level < kNumLevels)%nat; [|lia]. rewrite <- (wv_levels contents v Wf). unfold level_files in Hg.
      destruct (files_ v !! level) eqn:E; [by apply lookup_lt_Some in E|by apply elem_of_nil in Hg].
    + apply existsb_exists. exists g. split; [rewrite (cf_version C); by apply list_elem_of_In|].
      apply covers_true. rewrite <- Ek. by apply entry_users.
  - destruct (input_level d Hd) as (ld & fd & Hld & Hfd & Hfde). apply (wv_newer contents v Wf ld level ltac:(lia) fd g d e); done.
Qed.

(** ** The outputs are tables *)
Lemma kept_input e : e ∈ kept -> e ∈ es.
Proof using. apply survivors_sub. Qed.
Lemma kept_sorted : StronglySorted table_order kept.
Proof using C. apply survivors_sorted, C. Qed.
Lemma chunk_kept ch e : ch ∈ ess -> e ∈ ch -> e ∈ kept.
Proof using C. intros Hc He. rewrite <- (cf_kept C). apply elem_of_concat. by exists ch. Qed.
Lemma output_file (f : FilePtr) o ch :
  output_holds contents' o ch -> ch ∈ ess -> number f = o_number o -> core f = (o_file_size o, o_smallest o, o_largest o) ->
  holds_entries contents' f ch.
Proof using C.
  intros [H1 H2 H3] Hc En Ec. unfold core in Ec. injection Ec as Es Esm Ela.
  assert (Forall (λ e, seq_ok (e_sequence e)) ch) as Hok by (apply Forall_forall; intros e He; by apply input_ok, kept_input, (chunk_kept ch)).
  split; [by rewrite En, Es|done| |by rewrite Esm|by rewrite Ela].
  pose proof kept_sorted as Hs. rewrite <- (cf_kept C) in Hs. apply sorted_concat in Hs as [Hs _]. specialize (Hs ch Hc).
  unfold sorted_by, table_entries. rewrite <- list_fmap_compose. clear -Hs Hok.
  induction Hs as [|e l Hs IH HF]; [constructor|]. apply Forall_cons in Hok as [He Hok]. cbn. constructor; [by apply IH|].
  apply Forall_fmap. rewrite Forall_forall in *. intros x Hx. cbn. apply table_order_key_lt; [done|by apply Hok|by apply HF].
Qed.

(** ** The entries of the two versions *)
Lemma before_entries e : in_version contents v e <-> e ∈ es \/ rest e.
Proof using C.
  destruct (cf_safe C) as [_ (Hs0 & _) (Hs1 & _)]. split.
  - intros (level & f & Hf & He). destruct (decide (level = L /\ f ∈ in0)) as [[-> Hi]|H0].
    { left. apply (cf_inputs C). exists f. split; [set_solver +Hi|done]. }
    destruct (decide (level = (L + 1)%nat /\ f ∈ in1)) as [[-> Hi]|H1].
    { left. apply (cf_inputs C). exists f. split; [set_solver +Hi|done]. }
    right. exists level, f. split; [|done]. split; [done|]. split; intros -> Hi; [by apply H0|by apply H1].
  - intros [(level & f & _ & Hf & He)%input_level|(level & f & [Hf _] & He)]; by exists level, f.
Qed.
Lemma after_entries e : in_version contents' v' e <-> e ∈ kept \/ rest e.
Proof using C.
  split.
  - intros (level & f & Hf & l & Hl & He). destruct (new_version_elem level f Hf) as [(f0 & Hst & Ht)|(-> & o & ch & Ho & Hoh & Hch & En & Ec)].
    + right. exists level, f0. split; [done|]. exists l. split; [by eapply twin_holds|done].
    + left. pose proof (he_contents _ _ _ Hl) as El. pose proof (he_contents _ _ _ (output_file f o ch Hoh Hch En Ec)) as Ech.
      assert (l = ch) as -> by congruence. by eapply chunk_kept.
  - pose proof (cf_files' C) as (_ & _ & HM'). intros [He|(level & f0 & Hst & l & Hl & He)].
    + rewrite <- (cf_kept C) in He. apply elem_of_concat in He as (ch & Hch & He).
      pose proof Hch as [i Hi]%list_elem_of_lookup. destruct (Forall2_lookup_r _ _ _ i ch (cf_outputs C) Hi) as (o & Ho & Hoh).
      assert (spec_edit M (compaction_edit cs) !! (Z.of_nat (L + 1), o_number o) = Some (o_file_size o, o_smallest o, o_largest o)) as Hm.
      { apply new_version_lookup. right. split; [done|]. exists o. split; [by eapply list_elem_of_lookup_2|done]. }
      apply HM' in Hm as (f & Hf & En & Ec). exists (L + 1)%nat, f. split; [done|]. exists ch. split; [by apply (output_file f o ch)|done].
    + assert (spec_edit M (compaction_edit cs) !! (Z.of_nat level, number f0) = Some (core f0)) as Hm by (apply new_version_lookup; left; by exists f0).
      apply HM' in Hm as (f & Hf & En & Ec). exists level, f. split; [done|]. exists l. split; [by eapply (twin_holds level f f0)|done].
Qed.

Lemma installed_reads u s r :
  smallest_snapshot cs <= s -> reads (in_version contents v) u s r <-> reads (in_version contents' v') u s r.
Proof using C.
  intros Hs.
  assert (forall P Q : Entry -> Prop, (forall e, P e <-> Q e) -> reads P u s r <-> reads Q u s r) as Hext.
  { intros P Q HPQ. unfold reads, nothing_in, newest_of. setoid_rewrite HPQ. done. }
  rewrite (Hext _ _ before_entries), (Hext _ _ after_entries). apply survivors_read; [apply C|done|].
  intros d e Hd (level & g & Hst & Hge) Ek. destruct (decide (level <= L + 1)%nat) as [Hl|Hl].
  - left. by apply (stays_newer level g).
  - right. apply (stays_deeper level g d e); [done..|lia].
Qed.

(** ** The new version is well formed *)
Lemma new_holds level (f : FilePtr) : f ∈ level_files v' level -> exists l, holds_entries contents' f l.
Proof using C.
  intros [(f0 & Hst & Ht)|(-> & o & ch & Ho & Hoh & Hch & En & Ec)]%new_version_elem.
  - pose proof Hst as [Hf0 _]. destruct (wv_entries contents v (cf_wf C) level f0 Hf0) as [l Hl]. exists l. by eapply twin_holds.
  - exists ch. by apply (output_file f o ch).
Qed.
(** An entry of a file of the new version. *)
Lemma new_entry level (f : FilePtr) e :
  f ∈ level_files v' level -> entry_of contents' f e ->
  (exists f0, stays level f0 /\ twin f f0 /\ entry_of contents f0 e) \/ (level = (L + 1)%nat /\ e ∈ es).
Proof using C.
  intros Hf (l & Hl & He). destruct (new_version_elem level f Hf) as [(f0 & Hst & Ht)|(-> & o & ch & Ho & Hoh & Hch & En & Ec)].
  - left. exists f0. split_and!; [done..|]. exists l. split; [by eapply twin_holds|done].
  - right. split; [done|]. assert (l = ch) as ->.
    { pose proof (he_contents _ _ _ Hl) as El. pose proof (he_contents _ _ _ (output_file f o ch Hoh Hch En Ec)). congruence. }
    by apply kept_input, (chunk_kept ch).
Qed.

Lemma new_newer i j : (i < j)%nat -> newer_files contents' (level_files v' i) (level_files v' j).
Proof using C.
  intros Hij f g a b Hf Hg Ha Hb Ek. pose proof (cf_wf C) as Wf.
  destruct (new_entry i f a Hf Ha) as [(f0 & Sf & _ & Af)|(-> & Da)]; destruct (new_entry j g b Hg Hb) as [(g0 & Sg & _ & Bg)|(-> & Db)].
  - pose proof Sf as [Hf0 _]. pose proof Sg as [Hg0 _]. by apply (wv_newer contents v Wf i j Hij f0 g0).
  - apply (stays_newer i f0); [done..|lia].
  - apply (stays_deeper j g0 a b); [done|done|done|done|lia].
  - lia.
Qed.

(** Beside the inputs: a file that stays in the output level. *)
Lemma stays_beside (g : FilePtr) :
  stays (L + 1) g -> (forall d, d ∈ es -> key_lt icmp (largest g) (ikey d)) \/ (forall d, d ∈ es -> key_lt icmp (ikey d) (smallest g)).
Proof using C.
  intros (Hg & _ & H1). destruct (cf_safe C) as [_ _ (_ & Hlow)].
  assert (forall f d, entry_of contents f d -> key_le icmp (smallest f) (ikey d) /\ key_le icmp (ikey d) (largest f)) as Hin.
  { intros f d (l & Hl & Hd). by eapply entry_bounds. }
  destruct (Hlow g Hg (H1 eq_refl)) as [[Hb0 Hb1]|Ha]; [left|right]; intros d Hd; destruct (input_entry d Hd) as [(f & Hf & Hfe)|(f & Hf & Hfe)];
    destruct (Hin f d Hfe) as [Hlo Hhi].
  - eapply icmp_lt_le_trans; [|exact Hlo]. apply user_lt_internal, Hb0, Hf.
  - eapply icmp_lt_le_trans; [|exact Hlo]. apply Hb1, Hf.
  - eapply icmp_le_lt_trans; [exact Hhi|]. apply user_lt_internal, Ha. set_solver +Hf.
  - eapply icmp_le_lt_trans; [exact Hhi|]. apply user_lt_internal, Ha. set_solver +Hf.
Qed.
Lemma output_ends (f : FilePtr) o ch :
  output_holds contents' o ch -> ch ∈ ess -> core f = (o_file_size o, o_smallest o, o_largest o) ->
  exists a b, a ∈ ch /\ b ∈ ch /\ smallest f = ikey a /\ largest f = ikey b.
Proof using.
  intros [_ Hs Hl] _ Ec. unfold core in Ec. injection Ec as _ -> ->. rewrite fmap_last in Hl. destruct ch as [|a ch]; [done|]. injection Hs as <-.
  destruct (last (a :: ch)) as [b|] eqn:E; [|done]. injection Hl as <-. exists a, b. split_and!; [left|by apply last_Some_elem_of|done..].
Qed.

Lemma new_disjoint level :
  (0 < level)%nat -> StronglySorted (λ a b : FilePtr, key_lt icmp (largest a) (smallest b)) (level_files v' level).
Proof using C.
  intros Hl. destruct (cf_order' C level) as (Ho & _ & Hu). pose proof (cf_wf C) as Wf.
  assert (disjoint_level (level_files v level)) as D.
  { split; [by apply (wv_disjoint contents v Wf)|]. apply Forall_forall. intros f Hf. destruct (wv_entries contents v Wf level f Hf) as [l Hh]. by eapply holds_keys. }
  apply ordered_disjoint; [done| |].
  { apply Forall_forall. intros f Hf. destruct (new_holds level f Hf) as [l Hh]. by eapply holds_keys. }
  assert (forall f g f0 : FilePtr, stays level f0 -> twin f f0 -> level = (L + 1)%nat -> forall o ch, output_holds contents' o ch -> ch ∈ ess ->
    core g = (o_file_size o, o_smallest o, o_largest o) ->
    key_lt icmp (largest f) (smallest g) \/ key_lt icmp (largest g) (smallest f)) as Hmix.
  { intros f g f0 Sf Tf -> o ch Hoh Hch Ec. destruct (twin_fields f f0 Tf) as (_ & _ & -> & ->).
    destruct (output_ends g o ch Hoh Hch Ec) as (a & b & Ha & Hb & -> & ->).
    destruct (stays_beside f0 Sf) as [H|H]; [left|right]; apply H, kept_input; by eapply chunk_kept. }
  intros f g Hf Hg Hne.
  destruct (new_version_elem level f Hf) as [(f0 & Sf & Tf)|(El & o & ch & Hoin & Hoh & Hch & En & Ec)];
    destruct (new_version_elem level g Hg) as [(g0 & Sg & Tg)|(El' & o' & ch' & Hoin' & Hoh' & Hch' & En' & Ec')].
  - destruct (twin_fields f f0 Tf) as (Nf & _ & Esf & Elf), (twin_fields g g0 Tg) as (Ng & _ & Esg & Elg). rewrite Esf, Elf, Esg, Elg.
    apply (disjoint_order (level_files v level)); [done|apply Sf|apply Sg|]. intros ->. apply Hne, Hu; [done|done|congruence].
  - by apply (Hmix f g f0 Sf Tf El' o' ch').
  - destruct (Hmix g f g0 Sg Tg El o ch Hoh Hch Ec) as [H|H]; [by right|by left].
  - destruct (output_ends f o ch Hoh Hch Ec) as (a & b & Ha & Hb & -> & ->).
    destruct (output_ends g o' ch' Hoh' Hch' Ec') as (a' & b' & Ha' & Hb' & -> & ->).
    pose proof kept_sorted as Hs. rewrite <- (cf_kept C) in Hs. apply sorted_concat in Hs as [_ Hs].
    assert (forall ch e, ch ∈ ess -> e ∈ ch -> seq_ok (e_sequence e)) as Hok by (intros x e Hx He; by apply input_ok, kept_input, (chunk_kept x)).
    (* the two outputs are different, so one comes first *)
    pose proof Hoin as [i Hi]%list_elem_of_lookup. pose proof Hoin' as [j Hj]%list_elem_of_lookup.
    destruct (Forall2_lookup_l _ _ _ i o (cf_outputs C) Hi) as (c1 & Hc1 & Hoc1).
    destruct (Forall2_lookup_l _ _ _ j o' (cf_outputs C) Hj) as (c2 & Hc2 & Hoc2).
    assert (c1 = ch) as -> by (destruct Hoc1 as [E1 _ _], Hoh as [E2 _ _]; congruence).
    assert (c2 = ch') as -> by (destruct Hoc2 as [E1 _ _], Hoh' as [E2 _ _]; congruence).
    destruct (Nat.lt_trichotomy i j) as [Hij|[->|Hij]].
    + left. apply table_order_key_lt; [by apply (Hok ch)|by apply (Hok ch')|]. by apply (Hs i j ch ch').
    + exfalso. apply Hne, Hu; [done|done|]. congruence.
    + right. apply table_order_key_lt; [by apply (Hok ch')|by apply (Hok ch)|]. by apply (Hs j i ch' ch).
Qed.

Lemma installed_wf : wf_version contents' v'.
Proof using C.
  pose proof (cf_wf C) as Wf.
  assert (forall f : FilePtr, f ∈ level_files v' 0 -> exists f0 : FilePtr, stays 0 f0 /\ twin f f0) as H0.
  { intros f [H|(El & _)]%new_version_elem; [done|lia]. }
  split.
  - apply (cf_files' C).
  - intros level f Hf. by eapply new_holds.
  - apply (cf_order' C 0%nat).
  - intros f (f0 & [Hf0 _] & Ht)%H0. destruct (twin_fields f f0 Ht) as (-> & _). by apply (wv_small contents v Wf).
  - intros f g Hf Hg Hlt f' g' a b ->%list_elem_of_singleton ->%list_elem_of_singleton (la & Hla & Ha) (lb & Hlb & Hb) Ek.
    destruct (H0 f Hf) as (f0 & Sf & Tf), (H0 g Hg) as (g0 & Sg & Tg).
    pose proof (twin_fields f f0 Tf) as (Nf & _). pose proof (twin_fields g g0 Tg) as (Ng & _).
    apply (wv_level0 contents v Wf f0 g0 (proj1 Sf) (proj1 Sg) ltac:(lia) f0 g0 a b); [by left|by left| | |done].
    + exists la. split; [by eapply (twin_holds 0%nat)|done].
    + exists lb. split; [by eapply (twin_holds 0%nat)|done].
  - apply new_disjoint.
  - apply new_newer.
Qed.
End Install.

(** * Theorem *)


(** ** Example

    The two files of [sample_get_version] into one. *)
Definition file8 : FilePtr := mkPtr 1 (mkFile 8 100 (make_internal_key [x61] 9 kValue) (make_internal_key [x61] 9 kValue) 100 1).
Definition file5 : FilePtr := mkPtr 2 (mkFile 5 200 (make_internal_key [x61] 4 kValue) (make_internal_key [x63] 5 kValue) 100 1).
Definition file20 : FilePtr := mkPtr 3 (mkFile 20 300 (make_internal_key [x61] 9 kValue) (make_internal_key [x63] 5 kValue) 100 1).
Definition both_files : CompactionState :=
  mkState (set_inputs (Compaction_new 2097152 0 sample_get_version []) [file8] [file5]) 9
    [mkOutput 20 300 (smallest file20) (largest file20)] None 300.
Definition contents_after (n sz : Z) : option (list Entry) :=
  if n =? 20 then Some [entry [x61] 9 [x32]; entry [x63] 5 [x33]] else sample_contents n sz.
Definition version_after : Version := mkVersion [[]; [file20]; []; []; []; []; []] None (-1) (double_of_Z (-1)) (-1).
Definition files_before : Files := {[ (0, 8) := core file8; (1, 5) := core file5 ]}.

Lemma sample_files level (f : FilePtr) :
  f ∈ level_files sample_get_version level <-> (level = 0%nat /\ f = file8) \/ (level = 1%nat /\ f = file5).
Proof.
  split.
  - destruct level as [|[|[|[|[|[|[|level]]]]]]]; unfold level_files; cbn [sample_get_version files_ lookup list_lookup from_option id];
      intros H; try (destruct level as [|level]); cbn [lookup list_lookup from_option] in H; elem_cases; auto.
  - intros [[-> ->]|[-> ->]]; left.
Qed.
Lemma after_files level (f : FilePtr) : f ∈ level_files version_after level <-> level = 1%nat /\ f = file20.
Proof.
  split.
  - destruct level as [|[|[|[|[|[|[|level]]]]]]]; unfold level_files; cbn [version_after files_ lookup list_lookup from_option id];
      intros H; try (destruct level as [|level]); cbn [lookup list_lookup from_option] in H; elem_cases; auto.
  - intros [-> ->]; left.
Qed.
Lemma order_one (files : nat -> list FilePtr) :
  (forall level, files level = [] \/ exists f, files level = [f] /\ file_readable f) ->
  forall level, ordered (files level) /\ Forall file_readable (files level) /\
    forall f g : FilePtr, f ∈ files level -> g ∈ files level -> number f = number g -> f = g.
Proof.
  intros H level. destruct (H level) as [->|(f & -> & Hr)].
  - split; [apply SSorted_nil|]. split; [by apply Forall_nil|]. intros f g Hf. by apply elem_of_nil in Hf.
  - split; [repeat constructor|]. split; [by apply Forall_singleton|]. intros a b ->%list_elem_of_singleton ->%list_elem_of_singleton. done.
Qed.
Lemma sample_in_file f e es : entry_of sample_contents f e -> sample_contents (number f) (file_size f) = Some es -> e ∈ es.
Proof. intros (l & Hl & He) E. rewrite (he_contents _ _ _ Hl) in E. by injection E as ->. Qed.

Lemma before_lookup level n meta :
  files_before !! (level, n) = Some meta -> (level = 0 /\ n = 8 /\ meta = core file8) \/ (level = 1 /\ n = 5 /\ meta = core file5).
Proof.
  unfold files_before. rewrite lookup_insert_Some, lookup_singleton_Some.
  intros [[E <-]|[_ [E <-]]]; injection E as <- <-; auto.
Qed.

Lemma both_compacted :
  compacted_from sample_contents contents_after sample_get_version version_after both_files
    [entry [x61] 9 [x32]; entry [x61] 4 [x31]; entry [x63] 5 [x33]]
    [[entry [x61] 9 [x32]; entry [x63] 5 [x33]]] files_before.
Proof.
  pose proof sample_get_wf as Wf.
  assert (forall level f e, f ∈ level_files sample_get_version level -> entry_of sample_contents f e ->
    e ∈ [entry [x61] 9 [x32]; entry [x61] 4 [x31]; entry [x63] 5 [x33]]) as Hent.
  { intros level f e [[-> ->]|[-> ->]]%sample_files He; [pose proof (sample_in_file _ _ _ He eq_refl) as H|pose proof (sample_in_file _ _ _ He eq_refl) as H]; set_solver +H. }
  split.
  - exact Wf.
  - split; [done|]. split.
    + intros level n meta [(-> & _)|(-> & _)]%before_lookup; unfold level_ok, kNumLevels; lia.
    + intros level n meta. split.
      * intros [(El & -> & ->)|(El & -> & ->)]%before_lookup.
        -- exists file8. split; [apply sample_files; left; split; [lia|done]|done].
        -- exists file5. split; [apply sample_files; right; split; [lia|done]|done].
      * intros (f & [[-> ->]|[-> ->]]%sample_files & <- & <-); reflexivity.
  - refine (order_one (level_files _) _). intros [|[|level]]; [right; exists file8; split; [done|]|right; exists file5; split; [done|]|left].
    + vm_compute. lia.
    + vm_compute. lia.
    + destruct (level_files sample_get_version (S (S level))) as [|f l] eqn:E; [done|]. assert (f ∈ f :: l) as H by left.
      rewrite <- E in H. apply sample_files in H as [[? _]|[? _]]; lia.
  - assert (forall f : FilePtr, f ∈ level_files sample_get_version 0 -> f = file8) as F0 by (intros f [[_ ->]|[? _]]%sample_files; [done|lia]).
    assert (forall f : FilePtr, f ∈ level_files sample_get_version 1 -> f = file5) as F1 by (intros f [[? _]|[_ ->]]%sample_files; [lia|done]).
    split; [done| |].
    + split; [intros f ->%list_elem_of_singleton; left|]. split.
      * intros f g _ ->%F0 Hn. destruct Hn. left.
      * intros _ f g _ ->%F0 Hn. destruct Hn. left.
    + split; [intros f ->%list_elem_of_singleton; left|]. intros h ->%F1 Hn. destruct Hn. left.
  - vm_compute. lia.
  - done.
  - done.
  - intros a b (la & fa & Ha & Hae) (lb & fb & Hb & Hbe) Ek Es. pose proof (Hent _ _ _ Ha Hae) as H1. pose proof (Hent _ _ _ Hb Hbe) as H2.
    clear -H1 H2 Ek Es. elem_cases; first [reflexivity|discriminate].
  - repeat first [apply SSorted_nil | apply SSorted_cons | apply Forall_nil; exact I | apply Forall_cons; split].
    all: first [left; vm_compute; reflexivity | right; split; [reflexivity|vm_compute; reflexivity]].
  - intros e. split.
    + destruct (wv_entries _ _ Wf 0%nat file8) as [l8 H8]; [by apply sample_files; left|].
      destruct (wv_entries _ _ Wf 1%nat file5) as [l5 H5]; [by apply sample_files; right|].
      pose proof (he_contents _ _ _ H8) as E8. pose proof (he_contents _ _ _ H5) as E5. injection E8 as <-. injection E5 as <-.
      intros H. apply elem_of_cons in H as [->|H].
      * exists file8. split; [left|]. eexists. split; [exact H8|left].
      * exists file5. split; [right; left|]. eexists. split; [exact H5|done].
    + intros (f & Hf & He). apply (Hent (if bool_decide (f = file8) then 0%nat else 1%nat) f e); [|done].
      apply elem_of_cons in Hf as [->|Hf%list_elem_of_singleton]; [by apply sample_files; left|subst; by apply sample_files; right].
  - vm_compute. reflexivity.
  - repeat constructor.
  - apply NoDup_singleton.
  - intros level f o [[_ ->]|[_ ->]]%sample_files ->%list_elem_of_singleton; done.
  - intros level f [[_ ->]|[_ ->]]%sample_files; reflexivity.
  - assert (spec_edit files_before (compaction_edit both_files) = {[ (1, 20) := core file20 ]}) as -> by (apply (bool_decide_unpack _); vm_compute; exact I).
    split; [done|]. split.
    + intros level n meta [[= <- _] _]%lookup_singleton_Some. unfold level_ok. lia.
    + intros level n meta. rewrite lookup_singleton_Some. split.
      * intros [[= El <-] <-]. exists file20. split; [apply after_files; split; [lia|done]|done].
      * intros (f & [-> ->]%after_files & <- & <-). done.
  - refine (order_one (level_files _) _). intros [|[|level]]; [by left|right; exists file20; split; [done|vm_compute; lia]|left].
    destruct (level_files version_after (S (S level))) as [|f l] eqn:E; [done|]. assert (f ∈ f :: l) as H by left.
    rewrite <- E in H. apply after_files in H as [? _]. lia.
Qed.


End CompactionInstall.
