(* ===== verification/WriteGroup.v ===== *)
(** Group commit ([DBImpl::write] from the front of the queue,
    [build_batch_group] and the rotation of [make_room_for_write], in
    src/src/db_impl.cpp): one log record for several writers' batches, then
    the memtable, then the sequence number that publishes them.

    Here one thread is at the front and does its work; the queue that puts it
    there is modelled in WriteQueue.v. *)
From S2P Require Import Prelude Status File Encoding DbFormat Wal WriteBatch MemTable Version.
Import Status File Encoding DbFormat Wal.
Import Version(kL0SlowdownWritesTrigger, kL0StopWritesTrigger).
Import WriteBatch.WriteBatch.

Module WriteGroup.
Abbreviation MemTable := MemTable.MemTable.

(** What a queued [Writer] asks for; [batch] is null for the flush that
    [compact_range] asks for. *)
Record Request := mkRequest { batch : option WriteBatch; sync : bool }.

(** * build_batch_group

    [result] is [None] while it is the leader's own batch and the contents of
    [tmp_batch_] after the first append.  The result is what was written into
    [tmp_batch_], if anything, and the number of followers in the group. *)
Fixpoint group_loop (first : WriteBatch) (first_sync : bool) (tmp : WriteBatch) (max_size size : Z)
    (result : option WriteBatch) (rest : list Request) : option WriteBatch * nat :=
  match rest with
  | [] => (result, O)
  | w :: rest =>
      if sync w && negb first_sync then (result, O)
      else match batch w with
      | None => (result, O)
      | Some b =>
          let size := u64 (size + byte_size b) in
          if max_size <? size then (result, O)
          else
            let result := match result with None => append tmp first | Some r => r end in
            let '(r, n) := group_loop first first_sync tmp max_size size (Some (append result b)) rest in
            (r, S n)
      end
  end.

Definition max_group_size (size : Z) : Z :=
  if size <=? 131072 then u64 (size + 131072) else 1048576.

Definition build_batch_group (first : WriteBatch) (first_sync : bool) (tmp : WriteBatch) (rest : list Request) :
    option WriteBatch * nat :=
  let size := byte_size first in
  group_loop first first_sync tmp (max_group_size size) size None rest.

(** * make_room_for_write

    What one round of its loop decides, from the recorded error, the number
    of files in level 0, the memtable's memory and whether an earlier memtable
    still waits for its flush. *)
Inductive Decision := Stop (status : Status) | Delay | Enough | WaitForWork | RotateLog.

Definition room_decision (force allow_delay : bool) (error : Status) (level0 usage buffer_size : Z) (has_imm : bool) : Decision :=
  if negb (is_ok error) then Stop error
  else if allow_delay && (kL0SlowdownWritesTrigger <=? level0) then Delay
  else if negb force && (usage <=? buffer_size) then Enough
  else if has_imm then WaitForWork
  else if kL0StopWritesTrigger <=? level0 then WaitForWork
  else RotateLog.

(** The loop, over what the rounds see and do in a state [W] of the database:
    [None] when [fuel] rounds were not enough. *)
Record RoomEnv (W : Type) := mkRoomEnv {
  re_error : W -> Status;
  re_level0 : W -> Z;
  re_usage : W -> Z;
  re_imm : W -> bool;
  re_buffer_size : Z;
  re_delay : W -> W;
  re_wait : W -> W;
  re_rotate : W -> Status * W
}.
Arguments re_error {W}.
Arguments re_level0 {W}.
Arguments re_usage {W}.
Arguments re_imm {W}.
Arguments re_buffer_size {W}.
Arguments re_delay {W}.
Arguments re_wait {W}.
Arguments re_rotate {W}.

Fixpoint make_room_loop {W} (env : RoomEnv W) (fuel : nat) (force allow_delay : bool) (w : W) : option (Status * W) :=
  match fuel with
  | O => None
  | S fuel =>
      match room_decision force allow_delay (re_error env w) (re_level0 env w) (re_usage env w) (re_buffer_size env) (re_imm env w) with
      | Stop status => Some (status, w)
      | Delay => make_room_loop env fuel force false (re_delay env w)
      | Enough => Some (ok, w)
      | WaitForWork => make_room_loop env fuel force allow_delay (re_wait env w)
      | RotateLog =>
          let '(status, w) := re_rotate env w in
          if is_ok status then make_room_loop env fuel false allow_delay w else Some (status, w)
      end
  end.
Definition make_room_for_write {W} (env : RoomEnv W) (fuel : nat) (force : bool) (w : W) : option (Status * W) :=
  make_room_loop env fuel force (negb force) w.

(** It returns with room, or with the reason there is none; and it rotates
    only when the last memtable is flushed and level 0 is not full. *)
Lemma make_room_ok {W} (env : RoomEnv W) fuel force allow_delay w s w' :
  make_room_loop env fuel force allow_delay w = Some (s, w') -> is_ok s = true ->
  is_ok (re_error env w') = true /\ re_usage env w' <= re_buffer_size env.
Proof.
  revert force allow_delay w. induction fuel as [|fuel IH]; intros force allow_delay w E Hs; [done|]. cbn [make_room_loop] in E.
  unfold room_decision in E. destruct (is_ok (re_error env w)) eqn:Ee; cbn [negb] in E; [|simplify_eq; congruence].
  destruct (allow_delay && _); [by eapply IH|]. destruct (negb force && _) eqn:Eu.
  { injection E as <- <-. split; [done|]. by b2p. }
  destruct (re_imm env w); [by eapply IH|]. destruct (kL0StopWritesTrigger <=? _); [by eapply IH|].
  destruct (re_rotate env w) as [s1 w1]. destruct (is_ok s1) eqn:E1; [by eapply IH|]. simplify_eq. congruence.
Qed.
Lemma rotation_is_due force allow_delay error level0 usage buffer_size has_imm :
  room_decision force allow_delay error level0 usage buffer_size has_imm = RotateLog ->
  is_ok error = true /\ has_imm = false /\ level0 < kL0StopWritesTrigger /\ (force = true \/ buffer_size < usage).
Proof.
  unfold room_decision. destruct (is_ok error); cbn [negb]; [|done]. destruct (allow_delay && _); [done|].
  destruct (negb force && _) eqn:Eu; [done|]. destruct has_imm; [done|]. destruct (Z.leb_spec kL0StopWritesTrigger level0); [done|].
  intros _. split_and!; try done. destruct force; [by left|right]. cbn in Eu. by b2p.
Qed.

(** * The state a write changes *)
Section Write.
Context {Rng : Type} (rng_next : Rng -> Z * Rng).

Record State := mkState {
  log_ : LogWriter;
  mem_ : @MemTable Rng;
  imm_ : option (@MemTable Rng);
  tmp_batch_ : WriteBatch;
  last_sequence : Z;
  background_error_ : Status;
  log_bytes_ : Z;
  log_writes_ : Z;
  batches_written_ : Z
}.

Definition record_background_error (st : State) (status : Status) : State :=
  if is_ok (background_error_ st)
  then mkState (log_ st) (mem_ st) (imm_ st) (tmp_batch_ st) (last_sequence st) status (log_bytes_ st) (log_writes_ st)
         (batches_written_ st)
  else st.

Definition count_batches (st : State) (n : Z) : State :=
  mkState (log_ st) (mem_ st) (imm_ st) (tmp_batch_ st) (last_sequence st) (background_error_ st) (log_bytes_ st)
    (log_writes_ st) (u64 (batches_written_ st + n)).

(** With the mutex released: the log record, to the kernel or the device,
    then the memtable. *)
Definition write_unlocked (sync : bool) (b : WriteBatch) (log : LogWriter) (mem : @MemTable Rng) :
    option (Status * LogWriter * @MemTable Rng) :=
  '(status, log) ← add_record log (contents b);
  let '(status, log) :=
    if is_ok status then (if sync : bool then writer_sync log else writer_flush log) else (status, log) in
  if is_ok status then
    let '(status, m) := insert_into (MemTable.add_op rng_next) b (Some mem) in
    m ← m; Some (status, log, m)
  else Some (status, log, mem).

(** One turn at the front of the queue: [room] is what
    [make_room_for_write(updates == nullptr)] returned, [rest] the requests
    behind.  The result is the status every member is answered with and the
    number of members, the leader included. *)
Definition write (st : State) (room : Status) (leader : Request) (rest : list Request) :
    option (Status * nat * State) :=
  match is_ok room, batch leader with
  | true, Some first =>
      let '(tmp, followers) := build_batch_group first (sync leader) (tmp_batch_ st) rest in
      let b := set_sequence (default first tmp) (u64 (last_sequence st + 1)) in
      n ← count b;
      '(status, log, mem) ← write_unlocked (sync leader) b (log_ st) (mem_ st);
      let st := mkState log mem (imm_ st) (if tmp is Some _ then clear else tmp_batch_ st) (u64 (last_sequence st + n))
                  (background_error_ st) (u64 (log_bytes_ st + (bytes_written_ log - bytes_written_ (log_ st))))
                  (u64 (log_writes_ st + 1)) (batches_written_ st) in
      let st := if is_ok status then st else record_background_error st status in
      Some (status, S followers, count_batches st (Z.of_nat (S followers)))
  | _, _ => Some (room, 1%nat, count_batches st (if batch leader is Some _ then 1 else 0))
  end.

(** * Rotation

    The end of [make_room_for_write]: [opened] is the outcome of opening the
    new log, [directory] that of syncing the directory, [seed] the new
    memtable's.  The old log is closed when its writer goes; the result has
    its file.  [reuse_file_number] and [maybe_schedule_compaction] belong to
    other components. *)
Definition rotate (st : State) (opened : Status + WritableFile) (directory : Status) (seed : Rng) :
    Status * option WritableFile * State :=
  match opened with
  | inl status => (status, None, st)
  | inr file =>
      let '(status, log) := writer_sync (log_ st) in
      let st := mkState log (mem_ st) (imm_ st) (tmp_batch_ st) (last_sequence st) (background_error_ st) (log_bytes_ st)
                  (log_writes_ st) (batches_written_ st) in
      let status := if is_ok status then directory else status in
      if is_ok status then
        let '(_, closed) := wf_close (dest_ log) in
        (ok, Some closed,
         mkState (LogWriter_new file) (MemTable.ref (MemTable.MemTable_new seed)) (Some (mem_ st)) (tmp_batch_ st)
           (last_sequence st) (background_error_ st) (log_bytes_ st) (log_writes_ st) (batches_written_ st))
      else (status, None, record_background_error st status)
  end.

(** A run at the front of the queue: turns, rotations (when the writer finds
    the memtable full and the one before it flushed) and finished flushes.
    A turn goes ahead unless an error is recorded.  [closed] are the files of
    the logs before. *)
Inductive Event :=
  | Turn (leader : Request) (rest : list Request)
  | Rotate (opened : Status + list (option nat)) (directory : Status) (seed : Rng)
  | Flushed.

Record Db := mkDb { state : State; closed : list WritableFile }.
Definition fresh (faults : list (option nat)) (seed : Rng) : Db :=
  mkDb (mkState (LogWriter_new (wf_new faults)) (MemTable.ref (MemTable.MemTable_new seed)) None clear 0 ok 0 0 0) [].

Definition flushed (st : State) : State :=
  mkState (log_ st) (mem_ st) None (tmp_batch_ st) (last_sequence st) (background_error_ st) (log_bytes_ st) (log_writes_ st)
    (batches_written_ st).
Definition event (d : Db) (e : Event) : option (option (Status * nat) * Db) :=
  let st := state d in
  match e with
  | Turn leader rest =>
      '(status, n, st) ← write st (background_error_ st) leader rest;
      Some (Some (status, n), mkDb st (closed d))
  | Rotate opened directory seed =>
      match is_ok (background_error_ st), imm_ st with
      | true, None =>
          let '(_, f, st) := rotate st (match opened with inl s => inl s | inr faults => inr (wf_new faults) end) directory seed in
          Some (None, mkDb st (closed d ++ option_list f))
      | _, _ => Some (None, d)
      end
  | Flushed => Some (None, mkDb (flushed st) (closed d))
  end.

(** ** What the run is to achieve *)

(** The operations a request carries, and those a turn acknowledged: none
    when it failed. *)
Definition ops_of (r : Request) : list Op := if batch r is Some b then snd (iterate b) else [].
Record Ack := mkAck { ack_sync : bool; ack_ops : list Op }.
Definition acknowledged (e : Event) (result : option (Status * nat)) : list Ack :=
  match e, result with
  | Turn leader rest, Some (status, n) =>
      if is_ok status && bool_decide (batch leader <> None)
      then [mkAck (sync leader) ((leader :: take (n - 1) rest) ≫= ops_of)] else []
  | _, _ => []
  end.

Fixpoint run (d : Db) (es : list Event) : option (list (option (Status * nat)) * list Ack * Db) :=
  match es with
  | [] => Some ([], [], d)
  | e :: es =>
      '(r, d) ← event d e;
      '(rs, acks, d) ← run d es;
      Some (r :: rs, acknowledged e r ++ acks, d)
  end.
End Write.

(** * What reaches the kernel and the disk *)
Definition same_kept (f f' : WritableFile) : Prop := wf_disk f' = wf_disk f /\ wf_kernel f' = wf_kernel f.

Lemma append_kept f data : same_kept f (snd (wf_append f data)).
Proof. unfold wf_append, wf_next_fault. destruct (wf_open f); [|done]. by destruct (wf_faults f) as [|[?|] ?]. Qed.

Lemma emit_kept w t data : same_kept (dest_ w) (dest_ (snd (emit_physical_record w t data))).
Proof.
  unfold emit_physical_record. pose proof (append_kept (dest_ w) (record_header t data)) as [H1 H2].
  destruct (wf_append (dest_ w) (record_header t data)) as [s d]; cbn [snd] in *. destruct (negb (is_ok s)); [done|].
  pose proof (append_kept d data) as [H3 H4]. destruct (wf_append d data) as [s' d']; cbn [snd] in *.
  destruct (negb (is_ok s')); split; cbn; congruence.
Qed.
Lemma pad_kept w : same_kept (dest_ w) (dest_ (snd (pad_block w))).
Proof.
  unfold pad_block. destruct (_ <? _)%nat; [|done]. destruct (_ <? _)%nat; [|done].
  pose proof (append_kept (dest_ w) (replicate (kBlockSize - offset_ w) x00)) as [H1 H2].
  destruct (wf_append _ _) as [s d]; cbn [snd] in *. by destruct (negb (is_ok s)).
Qed.
Lemma add_loop_kept fuel w data first s w' : add_record_loop fuel w data first = Some (s, w') -> same_kept (dest_ w) (dest_ w').
Proof.
  revert w data first. induction fuel as [|fuel IH]; intros w data first E; [done|]. cbn [add_record_loop] in E.
  pose proof (pad_kept w) as [P1 P2]. destruct (pad_block w) as [s1 w1]; cbn [snd] in *.
  destruct (negb (is_ok s1)); [by simplify_eq|]. revert E. set (n := if (_ <? _)%nat then _ else _).
  set (t := fragment_type _ _). pose proof (emit_kept w1 t (take n data)) as [E1 E2].
  destruct (emit_physical_record w1 t (take n data)) as [s2 w2]; cbn [snd] in *. intros E.
  destruct (negb (is_ok s2)); [split; simplify_eq; congruence|].
  destruct (0 <? length data - n)%nat; [|split; simplify_eq; congruence].
  destruct (IH _ _ _ E) as [H1 H2]. split; congruence.
Qed.

(** A flush or a sync, failed or not, only moves bytes on. *)
Record advanced (f f' : WritableFile) : Prop := {
  adv_contents : wf_contents f' = wf_contents f;
  adv_open : wf_open f' = wf_open f;
  adv_disk : (length (wf_disk f) <= length (wf_disk f'))%nat;
  adv_kernel : (length (wf_disk f ++ wf_kernel f) <= length (wf_disk f' ++ wf_kernel f'))%nat
}.
Lemma flush_advanced f : advanced f (snd (wf_flush f)).
Proof.
  split; [apply wf_flush_contents| | |]; unfold wf_flush, wf_next_fault; destruct (wf_open f) eqn:Eo; cbn; try done;
    destruct (wf_faults f) as [|[?|] ?]; cbn; rewrite ?length_app; try done; lia.
Qed.
Lemma advanced_trans f g h : advanced f g -> advanced g h -> advanced f h.
Proof. intros [] []. split; [congruence|congruence|lia|lia]. Qed.
Lemma sync_advanced f : advanced f (snd (wf_sync f)).
Proof.
  unfold wf_sync. destruct (wf_open f) eqn:Eo; [cbn|done]. pose proof (flush_advanced f) as A. pose proof (wf_sync_contents f) as Hc.
  unfold wf_sync in Hc. rewrite Eo in Hc. cbn in Hc. destruct (wf_flush f) as [s g]; cbn [snd] in *.
  assert (wf_open g = true) as Eg by (rewrite (adv_open _ _ A); done).
  destruct (negb (is_ok s)); [done|]. unfold wf_next_fault in *. destruct A as [A1 A2 A3 A4].
  split; [done| | |]; destruct (wf_faults g) as [|[?|] ?]; cbn in *; rewrite ?length_app in *; try done; try congruence; lia.
Qed.
Lemma flush_reaches_kernel f s f' : wf_open f = true -> wf_flush f = (s, f') -> is_ok s = true -> wf_contents f' = wf_disk f' ++ wf_kernel f'.
Proof.
  intros Ho E Hs. unfold wf_flush, wf_next_fault in E. rewrite Ho in E. cbn in E.
  destruct (wf_faults f) as [|[?|] ?]; simplify_eq/=; unfold wf_contents; cbn; by rewrite app_nil_r.
Qed.
Lemma sync_reaches_disk f s f' : wf_open f = true -> wf_sync f = (s, f') -> is_ok s = true -> wf_contents f' = wf_disk f'.
Proof.
  intros Ho E Hs. assert (s = ok) as ->; [|by destruct (wf_sync_durable _ _ Ho E)].
  unfold wf_sync in E. rewrite Ho in E. cbn in E. destruct (wf_flush f) as [s1 g]. destruct (is_ok s1) eqn:E1; cbn in E; [|simplify_eq; congruence].
  destruct (wf_next_fault g) as [[?|] ?]; by simplify_eq.
Qed.

(** The sync or flush of a turn. *)
Lemma push_advanced (b : bool) w s w' :
  (if b then writer_sync w else writer_flush w) = (s, w') -> wf_open (dest_ w) = true ->
  advanced (dest_ w) (dest_ w') /\ offset_ w' = offset_ w /\
  (is_ok s = true -> wf_contents (dest_ w') = wf_disk (dest_ w') ++ wf_kernel (dest_ w')) /\
  (is_ok s = true -> b = true -> wf_contents (dest_ w') = wf_disk (dest_ w')).
Proof.
  destruct b; unfold writer_sync, writer_flush; intros E Ho.
  - pose proof (sync_advanced (dest_ w)) as A. destruct (wf_sync (dest_ w)) as [s1 d] eqn:Es. simplify_eq/=.
    split; [done|]. split; [done|]. pose proof (sync_reaches_disk _ _ _ Ho Es) as Hd. split; [|by intros Hs _; apply Hd].
    intros Hs. specialize (Hd Hs). rewrite Hd at 1. unfold wf_contents in Hd.
    rewrite <- (app_nil_r (wf_disk d)) in Hd at 2. apply app_inv_head in Hd. apply app_eq_nil in Hd as [-> _]. by rewrite app_nil_r.
  - pose proof (flush_advanced (dest_ w)) as A. destruct (wf_flush (dest_ w)) as [s1 d] eqn:Es. simplify_eq/=.
    split; [done|]. split; [done|]. split; [|done]. intros Hs. by apply (flush_reaches_kernel _ _ _ Ho Es).
Qed.

(** * The group *)
Definition encode_batch (b : Z * list Op) : bytes := encoded b.1 (Z.of_nat (length b.2)) b.2.
Definition request_ok (r : Request) : Prop :=
  forall b, batch r = Some b -> exists s ops, b = mkBatch (encode_batch (s, ops)) /\ Forall MemTable.op_fits ops /\
    Z.of_nat (length ops) < 2 ^ 32.

Lemma op_fits_ok ops : Forall MemTable.op_fits ops -> Forall op_ok ops.
Proof. intros H. eapply Forall_impl; [exact H|]. by intros ? []. Qed.
Lemma ops_of_request r s ops :
  batch r = Some (mkBatch (encode_batch (s, ops))) -> Forall MemTable.op_fits ops -> Z.of_nat (length ops) < 2 ^ 32 -> ops_of r = ops.
Proof. intros E Hf Hl. unfold ops_of. rewrite E. unfold encode_batch; cbn [fst snd]. by rewrite iterate_encoded by (try apply op_fits_ok; done). Qed.
Lemma ops_of_fit r : request_ok r -> Forall MemTable.op_fits (ops_of r).
Proof.
  intros Hr. destruct (batch r) as [b|] eqn:E; [|unfold ops_of; rewrite E; constructor].
  destruct (Hr b E) as (s & ops & -> & Hf & Hl). by rewrite (ops_of_request _ _ _ E Hf Hl).
Qed.
Lemma requests_fit rs : Forall request_ok rs -> Forall MemTable.op_fits (rs ≫= ops_of).
Proof. induction 1; cbn [mbind list_bind]; [constructor|]. apply Forall_app. split; [by apply ops_of_fit|done]. Qed.

Lemma set_sequence_batch s t ops : set_sequence (mkBatch (encode_batch (s, ops))) t = mkBatch (encode_batch (t, ops)).
Proof. apply set_sequence_encoded. Qed.
Lemma count_batch s ops : Z.of_nat (length ops) < 2 ^ 32 -> count (mkBatch (encode_batch (s, ops))) = Some (Z.of_nat (length ops)).
Proof. intros H. unfold encode_batch. rewrite count_encoded. cbn [snd]. by rewrite u32_small by lia. Qed.
Lemma max_sequence : kMaxSequenceNumber = 2 ^ 56 - 1.
Proof. reflexivity. Qed.

Lemma append_encoded s a t b :
  Z.of_nat (length (a ++ b)) < 2 ^ 32 ->
  append (mkBatch (encode_batch (s, a))) (mkBatch (encode_batch (t, b))) = mkBatch (encode_batch (s, a ++ b)).
Proof.
  intros Hl. rewrite length_app in Hl. unfold append, encode_batch; cbn [fst snd]. rewrite !count_encoded, set_count_encoded.
  rewrite !(u32_small (Z.of_nat (length _))), u32_small by lia. cbn [rep_].
  change (drop kHeader (encoded ?s ?n b)) with (b ≫= encode_op). unfold encoded. rewrite <- !app_assoc, <- bind_app, length_app.
  do 4 f_equal. lia.
Qed.

(** What the leader may answer for: batches, and a synced one only if it
    syncs itself. *)
Definition may_join (first_sync : bool) (w : Request) : Prop := batch w <> None /\ (sync w = true -> first_sync = true).

(** Whatever the batches hold. *)
Lemma group_may_join first first_sync tmp max sz result rest r n :
  group_loop first first_sync tmp max sz result rest = (r, n) -> (n <= length rest)%nat /\ Forall (may_join first_sync) (take n rest).
Proof.
  revert sz result r n. induction rest as [|w rest IH]; intros sz result r n E; cbn [group_loop] in E; [by simplify_eq|].
  assert (forall k : nat, k = 0%nat -> (k <= length (w :: rest))%nat /\ Forall (may_join first_sync) (take k (w :: rest))) as Hstop.
  { intros k ->. split; [lia|constructor]. }
  destruct (sync w && negb first_sync) eqn:Es; [simplify_eq; by apply Hstop|]. destruct (batch w) as [b|] eqn:Eb; [|simplify_eq; by apply Hstop].
  destruct (max <? u64 (sz + byte_size b)); [simplify_eq; by apply Hstop|].
  destruct (group_loop _ _ _ _ _ _ rest) as [r' n'] eqn:El. injection E as <- <-. destruct (IH _ _ _ _ El) as [H1 H2].
  cbn [take length]. split; [lia|]. constructor; [|done]. split; [by rewrite Eb|]. intros Esw. rewrite Esw in Es. by destruct first_sync.
Qed.

Lemma group_loop_spec s0 ops0 first_sync max sz result acc rest r n :
  Forall request_ok rest -> Z.of_nat (length (acc ++ (rest ≫= ops_of))) < 2 ^ 32 ->
  (result = None /\ acc = ops0 \/ result = Some (mkBatch (encode_batch (0, acc)))) ->
  group_loop (mkBatch (encode_batch (s0, ops0))) first_sync clear max sz result rest = (r, n) ->
  (n <= length rest)%nat /\ Forall (may_join first_sync) (take n rest) /\
  ((r = None /\ result = None /\ n = 0%nat) \/ r = Some (mkBatch (encode_batch (0, acc ++ (take n rest ≫= ops_of))))).
Proof.
  revert sz result acc r n. induction rest as [|w rest IH]; intros sz result acc r n Hok Hl Hres E; cbn [group_loop] in E.
  { simplify_eq. split; [done|]. split; [constructor|]. cbn. rewrite app_nil_r. destruct Hres as [[-> _]| ->]; auto. }
  assert (forall k, (result, k) = (r, n) -> k = 0%nat -> (n <= length (w :: rest))%nat /\ Forall (may_join first_sync) (take n (w :: rest)) /\
    ((r = None /\ result = None /\ n = 0%nat) \/ r = Some (mkBatch (encode_batch (0, acc ++ (take n (w :: rest) ≫= ops_of)))))) as Hstop.
  { intros k [= <- <-] ->. split; [lia|]. split; [constructor|]. cbn. rewrite app_nil_r. destruct Hres as [[-> _]| ->]; auto. }
  apply Forall_cons in Hok as [Hw Hok]. cbn [mbind list_bind] in Hl. rewrite app_assoc in Hl.
  destruct (sync w && negb first_sync) eqn:Es; [by eapply Hstop|]. destruct (batch w) as [b|] eqn:Eb; [|by eapply Hstop].
  destruct (max <? u64 (sz + byte_size b)); [by eapply Hstop|].
  destruct (Hw b Eb) as (t & ops & -> & Hf & Hlo). pose proof (ops_of_request _ _ _ Eb Hf Hlo) as Eo.
  assert (match result with None => append clear (mkBatch (encode_batch (s0, ops0))) | Some r => r end = mkBatch (encode_batch (0, acc))) as Ea.
  { destruct Hres as [[-> ->]| ->]; [|done]. apply (append_encoded 0 []). cbn [app]. rewrite !length_app in Hl. lia. }
  rewrite Ea, append_encoded in E by (rewrite !length_app in *; rewrite Eo in Hl; lia).
  destruct (group_loop _ _ _ _ _ _ rest) as [r' n'] eqn:El. injection E as <- <-.
  destruct (IH _ _ (acc ++ ops) _ _ Hok ltac:(by rewrite <- Eo) ltac:(by right) El) as (H1 & H2 & H3). cbn [take length].
  split; [lia|]. split.
  - constructor; [|done]. split; [by rewrite Eb|]. intros Esw. rewrite Esw in Es. by destruct first_sync.
  - right. destruct H3 as [(_ & ? & _)| ->]; [done|]. cbn [mbind list_bind]. by rewrite Eo, app_assoc.
Qed.

Lemma group_spec leader rest first r n :
  Forall request_ok (leader :: rest) -> Z.of_nat (length ((leader :: rest) ≫= ops_of)) < 2 ^ 32 -> batch leader = Some first ->
  build_batch_group first (sync leader) clear rest = (r, n) ->
  (n <= length rest)%nat /\ Forall (may_join (sync leader)) (take n rest) /\
  exists s, default first r = mkBatch (encode_batch (s, (leader :: take n rest) ≫= ops_of)).
Proof.
  intros [Hle Hok]%Forall_cons Hl Eb E. destruct (Hle first Eb) as (s & ops & -> & Hf & Hlo).
  pose proof (ops_of_request _ _ _ Eb Hf Hlo) as Eo. unfold build_batch_group in E.
  assert (Z.of_nat (length (ops ++ (rest ≫= ops_of))) < 2 ^ 32) as Hl' by (cbn [mbind list_bind] in Hl; by rewrite Eo in Hl).
  destruct (group_loop_spec s ops _ _ _ None ops _ _ _ Hok Hl' ltac:(by left) E) as (H1 & H2 & H3).
  split; [done|]. split; [done|]. cbn [mbind list_bind]. rewrite Eo. destruct H3 as [(-> & _ & ->)| ->].
  - exists s. cbn. by rewrite app_nil_r.
  - by exists 0.
Qed.

(** * The log of a run

    [bs] are the batches acknowledged into the log, the first [k] of them
    synced; only a log that has failed holds anything else, part of one more
    record. *)
Record LogInv (log : LogWriter) (healthy : bool) (bs : list (Z * list Op)) (k : nat)
    (frss : list (list (RecordType * bytes))) (extra : list bytes) (frsx : list (list (RecordType * bytes))) : Prop := {
  li_fits : log_fits 0 ((encode_batch <$> bs) ++ extra) (frss ++ frsx);
  li_length : length frss = length bs;
  li_contents : exists m, wf_contents (dest_ log) = take m (log_layout 0 (frss ++ frsx));
  li_kernel : (length (log_layout 0 frss) <= length (wf_disk (dest_ log) ++ wf_kernel (dest_ log)))%nat;
  li_disk : (length (log_layout 0 (take k frss)) <= length (wf_disk (dest_ log)))%nat;
  li_synced : (k <= length bs)%nat;
  li_open : wf_open (dest_ log) = true;
  li_extra : (length extra <= 1)%nat;
  li_healthy : healthy = true ->
    extra = [] /\ frsx = [] /\ wf_contents (dest_ log) = log_layout 0 frss /\ offset_ log = log_end 0 frss
}.

Lemma LogInv_new faults : LogInv (LogWriter_new (wf_new faults)) true [] 0 [] [] [].
Proof. split; cbn; try done; try lia. by exists 0%nat. Qed.

Lemma log_fits_snoc recs frss rec frs :
  log_fits 0 recs frss -> chain true rec frs -> fits (log_end 0 frss) frs -> log_fits 0 (recs ++ [rec]) (frss ++ [frs]).
Proof. intros H Hc Hf. apply log_fits_app; [done|]. cbn. done. Qed.

Lemma log_end_snoc o frss frs : log_end o (frss ++ [frs]) = layout_end (log_end o frss) frs.
Proof. revert o. induction frss as [|f l IH]; intros o; [reflexivity|]. cbn [app log_end]. apply IH. Qed.

Lemma write_log_inv log bs k frss b (sync : bool) s log1 s' log2 :
  LogInv log true bs k frss [] [] -> add_record log (encode_batch b) = Some (s, log1) ->
  (if is_ok s then (if sync then writer_sync log1 else writer_flush log1) else (s, log1)) = (s', log2) ->
  exists frs,
    if is_ok s' then LogInv log2 true (bs ++ [b]) (if sync then S (length bs) else k) (frss ++ [frs]) [] []
    else LogInv log2 false bs k frss [encode_batch b] [frs].
Proof.
  intros I Ea Ep. destruct (li_healthy _ _ _ _ _ _ _ I eq_refl) as (_ & _ & Ec & Eoff).
  pose proof (li_fits _ _ _ _ _ _ _ I) as Hfits. rewrite !app_nil_r in Hfits.
  destruct (add_record_spec log (encode_batch b)) as (Hc & Hf & s1 & w1 & Ea' & (m & Em & Hok & _ & Hop)).
  { rewrite Eoff. by eapply log_end_bound; [lia|]. }
  rewrite Ea in Ea'. injection Ea' as <- <-. set (frs := record_fragments (offset_ log) (encode_batch b)) in *.
  rewrite Eoff in *. pose proof (log_fits_snoc _ _ _ _ Hfits Hc Hf) as Hfits'. exists frs.
  assert (same_kept (dest_ log) (dest_ log1)) as [K1 K2] by (by eapply add_loop_kept).
  assert (wf_open (dest_ log1) = true) as Ho1 by (rewrite Hop; apply I).
  assert (log_layout 0 (frss ++ [frs]) = log_layout 0 frss ++ layout (log_end 0 frss) frs) as Elay
    by (rewrite log_layout_app; cbn [log_layout]; by rewrite app_nil_r).
  assert (exists m', wf_contents (dest_ log1) = take m' (log_layout 0 (frss ++ [frs]))) as [m' Em'].
  { exists (length (log_layout 0 frss) + m)%nat. rewrite Em, Ec, Elay, take_app, (take_ge (log_layout 0 frss)) by lia. do 2 f_equal. lia. }
  assert (advanced (dest_ log1) (dest_ log2) -> is_ok s' = false -> LogInv log2 false bs k frss [encode_batch b] [frs]) as Hfail.
  { intros [A1 A2 A3 A4] _. destruct I as [I1 I2 I3 I4 I5 I6 I7 I8 I9].
    split; [done|done|exists m'; congruence|rewrite <- K1, <- K2 in I4; lia|rewrite <- K1 in I5; lia|done|congruence|done|done]. }
  destruct (is_ok s) eqn:Es.
  - destruct (push_advanced sync log1 s' log2 Ep Ho1) as (A & Eo2 & Hk & Hd). destruct (is_ok s') eqn:Es'; [|by apply Hfail].
    specialize (Hk eq_refl). specialize (Hd eq_refl). destruct (Hok eq_refl) as (Hm & Eo1 & _). rewrite Hm, Ec, <- Elay in Em.
    pose proof (adv_contents _ _ A) as Ac. rewrite Em in Ac. destruct I as [I1 I2 I3 I4 I5 I6 I7 I8 I9].
    split.
    + by rewrite fmap_app, !app_nil_r.
    + rewrite !length_app. cbn. lia.
    + exists (length (log_layout 0 (frss ++ [frs]))). by rewrite app_nil_r, firstn_all.
    + by rewrite <- Hk, Ac.
    + destruct sync.
      * rewrite take_ge by (rewrite length_app; cbn; lia). by rewrite <- Hd, Ac.
      * rewrite take_app_le by lia. destruct A as [_ _ A3 _]. rewrite K1 in A3. lia.
    + rewrite length_app. cbn. destruct sync; lia.
    + rewrite (adv_open _ _ A). done.
    + cbn. lia.
    + intros _. split; [done|]. split; [done|]. split; [done|]. by rewrite Eo2, Eo1, log_end_snoc.
  - injection Ep as <- <-. rewrite Es. apply Hfail; [split; done|done].
Qed.

(** What a crash leaves of it: [n] bytes, at least those on the disk. *)
Lemma recovered log healthy bs k frss extra frsx n :
  LogInv log healthy bs k frss extra frsx -> (length (wf_disk (dest_ log)) <= n)%nat ->
  exists fuel j r, read_all fuel (LogReader_new (mkSequential (take n (wf_contents (dest_ log))) [])) =
      Some (take j ((encode_batch <$> bs) ++ extra), r) /\ (k <= j)%nat /\
    ((length (wf_disk (dest_ log) ++ wf_kernel (dest_ log)) <= n)%nat -> (length bs <= j)%nat).
Proof.
  intros I Hn. destruct (li_contents _ _ _ _ _ _ _ I) as [m Em]. destruct I as [I1 I2 _ I4 I5 I6 _ _ _].
  assert (forall j, (j <= length bs)%nat -> (length (log_layout 0 (take j frss)) <= Nat.min n m)%nat <-> (length (log_layout 0 (take j frss)) <= n)%nat) as Hmin.
  { intros j Hj. assert (length (log_layout 0 (take j frss)) <= m)%nat; [|lia].
    assert (length (log_layout 0 frss) <= m)%nat as Hfr.
    { etrans; [exact I4|]. assert (length (wf_disk (dest_ log) ++ wf_kernel (dest_ log)) <= length (wf_contents (dest_ log)))%nat as H
        by (unfold wf_contents; rewrite !length_app; lia).
      rewrite Em, length_take in H. lia. }
    rewrite <- (take_drop j frss), log_layout_app, length_app in Hfr. lia. }
  destruct (read_all_prefix _ _ 0 (LogReader_new (mkSequential (take n (wf_contents (dest_ log))) [])) (Nat.min n m) I1) as (j & r & E & Hj).
  { apply ready_fresh. by rewrite Em, take_take. }
  exists (S (length ((encode_batch <$> bs) ++ extra))), j, r. split; [done|].
  assert (forall i, (i <= length bs)%nat -> (length (log_layout 0 (take i frss)) <= n)%nat -> (i <= j)%nat) as H.
  { intros i Hi Hl. apply Hj; [rewrite length_app, length_fmap; lia|]. rewrite take_app_le by lia. by apply Hmin. }
  split; [apply H; [done|lia]|]. intros Hk. apply H; [done|]. rewrite take_ge by lia. lia.
Qed.

(** * The run *)

(** Batches numbered one after the other, and the versions they put into a
    memtable. *)
Fixpoint numbered (seq : Z) (l : list (list Op)) : list (Z * list Op) :=
  match l with
  | [] => []
  | ops :: l => (seq, ops) :: numbered (seq + Z.of_nat (length ops)) l
  end.
Definition versions_of (b : Z * list Op) : list MemTable.Version :=
  imap (λ i op, MemTable.op_version (b.1 + Z.of_nat i) op) b.2.

Lemma elem_versions v b :
  v ∈ versions_of b <-> exists i op, b.2 !! i = Some op /\ v = MemTable.op_version (b.1 + Z.of_nat i) op.
Proof.
  unfold versions_of. rewrite list_elem_of_lookup. setoid_rewrite list_lookup_imap_Some. naive_solver.
Qed.
Lemma numbered_length s l : length (numbered s l) = length l.
Proof. revert s. induction l as [|o l IH]; intros s; cbn; [done|by rewrite IH]. Qed.
Lemma numbered_snoc s l ops : numbered s (l ++ [ops]) = numbered s l ++ [(s + Z.of_nat (length (concat l)), ops)].
Proof.
  revert s. induction l as [|o l IH]; intros s; cbn [app numbered concat]; [cbn; by rewrite Z.add_0_r|].
  rewrite IH, length_app. cbn [app]. do 4 f_equal. lia.
Qed.
Lemma numbered_below s l b v : b ∈ numbered s l -> v ∈ versions_of b -> MemTable.v_sequence v < s + Z.of_nat (length (concat l)).
Proof.
  revert s. induction l as [|o l IH]; intros s Hb Hv; cbn [numbered concat] in *; [by apply elem_of_nil in Hb|].
  rewrite length_app. apply elem_of_cons in Hb as [->|Hb]; [|specialize (IH _ Hb Hv); lia].
  apply elem_versions in Hv as (i & op & Hi & ->). cbn in Hi. apply lookup_lt_Some in Hi. rewrite MemTable.op_version_sequence. cbn [fst]. lia.
Qed.

(** A log that was rotated away: whole, and all of it on the disk. *)
Definition closed_log (f : WritableFile) (bs : list (Z * list Op)) : Prop :=
  wf_contents f = wf_disk f /\ exists frss, log_fits 0 (encode_batch <$> bs) frss /\ wf_contents f = log_layout 0 frss.

Lemma close_kept f : wf_contents f = wf_disk f -> wf_contents (snd (wf_close f)) = wf_contents f /\ wf_disk (snd (wf_close f)) = wf_disk f.
Proof.
  intros E. assert (wf_kernel f = [] /\ wf_buffer f = []) as [Ek Eb].
  { unfold wf_contents in E. rewrite <- (app_nil_r (wf_disk f)) in E at 2. by apply app_inv_head, app_eq_nil in E. }
  unfold wf_close, wf_next_fault, wf_contents. destruct (wf_open f); cbn; [|done].
  destruct (wf_faults f) as [|[?|] ?]; cbn; rewrite Ek, Eb, ?take_nil, ?drop_nil; done.
Qed.

Section Run.
Context {Rng : Type} (rng_next : Rng -> Z * Rng).
Abbreviation Db := (@Db Rng).

Definition mem_holds (m : @MemTable Rng) (bs : list (Z * list Op)) : Prop :=
  exists Ls vs, MemTable.holds m Ls vs /\ forall v, v ∈ vs <-> exists b, b ∈ bs /\ v ∈ versions_of b.

Lemma mem_holds_new seed : mem_holds (MemTable.ref (MemTable.MemTable_new seed)) [].
Proof.
  exists (λ _, []), []. split; [apply (MemTable.holds_new seed)|]. intros v. split; [by intros ?%elem_of_nil|].
  by intros (? & ?%elem_of_nil & _).
Qed.

Lemma write_unlocked_spec (sync : bool) s ops log (mem : @MemTable Rng) bs k frss :
  LogInv log true bs k frss [] [] -> mem_holds mem bs ->
  (forall b v, b ∈ bs -> v ∈ versions_of b -> MemTable.v_sequence v < s) ->
  Forall MemTable.op_fits ops -> Z.of_nat (length ops) < 2 ^ 32 -> 0 <= s -> s + Z.of_nat (length ops) <= kMaxSequenceNumber ->
  exists status log' mem' frs, write_unlocked rng_next sync (mkBatch (encode_batch (s, ops))) log mem = Some (status, log', mem') /\
    if is_ok status
    then LogInv log' true (bs ++ [(s, ops)]) (if sync then S (length bs) else k) (frss ++ [frs]) [] [] /\ mem_holds mem' (bs ++ [(s, ops)])
    else LogInv log' false bs k frss [encode_batch (s, ops)] [frs] /\ mem' = mem.
Proof.
  intros I (Ls & vs & Hh & Hvs) Hbelow Hf Hl Hs Hmax. unfold write_unlocked.
  destruct (add_record_spec log (encode_batch (s, ops))) as (_ & _ & s1 & log1 & Ea & _).
  { destruct (li_healthy _ _ _ _ _ _ _ I eq_refl) as (_ & _ & _ & ->). pose proof (li_fits _ _ _ _ _ _ _ I) as Hfit.
    rewrite !app_nil_r in Hfit. by eapply log_end_bound; [lia|]. }
  unfold contents. cbn [rep_]. rewrite Ea. cbn [mbind option_bind].
  destruct (if is_ok s1 then _ else _) as [s2 log2] eqn:Ep. destruct (write_log_inv _ _ _ _ _ _ _ _ _ _ I Ea Ep) as [frs Hw].
  destruct (is_ok s2) eqn:Es2; [|by exists s2, log2, mem, frs; rewrite Es2].
  destruct (MemTable.insert_ops_hold rng_next ops mem Ls vs s Hh Hf Hs Hmax) as (m' & Ls' & vs' & Ei & Hh' & Hv').
  { intros v (b & Hb & Hv)%Hvs. by eapply Hbelow. }
  unfold insert_into, encode_batch. rewrite sequence_encoded, u64_small by (change kMaxSequenceNumber with (2 ^ 56 - 1) in *; cbn [fst]; lia).
  rewrite iterate_encoded by (try apply op_fits_ok; done). cbn [fst snd]. rewrite Ei. cbn [mbind option_bind].
  exists ok, log2, m', frs. split; [done|]. change (is_ok ok) with true. cbv iota. split; [done|].
  exists Ls', vs'. split; [done|]. intros v. rewrite Hv', Hvs. setoid_rewrite elem_of_app. split.
  - intros [Hn|(b & Hb & Hv)]; [|by eauto]. exists (s, ops). split; [right; left|]. by apply elem_versions.
  - intros (b & [Hb| ->%list_elem_of_singleton] & Hv); [right; eauto|left]. by apply elem_versions in Hv.
Qed.

Lemma write_busy (st : @State Rng) room leader rest first tmp n b c status log mem :
  is_ok room = true -> batch leader = Some first -> build_batch_group first (sync leader) (tmp_batch_ st) rest = (tmp, n) ->
  set_sequence (default first tmp) (u64 (last_sequence st + 1)) = b -> count b = Some c ->
  write_unlocked rng_next (sync leader) b (log_ st) (mem_ st) = Some (status, log, mem) ->
  write rng_next st room leader rest =
    let st := mkState log mem (imm_ st) (if tmp is Some _ then clear else tmp_batch_ st) (u64 (last_sequence st + c))
                (background_error_ st) (u64 (log_bytes_ st + (bytes_written_ log - bytes_written_ (log_ st))))
                (u64 (log_writes_ st + 1)) (batches_written_ st) in
    Some (status, S n, count_batches (if is_ok status then st else record_background_error st status) (Z.of_nat (S n))).
Proof. intros E1 E2 E3 E4 E5 E6. unfold write. rewrite E1, E2, E3, E4, E5. cbn [mbind option_bind]. rewrite E6. reflexivity. Qed.

(** ** The invariant of a run *)
Definition all_logs (d : Db) : list WritableFile := closed d ++ [dest_ (log_ (state d))].
Abbreviation healthy d := (is_ok (background_error_ (state d))).

Record Inv (d : Db) (acks : list Ack) (olds : list (list (Z * list Op))) (cur : list (Z * list Op)) (k : nat)
    (frss : list (list (RecordType * bytes))) (extra : list bytes) (frsx : list (list (RecordType * bytes))) : Prop := {
  inv_closed : Forall2 closed_log (closed d) olds;
  inv_log : LogInv (log_ (state d)) (healthy d) cur k frss extra frsx;
  inv_acks : concat olds ++ cur = numbered 1 (ack_ops <$> acks);
  inv_synced : Forall (λ a, ack_sync a = false) (drop (length (concat olds) + k) acks);
  inv_mem : mem_holds (mem_ (state d)) cur;
  inv_imm : forall m, imm_ (state d) = Some m -> exists bs, last olds = Some bs /\ mem_holds m bs;
  inv_sequence : healthy d = true -> last_sequence (state d) = Z.of_nat (length (acks ≫= ack_ops));
  inv_tmp : tmp_batch_ (state d) = clear
}.
Definition InvE (d : Db) (acks : list Ack) : Prop := exists olds cur k frss extra frsx, Inv d acks olds cur k frss extra frsx.

Lemma Inv_fresh faults seed : InvE (fresh faults seed) [].
Proof.
  exists [], [], 0%nat, [], [], []. split; cbn; try done.
  - apply LogInv_new.
  - apply mem_holds_new.
Qed.

Definition event_ops (e : @Event Rng) : list Op := if e is Turn leader rest then (leader :: rest) ≫= ops_of else [].
Definition event_ok (e : @Event Rng) : Prop :=
  match e with
  | Turn leader rest => Forall request_ok (leader :: rest) /\ Z.of_nat (length (event_ops e)) < 2 ^ 32
  | _ => True
  end.
(** What an event leaves: the invariant with what it acknowledged. *)
Definition event_done (d : Db) (acks : list Ack) (e : Event) (r : option (Status * nat)) (d' : Db) : Prop :=
  InvE d' (acks ++ acknowledged e r) /\
  (healthy d' = true -> healthy d = true /\ last_sequence (state d') <= last_sequence (state d) + Z.of_nat (length (event_ops e))).

(** Counters do not matter. *)
Lemma Inv_counted d acks olds cur k frss extra frsx n :
  Inv d acks olds cur k frss extra frsx -> Inv (mkDb (count_batches (state d) n) (closed d)) acks olds cur k frss extra frsx.
Proof. intros []. by split. Qed.

(** A turn that is refused, or asks for nothing. *)
Lemma idle_turn d acks leader rest :
  InvE d acks -> healthy d = false \/ batch leader = None ->
  exists r d', event rng_next d (Turn leader rest) = Some (r, d') /\ event_done d acks (Turn leader rest) r d'.
Proof.
  intros (olds & cur & k & frss & extra & frsx & I) Hidle.
  assert (write rng_next (state d) (background_error_ (state d)) leader rest =
    Some (background_error_ (state d), 1%nat, count_batches (state d) (if batch leader is Some _ then 1 else 0))) as E.
  { unfold write. destruct Hidle as [-> | ->]; [done|]. by destruct (healthy d). }
  unfold event. rewrite E. cbn [mbind option_bind]. eexists _, _. split; [done|].
  assert (acknowledged (Rng := Rng) (Turn leader rest) (Some (background_error_ (state d), 1%nat)) = []) as Ea.
  { unfold acknowledged. destruct Hidle as [-> | ->]; [done|]. by rewrite andb_false_r. }
  split.
  - rewrite Ea, app_nil_r. exists olds, cur, k, frss, extra, frsx. by apply Inv_counted.
  - cbn. intros H. split; [done|lia].
Qed.

Lemma synced_after acks (a : Ack) (old : nat) (k n : nat) :
  length acks = (old + n)%nat -> (k <= n)%nat -> Forall (λ a, ack_sync a = false) (drop (old + k) acks) ->
  Forall (λ a, ack_sync a = false) (drop (old + (if ack_sync a then S n else k)) (acks ++ [a])).
Proof.
  intros El Hk Hf. destruct (ack_sync a) eqn:Ea.
  - rewrite drop_ge by (rewrite length_app; cbn; lia). constructor.
  - rewrite drop_app_le by lia. apply Forall_app. split; [done|]. by constructor.
Qed.


(** The state a turn that wrote [ops] leaves. *)
Definition turned (d : Db) (status : Status) (n : nat) (ops : list Op) (log : LogWriter) (mem : @MemTable Rng) (lb lw bw : Z) : Db :=
  let st := state d in
  let st := mkState log mem (imm_ st) clear (last_sequence st + Z.of_nat (length ops)) (background_error_ st) lb lw bw in
  mkDb (count_batches (if is_ok status then st else record_background_error st status) (Z.of_nat n)) (closed d).

Lemma concat_acks (acks : list Ack) : concat (ack_ops <$> acks) = acks ≫= ack_ops.
Proof. induction acks as [|a acks IH]; cbn [fmap list_fmap concat mbind list_bind]; [done|by rewrite IH]. Qed.

Lemma turned_ok d acks olds cur k frss leader ops status n log mem frs lb lw bw :
  Inv d acks olds cur k frss [] [] -> healthy d = true -> is_ok status = true ->
  LogInv log true (cur ++ [(last_sequence (state d) + 1, ops)]) (if sync leader then S (length cur) else k) (frss ++ [frs]) [] [] ->
  mem_holds mem (cur ++ [(last_sequence (state d) + 1, ops)]) ->
  InvE (turned d status n ops log mem lb lw bw) (acks ++ [mkAck (sync leader) ops]).
Proof.
  intros I Hh Es Hlog Hmem. pose proof (inv_sequence _ _ _ _ _ _ _ _ I Hh) as Eseq. pose proof (inv_acks _ _ _ _ _ _ _ _ I) as Eacks.
  exists olds, (cur ++ [(last_sequence (state d) + 1, ops)]), (if sync leader then S (length cur) else k), (frss ++ [frs]), [], [].
  unfold turned. rewrite Es. destruct I as [I1 Il _ I4 _ I6 _ _].
  split; cbn [state closed count_batches log_ mem_ imm_ tmp_batch_ last_sequence background_error_]; rewrite ?Hh; try done.
  - rewrite fmap_app. cbn [fmap list_fmap ack_ops].
    assert (last_sequence (state d) + 1 = 1 + Z.of_nat (length (concat (ack_ops <$> acks)))) as -> by (rewrite concat_acks; lia).
    by rewrite numbered_snoc, <- Eacks, app_assoc.
  - apply (synced_after acks (mkAck (sync leader) ops)); [|by destruct Il|done].
    rewrite <- (length_fmap ack_ops acks), <- (numbered_length 1), <- Eacks, length_app. done.
  - intros _. rewrite bind_app, length_app. cbn [mbind list_bind ack_ops]. rewrite app_nil_r. lia.
Qed.

Lemma turned_failed d acks olds cur k frss ops status n log extra frsx lb lw bw :
  Inv d acks olds cur k frss [] [] -> healthy d = true -> is_ok status = false -> LogInv log false cur k frss extra frsx ->
  InvE (turned d status n ops log (mem_ (state d)) lb lw bw) acks.
Proof.
  intros I Hh Es Hlog. exists olds, cur, k, frss, extra, frsx. unfold turned, record_background_error.
  rewrite Es. cbn [background_error_]. rewrite Hh. destruct I as [I1 _ I3 I4 I5 I6 _ _].
  split; cbn [state closed count_batches log_ mem_ imm_ tmp_batch_ last_sequence background_error_]; rewrite ?Es; done.
Qed.

Lemma busy_write d acks olds cur k frss leader rest first :
  Inv d acks olds cur k frss [] [] -> healthy d = true -> batch leader = Some first -> event_ok (Turn leader rest) ->
  last_sequence (state d) + Z.of_nat (length (event_ops (Turn leader rest))) < kMaxSequenceNumber ->
  exists status n log mem lb lw bw ops, ops = (leader :: take n rest) ≫= ops_of /\
    event rng_next d (Turn leader rest) = Some (Some (status, S n), turned d status (S n) ops log mem lb lw bw) /\
    (length ops <= length (event_ops (Turn leader rest)))%nat /\
    if is_ok status
    then exists frs, LogInv log true (cur ++ [(last_sequence (state d) + 1, ops)]) (if sync leader then S (length cur) else k) (frss ++ [frs]) [] [] /\
           mem_holds mem (cur ++ [(last_sequence (state d) + 1, ops)])
    else mem = mem_ (state d) /\ exists extra frsx, LogInv log false cur k frss extra frsx.
Proof.
  intros I Hh Eb [Hok Hl] Hmax. cbn [event_ops] in *.
  pose proof (inv_log _ _ _ _ _ _ _ _ I) as Il. rewrite Hh in Il.
  pose proof (inv_sequence _ _ _ _ _ _ _ _ I Hh) as Eseq. pose proof (inv_acks _ _ _ _ _ _ _ _ I) as Eacks.
  destruct (build_batch_group first (sync leader) clear rest) as [tmp n] eqn:Eg.
  destruct (group_spec _ _ _ _ _ Hok Hl Eb Eg) as (Hn & _ & s0 & Eb0).
  remember ((leader :: take n rest) ≫= ops_of) as ops eqn:Eops.
  assert ((leader :: rest) ≫= ops_of = ops ++ (drop n rest ≫= ops_of)) as Esplit
    by (rewrite Eops; rewrite <- (take_drop n rest) at 1; cbn [mbind list_bind]; by rewrite bind_app, app_assoc).
  assert (Forall MemTable.op_fits ops) as Hfit.
  { rewrite Eops. apply requests_fit. apply Forall_cons in Hok as [H1 H2]. constructor; [done|]. by apply Forall_take. }
  rewrite Esplit, length_app in *. rewrite max_sequence in Hmax.
  destruct (write_unlocked_spec (sync leader) (last_sequence (state d) + 1) ops (log_ (state d)) (mem_ (state d)) cur k frss)
    as (status & log' & mem' & frs & Ew & Hw); [done|apply I| |done|lia|lia|rewrite max_sequence; lia|].
  { intros b v Hb Hv. rewrite Eseq. replace (Z.of_nat _ + 1) with (1 + Z.of_nat (length (concat (ack_ops <$> acks)))) by (rewrite concat_acks; lia).
    apply (numbered_below _ _ b); [|done]. rewrite <- Eacks. apply elem_of_app. by right. }
  exists status, n, log', mem'. eexists _, _, _, ops. split; [done|]. split.
  - pose proof (inv_tmp _ _ _ _ _ _ _ _ I) as Et. rewrite <- Et in Eg.
    assert (set_sequence (default first tmp) (u64 (last_sequence (state d) + 1)) = mkBatch (encode_batch (last_sequence (state d) + 1, ops))) as Esq
      by (rewrite Eb0, set_sequence_batch, u64_small by lia; done).
    pose proof (write_busy _ _ _ _ _ _ _ _ _ _ _ _ Hh Eb Eg Esq (count_batch (last_sequence (state d) + 1) ops ltac:(lia)) Ew) as Hwr.
    unfold event. rewrite Hwr, Et. cbn [mbind option_bind].
    rewrite (u64_small (last_sequence _ + Z.of_nat _)) by lia.
    assert ((if tmp is Some _ then clear else clear) = clear) as -> by (by destruct tmp). reflexivity.
  - split; [lia|]. destruct (is_ok status); [by exists frs|]. destruct Hw as [H1 H2]. eauto.
Qed.

Lemma busy_turn d acks leader rest first :
  InvE d acks -> healthy d = true -> batch leader = Some first -> event_ok (Turn leader rest) ->
  last_sequence (state d) + Z.of_nat (length (event_ops (Turn leader rest))) < kMaxSequenceNumber ->
  exists r d', event rng_next d (Turn leader rest) = Some (r, d') /\ event_done d acks (Turn leader rest) r d'.
Proof.
  intros (olds & cur & k & frss & extra & frsx & I) Hh Eb Hok Hmax.
  pose proof (inv_log _ _ _ _ _ _ _ _ I) as Il. rewrite Hh in Il. destruct (li_healthy _ _ _ _ _ _ _ Il eq_refl) as (-> & -> & _).
  destruct (busy_write _ _ _ _ _ _ _ _ _ I Hh Eb Hok Hmax) as (status & n & log & mem & lb & lw & bw & ops & Eops & Ee & Hle & Hw).
  exists (Some (status, S n)), (turned d status (S n) ops log mem lb lw bw). split; [exact Ee|].
  unfold event_done, acknowledged. rewrite (bool_decide_eq_true_2 (batch leader <> None)) by (by rewrite Eb). rewrite andb_true_r.
  replace (S n - 1)%nat with n by lia. rewrite <- Eops. destruct (is_ok status) eqn:Es.
  - destruct Hw as (frs & Hlog & Hmem). split; [by eapply turned_ok|].
    unfold turned. rewrite Es. cbn [state count_batches last_sequence background_error_]. intros _. split; [done|lia].
  - destruct Hw as (-> & extra & frsx & Hlog). split; [rewrite app_nil_r; by eapply turned_failed|].
    unfold turned, record_background_error. rewrite Es. cbn [state count_batches last_sequence background_error_]. rewrite Hh.
    cbn [count_batches background_error_]. by rewrite Es.
Qed.

Lemma busy_rotate d acks olds cur k frss faults directory seed r d' :
  Inv d acks olds cur k frss [] [] -> healthy d = true -> imm_ (state d) = None ->
  event rng_next d (Rotate (inr faults) directory seed) = Some (r, d') -> event_done d acks (Rotate (inr faults) directory seed) r d'.
Proof.
  intros I Hh Hi E. pose proof (inv_log _ _ _ _ _ _ _ _ I) as Il. rewrite Hh in Il.
  unfold event in E. rewrite Hh, Hi in E. unfold rotate in E. destruct (writer_sync (log_ (state d))) as [s log] eqn:Es.
  destruct (push_advanced true _ _ _ Es ltac:(apply Il)) as ([A1 A2 A3 A4] & Eo & Hk & Hd).
  destruct (li_healthy _ _ _ _ _ _ _ Il eq_refl) as (_ & _ & Ec & Eoff).
  set (status := if is_ok s then directory else s) in E. destruct (is_ok status) eqn:Est.
  - subst status. destruct (is_ok s) eqn:Eok; [|congruence]. specialize (Hd eq_refl eq_refl).
    destruct (close_kept _ Hd) as [C1 C2]. destruct (wf_close (dest_ log)) as [sc f]. cbn [snd] in *.
    injection E as <- <-. destruct I as [I1 _ I3 I4 I5 I6 I7 I8]. split.
    + rewrite app_nil_r. exists (olds ++ [cur]), [], 0%nat, [], [], [].
      split; cbn [state closed log_ mem_ imm_ tmp_batch_ last_sequence background_error_ option_list]; rewrite ?Hh; try done.
      * apply Forall2_app; [done|]. constructor; [|constructor]. split; [congruence|]. exists frss.
        split; [|congruence]. pose proof (li_fits _ _ _ _ _ _ _ Il) as Hf. by rewrite !app_nil_r in Hf.
      * apply LogInv_new.
      * rewrite concat_app, app_nil_r. cbn. by rewrite app_nil_r.
      * rewrite Nat.add_0_r, drop_ge; [constructor|]. rewrite concat_app. cbn. rewrite app_nil_r, I3, numbered_length, length_fmap. done.
      * apply mem_holds_new.
      * intros m [= <-]. exists cur. by rewrite last_snoc.
      * intros _. by apply I7.
    + cbn. intros _. split; [done|lia].
  - injection E as <- <-. destruct I as [I1 _ I3 I4 I5 I6 I7 I8]. split.
    + rewrite !app_nil_r. exists olds, cur, k, frss, [], [].
      unfold record_background_error. cbn [background_error_]. rewrite Hh.
      split; cbn [state closed log_ mem_ imm_ tmp_batch_ last_sequence background_error_]; rewrite ?Est; try done.
      destruct Il as [L1 L2 L3 L4 L5 L6 L7 L8 L9]. split; try done; [by rewrite A1|lia|lia|congruence].
    + unfold record_background_error. cbn [background_error_]. rewrite Hh. cbn [state background_error_]. by rewrite Est.
Qed.

Lemma event_spec d acks e :
  InvE d acks -> event_ok e -> (healthy d = true -> last_sequence (state d) + Z.of_nat (length (event_ops e)) < kMaxSequenceNumber) ->
  exists r d', event rng_next d e = Some (r, d') /\ event_done d acks e r d'.
Proof.
  intros HI Hok Hmax. destruct e as [leader rest|opened directory seed|].
  - destruct (healthy d) eqn:Hh; [|apply idle_turn; auto]. destruct (batch leader) as [first|] eqn:Eb; [|apply idle_turn; auto].
    eapply busy_turn; eauto.
  - assert (event_done d acks (Rotate opened directory seed) None d) as Hsame.
    { split; [by rewrite app_nil_r|]. cbn. intros H. split; [done|lia]. }
    destruct (healthy d) eqn:Hh; [|exists None, d; split; [unfold event; by rewrite Hh|done]].
    destruct (imm_ (state d)) as [m|] eqn:Hi; [exists None, d; split; [unfold event; by rewrite Hh, Hi|done]|].
    destruct opened as [s|faults].
    + exists None, d. split; [|done]. unfold event. rewrite Hh, Hi. cbn. rewrite app_nil_r. by destruct d.
    + destruct HI as (olds & cur & k & frss & extra & frsx & I).
      pose proof (inv_log _ _ _ _ _ _ _ _ I) as Il. rewrite Hh in Il. destruct (li_healthy _ _ _ _ _ _ _ Il eq_refl) as (-> & -> & _).
      destruct (event rng_next d (Rotate (inr faults) directory seed)) as [[r d']|] eqn:E.
      { exists r, d'. split; [done|]. by eapply busy_rotate. }
      exfalso. unfold event in E. rewrite Hh, Hi in E. by destruct (rotate _ _ _ _) as [[? ?] ?].
  - destruct HI as (olds & cur & k & frss & extra & frsx & I). eexists _, _. split; [reflexivity|]. split.
    + rewrite app_nil_r. exists olds, cur, k, frss, extra, frsx. destruct I. by split.
    + cbn. intros H. split; [done|lia].
Qed.

Lemma run_spec es d acks :
  InvE d acks -> Forall event_ok es ->
  (healthy d = true -> last_sequence (state d) + Z.of_nat (length (es ≫= event_ops)) < kMaxSequenceNumber) ->
  exists rs acks' d', run rng_next d es = Some (rs, acks', d') /\ InvE d' (acks ++ acks').
Proof.
  revert d acks. induction es as [|e es IH]; intros d acks HI Hok Hmax.
  { exists [], [], d. split; [done|]. by rewrite app_nil_r. }
  apply Forall_cons in Hok as [He Hok]. cbn [mbind list_bind] in Hmax. rewrite length_app in Hmax.
  destruct (event_spec d acks e HI He) as (r & d1 & E & HI1 & Hseq); [intros Hh; specialize (Hmax Hh); lia|].
  destruct (IH d1 _ HI1 Hok) as (rs & acks' & d' & Er & HI'); [intros Hh; destruct (Hseq Hh) as [Hh0 ?]; specialize (Hmax Hh0); lia|].
  exists (r :: rs), (acknowledged e r ++ acks'), d'. split; [|by rewrite app_assoc].
  cbn [run]. rewrite E. cbn [mbind option_bind]. by rewrite Er.
Qed.

(** ** Crashes

    A power cut leaves of a file at least what was waited for on the device, a
    killed process at least what was handed to the kernel. *)
Definition after_power_cut (f : WritableFile) (left : bytes) : Prop :=
  exists n, (length (wf_disk f) <= n)%nat /\ left = take n (wf_contents f).
Definition after_kill (f : WritableFile) (left : bytes) : Prop :=
  exists n, (length (wf_disk f ++ wf_kernel f) <= n)%nat /\ left = take n (wf_contents f).
Definition replays (left : bytes) (recs : list bytes) : Prop :=
  exists fuel r, read_all fuel (LogReader_new (mkSequential left [])) = Some (recs, r).

Lemma kill_power_cut f left : after_kill f left -> after_power_cut f left.
Proof. intros (n & Hn & ->). exists n. split; [|done]. rewrite length_app in Hn. lia. Qed.

Lemma closed_replays f bs left : closed_log f bs -> after_power_cut f left -> replays left (encode_batch <$> bs).
Proof.
  intros (Ed & frss & Hf & Ec) (n & Hn & ->). rewrite <- Ed in Hn. rewrite take_ge by done.
  destruct (read_all_whole _ _ 0 (LogReader_new (mkSequential (wf_contents f) [])) Hf) as (r & E & _).
  { apply ready_fresh. by rewrite Ec. }
  by exists (S (length (encode_batch <$> bs))), r.
Qed.
Definition encode_log (bs : list (Z * list Op)) : list bytes := encode_batch <$> bs.
Lemma all_closed_replay fs olds lefts :
  Forall2 closed_log fs olds -> Forall2 after_power_cut fs lefts -> Forall2 replays lefts (encode_log <$> olds).
Proof.
  intros Ho. revert lefts. induction Ho as [|f bs fs olds H Ho IH]; intros lefts Hl.
  - apply Forall2_nil_inv_l in Hl as ->. constructor.
  - apply Forall2_cons_inv_l in Hl as (left & lefts' & Hleft & Hl & ->). cbn. constructor; [by eapply closed_replays|by apply IH].
Qed.
Lemma concat_encoded (l : list (list (Z * list Op))) : concat (encode_log <$> l) = encode_batch <$> concat l.
Proof. induction l as [|x l IH]; [done|]. rewrite fmap_cons, !concat_cons, IH, fmap_app. done. Qed.

(** The batches acknowledged, as log records. *)
Definition records (acks : list Ack) : list bytes := encode_batch <$> numbered 1 (ack_ops <$> acks).

Lemma crash_spec d acks lefts :
  InvE d acks -> Forall2 after_power_cut (all_logs d) lefts ->
  exists recss extra j, Forall2 replays lefts recss /\ concat recss = take j (records acks ++ extra) /\ (length extra <= 1)%nat /\
    (forall i a, acks !! i = Some a -> ack_sync a = true -> (i < j)%nat) /\
    (Forall2 after_kill (all_logs d) lefts -> (length acks <= j)%nat).
Proof.
  intros (olds & cur & k & frss & extra & frsx & I) Hl. unfold all_logs in *.
  apply Forall2_app_inv_l in Hl as (lo & lc & Ho & Hc & ->). apply Forall2_cons_inv_l in Hc as (left & l & Hc & Hn & ->).
  apply Forall2_nil_inv_l in Hn as ->. pose proof (all_closed_replay _ _ _ (inv_closed _ _ _ _ _ _ _ _ I) Ho) as Hold.
  destruct I as [_ Il Ea Hs _ _ _ _]. destruct Hc as (n & Hn & Eleft).
  destruct (recovered _ _ _ _ _ _ _ n Il Hn) as (fuel & j & r & E & Hk & Hkill).
  exists ((encode_log <$> olds) ++ [take j ((encode_batch <$> cur) ++ extra)]), extra, (length (concat olds) + j)%nat.
  assert (length acks = (length (concat olds) + length cur)%nat) as Elen.
  { rewrite <- (length_fmap ack_ops acks), <- (numbered_length 1), <- Ea, length_app. done. }
  split; [|split; [|split; [apply Il|split]]].
  - apply Forall2_app; [done|]. constructor; [|constructor]. exists fuel, r. by rewrite Eleft.
  - unfold records. rewrite <- Ea, concat_app, concat_encoded, fmap_app, <- app_assoc. cbn. rewrite app_nil_r.
    rewrite (take_app (encode_batch <$> concat olds)), (take_ge (encode_batch <$> concat olds)) by (rewrite length_fmap; lia). do 2 f_equal. rewrite length_fmap. lia.
  - intros i a Hi Hsa. destruct (Nat.lt_ge_cases i (length (concat olds) + k)) as [|Hge]; [lia|]. exfalso.
    rewrite Forall_forall in Hs. rewrite (Hs a) in Hsa; [done|]. apply list_elem_of_lookup. exists (i - (length (concat olds) + k))%nat.
    rewrite lookup_drop. by replace (_ + k + (i - _))%nat with i by lia.
  - intros Hall. apply Forall2_app_inv in Hall as [_ Hlast]; [|by apply Forall2_length in Ho].
    apply Forall2_cons_1 in Hlast as [(n' & Hn' & En') _]. rewrite Elen.
    (* the same bytes are left, so the longer of the two counts may be taken *)
    destruct (Nat.le_gt_cases (length (wf_disk (dest_ (log_ (state d))) ++ wf_kernel (dest_ (log_ (state d))))) n) as [Hle|Hlt];
      [specialize (Hkill Hle); lia|]. exfalso.
    assert (length (wf_disk (dest_ (log_ (state d))) ++ wf_kernel (dest_ (log_ (state d)))) <= length (wf_contents (dest_ (log_ (state d)))))%nat
      by (unfold wf_contents; rewrite !length_app; lia).
    apply (f_equal length) in En'. rewrite Eleft, !length_take in En'. lia.
Qed.

End Run.

(** ** Example

    Two writers in one group, a synced one that has to wait, a rotation, and
    a write that meets a short write of the new log. *)
Definition put_request (k v : byte) (s : bool) : Request := mkRequest (Some (batch_of [Put [k] [v]])) s.
Definition sample_events : list (@Event Z) :=
  [Turn (put_request x61 x31 false) [put_request x62 x32 false; put_request x63 x33 true];
   Turn (put_request x63 x33 true) [];
   Rotate (inr [None; None; None; Some 3%nat]) ok 7;
   Turn (put_request x64 x34 false) [];
   Turn (put_request x65 x35 false) []].

Lemma sample_results :
  (fst <$> run MemTable.counter (fresh [] 3) sample_events) =
  Some ([Some (ok, 2%nat); Some (ok, 1%nat); None; Some (ok, 1%nat); Some (io_error "short write", 1%nat)],
        [mkAck false [Put [x61] [x31]; Put [x62] [x32]]; mkAck true [Put [x63] [x33]]; mkAck false [Put [x64] [x34]]]).
Proof. vm_compute. reflexivity. Qed.

End WriteGroup.
