(* ===== verification/WriteQueue.v ===== *)
(** The queue of writers ([DBImpl::Writer], [DBImpl::write] and
    [DBImpl::await_turn] in src/src/db_impl.cpp) as a transition system: any
    number of threads inside [write()], the mutex, the atomic [state] a writer
    watches without it, and its condition variable.

    A step is what one thread does between two points where another may see
    it: a critical section under [mutex_], or one access to an atomic.  What
    the leader does with the log and the memtable is in WriteGroup.v; here it
    ends with some status.  [make_room_for_write] gives the mutex up at most
    [patience] times before it has room or an error: that the flushes and
    compactions it waits for come to an end is what the writers rely on. *)
From stdpp Require Import relations.
From S2P Require Import Prelude Status WriteBatch WriteGroup.
Import Status.
Import WriteGroup.

Module WriteQueue.

Inductive WState := kWaiting | kParked | kDone | kLeader.
#[global] Instance WState_eq_dec : EqDecision WState.
Proof. solve_decision. Defined.

(** What a leader that holds the mutex does next: answer the next member up to
    [last], promote the front, or return. *)
Inductive Next :=
  | NAnswer (last : nat) (status : Status)
  | NPromote (status : Status)
  | NReturn (status : Status).

Inductive Pc :=
  | Start                      (* in front of [lock] *)
  | Watch                      (* spinning on [state], without the mutex *)
  | Relock                     (* done watching, in front of [lock.lock()] *)
  | Check                      (* holding the mutex, in front of the test of [state] *)
  | Wait                       (* asleep in [condition.wait], the mutex released *)
  | Woken                      (* awake in [condition.wait], taking the mutex *)
  | Room (rounds : nat)        (* leader in [make_room_for_write] *)
  | RoomWait (rounds : nat)    (* the same, the mutex given up *)
  | Write (last : nat)         (* leader at the log and the memtable, without the mutex *)
  | Leading (n : Next)
  | Notify (w : nat) (n : Next)   (* the exchange saw [kParked]: in front of [notify_one] *)
  | Returned (status : Status) (synced : bool).

(** A thread in [write()] with its [Writer].  [by_sync], with no counterpart
    in the code, is whether the group that answered it synced the log; so is
    the flag of [Returned]. *)
Record Thread := mkThread {
  request : Request;
  wstate : WState;
  wstatus : Status;
  by_sync : bool;
  pc : Pc
}.
Definition set_pc (th : Thread) (p : Pc) : Thread := mkThread (request th) (wstate th) (wstatus th) (by_sync th) p.
Definition set_state (th : Thread) (s : WState) : Thread := mkThread (request th) s (wstatus th) (by_sync th) (pc th).
Definition set_status (th : Thread) (s : Status) (by_ : bool) : Thread := mkThread (request th) (wstate th) s by_ (pc th).

(** [notify_one] on a writer's own condition variable. *)
Definition wake (th : Thread) : Thread := match pc th with Wait => set_pc th Woken | _ => th end.

(** [arrived] and [answered] record the order of the queue's ends. *)
Record Sys := mkSys {
  threads : list Thread;
  writers_ : list nat;
  mutex_ : option nat;
  writers_parked_ : Z;
  arrived : list nat;
  answered : list nat
}.
Definition Sys_new : Sys := mkSys [] [] None 0 [] [].

(** Thread [t] becomes [th], with the mutex as given. *)
Definition move (s : Sys) (t : nat) (th : Thread) (m : option nat) : Sys :=
  mkSys (<[t := th]> (threads s)) (writers_ s) m (writers_parked_ s) (arrived s) (answered s).
Definition no_request : Request := mkRequest None false.
Definition request_in (ths : list Thread) (w : nat) : Request := default no_request (request <$> ths !! w).
Abbreviation request_of s := (request_in (threads s)).

Section Steps.
Context (patience : nat).

(** Where a thread goes when [await_turn] is over or the queue was empty. *)
Definition proceed (s : Sys) (t : nat) (th : Thread) : Sys :=
  match wstate th with
  | kDone => move s t (set_pc th (Returned (wstatus th) (by_sync th))) None
  | _ => move s t (set_pc th (Room patience)) (Some t)
  end.

(** [write] up to [await_turn]: join the queue, and lead, spin or park. *)
Definition enqueue (s : Sys) (t : nat) (th : Thread) : Sys :=
  let '(p, m) :=
    match writers_ s with
    | [] => (Room patience, Some t)
    | front :: _ =>
        let r := request_of s front in
        if negb (sync r) && bool_decide (batch r <> None) then (Watch, None) else (Check, Some t)
    end in
  mkSys (<[t := set_pc th p]> (threads s)) (writers_ s ++ [t]) m (writers_parked_ s) (arrived s ++ [t]) (answered s).

Definition park (s : Sys) (t : nat) (th : Thread) : Sys :=
  mkSys (<[t := set_pc (set_state th kParked) Wait]> (threads s)) (writers_ s) None (u64 (writers_parked_ s + 1)) (arrived s) (answered s).

(** The last member of the group [build_batch_group] forms. *)
Definition group_of (s : Sys) (t : nat) (first : WriteBatch.WriteBatch) (rest : list nat) : nat :=
  let n := snd (build_batch_group first (sync (request_of s t)) WriteBatch.clear (request_of s <$> rest)) in
  default t (last (take n rest)).

(** [release]: the exchange, and whether the writer has to be woken. *)
Definition release (s : Sys) (t : nat) (th : Thread) (w : nat) (tw : Thread) (new_state : WState) (n : Next) : Sys :=
  let s' := mkSys (<[w := set_state tw new_state]> (threads s)) (writers_ s) (mutex_ s) (writers_parked_ s) (arrived s) (answered s) in
  move s' t (set_pc th (if bool_decide (wstate tw = kParked) then Notify w n else Leading n)) (Some t).
Definition pop (s : Sys) (q : list nat) (w : nat) : Sys :=
  mkSys (threads s) q (mutex_ s) (writers_parked_ s) (arrived s) (answered s ++ [w]).

(** What the program does. *)
Inductive work : Sys -> Sys -> Prop :=
  | work_enqueue s t th :
      threads s !! t = Some th -> pc th = Start -> mutex_ s = None -> work s (enqueue s t th)
  | work_watched s t th :             (* answered while it watched *)
      threads s !! t = Some th -> pc th = Watch -> wstate th = kDone ->
      work s (move s t (set_pc th (Returned (wstatus th) (by_sync th))) (mutex_ s))
  | work_unwatched s t th :           (* promoted, or out of time *)
      threads s !! t = Some th -> pc th = Watch -> wstate th <> kDone -> work s (move s t (set_pc th Relock) (mutex_ s))
  | work_relock s t th :
      threads s !! t = Some th -> pc th = Relock -> mutex_ s = None -> work s (move s t (set_pc th Check) (Some t))
  | work_checked s t th :
      threads s !! t = Some th -> pc th = Check -> wstate th <> kWaiting -> work s (proceed s t th)
  | work_park s t th :
      threads s !! t = Some th -> pc th = Check -> wstate th = kWaiting -> work s (park s t th)
  | work_woken s t th :
      threads s !! t = Some th -> pc th = Woken -> mutex_ s = None -> wstate th <> kParked -> work s (proceed s t th)
  | work_sleep_on s t th :            (* the test of the loop around [wait] *)
      threads s !! t = Some th -> pc th = Woken -> mutex_ s = None -> wstate th = kParked -> work s (move s t (set_pc th Wait) None)
  | work_room_wait s t th r :
      threads s !! t = Some th -> pc th = Room (S r) -> work s (move s t (set_pc th (RoomWait r)) None)
  | work_room_resume s t th r :
      threads s !! t = Some th -> pc th = RoomWait r -> mutex_ s = None -> work s (move s t (set_pc th (Room r)) (Some t))
  | work_no_room s t th r status :    (* an error, or nothing to write *)
      threads s !! t = Some th -> pc th = Room r -> is_ok status = false \/ batch (request th) = None ->
      work s (move s t (set_pc th (Leading (NAnswer t status))) (Some t))
  | work_group s t th r first rest :
      threads s !! t = Some th -> pc th = Room r -> batch (request th) = Some first -> writers_ s = t :: rest ->
      work s (move s t (set_pc th (Write (group_of s t first rest))) None)
  | work_written s t th last status :
      threads s !! t = Some th -> pc th = Write last -> mutex_ s = None ->
      work s (move s t (set_pc th (Leading (NAnswer last status))) (Some t))
  | work_answer_self s t th last status q :
      threads s !! t = Some th -> pc th = Leading (NAnswer last status) -> writers_ s = t :: q ->
      work s (move (pop s q t) t (set_pc th (Leading (if bool_decide (t = last) then NPromote status else NAnswer last status))) (Some t))
  | work_answer s t th last status ready tw q :
      threads s !! t = Some th -> pc th = Leading (NAnswer last status) -> writers_ s = ready :: q -> ready <> t ->
      threads s !! ready = Some tw ->
      work s (release (pop s q ready) t th ready (set_status tw status (sync (request th))) kDone
                (if bool_decide (ready = last) then NPromote status else NAnswer last status))
  | work_promote s t th status front tf q :
      threads s !! t = Some th -> pc th = Leading (NPromote status) -> writers_ s = front :: q -> threads s !! front = Some tf -> front <> t ->
      work s (release s t th front tf kLeader (NReturn status))
  | work_nobody s t th status :
      threads s !! t = Some th -> pc th = Leading (NPromote status) -> writers_ s = [] ->
      work s (move s t (set_pc th (Leading (NReturn status))) (Some t))
  | work_notify s t th w tw n :
      threads s !! t = Some th -> pc th = Notify w n -> threads s !! w = Some tw -> w <> t ->
      work s (move (move s w (wake tw) (Some t)) t (set_pc th (Leading n)) (Some t))
  | work_return s t th status :
      threads s !! t = Some th -> pc th = Leading (NReturn status) ->
      work s (move s t (set_pc th (Returned status (sync (request th)))) None).

(** What happens to it: calls of [write], and wake-ups for no reason. *)
Inductive world : Sys -> Sys -> Prop :=
  | world_call s r :
      world s (mkSys (threads s ++ [mkThread r kWaiting ok false Start]) (writers_ s) (mutex_ s) (writers_parked_ s) (arrived s) (answered s))
  | world_wakes s t th :
      threads s !! t = Some th -> pc th = Wait -> world s (move s t (set_pc th Woken) (mutex_ s)).

Definition step (s s' : Sys) : Prop := work s s' \/ world s s'.
Definition reachable (s : Sys) : Prop := rtc step Sys_new s.
End Steps.

(** * The invariant *)
Definition holds_mutex (p : Pc) : bool :=
  match p with Check | Room _ | Leading _ | Notify _ _ => true | _ => false end.
Definition mutex_ok (ths : list Thread) (m : option nat) : Prop :=
  forall u th, ths !! u = Some th -> holds_mutex (pc th) = true <-> m = Some u.

(** The front of the queue, up to [last], is a group thread [t] may answer. *)
Definition group (q : list nat) (rq : nat -> Request) (t last_writer : nat) : Prop :=
  exists g rest, q = g ++ rest /\ last g = Some last_writer /\
    forall w, w ∈ g -> w <> t -> sync (rq w) = true -> sync (rq t) = true.

(** Once a leader is out of the queue it stays out. *)
Definition at_front (q : list nat) (t : nat) : Prop := t ∈ q -> head q = Some t.
Definition next_ok (q : list nat) (rq : nat -> Request) (t : nat) (n : Next) : Prop :=
  match n with
  | NAnswer last_writer _ => at_front q t /\ group q rq t last_writer
  | NPromote _ => t ∉ q
  | NReturn _ => False
  end.
Definition lead_ok (q : list nat) (rq : nat -> Request) (t : nat) (th : Thread) : Prop :=
  match pc th with
  | Watch | Relock | Check | Wait | Woken => wstate th = kLeader /\ head q = Some t
  | Room _ | RoomWait _ => head q = Some t
  | Write last_writer => head q = Some t /\ group q rq t last_writer
  | Leading n | Notify _ n => next_ok q rq t n
  | Start | Returned _ _ => False
  end.
Definition other_ok (q : list nat) (t : nat) (th : Thread) : Prop :=
  match pc th with
  | Start => wstate th = kWaiting /\ t ∉ q
  | Watch | Relock | Check => (wstate th = kWaiting /\ t ∈ q) \/ (wstate th = kDone /\ t ∉ q)
  | Wait | Woken => (wstate th = kParked /\ t ∈ q) \/ (wstate th = kDone /\ t ∉ q)
  | Returned _ _ | Leading (NReturn _) | Notify _ (NReturn _) => t ∉ q
  | _ => False
  end.
Definition thread_ok (lead : option nat) (q : list nat) (rq : nat -> Request) (t : nat) (th : Thread) : Prop :=
  if decide (lead = Some t) then lead_ok q rq t th else other_ok q t th.

(** Nobody sleeps on a state that has changed, unless the wake-up is coming. *)
Definition notify_ok (ths : list Thread) : Prop :=
  forall t th w n, ths !! t = Some th -> pc th = Notify w n ->
    w <> t /\ exists tw, ths !! w = Some tw /\ (pc tw = Wait \/ pc tw = Woken) /\ (wstate tw = kDone \/ wstate tw = kLeader).
Definition wait_ok (ths : list Thread) : Prop :=
  forall w tw, ths !! w = Some tw -> pc tw = Wait -> wstate tw <> kParked -> exists t th n, ths !! t = Some th /\ pc th = Notify w n.

Definition sync_ok (th : Thread) : Prop :=
  sync (request th) = true ->
  (wstate th = kDone -> by_sync th = true) /\ (forall status b, pc th = Returned status b -> b = true).

Record Inv (lead : option nat) (s : Sys) : Prop := {
  i_nodup : NoDup (writers_ s);
  i_exists : forall w, w ∈ writers_ s -> is_Some (threads s !! w);
  i_mutex : mutex_ok (threads s) (mutex_ s);
  i_holder : forall t, mutex_ s = Some t -> is_Some (threads s !! t);
  i_lead : match lead with None => writers_ s = [] | Some l => is_Some (threads s !! l) end;
  i_ok : forall t th, threads s !! t = Some th -> thread_ok lead (writers_ s) (request_of s) t th;
  i_notify : notify_ok (threads s);
  i_wait : wait_ok (threads s);
  i_fifo : arrived s = answered s ++ writers_ s;
  i_sync : forall t th, threads s !! t = Some th -> sync_ok th
}.

(** ** Lemmas on its parts *)
Lemma request_insert ths t th th' u :
  ths !! t = Some th -> request th' = request th -> request_in (<[t := th']> ths) u = request_in ths u.
Proof.
  intros Ht Er. unfold request_in. destruct (decide (u = t)) as [->|Hne].
  - rewrite list_lookup_insert_eq by (by eapply lookup_lt_Some). rewrite Ht. cbn. by rewrite Er.
  - by rewrite list_lookup_insert_ne.
Qed.

Lemma lookup_insert_cases (ths : list Thread) t th' u thu :
  <[t := th']> ths !! u = Some thu -> (u = t /\ thu = th') \/ (u <> t /\ ths !! u = Some thu).
Proof.
  intros H. destruct (decide (u = t)) as [->|Hne]; [left|right].
  - pose proof (lookup_lt_Some _ _ _ H) as Hl. rewrite length_insert in Hl. rewrite list_lookup_insert_eq in H by done. by simplify_eq.
  - by rewrite list_lookup_insert_ne in H.
Qed.

Lemma insert_is_Some (ths : list Thread) t th' u : is_Some (ths !! u) -> is_Some (<[t := th']> ths !! u).
Proof. rewrite !lookup_lt_is_Some, length_insert. done. Qed.

Lemma mutex_insert ths m t th' m' :
  mutex_ok ths m -> (m = m' \/ ((m = None \/ m = Some t) /\ (m' = None \/ m' = Some t))) ->
  (holds_mutex (pc th') = true <-> m' = Some t) -> mutex_ok (<[t := th']> ths) m'.
Proof.
  intros Hm Hmm Ht u thu [[-> ->]|[Hne Hu]]%lookup_insert_cases; [done|]. rewrite (Hm u thu Hu).
  destruct Hmm as [->|[Ha Hb]]; [done|]. split; intros E; exfalso; destruct Ha, Hb; congruence.
Qed.

(** The group only looks at requests. *)
Lemma group_ext q rq rq' t l : (forall u, u ∈ q \/ u = t -> rq u = rq' u) -> group q rq t l -> group q rq' t l.
Proof.
  intros E (g & rest & Hq & Hl & Hs). exists g, rest. split; [done|]. split; [done|]. intros w Hw Hne.
  rewrite <- !E; [by apply Hs|by right|left; rewrite Hq; apply elem_of_app; by left].
Qed.
Lemma group_snoc q rq t l x : group q rq t l -> group (q ++ [x]) rq t l.
Proof. intros (g & rest & -> & H). exists g, (rest ++ [x]). split; [by rewrite app_assoc|done]. Qed.
Lemma head_snoc {A} (q : list A) t x : head q = Some t -> head (q ++ [x]) = Some t.
Proof. by destruct q. Qed.

Lemma lead_ok_ext q rq rq' t th : (forall u, u ∈ q \/ u = t -> rq u = rq' u) -> lead_ok q rq t th -> lead_ok q rq' t th.
Proof.
  intros E H. unfold lead_ok, next_ok in *. destruct (pc th) as [| | | | | | | | |n|w n|]; try done.
  - destruct H. split; [done|]. by eapply group_ext.
  - destruct n; try done. destruct H. split; [done|]. by eapply group_ext.
  - destruct n; try done. destruct H. split; [done|]. by eapply group_ext.
Qed.
Lemma other_ok_ext q q' t th : (t ∈ q <-> t ∈ q') -> other_ok q t th -> other_ok q' t th.
Proof. intros E H. unfold other_ok in *. destruct (pc th) as [| | | | | | | | |[]|? []|]; try done; by rewrite <- !E || (rewrite <- E). Qed.
Lemma lead_ok_snoc q rq t th x : x <> t -> lead_ok q rq t th -> lead_ok (q ++ [x]) rq t th.
Proof.
  intros Hx H. assert (at_front q t -> at_front (q ++ [x]) t) as Haf.
  { intros Ha [Hin|Hin]%elem_of_app; [by apply head_snoc, Ha|]. apply list_elem_of_singleton in Hin. congruence. }
  unfold lead_ok, next_ok in *. destruct (pc th) as [| | | | | | | | |[]|w []|]; try done;
    try (by apply head_snoc); try (destruct H as [H1 H2]; split; auto using head_snoc, group_snoc).
  - rewrite elem_of_app, list_elem_of_singleton. intros [|]; [done|congruence].
  - rewrite elem_of_app, list_elem_of_singleton. intros [|]; [done|congruence].
Qed.

Lemma thread_ok_lead q rq t th : thread_ok (Some t) q rq t th <-> lead_ok q rq t th.
Proof. unfold thread_ok. by rewrite decide_True. Qed.
Lemma thread_ok_other lead q rq t th : lead <> Some t -> thread_ok lead q rq t th <-> other_ok q t th.
Proof. intros H. unfold thread_ok. by rewrite decide_False. Qed.

(** Only the leader is past [await_turn], up to its return. *)
Definition leading_pc (p : Pc) : bool :=
  match p with
  | Room _ | RoomWait _ | Write _ => true
  | Leading n | Notify _ n => match n with NReturn _ => false | _ => true end
  | _ => false
  end.
Lemma leading_is_lead lead q rq t th : thread_ok lead q rq t th -> leading_pc (pc th) = true -> lead = Some t /\ lead_ok q rq t th.
Proof.
  intros H Hp. destruct (decide (lead = Some t)) as [->|Hne]; [by apply thread_ok_lead in H|].
  apply thread_ok_other in H; [|done]. unfold other_ok in H. destruct (pc th) as [| | | | | | | | |[]|? []|]; done.
Qed.

Lemma no_notify ths t th w n : mutex_ok ths None -> ths !! t = Some th -> pc th = Notify w n -> False.
Proof. intros Hm Ht Ep. assert (None = Some t) as H; [|done]. apply (Hm t th Ht). by rewrite Ep. Qed.
Lemma one_holder ths m t th u thu :
  mutex_ok ths m -> ths !! t = Some th -> ths !! u = Some thu -> holds_mutex (pc th) = true -> holds_mutex (pc thu) = true -> u = t.
Proof. intros Hm Ht Hu H1 H2. apply (Hm t th Ht) in H1. apply (Hm u thu Hu) in H2. congruence. Qed.

(** Threads nobody is about to wake, and that wake nobody. *)
Definition quiet_pc (p : Pc) : bool := match p with Wait | Woken | Notify _ _ => false | _ => true end.
Definition sleeps_well (th : Thread) : Prop := match pc th with Notify _ _ => False | Wait => wstate th = kParked | _ => True end.

Lemma quiet_insert ths t th th' :
  ths !! t = Some th -> notify_ok ths -> wait_ok ths -> quiet_pc (pc th) = true -> sleeps_well th' ->
  notify_ok (<[t := th']> ths) /\ wait_ok (<[t := th']> ths).
Proof.
  intros Ht Hn Hw Hq Hs. unfold sleeps_well in Hs. split.
  - intros u thu w n [[-> ->]|[Hne Hu]]%lookup_insert_cases Ep; [by rewrite Ep in Hs|].
    destruct (Hn u thu w n Hu Ep) as (Hwu & tw & Hw' & Hpc & Hst). split; [done|]. exists tw. split; [|done].
    rewrite list_lookup_insert_ne; [done|]. intros <-. rewrite Ht in Hw'. injection Hw' as ->. by destruct Hpc as [E|E]; rewrite E in Hq.
  - intros w tw [[-> ->]|[Hne Hu]]%lookup_insert_cases Ep Hp; [by rewrite Ep in Hs|].
    destruct (Hw w tw Hu Ep Hp) as (u & thu & n & Hu' & En). exists u, thu, n. split; [|done].
    rewrite list_lookup_insert_ne; [done|]. intros <-. rewrite Ht in Hu'. injection Hu' as ->. by rewrite En in Hq.
Qed.
Lemma free_insert ths t th' :
  mutex_ok ths None -> wait_ok ths -> sleeps_well th' -> notify_ok (<[t := th']> ths) /\ wait_ok (<[t := th']> ths).
Proof.
  intros Hm Hw Hs. unfold sleeps_well in Hs. split.
  - intros u thu w n [[-> ->]|[Hne Hu]]%lookup_insert_cases Ep; [by rewrite Ep in Hs|]. exfalso. by eapply no_notify.
  - intros w tw [[-> ->]|[Hne Hu]]%lookup_insert_cases Ep Hp; [by rewrite Ep in Hs|].
    destruct (Hw w tw Hu Ep Hp) as (u & thu & n & Hu' & En). exfalso. by eapply no_notify.
Qed.

(** One thread moves on. *)
Lemma Inv_update lead lead' s t th th' m' q' pk ar an :
  Inv lead s -> threads s !! t = Some th -> request th' = request th ->
  (mutex_ s = m' \/ ((mutex_ s = None \/ mutex_ s = Some t) /\ (m' = None \/ m' = Some t))) ->
  (holds_mutex (pc th') = true <-> m' = Some t) ->
  NoDup q' -> (forall w, w ∈ q' -> is_Some (threads s !! w)) ->
  match lead' with None => q' = [] | Some l => is_Some (threads s !! l) end ->
  (forall u thu, u <> t -> threads s !! u = Some thu -> thread_ok lead (writers_ s) (request_of s) u thu -> thread_ok lead' q' (request_of s) u thu) ->
  thread_ok lead' q' (request_of s) t th' -> sync_ok th' -> ar = an ++ q' ->
  notify_ok (<[t := th']> (threads s)) /\ wait_ok (<[t := th']> (threads s)) ->
  Inv lead' (mkSys (<[t := th']> (threads s)) q' m' pk ar an).
Proof.
  intros I Ht Er Hmm Hh Hnd Hex Hl Ho Hok Hsy Hf [Hn Hw].
  assert (forall q u thu, thread_ok lead' q (request_in (threads s)) u thu ->
    thread_ok lead' q (request_in (<[t := th']> (threads s))) u thu) as Hext.
  { intros q u thu. unfold thread_ok. case_decide; [|done]. apply lead_ok_ext. intros v _. symmetry. by eapply request_insert. }
  split; cbn [threads writers_ mutex_ arrived answered]; try done.
  - intros w Hw'. by apply insert_is_Some, Hex.
  - by eapply mutex_insert; [apply I|..].
  - intros u Hu. apply insert_is_Some. destruct (decide (u = t)) as [->|]; [by eauto|].
    destruct Hmm as [<-|[_ [|]]]; [by apply (i_holder _ _ I)|congruence|congruence].
  - destruct lead'; [by apply insert_is_Some|done].
  - intros u thu [[-> ->]|[Hne Hu]]%lookup_insert_cases; apply Hext; [done|]. apply Ho; [done..|]. by apply (i_ok _ _ I).
  - intros u thu [[-> ->]|[Hne Hu]]%lookup_insert_cases; [done|]. by apply (i_sync _ _ I u).
Qed.

(** The same with the queue and the leader unchanged. *)
Lemma Inv_move lead s t th th' m' pk :
  Inv lead s -> threads s !! t = Some th -> request th' = request th ->
  (mutex_ s = m' \/ ((mutex_ s = None \/ mutex_ s = Some t) /\ (m' = None \/ m' = Some t))) ->
  (holds_mutex (pc th') = true <-> m' = Some t) ->
  thread_ok lead (writers_ s) (request_of s) t th' -> sync_ok th' ->
  notify_ok (<[t := th']> (threads s)) /\ wait_ok (<[t := th']> (threads s)) ->
  Inv lead (mkSys (<[t := th']> (threads s)) (writers_ s) m' pk (arrived s) (answered s)).
Proof. intros I Ht Er Hmm Hh Hok Hsy Hn. eapply Inv_update; [done..|apply I|apply I| | |done|done|apply I|done]; [apply (i_lead _ _ I)|done]. Qed.

(** ** Every step keeps it *)
Lemma sync_pc th p : sync_ok th -> match p with Returned _ b => sync (request th) = true -> b = true | _ => True end -> sync_ok (set_pc th p).
Proof. intros H Hp Hs. destruct (H Hs) as [H1 H2]. split; [done|]. cbn. intros status b ->. by apply Hp. Qed.
Lemma sync_pc' th p : sync_ok th -> (forall st b, p <> Returned st b) -> sync_ok (set_pc th p).
Proof. intros H Hp. apply sync_pc; [done|]. destruct p; try done. by edestruct Hp. Qed.

Lemma idle_no_lead lead s : Inv lead s -> mutex_ s = None -> writers_ s = [] -> lead = None.
Proof.
  intros I Hm Hq. destruct lead as [l|]; [|done]. destruct (i_lead _ _ I) as [th Hl].
  pose proof (i_ok _ _ I l th Hl) as Hok. apply thread_ok_lead in Hok. rewrite Hq in Hok.
  pose proof (i_mutex _ _ I l th Hl) as Hh. rewrite Hm in Hh. unfold lead_ok in Hok.
  destruct (pc th); cbn in *; try done; try (by destruct Hok); exfalso; discriminate (proj1 Hh eq_refl).
Qed.

Section Preserve.
Context (patience : nat).
Abbreviation kept s' := (exists lead', Inv lead' s').

Lemma enqueue_kept lead s t th :
  Inv lead s -> threads s !! t = Some th -> pc th = Start -> mutex_ s = None -> kept (enqueue patience s t th).
Proof.
  intros I Ht Ep Hm. pose proof (i_ok _ _ I t th Ht) as Hok.
  assert (lead <> Some t) as Hlt by (intros ->; apply thread_ok_lead in Hok; unfold lead_ok in Hok; by rewrite Ep in Hok).
  apply thread_ok_other in Hok; [|done]. unfold other_ok in Hok. rewrite Ep in Hok. destruct Hok as [Hst Hq].
  assert (NoDup (writers_ s ++ [t])) as Hnd.
  { apply NoDup_app. split; [apply I|]. split; [|apply NoDup_singleton]. intros x Hx ->%list_elem_of_singleton. done. }
  assert (t ∈ writers_ s ++ [t]) as Htin by (apply elem_of_app; right; left).
  assert (forall w, w ∈ writers_ s ++ [t] -> is_Some (threads s !! w)) as Hex.
  { intros w [Hw| ->%list_elem_of_singleton]%elem_of_app; [by apply (i_exists _ _ I)|by eauto]. }
  assert (forall u, u <> t -> u ∈ writers_ s <-> u ∈ writers_ s ++ [t]) as Hin by (intros u Hu; rewrite elem_of_app, list_elem_of_singleton; naive_solver).
  assert (forall th', sleeps_well th' -> notify_ok (<[t := th']> (threads s)) /\ wait_ok (<[t := th']> (threads s))) as Hnw.
  { intros th' Hth'. eapply quiet_insert; [exact Ht|apply I|apply I|by rewrite Ep|done]. }
  pose proof (i_sync _ _ I t th Ht) as Hsy.
  unfold enqueue. destruct (writers_ s) as [|front q] eqn:Eq.
  - exists (Some t). eapply (Inv_update lead (Some t)); try done.
    + right. auto.
    + intros u thu Hu Hthu Ho. rewrite (idle_no_lead _ _ I Hm Eq) in Ho. apply thread_ok_other in Ho; [|done].
      apply thread_ok_other; [congruence|]. eapply other_ok_ext; [|exact Ho]. rewrite Eq. by apply Hin.
    + apply thread_ok_lead. done.
    + by apply sync_pc'.
    + rewrite (i_fifo _ _ I), Eq, app_nil_r. done.
    + by apply Hnw.
  - assert (exists l, lead = Some l) as [l ->].
    { destruct lead as [l|]; [by eauto|]. pose proof (i_lead _ _ I) as H. by rewrite Eq in H. }
    assert (forall p m', holds_mutex p = true <-> m' = Some t -> m' = None \/ m' = Some t -> p = Watch \/ p = Check ->
      Inv (Some l) (mkSys (<[t := set_pc th p]> (threads s)) (writers_ s ++ [t]) m' (writers_parked_ s) (arrived s ++ [t]) (answered s))) as Hgo.
    { intros p m' Hh Hm' Hp. eapply (Inv_update (Some l) (Some l)); try done; rewrite ?Eq in *; try done.
      - rewrite Hm. right. auto.
      - apply (i_lead _ _ I).
      - intros u thu Hu Hthu Ho. destruct (decide (l = u)) as [->|Hlu].
        + apply thread_ok_lead. apply thread_ok_lead in Ho. apply lead_ok_snoc; [congruence|exact Ho].
        + apply thread_ok_other in Ho; [|congruence]. apply thread_ok_other; [congruence|]. eapply other_ok_ext; [by apply Hin|exact Ho].
      - apply thread_ok_other; [done|]. unfold other_ok. cbn. destruct Hp as [-> | ->]; left; (split; [done|exact Htin]).
      - apply sync_pc'; [done|]. intros st b ->. by destruct Hp.
      - rewrite (i_fifo _ _ I), Eq. by rewrite app_assoc.
      - apply Hnw. by destruct Hp as [-> | ->]. }
    exists (Some l). rewrite Eq in Hgo. destruct (negb _ && _); apply Hgo; cbn; auto; by split.
Qed.

(** Moves of one thread under the same leader. *)
Lemma move_kept lead s t th p m' :
  Inv lead s -> threads s !! t = Some th ->
  (mutex_ s = m' \/ ((mutex_ s = None \/ mutex_ s = Some t) /\ (m' = None \/ m' = Some t))) ->
  (holds_mutex p = true <-> m' = Some t) -> thread_ok lead (writers_ s) (request_of s) t (set_pc th p) ->
  match p with Returned _ b => sync (request th) = true -> b = true | _ => True end ->
  sleeps_well (set_pc th p) -> quiet_pc (pc th) = true \/ mutex_ s = None -> Inv lead (move s t (set_pc th p) m').
Proof.
  intros I Ht Hm Hh Hok Hs Hw Hq. apply (Inv_move lead s t th); try done.
  - apply sync_pc; [by apply (i_sync _ _ I t)|done].
  - destruct Hq as [Hq|Hq]; [by eapply quiet_insert; [exact Ht|apply I|apply I|..]|].
    apply free_insert; [rewrite <- Hq; apply I|apply I|done].
Qed.

Lemma holder s lead t th : Inv lead s -> threads s !! t = Some th -> holds_mutex (pc th) = true -> mutex_ s = Some t.
Proof. intros I Ht. apply (i_mutex _ _ I t th Ht). Qed.

Lemma proceed_kept lead s t th :
  Inv lead s -> threads s !! t = Some th -> mutex_ s = None \/ mutex_ s = Some t -> quiet_pc (pc th) = true \/ mutex_ s = None ->
  (pc th = Check /\ wstate th <> kWaiting) \/ (pc th = Woken /\ wstate th <> kParked) -> Inv lead (proceed patience s t th).
Proof.
  intros I Ht Hm Hq Hp. pose proof (i_ok _ _ I t th Ht) as Hok. pose proof (i_sync _ _ I t th Ht) as Hsy.
  assert ((wstate th = kDone /\ thread_ok lead (writers_ s) (request_of s) t (set_pc th (Returned (wstatus th) (by_sync th)))) \/
          (wstate th = kLeader /\ thread_ok lead (writers_ s) (request_of s) t (set_pc th (Room patience)))) as Hcases.
  { unfold thread_ok, lead_ok, other_ok in *. case_decide; cbn; destruct Hp as [[E Hne]|[E Hne]]; rewrite E in Hok; naive_solver. }
  unfold proceed. destruct Hcases as [[E Hth]|[E Hth]]; rewrite E; (apply (move_kept lead s t th); [done|done| | |done| |done|done]).
  - right. auto.
  - done.
  - intros Hsync. by apply (Hsy Hsync).
  - right. auto.
  - done.
  - done.
Qed.

(** The exchange of [release] on a writer [w] of the queue, which becomes [tw']. *)
Lemma release_kept lead lead' s t th n0 w tw tw' n q' pk ar an :
  Inv lead s -> threads s !! t = Some th -> pc th = Leading n0 -> w <> t -> threads s !! w = Some tw -> w ∈ writers_ s -> lead <> Some w ->
  request tw' = request tw -> pc tw' = pc tw -> wstate tw' = kDone \/ wstate tw' = kLeader -> sync_ok tw' ->
  NoDup q' -> (forall u, u ∈ q' -> u ∈ writers_ s) ->
  match lead' with None => q' = [] | Some l => is_Some (threads s !! l) end ->
  (forall u thu, u <> t -> u <> w -> threads s !! u = Some thu -> thread_ok lead (writers_ s) (request_of s) u thu ->
     thread_ok lead' q' (request_of s) u thu) ->
  thread_ok lead' q' (request_of s) w tw' -> thread_ok lead' q' (request_of s) t (set_pc th (Leading n)) -> ar = an ++ q' ->
  Inv lead' (mkSys (<[t := set_pc th (if bool_decide (wstate tw = kParked) then Notify w n else Leading n)]> (<[w := tw']> (threads s))) q' (Some t) pk ar an).
Proof.
  intros I Ht Ep Hwt Hw Hin Hlw Er Epw Hst Hsw Hnd Hsub Hl Ho Hokw Hokt Hf.
  set (P := if bool_decide _ then _ else _). assert (P = Notify w n \/ P = Leading n) as HP by (subst P; case_bool_decide; auto).
  pose proof (i_ok _ _ I w tw Hw) as Hw0. apply thread_ok_other in Hw0; [|done]. unfold other_ok in Hw0.
  assert (mutex_ s = Some t) as Hm by (eapply holder; [done..|by rewrite Ep]).
  assert (<[w := tw']> (threads s) !! t = Some th) as Ht' by (rewrite list_lookup_insert_ne by done; done).
  assert (forall u thu v m, threads s !! u = Some thu -> pc thu = Notify v m -> False) as Hno.
  { intros u thu v m Hu Hpu. assert (u = t) as -> by (eapply (one_holder _ _ t th u thu); [apply I|done|done|by rewrite Ep|by rewrite Hpu]). congruence. }
  assert (forall u, request_in (<[t := set_pc th P]> (<[w := tw']> (threads s))) u = request_of s u) as Hrq.
  { intros u. rewrite (request_insert _ _ th) by done. by apply (request_insert _ _ tw). }
  assert (forall u thu, thread_ok lead' q' (request_of s) u thu -> thread_ok lead' q' (request_in (<[t := set_pc th P]> (<[w := tw']> (threads s)))) u thu) as Hext.
  { intros u thu. unfold thread_ok. case_decide; [|done]. apply lead_ok_ext. by intros v _. }
  split; cbn [threads writers_ mutex_ arrived answered]; try done.
  - intros u Hu. apply insert_is_Some, insert_is_Some, (i_exists _ _ I), Hsub, Hu.
  - apply (mutex_insert _ (Some t)); [|by left|cbn; by destruct HP as [-> | ->]]. apply (mutex_insert _ (Some t)); [rewrite <- Hm; apply I|by left|].
    rewrite Epw, <- Hm. by apply (i_mutex _ _ I).
  - intros u [= <-]. apply insert_is_Some. by eauto.
  - destruct lead'; [by apply insert_is_Some, insert_is_Some|done].
  - intros u thu [[-> ->]|[Hne [[-> ->]|[Hne' Hu]]%lookup_insert_cases]]%lookup_insert_cases; apply Hext; [|done|].
    + unfold thread_ok, lead_ok, other_ok in *. cbn in *. by destruct HP as [-> | ->].
    + apply Ho; [done..|]. by apply (i_ok _ _ I).
  - intros u thu v m [[-> ->]|[Hne [[-> ->]|[Hne' Hu]]%lookup_insert_cases]]%lookup_insert_cases Hp; [|rewrite Epw in Hp; by destruct (Hno _ _ _ _ Hw Hp)|by destruct (Hno _ _ _ _ Hu Hp)].
    cbn in Hp. subst P. case_bool_decide as Hpark; [|done]. injection Hp as <- <-. split; [done|]. exists tw'.
    rewrite list_lookup_insert_ne, list_lookup_insert_eq by (done || by eapply lookup_lt_Some). split; [done|]. split; [|done].
    rewrite Epw, Hpark in *. destruct (pc tw) as [| | | | | | | | |[]|? []|]; auto; naive_solver.
  - intros v tv [[-> ->]|[Hne [[-> ->]|[Hne' Hu]]%lookup_insert_cases]]%lookup_insert_cases Hp Hs; [by destruct HP as [E|E]; rewrite E in Hp| |].
    + rewrite Epw in Hp. rewrite Hp in Hw0. destruct Hw0 as [[Hpark _]|[_ ?]]; [|done]. exists t, (set_pc th P), n. split; [|cbn; subst P; by rewrite bool_decide_eq_true_2].
      apply list_lookup_insert_eq. rewrite length_insert. by eapply lookup_lt_Some.
    + destruct (i_wait _ _ I v tv Hu Hp Hs) as (u & thu & m & Hthu & Hpu). by destruct (Hno _ _ _ _ Hthu Hpu).
  - intros u thu [[-> ->]|[Hne [[-> ->]|[Hne' Hu]]%lookup_insert_cases]]%lookup_insert_cases; [|done|by apply (i_sync _ _ I u)].
    apply sync_pc'; [by apply (i_sync _ _ I t)|]. intros. by destruct HP as [-> | ->].
Qed.

Lemma pop_group rq t last ready q : NoDup (ready :: q) -> ready <> last -> group (ready :: q) rq t last -> group q rq t last.
Proof.
  intros Hnd Hne (g & rest & Hq & Hl & Hs). destruct g as [|x g]; [done|]. injection Hq as -> Hq. exists g, rest. split; [done|]. split.
  - destruct g; [by simplify_eq/=|done].
  - intros w Hw. apply Hs. by right.
Qed.
Lemma head_group rq t q : head q = Some t -> group q rq t t.
Proof.
  intros H. destruct q as [|x q]; [done|]. injection H as ->. exists [t], q. split; [done|]. split; [done|].
  intros w Hw%list_elem_of_singleton. congruence.
Qed.
Lemma formed_group s t first rest :
  writers_ s = t :: rest -> group (writers_ s) (request_of s) t (group_of s t first rest).
Proof.
  intros Eq. unfold group_of, build_batch_group. destruct (group_loop _ _ _ _ _ _ _) as [r n] eqn:E. cbn [snd].
  destruct (group_may_join _ _ _ _ _ _ _ _ _ E) as [_ Hj]. exists (t :: take n rest), (drop n rest). rewrite Eq. split; [cbn; by rewrite take_drop|].
  split; [destruct (take n rest) as [|x l] using rev_ind; [done|]|].
  - rewrite app_comm_cons, !last_snoc. done.
  - intros w Hw Hne. apply elem_of_cons in Hw as [|Hw]; [done|]. rewrite Forall_forall in Hj. apply (Hj (request_of s w)).
    rewrite <- fmap_take. by apply list_elem_of_fmap_2.
Qed.

Lemma answer_self_kept s lead t th last status q :
  Inv lead s -> threads s !! t = Some th -> pc th = Leading (NAnswer last status) -> writers_ s = t :: q ->
  kept (move (pop s q t) t (set_pc th (Leading (if bool_decide (t = last) then NPromote status else NAnswer last status))) (Some t)).
Proof.
  intros I Ht Ep Eq. pose proof (i_ok _ _ I t th Ht) as Hok. destruct (leading_is_lead _ _ _ _ _ Hok) as [-> Hlead]; [by rewrite Ep|].
  unfold lead_ok, next_ok in Hlead. rewrite Ep, Eq in Hlead. destruct Hlead as [_ Hg]. pose proof (i_nodup _ _ I) as Hnd. rewrite Eq in Hnd.
  assert (t ∉ q) as Htq by (by apply NoDup_cons in Hnd as [? _]). assert (mutex_ s = Some t) as Hm by (eapply holder; [done..|by rewrite Ep]).
  exists (Some t). unfold move, pop. cbn [threads writers_ mutex_ writers_parked_ arrived answered].
  eapply (Inv_update (Some t) (Some t) s t th); try done.
  - by left.
  - by apply NoDup_cons in Hnd as [_ ?].
  - intros w Hw. apply (i_exists _ _ I). rewrite Eq. by right.
  - intros u thu Hu Hthu Ho. apply thread_ok_other in Ho; [|congruence]. apply thread_ok_other; [congruence|].
    eapply other_ok_ext; [|exact Ho]. rewrite Eq, elem_of_cons. naive_solver.
  - apply thread_ok_lead. unfold lead_ok. cbn. case_bool_decide as Hb; cbn; [done|]. split; [by intros ?|]. by apply (pop_group _ t last t q).
  - apply sync_pc'; [by apply (i_sync _ _ I t)|done].
  - rewrite (i_fifo _ _ I), Eq, <- app_assoc. done.
  - eapply quiet_insert; [exact Ht|apply I|apply I|by rewrite Ep|done].
Qed.

Lemma answer_kept s lead t th last status ready tw q :
  Inv lead s -> threads s !! t = Some th -> pc th = Leading (NAnswer last status) -> writers_ s = ready :: q -> ready <> t ->
  threads s !! ready = Some tw ->
  kept (release (pop s q ready) t th ready (set_status tw status (sync (request th))) kDone
          (if bool_decide (ready = last) then NPromote status else NAnswer last status)).
Proof.
  intros I Ht Ep Eq Hne Hr. pose proof (i_ok _ _ I t th Ht) as Hok. destruct (leading_is_lead _ _ _ _ _ Hok) as [-> Hlead]; [by rewrite Ep|].
  unfold lead_ok, next_ok in Hlead. rewrite Ep, Eq in Hlead. destruct Hlead as [Haf Hg]. pose proof (i_nodup _ _ I) as Hnd. rewrite Eq in Hnd.
  assert (ready ∉ q) as Hrq by (by apply NoDup_cons in Hnd as [? _]).
  assert (t ∉ q) as Htq. { intros Htq. specialize (Haf ltac:(by right)). injection Haf as ->. done. }
  assert (ready ∈ writers_ s) as Hin by (rewrite Eq; left).
  exists (Some t). unfold release, pop, move. cbn [threads writers_ mutex_ writers_parked_ arrived answered wstate set_status].
  eapply (release_kept (Some t) (Some t) s t th _ ready tw); try done.
  - congruence.
  - by left.
  - intros Hs. split; [|intros st b E; exfalso; cbn in E].
    + intros _. cbn in Hs |- *. destruct Hg as (g & rest & Hq & Hl & Hgs). specialize (Hgs ready).
      unfold request_in in Hgs. rewrite Hr, Ht in Hgs. cbn in Hgs. apply Hgs; [|done|done]. destruct g; [done|]. injection Hq as <- _. left.
    + pose proof (i_ok _ _ I ready tw Hr) as Hw0. apply thread_ok_other in Hw0; [|congruence]. unfold other_ok in Hw0. rewrite E in Hw0. done.
  - by apply NoDup_cons in Hnd as [_ ?].
  - intros u Hu. rewrite Eq. by right.
  - intros u thu Hu Hur Hthu Ho. apply thread_ok_other in Ho; [|congruence]. apply thread_ok_other; [congruence|].
    eapply other_ok_ext; [|exact Ho]. rewrite Eq, elem_of_cons. naive_solver.
  - pose proof (i_ok _ _ I ready tw Hr) as Hw0. apply thread_ok_other in Hw0; [|congruence]. apply thread_ok_other; [congruence|].
    unfold other_ok in *. cbn. destruct (pc tw) as [| | | | | | | | |[]|? []|]; try done; by auto || (by destruct Hw0).
  - apply thread_ok_lead. unfold lead_ok. cbn. case_bool_decide as Hb; cbn; [done|]. split; [by intros ?|]. by eapply pop_group.
  - rewrite (i_fifo _ _ I), Eq, <- app_assoc. done.
Qed.

Lemma promote_kept s lead t th status front tf q :
  Inv lead s -> threads s !! t = Some th -> pc th = Leading (NPromote status) -> writers_ s = front :: q -> threads s !! front = Some tf -> front <> t ->
  kept (release s t th front tf kLeader (NReturn status)).
Proof.
  intros I Ht Ep Eq Hr Hne. pose proof (i_ok _ _ I t th Ht) as Hok. destruct (leading_is_lead _ _ _ _ _ Hok) as [-> Hlead]; [by rewrite Ep|].
  unfold lead_ok, next_ok in Hlead. rewrite Ep in Hlead. assert (front ∈ writers_ s) as Hin by (rewrite Eq; left).
  pose proof (i_ok _ _ I front tf Hr) as Hw0. apply thread_ok_other in Hw0; [|congruence]. unfold other_ok in Hw0.
  exists (Some front). unfold release, move. cbn [threads writers_ mutex_ writers_parked_ arrived answered].
  eapply (release_kept (Some t) (Some front) s t th _ front tf); try done.
  - congruence.
  - by right.
  - intros Hs. destruct (i_sync _ _ I front tf Hr Hs) as [_ H]. split; [done|exact H].
  - apply I.
  - intros u thu Hu Hur Hthu Ho. apply thread_ok_other in Ho; [|congruence]. apply thread_ok_other; [congruence|]. done.
  - apply thread_ok_lead. unfold lead_ok. cbn. rewrite Eq. destruct (pc tf) as [| | | | | | | | |[]|? []|]; try done; by destruct Hw0.
  - apply thread_ok_other; [congruence|]. done.
  - apply I.
Qed.

(** [Wait] and [Woken] mean the same to everything but the waker. *)
Lemma woken_kept lead s w tw m :
  Inv lead s -> threads s !! w = Some tw -> pc tw = Wait -> m = mutex_ s -> Inv lead (move s w (set_pc tw Woken) m).
Proof.
  intros I Hw Ep ->. apply (Inv_move lead s w tw); try done.
  - by left.
  - pose proof (i_mutex _ _ I w tw Hw) as H. by rewrite Ep in H.
  - pose proof (i_ok _ _ I w tw Hw) as Hok. unfold thread_ok, lead_ok, other_ok in *. rewrite Ep in Hok. done.
  - apply sync_pc'; [by apply (i_sync _ _ I w)|done].
  - split.
    + intros u thu v n [[-> ->]|[Hne Hu]]%lookup_insert_cases Hp; [done|]. destruct (i_notify _ _ I u thu v n Hu Hp) as (Hvu & tv & Hv & Hpv & Hsv).
      split; [done|]. destruct (decide (v = w)) as [->|Hvw].
      * exists (set_pc tw Woken). rewrite list_lookup_insert_eq by (by eapply lookup_lt_Some). split; [done|]. split; [by right|].
        rewrite Hw in Hv. by injection Hv as ->.
      * exists tv. by rewrite list_lookup_insert_ne.
    + intros v tv [[-> ->]|[Hne Hu]]%lookup_insert_cases Hp Hs; [done|]. destruct (i_wait _ _ I v tv Hu Hp Hs) as (u & thu & n & Hthu & Hpu).
      exists u, thu, n. split; [|done]. rewrite list_lookup_insert_ne; [done|]. intros <-. congruence.
Qed.

Lemma notify_kept lead s t th w tw n :
  Inv lead s -> threads s !! t = Some th -> pc th = Notify w n -> threads s !! w = Some tw -> w <> t ->
  Inv lead (move (move s w (wake tw) (Some t)) t (set_pc th (Leading n)) (Some t)).
Proof.
  intros I Ht Ep Hw Hwt. assert (mutex_ s = Some t) as Hm by (eapply holder; [done..|by rewrite Ep]).
  destruct (i_notify _ _ I t th w n Ht Ep) as (_ & tw' & Hw' & Hpw & _). rewrite Hw in Hw'. injection Hw' as <-.
  assert (Inv lead (move s w (wake tw) (Some t))) as I1.
  { unfold wake. destruct Hpw as [E|E]; rewrite E; [by apply woken_kept|].
    unfold move. rewrite list_insert_id by done. rewrite <- Hm. by destruct s. }
  set (s1 := move s w (wake tw) (Some t)) in *.
  assert (pc (wake tw) = Woken) as Eww by (unfold wake; by destruct Hpw as [E|E]; rewrite E).
  assert (threads s1 !! t = Some th) as Ht1 by (cbn; by rewrite list_lookup_insert_ne).
  assert (threads s1 !! w = Some (wake tw)) as Hw1 by (cbn; rewrite list_lookup_insert_eq by (by eapply lookup_lt_Some); done).
  apply (Inv_move lead s1 t th); try done.
  - by left.
  - pose proof (i_ok _ _ I1 t th Ht1) as Hok. unfold thread_ok, lead_ok, other_ok in *. rewrite Ep in Hok. cbn. done.
  - apply sync_pc'; [by apply (i_sync _ _ I1 t)|done].
  - assert (forall u thu v m, threads s1 !! u = Some thu -> pc thu = Notify v m -> u = t /\ v = w) as Hone.
    { intros u thu v m Hu Hp. assert (u = t) as -> by (eapply (one_holder _ _ t th u thu); [apply I1|done|done|by rewrite Ep|by rewrite Hp]).
      rewrite Ht1 in Hu. injection Hu as <-. rewrite Ep in Hp. by injection Hp as <-. }
    split.
    + intros u thu v m [[-> ->]|[Hne Hu]]%lookup_insert_cases Hp; [done|]. destruct (Hone _ _ _ _ Hu Hp). done.
    + intros v tv [[-> ->]|[Hne Hu]]%lookup_insert_cases Hp Hs; [done|]. destruct (i_wait _ _ I1 v tv Hu Hp Hs) as (u & thu & m & Hthu & Hpu).
      destruct (Hone _ _ _ _ Hthu Hpu) as [-> ->]. rewrite Hw1 in Hu. injection Hu as <-. congruence.
Qed.

Lemma work_kept lead s s' : Inv lead s -> work patience s s' -> kept s'.
Proof.
  intros I W. destruct W as [s t th Ht Ep Hm|s t th Ht Ep Hst|s t th Ht Ep Hst|s t th Ht Ep Hm|s t th Ht Ep Hst|s t th Ht Ep Hst
    |s t th Ht Ep Hm Hst|s t th Ht Ep Hm Hst|s t th r Ht Ep|s t th r Ht Ep Hm|s t th r status Ht Ep Hno|s t th r first rest Ht Ep Hb Hq
    |s t th last status Ht Ep Hm|s t th last status q Ht Ep Hq|s t th last status ready tw q Ht Ep Hq Hne Hr
    |s t th status front tf q Ht Ep Hq Hf Hne|s t th status Ht Ep Hq|s t th w tw n Ht Ep Hw Hne|s t th status Ht Ep];
    pose proof (i_ok _ _ I t th Ht) as Hok.
  - by eapply enqueue_kept.
  - exists lead. apply (move_kept lead s t th); try done; [by left| | | |by left; rewrite Ep].
    + pose proof (i_mutex _ _ I t th Ht) as H. by rewrite Ep in H.
    + unfold thread_ok, lead_ok, other_ok in *. rewrite Ep in Hok. cbn. case_decide; [destruct Hok; congruence|]. destruct Hok as [[? ?]|[? ?]]; [congruence|done].
    + intros Hs. by apply (i_sync _ _ I t th Ht Hs).
  - exists lead. apply (move_kept lead s t th); try done; [by left| | |by left; rewrite Ep].
    + pose proof (i_mutex _ _ I t th Ht) as H. by rewrite Ep in H.
    + unfold thread_ok, lead_ok, other_ok in *. rewrite Ep in Hok. cbn. done.
  - exists lead. apply (move_kept lead s t th); try done; [right; auto| |by left; rewrite Ep].
    unfold thread_ok, lead_ok, other_ok in *. rewrite Ep in Hok. cbn. done.
  - exists lead. apply proceed_kept; try done; [right; by eapply holder; [done..|rewrite Ep]|by left; rewrite Ep|by left].
  - exists lead. assert (mutex_ s = Some t) as Hm by (eapply holder; [done..|by rewrite Ep]).
    apply (Inv_move lead s t th); try done; [right; auto| |eapply quiet_insert; [exact Ht|apply I|apply I|by rewrite Ep|done]].
    unfold thread_ok, lead_ok, other_ok in *. rewrite Ep in Hok. cbn. case_decide; [destruct Hok; congruence|]. destruct Hok as [[? ?]|[? ?]]; [by left|congruence].
  - exists lead. apply proceed_kept; try done; [by left|by right|by right].
  - exists lead. apply (move_kept lead s t th); try done; [by left| |by right].
    unfold thread_ok, lead_ok, other_ok in *. rewrite Ep in Hok. cbn. done.
  - exists lead. assert (mutex_ s = Some t) as Hm by (eapply holder; [done..|by rewrite Ep]).
    apply (move_kept lead s t th); try done; [right; auto| |by left; rewrite Ep].
    unfold thread_ok, lead_ok, other_ok in *. rewrite Ep in Hok. cbn. done.
  - exists lead. apply (move_kept lead s t th); try done; [right; auto| |by left; rewrite Ep].
    unfold thread_ok, lead_ok, other_ok in *. rewrite Ep in Hok. cbn. done.
  - exists lead. assert (mutex_ s = Some t) as Hm by (eapply holder; [done..|by rewrite Ep]).
    destruct (leading_is_lead _ _ _ _ _ Hok) as [-> Hlead]; [by rewrite Ep|]. unfold lead_ok in Hlead. rewrite Ep in Hlead.
    apply (move_kept _ s t th); try done; [by left| |by left; rewrite Ep]. apply thread_ok_lead. split; [by intros _|by apply head_group].
  - exists lead. assert (mutex_ s = Some t) as Hm by (eapply holder; [done..|by rewrite Ep]).
    destruct (leading_is_lead _ _ _ _ _ Hok) as [-> Hlead]; [by rewrite Ep|].
    apply (move_kept _ s t th); try done; [right; auto| |by left; rewrite Ep]. apply thread_ok_lead.
    split; [by rewrite Hq|by apply formed_group].
  - exists lead. destruct (leading_is_lead _ _ _ _ _ Hok) as [-> Hlead]; [by rewrite Ep|]. unfold lead_ok in Hlead. rewrite Ep in Hlead.
    destruct Hlead as [Hh Hg]. apply (move_kept _ s t th); try done; [right; auto| |by left; rewrite Ep]. apply thread_ok_lead.
    split; [by intros _|done].
  - by eapply answer_self_kept.
  - by eapply answer_kept.
  - by eapply promote_kept.
  - destruct (leading_is_lead _ _ _ _ _ Hok) as [-> Hlead]; [by rewrite Ep|]. exists None.
    assert (mutex_ s = Some t) as Hm by (eapply holder; [done..|by rewrite Ep]).
    eapply (Inv_update (Some t) None s t th); try done.
    + by left.
    + apply I.
    + apply I.
    + intros u thu Hu Hthu Ho. apply thread_ok_other in Ho; [|congruence]. by apply thread_ok_other.
    + apply thread_ok_other; [done|]. cbn. rewrite Hq. apply not_elem_of_nil.
    + apply sync_pc'; [by apply (i_sync _ _ I t)|done].
    + apply I.
    + eapply quiet_insert; [exact Ht|apply I|apply I|by rewrite Ep|done].
  - exists lead. by eapply notify_kept.
  - exists lead. assert (mutex_ s = Some t) as Hm by (eapply holder; [done..|by rewrite Ep]).
    apply (move_kept lead s t th); try done; [right; auto| |by left; rewrite Ep].
    unfold thread_ok, lead_ok, other_ok in *. rewrite Ep in Hok. cbn. case_decide; done.
Qed.

Lemma call_kept lead s r :
  Inv lead s ->
  Inv lead (mkSys (threads s ++ [mkThread r kWaiting ok false Start]) (writers_ s) (mutex_ s) (writers_parked_ s) (arrived s) (answered s)).
Proof.
  intros I. set (new := mkThread r kWaiting ok false Start).
  assert (forall u thu, (threads s ++ [new]) !! u = Some thu -> threads s !! u = Some thu \/ (u = length (threads s) /\ thu = new)) as Hcases.
  { intros u thu Hu. apply lookup_app_Some in Hu as [Hu|[Hge Hu]]; [by left|right]. apply list_lookup_singleton_Some in Hu as [Hu ->]. split; [lia|done]. }
  assert (forall u thu, threads s !! u = Some thu -> (threads s ++ [new]) !! u = Some thu) as Hold by (intros u thu Hu; by apply lookup_app_l_Some).
  assert (forall u, is_Some (threads s !! u) -> is_Some ((threads s ++ [new]) !! u)) as Hsome by (intros u [thu Hu]; eauto).
  assert (forall u, is_Some (threads s !! u) -> u <> length (threads s)) as Hfresh by (intros u Hu%lookup_lt_is_Some; lia).
  split; cbn [threads writers_ mutex_ arrived answered]; try apply I.
  - intros w Hw. by apply Hsome, (i_exists _ _ I).
  - intros u thu [Hu|[-> ->]]%Hcases; [by apply (i_mutex _ _ I)|]. split; [done|]. intros Hm. apply (i_holder _ _ I) in Hm. by apply Hfresh in Hm.
  - intros t Ht. by apply Hsome, (i_holder _ _ I).
  - pose proof (i_lead _ _ I) as H. destruct lead; [by apply Hsome|done].
  - intros u thu [Hu|[-> ->]]%Hcases.
    + pose proof (i_ok _ _ I u thu Hu) as Hok. unfold thread_ok in *. case_decide; [|done]. eapply lead_ok_ext; [|exact Hok].
      intros v Hv. assert (is_Some (threads s !! v)) as [tv Ev] by (destruct Hv as [Hv| ->]; [by apply (i_exists _ _ I)|by eauto]).
      unfold request_in. by rewrite Ev, (Hold _ _ Ev).
    + apply thread_ok_other.
      * intros ->. pose proof (i_lead _ _ I) as H. by apply Hfresh in H.
      * split; [done|]. intros H%(i_exists _ _ I). by apply Hfresh in H.
  - intros t th w n [Ht|[-> ->]]%Hcases Ep; [|done]. destruct (i_notify _ _ I t th w n Ht Ep) as (? & tw & Hw & ?). split; [done|]. exists tw. eauto.
  - intros w tw [Hw|[-> ->]]%Hcases Ep Hs; [|done]. destruct (i_wait _ _ I w tw Hw Ep Hs) as (t & th & n & Ht & ?). exists t, th, n. eauto.
  - intros t th [Ht|[-> ->]]%Hcases; [by apply (i_sync _ _ I t)|]. by intros _.
Qed.

Lemma Inv_new : Inv None Sys_new.
Proof. split; cbn; try done; try (by intros ? ?%elem_of_nil); [constructor|..]; intros ? ? Hl; by rewrite lookup_nil in Hl || (intros; by rewrite lookup_nil in Hl). Qed.

Lemma queue_reachable_inv s : reachable patience s -> exists lead, Inv lead s.
Proof.
  unfold reachable. assert (exists lead, Inv lead Sys_new) as H0 by (exists None; apply Inv_new). intros Hr. revert H0.
  induction Hr as [a|a b c [W|W] _ IH]; intros [lead I]; [by eauto|apply IH; by eapply work_kept|apply IH].
  destruct W as [s' r|s' t th Ht Ep]; exists lead; [by apply call_kept|by apply woken_kept].
Qed.

(** * Progress *)
Definition returned (th : Thread) : Prop := exists status b, pc th = Returned status b.

Lemma holder_progress lead s t : Inv lead s -> mutex_ s = Some t -> red (work patience) s.
Proof.
  intros I Hm. destruct (i_holder _ _ I t Hm) as [th Ht]. pose proof (proj2 (i_mutex _ _ I t th Ht) Hm) as Hh.
  pose proof (i_ok _ _ I t th Ht) as Hok. destruct (pc th) as [| | | | | |r| | |n|w n|] eqn:Ep; try done.
  - destruct (decide (wstate th = kWaiting)); eexists; [by eapply work_park|by eapply work_checked].
  - eexists. apply (work_no_room patience s t th r (io_error "no room")); [done|done|by left].
  - destruct n as [last status|status|status]; [| |eexists; by eapply work_return].
    + destruct (leading_is_lead _ _ _ _ _ Hok) as [-> Hl]; [by rewrite Ep|]. unfold lead_ok in Hl. rewrite Ep in Hl. destruct Hl as [_ (g & rest & Hq & Hl & _)].
      destruct g as [|ready g]; [done|]. cbn [app] in Hq. destruct (decide (ready = t)) as [->|Hne].
      * eexists. by eapply work_answer_self.
      * destruct (i_exists _ _ I ready) as [tw Hw]; [rewrite Hq; left|]. eexists. by apply (work_answer patience s t th last status ready tw (g ++ rest)).
    + destruct (leading_is_lead _ _ _ _ _ Hok) as [-> Hl]; [by rewrite Ep|]. unfold lead_ok in Hl. rewrite Ep in Hl. cbn in Hl.
      destruct (writers_ s) as [|front q] eqn:Eq; [eexists; by eapply work_nobody|].
      destruct (i_exists _ _ I front) as [tf Hf]; [rewrite Eq; left|]. eexists. apply (work_promote patience s t th status front tf q); [done..|]. intros ->. apply Hl. left.
  - destruct (i_notify _ _ I t th w n Ht Ep) as (Hne & tw & Hw & _). eexists. by apply (work_notify patience s t th w tw n).
Qed.

Definition asleep (th : Thread) : Prop := pc th = Wait.
Lemma free_progress lead s t th :
  Inv lead s -> mutex_ s = None -> threads s !! t = Some th -> ~ returned th -> ~ asleep th -> red (work patience) s.
Proof.
  intros I Hm Ht Hr Ha. pose proof (i_mutex _ _ I t th Ht) as Hh. rewrite Hm in Hh.
  destruct (pc th) as [| | | | | |r|r|last|n|w n|status b] eqn:Ep; try (discriminate (proj1 Hh eq_refl)).
  - eexists. by eapply work_enqueue.
  - destruct (decide (wstate th = kDone)); eexists; [by eapply work_watched|by eapply work_unwatched].
  - eexists. by eapply work_relock.
  - done.
  - destruct (decide (wstate th = kParked)); eexists; [by eapply work_sleep_on|by eapply work_woken].
  - eexists. by eapply work_room_resume.
  - eexists. by apply (work_written patience s t th last ok).
  - exfalso. apply Hr. exists status, b. done.
Qed.

Lemma progress lead s t th : Inv lead s -> threads s !! t = Some th -> ~ returned th -> red (work patience) s.
Proof.
  intros I Ht Hr. destruct (mutex_ s) as [h|] eqn:Hm; [by eapply holder_progress|].
  assert (forall w tw, threads s !! w = Some tw -> pc tw = Wait -> wstate tw = kParked) as Hparked.
  { intros w tw Hw Ep. destruct (decide (wstate tw = kParked)) as [|Hne]; [done|]. exfalso.
    destruct (i_wait _ _ I w tw Hw Ep Hne) as (u & thu & n & Hu & Hpu). eapply (no_notify _ u); [rewrite <- Hm; apply I|done..]. }
  assert (pc th = Wait \/ pc th <> Wait) as [Ep|Ep] by (destruct (pc th); auto); [|by eapply free_progress].
  pose proof (Hparked t th Ht Ep) as Hst. pose proof (i_ok _ _ I t th Ht) as Hok.
  assert (lead <> Some t) as Hlt by (intros ->; apply thread_ok_lead in Hok; unfold lead_ok in Hok; rewrite Ep in Hok; destruct Hok; congruence).
  apply thread_ok_other in Hok; [|done]. unfold other_ok in Hok. rewrite Ep in Hok. destruct Hok as [[_ Hq]|[? _]]; [|congruence].
  pose proof (i_lead _ _ I) as Hl. destruct lead as [l|]; [|rewrite Hl in Hq; by apply elem_of_nil in Hq].
  destruct Hl as [tl Hl]. pose proof (i_ok _ _ I l tl Hl) as Hokl. apply thread_ok_lead in Hokl. unfold lead_ok in Hokl.
  eapply (free_progress _ s l tl); [done..| |].
  - intros (st & b & E). by rewrite E in Hokl.
  - intros E. red in E. pose proof (Hparked l tl Hl E). rewrite E in Hokl. destruct Hokl. congruence.
Qed.

(** ** The work that is left *)
Definition next_rank (n : Next) : nat := match n with NAnswer _ _ => 5 | NPromote _ => 3 | NReturn _ => 1 end.
Definition rank (th : Thread) : nat :=
  let lead := (7 + 2 * patience)%nat in
  match pc th with
  | Returned _ _ => 0
  | Leading n => next_rank n
  | Notify _ n => next_rank n + 1
  | Write _ => 6
  | Room r => 7 + 2 * r
  | RoomWait r => 7 + 2 * r + 1
  | Woken => if bool_decide (wstate th = kParked) then lead + 4 else lead + 1
  | Wait => if bool_decide (wstate th = kParked) then lead + 3 else lead + 2
  | Check => lead + 5
  | Relock => lead + 6
  | Watch => lead + 7
  | Start => lead + 12
  end%nat.
Fixpoint ranks (ths : list Thread) : nat := match ths with [] => 0 | th :: ths => rank th + ranks ths end%nat.
Definition left (s : Sys) : nat := (ranks (threads s) + 3 * length (writers_ s))%nat.

Lemma ranks_insert ths t th th' : ths !! t = Some th -> (ranks (<[t := th']> ths) + rank th = ranks ths + rank th')%nat.
Proof.
  revert t. induction ths as [|x ths IH]; intros [|t] Ht; cbn in Ht; try done.
  - injection Ht as ->. change (<[0%nat := th']> (th :: ths)) with (th' :: ths). cbn [ranks]. lia.
  - specialize (IH t Ht). change (<[S t := th']> (x :: ths)) with (x :: <[t := th']> ths). cbn [ranks]. lia.
Qed.
Lemma rank_released tw st : st <> kParked -> (rank (set_state tw st) <= rank tw)%nat.
Proof. intros H. unfold rank. cbn. destruct (pc tw); try done; rewrite (bool_decide_eq_false_2 (st = kParked)) by done; case_bool_decide; lia. Qed.
Lemma left_move s t th th' m : threads s !! t = Some th -> (rank th' < rank th)%nat -> (left (move s t th' m) < left s)%nat.
Proof. intros Ht Hr. unfold left. cbn [threads writers_ move]. pose proof (ranks_insert _ _ _ th' Ht). lia. Qed.
Lemma left_release s t th w tw st n :
  threads s !! t = Some th -> threads s !! w = Some tw -> w <> t -> st <> kParked -> (next_rank n + 1 < rank th)%nat ->
  (left (release s t th w tw st n) < left s)%nat.
Proof.
  intros Ht Hw Hne Hst Hr. unfold release. set (s' := mkSys _ _ _ _ _ _).
  assert (threads s' !! t = Some th) as Ht' by (cbn; by rewrite list_lookup_insert_ne).
  assert (left s' <= left s)%nat as Hl.
  { unfold left. cbn. pose proof (ranks_insert _ _ _ (set_state tw st) Hw). pose proof (rank_released tw st Hst). lia. }
  eapply Nat.lt_le_trans; [|exact Hl]. eapply left_move; [done|]. unfold rank at 1. cbn. case_bool_decide; lia.
Qed.

Lemma left_proceed s t th :
  threads s !! t = Some th -> (7 + 2 * patience < rank th)%nat -> (left (proceed patience s t th) < left s)%nat.
Proof. intros Ht Hr. unfold proceed. destruct (wstate th); (eapply left_move; [done|]); unfold rank at 1; cbn; lia. Qed.

Ltac ranked Ep Hst := unfold rank; cbn; rewrite ?Ep, ?Hst, ?(bool_decide_eq_true_2 (kParked = kParked)) by done; cbn; lia.
Lemma work_decreases lead s s' : Inv lead s -> work patience s s' -> (left s' < left s)%nat.
Proof.
  intros I W. destruct W as [s t th Ht Ep Hm|s t th Ht Ep Hst|s t th Ht Ep Hst|s t th Ht Ep Hm|s t th Ht Ep Hst|s t th Ht Ep Hst
    |s t th Ht Ep Hm Hst|s t th Ht Ep Hm Hst|s t th r Ht Ep|s t th r Ht Ep Hm|s t th r status Ht Ep Hno|s t th r first rest Ht Ep Hb Hq
    |s t th last status Ht Ep Hm|s t th last status q Ht Ep Hq|s t th last status ready tw q Ht Ep Hq Hne Hr
    |s t th status front tf q Ht Ep Hq Hf Hne|s t th status Ht Ep Hq|s t th w tw n Ht Ep Hw Hne|s t th status Ht Ep].
  - assert (rank th = 7 + 2 * patience + 12)%nat as Er by (unfold rank; by rewrite Ep).
    unfold enqueue. destruct (match writers_ s with [] => _ | _ => _ end) as [p m] eqn:Epm.
    assert (rank (set_pc th p) <= 7 + 2 * patience + 7)%nat as Hp.
    { destruct (writers_ s); [injection Epm as <- <-; unfold rank; cbn; lia|]. destruct (negb _ && _); injection Epm as <- <-; unfold rank; cbn; lia. }
    unfold left. cbn [threads writers_]. pose proof (ranks_insert _ _ _ (set_pc th p) Ht). rewrite length_app. cbn [length]. lia.
  - eapply left_move; [done|]. ranked Ep Hst.
  - eapply left_move; [done|]. ranked Ep Ep.
  - eapply left_move; [done|]. ranked Ep Ep.
  - apply left_proceed; [done|]. ranked Ep Ep.
  - unfold park, left. cbn [threads writers_]. pose proof (ranks_insert _ _ _ (set_pc (set_state th kParked) Wait) Ht).
    assert (rank (set_pc (set_state th kParked) Wait) < rank th)%nat by (ranked Ep Ep). lia.
  - apply left_proceed; [done|]. unfold rank. rewrite Ep, bool_decide_eq_false_2 by done. lia.
  - eapply left_move; [done|]. ranked Ep Hst.
  - eapply left_move; [done|]. ranked Ep Ep.
  - eapply left_move; [done|]. ranked Ep Ep.
  - eapply left_move; [done|]. ranked Ep Ep.
  - eapply left_move; [done|]. ranked Ep Ep.
  - eapply left_move; [done|]. ranked Ep Ep.
  - assert (left (pop s q t) < left s)%nat as Hl by (unfold left; cbn [threads writers_ pop]; rewrite Hq; cbn [length]; lia).
    unfold left in *. cbn [threads writers_ move pop] in *. rewrite Hq in *. cbn [length] in *.
    pose proof (ranks_insert _ _ _ (set_pc th (Leading (if bool_decide (t = last) then NPromote status else NAnswer last status))) Ht).
    assert (rank (set_pc th (Leading (if bool_decide (t = last) then NPromote status else NAnswer last status))) <= rank th)%nat
      by (unfold rank; cbn; rewrite Ep; case_bool_decide; cbn; lia). lia.
  - (* the pop pays for the wake-up *)
    set (tw' := set_status tw status (sync (request th))). set (n := if bool_decide _ then _ else _).
    assert (next_rank n <= 5)%nat as Hn by (subst n; case_bool_decide; cbn; lia).
    unfold release, left. cbn [threads writers_ move pop]. rewrite Hq. cbn [length].
    set (p := if bool_decide _ then _ else _). assert (rank (set_pc th p) <= 6)%nat as Hp by (subst p; case_bool_decide; unfold rank; cbn; lia).
    assert (rank th = 5)%nat as Er by (unfold rank; by rewrite Ep).
    pose proof (ranks_insert _ _ _ (set_state tw' kDone) Hr) as R1.
    pose proof (ranks_insert (<[ready := set_state tw' kDone]> (threads s)) t th (set_pc th p)) as R2.
    rewrite list_lookup_insert_ne in R2 by done. specialize (R2 Ht).
    assert (rank (set_state tw' kDone) <= rank tw)%nat as Hd.
    { etrans; [by apply rank_released|]. done. }
    lia.
  - apply left_release; try done. unfold rank. rewrite Ep. cbn. lia.
  - eapply left_move; [done|]. ranked Ep Ep.
  - destruct (i_notify _ _ I t th w n Ht Ep) as (_ & tw' & Hw' & _ & Hst). rewrite Hw in Hw'. injection Hw' as <-.
    assert (wstate tw <> kParked) as Hnp by (destruct Hst; congruence).
    assert (left (move s w (wake tw) (Some t)) <= left s)%nat as Hl.
    { unfold left. cbn [threads writers_ move]. pose proof (ranks_insert _ _ _ (wake tw) Hw).
      assert (rank (wake tw) <= rank tw)%nat; [|lia]. unfold wake. destruct (pc tw) eqn:Epw; try lia.
      unfold rank. cbn. rewrite Epw, !bool_decide_eq_false_2 by done. lia. }
    eapply Nat.lt_le_trans; [|exact Hl]. eapply left_move; [cbn; by rewrite list_lookup_insert_ne|]. ranked Ep Ep.
  - eapply left_move; [done|]. ranked Ep Ep.
Qed.

(** * Theorems *)

(** The [Writer]s a thread is about to read or write other than its own. *)
Definition touched (s : Sys) (th : Thread) : list nat :=
  match pc th with
  | Start | Leading (NAnswer _ _) | Leading (NPromote _) => take 1 (writers_ s)
  | Room _ => writers_ s
  | Notify w _ => [w]
  | _ => []
  end.

Lemma queued_live lead s w : Inv lead s -> w ∈ writers_ s -> exists tw, threads s !! w = Some tw /\ ~ returned tw.
Proof.
  intros I Hw. destruct (i_exists _ _ I w Hw) as [tw Ht]. exists tw. split; [done|]. intros (st & b & E).
  pose proof (i_ok _ _ I w tw Ht) as Hok. unfold thread_ok, lead_ok, other_ok in Hok. rewrite E in Hok. case_decide; done.
Qed.

(** C8.  The queue serves every writer in order and touches none that is gone.
    In every state any interleaving of [write()] calls reaches: a [Writer]
    that another thread is about to access still exists, its owner not having
    returned; at most one thread leads, and so uses the log; writers leave the
    queue in the order they joined it; a writer that asked for a sync is
    answered only by a group that synced; and a writer asleep either still
    waits for its state to change or is about to be woken. *)
Theorem writer_queue_is_safe s :
  reachable patience s ->
  (forall t th w, threads s !! t = Some th -> w ∈ touched s th -> exists tw, threads s !! w = Some tw /\ ~ returned tw) /\
  (forall t th u thu, threads s !! t = Some th -> threads s !! u = Some thu ->
     leading_pc (pc th) = true -> leading_pc (pc thu) = true -> t = u) /\
  arrived s = answered s ++ writers_ s /\
  (forall t th status b, threads s !! t = Some th -> pc th = Returned status b -> sync (request th) = true -> b = true) /\
  (forall t th, threads s !! t = Some th -> pc th = Wait ->
     wstate th = kParked \/ exists u thu n, threads s !! u = Some thu /\ pc thu = Notify t n).
Proof.
  intros [lead I]%queue_reachable_inv. split_and!.
  - intros t th w Ht Hw. unfold touched in Hw. destruct (pc th) as [| | | | | | | | |[]|v n|] eqn:Ep; try (by apply elem_of_nil in Hw);
      try (eapply queued_live; [exact I|]; first [exact Hw|by eapply elem_of_take in Hw as (? & ? & _); eapply list_elem_of_lookup_2]).
    apply list_elem_of_singleton in Hw as ->. destruct (i_notify _ _ I t th v n Ht Ep) as (_ & tw & Hw & Hp & _).
    exists tw. split; [done|]. intros (st & b & E). by destruct Hp; congruence.
  - intros t th u thu Ht Hu Hl1 Hl2. destruct (leading_is_lead _ _ _ _ _ (i_ok _ _ I t th Ht) Hl1) as [-> _].
    destruct (leading_is_lead _ _ _ _ _ (i_ok _ _ I u thu Hu) Hl2) as [E _]. by injection E.
  - apply I.
  - intros t th status b Ht Ep Hs. by apply (proj2 (i_sync _ _ I t th Ht Hs) status b).
  - intros t th Ht Ep. destruct (decide (wstate th = kParked)) as [|Hne]; [by left|right]. by apply (i_wait _ _ I t th).
Qed.

End Preserve.

(** ** Example

    A synced writer leads and waits for room; a second one has gone to sleep
    behind it. *)
Definition synced : Request := mkRequest (Some (WriteBatch.batch_of [WriteBatch.Put [x61] [x31]])) true.
Definition plain : Request := mkRequest (Some (WriteBatch.batch_of [WriteBatch.Put [x62] [x32]])) false.
Definition one_asleep : Sys :=
  mkSys [mkThread synced kWaiting ok false (RoomWait 2); mkThread plain kParked ok false Wait] [0; 1]%nat None 1 [0; 1]%nat [].

Lemma one_asleep_reachable : reachable 3 one_asleep.
Proof.
  unfold reachable. eapply rtc_l; [right; apply (world_call _ synced)|]. eapply rtc_l; [right; apply (world_call _ plain)|].
  eapply rtc_l; [left; apply (work_enqueue 3 _ 0%nat (mkThread synced kWaiting ok false Start)); reflexivity|].
  eapply rtc_l; [left; apply (work_room_wait 3 _ 0%nat (mkThread synced kWaiting ok false (Room 3)) 2); reflexivity|].
  eapply rtc_l; [left; apply (work_enqueue 3 _ 1%nat (mkThread plain kWaiting ok false Start)); reflexivity|].
  eapply rtc_l; [left; apply (work_park 3 _ 1%nat (mkThread plain kWaiting ok false Check)); reflexivity|].
  apply rtc_refl.
Qed.

Lemma writer_queue_is_safe_witness :
  threads one_asleep !! 1%nat = Some (mkThread plain kParked ok false Wait) /\
  (forall t th w, threads one_asleep !! t = Some th -> w ∈ touched one_asleep th -> exists tw, threads one_asleep !! w = Some tw /\ ~ returned tw).
Proof. split; [reflexivity|]. exact (proj1 (writer_queue_is_safe 3 one_asleep one_asleep_reachable)). Defined.

End WriteQueue.
