(* ===== verification/DbRead.v ===== *)
(** Reading the database: [DBImpl::get], snapshots and what a compaction may
    take from them, and which files are obsolete (src/src/db_impl.cpp). *)
From stdpp Require Import gmap.
From S2P Require Import Prelude Status Encoding DbFormat Comparator Iterator Filename VersionEdit MemTable Version VersionGet.
Import Status Encoding DbFormat Comparator Iterator Filename VersionEdit Version VersionGet.
Local Open Scope Z_scope.

Module DbRead.

(** * DBImpl::get

    The memtables and the version are those referenced under the mutex.  The
    result is the status and [*value], and what the seek charge did: whether a
    compaction is to be scheduled, the version, [allowed_seeks] by address and
    the table cache. *)
Section Get.
Context {TC Rng : Type} (reader : TableReader TC).

Record Found := mkFound {
  fd_status : Status;
  fd_value : bytes;
  fd_schedule : bool;
  fd_version : Version;
  fd_seeks : gmap nat Z;
  fd_cache : TC
}.

Definition read_snapshot (options_snapshot : option Z) (last_sequence : Z) : Z := default last_sequence options_snapshot.

Definition get (mem : @MemTable.MemTable Rng) (imm : option (@MemTable.MemTable Rng)) (current : Version) (seeks : gmap nat Z) (tc : TC)
    (snapshot : Z) (key value : bytes) : option Found :=
  let lookup := LookupKey_new key snapshot in
  in_mem ← MemTable.get mem lookup;
  match in_mem with
  | MemTable.Answer status v => Some (mkFound status (default value v) false current seeks tc)
  | MemTable.NotHere =>
      in_imm ← (match imm with Some m => MemTable.get m lookup | None => Some MemTable.NotHere end);
      match in_imm with
      | MemTable.Answer status v => Some (mkFound status (default value v) false current seeks tc)
      | MemTable.NotHere =>
          '(status, lo) ← Version.get reader current tc lookup value;
          '(schedule, current, seeks) ← update_stats current seeks (seek_file lo) (seek_file_level lo);
          Some (mkFound status (lo_value lo) schedule current seeks (table_cache lo))
      end
  end.

(** ** Only files of the version are charged *)
Definition charged (P : FilePtr -> Prop) (lo : @LookupState TC) : Prop :=
  (forall f, seek_file lo = Some f -> P f) /\ (forall f, last_file_read lo = Some f -> P f).

Lemma search_charged P lo uk lk file level r lo' :
  charged P lo -> P file -> search reader lo uk lk file level = Some (r, lo') -> charged P lo'.
Proof.
  intros [H1 H2] Hf E. unfold search in E.
  destruct (tc_get reader (table_cache (charge lo file level)) (number file) (file_size file) lk) as [[[st given] tc']|]; [|done].
  cbn [mbind option_bind] in E. injection E as _ <-. unfold charged, charge.
  destruct (last_file_read lo) as [g|] eqn:El; [destruct (seek_file lo) as [h|] eqn:Es|]; cbn [seek_file last_file_read]; naive_solver.
Qed.
Lemma search_level0_charged (P : FilePtr -> Prop) fuel lo uk lk files newer r lo' :
  charged P lo -> (forall f, f ∈ files -> P f) -> search_level0 reader fuel lo uk lk files newer = Some (r, lo') -> charged P lo'.
Proof.
  revert lo newer. induction fuel as [|fuel IH]; intros lo newer Hc Hf E; [done|]. cbn [search_level0] in E.
  pose proof (next_newest_spec uk newer files) as Hn. destruct (next_newest uk newer files) as [f|]; [|by simplify_eq].
  destruct Hn as [Hin _]. destruct (search reader lo uk lk f 0) as [[r1 lo1]|] eqn:Es; [|done]. cbn [mbind option_bind] in E.
  pose proof (search_charged P _ _ _ _ _ _ _ Hc (Hf f Hin) Es) as Hc1. destruct r1; [by eapply IH|by simplify_eq].
Qed.
Lemma search_levels_charged (P : FilePtr -> Prop) lo uk lk level levels r lo' :
  charged P lo -> (forall files f, files ∈ levels -> f ∈ files -> P f) ->
  search_levels reader lo uk lk level levels = Some (r, lo') -> charged P lo'.
Proof.
  revert lo level. induction levels as [|files levels IH]; intros lo level Hc Hf E; cbn [search_levels] in E; [by simplify_eq|].
  assert (forall lo level, charged P lo -> search_levels reader lo uk lk level levels = Some (r, lo') -> charged P lo') as Hgo.
  { intros lo1 l1 H1. apply IH; [done|]. intros files' f Hin. apply Hf. by right. }
  case_bool_decide; [by eapply Hgo|]. destruct (find_file _ _ _) as [index|]; [|done]. cbn [mbind option_bind] in E.
  destruct (files !! index) as [f|] eqn:Ei; [|by eapply Hgo]. case_bool_decide; [by eapply Hgo|].
  destruct (search reader lo uk lk f (Z.of_nat level)) as [[r1 lo1]|] eqn:Es; [|done]. cbn [mbind option_bind] in E.
  assert (P f) as Hpf by (apply (Hf files f); [left|by eapply list_elem_of_lookup_2]).
  pose proof (search_charged P _ _ _ _ _ _ _ Hc Hpf Es) as Hc1. destruct r1; [by eapply Hgo|by simplify_eq].
Qed.
Lemma get_charged v tc key value status lo f :
  Version.get reader v tc key value = Some (status, lo) -> seek_file lo = Some f -> exists level, f ∈ level_files v level.
Proof.
  set (P := λ f : FilePtr, exists level, f ∈ level_files v level). intros E. cut (charged P lo); [by intros [H _]; apply H|].
  unfold Version.get in E. destruct (search_level0 _ _ _ _ _ _ _) as [[r lo1]|] eqn:E0; [|done]. cbn [mbind option_bind] in E.
  assert (charged P lo1) as H1.
  { eapply (search_level0_charged P); [|intros g Hg; by exists 0%nat|exact E0]. by split. }
  destruct r; [|by simplify_eq]. destruct (search_levels _ _ _ _ _ _) as [[r2 lo2]|] eqn:E2; [|done]. cbn [mbind option_bind] in E.
  injection E as _ <-. eapply (search_levels_charged P); [exact H1| |exact E2].
  intros files g [i Hi]%list_elem_of_lookup Hg. rewrite lookup_drop in Hi. exists (1 + i)%nat. unfold level_files. by rewrite Hi.
Qed.
End Get.

(** ** What the database holds *)
Section Database.
Context {TC Rng : Type} (reader : TableReader TC) (contents : Z -> Z -> option (list Entry)) (inv : TC -> Prop)
  `{!TableReaderLaws reader contents inv}.

(** Every file's [allowed_seeks] is there and not about to overflow. *)
Definition seeks_ok (v : Version) (seeks : gmap nat Z) : Prop :=
  forall level f, f ∈ level_files v level -> exists a, seeks !! f_address f = Some a /\ - 2 ^ 31 < a.

(** No entry of [P] is older than one of the same key in [Q]. *)
Definition above (P Q : Entry -> Prop) : Prop := forall a b, P a -> Q b -> e_key a = e_key b -> e_sequence b < e_sequence a.

Record database (mem : @MemTable.MemTable Rng) (imm : option (@MemTable.MemTable Rng)) (v : Version) (seeks : gmap nat Z)
    (in_mem in_imm : list Entry) : Prop := {
  d_mem : exists Ls, MemTable.holds mem Ls in_mem;
  d_imm : match imm with Some m => exists Ls, MemTable.holds m Ls in_imm | None => in_imm = [] end;
  d_version : wf_version contents v;
  d_seeks : seeks_ok v seeks;
  d_above_imm : above (λ e, e ∈ in_mem) (λ e, e ∈ in_imm);
  d_above_version : above (λ e, e ∈ in_mem \/ e ∈ in_imm) (in_version contents v)
}.
Definition everything (v : Version) (in_mem in_imm : list Entry) (e : Entry) : Prop :=
  e ∈ in_mem \/ e ∈ in_imm \/ in_version contents v e.

(** A lookup in a memtable, as a lookup in a set of entries. *)
Lemma memtable_answers (m : @MemTable.MemTable Rng) Ls es u snapshot value :
  MemTable.holds m Ls es -> seq_ok snapshot -> size u + 8 < 2 ^ 32 ->
  (MemTable.get m (LookupKey_new u snapshot) = Some MemTable.NotHere /\ nothing_in u snapshot (λ e, e ∈ es)) \/
  exists e status v, newest_of u snapshot (λ e, e ∈ es) e /\
    MemTable.get m (LookupKey_new u snapshot) = Some (MemTable.Answer status v) /\ answers e value status (default value v).
Proof.
  intros Hh Hs Hu. destruct (MemTable.get_holds m Ls es u snapshot Hh Hs Hu) as [[E Hn]|(e & (Hin & Hk & Hle & Hmax) & E)].
  - left. split; [done|]. intros e He [Ek Hle]. specialize (Hn e He Ek). lia.
  - right. exists e. destruct (e_type e) eqn:Et; eexists _, _; (split; [|split; [exact E|]]).
    1,3: split; [done|]; split; [done|]; intros e' He' [Ek Hle']; by apply Hmax.
    all: unfold answers; rewrite Et; done.
Qed.

Lemma newest_above (P Q R : Entry -> Prop) u snapshot e :
  newest_of u snapshot P e -> (forall e, R e <-> P e \/ Q e) -> above P Q -> newest_of u snapshot R e.
Proof.
  intros (HP & Hv & Hmax) HR Ha. split; [apply HR; by left|]. split; [done|]. intros e' [He'|He']%HR Hv'; [by apply Hmax|].
  destruct Hv as [Ek _], Hv' as [Ek' _]. pose proof (Ha e e' HP He' ltac:(congruence)). lia.
Qed.
Lemma nothing_or (P Q : Entry -> Prop) u snapshot :
  nothing_in u snapshot P -> nothing_in u snapshot Q -> nothing_in u snapshot (λ e, P e \/ Q e).
Proof. intros HP HQ e [H|H]; [by apply HP|by apply HQ]. Qed.
Lemma newest_below (P Q R : Entry -> Prop) u snapshot e :
  nothing_in u snapshot P -> newest_of u snapshot Q e -> (forall e, R e <-> P e \/ Q e) -> newest_of u snapshot R e.
Proof.
  intros HP (HQ & Hv & Hmax) HR. split; [apply HR; by right|]. split; [done|].
  intros e' [He'|He']%HR Hv'; [by destruct (HP e' He')|by apply Hmax].
Qed.

Lemma update_stats_ok v seeks (f : option FilePtr) level :
  seeks_ok v seeks -> (forall g, f = Some g -> exists l, g ∈ level_files v l) ->
  exists b v' seeks', update_stats v seeks f level = Some (b, v', seeks') /\ files_ v' = files_ v.
Proof.
  intros Hs Hf. unfold update_stats. destruct f as [g|]; [|by eexists _, _, _].
  destruct (Hf g eq_refl) as [l Hl]. destruct (Hs l g Hl) as (a & Ea & Ha). rewrite Ea. cbn [mbind option_bind].
  destruct (Z.eqb_spec a (- 2 ^ 31)); [lia|]. destruct (_ && _); by eexists _, _, _.
Qed.

(** A read returns the newest visible version in the whole database.
    [DBImpl::get] at a snapshot, over memtables and a version layered as the
    write path, flushes and compactions keep them - no source holding an entry
    older than one of the same key in a source asked later - always returns,
    and changes no file of the version: it says "not present" exactly when no
    entry of the key anywhere is at or below the snapshot, and otherwise
    answers from the newest such entry, with its value or with "deleted". *)
Theorem database_get_is_newest mem imm v seeks in_mem in_imm tc u snapshot value :
  database mem imm v seeks in_mem in_imm -> inv tc -> seq_ok snapshot -> size u + 8 < 2 ^ 32 ->
  exists found, get reader mem imm v seeks tc snapshot u value = Some found /\ inv (fd_cache found) /\
    files_ (fd_version found) = files_ v /\
    ((nothing_in u snapshot (everything v in_mem in_imm) /\ fd_status found = not_found "not present" /\ fd_value found = value) \/
     exists e, newest_of u snapshot (everything v in_mem in_imm) e /\ answers e value (fd_status found) (fd_value found)).
Proof using TableReaderLaws0.
  intros [[Ls Hm] Hi Hv Hsk Ha1 Ha2] Hinv Hs Hu. unfold get.
  destruct (memtable_answers mem Ls in_mem u snapshot value Hm Hs Hu) as [[-> Hn1]|(e & status & w & Hnew & -> & Hans)]; cbn [mbind option_bind].
  2: { eexists. split; [done|]. split; [done|]. split; [done|]. right. exists e. split; [|done].
       apply (newest_above (λ e, e ∈ in_mem) (λ e, e ∈ in_imm \/ in_version contents v e)); [done|done|].
       intros a b H [Hb|Hb]; [by apply Ha1|by apply Ha2; [left|]]. }
  assert ((match imm with Some m => MemTable.get m (LookupKey_new u snapshot) | None => Some MemTable.NotHere end = Some MemTable.NotHere /\
           nothing_in u snapshot (λ e, e ∈ in_imm)) \/
    exists e status w, newest_of u snapshot (λ e, e ∈ in_imm) e /\
      match imm with Some m => MemTable.get m (LookupKey_new u snapshot) | None => Some MemTable.NotHere end = Some (MemTable.Answer status w) /\
      answers e value status (default value w)) as Himm.
  { destruct imm as [m|]; [destruct Hi as [Ls' Hi]; by apply (memtable_answers m Ls')|]. left. split; [done|]. rewrite Hi.
    by intros e ?%elem_of_nil. }
  destruct Himm as [[-> Hn2]|(e & status & w & Hnew & -> & Hans)]; cbn [mbind option_bind].
  2: { eexists. split; [done|]. split; [done|]. split; [done|]. right. exists e. split; [|done].
       apply (newest_below (λ e, e ∈ in_mem) (λ e, e ∈ in_imm \/ in_version contents v e)); [done| |done].
       apply (newest_above (λ e, e ∈ in_imm) (in_version contents v)); [done|done|]. intros a b H Hb. apply Ha2; [by right|done]. }
  destruct (version_get_spec contents u snapshot Hs reader inv v tc value Hv Hinv) as (status & lo & E & Hinv' & Hans).
  rewrite E. cbn [mbind option_bind]. destruct (update_stats_ok v seeks (seek_file lo) (seek_file_level lo) Hsk) as (b & v' & seeks' & -> & Hfiles).
  { intros g Hg. by eapply get_charged. }
  cbn [mbind option_bind]. eexists. split; [done|]. split; [done|]. split; [done|]. cbn [fd_status fd_value].
  destruct Hans as [(Hn3 & Hst & Hval)|(e & Hnew & Hans)].
  - left. split; [|done]. by apply nothing_or, nothing_or.
  - right. exists e. split; [|done]. apply (newest_below (λ e, e ∈ in_mem) (λ e, e ∈ in_imm \/ in_version contents v e)); [done| |done].
    by apply (newest_below (λ e, e ∈ in_imm) (in_version contents v)).
Qed.
End Database.

(** * Snapshots *)

(** [snapshots_] is a [std::set], kept here as its ascending elements;
    [snapshot_objects_] the objects handed out, by address. *)
Record Snapshots := mkSnapshots { snapshots_ : list Z; snapshot_objects_ : list (nat * Z) }.
Definition Snapshots_new : Snapshots := mkSnapshots [] [].

Fixpoint snapshot_insert (x : Z) (l : list Z) : list Z :=
  match l with
  | [] => [x]
  | y :: l' => if x <? y then x :: l else if x =? y then l else y :: snapshot_insert x l'
  end.

Definition get_snapshot (s : Snapshots) (address : nat) (last_sequence : Z) : Snapshots :=
  mkSnapshots (snapshot_insert last_sequence (snapshots_ s)) (snapshot_objects_ s ++ [(address, last_sequence)]).

(** [None]: the object is gone, and reading its sequence undefined. *)
Definition release_snapshot (s : Snapshots) (address : nat) : option Snapshots :=
  '(_, sequence) ← head (filter (λ o, o.1 = address) (snapshot_objects_ s));
  let another_holds_it := existsb (λ o, negb (o.1 =? address)%nat && (o.2 =? sequence)) (snapshot_objects_ s) in
  let held := if existsb (Z.eqb sequence) (snapshots_ s) && negb another_holds_it
              then filter (λ x, x <> sequence) (snapshots_ s) else snapshots_ s in
  Some (mkSnapshots held (filter (λ o, o.1 <> address) (snapshot_objects_ s))).

(** The [smallest_snapshot] of a compaction. *)
Definition smallest_snapshot (s : Snapshots) (last_sequence : Z) : Z := default last_sequence (head (snapshots_ s)).

(** ** Lemmas *)
Lemma snapshot_insert_elem x y l : y ∈ snapshot_insert x l <-> y = x \/ y ∈ l.
Proof.
  induction l as [|z l IH]; cbn [snapshot_insert]; [by rewrite list_elem_of_singleton, elem_of_nil; naive_solver|].
  destruct (Z.ltb_spec x z); [by rewrite elem_of_cons|]. destruct (Z.eqb_spec x z) as [->|]; rewrite ?elem_of_cons, ?IH; naive_solver.
Qed.
Lemma snapshot_insert_sorted x l : StronglySorted Z.lt l -> StronglySorted Z.lt (snapshot_insert x l).
Proof.
  induction 1 as [|y l Hs IH Hy]; cbn [snapshot_insert]; [repeat constructor|]. rewrite Forall_forall in Hy.
  destruct (Z.ltb_spec x y).
  - constructor; [by constructor; [|apply Forall_forall]|]. apply Forall_forall. intros z [->|Hz]%elem_of_cons; [done|]. specialize (Hy z Hz). lia.
  - destruct (Z.eqb_spec x y) as [->|]; [by constructor; [|apply Forall_forall]|]. constructor; [done|]. apply Forall_forall.
    intros z [->|Hz]%snapshot_insert_elem; [lia|by apply Hy].
Qed.
Lemma snapshots_filter_sorted (P : Z -> Prop) `{!forall x, Decision (P x)} l : StronglySorted Z.lt l -> StronglySorted Z.lt (filter P l).
Proof.
  induction 1 as [|y l Hs IH Hy]; [constructor|]. rewrite filter_cons. case_decide; [|done]. constructor; [done|].
  apply Forall_forall. intros z [_ Hz]%list_elem_of_filter. rewrite Forall_forall in Hy. by apply Hy.
Qed.

(** The set is that of the live objects' sequence numbers. *)
Record snapshots_ok (s : Snapshots) : Prop := {
  so_sorted : StronglySorted Z.lt (snapshots_ s);
  so_exact x : x ∈ snapshots_ s <-> exists a, (a, x) ∈ snapshot_objects_ s;
  so_addresses : NoDup (snapshot_objects_ s).*1
}.

Lemma same_object (l : list (nat * Z)) a x y : NoDup l.*1 -> (a, x) ∈ l -> (a, y) ∈ l -> x = y.
Proof.
  intros Hnd [i Hi]%list_elem_of_lookup [j Hj]%list_elem_of_lookup.
  assert (i = j) as ->; [|congruence]. eapply (NoDup_lookup l.*1); [done|rewrite list_lookup_fmap, Hi; done|rewrite list_lookup_fmap, Hj; done].
Qed.

Lemma get_snapshot_ok s a last : snapshots_ok s -> (forall x, (a, x) ∉ snapshot_objects_ s) -> snapshots_ok (get_snapshot s a last).
Proof.
  intros [H1 H2 H3] Ha. split; cbn [get_snapshot snapshots_ snapshot_objects_].
  - by apply snapshot_insert_sorted.
  - intros x. rewrite snapshot_insert_elem, H2. setoid_rewrite elem_of_app. setoid_rewrite list_elem_of_singleton. split.
    + intros [->|(b & Hb)]; [exists a; by right|exists b; by left].
    + intros (b & [Hb|[= -> ->]]); [right; by eauto|by left].
  - rewrite fmap_app. apply NoDup_app. split; [done|]. split; [|apply NoDup_singleton].
    intros b Hb Hin. apply list_elem_of_singleton in Hin as ->. apply list_elem_of_fmap in Hb as ([b x] & Eb & Hb). cbn in Eb. subst. by apply (Ha x).
Qed.

Lemma release_snapshot_ok s a x :
  snapshots_ok s -> (a, x) ∈ snapshot_objects_ s ->
  exists s', release_snapshot s a = Some s' /\ snapshots_ok s' /\
    forall b y, (b, y) ∈ snapshot_objects_ s' <-> (b, y) ∈ snapshot_objects_ s /\ b <> a.
Proof.
  intros [H1 H2 H3] Hin. unfold release_snapshot.
  destruct (filter (λ o, o.1 = a) (snapshot_objects_ s)) as [|[a' x'] l] eqn:Ef.
  { exfalso. assert ((a, x) ∈ filter (λ o : nat * Z, o.1 = a) (snapshot_objects_ s)) as H by (by apply list_elem_of_filter). rewrite Ef in H. by apply elem_of_nil in H. }
  assert ((a', x') ∈ filter (λ o : nat * Z, o.1 = a) (snapshot_objects_ s)) as [Ea Hin']%list_elem_of_filter by (rewrite Ef; left).
  cbn in Ea. subst a'. pose proof (same_object _ _ _ _ H3 Hin Hin') as <-. cbn [head mbind option_bind]. clear Ef Hin' l.
  set (another := existsb _ (snapshot_objects_ s)).
  assert (another = true <-> exists b, (b, x) ∈ snapshot_objects_ s /\ b <> a) as Han.
  { subst another. rewrite existsb_exists. split.
    - intros ([b y] & Hb & [E1 E2%Z.eqb_eq]%andb_true_iff). cbn in *. subst. exists b. rewrite list_elem_of_In. split; [done|].
      by apply negb_true_iff, Nat.eqb_neq in E1.
    - intros (b & Hb & Hne). exists (b, x). rewrite <- list_elem_of_In. split; [done|]. cbn. rewrite Z.eqb_refl, andb_true_r.
      by apply negb_true_iff, Nat.eqb_neq. }
  assert (existsb (Z.eqb x) (snapshots_ s) = true) as ->.
  { apply existsb_exists. exists x. rewrite <- list_elem_of_In, Z.eqb_refl. split; [|done]. apply H2. by exists a. }
  clearbody another. cbn [andb]. eexists. split; [done|].
  assert (forall b y, (b, y) ∈ filter (λ o : nat * Z, o.1 <> a) (snapshot_objects_ s) <-> (b, y) ∈ snapshot_objects_ s /\ b <> a) as Hobj.
  { intros b y. rewrite list_elem_of_filter. cbn. naive_solver. }
  split; [|exact Hobj]. split; cbn [snapshots_ snapshot_objects_].
  - destruct another; cbn [negb]; [done|by apply snapshots_filter_sorted].
  - intros y. setoid_rewrite Hobj. destruct another; cbn [negb].
    + rewrite H2. split; [|naive_solver]. intros (b & Hb). destruct (decide (b = a)) as [->|]; [|by eauto].
      pose proof (same_object _ _ _ _ H3 Hin Hb) as <-. destruct (proj1 Han eq_refl) as (c & Hc & Hne). by eauto.
    + rewrite list_elem_of_filter, H2. split.
      * intros [Hne (b & Hb)]. exists b. split; [done|]. intros ->. by pose proof (same_object _ _ _ _ H3 Hin Hb).
      * intros (b & Hb & Hne). split; [|by eauto]. intros ->. assert (false = true); [|done]. apply Han. by eauto.
  - eapply sublist_NoDup; [exact H3|].
    clear. induction (snapshot_objects_ s) as [|o l IH]; [done|]. rewrite filter_cons. case_decide; cbn; by constructor.
Qed.

(** ** Histories *)
Inductive SnapshotOp := Take (address : nat) | Give (address : nat) | Advance (sequence : Z).
(** Snapshots and the last sequence number, which only grows; a snapshot is
    taken at a fresh address and released once. *)
Fixpoint snapshot_run (s : Snapshots) (last : Z) (ops : list SnapshotOp) : option (Snapshots * Z) :=
  match ops with
  | [] => Some (s, last)
  | Take a :: ops =>
      if existsb (λ o, (o.1 =? a)%nat) (snapshot_objects_ s) then None else snapshot_run (get_snapshot s a last) last ops
  | Give a :: ops => s ← release_snapshot s a; snapshot_run s last ops
  | Advance x :: ops => if x <? last then None else snapshot_run s x ops
  end.

Lemma snapshot_run_spec ops s last s' last' :
  snapshots_ok s -> (forall a x, (a, x) ∈ snapshot_objects_ s -> x <= last) -> snapshot_run s last ops = Some (s', last') ->
  snapshots_ok s' /\ last <= last' /\
  forall a x, (a, x) ∈ snapshot_objects_ s' -> x <= last' /\ ((a, x) ∈ snapshot_objects_ s \/ last <= x).
Proof.
  revert s last. induction ops as [|[a|a|y] ops IH]; intros s last Hok Hle E; cbn [snapshot_run] in E.
  - injection E as <- <-. split; [done|]. split; [done|]. intros a x Hin. split; [by eapply Hle|by left].
  - destruct (existsb _ _) eqn:Ex; [done|].
    assert (forall x, (a, x) ∉ snapshot_objects_ s) as Hfresh.
    { intros x Hin. rewrite list_elem_of_In in Hin. assert (existsb (λ o, (o.1 =? a)%nat) (snapshot_objects_ s) = true); [|congruence].
      apply existsb_exists. exists (a, x). split; [done|]. cbn. apply Nat.eqb_refl. }
    destruct (IH (get_snapshot s a last) last) as (H1 & H2 & H3); [by apply get_snapshot_ok| |done|].
    { intros b x [Hin|Hin]%elem_of_app; [by eapply Hle|]. apply list_elem_of_singleton in Hin as [= -> ->]. lia. }
    split; [done|]. split; [done|]. intros b x Hin. destruct (H3 b x Hin) as [Hb [Hold|Hnew]]; (split; [done|]); [|by right].
    apply elem_of_app in Hold as [Hold|Hold]; [by left|]. apply list_elem_of_singleton in Hold as [= -> ->]. right. lia.
  - destruct (release_snapshot s a) as [s1|] eqn:Er; [|done]. cbn [mbind option_bind] in E.
    assert (exists x, (a, x) ∈ snapshot_objects_ s) as [x Hx].
    { unfold release_snapshot in Er. destruct (filter (λ o : nat * Z, o.1 = a) (snapshot_objects_ s)) as [|[b x] l] eqn:Ef; [done|].
      assert ((b, x) ∈ filter (λ o : nat * Z, o.1 = a) (snapshot_objects_ s)) as [Eb Hin]%list_elem_of_filter by (rewrite Ef; left).
      cbn in Eb. subst. by exists x. }
    destruct (release_snapshot_ok s a x Hok Hx) as (s2 & Er2 & Hok2 & Hobj). rewrite Er in Er2. injection Er2 as <-.
    destruct (IH s1 last Hok2) as (H1 & H2 & H3); [intros b y [Hin _]%Hobj; by eapply Hle|done|].
    split; [done|]. split; [done|]. intros b y Hin. destruct (H3 b y Hin) as [Hb [Hold|Hnew]]; (split; [done|]); [left; by apply Hobj|by right].
  - destruct (Z.ltb_spec y last); [done|]. destruct (IH s y Hok) as (H1 & H2 & H3); [intros b x Hin; specialize (Hle b x Hin); lia|done|].
    split; [done|]. split; [lia|]. intros b x Hin. destruct (H3 b x Hin) as [Hb [Hold|Hnew]]; (split; [done|]); [by left|right; lia].
Qed.

Lemma smallest_spec s last :
  snapshots_ok s -> (forall a x, (a, x) ∈ snapshot_objects_ s -> x <= last) ->
  (forall a x, (a, x) ∈ snapshot_objects_ s -> smallest_snapshot s last <= x) /\ smallest_snapshot s last <= last /\
  ((snapshot_objects_ s = [] /\ smallest_snapshot s last = last) \/ exists a, (a, smallest_snapshot s last) ∈ snapshot_objects_ s).
Proof.
  intros [H1 H2 _] Hle. unfold smallest_snapshot. destruct (snapshots_ s) as [|m l] eqn:El; cbn.
  - assert (snapshot_objects_ s = []) as ->.
    { destruct (snapshot_objects_ s) as [|[a x] o] eqn:Eo; [done|]. exfalso. apply (not_elem_of_nil x). apply H2. exists a. left. }
    split; [by intros a x ?%elem_of_nil|]. split; [done|]. by left.
  - assert (exists a, (a, m) ∈ snapshot_objects_ s) as [a Ha] by (apply H2; left).
    apply StronglySorted_inv in H1 as [_ Hm]. rewrite Forall_forall in Hm. split; [|split; [by eapply Hle|right; by exists a]].
    intros b x Hb. assert (x ∈ m :: l) as Hx by (apply H2; by exists b). apply elem_of_cons in Hx as [->|Hx]; [done|]. specialize (Hm x Hx). lia.
Qed.



(** * Obsolete files *)

(** [remove_obsolete_files]: the base names deleted and the tables evicted
    from the table cache.  [pending] are the outputs being written,
    [versions] every live version, [names] what listing the directory gave. *)
Record Numbers := mkNumbers { log_number : Z; prev_log_number : Z; manifest_file_number : Z }.
Definition add_live_files (versions : list Version) (live : list Z) : list Z :=
  live ++ (versions ≫= λ v, files_ v ≫= λ level, number ∘ f_meta <$> level).

Definition keep_file (ns : Numbers) (live : list Z) (number : Z) (type : FileType) : bool :=
  match type with
  | kLog => (log_number ns <=? number) || (number =? prev_log_number ns)
  | kDescriptor => manifest_file_number ns <=? number
  | kTable | kTemp => existsb (Z.eqb number) live
  | kCurrent | kLock | kInfoLog => true
  end.

Fixpoint obsolete_loop (ns : Numbers) (live : list Z) (names : list bytes) (to_delete : list bytes) (evicted : list Z) : list bytes * list Z :=
  match names with
  | [] => (to_delete, evicted)
  | base :: names =>
      match parse_file_name base with
      | None => obsolete_loop ns live names to_delete evicted
      | Some (number, type) =>
          if keep_file ns live number type then obsolete_loop ns live names to_delete evicted
          else obsolete_loop ns live names (to_delete ++ [base]) (if bool_decide (type = kTable) then evicted ++ [number] else evicted)
      end
  end.

Definition remove_obsolete_files (background_error : Status) (ns : Numbers) (pending : list Z) (versions : list Version)
    (listed : Status * list bytes) : list bytes * list Z :=
  if negb (is_ok background_error) then ([], [])
  else
    let live := add_live_files versions pending in
    if negb (is_ok listed.1) then ([], []) else obsolete_loop ns live listed.2 [] [].

Lemma obsolete_loop_spec ns live names d e :
  let '(d', e') := obsolete_loop ns live names d e in
  (forall name, name ∈ d' <-> name ∈ d \/ (name ∈ names /\ exists n t, parse_file_name name = Some (n, t) /\ keep_file ns live n t = false)) /\
  (forall n, n ∈ e' <-> n ∈ e \/ exists name, name ∈ names /\ parse_file_name name = Some (n, kTable) /\ keep_file ns live n kTable = false).
Proof.
  revert d e. induction names as [|base names IH]; intros d e; cbn [obsolete_loop].
  { split; intros x; (split; [by left|]); intros [|H]; try done; [by destruct H as [?%elem_of_nil _]|by destruct H as (? & ?%elem_of_nil & _)]. }
  destruct (parse_file_name base) as [[n t]|] eqn:Ep.
  - destruct (keep_file ns live n t) eqn:Ek.
    + specialize (IH d e). destruct (obsolete_loop _ _ _ _ _) as [d' e']. destruct IH as [H1 H2]. split; intros x.
      * rewrite H1, elem_of_cons. split; [intros [|[? ?]]; auto|]. intros [|[[->|Hin] (n' & t' & E1 & E2)]]; [by left|congruence|right; eauto].
      * rewrite H2. setoid_rewrite elem_of_cons. split; [intros [|(name & Hin & H)]; [by left|right; exists name; auto]|].
        intros [|(name & [->|Hin] & E1 & E2)]; [by left|congruence|right; eauto].
    + specialize (IH (d ++ [base]) (if bool_decide (t = kTable) then e ++ [n] else e)). destruct (obsolete_loop _ _ _ _ _) as [d' e'].
      destruct IH as [H1 H2]. split; intros x.
      * rewrite H1, elem_of_app, list_elem_of_singleton, elem_of_cons. split.
        -- intros [[H| ->]|[? ?]]; [by left|right; split; [by left|by eauto]|auto].
        -- intros [|[[->|Hin] H]]; [by left; left|by left; right|by right].
      * rewrite H2. setoid_rewrite elem_of_cons. case_bool_decide as Et.
        -- subst t. rewrite elem_of_app, list_elem_of_singleton.
           split; [intros [[H| ->]|(name & Hin & H)]; [by left|right; exists base; auto|right; exists name; auto]|].
           intros [|(name & [->|Hin] & E1 & E2)]; [by left; left| |right; by eauto]. left. right. rewrite Ep in E1. by injection E1.
        -- split; [intros [|(name & Hin & H)]; [by left|right; exists name; auto]|]. intros [|(name & [->|Hin] & E1 & E2)]; [by left| |right; by eauto]. rewrite Ep in E1. by injection E1 as -> ->.
  - specialize (IH d e). destruct (obsolete_loop _ _ _ _ _) as [d' e']. destruct IH as [H1 H2]. split; intros x.
    + rewrite H1, elem_of_cons. split; [intros [|[? ?]]; auto|]. intros [|[[->|Hin] (n & t & E1 & E2)]]; [by left|congruence|right; eauto 6].
    + rewrite H2. setoid_rewrite elem_of_cons. split; [intros [|(name & Hin & H)]; [by left|right; exists name; auto]|].
      intros [|(name & [->|Hin] & E1 & E2)]; [by left|congruence|right; eauto].
Qed.

Lemma existsb_live live n : existsb (Z.eqb n) live = true <-> n ∈ live.
Proof. rewrite existsb_exists. setoid_rewrite Z.eqb_eq. setoid_rewrite <- list_elem_of_In. naive_solver. Qed.
Lemma live_elem versions pending n :
  n ∈ add_live_files versions pending <->
  n ∈ pending \/ exists v files (f : FilePtr), v ∈ versions /\ files ∈ files_ v /\ f ∈ files /\ number f = n.
Proof.
  unfold add_live_files. rewrite elem_of_app, list_elem_of_bind. setoid_rewrite list_elem_of_bind. setoid_rewrite list_elem_of_fmap. split.
  - intros [|(v & (files & (f & -> & Hf) & Hfs) & Hv)]; [by left|right]. exists v, files, f. auto.
  - intros [|(v & files & f & Hv & Hfs & Hf & <-)]; [by left|right]. exists v. split; [|done]. exists files. split; [|done]. by exists f.
Qed.

Lemma kept_not_deleted error ns pending versions listed deleted evicted name n t :
  remove_obsolete_files error ns pending versions listed = (deleted, evicted) ->
  parse_file_name name = Some (n, t) -> keep_file ns (add_live_files versions pending) n t = true -> name ∉ deleted.
Proof.
  unfold remove_obsolete_files. set (live := add_live_files versions pending). intros E Ep Ek Hin.
  destruct (is_ok error); cbn [negb] in E; [|injection E as <- <-; by apply elem_of_nil in Hin].
  destruct (is_ok listed.1); cbn [negb] in E; [|injection E as <- <-; by apply elem_of_nil in Hin].
  pose proof (obsolete_loop_spec ns live listed.2 [] []) as H. rewrite E in H. destruct H as [H _].
  apply H in Hin as [?%elem_of_nil|(_ & n' & t' & Ep' & Ek')]; [done|]. congruence.
Qed.

(** C13.  Cleaning up never deletes what a live version, a running write or a
    reopen needs, and nothing at all after a background error.  A deleted name
    is none of: the table of a file in a live version or of a pending output,
    a log at or above the log number or the previous log, the manifest in use,
    CURRENT, the lock or the info log, and no name the engine does not
    recognise; and every table file that nothing refers to is deleted and
    dropped from the table cache. *)
Theorem obsolete_files_are_unneeded error ns pending versions listed deleted evicted dbname :
  remove_obsolete_files error ns pending versions listed = (deleted, evicted) ->
  let live := add_live_files versions pending in
  (is_ok error = false -> deleted = [] /\ evicted = []) /\
  (forall name, name ∈ deleted -> name ∈ listed.2 /\ is_Some (parse_file_name name)) /\
  (forall n, 0 <= n < 2 ^ 64 -> n ∈ live ->
     (base_name dbname (table_file_name dbname n) ∉ deleted) /\ (base_name dbname (temp_file_name dbname n) ∉ deleted)) /\
  (forall n, 0 <= n < 2 ^ 64 -> log_number ns <= n \/ n = prev_log_number ns -> (base_name dbname (log_file_name dbname n) ∉ deleted)) /\
  (forall n, 0 <= n < 2 ^ 64 -> manifest_file_number ns <= n -> (base_name dbname (descriptor_file_name dbname n) ∉ deleted)) /\
  (base_name dbname (current_file_name dbname) ∉ deleted) /\ (base_name dbname (lock_file_name dbname) ∉ deleted) /\
  (base_name dbname (info_log_file_name dbname) ∉ deleted) /\
  (is_ok error = true -> is_ok listed.1 = true -> forall n, 0 <= n < 2 ^ 64 -> n ∉ live ->
     base_name dbname (table_file_name dbname n) ∈ listed.2 ->
     base_name dbname (table_file_name dbname n) ∈ deleted /\ n ∈ evicted).
Proof.
  intros E live.
  assert (forall name n t, parse_file_name name = Some (n, t) -> keep_file ns live n t = true -> name ∉ deleted) as Hkeep
    by (intros name n t; by apply (kept_not_deleted _ _ _ _ _ _ _ _ _ _ E)).
  unfold remove_obsolete_files in E.
  split_and!.
  - intros He. rewrite He in E. by injection E as <- <-.
  - intros name Hin. destruct (is_ok error); cbn [negb] in E; [|injection E as <- <-; by apply elem_of_nil in Hin].
    destruct (is_ok listed.1); cbn [negb] in E; [|injection E as <- <-; by apply elem_of_nil in Hin].
    pose proof (obsolete_loop_spec ns live listed.2 [] []) as H. fold live in E. rewrite E in H. destruct H as [H _].
    apply H in Hin as [?%elem_of_nil|(Hin & n' & t' & Ep' & Ek')]; [done|]. rewrite Ep'. by eauto.
  - intros n Hn Hl. destruct (names_parse dbname n Hn) as (_ & Et & Ex & _). split; eapply Hkeep; [exact Et|by apply existsb_live|exact Ex|by apply existsb_live].
  - intros n Hn Hl. destruct (names_parse dbname n Hn) as (El & _). eapply Hkeep; [exact El|]. cbn. apply orb_true_iff. rewrite Z.leb_le, Z.eqb_eq. lia.
  - intros n Hn Hl. destruct (names_parse dbname n Hn) as (_ & _ & _ & Ed & _). eapply Hkeep; [exact Ed|]. cbn. by apply Z.leb_le.
  - destruct (names_parse dbname 0 ltac:(lia)) as (_ & _ & _ & _ & Ec & _). by eapply Hkeep.
  - destruct (names_parse dbname 0 ltac:(lia)) as (_ & _ & _ & _ & _ & Ec & _). by eapply Hkeep.
  - destruct (names_parse dbname 0 ltac:(lia)) as (_ & _ & _ & _ & _ & _ & Ec). by eapply Hkeep.
  - intros He Hl n Hn Hnl Hin. rewrite He, Hl in E. cbn [negb] in E. destruct (names_parse dbname n Hn) as (_ & Et & _).
    pose proof (obsolete_loop_spec ns live listed.2 [] []) as H. fold live in E. rewrite E in H. destruct H as [H1 H2].
    assert (keep_file ns live n kTable = false) as Ek by (apply not_true_is_false; intros ?%existsb_live; done).
    split; [apply H1; right; eauto|apply H2; right; eauto].
Qed.

Definition sample_names : list bytes :=
  [string_bytes "000003.log"; string_bytes "000009.log"; string_bytes "000004.sst"; string_bytes "000008.sst"; string_bytes "MANIFEST-000007";
   string_bytes "CURRENT"; string_bytes "notes.txt"].
Lemma obsolete_files_are_unneeded_witness :
  remove_obsolete_files ok (mkNumbers 9 0 7) [] [sample_get_version] (ok, sample_names) =
    ([string_bytes "000003.log"; string_bytes "000004.sst"], [4]) /\
  base_name [] (table_file_name [] 8) ∉ [string_bytes "000003.log"; string_bytes "000004.sst"].
Proof.
  assert (remove_obsolete_files ok (mkNumbers 9 0 7) [] [sample_get_version] (ok, sample_names) =
    ([string_bytes "000003.log"; string_bytes "000004.sst"], [4])) as E by (vm_compute; reflexivity).
  split; [exact E|].
  exact (proj1 (proj1 (proj2 (proj2 (obsolete_files_are_unneeded ok (mkNumbers 9 0 7) [] [sample_get_version] (ok, sample_names) _ _ [] E)))
    8 ltac:(lia) ltac:(apply (bool_decide_unpack _); vm_compute; exact I))).
Defined.

(** ** Example of a read

    A deletion in the memtable hides what the tables hold. *)
Lemma database_get_is_newest_witness :
  exists mem found, MemTable.add MemTable.counter (MemTable.MemTable_new 3) 12 kDeletion [x61] [] = Some mem /\
    get (memory_reader sample_contents) mem None sample_get_version {[ 1%nat := 100; 2%nat := 100 ]} () 20 [x61] [] = Some found /\
    ((nothing_in [x61] 20 (everything sample_contents sample_get_version [MemTable.mkVersion 12 kDeletion [x61] []] []) /\
      fd_status found = not_found "not present" /\ fd_value found = []) \/
     exists e, newest_of [x61] 20 (everything sample_contents sample_get_version [MemTable.mkVersion 12 kDeletion [x61] []] []) e /\
       answers e [] (fd_status found) (fd_value found)).
Proof.
  destruct (MemTable.add_holds MemTable.counter (MemTable.MemTable_new 3) (λ _, []) [] (MemTable.mkVersion 12 kDeletion [x61] []))
    as (mem & Ls & Ea & Hh).
  { apply MemTable.holds_new. }
  { repeat split; vm_compute; congruence. }
  { by intros w ?%elem_of_nil. }
  destruct (database_get_is_newest (Rng := Z) (memory_reader sample_contents) sample_contents (λ _, True) mem None sample_get_version
    {[ 1%nat := 100; 2%nat := 100 ]} [MemTable.mkVersion 12 kDeletion [x61] []] [] () [x61] 20 []) as (found & E & _ & _ & H).
  - split.
    + by exists Ls.
    + done.
    + exact sample_get_wf.
    + intros level f Hf. exists 100. split; [|lia].
      destruct level as [|[|[|[|[|[|[|level]]]]]]]; unfold level_files in Hf; cbn [sample_get_version files_ lookup list_lookup from_option id] in Hf;
        try (destruct level as [|level]); cbn [lookup list_lookup from_option] in Hf; elem_cases; reflexivity.
    + by intros a b _ ?%elem_of_nil.
    + intros a b [Ha|?%elem_of_nil] (level & f & Hf & (es & [Ec _ _ _ _] & Hb)) _; [|done]. apply list_elem_of_singleton in Ha as ->.
      apply sample_get_files in Hf as [[_ En]|[_ En]]; rewrite En in Ec; cbn in Ec; injection Ec as <-; elem_cases; cbn; lia.
  - exact I.
  - unfold seq_ok. vm_compute. split; discriminate.
  - vm_compute. reflexivity.
  - exists mem, found. split; [exact Ea|]. split; [exact E|exact H].
Defined.
End DbRead.
