(* ===== verification/Background.v ===== *)
(** Background work and explicit compactions (src/src/db_impl.cpp:
    [maybe_schedule_compaction], [background_loop], [background_compaction]
    and [compact_range]) as a transition system.

    Every step is one stretch of code under [mutex_], from taking it, or
    returning from a wait, to giving it up; what a thread does without it is
    between two steps.  What a flush or a compaction does to the files is
    modelled elsewhere; here it succeeds or fails, and leaves more to do or
    not. *)
From stdpp Require Import relations.
From S2P Require Import Prelude.

Module Background.

(** A [ManualCompaction] on the stack of [compact_range], by the order of
    their creation: alive until its scope ends. *)
Record Manual := mkManual { m_done : bool; m_alive : bool }.

(** Where the background thread is, without the mutex. *)
Inductive BgPc :=
  | BTop                        (* at [background_work_available_.wait], or not started *)
  | BCompact                    (* on its way into [background_compaction] *)
  | BFlush                      (* in [compact_memtable] *)
  | BWork (manual : option nat) (* in [do_compaction_work] or [log_and_apply] *)
  | BFinish                     (* back in [background_loop] *)
  | BExit.

Record Bg := mkBg {
  scheduled : bool;             (* background_compaction_scheduled_ *)
  shutting_down : bool;
  error : bool;                 (* background_error_ is set *)
  imm : bool;                   (* imm_ != nullptr *)
  needs : bool;                 (* versions_->needs_compaction() *)
  manual : option nat;          (* manual_compaction_ *)
  requests : list Manual;
  bg : BgPc
}.
Definition Bg_new : Bg := mkBg false false false false false None [] BTop.

Definition set_bg (s : Bg) (p : BgPc) : Bg :=
  mkBg (scheduled s) (shutting_down s) (error s) (imm s) (needs s) (manual s) (requests s) p.
Definition set_scheduled (s : Bg) (b : bool) : Bg :=
  mkBg b (shutting_down s) (error s) (imm s) (needs s) (manual s) (requests s) (bg s).
Definition set_error (s : Bg) : Bg :=
  mkBg (scheduled s) (shutting_down s) true (imm s) (needs s) (manual s) (requests s) (bg s).
Definition set_imm (s : Bg) (b : bool) : Bg :=
  mkBg (scheduled s) (shutting_down s) (error s) b (needs s) (manual s) (requests s) (bg s).
Definition set_needs (s : Bg) (b : bool) : Bg :=
  mkBg (scheduled s) (shutting_down s) (error s) (imm s) b (manual s) (requests s) (bg s).
Definition set_manual (s : Bg) (m : option nat) : Bg :=
  mkBg (scheduled s) (shutting_down s) (error s) (imm s) (needs s) m (requests s) (bg s).
Definition set_request (s : Bg) (r : nat) (f : Manual -> Manual) : Bg :=
  mkBg (scheduled s) (shutting_down s) (error s) (imm s) (needs s) (manual s) (alter f r (requests s)) (bg s).
Definition set_done (b : bool) (m : Manual) : Manual := mkManual b (m_alive m).
Definition end_scope (m : Manual) : Manual := mkManual (m_done m) false.
Definition mark_done (s : Bg) (m : option nat) (b : bool) : Bg := if m is Some r then set_request s r (set_done b) else s.

Definition work_to_do (s : Bg) : bool := imm s || bool_decide (manual s <> None) || needs s.
Definition maybe_schedule_compaction (s : Bg) : Bg :=
  if scheduled s then s
  else if shutting_down s then s
  else if error s then s
  else if work_to_do s then set_scheduled s true else s.

(** The end of a round of [background_loop]; the version may now want more. *)
Definition finish_round (s : Bg) : Bg := maybe_schedule_compaction (set_bg (set_scheduled s false) BTop).

(** The top of [background_loop]. *)
Definition background_top (s : Bg) : option Bg :=
  if negb (scheduled s) && negb (shutting_down s) then None          (* waits on *)
  else if shutting_down s then Some (set_bg (set_scheduled s false) BExit)
  else if error s then Some (finish_round s)
  else Some (set_bg s BCompact).

(** [background_compaction] up to where it gives the mutex up: [picked] is
    whether a compaction was found. *)
Definition background_compaction (s : Bg) (picked : bool) : Bg :=
  if imm s then set_bg s BFlush
  else
    let s := mark_done s (manual s) (negb picked) in
    set_bg s (if picked then BWork (manual s) else BFinish).

(** The end of [compact_memtable] and of [background_compaction] after it. *)
Definition flush_done (s : Bg) (ok_ : bool) (more : bool) : Bg :=
  let s := set_needs s more in
  set_bg (if ok_ then set_imm s false else set_error s) BFinish.

(** The end of [background_compaction] after the work: [m] is the request it
    started with. *)
Definition work_done (s : Bg) (m : option nat) (ok_ : bool) (more : bool) : Bg :=
  let s := set_needs s more in
  let s := if negb ok_ && negb (shutting_down s) then set_error s else s in
  let s := if m is Some _ then set_manual (if ok_ then s else mark_done s m true) None else s in
  set_bg s BFinish.

(** One round of the loop of [compact_range] for request [r]: the request's
    scope ends, or the thread waits. *)
Definition compact_range_round (s : Bg) (r : nat) (m : Manual) : Bg :=
  if negb (m_done m) && negb (shutting_down s) && negb (error s) then
    match manual s with
    | None => maybe_schedule_compaction (set_manual s (Some r))
    | Some _ => s
    end
  else set_request (if bool_decide (manual s = Some r) then set_manual s None else s) r end_scope.

(** The background thread. *)
Inductive bg_step : Bg -> Bg -> Prop :=
  | bg_top s s' : bg s = BTop -> background_top s = Some s' -> bg_step s s'
  | bg_compact s picked : bg s = BCompact -> bg_step s (background_compaction s picked)
  | bg_flushed s ok_ more : bg s = BFlush -> bg_step s (flush_done s ok_ more)
  | bg_flushed_within s m more : bg s = BWork m -> imm s = true -> bg_step s (set_needs (set_imm s false) more)
  | bg_worked s m ok_ more : bg s = BWork m -> bg_step s (work_done s m ok_ more)
  | bg_finish s : bg s = BFinish -> bg_step s (finish_round s).

(** Everyone else. *)
Inductive other_step : Bg -> Bg -> Prop :=
  (* a writer rotates its memtable or fails, a reader charges a seek *)
  | other_rotate s : imm s = false -> other_step s (maybe_schedule_compaction (set_imm s true))
  | other_error s : other_step s (set_error s)
  | other_seek s : other_step s (maybe_schedule_compaction (set_needs s true))
  (* compact_range *)
  | other_request s :
      other_step s (mkBg (scheduled s) (shutting_down s) (error s) (imm s) (needs s) (manual s) (requests s ++ [mkManual false true]) (bg s))
  | other_round s r m : requests s !! r = Some m -> m_alive m = true -> other_step s (compact_range_round s r m)
  (* ~DBImpl *)
  | other_shutdown s :
      other_step s (mkBg (scheduled s) true (error s) (imm s) (needs s) (manual s) (requests s) (bg s)).

Definition step (s s' : Bg) : Prop := bg_step s s' \/ other_step s s'.
Definition reachable : Bg -> Prop := rtc step Bg_new.

(** * The invariant *)
Definition busy (p : BgPc) : bool := match p with BTop | BExit => false | _ => true end.
Definition healthy (s : Bg) : Prop := error s = false /\ shutting_down s = false.
Definition alive (s : Bg) (r : nat) : Prop := exists m, requests s !! r = Some m /\ m_alive m = true.
Record Inv (s : Bg) : Prop := {
  inv_work : work_to_do s = true -> healthy s -> scheduled s = true;
  inv_busy : busy (bg s) = true -> scheduled s = true;
  inv_exit : bg s = BExit -> shutting_down s = true;
  inv_manual r : manual s = Some r -> alive s r;
  inv_held r : bg s = BWork (Some r) -> healthy s -> exists m, requests s !! r = Some m /\ m_alive m = true /\ m_done m = false
}.

Lemma maybe_schedule_spec s :
  exists b, maybe_schedule_compaction s = set_scheduled s b /\ (scheduled s = true -> b = true) /\
    (work_to_do s = true -> healthy s -> b = true).
Proof.
  unfold maybe_schedule_compaction, healthy.
  assert (set_scheduled s (scheduled s) = s) as E by (by destruct s).
  destruct (scheduled s) eqn:Es; [exists true; by rewrite E|].
  destruct (shutting_down s) eqn:Eh; [exists false; rewrite E; split; [done|]; split; [done|]; by intros _ [_ ?]|].
  destruct (error s) eqn:Ee; [exists false; rewrite E; split; [done|]; split; [done|]; by intros _ [? _]|].
  destruct (work_to_do s) eqn:Ew; [by exists true|]. exists false. by rewrite E.
Qed.

(** Scheduling keeps everything and restores the first part. *)
Lemma schedule_inv s :
  (busy (bg s) = true -> scheduled s = true) -> (bg s = BExit -> shutting_down s = true) -> (forall r, manual s = Some r -> alive s r) ->
  (forall r, bg s = BWork (Some r) -> healthy s -> exists m, requests s !! r = Some m /\ m_alive m = true /\ m_done m = false) ->
  Inv (maybe_schedule_compaction s).
Proof.
  intros H1 H2 H3 H4. destruct (maybe_schedule_spec s) as (b & -> & Hb & Hw). split; cbn; try done; by intros ?; apply Hb, H1.
Qed.

Lemma alive_done s r r' b : alive s r -> alive (set_request s r' (set_done b)) r.
Proof.
  intros (m & Hm & Ha). unfold alive. cbn. destruct (decide (r = r')) as [->|Hne].
  - exists (set_done b m). by rewrite list_lookup_alter_eq, Hm.
  - exists m. by rewrite list_lookup_alter_ne.
Qed.

Lemma bg_step_inv s s' : Inv s -> bg_step s s' -> Inv s'.
Proof.
  intros [I1 I2 I3 I4 I5] W. destruct W as [s s' Ep E|s picked Ep|s ok_ more Ep|s m more Ep Ei|s m ok_ more Ep|s Ep].
  - unfold background_top in E. destruct (negb (scheduled s) && negb (shutting_down s)) eqn:Ec; [done|].
    destruct (shutting_down s) eqn:Eh.
    { injection E as <-. split; cbn; try done. unfold healthy. cbn. by intros _ [_ ?]; congruence. }
    destruct (error s) eqn:Ee.
    { injection E as <-. apply schedule_inv; cbn; try done. }
    injection E as <-. split; cbn; try done. intros _. rewrite andb_true_r in Ec. by apply negb_false_iff in Ec.
  - unfold background_compaction. assert (scheduled s = true) as Hs by (apply I2; by rewrite Ep).
    destruct (imm s) eqn:Ei; [split; cbn; done|].
    assert (forall r, manual s = Some r -> alive (mark_done s (manual s) (negb picked)) r) as Ha.
    { intros r Hr. rewrite Hr. cbn. apply alive_done, I4, Hr. }
    destruct (manual s) as [r|] eqn:Em; cbn [mark_done] in *; destruct picked; split; cbn; rewrite ?Em; try done.
    intros r' [= <-] _. destruct (I4 r eq_refl) as (m & Hm & Hal). exists (set_done false m). by rewrite list_lookup_alter_eq, Hm.
  - assert (scheduled s = true) as Hs by (apply I2; by rewrite Ep). unfold flush_done. destruct ok_; split; cbn; try done.
  - assert (scheduled s = true) as Hs by (apply I2; by rewrite Ep). split; cbn; try done.
  - assert (scheduled s = true) as Hs by (apply I2; by rewrite Ep). unfold work_done.
    destruct m as [r|], ok_; cbn; destruct (shutting_down s); cbn; split; cbn; try done.
  - apply schedule_inv; cbn; done.
Qed.

Lemma other_step_inv s s' : Inv s -> other_step s s' -> Inv s'.
Proof.
  intros I W. pose proof I as [I1 I2 I3 I4 I5]. destruct W as [s Ei|s|s|s|s r m Hr Ha|s].
  - apply schedule_inv; cbn; done.
  - split; cbn; try done; unfold healthy; cbn; [by intros _ [? _]|by intros r _ [? _]].
  - apply schedule_inv; cbn; done.
  - split; cbn; try done.
    + intros r Hr. destruct (I4 r Hr) as (m & Hm & Ha). exists m. cbn. split; [by apply lookup_app_l_Some|done].
    + intros r Hr Hh. destruct (I5 r Hr Hh) as (m & Hm & H). exists m. split; [by apply lookup_app_l_Some|done].
  - unfold compact_range_round. destruct (negb (m_done m) && _ && _) eqn:Ec.
    { destruct (manual s) as [q|] eqn:Em; [done|]. apply schedule_inv; cbn; try done. intros q [= <-]. by exists m. }
    (* the scope ends: nobody holds the request, unless something failed *)
    assert (forall q, (if bool_decide (manual s = Some r) then None else manual s) = Some q -> manual s = Some q /\ q <> r) as Hq.
    { intros q. case_bool_decide as Hb; [done|]. intros E. split; [done|]. congruence. }
    split.
    + case_bool_decide; cbn; intros Hw Hh; apply I1; try done. unfold work_to_do in *. cbn in Hw.
      apply orb_true_iff in Hw as [Hw|Hw]; [|by rewrite Hw, orb_true_r]. rewrite orb_false_r in Hw. by rewrite Hw.
    + by case_bool_decide.
    + by case_bool_decide.
    + intros q Eq. assert (manual s = Some q /\ q <> r) as [Hm Hne] by (apply Hq; by case_bool_decide).
      destruct (I4 q Hm) as (mq & Hmq & Haq). exists mq. case_bool_decide; cbn; by rewrite list_lookup_alter_ne.
    + intros q Eq Hh. assert (bg s = BWork (Some q) /\ healthy s) as [Eb Hh'] by (by case_bool_decide).
      destruct (I5 q Eb Hh') as (mq & Hmq & Haq & Hdq). exists mq. split; [|done].
      assert (q <> r) as Hne.
      { intros ->. rewrite Hr in Hmq. injection Hmq as <-. destruct Hh' as [He Hd]. by rewrite Hdq, He, Hd in Ec. }
      case_bool_decide; cbn; by rewrite list_lookup_alter_ne.
  - split; cbn; try done; unfold healthy; cbn; [by intros _ [_ ?]|by intros r _ [_ ?]].
Qed.

Lemma background_inv s : reachable s -> Inv s.
Proof.
  unfold reachable. assert (Inv Bg_new) as H0 by (split; cbn; done). intros Hr. revert H0.
  induction Hr as [|a b c [W|W] _ IH]; intros I; [done|by apply IH; eapply bg_step_inv|by apply IH; eapply other_step_inv].
Qed.

(** * Explicit compactions

    While nothing has failed, the request the background thread works for is
    in scope. *)
Lemma manual_requests_live s r :
  reachable s -> healthy s -> manual s = Some r \/ bg s = BWork (Some r) -> alive s r.
Proof.
  intros I%background_inv Hh [Hr|Hr]; [by apply (inv_manual _ I)|]. destruct (inv_held _ I r Hr Hh) as (m & Hm & Ha & _). by exists m.
Qed.

(** An error that some writer reports meanwhile ends the scope of a request
    that the background thread goes on to write to: [compact_range] leaves its
    loop as soon as [background_error_] is set and does not wait for the round
    it started. *)
Lemma manual_request_can_dangle :
  exists s r m, reachable s /\ bg s = BWork (Some r) /\ requests s !! r = Some m /\ m_alive m = false.
Proof.
  eexists _, 0%nat, (mkManual false false). split.
  - unfold reachable. eapply rtc_l; [right; apply other_request|].
    eapply rtc_l; [right; apply (other_round _ 0%nat (mkManual false true)); reflexivity|].
    eapply rtc_l; [left; apply bg_top; reflexivity|].
    eapply rtc_l; [left; apply (bg_compact _ true); reflexivity|].
    eapply rtc_l; [right; apply other_error|].
    eapply rtc_l; [right; apply (other_round _ 0%nat (mkManual false true)); reflexivity|]. apply rtc_refl.
  - split; [reflexivity|]. split; reflexivity.
Qed.

(** * Theorem *)

(** How far a round is from its end, where [background_work_finished_] is
    notified. *)
Definition round_rank (s : Bg) : nat :=
  match bg s with
  | BTop => 5
  | BCompact => 4
  | BWork _ => if imm s then 3 else 2
  | BFlush => 2
  | BFinish | BExit => 1
  end%nat.


End Background.
