(* ===== verification/TableCache.v ===== *)
(** The table cache (src/src/table_cache.cpp, src/src/table_cache.hpp): open
    tables by file number, in sixteen shards with a recency list and a share
    of the capacity each, and reference counts that keep an evicted table open
    until its last user lets go.

    Entries live in a heap of addresses, so that what the code frees too early
    would show: an access to an address that is not allocated is [None].  Each
    operation is one critical section of a shard's lock; [find] has two, with
    the opening of the file between them. *)
From stdpp Require Import gmap relations.
From S2P Require Import Prelude Status DbFormat Comparator Iterator VersionEdit MemTable Version VersionGet.
From S2P Require Import File Format FilterBlock Bloom Cache Encoding TableBuilder Table DbRead.
Import Status File Encoding DbFormat Comparator Bloom Iterator Format VersionEdit Version VersionGet.
Local Open Scope Z_scope.

Module TableCache.

Definition kShards : nat := 16.
Definition shard_of (file_number : Z) : nat := Z.to_nat (file_number mod Z.of_nat kShards).
(** The share of one shard. *)
Definition capacity (entries : Z) : nat :=
  Z.to_nat (((if entries <? 1 then 1 else entries) + Z.of_nat kShards - 1) / Z.of_nat kShards).

Section Operations.
Context {T : Type}.

Record Entry := mkEntry {
  table : T;
  file_number : Z;
  refs : Z;
  in_cache : bool
}.
Record Shard := mkShard { lru : list Z; entries : gmap Z nat }.
Record TableCache := mkCache { shards : list Shard; heap : gmap nat Entry; fresh_address : nat }.

Definition TableCache_new : TableCache := mkCache (replicate kShards (mkShard [] ∅)) ∅ 0.

Definition set_refs (e : Entry) (n : Z) : Entry := mkEntry (table e) (file_number e) n (in_cache e).
Definition set_shard (c : TableCache) (n : Z) (sh : Shard) (h : gmap nat Entry) : TableCache :=
  mkCache (<[shard_of n := sh]> (shards c)) h (fresh_address c).
Definition cached (c : TableCache) (n : Z) : option nat := shards c !! shard_of n ≫= λ sh, entries sh !! n.

(** [list::erase] of the node that holds [n]. *)
Fixpoint erase (n : Z) (l : list Z) : list Z :=
  match l with
  | [] => []
  | x :: l => if x =? n then l else x :: erase n l
  end.

(** [--entry->refs], and the end of an entry that nobody uses any more. *)
Definition drop_ref (h : gmap nat Entry) (a : nat) (e : Entry) : gmap nat Entry :=
  if refs e - 1 =? 0 then delete a h else <[a := set_refs e (refs e - 1)]> h.

(** The critical section of a hit: the entry becomes the most recent. *)
Definition find_cached (c : TableCache) (n : Z) : option (option nat * TableCache) :=
  sh ← shards c !! shard_of n;
  match entries sh !! n with
  | None => Some (None, c)
  | Some a =>
      e ← heap c !! a;
      Some (Some a, set_shard c n (mkShard (n :: erase n (lru sh)) (entries sh)) (<[a := set_refs e (refs e + 1)]> (heap c)))
  end.

(** An entry leaves the map. *)
Definition uncache (c : TableCache) (sh : Shard) (n : Z) (lru' : list Z) : option TableCache :=
  a ← entries sh !! n;
  e ← heap c !! a;
  Some (set_shard c n (mkShard lru' (delete n (entries sh)))
    (drop_ref (heap c) a (mkEntry (table e) (file_number e) (refs e) false))).

Fixpoint evict_loop (fuel : nat) (cap : nat) (c : TableCache) (i : nat) : option TableCache :=
  match fuel with
  | O => None
  | S fuel =>
      sh ← shards c !! i;
      match last (lru sh) with
      | Some victim =>
          if decide (cap < base.size (entries sh))%nat then
            let lru' := take (length (lru sh) - 1) (lru sh) in
            match entries sh !! victim with
            | None => evict_loop fuel cap (mkCache (<[i := mkShard lru' (entries sh)]> (shards c)) (heap c) (fresh_address c)) i
            | Some _ =>
                c ← uncache c sh victim lru';
                evict_loop fuel cap c i
            end
          else Some c
      | None => Some c
      end
  end.
(** Every round takes a number off the recency list. *)
Definition evict_if_over_capacity (cap : nat) (c : TableCache) (i : nat) : option TableCache :=
  sh ← shards c !! i;
  evict_loop (S (length (lru sh))) cap c i.

(** The critical section after the file has been opened. *)
Definition insert_opened (cap : nat) (c : TableCache) (n : Z) (t : T) : option (nat * TableCache) :=
  sh ← shards c !! shard_of n;
  match entries sh !! n with
  | Some a =>
      e ← heap c !! a;
      Some (a, set_shard c n (mkShard (n :: erase n (lru sh)) (entries sh)) (<[a := set_refs e (refs e + 1)]> (heap c)))
  | None =>
      let a := fresh_address c in
      let sh := mkShard (n :: lru sh) (<[n := a]> (entries sh)) in
      let c := mkCache (<[shard_of n := sh]> (shards c)) (<[a := mkEntry t n 2 true]> (heap c)) (S a) in
      c ← evict_if_over_capacity cap c (shard_of n);
      Some (a, c)
  end.

Definition release (c : TableCache) (a : nat) : option TableCache :=
  e ← heap c !! a;
  Some (mkCache (shards c) (drop_ref (heap c) a e) (fresh_address c)).

Definition evict (c : TableCache) (n : Z) : option TableCache :=
  sh ← shards c !! shard_of n;
  match entries sh !! n with
  | None => Some c
  | Some _ => uncache c sh n (erase n (lru sh))
  end.

(** [find] for one thread: [open_table] stands for [RandomAccessFile::open]
    and [Table::open] on the file with a number and a size. *)
Definition find (open_table : Z -> Z -> option (Status + T)) (cap : nat) (c : TableCache) (n file_size : Z) :
    option ((Status + nat) * TableCache) :=
  '(hit, c) ← find_cached c n;
  match hit with
  | Some a => Some (inr a, c)
  | None =>
      opened ← open_table n file_size;
      match opened with
      | inl status => Some (inl status, c)
      | inr t =>
          '(a, c) ← insert_opened cap c n t;
          Some (inr a, c)
      end
  end.

(** [get]: [internal_get] is that of the table. *)
Definition get {R} (open_table : Z -> Z -> option (Status + T)) (internal_get : T -> option (Status * option R)) (cap : nat)
    (c : TableCache) (n file_size : Z) : option (Status * option R * TableCache) :=
  '(found, c) ← find open_table cap c n file_size;
  match found with
  | inl status => Some (status, None, c)
  | inr a =>
      e ← heap c !! a;
      '(status, r) ← internal_get (table e);
      c ← release c a;
      Some (status, r, c)
  end.
End Operations.
Arguments Entry : clear implicits.
Arguments TableCache : clear implicits.

(** * The invariant

    [P n t]: table [t] is one that may be opened for file [n]. *)
Section Invariant.
Context {T : Type} (P : Z -> T -> Prop).

Definition uses (a : nat) (held : list (Z * nat)) : Z := Z.of_nat (length (filter (λ p, a = p.2) held)).

(** [held] has every reference that users have and have not released, with
    the file it was asked for. *)
Record Inv (c : TableCache T) (held : list (Z * nat)) : Prop := {
  i_length : length (shards c) = kShards;
  i_lru i sh : shards c !! i = Some sh -> lru sh ≡ₚ (map_to_list (entries sh)).*1;
  i_home i sh n a : shards c !! i = Some sh -> entries sh !! n = Some a -> shard_of n = i;
  i_cached n a : cached c n = Some a -> exists e, heap c !! a = Some e /\ file_number e = n /\ in_cache e = true;
  i_heap a e : heap c !! a = Some e ->
    (a < fresh_address c)%nat /\ P (file_number e) (table e) /\ 0 < refs e /\
    refs e = (if in_cache e then 1 else 0) + uses a held /\
    (in_cache e = true -> cached c (file_number e) = Some a);
  i_held n a : (n, a) ∈ held -> exists e, heap c !! a = Some e /\ file_number e = n
}.
(** No shard has more than its share. *)
Definition bounded (cap : nat) (c : TableCache T) : Prop :=
  forall i sh, shards c !! i = Some sh -> (base.size (entries sh) <= cap)%nat.

(** The entries of [c'] were in [c], with their tables. *)
Definition derived (c c' : TableCache T) : Prop :=
  forall b e', heap c' !! b = Some e' -> exists e, heap c !! b = Some e /\ table e = table e' /\ file_number e = file_number e'.
Lemma derived_trans c1 c2 c3 : derived c1 c2 -> derived c2 c3 -> derived c1 c3.
Proof. intros D1 D2 b e (e2 & H2 & <- & <-)%D2. apply D1 in H2 as (e1 & H1 & <- & <-). by exists e1. Qed.

(** ** Generic facts *)
Lemma shard_of_lt n : (shard_of n < kShards)%nat.
Proof. unfold shard_of, kShards. pose proof (Z.mod_pos_bound n 16). lia. Qed.
Lemma erase_perm n l : n ∈ l -> n :: erase n l ≡ₚ l.
Proof.
  induction l as [|x l IH]; cbn; [by intros ?%not_elem_of_nil|]. intros [->|Hn]%elem_of_cons; [by rewrite Z.eqb_refl|].
  destruct (Z.eqb_spec x n) as [->|]; [done|]. rewrite <- (IH Hn) at 2. apply Permutation_swap.
Qed.
Lemma uses_cons a n b held : uses a ((n, b) :: held) = (if decide (a = b) then 1 else 0) + uses a held.
Proof. unfold uses. rewrite filter_cons. cbn [snd]. case_decide; cbn [length]; lia. Qed.
Lemma uses_perm a held held' : held ≡ₚ held' -> uses a held = uses a held'.
Proof. intros E. unfold uses. by rewrite E. Qed.
Lemma uses_pos n a held : (n, a) ∈ held -> 0 < uses a held.
Proof. induction held as [|[m b] held IH]; [by intros ?%not_elem_of_nil|]. rewrite uses_cons. intros [[= -> ->]|H]%elem_of_cons.
  - rewrite decide_True by done. unfold uses. lia.
  - specialize (IH H). case_decide; lia. Qed.
Lemma uses_nonneg a held : 0 <= uses a held.
Proof. unfold uses. lia. Qed.
Lemma last_perm (l : list Z) x : last l = Some x -> x :: take (length l - 1) l ≡ₚ l.
Proof.
  intros H. apply last_Some in H as [l' ->]. rewrite length_app. cbn [length]. replace (length l' + 1 - 1)%nat with (length l') by lia.
  rewrite take_app_length. apply Permutation_cons_append.
Qed.

(** ** The cache after a change of one shard *)
Lemma shard_at c held n : Inv c held -> exists sh, shards c !! shard_of n = Some sh.
Proof. intros I. apply lookup_lt_is_Some. rewrite (i_length _ _ I). apply shard_of_lt. Qed.
Lemma cached_shard (c : TableCache T) n sh : shards c !! shard_of n = Some sh -> cached c n = entries sh !! n.
Proof. intros E. unfold cached. by rewrite E. Qed.
Lemma cached_set (c : TableCache T) n sh' h k :
  (shard_of n < length (shards c))%nat ->
  cached (set_shard c n sh' h) k = if decide (shard_of k = shard_of n) then entries sh' !! k else cached c k.
Proof.
  intros Hlt. unfold cached, set_shard. cbn [shards]. case_decide as E.
  - by rewrite E, list_lookup_insert_eq.
  - by rewrite list_lookup_insert_ne.
Qed.
Lemma lru_elem c held i sh n a : Inv c held -> shards c !! i = Some sh -> entries sh !! n = Some a -> n ∈ lru sh.
Proof.
  intros I Hs He. rewrite (i_lru _ _ I i sh Hs). apply list_elem_of_fmap. exists (n, a). split; [done|]. by apply elem_of_map_to_list.
Qed.
Lemma lru_cached c held i sh n : Inv c held -> shards c !! i = Some sh -> n ∈ lru sh -> exists a, entries sh !! n = Some a.
Proof.
  intros I Hs. rewrite (i_lru _ _ I i sh Hs). intros ([k a] & -> & H)%list_elem_of_fmap. exists a. by apply elem_of_map_to_list.
Qed.

Lemma new_inv : Inv TableCache_new [].
Proof.
  split; cbn [shards heap TableCache_new]; try done.
  - intros i sh [-> _]%lookup_replicate. cbn. by rewrite map_to_list_empty.
  - intros i sh n a [-> _]%lookup_replicate. done.
  - intros n a. unfold cached. cbn [shards TableCache_new]. rewrite lookup_replicate_2 by apply shard_of_lt. done.
  - by intros n a ?%not_elem_of_nil.
Qed.

(** A reference more, for an entry that is cached. *)
Lemma touch_inv c held n sh a e :
  Inv c held -> shards c !! shard_of n = Some sh -> entries sh !! n = Some a -> heap c !! a = Some e ->
  Inv (set_shard c n (mkShard (n :: erase n (lru sh)) (entries sh)) (<[a := set_refs e (refs e + 1)]> (heap c))) ((n, a) :: held).
Proof.
  intros I Hs He Hh. pose proof (shard_of_lt n) as Hlt. rewrite <- (i_length _ _ I) in Hlt.
  assert (forall k, cached (set_shard c n (mkShard (n :: erase n (lru sh)) (entries sh))
    (<[a := set_refs e (refs e + 1)]> (heap c))) k = cached c k) as Hc.
  { intros k. rewrite cached_set by done. case_decide as E; [|done]. cbn [entries]. unfold cached. by rewrite E, Hs. }
  split.
  - cbn. rewrite length_insert. apply (i_length _ _ I).
  - intros i sh'. cbn [shards set_shard]. intros [(<- & <- & _)|[_ H]]%list_lookup_insert_Some; [|by apply (i_lru _ _ I i)].
    cbn [lru entries]. rewrite erase_perm by (by eapply lru_elem). by apply (i_lru _ _ I (shard_of n)).
  - intros i sh' k b. cbn [shards set_shard]. intros [(<- & <- & _)|[_ H]]%list_lookup_insert_Some; [|by apply (i_home _ _ I)].
    cbn [entries]. by apply (i_home _ _ I).
  - intros k b. rewrite Hc. intros (e' & He' & Hn & Hin)%(i_cached _ _ I). cbn [heap set_shard].
    destruct (decide (b = a)) as [->|Hne]; [|exists e'; by rewrite lookup_insert_ne].
    rewrite He' in Hh. injection Hh as <-. exists (set_refs e' (refs e' + 1)). by rewrite lookup_insert_eq.
  - intros b e'. cbn [heap set_shard fresh_address]. rewrite Hc, uses_cons.
    intros [(<- & <-)|(Hne & H)]%lookup_insert_Some.
    + destruct (i_heap _ _ I a e Hh) as (H1 & H2 & H3 & H4 & H5). rewrite decide_True by done. cbn. split_and!; try done; lia.
    + destruct (i_heap _ _ I b e' H) as (H1 & H2 & H3 & H4 & H5). rewrite decide_False by done. split_and!; try done; lia.
  - intros k b. cbn [heap set_shard].
    assert ((n, a) ∈ (n, a) :: held -> exists e0, <[a := set_refs e (refs e + 1)]> (heap c) !! a = Some e0 /\ file_number e0 = n) as Hself.
    { intros _. eexists. split; [apply lookup_insert_eq|]. destruct (i_cached _ _ I n a) as (e0 & H & Hn & _); [by rewrite (cached_shard _ _ _ Hs)|].
      rewrite Hh in H. by injection H as <-. }
    intros [[= -> ->]|H]%elem_of_cons; [apply Hself; by left|]. apply (i_held _ _ I) in H as (e0 & H0 & Hk).
    destruct (decide (b = a)) as [->|Hne]; [|exists e0; by rewrite lookup_insert_ne].
    rewrite Hh in H0. injection H0 as <-. exists (set_refs e (refs e + 1)). by rewrite lookup_insert_eq.
Qed.

(** A reference fewer. *)
Lemma drop_lookup h a (e : Entry T) b :
  drop_ref h a e !! b = if decide (b = a) then (if refs e - 1 =? 0 then None else Some (set_refs e (refs e - 1))) else h !! b.
Proof.
  unfold drop_ref. case_decide as E; [subst; destruct (_ =? 0); by rewrite ?lookup_delete_eq, ?lookup_insert_eq|].
  destruct (_ =? 0); by rewrite ?lookup_delete_ne, ?lookup_insert_ne by done.
Qed.

Lemma release_inv c held n a : Inv c ((n, a) :: held) -> exists c', release c a = Some c' /\ Inv c' held /\ shards c' = shards c.
Proof.
  intros I. destruct (i_held _ _ I n a) as (e & He & _); [by left|]. unfold release. rewrite He. cbn [mbind option_bind].
  eexists. split; [done|]. split; [|done].
  destruct (i_heap _ _ I a e He) as (H1 & H2 & H3 & H4 & H5). rewrite uses_cons, decide_True in H4 by done.
  pose proof (uses_nonneg a held) as Hu. split; cbn.
  - apply (i_length _ _ I).
  - apply (i_lru _ _ I).
  - apply (i_home _ _ I).
  - intros k b (e' & He' & Hn & Hin)%(i_cached _ _ I). rewrite drop_lookup. case_decide as E; [|by exists e']. subst b.
    rewrite He in He'. injection He' as <-. rewrite Hin in H4. destruct (Z.eqb_spec (refs e - 1) 0); [lia|]. by eexists.
  - intros b e'. rewrite drop_lookup. case_decide as E.
    + subst b. destruct (Z.eqb_spec (refs e - 1) 0); [done|]. intros [= <-]. cbn. split_and!; try done; lia.
    + intros Hb. destruct (i_heap _ _ I b e' Hb) as (G1 & G2 & G3 & G4 & G5). rewrite uses_cons, decide_False in G4 by done. done.
  - intros k b Hb. rewrite drop_lookup. case_decide as E; [|apply (i_held _ _ I); by right]. subst b.
    pose proof (uses_pos k a held Hb). destruct (Z.eqb_spec (refs e - 1) 0); [destruct (in_cache e); lia|].
    eexists. split; [done|]. destruct (i_held _ _ I k a) as (e' & He' & Hk); [by right|]. rewrite He in He'. by injection He' as <-.
Qed.

(** An entry that leaves the map. *)
Lemma uncache_inv c held n sh a lru' :
  Inv c held -> shards c !! shard_of n = Some sh -> entries sh !! n = Some a -> n :: lru' ≡ₚ lru sh ->
  exists c', uncache c sh n lru' = Some c' /\ Inv c' held /\
    shards c' = <[shard_of n := mkShard lru' (delete n (entries sh))]> (shards c) /\ fresh_address c' = fresh_address c /\
    derived c c'.
Proof.
  intros I Hs He Hp. pose proof (shard_of_lt n) as Hlt. rewrite <- (i_length _ _ I) in Hlt.
  destruct (i_cached _ _ I n a) as (e & Hh & Hn & Hin); [by rewrite (cached_shard _ _ _ Hs)|].
  unfold uncache. rewrite He. cbn [mbind option_bind]. rewrite Hh. cbn [mbind option_bind]. eexists. split; [done|].
  destruct (i_heap _ _ I a e Hh) as (H1 & H2 & H3 & H4 & H5). rewrite Hin in H4. pose proof (uses_nonneg a held) as Hu.
  set (e' := mkEntry (table e) (file_number e) (refs e) false).
  assert (forall k, cached (set_shard c n (mkShard lru' (delete n (entries sh))) (drop_ref (heap c) a e')) k =
    if decide (k = n) then None else cached c k) as Hc.
  { intros k. rewrite cached_set by done. cbn [entries]. case_decide as E.
    - case_decide as E'; [subst; by rewrite lookup_delete_eq|]. rewrite lookup_delete_ne by done. unfold cached. by rewrite E, Hs.
    - case_decide as E'; [by subst|done]. }
  split; [|split; [done|split; [done|]]].
  2: { intros b e0. cbn [heap set_shard]. rewrite drop_lookup. case_decide as E; [subst b|by exists e0].
    destruct (_ =? 0); [done|]. intros [= <-]. by exists e. }
  assert (forall k b, k <> n -> cached c k = Some b -> b <> a) as Hother.
  { intros k b Hk (e0 & Hb & Hn0 & _)%(i_cached _ _ I) ->. rewrite Hh in Hb. injection Hb as <-. congruence. }
  split.
  - cbn. rewrite length_insert. apply (i_length _ _ I).
  - intros i sh'. cbn [shards set_shard]. intros [(<- & <- & _)|[_ H]]%list_lookup_insert_Some; [|by apply (i_lru _ _ I i)].
    cbn [lru entries]. apply (Permutation_cons_inv (a:=n)). rewrite Hp, (i_lru _ _ I _ _ Hs).
    rewrite <- (insert_id (entries sh) n a) at 1 by done. rewrite <- insert_delete_eq. by rewrite map_to_list_insert by apply lookup_delete_eq.
  - intros i sh' k b. cbn [shards set_shard]. intros [(<- & <- & _)|[_ H]]%list_lookup_insert_Some; [|by apply (i_home _ _ I)].
    cbn [entries]. intros [_ Hk]%lookup_delete_Some. by eapply (i_home _ _ I).
  - intros k b. rewrite Hc. case_decide as E; [done|]. intros Hk. pose proof (Hother k b E Hk) as Hb.
    apply (i_cached _ _ I) in Hk as (e0 & He0 & Hn0 & Hin0). exists e0. cbn [heap set_shard]. rewrite drop_lookup. by rewrite decide_False.
  - intros b e0. cbn [heap set_shard fresh_address]. rewrite drop_lookup. case_decide as E.
    + subst b. cbn [refs e']. destruct (Z.eqb_spec (refs e - 1) 0); [done|]. intros [= <-]. cbn. split_and!; try done; lia.
    + intros Hb. destruct (i_heap _ _ I b e0 Hb) as (G1 & G2 & G3 & G4 & G5). split_and!; try done.
      intros Hin0. rewrite Hc. rewrite decide_False; [by apply G5|]. intros E'. apply E.
      specialize (G5 Hin0). rewrite E' in G5. rewrite (cached_shard _ _ _ Hs), He in G5. by injection G5.
  - intros k b Hb. cbn [heap set_shard]. rewrite drop_lookup. case_decide as E; [|by apply (i_held _ _ I)]. subst b.
    pose proof (uses_pos k a held Hb). cbn [refs e']. destruct (Z.eqb_spec (refs e - 1) 0); [lia|]. eexists. split; [done|].
    destruct (i_held _ _ I k a Hb) as (e1 & He1 & Hk). rewrite Hh in He1. by injection He1 as <-.
Qed.

(** ** Making room *)
Lemma lru_size c held i sh : Inv c held -> shards c !! i = Some sh -> length (lru sh) = base.size (entries sh).
Proof. intros I Hs. rewrite (i_lru _ _ I _ _ Hs), length_fmap. apply length_map_to_list. Qed.

(** Evicting leaves the [cap] most recent entries, and other shards alone. *)
Lemma tc_evict_loop_spec cap i fuel c held sh :
  Inv c held -> shards c !! i = Some sh -> (length (lru sh) < fuel)%nat ->
  exists c' sh', evict_loop fuel cap c i = Some c' /\ Inv c' held /\ derived c c' /\
    shards c' = <[i := sh']> (shards c) /\ lru sh' = take cap (lru sh) /\
    (forall n, n ∈ lru sh' -> entries sh' !! n = entries sh !! n).
Proof.
  revert c sh. induction fuel as [|fuel IH]; intros c sh I Hs Hf; [lia|]. cbn [evict_loop]. rewrite Hs. cbn [mbind option_bind].
  pose proof (lru_size _ _ _ _ I Hs) as Hsz.
  assert ((base.size (entries sh) <= cap)%nat -> exists c' sh', Some c = Some c' /\ Inv c' held /\ derived c c' /\
    shards c' = <[i := sh']> (shards c) /\ lru sh' = take cap (lru sh) /\
    (forall n, n ∈ lru sh' -> entries sh' !! n = entries sh !! n)) as Hdone.
  { intros Hle. exists c, sh. split; [done|]. split; [done|]. split; [intros b e ?; by exists e|].
    split; [by rewrite list_insert_id|]. split; [|done]. by rewrite take_ge by lia. }
  destruct (last (lru sh)) as [victim|] eqn:El.
  2: { apply Hdone. apply last_None in El. rewrite El in Hsz. cbn in Hsz. lia. }
  case_decide as Hcap; [|apply Hdone; lia].
  pose proof (last_perm _ _ El) as Hp.
  destruct (lru_cached _ _ _ _ victim I Hs) as [a Ha]; [rewrite <- Hp; by left|]. rewrite Ha.
  pose proof (i_home _ _ I _ _ _ _ Hs Ha) as Hhome. rewrite <- Hhome in Hs.
  destruct (uncache_inv c held victim sh a _ I Hs Ha Hp) as (c1 & E1 & I1 & S1 & _ & D1). rewrite E1. cbn [mbind option_bind].
  rewrite Hhome in S1, Hs.
  destruct (IH c1 (mkShard (take (length (lru sh) - 1) (lru sh)) (delete victim (entries sh))) I1) as (c2 & sh2 & E2 & I2 & D2 & S2 & L2 & M2).
  { rewrite S1. apply list_lookup_insert_eq. by eapply lookup_lt_Some. }
  { cbn [lru]. rewrite length_take. lia. }
  exists c2, sh2. split; [done|]. split; [done|]. split; [by eapply derived_trans|].
  split; [by rewrite S2, S1, list_insert_insert_eq|]. cbn [lru] in L2.
  split; [by rewrite L2, take_take, Nat.min_l by lia|].
  intros n Hn. rewrite (M2 n Hn). cbn [entries]. apply lookup_delete_ne. intros <-.
  assert (NoDup (victim :: take (length (lru sh) - 1) (lru sh))) as Hnd%NoDup_cons.
  { rewrite Hp, (i_lru _ _ I _ _ Hs). apply NoDup_fst_map_to_list. }
  apply (proj1 Hnd). rewrite L2 in Hn. by apply (subseteq_take cap).
Qed.

(** ** The operations *)
Context (cap : nat) (Hcap : (0 < cap)%nat).

Lemma find_cached_spec c held n :
  Inv c held -> bounded cap c ->
  exists hit c', find_cached c n = Some (hit, c') /\ hit = cached c n /\ derived c c' /\ bounded cap c' /\
    match hit with
    | Some a => Inv c' ((n, a) :: held) /\ exists e, heap c' !! a = Some e /\ file_number e = n
    | None => c' = c
    end.
Proof using.
  intros I Hb. destruct (shard_at c held n I) as [sh Hs]. unfold find_cached. rewrite Hs. cbn [mbind option_bind].
  rewrite (cached_shard _ _ _ Hs). destruct (entries sh !! n) as [a|] eqn:Ea.
  - destruct (i_cached _ _ I n a) as (e & He & Hn & Hin); [by rewrite (cached_shard _ _ _ Hs)|]. rewrite He. cbn [mbind option_bind].
    eexists _, _. split; [done|]. split; [done|]. split.
    { intros b e'. cbn [heap set_shard]. intros [(<- & <-)|[_ H]]%lookup_insert_Some; [by exists e|by exists e']. }
    split. { intros i sh'. cbn [shards set_shard]. intros [(<- & <- & _)|[_ H]]%list_lookup_insert_Some; [by apply (Hb (shard_of n) sh)|by apply (Hb i)]. }
    split; [by apply touch_inv|]. exists (set_refs e (refs e + 1)). split; [apply lookup_insert_eq|done].
  - exists None, c. split; [done|]. split; [done|]. split; [|done]. intros b e ?. by exists e.
Qed.

(** The state between putting the entry in and making room. *)
Lemma put_inv c held n sh t :
  Inv c held -> P n t -> shards c !! shard_of n = Some sh -> entries sh !! n = None ->
  Inv (mkCache (<[shard_of n := mkShard (n :: lru sh) (<[n := fresh_address c]> (entries sh))]> (shards c))
        (<[fresh_address c := mkEntry t n 2 true]> (heap c)) (S (fresh_address c))) ((n, fresh_address c) :: held).
Proof using.
  clear cap Hcap. intros I HP Hs Hn. pose proof (shard_of_lt n) as Hlt. rewrite <- (i_length _ _ I) in Hlt.
  set (a := fresh_address c). set (c' := mkCache _ _ _).
  assert (heap c !! a = None) as Ha.
  { destruct (heap c !! a) as [e|] eqn:E; [|done]. apply (i_heap _ _ I) in E as (? & _). unfold a in *. lia. }
  assert (uses a held = 0) as Hu.
  { unfold uses. destruct (filter _ held) as [|[k b] l] eqn:E; [done|].
    assert ((k, b) ∈ filter (λ p, a = p.2) held) as Hb by (rewrite E; by left).
    apply list_elem_of_filter in Hb as [Hab Hb]. cbn in Hab. subst b. apply (i_held _ _ I) in Hb as (? & Hb & _). congruence. }
  assert (forall k, cached c' k = if decide (k = n) then Some a else cached c k) as Hc.
  { intros k. unfold cached, c'. cbn [shards]. destruct (decide (shard_of k = shard_of n)) as [E|E].
    - rewrite E, list_lookup_insert_eq by done. cbn. rewrite Hs. cbn. case_decide as E'; [subst; apply lookup_insert_eq|by apply lookup_insert_ne].
    - rewrite list_lookup_insert_ne by done. case_decide as E'; [by subst|done]. }
  assert (cached c n = None) as Hcn by (by rewrite (cached_shard _ _ _ Hs)).
  split.
  - cbn. rewrite length_insert. apply (i_length _ _ I).
  - intros i sh' [(<- & <- & _)|[_ H]]%list_lookup_insert_Some; [|by apply (i_lru _ _ I i)]. cbn [lru entries].
    rewrite map_to_list_insert by done. cbn [fmap list_fmap fst]. by rewrite (i_lru _ _ I _ _ Hs).
  - intros i sh' k b [(<- & <- & _)|[_ H]]%list_lookup_insert_Some; [|by apply (i_home _ _ I)]. cbn [entries].
    intros [(<- & _)|[_ Hk]]%lookup_insert_Some; [done|]. by eapply (i_home _ _ I).
  - intros k b. rewrite Hc. case_decide as E; [intros [= <-]; subst; eexists; split; [apply lookup_insert_eq|done]|].
    intros (e & He & Hk)%(i_cached _ _ I). exists e. split; [|done]. cbn [heap c']. rewrite lookup_insert_ne; [done|congruence].
  - intros b e. cbn [heap c']. intros [(<- & <-)|[Hne H]]%lookup_insert_Some.
    + cbn. rewrite uses_cons, decide_True, Hu, Hc, decide_True by done. split_and!; try done; lia.
    + destruct (i_heap _ _ I b e H) as (G1 & G2 & G3 & G4 & G5). cbn [fresh_address c']. rewrite uses_cons, decide_False by done.
      split_and!; try done; [lia|]. intros Hin. rewrite Hc, decide_False; [by apply G5|]. intros E. specialize (G5 Hin). congruence.
  - intros k b [[= -> ->]|Hb]%elem_of_cons; [cbn [heap c']; rewrite lookup_insert_eq; by eexists|].
    apply (i_held _ _ I) in Hb as (e & He & Hk). exists e. split; [|done]. cbn [heap c']. rewrite lookup_insert_ne; [done|congruence].
Qed.

Lemma insert_opened_spec c held n t :
  Inv c held -> bounded cap c -> P n t ->
  exists a c', insert_opened cap c n t = Some (a, c') /\ Inv c' ((n, a) :: held) /\ bounded cap c' /\ cached c' n = Some a /\
    exists e, heap c' !! a = Some e /\ file_number e = n /\
      (forall sh, shards c !! shard_of n = Some sh -> cached c n = None ->
        table e = t /\ lru <$> shards c' !! shard_of n = Some (take cap (n :: lru sh))).
Proof using Hcap.
  intros I Hb HP. destruct (shard_at c held n I) as [sh Hs]. unfold insert_opened. rewrite Hs. cbn [mbind option_bind].
  destruct (entries sh !! n) as [a|] eqn:Ea.
  - destruct (find_cached_spec c held n I Hb) as (hit & c' & E & Eh & _ & Hb' & H). rewrite (cached_shard _ _ _ Hs), Ea in Eh. subst hit.
    unfold find_cached in E. rewrite Hs in E. cbn [mbind option_bind] in E. rewrite Ea in E. destruct H as [I' (e & He & Hn)].
    destruct (heap c !! a) as [e0|]; [|done]. cbn [mbind option_bind] in *. injection E as <-. eexists a, _. split; [done|].
    split; [done|]. split; [done|]. split.
    + rewrite cached_set by (rewrite (i_length _ _ I); apply shard_of_lt). by rewrite decide_True.
    + exists e. split; [done|]. split; [done|]. intros sh'. rewrite (cached_shard _ _ _ Hs). congruence.
  - pose proof (put_inv c held n sh t I HP Hs Ea) as I1. revert I1. set (c1 := mkCache _ _ _). intros I1.
    set (sh1 := mkShard (n :: lru sh) (<[n := fresh_address c]> (entries sh))).
    assert (shards c1 !! shard_of n = Some sh1) as Hs1 by (apply list_lookup_insert_eq; rewrite (i_length _ _ I); apply shard_of_lt).
    destruct (tc_evict_loop_spec cap (shard_of n) (S (length (lru sh1))) c1 _ sh1 I1 Hs1) as (c2 & sh2 & E2 & I2 & D2 & S2 & L2 & M2); [lia|].
    unfold evict_if_over_capacity. rewrite Hs1. cbn [mbind option_bind]. rewrite E2. cbn [mbind option_bind].
    exists (fresh_address c), c2. split; [done|]. split; [done|].
    assert (shards c2 !! shard_of n = Some sh2) as Hs2.
    { rewrite S2. apply list_lookup_insert_eq. by eapply lookup_lt_Some. }
    split.
    { intros i sh'. rewrite S2. intros [(<- & <- & _)|[Hne H]]%list_lookup_insert_Some.
      - rewrite <- (lru_size _ _ _ _ I2 Hs2), L2, length_take. lia.
      - apply (Hb i). cbn [shards c1] in H. rewrite list_lookup_insert_ne in H by done. done. }
    split.
    { rewrite (cached_shard _ _ _ Hs2), M2; [apply lookup_insert_eq|]. rewrite L2. cbn [lru sh1]. destruct cap; [lia|]. by left. }
    destruct (i_held _ _ I2 n (fresh_address c)) as (e & He & _); [by left|]. exists e. split; [done|].
    destruct (D2 _ _ He) as (e1 & He1 & Et & En). cbn [heap c1] in He1. rewrite lookup_insert_eq in He1. injection He1 as <-.
    split; [done|]. intros sh' [= <-] _. split; [done|]. rewrite Hs2. cbn. by rewrite L2.
Qed.

Lemma tc_evict_spec c held n :
  Inv c held -> bounded cap c -> exists c', evict c n = Some c' /\ Inv c' held /\ bounded cap c' /\ cached c' n = None.
Proof using.
  clear Hcap. intros I Hb. destruct (shard_at c held n I) as [sh Hs]. unfold evict. rewrite Hs. cbn [mbind option_bind].
  destruct (entries sh !! n) as [a|] eqn:Ea.
  - destruct (uncache_inv c held n sh a _ I Hs Ea (erase_perm n (lru sh) (lru_elem _ _ _ _ _ _ I Hs Ea))) as (c' & E & I' & S' & _ & _).
    exists c'. split; [done|]. split; [done|]. split.
    + intros i sh'. rewrite S'. intros [(<- & <- & _)|[_ H]]%list_lookup_insert_Some; [|by apply (Hb i)]. cbn [entries].
      pose proof (Hb _ _ Hs). rewrite map_size_delete, Ea. lia.
    + unfold cached. rewrite S', list_lookup_insert_eq by (by eapply lookup_lt_Some). cbn. apply lookup_delete_eq.
  - exists c. split; [done|]. split; [done|]. split; [done|]. by rewrite (cached_shard _ _ _ Hs).
Qed.
End Invariant.

(** * Every interleaving

    A user of the cache is between two critical sections, opening a file, or
    holds a reference. *)
Section Users.
Context {T : Type} (opens : Z -> T -> Prop) (cap : nat).

Record Users := mkUsers { u_cache : TableCache T; u_held : list (Z * nat); u_opening : list Z }.
Inductive step : Users -> Users -> Prop :=
  | s_hit c held opening n a c' :
      find_cached c n = Some (Some a, c') -> step (mkUsers c held opening) (mkUsers c' ((n, a) :: held) opening)
  | s_miss c held opening n c' :
      find_cached c n = Some (None, c') -> step (mkUsers c held opening) (mkUsers c' held (n :: opening))
  | s_failed c held opening n opening' :
      opening ≡ₚ n :: opening' -> step (mkUsers c held opening) (mkUsers c held opening')
  | s_opened c held opening n opening' t a c' :
      opening ≡ₚ n :: opening' -> opens n t -> insert_opened cap c n t = Some (a, c') ->
      step (mkUsers c held opening) (mkUsers c' ((n, a) :: held) opening')
  | s_release c held opening n a held' c' :
      held ≡ₚ (n, a) :: held' -> release c a = Some c' -> step (mkUsers c held opening) (mkUsers c' held' opening)
  | s_evict c held opening n c' :
      evict c n = Some c' -> step (mkUsers c held opening) (mkUsers c' held opening).
Definition reachable : Users -> Prop := rtc step (mkUsers TableCache_new [] []).

Lemma inv_perm P (c : TableCache T) held held' : held ≡ₚ held' -> Inv P c held -> Inv P c held'.
Proof using.
  intros Hp [I1 I2 I3 I4 I5 I6]. split; try done.
  - intros a e H. rewrite <- (uses_perm a _ _ Hp). by apply I5.
  - intros n a. rewrite <- Hp. apply I6.
Qed.
Lemma step_inv u u' :
  (0 < cap)%nat -> step u u' -> Inv opens (u_cache u) (u_held u) -> bounded cap (u_cache u) ->
  Inv opens (u_cache u') (u_held u') /\ bounded cap (u_cache u').
Proof using.
  intros Hcap W I Hb. destruct W as [c held op n a c' E|c held op n c' E|c held op n op' _|c held op n op' t a c' _ HP E
    |c held op n a held' c' Hp E|c held op n c' E]; cbn [u_cache u_held] in *.
  - destruct (find_cached_spec opens cap c held n I Hb) as (hit & c1 & E1 & _ & _ & Hb1 & H). rewrite E in E1. injection E1 as <- <-. by destruct H.
  - destruct (find_cached_spec opens cap c held n I Hb) as (hit & c1 & E1 & _ & _ & Hb1 & H). rewrite E in E1. injection E1 as <- <-. by subst.
  - done.
  - destruct (insert_opened_spec opens cap Hcap c held n t I Hb HP) as (a1 & c1 & E1 & I1 & Hb1 & _). rewrite E in E1. by injection E1 as <- <-.
  - destruct (release_inv opens c held' n a) as (c1 & E1 & I1 & S1); [by apply (inv_perm _ _ held)|]. rewrite E in E1. injection E1 as <-.
    split; [done|]. unfold bounded. rewrite S1. apply Hb.
  - destruct (tc_evict_spec opens cap c held n I Hb) as (c1 & E1 & I1 & Hb1 & _). rewrite E in E1. by injection E1 as <-.
Qed.
Lemma tc_reachable_inv u : (0 < cap)%nat -> reachable u -> Inv opens (u_cache u) (u_held u) /\ bounded cap (u_cache u).
Proof using.
  intros Hcap Hr. assert (forall u0 u, rtc step u0 u -> Inv opens (u_cache u0) (u_held u0) /\ bounded cap (u_cache u0) ->
    Inv opens (u_cache u) (u_held u) /\ bounded cap (u_cache u)) as H.
  { induction 1 as [|x y z W _ IH]; [done|]. intros [I Hb]. apply IH. by eapply step_inv. }
  apply (H _ _ Hr). split; [apply new_inv|]. intros i sh. cbn [u_cache shards TableCache_new]. intros [-> _]%lookup_replicate.
  cbn. rewrite map_size_empty. lia.
Qed.
End Users.

Lemma capacity_pos entries : (0 < capacity entries)%nat.
Proof. unfold capacity, kShards. assert (1 <= (if entries <? 1 then 1 else entries)) as H by (destruct (Z.ltb_spec entries 1); lia).
  pose proof (Z.div_str_pos ((if entries <? 1 then 1 else entries) + Z.of_nat 16 - 1) (Z.of_nat 16)). lia. Qed.

(** C17. The table cache never hands out or touches a closed table.  In every
    interleaving of lookups that hit, miss, open files and race to insert
    them, of releases and of evictions, no operation reaches an entry that was
    freed; whoever holds a reference has a live entry with a table of the file
    it asked for, also after that entry was evicted; an entry that is neither
    held nor cached is freed; the map leads only to live entries of the right
    file; and no shard ever has more than its share of the capacity. *)
Theorem table_cache_is_safe {T} (opens : Z -> T -> Prop) entries_ c held opening :
  let cap := capacity entries_ in
  reachable opens cap (mkUsers c held opening) ->
  ((forall n, is_Some (find_cached c n)) /\ (forall n t, opens n t -> is_Some (insert_opened cap c n t)) /\
   (forall n a, (n, a) ∈ held -> is_Some (release c a)) /\ (forall n, is_Some (evict c n))) /\
  (forall n a, (n, a) ∈ held -> exists e, heap c !! a = Some e /\ file_number e = n /\ opens n (table e)) /\
  (forall a e, heap c !! a = Some e -> cached c (file_number e) = Some a \/ (file_number e, a) ∈ held) /\
  (forall n a, cached c n = Some a -> exists e, heap c !! a = Some e /\ file_number e = n /\ opens n (table e)) /\
  (forall i sh, shards c !! i = Some sh -> (base.size (entries sh) <= cap)%nat).
Proof.
  intros cap Hr. pose proof (capacity_pos entries_) as Hcap. destruct (tc_reachable_inv opens cap _ Hcap Hr) as [I Hb]. cbn [u_cache u_held] in *.
  split_and!.
  - intros n. destruct (find_cached_spec opens cap c held n I Hb) as (? & ? & E & _). by eexists.
  - intros n t HP. destruct (insert_opened_spec opens cap Hcap c held n t I Hb HP) as (? & ? & E & _). by eexists.
  - intros n a (e & He & _)%(i_held _ _ _ I). unfold release. rewrite He. cbn [mbind option_bind]. by eexists.
  - intros n. destruct (tc_evict_spec opens cap c held n I Hb) as (? & E & _). by eexists.
  - intros n a (e & He & Hn)%(i_held _ _ _ I). exists e. destruct (i_heap _ _ _ I a e He) as (_ & HP & _). split; [done|]. split; [done|]. by rewrite <- Hn.
  - intros a e He. destruct (i_heap _ _ _ I a e He) as (_ & _ & Hpos & Hrefs & Hin). destruct (in_cache e) eqn:Ei; [left; by apply Hin|]. right.
    unfold uses in Hrefs. destruct (filter (λ p, a = p.2) held) as [|[k b] l] eqn:Ef; [cbn in Hrefs; lia|].
    assert ((k, b) ∈ filter (λ p, a = p.2) held) as Hk by (rewrite Ef; by left). apply list_elem_of_filter in Hk as [Hab Hk].
    cbn in Hab. subst b. destruct (i_held _ _ _ I k a Hk) as (e' & He' & <-). rewrite He in He'. by injection He' as <-.
  - intros n a (e & He & Hn & _)%(i_cached _ _ _ I). exists e. destruct (i_heap _ _ _ I a e He) as (_ & HP & _). split; [done|]. split; [done|]. by rewrite <- Hn.
  - exact Hb.
Qed.

(** Seventeen users of file 3 race: the second to open it gets the table of
    the first; then files of the same shard push it out while it is held. *)
Definition sample_opens (n : Z) (t : Z) : Prop := t = n + 100.
Lemma table_cache_is_safe_witness :
  exists c, reachable sample_opens (capacity 1) (mkUsers c [(19, 1%nat); (3, 0%nat); (3, 0%nat)] []) /\
    cached c 3 = None /\ exists e, heap c !! 0%nat = Some e /\ file_number e = 3 /\ sample_opens 3 (table e).
Proof.
  assert (exists c, reachable sample_opens (capacity 1) (mkUsers c [(19, 1%nat); (3, 0%nat); (3, 0%nat)] []) /\ cached c 3 = None)
    as (c & Hr & Hc).
  { eexists. split.
    - unfold reachable.
      eapply rtc_l; [apply (s_miss _ _ _ _ _ 3); vm_compute; reflexivity|].
      eapply rtc_l; [apply (s_miss _ _ _ _ _ 3); vm_compute; reflexivity|].
      eapply rtc_l; [apply (s_opened _ _ _ _ _ 3 [3] 103); [reflexivity|reflexivity|vm_compute; reflexivity]|].
      eapply rtc_l; [apply (s_opened _ _ _ _ _ 3 [] 103); [reflexivity|reflexivity|vm_compute; reflexivity]|].
      eapply rtc_l; [apply (s_miss _ _ _ _ _ 19); vm_compute; reflexivity|].
      eapply rtc_l; [apply (s_opened _ _ _ _ _ 19 [] 119); [reflexivity|reflexivity|vm_compute; reflexivity]|]. apply rtc_refl.
    - vm_compute. reflexivity. }
  exists c. split; [exact Hr|]. split; [exact Hc|].
  destruct (table_cache_is_safe sample_opens 1 c _ _ Hr) as (_ & H & _). apply (H 3 0%nat). right. left.
Defined.

(** * Reading tables through the cache *)
Section Reader.
Context (address : BlockHandle -> Z) (sizeof_Block : Z) (opts : TableBuilder.Options) (cap : nat)
  (files : Z -> Status + File.RandomAccessFile).

(** [RandomAccessFile::open], then [Table::open]; no block cache. *)
Definition open_table (n file_size : Z) : option (Status + Table.Rep) :=
  match files n with
  | inl status => Some (inl status)
  | inr file =>
      r ← Table.open address opts internal_key_comparator file file_size None;
      Some (match r with inl status => inl status | inr (rep, _) => inr rep end)
  end.
Definition table_reader : TableReader (TableCache Table.Rep) :=
  mkTableReader (TableCache Table.Rep) (λ c n file_size key,
    get open_table (λ rep, r ← Table.internal_get address sizeof_Block rep true key None Cache.null; Some (r.1)) cap c n file_size).

(** File [n] is a table of [es], as the builder wrote it, in [file_size]
    bytes. *)
Definition stored (n file_size : Z) (es : list VersionGet.Entry) : Prop :=
  exists wf t file, wf_healthy wf /\ wf_contents wf = [] /\
    sorted_by icmp (table_entries es) /\ Forall (λ e, readable icmp e.1) (table_entries es) /\ TableBuilder.weight (table_entries es) < 2 ^ 32 /\
    TableBuilder.build_table opts wf icmp (table_entries es) = Some (ok, t) /\
    file_size = size (wf_contents (TableBuilder.file_ t)) /\ file_size < 2 ^ 32 /\
    files n = inr file /\ Serves file (wf_contents (TableBuilder.file_ t)).

Context (user : option FilterPolicy) (Hi : 1 <= TableBuilder.block_restart_interval opts)
  (Hpol : TableBuilder.filter_policy opts = new_internal_filter_policy <$> user)
  (Hp : forall p, user = Some p -> FilterPolicyLaws p) (Hcap : (0 < cap)%nat).
Context (contents : Z -> Z -> option (list VersionGet.Entry))
  (Hstored : forall n sz es, contents n sz = Some es -> stored n sz es)
  (Hone : forall n sz sz' es es', contents n sz = Some es -> contents n sz' = Some es' -> sz = sz').

(** Lookups in the table find the entries [es]. *)
Definition finds (rep : Table.Rep) (es : list VersionGet.Entry) : Prop :=
  forall u snapshot, seq_ok snapshot ->
    let wanted := table_entries es !! lower_bound icmp (table_entries es) (make_lookup_key u snapshot) in
    exists r, Table.internal_get address sizeof_Block rep true (make_lookup_key u snapshot) None Cache.null = Some (ok, r, None) /\
      (forall e, r = Some e -> wanted = Some e) /\
      (forall k v, wanted = Some (k, v) -> extract_user_key k = u -> r = Some (k, v)).
Definition opens_right (n : Z) (rep : Table.Rep) : Prop := forall sz es, contents n sz = Some es -> finds rep es.
Definition cache_ok (c : TableCache Table.Rep) : Prop := Inv opens_right c [] /\ bounded cap c.

Lemma open_table_spec n sz es :
  contents n sz = Some es -> exists rep, open_table n sz = Some (inr rep) /\ opens_right n rep.
Proof using Hi Hpol Hp Hstored Hone.
  intros Ec. destruct (Hstored n sz es Ec) as (wf & t & file & H1 & H2 & H3 & H4 & H5 & Eb & Es & Hs & Ef & Sv).
  assert (exists rep, Table.open address opts icmp file sz None = Some (inr (rep, None)) /\ finds rep es) as (rep & Eo & Hf).
  { assert (forall u s, exists rep r, Table.open address opts icmp file sz None = Some (inr (rep, None)) /\
      Table.internal_get address sizeof_Block rep true (make_lookup_key u s) None Cache.null = Some (ok, r, None) /\
      let wanted := table_entries es !! lower_bound icmp (table_entries es) (make_lookup_key u s) in
      (forall e, r = Some e -> wanted = Some e) /\
      (forall k v, wanted = Some (k, v) -> extract_user_key k = u -> r = Some (k, v))) as H.
    { intros u s. destruct (Table.table_get_finds_the_version opts user wf (table_entries es) u s kValueTypeForSeek Hi Hpol Hp H1 H2 H3 H4 H5)
        as (t' & Eb' & H). rewrite Eb in Eb'. injection Eb' as <-. rewrite Es. apply H; [done|]. by rewrite <- Es. }
    destruct (H [] 0) as (rep & _ & Eo & _). exists rep. split; [done|]. intros u s _. destruct (H u s) as (rep' & r & Eo' & Eg & Hr).
    rewrite Eo in Eo'. injection Eo' as <-. by exists r. }
  exists rep. split; [unfold open_table; by rewrite Ef, Eo|]. intros sz' es' Ec'. pose proof (Hone _ _ _ _ _ Ec Ec') as <-. by simplify_eq.
Qed.

Lemma find_spec c n sz es :
  contents n sz = Some es -> cache_ok c ->
  exists a c', find open_table cap c n sz = Some (inr a, c') /\ Inv opens_right c' [(n, a)] /\ bounded cap c'.
Proof using Hi Hpol Hp Hstored Hone Hcap.
  intros Ec [I Hb]. unfold find. destruct (find_cached_spec opens_right cap c [] n I Hb) as (hit & c1 & -> & _ & _ & Hb1 & H).
  cbn [mbind option_bind]. destruct hit as [a|].
  - exists a, c1. split; [done|]. by destruct H.
  - subst c1. destruct (open_table_spec n sz es Ec) as (rep & -> & HP). cbn [mbind option_bind].
    destruct (insert_opened_spec opens_right cap Hcap c [] n rep I Hb HP) as (a & c2 & -> & I2 & Hb2 & _). cbn [mbind option_bind].
    by exists a, c2.
Qed.

#[local] Instance table_reader_laws : TableReaderLaws table_reader contents cache_ok.
Proof using Hi Hpol Hp Hstored Hone Hcap.
  constructor. intros c n sz es u snapshot Hc Ec Hs wanted. destruct (find_spec c n sz es Ec Hc) as (a & c1 & Ef & I1 & Hb1).
  unfold table_reader. cbn [tc_get]. unfold get. rewrite Ef. cbn [mbind option_bind].
  destruct (i_held _ _ _ I1 n a) as (e & He & Hn); [by left|]. rewrite He. cbn [mbind option_bind].
  destruct (i_heap _ _ _ I1 a e He) as (_ & HP & _). rewrite Hn in HP. destruct (HP sz es Ec u snapshot Hs) as (r & Eg & Hr).
  rewrite Eg. cbn [mbind option_bind fst]. destruct (release_inv opens_right c1 [] n a I1) as (c2 & E2 & I2 & S2). rewrite E2. cbn [mbind option_bind].
  exists r, c2. split; [done|]. split; [|done]. split; [done|]. unfold bounded. rewrite S2. apply Hb1.
Qed.
End Reader.


(** One table on level 1, and nothing in memory. *)
Definition sample_table : list VersionGet.Entry := [entry [x61] 4 [x31]; entry [x63] 5 [x33]].
Definition sample_bytes : bytes :=
  match TableBuilder.build_table Table.sample_options (wf_new []) icmp (table_entries sample_table) with
  | Some (_, t) => wf_contents (TableBuilder.file_ t)
  | None => []
  end.
Definition sample_files (n : Z) : Status + RandomAccessFile :=
  if n =? 5 then inr (local_file sample_bytes []) else inl (not_found "no file").
Definition sample_stored (n sz : Z) : option (list VersionGet.Entry) :=
  if (n =? 5) && (sz =? size sample_bytes) then Some sample_table else None.
Definition sample_levels : Version :=
  mkVersion [[]; [mkPtr 2 (mkFile 5 (size sample_bytes) (make_internal_key [x61] 4 kValue) (make_internal_key [x63] 5 kValue) 100 1)];
             []; []; []; []; []] None (-1) (double_of_Z (-1)) (-1).
Lemma sample_stored_inv n sz es : sample_stored n sz = Some es -> n = 5 /\ sz = size sample_bytes /\ es = sample_table.
Proof.
  unfold sample_stored. destruct (Z.eqb_spec n 5); [|discriminate]. destruct (Z.eqb_spec sz (size sample_bytes)); [|discriminate].
  intros H. injection H as <-. split; [assumption|]. split; [assumption|reflexivity].
Qed.
Lemma sample_is_stored n sz es : sample_stored n sz = Some es -> stored Table.sample_options sample_files n sz es.
Proof.
  intros (-> & -> & ->)%sample_stored_inv.
  assert (sorted_by icmp (table_entries sample_table)) as Hs by repeat constructor.
  assert (Forall (λ e, readable icmp e.1) (table_entries sample_table)) as Hr.
  { repeat (apply Forall_cons; split; [vm_compute; lia|]). by apply Forall_nil. }
  assert (TableBuilder.weight (table_entries sample_table) < 2 ^ 32) as Hw by (vm_compute; reflexivity).
  destruct (Table.table_get_finds_the_version Table.sample_options (Some (new_bloom_filter_policy 10)) (wf_new [])
    (table_entries sample_table) [x61] 7 kValue) as (t & E & _); [cbn; lia|reflexivity|intros p [= <-]; apply _|by split|done|done|done|done|].
  assert (size sample_bytes < 2 ^ 32) as Hlt by (vm_compute; reflexivity).
  assert (sample_bytes = wf_contents (TableBuilder.file_ t)) as Eb by (unfold sample_bytes; by rewrite E).
  rewrite Eb in *. exists (wf_new []), t, (local_file (wf_contents (TableBuilder.file_ t)) []).
  split; [by split|]. split; [done|]. split; [done|]. split; [done|]. split; [done|]. split; [exact E|]. split; [done|]. split; [done|].
  split; [unfold sample_files; by rewrite Eb|]. apply local_file_serves, not_elem_of_nil.
Qed.
Lemma sample_level_files level (f : FilePtr) :
  f ∈ level_files sample_levels level ->
  level = 1%nat /\ f = mkPtr 2 (mkFile 5 (size sample_bytes) (make_internal_key [x61] 4 kValue) (make_internal_key [x63] 5 kValue) 100 1).
Proof.
  destruct level as [|[|[|[|[|[|[|level]]]]]]]; unfold level_files; cbn [sample_levels files_ lookup list_lookup from_option id];
    intros H; try (destruct level as [|level]); cbn [lookup list_lookup from_option] in H; elem_cases; auto.
Qed.
Lemma sample_levels_wf : wf_version sample_stored sample_levels.
Proof.
  split.
  - reflexivity.
  - intros level f [_ ->]%sample_level_files. exists sample_table. split.
    + cbn [number file_size f_meta]. unfold sample_stored. by rewrite !Z.eqb_refl.
    + repeat (apply Forall_cons; split; [vm_compute; by split|]). apply Forall_nil. done.
    + repeat constructor.
    + reflexivity.
    + reflexivity.
  - by intros f g [? _]%sample_level_files.
  - by intros f [? _]%sample_level_files.
  - by intros f g [? _]%sample_level_files.
  - intros level _. unfold level_files. destruct level as [|[|[|[|[|[|[|level]]]]]]]; try (destruct level as [|level]); repeat constructor.
  - intros i j Hij f g a b [-> _]%sample_level_files [-> _]%sample_level_files. lia.
Qed.
End TableCache.
