(* ===== verification/Disk.v ===== *)
(** The directory of a database and what a power cut leaves of it
    (src/src/file.hpp: files are opened, written, synced, renamed and removed
    by name, and [sync_directory] makes names durable).

    What a disk keeps is the model the project's power-cut tests state: a file
    keeps what was synced and some length of what was not; operations on names
    land in order, and a cut keeps a prefix of those that [sync_directory] has
    not committed; truncating a file that exists lands with the file's next
    sync.  Every operation may fail, by a script the disk carries, so that a
    statement about all scripts is one about all failures - and about all
    moments to lose power, which are failures of everything that follows. *)
From stdpp Require Import gmap.
From S2P Require Import Prelude Status File CacheClient.
Import Status File.
Local Open Scope Z_scope.

Module Disk.

(** [i_before]: what the file held before a truncation that is not synced. *)
Record Inode := mkInode { i_file : WritableFile; i_before : option bytes }.
Inductive NameOp :=
  | Link (name : bytes) (inode : nat)
  | Unlink (name : bytes)
  | Move (from to : bytes).
Abbreviation Names := (gmap bytes nat).
Definition apply_op (names : Names) (op : NameOp) : Names :=
  match op with
  | Link name inode => <[name := inode]> names
  | Unlink name => delete name names
  | Move from to =>
      match names !! from with
      | Some inode => <[to := inode]> (delete from names)
      | None => names
      end
  end.

Record Disk := mkDisk {
  d_inodes : list Inode;
  d_durable : Names;
  d_pending : list NameOp;
  d_faults : list bool;                    (* [true]: that call fails *)
  d_file_faults : list (list (option nat)) (* the scripts of files to come *)
}.

(** The names after the first [k] operations that are not committed. *)
Definition names_at (d : Disk) (k : nat) : Names := fold_left apply_op (take k (d_pending d)) (d_durable d).
Definition live (d : Disk) : Names := names_at d (length (d_pending d)).

Definition next_fault (d : Disk) : bool * Disk :=
  match d_faults d with
  | [] => (false, d)
  | b :: rest => (b, mkDisk (d_inodes d) (d_durable d) (d_pending d) rest (d_file_faults d))
  end.
Definition add_op (d : Disk) (op : NameOp) : Disk :=
  mkDisk (d_inodes d) (d_durable d) (d_pending d ++ [op]) (d_faults d) (d_file_faults d).
(** What a reader in this process sees: all that was handed to the kernel. *)
Definition visible (f : WritableFile) : bytes := wf_disk f ++ wf_kernel f.

(** [WritableFile::open(path, append = false)]. *)
Definition create (d : Disk) (name : bytes) : (Status + nat) * Disk :=
  let (failed, d) := next_fault d in
  if failed then (inl (io_error "cannot open"), d)
  else
    let script := default [] (head (d_file_faults d)) in
    let scripts := tail (d_file_faults d) in
    match live d !! name with
    | Some i =>
        let truncated (node : Inode) := mkInode (wf_new script) (Some (default (visible (i_file node)) (i_before node))) in
        (inr i, mkDisk (alter truncated i (d_inodes d)) (d_durable d) (d_pending d) (d_faults d) scripts)
    | None =>
        let i := length (d_inodes d) in
        (inr i, mkDisk (d_inodes d ++ [mkInode (wf_new script) None]) (d_durable d) (d_pending d ++ [Link name i])
                  (d_faults d) scripts)
    end.

(** The file behind an open stream, after calls on it; a sync of it lands a
    truncation. *)
Definition put (d : Disk) (i : nat) (f : WritableFile) (synced : bool) : Disk :=
  mkDisk (alter (λ node, mkInode f (if synced then None else i_before node)) i (d_inodes d))
    (d_durable d) (d_pending d) (d_faults d) (d_file_faults d).

Definition rename_file (d : Disk) (from to : bytes) : Status * Disk :=
  let (failed, d) := next_fault d in
  if failed || bool_decide (live d !! from = None) then (io_error "cannot rename", d) else (ok, add_op d (Move from to)).
Definition remove_file (d : Disk) (name : bytes) : Status * Disk :=
  let (failed, d) := next_fault d in
  if failed || bool_decide (live d !! name = None) then (io_error "cannot remove", d) else (ok, add_op d (Unlink name)).
Definition sync_directory (d : Disk) : Status * Disk :=
  let (failed, d) := next_fault d in
  if failed then (io_error "cannot sync directory", d)
  else (ok, mkDisk (d_inodes d) (live d) [] (d_faults d) (d_file_faults d)).

(** [SequentialFile::open]: the rest of the script says which read fails. *)
Definition open_sequential (d : Disk) (name : bytes) : (Status + SequentialFile) * Disk :=
  let (failed, d) := next_fault d in
  if failed then (inl (io_error "cannot open"), d)
  else match live d !! name ≫= λ i, d_inodes d !! i with
  | Some node => (inr (mkSequential (visible (i_file node)) []), d)
  | None => (inl (not_found "no such file"), d)
  end.

(** ** A power cut *)
(** What may be left of a file. *)
Definition keeps (node : Inode) (contents : bytes) : Prop :=
  (exists n, (length (wf_disk (i_file node)) <= n)%nat /\ contents = take n (wf_contents (i_file node))) \/
  i_before node = Some contents.
Definition reopened (contents : bytes) : Inode := mkInode (mkWritable false contents [] [] []) None.
(** The disk the next process finds; its own calls do not fail. *)
Definition cut (d image : Disk) : Prop :=
  exists k contents, Forall2 keeps (d_inodes d) contents /\
    image = mkDisk (reopened <$> contents) (names_at d k) [] [] [].

(** * Lemmas *)

Lemma names_at_ge d k : (length (d_pending d) <= k)%nat -> names_at d k = live d.
Proof. intros H. unfold live, names_at. by rewrite !take_ge by lia. Qed.
Lemma live_add_op d op : live (add_op d op) = apply_op (live d) op.
Proof. unfold live, names_at. cbn. rewrite !take_ge, fold_left_app by (rewrite ?length_app; lia). done. Qed.
Lemma names_at_add_op d op k :
  names_at (add_op d op) k = if decide (k <= length (d_pending d))%nat then names_at d k else apply_op (live d) op.
Proof.
  case_decide as H.
  - unfold names_at. cbn. by rewrite take_app_le.
  - rewrite <- live_add_op. apply names_at_ge. cbn. rewrite length_app. cbn. lia.
Qed.

(** Names lead to files that exist, and no two to one file. *)
Record wf_names (d : Disk) (names : Names) : Prop := {
  wn_inj a b i : names !! a = Some i -> names !! b = Some i -> a = b;
  wn_range a i : names !! a = Some i -> (i < length (d_inodes d))%nat
}.
Definition d_ok (d : Disk) : Prop := forall k, wf_names d (names_at d k).

Lemma wf_unlink d names a : wf_names d names -> wf_names d (delete a names).
Proof.
  intros [H1 H2]. split.
  - intros b c i [_ Hb]%lookup_delete_Some [_ Hc]%lookup_delete_Some. by eapply H1.
  - intros b i [_ Hb]%lookup_delete_Some. by eapply H2.
Qed.
Lemma wf_link d names a i :
  wf_names d names -> (i < length (d_inodes d))%nat -> (forall b, names !! b <> Some i) -> wf_names d (<[a := i]> names).
Proof.
  intros [H1 H2] Hi Hf. split.
  - intros b c j [[<- <-]|[Hb Eb]]%lookup_insert_Some [[<- Ec]|[Hc Ec]]%lookup_insert_Some; [done|by apply Hf in Ec| |by eapply H1].
    subst. by apply Hf in Eb.
  - intros b j [[<- <-]|[_ Eb]]%lookup_insert_Some; [done|by eapply H2].
Qed.
Lemma wf_move d names a b : wf_names d names -> wf_names d (apply_op names (Move a b)).
Proof.
  intros W. cbn. destruct (names !! a) as [i|] eqn:E; [|done]. apply wf_link; [by apply wf_unlink|by eapply (wn_range _ _ W)|].
  intros c [Hc Ec]%lookup_delete_Some. apply Hc. by eapply (wn_inj _ _ W).
Qed.
Lemma wf_more d d' names : (length (d_inodes d) <= length (d_inodes d'))%nat -> wf_names d names -> wf_names d' names.
Proof. intros H [H1 H2]. split; [done|]. intros a i Ha. apply H2 in Ha. lia. Qed.

(** ** What the calls do to names and files *)
Definition same_names (d d' : Disk) : Prop :=
  d_durable d' = d_durable d /\ d_pending d' = d_pending d /\ length (d_inodes d') = length (d_inodes d).
Lemma same_names_at d d' k : same_names d d' -> names_at d' k = names_at d k.
Proof. intros (E1 & E2 & _). unfold names_at. by rewrite E1, E2. Qed.
Lemma same_live d d' : same_names d d' -> live d' = live d.
Proof. intros H. unfold live. rewrite (same_names_at _ _ _ H). destruct H as (_ & -> & _). done. Qed.
Lemma same_ok d d' : same_names d d' -> d_ok d -> d_ok d'.
Proof. intros H Hd k. rewrite (same_names_at _ _ _ H). apply (wf_more d); [destruct H as (_ & _ & ->); lia|]. apply Hd. Qed.
Lemma same_trans d1 d2 d3 : same_names d1 d2 -> same_names d2 d3 -> same_names d1 d3.
Proof. intros (E1 & E2 & E3) (F1 & F2 & F3). split_and!; congruence. Qed.

Lemma next_fault_same d b d' : next_fault d = (b, d') -> same_names d d' /\ d_inodes d' = d_inodes d.
Proof. unfold next_fault. destruct (d_faults d); intros [= <- <-]; by repeat split. Qed.
Lemma put_same d i f synced : same_names d (put d i f synced).
Proof. unfold put. split_and!; [done|done|]. cbn. apply length_alter. Qed.
Lemma put_other d i f synced j : j <> i -> d_inodes (put d i f synced) !! j = d_inodes d !! j.
Proof. intros H. cbn. by apply list_lookup_alter_ne. Qed.
Lemma put_self d i f synced node :
  d_inodes d !! i = Some node -> d_inodes (put d i f synced) !! i = Some (mkInode f (if synced then None else i_before node)).
Proof. intros H. cbn. by rewrite list_lookup_alter_eq, H. Qed.

(** The names before a call, and perhaps one operation more. *)
Definition adds (d d' : Disk) (op : NameOp) : Prop := d_durable d' = d_durable d /\ d_pending d' = d_pending d ++ [op].
Lemma adds_names_at d d' op k : adds d d' op ->
  names_at d' k = if decide (k <= length (d_pending d))%nat then names_at d k else apply_op (live d) op.
Proof. intros [E1 E2]. rewrite <- names_at_add_op. unfold names_at. cbn. by rewrite E1, E2. Qed.
Lemma adds_live d d' op : adds d d' op -> live d' = apply_op (live d) op.
Proof. intros H. unfold live at 1. rewrite (adds_names_at _ _ _ _ H). destruct H as [_ ->]. rewrite length_app. cbn. rewrite decide_False by lia. done. Qed.
Lemma adds_ok d d' op :
  adds d d' op -> d_ok d -> (length (d_inodes d) <= length (d_inodes d'))%nat -> wf_names d' (apply_op (live d) op) -> d_ok d'.
Proof.
  intros H Hd Hl Hw k. rewrite (adds_names_at _ _ _ _ H). case_decide; [|done]. apply (wf_more d); [done|]. apply Hd.
Qed.

Lemma create_spec d name r d' :
  create d name = (r, d') -> d_ok d -> d_ok d' /\
  match r with
  | inl s => is_ok s = false /\ same_names d d' /\ d_inodes d' = d_inodes d
  | inr i => live d' !! name = Some i /\ (exists script before, d_inodes d' !! i = Some (mkInode (wf_new script) before)) /\
      (forall j, j <> i -> (j < length (d_inodes d))%nat -> d_inodes d' !! j = d_inodes d !! j) /\
      ((same_names d d' /\ live d !! name = Some i) \/ (adds d d' (Link name i) /\ i = length (d_inodes d)))
  end.
Proof.
  unfold create. intros E Hd. destruct (next_fault d) as [failed d1] eqn:E1. destruct (next_fault_same _ _ _ E1) as [S1 N1].
  destruct failed; [injection E as <- <-; split; [by eapply same_ok|done]|].
  pose proof (same_ok _ _ S1 Hd) as Hd1. rewrite <- N1. destruct (live d1 !! name) as [i|] eqn:El.
  - injection E as <- <-. set (d2 := mkDisk _ _ _ _ _). assert (same_names d1 d2) as S2 by (split_and!; [done|done|apply length_alter]).
    assert (same_names d d2) as S3 by (by eapply same_trans). split; [by eapply same_ok|]. rewrite (same_live _ _ S3), <- (same_live _ _ S1).
    split; [done|]. pose proof (wn_range _ _ (Hd1 (length (d_pending d1))) name i El) as Hr.
    destruct (lookup_lt_is_Some_2 _ _ Hr) as [node Hn]. split.
    { exists (default [] (head (d_file_faults d1))), (Some (default (visible (i_file node)) (i_before node))). cbn [d_inodes d2].
      by rewrite list_lookup_alter_eq, Hn. }
    split; [intros j Hj _; cbn; by apply list_lookup_alter_ne|]. by left.
  - injection E as <- <-. set (i := length (d_inodes d1)). set (d2 := mkDisk _ _ _ _ _).
    assert (adds d1 d2 (Link name i)) as A by done. destruct S1 as (P1 & P2 & P3).
    assert (adds d d2 (Link name i)) as A' by (unfold d2; split; cbn; by rewrite ?P1, ?P2).
    split; [|split; [|split; [|split]]].
    + apply (adds_ok d1 d2 (Link name i)); [done|done|cbn; rewrite length_app; lia|]. cbn [apply_op].
      apply wf_link; [apply (wf_more d1); [cbn; rewrite length_app; lia|apply Hd1]|cbn; rewrite length_app; cbn; lia|].
      intros b Hb. apply (wn_range _ _ (Hd1 _)) in Hb. unfold i in Hb. lia.
    + rewrite (adds_live _ _ _ A). cbn [apply_op]. apply lookup_insert_eq.
    + exists (default [] (head (d_file_faults d1))), None. cbn [d_inodes d2]. unfold i. by rewrite lookup_app_r, Nat.sub_diag.
    + intros j _ Hj. cbn [d_inodes d2]. by rewrite lookup_app_l by lia.
    + right. split; [done|]. unfold i. by rewrite N1.
Qed.

Lemma remove_spec d name s d' :
  remove_file d name = (s, d') -> d_ok d -> d_ok d' /\ d_inodes d' = d_inodes d /\ (same_names d d' \/ adds d d' (Unlink name)).
Proof.
  unfold remove_file. destruct (next_fault d) as [failed d1] eqn:E1. destruct (next_fault_same _ _ _ E1) as [S1 N1].
  intros E Hd. pose proof (same_ok _ _ S1 Hd) as Hd1. destruct (_ || _).
  - injection E as <- <-. split; [done|]. split; [done|]. by left.
  - injection E as <- <-. destruct S1 as (P1 & P2 & P3).
    split; [apply (adds_ok d1 _ (Unlink name)); [done|done|done|]|split; [done|right; split; cbn; congruence]].
    cbn [apply_op]. apply wf_unlink. apply (wf_more d1); [done|]. apply Hd1.
Qed.
Lemma rename_spec d from to s d' :
  rename_file d from to = (s, d') -> d_ok d -> d_ok d' /\ d_inodes d' = d_inodes d /\
  (if is_ok s then adds d d' (Move from to) else same_names d d').
Proof.
  unfold rename_file. destruct (next_fault d) as [failed d1] eqn:E1. destruct (next_fault_same _ _ _ E1) as [S1 N1].
  intros E Hd. pose proof (same_ok _ _ S1 Hd) as Hd1. destruct (_ || _).
  - by injection E as <- <-.
  - injection E as <- <-. destruct S1 as (P1 & P2 & P3).
    split; [apply (adds_ok d1 _ (Move from to)); [done|done|done|]|split; [done|split; cbn; congruence]].
    apply wf_move. apply (wf_more d1); [done|]. apply Hd1.
Qed.
Lemma sync_directory_spec d s d' :
  sync_directory d = (s, d') -> d_ok d -> d_ok d' /\ d_inodes d' = d_inodes d /\
  (if is_ok s then forall k, names_at d' k = live d else same_names d d').
Proof.
  unfold sync_directory. destruct (next_fault d) as [failed d1] eqn:E1. destruct (next_fault_same _ _ _ E1) as [S1 N1].
  intros E Hd. pose proof (same_ok _ _ S1 Hd) as Hd1. destruct failed.
  - by injection E as <- <-.
  - injection E as <- <-. cbn [is_ok code ok]. assert (forall k, names_at (mkDisk (d_inodes d1) (live d1) [] (d_faults d1) (d_file_faults d1)) k = live d1) as H.
    { intros k. unfold names_at. cbn. by rewrite take_nil. }
    split; [intros k; rewrite H; apply (wf_more d1); [done|apply Hd1]|]. split; [done|]. intros k. rewrite H. by apply same_live.
Qed.
Lemma open_sequential_spec d name r d' :
  open_sequential d name = (r, d') -> same_names d d' /\ d_inodes d' = d_inodes d /\
  forall file, r = inr file -> exists i node, live d !! name = Some i /\ d_inodes d !! i = Some node /\
    file = mkSequential (visible (i_file node)) [].
Proof.
  unfold open_sequential. destruct (next_fault d) as [failed d1] eqn:E1. destruct (next_fault_same _ _ _ E1) as [S1 N1].
  destruct failed; [intros [= <- <-]; by repeat split; try apply S1|]. rewrite (same_live _ _ S1), N1.
  destruct (live d !! name) as [i|] eqn:El; cbn [mbind option_bind]; [|intros [= <- <-]; by repeat split; try apply S1].
  destruct (d_inodes d !! i) as [node|] eqn:En; intros [= <- <-]; (split; [apply S1|split; [done|]]); [|done].
  intros file [= <-]. by exists i, node.
Qed.
End Disk.
