(* ===== verification/Manifest.v ===== *)
(** The manifest (the rest of [VersionSet] of src/src/version_set.cpp, and
    [set_current_file] of src/src/filename.cpp): installing an edit durably,
    and finding the state again when the database is opened. *)
From stdpp Require Import gmap.
From S2P Require Import Prelude Status File Encoding DbFormat Comparator Iterator Filename Wal VersionEdit Version VersionBuilder Compaction.
From S2P Require Import CacheClient Disk.
Import Status File Encoding DbFormat Comparator Filename Wal VersionEdit Version VersionBuilder Disk.
Local Open Scope Z_scope.

Module Manifest.

(** ** CURRENT *)
Section Current.
Context (dbname : bytes).

(** [if (status.is_ok()) status = call]. *)
Definition and_then (s : Status) (d : Disk) (f : WritableFile) (i : nat) (call : WritableFile -> Status * WritableFile) (synced : bool) :
    Status * Disk * WritableFile :=
  if is_ok s then
    let (s, f) := call f in
    (s, put d i f (synced && is_ok s), f)
  else (s, d, f).

Definition current_contents (descriptor_number : Z) : bytes :=
  base_name dbname (descriptor_file_name dbname descriptor_number).

(** Writing the name of the manifest into [temp]. *)
Definition write_temp (d : Disk) (temp contents : bytes) : Status * Disk :=
  match create d temp with
  | (inl s, d) => (s, d)
  | (inr i, d) =>
      let f := default (wf_new []) (i_file <$> d_inodes d !! i) in
      let '(s, d, f) := and_then ok d f i (λ f, wf_append f contents) false in
      let '(s, d, f) := and_then s d f i (λ f, wf_append f [x0a]) false in
      let '(s, d, f) := and_then s d f i wf_sync true in
      let '(s, d, f) := and_then s d f i wf_close false in
      (s, d)
  end.

Definition set_current_file (d : Disk) (descriptor_number : Z) : Status * Disk :=
  let temp := temp_file_name dbname descriptor_number in
  let (s, d) := write_temp d temp (current_contents descriptor_number) in
  let (s, d) := if is_ok s then rename_file d temp (current_file_name dbname) else (s, d) in
  let (s, d) := if is_ok s then sync_directory d else (s, d) in
  let d := if is_ok s then d else snd (remove_file d temp) in
  (s, d).

(** The base name CURRENT holds, with the number in it. *)
Definition read_current (d : Disk) : (Status + bytes) * Disk :=
  match open_sequential d (current_file_name dbname) with
  | (inl s, d) => (inl s, d)
  | (inr file, d) =>
      let '(s, contents, _) := sf_read file (Z.to_nat 4096) in
      if negb (is_ok s) then (inl s, d)
      else if negb (bool_decide (last contents = Some x0a)) then
        (inl (corruption "CURRENT does not end in a newline"), d)
      else
        let name := take (length contents - 1) contents in
        if bool_decide (x2f ∈ name) || bool_decide (x5c ∈ name) ||
           match parse_file_name name with Some (_, kDescriptor) => false | _ => true end
        then (inl (corruption "CURRENT does not name a manifest in this directory"), d)
        else (inr name, d)
  end.
End Current.

(** ** The version set *)
Record VersionSet := mkSet {
  next_file_number : Z;
  manifest_file_number : Z;
  last_sequence : Z;
  log_number : Z;
  prev_log_number : Z;
  descriptor_log : option (LogWriter * nat);  (* the writer, and its file *)
  manifest_bytes : Z;
  current : Version;
  compact_pointer : list bytes;
  fresh_address : nat                         (* the next file object *)
}.
Definition VersionSet_new : VersionSet :=
  mkSet 2 0 0 0 0 None 0 Version_new (replicate kNumLevels []) 0.

Definition new_file_number (vs : VersionSet) : Z * VersionSet :=
  (next_file_number vs,
   mkSet (u64 (next_file_number vs + 1)) (manifest_file_number vs) (last_sequence vs) (log_number vs) (prev_log_number vs)
     (descriptor_log vs) (manifest_bytes vs) (current vs) (compact_pointer vs) (fresh_address vs)).
Definition mark_file_number_used (next number : Z) : Z := if next <=? number then u64 (number + 1) else next.
Definition reuse_file_number (next number : Z) : Z := if next =? u64 (number + 1) then number else next.

Section VersionSet.
Context (dbname : bytes).
Abbreviation comparator_name := (string_bytes (name internal_key_comparator)).

(** [write_snapshot]: what it writes. *)
Definition snapshot_level (vs : VersionSet) (edit : VersionEdit) (level : nat) : VersionEdit :=
  let pointer := default [] (compact_pointer vs !! level) in
  let edit := match pointer with [] => edit | _ => set_compact_pointer edit (Z.of_nat level) pointer end in
  fold_left (λ edit (file : FilePtr),
    add_file edit (Z.of_nat level) (number file) (file_size file) (smallest file) (largest file))
    (level_files (current vs) level) edit.
Definition snapshot_edit (vs : VersionSet) : VersionEdit :=
  fold_left (snapshot_level vs) (seq 0 kNumLevels) (set_comparator_name clear comparator_name).

(** [LogWriter] calls, through to the disk. *)
Definition log_add (d : Disk) (log : LogWriter * nat) (record : bytes) : option (Status * Disk * (LogWriter * nat)) :=
  '(s, w) ← add_record (fst log) record;
  Some (s, put d (snd log) (dest_ w) false, (w, snd log)).
Definition log_sync (d : Disk) (log : LogWriter * nat) : Status * Disk * (LogWriter * nat) :=
  let (s, w) := writer_sync (fst log) in
  (s, put d (snd log) (dest_ w) (is_ok s), (w, snd log)).

(** The numbers every edit carries. *)
Definition complete_edit (vs : VersionSet) (edit : VersionEdit) : VersionEdit :=
  let edit := match log_number_ edit with Some _ => edit | None => set_log_number edit (log_number vs) end in
  let edit := match prev_log_number_ edit with Some _ => edit | None => set_prev_log_number edit (prev_log_number vs) end in
  set_last_sequence (set_next_file edit (next_file_number vs)) (last_sequence vs).

(** Opening a fresh manifest with a snapshot: the status, and the log if the
    file was opened. *)
Definition open_manifest (vs : VersionSet) (d : Disk) : option (Status * Disk * option (LogWriter * nat)) :=
  match create d (descriptor_file_name dbname (manifest_file_number vs)) with
  | (inl s, d) => Some (s, d, None)
  | (inr i, d) =>
      let f := default (wf_new []) (i_file <$> d_inodes d !! i) in
      '(s, d, log) ← log_add d (LogWriter_new f, i) (encode_to (snapshot_edit vs));
      Some (s, d, Some log)
  end.

(** Writing the edit, syncing it, and pointing CURRENT at a fresh manifest. *)
Definition write_edit (vs : VersionSet) (d : Disk) (log : LogWriter * nat) (edit : VersionEdit) (fresh : bool) :
    option (Status * Disk * (LogWriter * nat)) :=
  '(s, d, log) ← log_add d log (encode_to edit);
  let '(s, d, log) := if is_ok s then log_sync d log else (s, d, log) in
  let (s, d) := if is_ok s && fresh then set_current_file dbname d (manifest_file_number vs) else (s, d) in
  Some (s, d, log).

(** [log_and_apply].  Its assertion that log numbers do not go down is a
    requirement on callers and has no effect.  The list of live versions is in
    DbRead.v; here the new one becomes current. *)
Definition log_and_apply (vs : VersionSet) (d : Disk) (edit : VersionEdit) : option (Status * VersionSet * Disk) :=
  let edit := complete_edit vs edit in
  let b := apply (Builder_new (current vs) (compact_pointer vs) (fresh_address vs)) edit in
  let version := Compaction.finalize (save_to b) in
  let before := match descriptor_log vs with Some (w, _) => bytes_written_ w | None => 0 end in
  let fresh := bool_decide (descriptor_log vs = None) in
  '(s, d, log) ←
    match descriptor_log vs with
    | Some log => Some (ok, d, Some log)
    | None => open_manifest vs d
    end;
  '(s, d, log) ←
    match log with
    | Some log => if is_ok s then '(s, d, log) ← write_edit vs d log edit fresh; Some (s, d, Some log) else Some (s, d, Some log)
    | None => Some (s, d, None)
    end;
  let bytes := match log with Some (w, _) => manifest_bytes vs + (bytes_written_ w - before) | None => manifest_bytes vs end in
  if is_ok s then
    Some (s, mkSet (next_file_number vs) (manifest_file_number vs) (last_sequence vs)
               (default (log_number vs) (log_number_ edit)) (default (prev_log_number vs) (prev_log_number_ edit))
               log bytes version (compact_pointers b) (next_address b), d)
  else
    let '(log, d) :=
      if fresh then
        let (named, d) := read_current dbname d in
        let another := match named with
          | inr named => negb (bool_decide (dbname ++ string_bytes "/" ++ named = descriptor_file_name dbname (manifest_file_number vs)))
          | inl _ => false
          end in
        (None, if another then snd (remove_file d (descriptor_file_name dbname (manifest_file_number vs))) else d)
      else (log, d) in
    Some (s, mkSet (next_file_number vs) (manifest_file_number vs) (last_sequence vs) (log_number vs) (prev_log_number vs)
               log bytes (current vs) (compact_pointers b) (next_address b), d).

(** ** Recovery *)
Record Replay := mkReplay {
  r_builder : Builder;
  r_log : option Z;        (* have_log_number and log_number, and so on *)
  r_prev : option Z;
  r_next : option Z;
  r_last : option Z
}.
Definition or_else (a b : option Z) : option Z := match a with Some _ => a | None => b end.
Definition replay_edit (st : Replay) (edit : VersionEdit) : Replay :=
  mkReplay (apply (r_builder st) edit) (or_else (log_number_ edit) (r_log st)) (or_else (prev_log_number_ edit) (r_prev st))
    (or_else (next_file_number_ edit) (r_next st)) (or_else (last_sequence_ edit) (r_last st)).
Definition other_comparator (edit : VersionEdit) : option bytes :=
  match comparator_ edit with
  | Some c => if bool_decide (c = comparator_name) then None else Some c
  | None => None
  end.

Fixpoint replay_loop (fuel : nat) (r : LogReader) (st : Replay) : option (Status * LogReader * Replay) :=
  match fuel with
  | O => None
  | S fuel =>
      '(record, r) ← read_record r;
      match record with
      | None => Some (ok, r, st)
      | Some record =>
          let (s, edit) := decode_from record in
          if negb (is_ok s) then Some (s, r, st)
          else match other_comparator edit with
          | Some c =>
              Some (invalid_argument ("database was written with comparator '" +:+ String.string_of_list_byte c +:+
                      "' but is being opened with '" +:+ name internal_key_comparator +:+ "'"), r, st)
          | None => replay_loop fuel r (replay_edit st edit)
          end
      end
  end.

(** The checks after the loop. *)
Definition replay_status (s : Status) (r : LogReader) (st : Replay) (manifest_base : bytes) : Status :=
  let s := if is_ok s && damaged r then
      corruption ("manifest " +:+ String.string_of_list_byte manifest_base +:+ " stops before its end (" +:+ failure_reason_ r +:+
        ") and not at a torn tail: records or unread bytes follow, so opening would roll the database back past them and delete what they name")
    else s in
  if is_ok s then
    match r_next st, r_log st, r_last st with
    | None, _, _ => corruption "manifest holds no next-file-number record"
    | _, None, _ => corruption "manifest holds no log-number record"
    | _, _, None => corruption "manifest holds no last-sequence record"
    | _, _, _ => ok
    end
  else s.

(** A record takes seven bytes at least: the loop ends before its fuel.  After
    an error the version set is not used again, and is returned as it was. *)
Definition recover (vs : VersionSet) (d : Disk) : option (Status * VersionSet * Disk) :=
  match read_current dbname d with
  | (inl s, d) => Some (s, vs, d)
  | (inr manifest_base, d) =>
      match open_sequential d (dbname ++ string_bytes "/" ++ manifest_base) with
      | (inl _, d) =>
          Some (corruption ("CURRENT names a manifest that will not open: " +:+ String.string_of_list_byte manifest_base), vs, d)
      | (inr file, d) =>
          let b := Builder_new (current vs) (compact_pointer vs) (fresh_address vs) in
          '(s, r, st) ← replay_loop (S (length (sf_rest file))) (LogReader_new file) (mkReplay b None None None None);
          let s := replay_status s r st manifest_base in
          if negb (is_ok s) then Some (s, vs, d)
          else
            let version := Compaction.finalize (save_to (r_builder st)) in
            let next_file := default 0 (r_next st) in
            let next_file :=
              match parse_file_name manifest_base with
              | Some (own_number, _) => if next_file <=? own_number then u64 (own_number + 1) else next_file
              | None => next_file
              end in
            Some (ok, mkSet (u64 (next_file + 1)) next_file (default 0 (r_last st)) (default 0 (r_log st)) (default 0 (r_prev st))
                        (descriptor_log vs) (manifest_bytes vs) version (compact_pointers (r_builder st)) (next_address (r_builder st)), d)
      end
  end.
End VersionSet.

(** [DBImpl::new_db]: the manifest of an empty database, and the bytes it took. *)
Definition new_db (dbname : bytes) (d : Disk) : option (Status * Z * Disk) :=
  let edit := set_comparator_name clear (string_bytes (name internal_key_comparator)) in
  let edit := set_last_sequence (set_next_file (set_log_number edit 0) 2) 0 in
  let manifest := descriptor_file_name dbname 1 in
  match create d manifest with
  | (inl s, d) => Some (s, 0, d)
  | (inr i, d) =>
      let f := default (wf_new []) (i_file <$> d_inodes d !! i) in
      '(s, d, log) ← log_add d (LogWriter_new f, i) (encode_to edit);
      let '(s, d, log) := if is_ok s then log_sync d log else (s, d, log) in
      let '(s, d, log) :=
        if is_ok s then let (s, w) := writer_close (fst log) in (s, put d (snd log) (dest_ w) false, (w, snd log)) else (s, d, log) in
      let bytes := bytes_written_ (fst log) in
      if is_ok s then let (s, d) := set_current_file dbname d 1 in Some (s, bytes, d)
      else Some (s, bytes, snd (remove_file d manifest))
  end.
End Manifest.
