(* ===== verification/ManifestSafe.v ===== *)
(** Installing an edit is atomic and durable: what opening the database finds
    after a power cut at any moment of [VersionSet::log_and_apply], whatever
    calls failed (Manifest.v, src/src/version_set.cpp). *)
From stdpp Require Import gmap.
From S2P Require Import Prelude Status File Encoding DbFormat Comparator Iterator Filename Wal VersionEdit Version VersionBuilder Compaction.
From S2P Require Import CacheClient WriteGroup Disk Manifest.
Import Status File Encoding DbFormat Comparator Filename Wal VersionEdit Version VersionBuilder Disk Manifest.
Local Open Scope Z_scope.

Module ManifestSafe.

(** * What a manifest says

    The state a sequence of edits describes. *)
Record State := mkState {
  a_files : Files;
  a_log : Z;
  a_prev : Z;
  a_next : Z;
  a_last : Z;
  a_pointers : list bytes
}.
Definition last_of (field : VersionEdit -> option Z) (edits : list VersionEdit) : option Z :=
  fold_left (λ acc e, or_else (field e) acc) edits None.
Definition set_pointers (cps : list bytes) (e : VersionEdit) : list bytes :=
  fold_left (λ cps p, <[Z.to_nat (fst p) := snd p]> cps) (compact_pointers_ e) cps.
Record describes (edits : list VersionEdit) (A : State) : Prop := {
  ds_ok : Forall edit_ok edits;
  ds_comparator : Forall (λ e, other_comparator e = None) edits;
  ds_fresh : NoDup (added_pairs edits);
  ds_files : a_files A = fold_left spec_edit edits ∅;
  ds_log : last_of log_number_ edits = Some (a_log A);
  ds_prev : default 0 (last_of prev_log_number_ edits) = a_prev A;
  ds_next : last_of next_file_number_ edits = Some (a_next A);
  ds_last : last_of last_sequence_ edits = Some (a_last A);
  ds_pointers : a_pointers A = fold_left set_pointers edits (replicate kNumLevels [])
}.

(** What a version set that has found the state [A] in manifest [n] has. *)
Record found (vs : VersionSet) (A : State) (n : Z) : Prop := {
  fo_files : has_files (current vs) (a_files A);
  fo_order : in_order (current vs);
  fo_log : log_number vs = a_log A;
  fo_prev : prev_log_number vs = a_prev A;
  fo_last : last_sequence vs = a_last A;
  fo_pointers : compact_pointer vs = a_pointers A;
  fo_descriptor : descriptor_log vs = None;
  fo_manifest : manifest_file_number vs = Z.max (a_next A) (n + 1);
  fo_next : next_file_number vs = manifest_file_number vs + 1
}.

(** ** Replaying *)
Lemma read_all_fuel f1 f2 r x y : read_all f1 r = Some x -> read_all f2 r = Some y -> x = y.
Proof.
  revert f2 r x y. induction f1 as [|f1 IH]; intros [|f2] r x y; try done. cbn [read_all].
  destruct (read_record r) as [[[rec|] r']|]; [|by intros [= <-] [= <-]|done].
  destruct (read_all f1 r') as [[recs1 r1]|] eqn:E1; [|done]. destruct (read_all f2 r') as [[recs2 r2]|] eqn:E2; [|done].
  intros [= <-] [= <-]. specialize (IH _ _ _ _ E1 E2). by injection IH as <- <-.
Qed.

Lemma replay_reads fuel r edits r' st :
  read_all fuel r = Some (encode_to <$> edits, r') -> Forall edit_ok edits -> Forall (λ e, other_comparator e = None) edits ->
  replay_loop fuel r st = Some (ok, r', fold_left replay_edit edits st).
Proof.
  revert r edits st. induction fuel as [|fuel IH]; intros r edits st; [done|]. cbn [read_all replay_loop].
  destruct (read_record r) as [[[rec|] r1]|] eqn:Er; cbn [mbind option_bind]; [| |done].
  - destruct (read_all fuel r1) as [[recs r2]|] eqn:Ea; [|done]. destruct edits as [|e edits]; [done|].
    rewrite fmap_cons. intros [= -> E ->] [He HF]%Forall_cons [Hc HC]%Forall_cons.
    rewrite (edit_decodes e He). cbn [negb]. change (is_ok ok) with true. cbn [negb]. rewrite Hc. cbn [fold_left]. apply IH; [|done|done].
    by rewrite Ea, E.
  - destruct edits; [|done]. intros [= <-] _ _. done.
Qed.

Lemma replay_fields edits st :
  r_log (fold_left replay_edit edits st) = fold_left (λ acc e, or_else (log_number_ e) acc) edits (r_log st) /\
  r_prev (fold_left replay_edit edits st) = fold_left (λ acc e, or_else (prev_log_number_ e) acc) edits (r_prev st) /\
  r_next (fold_left replay_edit edits st) = fold_left (λ acc e, or_else (next_file_number_ e) acc) edits (r_next st) /\
  r_last (fold_left replay_edit edits st) = fold_left (λ acc e, or_else (last_sequence_ e) acc) edits (r_last st) /\
  r_builder (fold_left replay_edit edits st) = fold_left apply edits (r_builder st).
Proof. revert st. induction edits as [|e edits IH]; intros st; [done|]. cbn [fold_left]. apply IH. Qed.

Lemma new_pointers ns b : compact_pointers (fold_left apply_new ns b) = compact_pointers b.
Proof. revert b. induction ns as [|n ns IH]; intros b; [done|]. cbn [fold_left]. by rewrite IH. Qed.
Lemma deleted_pointers ds b : compact_pointers (fold_left apply_deleted ds b) = compact_pointers b.
Proof. revert b. induction ds as [|n ds IH]; intros b; [done|]. cbn [fold_left]. by rewrite IH. Qed.
Lemma apply_pointers b e : compact_pointers (apply b e) = set_pointers (compact_pointers b) e.
Proof.
  unfold apply. rewrite new_pointers, deleted_pointers. unfold set_pointers. revert b.
  induction (compact_pointers_ e) as [|p ps IH]; intros b; [done|]. cbn [fold_left]. by rewrite IH.
Qed.
Lemma applies_pointers edits b : compact_pointers (fold_left apply edits b) = fold_left set_pointers edits (compact_pointers b).
Proof. revert b. induction edits as [|e edits IH]; intros b; [done|]. cbn [fold_left]. by rewrite IH, apply_pointers. Qed.

Lemma finalize_files v : files_ (Compaction.finalize v) = files_ v.
Proof. unfold Compaction.finalize. by destruct (fold_left _ _ _). Qed.
Lemma finalize_keeps v M : has_files v M /\ in_order v -> has_files (Compaction.finalize v) M /\ in_order (Compaction.finalize v).
Proof. unfold has_files, in_order, level_files. by rewrite finalize_files. Qed.

(** What the edits give, replayed over nothing. *)
Lemma replayed_files edits A cps addr :
  describes edits A ->
  let v := Compaction.finalize (save_to (fold_left apply edits (Builder_new Version_new cps addr))) in
  has_files v (a_files A) /\ in_order v.
Proof.
  intros D v. apply finalize_keeps. rewrite (ds_files _ _ D).
  apply (save_to_spec Version_new ∅ new_has_files new_in_order _ _ (added_pairs edits)).
  - apply (applied_edits Version_new edits _ _ []); [apply (ds_ok _ _ D)|apply applied_new, new_has_files|apply (ds_fresh _ _ D)|].
    by intros level g ?%new_no_file.
  - by intros level g ?%new_no_file.
Qed.

(** * The snapshot *)
Definition written (f : FilePtr) : FileMetaData := mkFile (number f) (file_size f) (smallest f) (largest f) default_allowed_seeks 0.
Definition snapshot_files (vs : VersionSet) (level : nat) : list (Z * FileMetaData) :=
  (λ f, (Z.of_nat level, written f)) <$> level_files (current vs) level.
Definition snapshot_pointer (vs : VersionSet) (level : nat) : list (Z * bytes) :=
  match default [] (compact_pointer vs !! level) with [] => [] | p => [(Z.of_nat level, p)] end.
(** Only the lists of an edit grow. *)
Definition grown (e e' : VersionEdit) (ps : list (Z * bytes)) (ns : list (Z * FileMetaData)) : Prop :=
  comparator_ e' = comparator_ e /\ log_number_ e' = log_number_ e /\ prev_log_number_ e' = prev_log_number_ e /\
  next_file_number_ e' = next_file_number_ e /\ last_sequence_ e' = last_sequence_ e /\ deleted_files_ e' = deleted_files_ e /\
  compact_pointers_ e' = compact_pointers_ e ++ ps /\ new_files_ e' = new_files_ e ++ ns.
Lemma grown_refl e : grown e e [] [].
Proof. unfold grown. by rewrite !app_nil_r. Qed.
Lemma grown_trans e1 e2 e3 ps ps' ns ns' : grown e1 e2 ps ns -> grown e2 e3 ps' ns' -> grown e1 e3 (ps ++ ps') (ns ++ ns').
Proof.
  intros (A1 & A2 & A3 & A4 & A5 & A6 & A7 & A8) (B1 & B2 & B3 & B4 & B5 & B6 & B7 & B8). unfold grown. rewrite !app_assoc.
  split_and!; congruence.
Qed.
Lemma add_files_grown level fs e :
  grown e (fold_left (λ edit (file : FilePtr), add_file edit (Z.of_nat level) (number file) (file_size file) (smallest file) (largest file)) fs e)
    [] ((λ f, (Z.of_nat level, written f)) <$> fs).
Proof.
  revert e. induction fs as [|f fs IH]; intros e; [apply grown_refl|]. cbn [fold_left]. rewrite fmap_cons.
  eapply (grown_trans e _ _ [] [] [_]); [|apply IH]. unfold grown. cbn. by rewrite app_nil_r.
Qed.
Lemma snapshot_level_grown vs e level : grown e (snapshot_level vs e level) (snapshot_pointer vs level) (snapshot_files vs level).
Proof.
  unfold snapshot_level, snapshot_pointer. rewrite <- (app_nil_l (snapshot_files vs level)). destruct (default [] _) as [|b p] eqn:E.
  - rewrite <- (app_nil_l []). eapply grown_trans; [apply grown_refl|apply add_files_grown].
  - rewrite <- (app_nil_r [(_, _)]). eapply grown_trans; [|apply add_files_grown]. unfold grown. cbn. by rewrite app_nil_r.
Qed.
Lemma snapshot_grown vs levels e :
  grown e (fold_left (snapshot_level vs) levels e) (levels ≫= snapshot_pointer vs) (levels ≫= snapshot_files vs).
Proof.
  revert e. induction levels as [|l levels IH]; intros e; [apply grown_refl|]. cbn [fold_left]. cbn [mbind list_bind].
  eapply grown_trans; [apply snapshot_level_grown|apply IH].
Qed.
Lemma snapshot_edit_grown vs :
  grown (set_comparator_name clear (string_bytes (name internal_key_comparator))) (snapshot_edit vs)
    (seq 0 kNumLevels ≫= snapshot_pointer vs) (seq 0 kNumLevels ≫= snapshot_files vs).
Proof. apply snapshot_grown. Qed.

(** What can be written. *)
Definition meta_ok (m : Meta) : Prop := u64_ok (fst (fst m)) /\ key_ok (snd (fst m)) /\ key_ok (snd m).
Definition metas_ok (M : Files) : Prop := forall l n m, M !! (l, n) = Some m -> u64_ok n /\ meta_ok m.
Definition pointers_ok (cps : list bytes) : Prop := length cps = kNumLevels /\ Forall (λ p, p = [] \/ key_ok p) cps.

Lemma spec_deletes_ok ds M : metas_ok M -> metas_ok (fold_left (λ M d, delete d M) ds M).
Proof.
  revert M. induction ds as [|d ds IH]; intros M H; [done|]. cbn [fold_left]. apply IH. intros l n m [_ Hm]%lookup_delete_Some. by eapply H.
Qed.
Lemma spec_edit_ok M e : edit_ok e -> metas_ok M -> metas_ok (spec_edit M e).
Proof.
  intros He HM. unfold spec_edit. pose proof (spec_deletes_ok (deleted_files_ e) M HM) as H. revert H.
  generalize (fold_left (λ M d, delete d M) (deleted_files_ e) M) as M1. pose proof (eo_new _ He) as Hn. clear -Hn.
  induction Hn as [|n ns [_ Hf] _ IH]; intros M1 H1; [done|]. cbn [fold_left]. apply IH. intros l k m. unfold spec_add.
  rewrite lookup_insert_Some. intros [[[= <- <-] <-]|[_ Hm]]; [|by eapply H1]. destruct Hf as (H2 & H3 & H4 & H5 & _). done.
Qed.
Lemma set_pointers_ok cps e : edit_ok e -> pointers_ok cps -> pointers_ok (set_pointers cps e).
Proof.
  intros He H. unfold set_pointers. pose proof (eo_ptr _ He) as Hp. revert cps H.
  induction Hp as [|p ps [_ Hk] _ IH]; intros cps [Hl HF]; [done|]. cbn [fold_left]. apply IH. split; [by rewrite length_insert|].
  apply Forall_insert; [done|by right].
Qed.

Section Snapshot.
Context (vs : VersionSet) (M : Files).
Context (HM : has_files (current vs) M) (HO : in_order (current vs)) (Hmetas : metas_ok M) (Hcps : pointers_ok (compact_pointer vs)).
Abbreviation files := (seq 0 kNumLevels ≫= snapshot_files vs).

Lemma snapshot_files_elem l m :
  (l, m) ∈ files <-> exists level f, (level < kNumLevels)%nat /\ f ∈ level_files (current vs) level /\ l = Z.of_nat level /\ m = written f.
Proof using.
  rewrite list_elem_of_bind. split.
  - intros (level & (f & [= -> ->] & Hf)%list_elem_of_fmap & Hl%elem_of_seq). exists level, f. split; [lia|done].
  - intros (level & f & Hlt & Hf & -> & ->). exists level. split; [|apply elem_of_seq; lia]. apply list_elem_of_fmap. by exists f.
Qed.
Lemma ordered_nodup (l : list FilePtr) : ordered l -> NoDup l.
Proof using.
  clear. induction 1 as [|x l _ IH Hx]; [constructor|]. constructor; [|done]. intros Hin. rewrite Forall_forall in Hx. by destruct (file_lt_irrefl x); apply Hx.
Qed.
Lemma snapshot_nodup : NoDup ((λ n : Z * FileMetaData, (fst n, number (snd n))) <$> files).
Proof using HO.
  apply NoDup_fmap_2_strong.
  - intros [l m] [l' m'] H1 H2. cbn. intros [= <- En]. apply snapshot_files_elem in H1 as (level & f & _ & Hf & -> & ->).
    apply snapshot_files_elem in H2 as (level' & f' & _ & Hf' & El & ->). assert (level' = level) as -> by lia. cbn in En.
    destruct (HO level) as (_ & _ & Hu). by rewrite (Hu f f' Hf Hf' En).
  - assert (forall o k, NoDup (seq o k ≫= snapshot_files vs)) as H; [|apply H]. intros o k. revert o.
    induction k as [|k IH]; intros o; [constructor|]. cbn [seq mbind list_bind]. apply NoDup_app. split; [|split; [|apply IH]].
    + apply NoDup_fmap_2_strong; [|destruct (HO o) as (Ho & _); by apply ordered_nodup]. intros f g Hf Hg [= En _ _ _].
      destruct (HO o) as (_ & _ & Hu). by apply Hu.
    + intros x (f & -> & _)%list_elem_of_fmap (level & (g & [= El _ _ _ _] & _)%list_elem_of_fmap & Hl%elem_of_seq)%list_elem_of_bind. lia.
Qed.
Lemma spec_adds_lookup ns M0 key meta :
  NoDup ((λ n : Z * FileMetaData, (fst n, number (snd n))) <$> ns) ->
  fold_left spec_add ns M0 !! key = Some meta <->
  (exists n, n ∈ ns /\ (fst n, number (snd n)) = key /\ core (snd n) = meta) \/
  (key ∉ (λ n : Z * FileMetaData, (fst n, number (snd n))) <$> ns) /\ M0 !! key = Some meta.
Proof using.
  clear. revert M0. induction ns as [|n ns IH]; intros M0; cbn [fold_left].
  - intros _. split; [intros H; right; split; [apply not_elem_of_nil|done]|]. intros [(n & ?%not_elem_of_nil & _)|[_ H]]; done.
  - rewrite fmap_cons. intros [Hn Hnd]%NoDup_cons. rewrite (IH _ Hnd). unfold spec_add. rewrite lookup_insert_Some. split.
    + intros [(x & Hx & E1 & E2)|[Hk [[E1 E2]|[Hne E]]]].
      * left. exists x. split; [by right|done].
      * left. exists n. split; [by left|done].
      * right. split; [|done]. apply not_elem_of_cons. split; [congruence|done].
    + intros [(x & [->|Hx]%elem_of_cons & E1 & E2)|[[Hk1 Hk2]%not_elem_of_cons E]].
      * right. split; [congruence|]. by left.
      * left. by exists x.
      * right. split; [done|]. right. split; [congruence|done].
Qed.
Lemma snapshot_spec : spec_edit ∅ (snapshot_edit vs) = M.
Proof using HM HO.
  clear Hmetas Hcps. destruct (snapshot_edit_grown vs) as (_ & _ & _ & _ & _ & Ed & _ & En). cbn [deleted_files_ set_comparator_name clear] in Ed. rewrite app_nil_l in En.
  unfold spec_edit. rewrite Ed, En. cbn [fold_left]. apply map_eq. intros [l n]. apply option_eq. intros meta.
  rewrite spec_adds_lookup by apply snapshot_nodup. destruct HM as (_ & Hlev & Hm). split.
  - intros [([l' m] & Hx & [= <- <-] & <-)|[_ ?%lookup_empty_Some]]; [|done].
    apply snapshot_files_elem in Hx as (level & f & _ & Hf & -> & ->). apply Hm. by exists f.
  - intros H. left. pose proof (Hlev _ _ _ H) as Hl. unfold level_ok in Hl. assert (l = Z.of_nat (Z.to_nat l)) as El by lia. rewrite El in H.
    apply Hm in H as (f & Hf & <- & <-). exists (l, written f). split; [|done]. apply snapshot_files_elem. exists (Z.to_nat l), f.
    split; [unfold kNumLevels; lia|done].
Qed.
Lemma snapshot_edit_ok : edit_ok (snapshot_edit vs).
Proof using HM Hmetas Hcps.
  clear HO. destruct (snapshot_edit_grown vs) as (E1 & E2 & E3 & E4 & E5 & E6 & E7 & E8). split; rewrite ?E1, ?E2, ?E3, ?E4, ?E5, ?E6, ?E7, ?E8; try done.
  - intros n [= <-]. vm_compute. reflexivity.
  - rewrite app_nil_l. apply Forall_forall. intros [l p] (level & Hp & Hl%elem_of_seq)%list_elem_of_bind. unfold snapshot_pointer in Hp.
    destruct (compact_pointer vs !! level) as [[|b q]|] eqn:Eq; cbn in Hp; try by apply not_elem_of_nil in Hp.
    apply list_elem_of_singleton in Hp as [= -> ->]. cbn. split; [unfold level_ok; unfold kNumLevels in Hl; lia|].
    destruct Hcps as [_ HF]. rewrite Forall_lookup in HF. by destruct (HF level _ Eq).
  - split; constructor.
  - rewrite app_nil_l. apply Forall_forall. intros [l m] (level & f & Hlt & Hf & -> & ->)%snapshot_files_elem. cbn.
    split; [unfold level_ok; unfold kNumLevels in Hlt; lia|]. destruct HM as (_ & _ & Hm).
    assert (M !! (Z.of_nat level, number f) = Some (core f)) as Ef by (apply Hm; by exists f).
    destruct (Hmetas _ _ _ Ef) as (Hu & H1 & H2 & H3). by split_and!.
Qed.

Lemma pointers_rebuild (cps pre : list bytes) :
  fold_left (λ acc p, <[Z.to_nat (fst p) := snd p]> acc)
    (seq (length pre) (length cps) ≫= λ level, match default [] ((pre ++ cps) !! level) with [] => [] | p => [(Z.of_nat level, p)] end)
    (pre ++ replicate (length cps) []) = pre ++ cps.
Proof using.
  clear. revert pre. induction cps as [|p cps IH]; intros pre; [done|]. cbn [length seq mbind list_bind replicate].
  rewrite lookup_app_r, Nat.sub_diag by lia. cbn [lookup list_lookup default from_option id]. rewrite fold_left_app.
  specialize (IH (pre ++ [p])). rewrite <- !app_assoc in IH. cbn [app] in IH. rewrite length_app in IH. cbn [length] in IH.
  rewrite Nat.add_1_r in IH. etrans; [|exact IH]. f_equal. destruct p as [|b p]; [done|]. cbn [fold_left fst snd].
  rewrite Nat2Z.id. rewrite insert_app_r_alt, Nat.sub_diag by lia. done.
Qed.
Lemma snapshot_pointers : set_pointers (replicate kNumLevels []) (snapshot_edit vs) = compact_pointer vs.
Proof using Hcps.
  destruct (snapshot_edit_grown vs) as (_ & _ & _ & _ & _ & _ & E7 & _). unfold set_pointers. rewrite E7. cbn [compact_pointers_ set_comparator_name clear].
  rewrite app_nil_l. destruct Hcps as [Hl _]. pose proof (pointers_rebuild (compact_pointer vs) []) as H. cbn [length app] in H.
  rewrite Hl in H. exact H.
Qed.
Lemma snapshot_pairs : added_pairs [snapshot_edit vs] = (λ n : Z * FileMetaData, (fst n, number (snd n))) <$> files.
Proof using.
  clear HM HO Hmetas Hcps. destruct (snapshot_edit_grown vs) as (_ & _ & _ & _ & _ & _ & _ & E8). unfold added_pairs. cbn [mbind list_bind]. rewrite E8, app_nil_r. done.
Qed.
Lemma snapshot_numbers :
  other_comparator (snapshot_edit vs) = None /\ log_number_ (snapshot_edit vs) = None /\ prev_log_number_ (snapshot_edit vs) = None /\
  next_file_number_ (snapshot_edit vs) = None /\ last_sequence_ (snapshot_edit vs) = None.
Proof using.
  clear HM HO Hmetas Hcps. destruct (snapshot_edit_grown vs) as (E1 & E2 & E3 & E4 & E5 & _). rewrite E2, E3, E4, E5. unfold other_comparator. rewrite E1.
  cbn [comparator_ set_comparator_name]. rewrite bool_decide_true by done. done.
Qed.
End Snapshot.

(** * The log behind a manifest *)
Record on_log (w : LogWriter) (edits : list VersionEdit) (frss : list (list (RecordType * bytes))) : Prop := {
  ol_fits : log_fits 0 (encode_to <$> edits) frss;
  ol_contents : wf_contents (dest_ w) = log_layout 0 frss;
  ol_offset : offset_ w = log_end 0 frss;
  ol_open : wf_open (dest_ w) = true
}.
Lemma on_log_new script : on_log (LogWriter_new (wf_new script)) [] [].
Proof. by split. Qed.

(** A record, or part of it, behind the others. *)
Record torn (f : WritableFile) (edits : list VersionEdit) (e : VersionEdit) (frss : list (list (RecordType * bytes)))
    (frs : list (RecordType * bytes)) : Prop := {
  to_fits : log_fits 0 (encode_to <$> (edits ++ [e])) (frss ++ [frs]);
  to_contents : exists m, wf_contents f = take m (log_layout 0 (frss ++ [frs])) /\ (length (log_layout 0 frss) <= m)%nat
}.
Lemma log_add_edit w edits frss e :
  on_log w edits frss ->
  exists s w' frs, add_record w (encode_to e) = Some (s, w') /\ torn (dest_ w') edits e frss frs /\
    wf_disk (dest_ w') = wf_disk (dest_ w) /\ wf_open (dest_ w') = true /\
    (is_ok s = true -> on_log w' (edits ++ [e]) (frss ++ [frs])).
Proof.
  intros [H1 H2 H3 H4]. assert (offset_ w <= kBlockSize)%nat as Ho by (rewrite H3; eapply log_end_bound; [|exact H1]; lia).
  destruct (add_record_spec w (encode_to e) Ho) as (Hc & Hf & s & w' & E & (m & Ec & Hok & _ & Hop)).
  set (frs := record_fragments (offset_ w) (encode_to e)) in *. exists s, w', frs. split; [done|].
  assert (log_fits 0 (encode_to <$> (edits ++ [e])) (frss ++ [frs])) as Hfits.
  { rewrite fmap_app. apply log_fits_app; [done|]. rewrite <- H3. by split_and!. }
  assert (log_layout 0 (frss ++ [frs]) = log_layout 0 frss ++ layout (offset_ w) frs) as El.
  { rewrite log_layout_app, <- H3. cbn [log_layout]. by rewrite app_nil_r. }
  split; [|split; [|split]].
  - split; [done|]. exists (length (log_layout 0 frss) + m)%nat. split; [|lia]. rewrite Ec, H2, El.
    rewrite take_app_ge by lia. by replace (length (log_layout 0 frss) + m - length (log_layout 0 frss))%nat with m by lia.
  - unfold add_record in E. by apply (WriteGroup.add_loop_kept _ _ _ _ _ _ E).
  - by rewrite Hop.
  - intros Hs. destruct (Hok Hs) as (Em & Eo & _). split; [done| | |by rewrite Hop].
    + by rewrite Ec, H2, Em, El.
    + rewrite Eo, H3. clear. generalize 0%nat as o. induction frss as [|f frss IH]; intros o; [done|]. cbn [log_end app]. apply IH.
Qed.
Lemma sync_on_log w edits frss s w' :
  on_log w edits frss -> writer_sync w = (s, w') ->
  on_log w' edits frss /\ (length (wf_disk (dest_ w)) <= length (wf_disk (dest_ w')))%nat /\
  (is_ok s = true -> wf_contents (dest_ w') = wf_disk (dest_ w')).
Proof.
  intros [H1 H2 H3 H4] E. destruct (WriteGroup.push_advanced true w s w' E H4) as ([A1 A2 A3 A4] & Eo & _ & Hd).
  split; [split; [done|congruence|congruence|congruence]|]. split; [done|]. intros Hs. by apply Hd.
Qed.
Lemma sync_torn w edits e frss frs s w' :
  torn (dest_ w) edits e frss frs -> wf_open (dest_ w) = true -> writer_sync w = (s, w') ->
  torn (dest_ w') edits e frss frs /\ (length (wf_disk (dest_ w)) <= length (wf_disk (dest_ w')))%nat.
Proof.
  intros [H1 (m & Hm)] Ho E. destruct (WriteGroup.push_advanced true w s w' E Ho) as ([A1 A2 A3 A4] & _).
  split; [|done]. split; [done|]. exists m. by rewrite A1.
Qed.

(** What is left of a torn log reads as the records before, or all of them. *)
Lemma torn_reads f edits e frss frs n :
  torn f edits e frss frs -> (length (log_layout 0 frss) <= n)%nat ->
  exists fuel r edits', read_all fuel (LogReader_new (mkSequential (take n (wf_contents f)) [])) = Some (encode_to <$> edits', r) /\
    (edits' = edits \/ edits' = edits ++ [e]).
Proof.
  intros [H1 (m & Hm & Hle)] Hn. rewrite Hm, take_take.
  destruct (read_all_prefix _ _ 0 (LogReader_new (mkSequential (take (Nat.min n m) (log_layout 0 (frss ++ [frs]))) [])) (Nat.min n m) H1)
    as (k & r & Er & Hk); [by constructor|]. eexists _, r, (take k (edits ++ [e])). rewrite fmap_take. split; [done|].
  assert (length frss = length edits) as El.
  { pose proof (log_fits_length _ _ _ H1) as H. rewrite fmap_app, !length_app, length_fmap in H. cbn in H. lia. }
  assert (length edits <= k)%nat as Hge.
  { apply Hk; [rewrite length_fmap, length_app; lia|]. rewrite <- El, take_app_length. lia. }
  destruct (decide (k = length edits)) as [->|Hne]; [left; apply take_app_length|right].
  apply take_ge. rewrite length_app. cbn. lia.
Qed.
Lemma whole_reads w edits frss :
  on_log w edits frss -> exists fuel r,
    read_all fuel (LogReader_new (mkSequential (wf_contents (dest_ w)) [])) = Some (encode_to <$> edits, r) /\ damaged r = false.
Proof.
  intros [H1 H2 _ _]. rewrite H2. destruct (read_all_whole _ _ 0 (LogReader_new (mkSequential (log_layout 0 frss) [])) H1) as (r & Er & _ & Hd);
    [by constructor|]. by eexists _, r.
Qed.

(** * What an edit makes of the state *)
Definition installed (vs : VersionSet) (M : Files) (edit : VersionEdit) : State :=
  let e := complete_edit vs edit in
  mkState (spec_edit M e) (default 0 (log_number_ e)) (default 0 (prev_log_number_ e)) (next_file_number vs) (last_sequence vs)
    (set_pointers (compact_pointer vs) e).
Lemma complete_fields vs edit :
  let e := complete_edit vs edit in
  comparator_ e = comparator_ edit /\ log_number_ e = Some (default (log_number vs) (log_number_ edit)) /\
  prev_log_number_ e = Some (default (prev_log_number vs) (prev_log_number_ edit)) /\ next_file_number_ e = Some (next_file_number vs) /\
  last_sequence_ e = Some (last_sequence vs) /\ compact_pointers_ e = compact_pointers_ edit /\ deleted_files_ e = deleted_files_ edit /\
  new_files_ e = new_files_ edit.
Proof. unfold complete_edit. by destruct edit as [c [l|] [p|] n la cp de nf]. Qed.
Lemma complete_ok vs edit :
  edit_ok edit -> u64_ok (log_number vs) -> u64_ok (prev_log_number vs) -> u64_ok (next_file_number vs) -> u64_ok (last_sequence vs) ->
  edit_ok (complete_edit vs edit).
Proof.
  intros [H1 H2 H3 H4 H5 H6 H7 H8] N1 N2 N3 N4. destruct (complete_fields vs edit) as (E1 & E2 & E3 & E4 & E5 & E6 & E7 & E8).
  split; rewrite ?E1, ?E2, ?E3, ?E4, ?E5, ?E6, ?E7, ?E8; try done.
  - intros n [= <-]. destruct (log_number_ edit) eqn:E; [by apply H2|done].
  - intros n [= <-]. destruct (prev_log_number_ edit) eqn:E; [by apply H3|done].
  - by intros n [= <-].
  - by intros n [= <-].
Qed.
Lemma describes_installed vs M edit edits :
  Forall edit_ok (edits ++ [complete_edit vs edit]) -> Forall (λ e, other_comparator e = None) edits -> other_comparator edit = None ->
  NoDup (added_pairs edits ++ added_pairs [edit]) ->
  fold_left spec_edit edits ∅ = M -> fold_left set_pointers edits (replicate kNumLevels []) = compact_pointer vs ->
  describes (edits ++ [complete_edit vs edit]) (installed vs M edit).
Proof.
  intros Hok Hc Hce Hnd HM Hp. destruct (complete_fields vs edit) as (E1 & E2 & E3 & E4 & E5 & E6 & E7 & E8).
  unfold installed. split; cbn [a_files a_log a_prev a_next a_last a_pointers].
  - done.
  - apply Forall_app. split; [done|]. apply Forall_singleton. unfold other_comparator in *. by rewrite E1.
  - unfold added_pairs in *. rewrite bind_app. cbn [mbind list_bind] in *. by rewrite E8.
  - rewrite fold_left_app. cbn [fold_left]. by rewrite HM.
  - unfold last_of. rewrite fold_left_app. cbn [fold_left]. by rewrite E2.
  - unfold last_of. rewrite fold_left_app. cbn [fold_left]. by rewrite E3.
  - unfold last_of. rewrite fold_left_app. cbn [fold_left]. by rewrite E4.
  - unfold last_of. rewrite fold_left_app. cbn [fold_left]. by rewrite E5.
  - rewrite fold_left_app. cbn [fold_left]. by rewrite Hp.
Qed.
(** Applied to the version at hand. *)
Lemma applied_installed vs M edit :
  has_files (current vs) M -> in_order (current vs) -> edit_ok (complete_edit vs edit) ->
  NoDup (added_pairs [edit]) -> (forall level (f : FilePtr), f ∈ level_files (current vs) level -> (Z.of_nat level, number f) ∉ added_pairs [edit]) ->
  let b := apply (Builder_new (current vs) (compact_pointer vs) (fresh_address vs)) (complete_edit vs edit) in
  has_files (Compaction.finalize (save_to b)) (a_files (installed vs M edit)) /\ in_order (Compaction.finalize (save_to b)) /\
  compact_pointers b = a_pointers (installed vs M edit).
Proof.
  intros HM HO He Hnd Hf b. destruct (complete_fields vs edit) as (_ & _ & _ & _ & _ & _ & _ & E8).
  assert (added_pairs [complete_edit vs edit] = added_pairs [edit]) as Ep by (unfold added_pairs; cbn [mbind list_bind]; by rewrite E8).
  assert (has_files (Compaction.finalize (save_to b)) (a_files (installed vs M edit)) /\ in_order (Compaction.finalize (save_to b))) as [G1 G2].
  { apply finalize_keeps. apply (save_to_spec (current vs) M HM HO b _ (added_pairs [edit])); [|done]. unfold b. rewrite <- Ep.
    apply (applied_edit (current vs) _ _ []); [done|by apply applied_new|by rewrite Ep|by rewrite Ep]. }
  split; [done|]. split; [done|]. unfold b. by rewrite apply_pointers.
Qed.

(** * Names *)
Section Names.
Context (dbname : bytes).
Abbreviation CURRENT := (current_file_name dbname).
Abbreviation MANIFEST := (descriptor_file_name dbname).
Abbreviation TEMP := (temp_file_name dbname).

Lemma manifest_split n : MANIFEST n = dbname ++ string_bytes "/" ++ current_contents dbname n.
Proof using.
  unfold current_contents, base_name, descriptor_file_name.
  change (string_bytes "/MANIFEST-" ++ ?x) with (x2f :: string_bytes "MANIFEST-" ++ x). by rewrite drop_past.
Qed.
Lemma manifest_inj m n : 0 <= m < 2 ^ 64 -> 0 <= n < 2 ^ 64 -> MANIFEST m = MANIFEST n -> m = n.
Proof using.
  intros Hm Hn E. destruct (names_parse dbname m Hm) as (_ & _ & _ & Em & _). destruct (names_parse dbname n Hn) as (_ & _ & _ & En & _).
  rewrite E, En in Em. by injection Em.
Qed.
Lemma manifest_not_current n : 0 <= n < 2 ^ 64 -> MANIFEST n <> CURRENT.
Proof using. intros Hn E. destruct (names_parse dbname n Hn) as (_ & _ & _ & Em & Ec & _). rewrite E, Ec in Em. done. Qed.
Lemma temp_not_current n : 0 <= n < 2 ^ 64 -> TEMP n <> CURRENT.
Proof using. intros Hn E. destruct (names_parse dbname n Hn) as (_ & _ & Em & _ & Ec & _). rewrite E, Ec in Em. done. Qed.
Lemma temp_not_manifest m n : 0 <= m < 2 ^ 64 -> 0 <= n < 2 ^ 64 -> TEMP m <> MANIFEST n.
Proof using.
  intros Hm Hn E. destruct (names_parse dbname m Hm) as (_ & _ & Em & _). destruct (names_parse dbname n Hn) as (_ & _ & _ & En & _).
  rewrite E, En in Em. done.
Qed.
Lemma contents_prefix n : current_contents dbname n = kManifestPrefix ++ padded n.
Proof using.
  unfold current_contents, base_name, descriptor_file_name.
  change (string_bytes "/MANIFEST-" ++ ?x) with (x2f :: kManifestPrefix ++ x). by rewrite drop_past.
Qed.
Lemma contents_facts n :
  0 <= n < 2 ^ 64 ->
  (x2f ∉ current_contents dbname n) /\ (x5c ∉ current_contents dbname n) /\ Z.of_nat (length (current_contents dbname n)) < 4096 /\
  parse_file_name (current_contents dbname n) = Some (n, kDescriptor).
Proof using.
  intros Hn. pose proof (names_parse dbname n Hn) as (_ & _ & _ & Ep & _). destruct (padded_spec n Hn) as (HF & _ & Hp).
  apply parse_number_spec in Hp as (Hl & _). rewrite contents_prefix. split; [|split; [|split; [|by rewrite <- contents_prefix]]].
  1,2: rewrite elem_of_app; intros [H|H]; [apply list_elem_of_In in H; vm_compute in H; by decompose [or] H|];
    rewrite Forall_forall in HF; by apply HF in H.
  rewrite length_app. change (length kManifestPrefix) with 9%nat. lia.
Qed.
Lemma contents_inj m n : 0 <= m < 2 ^ 64 -> 0 <= n < 2 ^ 64 -> current_contents dbname m = current_contents dbname n -> m = n.
Proof using. intros Hm Hn E. apply manifest_inj; [done..|]. by rewrite !manifest_split, E. Qed.

(** ** Files that cannot change any more *)
Definition settled (node : Inode) (contents : bytes) : Prop :=
  i_before node = None /\ wf_disk (i_file node) = contents /\ wf_kernel (i_file node) = [] /\ wf_buffer (i_file node) = [].
Lemma settled_keeps node b c : settled node b -> keeps node c -> c = b.
Proof using.
  intros (Hb & Hd & Hk & Hf) [(n & Hn & ->)|H]; [|congruence]. unfold wf_contents. rewrite Hk, Hf, !app_nil_r, Hd in *. by apply take_ge.
Qed.
Lemma settled_visible node b : settled node b -> visible (i_file node) = b.
Proof using. intros (_ & Hd & Hk & _). unfold visible. by rewrite Hk, Hd, app_nil_r. Qed.

(** [names] lead from CURRENT to manifest [n], whose file is [i]. *)
Record points (d : Disk) (names : Names) (n : Z) (c i : nat) : Prop := {
  pt_current : names !! CURRENT = Some c;
  pt_settled : exists node, d_inodes d !! c = Some node /\ settled node (current_contents dbname n ++ [x0a]);
  pt_manifest : names !! MANIFEST n = Some i;
  pt_small : 0 <= n < 2 ^ 64 - 2
}.

Lemma sf_read_whole contents n : (length contents <= n)%nat -> sf_read (mkSequential contents []) n = (ok, contents, mkSequential [] []).
Proof using. intros H. unfold sf_read. cbn [sf_faults sf_rest]. by rewrite take_ge, drop_ge by lia. Qed.
Lemma read_current_spec d n c i r d' :
  points d (live d) n c i -> read_current dbname d = (r, d') ->
  same_names d d' /\ d_inodes d' = d_inodes d /\ (d_faults d = [] -> r = inr (current_contents dbname n)) /\
  forall base, r = inr base -> base = current_contents dbname n.
Proof using.
  intros [Hc (node & Hn & Hset) Hm Hs]. unfold read_current. destruct (open_sequential d CURRENT) as [[s|file] d1] eqn:E;
    destruct (open_sequential_spec _ _ _ _ E) as (S1 & N1 & Hf).
  - intros [= <- <-]. split; [done|]. split; [done|]. split; [|done]. intros Ef. unfold open_sequential, next_fault in E. rewrite Ef in E.
    rewrite Hc in E. cbn [mbind option_bind] in E. by rewrite Hn in E.
  - destruct (Hf file eq_refl) as (i' & node' & Hc' & Hn' & ->). rewrite Hc in Hc'. injection Hc' as <-. rewrite Hn in Hn'. injection Hn' as <-.
    rewrite (settled_visible _ _ Hset). destruct (contents_facts n) as (Hsl & Hbs & Hlen & Hp); [lia|].
    rewrite sf_read_whole by (rewrite length_app; cbn [length]; lia). change (is_ok ok) with true. cbn [negb]. rewrite last_snoc, bool_decide_true by done. cbn [negb].
    rewrite length_app. cbn [length]. replace (length (current_contents dbname n) + 1 - 1)%nat with (length (current_contents dbname n)) by lia.
    rewrite take_app_length, !bool_decide_false by done. rewrite Hp. cbn [orb]. intros [= <- <-].
    split; [done|]. split; [done|]. split; [done|]. by intros base [= <-].
Qed.

(** ** Opening *)
Definition reads_as (strict : bool) (contents : bytes) (P : State -> Prop) : Prop :=
  exists fuel edits r A, read_all fuel (LogReader_new (mkSequential contents [])) = Some (encode_to <$> edits, r) /\
    describes edits A /\ P A /\ u64_ok (a_next A) /\ a_next A < 2 ^ 64 - 2 /\ (strict = true -> damaged r = false).

Definition recoverable (strict : bool) (d : Disk) (P : State -> Prop) : Prop :=
  forall k, exists n c i node, points d (names_at d k) n c i /\ d_inodes d !! i = Some node /\
    forall contents, keeps node contents -> reads_as strict contents P.

Lemma recover_reads strict d n c i node contents P :
  d_faults d = [] -> points d (live d) n c i -> d_inodes d !! i = Some node -> visible (i_file node) = contents ->
  reads_as strict contents P ->
  exists s vs d', recover dbname VersionSet_new d = Some (s, vs, d') /\ same_names d d' /\ d_inodes d' = d_inodes d /\
    ((exists A, s = ok /\ P A /\ found vs A n /\ reads_as true contents (eq A)) \/ (strict = false /\ is_corruption s = true)).
Proof using.
  intros Hf Hpt Hn Hv (fuel & edits & r & A & Er & D & HP & Hu & Hsm & Hstrict). unfold recover.
  destruct (read_current dbname d) as [r0 d1] eqn:E0. destruct (read_current_spec _ _ _ _ _ _ Hpt E0) as (S1 & N1 & H0 & _).
  rewrite (H0 Hf). pose proof (pt_small _ _ _ _ _ Hpt) as Hs. destruct (contents_facts n) as (_ & _ & _ & Hp); [lia|].
  rewrite <- manifest_split. destruct (open_sequential d1 (MANIFEST n)) as [ro d2] eqn:E1.
  assert (ro = inr (mkSequential contents []) /\ same_names d1 d2 /\ d_inodes d2 = d_inodes d1) as (-> & S2 & N2).
  { destruct (open_sequential_spec _ _ _ _ E1) as (S2 & N2 & _). split; [|done]. unfold open_sequential, next_fault in E1.
    assert (d_faults d1 = []) as Ef1.
    { unfold read_current, open_sequential, next_fault in E0. rewrite Hf in E0. rewrite (pt_current _ _ _ _ _ Hpt) in E0.
      destruct (pt_settled _ _ _ _ _ Hpt) as (nc & Hnc & _). cbn [mbind option_bind] in E0. rewrite Hnc in E0.
      destruct (sf_read _ _) as [[s1 x] y]. repeat case_if; by injection E0 as _ <-. }
    rewrite Ef1, (same_live _ _ S1), (pt_manifest _ _ _ _ _ Hpt) in E1. cbn [mbind option_bind] in E1. rewrite N1, Hn, Hv in E1.
    by injection E1 as <- _. }
  set (r1 := LogReader_new _) in *. destruct (read_all_total (S (length contents)) r1) as [x Ex].
  { unfold unread, r1. cbn. lia. }
  pose proof (read_all_fuel _ _ _ _ _ Er Ex) as <-. cbn [sf_rest].
  rewrite (replay_reads _ _ _ _ _ Ex (ds_ok _ _ D) (ds_comparator _ _ D)). cbn [mbind option_bind].
  set (st := fold_left replay_edit edits _).
  destruct (replay_fields edits (mkReplay (Builder_new (current VersionSet_new) (compact_pointer VersionSet_new) (fresh_address VersionSet_new)) None None None None))
    as (F1 & F2 & F3 & F4 & F5). fold st in F1, F2, F3, F4, F5. cbn [r_log r_prev r_next r_last r_builder] in F1, F2, F3, F4, F5.
  pose proof (ds_log _ _ D) as D1. pose proof (ds_prev _ _ D) as D2. pose proof (ds_next _ _ D) as D3. pose proof (ds_last _ _ D) as D4.
  unfold last_of in D1, D2, D3, D4. rewrite D1 in F1. rewrite D3 in F3. rewrite D4 in F4.
  unfold replay_status. change (is_ok ok) with true. cbn [andb]. rewrite F1, F3, F4.
  assert (same_names d d2 /\ d_inodes d2 = d_inodes d) as [S3 N3] by (split; [by eapply same_trans|congruence]).
  destruct (damaged r) eqn:Ed.
  { change (is_ok (corruption ?x)) with false. cbn [negb]. eexists _, _, _. split; [done|]. split; [done|]. split; [done|]. right. split; [|done].
    destruct strict; [|done]. specialize (Hstrict eq_refl). congruence. }
  change (is_ok ok) with true. cbn [negb default from_option id]. rewrite Hp. eexists _, _, _. split; [done|]. split; [done|]. split; [done|].
  left. exists A. split; [done|]. split; [done|]. split; [|by exists fuel, edits, r, A].
  assert (has_files (Compaction.finalize (save_to (r_builder st))) (a_files A) /\ in_order (Compaction.finalize (save_to (r_builder st)))) as [G1 G2].
  { rewrite F5. by apply replayed_files. }
  unfold u64_ok in Hu.
  assert ((if a_next A <=? n then u64 (n + 1) else a_next A) = Z.max (a_next A) (n + 1)) as ->.
  { destruct (Z.leb_spec (a_next A) n); [rewrite u64_small by lia; lia|lia]. }
  split; cbn; [done|done|done| |done| |done|done|apply u64_small; lia].
  - rewrite F2. by rewrite <- D2.
  - rewrite F5, applies_pointers. by rewrite (ds_pointers _ _ D).
Qed.

(** * CURRENT and its manifest, whatever prefix of the journal lands *)
Definition named (d : Disk) (n : Z) (c i : nat) : Prop := forall k, points d (names_at d k) n c i.

Lemma named_live d n c i : named d n c i -> points d (live d) n c i.
Proof using. intros H. apply H. Qed.
Lemma points_inode d d' names n c i : d_inodes d' !! c = d_inodes d !! c -> points d names n c i -> points d' names n c i.
Proof using. intros E [H1 H2 H3 H4]. split; [done|by rewrite E|done|done]. Qed.
Lemma named_same d d' n c i : same_names d d' -> d_inodes d' !! c = d_inodes d !! c -> named d n c i -> named d' n c i.
Proof using. intros S E H k. rewrite (same_names_at _ _ _ S). apply (points_inode d); [done|]. apply H. Qed.
Lemma named_adds d d' op n c i :
  adds d d' op -> d_inodes d' !! c = d_inodes d !! c -> named d n c i ->
  apply_op (live d) op !! CURRENT = live d !! CURRENT -> apply_op (live d) op !! MANIFEST n = live d !! MANIFEST n -> named d' n c i.
Proof using.
  intros A E H H1 H2 k. rewrite (adds_names_at _ _ _ _ A). case_decide; (apply (points_inode d); [done|]); [apply H|].
  destruct (named_live _ _ _ _ H) as [P1 P2 P3 P4]. split; [congruence|done|congruence|done].
Qed.
Lemma named_apart d n c i : d_ok d -> named d n c i -> c <> i /\ (c < length (d_inodes d))%nat /\ (i < length (d_inodes d))%nat.
Proof using.
  intros Hd [P1 P2 P3 P4]%named_live. split; [|split; by eapply (wn_range _ _ (Hd (length (d_pending d))))].
  intros ->. apply (manifest_not_current n); [lia|]. by eapply (wn_inj _ _ (Hd (length (d_pending d)))).
Qed.

(** Another file of the directory is made or made anew. *)
Lemma named_create d a r d' n c i :
  d_ok d -> named d n c i -> a <> CURRENT -> a <> MANIFEST n -> create d a = (r, d') ->
  d_ok d' /\ named d' n c i /\ d_inodes d' !! i = d_inodes d !! i /\
  (forall b j, live d !! b = Some j -> a <> b -> live d' !! b = Some j /\ d_inodes d' !! j = d_inodes d !! j) /\
  match r with
  | inl s => is_ok s = false
  | inr j => j <> c /\ j <> i /\ live d' !! a = Some j /\ exists script before, d_inodes d' !! j = Some (mkInode (wf_new script) before)
  end.
Proof using.
  intros Hd Hn Hc Hm E. destruct (create_spec _ _ _ _ E Hd) as [Hd' H]. split; [done|].
  destruct (named_apart _ _ _ _ Hd Hn) as (_ & Hcl & Hil). pose proof (named_live _ _ _ _ Hn) as [P1 P2 P3 P4].
  pose proof (Hd (length (d_pending d))) as [Winj Wrange]. destruct r as [s|j].
  - destruct H as (Hs & S & N). split; [apply (named_same d); [done|by rewrite N|done]|]. rewrite N, (same_live _ _ S). done.
  - destruct H as (Hl & Hnode & Hother & [[S Ej]|[A ->]]).
    + assert (j <> c) as Hjc by (intros ->; by apply Hc; eapply Winj). assert (j <> i) as Hji by (intros ->; by apply Hm; eapply Winj).
      split; [apply (named_same d); [done|by apply Hother|done]|]. split; [by apply Hother|]. split; [|done].
      intros b k Hb Hne. rewrite (same_live _ _ S). split; [done|]. apply Hother; [|by eapply Wrange]. intros ->. apply Hne. by eapply Winj.
    + split; [apply (named_adds d _ _ _ _ _ A); [apply Hother; lia|done|by apply lookup_insert_ne|by apply lookup_insert_ne]|].
      split; [apply Hother; lia|]. split; [|split; [lia|split; [lia|done]]]. intros b k Hb Hne. rewrite (adds_live _ _ _ A). cbn [apply_op].
      split; [by rewrite lookup_insert_ne|]. pose proof (Wrange b k Hb). apply Hother; lia.
Qed.
Lemma named_put d j f synced n c i : named d n c i -> j <> c -> named (put d j f synced) n c i.
Proof using. intros Hn Hj. apply (named_same d); [apply put_same|by apply put_other|done]. Qed.
Lemma named_remove d a s d' n c i :
  d_ok d -> named d n c i -> a <> CURRENT -> a <> MANIFEST n -> remove_file d a = (s, d') ->
  d_ok d' /\ named d' n c i /\ d_inodes d' = d_inodes d.
Proof using.
  intros Hd Hn Hc Hm E. destruct (remove_spec _ _ _ _ E Hd) as (Hd' & N & [S|A]).
  - split; [done|]. split; [|done]. apply (named_same d); [done|by rewrite N|done].
  - split; [done|]. split; [|done]. apply (named_adds d _ _ _ _ _ A); [by rewrite N|done|by apply lookup_delete_ne|by apply lookup_delete_ne].
Qed.

(** ** Writing the temporary file *)
Record temp_file (d d' : Disk) (t : nat) (f : WritableFile) : Prop := {
  tf_ok : d_ok d';
  tf_same : same_names d d';
  tf_self : exists before, d_inodes d' !! t = Some (mkInode f before);
  tf_other j : j <> t -> d_inodes d' !! j = d_inodes d !! j
}.
Lemma and_then_temp d0 s d f t call synced s' d' f' :
  temp_file d0 d t f -> and_then s d f t call synced = (s', d', f') ->
  temp_file d0 d' t f' /\ (is_ok s' = true -> is_ok s = true /\ call f = (s', f') /\
    (synced = true -> d_inodes d' !! t = Some (mkInode f' None)) /\
    (forall before, d_inodes d !! t = Some (mkInode f before) -> synced = false -> d_inodes d' !! t = Some (mkInode f' before))).
Proof using.
  intros [T1 T2 (before & T3) T4]. unfold and_then. destruct (is_ok s) eqn:Es; [|intros [= <- <- <-]; split; [split; eauto|by rewrite Es]].
  destruct (call f) as [s1 f1] eqn:Ec. intros [= <- <- <-]. split.
  - split.
    + eapply same_ok; [apply put_same|done].
    + eapply same_trans; [done|apply put_same].
    + rewrite (put_self _ _ _ _ _ T3). cbn [i_before]. by eexists.
    + intros j Hj. rewrite put_other by done. by apply T4.
  - intros Hs. split; [done|]. split; [done|]. split.
    + intros ->. rewrite (put_self _ _ _ _ _ T3). by rewrite Hs.
    + intros b Hb ->. rewrite (put_self _ _ _ _ _ Hb). done.
Qed.

Lemma append_full f data s f' :
  wf_append f data = (s, f') -> is_ok s = true -> wf_open f' = true /\ wf_contents f' = wf_contents f ++ data.
Proof using.
  intros E Hs. destruct (wf_append_contents _ _ _ _ E) as (n & Ec & Hn). rewrite Ec, (Hn Hs). split; [|done].
  pose proof (wf_append_open f data) as Ho. rewrite E in Ho. cbn in Ho. unfold wf_append in E. destruct (wf_open f); [congruence|].
  cbn in E. injection E as <- _. done.
Qed.
Lemma settle_disk f : wf_contents f = wf_disk f -> wf_kernel f = [] /\ wf_buffer f = [].
Proof using.
  unfold wf_contents. intros E. rewrite <- (app_nil_r (wf_disk f)) in E at 2. apply app_inv_head in E. by apply app_eq_nil in E.
Qed.

Lemma write_temp_shape d temp contents s d' :
  d_ok d -> write_temp d temp contents = (s, d') ->
  exists r d1, create d temp = (r, d1) /\ d_ok d' /\
  match r with
  | inl s1 => s = s1 /\ d' = d1
  | inr t => same_names d1 d' /\ (forall j, j <> t -> d_inodes d' !! j = d_inodes d1 !! j) /\
      (is_ok s = true -> exists node, d_inodes d' !! t = Some node /\ settled node (contents ++ [x0a]))
  end.
Proof using.
  intros Hd. unfold write_temp. destruct (create d temp) as [r d1] eqn:Ec. destruct (create_spec _ _ _ _ Ec Hd) as [Hd1 Hr].
  intros E. exists r, d1. split; [done|]. destruct r as [s1|t]; [by simplify_eq|]. revert E.
  destruct Hr as (_ & (script & before & Hnode) & _). rewrite Hnode. cbn [fmap option_fmap option_map default from_option id i_file].
  assert (temp_file d1 d1 t (wf_new script)) as T0 by (split; [done|done|by eexists|done]).
  destruct (and_then ok d1 (wf_new script) t (λ f, wf_append f contents) false) as [[s2 d2] f2] eqn:E2.
  destruct (and_then_temp _ _ _ _ _ _ _ _ _ _ T0 E2) as [T2 H2].
  destruct (and_then s2 d2 f2 t (λ f, wf_append f [x0a]) false) as [[s3 d3] f3] eqn:E3.
  destruct (and_then_temp _ _ _ _ _ _ _ _ _ _ T2 E3) as [T3 H3].
  destruct (and_then s3 d3 f3 t wf_sync true) as [[s4 d4] f4] eqn:E4. destruct (and_then_temp _ _ _ _ _ _ _ _ _ _ T3 E4) as [T4 H4].
  destruct (and_then s4 d4 f4 t wf_close false) as [[s5 d5] f5] eqn:E5. destruct (and_then_temp _ _ _ _ _ _ _ _ _ _ T4 E5) as [[F1 F2 F3 F4] H5].
  intros [= <- <-]. split; [done|]. split; [done|]. split; [done|].
  intros Hs5. destruct (H5 Hs5) as (Hs4 & C5 & _ & N5). destruct (H4 Hs4) as (Hs3 & C4 & N4 & _). destruct (H3 Hs3) as (Hs2 & C3 & _). destruct (H2 Hs2) as (_ & C2 & _).
  destruct (append_full _ _ _ _ C2 Hs2) as [_ K2]. destruct (append_full _ _ _ _ C3 Hs3) as [O3 K3].
  pose proof (WriteGroup.sync_reaches_disk _ _ _ O3 C4 Hs4) as K4. pose proof (wf_sync_contents f3) as K4'. rewrite C4 in K4'. cbn [snd] in K4'.
  specialize (N5 None (N4 eq_refl) eq_refl). destruct (WriteGroup.close_kept f4 K4) as [K5 K5']. rewrite C5 in K5, K5'. cbn [snd] in K5, K5'.
  exists (mkInode f5 None). split; [done|].
  assert (wf_contents f5 = wf_disk f5) as K6 by congruence. destruct (settle_disk _ K6) as [Q1 Q2]. split; [done|]. split; [|done].
  cbn [i_file]. rewrite <- K6, K5, K4', K3, K2. done.
Qed.
Lemma write_temp_spec d N contents s d' n c i :
  d_ok d -> named d n c i -> 0 <= N < 2 ^ 64 -> write_temp d (TEMP N) contents = (s, d') ->
  d_ok d' /\ named d' n c i /\ d_inodes d' !! i = d_inodes d !! i /\
  (forall b j, live d !! b = Some j -> TEMP N <> b -> live d' !! b = Some j /\ d_inodes d' !! j = d_inodes d !! j) /\
  (is_ok s = true -> exists t node, live d' !! TEMP N = Some t /\ d_inodes d' !! t = Some node /\ settled node (contents ++ [x0a])).
Proof using.
  intros Hd Hn HN E. pose proof (pt_small _ _ _ _ _ (named_live _ _ _ _ Hn)) as Hsm.
  destruct (write_temp_shape _ _ _ _ _ Hd E) as (r & d1 & Ec & Hd' & Hr).
  destruct (named_create _ _ _ _ _ _ _ Hd Hn (temp_not_current N HN) (temp_not_manifest N n HN ltac:(lia)) Ec) as (Hd1 & Hn1 & Hi1 & Ho1 & Hr1).
  destruct r as [s1|t].
  { destruct Hr as [-> ->]. split_and!; try done. by rewrite Hr1. }
  destruct Hr as (F2 & F4 & Hset). destruct Hr1 as (Htc & Hti & Hlt & _).
  split; [done|]. split; [apply (named_same d1); [done|by apply F4|done]|]. split; [by rewrite F4, Hi1|]. split.
  { intros b j Hb Hne. destruct (Ho1 b j Hb Hne) as [Hl <-]. rewrite (same_live _ _ F2). split; [done|]. apply F4. intros ->.
    apply Hne. by eapply (wn_inj _ _ (Hd1 (length (d_pending d1)))). }
  intros Hs. destruct (Hset Hs) as (node & Hnode & Hst). exists t, node. by rewrite (same_live _ _ F2).
Qed.

(** ** Pointing CURRENT at another manifest *)
(** Either nothing has changed, or CURRENT names [N] and may fall back to [n]. *)
Definition half_way (d : Disk) (n : Z) (c i : nat) (N : Z) (m : nat) : Prop :=
  named d n c i \/ exists t, points d (live d) N t m /\ forall k, points d (names_at d k) n c i \/ points d (names_at d k) N t m.
Lemma half_way_same d d' n c i N m :
  same_names d d' -> d_inodes d' = d_inodes d -> half_way d n c i N m -> half_way d' n c i N m.
Proof using.
  intros S E [H|(t & H1 & H2)].
  - left. apply (named_same d); [done|by rewrite E|done].
  - right. exists t. rewrite (same_live _ _ S). split; [by apply (points_inode d); [rewrite E|]|]. intros k. rewrite (same_names_at _ _ _ S).
    destruct (H2 k) as [H|H]; [left|right]; by apply (points_inode d); [rewrite E|].
Qed.
(** Removing a name that neither needs. *)
Lemma half_way_remove d a s d' n c i N m :
  d_ok d -> half_way d n c i N m -> a <> CURRENT -> a <> MANIFEST n -> (named d n c i \/ a <> MANIFEST N) -> remove_file d a = (s, d') ->
  d_ok d' /\ half_way d' n c i N m /\ d_inodes d' = d_inodes d.
Proof using.
  intros Hd H Hc Hm HN E. destruct (remove_spec _ _ _ _ E Hd) as (Hd' & EN & HA).
  assert (named d n c i -> d_ok d' /\ half_way d' n c i N m /\ d_inodes d' = d_inodes d) as Hnamed.
  { intros Hn. destruct (named_remove _ _ _ _ _ _ _ Hd Hn Hc Hm E) as (? & ? & ?). split; [done|]. split; [by left|done]. }
  destruct H as [H|(t & H1 & H2)]; [by apply Hnamed|]. destruct HN as [H|HN]; [by apply Hnamed|].
  split; [done|]. split; [|done]. destruct HA as [S|A]; [apply (half_way_same d); [done|done|right; by exists t]|].
  assert (points d' (delete a (live d)) N t m) as Hp.
  { destruct H1 as [P1 P2 P3 P4]. split; [by rewrite lookup_delete_ne|by rewrite EN|by rewrite lookup_delete_ne|done]. }
  right. exists t. rewrite (adds_live _ _ _ A). split; [done|]. intros k. rewrite (adds_names_at _ _ _ _ A). case_decide; [|by right].
  destruct (H2 k) as [G|G]; [left|right]; by apply (points_inode d); [rewrite EN|].
Qed.

Lemma set_current_spec d N m s d' n c i :
  d_ok d -> named d n c i -> 0 <= N < 2 ^ 64 - 2 -> N <> n -> live d !! MANIFEST N = Some m -> set_current_file dbname d N = (s, d') ->
  d_ok d' /\ d_inodes d' !! i = d_inodes d !! i /\ d_inodes d' !! m = d_inodes d !! m /\
  if is_ok s then exists t, named d' N t m else half_way d' n c i N m.
Proof using.
  intros Hd Hn HN Hne Hm. unfold set_current_file. destruct (write_temp d (TEMP N) (current_contents dbname N)) as [s1 d1] eqn:E1.
  destruct (write_temp_spec d N _ _ _ n c i Hd Hn ltac:(lia) E1) as (Hd1 & Hn1 & Hi1 & Ho1 & Ht).
  destruct (Ho1 (MANIFEST N) m Hm) as [Hm1 Hm1']; [apply temp_not_manifest; lia|].
  pose proof (pt_small _ _ _ _ _ (named_live _ _ _ _ Hn)) as Hsm.
  assert (forall d2, d_ok d2 -> d_inodes d2 = d_inodes d1 -> half_way d2 n c i N m ->
    d_ok (snd (remove_file d2 (TEMP N))) /\ d_inodes (snd (remove_file d2 (TEMP N))) !! i = d_inodes d !! i /\
    d_inodes (snd (remove_file d2 (TEMP N))) !! m = d_inodes d !! m /\ half_way (snd (remove_file d2 (TEMP N))) n c i N m) as Hfail.
  { intros d2 Hd2 E2 H2. destruct (remove_file d2 (TEMP N)) as [s3 d3] eqn:E3. cbn [snd].
    destruct (half_way_remove _ _ _ _ n c i N m Hd2 H2 (temp_not_current N ltac:(lia)) (temp_not_manifest N n ltac:(lia) ltac:(lia))
      (or_intror (temp_not_manifest N N ltac:(lia) ltac:(lia))) E3) as (? & ? & E). rewrite E, E2, Hi1, Hm1'. done. }
  destruct (is_ok s1) eqn:Es1.
  2: { rewrite Es1. intros [= <- <-]. rewrite !Es1. apply Hfail; [done|done|]. by left. }
  destruct (Ht eq_refl) as (t & node & Hlt & Hnode & Hset).
  destruct (rename_file d1 (TEMP N) CURRENT) as [s2 d2] eqn:E2. destruct (rename_spec _ _ _ _ _ E2 Hd1) as (Hd2 & N2 & H2).
  destruct (is_ok s2) eqn:Es2.
  2: { rewrite Es2. intros [= <- <-]. rewrite !Es2. apply Hfail; [done|done|]. left. apply (named_same d1); [done|by rewrite N2|done]. }
  assert (points d2 (live d2) N t m) as Hp.
  { rewrite (adds_live _ _ _ H2). cbn [apply_op]. rewrite Hlt. split.
    - apply lookup_insert_eq.
    - exists node. by rewrite N2.
    - rewrite lookup_insert_ne by (apply not_eq_sym, manifest_not_current; lia). rewrite lookup_delete_ne by (apply temp_not_manifest; lia). done.
    - done. }
  destruct (sync_directory d2) as [s3 d3] eqn:E3. destruct (sync_directory_spec _ _ _ E3 Hd2) as (Hd3 & N3 & H3).
  destruct (is_ok s3) eqn:Es3; intros [= <- <-].
  - rewrite Es3. rewrite N3, N2, Hi1, Hm1'. split; [done|]. split; [done|]. split; [done|]. exists t. intros k. rewrite H3.
    by apply (points_inode d2); [rewrite N3|].
  - rewrite !Es3. apply Hfail; [done|by rewrite N3|]. apply (half_way_same d2); [done|done|]. right. exists t. split; [done|]. intros k.
    rewrite (adds_names_at _ _ _ _ H2). case_decide; [left|right].
    + apply (points_inode d1); [by rewrite N2|]. apply Hn1.
    + by rewrite <- (adds_live _ _ _ H2).
Qed.

(** CURRENT of a directory that may have none. *)
Lemma set_current_new d N m s d' :
  d_ok d -> 0 <= N < 2 ^ 64 - 2 -> live d !! MANIFEST N = Some m -> set_current_file dbname d N = (s, d') -> is_ok s = true ->
  d_ok d' /\ d_inodes d' !! m = d_inodes d !! m /\ exists t, named d' N t m.
Proof using.
  intros Hd HN Hm. unfold set_current_file. destruct (write_temp d (TEMP N) (current_contents dbname N)) as [s1 d1] eqn:E1.
  destruct (write_temp_shape _ _ _ _ _ Hd E1) as (r & d0 & Ec & Hd1 & Hr). destruct (create_spec _ _ _ _ Ec Hd) as [Hd0 Hc].
  destruct (is_ok s1) eqn:Es1; [|rewrite Es1; intros [= <- <-]; congruence].
  destruct r as [s0|t]; [destruct Hr as [-> ->]; destruct Hc as [Hc _]; congruence|]. destruct Hr as (F2 & F4 & Hset).
  destruct (Hset eq_refl) as (node & Hnode & Hst). destruct Hc as (Hlt & _ & Hother & Hor).
  assert (TEMP N <> MANIFEST N) as Hne by (apply temp_not_manifest; lia).
  pose proof (Hd (length (d_pending d))) as [Winj Wrange]. pose proof (Wrange _ _ Hm) as Hml.
  assert (m <> t /\ live d0 !! MANIFEST N = Some m) as [Hmt Hm0].
  { destruct Hor as [[S Ht]|[A ->]].
    - split; [intros ->; by apply Hne; eapply Winj|by rewrite (same_live _ _ S)].
    - split; [lia|]. rewrite (adds_live _ _ _ A). cbn [apply_op]. by rewrite lookup_insert_ne. }
  assert (d_inodes d1 !! m = d_inodes d !! m) as Hmi by (rewrite F4 by done; by apply Hother).
  destruct (rename_file d1 (TEMP N) CURRENT) as [s2 d2] eqn:E2. destruct (rename_spec _ _ _ _ _ E2 Hd1) as (Hd2 & N2 & H2).
  destruct (is_ok s2) eqn:Es2; [|rewrite Es2; intros [= <- <-]; congruence].
  destruct (sync_directory d2) as [s3 d3] eqn:E3. destruct (sync_directory_spec _ _ _ E3 Hd2) as (Hd3 & N3 & H3).
  destruct (is_ok s3) eqn:Es3; intros [= <- <-] Hs; [|congruence]. rewrite ?Es3. split; [done|]. split; [by rewrite N3, N2|]. exists t. intros k.
  rewrite H3, (adds_live _ _ _ H2). cbn [apply_op]. rewrite (same_live _ _ F2), Hlt. split.
  - apply lookup_insert_eq.
  - exists node. by rewrite N3, N2.
  - rewrite lookup_insert_ne by (apply not_eq_sym, manifest_not_current; lia). by rewrite lookup_delete_ne.
  - done.
Qed.

(** ** The log of a manifest, through to the disk *)
(** What is known of a manifest that is being written: its file is the one
    behind the writer, not yet named by CURRENT. *)
Record building (d : Disk) (log : LogWriter * nat) (N : Z) (n : Z) (c i : nat) : Prop := {
  bu_ok : d_ok d;
  bu_named : named d n c i;
  bu_live : live d !! MANIFEST N = Some (snd log);
  bu_node : exists before, d_inodes d !! (snd log) = Some (mkInode (dest_ (fst log)) before);
  bu_apart : snd log <> c /\ snd log <> i
}.
Lemma building_put d log w' synced N n c i :
  building d log N n c i -> building (put d (snd log) (dest_ w') synced) (w', snd log) N n c i.
Proof using.
  intros [B1 B2 B3 (before & B4) [B5 B6]]. split; cbn [fst snd].
  - eapply same_ok; [apply put_same|done].
  - by apply named_put.
  - by rewrite (same_live _ _ (put_same _ _ _ _)).
  - rewrite (put_self _ _ _ _ _ B4). by eexists.
  - done.
Qed.
Lemma put_keeps d j f synced i : j <> i -> d_inodes (put d j f synced) !! i = d_inodes d !! i.
Proof using. intros H. by apply put_other. Qed.

Lemma open_manifest_spec vs d n c i :
  d_ok d -> named d n c i -> n < manifest_file_number vs < 2 ^ 64 - 2 ->
  exists s d' log, open_manifest dbname vs d = Some (s, d', log) /\ d_ok d' /\ named d' n c i /\ d_inodes d' !! i = d_inodes d !! i /\
    (is_ok s = true -> exists log' frss, log = Some log' /\ building d' log' (manifest_file_number vs) n c i /\
      on_log (fst log') [snapshot_edit vs] frss).
Proof using.
  intros Hd Hn HN. pose proof (pt_small _ _ _ _ _ (named_live _ _ _ _ Hn)) as Hsm. unfold open_manifest.
  destruct (create d (MANIFEST (manifest_file_number vs))) as [r d1] eqn:Ec.
  assert (MANIFEST (manifest_file_number vs) <> MANIFEST n) as Hne by (intros E; apply manifest_inj in E; lia).
  destruct (named_create _ _ _ _ _ _ _ Hd Hn (manifest_not_current (manifest_file_number vs) ltac:(lia)) Hne Ec) as (Hd1 & Hn1 & Hi1 & _ & Hr).
  destruct r as [s|m].
  - eexists _, _, _. split; [done|]. split; [done|]. split; [done|]. split; [done|]. by rewrite Hr.
  - destruct Hr as (Hmc & Hmi & Hl & script & before & Hnode). rewrite Hnode. cbn [fmap option_fmap option_map default from_option id i_file].
    destruct (log_add_edit _ _ _ (snapshot_edit vs) (on_log_new script)) as (s & w & frs & Ea & _ & _ & _ & Hok).
    unfold log_add. cbn [fst snd]. rewrite Ea. cbn [mbind option_bind]. eexists s, _, _. split; [done|].
    assert (building d1 (LogWriter_new (wf_new script), m) (manifest_file_number vs) n c i) as B by (split; [done|done|done|by eexists|done]).
    pose proof (building_put _ _ w false _ _ _ _ B) as B'. split; [apply (bu_ok _ _ _ _ _ _ B')|]. split; [apply (bu_named _ _ _ _ _ _ B')|].
    split; [by rewrite put_keeps, Hi1|]. intros Hs. exists (w, m), [frs]. split; [done|]. split; [done|]. by apply Hok.
Qed.

(** A manifest that holds [edits], all of it on the disk. *)
Definition complete (d : Disk) (log : LogWriter * nat) (edits : list VersionEdit) : Prop :=
  (exists frss, on_log (fst log) edits frss) /\ wf_contents (dest_ (fst log)) = wf_disk (dest_ (fst log)) /\
  d_inodes d !! (snd log) = Some (mkInode (dest_ (fst log)) None).

(** The edit goes behind the snapshot of a fresh manifest. *)
Lemma write_fresh vs d log e edits frss n c i :
  building d log (manifest_file_number vs) n c i -> on_log (fst log) edits frss -> n < manifest_file_number vs < 2 ^ 64 - 2 ->
  exists s d' log', write_edit dbname vs d log e true = Some (s, d', log') /\ d_ok d' /\ d_inodes d' !! i = d_inodes d !! i /\
    snd log' = snd log /\
    if is_ok s then (exists t, named d' (manifest_file_number vs) t (snd log)) /\ complete d' log' (edits ++ [e])
    else half_way d' n c i (manifest_file_number vs) (snd log) /\ (named d' n c i \/ complete d' log' (edits ++ [e])).
Proof using.
  intros B OL HN. pose proof (pt_small _ _ _ _ _ (named_live _ _ _ _ (bu_named _ _ _ _ _ _ B))) as Hsm. unfold write_edit, log_add.
  destruct (log_add_edit _ _ _ e OL) as (s1 & w1 & frs & -> & _ & _ & Hop & Hok). cbn [mbind option_bind].
  pose proof (building_put _ _ w1 false _ _ _ _ B) as B1. destruct (bu_apart _ _ _ _ _ _ B) as [Hc Hi].
  destruct (is_ok s1) eqn:Es1.
  2: { rewrite Es1. cbn [andb]. eexists _, _, _. split; [done|]. split; [apply (bu_ok _ _ _ _ _ _ B1)|]. split; [by apply put_other|]. split; [done|].
       rewrite Es1. split; left; apply (bu_named _ _ _ _ _ _ B1). }
  unfold log_sync. cbn [fst snd]. destruct (writer_sync w1) as [s2 w2] eqn:E2.
  destruct (sync_on_log _ _ _ _ _ (Hok eq_refl) E2) as (OL2 & _ & Hdisk).
  pose proof (building_put _ _ w2 (is_ok s2) _ _ _ _ B1) as B2. cbn [snd] in B2. revert B2.
  set (d2 := put (put d (snd log) (dest_ w1) false) (snd log) (dest_ w2) (is_ok s2)). intros B2.
  assert (d_inodes d2 !! i = d_inodes d !! i) as Hi2 by (unfold d2; rewrite !put_other by done; done).
  destruct (is_ok s2) eqn:Es2.
  2: { cbn [andb]. eexists _, _, _. split; [done|]. split; [apply (bu_ok _ _ _ _ _ _ B2)|]. split; [done|]. split; [done|].
       rewrite Es2. split; left; apply (bu_named _ _ _ _ _ _ B2). }
  cbn [andb]. destruct (set_current_file dbname d2 (manifest_file_number vs)) as [s3 d3] eqn:E3.
  destruct (set_current_spec d2 (manifest_file_number vs) (snd log) _ _ n c i (bu_ok _ _ _ _ _ _ B2) (bu_named _ _ _ _ _ _ B2) ltac:(lia) ltac:(lia) (bu_live _ _ _ _ _ _ B2) E3)
    as (Hd3 & Hi3 & Hm3 & H3).
  assert (complete d3 (w2, snd log) (edits ++ [e])) as Hcomp.
  { split; [by eexists|]. split; [by apply Hdisk|]. cbn [fst snd]. rewrite Hm3. unfold d2. destruct (bu_node _ _ _ _ _ _ B1) as (before & Hb). cbn [fst snd] in Hb.
    by rewrite (put_self _ _ _ _ _ Hb). }
  eexists _, _, _. split; [done|]. split; [done|]. split; [by rewrite Hi3, Hi2|]. split; [done|]. destruct (is_ok s3); [done|]. split; [done|by right].
Qed.

(** The edit goes behind the others. *)
Lemma write_behind vs d w i e edits frss c N :
  d_ok d -> named d N c i -> on_log w edits frss -> wf_contents (dest_ w) = wf_disk (dest_ w) ->
  d_inodes d !! i = Some (mkInode (dest_ w) None) ->
  exists s d' w' frs, write_edit dbname vs d (w, i) e false = Some (s, d', (w', i)) /\ d_ok d' /\ named d' N c i /\
    d_inodes d' !! i = Some (mkInode (dest_ w') None) /\ torn (dest_ w') edits e frss frs /\
    (length (log_layout 0 frss) <= length (wf_disk (dest_ w')))%nat /\ (is_ok s = true -> complete d' (w', i) (edits ++ [e])).
Proof using.
  intros Hd Hn OL Hall Hnode. destruct (named_apart _ _ _ _ Hd Hn) as (Hci & _). unfold write_edit, log_add. cbn [fst snd].
  destruct (log_add_edit _ _ _ e OL) as (s1 & w1 & frs & -> & HT & Hdisk & Hop & Hok). cbn [mbind option_bind fst snd].
  set (d1 := put d i (dest_ w1) false).
  assert (d_ok d1 /\ named d1 N c i /\ d_inodes d1 !! i = Some (mkInode (dest_ w1) None)) as (Hd1 & Hn1 & Hnode1).
  { split; [eapply same_ok; [apply put_same|done]|]. split; [by apply named_put|]. unfold d1. by rewrite (put_self _ _ _ _ _ Hnode). }
  assert (length (log_layout 0 frss) <= length (wf_disk (dest_ w1)))%nat as Hlen.
  { by rewrite Hdisk, <- Hall, (ol_contents _ _ _ OL). }
  destruct (is_ok s1) eqn:Es1.
  2: { cbn [andb]. rewrite Es1. cbn [andb]. eexists _, _, _, frs. split; [done|]. split; [done|]. split; [done|]. split; [done|]. split; [done|]. split; [done|]. by rewrite Es1. }
  unfold log_sync. cbn [fst snd]. destruct (writer_sync w1) as [s2 w2] eqn:E2. destruct (sync_on_log _ _ _ _ _ (Hok eq_refl) E2) as (OL2 & _ & Hd2).
  destruct (sync_torn _ _ _ _ _ _ _ HT Hop E2) as [HT2 Hlen2]. rewrite andb_false_r.
  eexists s2, _, w2, frs. split; [done|]. split; [eapply same_ok; [apply put_same|done]|]. split; [by apply named_put|].
  assert (d_inodes (put d1 i (dest_ w2) (is_ok s2)) !! i = Some (mkInode (dest_ w2) None)) as Hn2.
  { rewrite (put_self _ _ _ _ _ Hnode1). cbn [i_before]. by destruct (is_ok s2). }
  split; [done|]. split; [done|]. split; [lia|]. intros Hs. split; [by eexists|]. split; [by apply Hd2|]. done.
Qed.

(** ** What such manifests read as *)
Definition fits_numbers (A : State) : Prop := u64_ok (a_next A) /\ a_next A < 2 ^ 64 - 2.
Lemma complete_node_reads w edits frss contents A (P : State -> Prop) :
  on_log w edits frss -> wf_contents (dest_ w) = wf_disk (dest_ w) -> keeps (mkInode (dest_ w) None) contents ->
  describes edits A -> P A -> fits_numbers A -> reads_as true contents P.
Proof using.
  intros OL Hall [(n & Hn & ->)|[=]] D HP [H1 H2]. cbn [i_file] in *. rewrite <- Hall in Hn. rewrite take_ge by done.
  destruct (whole_reads _ _ _ OL) as (fuel & r & Er & Hd). by exists fuel, edits, r, A.
Qed.
Lemma torn_node_reads f edits e frss frs contents A0 A1 (P : State -> Prop) :
  torn f edits e frss frs -> (length (log_layout 0 frss) <= length (wf_disk f))%nat -> keeps (mkInode f None) contents ->
  describes edits A0 -> P A0 -> fits_numbers A0 -> describes (edits ++ [e]) A1 -> P A1 -> fits_numbers A1 -> reads_as false contents P.
Proof using.
  intros HT Hlen [(n & Hn & ->)|[=]] D0 P0 [F1 F2] D1 P1 [F3 F4]. cbn [i_file] in *.
  destruct (torn_reads _ _ _ _ _ n HT ltac:(lia)) as (fuel & r & edits' & Er & [->| ->]).
  - by exists fuel, edits, r, A0.
  - by exists fuel, (edits ++ [e]), r, A1.
Qed.
Lemma reads_weaken strict contents (P Q : State -> Prop) : (forall A, P A -> Q A) -> reads_as true contents P -> reads_as strict contents Q.
Proof using. intros H (fuel & edits & r & A & H1 & H2 & H3 & H4 & H5 & H6). exists fuel, edits, r, A. split_and!; auto. Qed.

(** * The invariant of an open database

    [M] is what its version holds, [P] the states that opening it after a
    power cut may find, [had] the files the manifest has named so far. *)
Record Good (vs : VersionSet) (d : Disk) (M : Files) (P : State -> Prop) (had : list (Z * Z)) : Prop := {
  g_disk : d_ok d;
  g_files : has_files (current vs) M;
  g_order : in_order (current vs);
  g_metas : metas_ok M;
  g_pointers : pointers_ok (compact_pointer vs);
  g_numbers : u64_ok (log_number vs) /\ u64_ok (prev_log_number vs) /\ u64_ok (last_sequence vs) /\
    0 <= manifest_file_number vs < next_file_number vs /\ next_file_number vs < 2 ^ 64;
  g_had level (f : FilePtr) : f ∈ level_files (current vs) level -> (Z.of_nat level, number f) ∈ had;
  g_manifest :
    match descriptor_log vs with
    | None => had = added_pairs [snapshot_edit vs] /\ exists n c i node, n < manifest_file_number vs /\ named d n c i /\
        d_inodes d !! i = Some node /\ forall contents, keeps node contents -> reads_as true contents P
    | Some (w, i) => exists edits c A, named d (manifest_file_number vs) c i /\ complete d (w, i) edits /\
        had = added_pairs edits /\ describes edits A /\ P A /\ fits_numbers A /\ a_files A = M /\ a_pointers A = compact_pointer vs
    end
}.

Lemma good_recoverable vs d M P had : Good vs d M P had -> recoverable true d P.
Proof using.
  intros G k. pose proof (g_manifest _ _ _ _ _ G) as H. destruct (descriptor_log vs) as [[w i]|].
  - destruct H as (edits & c & A & Hn & ((frss & OL) & Hall & Hnode) & _ & D & HP & HF & _). exists (manifest_file_number vs), c, i, (mkInode (dest_ w) None).
    split; [apply Hn|]. split; [done|]. intros contents Hk. by eapply complete_node_reads.
  - destruct H as (_ & n & c & i & node & _ & Hn & Hnode & Hk). exists n, c, i, node. split; [apply Hn|done].
Qed.

(** ** Opening after a power cut *)
Lemma last_of_ok field edits n :
  (forall e k, e ∈ edits -> field e = Some k -> u64_ok k) -> last_of field edits = Some n -> u64_ok n.
Proof using.
  unfold last_of. intros He. assert (forall acc, (forall k, acc = Some k -> u64_ok k) ->
    fold_left (λ acc e, or_else (field e) acc) edits acc = Some n -> u64_ok n) as H; [|by apply H].
  induction edits as [|e edits IH]; intros acc Ha; cbn [fold_left]; [apply Ha|]. apply IH; [intros e' k H; apply He; by right|].
  intros k. destruct (field e) eqn:E; cbn [or_else]; [intros [= <-]; by apply (He e); [left|]|apply Ha].
Qed.
Lemma describes_ok edits A :
  describes edits A -> metas_ok (a_files A) /\ pointers_ok (a_pointers A) /\ u64_ok (a_log A) /\ u64_ok (a_prev A) /\ u64_ok (a_last A).
Proof using.
  intros [D1 _ _ D4 D5 D6 _ D8 D9]. rewrite Forall_forall in D1. split; [|split].
  - rewrite D4. assert (metas_ok ∅) as H0 by (intros l n m H; by rewrite lookup_empty in H). revert H0. generalize (∅ : Files). clear -D1.
    induction edits as [|e edits IH]; intros M H0; [done|]. cbn [fold_left]. apply IH; [intros x Hx; apply D1; by right|].
    apply spec_edit_ok; [apply D1; by left|done].
  - rewrite D9. assert (pointers_ok (replicate kNumLevels [])) as H0.
    { split; [apply length_replicate|]. apply Forall_replicate. by left. }
    revert H0. generalize (replicate kNumLevels ([] : bytes)). clear -D1.
    induction edits as [|e edits IH]; intros M H0; [done|]. cbn [fold_left]. apply IH; [intros x Hx; apply D1; by right|].
    apply set_pointers_ok; [apply D1; by left|done].
  - split; [|split].
    + apply (last_of_ok log_number_ edits); [|done]. intros e k He. apply eo_log. by apply D1.
    + rewrite <- D6. destruct (last_of prev_log_number_ edits) as [p|] eqn:E; [|by cbn]. cbn.
      apply (last_of_ok prev_log_number_ edits); [|done]. intros e k He. apply eo_prev. by apply D1.
    + apply (last_of_ok last_sequence_ edits); [|done]. intros e k He. apply eo_seq. by apply D1.
Qed.
Lemma settled_reopened b : settled (reopened b) b.
Proof using. by repeat split. Qed.
Lemma had_files vs M level (f : FilePtr) :
  has_files (current vs) M -> f ∈ level_files (current vs) level -> (Z.of_nat level, number f) ∈ added_pairs [snapshot_edit vs].
Proof using.
  intros (Hl & _) Hf. rewrite snapshot_pairs. apply list_elem_of_fmap. exists (Z.of_nat level, written f). split; [done|].
  apply snapshot_files_elem. exists level, f. split; [|done]. apply Nat.nle_gt. intros Hge. unfold level_files in Hf.
  rewrite lookup_ge_None_2 in Hf by lia. by apply not_elem_of_nil in Hf.
Qed.

Lemma cut_recovers strict d P image :
  d_ok d -> recoverable strict d P -> cut d image ->
  exists s vs image', recover dbname VersionSet_new image = Some (s, vs, image') /\
    ((exists A n, s = ok /\ P A /\ found vs A n /\ Good vs image' (a_files A) (eq A) (added_pairs [snapshot_edit vs])) \/
     (strict = false /\ is_corruption s = true)).
Proof using.
  intros Hd Hr (k & contents & HF & Ei). destruct (Hr k) as (n & c & i & node & [P1 (nc & Hnc & Hset) P3 P4] & Hnode & Hreads).
  destruct (Forall2_lookup_l _ _ _ _ _ HF Hnc) as (bc & Hbc & Hkc). apply (settled_keeps _ _ _ Hset) in Hkc as ->.
  destruct (Forall2_lookup_l _ _ _ _ _ HF Hnode) as (bi & Hbi & Hki). specialize (Hreads bi Hki).
  assert (forall k', names_at image k' = names_at d k) as Hnames by (intros k'; rewrite Ei; unfold names_at at 1; cbn; by rewrite take_nil).
  assert (d_ok image) as Hdi.
  { intros k'. rewrite Hnames. apply (wf_more d); [|apply Hd]. rewrite Ei. cbn. rewrite length_fmap. by rewrite (Forall2_length _ _ _ HF). }
  assert (named image n c i) as Hn.
  { intros k'. rewrite Hnames. split; [done| |done|done]. exists (reopened (current_contents dbname n ++ [x0a])). rewrite Ei. cbn.
    split; [by rewrite list_lookup_fmap, Hbc|apply settled_reopened]. }
  assert (d_inodes image !! i = Some (reopened bi)) as Hni by (rewrite Ei; cbn; by rewrite list_lookup_fmap, Hbi).
  destruct (recover_reads strict image n c i _ bi P ltac:(by rewrite Ei) (named_live _ _ _ _ Hn) Hni (settled_visible _ _ (settled_reopened bi)) Hreads)
    as (s & vs & image' & E & S' & N' & H). exists s, vs, image'. split; [done|]. destruct H as [(A & -> & HP & Hf & Hra)|H]; [left|by right].
  exists A, n. split; [done|]. split; [done|]. split; [done|]. pose proof Hf as [F1 F2 F3 F4 F5 F6 F7 F8 F10].
  destruct Hra as (fuel & edits & r & A' & Er & D & <- & Hu & Hlt & Hdam). destruct (describes_ok _ _ D) as (D1 & D2 & D3 & D4 & D5).
  split; rewrite ?F3, ?F4, ?F5, ?F6, ?F7, ?F10; try done.
  - by eapply same_ok.
  - rewrite F8. unfold u64_ok in *. split_and!; try done; lia.
  - intros level f Hlf. by eapply had_files.
  - split; [done|]. exists n, c, i, (reopened bi). split; [lia|]. split; [apply (named_same image); [done|by rewrite N'|done]|].
    split; [by rewrite N'|]. intros x Hx. apply (settled_keeps _ _ _ (settled_reopened bi)) in Hx as ->. by exists fuel, edits, r, A.
Qed.

(** ** When the first edit of a process fails *)
Lemma failed_fresh d n c i N m :
  d_ok d -> half_way d n c i N m -> n < N < 2 ^ 64 - 2 -> 0 <= n ->
  let r := read_current dbname d in
  let another := match fst r with
    | inr base => negb (bool_decide (dbname ++ string_bytes "/" ++ base = MANIFEST N))
    | inl _ => false
    end in
  let d' := if another then snd (remove_file (snd r) (MANIFEST N)) else snd r in
  d_ok d' /\ half_way d' n c i N m /\ d_inodes d' = d_inodes d /\ (named d n c i -> named d' n c i).
Proof using.
  intros Hd H HN Hn0. destruct (read_current dbname d) as [r d1] eqn:E. cbn [fst snd].
  assert (MANIFEST N <> MANIFEST n) as Hne by (intros E'; apply manifest_inj in E'; lia).
  assert (MANIFEST N <> CURRENT) as Hnc by (apply manifest_not_current; lia).
  destruct H as [H|(t & H1 & H2)].
  - destruct (read_current_spec _ _ _ _ _ _ (named_live _ _ _ _ H) E) as (S1 & N1 & _ & _).
    pose proof (same_ok _ _ S1 Hd) as Hd1. assert (named d1 n c i) as Hn1 by (apply (named_same d); [done|by rewrite N1|done]).
    destruct r as [s|base]; [split_and!; try done; by left|].
    destruct (negb _); [|split_and!; try done; by left]. destruct (remove_file d1 (MANIFEST N)) as [s d2] eqn:E2. cbn [snd].
    destruct (named_remove _ _ _ _ _ _ _ Hd1 Hn1 Hnc Hne E2) as (? & ? & Ed). rewrite Ed, N1. split_and!; try done. by left.
  - destruct (read_current_spec _ _ _ _ _ _ H1 E) as (S1 & N1 & _ & Hb). pose proof (same_ok _ _ S1 Hd) as Hd1.
    assert (match r with inr base => negb (bool_decide (dbname ++ string_bytes "/" ++ base = MANIFEST N)) | inl _ => false end = false) as ->.
    { destruct r as [s|base]; [done|]. rewrite (Hb base eq_refl), <- manifest_split. by rewrite bool_decide_true. }
    split; [done|]. split; [apply (half_way_same d); [done|done|right; by exists t]|]. split; [done|].
    intros Hn. apply (named_same d); [done|by rewrite N1|done].
Qed.

(** Both ends of a change that may have happened. *)
Lemma half_recoverable d n c i N log node edits e A (P : State -> Prop) :
  half_way d n c i N (snd log) -> named d n c i \/ complete d log (edits ++ [e]) ->
  d_inodes d !! i = Some node -> (forall contents, keeps node contents -> reads_as true contents P) ->
  describes (edits ++ [e]) A -> fits_numbers A -> recoverable false d (λ A', P A' \/ A' = A).
Proof using.
  intros Hh Hc Hnode Hreads D HF k.
  assert (points d (names_at d k) n c i -> exists n c i node, points d (names_at d k) n c i /\ d_inodes d !! i = Some node /\
    forall contents, keeps node contents -> reads_as false contents (λ A', P A' \/ A' = A)) as Hold.
  { intros Hp. exists n, c, i, node. split; [done|]. split; [done|]. intros x Hx. apply (reads_weaken _ _ P); [auto|by apply Hreads]. }
  destruct Hc as [Hn|((frss & OL) & Hall & Hm)]; [apply Hold, Hn|]. destruct Hh as [Hn|(t & _ & H)]; [apply Hold, Hn|].
  destruct (H k) as [Hp|Hp]; [by apply Hold|]. exists N, t, (snd log), (mkInode (dest_ (fst log)) None). split; [done|]. split; [done|].
  intros x Hx. apply (reads_weaken _ _ (eq A)); [intros A' <-; by right|]. by eapply complete_node_reads.
Qed.
End Names.

Section Theorem_.
Context (dbname : bytes) (vs : VersionSet) (d : Disk) (M : Files) (P : State -> Prop) (had : list (Z * Z)) (edit : VersionEdit).
Context (G : Good dbname vs d M P had) (He : edit_ok edit) (Hce : other_comparator edit = None)
  (Hfresh : NoDup (had ++ added_pairs [edit])) (Hroom : next_file_number vs < 2 ^ 64 - 2).
Abbreviation e := (complete_edit vs edit).
Abbreviation A := (installed vs M edit).

(** What a call leaves, [ok_] or not. *)
Definition leaves (ok_ : bool) (vs' : VersionSet) (d' : Disk) : Prop :=
  d_ok d' /\
  if ok_ then Good dbname vs' d' (a_files A) (eq A) (had ++ added_pairs [edit])
  else recoverable dbname false d' (λ A', P A' \/ A' = A).

Lemma e_ok : edit_ok e.
Proof using G He. clear Hroom. destruct (g_numbers _ _ _ _ _ _ G) as (N1 & N2 & N3 & N4 & N5). apply complete_ok; try done. unfold u64_ok. lia. Qed.
Lemma e_fits : fits_numbers A.
Proof using G Hroom. destruct (g_numbers _ _ _ _ _ _ G) as (N1 & N2 & N3 & N4 & N5). unfold fits_numbers, u64_ok. cbn. lia. Qed.
Lemma installed_good log bytes d' edits :
  let b := apply (Builder_new (current vs) (compact_pointer vs) (fresh_address vs)) e in
  describes (edits ++ [e]) A -> added_pairs edits = had -> d_ok d' -> (exists c, named dbname d' (manifest_file_number vs) c (snd log)) ->
  complete d' log (edits ++ [e]) ->
  Good dbname (mkSet (next_file_number vs) (manifest_file_number vs) (last_sequence vs)
    (default (log_number vs) (log_number_ e)) (default (prev_log_number vs) (prev_log_number_ e))
    (Some log) bytes (Compaction.finalize (save_to b)) (compact_pointers b) (next_address b)) d' (a_files A) (eq A) (had ++ added_pairs [edit]).
Proof using G He Hfresh Hroom.
  intros b D Hhad Hd' (c & Hn) Hcomp. destruct (describes_ok _ _ D) as (D1 & D2 & D3 & D4 & D5).
  apply NoDup_app in Hfresh as (_ & Hdis & Hnd).
  destruct (applied_installed vs M edit (g_files _ _ _ _ _ _ G) (g_order _ _ _ _ _ _ G) e_ok Hnd) as (F1 & F2 & F3).
  { intros level f Hf. apply Hdis. by apply (g_had _ _ _ _ _ _ G). }
  destruct (g_numbers _ _ _ _ _ _ G) as (N1 & N2 & N3 & N4 & N5). destruct (complete_fields vs edit) as (_ & E2 & E3 & _ & _ & _ & _ & E8).
  fold b in F1, F2, F3. cbn [a_log a_prev installed] in D3, D4.
  split; cbn [current compact_pointer log_number prev_log_number last_sequence manifest_file_number next_file_number descriptor_log]; try done.
  - by rewrite F3.
  - rewrite E2 in D3 |- *. rewrite E3 in D4 |- *. cbn [default from_option id] in D3, D4 |- *. split_and!; done || lia.
  - intros level f Hf. destruct F1 as (Hl & _ & Hm).
    assert (a_files A !! (Z.of_nat level, number f) = Some (core f)) as Hin by (apply Hm; by exists f).
    rewrite elem_of_app. cbn [a_files installed] in Hin. unfold spec_edit in Hin. rewrite E8 in Hin.
    apply spec_adds_lookup in Hin as [([l m] & Hx & [= <- <-] & _)|[_ Hin]].
    + right. unfold added_pairs. cbn [mbind list_bind]. rewrite app_nil_r. apply list_elem_of_fmap. by exists (l, m).
    + left. assert (forall ds M0 k x, fold_left (λ M d, delete d M) ds M0 !! k = Some x -> (M0 : Files) !! k = Some x) as Hdel.
      { clear. induction ds as [|y ds IH]; intros M0 k x; [done|]. cbn [fold_left]. intros H%IH. by apply lookup_delete_Some in H as [_ H]. }
      apply Hdel in Hin. destruct (g_files _ _ _ _ _ _ G) as (_ & _ & HgM). apply HgM in Hin as (g & Hg & <- & _).
      by apply (g_had _ _ _ _ _ _ G).
    + unfold added_pairs in Hnd. cbn [mbind list_bind] in Hnd. by rewrite app_nil_r in Hnd.
  - destruct log as [w m]. exists (edits ++ [e]), c, A. split; [done|]. split; [done|]. split.
    { rewrite <- Hhad. unfold added_pairs. rewrite bind_app. cbn [mbind list_bind]. by rewrite E8. }
    split; [done|]. split; [done|]. split; [apply e_fits|]. split; [done|]. by rewrite F3.
Qed.

Lemma install_fresh :
  descriptor_log vs = None -> exists s vs' d', log_and_apply dbname vs d edit = Some (s, vs', d') /\ leaves (is_ok s) vs' d'.
Proof using G He Hce Hfresh Hroom.
  intros Ed. pose proof (g_manifest _ _ _ _ _ _ G) as Hg. rewrite Ed in Hg. destruct Hg as (Hhad & n & c & i & node & Hlt & Hn & Hnode & Hreads).
  destruct (g_numbers _ _ _ _ _ _ G) as (N1 & N2 & N3 & N4 & N5). pose proof (pt_small _ _ _ _ _ _ (named_live _ _ _ _ _ Hn)) as Hsm.
  pose proof (snapshot_edit_ok vs M (g_files _ _ _ _ _ _ G) (g_metas _ _ _ _ _ _ G) (g_pointers _ _ _ _ _ _ G)) as Hsok.
  destruct (snapshot_numbers vs) as (Hsc & _).
  assert (describes ([snapshot_edit vs] ++ [e]) A) as D.
  { apply describes_installed.
    - apply Forall_app. split; apply Forall_singleton; [done|apply e_ok].
    - by apply Forall_singleton.
    - done.
    - by rewrite <- Hhad.
    - cbn [fold_left]. by apply snapshot_spec; [apply (g_files _ _ _ _ _ _ G)|apply (g_order _ _ _ _ _ _ G)].
    - cbn [fold_left]. apply snapshot_pointers, (g_pointers _ _ _ _ _ _ G). }
  assert (forall d1 log, d_ok d1 -> half_way dbname d1 n c i (manifest_file_number vs) (snd log) ->
    (named dbname d1 n c i \/ complete d1 log ([snapshot_edit vs] ++ [e])) -> d_inodes d1 !! i = Some node ->
    let r := read_current dbname d1 in
    let another := match fst r with
      | inr base => negb (bool_decide (dbname ++ string_bytes "/" ++ base = descriptor_file_name dbname (manifest_file_number vs)))
      | inl _ => false
      end in
    forall vs', leaves false vs' (if another then snd (remove_file (snd r) (descriptor_file_name dbname (manifest_file_number vs))) else snd r)) as Hfail.
  { intros d1 log Hd1 Hh Hc Hi r another vs'. destruct (failed_fresh dbname d1 n c i (manifest_file_number vs) (snd log) Hd1 Hh ltac:(lia) ltac:(lia))
      as (Hd2 & Hh2 & N & Hn2). fold r another in Hd2, Hh2, N, Hn2. split; [done|].
    apply (half_recoverable dbname _ n c i (manifest_file_number vs) log node [snapshot_edit vs] e A P Hh2).
    - destruct Hc as [Hc|(Hc1 & Hc2 & Hc3)]; [left; by apply Hn2|right]. split; [done|]. split; [done|]. by rewrite N.
    - by rewrite N.
    - done.
    - done.
    - apply e_fits. }
  unfold log_and_apply. rewrite Ed. rewrite bool_decide_true by done.
  destruct (open_manifest_spec dbname vs d n c i (g_disk _ _ _ _ _ _ G) Hn ltac:(lia)) as (s1 & d1 & log1 & -> & Hd1 & Hn1 & Hi1 & Hok1).
  cbn [mbind option_bind]. rewrite Hnode in Hi1.
  destruct (is_ok s1) eqn:Es1.
  2: { assert (exists m, match log1 with Some log => Some (s1, d1, Some log) | None => Some (s1, d1, None) end = Some (s1, d1, m)) as [m Em]
         by (destruct log1; by eexists).
       destruct log1 as [log1|]; cbn [mbind option_bind]; rewrite Es1.
       all: destruct (read_current dbname d1) as [named1 d2] eqn:Er; eexists _, _, _; (split; [done|]); rewrite Es1.
       all: pose proof (Hfail d1 (LogWriter_new (wf_new []), 0%nat) Hd1 (or_introl Hn1) (or_introl Hn1) Hi1) as Hl; rewrite Er in Hl; apply Hl. }
  destruct (Hok1 eq_refl) as (log & frss & -> & B & OL).
  destruct (write_fresh dbname vs d1 log e _ _ n c i B OL ltac:(lia)) as (s2 & d2 & log2 & -> & Hd2 & Hi2 & Esnd & H2).
  cbn [mbind option_bind]. rewrite Hi1 in Hi2. rewrite <- Esnd in H2. destruct (is_ok s2) eqn:Es2.
  - destruct H2 as [Hn2 Hcomp]. eexists _, _, _. split; [done|]. rewrite Es2. split; [done|].
    by eapply (installed_good log2 _ d2 [snapshot_edit vs]).
  - destruct H2 as [Hh Hc]. destruct (read_current dbname d2) as [named2 d3] eqn:Er. eexists _, _, _. split; [done|]. rewrite Es2.
    pose proof (Hfail d2 log2 Hd2 Hh Hc Hi2) as Hl. rewrite Er in Hl. apply Hl.
Qed.

Lemma install_behind w i :
  descriptor_log vs = Some (w, i) -> exists s vs' d', log_and_apply dbname vs d edit = Some (s, vs', d') /\ leaves (is_ok s) vs' d'.
Proof using G He Hce Hfresh Hroom.
  intros Ed. pose proof (g_manifest _ _ _ _ _ _ G) as Hg. rewrite Ed in Hg.
  destruct Hg as (edits & c & A0 & Hn & ((frss & OL) & Hall & Hnode) & Hhad & D0 & HP & HF0 & HM & Hcp). cbn [fst snd] in *.
  assert (describes (edits ++ [e]) A) as D.
  { apply describes_installed.
    - apply Forall_app. split; [apply (ds_ok _ _ D0)|]. apply Forall_singleton, e_ok.
    - apply (ds_comparator _ _ D0).
    - done.
    - by rewrite <- Hhad.
    - by rewrite <- (ds_files _ _ D0).
    - by rewrite <- (ds_pointers _ _ D0). }
  unfold log_and_apply. rewrite Ed. rewrite bool_decide_false by done. cbn [mbind option_bind]. change (is_ok ok) with true.
  destruct (write_behind dbname vs d w i e edits frss c (manifest_file_number vs) (g_disk _ _ _ _ _ _ G) Hn OL Hall Hnode)
    as (s & d' & w' & frs & -> & Hd' & Hn' & Hnode' & HT & Hlen & Hok).
  cbn [mbind option_bind]. destruct (is_ok s) eqn:Es.
  - eexists _, _, _. split; [done|]. rewrite Es. split; [done|]. by apply (installed_good (w', i) _ d' edits); [| |done|exists c|apply Hok].
  - eexists _, _, _. split; [done|]. rewrite Es. split; [done|]. intros k. exists (manifest_file_number vs), c, i, (mkInode (dest_ w') None).
    split; [apply Hn'|]. split; [done|]. intros contents Hk.
    apply (torn_node_reads (dest_ w') edits e frss frs contents A0 A); try done; [by left|by right|apply e_fits].
Qed.
End Theorem_.

(** ** A new database *)
Definition first_edit : VersionEdit :=
  set_last_sequence (set_next_file (set_log_number (set_comparator_name clear (string_bytes (name internal_key_comparator))) 0) 2) 0.
Definition empty_state : State := mkState ∅ 0 0 2 0 (replicate kNumLevels []).
Lemma first_describes : describes [first_edit] empty_state.
Proof.
  split; try done.
  - apply Forall_singleton. unfold first_edit. split; cbn; try done; try (intros n [= <-]; unfold u64_ok; lia).
    + intros n [= <-]. vm_compute. reflexivity.
    + split; constructor.
  - apply Forall_singleton. unfold other_comparator, first_edit. cbn [comparator_ set_last_sequence set_next_file set_log_number set_comparator_name]. by rewrite bool_decide_true.
  - constructor.
Qed.
Lemma new_db_recoverable dbname d bytes d' s :
  d_ok d -> new_db dbname d = Some (s, bytes, d') -> is_ok s = true -> d_ok d' /\ recoverable dbname true d' (eq empty_state).
Proof.
  intros Hd. unfold new_db. fold first_edit. destruct (create d (descriptor_file_name dbname 1)) as [r d1] eqn:Ec.
  destruct (create_spec _ _ _ _ Ec Hd) as [Hd1 Hr]. destruct r as [s1|m]; [destruct Hr as [Hr _]; intros [= <- _ _]; congruence|].
  destruct Hr as (Hl & (script & before & Hnode) & _). rewrite Hnode. cbn [fmap option_fmap option_map default from_option id i_file].
  destruct (log_add_edit _ _ _ first_edit (on_log_new script)) as (s2 & w & frs & Ea & _ & _ & _ & Hok).
  unfold log_add. cbn [fst snd]. rewrite Ea. cbn [mbind option_bind]. set (d2 := put d1 m (dest_ w) false).
  assert (d_ok d2 /\ live d2 !! descriptor_file_name dbname 1 = Some m /\ d_inodes d2 !! m = Some (mkInode (dest_ w) before)) as (Hd2 & Hl2 & Hn2).
  { split; [eapply same_ok; [apply put_same|done]|]. unfold d2.
    split; [by rewrite (same_live _ _ (put_same _ _ _ _))|]. by rewrite (put_self _ _ _ _ _ Hnode). }
  destruct (is_ok s2) eqn:Es2; [|rewrite Es2, Es2; intros [= <- _ _]; congruence]. unfold log_sync. cbn [fst snd].
  destruct (writer_sync w) as [s3 w3] eqn:E3. destruct (sync_on_log _ _ _ _ _ (Hok eq_refl) E3) as (OL3 & _ & Hdisk).
  destruct (is_ok s3) eqn:Es3; [|rewrite Es3; intros [= <- _ _]; congruence]. cbn [fst snd].
  destruct (writer_close w3) as [s4 w4] eqn:E4. destruct (is_ok s4) eqn:Es4; [|intros [= <- _ _]; congruence].
  set (d4 := put (put d2 m (dest_ w3) true) m (dest_ w4) false).
  assert (d_ok d4 /\ live d4 !! descriptor_file_name dbname 1 = Some m /\ d_inodes d4 !! m = Some (mkInode (dest_ w4) None)) as (Hd4 & Hl4 & Hn4).
  { split; [eapply same_ok; [apply put_same|]; eapply same_ok; [apply put_same|done]|].
    unfold d4. split; [by rewrite !(same_live _ _ (put_same _ _ _ _))|]. by rewrite (put_self _ _ _ _ _ (put_self _ _ _ _ _ Hn2)). }
  cbn [fst snd]. fold d4. destruct (set_current_file dbname d4 1) as [s5 d5] eqn:E5. intros [= <- _ <-] Hs5.
  destruct (set_current_new dbname d4 1 m s5 d5 Hd4 ltac:(lia) Hl4 E5 Hs5) as (Hd5 & Hm5 & t & Hnamed). split; [done|].
  intros k. exists 1, t, m, (mkInode (dest_ w4) None). split; [apply Hnamed|]. split; [by rewrite Hm5|].
  unfold writer_close in E4. pose proof (Hdisk eq_refl) as Hall. destruct (WriteGroup.close_kept (dest_ w3) Hall) as [K1 K2].
  destruct (wf_close (dest_ w3)) as [s6 f6]. cbn [snd] in K1, K2. injection E4 as <- <-. cbn [dest_].
  intros contents [(n & Hn & ->)|[=]]. cbn [i_file] in *. rewrite K2 in Hn. rewrite K1, take_ge by (by rewrite Hall).
  destruct (whole_reads _ _ _ OL3) as (fuel & r & Er & Hdam). exists fuel, [first_edit], r, empty_state.
  split; [done|]. split; [apply first_describes|]. split; [done|]. split; [unfold u64_ok; cbn; lia|]. split; [cbn; lia|done].
Qed.

(** What a call of [log_and_apply] does, in all cases. *)
Lemma log_and_apply_atomic dbname vs d M P had edit :
  Good dbname vs d M P had -> edit_ok edit -> other_comparator edit = None -> NoDup (had ++ added_pairs [edit]) ->
  next_file_number vs < 2 ^ 64 - 2 ->
  let A := installed vs M edit in
  exists s vs' d', log_and_apply dbname vs d edit = Some (s, vs', d') /\
    (is_ok s = true -> Good dbname vs' d' (a_files A) (eq A) (had ++ added_pairs [edit])) /\
    forall image, cut d' image -> exists s' vs0 image', recover dbname VersionSet_new image = Some (s', vs0, image') /\
      ((exists A' n, s' = ok /\ (A' = A \/ is_ok s = false /\ P A') /\ found vs0 A' n /\
          Good dbname vs0 image' (a_files A') (eq A') (added_pairs [snapshot_edit vs0])) \/
       (is_ok s = false /\ is_corruption s' = true)).
Proof.
  intros G He Hce Hfresh Hroom A.
  assert (exists s vs' d', log_and_apply dbname vs d edit = Some (s, vs', d') /\ leaves dbname vs M P had edit (is_ok s) vs' d') as (s & vs' & d' & E & Hd' & H).
  { destruct (descriptor_log vs) as [[w i]|] eqn:Ed; [by eapply install_behind|by eapply install_fresh]. }
  exists s, vs', d'. split; [done|]. destruct (is_ok s) eqn:Es.
  - split; [done|]. intros image Hc. destruct (cut_recovers dbname true d' (eq A) image Hd' (good_recoverable _ _ _ _ _ _ H) Hc)
      as (s' & vs0 & image' & Er & [(A' & n & -> & <- & Hf & HG)|[? _]]); [|done].
    exists ok, vs0, image'. split; [done|]. left. exists A, n. auto.
  - split; [done|]. intros image Hc. destruct (cut_recovers dbname false d' _ image Hd' H Hc) as (s' & vs0 & image' & Er & HR).
    exists s', vs0, image'. split; [done|]. destruct HR as [(A' & n & -> & HP & Hf & HG)|[_ ?]]; [left|by right].
    exists A', n. split; [done|]. split; [|done]. destruct HP; auto.
Qed.

(** * Theorem *)


(** A new database, opened after a power cut, and a table added to it. *)
Definition sample_disk : Disk := mkDisk [] ∅ [] [] [].
Definition sample_name : bytes := string_bytes "db".
Definition sample_image : Disk :=
  match new_db sample_name sample_disk with
  | Some (_, _, d) => mkDisk (reopened ∘ wf_contents ∘ i_file <$> d_inodes d) (names_at d 0) [] [] []
  | None => sample_disk
  end.
Definition sample_set : VersionSet :=
  match recover sample_name VersionSet_new sample_image with Some (_, vs, _) => vs | None => VersionSet_new end.
Lemma sample_disk_ok : d_ok sample_disk.
Proof. intros k. unfold names_at. cbn. rewrite take_nil. cbn. split; intros *; by rewrite lookup_empty. Qed.
Lemma sample_good :
  exists d', recover sample_name VersionSet_new sample_image = Some (ok, sample_set, d') /\
    Good sample_name sample_set d' ∅ (eq empty_state) [].
Proof.
  destruct (new_db sample_name sample_disk) as [[[s b] d]|] eqn:E; [|vm_compute in E; discriminate].
  assert (is_ok s = true) as Hs.
  { assert ((λ x, is_ok x.1.1) <$> new_db sample_name sample_disk = Some true) as Hv by (vm_compute; reflexivity). rewrite E in Hv. by injection Hv. }
  destruct (new_db_recoverable sample_name sample_disk b d s sample_disk_ok E Hs) as [Hd Hr].
  destruct (cut_recovers sample_name true d (eq empty_state) sample_image Hd Hr) as (s' & vs & d' & Er & [(A & n & -> & <- & Hf & HG)|[? _]]); [| |done].
  - exists 0%nat, ((wf_contents ∘ i_file) <$> d_inodes d). split; [|unfold sample_image; rewrite E; by rewrite <- list_fmap_compose].
    clear. induction (d_inodes d) as [|node l IH]; constructor; [|done]. left. exists (length (wf_contents (i_file node))).
    split; [unfold wf_contents; rewrite length_app; lia|]. by rewrite firstn_all.
  - exists d'. assert (sample_set = vs) as Ev by (unfold sample_set; by rewrite Er). rewrite Ev. split; [done|].
    assert (added_pairs [snapshot_edit sample_set] = []) as Eh by (vm_compute; reflexivity). rewrite Ev in Eh. by rewrite Eh in HG.
Qed.
End ManifestSafe.
