(* ===== verification/BuildTable.v ===== *)
(** Writing a memtable out as a table file (src/src/builder.cpp), whatever the
    calls on the file and on the directory do: the file is there in full and
    for good before anything names it, or it is reported and removed. *)
From stdpp Require Import gmap.
From S2P Require Import Prelude Status File Encoding DbFormat Comparator Bloom FilterBlock BlockBuilder Iterator Format TableBuilder Table TwoLevelIterator.
From S2P Require Import Filename VersionEdit MemTable CacheClient WriteGroup VersionGet TableCache Disk Manifest ManifestSafe.
Import Status File Encoding DbFormat Comparator Bloom Iterator Format Filename VersionEdit Disk.
Local Open Scope Z_scope.

Module BuildTable.
Import TableBuilder.TableBuilder.

(** * build_table *)
Section Build.
Context (dbname : bytes) (options : Options) (address : BlockHandle -> Z) (cap : nat).
Abbreviation TableCache := (TableCache.TableCache Table.Rep).

(** [RandomAccessFile::open] of a table; reads of a file that opened succeed. *)
Definition open_file (d : Disk) (failed : bool) (n : Z) : Status + RandomAccessFile :=
  if failed then inl (io_error "cannot open for reading")
  else match live d !! table_file_name dbname n ≫= λ i, d_inodes d !! i with
  | Some node => inr (local_file (visible (i_file node)) [])
  | None => inl (io_error "cannot open for reading")
  end.

(** [TableCache::new_iterator], the status of the iterator, and its
    destruction. *)
Definition check_table (d : Disk) (c : TableCache) (n file_size : Z) : option (Status * Disk * TableCache) :=
  let (failed, d) := next_fault d in
  '(found, c) ← TableCache.find (TableCache.open_table address options (open_file d failed)) cap c n file_size;
  match found with
  | inl s => Some (s, d, c)
  | inr a =>
      e ← TableCache.heap c !! a;
      let ops := Block.Block.block_iterator (Table.rep_comparator (TableCache.table e)) in
      let s := TwoLevelIterator.status ops ops (Table.new_iterator (TableCache.table e)) in
      c ← TableCache.release c a;
      Some (s, d, c)
  end.

Definition set_file_size (m : FileMetaData) (n : Z) : FileMetaData :=
  mkFile (number m) n (smallest m) (largest m) (allowed_seeks m) (refs m).
Definition set_smallest (m : FileMetaData) (key : bytes) : FileMetaData :=
  mkFile (number m) (VersionEdit.file_size m) key (largest m) (allowed_seeks m) (refs m).
Definition set_largest (m : FileMetaData) (key : bytes) : FileMetaData :=
  mkFile (number m) (VersionEdit.file_size m) (smallest m) key (allowed_seeks m) (refs m).

Section Loop.
Context {I : Type} (ops : Iterator I).
(** The loop over the iterator, and [largest] after it. *)
Fixpoint add_all (fuel : nat) (it : I) (t : TableBuilder) (largest : bytes) : option (I * TableBuilder * bytes) :=
  match fuel with
  | O => None
  | S fuel =>
      if it_valid ops it then
        let largest := it_key ops it in
        value ← it_value ops it;
        t ← add t (it_key ops it) value;
        it ← it_next ops it;
        add_all fuel it t largest
      else Some (it, t, largest)
  end.

(** [sync] and [close] after [finish], each only if all before it went well; the
    file's destructor closes it in any case. *)
Definition settle_file (d : Disk) (i : nat) (t : TableBuilder) (s : Status) : Status * Disk :=
  let d := put d i (file_ t) false in
  let '(s, d, f) := Manifest.and_then s d (file_ t) i wf_sync true in
  let '(s, d, f) := Manifest.and_then s d f i wf_close false in
  (s, put d i (snd (wf_close f)) false).
(** And the directory. *)
Definition settle (d : Disk) (i : nat) (t : TableBuilder) (s : Status) : Status * Disk :=
  let (s, d) := settle_file d i t s in
  if is_ok s then sync_directory d else (s, d).

Definition build_table (fuel : nat) (it : I) (meta : FileMetaData) (d : Disk) (c : TableCache) :
    option (Status * FileMetaData * Disk * TableCache) :=
  let meta := set_file_size meta 0 in
  it ← it_seek_to_first ops it;
  if negb (it_valid ops it) then Some (it_status ops it, meta, d, c)
  else
    let path := table_file_name dbname (number meta) in
    match create d path with
    | (inl s, d) => Some (s, meta, d, c)
    | (inr i, d) =>
        let f := default (wf_new []) (i_file <$> d_inodes d !! i) in
        t ← TableBuilder_new options f internal_key_comparator;
        let meta := set_smallest meta (it_key ops it) in
        '(it, t, largest) ← add_all fuel it t [];
        let meta := set_largest meta largest in
        '(s, t) ← finish t;
        let meta := if is_ok s then set_file_size meta (file_size t) else meta in
        let (s, d) := settle d i t s in
        let s := if is_ok s then it_status ops it else s in
        '(s, d, c) ←
          (if is_ok s && (0 <? VersionEdit.file_size meta)
           then check_table d c (number meta) (VersionEdit.file_size meta) else Some (s, d, c));
        let d := if is_ok s then d else snd (remove_file d path) in
        Some (s, meta, d, c)
    end.
End Loop.
End Build.

(** * A builder over a file that may fail

    It does what one over a file that never fails does, until a call fails;
    from then on it does nothing, and says so. *)
Lemma append_ok f data s f' : wf_append f data = (s, f') -> is_ok s = true -> s = ok /\ wf_contents f' = wf_contents f ++ data.
Proof.
  intros E Hs. destruct (wf_append_contents _ _ _ _ E) as (n & Ec & Hn). rewrite (Hn Hs) in Ec. split; [|done].
  unfold wf_append in E. destruct (wf_open f); cbn [negb] in E; [|by simplify_eq]. destruct (wf_next_fault f) as [[k|] g]; by simplify_eq.
Qed.
Lemma flush_ok f s f' : wf_flush f = (s, f') -> is_ok s = true -> s = ok /\ wf_contents f' = wf_contents f.
Proof.
  intros E Hs. pose proof (wf_flush_contents f) as Hc. rewrite E in Hc. split; [|done].
  unfold wf_flush in E. destruct (wf_open f); cbn [negb] in E; [|by simplify_eq]. destruct (wf_next_fault f) as [[k|] g]; by simplify_eq.
Qed.
Lemma flush_healthy f : wf_healthy f -> exists f', wf_flush f = (ok, f') /\ wf_healthy f' /\ wf_contents f' = wf_contents f.
Proof.
  intros [Ho Hf]. pose proof (wf_flush_contents f) as Hc. unfold wf_flush, wf_next_fault in *. rewrite Ho, Hf in *. cbn [negb] in *. by eexists.
Qed.

(** The filters of the blocks before [offset_] are there. *)
Definition caught_up (t : TableBuilder) : Prop :=
  forall fb, filter_block_ t = Some fb -> offset_ t .>> FilterBlock.kFilterBaseLog <= Z.of_nat (length (FilterBlock.filter_offsets_ fb)).
(** [t] is [u] over another file with the same contents. *)
Definition same_but_file (t u : TableBuilder) : Prop :=
  t = set_file u ok (file_ t) /\ wf_contents (file_ t) = wf_contents (file_ u).
Record fine (u : TableBuilder) : Prop := {
  fi_healthy : wf_healthy (file_ u);
  fi_status : status_ u = ok;
  fi_filters : caught_up u
}.
Definition mirrors (t u : TableBuilder) : Prop := is_ok (status_ t) = false \/ (fine u /\ same_but_file t u).

Lemma write_raw_mirrors t u contents type :
  same_but_file t u -> wf_healthy (file_ u) -> status_ u = ok ->
  let '(t', h) := write_raw_block t contents type in
  let '(u', h') := write_raw_block u contents type in
  h = h' /\ wf_healthy (file_ u') /\ status_ u' = ok /\ filter_block_ u' = filter_block_ u /\
  (if is_ok (status_ t') then same_but_file t' u' else offset_ t' = offset_ u /\ filter_block_ t' = filter_block_ u).
Proof.
  intros [Et Ec] Hh Hs. unfold write_raw_block.
  destruct (wf_append_ok (file_ u) contents Hh) as (g1 & -> & H1 & C1). cbn [status_ set_file]. change (is_ok ok) with true. cbn [negb file_ set_file].
  destruct (wf_append_ok g1 (block_trailer contents type) H1) as (g2 & -> & H2 & C2). cbn [status_ set_file]. change (is_ok ok) with true. cbn [set_offset].
  destruct (wf_append (file_ t) contents) as [s1 f1] eqn:E1. cbn [status_ set_file file_].
  destruct (is_ok s1) eqn:Es1; cbn [negb].
  2: { cbn [status_ set_file]. rewrite Es1. rewrite Et. by cbn. }
  destruct (append_ok _ _ _ _ E1 Es1) as [-> D1].
  destruct (wf_append f1 (block_trailer contents type)) as [s2 f2] eqn:E2. cbn [status_ set_file file_].
  destruct (is_ok s2) eqn:Es2; cbn [set_offset status_ set_file]; rewrite Es2.
  2: { rewrite Et. by cbn. }
  destruct (append_ok _ _ _ _ E2 Es2) as [-> D2]. cbn [file_ set_file set_offset].
  split_and!; [by rewrite Et|done|done|done|]. split; [by rewrite Et|]. cbn. by rewrite D2, D1, C2, C1, Ec.
Qed.
Lemma write_block_mirrors t u block c u' h b :
  same_but_file t u -> wf_healthy (file_ u) -> status_ u = ok -> write_block u block c = Some (u', h, b) ->
  exists t', write_block t block c = Some (t', h, b) /\ wf_healthy (file_ u') /\ status_ u' = ok /\ filter_block_ u' = filter_block_ u /\
  (if is_ok (status_ t') then same_but_file t' u' else offset_ t' = offset_ u /\ filter_block_ t' = filter_block_ u).
Proof.
  intros Hm Hh Hs. unfold write_block. pose proof Hm as [Et _].
  assert (options_ t = options_ u) as -> by (by rewrite Et).
  destruct (encode_block _ _ _) as [[contents type]|]; [|done]. cbn [mbind option_bind].
  pose proof (write_raw_mirrors t u contents type Hm Hh Hs) as H.
  destruct (write_raw_block t contents type) as [t' h1]. destruct (write_raw_block u contents type) as [u1 h2].
  destruct H as (-> & H1 & H2 & H3 & H4). intros [= <- <- <-]. by exists t'.
Qed.

Lemma start_loop_length fuel w fb fb' :
  FilterBlock.start_block_loop fuel w fb = Some fb' -> w <= Z.of_nat (length (FilterBlock.filter_offsets_ fb)) + Z.of_nat fuel ->
  w <= Z.of_nat (length (FilterBlock.filter_offsets_ fb')).
Proof.
  revert fb. induction fuel as [|fuel IH]; intros fb; cbn [FilterBlock.start_block_loop]; [intros [= <-]; lia|].
  destruct (Z.ltb_spec (Z.of_nat (length (FilterBlock.filter_offsets_ fb))) w); [|intros [= <-] _; lia].
  destruct (FilterBlock.generate_filter fb) as [fb1|] eqn:E; [|done]. cbn [mbind option_bind]. intros E' Hw. apply (IH fb1 E').
  assert (length (FilterBlock.filter_offsets_ fb1) = S (length (FilterBlock.filter_offsets_ fb))) as ->; [|lia].
  unfold FilterBlock.generate_filter in E. destruct (_ =? _)%nat; [injection E as <-; cbn; rewrite length_app; cbn; lia|].
  destruct (create_filter _ _ _); [|done]. injection E as <-. cbn. rewrite length_app. cbn. lia.
Qed.
Lemma start_block_length fb offset fb' :
  FilterBlock.start_block fb offset = Some fb' -> offset .>> FilterBlock.kFilterBaseLog <= Z.of_nat (length (FilterBlock.filter_offsets_ fb')).
Proof. unfold FilterBlock.start_block. intros E. apply (start_loop_length _ _ _ _ E). lia. Qed.
Lemma start_block_idle fb offset :
  offset .>> FilterBlock.kFilterBaseLog <= Z.of_nat (length (FilterBlock.filter_offsets_ fb)) -> FilterBlock.start_block fb offset = Some fb.
Proof.
  intros H. unfold FilterBlock.start_block. destruct (Z.to_nat _); [done|]. cbn [FilterBlock.start_block_loop].
  by rewrite (proj2 (Z.ltb_ge _ _)) by done.
Qed.

Lemma same_set_filter t u fb : same_but_file t u -> same_but_file (set_filter_block t fb) (set_filter_block u fb).
Proof. intros [E1 E2]. split; [by rewrite E1|done]. Qed.

Lemma flush_mirrors t u u' : mirrors t u -> flush u = Some u' -> exists t', flush t = Some t' /\ mirrors t' u'.
Proof.
  intros [Hf|[[Hh Hs Hc] Hm]].
  { intros _. exists t. unfold flush. rewrite Hf. split; [done|by left]. }
  pose proof Hm as [Et Ec]. unfold flush. rewrite Hs. assert (status_ t = ok) as -> by (by rewrite Et).
  change (is_ok ok) with true. cbn [negb]. assert (data_block_ t = data_block_ u) as -> by (by rewrite Et).
  destruct (BlockBuilder.empty _); [intros [= <-]; exists t; split; [done|by right]|].
  destruct (write_block u _ _) as [[[u1 h] b]|] eqn:Ew; [|done]. cbn [mbind option_bind].
  destruct (write_block_mirrors t u _ _ _ _ _ Hm Hh Hs Ew) as (t1 & -> & H1 & S1 & F1 & H). cbn [mbind option_bind].
  cbn [status_ set_pending set_data_block]. rewrite S1. change (is_ok ok) with true. cbn [file_ set_pending set_data_block].
  destruct (flush_healthy (file_ u1) H1) as (g & -> & Hg & Cg). cbn [filter_block_ set_file set_pending set_data_block offset_].
  destruct (is_ok (status_ t1)) eqn:Es1.
  - destruct H as [Et1 Ec1]. destruct (wf_flush (file_ t1)) as [s f] eqn:Ef. cbn [filter_block_ set_file set_pending set_data_block offset_].
    assert (filter_block_ t1 = filter_block_ u1) as -> by (by rewrite Et1). assert (offset_ t1 = offset_ u1) as -> by (by rewrite Et1).
    assert (is_ok s = true -> same_but_file (set_file (set_pending (set_pending (set_data_block t1 b) (pending_index_entry_ t1) h) true h) s f)
      (set_file (set_pending (set_pending (set_data_block u1 b) (pending_index_entry_ u1) h) true h) ok g)) as Hsame.
    { intros Es. destruct (flush_ok _ _ _ Ef Es) as [-> Cf]. split; [by rewrite Et1|]. cbn. by rewrite Cf, Cg. }
    destruct (filter_block_ u1) as [fb|] eqn:Efb.
    + destruct (FilterBlock.start_block fb (offset_ u1)) as [fb'|] eqn:Eb; [|done]. cbn [mbind option_bind]. intros [= <-].
      eexists. split; [done|]. destruct (is_ok s) eqn:Es; [right|by left]. split; [|by apply same_set_filter, Hsame]. split; [done|done|].
      intros fb0 [= <-]. by apply start_block_length in Eb.
    + intros [= <-]. eexists. split; [done|]. destruct (is_ok s) eqn:Es; [right|by left]. split.
      * split; [done|done|]. intros fb0. cbn. by rewrite Efb.
      * by apply Hsame.
  - destruct H as [Eo Efb]. intros _. cbn [filter_block_ offset_ set_pending set_data_block]. rewrite Efb, Eo.
    destruct (filter_block_ u) as [fb|] eqn:Efu; [|eexists; split; [done|by left]].
    rewrite (start_block_idle fb _ (Hc fb Efu)). cbn [mbind option_bind]. eexists. split; [done|by left].
Qed.

Lemma add_mirrors t u k v u' : mirrors t u -> add u k v = Some u' -> exists t', add t k v = Some t' /\ mirrors t' u'.
Proof.
  intros [Hf|[[Hh Hs Hc] Hm]].
  { intros _. exists t. unfold add. rewrite Hf. split; [done|by left]. }
  destruct Hm as [Et Ec]. unfold add. rewrite Hs. assert (status_ t = ok) as -> by (by rewrite Et). change (is_ok ok) with true. cbn [negb].
  set (u1 := set_data_block _ _). set (t1 := set_data_block _ _).
  assert (mirrors t1 u1) as Hm1.
  { right. subst t1 u1. rewrite Et. cbn [set_file pending_index_entry_].
    split; [|destruct (pending_index_entry_ u); by split]. split; [by destruct (pending_index_entry_ u)..|].
    intros fb. cbn. destruct (pending_index_entry_ u); cbn; (destruct (filter_block_ u) as [fb0|] eqn:Ef; [|done]);
      intros [= <-]; exact (Hc fb0 Ef). }
  assert (options_ t1 = options_ u1 /\ data_block_ t1 = data_block_ u1) as [-> ->].
  { subst t1 u1. rewrite Et. cbn [set_file pending_index_entry_]. by destruct (pending_index_entry_ u). }
  clearbody t1 u1. destruct (_ <=? _); [by apply flush_mirrors|]. intros [= <-]. by exists t1.
Qed.
Lemma add_entries_mirrors l t u u' : mirrors t u -> add_entries u l = Some u' -> exists t', add_entries t l = Some t' /\ mirrors t' u'.
Proof.
  revert t u. induction l as [|[k v] l IH]; intros t u Hm; cbn [add_entries]; [intros [= <-]; by exists t|].
  destruct (add u k v) as [u1|] eqn:E; [|done]. cbn [mbind option_bind]. destruct (add_mirrors _ _ _ _ _ Hm E) as (t1 & -> & Hm1). by apply IH.
Qed.

(** The parts of [finish], of which none starts a filter. *)
Definition follows (t u : TableBuilder) : Prop :=
  is_ok (status_ t) = false \/ (wf_healthy (file_ u) /\ status_ u = ok /\ same_but_file t u).
Lemma finish_filter_follows t u u' h :
  follows t u -> finish_filter u = Some (u', h) -> exists t' h', finish_filter t = Some (t', h') /\ follows t' u' /\ (is_ok (status_ t') = true -> h' = h).
Proof.
  intros [Hf|(Hh & Hs & Hm)].
  { intros _. exists t, BlockHandle_new. unfold finish_filter. rewrite Hf. split; [done|]. split; [by left|congruence]. }
  unfold finish_filter. rewrite Hs. pose proof Hm as [Et _]. assert (status_ t = ok) as -> by (by rewrite Et).
  assert (filter_block_ t = filter_block_ u) as -> by (by rewrite Et). change (is_ok ok) with true.
  destruct (filter_block_ u) as [fb|]; [|intros [= <- <-]; exists t, BlockHandle_new; split; [done|]; split; [by right|done]].
  destruct (FilterBlock.finish fb) as [contents|]; [|done]. cbn [mbind option_bind]. intros E. injection E as E.
  pose proof (write_raw_mirrors t u contents kNone Hm Hh Hs) as H. rewrite E in H. destruct (write_raw_block t contents kNone) as [t' h'].
  destruct H as (-> & H1 & H2 & _ & H3). exists t', h. split; [done|]. split; [|done]. destruct (is_ok (status_ t')) eqn:Es; [by right|by left].
Qed.
Lemma write_block_follows t u block c u' h b :
  wf_healthy (file_ u) -> status_ u = ok -> same_but_file t u -> write_block u block c = Some (u', h, b) ->
  exists t', write_block t block c = Some (t', h, b) /\ follows t' u'.
Proof.
  intros Hh Hs Hm E. destruct (write_block_mirrors t u _ _ _ _ _ Hm Hh Hs E) as (t' & -> & H1 & H2 & _ & H3). exists t'. split; [done|].
  destruct (is_ok (status_ t')) eqn:Es; [by right|by left].
Qed.
Lemma finish_metaindex_follows t u fh fh' u' h :
  follows t u -> (is_ok (status_ t) = true -> fh' = fh) -> finish_metaindex u fh = Some (u', h) ->
  exists t' h', finish_metaindex t fh' = Some (t', h') /\ follows t' u' /\ (is_ok (status_ t') = true -> h' = h).
Proof.
  intros [Hf|(Hh & Hs & Hm)].
  { intros _ _. exists t, BlockHandle_new. unfold finish_metaindex. rewrite Hf. split; [done|]. split; [by left|congruence]. }
  intros Hfh. unfold finish_metaindex. rewrite Hs. pose proof Hm as [Et _]. assert (status_ t = ok) as Est by (by rewrite Et). rewrite Est in *.
  rewrite (Hfh eq_refl).
  assert (metaindex_block t fh = metaindex_block u fh) as -> by (by rewrite Et). change (is_ok ok) with true.
  destruct (write_block u _ _) as [[[u1 h1] b1]|] eqn:E; [|done]. cbn [mbind option_bind]. intros [= <- <-].
  destruct (write_block_follows t u _ _ _ _ _ Hh Hs Hm E) as (t' & -> & H). by exists t', h1.
Qed.
Lemma finish_index_follows t u u' h :
  follows t u -> finish_index u = Some (u', h) -> exists t' h', finish_index t = Some (t', h') /\ follows t' u' /\ (is_ok (status_ t') = true -> h' = h).
Proof.
  intros [Hf|(Hh & Hs & Hm)].
  { intros _. exists t, BlockHandle_new. unfold finish_index. rewrite Hf. split; [done|]. split; [by left|congruence]. }
  unfold finish_index. rewrite Hs. destruct Hm as [Et Ec]. assert (status_ t = ok) as -> by (by rewrite Et). change (is_ok ok) with true.
  set (t1 := if pending_index_entry_ t then _ else t). set (u1 := if pending_index_entry_ u then _ else u).
  assert (wf_healthy (file_ u1) /\ status_ u1 = ok /\ same_but_file t1 u1) as (H1 & H2 & H3).
  { subst t1 u1. rewrite Et. cbn [set_file pending_index_entry_]. by destruct (pending_index_entry_ u). }
  assert (index_block_ t1 = index_block_ u1) as -> by (by destruct H3 as [-> _]). clearbody t1 u1.
  destruct (write_block u1 _ _) as [[[u2 h2] b2]|] eqn:E; [|done]. cbn [mbind option_bind]. intros [= <- <-].
  destruct (write_block_follows t1 u1 _ _ _ _ _ H1 H2 H3 E) as (t' & -> & H). cbn [mbind option_bind]. eexists _, h2. split; [done|]. split; [|done].
  destruct H as [H|(Ha & Hb & Hc & Hd)]; [by left|right]. split_and!; [done|done|]. split; [by rewrite Hc|done].
Qed.
Lemma finish_footer_follows t u mh ih mh' ih' :
  follows t u -> (is_ok (status_ t) = true -> mh' = mh /\ ih' = ih) -> follows (finish_footer t mh' ih') (finish_footer u mh ih).
Proof.
  intros [Hf|(Hh & Hs & Hm)]; [intros _; left; unfold finish_footer; by rewrite !Hf|]. destruct Hm as [Et Ec]. unfold finish_footer.
  rewrite Hs. assert (status_ t = ok) as -> by (by rewrite Et). intros [-> ->]; [done|]. change (is_ok ok) with true. set (enc := footer_encode_to _ _).
  destruct (wf_append_ok (file_ u) enc Hh) as (g & -> & Hg & Cg). cbn [status_ set_file]. change (is_ok ok) with true.
  destruct (wf_append (file_ t) enc) as [s f] eqn:E. cbn [status_ set_file]. destruct (is_ok s) eqn:Es; [right|by left].
  destruct (append_ok _ _ _ _ E Es) as [-> Cf]. split_and!; [done|done|]. split; [by rewrite Et|]. cbn. by rewrite Cf, Cg, Ec.
Qed.

Lemma finish_mirrors t u u' :
  mirrors t u -> finish u = Some (ok, u') ->
  exists s t', finish t = Some (s, t') /\ s = status_ t' /\ (is_ok s = true -> wf_contents (file_ t') = wf_contents (file_ u') /\ offset_ t' = offset_ u').
Proof.
  intros Hm. unfold finish. destruct (flush u) as [u1|] eqn:E1; [|done]. cbn [mbind option_bind].
  destruct (flush_mirrors _ _ _ Hm E1) as (t1 & -> & Hm1). cbn [mbind option_bind].
  assert (follows (set_closed t1 true) (set_closed u1 true)) as F1.
  { destruct Hm1 as [H|[[H1 H2 H3] [H4 H5]]]; [by left|right]. split_and!; [done|done|]. split; [by rewrite H4|done]. }
  destruct (finish_filter _) as [[u2 fh]|] eqn:E2; [|done]. cbn [mbind option_bind].
  destruct (finish_filter_follows _ _ _ _ F1 E2) as (t2 & fh' & -> & F2 & H2). cbn [mbind option_bind].
  destruct (finish_metaindex u2 fh) as [[u3 mh]|] eqn:E3; [|done]. cbn [mbind option_bind].
  destruct (finish_metaindex_follows _ _ _ fh' _ _ F2 H2 E3) as (t3 & mh' & E3' & F3 & H3). rewrite E3'. cbn [mbind option_bind].
  destruct (finish_index u3) as [[u4 ih]|] eqn:E4; [|done]. cbn [mbind option_bind].
  destruct (finish_index_follows _ _ _ _ F3 E4) as (t4 & ih' & E4' & F4 & H4). rewrite E4'. cbn [mbind option_bind]. intros [= _ <-].
  eexists _, _. split; [done|]. split; [done|]. intros Hok.
  destruct (finish_footer_follows t4 u4 mh ih mh' ih' F4) as [H|(_ & _ & Ht & Hc)]; [|congruence|].
  - intros Hs4. split; [|by apply H4]. apply H3. destruct (is_ok (status_ t3)) eqn:Es3; [done|].
    unfold finish_index in E4'. rewrite Es3 in E4'. injection E4' as <- _. congruence.
  - split; [done|]. by rewrite Ht.
Qed.

(** * What calls that only touch some names leave alone *)
Record apart (T : bytes -> Prop) (d d' : Disk) : Prop := {
  ap_more : (length (d_inodes d) <= length (d_inodes d'))%nat;
  ap_names k : exists k0, forall name, ~ T name -> names_at d' k !! name = names_at d k0 !! name;
  ap_live name : ~ T name -> live d' !! name = live d !! name;
  ap_touched k name j : names_at d' k !! name = Some j ->
    (exists k0, names_at d k0 !! name = Some j) \/
    (T name /\ ((exists k0 name0, T name0 /\ names_at d k0 !! name0 = Some j) \/ (length (d_inodes d) <= j)%nat));
  ap_inodes j node : d_inodes d !! j = Some node -> (forall k name, T name -> names_at d k !! name <> Some j) -> d_inodes d' !! j = Some node
}.
(** The names stay, and so do the files behind names that are not touched. *)
Lemma apart_files T d d' :
  same_names d d' -> (forall j node, d_inodes d !! j = Some node -> (forall k name, T name -> names_at d k !! name <> Some j) -> d_inodes d' !! j = Some node) ->
  apart T d d'.
Proof.
  intros S N. split; [by destruct S as (_ & _ & ->)|..|exact N].
  - intros k. exists k. intros name _. by rewrite (same_names_at _ _ _ S).
  - intros name _. by rewrite (same_live _ _ S).
  - intros k name j. rewrite (same_names_at _ _ _ S). eauto.
Qed.
Lemma apart_same T d d' : same_names d d' -> d_inodes d' = d_inodes d -> apart T d d'.
Proof. intros S N. apply apart_files; [done|]. intros j node H _. by rewrite N. Qed.
Lemma apart_trans T d1 d2 d3 : apart T d1 d2 -> apart T d2 d3 -> apart T d1 d3.
Proof.
  intros [A0 A1 A2 A3 A4] [B0 B1 B2 B3 B4]. split; [lia|..].
  - intros k. destruct (B1 k) as (k1 & H1). destruct (A1 k1) as (k0 & H0). exists k0. intros name Hn. by rewrite H1, H0.
  - intros name Hn. by rewrite B2, A2.
  - intros k name j [[k1 H]|(HT & [(k1 & name1 & HT1 & H)|H])]%B3; [by apply A3 in H| |right; split; [done|right; lia]].
    right. split; [done|]. apply A3 in H as [[k0 H]|[_ H]]; [left; by eauto|done].
  - intros j node Hj Hp. apply B4; [by apply A4|]. intros k name HT H. apply lookup_lt_Some in Hj.
    apply A3 in H as [[k0 H]|(_ & [(k0 & name0 & HT0 & H)|H])]; [by eapply Hp..|lia].
Qed.
Lemma apart_weaken (T T' : bytes -> Prop) d d' : (forall name, T name -> T' name) -> apart T d d' -> apart T' d d'.
Proof.
  intros Hi [A0 A1 A2 A3 A4]. split; [done|..].
  - intros k. destruct (A1 k) as (k0 & H0). exists k0. intros name Hn. apply H0. naive_solver.
  - intros name Hn. apply A2. naive_solver.
  - intros k name j H. apply A3 in H as [H|(HT & H)]; [by left|right]. split; [by apply Hi|]. destruct H as [(k0 & name0 & HT0 & H)|H]; [left|by right].
    exists k0, name0. auto.
  - intros j node Hj Hp. apply A4; [done|]. naive_solver.
Qed.
Lemma apart_put (T : bytes -> Prop) path d i f synced : T path -> live d !! path = Some i -> apart T d (put d i f synced).
Proof.
  intros HT Hl. apply apart_files; [apply put_same|]. intros j node Hj Hp. rewrite put_other; [done|].
  intros ->. by apply (Hp (length (d_pending d)) path).
Qed.
Lemma apart_adds (T : bytes -> Prop) d d' op :
  adds d d' op -> (length (d_inodes d) <= length (d_inodes d'))%nat -> (forall name, ~ T name -> apply_op (live d) op !! name = live d !! name) ->
  (forall name j, apply_op (live d) op !! name = Some j -> live d !! name = Some j \/
     (T name /\ ((exists name0, T name0 /\ live d !! name0 = Some j) \/ (length (d_inodes d) <= j)%nat))) ->
  (forall j node, d_inodes d !! j = Some node -> d_inodes d' !! j = Some node) -> apart T d d'.
Proof.
  intros A Hl Hop Hp Hi. split; [done|..].
  - intros k. rewrite (adds_names_at _ _ _ _ A). case_decide; [by exists k|]. exists (length (d_pending d)). intros name Hn. by rewrite Hop.
  - intros name Hn. rewrite (adds_live _ _ _ A). by apply Hop.
  - intros k name j. rewrite (adds_names_at _ _ _ _ A). case_decide as Hk; [eauto|]. intros [H|(HT & [(name0 & HT0 & H)|H])]%Hp.
    + left. by exists (length (d_pending d)).
    + right. split; [done|]. left. by exists (length (d_pending d)), name0.
    + right. split; [done|by right].
  - intros j node Hj _. by apply Hi.
Qed.
Lemma apart_create (T : bytes -> Prop) path d r d' : d_ok d -> T path -> create d path = (r, d') -> apart T d d'.
Proof.
  intros Hd HT E. destruct (create_spec _ _ _ _ E Hd) as [Hd' H]. destruct r as [s|i].
  { destruct H as (_ & S & N). by apply apart_same. }
  destruct H as (Hl & (script & before & Hn) & Ho & [[S Hl0]|[A ->]]).
  - apply apart_files; [done|]. intros j node Hj Hp. rewrite Ho; [done| |by eapply lookup_lt_Some]. intros ->. by apply (Hp (length (d_pending d)) path).
  - apply lookup_lt_Some in Hn. apply (apart_adds T d d' _ A); [lia|..].
    + intros name Hname. cbn. apply lookup_insert_ne. by intros ->.
    + intros name j. cbn. intros [[<- <-]|[_ H]]%lookup_insert_Some; [right|by left]. split; [done|by right].
    + intros j node Hj. apply lookup_lt_Some in Hj as Hlt. rewrite Ho; [done|lia|done].
Qed.
Lemma apart_sync T d s d' : d_ok d -> sync_directory d = (s, d') -> apart T d d'.
Proof.
  intros Hd E. destruct (sync_directory_spec _ _ _ E Hd) as (Hd' & N & H). destruct (is_ok s); [|by apply apart_same].
  assert (live d' = live d) as El by (unfold live at 1; by rewrite H). split; [by rewrite N|..].
  - intros k. exists (length (d_pending d)). intros name _. by rewrite H.
  - intros name _. by rewrite El.
  - intros k name j. rewrite H. left. by exists (length (d_pending d)).
  - intros j node Hj _. by rewrite N.
Qed.
Lemma apart_remove (T : bytes -> Prop) path d s d' : d_ok d -> T path -> remove_file d path = (s, d') -> apart T d d'.
Proof.
  intros Hd HT E. destruct (remove_spec _ _ _ _ E Hd) as (Hd' & N & [S|A]); [by apply apart_same|]. apply (apart_adds T d d' _ A).
  - by rewrite N.
  - intros name Hname. cbn. apply lookup_delete_ne. by intros ->.
  - intros name j. cbn. intros [_ H]%lookup_delete_Some. by left.
  - intros j node Hj. by rewrite N.
Qed.
Lemma apart_rename (T : bytes -> Prop) from to d s d' : d_ok d -> T from -> T to -> rename_file d from to = (s, d') -> apart T d d'.
Proof.
  intros Hd HF HT E. destruct (rename_spec _ _ _ _ _ E Hd) as (Hd' & N & H). destruct (is_ok s); [|by apply apart_same]. apply (apart_adds T d d' _ H).
  - by rewrite N.
  - intros name Hname. cbn. destruct (live d !! from); [|done]. rewrite lookup_insert_ne, lookup_delete_ne; [done|by intros ->..].
  - intros name j. cbn. destruct (live d !! from) as [i|] eqn:Ef; [|by left].
    intros [[<- <-]|[_ [_ Hj]%lookup_delete_Some]]%lookup_insert_Some; [right|by left]. split; [done|]. left. by exists from.
  - intros j node Hj. by rewrite N.
Qed.

(** A file that is there for good, whatever happens next to its disk. *)
Definition durable (d : Disk) (path contents : bytes) : Prop :=
  exists i node, (forall k, names_at d k !! path = Some i) /\ d_inodes d !! i = Some node /\ ManifestSafe.settled node contents.

Lemma durable_apart (T : bytes -> Prop) d d' path contents : d_ok d -> apart T d d' -> ~ T path -> durable d path contents -> durable d' path contents.
Proof.
  intros Hd A Hn (i & node & H1 & H2 & H3). exists i, node. split; [|split; [|done]].
  - intros k. destruct (ap_names _ _ _ A k) as (k0 & E). by rewrite E.
  - apply (ap_inodes _ _ _ A); [done|]. intros k name HT H. apply Hn. by rewrite (wn_inj _ _ (Hd k) path name i (H1 k) H).
Qed.
Lemma temp_apart (T : bytes -> Prop) path d d' i f : T path -> ManifestSafe.temp_file d d' i f -> live d !! path = Some i -> apart T d d'.
Proof.
  intros HT [_ S _ O] Hl. apply apart_files; [done|]. intros j node Hj Hp. rewrite O; [done|]. intros ->. by apply (Hp (length (d_pending d)) path).
Qed.
Lemma temp_put d d' i f g : ManifestSafe.temp_file d d' i f -> ManifestSafe.temp_file d (put d' i g false) i g.
Proof.
  intros [T1 T2 (before & T3) T4]. split; [eapply same_ok; [apply put_same|done]|eapply same_trans; [done|apply put_same]| |].
  - rewrite (put_self _ _ _ _ _ T3). by eexists.
  - intros j Hj. rewrite put_other by done. by apply T4.
Qed.

Lemma settle_file_spec d i t s s' d' path :
  d_ok d -> live d !! path = Some i -> wf_open (file_ t) = true -> settle_file d i t s = (s', d') ->
  d_ok d' /\ same_names d d' /\ apart (eq path) d d' /\
  (is_ok s' = true -> is_ok s = true /\ exists node, d_inodes d' !! i = Some node /\ ManifestSafe.settled node (wf_contents (file_ t))).
Proof.
  intros Hd Hl Ho. assert (exists node, d_inodes d !! i = Some node) as [[f0 before] Hnode].
  { apply lookup_lt_is_Some. by apply (wn_range _ _ (Hd (length (d_pending d))) path). }
  assert (ManifestSafe.temp_file d d i f0) as T by (split; [done|done|by eexists|done]).
  unfold settle_file. apply (temp_put _ _ _ _ (file_ t)) in T. set (d0 := put d i (file_ t) false) in *.
  destruct (Manifest.and_then s d0 _ i wf_sync true) as [[s1 d1] f1] eqn:E1. destruct (ManifestSafe.and_then_temp _ _ _ _ _ _ _ _ _ _ T E1) as [T1 H1].
  destruct (Manifest.and_then s1 d1 f1 i wf_close false) as [[s2 d2] f2] eqn:E2. destruct (ManifestSafe.and_then_temp _ _ _ _ _ _ _ _ _ _ T1 E2) as [T2 H2].
  pose proof (temp_put _ _ _ _ (snd (wf_close f2)) T2) as T3. intros [= <- <-]. set (d3 := put d2 i (snd (wf_close f2)) false) in *.
  pose proof (temp_apart (eq path) path _ _ _ _ eq_refl T3 Hl) as A3. pose proof T3 as [K1 K2 _ _].
  split; [done|]. split; [done|]. split; [done|]. intros Es2.
  destruct (H2 Es2) as (Es1 & C2 & _ & N2). destruct (H1 Es1) as (Es0 & C1 & N1 & _). split; [done|].
  pose proof (WriteGroup.sync_reaches_disk _ _ _ Ho C1 Es1) as R1. pose proof (wf_sync_contents (file_ t)) as R1'. rewrite C1 in R1'. cbn [snd] in R1'.
  destruct (WriteGroup.close_kept f1 R1) as [R2 R2']. rewrite C2 in R2, R2'. cbn [snd] in R2, R2'.
  assert (wf_contents f2 = wf_disk f2) as R2'' by congruence. destruct (WriteGroup.close_kept f2 R2'') as [R3 R3'].
  exists (mkInode (snd (wf_close f2)) None). split.
  - unfold d3. by rewrite (put_self _ _ _ _ _ (N2 None (N1 eq_refl) eq_refl)).
  - assert (wf_contents (snd (wf_close f2)) = wf_disk (snd (wf_close f2))) as R4 by congruence.
    destruct (ManifestSafe.settle_disk _ R4) as [Q1 Q2]. split; [done|]. split; [|done]. cbn [i_file]. congruence.
Qed.
Lemma settle_spec d i t s s' d' path :
  d_ok d -> live d !! path = Some i -> wf_open (file_ t) = true -> settle d i t s = (s', d') ->
  d_ok d' /\ apart (eq path) d d' /\
  (is_ok s' = true -> is_ok s = true /\ durable d' path (wf_contents (file_ t))).
Proof.
  intros Hd Hl Ho. unfold settle. destruct (settle_file d i t s) as [s1 d1] eqn:E1. destruct (settle_file_spec _ _ _ _ _ _ _ Hd Hl Ho E1) as (Hd1 & S1 & A1 & H1).
  destruct (is_ok s1) eqn:Es1; [|intros [= <- <-]; by rewrite Es1].
  intros E. destruct (sync_directory_spec _ _ _ E Hd1) as (Hd' & N & Hn). split; [done|].
  split; [eapply apart_trans; [exact A1|by eapply apart_sync]|]. intros Es. rewrite Es in Hn. destruct (H1 eq_refl) as (Es0 & node & Hnode & Hset). split; [done|].
  exists i, node. split; [intros k; by rewrite Hn, (same_live _ _ S1)|]. by rewrite N.
Qed.

(** * A table file is durable before anything names it *)

(** The bytes of the table of [es]: what a builder over a file that does not
    fail writes. *)
Definition image (opts : Options) (es : list (bytes * bytes)) : bytes :=
  match TableBuilder.build_table opts (wf_new []) internal_key_comparator es with
  | Some (_, t) => wf_contents (file_ t)
  | None => []
  end.

Lemma new_mirrors opts script cmp u :
  TableBuilder_new opts (wf_new []) cmp = Some u -> exists t, TableBuilder_new opts (wf_new script) cmp = Some t /\ mirrors t u.
Proof.
  unfold TableBuilder_new. set (fb := match filter_policy opts with Some policy => _ | None => _ end).
  destruct fb as [o|] eqn:Eo; [|done]. cbn [mbind option_bind]. intros [= <-]. eexists. split; [done|]. right. split; [|done]. split; [done|done|].
  intros fb' _. cbn [offset_]. rewrite Z.shiftr_0_l. lia.
Qed.
Lemma add_entries_open l t t' : add_entries t l = Some t' -> wf_open (file_ t') = wf_open (file_ t).
Proof. intros E. by apply add_entries_runs, runs_open in E. Qed.
(** The run of a builder over any file, against the one that does not fail. *)
Lemma faulty_run opts script es u :
  TableBuilder.build_table opts (wf_new []) internal_key_comparator es = Some (ok, u) ->
  exists t0 t1 s t2, TableBuilder_new opts (wf_new script) internal_key_comparator = Some t0 /\ add_entries t0 es = Some t1 /\ finish t1 = Some (s, t2) /\
    wf_open (file_ t2) = true /\ (is_ok s = true -> wf_contents (file_ t2) = wf_contents (file_ u) /\ offset_ t2 = offset_ u).
Proof.
  unfold TableBuilder.build_table. destruct (TableBuilder_new opts (wf_new []) _) as [u0|] eqn:E0; [|done]. cbn [mbind option_bind].
  destruct (add_entries u0 es) as [u1|] eqn:E1; [|done]. cbn [mbind option_bind]. intros E2.
  destruct (new_mirrors _ script _ _ E0) as (t0 & N0 & M0). destruct (add_entries_mirrors _ _ _ _ M0 E1) as (t1 & N1 & M1).
  destruct (finish_mirrors _ _ _ M1 E2) as (s & t2 & N2 & _ & H). exists t0, t1, s, t2. split_and!; try done.
  apply finish_runs, runs_open in N2. rewrite N2, (add_entries_open _ _ _ N1). unfold TableBuilder_new in N0.
  destruct (match filter_policy opts with Some policy => _ | None => _ end); [|done]. cbn [mbind option_bind] in N0. by injection N0 as <-.
Qed.

Lemma build_loop_spec {I} (ops : Iterator I) es pos fuel it i t t' largest :
  SortedIterator ops internal_key_comparator es pos -> pos it i -> (length es - i < fuel)%nat -> add_entries t (drop i es) = Some t' ->
  exists it', add_all ops fuel it t largest = Some (it', t', default largest (fst <$> last (drop i es))) /\ pos it' (length es).
Proof.
  intros SI. revert it i t largest. induction fuel as [|fuel IH]; intros it i t largest Hp Hf; [lia|]. cbn [add_all].
  rewrite (si_valid _ _ Hp). pose proof (si_bound _ _ Hp) as Hb. destruct (Nat.ltb_spec i (length es)) as [Hlt|Hge].
  - destruct (lookup_lt_is_Some_2 es i Hlt) as [[k v] He]. rewrite (drop_S _ _ _ He). cbn [add_entries].
    destruct (si_entry _ _ _ _ Hp He) as [-> ->]. cbn [mbind option_bind]. destruct (add t k v) as [t1|]; [|done]. cbn [mbind option_bind].
    destruct (si_next _ _ Hp Hlt) as (it1 & -> & Hp1). cbn [mbind option_bind]. intros E.
    destruct (IH it1 (S i) t1 k Hp1 ltac:(lia) E) as (it' & -> & Hp'). exists it'. split; [|done]. f_equal. f_equal.
    destruct (drop (S i) es) as [|e l] eqn:Ed; [done|]. change (last ((k, v) :: e :: l)) with (last (e :: l)).
    destruct (last (e :: l)) eqn:El; [done|]. by apply last_None in El.
  - rewrite drop_ge by lia. cbn [add_entries last fmap option_fmap option_map default]. intros [= ->].
    exists it. split; [done|]. by replace (length es) with i by lia.
Qed.

Section Spec.
Context (dbname : bytes) (opts : Options) (address : BlockHandle -> Z) (cap : nat) (Hcap : (0 < cap)%nat).
Context (Hi : 1 <= block_restart_interval opts) (Hpol : forall p, filter_policy opts = Some p -> FilterPolicyLaws p).
Context {I : Type} (ops : Iterator I) (es : list (bytes * bytes)) (pos : I -> nat -> Prop)
  `{SI : !SortedIterator ops internal_key_comparator es pos}.
Context (Hsorted : sorted_by internal_key_comparator es) (Hread : Forall (λ e, readable internal_key_comparator e.1) es)
  (Hweight : weight es < 2 ^ 32) (Hsize : size (image opts es) < 2 ^ 32).
Context (P : Z -> Table.Rep -> Prop).

Lemma image_built :
  exists u done seps filter, TableBuilder.build_table opts (wf_new []) internal_key_comparator es = Some (ok, u) /\
    wf_contents (file_ u) = image opts es /\ offset_ u = size (image opts es) /\
    finished internal_key_comparator extract_user_key opts (image opts es) es seps done filter.
Proof using Hi Hpol Hsorted Hread Hweight Hsize.
  destruct (build_table_spec internal_key_comparator extract_user_key opts Hi Hpol (wf_new []) es (conj eq_refl eq_refl) eq_refl Hsorted Hread Hweight)
    as (u & done & seps & filter & E & F & S).
  assert (image opts es = wf_contents (file_ u)) as Ei by (unfold image; by rewrite E). exists u, done, seps, filter. rewrite Ei.
  split; [done|]. split; [done|]. split; [|done]. unfold file_size in S. rewrite S. apply u64_small. clear Hcap. rewrite Ei in Hsize. pose proof (size_nonneg (wf_contents (file_ u))). lia.
Qed.

Lemma image_positive : 0 < size (image opts es).
Proof using Hi Hpol Hsorted Hread Hweight Hsize.
  destruct image_built as (u & done & seps & filter & _ & _ & _ & F). rewrite (fi_bytes _ _ _ _ _ _ _ _ F). clear Hcap.
  unfold table_bytes, index_part, stored_block, size. rewrite !length_app. cbn [length]. lia.
Qed.

(** The cache holds right tables, if those of this file are. *)
Definition right_tables (n : Z) : Prop :=
  forall rep, TableCache.open_table address opts (λ _, inr (local_file (image opts es) [])) n (size (image opts es)) = Some (inr rep) -> P n rep.

Lemma check_table_spec d c n :
  TableCache.Inv P c [] -> TableCache.bounded cap c -> right_tables n -> durable d (table_file_name dbname n) (image opts es) ->
  exists s d' c', check_table dbname opts address cap d c n (size (image opts es)) = Some (s, d', c') /\
    same_names d d' /\ d_inodes d' = d_inodes d /\ TableCache.Inv P c' [] /\ TableCache.bounded cap c'.
Proof using Hcap Hi Hpol Hsorted Hread Hweight Hsize.
  intros Hc Hb HP (i & node & Hn & Hnode & Hset). unfold check_table. destruct (next_fault d) as [failed d1] eqn:E1.
  destruct (next_fault_same _ _ _ E1) as [S1 N1].
  assert (exists r, TableCache.open_table address opts (open_file dbname d1 failed) n (size (image opts es)) = Some r /\ forall rep, r = inr rep -> P n rep) as (r & Er & Hr).
  { unfold TableCache.open_table, open_file. destruct failed; [by eexists|].
    rewrite (same_live _ _ S1). unfold live. rewrite Hn, N1. cbn [mbind option_bind]. rewrite Hnode, (ManifestSafe.settled_visible _ _ Hset).
    destruct image_built as (u & done & seps & filter & _ & _ & _ & F). pose proof (local_file_serves (image opts es) [] ltac:(by intros ?%elem_of_nil)) as Sv.
    destruct (Table.open_spec internal_key_comparator extract_user_key opts Hi Hpol address (local_file (image opts es) []) _ es seps done filter F Hsize Hread None)
      as (rep & Eo & _). exists (inr rep). cbn [snd Table.take_id] in Eo. rewrite Eo. split; [done|]. intros rep' [= <-]. apply HP. unfold TableCache.open_table. by rewrite Eo. }
  unfold TableCache.find. destruct (TableCache.find_cached_spec P cap c [] n Hc Hb) as (hit & c1 & -> & _ & _ & Hb1 & Hhit). cbn [mbind option_bind].
  assert (exists found c2, (match hit with
      | Some a => Some (inr a, c1)
      | None => opened ← TableCache.open_table address opts (open_file dbname d1 failed) n (size (image opts es));
          match opened with inl status => Some (inl status, c1) | inr t => '(a, c) ← TableCache.insert_opened cap c1 n t; Some (inr a, c) end
      end) = Some (found, c2) /\ TableCache.bounded cap c2 /\
      match found with inl _ => TableCache.Inv P c2 [] | inr a => TableCache.Inv P c2 [(n, a)] end) as (found & c2 & -> & Hb2 & Hf).
  { destruct hit as [a|]; [exists (inr a), c1; split; [done|]; by destruct Hhit|]. subst c1. rewrite Er. cbn [mbind option_bind].
    destruct r as [s|rep]; [by exists (inl s), c|].
    destruct (TableCache.insert_opened_spec P cap Hcap c [] n rep Hc Hb (Hr rep eq_refl)) as (a & c2 & -> & I2 & Hb2 & _). by exists (inr a), c2. }
  cbn [mbind option_bind]. destruct found as [s|a]; [by exists s, d1, c2|].
  destruct (TableCache.i_held _ _ _ Hf n a) as (e & -> & _); [by left|]. cbn [mbind option_bind].
  destruct (TableCache.release_inv P c2 [] n a Hf) as (c3 & -> & I3 & S3). cbn [mbind option_bind]. eexists _, d1, c3. split; [done|].
  split_and!; try done. unfold TableCache.bounded. by rewrite S3.
Qed.

(** What [build_table] reports of a table it wrote. *)
Definition described (meta : FileMetaData) : Prop :=
  VersionEdit.file_size meta = size (image opts es) /\ head es.*1 = Some (smallest meta) /\ last es.*1 = Some (largest meta).

Lemma table_file_spec fuel it j meta d c :
  pos it j -> (length es < fuel)%nat -> d_ok d -> TableCache.Inv P c [] -> TableCache.bounded cap c -> right_tables (number meta) ->
  let path := table_file_name dbname (number meta) in
  exists s meta' d' c', build_table dbname opts address cap ops fuel it meta d c = Some (s, meta', d', c') /\
    d_ok d' /\ apart (eq path) d d' /\
    TableCache.Inv P c' [] /\ TableCache.bounded cap c' /\ number meta' = number meta /\
    (is_ok s = true -> if decide (es = []) then d' = d /\ VersionEdit.file_size meta' = 0 else durable d' path (image opts es) /\ described meta').
Proof using Hcap Hi Hpol SI Hsorted Hread Hweight Hsize.
  intros Hp Hfuel Hd Hc Hb HP path. unfold build_table. destruct (si_first _ _ Hp) as (it0 & -> & Hp0). cbn [mbind option_bind].
  rewrite (si_valid _ _ Hp0), (si_status _ _ Hp0). destruct (Nat.ltb_spec 0 (length es)) as [Hne|He]; cbn [negb].
  2: { eexists _, _, d, c. split; [done|]. split_and!; try done; [by apply apart_same|].
       intros _. rewrite decide_True by (apply nil_length_inv; lia). done. }
  cbn [number set_file_size]. fold path. destruct (create d path) as [r d1] eqn:Ec. pose proof (apart_create (eq path) _ _ _ _ Hd eq_refl Ec) as A1. destruct (create_spec _ _ _ _ Ec Hd) as [Hd1 Hr].
  destruct r as [s|i]; [destruct Hr as [Hr _]; eexists s, _, d1, c; split; [done|]; rewrite Hr; by split_and!|].
  destruct Hr as (Hl1 & (script & before & Hnode) & _). cbn [number set_file_size]. fold path. rewrite Hnode. cbn [fmap option_fmap option_map default from_option id i_file].
  destruct image_built as (u & done & seps & filter & Eu & Cu & Ou & F).
  destruct (faulty_run opts script es u Eu) as (t0 & t1 & s2 & t2 & -> & E1 & E2 & Ho & Hok). cbn [mbind option_bind].
  destruct (build_loop_spec ops es pos fuel it0 0 t0 t1 [] _ Hp0 ltac:(lia) E1) as (it1 & -> & Hp1). cbn [mbind option_bind]. rewrite E2. cbn [mbind option_bind].
  destruct (settle d1 i t2 s2) as [s3 d3] eqn:E3. destruct (settle_spec _ _ _ _ _ _ path Hd1 Hl1 Ho E3) as (Hd3 & A3 & H3).
  rewrite (si_status _ _ Hp1).
  pose proof (apart_trans _ _ _ _ A1 A3) as A3'.
  set (meta1 := set_largest _ _). set (meta2 := if is_ok s2 then _ else meta1).
  assert (number meta2 = number meta) as Hnum by (unfold meta2; by destruct (is_ok s2)).
  destruct (is_ok s3) eqn:Es3; cbn [andb].
  - destruct (H3 eq_refl) as [Es2 Hdur]. destruct (Hok Es2) as [C2 O2]. rewrite C2, Cu in Hdur.
    assert (described meta2) as Hm.
    { unfold meta2, described. rewrite Es2. cbn [set_file_size VersionEdit.file_size smallest largest set_largest set_smallest meta1].
      split; [unfold file_size; congruence|]. rewrite drop_0, fmap_last. destruct (lookup_lt_is_Some_2 es 0 Hne) as [[k v] He0].
      destruct (si_entry _ _ k v Hp0 He0) as [Hk _]. split; [rewrite head_lookup, list_lookup_fmap, He0; cbn; by rewrite Hk|].
      destruct (last es) eqn:El; [done|]. apply last_None in El. rewrite El in Hne. cbn in Hne. lia. }
    change (is_ok ok) with true. cbn [andb]. pose proof Hm as (Hsz & _). rewrite Hsz, Hnum.
    assert (exists s4 d4 c4, (if 0 <? size (image opts es) then check_table dbname opts address cap d3 c (number meta) (size (image opts es)) else Some (ok, d3, c)) =
      Some (s4, d4, c4) /\ same_names d3 d4 /\ d_inodes d4 = d_inodes d3 /\ TableCache.Inv P c4 [] /\ TableCache.bounded cap c4) as (s4 & d4 & c4 & -> & S4 & N4 & Hc4 & Hb4).
    { destruct (0 <? _); [by apply check_table_spec|by exists ok, d3, c]. }
    cbn [mbind option_bind]. pose proof (same_ok _ _ S4 Hd3) as Hd4.
    pose proof (apart_trans _ _ _ _ A3' (apart_same _ _ _ S4 N4)) as A4.
    destruct (is_ok s4) eqn:Es4.
    + eexists s4, meta2, d4, c4. split; [done|]. split_and!; try done. intros _. rewrite decide_False by (intros ->; cbn in Hne; lia).
      split; [|done]. destruct Hdur as (i' & node & K1 & K2 & K3). exists i', node. split; [intros k; by rewrite (same_names_at _ _ _ S4)|]. by rewrite N4.
    + destruct (remove_file d4 path) as [s5 d5] eqn:E5. destruct (remove_spec _ _ _ _ E5 Hd4) as (Hd5 & N5 & _).
      eexists s4, meta2, d5, c4. split; [done|]. split_and!; try done.
      * eapply apart_trans; [exact A4|by eapply apart_remove].
      * congruence.
  - rewrite Es3. cbn [andb mbind option_bind]. rewrite Es3. destruct (remove_file d3 path) as [s5 d5] eqn:E5. destruct (remove_spec _ _ _ _ E5 Hd3) as (Hd5 & N5 & _).
    eexists s3, meta2, d5, c. split; [done|]. split_and!; try done.
    + eapply apart_trans; [exact A3'|by eapply apart_remove].
    + congruence.
Qed.
End Spec.
End BuildTable.
