(* ===== verification/Flush.v ===== *)
(** Flushing a memtable ([DBImpl::write_level0_table] and
    [DBImpl::compact_memtable] of src/src/db_impl.cpp): the table file, then the
    edit that names it and drops its log, then the clean-up.

    One thread is followed; what others do while the mutex is released around
    the write of the table is to other files. *)
From stdpp Require Import gmap.
From S2P Require Import Prelude Status File Encoding DbFormat Comparator Bloom FilterBlock BlockBuilder Iterator Format TableBuilder Table TwoLevelIterator.
From S2P Require Import Filename Wal SkipList VersionEdit MemTable Version VersionBuilder Compaction CacheClient WriteGroup VersionGet DbRead TableCache Disk Manifest ManifestSafe BuildTable.
Import Status File Encoding DbFormat Comparator Bloom Iterator Format Filename VersionEdit Disk BuildTable.
Local Open Scope Z_scope.

Module Flush.

(** * The operations *)
Section Flush.
Context {Rng : Type} (dbname : bytes) (options : TableBuilder.Options) (max_file_size : Z) (address : BlockHandle -> Z) (cap : nat).

(** The part of [DBImpl] a flush works on.  [others] are the versions that
    readers still hold; [bytes_written] is that of [level_stats_], whose clock
    is left out. *)
Record Db := mkDb {
  disk : Disk;
  table_cache : TableCache.TableCache Table.Rep;
  versions : Manifest.VersionSet;
  others : list Version.Version;
  pending_outputs : list Z;
  imm : option (@MemTable.MemTable Rng);
  logfile_number : Z;
  shutting_down : bool;
  background_error : Status;
  bytes_written : list Z;
  flush_bytes : Z
}.
Definition set_disk (st : Db) (d : Disk) (c : TableCache.TableCache Table.Rep) : Db :=
  mkDb d c (versions st) (others st) (pending_outputs st) (imm st) (logfile_number st) (shutting_down st) (background_error st)
    (bytes_written st) (flush_bytes st).
Definition set_versions (st : Db) (vs : Manifest.VersionSet) : Db :=
  mkDb (disk st) (table_cache st) vs (others st) (pending_outputs st) (imm st) (logfile_number st) (shutting_down st) (background_error st)
    (bytes_written st) (flush_bytes st).
Definition set_pending_outputs (st : Db) (pending : list Z) : Db :=
  mkDb (disk st) (table_cache st) (versions st) (others st) pending (imm st) (logfile_number st) (shutting_down st) (background_error st)
    (bytes_written st) (flush_bytes st).
Definition drop_imm (st : Db) : Db :=
  mkDb (disk st) (table_cache st) (versions st) (others st) (pending_outputs st) None (logfile_number st) (shutting_down st) (background_error st)
    (bytes_written st) (flush_bytes st).
Definition charge (st : Db) (level : nat) (n : Z) : Db :=
  mkDb (disk st) (table_cache st) (versions st) (others st) (pending_outputs st) (imm st) (logfile_number st) (shutting_down st) (background_error st)
    (alter (λ b, u64 (b + n)) level (bytes_written st)) (u64 (flush_bytes st + n)).

(** A memtable has fewer entries than its list has nodes: the fuel of the scan. *)
Definition write_level0_table (mem : @MemTable.MemTable Rng) (edit : VersionEdit) (base : option Version.Version) (st : Db) :
    option (Status * VersionEdit * Db) :=
  let (n, vs) := Manifest.new_file_number (versions st) in
  let st := set_pending_outputs (set_versions st vs) (n :: pending_outputs st) in
  '(s, meta, d, c) ← build_table dbname options address cap (MemTable.memtable_iterator) (S (length (SkipList.nodes (MemTable.table_ mem))))
                       (MemTable.MemTableIterator_new mem) (mkFile n 0 [] [] default_allowed_seeks 0) (disk st) (table_cache st);
  let st := set_disk st d c in
  let st := set_pending_outputs st (filter (λ k, k <> n) (pending_outputs st)) in
  if is_ok s && (0 <? file_size meta) then
    level ←
      match base with
      | Some v => Version.pick_level_for_memtable_output v max_file_size (extract_user_key (smallest meta)) (extract_user_key (largest meta))
      | None => Some 0%nat
      end;
    Some (s, add_file edit (Z.of_nat level) (number meta) (file_size meta) (smallest meta) (largest meta), charge st level (file_size meta))
  else Some (s, edit, st).

(** [list_directory]: the base names of the files. *)
Definition list_directory (d : Disk) : Status * list bytes * Disk :=
  let (failed, d) := next_fault d in
  if failed then (io_error "cannot list directory", [], d)
  else (ok, omap (λ name, if bool_decide (take (S (length dbname)) name = dbname ++ string_bytes "/") then Some (base_name dbname name) else None)
              (map_to_list (live d)).*1, d).
Fixpoint evict_all (c : TableCache.TableCache Table.Rep) (ns : list Z) : option (TableCache.TableCache Table.Rep) :=
  match ns with
  | [] => Some c
  | n :: ns => c ← TableCache.evict c n; evict_all c ns
  end.
(** [remove_obsolete_files], which decides by DbRead.v, with its effects. *)
Definition remove_obsolete_files (st : Db) : option Db :=
  if negb (is_ok (background_error st)) then Some st
  else
    let '(s, names, d) := list_directory (disk st) in
    let vs := versions st in
    let '(to_delete, evicted) :=
      DbRead.remove_obsolete_files (background_error st)
        (DbRead.mkNumbers (Manifest.log_number vs) (Manifest.prev_log_number vs) (Manifest.manifest_file_number vs))
        (pending_outputs st) (Manifest.current vs :: others st) (s, names) in
    c ← evict_all (table_cache st) evicted;
    let d := fold_left (λ d base, snd (remove_file d (dbname ++ string_bytes "/" ++ base))) to_delete d in
    Some (set_disk st d c).

(** [None] without a memtable to flush, which the code asserts. *)
Definition compact_memtable (st : Db) : option (Status * Db) :=
  mem ← imm st;
  '(s, edit, st) ← write_level0_table mem clear (Some (Manifest.current (versions st))) st;
  let s := if is_ok s && shutting_down st then io_error "database is shutting down" else s in
  '(s, st) ←
    (if is_ok s then
       let edit := set_log_number (set_prev_log_number edit 0) (logfile_number st) in
       '(s, vs, d) ← Manifest.log_and_apply dbname (versions st) (disk st) edit;
       Some (s, set_disk (set_versions st vs) d (table_cache st))
     else Some (s, st));
  if is_ok s then
    st ← remove_obsolete_files (drop_imm st);
    Some (s, st)
  else Some (s, st).
End Flush.

(** * Installing an edit touches the manifest's names only *)
Section Apart.
Context (dbname : bytes).
Import Manifest.
Definition manifest_name (n : Z) (name : bytes) : Prop :=
  name = descriptor_file_name dbname n \/ name = current_file_name dbname \/ name = temp_file_name dbname n.

Lemma read_current_apart T d r d' : d_ok d -> read_current dbname d = (r, d') -> d_ok d' /\ apart T d d'.
Proof.
  intros Hd. unfold read_current. destruct (open_sequential d _) as [r1 d1] eqn:E. destruct (open_sequential_spec _ _ _ _ E) as (S & N & _).
  pose proof (same_ok _ _ S Hd) as Hd1. pose proof (apart_same T _ _ S N) as A.
  destruct r1 as [s|file]; [by intros [= _ <-]|]. destruct (sf_read file _) as [[s contents] file']. destruct (negb (is_ok s)); [by intros [= _ <-]|].
  destruct (negb _); [by intros [= _ <-]|]. destruct (_ || _); by intros [= _ <-].
Qed.
Lemma set_current_apart n d s d' : d_ok d -> set_current_file dbname d n = (s, d') -> d_ok d' /\ apart (manifest_name n) d d'.
Proof.
  intros Hd. unfold set_current_file. set (temp := temp_file_name dbname n).
  assert (manifest_name n temp) as HT by (right; by right). assert (manifest_name n (current_file_name dbname)) as HC by (right; by left).
  destruct (write_temp d temp _) as [s1 d1] eqn:E1. destruct (ManifestSafe.write_temp_shape _ _ _ _ _ Hd E1) as (r & d0 & E0 & Hd1 & Hr).
  assert (apart (manifest_name n) d d1) as A1.
  { pose proof (apart_create (manifest_name n) temp _ _ _ Hd HT E0) as A0. destruct r as [s0|t]; [by destruct Hr as [_ ->]|].
    destruct Hr as (S & O & _). destruct (create_spec _ _ _ _ E0 Hd) as [_ (Hl & _)]. eapply apart_trans; [exact A0|].
    apply apart_files; [done|]. intros j node Hj Hp. rewrite O; [done|]. intros ->. by apply (Hp (length (d_pending d0)) temp). }
  assert (exists s2 d2, (if is_ok s1 then rename_file d1 temp (current_file_name dbname) else (s1, d1)) = (s2, d2) /\ d_ok d2 /\ apart (manifest_name n) d1 d2)
    as (s2 & d2 & -> & Hd2 & A2).
  { destruct (is_ok s1); [|exists s1, d1; split; [done|]; split; [done|by apply apart_same]].
    destruct (rename_file d1 temp _) as [s2 d2] eqn:E2. exists s2, d2. split; [done|]. split; [exact (proj1 (rename_spec _ _ _ _ _ E2 Hd1))|exact (apart_rename _ _ _ _ _ _ Hd1 HT HC E2)]. }
  assert (exists s3 d3, (if is_ok s2 then sync_directory d2 else (s2, d2)) = (s3, d3) /\ d_ok d3 /\ apart (manifest_name n) d2 d3)
    as (s3 & d3 & -> & Hd3 & A3).
  { destruct (is_ok s2); [|exists s2, d2; split; [done|]; split; [done|by apply apart_same]].
    destruct (sync_directory d2) as [s3 d3] eqn:E3. exists s3, d3. split; [done|]. split; [exact (proj1 (sync_directory_spec _ _ _ E3 Hd2))|by eapply apart_sync]. }
  pose proof (apart_trans _ _ _ _ A1 (apart_trans _ _ _ _ A2 A3)) as A. destruct (is_ok s3); [by intros [= _ <-]|].
  destruct (remove_file d3 temp) as [s4 d4] eqn:E4. intros [= _ <-]. split; [exact (proj1 (remove_spec _ _ _ _ E4 Hd3))|].
  eapply apart_trans; [exact A|exact (apart_remove _ _ _ _ _ Hd3 HT E4)].
Qed.

(** Writing to the manifest's file. *)
Definition logging (n : Z) (i : nat) (d d' : Disk) : Prop :=
  d_ok d' /\ apart (manifest_name n) d d' /\ live d' !! descriptor_file_name dbname n = Some i.
Lemma logging_put n i d d' f synced : logging n i d d' -> logging n i d (put d' i f synced).
Proof.
  intros (Hd & A & L). split; [eapply same_ok; [apply put_same|done]|]. split; [|by rewrite (same_live _ _ (put_same _ _ _ _))].
  eapply apart_trans; [exact A|]. apply (apart_put _ (descriptor_file_name dbname n)); [by left|done].
Qed.
Lemma log_add_logging n d0 d log record s d' log' :
  logging n (snd log) d0 d -> log_add d log record = Some (s, d', log') -> logging n (snd log) d0 d' /\ snd log' = snd log.
Proof.
  intros L. unfold log_add. destruct (Wal.add_record _ _) as [[s1 w]|]; [|done]. cbn [mbind option_bind]. intros [= _ <- <-].
  split; [by apply logging_put|done].
Qed.
Lemma log_sync_logging n d0 d log s d' log' :
  logging n (snd log) d0 d -> log_sync d log = (s, d', log') -> logging n (snd log) d0 d' /\ snd log' = snd log.
Proof. intros L. unfold log_sync. destruct (Wal.writer_sync (fst log)) as [s1 w]. intros [= _ <- <-]. split; [by apply logging_put|done]. Qed.

Lemma write_edit_apart vs d0 d log edit fresh s d' log' :
  logging (manifest_file_number vs) (snd log) d0 d -> write_edit dbname vs d log edit fresh = Some (s, d', log') ->
  d_ok d' /\ apart (manifest_name (manifest_file_number vs)) d0 d'.
Proof.
  intros L. unfold write_edit. destruct (log_add d log _) as [[[s1 d1] log1]|] eqn:E1; [|done]. cbn [mbind option_bind].
  destruct (log_add_logging _ _ _ _ _ _ _ _ L E1) as [L1 H1]. rewrite <- H1 in L1.
  assert (exists s2 d2 log2, (if is_ok s1 then log_sync d1 log1 else (s1, d1, log1)) = (s2, d2, log2) /\ logging (manifest_file_number vs) (snd log1) d0 d2)
    as (s2 & d2 & log2 & -> & (Hd2 & A2 & _)).
  { destruct (is_ok s1); [|by exists s1, d1, log1]. destruct (log_sync d1 log1) as [[s2 d2] log2] eqn:E2. exists s2, d2, log2.
    split; [done|]. exact (proj1 (log_sync_logging _ _ _ _ _ _ _ L1 E2)). }
  destruct (is_ok s2 && fresh); [|by intros [= _ <- _]]. destruct (set_current_file dbname d2 _) as [s3 d3] eqn:E3. intros [= _ <- _].
  destruct (set_current_apart _ _ _ _ Hd2 E3) as [Hd3 A3]. split; [done|]. by eapply apart_trans.
Qed.
Lemma log_and_apply_apart vs d edit s vs' d' :
  d_ok d -> (forall w i, descriptor_log vs = Some (w, i) -> live d !! descriptor_file_name dbname (manifest_file_number vs) = Some i) ->
  log_and_apply dbname vs d edit = Some (s, vs', d') -> d_ok d' /\ apart (manifest_name (manifest_file_number vs)) d d'.
Proof.
  intros Hd Hl. unfold log_and_apply. set (n := manifest_file_number vs) in *. set (edit1 := complete_edit vs edit). set (b := VersionBuilder.apply _ _).
  set (T := manifest_name n). assert (apart T d d) as A0 by (by apply apart_same).
  assert (forall s d1 log, match descriptor_log vs with Some log => Some (ok, d, Some log) | None => open_manifest dbname vs d end = Some (s, d1, log) ->
    d_ok d1 /\ apart T d d1 /\ forall l, log = Some l -> logging n (snd l) d d1) as Hopen.
  { intros s1 d1 log. destruct (descriptor_log vs) as [[w i]|] eqn:Ed.
    - intros [= <- <- <-]. split; [done|]. split; [done|]. intros l [= <-]. split; [done|]. split; [done|]. by apply (Hl w).
    - unfold open_manifest. fold n. destruct (create d _) as [r d2] eqn:Ec. destruct (create_spec _ _ _ _ Ec Hd) as [Hd2 Hr].
      assert (apart T d d2) as A2 by (eapply apart_create; [done| |exact Ec]; by left). destruct r as [s2|i]; [by intros [= _ <- <-]|].
      destruct Hr as (Hi & _). destruct (log_add d2 _ _) as [[[s2 d3] log2]|] eqn:E; [|done]. cbn [mbind option_bind]. intros [= _ <- <-].
      assert (logging n i d d2) as L2 by done. destruct (log_add_logging n d d2 (_, i) _ _ _ _ L2 E) as [L3 H3]. cbn [snd] in L3, H3.
      split; [apply L3|]. split; [apply L3|]. intros l [= <-]. by rewrite H3. }
  destruct (match descriptor_log vs with Some log => _ | None => _ end) as [[[s1 d1] log1]|] eqn:E1; [|done]. cbn [mbind option_bind].
  destruct (Hopen _ _ _ eq_refl) as (Hd1 & A1 & Hlog1). clear Hopen.
  destruct (match log1 with Some log => _ | None => _ end) as [[[s2 d2] log2]|] eqn:E2; [|done]. cbn [mbind option_bind].
  assert (d_ok d2 /\ apart T d d2) as [Hd2 A2].
  { destruct log1 as [l1|]; [|by injection E2 as _ <- _]. destruct (is_ok s1); [|by injection E2 as _ <- _].
    destruct (write_edit _ _ _ _ _ _) as [[[s3 d3] log3]|] eqn:E3; [|done]. injection E2 as _ <- _. eapply write_edit_apart; [by apply Hlog1|exact E3]. }
  destruct (is_ok s2); [by intros [= _ _ <-]|]. destruct (bool_decide _); [|by intros [= _ _ <-]].
  destruct (read_current dbname d2) as [named d3] eqn:E3. destruct (read_current_apart T _ _ _ Hd2 E3) as [Hd3 A3].
  pose proof (apart_trans _ _ _ _ A2 A3) as A4. set (another := match named with inr _ => _ | inl _ => _ end). destruct another; [|by intros [= _ _ <-]].
  destruct (remove_file d3 _) as [s5 d5] eqn:E5. intros [= _ _ <-]. split; [exact (proj1 (remove_spec _ _ _ _ E5 Hd3))|].
  eapply apart_trans; [exact A4|]. eapply apart_remove; [done| |exact E5]. by left.
Qed.

(** A database stays what it is when other names are touched. *)
Lemma manifest_named_apart (T : bytes -> Prop) d d' n c i :
  apart T d d' -> d_ok d -> ~ T (current_file_name dbname) -> ~ T (descriptor_file_name dbname n) -> ManifestSafe.named dbname d n c i ->
  ManifestSafe.named dbname d' n c i /\ forall node, d_inodes d !! i = Some node -> d_inodes d' !! i = Some node.
Proof.
  intros A Hd HC HM Hn.
  assert (forall j name0 node, ~ T name0 -> (forall k, names_at d k !! name0 = Some j) -> d_inodes d !! j = Some node -> d_inodes d' !! j = Some node) as Hkeep.
  { intros j name0 node H0 Hj Hnode. apply (ap_inodes _ _ _ A); [done|]. intros k name HT H. apply H0. by rewrite (wn_inj _ _ (Hd k) name0 name j (Hj k) H). }
  split.
  - intros k. destruct (ap_names _ _ _ A k) as (k0 & E). destruct (Hn k0) as [P1 (nc & Hnc & Hs) P3 P4].
    split; [by rewrite E| |by rewrite E|done]. exists nc. split; [|done]. eapply (Hkeep c (current_file_name dbname)); [done| |done]. intros k1. apply (Hn k1).
  - intros node Hnode. eapply (Hkeep i (descriptor_file_name dbname n)); [done| |done]. intros k1. apply (Hn k1).
Qed.
Lemma good_apart (T : bytes -> Prop) vs d d' M P had :
  ManifestSafe.Good dbname vs d M P had -> d_ok d' -> apart T d d' -> ~ T (current_file_name dbname) ->
  (forall n, 0 <= n < 2 ^ 64 -> Manifest.descriptor_log vs = None \/ n = Manifest.manifest_file_number vs -> ~ T (descriptor_file_name dbname n)) ->
  ManifestSafe.Good dbname vs d' M P had.
Proof.
  intros G Hd' A HC HM. pose proof (ManifestSafe.g_disk _ _ _ _ _ _ G) as Hd. destruct G as [G1 G2 G3 G4 G5 G6 G7 G8]. split; try done.
  destruct (descriptor_log vs) as [[w i]|] eqn:Ed.
  - destruct G8 as (edits & c & A' & Hn & (H1 & H2 & H3) & Hrest). pose proof (ManifestSafe.pt_small _ _ _ _ _ _ (Hn 0%nat)) as Hs.
    destruct (manifest_named_apart _ _ _ _ _ _ A Hd HC (HM (Manifest.manifest_file_number vs) ltac:(lia) (or_intror eq_refl)) Hn) as [Hn' Hi].
    exists edits, c, A'. split; [done|]. split; [|done]. split; [done|]. split; [done|]. by apply Hi.
  - destruct G8 as (Hhad & n & c & i & node & Hlt & Hn & Hnode & Hreads). pose proof (ManifestSafe.pt_small _ _ _ _ _ _ (Hn 0%nat)) as Hs.
    destruct (manifest_named_apart _ _ _ _ _ _ A Hd HC (HM n ltac:(lia) (or_introl eq_refl)) Hn) as [Hn' Hi].
    split; [done|]. exists n, c, i, node. auto.
Qed.

(** What a successful install leaves in the version set. *)
Lemma log_and_apply_fields vs d edit s vs' d' :
  log_and_apply dbname vs d edit = Some (s, vs', d') -> d_ok d -> is_ok s = true ->
  (exists log, descriptor_log vs' = Some log) /\ manifest_file_number vs' = manifest_file_number vs /\ next_file_number vs' = next_file_number vs.
Proof.
  unfold log_and_apply. set (b := VersionBuilder.apply _ _). intros E Hd Hs. revert E.
  assert (forall s1 d1 log, match descriptor_log vs with Some log => Some (ok, d, Some log) | None => open_manifest dbname vs d end = Some (s1, d1, log) ->
    is_ok s1 = true -> log <> None) as Hopen.
  { intros s1 d1 log. destruct (descriptor_log vs) as [l|]; [by intros [= _ _ <-]|]. unfold open_manifest.
    destruct (create d _) as [r d2] eqn:Ec. destruct (create_spec _ _ _ _ Ec Hd) as [_ Hr]. destruct r as [s2|i]; [intros [= <- _ _]; destruct Hr as [Hr _]; congruence|].
    destruct (log_add d2 _ _) as [[[s2 d3] log2]|]; [|done]. by intros [= _ _ <-]. }
  destruct (match descriptor_log vs with Some log => _ | None => _ end) as [[[s1 d1] log1]|]; [|done]. cbn [mbind option_bind].
  specialize (Hopen _ _ _ eq_refl).
  destruct (match log1 with Some log => _ | None => _ end) as [[[s2 d2] log2]|] eqn:E2; [|done]. cbn [mbind option_bind].
  assert (is_ok s2 = true -> exists log, log2 = Some log) as Hlog.
  { destruct log1 as [l1|]; [|injection E2 as <- _ <-; intros Hs2; by destruct (Hopen Hs2)]. destruct (is_ok s1) eqn:Es1; [|injection E2 as <- _ <-; congruence].
    destruct (write_edit _ _ _ _ _ _) as [[[s3 d3] log3]|]; [|done]. injection E2 as _ _ <-. by eexists. }
  destruct (is_ok s2) eqn:Es2; intros E.
  - injection E as _ <- _. by split; [apply Hlog|].
  - destruct (bool_decide _); [|injection E as <- _ _; congruence].
    destruct (read_current dbname d2) as [named d3]. destruct (match named with inr _ => _ | inl _ => _ end); injection E as <- _ _; congruence.
Qed.
End Apart.

(** ** Names *)
Section Names.
Context (dbname : bytes) (n : Z) (Hn : 0 <= n < 2 ^ 64).
Lemma table_name_not_current : table_file_name dbname n <> current_file_name dbname.
Proof using Hn. intros E. destruct (names_parse dbname n Hn) as (_ & Et & _ & _ & Ec & _). rewrite E, Ec in Et. done. Qed.
Lemma table_name_not_manifest m : 0 <= m < 2 ^ 64 -> table_file_name dbname n <> descriptor_file_name dbname m.
Proof using Hn.
  intros Hm E. destruct (names_parse dbname n Hn) as (_ & Et & _). destruct (names_parse dbname m Hm) as (_ & _ & _ & Em & _). rewrite E, Em in Et. done.
Qed.
Lemma table_name_not_temp m : 0 <= m < 2 ^ 64 -> table_file_name dbname n <> temp_file_name dbname m.
Proof using Hn.
  intros Hm E. destruct (names_parse dbname n Hn) as (_ & Et & _). destruct (names_parse dbname m Hm) as (_ & _ & Em & _). rewrite E, Em in Et. done.
Qed.
Lemma table_name_inj m : 0 <= m < 2 ^ 64 -> table_file_name dbname n = table_file_name dbname m -> n = m.
Proof using Hn.
  intros Hm E. destruct (names_parse dbname n Hn) as (_ & Et & _). destruct (names_parse dbname m Hm) as (_ & Em & _). rewrite E, Em in Et. by injection Et.
Qed.
Lemma log_name_not_table m : 0 <= m < 2 ^ 64 -> log_file_name dbname n <> table_file_name dbname m.
Proof using Hn.
  intros Hm E. destruct (names_parse dbname n Hn) as (El & _). destruct (names_parse dbname m Hm) as (_ & Em & _). rewrite E, Em in El. done.
Qed.
Lemma table_name_not_in_manifest m : 0 <= m < 2 ^ 64 -> ~ manifest_name dbname m (table_file_name dbname n).
Proof using Hn. intros Hm [H|[H|H]]; [by eapply table_name_not_manifest|by apply table_name_not_current|by eapply table_name_not_temp]. Qed.
Lemma log_name_not_in_manifest m : 0 <= m < 2 ^ 64 -> ~ manifest_name dbname m (log_file_name dbname n).
Proof using Hn.
  intros Hm E. destruct (names_parse dbname n Hn) as (El & _ & _ & _ & Ec & _). destruct (names_parse dbname m Hm) as (_ & _ & Ex & Em & _).
  destruct E as [E|[E|E]]; rewrite E in El; congruence.
Qed.
End Names.

(** * What is kept *)
Section Kept.
Context {Rng : Type} (dbname : bytes) (opts : TableBuilder.Options) (max_file_size : Z) (address : BlockHandle -> Z) (cap : nat) (Hcap : (0 < cap)%nat).
Context (Hi : 1 <= TableBuilder.block_restart_interval opts) (Hpol : forall p, TableBuilder.filter_policy opts = Some p -> FilterPolicyLaws p).
(** [P n]: the tables that may be open for file [n]. *)
Context (P : Z -> Table.Rep -> Prop) (HP : forall n es, right_tables opts address es P n).
Abbreviation TABLE := (table_file_name dbname).

(** The database is open on the state [A], and every table of it is on disk
    for good. *)
Record Kept (st : @Db Rng) (A : ManifestSafe.State) (had : list (Z * Z)) (tables : gmap Z bytes) : Prop := {
  k_good : ManifestSafe.Good dbname (versions st) (disk st) (ManifestSafe.a_files A) (eq A) had;
  k_tables l n m : ManifestSafe.a_files A !! (l, n) = Some m -> exists b, tables !! n = Some b /\ durable (disk st) (TABLE n) b /\ m.1.1 = size b;
  k_had l n : (l, n) ∈ had -> n < Manifest.next_file_number (versions st);
  k_nodup : NoDup had;
  k_cache : TableCache.Inv P (table_cache st) [] /\ TableCache.bounded cap (table_cache st)
}.

Lemma good_bump vs d M Q had :
  ManifestSafe.Good dbname vs d M Q had -> Manifest.next_file_number vs + 1 < 2 ^ 64 ->
  ManifestSafe.Good dbname (snd (Manifest.new_file_number vs)) d M Q had /\
  Manifest.next_file_number (snd (Manifest.new_file_number vs)) = Manifest.next_file_number vs + 1.
Proof.
  clear Hcap Hi. intros [G1 G2 G3 G4 G5 (N1 & N2 & N3 & N4 & N5) G7 G8] Hn.
  assert (Manifest.next_file_number (snd (Manifest.new_file_number vs)) = Manifest.next_file_number vs + 1) as E by (cbn; apply u64_small; lia).
  split; [|done]. split; try done. rewrite E. cbn [Manifest.new_file_number snd]. split_and!; try done; cbn; lia.
Qed.

(** ** Touching other names *)
Lemma kept_apart (T : bytes -> Prop) st st' A had tables :
  Kept st A had tables -> versions st' = versions st -> d_ok (disk st') -> apart T (disk st) (disk st') ->
  ~ T (current_file_name dbname) ->
  (forall n, 0 <= n < 2 ^ 64 -> Manifest.descriptor_log (versions st) = None \/ n = Manifest.manifest_file_number (versions st) -> ~ T (descriptor_file_name dbname n)) ->
  (forall l n m, ManifestSafe.a_files A !! (l, n) = Some m -> ~ T (TABLE n)) ->
  TableCache.Inv P (table_cache st') [] /\ TableCache.bounded cap (table_cache st') -> Kept st' A had tables.
Proof.
  intros [K1 K2 K3 K4 K5] Ev Hd' HA HC HM HT Hc. split; [|..|done|done].
  - rewrite Ev. by eapply good_apart.
  - intros l n m H. destruct (K2 l n m H) as (b & Hb & Hdur & Hs). exists b. split; [done|]. split; [|done].
    eapply durable_apart; [apply (ManifestSafe.g_disk _ _ _ _ _ _ K1)|exact HA|by eapply HT|done].
  - rewrite Ev. apply K3.
Qed.

(** ** Writing the table *)
Definition entries (ves : list MemTable.Version) : list (bytes * bytes) := MemTable.version_entry <$> ves.
Lemma entries_sorted (m : @MemTable.MemTable Rng) Ls ves :
  MemTable.holds m Ls ves -> sorted_by internal_key_comparator (entries ves) /\ Forall (λ e, readable internal_key_comparator e.1) (entries ves).
Proof.
  clear Hcap Hi. intros H. split.
  - apply MemTable.holds_sorted in H. unfold sorted_by, entries. rewrite <- list_fmap_compose. clear -H.
    induction H as [|v l Hs IH HF]; [constructor|]. rewrite fmap_cons. constructor; [done|]. apply Forall_fmap. exact HF.
  - apply Forall_forall. intros e (v & -> & Hv)%list_elem_of_fmap. unfold readable. cbn [min_key_length internal_key_comparator kInternal MemTable.version_entry fst].
    unfold MemTable.ikey. rewrite length_make_internal_key. lia.
Qed.
Lemma pick_level_total v lo hi :
  Version.disjoint_levels v -> exists level, Version.pick_level_for_memtable_output v max_file_size lo hi = Some level /\ (level <= 2)%nat.
Proof.
  clear Hcap Hi. intros D. unfold Version.pick_level_for_memtable_output. rewrite Version.overlaps_in_level_spec by done. cbn [mbind option_bind].
  destruct (existsb _ _) eqn:E0; [exists 0%nat; split; [done|lia]|].
  destruct (Version.pick_level_loop_spec (S Version.kMaxMemCompactLevel) v max_file_size lo hi 0) as (l & -> & Hl & _);
    [done|unfold Version.kMaxMemCompactLevel; lia|lia| |by exists l].
  intros i Hi0. by replace i with 0%nat by lia.
Qed.

Definition first_key (es : list (bytes * bytes)) : bytes := default [] (head es.*1).
Definition last_key (es : list (bytes * bytes)) : bytes := default [] (last es.*1).
(** The edit with the table of [ves] added, if there is anything in it. *)
Definition with_table (edit : VersionEdit) (level n : Z) (ves : list MemTable.Version) : VersionEdit :=
  match ves with
  | [] => edit
  | _ => add_file edit level n (size (image opts (entries ves))) (first_key (entries ves)) (last_key (entries ves))
  end.

Lemma table_known st A had tables l n m :
  Kept st A had tables -> ManifestSafe.a_files A !! (l, n) = Some m ->
  0 <= n < Manifest.next_file_number (versions st) /\ n < 2 ^ 64 /\
  exists level (f : Version.FilePtr), l = Z.of_nat level /\ f ∈ Version.level_files (Manifest.current (versions st)) level /\ number (Version.f_meta f) = n.
Proof.
  clear Hcap Hi. intros K H. pose proof (k_good _ _ _ _ K) as G. destruct (ManifestSafe.g_files _ _ _ _ _ _ G) as (_ & Hl & Hf).
  destruct (ManifestSafe.g_metas _ _ _ _ _ _ G l n m H) as [Hu _]. pose proof (Hl l n m H) as Hlev. unfold level_ok, u64_ok in *.
  rewrite <- (Z2Nat.id l) in H by lia. pose proof H as (f & Hin & En & _)%Hf.
  pose proof (k_had _ _ _ _ K _ _ (ManifestSafe.g_had _ _ _ _ _ _ G _ _ Hin)) as Hlt. rewrite En in Hlt.
  split; [lia|]. split; [lia|]. exists (Z.to_nat l), f. split; [lia|done].
Qed.

Lemma write_level0_spec (m : @MemTable.MemTable Rng) Ls ves edit base st A had tables :
  Kept st A had tables -> MemTable.holds m Ls ves -> TableBuilder.weight (entries ves) < 2 ^ 32 -> size (image opts (entries ves)) < 2 ^ 32 ->
  Manifest.next_file_number (versions st) + 1 < 2 ^ 64 -> (forall v, base = Some v -> Version.disjoint_levels v) ->
  let n := Manifest.next_file_number (versions st) in
  exists s level st', write_level0_table dbname opts max_file_size address cap m edit base st =
      Some (s, if is_ok s then with_table edit (Z.of_nat level) n ves else edit, st') /\ (level <= 2)%nat /\ (base = None -> level = 0%nat) /\
    Kept st' A had tables /\ apart (eq (TABLE n)) (disk st) (disk st') /\ versions st' = snd (Manifest.new_file_number (versions st)) /\
    others st' = others st /\ imm st' = imm st /\ logfile_number st' = logfile_number st /\ shutting_down st' = shutting_down st /\
    background_error st' = background_error st /\
    (is_ok s = true -> ves <> [] -> durable (disk st') (TABLE n) (image opts (entries ves))).
Proof.
  intros K Hh Hw Hsz Hn Hbase n. destruct (entries_sorted _ _ _ Hh) as [Hsort Hread]. pose proof (k_cache _ _ _ _ K) as [Hc Hb].
  pose proof (k_good _ _ _ _ K) as G. pose proof (ManifestSafe.g_disk _ _ _ _ _ _ G) as Hd. destruct (ManifestSafe.g_numbers _ _ _ _ _ _ G) as (_ & _ & _ & N4 & _).
  destruct (good_bump _ _ _ _ _ G Hn) as [G' En]. unfold write_level0_table. destruct (Manifest.new_file_number (versions st)) as [n0 vs] eqn:Ev.
  assert (n0 = n) as -> by (by injection Ev). cbn [snd] in G', En. cbn [disk set_pending_outputs set_versions table_cache].
  pose proof (MemTable.memtable_iterator_sorted m Ls ves Hh) as SI. fold (entries ves) in SI. pose proof Hh as [[W _] _]. pose proof Hh as [R _].
  assert (length (entries ves) = length (Ls 0%nat)) as Hlen by (unfold entries; rewrite length_fmap, (SkipList.represents_length _ _ _ _ R), length_fmap; done).
  set (meta := mkFile n 0 [] [] default_allowed_seeks 0).
  destruct (BuildTable.table_file_spec dbname opts address cap Hcap Hi Hpol MemTable.memtable_iterator (entries ves) (MemTable.mi_pos m Ls ves) Hsort Hread Hw Hsz P
    (S (length (SkipList.nodes (MemTable.table_ m)))) (MemTable.MemTableIterator_new m) (length ves) meta (disk st) (table_cache st))
    as (s & meta' & d' & c' & -> & Hd' & HA & Hc' & Hb' & Enum & Hok); [|pose proof (SkipList.wf_length _ _ _ W); lia|done|done|done|apply HP|].
  { split; [done|]. split; [|done]. cbn. symmetry. apply lookup_ge_None_2. unfold entries in Hlen. rewrite length_fmap in Hlen. lia. }
  cbn [mbind option_bind number meta] in HA, Hok, Enum |- *.
  assert (forall st' : Db, versions st' = vs -> disk st' = d' -> table_cache st' = c' -> Kept st' A had tables) as HK.
  { intros st' E1 E2 E3. apply (kept_apart (eq (TABLE n)) (set_versions st vs)); cbn [versions disk set_versions]; try done; rewrite ?E2, ?E3; try done.
    - destruct K as [K1 K2 K3 K4 K5]. split; try done. cbn [versions set_versions]. rewrite En. intros l k Hk%K3. lia.
    - intros E. by apply (table_name_not_current dbname n ltac:(lia)).
    - intros k Hk _ E. by apply (table_name_not_manifest dbname n ltac:(lia) k Hk).
    - intros l k mm Hk E. destruct (table_known _ _ _ _ _ _ _ K Hk) as (Hlt & Hu & _). apply (table_name_inj dbname n ltac:(lia) k ltac:(lia)) in E. lia. }
  destruct (is_ok s) eqn:Es; cbn [andb].
  2: { exists s, 0%nat. eexists. rewrite Es. split; [done|]. split; [lia|]. split; [done|]. split; [by apply HK|]. by split_and!. }
  specialize (Hok eq_refl). destruct (decide (entries ves = [])) as [E0|Hne].
  - destruct Hok as [-> ->]. cbn [Z.ltb Z.compare]. exists s, 0%nat. eexists. rewrite Es.
    assert (ves = []) as -> by (by apply fmap_nil_inv in E0). split; [done|]. split; [lia|]. split; [done|]. split; [by apply HK|]. by split_and!.
  - destruct Hok as [Hdur (Hs & Hfirst & Hlast)]. rewrite Hs.
    pose proof (image_positive opts Hi Hpol (entries ves) Hsort Hread Hw Hsz) as Hpos. rewrite (proj2 (Z.ltb_lt _ _)) by done. cbn [andb].
    assert (exists level, match base with
        | Some v => Version.pick_level_for_memtable_output v max_file_size (extract_user_key (smallest meta')) (extract_user_key (largest meta'))
        | None => Some 0%nat end = Some level /\ (level <= 2)%nat /\ (base = None -> level = 0%nat)) as (level & -> & Hlev & Hlev0).
    { destruct base as [v|]; [|exists 0%nat; split; [done|]; split; [lia|done]].
      destruct (pick_level_total v (extract_user_key (smallest meta')) (extract_user_key (largest meta')) (Hbase v eq_refl)) as (level & E & Hl). by exists level. }
    cbn [mbind option_bind]. exists s, level. eexists. rewrite Es. split.
    { unfold with_table, first_key, last_key. rewrite Hfirst, Hlast, Enum. by destruct ves. }
    split; [done|]. split; [done|]. split; [by apply HK|]. by split_and!.
Qed.

(** ** Cleaning up *)
Definition in_directory (bases : list bytes) (name : bytes) : Prop := exists base, base ∈ bases /\ name = dbname ++ string_bytes "/" ++ base.
Lemma in_directory_base bases name : in_directory bases name -> base_name dbname name ∈ bases.
Proof. intros (base & Hin & ->). unfold base_name. change (string_bytes "/" ++ base) with (x2f :: base). by rewrite drop_past. Qed.
Lemma remove_all_apart bases d :
  d_ok d -> let d' := fold_left (λ d base, snd (remove_file d (dbname ++ string_bytes "/" ++ base))) bases d in d_ok d' /\ apart (in_directory bases) d d'.
Proof.
  revert d. induction bases as [|base bases IH]; intros d Hd; cbn [fold_left]; [split; [done|by apply apart_same]|].
  destruct (remove_file d _) as [s d1] eqn:E. cbn [snd]. destruct (remove_spec _ _ _ _ E Hd) as (Hd1 & _). destruct (IH d1 Hd1) as [Hd2 A2]. split; [done|].
  eapply apart_trans.
  - eapply apart_remove; [done| |exact E]. exists base. split; [left|done].
  - eapply apart_weaken; [|exact A2]. intros name (b & Hb & ->). exists b. split; [by right|done].
Qed.
Lemma evict_all_inv ns c :
  TableCache.Inv P c [] -> TableCache.bounded cap c -> exists c', evict_all c ns = Some c' /\ TableCache.Inv P c' [] /\ TableCache.bounded cap c'.
Proof.
  revert c. induction ns as [|n ns IH]; intros c Hc Hb; cbn [evict_all]; [by exists c|].
  destruct (TableCache.tc_evict_spec P cap c [] n Hc Hb) as (c1 & -> & Hc1 & Hb1 & _). by apply IH.
Qed.
Lemma remove_obsolete_spec st A had tables :
  Kept st A had tables -> (exists log, Manifest.descriptor_log (versions st) = Some log) ->
  exists st', remove_obsolete_files dbname st = Some st' /\ Kept st' A had tables /\ imm st' = imm st /\ versions st' = versions st /\
    logfile_number st' = logfile_number st /\
    forall n i, 0 <= n < 2 ^ 64 -> Manifest.log_number (versions st) <= n ->
      (forall k, names_at (disk st) k !! log_file_name dbname n = Some i) -> forall k, names_at (disk st') k !! log_file_name dbname n = Some i.
Proof.
  clear Hcap Hi. intros K [log Hlog]. unfold remove_obsolete_files. destruct (is_ok (background_error st)) eqn:Eb; cbn [negb]; [|by exists st; split_and!].
  unfold list_directory. destruct (next_fault (disk st)) as [failed d1] eqn:E1. destruct (next_fault_same _ _ _ E1) as [S1 N1].
  destruct (if failed then _ else _) as [[s names] d] eqn:El. assert (d = d1) as -> by (by destruct failed; simplify_eq). clear El.
  set (ns := DbRead.mkNumbers _ _ _). destruct (DbRead.remove_obsolete_files _ _ _ _ _) as [to_delete evicted] eqn:Ed.
  pose proof (k_good _ _ _ _ K) as G. pose proof (same_ok _ _ S1 (ManifestSafe.g_disk _ _ _ _ _ _ G)) as Hd1.
  destruct (k_cache _ _ _ _ K) as [Hc Hb]. destruct (evict_all_inv evicted (table_cache st) Hc Hb) as (c' & -> & Hc').
  cbn [mbind option_bind]. destruct (remove_all_apart to_delete d1 Hd1) as [Hd2 A2]. eexists. split; [done|].
  assert (forall name n t, parse_file_name (base_name dbname name) = Some (n, t) ->
    DbRead.keep_file ns (DbRead.add_live_files (Manifest.current (versions st) :: others st) (pending_outputs st)) n t = true -> ~ in_directory to_delete name) as Hkeep.
  { intros name n t Hp Hk Hin%in_directory_base. by eapply (DbRead.kept_not_deleted _ _ _ _ _ _ _ _ _ _ Ed Hp Hk). }
  destruct (ManifestSafe.g_numbers _ _ _ _ _ _ G) as (_ & _ & _ & N4 & N5).
  assert (apart (in_directory to_delete) (disk st) (fold_left (λ d base, snd (remove_file d (dbname ++ string_bytes "/" ++ base))) to_delete d1)) as A3
    by (eapply apart_trans; [by apply apart_same|exact A2]).
  split; [|split_and!; try done].
  2: { intros n i Hn Hl Hlive k. destruct (ap_names _ _ _ A3 k) as (k0 & E). cbn [disk set_disk]. rewrite E; [apply Hlive|].
       destruct (names_parse dbname n Hn) as (Epl & _). eapply Hkeep; [exact Epl|]. cbn. apply orb_true_iff. left. by apply Z.leb_le. }
  apply (kept_apart (in_directory to_delete) st); cbn [versions disk set_disk table_cache]; try done.
  - destruct (names_parse dbname 0 ltac:(lia)) as (_ & _ & _ & _ & Ec & _). by eapply Hkeep.
  - intros n Hn [H|Hm]; [congruence|]. destruct (names_parse dbname n Hn) as (_ & _ & _ & Em & _). eapply Hkeep; [exact Em|].
    cbn. apply Z.leb_le. lia.
  - intros l n m H. destruct (table_known _ _ _ _ _ _ _ K H) as (Hlt & Hu & level & f & _ & Hf & <-).
    destruct (names_parse dbname (number (Version.f_meta f)) ltac:(lia)) as (_ & Et & _). eapply Hkeep; [exact Et|].
    cbn [DbRead.keep_file]. apply DbRead.existsb_live, DbRead.live_elem. right. unfold Version.level_files in Hf.
    destruct (Version.files_ _ !! level) as [files|] eqn:Ef; [|by apply elem_of_nil in Hf].
    exists (Manifest.current (versions st)), files, f. split; [left|]. split; [by eapply list_elem_of_lookup_2|done].
Qed.

(** * A flush *)

(** A file the next process finds in full. *)
Definition holds_file (d : Disk) (path contents : bytes) : Prop :=
  exists i node, live d !! path = Some i /\ d_inodes d !! i = Some node /\ visible (i_file node) = contents.
Lemma durable_cut d path contents image : durable d path contents -> cut d image -> holds_file image path contents.
Proof.
  intros (i & node & H1 & H2 & H3) (k & cs & HF & ->). destruct (Forall2_lookup_l _ _ _ _ _ HF H2) as (c & Hc & Hk).
  apply (ManifestSafe.settled_keeps _ _ _ H3) in Hk as ->. exists i, (reopened contents). split; [unfold live, names_at; cbn; by rewrite <- (H1 k)|].
  cbn. rewrite list_lookup_fmap, Hc. split; [done|]. unfold visible. cbn. apply app_nil_r.
Qed.
(** Every table of the state, in full. *)
Definition whole (d : Disk) (A : ManifestSafe.State) (tables : gmap Z bytes) : Prop :=
  forall l n m, ManifestSafe.a_files A !! (l, n) = Some m -> exists b, tables !! n = Some b /\ holds_file d (TABLE n) b /\ m.1.1 = size b.
Definition stored_in (d : Disk) (A : ManifestSafe.State) (tables : gmap Z bytes) : Prop :=
  forall l n m, ManifestSafe.a_files A !! (l, n) = Some m -> exists b, tables !! n = Some b /\ durable d (TABLE n) b /\ m.1.1 = size b.
Lemma stored_whole d A tables image : stored_in d A tables -> cut d image -> whole image A tables.
Proof. intros K Hc l n m H. destruct (K l n m H) as (b & H1 & H2 & H3). exists b. split; [done|]. split; [by eapply durable_cut|done]. Qed.

(** The state with the memtable in a table of level [level], its log dropped. *)
Definition with_flushed (st : @Db Rng) (A : ManifestSafe.State) (level : Z) (ves : list MemTable.Version) : ManifestSafe.State :=
  let es := entries ves in
  let n := Manifest.next_file_number (versions st) in
  ManifestSafe.mkState
    (match ves with [] => ManifestSafe.a_files A | _ => <[(level, n) := (size (image opts es), first_key es, last_key es)]> (ManifestSafe.a_files A) end)
    (logfile_number st) 0 (n + 1) (Manifest.last_sequence (versions st)) (Manifest.compact_pointer (versions st)).
Definition with_image (st : @Db Rng) (tables : gmap Z bytes) (ves : list MemTable.Version) : gmap Z bytes :=
  match ves with [] => tables | _ => <[Manifest.next_file_number (versions st) := image opts (entries ves)]> tables end.
Definition flush_edit (st : @Db Rng) (level : Z) (ves : list MemTable.Version) : VersionEdit :=
  set_log_number (set_prev_log_number (with_table clear level (Manifest.next_file_number (versions st)) ves) 0) (logfile_number st).

Lemma installed_flush st A level ves :
  Manifest.next_file_number (versions st) + 1 < 2 ^ 64 -> 0 <= Manifest.next_file_number (versions st) ->
  ManifestSafe.installed (snd (Manifest.new_file_number (versions st))) (ManifestSafe.a_files A) (flush_edit st level ves) = with_flushed st A level ves.
Proof.
  clear Hcap Hi. intros Hn H0. unfold ManifestSafe.installed, with_flushed, flush_edit. f_equal; try (by destruct ves). cbn. apply u64_small. lia.
Qed.
Lemma key_bounds ves :
  Forall MemTable.version_ok ves -> ves <> [] -> key_ok (first_key (entries ves)) /\ key_ok (last_key (entries ves)).
Proof.
  clear Hcap Hi. intros HF Hne. rewrite Forall_forall in HF.
  assert (forall k, k ∈ (entries ves).*1 -> key_ok k) as Hk.
  { intros k Hk. unfold entries in Hk. rewrite <- list_fmap_compose in Hk. apply list_elem_of_fmap in Hk as (v & -> & Hv).
    change ((fst ∘ MemTable.version_entry) v) with (MemTable.ikey v). destruct (HF v Hv) as (_ & Hs & _). unfold key_ok. rewrite MemTable.size_ikey. pose proof (size_nonneg (MemTable.v_key v)). lia. }
  unfold first_key, last_key. destruct ((entries ves).*1) as [|k l] eqn:E; [by destruct ves|]. split; [apply Hk; left|].
  destruct (last (k :: l)) as [k'|] eqn:El; [|by apply last_None in El]. apply Hk. apply last_Some in El as [l' ->]. apply elem_of_app. right. left.
Qed.
Lemma flush_edit_ok st level ves :
  Forall MemTable.version_ok ves -> 0 <= level <= 2 -> u64_ok (Manifest.next_file_number (versions st)) -> u64_ok (logfile_number st) ->
  size (image opts (entries ves)) < 2 ^ 32 ->
  edit_ok (flush_edit st level ves) /\ Manifest.other_comparator (flush_edit st level ves) = None.
Proof.
  clear Hcap Hi. intros HF Hl Hn Hlog Hs. split; [|by destruct ves]. destruct (decide (ves = [])) as [->|Hne].
  - unfold flush_edit. split; cbn; try done; try (by intros n [= <-]); split; constructor.
  - destruct (key_bounds ves HF Hne) as [H1 H2]. pose proof (size_nonneg (image opts (entries ves))).
    assert (with_table clear level (Manifest.next_file_number (versions st)) ves = add_file clear level (Manifest.next_file_number (versions st))
      (size (image opts (entries ves))) (first_key (entries ves)) (last_key (entries ves))) as E by (by destruct ves).
    unfold flush_edit. rewrite E. split; cbn; try done; try (by intros n [= <-]); [split; constructor|].
    apply Forall_singleton. cbn. split; [unfold level_ok; lia|]. split; [done|]. split; [unfold u64_ok; cbn; lia|]. by split_and!.
Qed.

Lemma stored_flushed st d A tables level ves :
  stored_in d A tables -> (forall l k m, ManifestSafe.a_files A !! (l, k) = Some m -> k <> Manifest.next_file_number (versions st)) ->
  stored_in d A (with_image st tables ves) /\
  ((ves <> [] -> durable d (TABLE (Manifest.next_file_number (versions st))) (image opts (entries ves))) ->
   stored_in d (with_flushed st A level ves) (with_image st tables ves)).
Proof.
  clear Hcap Hi. intros S Hne. destruct ves as [|v ves]; [done|].
  assert (stored_in d A (with_image st tables (v :: ves))) as S'.
  { intros l k m H. destruct (S l k m H) as (b & H1 & H2). exists b. split; [|done]. cbn [with_image]. rewrite lookup_insert_ne; [done|]. apply not_eq_sym. by eapply Hne. }
  split; [done|]. intros Hd l k m. cbn [with_flushed ManifestSafe.a_files].
  intros [[E <-]|[_ H]]%lookup_insert_Some; [|by apply (S' l)]. injection E as <- <-. exists (image opts (entries (v :: ves))).
  cbn [with_image]. rewrite lookup_insert_eq. split; [done|]. split; [by apply Hd|done].
Qed.
Lemma flush_pairs st level ves : VersionBuilder.added_pairs [flush_edit st level ves] = match ves with [] => [] | _ => [(level, Manifest.next_file_number (versions st))] end.
Proof. by destruct ves. Qed.

(** Installing the edit, from a table that is there. *)
Lemma install_flush st st1 (mem : @MemTable.MemTable Rng) Ls ves A had tables level :
  Kept st A had tables -> Kept st1 A had tables -> MemTable.holds mem Ls ves -> 0 <= level <= 2 -> versions st1 = snd (Manifest.new_file_number (versions st)) ->
  Manifest.next_file_number (versions st) < 2 ^ 64 - 3 -> u64_ok (logfile_number st) -> size (image opts (entries ves)) < 2 ^ 32 ->
  (ves <> [] -> durable (disk st1) (TABLE (Manifest.next_file_number (versions st))) (image opts (entries ves))) ->
  let A' := with_flushed st A level ves in
  let tables' := with_image st tables ves in
  exists s vs2 d2, Manifest.log_and_apply dbname (versions st1) (disk st1) (flush_edit st level ves) = Some (s, vs2, d2) /\
  d_ok d2 /\ apart (manifest_name dbname (Manifest.manifest_file_number (versions st1))) (disk st1) d2 /\
  stored_in d2 A tables' /\ stored_in d2 A' tables' /\
  (is_ok s = true -> Kept (drop_imm (set_disk (set_versions st1 vs2) d2 (table_cache st1))) A' (had ++ VersionBuilder.added_pairs [flush_edit st level ves]) tables' /\
     exists log, Manifest.descriptor_log vs2 = Some log) /\
  forall im, cut d2 im -> exists s' vs0 im', Manifest.recover dbname Manifest.VersionSet_new im = Some (s', vs0, im') /\
    ((exists A'' k, s' = ok /\ ManifestSafe.found vs0 A'' k /\ (A'' = A' \/ is_ok s = false /\ A'' = A)) \/ (is_ok s = false /\ is_corruption s' = true)).
Proof.
  clear Hcap Hi. intros K K1 Hh Hlev Ev Hn Hlog Hsz Hdur A' tables'. set (n := Manifest.next_file_number (versions st)) in *.
  pose proof (k_good _ _ _ _ K1) as G1. pose proof (ManifestSafe.g_disk _ _ _ _ _ _ G1) as Hd1.
  destruct (ManifestSafe.g_numbers _ _ _ _ _ _ (k_good _ _ _ _ K)) as (_ & _ & _ & M1 & M2). fold n in M1, M2.
  destruct (ManifestSafe.g_numbers _ _ _ _ _ _ G1) as (_ & _ & _ & M3 & _).
  destruct (good_bump _ _ _ _ _ (k_good _ _ _ _ K) ltac:(fold n; lia)) as [_ En]. fold n in En. rewrite <- Ev in En.
  assert (ManifestSafe.installed (versions st1) (ManifestSafe.a_files A) (flush_edit st level ves) = A') as EA.
  { rewrite Ev. apply installed_flush; fold n; lia. }
  pose proof Hh as [_ HF]. destruct (flush_edit_ok st level ves HF Hlev) as [He Hce]; [unfold u64_ok; fold n; lia|done|done|].
  assert (NoDup (had ++ VersionBuilder.added_pairs [flush_edit st level ves])) as Hnd.
  { apply NoDup_app. split; [apply (k_nodup _ _ _ _ K)|]. rewrite flush_pairs. fold n. split; [|destruct ves; [constructor|apply NoDup_singleton]].
    intros [l k] Hin. destruct ves; [by intros ?%elem_of_nil|]. intros [= _ ->]%list_elem_of_singleton. apply (k_had _ _ _ _ K) in Hin. fold n in Hin. lia. }
  destruct (ManifestSafe.log_and_apply_atomic dbname (versions st1) (disk st1) (ManifestSafe.a_files A) (eq A) had (flush_edit st level ves) G1 He Hce Hnd ltac:(lia))
    as (s & vs2 & d2 & E & Hgood & Hcut). rewrite EA in Hgood, Hcut. exists s, vs2, d2. split; [done|].
  assert (forall w i, Manifest.descriptor_log (versions st1) = Some (w, i) -> live (disk st1) !! descriptor_file_name dbname (Manifest.manifest_file_number (versions st1)) = Some i) as Hlive.
  { intros w i Ed. pose proof (ManifestSafe.g_manifest _ _ _ _ _ _ G1) as H. rewrite Ed in H. destruct H as (edits & c & _ & H & _).
    by apply (ManifestSafe.pt_manifest _ _ _ _ _ _ (ManifestSafe.named_live _ _ _ _ _ H)). }
  destruct (log_and_apply_apart dbname _ _ _ _ _ _ Hd1 Hlive E) as [Hd2 A2].
  assert (forall k b, 0 <= k < 2 ^ 64 -> durable (disk st1) (TABLE k) b -> durable d2 (TABLE k) b) as Hkeep.
  { intros k b Hk. apply (durable_apart _ _ _ _ _ Hd1 A2). apply (table_name_not_in_manifest dbname k Hk). lia. }
  assert (forall l k m, ManifestSafe.a_files A !! (l, k) = Some m -> k <> n) as Hold.
  { intros l k m H. destruct (table_known _ _ _ _ _ _ _ K H) as (Hk & _). fold n in Hk. lia. }
  assert (stored_in d2 A tables) as S2.
  { intros l k m H. destruct (k_tables _ _ _ _ K1 l k m H) as (b & H1 & H2 & H3). exists b. split; [done|]. split; [|done]. apply Hkeep; [|done].
    destruct (table_known _ _ _ _ _ _ _ K H). lia. }
  destruct (stored_flushed st d2 A tables level ves S2 Hold) as [S3 S4]. specialize (S4 (λ H, Hkeep n _ ltac:(lia) (Hdur H))).
  split; [done|]. split; [done|]. split; [done|]. split; [done|]. split.
  - intros Hs. destruct (log_and_apply_fields dbname _ _ _ _ _ _ E Hd1 Hs) as (Hd & Em & Enx). split; [|done].
    split; cbn [versions disk table_cache drop_imm set_disk set_versions]; [by apply Hgood|exact S4| |done|apply (k_cache _ _ _ _ K1)].
    intros l k [Hin|Hin]%elem_of_app; rewrite Enx, En; [apply (k_had _ _ _ _ K) in Hin; fold n in Hin; lia|].
    rewrite flush_pairs in Hin. fold n in Hin. destruct ves; [by apply elem_of_nil in Hin|]. apply list_elem_of_singleton in Hin as [= _ ->]. lia.
  - intros im Hc. destruct (Hcut im Hc) as (s' & vs0 & im' & Er & [(A'' & k & -> & HA & Hf & _)|H]); exists s', vs0, im' || exists ok, vs0, im'; (split; [done|]); [left|by right].
    exists A'', k. split; [done|]. split; [done|]. destruct HA as [->|[Hs <-]]; [by left|by right].
Qed.

(** * Theorem *)

End Kept.

(** ** Example

    A new database, its log with one write in it, and that write's memtable. *)
Lemma put_file_apart d path b :
  d_ok d -> d_pending d = [] -> live d !! path = None ->
  let d' := mkDisk (d_inodes d ++ [reopened b]) (<[path := length (d_inodes d)]> (d_durable d)) [] (d_faults d) (d_file_faults d) in
  d_ok d' /\ apart (eq path) d d' /\ durable d' path b.
Proof.
  intros Hd Hp Hl d'. assert (forall k, names_at d k = d_durable d) as N by (intros k; unfold names_at; by rewrite Hp, take_nil).
  assert (forall k, names_at d' k = <[path := length (d_inodes d)]> (d_durable d)) as N' by (intros k; unfold names_at; cbn; by rewrite take_nil).
  assert (live d = d_durable d /\ live d' = <[path := length (d_inodes d)]> (d_durable d)) as [L L'] by (split; [apply N|apply N']).
  pose proof (Hd 0%nat) as W. rewrite N in W. split; [|split].
  - intros k. rewrite N'. apply wf_link; [apply (wf_more d); [cbn; rewrite length_app; lia|done]|cbn; rewrite length_app; cbn; lia|].
    intros a Ha. apply (wn_range _ _ W) in Ha. lia.
  - split.
    + cbn. rewrite length_app. lia.
    + intros k. exists k. intros name Hn. rewrite N, N'. by apply lookup_insert_ne.
    + intros name Hn. rewrite L, L'. by apply lookup_insert_ne.
    + intros k name j. rewrite N'. intros [[<- <-]|[_ H]]%lookup_insert_Some; [right; split; [done|by right]|left; exists 0%nat; by rewrite N].
    + intros j node Hj _. cbn. rewrite lookup_app_l; [done|by eapply lookup_lt_Some].
  - exists (length (d_inodes d)), (reopened b). split; [intros k; rewrite N'; apply lookup_insert_eq|].
    split; [cbn; by rewrite lookup_app_r, Nat.sub_diag|apply ManifestSafe.settled_reopened].
Qed.

Definition sample_disk (b : bytes) : Disk :=
  let d := match Manifest.recover ManifestSafe.sample_name Manifest.VersionSet_new ManifestSafe.sample_image with Some (_, _, d) => d | None => ManifestSafe.sample_disk end in
  mkDisk (d_inodes d ++ [reopened b]) (<[log_file_name ManifestSafe.sample_name 5 := length (d_inodes d)]> (d_durable d)) [] (d_faults d) (d_file_faults d).
Definition sample_write : MemTable.Version := MemTable.mkVersion 3 kValue [x61] [x31].
Definition sample_mem : @MemTable.MemTable Z :=
  default (MemTable.MemTable_new 0) (MemTable.add MemTable.counter (MemTable.MemTable_new 0) 3 kValue [x61] [x31]).
Definition sample_db : @Db Z :=
  mkDb (sample_disk [x31]) TableCache.TableCache_new ManifestSafe.sample_set [] [] (Some sample_mem) 6 false ok (replicate 7 0) 0.
Definition anything (n : Z) (rep : Table.Rep) : Prop := True.
Lemma sample_holds : exists Ls, MemTable.holds sample_mem Ls [sample_write].
Proof.
  destruct (MemTable.add_holds MemTable.counter (MemTable.MemTable_new 0) (λ _, []) [] sample_write (MemTable.holds_new 0)) as (m & Ls & E & H).
  - repeat constructor; vm_compute; congruence.
  - intros a Ha. by apply elem_of_nil in Ha.
  - exists Ls. unfold sample_mem. cbn [sample_write MemTable.v_sequence MemTable.v_type MemTable.v_key MemTable.v_value] in E. by rewrite E.
Qed.
Lemma sample_disk_good b :
  ManifestSafe.Good ManifestSafe.sample_name ManifestSafe.sample_set (sample_disk b) ∅ (eq ManifestSafe.empty_state) [] /\
  durable (sample_disk b) (log_file_name ManifestSafe.sample_name 5) b.
Proof.
  destruct ManifestSafe.sample_good as (d & Er & G). pose proof (ManifestSafe.g_disk _ _ _ _ _ _ G) as Hd.
  assert (d_pending d = [] /\ live d !! log_file_name ManifestSafe.sample_name 5 = None) as [Hp Hl].
  { assert ((λ x, (d_pending x.2, live x.2 !! log_file_name ManifestSafe.sample_name 5)) <$> Manifest.recover ManifestSafe.sample_name Manifest.VersionSet_new ManifestSafe.sample_image
      = Some ([], None)) as H by (vm_compute; reflexivity). rewrite Er in H. cbn [fmap option_fmap option_map snd] in H. injection H as H1 H2. split; [exact H1|exact H2]. }
  assert (sample_disk b = mkDisk (d_inodes d ++ [reopened b]) (<[log_file_name ManifestSafe.sample_name 5 := length (d_inodes d)]> (d_durable d)) [] (d_faults d) (d_file_faults d)) as Es
    by (unfold sample_disk; by rewrite Er).
  destruct (put_file_apart d (log_file_name ManifestSafe.sample_name 5) b Hd Hp Hl) as (Hd' & A & Hdur). rewrite <- Es in Hd', A, Hdur.
  split; [|done]. eapply good_apart; [exact G|done|exact A| |].
  - intros E. destruct (names_parse ManifestSafe.sample_name 5 ltac:(lia)) as (El & _ & _ & _ & Ec & _). rewrite E, Ec in El. discriminate.
  - intros n Hn _ E. destruct (names_parse ManifestSafe.sample_name 5 ltac:(lia)) as (El & _). destruct (names_parse ManifestSafe.sample_name n Hn) as (_ & _ & _ & En & _).
    rewrite E, En in El. discriminate.
Qed.
Lemma sample_cache_ok : TableCache.Inv anything TableCache.TableCache_new [] /\ TableCache.bounded 1 (TableCache.TableCache_new (T := Table.Rep)).
Proof. split; [apply TableCache.new_inv|]. intros i sh. cbn [TableCache.shards TableCache.TableCache_new]. intros [-> _]%lookup_replicate. cbn. rewrite map_size_empty. lia. Qed.
Lemma sample_kept : Kept ManifestSafe.sample_name 1 anything sample_db ManifestSafe.empty_state [] ∅.
Proof.
  split; cbn [versions disk table_cache sample_db].
  - apply sample_disk_good.
  - intros l n m H. cbn [ManifestSafe.a_files ManifestSafe.empty_state] in H. by rewrite lookup_empty in H.
  - intros l n H. apply elem_of_nil in H. destruct H.
  - constructor.
  - exact sample_cache_ok.
Qed.

Lemma sample_no_files level : Version.level_files (Manifest.current ManifestSafe.sample_set) level = [].
Proof.
  assert (Version.files_ (Manifest.current ManifestSafe.sample_set) = replicate 7 []) as E by (vm_compute; reflexivity).
  unfold Version.level_files. rewrite E. destruct (replicate 7 [] !! level) eqn:El; [|reflexivity]. by apply lookup_replicate in El as [-> _].
Qed.
End Flush.
