(* ===== verification/DbRecover.v ===== *)
(** Opening a database ([DBImpl::recover], [DBImpl::recover_log_file] and
    [DB::open] of src/src/db_impl.cpp): the manifest, then every log it has not
    folded in, replayed into memtables and written out as tables, then the edit
    that names them. *)
From stdpp Require Import gmap sorting.
From S2P Require Import Prelude Status File Encoding DbFormat Comparator Bloom FilterBlock BlockBuilder Iterator Format TableBuilder Table TwoLevelIterator.
From S2P Require Import Filename Wal SkipList WriteBatch VersionEdit MemTable Version VersionBuilder Compaction CacheClient WriteGroup VersionGet DbRead TableCache Disk Manifest ManifestSafe BuildTable Flush.
Import Status File Encoding DbFormat Comparator Bloom Iterator Format Filename VersionEdit Disk BuildTable Flush.
Local Open Scope Z_scope.

Module DbRecover.

(** * The operations *)
Section Recover.
Context {Rng : Type} (rng_next : Rng -> Z * Rng) (seed : Rng).
Context (dbname : bytes) (options : TableBuilder.Options) (max_file_size : Z) (address : BlockHandle -> Z) (cap : nat).
(** [approximate_memory_usage]: whatever the arena reports. *)
Context (usage : @MemTable.MemTable Rng -> Z).
Record DbOptions := mkDbOptions { create_if_missing : bool; error_if_exists : bool; write_buffer_size : Z }.
Context (opts : DbOptions).
Abbreviation Db := (@Db Rng).

(** ** One log *)
Record Replay := mkReplay {
  rp_mem : option (@MemTable.MemTable Rng);
  rp_edit : VersionEdit;
  rp_max : Z;
  rp_db : Db
}.

(** [max_sequence] after a batch; an empty one has no sequence number. *)
Definition new_max (b : WriteBatch.WriteBatch) (max : Z) : option Z :=
  count ← WriteBatch.count b;
  sequence ← WriteBatch.sequence b;
  if 0 <? count then
    let last := u64 (sequence + count - 1) in
    Some (if max <? last then last else max)
  else Some max.

(** The body of the loop: a record of the log. *)
Definition log_record (record : bytes) (rp : Replay) : option (Status * Replay) :=
  if size record <? 12 then Some (corruption "log record is too short to be a batch", rp)
  else
    let (s, batch) := WriteBatch.set_contents WriteBatch.clear record in
    if negb (is_ok s) then Some (s, rp)
    else
      let mem := match rp_mem rp with Some m => m | None => MemTable.ref (MemTable.MemTable_new seed) end in
      let (s, mem) := WriteBatch.insert_into (MemTable.add_op rng_next) batch (Some mem) in
      mem ← mem;
      if negb (is_ok s) then Some (s, mkReplay (Some mem) (rp_edit rp) (rp_max rp) (rp_db rp))
      else
        max ← new_max batch (rp_max rp);
        if write_buffer_size opts <? usage mem then
          '(s, edit, st) ← write_level0_table dbname options max_file_size address cap mem (rp_edit rp) None (rp_db rp);
          Some (s, mkReplay None edit max st)
        else Some (ok, mkReplay (Some mem) (rp_edit rp) max (rp_db rp)).

(** The loop; a record takes seven bytes at least. *)
Fixpoint replay_log (fuel : nat) (r : Wal.LogReader) (rp : Replay) : option (Status * Wal.LogReader * Replay) :=
  match fuel with
  | O => None
  | S fuel =>
      '(record, r) ← Wal.read_record r;
      match record with
      | None => Some (ok, r, rp)
      | Some record =>
          '(s, rp) ← log_record record rp;
          if is_ok s then replay_log fuel r rp else Some (s, r, rp)
      end
  end.

Definition recover_log_file (log_number : Z) (edit : VersionEdit) (max_sequence : Z) (st : Db) :
    option (Status * VersionEdit * Z * Db) :=
  match open_sequential (disk st) (log_file_name dbname log_number) with
  | (inl s, d) => Some (s, edit, max_sequence, set_disk st d (table_cache st))
  | (inr file, d) =>
      '(s, r, rp) ← replay_log (S (length (sf_rest file))) (Wal.LogReader_new file)
                      (mkReplay None edit max_sequence (set_disk st d (table_cache st)));
      let s :=
        if is_ok s && Wal.damaged r then
          corruption ("log " +:+ to_string log_number +:+ " stops before its end (" +:+ Wal.failure_reason_ r +:+
            ") and not at a torn tail: records or unread bytes follow, and replaying up to the stop would silently drop the writes they hold")
        else s in
      match rp_mem rp with
      | Some mem =>
          if is_ok s then
            '(s, edit, st) ← write_level0_table dbname options max_file_size address cap mem (rp_edit rp) None (rp_db rp);
            Some (s, edit, rp_max rp, st)
          else Some (s, rp_edit rp, rp_max rp, rp_db rp)
      | None => Some (s, rp_edit rp, rp_max rp, rp_db rp)
      end
  end.

(** ** All logs *)
Definition set_next_file_number (vs : Manifest.VersionSet) (n : Z) : Manifest.VersionSet :=
  Manifest.mkSet n (Manifest.manifest_file_number vs) (Manifest.last_sequence vs) (Manifest.log_number vs) (Manifest.prev_log_number vs)
    (Manifest.descriptor_log vs) (Manifest.manifest_bytes vs) (Manifest.current vs) (Manifest.compact_pointer vs) (Manifest.fresh_address vs).
Definition set_last_sequence (vs : Manifest.VersionSet) (n : Z) : Manifest.VersionSet :=
  Manifest.mkSet (Manifest.next_file_number vs) (Manifest.manifest_file_number vs) n (Manifest.log_number vs) (Manifest.prev_log_number vs)
    (Manifest.descriptor_log vs) (Manifest.manifest_bytes vs) (Manifest.current vs) (Manifest.compact_pointer vs) (Manifest.fresh_address vs).
Definition add_manifest_bytes (vs : Manifest.VersionSet) (n : Z) : Manifest.VersionSet :=
  Manifest.mkSet (Manifest.next_file_number vs) (Manifest.manifest_file_number vs) (Manifest.last_sequence vs) (Manifest.log_number vs) (Manifest.prev_log_number vs)
    (Manifest.descriptor_log vs) (u64 (Manifest.manifest_bytes vs + n)) (Manifest.current vs) (Manifest.compact_pointer vs) (Manifest.fresh_address vs).
Definition mark_used (st : Db) (n : Z) : Db :=
  set_versions st (set_next_file_number (versions st) (Manifest.mark_file_number_used (Manifest.next_file_number (versions st)) n)).

Fixpoint recover_logs (logs : list Z) (edit : VersionEdit) (max_sequence : Z) (st : Db) : option (Status * VersionEdit * Z * Db) :=
  match logs with
  | [] => Some (ok, edit, max_sequence, st)
  | k :: logs =>
      '(s, edit, max_sequence, st) ← recover_log_file k edit max_sequence st;
      if is_ok s then recover_logs logs edit max_sequence (mark_used st k) else Some (s, edit, max_sequence, st)
  end.

(** What listing the directory gives: the tables not seen, and the logs to
    replay. *)
Fixpoint scan_names (names : list bytes) (min_log prev_log : Z) (expected : gset Z) (logs : list Z) : gset Z * list Z :=
  match names with
  | [] => (expected, logs)
  | name :: names =>
      match parse_file_name name with
      | None => scan_names names min_log prev_log expected logs
      | Some (number, type) =>
          scan_names names min_log prev_log (expected ∖ {[ number ]})
            (if bool_decide (type = kLog) && ((min_log <=? number) || (number =? prev_log)) then logs ++ [number] else logs)
      end
  end.

(** The second half of [DBImpl::recover], after [versions_->recover]. *)
Definition recover_rest (st : Db) (edit : VersionEdit) : option (Status * VersionEdit * Db) :=
  let vs := versions st in
  let expected := list_to_set (DbRead.add_live_files (Manifest.current vs :: others st) []) in
  let '(s, names, d) := list_directory dbname (disk st) in
  let st := set_disk st d (table_cache st) in
  if negb (is_ok s) then Some (s, edit, st)
  else
    let (expected, logs) := scan_names names (Manifest.log_number vs) (Manifest.prev_log_number vs) expected [] in
    match elements expected with
    | n :: rest =>
        Some (corruption ("the manifest references " +:+ to_string (Z.of_nat (length (n :: rest))) +:+ " missing table file(s), the first being " +:+
                to_string (fold_left Z.min rest n) +:+ ".sst"), edit, st)
    | [] =>
        '(s, edit, max_sequence, st) ← recover_logs (merge_sort Z.le logs) edit 0 st;
        if negb (is_ok s) then Some (s, edit, st)
        else
          let vs := versions st in
          Some (ok, edit, if Manifest.last_sequence vs <? max_sequence then set_versions st (set_last_sequence vs max_sequence) else st)
    end.

(** [count_data_files]. *)
Definition is_data_file (name : bytes) : bool :=
  match parse_file_name name with Some (_, kTable) | Some (_, kLog) => true | _ => false end.
Definition count_data_files (names : list bytes) : Z := Z.of_nat (length (filter (λ name, is_data_file name = true) names)).

(** The first half: the directory, the lock - two calls that may fail - and a
    database to open or to create. *)
Definition recover (st : Db) (edit : VersionEdit) : option (Status * VersionEdit * Db) :=
  let vs := versions st in
  let fail s vs d := Some (s, edit, set_disk (set_versions st vs) d (table_cache st)) in
  let (no_directory, d) := next_fault (disk st) in
  if no_directory then fail (io_error "cannot create directory") vs d
  else
    let (no_lock, d) := next_fault d in
    if no_lock then fail (io_error "cannot lock") vs d
    else
      '(s, vs, d) ←
        (if bool_decide (live d !! current_file_name dbname = None) then
           if negb (create_if_missing opts) then
             Some (invalid_argument ("database does not exist in '" +:+ String.string_of_list_byte dbname +:+ "' and create_if_missing is false"), vs, d)
           else
             let '(s, names, d) := list_directory dbname d in
             if negb (is_ok s) then Some (s, vs, d)
             else if 0 <? count_data_files names then
               Some (corruption ("'" +:+ String.string_of_list_byte dbname +:+ "' has no CURRENT file but holds " +:+ to_string (count_data_files names) +:+
                       " table or log file(s): this is a database whose CURRENT was lost, not an empty directory, and creating a new database over it would delete them.  To start over, remove the directory."), vs, d)
             else
               '(s, bytes, d) ← Manifest.new_db dbname d;
               Some (s, add_manifest_bytes vs bytes, d)
         else if error_if_exists opts then
           Some (invalid_argument ("database already exists in '" +:+ String.string_of_list_byte dbname +:+ "' and error_if_exists is true"), vs, d)
         else Some (ok, vs, d));
      if negb (is_ok s) then fail s vs d
      else
        '(s, vs, d) ← Manifest.recover dbname vs d;
        let st := set_disk (set_versions st vs) d (table_cache st) in
        if negb (is_ok s) then Some (s, edit, st) else recover_rest st edit.

(** ** DB::open

    The file of the new log, and a database with an empty memtable. *)
Definition set_logfile (st : Db) (n : Z) : Db :=
  mkDb (disk st) (table_cache st) (versions st) (others st) (pending_outputs st) (imm st) n (shutting_down st) (background_error st)
    (bytes_written st) (flush_bytes st).
Definition open_log (st : Db) (edit : VersionEdit) : Status * VersionEdit * Db * option nat :=
  let (n, vs) := Manifest.new_file_number (versions st) in
  let st := set_versions st vs in
  match create (disk st) (log_file_name dbname n) with
  | (inl s, d) => (s, edit, set_disk st d (table_cache st), None)
  | (inr i, d) => (ok, set_log_number edit n, set_logfile (set_disk st d (table_cache st)) n, Some i)
  end.
(** The edit that records the open, and the clean-up. *)
Definition open_install (st : Db) (edit : VersionEdit) (log : option nat) : option (Status * Db * option nat) :=
  let edit := set_log_number (set_prev_log_number edit 0) (logfile_number st) in
  '(s, vs, d) ← Manifest.log_and_apply dbname (versions st) (disk st) edit;
  let st := set_disk (set_versions st vs) d (table_cache st) in
  if is_ok s then
    st ← remove_obsolete_files dbname st;
    Some (s, st, log)
  else Some (s, st, log).
Definition open_after (st : Db) (edit : VersionEdit) : option (Status * Db * option nat) :=
  let '(s, edit, st, log) := open_log st edit in
  if is_ok s then open_install st edit log else Some (s, st, log).
Definition open (st : Db) : option (Status * Db * option nat) :=
  '(s, edit, st) ← recover st clear;
  if is_ok s then open_after st edit else Some (s, st, None).
End Recover.

(** The check for missing tables goes by number alone: a log, of the same
    number as a table that is not there, passes for it. *)
Example log_passes_for_a_table : scan_names [string_bytes "000005.log"] 9 0 {[ 5 ]} [] = (∅, []).
Proof. vm_compute. reflexivity. Qed.

(** * Replaying *)
Abbreviation Batch := (Z * list WriteBatch.Op)%type.
Abbreviation Chunk := (Z * list MemTable.Version)%type.
Abbreviation LOG := log_file_name.

(** A batch as the engine writes it. *)
Definition batch_ok (b : Batch) : Prop :=
  Forall MemTable.op_fits b.2 /\ Z.of_nat (length b.2) < 2 ^ 32 /\ 0 <= b.1 /\ b.1 + Z.of_nat (length b.2) <= kMaxSequenceNumber.
(** No batch of a log reuses a sequence number of one before it. *)
Fixpoint increasing (from : Z) (bs : list Batch) : Prop :=
  match bs with
  | [] => True
  | b :: bs => from <= b.1 /\ batch_ok b /\ increasing (b.1 + Z.of_nat (length b.2)) bs
  end.
Definition in_batches (bs : list Batch) (v : MemTable.Version) : Prop := exists b, b ∈ bs /\ v ∈ WriteGroup.versions_of b.
Definition in_chunks (chunks : list Chunk) (v : MemTable.Version) : Prop := exists c, c ∈ chunks /\ v ∈ c.2.

Section Replaying.
Context {Rng : Type} (rng_next : Rng -> Z * Rng) (seed : Rng).
Context (dbname : bytes) (topts : TableBuilder.Options) (max_file_size : Z) (address : BlockHandle -> Z) (cap : nat) (Hcap : (0 < cap)%nat).
Context (Hi : 1 <= TableBuilder.block_restart_interval topts) (Hpol : forall p, TableBuilder.filter_policy topts = Some p -> FilterPolicyLaws p).
Context (P : Z -> Table.Rep -> Prop) (HP : forall n es, right_tables topts address es P n).
Context (usage : @MemTable.MemTable Rng -> Z) (opts : DbOptions).
Abbreviation TABLE := (table_file_name dbname).
Abbreviation Kept := (Kept (Rng := Rng) dbname cap P).

Definition with_tables (edit : VersionEdit) (chunks : list Chunk) : VersionEdit :=
  fold_left (λ e c, with_table topts e 0 c.1 c.2) chunks edit.

(** The database found: its state, the files it had, its tables; the first
    number it may use, and the logs with what they hold. *)
Context (A : ManifestSafe.State) (had : list (Z * Z)) (tables : gmap Z bytes) (first : Z) (logs : gmap Z (bytes * list Batch)).
(** Every memtable of what the logs hold fits a table. *)
Context (Hfit : forall (m : @MemTable.MemTable Rng) Ls ves, MemTable.holds m Ls ves ->
  (forall v, v ∈ ves -> exists k b bs, logs !! k = Some (b, bs) /\ in_batches bs v) ->
  TableBuilder.weight (entries ves) < 2 ^ 32 /\ size (image topts (entries ves)) < 2 ^ 32).
Context (B : Z) (Hfirst : 0 <= first) (Hlogs : forall k b bs, logs !! k = Some (b, bs) -> 0 <= k < B).

(** What has been done: the tables written, of the batches [done], with at
    most [used] numbers, every number under [low] taken. *)
Record Rec (low : Z) (used : nat) (st : @Db Rng) (edit : VersionEdit) (chunks : list Chunk) (done : list Batch) : Prop := {
  rc_kept : Kept st A had tables;
  rc_edit : edit = with_tables clear chunks;
  rc_durable c : c ∈ chunks -> c.2 <> [] -> durable (disk st) (TABLE c.1) (image topts (entries c.2));
  rc_numbers c : c ∈ chunks -> first <= c.1 < Manifest.next_file_number (versions st);
  rc_nodup : NoDup chunks.*1;
  rc_ok c : c ∈ chunks -> Forall MemTable.version_ok c.2 /\ size (image topts (entries c.2)) < 2 ^ 32;
  rc_cover v : in_chunks chunks v <-> in_batches done v;
  rc_next : first <= Manifest.next_file_number (versions st) <= B + Z.of_nat used;
  rc_logs k b bs : logs !! k = Some (b, bs) -> durable (disk st) (LOG dbname k) b;
  rc_still : imm st = None /\ background_error st = ok;
  rc_low : low <= Manifest.next_file_number (versions st);
  rc_set : Manifest.descriptor_log (versions st) = None /\ Manifest.compact_pointer (versions st) = ManifestSafe.a_pointers A
}.

Lemma with_tables_snoc edit chunks n ves : with_tables edit (chunks ++ [(n, ves)]) = with_table topts (with_tables edit chunks) 0 n ves.
Proof. unfold with_tables. by rewrite fold_left_app. Qed.
Lemma in_chunks_snoc chunks n ves v : in_chunks (chunks ++ [(n, ves)]) v <-> in_chunks chunks v \/ v ∈ ves.
Proof.
  unfold in_chunks. setoid_rewrite elem_of_app. setoid_rewrite list_elem_of_singleton. split.
  - intros (c & [Hc| ->] & Hv); [left; by exists c|by right].
  - intros [(c & Hc & Hv)|Hv]; [by exists c; auto|exists (n, ves); auto].
Qed.
Lemma in_batches_app bs bs' v : in_batches (bs ++ bs') v <-> in_batches bs v \/ in_batches bs' v.
Proof. unfold in_batches. setoid_rewrite elem_of_app. naive_solver. Qed.

(** ** One table *)
Lemma write_chunk {low} used st edit chunks done pending (m : @MemTable.MemTable Rng) :
  Rec low used st edit chunks done -> WriteGroup.mem_holds m pending -> B + Z.of_nat used + 1 < 2 ^ 64 ->
  (forall v, in_batches pending v -> exists k b bs, logs !! k = Some (b, bs) /\ in_batches bs v) ->
  exists s edit' st' chunks', write_level0_table dbname topts max_file_size address cap m edit None st = Some (s, edit', st') /\
    Rec low (S used) st' edit' chunks' (if is_ok s then done ++ pending else done).
Proof.
  intros R (Ls & ves & Hh & Hves) Hroom Hin. destruct (Hfit m Ls ves Hh) as [Hw Hsz].
  { intros v Hv. apply Hin. by apply Hves. }
  set (n := Manifest.next_file_number (versions st)). pose proof (rc_next _ _ _ _ _ _ R) as [Hn1 Hn2]. fold n in Hn1, Hn2.
  pose proof (rc_kept _ _ _ _ _ _ R) as K. pose proof (k_good _ _ _ _ _ _ _ K) as G. pose proof (ManifestSafe.g_disk _ _ _ _ _ _ G) as Hd.
  destruct (ManifestSafe.g_numbers _ _ _ _ _ _ G) as (_ & _ & _ & N4 & _). fold n in N4.
  destruct (write_level0_spec dbname topts max_file_size address cap Hcap Hi Hpol P HP m Ls ves edit None st A had tables K Hh Hw Hsz ltac:(fold n; lia) ltac:(done))
    as (s & level & st' & E & _ & Hl & K' & Ap & Ev & _ & Ei & _ & _ & Eb & Hdur). fold n in E, Ap, Hdur. rewrite (Hl eq_refl) in E. change (Z.of_nat 0) with 0 in E.
  assert (Manifest.next_file_number (versions st') = n + 1) as En.
  { rewrite Ev. eapply good_bump; [exact G|]. fold n. lia. }
  assert (forall path b, path <> TABLE n -> durable (disk st) path b -> durable (disk st') path b) as Hkeep.
  { intros path b Hp. apply (durable_apart _ _ _ _ _ Hd Ap). congruence. }
  assert (forall k b bs, logs !! k = Some (b, bs) -> durable (disk st') (LOG dbname k) b) as Hlk.
  { intros k b bs Hk. apply Hkeep; [|by eapply (rc_logs _ _ _ _ _ _ R)]. pose proof (Hlogs _ _ _ Hk). apply log_name_not_table; lia. }
  assert (forall c, c ∈ chunks -> c.1 <> n) as Hne by (intros c Hc; pose proof (rc_numbers _ _ _ _ _ _ R c Hc) as H; fold n in H; lia).
  assert (forall c, c ∈ chunks -> c.2 <> [] -> durable (disk st') (TABLE c.1) (image topts (entries c.2))) as Hck.
  { intros c Hc H0. apply Hkeep; [|by apply (rc_durable _ _ _ _ _ _ R)]. pose proof (rc_numbers _ _ _ _ _ _ R c Hc) as H. fold n in H.
    intros Ec. apply (table_name_inj dbname c.1 ltac:(lia) n ltac:(lia)) in Ec. by apply (Hne c). }
  destruct (is_ok s) eqn:Es; exists s.
  - eexists _, st', (chunks ++ [(n, ves)]). split; [exact E|]. rewrite Es. split; rewrite ?En; try done.
    + by rewrite with_tables_snoc, <- (rc_edit _ _ _ _ _ _ R).
    + intros c [Hc|Hc]%elem_of_app; [by apply Hck|]. apply list_elem_of_singleton in Hc as ->. intros H0. by apply Hdur.
    + intros c [Hc|Hc]%elem_of_app; [pose proof (rc_numbers _ _ _ _ _ _ R c Hc) as H; fold n in H; lia|]. apply list_elem_of_singleton in Hc as ->. cbn. lia.
    + rewrite fmap_app. apply NoDup_app. split; [apply (rc_nodup _ _ _ _ _ _ R)|]. split; [|apply NoDup_singleton].
      intros k Hk Hk'%list_elem_of_singleton. subst k. apply list_elem_of_fmap in Hk as (c & Ec & Hc). by apply (Hne c).
    + intros c [Hc|Hc]%elem_of_app; [by apply (rc_ok _ _ _ _ _ _ R)|]. apply list_elem_of_singleton in Hc as ->. split; [apply Hh|done].
    + intros v. rewrite in_chunks_snoc, in_batches_app, (rc_cover _ _ _ _ _ _ R). by rewrite Hves.
    + lia.
    + rewrite Ei, Eb. apply (rc_still _ _ _ _ _ _ R).
    + pose proof (rc_low _ _ _ _ _ _ R) as Hlow. fold n in Hlow. lia.
    + rewrite Ev. apply (rc_set _ _ _ _ _ _ R).
  - eexists _, st', chunks. split; [exact E|]. rewrite Es. destruct R as [R1 R2 R3 R4 R5 R6 R7 R8 R9 R10 R11 R12]. split; rewrite ?En; try done.
    + intros c Hc. specialize (R4 c Hc). fold n in R4. lia.
    + lia.
    + by rewrite Ei, Eb.
    + fold n in R11. lia.
    + by rewrite Ev.
Qed.

Lemma rec_more {low} used used' st edit chunks done : Rec low used st edit chunks done -> (used <= used')%nat -> Rec low used' st edit chunks done.
Proof. intros [R1 R2 R3 R4 R5 R6 R7 R8 R9 R10 R11 R12] Hu. split; try done. lia. Qed.

(** ** One batch *)
Record At (low : Z) (used : nat) (rp : Replay) (chunks : list Chunk) (flushed pending : list Batch) (from : Z) : Prop := {
  at_rec : Rec low used (rp_db rp) (rp_edit rp) chunks flushed;
  at_mem : match rp_mem rp with Some m => WriteGroup.mem_holds m pending | None => pending = [] end;
  at_below v : in_batches pending v -> MemTable.v_sequence v < from;
  at_max v : in_batches (flushed ++ pending) v -> MemTable.v_sequence v <= rp_max rp;
  at_small : 0 <= rp_max rp <= kMaxSequenceNumber
}.

Lemma new_max_spec b max : batch_ok b -> 0 <= max <= kMaxSequenceNumber ->
  exists max', new_max (WriteBatch.mkBatch (WriteGroup.encode_batch b)) max = Some max' /\ max <= max' <= kMaxSequenceNumber /\
    forall v, v ∈ WriteGroup.versions_of b -> MemTable.v_sequence v <= max'.
Proof.
  intros (_ & Hl & H0 & Hm) Hmax. change kMaxSequenceNumber with (2 ^ 56 - 1) in *. unfold new_max, WriteGroup.encode_batch.
  rewrite WriteBatch.count_encoded, WriteBatch.sequence_encoded. cbn [mbind option_bind]. rewrite u32_small, (u64_small b.1) by lia.
  assert (forall v, v ∈ WriteGroup.versions_of b -> b.2 <> [] /\ MemTable.v_sequence v <= b.1 + Z.of_nat (length b.2) - 1) as Hv.
  { intros v (i & op & Hi0 & ->)%WriteGroup.elem_versions. rewrite MemTable.op_version_sequence. apply lookup_lt_Some in Hi0 as Hlt.
    split; [intros E; rewrite E in Hlt; cbn in Hlt; lia|lia]. }
  destruct (Z.ltb_spec 0 (Z.of_nat (length b.2))) as [Hc|Hc].
  - rewrite u64_small by lia. destruct (Z.ltb_spec max (b.1 + Z.of_nat (length b.2) - 1)); eexists; (split; [done|]); (split; [lia|]);
      intros v Hin; destruct (Hv v Hin); lia.
  - exists max. split; [done|]. split; [lia|]. intros v Hin. destruct (Hv v Hin) as [Hne _]. destruct b.2; [done|cbn in Hc; lia].
Qed.

Lemma insert_batch_spec b (m : @MemTable.MemTable Rng) pending from :
  WriteGroup.mem_holds m pending -> (forall v, in_batches pending v -> MemTable.v_sequence v < from) -> from <= b.1 -> batch_ok b ->
  exists m', WriteBatch.insert_into (MemTable.add_op rng_next) (WriteBatch.mkBatch (WriteGroup.encode_batch b)) (Some m) = (ok, Some m') /\
    WriteGroup.mem_holds m' (pending ++ [b]).
Proof.
  intros (Ls & vs & Hh & Hvs) Hbelow Hfrom (Hf & Hl & H0 & Hm). unfold WriteBatch.insert_into, WriteGroup.encode_batch.
  rewrite WriteBatch.sequence_encoded, WriteBatch.iterate_encoded; [|by apply WriteGroup.op_fits_ok|done|done].
  change kMaxSequenceNumber with (2 ^ 56 - 1) in Hm. rewrite u64_small by lia.
  destruct (MemTable.insert_ops_hold rng_next b.2 m Ls vs b.1 Hh Hf H0) as (m' & Ls' & vs' & E & Hh' & Hin).
  - change kMaxSequenceNumber with (2 ^ 56 - 1). lia.
  - intros v Hv%Hvs. specialize (Hbelow v Hv). lia.
  - exists m'. split; [by rewrite E|]. exists Ls', vs'. split; [done|]. intros v. rewrite Hin, Hvs. setoid_rewrite elem_of_app.
    setoid_rewrite list_elem_of_singleton. split.
    + intros [H|(b' & Hb & Hv)]; [exists b; split; [by right|by apply WriteGroup.elem_versions]|exists b'; auto].
    + intros (b' & [Hb| ->] & Hv); [right; by exists b'|left; by apply WriteGroup.elem_versions].
Qed.

Lemma log_record_spec {low} used rp chunks flushed pending from b :
  At low used rp chunks flushed pending from -> from <= b.1 -> batch_ok b -> B + Z.of_nat used + 1 < 2 ^ 64 ->
  (forall v, in_batches (pending ++ [b]) v -> exists k bytes bs, logs !! k = Some (bytes, bs) /\ in_batches bs v) ->
  exists s rp', log_record rng_next seed dbname topts max_file_size address cap usage opts (WriteGroup.encode_batch b) rp = Some (s, rp') /\
    if is_ok s then exists chunks' flushed' pending', At low (S used) rp' chunks' flushed' pending' (b.1 + Z.of_nat (length b.2)) /\
                      flushed' ++ pending' = (flushed ++ pending) ++ [b]
    else exists chunks' flushed', Rec low (S used) (rp_db rp') (rp_edit rp') chunks' flushed'.
Proof.
  intros [T1 T2 T3 T4 T5] Hfrom Hb Hroom Hin. unfold log_record.
  assert (12 <= size (WriteGroup.encode_batch b)) as Hsz.
  { unfold WriteGroup.encode_batch, WriteBatch.encoded, size. rewrite !length_app, length_encode_fixed64, length_encode_fixed32. lia. }
  rewrite (proj2 (Z.ltb_ge _ _)) by lia. unfold WriteBatch.set_contents. change (Z.of_nat WriteBatch.kHeader) with 12. rewrite (proj2 (Z.ltb_ge _ _)) by lia.
  change (is_ok ok) with true. cbn [negb]. set (m := match rp_mem rp with Some m => m | None => _ end).
  assert (WriteGroup.mem_holds m pending) as Hm.
  { subst m. destruct (rp_mem rp); [done|]. rewrite T2. apply WriteGroup.mem_holds_new. }
  destruct (insert_batch_spec b m pending from Hm T3 Hfrom Hb) as (m' & -> & Hm'). cbn [mbind option_bind]. change (is_ok ok) with true. cbn [negb].
  destruct (new_max_spec b (rp_max rp) Hb T5) as (max' & -> & Hmax & Hmv). cbn [mbind option_bind].
  assert (forall v, in_batches ((flushed ++ pending) ++ [b]) v -> MemTable.v_sequence v <= max') as Hall.
  { intros v [Hv|(b' & ->%list_elem_of_singleton & Hv)]%in_batches_app; [apply T4 in Hv; lia|by apply Hmv]. }
  destruct (write_buffer_size opts <? usage m').
  - destruct (write_chunk used (rp_db rp) (rp_edit rp) chunks flushed (pending ++ [b]) m' T1 Hm' Hroom Hin) as (s & edit' & st' & chunks' & -> & R'). cbn [mbind option_bind].
    exists s, (mkReplay None edit' max' st'). split; [done|]. destruct (is_ok s); [|by exists chunks', flushed].
    exists chunks', (flushed ++ pending ++ [b]), []. split; [|by rewrite app_nil_r, app_assoc]. split; try done.
    + by intros v (? & ?%elem_of_nil & _).
    + intros v Hv. apply Hall. by rewrite app_nil_r, app_assoc in Hv.
    + cbn. lia.
  - exists ok, (mkReplay (Some m') (rp_edit rp) max' (rp_db rp)). split; [done|]. change (is_ok ok) with true.
    exists chunks, flushed, (pending ++ [b]). split; [|by rewrite app_assoc]. split; cbn [rp_db rp_edit rp_mem rp_max]; [apply (rec_more used); [done|lia]|done| | |lia].
    + intros v [Hv|(b' & ->%list_elem_of_singleton & Hv)]%in_batches_app; [apply T3 in Hv; lia|].
      apply WriteGroup.elem_versions in Hv as (i & op & Hi0 & ->). rewrite MemTable.op_version_sequence. apply lookup_lt_Some in Hi0. lia.
    + intros v Hv. apply Hall. by rewrite app_assoc in Hv.
Qed.

(** ** One log *)
Definition in_logs (v : MemTable.Version) : Prop := exists k bytes bs, logs !! k = Some (bytes, bs) /\ in_batches bs v.
Lemma replay_log_spec {low} fuel r bs r' used rp chunks flushed pending from :
  Wal.read_all fuel r = Some (WriteGroup.encode_batch <$> bs, r') -> At low used rp chunks flushed pending from -> increasing from bs ->
  B + Z.of_nat (used + length bs) + 1 < 2 ^ 64 -> (forall v, in_batches ((flushed ++ pending) ++ bs) v -> in_logs v) ->
  exists s r1 rp', replay_log rng_next seed dbname topts max_file_size address cap usage opts fuel r rp = Some (s, r1, rp') /\
    if is_ok s then r1 = r' /\ exists chunks' flushed' pending' from', At low (used + length bs) rp' chunks' flushed' pending' from' /\
                      flushed' ++ pending' = (flushed ++ pending) ++ bs
    else exists chunks' flushed', Rec low (used + length bs) (rp_db rp') (rp_edit rp') chunks' flushed'.
Proof.
  revert r bs used rp chunks flushed pending from. induction fuel as [|fuel IH]; intros r bs used rp chunks flushed pending from; [done|].
  cbn [Wal.read_all replay_log]. destruct (Wal.read_record r) as [[[rec|] r1]|]; cbn [mbind option_bind]; [| |done].
  - destruct (Wal.read_all fuel r1) as [[recs r2]|] eqn:Er; [|done]. destruct bs as [|b bs]; [done|]. rewrite fmap_cons.
    intros [= -> E ->] HA (Hfrom & Hb & Hinc) Hroom Hin. cbn [length] in *.
    destruct (log_record_spec used rp chunks flushed pending from b HA Hfrom Hb ltac:(lia)) as (s & rp1 & -> & H).
    { intros v Hv. apply Hin. rewrite !in_batches_app in *. unfold in_batches in *. setoid_rewrite elem_of_cons. setoid_rewrite list_elem_of_singleton in Hv. naive_solver. }
    cbn [mbind option_bind]. destruct (is_ok s) eqn:Es.
    + destruct H as (chunks1 & flushed1 & pending1 & HA1 & E1).
      destruct (IH r1 bs (S used) rp1 chunks1 flushed1 pending1 _ ltac:(by rewrite Er, E) HA1 Hinc ltac:(lia)) as (s' & r3 & rp' & -> & H').
      { intros v. rewrite E1, <- app_assoc. apply Hin. }
      exists s', r3, rp'. split; [done|]. replace (used + S (length bs))%nat with (S used + length bs)%nat by lia.
      destruct (is_ok s'); [|done]. destruct H' as (-> & chunks' & flushed' & pending' & from' & HA' & E'). split; [done|].
      exists chunks', flushed', pending', from'. split; [done|]. by rewrite E', E1, <- app_assoc.
    + exists s, r1, rp1. split; [done|]. rewrite Es. destruct H as (chunks' & flushed' & R). exists chunks', flushed'. apply (rec_more (S used)); [done|lia].
  - destruct bs; [|done]. intros [= <-] HA _ _ _. exists ok, r1, rp. split; [done|]. change (is_ok ok) with true. split; [done|].
    exists chunks, flushed, pending, from. rewrite app_nil_r. cbn [length]. by rewrite Nat.add_0_r.
Qed.

Lemma rec_disk {low} used st edit chunks done d :
  Rec low used st edit chunks done -> same_names (disk st) d -> d_inodes d = d_inodes (disk st) -> Rec low used (set_disk st d (table_cache st)) edit chunks done.
Proof.
  intros [R1 R2 R3 R4 R5 R6 R7 R8 R9 R10 R11 R12] S N. pose proof (ManifestSafe.g_disk _ _ _ _ _ _ (k_good _ _ _ _ _ _ _ R1)) as Hd.
  pose proof (apart_same (λ _, False) _ _ S N) as Ap.
  assert (forall path b, durable (disk st) path b -> durable d path b) as Hkeep by (intros path b; apply (durable_apart _ _ _ _ _ Hd Ap); by intros []).
  split; try done; [|intros c Hc Hne; by apply Hkeep, R3|intros k b bs Hk; by eapply Hkeep, R9].
  apply (kept_apart dbname cap P (λ _, False) st); try done; [by eapply same_ok|intros []|intros; intros []|intros; intros []|apply (k_cache _ _ _ _ _ _ _ R1)].
Qed.
Lemma open_sequential_fails d name s d' : open_sequential d name = (inl s, d') -> is_ok s = false.
Proof.
  unfold open_sequential. destruct (next_fault d) as [[] d1]; [by intros [= <- _]|]. destruct (_ ≫= _); by intros [= <- _].
Qed.

(** A log that reads as these batches, torn at the end at most. *)
Definition log_reads (b : bytes) (bs : list Batch) : Prop :=
  increasing 0 bs /\ exists fuel r, Wal.read_all fuel (Wal.LogReader_new (mkSequential b [])) = Some (WriteGroup.encode_batch <$> bs, r) /\ Wal.damaged r = false.

Definition max_covers (done : list Batch) (max : Z) : Prop :=
  0 <= max <= kMaxSequenceNumber /\ forall v, in_batches done v -> MemTable.v_sequence v <= max.
Lemma recover_log_file_spec {low} k b bs used st edit chunks done max :
  logs !! k = Some (b, bs) -> log_reads b bs -> Rec low used st edit chunks done -> max_covers done max -> (forall v, in_batches done v -> in_logs v) ->
  B + Z.of_nat (used + length bs) + 1 < 2 ^ 64 ->
  exists s edit' max' st' chunks' done', recover_log_file rng_next seed dbname topts max_file_size address cap usage opts k edit max st = Some (s, edit', max', st') /\
    Rec low (used + length bs + 1) st' edit' chunks' done' /\
    (is_ok s = true -> (forall v, in_batches done' v <-> in_batches (done ++ bs) v) /\ max_covers done' max').
Proof.
  intros Hk (Hinc & fuel & r & Er & Hdam) R Hmax Hdone Hroom. unfold recover_log_file.
  destruct (open_sequential (disk st) (LOG dbname k)) as [[s|file] d] eqn:Eo; destruct (open_sequential_spec _ _ _ _ Eo) as (S & N & Hf).
  { exists s, edit, max, (set_disk st d (table_cache st)), chunks, done. split; [done|].
    split; [apply (rec_more used); [by apply rec_disk|lia]|]. apply open_sequential_fails in Eo. congruence. }
  destruct (Hf file eq_refl) as (i & node & Hl & Hnode & ->). destruct (rc_logs _ _ _ _ _ _ R k b bs Hk) as (i' & node' & Hl' & Hnode' & Hset).
  rewrite (Hl' (length (d_pending (disk st))) : live (disk st) !! _ = Some i') in Hl. injection Hl as <-. rewrite Hnode' in Hnode. injection Hnode as <-.
  rewrite (ManifestSafe.settled_visible _ _ Hset). cbn [sf_rest].
  destruct (Wal.read_all_total (Datatypes.S (length b)) (Wal.LogReader_new (mkSequential b []))) as [x Ex]; [unfold Wal.unread; cbn; lia|].
  pose proof (ManifestSafe.read_all_fuel _ _ _ _ _ Er Ex) as <-.
  assert (At low used (mkReplay None edit max (set_disk st d (table_cache st))) chunks done [] 0) as HA.
  { split; cbn [rp_db rp_edit rp_mem rp_max]; [by apply rec_disk|done|by intros v (? & ?%elem_of_nil & _)|rewrite app_nil_r; apply Hmax|apply Hmax]. }
  destruct (replay_log_spec _ _ _ _ _ _ _ _ _ _ Ex HA Hinc Hroom) as (s & r1 & rp & -> & H).
  { intros v. rewrite app_nil_r. intros [Hv|Hv]%in_batches_app; [by apply Hdone|by exists k, b, bs]. }
  cbn [mbind option_bind]. destruct (is_ok s) eqn:Es; cbn [andb].
  2: { destruct H as (chunks' & done' & R'). exists s, (rp_edit rp), (rp_max rp), (rp_db rp), chunks', done'.
       split; [by destruct (rp_mem rp); rewrite ?Es|]. split; [apply (rec_more (used + length bs)); [done|lia]|congruence]. }
  destruct H as (-> & chunks' & flushed & pending & from & [T1 T2 T3 T4 T5] & E). rewrite app_nil_r in E. rewrite Hdam.
  destruct (rp_mem rp) as [m|].
  - rewrite Es. destruct (write_chunk _ _ _ _ _ _ _ T1 T2 ltac:(lia)) as (s' & edit' & st' & chunks'' & -> & R').
    { intros v Hv. assert (in_batches (done ++ bs) v) as [Hd|Hd]%in_batches_app by (rewrite <- E; apply in_batches_app; by right); [by apply Hdone|by exists k, b, bs]. }
    cbn [mbind option_bind]. eexists s', edit', _, st', chunks'', _. split; [done|].
    split; [replace (used + length bs + 1)%nat with (Datatypes.S (used + length bs)) by lia; exact R'|]. intros ->. rewrite E. split; [done|]. split; [done|].
    intros v Hv. apply T4. by rewrite E.
  - eexists s, _, _, _, chunks', flushed. split; [done|]. split; [apply (rec_more (used + length bs)); [done|lia]|]. intros _. subst pending. rewrite app_nil_r in E. subst flushed.
    split; [done|]. split; [done|]. intros v Hv. apply T4. by rewrite app_nil_r.
Qed.

(** ** All logs *)
Lemma good_next vs d M Q had0 n :
  ManifestSafe.Good dbname vs d M Q had0 -> Manifest.next_file_number vs <= n < 2 ^ 64 -> ManifestSafe.Good dbname (set_next_file_number vs n) d M Q had0.
Proof. intros [G1 G2 G3 G4 G5 (N1 & N2 & N3 & N4 & N5) G7 G8] Hn. split; try done. split_and!; try done; cbn; lia. Qed.
Lemma good_last vs d M Q had0 n :
  ManifestSafe.Good dbname vs d M Q had0 -> u64_ok n -> ManifestSafe.Good dbname (set_last_sequence vs n) d M Q had0.
Proof. intros [G1 G2 G3 G4 G5 (N1 & N2 & N3 & N4 & N5) G7 G8] Hn. split; try done. Qed.
Lemma rec_mark {low} used st edit chunks done k b bs :
  Rec low used st edit chunks done -> logs !! k = Some (b, bs) -> B + Z.of_nat used < 2 ^ 64 -> Rec (Z.max low (k + 1)) used (mark_used st k) edit chunks done.
Proof.
  intros [R1 R2 R3 R4 R5 R6 R7 R8 R9 R10 R11 R12] Hk Hu. pose proof (Hlogs _ _ _ Hk) as HB. set (next := Manifest.next_file_number (versions st)) in *.
  set (next' := Manifest.mark_file_number_used next k).
  assert (next <= next' <= B + Z.of_nat used /\ k < next') as Hn.
  { unfold next', Manifest.mark_file_number_used. destruct (Z.leb_spec next k); [rewrite u64_small by lia; lia|lia]. }
  split; try done.
  - destruct R1 as [K1 K2 K3 K4 K5]. split; try done.
    + apply good_next; [done|]. fold next next'. lia.
    + intros l n Hin%K3. cbn. fold next in Hin |- *. fold next'. lia.
  - intros c Hc%R4. cbn. fold next next'. lia.
  - cbn. fold next next'. lia.
  - cbn. fold next next'. lia.
Qed.

Definition from_logs (ks : list Z) (v : MemTable.Version) : Prop := exists k b bs, k ∈ ks /\ logs !! k = Some (b, bs) /\ in_batches bs v.
Lemma recover_logs_spec low ks maxb used st edit chunks done max :
  (forall k, k ∈ ks -> exists b bs, logs !! k = Some (b, bs) /\ log_reads b bs /\ (length bs <= maxb)%nat) ->
  Rec low used st edit chunks done -> max_covers done max -> (forall v, in_batches done v -> in_logs v) ->
  B + Z.of_nat (used + length ks * (maxb + 1)) + 1 < 2 ^ 64 ->
  exists low' s edit' max' st' chunks' done',
    recover_logs rng_next seed dbname topts max_file_size address cap usage opts ks edit max st = Some (s, edit', max', st') /\
    Rec low' (used + length ks * (maxb + 1)) st' edit' chunks' done' /\ low <= low' /\
    (is_ok s = true -> (forall v, in_batches done' v <-> in_batches done v \/ from_logs ks v) /\ max_covers done' max' /\ forall k, k ∈ ks -> k < low').
Proof.
  revert low used st edit chunks done max. induction ks as [|k ks IH]; intros low used st edit chunks done max Hks R Hmax Hdone Hroom; cbn [recover_logs].
  { exists low, ok, edit, max, st, chunks, done. cbn [length Nat.mul]. rewrite Nat.add_0_r. split; [done|]. split; [done|]. split; [lia|]. intros _.
    split; [|split; [done|by intros k ?%elem_of_nil]]. intros v. split; [by left|]. by intros [|(k & b & bs & ?%elem_of_nil & _)]. }
  destruct (Hks k ltac:(by left)) as (b & bs & Hk & Hr & Hlen). cbn [length Nat.mul] in Hroom |- *.
  destruct (recover_log_file_spec k b bs used st edit chunks done max Hk Hr R Hmax Hdone ltac:(lia))
    as (s & edit1 & max1 & st1 & chunks1 & done1 & -> & R1 & H1). cbn [mbind option_bind].
  apply (rec_more _ (used + (maxb + 1))) in R1; [|lia]. destruct (is_ok s) eqn:Es.
  2: { exists low, s, edit1, max1, st1, chunks1, done1. split; [done|]. split; [apply (rec_more (used + (maxb + 1))); [done|lia]|]. split; [lia|congruence]. }
  destruct (H1 eq_refl) as [Hcov Hmax1]. apply (rec_mark _ _ _ _ _ k b bs) in R1; [|done|lia].
  destruct (IH (Z.max low (k + 1)) (used + (maxb + 1))%nat (mark_used st1 k) edit1 chunks1 done1 max1) as (low' & s' & edit' & max' & st' & chunks' & done' & -> & R' & Hle & H').
  - intros k' Hk'. apply Hks. by right.
  - exact R1.
  - done.
  - intros v Hv%Hcov. apply in_batches_app in Hv as [Hv|Hv]; [by apply Hdone|by exists k, b, bs].
  - lia.
  - exists low', s', edit', max', st', chunks', done'. split; [done|]. split; [by rewrite <- Nat.add_assoc in R'|]. split; [lia|].
    intros Hs. destruct (H' Hs) as (Hc & Hm & Hlow). split; [|split; [done|intros k' [->|Hk']%elem_of_cons; [lia|by apply Hlow]]].
    intros v. rewrite Hc, Hcov, in_batches_app. unfold from_logs. setoid_rewrite elem_of_cons. split.
    + intros [[Hv|Hv]|(k' & b' & bs' & Hin & H)]; [by left|right; exists k, b, bs; auto|right; exists k', b', bs'; auto].
    + intros [Hv|(k' & b' & bs' & [->|Hin] & Hk' & Hv)]; [by left; left| |right; by exists k', b', bs'].
      left. right. rewrite Hk in Hk'. by injection Hk' as <- <-.
Qed.

Lemma scan_names_spec names min_log prev_log expected logs0 :
  let '(_, ks) := scan_names names min_log prev_log expected logs0 in
  (length ks <= length logs0 + length names)%nat /\
  forall k, k ∈ ks <-> k ∈ logs0 \/ ((min_log <= k \/ k = prev_log) /\ exists name, name ∈ names /\ parse_file_name name = Some (k, kLog)).
Proof.
  revert expected logs0. induction names as [|name names IH]; intros expected logs0; cbn [scan_names].
  { split; [cbn; lia|]. intros k. split; [by left|]. by intros [|(_ & name & ?%elem_of_nil & _)]. }
  destruct (parse_file_name name) as [[n t]|] eqn:Ep.
  - set (logs1 := if (bool_decide (t = kLog) && _ : bool) then logs0 ++ [n] else logs0).
    specialize (IH (expected ∖ {[ n ]}) logs1). destruct (scan_names _ _ _ _ _) as [e ks]. destruct IH as [Hl Hin].
    assert (forall k, k ∈ logs1 <-> k ∈ logs0 \/ (k = n /\ t = kLog /\ (min_log <= n \/ n = prev_log))) as H1.
    { intros k. subst logs1. destruct (bool_decide_reflect (t = kLog)) as [Et|Et]; cbn [andb]; [|naive_solver].
      destruct (Z.leb_spec min_log n), (Z.eqb_spec n prev_log); cbn [orb]; rewrite ?elem_of_app, ?list_elem_of_singleton; naive_solver lia. }
    split.
    + assert (length logs1 <= length logs0 + 1)%nat by (subst logs1; destruct (_ && _); rewrite ?length_app; cbn; lia). cbn [length]. lia.
    + intros k. rewrite Hin, H1. setoid_rewrite elem_of_cons. split.
      * intros [[Hk|(-> & -> & Hk)]|(Hk & nm & Hnm & Hp)]; [by left|right; split; [done|]; exists name; auto|right; split; [done|]; exists nm; auto].
      * intros [Hk|(Hk & nm & [->|Hnm] & Hp)]; [by left; left| |right; split; [done|]; by exists nm]. left. right. rewrite Ep in Hp. injection Hp as -> ->. auto.
  - specialize (IH expected logs0). destruct (scan_names _ _ _ _ _) as [e ks]. destruct IH as [Hl Hin]. cbn [length]. split; [lia|].
    intros k. rewrite Hin. setoid_rewrite elem_of_cons. split.
    + intros [Hk|(Hk & nm & Hnm & Hp)]; [by left|right; split; [done|]; exists nm; auto].
    + intros [Hk|(Hk & nm & [->|Hnm] & Hp)]; [by left|congruence|right; split; [done|]; by exists nm].
Qed.

Lemma rec_last {low} used st edit chunks done n :
  Rec low used st edit chunks done -> u64_ok n -> Rec low used (set_versions st (set_last_sequence (versions st) n)) edit chunks done.
Proof.
  intros [R1 R2 R3 R4 R5 R6 R7 R8 R9 R10 R11 R12] Hn. split; try done. destruct R1 as [K1 K2 K3 K4 K5]. split; try done. by apply good_last.
Qed.

(** The directory holds these logs, and no other that is to be replayed. *)
Record directory (st : @Db Rng) (maxb : nat) : Prop := {
  dr_known name i k : live (disk st) !! name = Some i -> parse_file_name (base_name dbname name) = Some (k, kLog) ->
    Manifest.log_number (versions st) <= k \/ k = Manifest.prev_log_number (versions st) ->
    exists b bs, logs !! k = Some (b, bs) /\ log_reads b bs /\ (length bs <= maxb)%nat;
  dr_needed k b bs : logs !! k = Some (b, bs) -> Manifest.log_number (versions st) <= k \/ k = Manifest.prev_log_number (versions st);
  dr_durable k b bs : logs !! k = Some (b, bs) -> durable (disk st) (LOG dbname k) b;
  dr_room : B + Z.of_nat (base.size (live (disk st)) * (maxb + 1)) + 5 < 2 ^ 64
}.

Lemma listed_names d name :
  name ∈ omap (λ name, if bool_decide (take (S (length dbname)) name = dbname ++ string_bytes "/") then Some (base_name dbname name) else None) (map_to_list (live d)).*1 ->
  exists path i, live d !! path = Some i /\ name = base_name dbname path.
Proof.
  intros (path & Hin & E)%list_elem_of_omap. case_bool_decide; [|done]. injection E as <-. apply list_elem_of_fmap in Hin as ([p i] & -> & Hp%elem_of_map_to_list).
  by exists p, i.
Qed.
Lemma log_listed d k i :
  live d !! LOG dbname k = Some i ->
  base_name dbname (LOG dbname k) ∈ omap (λ name, if bool_decide (take (S (length dbname)) name = dbname ++ string_bytes "/") then Some (base_name dbname name) else None) (map_to_list (live d)).*1.
Proof.
  intros Hl. apply list_elem_of_omap. exists (LOG dbname k). split.
  - apply list_elem_of_fmap. exists (LOG dbname k, i). split; [done|]. by apply elem_of_map_to_list.
  - rewrite bool_decide_true; [done|]. unfold log_file_name, numbered. change (string_bytes "/") with [x2f]. rewrite app_assoc.
    replace (Datatypes.S (length dbname)) with (length (dbname ++ [x2f])) by (rewrite length_app; cbn; lia). by rewrite take_app_length.
Qed.

Lemma length_omap_bound {X Y} (f : X -> option Y) (l : list X) : (length (omap f l) <= length l)%nat.
Proof. induction l as [|x l IH]; [done|]. cbn [omap list_omap length]. destruct (f x); cbn [length]; lia. Qed.
Lemma rec_start st : Kept st A had tables -> first = Manifest.next_file_number (versions st) -> first <= B ->
  (forall k b bs, logs !! k = Some (b, bs) -> durable (disk st) (LOG dbname k) b) -> Manifest.descriptor_log (versions st) = None /\ Manifest.compact_pointer (versions st) = ManifestSafe.a_pointers A ->
  imm st = None -> background_error st = ok -> Rec first 0 st clear [] [].
Proof.
  intros K Ef HB Hdur Hset Him Hbg. split; try done; try (by intros c ?%elem_of_nil); [constructor| |lia|lia].
  intros v. split; [by intros (c & ?%elem_of_nil & _)|by intros (b & ?%elem_of_nil & _)].
Qed.
(** The logs the scan returns are those to be replayed. *)
Lemma scanned_logs st maxb names expected missing ks :
  directory st maxb ->
  names = omap (λ name, if bool_decide (take (S (length dbname)) name = dbname ++ string_bytes "/") then Some (base_name dbname name) else None) (map_to_list (live (disk st))).*1 ->
  scan_names names (Manifest.log_number (versions st)) (Manifest.prev_log_number (versions st)) expected [] = (missing, ks) ->
  (length ks <= base.size (live (disk st)))%nat /\
  (forall k, k ∈ ks -> exists b bs, logs !! k = Some (b, bs) /\ log_reads b bs /\ (length bs <= maxb)%nat) /\
  (forall k b bs, logs !! k = Some (b, bs) -> k ∈ ks).
Proof.
  intros [D1 D2 D3 D4] -> E. set (names := omap _ _) in *.
  pose proof (scan_names_spec names (Manifest.log_number (versions st)) (Manifest.prev_log_number (versions st)) expected []) as Hscan.
  rewrite E in Hscan. destruct Hscan as [Hlen Hks]. split_and!.
  - etrans; [exact Hlen|]. cbn [length]. unfold names. etrans; [apply length_omap_bound|]. rewrite length_fmap. by rewrite length_map_to_list.
  - intros k [?%elem_of_nil|(Hk & name & Hin & Hp)]%Hks; [done|]. apply listed_names in Hin as (path & i & Hl & ->). by eapply D1.
  - intros k b bs Hk. apply Hks. right. split; [by eapply D2|]. destruct (D3 k b bs Hk) as (i & node & Hl & _).
    exists (base_name dbname (LOG dbname k)). split; [apply (log_listed _ _ i), (Hl (length (d_pending (disk st))))|].
    pose proof (Hlogs _ _ _ Hk). assert (0 <= k < 2 ^ 64) as Hk64 by lia. apply (names_parse dbname k Hk64).
Qed.

Lemma recover_rest_spec st maxb :
  Kept st A had tables -> first = Manifest.next_file_number (versions st) -> first <= B -> directory st maxb ->
  Manifest.descriptor_log (versions st) = None /\ Manifest.compact_pointer (versions st) = ManifestSafe.a_pointers A -> imm st = None -> background_error st = ok ->
  exists low s edit st' chunks done used, recover_rest rng_next seed dbname topts max_file_size address cap usage opts st clear = Some (s, edit, st') /\
    Rec low used st' edit chunks done /\ B + Z.of_nat used + 5 < 2 ^ 64 /\
    (is_ok s = true -> (forall v, in_batches done v <-> in_logs v) /\ (forall v, in_logs v -> MemTable.v_sequence v <= Manifest.last_sequence (versions st')) /\
       forall k b bs, logs !! k = Some (b, bs) -> k < low).
Proof.
  intros K Ef HB D Hset Him Hbg. pose proof (rec_start st K Ef HB (dr_durable _ _ D) Hset Him Hbg) as R0. pose proof (dr_room _ _ D) as Hroom.
  unfold recover_rest, list_directory. destruct (next_fault (disk st)) as [failed d1] eqn:E1. destruct (next_fault_same _ _ _ E1) as [S1 N1].
  pose proof (rec_disk _ _ _ _ _ _ R0 S1 N1) as R1. destruct failed; cbn [negb].
  { change (is_ok (io_error _)) with false. cbn [negb]. eexists _, _, _, _, [], [], 0%nat. split; [done|]. split; [exact R1|]. split; [lia|]. done. }
  change (is_ok ok) with true. cbn [negb]. rewrite (same_live _ _ S1).
  set (names := omap _ _). set (expected := list_to_set _). destruct (scan_names _ _ _ _ _) as [missing ks] eqn:Es.
  destruct (scanned_logs st maxb names expected missing ks D eq_refl Es) as (Hlen & Hks & Hall).
  destruct (elements missing) as [|n rest].
  2: { eexists _, _, _, _, [], [], 0%nat. split; [done|]. split; [exact R1|]. split; [lia|]. done. }
  destruct (recover_logs_spec first (merge_sort Z.le ks) maxb 0 (set_disk st d1 (table_cache st)) clear [] [] 0) as (low & s & edit & max & st' & chunks & done & -> & R & _ & H).
  { intros k. rewrite merge_sort_Permutation. apply Hks. }
  { exact R1. }
  { split; [change kMaxSequenceNumber with (2 ^ 56 - 1); lia|]. by intros v (b & ?%elem_of_nil & _). }
  { by intros v (b & ?%elem_of_nil & _). }
  { rewrite merge_sort_Permutation. nia. }
  cbn [mbind option_bind]. rewrite merge_sort_Permutation in R.
  destruct (is_ok s) eqn:Eok; cbn [negb].
  2: { eexists low, s, edit, st', chunks, done, _. split; [done|]. split; [exact R|]. split; [nia|congruence]. }
  destruct (H eq_refl) as (Hcov & [Hmax Hle] & Hlow). change kMaxSequenceNumber with (2 ^ 56 - 1) in Hmax.
  assert (forall v, in_batches done v <-> in_logs v) as Hdone.
  { intros v. rewrite Hcov. unfold from_logs, in_logs. setoid_rewrite merge_sort_Permutation. split.
    - intros [(b & ?%elem_of_nil & _)|(k & b & bs & _ & Hk)]; [done|by exists k, b, bs].
    - intros (k & b & bs & Hk & Hv). right. exists k, b, bs. split; [by eapply Hall|done]. }
  assert (forall k b bs, logs !! k = Some (b, bs) -> k < low) as Hlow' by (intros k b bs Hk; apply Hlow; rewrite merge_sort_Permutation; by eapply Hall).
  destruct (Z.ltb_spec (Manifest.last_sequence (versions st')) max) as [Hlt|Hge]; eexists low, ok, edit, _, chunks, done, _; (split; [done|]).
  - split; [apply rec_last; [exact R|unfold u64_ok; lia]|]. split; [nia|]. intros _. split; [done|]. split; [|done]. intros v Hv%Hdone%Hle. exact Hv.
  - split; [exact R|]. split; [nia|]. intros _. split; [done|]. split; [|done]. intros v Hv%Hdone%Hle. lia.
Qed.
End Replaying.
End DbRecover.
