(* ===== verification/DbOpen.v ===== *)
(** What opening a database leaves (DB::open of src/src/db_impl.cpp, modelled in
    DbRecover.v): every write of the logs in a table the manifest names, or the
    database as it was found. *)
From stdpp Require Import gmap.
From S2P Require Import Prelude Status File Encoding DbFormat Comparator Bloom FilterBlock BlockBuilder Iterator Format TableBuilder Table TwoLevelIterator.
From S2P Require Import Filename Wal SkipList WriteBatch VersionEdit MemTable Version VersionBuilder Compaction CacheClient WriteGroup VersionGet DbRead TableCache Disk Manifest ManifestSafe BuildTable Flush DbRecover.
Import Status File Encoding DbFormat Comparator Bloom Iterator Format Filename VersionEdit Disk BuildTable Flush DbRecover.
Local Open Scope Z_scope.

Module DbOpen.

(** * The edit of an open *)
Section Edit.
Context (dbname : bytes) (topts : TableBuilder.Options).
Abbreviation Files := VersionBuilder.Files.

Definition chunk_meta (c : Chunk) : VersionBuilder.Meta :=
  (size (image topts (entries c.2)), first_key (entries c.2), last_key (entries c.2)).
(** The state's files, with a table of level 0 for every chunk. *)
Definition add_chunk (M : Files) (c : Chunk) : Files := match c.2 with [] => M | _ => <[(0, c.1) := chunk_meta c]> M end.
Definition with_chunks (M : Files) (chunks : list Chunk) : Files := fold_left add_chunk chunks M.
Definition add_image (tables : gmap Z bytes) (c : Chunk) : gmap Z bytes :=
  match c.2 with [] => tables | _ => <[c.1 := image topts (entries c.2)]> tables end.
Definition with_images (tables : gmap Z bytes) (chunks : list Chunk) : gmap Z bytes := fold_left add_image chunks tables.
Definition open_edit (chunks : list Chunk) (n : Z) : VersionEdit :=
  set_log_number (set_prev_log_number (set_log_number (with_tables topts clear chunks) n) 0) n.

Lemma tables_edit chunks :
  let e := with_tables topts clear chunks in
  comparator_ e = None /\ compact_pointers_ e = [] /\ deleted_files_ e = [] /\ next_file_number_ e = None /\ last_sequence_ e = None /\
  new_files_ e = (λ c : Chunk, (0, mkFile c.1 (size (image topts (entries c.2))) (first_key (entries c.2)) (last_key (entries c.2)) default_allowed_seeks 0))
    <$> filter (λ c : Chunk, c.2 <> []) chunks.
Proof.
  induction chunks as [|[n ves] chunks IH] using rev_ind; [done|]. rewrite with_tables_snoc, filter_app, fmap_app.
  destruct IH as (I1 & I2 & I3 & I4 & I5 & I6). destruct ves as [|v ves]; cbn [with_table].
  - rewrite filter_cons_False by (intros H; by apply H). cbn [filter list_filter fmap list_fmap]. by rewrite app_nil_r.
  - rewrite filter_cons_True by done. cbv zeta. unfold add_file. cbn [comparator_ compact_pointers_ deleted_files_ next_file_number_ last_sequence_ new_files_].
    by rewrite I6.
Qed.
Lemma open_pairs chunks n : VersionBuilder.added_pairs [open_edit chunks n] = (λ c : Chunk, (0, c.1)) <$> filter (λ c : Chunk, c.2 <> []) chunks.
Proof.
  unfold VersionBuilder.added_pairs. cbn [mbind list_bind]. rewrite app_nil_r. unfold open_edit. cbn [set_log_number set_prev_log_number new_files_].
  destruct (tables_edit chunks) as (_ & _ & _ & _ & _ & ->). by rewrite <- list_fmap_compose.
Qed.
Lemma open_files M chunks n vs : VersionBuilder.spec_edit M (Manifest.complete_edit vs (open_edit chunks n)) = with_chunks M chunks.
Proof.
  destruct (ManifestSafe.complete_fields vs (open_edit chunks n)) as (_ & _ & _ & _ & _ & _ & Ed & En). unfold VersionBuilder.spec_edit. rewrite Ed, En.
  unfold open_edit. cbn [set_log_number set_prev_log_number deleted_files_ new_files_]. destruct (tables_edit chunks) as (_ & _ & -> & _ & _ & ->). cbn [fold_left].
  clear Ed En. unfold with_chunks. revert M. induction chunks as [|[k ves] chunks IH]; intros M; [done|]. cbn [fold_left]. destruct ves as [|v ves].
  - rewrite filter_cons_False; [exact (IH M)|]. intros H. by apply H.
  - rewrite filter_cons_True by done. rewrite fmap_cons. cbn [fold_left]. exact (IH _).
Qed.

Lemma with_chunks_lookup M chunks l k m :
  with_chunks M chunks !! (l, k) = Some m ->
  M !! (l, k) = Some m \/ exists c, c ∈ chunks /\ c.2 <> [] /\ l = 0 /\ k = c.1 /\ m = chunk_meta c.
Proof.
  unfold with_chunks. induction chunks as [|c chunks IH] using rev_ind; [by left|]. rewrite fold_left_app. cbn [fold_left].
  assert (fold_left add_chunk chunks M !! (l, k) = Some m ->
    M !! (l, k) = Some m \/ exists c0, c0 ∈ chunks ++ [c] /\ c0.2 <> [] /\ l = 0 /\ k = c0.1 /\ m = chunk_meta c0) as IH'.
  { intros [H|(c0 & Hc & H)]%IH; [by left|right]. exists c0. split; [apply elem_of_app; by left|done]. }
  unfold add_chunk at 1. destruct (c.2) as [|v ves] eqn:Ec; [done|]. intros [[E <-]|[_ H]]%lookup_insert_Some; [|by apply IH'].
  injection E as <- <-. right. exists c. rewrite Ec. split; [apply elem_of_app; right; left|done].
Qed.
Lemma with_images_lookup tables chunks :
  NoDup chunks.*1 ->
  (forall c, c ∈ chunks -> c.2 <> [] -> with_images tables chunks !! c.1 = Some (image topts (entries c.2))) /\
  (forall k, k ∉ chunks.*1 -> with_images tables chunks !! k = tables !! k).
Proof.
  unfold with_images. revert tables. induction chunks as [|c chunks IH]; intros tables; [intros _; split; [by intros c ?%elem_of_nil|done]|].
  rewrite fmap_cons. intros [Hc Hnd]%NoDup_cons. cbn [fold_left]. destruct (IH (add_image tables c) Hnd) as [I1 I2]. split.
  - intros c0 [->|Hin]%elem_of_cons Hne; [|by apply I1]. rewrite I2 by done. unfold add_image. destruct (c.2); [done|]. apply lookup_insert_eq.
  - intros k [Hk Hks]%not_elem_of_cons. rewrite I2 by done. unfold add_image. destruct (c.2); [done|]. by apply lookup_insert_ne.
Qed.

Lemma stored_chunks d A A' tables chunks :
  stored_in dbname d A tables -> ManifestSafe.a_files A' = with_chunks (ManifestSafe.a_files A) chunks -> NoDup chunks.*1 ->
  (forall l k m, ManifestSafe.a_files A !! (l, k) = Some m -> k ∉ chunks.*1) ->
  (forall c, c ∈ chunks -> c.2 <> [] -> durable d (table_file_name dbname c.1) (image topts (entries c.2))) ->
  stored_in dbname d A' (with_images tables chunks).
Proof.
  intros S E Hnd Hne Hdur l k m. rewrite E. destruct (with_images_lookup tables chunks Hnd) as [I1 I2].
  intros [H|(c & Hc & Hv & -> & -> & ->)]%with_chunks_lookup.
  - destruct (S l k m H) as (b & Hb & Hrest). exists b. split; [|done]. rewrite I2; [done|]. by eapply Hne.
  - exists (image topts (entries c.2)). split; [by apply I1|]. split; [by apply Hdur|done].
Qed.

Lemma open_edit_ok chunks n :
  u64_ok n -> (forall c, c ∈ chunks -> u64_ok c.1 /\ Forall MemTable.version_ok c.2 /\ size (image topts (entries c.2)) < 2 ^ 32) ->
  edit_ok (open_edit chunks n) /\ Manifest.other_comparator (open_edit chunks n) = None.
Proof.
  intros Hn Hc. destruct (tables_edit chunks) as (E1 & E2 & E3 & E4 & E5 & E6). unfold open_edit, Manifest.other_comparator.
  cbn [set_log_number set_prev_log_number comparator_]. rewrite E1. split; [|done].
  split; cbn [set_log_number set_prev_log_number comparator_ log_number_ prev_log_number_ next_file_number_ last_sequence_ compact_pointers_ deleted_files_ new_files_];
    rewrite ?E1, ?E2, ?E3, ?E4, ?E5, ?E6; try done; try (by intros k [= <-]); [split; constructor|].
  apply Forall_fmap, Forall_forall. intros c [Hne Hin]%list_elem_of_filter. destruct (Hc c Hin) as (H1 & H2 & H3).
  destruct (key_bounds c.2 H2 Hne) as [K1 K2]. pose proof (size_nonneg (image topts (entries c.2))). cbn. split; [done|]. split; [done|]. split; [unfold u64_ok; cbn; lia|]. by split_and!.
Qed.
End Edit.

(** * A fresh manifest syncs the directory *)
Lemma set_current_settles dbname d n s d' : Manifest.set_current_file dbname d n = (s, d') -> is_ok s = true -> d_pending d' = [].
Proof.
  unfold Manifest.set_current_file. destruct (Manifest.write_temp _ _ _) as [s1 d1]. destruct (if is_ok s1 then _ else _) as [s2 d2].
  destruct (is_ok s2) eqn:E2.
  - unfold sync_directory. destruct (next_fault d2) as [[] d3]; [by intros [= <- _]|]. by intros [= _ <-].
  - rewrite E2. intros [= <- _]. congruence.
Qed.
Lemma fresh_manifest_settles dbname vs d edit s vs' d' :
  Manifest.log_and_apply dbname vs d edit = Some (s, vs', d') -> Manifest.descriptor_log vs = None -> is_ok s = true -> d_pending d' = [].
Proof.
  unfold Manifest.log_and_apply. intros E Hn Hs. rewrite Hn in E. rewrite bool_decide_true in E by done. revert E. set (b := VersionBuilder.apply _ _).
  destruct (Manifest.open_manifest dbname vs d) as [[[s1 d1] log1]|] eqn:E1; [|done]. cbn [mbind option_bind].
  assert (is_ok s1 = true -> log1 <> None) as Hlog.
  { revert E1. unfold Manifest.open_manifest, create. destruct (next_fault d) as [[] d0]; [by intros [= <- _ _]|].
    destruct (live d0 !! _); destruct (Manifest.log_add _ _ _) as [[[s3 d3] log3]|]; by try intros [= _ _ <-]. }
  destruct log1 as [log1|].
  - destruct (is_ok s1) eqn:Es1.
    + unfold Manifest.write_edit. destruct (Manifest.log_add d1 log1 _) as [[[s2 d2] log2]|]; [|done]. cbn [mbind option_bind].
      destruct (if is_ok s2 then _ else _) as [[s3 d3] log3]. rewrite andb_true_r. destruct (is_ok s3) eqn:Es3.
      * destruct (Manifest.set_current_file dbname d3 _) as [s4 d4] eqn:E4. cbn [mbind option_bind].
        destruct (is_ok s4) eqn:Es4; [intros [= _ _ <-]; by eapply set_current_settles|].
        destruct (Manifest.read_current dbname d4) as [named d5]. intros [= <- _ _]. congruence.
      * cbn [mbind option_bind]. rewrite Es3. destruct (Manifest.read_current dbname d3) as [named d5]. intros [= <- _ _]. congruence.
    + cbn [mbind option_bind]. rewrite Es1. destruct (Manifest.read_current dbname d1) as [named d5]. intros [= <- _ _]. congruence.
  - cbn [mbind option_bind]. destruct (is_ok s1) eqn:Es1; [by destruct (Hlog eq_refl)|]. destruct (Manifest.read_current dbname d1) as [named d5]. intros [= <- _ _]. congruence.
Qed.
Lemma settled_names d name : d_pending d = [] -> forall k, names_at d k !! name = live d !! name.
Proof. intros H k. unfold live, names_at. by rewrite H, !take_nil. Qed.

Lemma log_and_apply_numbers dbname vs d edit s vs' d' :
  Manifest.log_and_apply dbname vs d edit = Some (s, vs', d') -> is_ok s = true ->
  Manifest.last_sequence vs' = Manifest.last_sequence vs /\ Manifest.log_number vs' = default (Manifest.log_number vs) (log_number_ edit).
Proof.
  unfold Manifest.log_and_apply. set (b := VersionBuilder.apply _ _). intros E Hs. revert E.
  destruct (match Manifest.descriptor_log vs with Some log => Some (ok, d, Some log) | None => _ end) as [[[s1 d1] log1]|]; [|done]. cbn [mbind option_bind].
  destruct (match log1 with Some log => _ | None => _ end) as [[[s2 d2] log2]|]; [|done]. cbn [mbind option_bind].
  destruct (is_ok s2) eqn:Es2; intros E.
  - destruct (ManifestSafe.complete_fields vs edit) as (_ & Hl & _). rewrite Hl in E. by injection E as _ <- _.
  - destruct (bool_decide _); [|injection E as <- _ _; congruence].
    destruct (Manifest.read_current dbname d2) as [named d3]. destruct (match named with inr _ => _ | inl _ => _ end); injection E as <- _ _; congruence.
Qed.

(** * The new log, and the install *)
Section Opening.
Context {Rng : Type} (dbname : bytes) (topts : TableBuilder.Options) (cap : nat) (P : Z -> Table.Rep -> Prop).
Context (A : ManifestSafe.State) (had : list (Z * Z)) (tables : gmap Z bytes) (first : Z) (logs : gmap Z (bytes * list Batch)) (B : Z).
Context (Hfirst : 0 <= first) (Hlogs : forall k b bs, logs !! k = Some (b, bs) -> 0 <= k < B) (HB : B < 2 ^ 64).
Context (Hold : forall l k m, ManifestSafe.a_files A !! (l, k) = Some m -> k < first).
Context (Hhad : forall l k, (l, k) ∈ had -> k < first).
Abbreviation Rec := (Rec (Rng := Rng) dbname topts cap P A had tables first logs B).
Abbreviation Kept := (Kept (Rng := Rng) dbname cap P).

Lemma log_name_not_current n : 0 <= n < 2 ^ 64 -> LOG dbname n <> current_file_name dbname.
Proof. intros Hn E. destruct (names_parse dbname n Hn) as (El & _ & _ & _ & Ec & _). rewrite E, Ec in El. done. Qed.
Lemma log_name_not_manifest n m : 0 <= n < 2 ^ 64 -> 0 <= m < 2 ^ 64 -> LOG dbname n <> descriptor_file_name dbname m.
Proof. intros Hn Hm E. destruct (names_parse dbname n Hn) as (El & _). destruct (names_parse dbname m Hm) as (_ & _ & _ & Em & _). rewrite E, Em in El. done. Qed.
Lemma log_name_inj n m : 0 <= n < 2 ^ 64 -> 0 <= m < 2 ^ 64 -> LOG dbname n = LOG dbname m -> n = m.
Proof. intros Hn Hm E. destruct (names_parse dbname n Hn) as (El & _). destruct (names_parse dbname m Hm) as (Em & _). rewrite E, Em in El. by injection El. Qed.

Lemma open_log_spec low used st edit chunks done :
  Rec low used st edit chunks done -> (forall k b bs, logs !! k = Some (b, bs) -> k < low) -> B + Z.of_nat used + 1 < 2 ^ 64 ->
  let n := Manifest.next_file_number (versions st) in
  exists s st' log, open_log dbname st edit = (s, if is_ok s then set_log_number edit n else edit, st', log) /\ Rec low (S used) st' edit chunks done /\
    Manifest.next_file_number (versions st') = n + 1 /\ Manifest.last_sequence (versions st') = Manifest.last_sequence (versions st) /\
    (is_ok s = true -> logfile_number st' = n /\ exists i, log = Some i /\ live (disk st') !! LOG dbname n = Some i).
Proof.
  intros R Hlow Hroom n. unfold open_log. pose proof (rc_next _ _ _ _ _ _ _ _ _ _ _ _ _ _ _ _ R) as [Hn1 Hn2]. pose proof (rc_low _ _ _ _ _ _ _ _ _ _ _ _ _ _ _ _ R) as Hl.
  fold n in Hn1, Hn2, Hl.
  pose proof (rc_kept _ _ _ _ _ _ _ _ _ _ _ _ _ _ _ _ R) as K. pose proof (k_good _ _ _ _ _ _ _ K) as G.
  destruct (good_bump dbname (versions st) (disk st) _ _ _ G ltac:(fold n; lia)) as [G' En]. fold n in En.
  destruct (Manifest.new_file_number (versions st)) as [n0 vs] eqn:Ev. assert (n0 = n) as -> by (by injection Ev). cbn [snd] in G', En.
  assert (Manifest.descriptor_log vs = None /\ Manifest.compact_pointer vs = ManifestSafe.a_pointers A /\ Manifest.last_sequence vs = Manifest.last_sequence (versions st)) as (E1 & E2 & E3).
  { destruct (rc_set _ _ _ _ _ _ _ _ _ _ _ _ _ _ _ _ R). by injection Ev as <-. }
  pose proof (ManifestSafe.g_disk _ _ _ _ _ _ G) as Hd. cbn [disk set_versions].
  destruct (create (disk st) (LOG dbname n)) as [r d] eqn:Ec. pose proof (apart_create (eq (LOG dbname n)) _ _ _ _ Hd eq_refl Ec) as Ap.
  destruct (create_spec _ _ _ _ Ec Hd) as [Hd' Hr]. assert (0 <= n < 2 ^ 64) as Hn by lia.
  assert (forall st' : Db, versions st' = vs -> disk st' = d -> table_cache st' = table_cache st -> imm st' = imm st -> background_error st' = background_error st ->
    Rec low (S used) st' edit chunks done) as HR.
  { intros st' F1 F2 F3 F4 F5. destruct R as [R1 R2 R3 R4 R5 R6 R7 R8 R9 R10 R11 R12]. fold n in R4. split; rewrite ?F1, ?F2, ?F4, ?F5, ?En; try done; try lia.
    - apply (kept_apart dbname cap P (eq (LOG dbname n)) (set_versions st vs)); cbn [versions disk set_versions]; rewrite ?F2, ?F3; try done.
      + destruct K as [K1 K2 K3 K4 K5]. split; try done. cbn [versions set_versions]. rewrite En. intros l k Hk%K3. fold n in Hk. lia.
      + by apply log_name_not_current.
      + intros k Hk _. by apply log_name_not_manifest.
      + intros l k m Hk. destruct (table_known _ _ _ _ _ _ _ _ _ _ K Hk). apply log_name_not_table; lia.
      + apply K.
    - intros c Hc Hv. apply (durable_apart _ _ _ _ _ Hd Ap); [|by apply R3]. specialize (R4 c Hc). apply log_name_not_table; lia.
    - intros c Hc%R4. lia.
    - intros k b bs Hk. apply (durable_apart _ _ _ _ _ Hd Ap); [|by eapply R9]. pose proof (Hlogs _ _ _ Hk). pose proof (Hlow _ _ _ Hk).
      intros E. apply log_name_inj in E; [lia|lia|lia]. }
  destruct r as [s|i].
  - destruct Hr as [Hs _]. exists s. eexists _, None. rewrite Hs. split; [done|]. split; [by apply HR|]. cbn [versions set_disk set_versions]. by rewrite En, E3.
  - destruct Hr as [Hl' _]. exists ok. eexists _, (Some i). change (is_ok ok) with true. split; [done|]. split; [by apply HR|].
    cbn [versions set_disk set_versions set_logfile]. rewrite En, E3. split; [done|]. split; [done|]. intros _. split; [done|]. by exists i.
Qed.

(** The state once the replay is installed: a table per chunk, the logs before
    [n] no longer needed. *)
Definition replayed (chunks : list Chunk) (n last : Z) : ManifestSafe.State :=
  ManifestSafe.mkState (with_chunks topts (ManifestSafe.a_files A) chunks) n 0 (n + 1) last (ManifestSafe.a_pointers A).
(** The logs of a disk, in full. *)
Definition logs_whole (d : Disk) : Prop := forall k b bs, logs !! k = Some (b, bs) -> holds_file d (LOG dbname k) b.

(** What a power cut leaves, after an install and before one. *)
Definition after_cut (d : Disk) (success : bool) (A' : ManifestSafe.State) (tables' : gmap Z bytes) : Prop :=
  forall im, cut d im -> exists s' vs0 im', Manifest.recover dbname Manifest.VersionSet_new im = Some (s', vs0, im') /\
    ((exists A'' k, s' = ok /\ ManifestSafe.found vs0 A'' k /\
        ((A'' = A' /\ whole dbname im A' tables') \/ (success = false /\ A'' = A /\ whole dbname im A tables /\ logs_whole im))) \/
     (success = false /\ is_corruption s' = true)).

Definition survives (d : Disk) : Prop :=
  forall im, cut d im -> exists vs0 im' k, Manifest.recover dbname Manifest.VersionSet_new im = Some (ok, vs0, im') /\
    ManifestSafe.found vs0 A k /\ whole dbname im A tables /\ logs_whole im.

Lemma rec_survives low used st edit chunks done : Rec low used st edit chunks done -> survives (disk st).
Proof.
  intros R im Hc. pose proof (rc_kept _ _ _ _ _ _ _ _ _ _ _ _ _ _ _ _ R) as K. pose proof (k_good _ _ _ _ _ _ _ K) as G.
  destruct (ManifestSafe.cut_recovers dbname true (disk st) (eq A) im (ManifestSafe.g_disk _ _ _ _ _ _ G) (ManifestSafe.good_recoverable _ _ _ _ _ _ G) Hc)
    as (s' & vs0 & im' & Er & [(A'' & k & -> & <- & Hf & _)|[? _]]); [|done].
  exists vs0, im', k. split; [done|]. split; [done|]. split.
  - eapply stored_whole; [|exact Hc]. exact (k_tables _ _ _ _ _ _ _ K).
  - intros k' b bs Hk. eapply durable_cut; [|exact Hc]. by eapply (rc_logs _ _ _ _ _ _ _ _ _ _ _ _ _ _ _ _ R).
Qed.

Lemma installed_open chunks n vs :
  Manifest.compact_pointer vs = ManifestSafe.a_pointers A -> Manifest.next_file_number vs = n + 1 ->
  ManifestSafe.installed vs (ManifestSafe.a_files A) (open_edit topts chunks n) = replayed chunks n (Manifest.last_sequence vs).
Proof.
  intros Ep En. unfold ManifestSafe.installed, replayed. rewrite open_files, En.
  destruct (ManifestSafe.complete_fields vs (open_edit topts chunks n)) as (_ & -> & -> & _ & _ & Ec & _). unfold ManifestSafe.set_pointers. rewrite Ec.
  unfold open_edit at 3. cbn [set_log_number set_prev_log_number compact_pointers_]. destruct (tables_edit topts chunks) as (_ & -> & _). by rewrite Ep.
Qed.
Lemma fresh_chunks low used st edit chunks done : Rec low used st edit chunks done -> NoDup (had ++ VersionBuilder.added_pairs [open_edit topts chunks (logfile_number st)]).
Proof.
  intros R. rewrite open_pairs. apply NoDup_app. split; [apply (k_nodup _ _ _ _ _ _ _ (rc_kept _ _ _ _ _ _ _ _ _ _ _ _ _ _ _ _ R))|]. split.
  - intros [l k] Hin (c & E & [_ Hc]%list_elem_of_filter)%list_elem_of_fmap. injection E as -> ->.
    pose proof (rc_numbers _ _ _ _ _ _ _ _ _ _ _ _ _ _ _ _ R c Hc). apply Hhad in Hin. lia.
  - pose proof (rc_nodup _ _ _ _ _ _ _ _ _ _ _ _ _ _ _ _ R) as Hnd. clear R.
    induction chunks as [|c chunks IH]; [constructor|]. apply NoDup_cons in Hnd as [H1 H2]. destruct (decide (c.2 <> [])) as [Hc|Hc].
    + rewrite filter_cons_True by done. rewrite fmap_cons. constructor; [|by apply IH]. intros (c' & E & [_ Hc']%list_elem_of_filter)%list_elem_of_fmap.
      apply H1. injection E as E. rewrite E. by apply list_elem_of_fmap_2.
    + rewrite filter_cons_False by done. by apply IH.
Qed.

Lemma open_install_spec low used st edit chunks done i :
  let n := logfile_number st in
  Rec low used st edit chunks done -> 0 <= n -> Manifest.next_file_number (versions st) = n + 1 -> n < 2 ^ 64 - 3 -> live (disk st) !! LOG dbname n = Some i ->
  let A' := replayed chunks n (Manifest.last_sequence (versions st)) in
  let tables' := with_images topts tables chunks in
  exists s st', open_install dbname st (set_log_number edit n) (Some i) = Some (s, st', Some i) /\
    (is_ok s = true -> (exists had', Kept st' A' had' tables') /\ Manifest.last_sequence (versions st') = Manifest.last_sequence (versions st) /\
       logfile_number st' = n /\ forall k, names_at (disk st') k !! LOG dbname n = Some i) /\
    after_cut (disk st') (is_ok s) A' tables'.
Proof.
  intros n R H0 En Hn Hl A' tables'. pose proof (rc_kept _ _ _ _ _ _ _ _ _ _ _ _ _ _ _ _ R) as K. pose proof (k_good _ _ _ _ _ _ _ K) as G.
  pose proof (ManifestSafe.g_disk _ _ _ _ _ _ G) as Hd. destruct (ManifestSafe.g_numbers _ _ _ _ _ _ G) as (_ & _ & _ & M1 & M2).
  destruct (rc_set _ _ _ _ _ _ _ _ _ _ _ _ _ _ _ _ R) as [Ed Ep]. pose proof (rc_edit _ _ _ _ _ _ _ _ _ _ _ _ _ _ _ _ R) as ->.
  pose proof (installed_open chunks n (versions st) Ep En) as EA. fold A' in EA.
  unfold open_install. fold n. fold (open_edit topts chunks n).
  destruct (open_edit_ok topts chunks n) as [He Hce]; [unfold u64_ok; lia| |].
  { intros c Hc. destruct (rc_ok _ _ _ _ _ _ _ _ _ _ _ _ _ _ _ _ R c Hc). pose proof (rc_numbers _ _ _ _ _ _ _ _ _ _ _ _ _ _ _ _ R c Hc). split; [unfold u64_ok; lia|done]. }
  destruct (ManifestSafe.log_and_apply_atomic dbname (versions st) (disk st) (ManifestSafe.a_files A) (eq A) had (open_edit topts chunks n) G He Hce
    (fresh_chunks _ _ _ _ _ _ R) ltac:(lia)) as (s & vs2 & d2 & E & Hgood & Hcut). rewrite EA in Hgood, Hcut. rewrite E. cbn [mbind option_bind].
  destruct (log_and_apply_apart dbname _ _ _ _ _ _ Hd ltac:(intros w i0 H; rewrite Ed in H; discriminate) E) as [Hd2 A2].
  assert (forall path b, ~ manifest_name dbname (Manifest.manifest_file_number (versions st)) path -> durable (disk st) path b -> durable d2 path b) as Hkeep
    by (intros path b; apply (durable_apart _ _ _ _ _ Hd A2)).
  assert (stored_in dbname d2 A tables) as S2.
  { intros l k m H. destruct (k_tables _ _ _ _ _ _ _ K l k m H) as (b & H1 & H2 & H3). exists b. split; [done|]. split; [|done]. apply Hkeep; [|done].
    destruct (table_known _ _ _ _ _ _ _ _ _ _ K H) as (? & ? & _). apply table_name_not_in_manifest; lia. }
  assert (stored_in dbname d2 A' tables') as S3.
  { apply (stored_chunks dbname topts d2 A A' tables chunks S2 eq_refl (rc_nodup _ _ _ _ _ _ _ _ _ _ _ _ _ _ _ _ R)).
    - intros l k m Hk (c & -> & Hc)%list_elem_of_fmap. apply Hold in Hk. pose proof (rc_numbers _ _ _ _ _ _ _ _ _ _ _ _ _ _ _ _ R c Hc). lia.
    - intros c Hc Hne. apply Hkeep; [|by apply (rc_durable _ _ _ _ _ _ _ _ _ _ _ _ _ _ _ _ R)]. pose proof (rc_numbers _ _ _ _ _ _ _ _ _ _ _ _ _ _ _ _ R c Hc).
      apply table_name_not_in_manifest; lia. }
  assert (forall k b bs, logs !! k = Some (b, bs) -> durable d2 (LOG dbname k) b) as S4.
  { intros k b bs Hk. apply Hkeep; [|by eapply (rc_logs _ _ _ _ _ _ _ _ _ _ _ _ _ _ _ _ R)].
    pose proof (Hlogs _ _ _ Hk). apply log_name_not_in_manifest; lia. }
  destruct (is_ok s) eqn:Es.
  - destruct (log_and_apply_fields dbname _ _ _ _ _ _ E Hd Es) as (Hdesc & Em & Enx). destruct (log_and_apply_numbers _ _ _ _ _ _ _ E Es) as [Els Eln].
    assert (Kept (set_disk (set_versions st vs2) d2 (table_cache st)) A' (had ++ VersionBuilder.added_pairs [open_edit topts chunks n]) tables') as K2.
    { split; cbn [versions disk table_cache set_disk set_versions]; [by apply Hgood|exact S3| |by eapply fresh_chunks|apply (k_cache _ _ _ _ _ _ _ K)].
      rewrite Enx. intros l k [Hin|Hin]%elem_of_app; [by apply (k_had _ _ _ _ _ _ _ K) in Hin|]. rewrite open_pairs in Hin.
      apply list_elem_of_fmap in Hin as (c & [= -> ->] & [_ Hc]%list_elem_of_filter). apply (rc_numbers _ _ _ _ _ _ _ _ _ _ _ _ _ _ _ _ R c Hc). }
    destruct (remove_obsolete_spec _ _ _ _ _ _ _ K2 Hdesc) as (st' & -> & K' & _ & Ev' & El' & Hnames). cbn [mbind option_bind].
    exists s, st'. split; [done|]. rewrite Es. split.
    + intros _. split; [by eexists|]. rewrite Ev', El'. split; [done|]. split; [done|]. apply (Hnames n i); [lia|cbn; rewrite Eln; cbn; lia|].
      cbn [disk set_disk]. intros k. rewrite (settled_names _ _ (fresh_manifest_settles _ _ _ _ _ _ _ E Ed Es)), (ap_live _ _ _ A2); [done|].
      apply log_name_not_in_manifest; lia.
    + intros im Hc. destruct (ManifestSafe.cut_recovers dbname true (disk st') _ im (ManifestSafe.g_disk _ _ _ _ _ _ (k_good _ _ _ _ _ _ _ K'))
        (ManifestSafe.good_recoverable _ _ _ _ _ _ (k_good _ _ _ _ _ _ _ K')) Hc) as (s' & vs0 & im' & Er & [(A'' & k & -> & <- & Hf & _)|[? _]]); [|done].
      exists ok, vs0, im'. split; [done|]. left. exists A', k. split; [done|]. split; [done|]. left. split; [done|].
      eapply stored_whole; [|exact Hc]. exact (k_tables _ _ _ _ _ _ _ K').
  - exists s. eexists. split; [done|]. rewrite Es. split; [done|]. cbn [disk set_disk]. intros im Hc.
    destruct (Hcut im Hc) as (s' & vs0 & im' & Er & [(A'' & k & -> & HA & Hf & _)|H]); [exists ok, vs0, im'|exists s', vs0, im']; (split; [done|]); [left|by right].
    exists A'', k. split; [done|]. split; [done|]. destruct HA as [->|[_ <-]]; [left|right; split; [done|]]; (split; [done|]); [by eapply stored_whole|].
    split; [by eapply stored_whole|]. intros k' b bs Hk. eapply durable_cut; [by eapply S4|done].
Qed.
End Opening.

(** * Theorem *)
Section Open.
Context {Rng : Type} (rng_next : Rng -> Z * Rng) (seed : Rng).
Context (dbname : bytes) (topts : TableBuilder.Options) (max_file_size : Z) (address : BlockHandle -> Z) (cap : nat) (Hcap : (0 < cap)%nat).
Context (Hi : 1 <= TableBuilder.block_restart_interval topts) (Hpol : forall p, TableBuilder.filter_policy topts = Some p -> FilterPolicyLaws p).
Context (P : Z -> Table.Rep -> Prop) (HP : forall n es, right_tables topts address es P n).
Context (usage : @MemTable.MemTable Rng -> Z) (opts : DbOptions).

(** The directory, the lock and the manifest are there: [open] goes on with the
    version set the manifest gives. *)
Definition manifest_read (st : @Db Rng) (vs : Manifest.VersionSet) (d : Disk) : Prop :=
  exists d1 d2, next_fault (disk st) = (false, d1) /\ next_fault d1 = (false, d2) /\ live d2 !! current_file_name dbname <> None /\
    error_if_exists opts = false /\ Manifest.recover dbname (versions st) d2 = Some (ok, vs, d).
Lemma open_existing st vs d :
  manifest_read st vs d ->
  open rng_next seed dbname topts max_file_size address cap usage opts st =
    ('(s, edit, st) ← recover_rest rng_next seed dbname topts max_file_size address cap usage opts (set_disk (set_versions st vs) d (table_cache st)) clear;
     if is_ok s then open_after dbname st edit else Some (s, st, None)).
Proof.
  intros (d1 & d2 & E1 & E2 & Hc & He & Er). unfold open, recover. rewrite E1, E2, bool_decide_false by done. rewrite He. cbn [mbind option_bind].
  change (is_ok ok) with true. cbn [negb]. rewrite Er. cbn [mbind option_bind]. change (is_ok ok) with true. by cbn [negb].
Qed.

(** The directory may not be opened: it has no CURRENT and no database is to be
    made, or it holds tables or logs; or it has one and must not. *)
Definition refused (st : @Db Rng) : Prop :=
  match live (disk st) !! current_file_name dbname with
  | None => create_if_missing opts = false \/
      exists name i, live (disk st) !! name = Some i /\ take (S (length dbname)) name = dbname ++ string_bytes "/" /\ is_data_file (base_name dbname name) = true
  | Some _ => error_if_exists opts = true
  end.
Lemma count_positive names name : name ∈ names -> is_data_file name = true -> 0 < count_data_files names.
Proof.
  clear Hcap Hi. intros Hin Hd. unfold count_data_files. assert (name ∈ filter (λ name, is_data_file name = true) names) as H by (apply list_elem_of_filter; by split).
  destruct (filter _ names); [by apply elem_of_nil in H|cbn [length]; lia].
Qed.

End Open.

(** ** Example

    A new database whose process died with one write in its log. *)
Definition sample_batch : Batch := (3, [WriteBatch.Put [x61] [x31]]).
Definition sample_log : bytes :=
  match Wal.add_record (Wal.LogWriter_new (wf_new [])) (WriteGroup.encode_batch sample_batch) with Some (_, w) => wf_contents (Wal.dest_ w) | None => [] end.
Definition sample_crashed : Disk :=
  let d := sample_disk sample_log in mkDisk ((reopened ∘ wf_contents ∘ i_file) <$> d_inodes d) (names_at d 0) [] [] [].
Definition sample_closed : @Db Z :=
  mkDb sample_crashed TableCache.TableCache_new Manifest.VersionSet_new [] [] None 0 false ok (replicate 7 0) 0.
Definition sample_opts : DbOptions := mkDbOptions true false 1000.
Definition sample_logs : gmap Z (bytes * list Batch) := {[ 5 := (sample_log, [sample_batch]) ]}.
Lemma sample_logs_only k b bs : sample_logs !! k = Some (b, bs) -> k = 5 /\ b = sample_log /\ bs = [sample_batch].
Proof. unfold sample_logs. intros [<- [= <- <-]]%lookup_singleton_Some. done. Qed.
Lemma sample_in_logs v : in_logs sample_logs v -> v = sample_write.
Proof.
  intros (k & b & bs & Hk & b0 & Hb & Hv). apply sample_logs_only in Hk as (_ & _ & ->). apply list_elem_of_singleton in Hb as ->.
  by apply list_elem_of_singleton in Hv.
Qed.
Lemma sample_recovered :
  Manifest.recover ManifestSafe.sample_name Manifest.VersionSet_new sample_crashed = Some (ok, ManifestSafe.sample_set, sample_crashed).
Proof. vm_compute. reflexivity. Qed.
Lemma same_results {X Y Z} (x x' : X) (y y' : Y) (z z' : Z) : Some (x, y, z) = Some (x', y', z') -> y = y' /\ z = z'.
Proof. by intros [= _ <- <-]. Qed.
Lemma same_results2 {X Y} (x x' : X) (y y' : Y) : Some (x, y) = Some (x', y') -> x = x' /\ y = y'.
Proof. by intros [= <- <-]. Qed.
Lemma sample_found :
  (exists k, ManifestSafe.found ManifestSafe.sample_set ManifestSafe.empty_state k) /\
  Kept (Rng := Z) ManifestSafe.sample_name 1 anything (set_disk (set_versions sample_closed ManifestSafe.sample_set) sample_crashed TableCache.TableCache_new)
    ManifestSafe.empty_state [] ∅.
Proof.
  destruct (sample_disk_good sample_log) as [G _].
  destruct (ManifestSafe.cut_recovers ManifestSafe.sample_name true (sample_disk sample_log) (eq ManifestSafe.empty_state) sample_crashed
    (ManifestSafe.g_disk _ _ _ _ _ _ G) (ManifestSafe.good_recoverable _ _ _ _ _ _ G)) as (s & vs & d & Er & [(A & k & -> & <- & Hf & HG)|[? _]]); [| |done].
  - exists 0%nat, ((wf_contents ∘ i_file) <$> d_inodes (sample_disk sample_log)). split; [|unfold sample_crashed; by rewrite <- list_fmap_compose].
    apply Forall2_fmap_r. apply Forall_Forall2_diag, Forall_forall. intros node _. left. exists (length (wf_contents (i_file node))).
    split; [unfold wf_contents; rewrite !length_app; lia|]. cbn. by rewrite firstn_all.
  - rewrite sample_recovered in Er. apply same_results in Er as [<- <-]. split; [exists k; exact Hf|].
    assert (VersionBuilder.added_pairs [Manifest.snapshot_edit ManifestSafe.sample_set] = []) as Eh by (vm_compute; reflexivity). rewrite Eh in HG.
    split; cbn [versions disk table_cache set_disk set_versions]; [exact HG| | |constructor|exact sample_cache_ok].
    + intros l n m H. cbn [ManifestSafe.a_files ManifestSafe.empty_state] in H. by rewrite lookup_empty in H.
    + intros l n H. apply elem_of_nil in H. destruct H.
Qed.
Lemma sample_log_reads : log_reads sample_log [sample_batch].
Proof.
  split.
  - split; [vm_compute; discriminate|]. split; [|done]. split; [|vm_compute; split; [reflexivity|split; discriminate]].
    apply Forall_singleton. vm_compute. done.
  - exists 40%nat. destruct (Wal.read_all 40 (Wal.LogReader_new (mkSequential sample_log []))) as [[recs r]|] eqn:E; [|vm_compute in E; discriminate].
    exists r. assert ((λ x, (x.1, Wal.damaged x.2)) <$> Wal.read_all 40 (Wal.LogReader_new (mkSequential sample_log [])) =
      Some (WriteGroup.encode_batch <$> [sample_batch], false)) as H by (vm_compute; reflexivity).
    rewrite E in H. cbn [fmap option_fmap option_map fst snd] in H. apply same_results2 in H as [-> H]. split; [reflexivity|exact H].
Qed.
Lemma sample_names : map_to_list (live sample_crashed) =
  [(string_bytes "db/000005.log", 2%nat); (string_bytes "db/MANIFEST-000001", 0%nat); (string_bytes "db/CURRENT", 1%nat)].
Proof. vm_compute. reflexivity. Qed.
Lemma sample_directory :
  directory (Rng := Z) ManifestSafe.sample_name sample_logs 10
    (set_disk (set_versions sample_closed ManifestSafe.sample_set) sample_crashed TableCache.TableCache_new) 1.
Proof.
  split; cbn [versions disk set_disk set_versions].
  - intros name i k Hl Hp Hk. apply elem_of_map_to_list in Hl. rewrite sample_names in Hl.
    assert (k = 5) as ->.
    { apply elem_of_cons in Hl as [[= -> _]|Hl]; [vm_compute in Hp; by injection Hp|].
      apply elem_of_cons in Hl as [[= -> _]|Hl]; [vm_compute in Hp; discriminate|].
      apply list_elem_of_singleton in Hl as [= -> _]. vm_compute in Hp. discriminate. }
    exists sample_log, [sample_batch]. split; [apply lookup_singleton_eq|]. split; [exact sample_log_reads|]. cbn. lia.
  - intros k b bs (-> & _ & _)%sample_logs_only. left. vm_compute. discriminate.
  - intros k b bs (-> & -> & _)%sample_logs_only. exists 2%nat, (reopened sample_log). split.
    + intros j. assert (d_pending sample_crashed = []) as E by reflexivity. rewrite (settled_names _ _ E). vm_compute. reflexivity.
    + split; [vm_compute; reflexivity|apply ManifestSafe.settled_reopened].
  - rewrite <- length_map_to_list, sample_names. vm_compute. reflexivity.
Qed.
Lemma sample_fits (m : @MemTable.MemTable Z) Ls ves :
  MemTable.holds m Ls ves -> (forall v, v ∈ ves -> in_logs sample_logs v) ->
  TableBuilder.weight (entries ves) < 2 ^ 32 /\ size (image Table.sample_options (entries ves)) < 2 ^ 32.
Proof.
  intros H Hin. apply MemTable.holds_sorted in H. assert (ves = [] \/ ves = [sample_write]) as [->| ->].
  { destruct ves as [|v ves]; [by left|right]. assert (v = sample_write) as -> by (apply sample_in_logs, Hin; left). destruct ves as [|w ves]; [done|].
    assert (w = sample_write) as -> by (apply sample_in_logs, Hin; right; left). apply StronglySorted_inv in H as [_ Hlt%Forall_inv].
    assert (compare_internal_keys (MemTable.ikey sample_write) (MemTable.ikey sample_write) = Eq) as E by (vm_compute; reflexivity).
    unfold MemTable.version_lt in Hlt. rewrite E in Hlt. discriminate. }
  - split; vm_compute; reflexivity.
  - split; vm_compute; reflexivity.
Qed.


(** A log, and no CURRENT. *)
Definition sample_lost : @Db Z :=
  mkDb (mkDisk [reopened sample_log] {[ log_file_name ManifestSafe.sample_name 5 := 0%nat ]} [] [] []) TableCache.TableCache_new Manifest.VersionSet_new [] [] None 0 false ok
    (replicate 7 0) 0.
End DbOpen.
