(* ===== verification/Repair.v ===== *)
(** The merge of the repair tool (src/src/repair.cpp): reading a table from end
    to end, and one pass of the merge that writes every user key once, at its
    newest version, into tables that do not overlap. *)
From stdpp Require Import gmap sorting.
From S2P Require Import Prelude Status File Encoding DbFormat Comparator Bloom FilterBlock BlockBuilder Iterator Merger Format TableBuilder Table TwoLevelIterator.
From S2P Require Import CompactionWork Filename VersionEdit WriteGroup Disk Manifest ManifestSafe BuildTable Flush.
Import Status File Encoding DbFormat Comparator Bloom Iterator Format Filename VersionEdit Disk BuildTable.
Local Open Scope Z_scope.

Module Repair.
Import TableBuilder.TableBuilder.

(** * The operations *)
Section Repair.
Context (name : bytes) (options : Options) (max_file_size : Z).
(** The iterators [TableCache::new_iterator] returned. *)
Context {I : Type} (ops : Iterator I).

(** ** read_table *)
Fixpoint read_loop (fuel : nat) (it : I) (previous : bytes) (meta : FileMetaData) (newest entries : Z) :
    option (Status * FileMetaData * Z * Z) :=
  match fuel with
  | O => None
  | S fuel =>
      if it_valid ops it then
        let key := it_key ops it in
        match parse_internal_key key with
        | None => Some (corruption "holds a key that is not an internal key", meta, newest, entries)
        | Some parsed =>
            if negb (entries =? 0) && bool_decide (compare internal_key_comparator previous key <> Lt) then
              Some (corruption "holds keys out of order", meta, newest, entries)
            else
              let meta := if entries =? 0 then set_smallest meta key else meta in
              it ← it_next ops it;
              read_loop fuel it key (set_largest meta key) (Z.max newest (sequence parsed)) (u64 (entries + 1))
        end
      else
        let s := it_status ops it in
        Some (if is_ok s && (entries =? 0) then corruption "holds no entries" else s, meta, newest, entries)
  end.
Definition read_table (fuel : nat) (it : I) (meta : FileMetaData) (newest : Z) : option (Status * FileMetaData * Z * Z) :=
  it ← it_seek_to_first ops it;
  read_loop fuel it [] meta newest 0.

(** ** merge_pass

    What is written: the open output, its description, the finished outputs. *)
Record Sink := mkSink {
  s_output : option (nat * TableBuilder);
  s_meta : FileMetaData;
  s_outputs : list FileMetaData;
  s_next : Z;
  s_disk : Disk
}.
Abbreviation TABLE := (table_file_name name).

Definition finish_output (k : Sink) : option (Status * Sink) :=
  match s_output k with
  | None => Some (ok, k)
  | Some (i, t) =>
      '(s, t) ← finish t;
      let meta := if is_ok s then set_file_size (s_meta k) (file_size t) else s_meta k in
      let (s, d) := settle_file (s_disk k) i t s in
      if is_ok s then Some (s, mkSink None meta (s_outputs k ++ [meta]) (s_next k) d)
      else Some (s, mkSink None meta (s_outputs k) (s_next k) (snd (remove_file d (TABLE (number meta)))))
  end.
(** [abandon]: the half-written output and every finished one. *)
Definition remove_outputs (outputs : list FileMetaData) (d : Disk) : Disk :=
  fold_left (λ d m, snd (remove_file d (TABLE (number m)))) outputs d.
Definition abandon_pass (k : Sink) : Sink :=
  let d := match s_output k with
    | Some (i, t) => snd (remove_file (put (s_disk k) i (snd (wf_close (file_ (abandon t)))) false) (TABLE (number (s_meta k))))
    | None => s_disk k
    end in
  mkSink None (s_meta k) [] (s_next k) (remove_outputs (s_outputs k) d).

Definition open_output (key : bytes) (k : Sink) : option (Status * Sink) :=
  match s_output k with
  | Some _ => Some (ok, k)
  | None =>
      let meta := mkFile (s_next k) 0 [] [] default_allowed_seeks 0 in
      let next := u64 (s_next k + 1) in
      match create (s_disk k) (TABLE (number meta)) with
      | (inl s, d) => Some (s, mkSink None meta (s_outputs k) next d)
      | (inr i, d) =>
          t ← TableBuilder_new options (default (wf_new []) (i_file <$> d_inodes d !! i)) internal_key_comparator;
          Some (ok, mkSink (Some (i, t)) (set_smallest meta key) (s_outputs k) next d)
      end
  end.
Definition put_entry (key value : bytes) (k : Sink) : option (Status * Sink) :=
  '(s, k) ← open_output key k;
  if negb (is_ok s) then Some (s, k)
  else
    '(i, t) ← s_output k;
    t ← add t key value;
    let k := mkSink (Some (i, t)) (set_largest (s_meta k) key) (s_outputs k) (s_next k) (s_disk k) in
    if max_file_size <=? file_size t then finish_output k else Some (ok, k).

(** What the pass has seen. *)
Record Seen := mkSeen {
  last_emitted : bytes;
  last_user_key : bytes;
  last_value : bytes;
  has_last : bool;
  newest : Z;
  notes : list bytes
}.
Definition disagree (user_key : bytes) : bytes :=
  string_bytes "two copies of the same entry disagree; kept the one from the lower-numbered file (user key " ++ take 40 user_key ++ string_bytes ")".

(** What an entry is compared with before it is taken: out of order, or a copy. *)
Definition check_order (n : Seen) (key value user_key : bytes) : option Seen :=
  if has_last n then
    match compare internal_key_comparator (last_emitted n) key with
    | Gt => None
    | Eq => Some (mkSeen (last_emitted n) (last_user_key n) (last_value n) true (newest n)
                    (if bool_decide (value = last_value n) then notes n else notes n ++ [disagree user_key]))
    | Lt => Some n
    end
  else Some n.

Fixpoint merge_loop (fuel : nat) (drop_deletions : bool) (children : list I) (n : Seen) (k : Sink) : option (Status * list I * Seen * Sink) :=
  match fuel with
  | O => None
  | S fuel =>
      match Merger.find_smallest ops internal_key_comparator children with
      | None => Some (ok, children, n, k)
      | Some c =>
          child ← children !! c;
          let key := it_key ops child in
          match parse_internal_key key with
          | None => Some (corruption "a key that read once would not read twice", children, n, abandon_pass k)
          | Some parsed =>
              let n := mkSeen (last_emitted n) (last_user_key n) (last_value n) (has_last n) (Z.max (newest n) (sequence parsed)) (notes n) in
              value ← it_value ops child;
              match check_order n key value (user_key parsed) with
              | None => Some (corruption "inputs are not in order", children, n, abandon_pass k)
              | Some n =>
                  let newest_version := negb (has_last n) || bool_decide (user_key parsed <> last_user_key n) in
                  let keep := negb (drop_deletions && bool_decide (type parsed = kDeletion)) in
                  '(s, k) ← (if newest_version && keep then put_entry key value k else Some (ok, k));
                  let n := mkSeen key (if newest_version then user_key parsed else last_user_key n) value true (newest n) (notes n) in
                  if negb (is_ok s) then Some (s, children, n, abandon_pass k)
                  else
                    child ← it_next ops child;
                    merge_loop fuel drop_deletions (<[c := child]> children) n k
              end
          end
      end
  end.

(** Every child at its first entry, unless one fails there. *)
Fixpoint start_children (children : list I) : option (Status * list I) :=
  match children with
  | [] => Some (ok, [])
  | child :: rest =>
      child ← it_seek_to_first ops child;
      if negb (it_valid ops child) && negb (is_ok (it_status ops child)) then Some (it_status ops child, [])
      else
        '(s, rest) ← start_children rest;
        Some (s, child :: rest)
  end.

Definition merge_pass (fuel : nat) (children : list I) (drop_deletions : bool) (next_number newest : Z) (notes : list bytes) (d : Disk) :
    option (Status * Seen * Sink) :=
  let n := mkSeen [] [] [] false newest notes in
  let k := mkSink None (mkFile 0 0 [] [] default_allowed_seeks 0) [] next_number d in
  '(s, children) ← start_children children;
  if negb (is_ok s) then Some (s, n, k)
  else
    '(s, children, n, k) ← merge_loop fuel drop_deletions children n k;
    if negb (is_ok s) then Some (s, n, k)
    else
      let s := Merger.first_failure ops children in
      if negb (is_ok s) then Some (s, n, abandon_pass k)
      else
        '(s, k) ← finish_output k;
        Some (s, n, if is_ok s then k else abandon_pass k).
End Repair.

(** * Writing the outputs *)
Section Sink.
Context (name : bytes) (options : Options) (max_file_size : Z).
Context (Hi : 1 <= block_restart_interval options) (Hpol : forall p, filter_policy options = Some p -> FilterPolicyLaws p).
Abbreviation TABLE := (table_file_name name).
Abbreviation entry := (bytes * bytes)%type.

(** A file that has reached the disk under the only name it ever had; the name
    itself is committed later, with the directory. *)
Definition held (d : Disk) (path contents : bytes) : Prop :=
  exists i node, live d !! path = Some i /\ (forall k nm, names_at d k !! nm = Some i -> nm = path) /\
    d_inodes d !! i = Some node /\ ManifestSafe.settled node contents.
Definition fresh (d : Disk) (n : Z) : Prop := forall k m, n <= m < 2 ^ 64 -> names_at d k !! TABLE m = None.
(** The names the pass may use. *)
Definition mine (first next : Z) (nm : bytes) : Prop := exists n, first <= n < next /\ nm = TABLE n.
(** Entries a table can be made of. *)
Definition good (es : list entry) : Prop :=
  sorted_by internal_key_comparator es /\ Forall (λ e, readable internal_key_comparator e.1) es /\ weight es < 2 ^ 32 /\ size (image options es) < 2 ^ 32.

Lemma held_apart (T : bytes -> Prop) d d' path contents : d_ok d -> apart T d d' -> ~ T path -> held d path contents -> held d' path contents.
Proof.
  intros Hd A HT (i & node & Hl & Hu & Hn & Hs). exists i, node.
  assert (forall k nm, T nm -> names_at d k !! nm <> Some i) as Hno by (intros k nm HT' E; apply Hu in E; by subst nm).
  split; [by rewrite (ap_live _ _ _ A)|]. split; [|split; [by apply (ap_inodes _ _ _ A)|done]].
  intros k nm [[k0 E]|(HT' & [(k0 & nm0 & HT0 & E)|Hge])]%(ap_touched _ _ _ A); [by eapply Hu|by apply Hno in E|]. apply lookup_lt_Some in Hn. lia.
Qed.
Lemma fresh_apart first next d d' : fresh d next -> apart (mine first next) d d' -> 0 <= first -> fresh d' next.
Proof.
  intros F A H0 k m Hm. destruct (ap_names _ _ _ A k) as [k0 ->]; [by apply F|]. intros (n & Hn & E).
  apply (Flush.table_name_inj name m) in E; lia.
Qed.
Lemma reference_run es :
  good es -> exists u0 u u', TableBuilder_new options (wf_new []) internal_key_comparator = Some u0 /\ add_entries u0 es = Some u /\ finish u = Some (ok, u') /\
    wf_contents (file_ u') = image options es /\ offset_ u' = size (image options es).
Proof using Hi Hpol.
  intros (G1 & G2 & G3 & G4). destruct (image_built options Hi Hpol es G1 G2 G3 G4) as (u' & _ & _ & _ & E & Hc & Ho & _). unfold TableBuilder.build_table in E.
  destruct (TableBuilder_new options (wf_new []) _) as [u0|]; [|done]. cbn [mbind option_bind] in E. destruct (add_entries u0 es) as [u|] eqn:Ea; [|done].
  cbn [mbind option_bind] in E. exists u0, u, u'. done.
Qed.

(** What holds of the files whatever happens. *)
Record Weak (first : Z) (d0 : Disk) (k : Sink) : Prop := {
  wk_ok : d_ok (s_disk k);
  wk_apart : apart (mine first (s_next k)) d0 (s_disk k);
  wk_numbers m : m ∈ s_outputs k -> first <= number m < s_next k;
  wk_output : match s_output k with
    | None => True
    | Some (i, t) => first <= number (s_meta k) < s_next k /\ live (s_disk k) !! TABLE (number (s_meta k)) = Some i
    end
}.
(** And of a pass that has gone well: the outputs are tables of [chunks], and
    the open one has [cur] in it. *)
Record Writing (first : Z) (d0 : Disk) (k : Sink) (chunks : list (list entry)) (cur : list entry) : Prop := {
  wr_weak : Weak first d0 k;
  wr_fresh : fresh (s_disk k) (s_next k);
  wr_next : s_next k = first + Z.of_nat (length chunks) + (match s_output k with None => 0 | Some _ => 1 end);
  wr_length : length (s_outputs k) = length chunks;
  wr_outputs i m ch : s_outputs k !! i = Some m -> chunks !! i = Some ch ->
    number m = first + Z.of_nat i /\ ch <> [] /\ described options ch m /\ held (s_disk k) (TABLE (number m)) (image options ch);
  wr_output : match s_output k with
    | None => cur = []
    | Some (i, t) => cur <> [] /\ number (s_meta k) = first + Z.of_nat (length chunks) /\
        head cur.*1 = Some (smallest (s_meta k)) /\ last cur.*1 = Some (largest (s_meta k)) /\ wf_open (file_ t) = true /\
        (exists u0 u, TableBuilder_new options (wf_new []) internal_key_comparator = Some u0 /\ add_entries u0 cur = Some u /\ mirrors t u) /\
        forall k0 nm, names_at (s_disk k) k0 !! nm = Some i -> nm = TABLE (number (s_meta k))
    end
}.

Lemma remove_outputs_apart (T : bytes -> Prop) outputs d :
  d_ok d -> (forall m, m ∈ outputs -> T (TABLE (number m))) -> d_ok (remove_outputs name outputs d) /\ apart T d (remove_outputs name outputs d).
Proof.
  unfold remove_outputs. revert d. induction outputs as [|m outputs IH]; intros d Hd HT; cbn [fold_left]; [split; [done|by apply apart_same]|].
  destruct (remove_file d (TABLE (number m))) as [s d1] eqn:E. cbn [snd]. destruct (remove_spec _ _ _ _ E Hd) as (Hd1 & _).
  destruct (IH d1 Hd1) as [Hd2 A2]; [intros m' Hm; apply HT; by right|]. split; [done|]. eapply apart_trans; [|exact A2].
  eapply apart_remove; [done| |exact E]. apply HT. left.
Qed.
Lemma abandon_spec first d0 k :
  Weak first d0 k -> let k' := abandon_pass name k in s_outputs k' = [] /\ s_next k' = s_next k /\ d_ok (s_disk k') /\ apart (mine first (s_next k)) d0 (s_disk k').
Proof.
  intros [W1 W2 W3 W4] k'. split; [done|]. split; [done|]. unfold k', abandon_pass. cbn [s_disk].
  assert (exists d1, match s_output k with
      | Some (i, t) => snd (remove_file (put (s_disk k) i (snd (wf_close (file_ (abandon t)))) false) (TABLE (number (s_meta k))))
      | None => s_disk k end = d1 /\ d_ok d1 /\ apart (mine first (s_next k)) (s_disk k) d1) as (d1 & -> & Hd1 & A1).
  { destruct (s_output k) as [[i t]|]; [|eexists; split; [done|]; split; [done|by apply apart_same]]. destruct W4 as [Hn Hl].
    set (d1 := put _ _ _ _). assert (d_ok d1) as Hd1 by (eapply same_ok; [apply put_same|done]).
    destruct (remove_file d1 _) as [s d2] eqn:E. exists d2. split; [done|]. split; [exact (proj1 (remove_spec _ _ _ _ E Hd1))|].
    eapply apart_trans; [|eapply apart_remove; [exact Hd1| |exact E]; by eexists]. apply (apart_put _ (TABLE (number (s_meta k)))); [by eexists|done]. }
  destruct (remove_outputs_apart (mine first (s_next k)) (s_outputs k) d1 Hd1) as [Hd2 A2]; [intros m Hm; exists (number m); split; [by apply W3|done]|].
  split; [done|]. eapply apart_trans; [exact W2|]. by eapply apart_trans.
Qed.
Lemma weak_step first d0 k k' :
  Weak first d0 k -> d_ok (s_disk k') -> apart (mine first (s_next k')) (s_disk k) (s_disk k') -> s_next k <= s_next k' ->
  (forall m, m ∈ s_outputs k' -> first <= number m < s_next k') ->
  (match s_output k' with None => True | Some (i, t) => first <= number (s_meta k') < s_next k' /\ live (s_disk k') !! TABLE (number (s_meta k')) = Some i end) ->
  Weak first d0 k'.
Proof.
  intros [W1 W2 W3 W4] Hd A Hn Ho Hp. split; try done. eapply apart_trans; [|exact A]. eapply apart_weaken; [|exact W2]. intros nm (n & Hr & ->). exists n. split; [lia|done].
Qed.
Lemma mine_one first next n : first <= n < next -> forall nm, TABLE n = nm -> mine first next nm.
Proof. intros H nm <-. by exists n. Qed.
Lemma held_other first n d d' path contents :
  d_ok d -> apart (eq (TABLE n)) d d' -> 0 <= first -> first <= n < 2 ^ 64 -> forall m, first <= m < n -> path = TABLE m -> held d path contents -> held d' path contents.
Proof. intros Hd A H0 Hn m Hm ->. apply (held_apart _ _ _ _ _ Hd A). intros E. apply (Flush.table_name_inj name n) in E; lia. Qed.

Lemma finish_output_spec first d0 k chunks cur :
  0 <= first -> Writing first d0 k chunks cur -> s_next k <= 2 ^ 64 -> (cur <> [] -> good cur) ->
  exists s k', finish_output name k = Some (s, k') /\ s_next k' = s_next k /\
    if is_ok s then Writing first d0 k' (chunks ++ match cur with [] => [] | _ => [cur] end) [] else Weak first d0 k'.
Proof using Hi Hpol.
  intros H0 [W1 W2 W3 W4 W5 W6] Hmax Hg. unfold finish_output. destruct (s_output k) as [[i t]|] eqn:Eo.
  2: { subst cur. exists ok, k. rewrite app_nil_r. split; [done|]. split; [done|]. change (is_ok ok) with true. split; rewrite ?Eo; done. }
  destruct W6 as (Hne & Hnum & Hhd & Hlast & Hopen & (u0 & u & Eu0 & Eu & Hm) & Hun). specialize (Hg Hne).
  destruct (reference_run cur Hg) as (u0' & u1 & u' & Eu0' & Eu' & Ef & Hc & Hoff). rewrite Eu0' in Eu0. injection Eu0 as ->. rewrite Eu' in Eu. injection Eu as ->.
  destruct (finish_mirrors t u u' Hm Ef) as (s & t' & Et & _ & Hok). rewrite Et. cbn [mbind option_bind].
  pose proof (wk_output _ _ _ W1) as Hout. rewrite Eo in Hout. destruct Hout as [Hrange Hl]. set (n := number (s_meta k)) in *.
  assert (wf_open (file_ t') = true) as Hopen' by (apply finish_runs, runs_open in Et; by rewrite Et).
  destruct (settle_file (s_disk k) i t' s) as [s' d'] eqn:Es. destruct (settle_file_spec _ _ _ _ _ _ (TABLE n) (wk_ok _ _ _ W1) Hl Hopen' Es) as (Hd' & S' & A' & Hs').
  set (meta := if is_ok s then _ else s_meta k). assert (number meta = n) as En by (unfold meta; by destruct (is_ok s)).
  assert (apart (mine first (s_next k)) (s_disk k) d') as A2 by (eapply apart_weaken; [by apply (mine_one _ _ n)|exact A']).
  destruct (is_ok s') eqn:Eok.
  - destruct (Hs' eq_refl) as (Es0 & node & Hnode & Hset). destruct (Hok Es0) as [C O].
    eexists s', _. split; [done|]. split; [done|]. rewrite Eok. assert (match cur with [] => [] | _ => [cur] end = [cur]) as -> by (by destruct cur).
    split; cbn [s_output s_outputs s_next s_disk s_meta].
    + eapply weak_step; [exact W1|..]; cbn [s_output s_outputs s_next s_disk]; try done. intros m [Hm'|Hm']%elem_of_app; [by apply (wk_numbers _ _ _ W1)|].
      apply list_elem_of_singleton in Hm' as ->. rewrite En. lia.
    + intros k0 m Hm'. rewrite (same_names_at _ _ _ S'). by apply W2.
    + rewrite length_app. cbn [length]. lia.
    + rewrite !length_app. cbn [length]. lia.
    + intros j m ch [Hj|[-> <-]]%lookup_snoc_Some Hch.
      * destruct Hj as [Hlt Hj]. apply lookup_snoc_Some in Hch as [[_ Hch]|[-> _]]; [|lia]. destruct (W5 j m ch Hj Hch) as (H1 & H2 & H3 & H4).
        split_and!; try done. eapply (held_other first n); [exact (wk_ok _ _ _ W1)|exact A'|lia|lia| |done|exact H4]. lia.
      * rewrite W4 in Hch. apply lookup_snoc_Some in Hch as [[Hlt _]|[_ <-]]; [lia|]. rewrite En. split; [lia|]. split; [done|]. split.
        { unfold meta, described. rewrite Es0. unfold file_size. cbn [VersionEdit.file_size set_file_size smallest largest]. split; [congruence|done]. }
        exists i, node. split; [by rewrite (same_live _ _ S')|]. split; [|split; [done|]].
        { intros k0 nm. rewrite (same_names_at _ _ _ S'). apply Hun. }
        by rewrite C, Hc in Hset.
    + done.
  - eexists s', _. split; [done|]. split; [done|]. rewrite Eok. destruct (remove_file d' (TABLE (number meta))) as [s2 d2] eqn:Er. rewrite En in Er.
    eapply weak_step; [exact W1|..]; cbn [s_output s_outputs s_next s_disk snd]; try done.
    + exact (proj1 (remove_spec _ _ _ _ Er Hd')).
    + eapply apart_trans; [exact A2|]. eapply apart_remove; [done| |exact Er]. by exists n.
    + apply (wk_numbers _ _ _ W1).
Qed.

Lemma open_output_spec first d0 k chunks cur key value :
  0 <= first -> Writing first d0 k chunks cur -> s_next k + 1 < 2 ^ 64 -> good [(key, value)] ->
  exists s k', open_output name options key k = Some (s, k') /\ s_next k <= s_next k' <= s_next k + 1 /\
    if is_ok s then exists i t, s_output k' = Some (i, t) /\ s_outputs k' = s_outputs k /\ fresh (s_disk k') (s_next k') /\
        s_next k' = first + Z.of_nat (length chunks) + 1 /\ number (s_meta k') = first + Z.of_nat (length chunks) /\ Weak first d0 k' /\ wf_open (file_ t) = true /\
        (cur <> [] -> head cur.*1 = Some (smallest (s_meta k'))) /\ (cur = [] -> smallest (s_meta k') = key) /\
        (exists u0 u, TableBuilder_new options (wf_new []) internal_key_comparator = Some u0 /\ add_entries u0 cur = Some u /\ mirrors t u) /\
        (forall k0 nm, names_at (s_disk k') k0 !! nm = Some i -> nm = TABLE (number (s_meta k'))) /\
        forall path contents m, first <= m < number (s_meta k') -> path = TABLE m -> held (s_disk k) path contents -> held (s_disk k') path contents
    else Weak first d0 k'.
Proof using Hi Hpol.
  intros H0 [W1 W2 W3 W4 W5 W6] Hmax Hg. unfold open_output. destruct (s_output k) as [[i t]|] eqn:Eo.
  { destruct W6 as (Hne & Hnum & Hhd & Hlast & Hopen & Hu & Hun). exists ok, k. split; [done|]. split; [lia|]. change (is_ok ok) with true. exists i, t. split_and!; try done; lia. }
  subst cur. set (n := s_next k) in *. rewrite Z.add_0_r in W3. cbn [number]. assert (0 <= n < 2 ^ 64) as Hn by lia.
  destruct (create (s_disk k) (TABLE n)) as [r d] eqn:Ec. pose proof (wk_ok _ _ _ W1) as Hd.
  pose proof (apart_create (eq (TABLE n)) _ _ _ _ Hd eq_refl Ec) as A. destruct (create_spec _ _ _ _ Ec Hd) as [Hd' Hr].
  assert (u64 (n + 1) = n + 1) as En by (apply u64_small; lia). rewrite En.
  assert (apart (mine first (n + 1)) (s_disk k) d) as A2 by (eapply apart_weaken; [apply (mine_one _ _ n); lia|exact A]).
  assert (forall o meta, (match o with None => True | Some (i, t) => first <= number meta < n + 1 /\ live d !! TABLE (number meta) = Some i end) ->
    Weak first d0 (mkSink o meta (s_outputs k) (n + 1) d)) as HW.
  { intros o meta Ho. eapply weak_step; [exact W1|..]; cbn [s_output s_outputs s_next s_disk s_meta]; try done; [fold n; lia|]. intros m Hm%(wk_numbers _ _ _ W1). fold n in Hm. lia. }
  destruct r as [s|i].
  - destruct Hr as [Hs _]. eexists s, _. split; [done|]. cbn [s_next]. split; [lia|]. rewrite Hs. by apply HW.
  - destruct Hr as (Hl & (script & before & Hnode) & _ & Hcase). rewrite Hnode. cbn [fmap option_fmap option_map default from_option id i_file].
    destruct (reference_run _ Hg) as (u0 & _ & _ & Eu0 & _). destruct (new_mirrors _ script _ _ Eu0) as (t & Et & Hm). rewrite Et. cbn [mbind option_bind].
    eexists ok, _. split; [done|]. cbn [s_next]. split; [lia|]. change (is_ok ok) with true. exists i, t. cbn [s_output s_outputs s_next s_disk s_meta number set_smallest smallest].
    split_and!; try done; try lia.
    + apply (fresh_apart first (n + 1) (s_disk k)); [|done|lia]. intros k0 m Hm'. apply W2. lia.
    + apply HW. cbn [number set_smallest]. split; [lia|done].
    + unfold TableBuilder_new in Et. destruct (match filter_policy options with Some policy => _ | None => _ end); [|done]. cbn [mbind option_bind] in Et. by injection Et as <-.
    + by exists u0, u0.
    + intros k0 nm [[k1 E]|(HT & _)]%(ap_touched _ _ _ A); [|done].
      destruct Hcase as [[S Hl0]|[_ ->]]; [unfold live in Hl0; rewrite (W2 _ n) in Hl0; [done|lia]|]. apply (wn_range _ _ (Hd k1)) in E. lia.
    + intros path contents m Hmr ->. apply (held_other first n _ _ _ _ Hd A H0 ltac:(lia) m Hmr eq_refl).
Qed.
Lemma put_entry_spec first d0 k chunks cur key value :
  0 <= first -> Writing first d0 k chunks cur -> s_next k + 1 < 2 ^ 64 -> good [(key, value)] -> good (cur ++ [(key, value)]) ->
  exists s k', put_entry name options max_file_size key value k = Some (s, k') /\ s_next k <= s_next k' <= s_next k + 1 /\
    if is_ok s then exists chunks' cur', Writing first d0 k' chunks' cur' /\ concat chunks' ++ cur' = concat chunks ++ cur ++ [(key, value)] /\
        (cur' = [] \/ cur' = cur ++ [(key, value)])
    else Weak first d0 k'.
Proof using Hi Hpol.
  intros H0 W Hmax Hg1 Hg. unfold put_entry. destruct (open_output_spec first d0 k chunks cur key value H0 W Hmax Hg1) as (s & k1 & -> & Hn & H). cbn [mbind option_bind].
  destruct (is_ok s) eqn:Es; cbn [negb]; [|exists s, k1; rewrite Es; done].
  destruct H as (i & t & Eout & Eo & Hfr & Enx & Enum & W1 & Hopen & Hhd & Hsm & (u0 & u & Eu0 & Eu & Hm) & Hun & Hheld). rewrite Eout. cbn [mbind option_bind].
  destruct (reference_run _ Hg) as (u0' & u1 & _ & Eu0' & Eu1 & _). rewrite Eu0' in Eu0. injection Eu0 as ->.
  rewrite CompactionWork.add_entries_snoc, Eu in Eu1. cbn [mbind option_bind] in Eu1. destruct (add_mirrors _ _ _ _ _ Hm Eu1) as (t' & Et & Hm'). rewrite Et. cbn [mbind option_bind].
  set (k2 := mkSink (Some (i, t')) _ _ _ _).
  assert (Writing first d0 k2 chunks (cur ++ [(key, value)])) as W2.
  { split; cbn [s_output s_outputs s_next s_disk s_meta k2]; rewrite ?Eo; try done.
    - eapply weak_step; [exact W1|exact (wk_ok _ _ _ W1)|by apply apart_same|done| |]; cbn [s_output s_outputs s_next s_disk s_meta k2]; [apply (wk_numbers _ _ _ W1)|].
      pose proof (wk_output _ _ _ W1) as Hw. by rewrite Eout in Hw.
    - apply (wr_length _ _ _ _ _ W).
    - intros j m ch Hj Hch. destruct (wr_outputs _ _ _ _ _ W j m ch Hj Hch) as (H1 & H2 & H3 & H4). split_and!; try done. eapply Hheld; [|done|exact H4].
      apply lookup_lt_Some in Hch. lia.
    - split; [by destruct cur|]. split; [done|]. split; [|split; [rewrite fmap_app; apply last_snoc|split]].
      + destruct cur as [|e cur]; [cbn; by rewrite Hsm|]. specialize (Hhd ltac:(done)). done.
      + rewrite (add_entries_open [(key, value)] t t'); [done|]. cbn [add_entries]. by rewrite Et.
      + split; [|exact Hun]. exists u0, u1. by rewrite CompactionWork.add_entries_snoc, Eu. }
  destruct (max_file_size <=? file_size t').
  - destruct (finish_output_spec first d0 k2 chunks (cur ++ [(key, value)]) H0 W2) as (s' & k' & -> & En' & H'); [cbn [s_next k2]; lia|done|].
    exists s', k'. split; [done|]. rewrite En'. split; [done|]. destruct (is_ok s'); [|done].
    eexists _, []. split; [exact H'|]. split; [|by left]. destruct (cur ++ [(key, value)]) as [|e l] eqn:El; [by destruct cur|].
    rewrite concat_app. cbn [concat]. by rewrite !app_nil_r.
  - exists ok, k2. split; [done|]. split; [done|]. change (is_ok ok) with true. exists chunks, (cur ++ [(key, value)]). split; [done|]. split; [done|by right].
Qed.
End Sink.

(** * Merging *)
Section Merge.
Context {I : Type} (ops : Iterator I).
Abbreviation entry := (bytes * bytes)%type.
Abbreviation cmp := internal_key_comparator.

(** The first of the smallest children. *)
Definition first_smallest (children : list I) (best : option (nat * bytes)) : Prop :=
  match best with
  | None => forall c k, ~ Merger.candidate ops children c k
  | Some (c, k) => Merger.candidate ops children c k /\
      forall c' k', Merger.candidate ops children c' k' -> ~ key_lt cmp k' k /\ ((c' < c)%nat -> key_lt cmp k k')
  end.
Lemma smallest_first done rest best :
  (forall c k, Merger.candidate ops (done ++ rest) c k -> readable cmp k) -> first_smallest done best -> first_smallest (done ++ rest) (Merger.smallest_loop ops cmp rest (length done) best).
Proof.
  revert done best. induction rest as [|ch rest IH]; intros done best Hr Hb; cbn [Merger.smallest_loop]; [by rewrite app_nil_r|].
  rewrite (cons_middle ch done rest), app_assoc in Hr |- *. replace (S (length done)) with (length (done ++ [ch])) by (rewrite length_app; simpl; lia).
  assert (forall c k, Merger.candidate ops (done ++ [ch]) c k <->
    Merger.candidate ops done c k \/ (c = length done /\ it_valid ops ch = true /\ it_key ops ch = k)) as Hc.
  { intros c k. unfold Merger.candidate. split.
    - intros (x & Hx & Hv & Hk). apply lookup_snoc_Some in Hx as [[? Hx]|[-> <-]]; [left|right]; eauto.
    - intros [(x & Hx & Hv & Hk)|(-> & Hv & Hk)]; [exists x; split; [by apply lookup_app_l_Some|done]|exists ch; split; [by apply list_lookup_middle|done]]. }
  assert (forall c k, Merger.candidate ops done c k -> (c < length done)%nat) as Hlt by (intros c k (x & Hx & _); by eapply lookup_lt_Some).
  assert (forall c k, Merger.candidate ops (done ++ [ch]) c k -> readable cmp k) as Hr1.
  { intros c k (x & Hx & H). apply (Hr c k). exists x. split; [by apply lookup_app_l_Some|done]. }
  apply IH; [done|]. unfold first_smallest in *. destruct (it_valid ops ch) eqn:Ev.
  - destruct best as [[c k]|].
    + destruct Hb as [Hb1 Hb2].
      assert (key_lt cmp (it_key ops ch) k \/ ~ key_lt cmp (it_key ops ch) k) as [Hcmp|Hcmp] by (unfold key_lt; destruct (compare _ _ _); auto).
      * rewrite Hcmp. split; [apply Hc; by right|]. intros c' k' [H|(-> & _ & <-)]%Hc; [|split; [apply key_lt_irrefl|lia]]. destruct (Hb2 _ _ H) as [H1 _].
        apply key_not_lt in H1.
        assert (key_lt cmp (it_key ops ch) k') as H2 by (eapply key_lt_le_trans; [| |exact Hcmp|exact H1]; eapply Hr1, Hc; by left). split; [|done]. apply key_not_lt. by apply key_lt_le.
      * assert (match compare cmp (it_key ops ch) k with Lt => Some (length done, it_key ops ch) | _ => Some (c, k) end = Some (c, k)) as -> by (unfold key_lt in Hcmp; by destruct (compare _ _ _)).
        split; [apply Hc; by left|]. intros c' k' [H|(-> & _ & <-)]%Hc; [by apply Hb2|]. split; [done|]. apply Hlt in Hb1. lia.
    + split; [apply Hc; by right|]. intros c' k' [H|(-> & _ & <-)]%Hc; [by apply Hb in H|split; [apply key_lt_irrefl|lia]].
  - destruct best as [[c k]|].
    + destruct Hb as [Hb1 Hb2]. split; [apply Hc; by left|]. intros c' k' [H|(-> & ? & _)]%Hc; [by apply Hb2|done].
    + intros c k [H|(-> & ? & _)]%Hc; [by apply Hb in H|done].
Qed.

(** ** What the children show *)
Context (ls : list (list entry)) (pos : nat -> I -> nat -> Prop).
Context (Hchildren : forall c l, ls !! c = Some l -> SortedIterator ops cmp l (pos c)).
Context (Hsorted : forall c l, ls !! c = Some l -> sorted_by cmp l).
Context (Hparse : forall c l e, ls !! c = Some l -> e ∈ l -> is_Some (parse_internal_key e.1)).

Definition entry_at (c i : nat) (k v : bytes) : Prop := exists l, ls !! c = Some l /\ l !! i = Some (k, v).
(** The order of the merge: by key, and by child where two hold the same one. *)
Definition before (k : bytes) (c : nat) (k' : bytes) (c' : nat) : Prop := key_lt cmp k k' \/ (k = k' /\ (c < c')%nat).
(** The newest version of its user key, of the first child that has it. *)
Definition first_of (c : nat) (k : bytes) : Prop :=
  forall c' i' k' v', entry_at c' i' k' v' -> extract_user_key k' = extract_user_key k -> ~ before k' c' k c.
Definition kept (drop_deletions : bool) (k : bytes) : Prop := ~ (drop_deletions = true /\ (type <$> parse_internal_key k) = Some kDeletion).

Lemma shown_readable c i k v : entry_at c i k v -> readable cmp k.
Proof.
  intros (l & Hl & He). destruct (Hparse c l (k, v) Hl) as [p Hp]; [by eapply list_elem_of_lookup_2|]. cbn [fst] in Hp. unfold parse_internal_key in Hp.
  destruct (Z.ltb_spec (size k) 8); [done|]. unfold readable. cbn. unfold size in *. lia.
Qed.
Lemma entry_unique c i k v k' v' : entry_at c i k v -> entry_at c i k' v' -> k = k' /\ v = v'.
Proof. intros (l & Hl & He) (l' & Hl' & He'). rewrite Hl in Hl'. injection Hl' as <-. rewrite He in He'. by injection He' as <- <-. Qed.
Lemma entry_order c i k v i' k' v' : entry_at c i k v -> entry_at c i' k' v' -> (i < i')%nat -> key_lt cmp k k'.
Proof.
  intros (l & Hl & He) (l' & Hl' & He') Hlt. rewrite Hl in Hl'. injection Hl' as <-. pose proof (Hsorted c l Hl) as S. unfold sorted_by in S.
  eapply (StronglySorted_lookup (key_lt cmp) l.*1 i i'); [done|done|by rewrite list_lookup_fmap, He|by rewrite list_lookup_fmap, He'].
Qed.

(** ** The state of the merge *)
Definition standing (children : list I) (p : nat -> nat) : Prop :=
  length children = length ls /\ forall c ch l, children !! c = Some ch -> ls !! c = Some l -> pos c ch (p c).
Record Merging (drop_deletions : bool) (newest0 : Z) (p : nat -> nat) (n : Seen) (out : list entry) : Prop := {
  mg_split c i k v c' i' k' v' : entry_at c i k v -> (i < p c)%nat -> entry_at c' i' k' v' -> (p c' <= i')%nat -> before k c k' c';
  mg_last : if has_last n
    then (exists c i, entry_at c i (last_emitted n) (last_value n) /\ (i < p c)%nat) /\ last_user_key n = extract_user_key (last_emitted n) /\
         (forall c i k v, entry_at c i k v -> (i < p c)%nat -> key_le cmp k (last_emitted n))
    else forall c i k v, entry_at c i k v -> (p c <= i)%nat;
  mg_sorted : sorted_by cmp out;
  mg_out k v : (k, v) ∈ out <-> exists c i, entry_at c i k v /\ (i < p c)%nat /\ first_of c k /\ kept drop_deletions k;
  mg_newest : newest0 <= newest n;
  mg_seen c i k v q : entry_at c i k v -> (i < p c)%nat -> parse_internal_key k = Some q -> sequence q <= newest n
}.
(** Entry [p c] of child [c] comes before every other that is left. *)
Definition next_one (p : nat -> nat) (c : nat) (k v : bytes) : Prop :=
  entry_at c (p c) k v /\ forall c' i' k' v', entry_at c' i' k' v' -> (p c' <= i')%nat -> (c' = c /\ i' = p c) \/ before k c k' c'.

Lemma find_smallest_next children p :
  standing children p ->
  match Merger.find_smallest ops cmp children with
  | None => forall c i k v, entry_at c i k v -> (i < p c)%nat
  | Some c => exists ch k v, children !! c = Some ch /\ it_key ops ch = k /\ it_value ops ch = Some v /\ next_one p c k v
  end.
Proof.
  intros [Hlen Hp]. unfold Merger.find_smallest.
  assert (forall c ch k, children !! c = Some ch -> it_valid ops ch = true -> it_key ops ch = k ->
    exists v, entry_at c (p c) k v /\ it_value ops ch = Some v) as Hat.
  { intros c ch k Hch Hv <-. destruct (lookup_lt_is_Some_2 ls c) as [l Hl]; [rewrite <- Hlen; by eapply lookup_lt_Some|].
    pose proof (Hp c ch l Hch Hl) as Hpos. pose proof (Hchildren c l Hl) as SI. rewrite (si_valid _ _ Hpos) in Hv. apply Nat.ltb_lt in Hv.
    destruct (lookup_lt_is_Some_2 l (p c) Hv) as [[k0 v0] He0]. destruct (si_entry _ _ _ _ Hpos He0) as [-> Hv0]. exists v0. split; [by exists l|done]. }
  pose proof (smallest_first [] children None) as H. cbn [length app] in H. specialize (H ltac:(intros c k (x & Hx & Hv & Hk); destruct (Hat c x k Hx Hv Hk) as (v & He & _); by eapply shown_readable)
    ltac:(by intros c k (x & Hx & _))).
  assert (forall c i k v, entry_at c i k v -> (p c <= i)%nat -> exists ch k0 v0, children !! c = Some ch /\ entry_at c (p c) k0 v0 /\
    it_valid ops ch = true /\ it_key ops ch = k0 /\ it_value ops ch = Some v0) as Hcand.
  { intros c i k v (l & Hl & He) Hle. destruct (lookup_lt_is_Some_2 children c) as [ch Hch]; [rewrite Hlen; by eapply lookup_lt_Some|].
    pose proof (Hp c ch l Hch Hl) as Hpos. pose proof (Hchildren c l Hl) as SI. apply lookup_lt_Some in He. destruct (lookup_lt_is_Some_2 l (p c)) as [[k0 v0] He0]; [lia|].
    destruct (si_entry _ _ _ _ Hpos He0) as [Hk Hv]. exists ch, k0, v0. split; [done|]. split; [by exists l|]. split; [|done].
    rewrite (si_valid _ _ Hpos). apply Nat.ltb_lt. lia. }
  destruct (Merger.smallest_loop ops cmp children 0 None) as [[c k]|]; cbn [fmap option_fmap option_map fst].
  - destruct H as [(ch & Hch & Hv & Hk) Hmin]. destruct (Hat c ch k Hch Hv Hk) as (v0 & He & Hv0).
    exists ch, k, v0. split; [done|]. split; [done|]. split; [done|]. split; [done|].
    intros c' i' k' v' He' Hle. destruct (Hcand c' i' k' v' He' Hle) as (ch' & k1 & v1 & Hch' & He1 & Hv1 & Hk1 & _).
    destruct (Hmin c' k1) as [Hm1 Hm2]; [by exists ch'|]. apply key_not_lt in Hm1.
    assert (key_le cmp k1 k' /\ ((p c' < i')%nat -> key_lt cmp k1 k')) as [Hle1 Hlt1].
    { destruct (Nat.eq_dec (p c') i') as [<-|Hne]; [destruct (entry_unique _ _ _ _ _ _ He1 He') as [-> ->]; split; [apply key_le_refl|lia]|].
      assert (key_lt cmp k1 k') by (eapply entry_order; [exact He1|exact He'|lia]). split; [by apply key_lt_le|done]. }
    destruct (Nat.eq_dec c' c) as [->|Hc].
    + destruct (entry_unique _ _ _ _ _ _ He1 He) as [-> _]. destruct (Nat.eq_dec i' (p c)) as [->|Hne]; [by left|]. right. left. apply Hlt1. lia.
    + right. destruct (decide (c' < c)%nat) as [Hlt|Hge]; [left; exact (key_lt_le_trans k k1 k' (shown_readable _ _ _ _ He1) (shown_readable _ _ _ _ He') (Hm2 Hlt) Hle1)|].
      assert (key_le cmp k k') as Hkk'.
      { apply key_not_lt. intros Hx. apply (proj2 (key_not_lt k1 k) Hm1). exact (key_le_lt_trans k1 k' k (shown_readable _ _ _ _ He1) (shown_readable _ _ _ _ He') Hle1 Hx). }
      destruct (key_le_lt_eq k k' (shown_readable _ _ _ _ He) (shown_readable _ _ _ _ He') Hkk') as [Hx|Hx]; [by left|right]. split; [done|lia].
  - intros c i k v He. destruct (decide (i < p c)%nat) as [|Hge]; [done|]. destruct (Hcand c i k v He ltac:(lia)) as (ch & k0 & v0 & Hch & _ & Hv & Hk & _).
    exfalso. apply (H c k0). by exists ch.
Qed.
Definition advance (p : nat -> nat) (c : nat) : nat -> nat := λ c', if decide (c' = c) then S (p c) else p c'.
Lemma advance_below p c c' i : (i < advance p c c')%nat -> (i < p c')%nat \/ (c' = c /\ i = p c).
Proof. unfold advance. destruct (decide (c' = c)) as [->|]; [|by left]. intros H. destruct (Nat.eq_dec i (p c)); [by right|left; lia]. Qed.
Lemma advance_above p c c' i : (advance p c c' <= i)%nat -> (p c' <= i)%nat /\ ~ (c' = c /\ i = p c).
Proof. unfold advance. destruct (decide (c' = c)) as [->|Hne]; [|intros H; split; [done|by intros [? _]]]. intros H. split; [lia|]. intros [_ ->]. lia. Qed.
Lemma below_advance p c c' i : (i < p c')%nat \/ (c' = c /\ i = p c) -> (i < advance p c c')%nat.
Proof. unfold advance. intros [H|[-> ->]]; [destruct (decide (c' = c)) as [->|]; lia|]. rewrite decide_True by done. lia. Qed.
Lemma parse_user_key k q : parse_internal_key k = Some q -> user_key q = extract_user_key k.
Proof.
  unfold parse_internal_key. destruct (Z.ltb_spec (size k) 8); [done|]. destruct (trailer k); [|done]. cbn [mbind option_bind].
  destruct (ValueType_of_Z _); [|done]. by intros [= <-].
Qed.
Lemma before_le k c k' c' : before k c k' c' -> key_le cmp k k'.
Proof. intros [H|[-> _]]; [by apply key_lt_le|apply key_le_refl]. Qed.

Lemma before_asym k c k' c' : before k c k' c' -> ~ before k' c' k c.
Proof.
  intros [H|[-> H]] [H'|[Hk H']]; subst; try (by apply key_lt_irrefl in H); try (by apply key_lt_irrefl in H'); [|lia].
  pose proof (key_lt_trans _ _ _ H H') as Hx. by apply key_lt_irrefl in Hx.
Qed.
Lemma before_irrefl k c : ~ before k c k c.
Proof. intros H. by eapply before_asym. Qed.

Lemma newest_iff drop_deletions newest0 p n out c k v :
  Merging drop_deletions newest0 p n out -> next_one p c k v ->
  (negb (has_last n) || bool_decide (extract_user_key k <> last_user_key n) = true <-> first_of c k).
Proof.
  intros M [He Hmin]. pose proof (mg_last _ _ _ _ _ M) as HL. destruct (has_last n); cbn [negb orb].
  - destruct HL as ((cl & il & Hel & Hil) & Hlu & Hmax). rewrite bool_decide_eq_true. split.
    + intros Hne c' i' k' v' He' Hu Hb. assert (i' < p c')%nat as Hi'.
      { destruct (decide (i' < p c')%nat) as [|Hge]; [done|]. exfalso. destruct (Hmin c' i' k' v' He' ltac:(lia)) as [[-> ->]|Hb'].
        - destruct (entry_unique _ _ _ _ _ _ He He') as [-> _]. by apply before_irrefl in Hb.
        - by eapply before_asym. }
      apply Hne. rewrite Hlu, <- Hu. apply eq_sym. apply (group_convex (c := kInternal) (g := extract_user_key) k' (last_emitted n) k).
      * by eapply Hmax.
      * eapply before_le, (mg_split _ _ _ _ _ M); [exact Hel|exact Hil|exact He|done].
      * done.
    + intros Hf Hu. apply (Hf cl il (last_emitted n) (last_value n) Hel); [congruence|]. by eapply (mg_split _ _ _ _ _ M).
  - split; [|done]. intros _ c' i' k' v' He' _ Hb. specialize (HL _ _ _ _ He'). destruct (Hmin _ _ _ _ He' HL) as [[-> ->]|Hb'].
    + destruct (entry_unique _ _ _ _ _ _ He He') as [-> _]. by apply before_irrefl in Hb.
    + by eapply before_asym.
Qed.
Lemma sorted_snoc_entry es k v : sorted_by cmp es -> (forall e, e ∈ es -> key_lt cmp e.1 k) -> sorted_by cmp (es ++ [(k, v)]).
Proof.
  unfold sorted_by. intros S H. rewrite fmap_app. apply StronglySorted_app_2; [|done|repeat constructor].
  intros k1 k2 (e & -> & He)%list_elem_of_fmap ->%list_elem_of_singleton. by apply H.
Qed.
Lemma merging_step drop_deletions newest0 p n out c k v q notes' :
  Merging drop_deletions newest0 p n out -> next_one p c k v -> parse_internal_key k = Some q ->
  let newest_version := negb (has_last n) || bool_decide (user_key q <> last_user_key n) in
  let keep := negb (drop_deletions && bool_decide (type q = kDeletion)) in
  Merging drop_deletions newest0 (advance p c)
    (mkSeen k (if newest_version then user_key q else last_user_key n) v true (Z.max (newest n) (sequence q)) notes')
    (if newest_version && keep then out ++ [(k, v)] else out).
Proof.
  intros M Hnext Hq newest_version keep. pose proof (newest_iff _ _ _ _ _ _ _ _ M Hnext) as Hnew. pose proof Hnext as [He Hmin].
  pose proof (parse_user_key _ _ Hq) as Hu. rewrite <- Hu in Hnew. fold newest_version in Hnew.
  assert (keep = true <-> kept drop_deletions k) as Hkeep.
  { unfold keep, kept. rewrite Hq. cbn [fmap option_fmap option_map]. destruct drop_deletions; cbn [andb negb]; [|naive_solver].
    destruct (bool_decide_reflect (type q = kDeletion)) as [E|E]; cbn [negb]; [rewrite E; naive_solver|]. split; [|done]. intros _ [_ [= H]]. done. }
  assert (forall c' i' k' v', entry_at c' i' k' v' -> (i' < p c')%nat -> before k' c' k c) as Hbefore by (intros; by eapply (mg_split _ _ _ _ _ M)).
  assert (forall e, first_of c k -> e ∈ out -> key_lt cmp e.1 k) as Hlt.
  { intros [k' v'] Hf (c' & i' & He' & Hi' & _)%(mg_out _ _ _ _ _ M). destruct (Hbefore _ _ _ _ He' Hi') as [H|[-> H]]; [done|].
    exfalso. apply (Hf _ _ _ _ He' eq_refl). by right. }
  split; cbn [has_last last_emitted last_value last_user_key newest].
  - intros c1 i1 k1 v1 c2 i2 k2 v2 H1 [Hp1|[-> ->]]%advance_below H2 [Hp2 Hne]%advance_above; [by eapply (mg_split _ _ _ _ _ M)|].
    destruct (entry_unique _ _ _ _ _ _ H1 He) as [-> ->]. by destruct (Hmin _ _ _ _ H2 Hp2).
  - split; [exists c, (p c); split; [done|apply below_advance; by right]|]. split.
    + destruct newest_version eqn:Enew; [done|]. unfold newest_version in Enew. destruct (has_last n); [|done]. cbn [negb orb] in Enew.
      apply bool_decide_eq_false in Enew. apply dec_stable in Enew. congruence.
    + intros c1 i1 k1 v1 H1 [Hp1|[-> ->]]%advance_below; [by eapply before_le, Hbefore|]. destruct (entry_unique _ _ _ _ _ _ H1 He) as [-> ->]. apply key_le_refl.
  - destruct newest_version; [|apply (mg_sorted _ _ _ _ _ M)]. destruct keep; cbn [andb]; [|apply (mg_sorted _ _ _ _ _ M)].
    apply sorted_snoc_entry; [apply (mg_sorted _ _ _ _ _ M)|]. intros e. apply Hlt. by apply Hnew.
  - intros k' v'. assert ((k', v') ∈ (if newest_version && keep then out ++ [(k, v)] else out) <-> (k', v') ∈ out \/ (k' = k /\ v' = v /\ first_of c k /\ kept drop_deletions k)) as ->.
    { rewrite <- Hnew, <- Hkeep. destruct newest_version, keep; cbn [andb]; rewrite ?elem_of_app, ?list_elem_of_singleton; naive_solver. }
    rewrite (mg_out _ _ _ _ _ M). split.
    + intros [(c' & i' & H1 & H2 & H3)|(-> & -> & H3)]; [exists c', i'|exists c, (p c)]; (split; [done|]); (split; [apply below_advance|done]); [by left|by right].
    + intros (c' & i' & H1 & [H2|[-> ->]]%advance_below & H3 & H4); [left; by exists c', i'|right]. by destruct (entry_unique _ _ _ _ _ _ H1 He) as [-> ->].
  - pose proof (mg_newest _ _ _ _ _ M). lia.
  - intros c1 i1 k1 v1 q1 H1 [Hp1|[-> ->]]%advance_below Hq1; [pose proof (mg_seen _ _ _ _ _ M _ _ _ _ _ H1 Hp1 Hq1); lia|].
    destruct (entry_unique _ _ _ _ _ _ H1 He) as [-> _]. rewrite Hq in Hq1. injection Hq1 as <-. lia.
Qed.
(** ** The loop *)
Context (name : bytes) (options : Options) (max_file_size : Z).
Context (Hi : 1 <= block_restart_interval options) (Hpol : forall p, filter_policy options = Some p -> FilterPolicyLaws p).
(** Tables of what the children hold fit. *)
Context (Hfit : forall es, sorted_by cmp es -> (forall e, e ∈ es -> exists c i, entry_at c i e.1 e.2) -> weight es < 2 ^ 32 /\ size (image options es) < 2 ^ 32).

Lemma infix_sorted (l1 l2 l3 : list entry) : sorted_by cmp (l1 ++ l2 ++ l3) -> sorted_by cmp l2.
Proof. unfold sorted_by. rewrite !fmap_app. intros H. by eapply StronglySorted_app_1_l, StronglySorted_app_1_r. Qed.
Lemma good_infix drop_deletions newest0 p n l1 l2 l3 : Merging drop_deletions newest0 p n (l1 ++ l2 ++ l3) -> good options l2.
Proof using Hparse Hfit.
  intros M. pose proof (infix_sorted _ _ _ (mg_sorted _ _ _ _ _ M)) as S.
  assert (forall e, e ∈ l2 -> exists c i, entry_at c i e.1 e.2) as H.
  { intros [k v] He. destruct (mg_out _ _ _ _ _ M k v) as [Ho _]. destruct Ho as (c & i & H & _); [|by exists c, i]. rewrite !elem_of_app. auto. }
  destruct (Hfit l2 S H) as [F1 F2]. split_and!; try done. apply Forall_forall. intros e He. destruct (H e He) as (c & i & Hat). by eapply shown_readable.
Qed.

(** How many entries are left. *)
Definition left (p : nat -> nat) : nat := sum_list (imap (λ c l, length l - p c)%nat ls).
Lemma sum_imap_step {X} (f g : nat -> X -> nat) (xs : list X) c x :
  xs !! c = Some x -> f c x = S (g c x) -> (forall c' x', c' <> c -> f c' x' = g c' x') -> sum_list (imap f xs) = S (sum_list (imap g xs)).
Proof.
  revert f g c. induction xs as [|y xs IH]; intros f g c Hc Hf Hne; [done|]. cbn [imap sum_list]. destruct c as [|c].
  - injection Hc as ->. rewrite Hf. cbn. f_equal. f_equal. f_equal. apply imap_ext. intros i z _. by apply Hne.
  - rewrite (Hne 0%nat y) by done. rewrite (IH (f ∘ S) (g ∘ S) c); [lia|done|done|]. intros c' x' Hc'. apply Hne. lia.
Qed.
Lemma left_advance p c k v : entry_at c (p c) k v -> left p = S (left (advance p c)).
Proof.
  intros (l & Hl & He). apply lookup_lt_Some in He. unfold left. eapply sum_imap_step; [exact Hl| |].
  - unfold advance. rewrite decide_True by done. lia.
  - intros c' l' Hne. unfold advance. by rewrite decide_False.
Qed.
Lemma standing_advance children p c ch k v :
  standing children p -> children !! c = Some ch -> entry_at c (p c) k v ->
  exists ch', it_next ops ch = Some ch' /\ standing (<[c := ch']> children) (advance p c).
Proof using Hchildren.
  intros [Hlen Hp] Hch (l & Hl & He). pose proof (Hchildren c l Hl) as SI. destruct (si_next _ _ (Hp c ch l Hch Hl)) as (ch' & E & Hpos); [by eapply lookup_lt_Some|].
  exists ch'. split; [done|]. split; [by rewrite length_insert|]. intros c' ch0 l' [(-> & -> & _)|[Hne H]]%list_lookup_insert_Some Hl'; unfold advance.
  - rewrite decide_True by done. rewrite Hl in Hl'. by injection Hl' as <-.
  - rewrite decide_False by done. by eapply Hp.
Qed.
Lemma check_order_fine drop_deletions newest0 p n out c k v u w nt :
  Merging drop_deletions newest0 p n out -> next_one p c k v ->
  exists notes', check_order (mkSeen (last_emitted n) (last_user_key n) (last_value n) (has_last n) w nt) k v u =
    Some (mkSeen (last_emitted n) (last_user_key n) (last_value n) (has_last n) w notes').
Proof.
  intros M [He _]. unfold check_order. cbn [has_last last_emitted last_user_key last_value newest notes].
  destruct (has_last n) eqn:Eh; [|by eexists]. pose proof (mg_last _ _ _ _ _ M) as HL. rewrite Eh in HL.
  destruct HL as ((c' & i' & He' & Hi') & _). pose proof (before_le _ _ _ _ (mg_split _ _ _ _ _ M _ _ _ _ _ _ _ _ He' Hi' He ltac:(lia))) as Hle. unfold key_le in Hle.
  destruct (compare cmp (last_emitted n) k) eqn:Ec; [by eexists|by eexists|done].
Qed.

Abbreviation Writing := (Writing name options).
(** The pass is undone: no output, and only its own names were used. *)
Definition undone (first : Z) (d0 : Disk) (k : Sink) : Prop := s_outputs k = [] /\ d_ok (s_disk k) /\ apart (mine name first (s_next k)) d0 (s_disk k).
Lemma merge_loop_spec fuel drop_deletions newest0 first d0 children p n k chunks cur :
  0 <= first -> standing children p -> Merging drop_deletions newest0 p n (concat chunks ++ cur) -> Writing first d0 k chunks cur ->
  (left p < fuel)%nat -> s_next k + Z.of_nat (left p) + 1 < 2 ^ 64 ->
  exists s children' n' k', merge_loop name options max_file_size ops fuel drop_deletions children n k = Some (s, children', n', k') /\
    s_next k' <= s_next k + Z.of_nat (left p) /\
    if is_ok s then exists p' chunks' cur', standing children' p' /\ Merging drop_deletions newest0 p' n' (concat chunks' ++ cur') /\ Writing first d0 k' chunks' cur' /\
        forall c i k v, entry_at c i k v -> (i < p' c)%nat
    else undone first d0 k'.
Proof using Hchildren Hsorted Hparse Hi Hpol Hfit.
  revert children p n k chunks cur. induction fuel as [|fuel IH]; intros children p n k chunks cur H0 St M W Hf Hroom; [lia|]. cbn [merge_loop].
  pose proof (find_smallest_next children p St) as Hs. destruct (Merger.find_smallest ops cmp children) as [c|].
  2: { exists ok, children, n, k. split; [done|]. split; [lia|]. change (is_ok ok) with true. by exists p, chunks, cur. }
  destruct Hs as (ch & key & v & Hch & Hk & Hv & Hnext). pose proof Hnext as [He _]. rewrite Hch. cbn [mbind option_bind]. rewrite Hk.
  assert (exists q, parse_internal_key key = Some q) as [q Hq]. { destruct He as (l & Hl & He). apply (Hparse c l (key, v) Hl). by eapply list_elem_of_lookup_2. }
  rewrite Hq, Hv. cbn [mbind option_bind]. cbn [last_emitted last_user_key last_value has_last newest notes].
  destruct (check_order_fine _ _ _ _ _ _ _ _ (user_key q) (Z.max (newest n) (sequence q)) (notes n) M Hnext) as (notes' & ->).
  cbn [last_emitted last_user_key last_value has_last newest notes].
  pose proof (merging_step _ _ _ _ _ _ _ _ _ notes' M Hnext Hq) as M'. cbv zeta in M'.
  pose proof (left_advance _ _ _ _ He) as Hleft. destruct (standing_advance _ _ _ _ _ _ St Hch He) as (ch' & Enext & St').
  set (nv := negb (has_last n) || _) in *. set (kp := negb (drop_deletions && _)) in *.
  destruct (nv && kp).
  - rewrite <- app_assoc in M'. pose proof (good_infix _ _ _ _ (concat chunks) (cur ++ [(key, v)]) [] ltac:(by rewrite app_nil_r; exact M')) as Hg.
    pose proof (good_infix _ _ _ _ (concat chunks ++ cur) [(key, v)] [] ltac:(rewrite app_nil_r, <- app_assoc; exact M')) as Hg1.
    destruct (put_entry_spec name options max_file_size Hi Hpol first d0 k chunks cur key v H0 W ltac:(lia) Hg1 Hg) as (s & k1 & -> & Hn1 & H1). cbn [mbind option_bind].
    destruct (is_ok s) eqn:Es; cbn [negb].
    + destruct H1 as (chunks1 & cur1 & W1 & E1 & _). rewrite <- E1 in M'. rewrite Enext. cbn [mbind option_bind].
      destruct (IH _ _ _ _ _ _ H0 St' M' W1 ltac:(lia) ltac:(lia)) as (s' & children' & n' & k' & -> & Hn' & H'). exists s', children', n', k'. split; [done|]. split; [lia|done].
    + eexists s, children, _, _. split; [done|]. destruct (abandon_spec name first d0 k1 H1) as (A1 & A2 & A3 & A4). rewrite A2. split; [lia|]. rewrite Es. split; [done|]. by rewrite A2.
  - cbn [mbind option_bind]. change (is_ok ok) with true. cbn [negb]. rewrite Enext. cbn [mbind option_bind].
    destruct (IH _ _ _ _ _ _ H0 St' M' W ltac:(lia) ltac:(lia)) as (s' & children' & n' & k' & -> & Hn' & H'). exists s', children', n', k'. split; [done|]. split; [lia|done].
Qed.
Lemma start_loop_spec c0 children :
  (forall c ch l, children !! c = Some ch -> ls !! (c0 + c)%nat = Some l -> exists i, pos (c0 + c)%nat ch i) ->
  (forall c ch, children !! c = Some ch -> is_Some (ls !! (c0 + c)%nat)) ->
  exists children', start_children ops children = Some (ok, children') /\ length children' = length children /\
    forall c ch l, children' !! c = Some ch -> ls !! (c0 + c)%nat = Some l -> pos (c0 + c)%nat ch 0%nat.
Proof using Hchildren.
  revert c0. induction children as [|ch children IH]; intros c0 Hp Hl; cbn [start_children]; [by exists []|].
  destruct (Hl 0%nat ch eq_refl) as [l Hl0]. destruct (Hp 0%nat ch l eq_refl Hl0) as [i Hpos]. rewrite Nat.add_0_r in *. pose proof (Hchildren c0 l Hl0) as SI.
  destruct (si_first _ _ Hpos) as (ch' & -> & Hpos'). cbn [mbind option_bind]. rewrite (si_status _ _ Hpos'). change (is_ok ok) with true. cbn [negb]. rewrite andb_false_r.
  destruct (IH (S c0)) as (rest & -> & Hlen & Hrest).
  - intros c x l' Hx Hl'. replace (S c0 + c)%nat with (c0 + S c)%nat in * by lia. by eapply Hp.
  - intros c x Hx. replace (S c0 + c)%nat with (c0 + S c)%nat by lia. by eapply Hl.
  - cbn [mbind option_bind]. exists (ch' :: rest). split; [done|]. split; [cbn [length]; lia|]. intros [|c] x l' Hx Hl'.
    + rewrite Nat.add_0_r in *. injection Hx as <-. rewrite Hl0 in Hl'. by injection Hl' as <-.
    + replace (c0 + S c)%nat with (S c0 + c)%nat in * by lia. by eapply Hrest.
Qed.
Lemma standing_ok children p : standing children p -> Merger.first_failure ops children = ok.
Proof using Hchildren.
  intros [Hlen Hp]. assert (forall ch, ch ∈ children -> it_status ops ch = ok) as H.
  { intros ch (c & Hc)%list_elem_of_lookup. destruct (lookup_lt_is_Some_2 ls c) as [l Hl]; [rewrite <- Hlen; by eapply lookup_lt_Some|].
    pose proof (Hchildren c l Hl) as SI. by apply (si_status _ _ (Hp c ch l Hc Hl)). }
  clear Hlen Hp. induction children as [|ch children IH]; [done|]. cbn [Merger.first_failure]. rewrite (H ch) by left. change (is_ok ok) with true. apply IH. intros x Hx. apply H. by right.
Qed.
Lemma left_start : left (λ _, 0%nat) = length (concat ls).
Proof.
  unfold left. clear. induction ls as [|l rest IH]; [done|]. cbn [imap sum_list concat]. rewrite length_app, Nat.sub_0_r. f_equal. exact IH.
Qed.

(** What the outputs of a pass are: tables of these chunks. *)
Definition written (first : Z) (k : Sink) (chunks : list (list entry)) : Prop :=
  length (s_outputs k) = length chunks /\
  forall i m ch, s_outputs k !! i = Some m -> chunks !! i = Some ch ->
    number m = first + Z.of_nat i /\ ch <> [] /\ described options ch m /\ held (s_disk k) (table_file_name name (number m)) (image options ch).

End Merge.
(** ** Example

    Two tables with one user key, the older version in the first. *)
Definition sample_newer : bytes * bytes := (make_internal_key [x61] 5 kValue, [x31]).
Definition sample_older : bytes * bytes := (make_internal_key [x61] 3 kValue, [x30]).
Definition sample_tables : list (list (bytes * bytes)) := [[sample_older]; [sample_newer]].
Lemma sample_lists c l : sample_tables !! c = Some l -> l = [sample_older] \/ l = [sample_newer].
Proof. destruct c as [|[|c]]; intros H; [left|right|done]; by injection H. Qed.
Lemma sample_entry_at c i k v : entry_at sample_tables c i k v -> (k, v) = sample_older \/ (k, v) = sample_newer.
Proof. intros (l & [->| ->]%sample_lists & He); [left|right]; apply list_elem_of_singleton; by eapply list_elem_of_lookup_2. Qed.
Lemma sample_order : key_lt internal_key_comparator sample_newer.1 sample_older.1 /\ ~ key_lt internal_key_comparator sample_older.1 sample_newer.1 /\
  ~ key_lt internal_key_comparator sample_newer.1 sample_newer.1 /\ ~ key_lt internal_key_comparator sample_older.1 sample_older.1.
Proof. split_and!; vm_compute; congruence. Qed.
Lemma sample_tables_fit es :
  sorted_by internal_key_comparator es -> (forall e, e ∈ es -> exists c i, entry_at sample_tables c i e.1 e.2) ->
  weight es < 2 ^ 32 /\ size (image Table.sample_options es) < 2 ^ 32.
Proof.
  intros S H. assert (forall e, e ∈ es -> e = sample_older \/ e = sample_newer) as Hin.
  { intros [k v] He. destruct (H _ He) as (c & i & Hat). by apply sample_entry_at in Hat. }
  clear H. destruct sample_order as (O1 & O2 & O3 & O4). unfold sorted_by in S.
  assert (es = [] \/ es = [sample_older] \/ es = [sample_newer] \/ es = [sample_newer; sample_older]) as [->|[->|[->| ->]]].
  { destruct es as [|a es]; [by left|right]. rewrite fmap_cons in S. apply StronglySorted_inv in S as [S Ha]. rewrite Forall_fmap, Forall_forall in Ha.
    destruct es as [|b es]; [destruct (Hin a) as [->| ->]; [left|auto|auto]|].
    assert (key_lt internal_key_comparator a.1 b.1) as Hab by (apply Ha; left). rewrite fmap_cons in S. apply StronglySorted_inv in S as [S Hb]. rewrite Forall_fmap, Forall_forall in Hb.
    destruct (Hin a) as [->| ->]; [left| |]; (destruct (Hin b) as [->| ->]; [right; left| |]); try contradiction.
    destruct es as [|x es]; [by right; right|]. assert (key_lt internal_key_comparator sample_older.1 x.1) as Hbx by (apply Hb; left).
    destruct (Hin x) as [->| ->]; [right; right; left| |]; contradiction. }
  all: split; vm_compute; reflexivity.
Qed.
Definition sample_pos (c : nat) (it : list (bytes * bytes) * nat) (i : nat) : Prop :=
  it = (default [] (sample_tables !! c), i) /\ (i <= length (default [] (sample_tables !! c)))%nat.
Lemma sample_children c l : sample_tables !! c = Some l -> SortedIterator (list_iterator internal_key_comparator) internal_key_comparator l (sample_pos c).
Proof. intros Hl. unfold sample_pos. rewrite Hl. apply list_iterator_sorted. Qed.
(** * Reading a table from end to end *)
Section Read.
Context {I : Type} (ops : Iterator I) (es : list (bytes * bytes)) (pos : I -> nat -> Prop) `{SI : !SortedIterator ops internal_key_comparator es pos}.
Abbreviation cmp := internal_key_comparator.
Definition readable_table (l : list (bytes * bytes)) : Prop := (forall e, e ∈ l -> is_Some (parse_internal_key e.1)) /\ sorted_by cmp l.
(** What is known after [i] entries. *)
Record Read (i : nat) (previous : bytes) (meta0 meta : FileMetaData) (newest0 newest : Z) : Prop := {
  rd_table : readable_table (take i es);
  rd_previous : (0 < i)%nat -> last (take i es).*1 = Some previous;
  rd_meta : number meta = number meta0 /\ VersionEdit.file_size meta = VersionEdit.file_size meta0 /\
    ((0 < i)%nat -> head es.*1 = Some (smallest meta) /\ largest meta = previous);
  rd_newest : newest0 <= newest /\ forall e q, e ∈ take i es -> parse_internal_key e.1 = Some q -> sequence q <= newest
}.
Lemma take_snoc_entry i k v : es !! i = Some (k, v) -> take (S i) es = take i es ++ [(k, v)].
Proof. apply take_S_r. Qed.
Lemma read_loop_spec fuel it i previous meta0 meta newest0 newest :
  pos it i -> (length es - i < fuel)%nat -> Z.of_nat (length es) < 2 ^ 64 -> Read i previous meta0 meta newest0 newest ->
  exists s meta' newest' entries, read_loop ops fuel it previous meta newest (Z.of_nat i) = Some (s, meta', newest', entries) /\
    (is_ok s = true <-> es <> [] /\ readable_table es) /\
    (is_ok s = true -> entries = Z.of_nat (length es) /\ Read (length es) (largest meta') meta0 meta' newest0 newest').
Proof using SI.
  revert it i previous meta newest. induction fuel as [|fuel IH]; intros it i previous meta newest Hp Hf Hlen R; [lia|]. cbn [read_loop].
  rewrite (si_valid _ _ Hp). pose proof (si_bound _ _ Hp) as Hb. destruct (Nat.ltb_spec i (length es)) as [Hlt|Hge].
  2: { assert (i = length es) as -> by lia. rewrite (si_status _ _ Hp). change (is_ok ok) with true. cbn [andb]. destruct R as [R1 R2 R3 R4]. rewrite firstn_all in *.
       eexists _, meta, newest, _. split; [done|]. destruct (Z.eqb_spec (Z.of_nat (length es)) 0) as [E0|E0].
       - split; [|done]. split; [done|]. intros [Hne _]. destruct es; [done|cbn [length] in E0; lia].
       - split; [split; [intros _; split; [by intros E; rewrite E in E0|done]|done]|]. intros _. split; [done|]. destruct R3 as (N1 & N2 & N3). destruct (N3 ltac:(lia)) as [N4 N5].
         split; rewrite ?firstn_all, ?N5; try done. }
  destruct (lookup_lt_is_Some_2 es i Hlt) as [[k v] He]. destruct (si_entry _ _ _ _ Hp He) as [-> _].
  assert ((k, v) ∈ es) as Hin by (by eapply list_elem_of_lookup_2).
  destruct (parse_internal_key k) as [q|] eqn:Eq.
  2: { eexists _, meta, newest, _. split; [done|]. split; [|done]. split; [done|]. intros (_ & Hall & _). destruct (Hall _ Hin) as [q Hq]. cbn [fst] in Hq. congruence. }
  destruct R as [[R1 R1'] R2 (R3 & R3' & R3'') [R4 R4']].
  destruct (negb (Z.of_nat i =? 0) && bool_decide (compare cmp previous k <> Lt)) eqn:Ebad.
  { apply andb_true_iff in Ebad as [Ei Ec]. apply bool_decide_eq_true in Ec. apply negb_true_iff, Z.eqb_neq in Ei.
    eexists _, meta, newest, _. split; [done|]. split; [|done]. split; [done|]. intros (_ & _ & Hs). exfalso. apply Ec.
    specialize (R2 ltac:(lia)). rewrite last_lookup, length_fmap, length_take, Nat.min_l in R2 by lia. rewrite fmap_take, lookup_take_Some in R2. destruct R2 as [R2 _].
    unfold sorted_by in Hs. eapply (StronglySorted_lookup (key_lt cmp) es.*1 (pred i) i); [done|lia|exact R2|by rewrite list_lookup_fmap, He]. }
  destruct (si_next _ _ Hp Hlt) as (it' & -> & Hp'). cbn [mbind option_bind]. rewrite u64_small by lia. replace (Z.of_nat i + 1) with (Z.of_nat (S i)) by lia.
  set (meta1 := if Z.of_nat i =? 0 then set_smallest meta k else meta).
  apply IH; [done|lia|done|]. split; rewrite ?(take_snoc_entry _ _ _ He).
  - split; [intros e [He'|He']%elem_of_app; [by apply R1|apply list_elem_of_singleton in He' as ->; by exists q]|].
    destruct (decide (i = 0%nat)) as [E0|Hi0]; [rewrite E0; repeat constructor|]. apply (sorted_snoc_entry _ k v R1'). intros e Hel.
    apply andb_false_iff in Ebad as [Ebad|Ebad]; [apply negb_false_iff, Z.eqb_eq in Ebad; lia|]. apply bool_decide_eq_false, dec_stable in Ebad.
    specialize (R2 ltac:(lia)). apply last_Some in R2 as [l El]. unfold sorted_by in R1'. rewrite El in R1'.
    assert (e.1 ∈ l ++ [previous]) as Hin' by (rewrite <- El; by apply list_elem_of_fmap_2). apply elem_of_app in Hin' as [Hl|Hl].
    + eapply key_lt_trans; [|exact Ebad]. eapply StronglySorted_app_1_elem_of; [exact R1'|exact Hl|left].
    + apply list_elem_of_singleton in Hl as ->. exact Ebad.
  - intros _. rewrite fmap_app. apply last_snoc.
  - unfold meta1. split; [by destruct (Z.of_nat i =? 0)|]. split; [by destruct (Z.of_nat i =? 0)|]. intros _. split; [|by destruct (Z.of_nat i =? 0)].
    destruct (Z.eqb_spec (Z.of_nat i) 0) as [E0|E0]; cbn [set_largest set_smallest smallest]; [|by apply R3''; lia].
    assert (i = 0%nat) as -> by lia. by rewrite head_lookup, list_lookup_fmap, He.
  - split; [lia|]. intros e q' [He'|He']%elem_of_app Hq'; [specialize (R4' _ _ He' Hq'); lia|]. apply list_elem_of_singleton in He' as ->. cbn [fst] in Hq'. rewrite Eq in Hq'. injection Hq' as <-. lia.
Qed.

End Read.
End Repair.
